(* ===== verification/_CoqProject ===== *)
-Q . S2P
Prelude.v
Encoding.v
Protocol.v
Labels.v
JournalSpec.v
FragmentName.v
CoverSet.v
FragmentIndex.v
Spool.v
Pipeline.v
Framing.v
Segment.v
Fsm.v
Recorder.v
LocalFS.v
Playback.v
MakeLive.v
Restore.v
ClientReader.v
AppendBuffer.v
AppendService.v
AppendChains.v
AppendLog.v
KeySpace.v
PushRelabel.v
PushEnds.v
AllocKeys.v
AllocState.v
AllocTxn.v
ItemState.v
Rounds.v
Converge.v
FlowNetwork.v
AllocFlow.v
AllocSolve.v
Allocate.v
Resolver.v
ReadApi.v
ListApi.v
ListClient.v
Dispatcher.v
Routing.v
Persister.v
ConsumerTxn.v
Shards.v
ShardReplica.v
AppendApi.v
Appender.v
