(* ===== verification/Prelude.v ===== *)
(** * Gazette: a verification development of the brokers, recovery logs and allocator of v2

    Gazette is a broker of journals: append-only byte streams that are replicated by brokers,
    indexed as fragments, and persisted to stores. Consumers keep recovery logs in journals, and
    Etcd holds the specifications of brokers and journals and their assignment to each other. The
    development models the second version of the program, the Go packages of src/v2/pkg.

    ** Parts, and the files that model them

    - Prelude.v: outcomes of Go code ([Ret] or [Panic]), integers at their width, slices,
      [sort.Search], and what the components share of lists, maps and sorting.
    - Encoding.v: what the source uses of encoding/binary, encoding/hex, crypto/sha1, hash/crc32.
    - Protocol.v: messages of protocol/protocol.proto and their [Validate] methods
      (protocol/validator.go, rpc_extensions.go, header_extensions.go, route_extensions.go, ...).
    - Labels.v: label sets and selectors (protocol/label_extensions.go, labels/labels.go).
    - JournalSpec.v: journal specifications and the tree that tooling edits them in
      (protocol/journal_spec_extensions.go, fragment_store.go, journalspace/node.go).
    - FragmentName.v: content names of fragments (protocol/fragment_extensions.go).
    - CoverSet.v, FragmentIndex.v: the fragments of a journal and their index
      (fragment/cover_set.go, fragment.go, index.go).
    - Spool.v: the fragment that a replica writes (fragment/spool.go, spool_unix.go).
    - Pipeline.v: replication of appends (broker/pipeline.go, append_api.go, replicate_api.go and
      the parts of replica.go that hand over spools and pipelines). It is a client of the spool
      through the class [ReplicaSpool], which Spool.v discharges.
    - Framing.v: fixed framing of messages (message/fixed_framing.go).
    - Segment.v, Fsm.v, Recorder.v: recovery logs, their state machine and its recorder
      (recoverylog/segment.go, fsm.go, recorded_op_extensions.go, recorder.go).
    - LocalFS.v, Playback.v, MakeLive.v, Restore.v: what the source uses of the local file system,
      the player of recovery logs (recoverylog/playback.go), and the proofs that it restores what
      was recorded.
    - ClientReader.v: clients' readers of journals (client/reader.go, retry_reader.go,
      codecs/codecs.go).
    - AppendBuffer.v, AppendService.v, AppendChains.v, AppendLog.v: asynchronous appends of clients
      (client/append_service.go, append_service_unix.go): the buffers; the service as steps of the
      goroutines of clients and loops; the invariants of its chains of appends; and what it
      delivers to brokers.
    - KeySpace.v: the local mirror of an Etcd prefix (keyspace/key_values.go, key_space.go).
    - PushRelabel.v, PushEnds.v: maximum flow (allocator/push_relabel/push_relabel.go): on validly
      labeled networks, and that it ends on acyclic ones whatever their heights.
    - AllocKeys.v, AllocState.v: the keys of items, members and assignments, and the state that is
      observed from them (allocator/allocator_key_space.go, alloc_state.go), over a [KeySpace].
    - AllocTxn.v: checkpoints, and their batches as Etcd transactions (allocator/allocator.go). The
      class [checkpointTxn] is the interface of the code, [checkpointLaws] what its clients rely on.
    - ItemState.v, Rounds.v, Converge.v: edits of assignments within constraints, their effect on
      Etcd, and the walk over all items (allocator/item_state.go, [converge] of allocator.go).
    - FlowNetwork.v: the allocation as a flow (allocator/flow_network.go).
    - AllocFlow.v, AllocSolve.v: what the flows of that network say of the assignments read from
      them; and that of an observed state there are such, without a panic.
    - Allocate.v: an iteration of the allocator (allocator/allocator.go, [Allocate]).
    - Resolver.v: the key space of brokers and the resolution of journals to brokers and replicas
      (broker/key_space.go, resolver.go, protocol/route_extensions.go); it instantiates the
      allocator's values with brokers, journals and routes.
    - ReadApi.v: the Read API of brokers (broker/read_api.go), a client of the resolver and of the
      fragment index, and the composition of its brokers with clients' readers.
    - ListApi.v: the List, Apply and ListFragments APIs (broker/list_apply_api.go, fragments_api.go)
      and their messages (protocol/rpc_extensions.go).
    - ListClient.v: clients' lists over pages, applies in batches, and polled lists
      (client/list.go), of servers with the APIs of ListApi.v.
    - Dispatcher.v: the choice of a broker's connection by a request's route, idle connections, and
      the cache of routes (protocol/dispatcher.go, endpoint.go, client/route_cache.go).
    - Routing.v: messages to journals: JSON framing, the mappings of keys to journals, and Publish
      (message/json_framing.go, routines.go, interfaces.go).
    - Persister.v: spools that await to be persisted, as steps of goroutines (fragment/persister.go).
    - ConsumerTxn.v: transactions of a consumer of messages ([txnStep] and [consumeMessages] of
      consumer/lifecycle.go), as a loop whose timer, messages, application and store are inputs.
    - Shards.v: specifications of shards, their statuses, and the hints of their recovery logs in
      Etcd (consumer/shard_spec_extensions.go, lifecycle.go, consumer.proto).
    - ShardReplica.v: the replicas of shards that a consumer process has of its assignments
      (consumer/resolver.go, replica.go).
    - AppendApi.v: the Append API (broker/append_api.go), over the resolver and the pipeline, and
      brokers that proxy it. The class [AppendServerLaws] is what clients rely on, which primaries
      and proxies discharge.
    - Appender.v: appends of clients (client/appender.go) with their retries, over connections that
      break, to servers with those laws.

    Definitions carry the names of the source where there is one. A struct is a record, a pointer
    shared by several holders an index into a store, a method a function from the state before to
    the state after. Code that may panic returns an [outcome]; errors are values of a sum or an
    [option string]. Libraries are parameters or classes: the Etcd client, codecs, URLs, listings
    of stores, generated (un)marshalers, [sort.Slice].

    ** What the theorems show

    - Spools and replication: [Apply] of a spool implements an abstract replica, for every outcome
      of its file operations, and returns; replicas that apply the same proposals agree; committed
      content does not change; an append commits at all replicas or is rolled back at all of them;
      a pipeline that is out of step converges.
    - Indexes: the cover set is its reference definition, queries answer with a fragment that holds
      the offset or with the documented error, refreshes keep what is only local.
    - Recovery logs: segments and the state machine keep their invariants; playback of a log
      against the hints of a state rebuilds that state; the recorder of a directory refines a file
      system, and writes the frames of what its state machine applied; a player that is given the
      log and hints restores the recorded files in its directory.
    - Reads: a resolution tells the journal's route and who serves it, and a broker has the replica
      of what resolves to itself; the responses of a broker, also a proxying one, deliver the
      journal from the fragments that they tell of; clients read the bytes of the journal in order
      and once, whatever fails.
    - Appends end to end: a broker that is primary appends the content of an RPC at the end of the
      journal and confirms the fragment, or appends nothing, and a proxy forwards that, while a client stream that
      is canceled races with the answer of the peer; a client that retries
      leaves whole copies of its content in the journal, at least one when it returns without an
      error and at most one at an explicit offset; once connections hold, it succeeds.
    - Listings: List returns the matching journals with their revisions and routes; Apply is atomic;
      clients that walk the pages of ListFragments get all fragments in the time range, once.
    - Dispatch: of the members of a route the one that is picked is as documented in every state of
      connections.
    - Messages: mappings of keys move few keys when journals change.
    - Consumers: transactions begin, flush and commit in order, and do commit; spools that are
      complete are persisted or are still queued; recovered hints rotate through the backup keys;
      statuses of shards advance; replicas of shards are those of the assignments.
    - Asynchronous appends: the writes of a client take effect whole or not at all; in every
      interleaving brokers confirm what clients released, in order and once (counting confirmed RPCs), an RPC waits for
      the dependencies of its append, clients have exclusive access, nothing panics, and no
      deadlock arises but of a mutex that the code leaves locked, which a theorem shows.
    - Codings: framing, content names and paths, keys of the allocator and journal trees round-trip.
    - Key space: the merge of watch responses is the application to each key of its own events.
    - Allocator: [FindMaxFlow] ends with a maximum flow on labeled networks, and ends on acyclic
      ones, as that of the allocator is, whose overflow node is not labeled validly; the observed state is
      what the keys hold; members agree on a leader; a batch issues checkpoints in order, whole,
      and under fixed comparisons; a round turns the assignments of an item into the next ones and
      keeps the replication of items and limits of members; convergence does so for all items; the
      scaled capacities of zones suffice for the items; of an observed state there are assignments
      that respect the replication, zones and limits; an iteration composes these.
    - Labels: set algebra, updates, and matching of selectors.

    Some theorems show that the code departs from its documentation; they are named where they
    are, and state the input on which it does.

    ** Fuel and bounds

    Loops of the source are structural recursions where they walk a slice. Others take fuel that
    is enough by construction: [sort_Search] as many rounds as the range is long, the left join as
    many as it has entries on the right, the walk of [init] as many as there are assignments, the
    merge of watch responses as many as there are events. Where the bound is not evident a theorem
    states that enough fuel exists and that the result is then the same ([FindMaxFlow], [solve],
    [Apply] of a spool, whose retry loops take the outcomes of file operations from a list). Calls
    of [read] take as many as there are responses in the stream, and loops over a source as many as
    it has bytes and short reads; running out of fuel is a panic there, which theorems exclude.
    Offsets, revisions and slots are at the width of the code; theorems whose arithmetic must not
    wrap state the range.

    ** Not modelled

    - I/O and its wrappers: stores of fragments, HTTP gateways, keep-alives, metrics, logging,
      RocksDB, and the loops of timers and channels that call the modelled functions. They have no
      state of their own that the kernel could check.
    - Generated code (protocol.pb.go and others): its messages are the records of Protocol.v.
    - The start and shutdown of brokers and consumers (broker/service.go, consumer/service.go), the
      announcement of members, the RPCs of shards, the playback of a shard into its store and the
      pump of its messages, and the stores of consumers.
    - The first version (src/pkg): v2 replaces it. *)
From stdpp Require Export prelude strings sorting pretty gmap.
From Stdlib Require Export ZArith Lia.

(** The notations of the development live in a scope of their own. *)
Declare Scope go_scope.
Delimit Scope go_scope with go.

(** ** Outcomes of Go code: a value, or a panic *)

Inductive outcome (A : Type) : Type :=
| Ret (a : A)
| Panic (msg : string).
Arguments Ret {A} a.
Arguments Panic {A} msg.

Definition outcome_bind {A B} (m : outcome A) (k : A → outcome B) : outcome B :=
  match m with Ret a => k a | Panic msg => Panic msg end.

Notation "'let!' x ':=' m 'in' k" := (outcome_bind m (λ x, k))
  (at level 10, x pattern, m at level 100, k at level 200) : go_scope.
Open Scope go_scope.

(** [for i := range l { acc = f(acc, l[i]) }] where the body may panic. *)
Fixpoint outcome_fold {A B} (f : B → A → outcome B) (acc : B) (l : list A) : outcome B :=
  match l with
  | [] => Ret acc
  | x :: l => let! acc' := f acc x in outcome_fold f acc' l
  end.

Lemma outcome_bind_Ret {A B} (m : outcome A) (k : A → outcome B) b :
  outcome_bind m k = Ret b ↔ ∃ a, m = Ret a ∧ k a = Ret b.
Proof.
  destruct m as [a|]; simpl; split; [eauto|by intros (?&[=->]&?)|done|by intros (?&?&?)].
Qed.

(** Unlike [injection], this leaves the two values as they are. *)
Lemma Ret_inj {A} (a b : A) : Ret a = Ret b → a = b.
Proof. congruence. Qed.

Lemma outcome_fold_app {A B} (f : B → A → outcome B) acc l1 l2 :
  outcome_fold f acc (l1 ++ l2) = let! a := outcome_fold f acc l1 in outcome_fold f a l2.
Proof. revert acc. induction l1 as [|x l1 IH]; intros acc; simpl; [done|].
  destruct (f acc x); simpl; [apply IH|done].
Qed.

(** ** Machine integers

    A Go [int64] (resp. [int32], [uint32]) is a [Z]; arithmetic that can leave
    the width is written with the wrap-around of the language. *)

Local Open Scope Z_scope.

Definition wrapS (w : Z) (z : Z) : Z := (z + 2 ^ (w - 1)) mod 2 ^ w - 2 ^ (w - 1).
Definition wrapU (w : Z) (z : Z) : Z := z mod 2 ^ w.

Definition int64 (z : Z) : Z := wrapS 64 z.
Definition int32 (z : Z) : Z := wrapS 32 z.
Definition uint32 (z : Z) : Z := wrapU 32 z.
Definition uint64 (z : Z) : Z := wrapU 64 z.

Definition MaxInt64 : Z := 9223372036854775807.
Definition MinInt64 : Z := -9223372036854775808.
Definition MaxInt32 : Z := 2147483647.
Definition MaxUint32 : Z := 4294967295.

Definition is_int64 (z : Z) : Prop := MinInt64 ≤ z ≤ MaxInt64.
Definition is_uint32 (z : Z) : Prop := 0 ≤ z ≤ MaxUint32.

Lemma int64_id z : is_int64 z → int64 z = z.
Proof.
  unfold is_int64, MinInt64, MaxInt64, int64, wrapS. intros H.
  change (2 ^ (64 - 1)) with 9223372036854775808. change (2 ^ 64) with 18446744073709551616.
  rewrite Z.mod_small; lia.
Qed.

Lemma int64_range z : is_int64 (int64 z).
Proof.
  unfold is_int64, MinInt64, MaxInt64, int64, wrapS.
  change (2 ^ (64 - 1)) with 9223372036854775808. change (2 ^ 64) with 18446744073709551616.
  pose proof (Z.mod_pos_bound (z + 9223372036854775808) 18446744073709551616). lia.
Qed.

Lemma int64_add_l a b : int64 (int64 a + b) = int64 (a + b).
Proof.
  unfold int64, wrapS. set (h := 2 ^ (64 - 1)). set (w := 2 ^ 64). f_equal.
  replace ((a + h) mod w - h + b + h) with ((a + h) mod w + b) by lia.
  rewrite Z.add_mod_idemp_l by done. f_equal. lia.
Qed.

(** A wrapped difference of two [int64] values is zero only when they are equal. *)
Lemma int64_sub_eq_0 a b : is_int64 a → is_int64 b → (int64 (a - b) = 0 ↔ a = b).
Proof.
  unfold is_int64, MinInt64, MaxInt64, int64, wrapS. intros Ha Hb.
  change (2 ^ (64 - 1)) with 9223372036854775808. change (2 ^ 64) with 18446744073709551616.
  split; [|intros ->; rewrite Z.sub_diag, Z.mod_small; lia].
  pose proof (Z.div_mod (a - b + 9223372036854775808) 18446744073709551616 ltac:(lia)).
  pose proof (Z.mod_pos_bound (a - b + 9223372036854775808) 18446744073709551616). lia.
Qed.

Lemma uint32_id z : is_uint32 z → uint32 z = z.
Proof. unfold is_uint32, MaxUint32, uint32, wrapU. intros. apply Z.mod_small. lia. Qed.

Local Close Scope Z_scope.

(** ** [sort.Search] of the Go standard library *)

Fixpoint search_loop (fuel : nat) (f : nat → bool) (i j : nat) : nat :=
  match fuel with
  | O => i
  | S fuel =>
      if i <? j then
        let h := Nat.div2 (i + j) in
        if f h then search_loop fuel f i h else search_loop fuel f (h + 1) j
      else i
  end.

Definition sort_Search (n : nat) (f : nat → bool) : nat := search_loop n f 0 n.

(** Each round at least halves [j - i]: [j - i] rounds are enough, and the
    boundary of the returned index is certain whether or not [f] is monotone. *)
Lemma search_loop_spec fuel f i j :
  j - i ≤ fuel → i ≤ j →
  let r := search_loop fuel f i j in
  i ≤ r ≤ j ∧ (r < j → f r = true) ∧ (i < r → f (r - 1) = false).
Proof.
  revert i j. induction fuel as [|fuel IH]; intros i j Hf Hij r; subst r; simpl.
  { replace j with i by lia. repeat split; lia. }
  destruct (Nat.ltb_spec i j) as [Hlt|Hge]; [|repeat split; lia].
  pose proof (Nat.div2_div (i + j)) as Hh.
  pose proof (Nat.div_mod_eq (i + j) 2) as Hm.
  pose proof (Nat.mod_upper_bound (i + j) 2 ltac:(lia)) as Hb.
  set (h := Nat.div2 (i + j)) in *.
  destruct (f h) eqn:Hfh.
  - destruct (IH i h) as (? & H1 & H2); [lia..|].
    split; [lia|]. split; [|done]. intros Hr.
    destruct (decide (search_loop fuel f i h = h)) as [->|]; [done|]. apply H1; lia.
  - destruct (IH (h + 1) j) as (? & H1 & H2); [lia..|].
    split; [lia|]. split; [done|]. intros Hr.
    destruct (decide (search_loop fuel f (h + 1) j = h + 1)) as [->|].
    + by replace (h + 1 - 1) with h by lia.
    + apply H2. lia.
Qed.

Lemma sort_Search_spec n f :
  let r := sort_Search n f in
  r ≤ n ∧ (r < n → f r = true) ∧ (0 < r → f (r - 1) = false).
Proof.
  unfold sort_Search. destruct (search_loop_spec n f 0 n) as (?&?&?); [lia..|].
  split; [lia|]. split; intros; auto with lia.
Qed.

(** With a monotone predicate the result is the least index that satisfies it. *)
Lemma sort_Search_least n f :
  (∀ i j, i ≤ j → j < n → f i = true → f j = true) →
  let r := sort_Search n f in
  r ≤ n ∧ (∀ i, i < r → f i = false) ∧ (∀ i, r ≤ i → i < n → f i = true).
Proof.
  intros Hmono r. destruct (sort_Search_spec n f) as (Hr & Ht & Hf). fold r in Hr, Ht, Hf.
  split; [done|]. split.
  - intros i Hi. destruct (f i) eqn:E; [|done].
    assert (f (r - 1) = true) by (apply (Hmono i); [lia|lia|done]). rewrite Hf in *; [done|lia].
  - intros i H1 H2. apply (Hmono r); [done|done|]. apply Ht. lia.
Qed.

(** ** Slices *)

(** [l[i:j]] *)
Definition slice {A} (l : list A) (i j : nat) : list A := take (j - i) (drop i l).

(** [copy(l[d:], src)]: as many elements as both sides hold. *)
Definition slice_copy {A} (l : list A) (d : nat) (src : list A) : list A :=
  let n := min (length l - d) (length src) in
  take d l ++ take n src ++ drop (d + n) l.

(** [for j != len && p(j) { j++ }] from [j], with at most [fuel] rounds. *)
Fixpoint skip_while (fuel : nat) (n : nat) (p : nat → bool) (j : nat) : nat :=
  match fuel with
  | O => j
  | S fuel => if negb (j =? n) && p j then skip_while fuel n p (j + 1) else j
  end.

Lemma skip_while_spec fuel n p j :
  n - j ≤ fuel → j ≤ n →
  let r := skip_while fuel n p j in
  j ≤ r ≤ n ∧ (∀ i, j ≤ i < r → p i = true) ∧ (r < n → p r = false).
Proof.
  revert j. induction fuel as [|fuel IH]; intros j Hf Hj; simpl.
  { repeat split; lia. }
  destruct (Nat.eqb_spec j n) as [->|Hne]; simpl; [repeat split; lia|].
  destruct (p j) eqn:E; [|repeat split; [lia..|done]].
  destruct (IH (j + 1)) as (? & H1 & H2); [lia..|].
  split; [lia|]. split; [|done]. intros i Hi.
  destruct (decide (i = j)) as [->|]; [done|]. apply H1. lia.
Qed.

(** ** Sorted lists *)

Section sorted.
Context {A : Type} (R : relation A).

Lemma ssorted_app (l1 l2 : list A) :
  StronglySorted R (l1 ++ l2) ↔
  StronglySorted R l1 ∧ StronglySorted R l2 ∧ (∀ x y, x ∈ l1 → y ∈ l2 → R x y).
Proof.
  induction l1 as [|a l1 IH]; simpl.
  { split; [intros; repeat split; [constructor|done|set_solver]|naive_solver]. }
  split.
  - intros [H1 H2]%StronglySorted_inv. apply IH in H1 as (?&?&?). rewrite Forall_forall in H2.
    split_and!; [constructor; [done|]; apply Forall_forall; set_solver|done|].
    intros x y [->|Hx]%elem_of_cons Hy; [apply H2; set_solver|eauto].
  - intros ([H1 H1']%StronglySorted_inv & H2 & H3). constructor.
    + apply IH. split_and!; [done..|]. intros; apply H3; set_solver.
    + rewrite Forall_forall in *. intros x [Hx|Hx]%elem_of_app; [eauto|]. apply H3; set_solver.
Qed.

Lemma ssorted_lookup (l : list A) i j x y :
  StronglySorted R l → i < j → l !! i = Some x → l !! j = Some y → R x y.
Proof.
  intros Hs Hij Hi Hj. rewrite <- (take_drop j l) in Hs.
  apply ssorted_app in Hs as (_ & _ & H). apply H.
  - apply list_elem_of_lookup. exists i. by rewrite lookup_take_lt.
  - apply list_elem_of_lookup. exists 0. by rewrite lookup_drop, Nat.add_0_r.
Qed.

Lemma ssorted_of_lookup (l : list A) :
  (∀ i j x y, i < j → l !! i = Some x → l !! j = Some y → R x y) → StronglySorted R l.
Proof.
  induction l as [|a l IH]; intros H; constructor.
  - apply IH. intros i j x y Hij Hi Hj. by apply (H (S i) (S j)); [lia|..].
  - apply Forall_forall. intros x [j Hj]%list_elem_of_lookup. by apply (H 0 (S j)); [lia|..].
Qed.
End sorted.

Lemma ssorted_impl {A} (R1 R2 : relation A) l :
  (∀ x y, R1 x y → R2 x y) → StronglySorted R1 l → StronglySorted R2 l.
Proof.
  intros H. induction 1 as [|a l Hl IH Ha]; constructor; [done|].
  eapply Forall_impl; [exact Ha|auto].
Qed.

Lemma ssorted_NoDup {A} (R : relation A) l : Irreflexive R → StronglySorted R l → NoDup l.
Proof.
  intros HR. induction 1 as [|a l Hl IH Ha]; constructor; [|done].
  intros Hin. rewrite Forall_forall in Ha. by apply (HR a), Ha.
Qed.

(** ** Lists *)

Lemma lookup_total_some {A} `{Inhabited A} (l : list A) i :
  i < length l → l !! i = Some (l !!! i).
Proof. intros Hi. destruct (l !! i) eqn:E; [|apply lookup_ge_None in E; lia]. by rewrite (list_lookup_total_correct _ _ _ E). Qed.

Lemma lookup_total_in {A} `{Inhabited A} (l : list A) i : i < length l → l !!! i ∈ l.
Proof. intros Hi. apply list_elem_of_lookup. exists i. by apply lookup_total_some. Qed.

Lemma Forall2_impl_l {A B} (P Q : A → B → Prop) l k :
  Forall2 P l k → (∀ x y, x ∈ l → P x y → Q x y) → Forall2 Q l k.
Proof.
  induction 1 as [|x y l k Hxy _ IH]; intros HPQ; constructor.
  - apply HPQ; [set_solver|done].
  - apply IH. intros. apply HPQ; [set_solver|done].
Qed.

Lemma fmap_restore {A B} (f : B → A) (g : A → B) (l : list A) :
  (∀ x, x ∈ l → f (g x) = x) → f <$> (g <$> l) = l.
Proof.
  induction l as [|x l IH]; intros H; [done|]. rewrite !fmap_cons, H by set_solver. f_equal.
  apply IH. set_solver.
Qed.

Lemma take_insert_drop {A} (l : list A) i x :
  i < length l → <[i:=x]> l = take i l ++ x :: drop (S i) l.
Proof. intros. by rewrite insert_take_drop. Qed.

(** ** Strings: the byte-wise lexicographic order of Go strings *)

Definition str_lt (a b : string) : Prop := String.ltb a b = true.

#[global] Instance str_lt_dec : RelDecision str_lt.
Proof. intros a b. unfold str_lt. apply _. Defined.

Lemma str_compare_gt a b : String.compare a b = Gt ↔ String.compare b a = Lt.
Proof. rewrite (String.compare_antisym a b). destruct (String.compare b a); simpl; naive_solver. Qed.

Lemma str_lt_compare a b : str_lt a b ↔ String.compare a b = Lt.
Proof. unfold str_lt, String.ltb. destruct (String.compare a b); naive_solver. Qed.

Lemma ascii_compare_lt a b : Ascii.compare a b = Lt ↔ (Ascii.N_of_ascii a < Ascii.N_of_ascii b)%N.
Proof. apply N.compare_lt_iff. Qed.

Lemma str_lt_cons a s b t :
  str_lt (String a s) (String b t) ↔ (Ascii.N_of_ascii a < Ascii.N_of_ascii b)%N ∨ a = b ∧ str_lt s t.
Proof.
  rewrite !str_lt_compare. simpl. destruct (Ascii.compare a b) eqn:E.
  - apply Ascii.compare_eq_iff in E as ->. split; [auto|]. intros [?|[_ ?]]; [lia|done].
  - apply ascii_compare_lt in E. naive_solver.
  - split; [done|]. intros [H|[-> _]].
    + apply ascii_compare_lt in H. congruence.
    + unfold Ascii.compare in E. rewrite N.compare_refl in E. done.
Qed.

#[global] Instance str_lt_strict : StrictOrder str_lt.
Proof.
  split.
  - intros s. unfold complement. induction s as [|a s IH]; [done|].
    rewrite str_lt_cons. intros [?|[_ ?]]; [lia|auto].
  - intros s. induction s as [|a s IH]; intros [|b t] [|c u]; try done.
    rewrite !str_lt_cons. intros [?|[-> ?]] [?|[-> ?]]; [left; lia|by left|by left|right; eauto].
Qed.

Lemma str_lt_trichotomy a b : str_lt a b ∨ a = b ∨ str_lt b a.
Proof.
  rewrite !str_lt_compare, <- (str_compare_gt a b). destruct (String.compare a b) eqn:E; [|by auto..].
  right. left. by apply String.compare_eq_iff.
Qed.

(** [a <= b] of Go strings. *)
Definition str_leb (a b : string) : bool := negb (String.ltb b a).

Lemma str_leb_spec a b : str_leb a b = true ↔ str_lt a b ∨ a = b.
Proof.
  unfold str_leb. rewrite negb_true_iff.
  destruct (str_lt_trichotomy a b) as [H|[->|H]].
  - split; [by left|]. intros _. apply not_true_iff_false. intros H'. by eapply (irreflexivity str_lt a), transitivity.
  - split; [by right|]. intros _. apply not_true_iff_false. apply (irreflexivity str_lt).
  - split; [by rewrite (H : String.ltb b a = true)|]. intros [H'| ->].
    + exfalso. by eapply (irreflexivity str_lt a), transitivity.
    + by destruct (irreflexivity str_lt b).
Qed.

(** ** Filters whose predicate splits the list at an index *)

Lemma filter_prefix {A} (P : A → Prop) `{∀ x, Decision (P x)} (l : list A) k :
  (∀ i x, i < k → l !! i = Some x → P x) →
  (∀ i x, k ≤ i → l !! i = Some x → ¬ P x) →
  filter P l = take k l.
Proof.
  revert k. induction l as [|a l IH]; intros k H1 H2; [by rewrite take_nil|].
  destruct k as [|k].
  - rewrite filter_cons_False by (apply (H2 0); [lia|done]).
    rewrite (IH 0); [by rewrite take_0|lia|]. intros i x _ Hi. by apply (H2 (S i)); [lia|].
  - rewrite filter_cons_True by (apply (H1 0); [lia|done]). simpl. f_equal. apply IH.
    + intros i x Hi. apply (H1 (S i)). lia.
    + intros i x Hi. apply (H2 (S i)). lia.
Qed.

Lemma filter_suffix {A} (P : A → Prop) `{∀ x, Decision (P x)} (l : list A) k :
  (∀ i x, i < k → l !! i = Some x → ¬ P x) →
  (∀ i x, k ≤ i → l !! i = Some x → P x) →
  filter P l = drop k l.
Proof.
  revert k. induction l as [|a l IH]; intros k H1 H2; [by rewrite drop_nil|].
  destruct k as [|k].
  - rewrite filter_cons_True by (apply (H2 0); [lia|done]). simpl. f_equal.
    rewrite (IH 0); [by rewrite drop_0|lia|]. intros i x _ Hi. by apply (H2 (S i)); [lia|].
  - rewrite filter_cons_False by (apply (H1 0); [lia|done]). simpl. apply IH.
    + intros i x Hi. apply (H1 (S i)). lia.
    + intros i x Hi. apply (H2 (S i)). lia.
Qed.

Lemma length_slice_copy {A} (l : list A) d src : length (slice_copy l d src) = length l.
Proof.
  unfold slice_copy. rewrite !length_app, length_drop, !length_take. lia.
Qed.

(** Replacing [l[i:j]] by the single element [x], through the append / copy /
    assign / re-slice sequence that Go code writes for it. *)
Lemma splice_correct {A} (z x : A) (l : list A) i j :
  i ≤ j → j ≤ length l →
  let n := length l + 1 - (j - i) in
  let l1 := if length l <? n then l ++ [z] else l in
  take n (<[i:=x]> (slice_copy l1 (i + 1) (drop j l1))) = take i l ++ x :: drop j l.
Proof.
  intros Hij Hj n l1.
  assert (length l1 = max (length l) n) as Hl1.
  { subst l1. destruct (Nat.ltb_spec (length l) n); rewrite ?length_app; simpl; lia. }
  assert (∀ k, k ≤ length l → take k l1 = take k l) as Htk.
  { intros k Hk. subst l1. destruct (_ <? _); [|done]. by rewrite take_app_le. }
  assert (take (length l - j) (drop j l1) = drop j l) as Hdr.
  { subst l1. destruct (_ <? _).
    - rewrite drop_app_le, take_app_le by (rewrite ?length_drop; lia).
      apply take_ge. rewrite length_drop; lia.
    - apply take_ge. rewrite length_drop; lia. }
  rewrite take_insert_drop by (rewrite length_slice_copy; lia).
  assert (take i (slice_copy l1 (i + 1) (drop j l1)) = take i l) as ->.
  { unfold slice_copy. rewrite take_app_le by (rewrite length_take; lia).
    rewrite take_take, Nat.min_l, Htk by lia. done. }
  rewrite take_app_ge by (rewrite length_take; lia). f_equal.
  rewrite length_take, Nat.min_l by lia.
  replace (n - i) with (S (length l - j)) by lia. simpl. f_equal.
  unfold slice_copy. set (m := min _ _).
  rewrite drop_app_ge by (rewrite length_take; lia).
  replace (S i - length (take (i + 1) l1)) with 0 by (rewrite length_take; lia). rewrite drop_0.
  assert (length l - j ≤ m) as Hm. { subst m. rewrite length_drop. lia. }
  rewrite take_app_le by (rewrite length_take, length_drop; lia).
  by rewrite take_take, Nat.min_l.
Qed.

Lemma list_filter_none {A} (P : A → Prop) `{∀ x, Decision (P x)} (l : list A) :
  (∀ x, x ∈ l → ¬ P x) → filter P l = [].
Proof.
  intros H'. rewrite (filter_prefix P l 0); [by rewrite take_0|lia|].
  intros i x _ Hi. apply H'. apply list_elem_of_lookup. eauto.
Qed.

Lemma list_filter_all {A} (P : A → Prop) `{∀ x, Decision (P x)} (l : list A) :
  (∀ x, x ∈ l → P x) → filter P l = l.
Proof.
  intros H'. rewrite (filter_suffix P l 0); [by rewrite drop_0|lia|].
  intros i x _ Hi. apply H'. apply list_elem_of_lookup. eauto.
Qed.

Lemma list_snoc_cases {A} (l : list A) : l = [] ∨ ∃ l' x, l = l' ++ [x].
Proof. induction l as [|x l _] using rev_ind; [by left|right; eauto]. Qed.

Lemma ssorted_filter {A} (R : relation A) (P : A → Prop) `{∀ x, Decision (P x)} (l : list A) :
  StronglySorted R l → StronglySorted R (filter P l).
Proof.
  induction 1 as [|a l Hl IH Ha]; [by constructor|]. rewrite filter_cons. case_decide; [|done].
  constructor; [done|]. rewrite Forall_forall in *. intros x [_ Hx]%list_elem_of_filter. auto.
Qed.

Lemma ssorted_sublist {A} (R : relation A) (l l' : list A) :
  sublist l' l → StronglySorted R l → StronglySorted R l'.
Proof.
  induction 1 as [|x l1 l2 Hs IH|x l1 l2 Hs IH]; intros H; [done| |].
  - apply StronglySorted_inv in H as [H1 H2]. constructor; [auto|].
    rewrite Forall_forall in *. intros y Hy. apply H2. eapply sublist_subseteq; eauto.
  - apply StronglySorted_inv in H as [H1 _]. auto.
Qed.

Lemma elem_of_concat {A} (x : A) ls : x ∈ concat ls ↔ ∃ l, l ∈ ls ∧ x ∈ l.
Proof.
  induction ls as [|k ls IH]; cbn; [by setoid_rewrite elem_of_nil; split; [|intros (? & [] & _)]|].
  rewrite elem_of_app, IH. setoid_rewrite elem_of_cons. naive_solver.
Qed.
