(* ===== verification/Encoding.v ===== *)
(** * Byte encodings and digests of the Go standard library

    What the source uses of [encoding/binary], [encoding/hex], [strconv],
    [crypto/sha1] and [hash/crc32], executable and checked on published vectors. *)
From S2P Require Import Prelude.
From Stdlib Require Import Ascii.
From Stdlib Require Strings.Byte.
Local Open Scope Z_scope.

Abbreviation byte := Byte.byte.
Abbreviation bytes := (list byte).

Definition byte_Z (b : byte) : Z := Z.of_N (Byte.to_N b).
Definition Z_byte (z : Z) : byte :=
  match Byte.of_N (Z.to_N (z mod 256)) with Some b => b | None => Byte.x00 end.

Lemma byte_Z_range b : 0 ≤ byte_Z b < 256.
Proof. unfold byte_Z. pose proof (Byte.to_N_bounded b). lia. Qed.

Lemma Z_byte_Z b : Z_byte (byte_Z b) = b.
Proof.
  unfold Z_byte. rewrite Z.mod_small by apply byte_Z_range. unfold byte_Z.
  rewrite N2Z.id. by rewrite Byte.of_to_N.
Qed.

Lemma byte_Z_byte z : byte_Z (Z_byte z) = z mod 256.
Proof.
  unfold Z_byte. pose proof (Z.mod_pos_bound z 256 ltac:(lia)) as Hb.
  destruct (Byte.of_N (Z.to_N (z mod 256))) as [b|] eqn:E.
  - apply Byte.to_of_N in E. unfold byte_Z. rewrite E. lia.
  - apply Byte.of_N_None_iff in E. lia.
Qed.

#[global] Instance byte_eq_dec : EqDecision byte := Byte.byte_eq_dec.

(** ** Big and little endian integers *)

Definition be_Z (l : bytes) : Z := foldl (λ acc b, acc * 256 + byte_Z b) 0 l.

Fixpoint le_Z (l : bytes) : Z :=
  match l with
  | [] => 0
  | b :: l => byte_Z b + 256 * le_Z l
  end.

Fixpoint Z_le (n : nat) (z : Z) : bytes :=
  match n with
  | O => []
  | S n => Z_byte z :: Z_le n (z / 256)
  end.

Definition Z_be (n : nat) (z : Z) : bytes := reverse (Z_le n z).

Lemma length_Z_le n z : length (Z_le n z) = n.
Proof. revert z. induction n; simpl; auto. Qed.

Lemma length_Z_be n z : length (Z_be n z) = n.
Proof. unfold Z_be. by rewrite length_reverse, length_Z_le. Qed.

Lemma le_Z_le n z : le_Z (Z_le n z) = z mod 256 ^ Z.of_nat n.
Proof.
  revert z. induction n as [|n IH]; intros z; [by rewrite Z.mod_1_r|].
  cbn [Z_le le_Z]. rewrite IH, byte_Z_byte, Nat2Z.inj_succ, Z.pow_succ_r by lia.
  rewrite Z.rem_mul_r by lia. lia.
Qed.

Lemma Z_le_Z l : Z_le (length l) (le_Z l) = l.
Proof.
  induction l as [|b l IH]; [done|]. cbn [length Z_le le_Z].
  pose proof (byte_Z_range b).
  replace ((byte_Z b + 256 * le_Z l) / 256) with (le_Z l)
    by (rewrite Z.mul_comm, Z.div_add, Z.div_small; lia).
  rewrite IH. f_equal.
  assert (∀ x y, x mod 256 = y mod 256 → Z_byte x = Z_byte y) as Hm by (by unfold Z_byte; intros ?? ->).
  rewrite (Hm _ (byte_Z b)); [apply Z_byte_Z|].
  by rewrite Z.mul_comm, Z.mod_add by lia.
Qed.

Lemma be_Z_reverse l : be_Z (reverse l) = le_Z l.
Proof.
  unfold be_Z. induction l as [|b l IH]; [done|].
  rewrite reverse_cons, foldl_app. simpl. rewrite IH. lia.
Qed.

Lemma be_Z_be n z : be_Z (Z_be n z) = z mod 256 ^ Z.of_nat n.
Proof. unfold Z_be. by rewrite be_Z_reverse, le_Z_le. Qed.

Lemma Z_be_Z l : Z_be (length l) (be_Z l) = l.
Proof.
  unfold Z_be. rewrite <- (reverse_involutive l) at 2. rewrite be_Z_reverse.
  rewrite <- (length_reverse l). by rewrite Z_le_Z, reverse_involutive.
Qed.

Lemma le_Z_range l : 0 ≤ le_Z l < 256 ^ Z.of_nat (length l).
Proof.
  rewrite <- (Z_le_Z l) at 1 2. rewrite le_Z_le. apply Z.mod_pos_bound. lia.
Qed.

Lemma be_Z_range l : 0 ≤ be_Z l < 256 ^ Z.of_nat (length l).
Proof.
  rewrite <- (reverse_involutive l), be_Z_reverse, !length_reverse.
  pose proof (le_Z_range (reverse l)) as H. by rewrite length_reverse in H.
Qed.

(** ** SHA-1 (crypto/sha1) *)

Module Sha1.
Definition u32 (z : Z) : Z := Z.land z 4294967295.
Definition rotl (n x : Z) : Z := u32 (Z.lor (Z.shiftl x n) (Z.shiftr x (32 - n))).
Definition not32 (x : Z) : Z := Z.lxor x 4294967295.

Definition f (t : nat) (b c d : Z) : Z :=
  if (t <? 20)%nat then Z.lor (Z.land b c) (Z.land (not32 b) d)
  else if (t <? 40)%nat then Z.lxor b (Z.lxor c d)
  else if (t <? 60)%nat then Z.lor (Z.land b c) (Z.lor (Z.land b d) (Z.land c d))
  else Z.lxor b (Z.lxor c d).

Definition k (t : nat) : Z :=
  if (t <? 20)%nat then 1518500249
  else if (t <? 40)%nat then 1859775393
  else if (t <? 60)%nat then 2400959708
  else 3395469782.

Definition state : Type := Z * Z * Z * Z * Z.
Definition init : state := (1732584193, 4023233417, 2562383102, 271733878, 3285377520).

Definition round (s : state) (tw : nat * Z) : state :=
  let '(a, b, c, d, e) := s in
  let '(t, w) := tw in
  (u32 (rotl 5 a + f t b c d + e + k t + w), a, rotl 30 b, c, d).

(** The message schedule, most recent word first. *)
Definition extend (ws : list Z) : list Z :=
  rotl 1 (Z.lxor (Z.lxor (nth 2 ws 0) (nth 7 ws 0)) (Z.lxor (nth 13 ws 0) (nth 15 ws 0))) :: ws.

Fixpoint words (n : nat) (l : bytes) : list Z :=
  match n with
  | O => []
  | S n => be_Z (take 4 l) :: words n (drop 4 l)
  end.

Definition block (s : state) (l : bytes) : state :=
  let ws := reverse (Nat.iter 64 extend (reverse (words 16 l))) in
  let '(a, b, c, d, e) := s in
  let '(a', b', c', d', e') := foldl round s (combine (seq 0 80) ws) in
  (u32 (a + a'), u32 (b + b'), u32 (c + c'), u32 (d + d'), u32 (e + e')).

Fixpoint blocks (n : nat) (s : state) (l : bytes) : state :=
  match n with
  | O => s
  | S n => blocks n (block s (take 64 l)) (drop 64 l)
  end.

Definition pad (l : bytes) : bytes :=
  let n := length l in
  let zeros := ((119 - n mod 64) mod 64)%nat in
  l ++ Z_byte 128 :: replicate zeros Byte.x00 ++ Z_be 8 (8 * Z.of_nat n).

Definition Sum (l : bytes) : bytes :=
  let p := pad l in
  let '(a, b, c, d, e) := blocks (length p / 64) init p in
  Z_be 4 a ++ Z_be 4 b ++ Z_be 4 c ++ Z_be 4 d ++ Z_be 4 e.

Lemma length_Sum l : length (Sum l) = 20%nat.
Proof.
  unfold Sum. destruct (blocks _ _ _) as [[[[a b] c] d] e].
  rewrite !length_app, !length_Z_be. done.
Qed.
End Sha1.

Definition str_bytes (s : string) : bytes := String.list_byte_of_string s.

(** FIPS 180 vectors: "" and "abc" (the former is quoted in fragment_extensions.go). *)
Example sha1_empty : be_Z (Sha1.Sum []) = 1245845410931227995499360226027473197403882391305.
Proof. vm_compute. reflexivity. Qed.

Example sha1_abc : be_Z (Sha1.Sum (str_bytes "abc")) = 968236873715988614170569073515315707566766479517.
Proof. vm_compute. reflexivity. Qed.

(** ** CRC-32 with the Castagnoli polynomial (hash/crc32) *)

Module Crc32.
Definition Castagnoli : Z := 2197175160.

Definition shift1 (crc : Z) : Z :=
  if Z.odd crc then Z.lxor (Z.shiftr crc 1) Castagnoli else Z.shiftr crc 1.

(** An entry of [MakeTable]. *)
Definition table (i : Z) : Z := Nat.iter 8 shift1 i.

Definition step (crc : Z) (v : byte) : Z :=
  Z.lxor (table (Z.land (Z.lxor crc (byte_Z v)) 255)) (Z.shiftr crc 8).

Definition Update (crc : Z) (p : bytes) : Z :=
  Z.lxor (foldl step (Z.lxor crc 4294967295) p) 4294967295.

Lemma Update_app crc p q : Update crc (p ++ q) = Update (Update crc p) q.
Proof.
  unfold Update. rewrite foldl_app. do 2 f_equal.
  by rewrite Z.lxor_assoc, Z.lxor_nilpotent, Z.lxor_0_r.
Qed.
End Crc32.

Example crc32c_check : Crc32.Update 0 (str_bytes "123456789") = 3808858755.
Proof. vm_compute. reflexivity. Qed.
