(* ===== verification/Protocol.v ===== *)
(** * Protocol messages and their validation (src/v2/pkg/protocol)

    The data model shared by brokers and clients: enumerations, [Fragment],
    [Route], [Header] and the Read, Append and Replicate messages, with the
    [Validate] method of each, written in the order of the checks of the code.
    A [[]byte] field that the code compares with [nil] is an [option].
    [net/url] is a parameter, through the class [UrlParser]. *)
From S2P Require Import Prelude Encoding.
From Stdlib Require Import Ascii.
Local Open Scope Z_scope.

(** ** Validation errors (validator.go) *)

Record ValidationError := {
  Context : list string;
  (** The format string of the message; its arguments are not kept. *)
  Err : string;
}.

Definition NewValidationError (format : string) : option ValidationError :=
  Some {| Context := []; Err := format |}.

Definition ExtendContext (err : option ValidationError) (context : string) : option ValidationError :=
  match err with
  | Some ve => Some {| Context := context :: Context ve; Err := Err ve |}
  | None => None
  end.

(** [if err := e; err != nil { return err } else k] *)
Definition orElse (e k : option ValidationError) : option ValidationError :=
  match e with Some _ => e | None => k end.
Notation "e 'elif' k" := (orElse e k) (at level 60, right associativity) : go_scope.

(** [if b { return NewValidationError(format) }] *)
Definition failIf (b : bool) (format : string) : option ValidationError :=
  if b then NewValidationError format else None.

(** [for i, x := range l { if err := f(x); err != nil { return ExtendContext(err, "name[i]") } }] *)
Fixpoint validateEach {A} (name : string) (f : A → option ValidationError) (i : nat) (l : list A)
    : option ValidationError :=
  match l with
  | [] => None
  | x :: l => ExtendContext (f x) (name ++ "[" ++ pretty i ++ "]") elif validateEach name f (S i) l
  end.

Lemma orElse_None e k : e elif k = None ↔ e = None ∧ k = None.
Proof. destruct e; naive_solver. Qed.

Lemma failIf_None b m : failIf b m = None ↔ b = false.
Proof. destruct b; naive_solver. Qed.

Lemma ExtendContext_None e c : ExtendContext e c = None ↔ e = None.
Proof. destruct e; naive_solver. Qed.

Lemma validateEach_None {A} name (f : A → option ValidationError) i l :
  validateEach name f i l = None ↔ Forall (λ x, f x = None) l.
Proof.
  revert i. induction l as [|x l IH]; intros i; simpl; [done|].
  by rewrite orElse_None, ExtendContext_None, Forall_cons, IH.
Qed.

#[global] Create Rewrite HintDb validate.
#[global] Hint Rewrite orElse_None failIf_None ExtendContext_None @validateEach_None
  orb_false_iff andb_false_iff negb_false_iff Z.ltb_ge Z.leb_gt Z.eqb_eq : validate.

(** [strings.Trim]: strips leading and trailing characters of the cutset. *)
Fixpoint trim_left (p : ascii → bool) (l : list ascii) : list ascii :=
  match l with
  | [] => []
  | c :: l' => if p c then trim_left p l' else l
  end.

Definition strings_Trim (s : string) (p : ascii → bool) : list ascii :=
  rev (trim_left p (rev (trim_left p (String.list_ascii_of_string s)))).

Definition tokenAlphabet : string :=
  "-_+/.ABCDEFGHIJKLMNOPQRSTUVWXYZabcdefghijklmnopqrstuvwxyz0123456789".

Definition in_alphabet (c : ascii) : bool :=
  existsb (Ascii.eqb c) (String.list_ascii_of_string tokenAlphabet).

Definition slen (s : string) : Z := Z.of_nat (String.length s).

Definition ValidateToken (n : string) (min max : Z) : option ValidationError :=
  if (slen n <? min) || (max <? slen n) then
    NewValidationError "invalid length (%d; expected %d <= length <= %d)"
  else if negb (Nat.eqb (length (strings_Trim n in_alphabet)) 0) then
    NewValidationError "not a valid token (%s)"
  else None.

(** ** Journals (journal_spec_extensions.go) *)

Abbreviation Journal := string.

(** [path.Clean] of the standard library, over the components between slashes:
    drop empty and "." components, resolve "..", and restore the rooting. *)
Fixpoint split_on (sep : ascii) (cur : list ascii) (l : list ascii) : list (list ascii) :=
  match l with
  | [] => [rev cur]
  | c :: l => if Ascii.eqb c sep then rev cur :: split_on sep [] l else split_on sep (c :: cur) l
  end.

Definition clean_step (rooted : bool) (stack : list (list ascii)) (c : list ascii) : list (list ascii) :=
  match c with
  | [] | ["."%char] => stack
  | ["."%char; "."%char] =>
      match stack with
      | [] => if rooted then [] else [c]
      | ["."%char; "."%char] :: _ => c :: stack
      | _ :: stack' => stack'
      end
  | _ => c :: stack
  end.

Fixpoint join_with (sep : list ascii) (l : list (list ascii)) : list ascii :=
  match l with
  | [] => []
  | [c] => c
  | c :: l => c ++ sep ++ join_with sep l
  end.

Definition path_Clean (p : string) : string :=
  let l := String.list_ascii_of_string p in
  let rooted := match l with "/"%char :: _ => true | _ => false end in
  let stack := foldl (clean_step rooted) [] (split_on "/"%char [] l) in
  let body := join_with ["/"%char] (rev stack) in
  String.string_of_list_ascii
    (if rooted then "/"%char :: body else match body with [] => ["."%char] | _ => body end).

Definition has_leading_slash (s : string) : bool :=
  match s with String "/"%char _ => true | _ => false end.

Definition minJournalNameLen : Z := 4.
Definition maxJournalNameLen : Z := 512.

Definition Journal_Validate (n : Journal) : option ValidationError :=
  ValidateToken n minJournalNameLen maxJournalNameLen
  elif failIf (negb (String.eqb (path_Clean n) n)) "must be a clean path (%s)"
  elif failIf (has_leading_slash n) "cannot begin with '/' (%s)".

(** ** Enumerations (protocol.pb.go)

    A protobuf enumeration is an [int32]: values with no name are kept. *)

Inductive Status :=
| Status_OK
| JOURNAL_NOT_FOUND
| NO_JOURNAL_PRIMARY_BROKER
| NOT_JOURNAL_PRIMARY_BROKER
| NOT_JOURNAL_BROKER
| INSUFFICIENT_JOURNAL_BROKERS
| OFFSET_NOT_YET_AVAILABLE
| WRONG_ROUTE
| FRAGMENT_MISMATCH
| ETCD_TRANSACTION_FAILED
| NOT_ALLOWED
| WRONG_APPEND_OFFSET
| INDEX_HAS_GREATER_OFFSET
| Status_unnamed (n : Z).

#[global] Instance Status_eq_dec : EqDecision Status.
Proof. solve_decision. Defined.

Definition Status_Validate (x : Status) : option ValidationError :=
  match x with
  | Status_unnamed _ => NewValidationError "invalid status (%s)"
  | _ => None
  end.

Inductive CompressionCodec :=
| Codec_INVALID
| Codec_NONE
| Codec_GZIP
| Codec_ZSTANDARD
| Codec_SNAPPY
| Codec_GZIP_OFFLOAD_DECOMPRESSION
| Codec_unnamed (n : Z).

#[global] Instance CompressionCodec_eq_dec : EqDecision CompressionCodec.
Proof. solve_decision. Defined.

Definition CompressionCodec_Validate (m : CompressionCodec) : option ValidationError :=
  match m with
  | Codec_INVALID | Codec_unnamed _ => NewValidationError "invalid value (%s)"
  | _ => None
  end.

(** ** Fragments (fragment_extensions.go) *)

Record SHA1Sum := mkSHA1Sum { Part1 : Z; Part2 : Z; Part3 : Z }.

#[global] Instance SHA1Sum_eq_dec : EqDecision SHA1Sum.
Proof. solve_decision. Defined.

Definition SHA1Sum_zero : SHA1Sum := mkSHA1Sum 0 0 0.

(** [binary.BigEndian.Uint64(r[0:8])], ... *)
Definition SHA1SumFromDigest (r : bytes) : outcome SHA1Sum :=
  if negb (Nat.eqb (length r) 20) then Panic "invalid slice length"
  else Ret (mkSHA1Sum (be_Z (slice r 0 8)) (be_Z (slice r 8 16)) (be_Z (slice r 16 20))).

Definition SHA1SumOf (str : bytes) : SHA1Sum :=
  match SHA1SumFromDigest (Sha1.Sum str) with Ret m => m | Panic _ => SHA1Sum_zero end.

Definition ToDigest (m : SHA1Sum) : bytes :=
  Z_be 8 (Part1 m) ++ Z_be 8 (Part2 m) ++ Z_be 4 (Part3 m).

Definition SHA1Sum_IsZero (m : SHA1Sum) : bool := bool_decide (m = SHA1Sum_zero).

Record Fragment := mkFragment {
  f_Journal : Journal;
  f_Begin : Z;
  f_End : Z;
  f_Sum : SHA1Sum;
  f_CompressionCodec : CompressionCodec;
  f_BackingStore : string;
  f_ModTime : Z;
}.

#[global] Instance Fragment_eq_dec : EqDecision Fragment.
Proof. solve_decision. Defined.

Definition Fragment_zero : Fragment := mkFragment "" 0 0 SHA1Sum_zero Codec_INVALID "" 0.
#[global] Instance Fragment_inhabited : Inhabited Fragment := populate Fragment_zero.

Definition ContentLength (m : Fragment) : Z := int64 (f_End m - f_Begin m).

Definition Fragment_Validate (m : Fragment) : option ValidationError :=
  ExtendContext (Journal_Validate (f_Journal m)) "Journal"
  elif failIf (f_End m <? f_Begin m) "expected Begin <= End (have %d, %d)"
  elif ExtendContext (CompressionCodec_Validate (f_CompressionCodec m)) "CompressionCodec".

(** ** Process IDs, routes and headers
    (broker_spec_extensions.go, route_extensions.go, header_extensions.go) *)

Record ProcessSpec_ID := mkProcessID { Zone : string; Suffix : string }.

#[global] Instance ProcessSpec_ID_eq_dec : EqDecision ProcessSpec_ID.
Proof. solve_decision. Defined.

Definition minZoneLen : Z := 1.
Definition maxZoneLen : Z := 16.
Definition minBrokerSuffixLen : Z := 4.
Definition maxBrokerSuffixLen : Z := 128.

Definition ProcessSpec_ID_Validate (m : ProcessSpec_ID) : option ValidationError :=
  ExtendContext (ValidateToken (Zone m) minZoneLen maxZoneLen) "Zone"
  elif ExtendContext (ValidateToken (Suffix m) minBrokerSuffixLen maxBrokerSuffixLen) "Suffix".

Definition ProcessSpec_ID_Less (m other : ProcessSpec_ID) : bool :=
  if negb (String.eqb (Zone m) (Zone other)) then String.ltb (Zone m) (Zone other)
  else String.ltb (Suffix m) (Suffix other).

(** What the code uses of a parsed [net/url] URL. *)
Record URL := { url_IsAbs : bool; url_Scheme : string; url_Host : string; url_Path : string }.
Class UrlParser := url_Parse : string → URL + string.

Definition Endpoint_Validate `{UrlParser} (ep : string) : option ValidationError :=
  match url_Parse ep with
  | inr err => NewValidationError err
  | inl url =>
      failIf (negb (url_IsAbs url)) "not absolute: %s"
      elif failIf (String.eqb (url_Host url) "") "missing host: %s"
  end.

Record Route := mkRoute {
  Members : list ProcessSpec_ID;
  Primary : Z;
  Endpoints : list string;
}.

#[global] Instance Route_eq_dec : EqDecision Route.
Proof. solve_decision. Defined.

Fixpoint validateMembers (i : nat) (prev : option ProcessSpec_ID) (l : list ProcessSpec_ID)
    : option ValidationError :=
  match l with
  | [] => None
  | b :: l =>
      ExtendContext (ProcessSpec_ID_Validate b) ("Members[" ++ pretty i ++ "]")
      elif failIf (match prev with None => false | Some p => negb (ProcessSpec_ID_Less p b) end)
             "Members not in unique, sorted order (index %d; %+v <= %+v)"
      elif validateMembers (S i) (Some b) l
  end.

Definition Route_Validate `{UrlParser} (m : Route) : option ValidationError :=
  let n := Z.of_nat (length (Members m)) in
  let l := Z.of_nat (length (Endpoints m)) in
  validateMembers 0 None (Members m)
  elif failIf ((Primary m <? -1) || (n <=? Primary m))
         "invalid Primary (%+v; expected -1 <= Primary < %d)"
  elif failIf (negb (l =? 0) && negb (l =? n))
         "len(Endpoints) != 0, and != len(Members) (%d vs %d)"
  elif validateEach "Endpoints"
         (λ ep, if String.eqb ep "" then None else Endpoint_Validate ep) 0 (Endpoints m).

(** [for i := range a { if a[i] != b[i] ... }] on slices of equal length. *)
Fixpoint membersEqual (a b : list ProcessSpec_ID) : bool :=
  match a, b with
  | x :: a, y :: b => if bool_decide (x = y) then membersEqual a b else false
  | _, _ => true
  end.

Definition Route_Equivalent (m : Route) (other : option Route) : bool :=
  match other with
  | None => false
  | Some other =>
      if negb (Primary m =? Primary other) then false
      else if negb (Nat.eqb (length (Members m)) (length (Members other))) then false
      else membersEqual (Members m) (Members other)
  end.

Definition Route_Copy (m : Route) : Route :=
  {| Members := Members m; Primary := Primary m; Endpoints := Endpoints m |}.

Record Header_Etcd := mkEtcd { ClusterId : Z; MemberId : Z; Revision : Z; RaftTerm : Z }.

#[global] Instance Header_Etcd_eq_dec : EqDecision Header_Etcd.
Proof. solve_decision. Defined.

Definition Header_Etcd_Validate (m : Header_Etcd) : option ValidationError :=
  failIf (ClusterId m =? 0) "invalid ClusterId (expected != 0)"
  elif failIf (MemberId m =? 0) "invalid MemberId (expected != 0)"
  elif failIf (Revision m <=? 0) "invalid Revision (%d; expected 0 < revision)"
  elif failIf (RaftTerm m =? 0) "invalid RaftTerm (expected != 0)".

Record Header := mkHeader { ProcessId : ProcessSpec_ID; h_Route : Route; Etcd : Header_Etcd }.

#[global] Instance Header_eq_dec : EqDecision Header.
Proof. solve_decision. Defined.

Definition Header_Validate `{UrlParser} (m : Header) : option ValidationError :=
  (if bool_decide (ProcessId m = mkProcessID "" "") then None
   else ExtendContext (ProcessSpec_ID_Validate (ProcessId m)) "ProcessId")
  elif ExtendContext (Route_Validate (h_Route m)) "Route"
  elif ExtendContext (Header_Etcd_Validate (Etcd m)) "Etcd".

(** ** Read, Append and Replicate messages (rpc_extensions.go) *)

Definition validateHeaderPtr `{UrlParser} (h : option Header) : option ValidationError :=
  match h with
  | Some h => ExtendContext (Header_Validate h) "Header"
  | None => None
  end.

Definition validateFragmentPtr (f : option Fragment) (context : string) : option ValidationError :=
  match f with
  | Some f => ExtendContext (Fragment_Validate f) context
  | None => None
  end.

Definition isSome {A} (o : option A) : bool := match o with Some _ => true | None => false end.

Record ReadRequest := mkReadRequest {
  rr_Header : option Header;
  rr_Journal : Journal;
  rr_Offset : Z;
  rr_Block : bool;
  rr_DoNotProxy : bool;
  rr_MetadataOnly : bool;
}.

Definition ReadRequest_Validate `{UrlParser} (m : ReadRequest) : option ValidationError :=
  validateHeaderPtr (rr_Header m)
  elif ExtendContext (Journal_Validate (rr_Journal m)) "Journal"
  elif failIf (rr_Offset m <? -1) "invalid Offset (%d; expected -1 <= Offset <= MaxInt64)".

Record ReadResponse := mkReadResponse {
  rs_Status : Status;
  rs_Header : option Header;
  rs_Offset : Z;
  rs_WriteHead : Z;
  rs_Fragment : option Fragment;
  rs_FragmentUrl : string;
  rs_Content : option bytes;
}.

Definition ReadResponse_Validate `{UrlParser} (m : ReadResponse) : option ValidationError :=
  ExtendContext (Status_Validate (rs_Status m)) "Status"
  elif match rs_Content m with
       | Some _ =>
           failIf (negb (bool_decide (rs_Status m = Status_OK))) "unexpected Status with Content (%v)"
           elif failIf (isSome (rs_Header m)) "unexpected Header with Content (%s)"
           elif failIf (negb (rs_WriteHead m =? 0)) "unexpected WriteHead with Content (%d)"
           elif failIf (isSome (rs_Fragment m)) "unexpected Fragment with Content (%s)"
           elif failIf (negb (String.eqb (rs_FragmentUrl m) "")) "unexpected FragmentUrl with Content (%s)"
       | None =>
           validateHeaderPtr (rs_Header m)
           elif failIf (rs_WriteHead m <? 0) "invalid WriteHead (%d; expected >= 0)"
           elif match rs_Fragment m with
                | Some f =>
                    ExtendContext (Fragment_Validate f) "Fragment"
                    elif failIf ((rs_Offset m <? f_Begin f) || (f_End f <=? rs_Offset m))
                           "invalid Offset (%d; expected %d <= offset < %d)"
                    elif failIf (rs_WriteHead m <? f_End f) "invalid WriteHead (%d; expected >= %d)"
                    elif (if negb (String.eqb (rs_FragmentUrl m) "") then
                            match url_Parse (rs_FragmentUrl m) with
                            | inr err => ExtendContext (NewValidationError err) "FragmentUrl"
                            | inl _ => None
                            end
                          else None)
                | None =>
                    failIf (bool_decide (rs_Status m = Status_OK) && negb (rs_Offset m =? 0))
                      "unexpected Offset without Fragment or Content (%d)"
                    elif failIf (negb (String.eqb (rs_FragmentUrl m) ""))
                           "unexpected FragmentUrl without Fragment (%s)"
                end
       end.

Record AppendRequest := mkAppendRequest {
  ar_Header : option Header;
  ar_Journal : Journal;
  ar_DoNotProxy : bool;
  ar_Offset : Z;
  ar_Content : bytes;
}.

Definition AppendRequest_Validate `{UrlParser} (m : AppendRequest) : option ValidationError :=
  if negb (String.eqb (ar_Journal m) "") then
    validateHeaderPtr (ar_Header m)
    elif ExtendContext (Journal_Validate (ar_Journal m)) "Journal"
    elif failIf (ar_Offset m <? 0) "invalid Offset (%d; expected >= 0)"
    elif failIf (negb (Nat.eqb (length (ar_Content m)) 0)) "unexpected Content"
  else
    failIf (isSome (ar_Header m)) "unexpected Header"
    elif failIf (ar_DoNotProxy m) "unexpected DoNotProxy"
    elif failIf (negb (ar_Offset m =? 0)) "unexpected Offset".

Record AppendResponse := mkAppendResponse {
  as_Status : Status;
  as_Header : Header;
  as_Commit : option Fragment;
}.

Definition AppendResponse_Validate `{UrlParser} (m : AppendResponse) : option ValidationError :=
  ExtendContext (Status_Validate (as_Status m)) "Status"
  elif ExtendContext (Header_Validate (as_Header m)) "Header"
  elif failIf (bool_decide (as_Status m = Status_OK) && negb (isSome (as_Commit m))) "expected Commit"
  elif validateFragmentPtr (as_Commit m) "Commit".

Record ReplicateRequest := mkReplicateRequest {
  rq_Header : option Header;
  rq_Journal : Journal;
  rq_Proposal : option Fragment;
  rq_Content : option bytes;
  rq_ContentDelta : Z;
  rq_Acknowledge : bool;
}.

Definition ReplicateRequest_Validate `{UrlParser} (m : ReplicateRequest) : option ValidationError :=
  if negb (String.eqb (rq_Journal m) "") then
    ExtendContext (Journal_Validate (rq_Journal m)) "Journal"
    elif match rq_Header m with
         | None => NewValidationError "expected Header with Journal"
         | Some h =>
             ExtendContext (Header_Validate h) "Header"
             elif match rq_Proposal m with
                  | None => NewValidationError "expected Proposal with Journal"
                  | Some p =>
                      ExtendContext (Fragment_Validate p) "Proposal"
                      elif failIf (negb (String.eqb (f_Journal p) (rq_Journal m)))
                             "Journal and Proposal.Journal mismatch (%s vs %s)"
                      elif failIf (isSome (rq_Content m)) "unexpected Content with Journal (len %d)"
                      elif failIf (negb (rq_ContentDelta m =? 0)) "unexpected ContentDelta with Journal (%d)"
                      elif failIf (negb (rq_Acknowledge m)) "expected Acknowledge with Journal"
                  end
         end
  else
    failIf (isSome (rq_Header m)) "unexpected Header without Journal (%s)"
    elif match rq_Proposal m with
         | Some p =>
             ExtendContext (Fragment_Validate p) "Proposal"
             elif failIf (isSome (rq_Content m)) "unexpected Content with Proposal (len %d)"
             elif failIf (negb (rq_ContentDelta m =? 0)) "unexpected ContentDelta with Proposal (%d)"
         | None =>
             failIf (negb (isSome (rq_Content m))) "expected Content or Proposal"
             elif failIf (rq_Acknowledge m) "unexpected Acknowledge with Content"
             elif failIf (rq_ContentDelta m <? 0) "invalid ContentDelta (%d; expected >= 0)"
         end.

Record ReplicateResponse := mkReplicateResponse {
  rp_Status : Status;
  rp_Header : option Header;
  rp_Fragment : option Fragment;
}.

Definition ReplicateResponse_Validate `{UrlParser} (m : ReplicateResponse) : option ValidationError :=
  ExtendContext (Status_Validate (rp_Status m)) "Status"
  elif (if bool_decide (rp_Status m = WRONG_ROUTE) then
          match rp_Header m with
          | None => NewValidationError "expected Header"
          | Some h => ExtendContext (Header_Validate h) "Header"
          end
        else failIf (isSome (rp_Header m)) "unexpected Header (%s)")
  elif (if bool_decide (rp_Status m = FRAGMENT_MISMATCH) then
          match rp_Fragment m with
          | None => NewValidationError "expected Fragment"
          | Some f => ExtendContext (Fragment_Validate f) "Fragment"
          end
        else failIf (isSome (rp_Fragment m)) "unexpected Fragment (%s)").

(** ** Properties *)

Lemma trim_left_nil p l : trim_left p l = [] ↔ Forall (λ c, p c = true) l.
Proof.
  induction l as [|c l IH]; simpl; [done|]. rewrite Forall_cons, <- IH.
  destruct (p c); naive_solver.
Qed.

Lemma trim_left_app p l : ∃ l', l = l' ++ trim_left p l ∧ Forall (λ c, p c = true) l'.
Proof.
  induction l as [|c l (l' & IH & Hl')]; simpl; [by exists []|].
  destruct (p c) eqn:E; [exists (c :: l'); simpl; split; [by f_equal|by constructor]|by exists []].
Qed.

Lemma strings_Trim_nil s p :
  strings_Trim s p = [] ↔ Forall (λ c, p c = true) (String.list_ascii_of_string s).
Proof.
  unfold strings_Trim. set (l := String.list_ascii_of_string s).
  destruct (trim_left_app p l) as (l' & Hl & Hl').
  assert (∀ x : list ascii, rev x = [] ↔ x = []) as ->.
  { intros x. split; [|by intros ->]. intros Hx. by rewrite <- (rev_involutive x), Hx. }
  rewrite trim_left_nil. assert (∀ x : list ascii, Forall (λ c, p c = true) (rev x) ↔ Forall (λ c, p c = true) x) as ->.
  { intros x. rewrite !Forall_forall. setoid_rewrite list_elem_of_In. by setoid_rewrite <- in_rev. }
  rewrite Hl at 2. rewrite Forall_app. naive_solver.
Qed.

(** A token is valid exactly when its length is in range and every one of its
    characters (not only the ones [strings.Trim] would strip) is of the alphabet. *)
Theorem ValidateToken_spec n min max :
  ValidateToken n min max = None ↔
  min ≤ slen n ≤ max ∧ Forall (λ c, in_alphabet c = true) (String.list_ascii_of_string n).
Proof.
  unfold ValidateToken. rewrite <- strings_Trim_nil.
  destruct (Z.ltb_spec (slen n) min), (Z.ltb_spec max (slen n)); simpl;
    try (split; [done|intros [??]; lia]).
  destruct (strings_Trim n in_alphabet); simpl; split; naive_solver.
Qed.

Lemma membersEqual_spec a b :
  length a = length b → (membersEqual a b = true ↔ a = b).
Proof.
  revert b. induction a as [|x a IH]; intros [|y b] Hl; simpl in *; try done.
  case_bool_decide as Hxy; [|split; [done|congruence]].
  rewrite IH by lia. split; congruence.
Qed.

Lemma Route_Equivalent_spec a b :
  Route_Equivalent a (Some b) = true ↔ Primary a = Primary b ∧ Members a = Members b.
Proof.
  unfold Route_Equivalent. destruct (Z.eqb_spec (Primary a) (Primary b)); simpl; [|naive_solver].
  destruct (Nat.eqb_spec (length (Members a)) (length (Members b))) as [Hl|Hl]; simpl.
  - rewrite membersEqual_spec by done. naive_solver.
  - split; [done|]. intros [_ Hm]. by rewrite Hm in Hl.
Qed.
