(* ===== verification/Labels.v ===== *)
(** * Labels (src/v2/pkg/protocol/label_extensions.go, src/v2/pkg/labels/labels.go)

    Label sets are sorted lists of name / value pairs; set operations and selectors
    walk two of them with a full outer join on the name. Indices into the slices
    are kept as the code has them. *)
From S2P Require Import Prelude Protocol.

Record Label := mkLabel { l_Name : string; l_Value : string }.

#[global] Instance Label_eq_dec : EqDecision Label.
Proof. solve_decision. Defined.
#[global] Instance Label_inhabited : Inhabited Label := populate (mkLabel "" "").

(** A [LabelSet] is its [Labels]. *)
Abbreviation LabelSet := (list Label).

Definition minLabelLen : Z := 2.
Definition maxLabelLen : Z := 64.
Definition maxLabelValueLen : Z := 1024.

Definition Label_Validate (m : Label) : option ValidationError :=
  ExtendContext (ValidateToken (l_Name m) minLabelLen maxLabelLen) "Name"
  elif ExtendContext (ValidateToken (l_Value m) 0 maxLabelValueLen) "Value".

(** The loop of [LabelSet.Validate], with the label before. *)
Fixpoint validateLabels (i : nat) (prev : option Label) (l : list Label) : option ValidationError :=
  match l with
  | [] => None
  | x :: l =>
      ExtendContext (Label_Validate x) ("Labels[" +:+ pretty i +:+ "]")
      elif match prev with
           | None => None
           | Some p =>
               if String.ltb (l_Name p) (l_Name x) then None
               else if String.eqb (l_Name p) (l_Name x) then
                 failIf (str_leb (l_Value x) (l_Value p))
                   "Labels not in unique, sorted order (index %d; label %s value %s <= %s)"
                 elif failIf (String.eqb (l_Value p) "")
                   "Label has empty & non-empty values (index %d; label %s value %s)"
               else NewValidationError "Labels not in unique, sorted order (index %d; label name %s <= %s)"
           end
      elif validateLabels (S i) (Some x) l
  end.

Definition LabelSet_Validate (m : LabelSet) : option ValidationError := validateLabels 0 None m.

(** ** Lookup and update *)

Definition search_name (m : LabelSet) (name : string) : nat :=
  sort_Search (length m) (λ i, str_leb name (l_Name (m !!! i))).

(** [end] of the run of labels [name] from [begin]. *)
Definition name_end (m : LabelSet) (name : string) (begin : nat) : nat :=
  skip_while (length m) (length m) (λ i, String.eqb (l_Name (m !!! i)) name) begin.

Definition ValuesOf (m : LabelSet) (name : string) : list string :=
  let ind := search_name m name in
  l_Value <$> slice m ind (name_end m name ind).

Definition ValueOf (m : LabelSet) (name : string) : string :=
  let ind := search_name m name in
  if negb (ind =? length m) && String.eqb (l_Name (m !!! ind)) name then l_Value (m !!! ind) else "".

(** [append(m, Label{})] and [copy(m[i+1:], m[i:])]. *)
Definition make_room (m : LabelSet) (i : nat) : LabelSet :=
  let m := m ++ [mkLabel "" ""] in slice_copy m (i + 1) (drop i m).

Definition SetValue (m : LabelSet) (name value : string) : LabelSet :=
  let begin := search_name m name in
  let end_ := name_end m name begin in
  let '(m, end_) := if begin =? end_ then (make_room m begin, begin + 1) else (m, end_) in
  let m := <[begin := mkLabel name value]> m in
  take (begin + 1) m ++ drop end_ m.

Definition AddValue (m : LabelSet) (name value : string) : LabelSet :=
  let ind := sort_Search (length m) (λ i,
    if negb (String.eqb (l_Name (m !!! i)) name) then String.ltb name (l_Name (m !!! i))
    else str_leb value (l_Value (m !!! i))) in
  let label := mkLabel name value in
  if negb (ind =? length m) && bool_decide (m !!! ind = label) then m
  else <[ind := label]> (make_room m ind).

Definition Remove (m : LabelSet) (name : string) : LabelSet :=
  let begin := search_name m name in
  let end_ := name_end m name begin in
  take begin m ++ drop end_ m.

Fixpoint addPairs (set : LabelSet) (nv : list string) : LabelSet :=
  match nv with
  | n :: v :: nv => addPairs (AddValue set n v) nv
  | _ => set
  end.

Definition MustLabelSet (nv : list string) : outcome LabelSet :=
  if negb (length nv mod 2 =? 0) then Panic "expected an even number of Name/Value arguments"
  else
    let set := addPairs [] nv in
    match LabelSet_Validate set with
    | Some e => Panic (Err e)
    | None => Ret set
    end.

(** ** Well-known labels *)

Definition lbl_ContentType : string := "content-type".
Definition ContentType_ProtoFixed : string := "application/x-protobuf-fixed".
Definition ContentType_JSONLines : string := "application/x-ndjson".
Definition ContentType_RecoveryLog : string := "application/x-gazette-recoverylog".
Definition lbl_MessageType : string := "app.gazette.dev/message-type".
Definition lbl_MessageSubType : string := "app.gazette.dev/message-subtype".
Definition lbl_ManagedBy : string := "app.gazette.dev/managed-by".
Definition lbl_Instance : string := "app.gazette.dev/instance".
Definition lbl_Region : string := "app.gazette.dev/region".

Definition SingleValueLabels : list string :=
  [lbl_ContentType; lbl_Instance; lbl_ManagedBy; lbl_MessageSubType; lbl_MessageType; lbl_Region].
Definition FramedContentTypes : list string := [ContentType_JSONLines; ContentType_ProtoFixed].

Fixpoint validateSingle (prev : option Label) (l : list Label) : option ValidationError :=
  match l with
  | [] => None
  | x :: l =>
      failIf (match prev with
              | None => false
              | Some p => String.eqb (l_Name p) (l_Name x) && bool_decide (l_Name x ∈ SingleValueLabels)
              end) "expected single-value Label has multiple values (index %d; label %s value %s)"
      elif validateSingle (Some x) l
  end.

Definition ValidateSingleValueLabels (m : LabelSet) : option ValidationError := validateSingle None m.

(** ** labelJoin: a full outer join of two sorted label sets *)

Record labelJoinCursor := mkCursor { lBeg : nat; lEnd : nat; rBeg : nat; rEnd : nat }.
Record labelJoin := mkJoin { setL : list Label; setR : list Label; cursor : labelJoinCursor }.

Definition newJoin (l r : list Label) : labelJoin := mkJoin l r (mkCursor 0 0 0 0).

(** [next]: the cursor and the advanced join, or [None] when both sequences are complete. *)
Definition join_next (j : labelJoin) : option (labelJoinCursor * labelJoin) :=
  let '(mkJoin L R (mkCursor lb le rb re)) := j in
  let nameL i := l_Name (L !!! i) in
  let nameR i := l_Name (R !!! i) in
  let step (c : Z) :=
    let le := if (c <=? 0)%Z then skip_while (length L) (length L) (λ i, String.eqb (nameL i) (nameL lb)) le else le in
    let re := if (0 <=? c)%Z then skip_while (length R) (length R) (λ i, String.eqb (nameR i) (nameR rb)) re else re in
    Some (mkCursor lb le rb re, mkJoin L R (mkCursor le le re re)) in
  if (lb =? length L) && (rb =? length R) then None
  else if lb =? length L then step 1%Z
  else if rb =? length R then step (-1)%Z
  else if String.eqb (nameL lb) (nameR rb) then step 0%Z
  else if String.ltb (nameL lb) (nameR rb) then step (-1)%Z
  else step 1%Z.

(** [for cur, ok := it.next(); ok; cur, ok = it.next()]: the cursors, in order. Each
    step consumes a label, so that [len(l) + len(r)] rounds are enough. *)
Fixpoint join_loop (fuel : nat) (j : labelJoin) : list labelJoinCursor :=
  match fuel with
  | O => []
  | S fuel => match join_next j with
              | None => []
              | Some (cur, j') => cur :: join_loop fuel j'
              end
  end.

Definition join_cursors (l r : list Label) : list labelJoinCursor :=
  join_loop (length l + length r) (newJoin l r).

Definition sliceL (l : list Label) (c : labelJoinCursor) : list Label := slice l (lBeg c) (lEnd c).
Definition sliceR (r : list Label) (c : labelJoinCursor) : list Label := slice r (rBeg c) (rEnd c).

Definition labelValuesEqual (l r : list Label) (cur : labelJoinCursor) : bool :=
  let n := lEnd cur - lBeg cur in
  if negb (n =? rEnd cur - rBeg cur) then false
  else forallb (λ i, String.eqb (l_Value (l !!! (lBeg cur + i))) (l_Value (r !!! (rBeg cur + i)))) (seq 0 n).

Definition UnionLabelSets (lhs rhs : LabelSet) : LabelSet :=
  concat ((λ cur, if negb (lBeg cur =? lEnd cur) then sliceL lhs cur else sliceR rhs cur)
          <$> join_cursors lhs rhs).

Definition IntersectLabelSets (lhs rhs : LabelSet) : LabelSet :=
  concat ((λ cur, if labelValuesEqual lhs rhs cur then sliceL lhs cur else []) <$> join_cursors lhs rhs).

Definition SubtractLabelSet (lhs rhs : LabelSet) : LabelSet :=
  concat ((λ cur, if negb (labelValuesEqual lhs rhs cur) then sliceL lhs cur else []) <$> join_cursors lhs rhs).

(** ** Selectors *)

Record LabelSelector := mkSelector { Include : LabelSet; Exclude : LabelSet }.

Definition LabelSelector_Validate (m : LabelSelector) : option ValidationError :=
  ExtendContext (LabelSet_Validate (Include m)) "Include"
  elif ExtendContext (LabelSet_Validate (Exclude m)) "Exclude".

(** Whether a value of [a] is present in [b]; both are in order. *)
Fixpoint match_values (fuel : nat) (a b : list Label) : bool :=
  match fuel with
  | O => false
  | S fuel =>
      match a, b with
      | x :: a', y :: b' =>
          if String.eqb (l_Value x) "" || String.eqb (l_Value x) (l_Value y) then true
          else if String.ltb (l_Value x) (l_Value y) then match_values fuel a' b
          else match_values fuel a b'
      | _, _ => false
      end
  end.

Fixpoint match_cursors (sel set : list Label) (reqAll : bool) (cs : list labelJoinCursor) : bool :=
  match cs with
  | [] => reqAll
  | cur :: cs =>
      if lBeg cur =? lEnd cur then match_cursors sel set reqAll cs
      else
        let a := sliceL sel cur in
        let b := sliceR set cur in
        let matched := match_values (length a + length b) a b in
        if negb reqAll && matched then true
        else if reqAll && negb matched then false
        else match_cursors sel set reqAll cs
  end.

Definition matchSelector (sel set : list Label) (reqAll : bool) : bool :=
  match_cursors sel set reqAll (join_cursors sel set).

Definition Matches (m : LabelSelector) (s : LabelSet) : bool :=
  if matchSelector (Exclude m) s false then false
  else if negb (matchSelector (Include m) s true) then false
  else true.

(** ** Runs of a name in a sorted list *)

Definition name_le (x y : Label) : Prop := str_lt (l_Name x) (l_Name y) ∨ l_Name x = l_Name y.
Definition label_lt (x y : Label) : Prop :=
  str_lt (l_Name x) (l_Name y) ∨ l_Name x = l_Name y ∧ str_lt (l_Value x) (l_Value y).

#[global] Instance label_lt_strict : StrictOrder label_lt.
Proof.
  split.
  - intros x [H|[_ H]]; by eapply (irreflexivity str_lt).
  - intros [] [] []. unfold label_lt. simpl. intros [H|[-> H]] [H'|[-> H']]; [left|by left|by left|right; split; [done|]];
      by etransitivity.
Qed.

#[global] Instance label_lt_dec : RelDecision label_lt.
Proof. intros x y. unfold label_lt. apply _. Defined.

Lemma label_lt_le x y : label_lt x y → name_le x y.
Proof. unfold label_lt, name_le. naive_solver. Qed.

Definition group (n : string) (l : list Label) : list Label := filter (λ x, l_Name x = n) l.

Definition by_name (l : list Label) : Prop := StronglySorted name_le l.

Lemma by_name_of l : StronglySorted label_lt l → by_name l.
Proof. apply ssorted_impl, label_lt_le. Qed.

Lemma slice_app {A} (l : list A) i j : i ≤ j → drop i l = slice l i j ++ drop j l.
Proof. intros. unfold slice. rewrite <- (take_drop (j - i) (drop i l)) at 1. rewrite drop_drop. do 2 f_equal. lia. Qed.

Lemma elem_of_slice (l : list Label) i j x :
  x ∈ slice l i j → ∃ k, i ≤ k < j ∧ k < length l ∧ x = l !!! k.
Proof.
  unfold slice. intros [k Hk]%list_elem_of_lookup. apply lookup_take_Some in Hk as [Hk Hlt].
  rewrite lookup_drop in Hk. exists (i + k). pose proof (lookup_lt_Some _ _ _ Hk).
  split_and!; [lia..|]. symmetry. by apply list_lookup_total_correct.
Qed.

Lemma elem_of_drop (l : list Label) j x :
  x ∈ drop j l → ∃ k, j ≤ k < length l ∧ x = l !!! k.
Proof.
  intros [k Hk]%list_elem_of_lookup. rewrite lookup_drop in Hk. exists (j + k).
  pose proof (lookup_lt_Some _ _ _ Hk). split; [lia|]. symmetry. by apply list_lookup_total_correct.
Qed.

Lemma by_name_total l i j : by_name l → i ≤ j → j < length l → name_le (l !!! i) (l !!! j).
Proof.
  intros Hs Hij Hj. destruct (decide (i = j)) as [-> |]; [by right|].
  apply (ssorted_lookup _ l i j); [done|lia|apply lookup_total_some; lia..].
Qed.

(** The labels of name [n] are one run, which starts where names stop being less. *)
Lemma run_spec l i n :
  by_name l → i ≤ length l → (∀ k, i ≤ k < length l → str_leb n (l_Name (l !!! k)) = true) →
  let e := skip_while (length l) (length l) (λ k, String.eqb (l_Name (l !!! k)) n) i in
  i ≤ e ≤ length l ∧ slice l i e = group n (drop i l) ∧ group n (drop e l) = [] ∧
  (∀ x, x ∈ drop e l → str_lt n (l_Name x)) ∧
  (∀ n', n' ≠ n → group n' (drop e l) = group n' (drop i l)).
Proof.
  intros Hs Hi Hge e.
  destruct (skip_while_spec (length l) (length l) (λ k, String.eqb (l_Name (l !!! k)) n) i) as (Hb & Hrun & Hstop);
    [lia..|]. fold e in Hb, Hrun, Hstop.
  assert (∀ x, x ∈ drop e l → str_lt n (l_Name x)) as Hafter.
  { intros x (k & Hk & ->)%elem_of_drop. specialize (Hstop ltac:(lia)). apply String.eqb_neq in Hstop.
    assert (str_lt n (l_Name (l !!! e))) as He.
    { destruct (proj1 (str_leb_spec _ _) (Hge e ltac:(lia))); [done|congruence]. }
    destruct (by_name_total l e k Hs) as [H|<-]; [lia..| |done]. by etransitivity. }
  assert (∀ x, x ∈ slice l i e → l_Name x = n) as Hin.
  { intros x (k & Hk & _ & ->)%elem_of_slice. by apply String.eqb_eq, Hrun. }
  assert (group n (drop e l) = []) as Hnone.
  { apply list_filter_none. intros x Hx <-. by eapply (irreflexivity str_lt), Hafter. }
  split_and!; [lia|lia| |done|done|].
  - rewrite (slice_app l i e) by lia. unfold group in *. rewrite filter_app, Hnone, app_nil_r.
    symmetry. by apply list_filter_all.
  - intros n' Hne. rewrite (slice_app l i e) by lia. unfold group. rewrite filter_app.
    rewrite (list_filter_none _ (slice l i e)); [done|]. intros x Hx Hn'. apply Hne. by rewrite <- (Hin x).
Qed.

Lemma search_name_spec l n :
  by_name l →
  let i := search_name l n in
  i ≤ length l ∧ (∀ x, x ∈ take i l → str_lt (l_Name x) n) ∧
  (∀ k, i ≤ k < length l → str_leb n (l_Name (l !!! k)) = true).
Proof.
  intros Hs i. unfold search_name in i.
  destruct (sort_Search_least (length l) (λ i, str_leb n (l_Name (l !!! i)))) as (H1 & H2 & H3).
  { intros a b Hab Hb. rewrite !str_leb_spec. intros Ha.
    destruct (by_name_total l a b Hs Hab Hb) as [Hn|Hn]; [|by rewrite <- Hn].
    left. destruct Ha as [Ha| ->]; [by etransitivity|done]. }
  fold i in H1, H2, H3. split_and!; [done| |intros; apply H3; lia].
  intros x [k Hk]%list_elem_of_lookup. apply lookup_take_Some in Hk as [Hk Hlt].
  specialize (H2 k Hlt). rewrite (list_lookup_total_correct _ _ _ Hk) in H2.
  unfold str_leb in H2. by apply negb_false_iff in H2.
Qed.

Lemma group_take l n : by_name l → group n (take (search_name l n) l) = [].
Proof.
  intros Hs. destruct (search_name_spec l n Hs) as (_ & H & _). apply list_filter_none.
  intros x Hx <-. by eapply (irreflexivity str_lt), H.
Qed.

Lemma group_drop l n : by_name l → group n (drop (search_name l n) l) = group n l.
Proof.
  intros Hs. trans (group n (take (search_name l n) l ++ drop (search_name l n) l)); [|by rewrite take_drop].
  unfold group. rewrite filter_app. fold (group n (take (search_name l n) l)). by rewrite group_take.
Qed.

Lemma ValuesOf_group l n : by_name l → ValuesOf l n = l_Value <$> group n l.
Proof.
  intros Hs. unfold ValuesOf, name_end. destruct (search_name_spec l n Hs) as (Hi & _ & Hge).
  destruct (run_spec l (search_name l n) n Hs Hi Hge) as (_ & -> & _). by rewrite group_drop.
Qed.

(** ** The join enumerates the names of both sides, in order *)

Definition suffixes (l r : list Label) (i j : nat) (cs : list labelJoinCursor) : Prop :=
  ∃ ns, StronglySorted str_lt ns ∧
    (∀ n, n ∈ ns ↔ group n (drop i l) ≠ [] ∨ group n (drop j r) ≠ []) ∧
    Forall2 (λ n c, sliceL l c = group n (drop i l) ∧ sliceR r c = group n (drop j r) ∧
                    lBeg c ≤ lEnd c ≤ length l ∧ rBeg c ≤ rEnd c ≤ length r) ns cs.

Lemma group_nil_iff n l : group n l = [] ↔ ∀ x, x ∈ l → l_Name x ≠ n.
Proof.
  split; [|by apply list_filter_none]. intros H x Hx Hn.
  assert (x ∈ group n l) as Hin by (by apply list_elem_of_filter). rewrite H in Hin. set_solver.
Qed.

(** One step of the join on the name [n], the least of both sides. *)
Lemma join_cons l r i j n c cs :
  by_name l → by_name r → i ≤ length l → j ≤ length r →
  (∀ k, i ≤ k < length l → str_leb n (l_Name (l !!! k)) = true) →
  (∀ k, j ≤ k < length r → str_leb n (l_Name (r !!! k)) = true) →
  group n (drop i l) ≠ [] ∨ group n (drop j r) ≠ [] →
  let i' := skip_while (length l) (length l) (λ k, String.eqb (l_Name (l !!! k)) n) i in
  let j' := skip_while (length r) (length r) (λ k, String.eqb (l_Name (r !!! k)) n) j in
  c = mkCursor i i' j j' → suffixes l r i' j' cs → suffixes l r i j (c :: cs).
Proof.
  intros Hl Hr Hi Hj Hgl Hgr Hn i' j' -> (ns & Hs & Hin & HF).
  destruct (run_spec l i n Hl Hi Hgl) as (Hi' & Hsl & Hl0 & Hla & Hlo). fold i' in Hi', Hsl, Hl0, Hla, Hlo.
  destruct (run_spec r j n Hr Hj Hgr) as (Hj' & Hsr & Hr0 & Hra & Hro). fold j' in Hj', Hsr, Hr0, Hra, Hro.
  assert (∀ m, m ∈ ns → str_lt n m) as Hlt.
  { intros m Hm. apply Hin in Hm as [Hm|Hm].
    - destruct (group m (drop i' l)) as [|x g] eqn:E; [done|].
      assert (x ∈ group m (drop i' l)) as [<- Hx]%list_elem_of_filter by (rewrite E; set_solver). by apply Hla.
    - destruct (group m (drop j' r)) as [|x g] eqn:E; [done|].
      assert (x ∈ group m (drop j' r)) as [<- Hx]%list_elem_of_filter by (rewrite E; set_solver). by apply Hra. }
  exists (n :: ns). split_and!.
  - constructor; [done|]. apply Forall_forall. auto.
  - intros m. rewrite elem_of_cons. destruct (decide (m = n)) as [-> |Hne]; [naive_solver|].
    rewrite Hin, Hlo, Hro by done. naive_solver.
  - constructor; [done|]. apply (Forall2_impl_l _ _ _ _ HF).
    intros m c Hm (? & ? & ? & ?). assert (m ≠ n) by (intros ->; by eapply (irreflexivity str_lt), Hlt, Hm).
    by rewrite <- Hlo, <- Hro.
Qed.

Lemma head_le l i : by_name l → ∀ k, i ≤ k < length l → str_leb (l_Name (l !!! i)) (l_Name (l !!! k)) = true.
Proof. intros Hs k Hk. apply str_leb_spec. apply by_name_total; [done|lia..]. Qed.

Lemma group_head l i : i < length l → group (l_Name (l !!! i)) (drop i l) ≠ [].
Proof.
  intros Hi H. rewrite group_nil_iff in H. apply (H (l !!! i)); [|done].
  apply list_elem_of_lookup. exists 0. rewrite lookup_drop, Nat.add_0_r. by apply lookup_total_some.
Qed.

(** A side on which no step is taken has no label of the name. *)
Lemma skip_none l i n :
  i ≤ length l → (i < length l → l_Name (l !!! i) ≠ n) →
  skip_while (length l) (length l) (λ k, String.eqb (l_Name (l !!! k)) n) i = i.
Proof.
  intros Hi H. remember (length l) as m eqn:Hm. assert (∀ f, skip_while f m (λ k, String.eqb (l_Name (l !!! k)) n) i = i) as Hf.
  { intros [|f]; [done|]. simpl. destruct (Nat.eqb_spec i m) as [|Hne]; simpl; [done|].
    destruct (String.eqb_spec (l_Name (l !!! i)) n) as [Heq|]; [|done]. destruct (H ltac:(lia) Heq). }
  apply Hf.
Qed.

Lemma skip_some l i :
  i < length l →
  i < skip_while (length l) (length l) (λ k, String.eqb (l_Name (l !!! k)) (l_Name (l !!! i))) i.
Proof.
  intros Hi. destruct (length l) as [|m] eqn:E; [lia|]. cbn [skip_while].
  destruct (Nat.eqb_spec i (S m)) as [|_]; [lia|]. rewrite String.eqb_refl. cbn [negb andb].
  destruct (skip_while_spec m (S m) (λ k, String.eqb (l_Name (l !!! k)) (l_Name (l !!! i))) (i + 1)); lia.
Qed.

(** [next] steps to the least name [n] of both sides. *)
Lemma join_next_spec l r i j :
  by_name l → by_name r → i ≤ length l → j ≤ length r →
  (i = length l ∧ j = length r ∧ join_next (mkJoin l r (mkCursor i i j j)) = None) ∨
  ∃ n, let i' := skip_while (length l) (length l) (λ k, String.eqb (l_Name (l !!! k)) n) i in
       let j' := skip_while (length r) (length r) (λ k, String.eqb (l_Name (r !!! k)) n) j in
    (i < i' ∨ j < j') ∧
    (∀ k, i ≤ k < length l → str_leb n (l_Name (l !!! k)) = true) ∧
    (∀ k, j ≤ k < length r → str_leb n (l_Name (r !!! k)) = true) ∧
    (group n (drop i l) ≠ [] ∨ group n (drop j r) ≠ []) ∧
    join_next (mkJoin l r (mkCursor i i j j)) =
      Some (mkCursor i i' j j', mkJoin l r (mkCursor i' i' j' j')).
Proof.
  intros Hl Hr Hi Hj.
  assert (∀ a b k, str_lt a b → str_leb b k = true → str_leb a k = true) as Hlt.
  { intros a b k Hab. rewrite !str_leb_spec. intros [H| <-]; [left; by etransitivity|by left]. }
  unfold join_next.
  destruct (Nat.eqb_spec i (length l)) as [Hil|Hil], (Nat.eqb_spec j (length r)) as [Hjl|Hjl]; simpl;
    [by left|right..].
  - exists (l_Name (r !!! j)). rewrite (skip_none l i) by lia. split_and!; [|lia| |right|done].
    + right. apply skip_some. lia. + by apply head_le. + apply group_head. lia.
  - exists (l_Name (l !!! i)). rewrite (skip_none r j) by lia. split_and!; [|by apply head_le|lia|left|done].
    + left. apply skip_some. lia. + apply group_head. lia.
  - destruct (String.eqb_spec (l_Name (l !!! i)) (l_Name (r !!! j))) as [Heq|Hne].
    { exists (l_Name (l !!! i)). split_and!; [left; apply skip_some; lia|by apply head_le|
        rewrite Heq; by apply head_le|left; apply group_head; lia|]. by rewrite <- Heq. }
    destruct (String.ltb (l_Name (l !!! i)) (l_Name (r !!! j))) eqn:Hc.
    + exists (l_Name (l !!! i)). rewrite (skip_none r j) by (done || congruence).
      split_and!; [left; apply skip_some; lia|by apply head_le| |left; apply group_head; lia|done].
      intros k Hk. by eapply Hlt, head_le.
    + assert (str_lt (l_Name (r !!! j)) (l_Name (l !!! i))) as Hgt.
      { destruct (str_lt_trichotomy (l_Name (l !!! i)) (l_Name (r !!! j))) as [H|[H|H]]; [|done..].
        unfold str_lt in H. congruence. }
      exists (l_Name (r !!! j)). rewrite (skip_none l i) by done.
      split_and!; [right; apply skip_some; lia| |by apply head_le|right; apply group_head; lia|done].
      intros k Hk. by eapply Hlt, head_le.
Qed.

Lemma join_loop_spec fuel l r i j :
  by_name l → by_name r → i ≤ length l → j ≤ length r → (length l - i) + (length r - j) ≤ fuel →
  suffixes l r i j (join_loop fuel (mkJoin l r (mkCursor i i j j))).
Proof.
  intros Hl Hr. assert (suffixes l r (length l) (length r) []) as Hend.
  { exists []. rewrite !drop_all. split_and!; [constructor| |constructor]. intros n. unfold group.
    rewrite filter_nil. set_solver. }
  revert i j. induction fuel as [|fuel IH]; intros i j Hi Hj Hf.
  { by replace i with (length l) by lia; replace j with (length r) by lia. }
  cbn [join_loop].
  destruct (join_next_spec l r i j Hl Hr Hi Hj) as [(-> & -> & ->)|(n & Hp & Hgl & Hgr & Hn & ->)]; [done|].
  destruct (run_spec l i n Hl Hi Hgl) as (? & _). destruct (run_spec r j n Hr Hj Hgr) as (? & _).
  eapply join_cons; [done..|]. apply IH; lia.
Qed.

Lemma join_spec l r :
  by_name l → by_name r → suffixes l r 0 0 (join_cursors l r).
Proof. intros. apply join_loop_spec; try done; lia. Qed.

(** ** Valid label sets *)

(** The order of the labels of a valid set: an empty value has no sibling. *)
Definition label_before (x y : Label) : Prop :=
  str_lt (l_Name x) (l_Name y) ∨
  l_Name x = l_Name y ∧ str_lt (l_Value x) (l_Value y) ∧ l_Value x ≠ "".

#[global] Instance label_before_trans : Transitive label_before.
Proof.
  intros [] [] []. unfold label_before. simpl.
  intros [H|(-> & H & Hne)] [H'|(-> & H' & Hne')]; [left; by etransitivity|by left|by left|].
  right. split_and!; [done|by etransitivity|done].
Qed.

Definition LabelSet_ok (l : LabelSet) : Prop :=
  Forall (λ x, Label_Validate x = None) l ∧ StronglySorted label_before l.

Lemma LabelSet_ok_by_name l : LabelSet_ok l → by_name l.
Proof. intros [_ H]. eapply ssorted_impl; [|exact H]. intros x y [?|(? & _)]; [by left|by right]. Qed.

Lemma validateLabels_spec i prev l :
  validateLabels i prev l = None ↔
  Forall (λ x, Label_Validate x = None) l ∧
  Sorted label_before l ∧ (∀ p, prev = Some p → HdRel label_before p l).
Proof.
  revert i prev. induction l as [|x l IH]; intros i prev; simpl; [naive_solver|].
  rewrite !orElse_None, ExtendContext_None, IH, Forall_cons.
  assert ((match prev with None => None | Some p =>
      if String.ltb (l_Name p) (l_Name x) then None
      else if String.eqb (l_Name p) (l_Name x) then
        failIf (str_leb (l_Value x) (l_Value p))
          "Labels not in unique, sorted order (index %d; label %s value %s <= %s)"
        elif failIf (String.eqb (l_Value p) "")
          "Label has empty & non-empty values (index %d; label %s value %s)"
      else NewValidationError "Labels not in unique, sorted order (index %d; label name %s <= %s)" end)
    = None ↔ ∀ p, prev = Some p → label_before p x) as ->.
  { destruct prev as [p|]; [|naive_solver]. unfold label_before.
    trans (str_lt (l_Name p) (l_Name x) ∨ l_Name p = l_Name x ∧ str_lt (l_Value p) (l_Value x) ∧ l_Value p ≠ "");
      [|naive_solver].
    destruct (String.ltb (l_Name p) (l_Name x)) eqn:Hlt; [naive_solver|].
    assert (¬ str_lt (l_Name p) (l_Name x)) by (unfold str_lt; congruence).
    destruct (String.eqb_spec (l_Name p) (l_Name x)); [|unfold NewValidationError; naive_solver].
    rewrite orElse_None, !failIf_None. unfold str_leb. rewrite negb_false_iff, String.eqb_neq.
    unfold str_lt in *. naive_solver. }
  split.
  - intros (? & ? & ? & Hs & Hh). split_and!; [done..| |]; [constructor; [done|by apply Hh]|].
    intros p ->. constructor. auto.
  - intros ([? ?] & [Hs Hh]%Sorted_inv & Hp). split_and!; [done| |done|done|by intros ? [= <-]].
    intros p Hpp. by apply (HdRel_inv (Hp p Hpp)).
Qed.

Lemma LabelSet_Validate_spec l : LabelSet_Validate l = None ↔ LabelSet_ok l.
Proof.
  unfold LabelSet_Validate, LabelSet_ok. rewrite validateLabels_spec. split.
  - intros (? & H & _). split; [done|]. by apply Sorted_StronglySorted; [apply label_before_trans|].
  - intros [? H]. split_and!; [done|by apply StronglySorted_Sorted|done].
Qed.

(** ** Sets given name by name *)

Definition grouped (f : string → list Label) : Prop := ∀ n x, x ∈ f n → l_Name x = n.

Lemma group_grouped l : grouped (λ n, group n l).
Proof. intros n x [? _]%list_elem_of_filter. done. Qed.

Lemma group_concat f ns n :
  grouped f → StronglySorted str_lt ns →
  group n (concat (f <$> ns)) = if bool_decide (n ∈ ns) then f n else [].
Proof.
  intros Hf. induction 1 as [|m ns Hs IH Hm]; [done|]. rewrite fmap_cons. cbn [concat]. unfold group in *. rewrite filter_app, IH.
  destruct (decide (n = m)) as [-> |Hne].
  - rewrite (bool_decide_eq_true_2 (m ∈ m :: ns)) by set_solver.
    rewrite bool_decide_eq_false_2, app_nil_r.
    + apply list_filter_all. intros x. apply Hf.
    + intros Hin. rewrite Forall_forall in Hm. by apply (irreflexivity str_lt m), Hm.
  - rewrite list_filter_none by (intros x Hx%Hf; congruence). simpl.
    rewrite (bool_decide_ext _ (n ∈ m :: ns)); [done|]. set_solver.
Qed.

Lemma concat_ok f ns :
  grouped f → StronglySorted str_lt ns → (∀ n, n ∈ ns → LabelSet_ok (f n)) →
  LabelSet_ok (concat (f <$> ns)).
Proof.
  intros Hf Hs. induction Hs as [|m ns Hs IH Hm]; intros Hok; [by repeat constructor|]. rewrite fmap_cons. cbn [concat].
  destruct (IH) as [H1 H2]; [intros; apply Hok; set_solver|]. destruct (Hok m) as [H3 H4]; [set_solver|].
  split; [by apply Forall_app|]. apply ssorted_app. split_and!; [done..|].
  intros x y Hx%Hf Hy. apply list_elem_of_In, in_concat in Hy as (l & Hl & Hy). left.
  apply list_elem_of_In, list_elem_of_fmap in Hl as (n & -> & Hn). apply list_elem_of_In in Hy.
  rewrite Hx, (Hf n y Hy). rewrite Forall_forall in Hm. by apply Hm.
Qed.

Lemma join_op l r (F : labelJoinCursor → list Label) (f : string → list Label) :
  LabelSet_ok l → LabelSet_ok r → grouped f → (∀ n, LabelSet_ok (f n)) →
  (∀ n, group n l = [] → group n r = [] → f n = []) →
  (∀ n c, sliceL l c = group n l → sliceR r c = group n r →
     lBeg c ≤ lEnd c ≤ length l → rBeg c ≤ rEnd c ≤ length r → F c = f n) →
  LabelSet_ok (concat (F <$> join_cursors l r)) ∧
  ∀ n, ValuesOf (concat (F <$> join_cursors l r)) n = l_Value <$> f n.
Proof.
  intros Hl Hr Hf Hok Hnil HF.
  destruct (join_spec l r) as (ns & Hs & Hin & H2); [by apply LabelSet_ok_by_name..|].
  rewrite !drop_0 in H2. setoid_rewrite drop_0 in Hin.
  assert (F <$> join_cursors l r = f <$> ns) as ->.
  { clear Hs Hin. induction H2 as [|n c ns cs (? & ? & ? & ?) _ IH]; [done|].
    rewrite !fmap_cons, IH. f_equal. by apply HF. }
  assert (LabelSet_ok (concat (f <$> ns))) as Hc by (by apply concat_ok). split; [done|].
  intros n. rewrite ValuesOf_group by (by apply LabelSet_ok_by_name). rewrite group_concat by done.
  case_bool_decide as Hn; [done|]. rewrite Hnil; [done|..]; apply dec_stable; intros ?; apply Hn, Hin; auto.
Qed.

Lemma group_ok n l : LabelSet_ok l → LabelSet_ok (group n l).
Proof.
  intros [H1 H2]. split; [|by apply ssorted_filter]. rewrite Forall_forall in *.
  intros x [_ Hx]%list_elem_of_filter. auto.
Qed.

Lemma slice_nil_iff (l : list Label) i j : i ≤ j ≤ length l → (slice l i j = [] ↔ i = j).
Proof.
  intros H. rewrite <- length_zero_iff_nil. unfold slice. rewrite length_take, length_drop. lia.
Qed.

Lemma slice_lookup (l : list Label) i j k :
  i ≤ j ≤ length l → k < j - i → slice l i j !! k = Some (l !!! (i + k)).
Proof.
  intros H Hk. unfold slice. rewrite lookup_take_lt by done. rewrite lookup_drop. apply lookup_total_some. lia.
Qed.

Lemma labelValuesEqual_spec l r c :
  lBeg c ≤ lEnd c ≤ length l → rBeg c ≤ rEnd c ≤ length r →
  labelValuesEqual l r c = bool_decide (l_Value <$> sliceL l c = l_Value <$> sliceR r c).
Proof.
  intros Hl Hr. unfold labelValuesEqual, sliceL, sliceR.
  assert (length (slice l (lBeg c) (lEnd c)) = lEnd c - lBeg c) as Hll
    by (unfold slice; rewrite length_take, length_drop; lia).
  assert (length (slice r (rBeg c) (rEnd c)) = rEnd c - rBeg c) as Hlr
    by (unfold slice; rewrite length_take, length_drop; lia).
  destruct (Nat.eqb_spec (lEnd c - lBeg c) (rEnd c - rBeg c)) as [Hn|Hn]; simpl.
  2:{ symmetry. apply bool_decide_eq_false. intros H%(f_equal length). rewrite !length_fmap in H. lia. }
  apply eq_true_iff_eq. rewrite forallb_forall, bool_decide_eq_true. split.
  - intros H. apply list_eq. intros k. rewrite !list_lookup_fmap.
    destruct (decide (k < lEnd c - lBeg c)) as [Hk|Hk].
    + rewrite !slice_lookup by lia. simpl. f_equal. apply String.eqb_eq, (H k), in_seq. lia.
    + rewrite !lookup_ge_None_2 by lia. done.
  - intros H k [_ Hk]%in_seq. apply String.eqb_eq. apply (f_equal (.!! k)) in H.
    rewrite !list_lookup_fmap, !slice_lookup in H by lia. by simplify_eq/=.
Qed.

Definition keep_group (b : bool) (n : string) (l : list Label) : list Label := if b then group n l else [].

Lemma keep_group_grouped b l : grouped (λ n, keep_group (b n) n l).
Proof. intros n x. unfold keep_group. destruct (b n); [apply group_grouped|set_solver]. Qed.

Lemma keep_group_ok b n l : LabelSet_ok l → LabelSet_ok (keep_group b n l).
Proof. intros H. destruct b; [by apply group_ok|by repeat constructor]. Qed.

Lemma keep_group_values b n l : LabelSet_ok l →
  l_Value <$> keep_group b n l = if b then ValuesOf l n else [].
Proof. intros H. destruct b; [|done]. symmetry. by apply ValuesOf_group, LabelSet_ok_by_name. Qed.

Lemma values_equal_spec l r c n :
  LabelSet_ok l → LabelSet_ok r → sliceL l c = group n l → sliceR r c = group n r →
  lBeg c ≤ lEnd c ≤ length l → rBeg c ≤ rEnd c ≤ length r →
  labelValuesEqual l r c = bool_decide (ValuesOf l n = ValuesOf r n).
Proof.
  intros Hl Hr HL HR Hbl Hbr. rewrite labelValuesEqual_spec, HL, HR by done.
  by rewrite !ValuesOf_group by (by apply LabelSet_ok_by_name).
Qed.

Lemma UnionLabelSets_spec l r :
  LabelSet_ok l → LabelSet_ok r →
  LabelSet_ok (UnionLabelSets l r) ∧
  ∀ n, ValuesOf (UnionLabelSets l r) n = if bool_decide (ValuesOf l n = []) then ValuesOf r n else ValuesOf l n.
Proof.
  intros Hl Hr. pose proof (LabelSet_ok_by_name _ Hl). pose proof (LabelSet_ok_by_name _ Hr).
  destruct (join_op l r (λ cur, if negb (lBeg cur =? lEnd cur) then sliceL l cur else sliceR r cur)
    (λ n, if bool_decide (group n l = []) then group n r else group n l)) as [H1 H2]; [done..| | | | |].
  - intros n x. case_bool_decide; apply group_grouped.
  - intros n. case_bool_decide; by apply group_ok.
  - intros n -> ->. by rewrite bool_decide_eq_true_2.
  - intros n c HL HR Hbl Hbr. rewrite <- HL. unfold sliceL at 2.
    destruct (Nat.eqb_spec (lBeg c) (lEnd c)) as [He|He]; simpl.
    + by rewrite bool_decide_eq_true_2 by (by apply slice_nil_iff).
    + rewrite bool_decide_eq_false_2; [done|]. by rewrite slice_nil_iff.
  - split; [done|]. intros n. unfold UnionLabelSets. rewrite H2, !ValuesOf_group by done.
    rewrite (bool_decide_ext (l_Value <$> group n l = []) (group n l = [])); [by case_bool_decide|].
    split; [by intros ?%fmap_nil_inv|by intros ->].
Qed.

Lemma IntersectLabelSets_spec l r :
  LabelSet_ok l → LabelSet_ok r →
  LabelSet_ok (IntersectLabelSets l r) ∧
  ∀ n, ValuesOf (IntersectLabelSets l r) n = if bool_decide (ValuesOf l n = ValuesOf r n) then ValuesOf l n else [].
Proof.
  intros Hl Hr.
  destruct (join_op l r (λ cur, if labelValuesEqual l r cur then sliceL l cur else [])
    (λ n, keep_group (bool_decide (ValuesOf l n = ValuesOf r n)) n l)) as [H1 H2]; [done..| | | | |].
  - apply keep_group_grouped.
  - intros n. by apply keep_group_ok.
  - intros n Hn _. unfold keep_group. rewrite Hn. by case_bool_decide.
  - intros n c HL HR Hbl Hbr. rewrite (values_equal_spec l r c n) by done. unfold keep_group. by rewrite HL.
  - split; [done|]. intros n. unfold IntersectLabelSets. by rewrite H2, keep_group_values.
Qed.

Lemma SubtractLabelSet_spec l r :
  LabelSet_ok l → LabelSet_ok r →
  LabelSet_ok (SubtractLabelSet l r) ∧
  ∀ n, ValuesOf (SubtractLabelSet l r) n = if bool_decide (ValuesOf l n = ValuesOf r n) then [] else ValuesOf l n.
Proof.
  intros Hl Hr.
  destruct (join_op l r (λ cur, if negb (labelValuesEqual l r cur) then sliceL l cur else [])
    (λ n, keep_group (negb (bool_decide (ValuesOf l n = ValuesOf r n))) n l)) as [H1 H2]; [done..| | | | |].
  - apply (keep_group_grouped (λ n, negb (bool_decide (ValuesOf l n = ValuesOf r n)))).
  - intros n. by apply keep_group_ok.
  - intros n Hn _. unfold keep_group. rewrite Hn. by destruct (negb _).
  - intros n c HL HR Hbl Hbr. rewrite (values_equal_spec l r c n) by done. unfold keep_group. by rewrite HL.
  - split; [done|]. intros n. unfold SubtractLabelSet. rewrite H2, keep_group_values by done.
    by case_bool_decide.
Qed.

(** Set algebra of labels. Of valid label sets, union, intersection and
    difference are valid; name by name, the union has the values of the left set where it has the
    name and else those of the right, the intersection has the values both sets agree on,
    and the difference those of the left on which they do not. *)
Theorem LabelSet_algebra l r :
  LabelSet_Validate l = None → LabelSet_Validate r = None →
  LabelSet_Validate (UnionLabelSets l r) = None ∧
  LabelSet_Validate (IntersectLabelSets l r) = None ∧
  LabelSet_Validate (SubtractLabelSet l r) = None ∧
  ∀ n, let vl := ValuesOf l n in
       let vr := ValuesOf r n in
    ValuesOf (UnionLabelSets l r) n = (if bool_decide (vl = []) then vr else vl) ∧
    ValuesOf (IntersectLabelSets l r) n = (if bool_decide (vl = vr) then vl else []) ∧
    ValuesOf (SubtractLabelSet l r) n = (if bool_decide (vl = vr) then [] else vl).
Proof.
  rewrite !LabelSet_Validate_spec. intros Hl Hr.
  destruct (UnionLabelSets_spec l r Hl Hr), (IntersectLabelSets_spec l r Hl Hr), (SubtractLabelSet_spec l r Hl Hr).
  by split_and!.
Qed.

(** ** Updates *)

Lemma make_room_insert m i x : i ≤ length m → <[i := x]> (make_room m i) = take i m ++ x :: drop i m.
Proof.
  intros Hi. unfold make_room. pose proof (splice_correct (mkLabel "" "") x m i i (Nat.le_refl i) Hi) as H.
  cbv zeta in H. replace (length m + 1 - (i - i)) with (length m + 1) in H by lia.
  rewrite (proj2 (Nat.ltb_lt (length m) (length m + 1))) in H by lia.
  rewrite <- H. symmetry. apply take_ge. rewrite length_insert, length_slice_copy, length_app. simpl. lia.
Qed.

Lemma SetValue_eq m name value : by_name m →
  let b := search_name m name in let e := name_end m name b in
  SetValue m name value = take b m ++ mkLabel name value :: drop e m.
Proof.
  intros Hs b e. unfold SetValue. fold b. fold e.
  destruct (search_name_spec m name Hs) as (Hb & _ & Hge). fold b in Hb, Hge.
  destruct (run_spec m b name Hs Hb Hge) as (He & _). change (skip_while _ _ _ b) with e in He.
  assert (∀ (l : list Label) (x : Label), b < length l → ∀ k, b + 1 ≤ k →
    take (b + 1) (<[b := x]> l) ++ drop k (<[b := x]> l) = take b l ++ x :: drop k l) as Hcut.
  { intros l x Hl k Hk. rewrite drop_insert_lt by lia. rewrite insert_take_drop by done.
    rewrite take_app_ge by (rewrite length_take; lia). rewrite length_take, Nat.min_l by lia.
    replace (b + 1 - b) with 1 by lia. simpl. by rewrite <- app_assoc. }
  destruct (Nat.eqb_spec b e) as [Heq|Hne].
  - rewrite make_room_insert by lia. rewrite take_app_ge, drop_app_ge by (rewrite length_take; lia).
    rewrite !length_take, !Nat.min_l by lia. replace (b + 1 - b) with 1 by lia. simpl.
    rewrite take_0, drop_0, <- app_assoc, Heq. done.
  - apply Hcut; lia.
Qed.

(** What surrounds the run of [name]: the names before are less, the ones after greater. *)
Lemma around_run m name : by_name m →
  let b := search_name m name in let e := name_end m name b in
  (∀ x, x ∈ take b m → str_lt (l_Name x) name) ∧ (∀ x, x ∈ drop e m → str_lt name (l_Name x)) ∧
  (∀ n, n ≠ name → group n (take b m) ++ group n (drop e m) = group n m) ∧ sublist (take b m ++ drop e m) m.
Proof.
  intros Hs b e. destruct (search_name_spec m name Hs) as (Hb & Hlt & Hge). fold b in Hb, Hlt, Hge.
  destruct (run_spec m b name Hs Hb Hge) as (He & _ & _ & Hgt & Ho). change (skip_while _ _ _ b) with e in He, Hgt, Ho.
  split_and!; [done..| |].
  - intros n Hn. rewrite (Ho n Hn). unfold group. rewrite <- filter_app. by rewrite take_drop.
  - trans (take b m ++ drop b m); [|by rewrite take_drop]. apply sublist_app; [done|].
    rewrite (slice_app m b e) by lia. by apply sublist_inserts_l.
Qed.

Lemma group_app n l1 l2 : group n (l1 ++ l2) = group n l1 ++ group n l2.
Proof. apply filter_app. Qed.

Lemma SetValue_spec m name value :
  StronglySorted label_lt m →
  StronglySorted label_lt (SetValue m name value) ∧
  ∀ n, ValuesOf (SetValue m name value) n = if decide (n = name) then [value] else ValuesOf m n.
Proof.
  intros Hm. pose proof (by_name_of _ Hm) as Hs. rewrite SetValue_eq by done.
  destruct (around_run m name Hs) as (Hlt & Hgt & Ho & Hsub). set (b := search_name m name) in *.
  set (e := name_end m name b) in *.
  assert (StronglySorted label_lt (take b m ++ mkLabel name value :: drop e m)) as Hsort.
  { apply (ssorted_sublist _ _ _ Hsub) in Hm. apply ssorted_app in Hm as (H1 & H2 & H3).
    apply ssorted_app. split_and!; [done|constructor; [done|]|].
    - apply Forall_forall. intros x Hx. left. by apply Hgt.
    - intros x y Hx [-> |Hy]%elem_of_cons; [left; by apply Hlt|by apply H3]. }
  split; [done|]. intros n. rewrite !ValuesOf_group by (done || by apply by_name_of).
  rewrite group_app. unfold group at 2. rewrite filter_cons. simpl. fold (group n (drop e m)).
  destruct (decide (n = name)) as [-> |Hne].
  - rewrite decide_True by done. rewrite !(proj2 (group_nil_iff name _)); [done|..];
      intros x Hx <-; eapply (irreflexivity str_lt); eauto.
  - rewrite decide_False by done. by rewrite Ho.
Qed.

Lemma Remove_spec m name :
  StronglySorted label_lt m →
  StronglySorted label_lt (Remove m name) ∧
  ∀ n, ValuesOf (Remove m name) n = if decide (n = name) then [] else ValuesOf m n.
Proof.
  intros Hm. pose proof (by_name_of _ Hm) as Hs. unfold Remove.
  destruct (around_run m name Hs) as (Hlt & Hgt & Ho & Hsub). set (b := search_name m name) in *.
  set (e := name_end m name b) in *. pose proof (ssorted_sublist _ _ _ Hsub Hm) as Hsort.
  split; [done|]. intros n. rewrite !ValuesOf_group by (done || by apply by_name_of). rewrite group_app.
  destruct (decide (n = name)) as [-> |Hne]; [|by rewrite Ho].
  rewrite !(proj2 (group_nil_iff name _)); [done|..]; intros x Hx <-; eapply (irreflexivity str_lt); eauto.
Qed.

Lemma elem_of_ValuesOf n v l : by_name l → (v ∈ ValuesOf l n ↔ mkLabel n v ∈ l).
Proof.
  intros Hl. rewrite ValuesOf_group by done. rewrite list_elem_of_fmap. split.
  - intros ([n' v'] & -> & [<- ?]%list_elem_of_filter). done.
  - intros H. exists (mkLabel n v). split; [done|]. by apply list_elem_of_filter.
Qed.

Lemma label_lt_trichotomy x y : label_lt x y ∨ x = y ∨ label_lt y x.
Proof.
  destruct x as [n v], y as [n' v']. unfold label_lt. simpl.
  destruct (str_lt_trichotomy n n') as [?|[-> |?]]; [by auto| |by auto].
  destruct (str_lt_trichotomy v v') as [?|[-> |?]]; by auto.
Qed.

(** The predicate [AddValue] searches with. *)
Lemma add_search_spec (x y : Label) :
  (if negb (String.eqb (l_Name y) (l_Name x)) then String.ltb (l_Name x) (l_Name y)
   else str_leb (l_Value x) (l_Value y)) = true ↔ ¬ label_lt y x.
Proof.
  assert ((¬ label_lt y x) ↔ label_lt x y ∨ x = y) as ->.
  { destruct (label_lt_trichotomy x y) as [H|[-> |H]].
    - split; [by left|]. intros _ H'. by eapply (irreflexivity label_lt x), transitivity.
    - split; [by right|]. intros _. apply (irreflexivity label_lt).
    - split; [done|]. intros [H'| ->] _; [by eapply (irreflexivity label_lt x), transitivity|by eapply (irreflexivity label_lt)]. }
  destruct x as [n v], y as [n' v']. unfold label_lt. simpl.
  destruct (String.eqb_spec n' n) as [-> |Hne]; simpl.
  - rewrite str_leb_spec. split; [intros [?| ->]; [left; by right|by right]|].
    intros [[H|[_ H]]|[= ->]]; [by destruct (irreflexivity str_lt n)|by left|by right].
  - change (String.ltb n n' = true) with (str_lt n n'). split; [by auto|].
    intros [[?|[? _]]|[= ? _]]; [done|congruence..].
Qed.

Lemma ssorted_insert (m : list Label) i x :
  StronglySorted label_lt m → (∀ y, y ∈ take i m → label_lt y x) → (∀ y, y ∈ drop i m → label_lt x y) →
  StronglySorted label_lt (take i m ++ x :: drop i m).
Proof.
  intros Hm Hb Ha. rewrite <- (take_drop i m) in Hm. apply ssorted_app in Hm as (H1 & H2 & H3).
  apply ssorted_app. split_and!; [done|constructor; [done|by apply Forall_forall]|].
  intros y z Hy [-> |Hz]%elem_of_cons; [by apply Hb|by apply H3].
Qed.

Lemma AddValue_spec m name value :
  StronglySorted label_lt m →
  StronglySorted label_lt (AddValue m name value) ∧
  ∀ n v, v ∈ ValuesOf (AddValue m name value) n ↔ n = name ∧ v = value ∨ v ∈ ValuesOf m n.
Proof.
  intros Hm. set (x := mkLabel name value). unfold AddValue. fold x.
  set (p := λ i, if negb _ then _ else _).
  assert (∀ i, p i = true ↔ ¬ label_lt (m !!! i) x) as Hp by (intros i; apply (add_search_spec x)).
  assert (∀ i j, i < j → j < length m → label_lt (m !!! i) (m !!! j)) as Hlt.
  { intros i j Hij Hj. apply (ssorted_lookup _ m i j); [done|lia|apply lookup_total_some; lia..]. }
  destruct (sort_Search_least (length m) p) as (Hi & Hbefore & Hafter).
  { intros i j Hij Hj. rewrite !Hp. destruct (decide (i = j)) as [-> |]; [done|].
    intros H H'. apply H. etransitivity; [|exact H']. apply Hlt; lia. }
  set (i := sort_Search (length m) p) in *.
  assert (by_name m) as Hs by (by apply by_name_of).
  destruct (negb (i =? length m) && bool_decide (m !!! i = x)) eqn:E.
  - apply andb_true_iff in E as [Hlen%negb_true_iff%Nat.eqb_neq Hx%bool_decide_eq_true]. split; [done|].
    intros n v. rewrite elem_of_ValuesOf by done. split; [auto|]. intros [[-> ->]|?]; [|done].
    change (x ∈ m). rewrite <- Hx. apply lookup_total_in. lia.
  - rewrite make_room_insert by done. assert (i < length m → m !!! i ≠ x) as Hne.
    { intros Hil Heq. rewrite (bool_decide_eq_true_2 _ Heq), (proj2 (Nat.eqb_neq i (length m))) in E by lia. done. }
    assert (StronglySorted label_lt (take i m ++ x :: drop i m)) as Hsort.
    { apply ssorted_insert; [done|..].
      - intros y [k [Hk Hki]%lookup_take_Some]%list_elem_of_lookup.
        rewrite <- (list_lookup_total_correct _ _ _ Hk). specialize (Hbefore k Hki).
        apply dec_stable. intros H%Hp. congruence.
      - intros y (k & Hk & ->)%elem_of_drop.
        assert (label_lt x (m !!! i)) as Hxi.
        { destruct (label_lt_trichotomy x (m !!! i)) as [?|[Heq|Hgt]]; [done|by destruct Hne; [lia|]|].
          by destruct (proj1 (Hp i)); [apply Hafter; lia|]. }
        destruct (decide (k = i)) as [-> |]; [done|]. etransitivity; [exact Hxi|]. apply Hlt; lia. }
    split; [done|]. intros n v. rewrite !elem_of_ValuesOf by (done || by apply by_name_of).
    trans (mkLabel n v ∈ take i m ++ x :: drop i m); [done|].
    rewrite <- (take_drop i m) at 3. rewrite !elem_of_app, elem_of_cons. unfold x. naive_solver.
Qed.

(** Updates of a label set keep it in order. [SetValue] leaves exactly the given value
    of the name, [AddValue] adds it to the ones there are, [Remove] leaves none, and no
    other name is affected. *)
Theorem LabelSet_updates m name value :
  StronglySorted label_lt m →
  (StronglySorted label_lt (SetValue m name value) ∧
   ∀ n, ValuesOf (SetValue m name value) n = if decide (n = name) then [value] else ValuesOf m n) ∧
  (StronglySorted label_lt (AddValue m name value) ∧
   ∀ n v, v ∈ ValuesOf (AddValue m name value) n ↔ n = name ∧ v = value ∨ v ∈ ValuesOf m n) ∧
  (StronglySorted label_lt (Remove m name) ∧
   ∀ n, ValuesOf (Remove m name) n = if decide (n = name) then [] else ValuesOf m n).
Proof. intros Hm. split_and!; by (apply SetValue_spec || apply AddValue_spec || apply Remove_spec). Qed.

(** ** Selectors *)

(** A value of the selector is present, or is the wildcard of a present name. *)
Definition hits (vs ws : list string) : Prop := ∃ v, v ∈ vs ∧ (v = "" ∧ ws ≠ [] ∨ v ∈ ws).

Definition by_value (a : list Label) : Prop := StronglySorted str_lt (l_Value <$> a).

Lemma str_lt_nonempty a b : str_lt a b → b ≠ "".
Proof. intros H ->. destruct a; discriminate H. Qed.

Lemma hits_skip_l v vs w ws :
  StronglySorted str_lt (w :: ws) → v ≠ "" → str_lt v w → hits (v :: vs) (w :: ws) ↔ hits vs (w :: ws).
Proof.
  intros [_ Hw]%StronglySorted_inv Hv Hlt. rewrite Forall_forall in Hw. unfold hits. split.
  - intros (u & [-> |Hu]%elem_of_cons & H); [|by exists u]. exfalso.
    destruct H as [[? _]|[-> |Hin]%elem_of_cons]; [done|by eapply (irreflexivity str_lt)|].
    eapply (irreflexivity str_lt v), transitivity; [exact Hlt|by apply Hw].
  - intros (u & Hu & H). exists u. split; [by apply elem_of_cons; right|done].
Qed.

Lemma hits_skip_r v vs w ws :
  StronglySorted str_lt (v :: vs) → v ≠ "" → str_lt w v → hits (v :: vs) (w :: ws) ↔ hits (v :: vs) ws.
Proof.
  intros [_ Hv]%StronglySorted_inv Hne Hlt. rewrite Forall_forall in Hv. unfold hits.
  assert (∀ u, u ∈ v :: vs → u ≠ "" ∧ u ≠ w) as Hu.
  { intros u [-> |H%Hv]%elem_of_cons.
    - split; [done|]. intros ->. by eapply (irreflexivity str_lt).
    - split; [by eapply str_lt_nonempty|]. intros ->. eapply (irreflexivity str_lt v), transitivity; eauto. }
  split; intros (u & Hin & H); exists u; (split; [done|]); destruct (Hu u Hin) as [? ?].
  - destruct H as [[? _]|[? |?]%elem_of_cons]; [done..|by right].
  - destruct H as [[? _]|?]; [done|]. right. by apply elem_of_cons; right.
Qed.

Lemma match_values_spec fuel a b :
  by_value a → by_value b → length a + length b ≤ fuel →
  (match_values fuel a b = true ↔ hits (l_Value <$> a) (l_Value <$> b)).
Proof.
  assert (∀ ws, ¬ hits [] ws) as Hnil by (intros ws (v & Hv & _); set_solver).
  assert (∀ vs, ¬ hits vs []) as Hnil' by (intros vs (v & _ & [[_ ?]|?]); set_solver).
  revert a b. induction fuel as [|fuel IH]; intros [|[n v] a] [|[n' w] b] Ha Hb Hf;
    unfold by_value in *; rewrite ?fmap_cons in *; simpl in Hf; try lia; try naive_solver.
  cbn [match_values l_Value].
  destruct (String.eqb_spec v "") as [-> |Hne]; simpl.
  { split; [|done]. intros _. exists "". split; [by apply elem_of_cons; left|by left]. }
  destruct (String.eqb_spec v w) as [-> |Hvw].
  { split; [|done]. intros _. exists w. split; [by apply elem_of_cons; left|right; by apply elem_of_cons; left]. }
  destruct (String.ltb v w) eqn:Hlt.
  - rewrite hits_skip_l by done. apply (IH a (mkLabel n' w :: b)); [by apply StronglySorted_inv in Ha as [? _]|done|simpl; lia].
  - assert (str_lt w v) as Hgt.
    { destruct (str_lt_trichotomy v w) as [H|[H|H]]; [|done..]. unfold str_lt in H. congruence. }
    rewrite hits_skip_r by done. apply (IH (mkLabel n v :: a) b); [done|by apply StronglySorted_inv in Hb as [? _]|simpl; lia].
Qed.

Lemma group_by_value n l : LabelSet_ok l → by_value (group n l).
Proof.
  intros [_ Hs]. unfold by_value. apply (ssorted_filter _ (λ x, l_Name x = n)) in Hs. fold (group n l) in Hs.
  assert (∀ x, x ∈ group n l → l_Name x = n) as Hn by (intros x; apply group_grouped).
  revert Hs Hn. generalize (group n l). intros g0 Hs Hn. induction Hs as [|x g Hs IH Hx]; [constructor|].
  rewrite fmap_cons. constructor; [apply IH; intros; apply Hn, elem_of_cons; by right|].
  rewrite Forall_forall in Hx. apply Forall_forall. intros v (y & -> & Hy)%list_elem_of_fmap.
  destruct (Hx y Hy) as [H|(_ & H & _)]; [|done].
  rewrite (Hn x), (Hn y) in H by (apply elem_of_cons; auto). by destruct (irreflexivity str_lt n).
Qed.

Lemma matchSelector_spec sel set reqAll :
  LabelSet_ok sel → LabelSet_ok set →
  (matchSelector sel set reqAll = true ↔
   if reqAll then ∀ n, ValuesOf sel n ≠ [] → hits (ValuesOf sel n) (ValuesOf set n)
   else ∃ n, hits (ValuesOf sel n) (ValuesOf set n)).
Proof.
  intros Hsel Hset. unfold matchSelector.
  destruct (join_spec sel set) as (ns & _ & Hin & H2); [by apply LabelSet_ok_by_name..|].
  rewrite !drop_0 in H2. setoid_rewrite drop_0 in Hin.
  assert (∀ n, ValuesOf sel n = l_Value <$> group n sel) as HvL by (intros; by apply ValuesOf_group, LabelSet_ok_by_name).
  assert (∀ n, ValuesOf set n = l_Value <$> group n set) as HvR by (intros; by apply ValuesOf_group, LabelSet_ok_by_name).
  assert (∀ n, l_Value <$> group n sel ≠ [] → n ∈ ns) as Hns.
  { intros n Hn. apply Hin. left. change (group n sel ≠ []). intros Hg. by rewrite Hg in Hn. }
  trans (if reqAll then ∀ n, n ∈ ns → l_Value <$> group n sel ≠ [] → hits (l_Value <$> group n sel) (l_Value <$> group n set)
         else ∃ n, n ∈ ns ∧ hits (l_Value <$> group n sel) (l_Value <$> group n set)).
  2:{ destruct reqAll; setoid_rewrite HvL; setoid_rewrite HvR; [by split; eauto|]. split; [intros (n & _ & ?); by exists n|].
      intros (n & Hn). exists n. split; [|done]. apply Hns. destruct Hn as (v & Hv & _). intros Hg. rewrite Hg in Hv. by apply not_elem_of_nil in Hv. }
  clear Hin Hns HvL HvR. induction H2 as [|n c ns cs (HL & HR & Hbl & Hbr) _ IH]; simpl.
  { destruct reqAll; split; try done; [intros _ n Hn|intros (n & Hn & _)]; by apply not_elem_of_nil in Hn. }
  assert (lBeg c = lEnd c ↔ l_Value <$> group n sel = []) as Hempty.
  { rewrite <- (slice_nil_iff sel) by done. fold (sliceL sel c). rewrite HL. split; [by intros ->|apply fmap_nil_inv]. }
  rewrite HL, HR. pose proof (match_values_spec _ _ _ (group_by_value n sel Hsel) (group_by_value n set Hset) (Nat.le_refl _)) as Hm.
  assert (∀ m, m ∈ n :: ns ↔ m = n ∨ m ∈ ns) as Hcons by (intros; apply elem_of_cons).
  destruct (Nat.eqb_spec (lBeg c) (lEnd c)) as [He|He].
  - rewrite IH. apply Hempty in He. destruct reqAll.
    + split; [|naive_solver]. intros H m [-> |Hm']%Hcons; [done|by apply H].
    + split; [naive_solver|]. intros (m & [-> |Hm']%Hcons & Hh); [|by exists m].
      rewrite He in Hh. destruct Hh as (v & Hv & _). by apply not_elem_of_nil in Hv.
  - destruct (match_values _ (group n sel) (group n set)), reqAll; simpl; rewrite ?IH.
    + split; [|naive_solver]. intros H m [-> |Hm']%Hcons Hne; [by apply Hm|by apply H].
    + split; [|done]. intros _. exists n. split; [by apply Hcons; left|by apply Hm].
    + split; [done|]. intros H. apply Hm. apply (H n); [by apply Hcons; left|naive_solver].
    + split; [naive_solver|]. intros (m & [-> |Hm']%Hcons & Hh); [|by exists m]. by apply Hm in Hh.
Qed.

(** A selector matches a label set exactly when no excluded label has one of its
    values in the set, and every included label has one, the empty value standing for any. *)
Theorem Matches_correct sel s :
  LabelSelector_Validate sel = None → LabelSet_Validate s = None →
  Matches sel s = true ↔
  (∀ n, ¬ hits (ValuesOf (Exclude sel) n) (ValuesOf s n)) ∧
  (∀ n, ValuesOf (Include sel) n ≠ [] → hits (ValuesOf (Include sel) n) (ValuesOf s n)).
Proof.
  unfold LabelSelector_Validate. rewrite orElse_None, !ExtendContext_None, !LabelSet_Validate_spec.
  intros [Hi He] Hs. unfold Matches.
  pose proof (matchSelector_spec _ _ false He Hs) as Hex. pose proof (matchSelector_spec _ _ true Hi Hs) as Hin.
  destruct (matchSelector (Exclude sel) s false), (matchSelector (Include sel) s true); simpl in *; naive_solver.
Qed.

(** ** Concrete inputs *)

Definition demo_labels : LabelSet := [mkLabel "env" "prod"; mkLabel "env" "qa"; mkLabel "tier" ""].
Definition demo_other : LabelSet := [mkLabel "env" "prod"; mkLabel "tier" ""; mkLabel "zone" "us"].

Lemma LabelSet_algebra_witness :
  LabelSet_Validate (UnionLabelSets demo_labels demo_other) = None ∧
  LabelSet_Validate (IntersectLabelSets demo_labels demo_other) = None ∧
  LabelSet_Validate (SubtractLabelSet demo_labels demo_other) = None ∧
  ∀ n, let vl := ValuesOf demo_labels n in
       let vr := ValuesOf demo_other n in
    ValuesOf (UnionLabelSets demo_labels demo_other) n = (if bool_decide (vl = []) then vr else vl) ∧
    ValuesOf (IntersectLabelSets demo_labels demo_other) n = (if bool_decide (vl = vr) then vl else []) ∧
    ValuesOf (SubtractLabelSet demo_labels demo_other) n = (if bool_decide (vl = vr) then [] else vl).
Proof. apply LabelSet_algebra; reflexivity. Defined.

Lemma demo_labels_sorted : StronglySorted label_lt demo_labels.
Proof.
  repeat match goal with
  | |- StronglySorted _ _ => constructor
  | |- Forall _ _ => constructor
  | |- label_lt _ _ => first [left; reflexivity | right; split; reflexivity]
  end.
Qed.

Lemma LabelSet_updates_witness :
  ValuesOf (SetValue demo_labels "env" "dev") "env" = ["dev"] ∧
  StronglySorted label_lt (AddValue demo_labels "env" "dev") ∧ ValuesOf (Remove demo_labels "env") "env" = [].
Proof.
  destruct (LabelSet_updates demo_labels "env" "dev" demo_labels_sorted) as ([_ H1] & [H2 _] & [_ H3]).
  split_and!; [apply (H1 "env")|exact H2|apply (H3 "env")].
Defined.

Lemma Matches_correct_witness :
  Matches (mkSelector [mkLabel "env" "qa"; mkLabel "tier" ""] [mkLabel "zone" ""]) demo_labels = true ↔
  (∀ n, ¬ hits (ValuesOf [mkLabel "zone" ""] n) (ValuesOf demo_labels n)) ∧
  (∀ n, ValuesOf [mkLabel "env" "qa"; mkLabel "tier" ""] n ≠ [] →
        hits (ValuesOf [mkLabel "env" "qa"; mkLabel "tier" ""] n) (ValuesOf demo_labels n)).
Proof.
  apply (Matches_correct (mkSelector [mkLabel "env" "qa"; mkLabel "tier" ""] [mkLabel "zone" ""]) demo_labels); reflexivity.
Defined.

Example Matches_demo :
  Matches (mkSelector [mkLabel "env" "qa"; mkLabel "tier" ""] [mkLabel "zone" ""]) demo_labels = true ∧
  Matches (mkSelector [mkLabel "env" "dev"] []) demo_labels = false.
Proof. by split. Qed.
