(* ===== verification/JournalSpec.v ===== *)
(** * Journal specifications and their trees
    (src/v2/pkg/protocol/journal_spec_extensions.go, fragment_store.go,
     src/v2/pkg/protocol/journalspace/node.go)

    A [JournalSpec] is validated, combined with others field by field, and arranged
    by tooling in a tree of [Node]s, whose directories hold what their children share. *)
From S2P Require Import Prelude Protocol Labels.
From Stdlib Require Import Ascii.
Local Open Scope Z_scope.

(** ** Fragment stores *)

Definition FragmentStore_parse `{UrlParser} (fs : string) : URL + option ValidationError :=
  match url_Parse fs with
  | inr err => inr (NewValidationError err)
  | inl url =>
      let bad_path := match rev (String.list_ascii_of_string (url_Path url)) with
                      | [] => true
                      | c :: _ => negb (Ascii.eqb c "/"%char)
                      end in
      let err :=
        failIf (negb (url_IsAbs url)) "not absolute (%s)"
        elif (if String.eqb (url_Scheme url) "s3" || String.eqb (url_Scheme url) "gs"
              then failIf (String.eqb (url_Host url) "") "missing bucket (%s)"
              else if String.eqb (url_Scheme url) "file"
              then failIf (negb (String.eqb (url_Host url) "")) "file scheme cannot have host (%s)"
              else NewValidationError "invalid scheme (%s)")
        elif failIf bad_path "path component doesn't end in '/' (%s)" in
      match err with None => inl url | Some _ => inr err end
  end.

Definition FragmentStore_Validate `{UrlParser} (fs : string) : option ValidationError :=
  match FragmentStore_parse fs with inl _ => None | inr err => err end.

Definition FragmentStore_URL `{UrlParser} (fs : string) : outcome URL :=
  match FragmentStore_parse fs with
  | inl url => Ret url
  | inr _ => Panic "URL of an invalid FragmentStore"
  end.

(** [nil] and empty slices of stores are distinguished. *)
Abbreviation Stores_t := (option (list string)).

Definition fragmentStoresEq (a b : Stores_t) : bool := bool_decide (default [] a = default [] b).

(** ** Specifications *)

Record JournalSpec_Fragment := mkSpecFragment {
  Length : Z;
  sf_CompressionCodec : CompressionCodec;
  Stores : Stores_t;
  RefreshInterval : Z;     (* nanoseconds, as time.Duration *)
  Retention : Z;
  FlushInterval : Z;
}.

Record JournalSpec := mkJournalSpec {
  js_Name : string;
  Replication : Z;
  js_LabelSet : LabelSet;
  js_Fragment : JournalSpec_Fragment;
  Flags : Z;
}.

#[global] Instance JournalSpec_Fragment_eq_dec : EqDecision JournalSpec_Fragment.
Proof. solve_decision. Defined.
#[global] Instance JournalSpec_eq_dec : EqDecision JournalSpec.
Proof. solve_decision. Defined.

Definition NOT_SPECIFIED : Z := 0.
Definition O_RDONLY : Z := 1.
Definition O_WRONLY : Z := 2.
Definition O_RDWR : Z := 4.

Definition Flag_Validate (x : Z) : option ValidationError :=
  failIf (negb ((x =? NOT_SPECIFIED) || (x =? O_WRONLY) || (x =? O_RDONLY) || (x =? O_RDWR)))
    "invalid combination (%s)".

Definition MayRead (x : Z) : bool := (x =? NOT_SPECIFIED) || (x =? O_RDONLY) || (x =? O_RDWR).
Definition MayWrite (x : Z) : bool := (x =? NOT_SPECIFIED) || (x =? O_WRONLY) || (x =? O_RDWR).

Definition second : Z := 1000000000.
Definition minRefreshInterval : Z := second.
Definition maxRefreshInterval : Z := 24 * 60 * 60 * second.
Definition minFlushInterval : Z := 10 * 60 * second.
Definition minFragmentLen : Z := Z.shiftl 1 10.
Definition maxFragmentLen : Z := Z.shiftl 1 34.
Definition maxJournalReplication : Z := 5.

Fixpoint validateStores `{UrlParser} (codec : CompressionCodec) (i : nat) (l : list string)
    : outcome (option ValidationError) :=
  match l with
  | [] => Ret None
  | store :: l =>
      match ExtendContext (FragmentStore_Validate store) ("Stores[" +:+ pretty i +:+ "]") with
      | Some e => Ret (Some e)
      | None =>
          let! url := FragmentStore_URL store in
          if Nat.eqb i 0 && String.eqb (url_Scheme url) "file" &&
             bool_decide (codec = Codec_GZIP_OFFLOAD_DECOMPRESSION)
          then Ret (NewValidationError "GZIP_OFFLOAD_DECOMPRESSION is incompatible with file:// stores (%s)")
          else validateStores codec (S i) l
      end
  end.

Definition JournalSpec_Fragment_Validate `{UrlParser} (m : JournalSpec_Fragment)
    : outcome (option ValidationError) :=
  match failIf ((Length m <? minFragmentLen) || (maxFragmentLen <? Length m))
          "invalid Length (%d; expected %d <= length <= %d)"
        elif ExtendContext (CompressionCodec_Validate (sf_CompressionCodec m)) "CompressionCodec" with
  | Some e => Ret (Some e)
  | None =>
      let! err := validateStores (sf_CompressionCodec m) 0 (default [] (Stores m)) in
      Ret (err
        elif failIf ((RefreshInterval m <? minRefreshInterval) || (maxRefreshInterval <? RefreshInterval m))
               "invalid RefreshInterval (%s; expected %s <= interval <= %s)"
        elif failIf (negb (FlushInterval m =? 0) && (FlushInterval m <? minFlushInterval))
               "invalid FlushInterval (%s; expected >= %s)")
  end.

(** The error of [mime.ParseMediaType], if any. *)
Class MimeParser := mime_ParseMediaType : string → option string.

Definition validateJournalLabelConstraints `{MimeParser} (ls : LabelSet) : option ValidationError :=
  ValidateSingleValueLabels ls
  elif match ValuesOf ls lbl_ContentType with
       | ct :: _ => match mime_ParseMediaType ct with
                    | Some _ => NewValidationError "parsing %s: %s"
                    | None => None
                    end
       | [] => None
       end
  elif match ValuesOf ls lbl_MessageType with
       | _ :: _ =>
           match ValuesOf ls lbl_ContentType with
           | [] => NewValidationError "expected %s label alongside %s"
           | ct :: _ => failIf (negb (bool_decide (ct ∈ FramedContentTypes)))
                          "%s label is not a known message framing (%s; expected one of %v)"
           end
       | [] => failIf (negb (bool_decide (ValuesOf ls lbl_MessageSubType = []))) "expected %s label alongside %s"
       end.

Definition JournalSpec_Validate `{UrlParser, MimeParser} (m : JournalSpec) : outcome (option ValidationError) :=
  match ExtendContext (Journal_Validate (js_Name m)) "Name"
        elif failIf ((Replication m <? 1) || (maxJournalReplication <? Replication m))
               "invalid Replication (%d; expected 1 <= Replication <= %d)"
        elif ExtendContext (LabelSet_Validate (js_LabelSet m)) "Labels"
        elif failIf (negb (bool_decide (ValuesOf (js_LabelSet m) "name" = []))) "Labels cannot include label name"
        elif failIf (negb (bool_decide (ValuesOf (js_LabelSet m) "prefix" = []))) "Labels cannot include label prefix"
        elif ExtendContext (validateJournalLabelConstraints (js_LabelSet m)) "Labels" with
  | Some e => Ret (Some e)
  | None =>
      let! err := JournalSpec_Fragment_Validate (js_Fragment m) in
      Ret (ExtendContext err "Fragment" elif ExtendContext (Flag_Validate (Flags m)) "Flags")
  end.

Definition DesiredReplication (m : JournalSpec) : Z := Replication m.

(** ** Combining specifications *)

Definition UnionJournalSpecs (a b : JournalSpec) : JournalSpec :=
  let fa := js_Fragment a in let fb := js_Fragment b in
  mkJournalSpec (js_Name a)
    (if Replication a =? 0 then Replication b else Replication a)
    (UnionLabelSets (js_LabelSet a) (js_LabelSet b))
    (mkSpecFragment
      (if Length fa =? 0 then Length fb else Length fa)
      (if bool_decide (sf_CompressionCodec fa = Codec_INVALID) then sf_CompressionCodec fb else sf_CompressionCodec fa)
      (match Stores fa with None => Stores fb | s => s end)
      (if RefreshInterval fa =? 0 then RefreshInterval fb else RefreshInterval fa)
      (if Retention fa =? 0 then Retention fb else Retention fa)
      (if FlushInterval fa =? 0 then FlushInterval fb else FlushInterval fa))
    (if Flags a =? NOT_SPECIFIED then Flags b else Flags a).

Definition IntersectJournalSpecs (a b : JournalSpec) : JournalSpec :=
  let fa := js_Fragment a in let fb := js_Fragment b in
  mkJournalSpec (js_Name a)
    (if negb (Replication a =? Replication b) then 0 else Replication a)
    (IntersectLabelSets (js_LabelSet a) (js_LabelSet b))
    (mkSpecFragment
      (if negb (Length fa =? Length fb) then 0 else Length fa)
      (if negb (bool_decide (sf_CompressionCodec fa = sf_CompressionCodec fb)) then Codec_INVALID else sf_CompressionCodec fa)
      (if negb (fragmentStoresEq (Stores fa) (Stores fb)) then None else Stores fa)
      (if negb (RefreshInterval fa =? RefreshInterval fb) then 0 else RefreshInterval fa)
      (if negb (Retention fa =? Retention fb) then 0 else Retention fa)
      (if negb (FlushInterval fa =? FlushInterval fb) then 0 else FlushInterval fa))
    (if negb (Flags a =? Flags b) then NOT_SPECIFIED else Flags a).

Definition SubtractJournalSpecs (a b : JournalSpec) : JournalSpec :=
  let fa := js_Fragment a in let fb := js_Fragment b in
  mkJournalSpec (js_Name a)
    (if Replication a =? Replication b then 0 else Replication a)
    (SubtractLabelSet (js_LabelSet a) (js_LabelSet b))
    (mkSpecFragment
      (if Length fa =? Length fb then 0 else Length fa)
      (if bool_decide (sf_CompressionCodec fa = sf_CompressionCodec fb) then Codec_INVALID else sf_CompressionCodec fa)
      (if fragmentStoresEq (Stores fa) (Stores fb) then None else Stores fa)
      (if RefreshInterval fa =? RefreshInterval fb then 0 else RefreshInterval fa)
      (if Retention fa =? Retention fb then 0 else Retention fa)
      (if FlushInterval fa =? FlushInterval fb then 0 else FlushInterval fa))
    (if Flags a =? Flags b then NOT_SPECIFIED else Flags a).

(** ** Meta labels *)

(** [strings.IndexByte(s, '/')] *)
Fixpoint index_slash (s : list ascii) : option nat :=
  match s with
  | [] => None
  | c :: s => if Ascii.eqb c "/"%char then Some O else S <$> index_slash s
  end.

(** The loop over [i]; each round moves [i] forward, so that the length is fuel enough. *)
Fixpoint prefix_loop (fuel : nat) (name : list ascii) (i : nat) : list Label :=
  match fuel with
  | O => []
  | S fuel =>
      match index_slash (drop i name) with
      | None => []
      | Some j =>
          let i := (i + j + 1)%nat in
          mkLabel "prefix" (String.string_of_list_ascii (take i name)) :: prefix_loop fuel name i
      end
  end.

Definition ExtractJournalSpecMetaLabels (spec : JournalSpec) : LabelSet :=
  let name := String.list_ascii_of_string (js_Name spec) in
  mkLabel "name" (js_Name spec) :: prefix_loop (S (length name)) name 0.

(** ** Trees of specifications (journalspace/node.go) *)

Inductive Node := mkNode {
  Comment : string;
  Delete : option bool;
  Spec : JournalSpec;
  n_Revision : Z;
  Children : list Node;
  patched : bool;
}.

Definition Spec_zero (name : string) : JournalSpec :=
  mkJournalSpec name 0 [] (mkSpecFragment 0 Codec_INVALID None 0 0 0) NOT_SPECIFIED.
Definition Node_zero : Node := mkNode "" None (Spec_zero "") 0 [] false.
#[global] Instance Node_inhabited : Inhabited Node := populate Node_zero.

Abbreviation n_Name n := (js_Name (Spec n)).
Abbreviation name_chars s := (String.list_ascii_of_string s).

Definition IsDir (n : Node) : bool :=
  match rev (name_chars (n_Name n)) with [] => true | c :: _ => Ascii.eqb c "/"%char end.

Fixpoint Node_Validate (n : Node) : option ValidationError :=
  if IsDir n then
    failIf (negb (n_Revision n =? 0)) "unexpected Revision (%d)"
    elif failIf (match Children n with [] => true | _ => false end) "expected one or more Children"
    elif (fix each (prev : option string) (l : list Node) : option ValidationError :=
            match l with
            | [] => None
            | child :: l =>
                failIf (negb (String.prefix (n_Name n) (n_Name child))) "expected parent Name to prefix child (%s vs %s)"
                elif failIf (match prev with None => false | Some p => str_leb (n_Name child) p end)
                       "expected Children to be ordered (ind %d; %s vs %s)"
                elif Node_Validate child
                elif each (Some (n_Name child)) l
            end) None (Children n)
  else
    ExtendContext (Journal_Validate (n_Name n)) "Name"
    elif failIf (match Children n with [] => false | _ => true end) "expected no Children with non-directory Node (%s)".

Definition deleteEq (a b : option bool) : bool := bool_decide (a = b).

Definition with_Spec (n : Node) (d : option bool) (s : JournalSpec) : Node :=
  mkNode (Comment n) d s (n_Revision n) (Children n) (patched n).
Definition with_Name (s : JournalSpec) (name : string) : JournalSpec :=
  mkJournalSpec name (Replication s) (js_LabelSet s) (js_Fragment s) (Flags s).

(** The intersection of the children's [Delete] and [Spec]. *)
Definition shared (d : option bool) (s : JournalSpec) (children : list Node) : option bool * JournalSpec :=
  match children with
  | [] => (d, s)
  | c :: cs => foldl (λ a c, (if negb (deleteEq (fst a) (Delete c)) then None else fst a,
                              IntersectJournalSpecs (snd a) (Spec c))) (Delete c, Spec c) cs
  end.

Fixpoint Hoist (n : Node) : Node :=
  if negb (IsDir n) then n
  else
    let children := Hoist <$> Children n in
    let '(d, s) := shared (Delete n) (Spec n) children in
    let s := with_Name s (n_Name n) in
    mkNode (Comment n) d s (n_Revision n)
      ((λ c, with_Spec c (match d with Some _ => None | None => Delete c end) (SubtractJournalSpecs (Spec c) s)) <$> children)
      (patched n).

(** One child of [PushDown]: it inherits from the parent, and is pushed down itself. *)
Fixpoint push_into (pd : option bool) (ps : JournalSpec) (c : Node) : Node :=
  let d := match Delete c with None => pd | d => d end in
  let s := UnionJournalSpecs (Spec c) ps in
  let children := push_into d s <$> Children c in
  if IsDir c
  then mkNode (Comment c) None (Spec_zero (js_Name s)) (n_Revision c) children (patched c)
  else mkNode (Comment c) d s (n_Revision c) children (patched c).

Definition PushDown (n : Node) : Node :=
  let children := push_into (Delete n) (Spec n) <$> Children n in
  if IsDir n
  then mkNode (Comment n) None (Spec_zero (n_Name n)) (n_Revision n) children (patched n)
  else mkNode (Comment n) (Delete n) (Spec n) (n_Revision n) children (patched n).

(** The nodes on which [WalkTerminalNodes] calls back, in order; the walk, which stops at
    an error of the callback, is a fold over them. *)
Fixpoint terminals (n : Node) : list Node :=
  if negb (IsDir n) then [n] else concat (terminals <$> Children n).

Fixpoint WalkTerminalNodes {A} (cb : A → Node → A * option string) (n : Node) (a : A) : A * option string :=
  if negb (IsDir n) then cb a n
  else (fix each (l : list Node) (a : A) :=
          match l with
          | [] => (a, None)
          | c :: l => let '(a, err) := WalkTerminalNodes cb c a in
                      match err with Some _ => (a, err) | None => each l a end
          end) (Children n) a.

(** [Patch], with at most [fuel] levels of recursion. *)
Fixpoint Patch (fuel : nat) (n p : Node) : outcome Node :=
  match fuel with
  | O => Panic "stack overflow"
  | S fuel =>
      let n := if negb (String.prefix (n_Name n) (n_Name p))
               then mkNode "" None (Spec_zero "") 0 [n] false else n in
      if negb (IsDir n) then
        if negb (String.eqb (n_Name n) (n_Name p)) then Panic "unexpected Patch of terminal Node"
        else Ret (mkNode (if negb (String.eqb (Comment p) "") then Comment p else Comment n)
                    (match Delete p with Some _ => Delete p | None => Delete n end)
                    (UnionJournalSpecs (Spec p) (Spec n))
                    (if negb (n_Revision p =? 0) then n_Revision p else n_Revision n)
                    (Children n) true)
      else
        let ind := sort_Search (length (Children n)) (λ i, String.ltb (n_Name p) (n_Name (Children n !!! i))) in
        let update i c := mkNode (Comment n) (Delete n) (Spec n) (n_Revision n) (<[i := c]> (Children n)) (patched n) in
        if negb (Nat.eqb ind 0) && String.prefix (n_Name (Children n !!! (ind - 1)%nat)) (n_Name p) then
          let! c := Patch fuel (Children n !!! (ind - 1)%nat) p in
          Ret (update (ind - 1)%nat c)
        else
          (* Splice it in at insertion point [ind], and patch it there. *)
          let! c := Patch fuel p p in
          Ret (mkNode (Comment n) (Delete n) (Spec n) (n_Revision n)
                 (take ind (Children n) ++ c :: drop ind (Children n)) (patched n))
  end.

Fixpoint MarkUnpatchedForDeletion (n : Node) : Node :=
  let children := MarkUnpatchedForDeletion <$> Children n in
  mkNode (Comment n) (if negb (IsDir n) && negb (patched n) then Some true else Delete n)
    (Spec n) (n_Revision n) children (patched n).

(** Characters of shared prefix, at path component boundaries. *)
Fixpoint shared_loop (fuel : nat) (a b : list ascii) (l : nat) : nat :=
  match fuel with
  | O => l
  | S fuel =>
      match index_slash (drop l a) with
      | Some n =>
          if bool_decide (take (l + n + 1) a = take (l + n + 1) b) then shared_loop fuel a b (l + n + 1) else l
      | None => l
      end
  end.

Definition sharedPrefix (a b : string) : nat :=
  let a := name_chars a in
  let b := name_chars b in
  let '(a, b) := if (length b <? length a)%nat then (b, a) else (a, b) in
  shared_loop (S (length a)) a b 0.

(** The longest run of nodes having a maximal-length prefix: [(beg, end, maxLen)]. *)
Fixpoint longest_run (names : list string) (i beg end_ : nat) (maxLen : Z) : nat * nat * Z :=
  match names with
  | a :: (b :: _) as names' =>
      let l := Z.of_nat (sharedPrefix b a) in
      if maxLen <? l then longest_run names' (S i) (i - 1) (i + 1) l
      else if (l =? maxLen) && (i =? end_)%nat then longest_run names' (S i) beg (i + 1) maxLen
      else longest_run names' (S i) beg end_ maxLen
  | _ => (beg, end_, maxLen)
  end.

(** Each round replaces at least two nodes by one. *)
Fixpoint extract_loop (fuel : nat) (nodes : list Node) : list Node :=
  match fuel with
  | O => nodes
  | S fuel =>
      if (1 <? length nodes)%nat then
        let '(beg, end_, maxLen) := longest_run ((λ n, n_Name n) <$> nodes) 1 0 0 (-1) in
        let name := String.string_of_list_ascii
                      (take (Z.to_nat maxLen) (name_chars (n_Name (nodes !!! beg)))) in
        let node := mkNode "" None (Spec_zero name) 0 (slice nodes beg end_) false in
        extract_loop fuel (take beg nodes ++ [node] ++ drop end_ nodes)
      else nodes
  end.

Definition extractTree (nodes : list Node) : Node :=
  match nodes with
  | [] => Node_zero
  | _ => extract_loop (length nodes) nodes !!! 0%nat
  end.

(** [FromListResponse], of the specs and revisions listed. *)
Definition FromListResponse (resp : list (JournalSpec * Z)) : Node :=
  Hoist (extractTree ((λ j, mkNode "" None (fst j) (snd j) [] false) <$> resp)).

Lemma Node_rect_strong (P : Node → Prop) :
  (∀ n, Forall P (Children n) → P n) → ∀ n, P n.
Proof.
  intros H. fix IH 1. intros n. apply H. destruct n as [c d s r ch p]. simpl.
  induction ch as [|x ch IHch]; constructor; [apply IH|done].
Qed.

(** ** Hoisting and pushing down *)

Lemma LabelSet_ext a b :
  LabelSet_ok a → LabelSet_ok b → (∀ n, ValuesOf a n = ValuesOf b n) → a = b.
Proof.
  intros Ha Hb Heq.
  assert (∀ x, x ∈ a ↔ x ∈ b) as Hin.
  { intros [n v]. by rewrite <- !elem_of_ValuesOf, Heq by (by apply LabelSet_ok_by_name). }
  destruct Ha as [_ Ha], Hb as [_ Hb].
  assert (∀ x, ¬ label_before x x) as Hirr.
  { intros x [H|(_ & H & _)]; by eapply (irreflexivity str_lt). }
  assert (∀ x y, label_before x y → label_before y x → False) as Hasym.
  { intros x y H1 H2. eapply Hirr, transitivity; eauto. }
  clear Heq. revert b Hb Hin. induction Ha as [|x a Ha IH Hx]; intros b Hb Hin.
  { destruct b as [|y b]; [done|]. destruct (not_elem_of_nil y). apply Hin, list_elem_of_here. }
  destruct Hb as [|y b Hb Hy]; [destruct (not_elem_of_nil x); apply Hin, list_elem_of_here|].
  rewrite Forall_forall in Hx. rewrite Forall_forall in Hy.
  assert (x = y) as ->.
  { destruct (proj1 (elem_of_cons b x y) (proj1 (Hin x) (list_elem_of_here _ _))) as [|Hxb]; [done|].
    destruct (proj1 (elem_of_cons a y x) (proj2 (Hin y) (list_elem_of_here _ _))) as [|Hya]; [done|].
    destruct (Hasym x y); auto. }
  f_equal. apply IH; [done|]. intros z. specialize (Hin z). rewrite !elem_of_cons in Hin.
  split; intros Hz.
  - destruct (proj1 Hin (or_intror Hz)) as [-> |]; [|done]. by destruct (Hirr y); apply Hx.
  - destruct (proj2 Hin (or_intror Hz)) as [-> |]; [|done]. by destruct (Hirr y); apply Hy.
Qed.

(** A spec tooling handles: valid labels, and stores that are nil or not empty. *)
Definition spec_ok (s : JournalSpec) : Prop :=
  LabelSet_ok (js_LabelSet s) ∧ Stores (js_Fragment s) ≠ Some [].

(** [a] agrees with [b] wherever [a] is not zero. *)
Definition agrees {A} (zero a b : A) : Prop := a = zero ∨ a = b.
Definition spec_le (a b : JournalSpec) : Prop :=
  let fa := js_Fragment a in let fb := js_Fragment b in
  agrees 0 (Replication a) (Replication b) ∧
  (∀ n, agrees [] (ValuesOf (js_LabelSet a) n) (ValuesOf (js_LabelSet b) n)) ∧
  agrees 0 (Length fa) (Length fb) ∧
  agrees Codec_INVALID (sf_CompressionCodec fa) (sf_CompressionCodec fb) ∧
  agrees None (Stores fa) (Stores fb) ∧
  agrees 0 (RefreshInterval fa) (RefreshInterval fb) ∧
  agrees 0 (Retention fa) (Retention fb) ∧
  agrees 0 (FlushInterval fa) (FlushInterval fb) ∧
  agrees 0 (Flags a) (Flags b).

Lemma fragmentStoresEq_spec a b : a ≠ Some [] → b ≠ Some [] → fragmentStoresEq a b = bool_decide (a = b).
Proof. intros Ha Hb. unfold fragmentStoresEq. apply bool_decide_ext. destruct a as [[]|], b as [[]|]; naive_solver. Qed.

Lemma ValuesOf_nil n : ValuesOf [] n = [].
Proof. done. Qed.

(** What a parent took from a child, the child gets back. *)
Lemma Union_Subtract a b : spec_ok a → spec_ok b → spec_le b a → UnionJournalSpecs (SubtractJournalSpecs a b) b = a.
Proof.
  intros [Hla Hsa] [Hlb Hsb] (H1 & H2 & H3 & H4 & H5 & H6 & H7 & H8 & H9).
  destruct (SubtractLabelSet_spec (js_LabelSet a) (js_LabelSet b) Hla Hlb) as [Hok Hv].
  destruct (UnionLabelSets_spec _ (js_LabelSet b) Hok Hlb) as [Hok' Hv'].
  unfold UnionJournalSpecs, SubtractJournalSpecs. simpl. rewrite (fragmentStoresEq_spec _ _ Hsa Hsb).
  assert (UnionLabelSets (SubtractLabelSet (js_LabelSet a) (js_LabelSet b)) (js_LabelSet b) = js_LabelSet a) as ->.
  { apply LabelSet_ext; [done..|]. intros n. rewrite Hv', Hv. specialize (H2 n). unfold agrees in H2.
    repeat case_bool_decide; naive_solver congruence. }
  destruct a as [na ra la [l1 l2 l3 l4 l5 l6] fa], b as [nb rb lb [m1 m2 m3 m4 m5 m6] fb]. simpl in *.
  unfold agrees, NOT_SPECIFIED in *. clear H2 Hv Hv' Hok Hok' Hla Hlb.
  assert (∀ x y : Z, y = 0 ∨ y = x → (if (if x =? y then 0 else x) =? 0 then y else if x =? y then 0 else x) = x) as Hz.
  { intros x y Hxy. destruct (Z.eqb_spec x y); simpl; [congruence|].
    destruct (Z.eqb_spec x 0); lia. }
  rewrite !Hz by done. f_equal. f_equal.
  - repeat case_bool_decide; naive_solver congruence.
  - case_bool_decide; [done|]. destruct l3; naive_solver.
Qed.

Lemma agrees_trans {A} (z a b c : A) : agrees z a b → agrees z b c → agrees z a c.
Proof. unfold agrees. intros [-> | ->] [-> | ->]; auto. Qed.

Lemma spec_le_refl a : spec_le a a.
Proof. unfold spec_le, agrees. split_and!; auto. Qed.

Lemma spec_le_trans a b c : spec_le a b → spec_le b c → spec_le a c.
Proof.
  intros (? & ? & ? & ? & ? & ? & ? & ? & ?) (? & ? & ? & ? & ? & ? & ? & ? & ?).
  unfold spec_le. split_and!; try (by eapply agrees_trans; eauto). intros n. by eapply agrees_trans; eauto.
Qed.

Lemma Intersect_ok a b : spec_ok a → spec_ok b → spec_ok (IntersectJournalSpecs a b).
Proof.
  intros [Ha Hs] [Hb _]. split; [by apply IntersectLabelSets_spec|]. simpl. by destruct (negb _).
Qed.

Lemma Intersect_le a b : spec_ok a → spec_ok b →
  spec_le (IntersectJournalSpecs a b) a ∧ spec_le (IntersectJournalSpecs a b) b.
Proof.
  intros [Hla Hsa] [Hlb Hsb].
  destruct (IntersectLabelSets_spec _ _ Hla Hlb) as [_ Hv].
  unfold spec_le, agrees, IntersectJournalSpecs. simpl. rewrite (fragmentStoresEq_spec _ _ Hsa Hsb).
  assert (∀ x y : Z, let r := if negb (x =? y) then 0 else x in (r = 0 ∨ r = x) ∧ (r = 0 ∨ r = y)) as Hz.
  { intros x y r. subst r. destruct (Z.eqb_spec x y); simpl; auto. }
  split; split_and!; try apply Hz; try (intros n; rewrite Hv); repeat case_bool_decide; simpl; naive_solver.
Qed.

Lemma shared_spec d s children :
  Forall (λ c, spec_ok (Spec c)) children →
  (spec_ok s → spec_ok (snd (shared d s children))) ∧
  (children ≠ [] → spec_ok (snd (shared d s children))) ∧
  ∀ c, c ∈ children → spec_le (snd (shared d s children)) (Spec c) ∧
                      agrees None (fst (shared d s children)) (Delete c).
Proof.
  destruct children as [|c cs]; intros Hok; [split_and!; [done..|]; intros c Hc; by apply not_elem_of_nil in Hc|].
  apply Forall_cons in Hok as [Hc Hcs]. simpl.
  set (f := λ a c, (if negb (deleteEq (fst a) (Delete c)) then None else fst a, IntersectJournalSpecs (snd a) (Spec c))).
  assert (∀ a, spec_ok (snd a) →
    spec_ok (snd (foldl f a cs)) ∧ spec_le (snd (foldl f a cs)) (snd a) ∧ agrees None (fst (foldl f a cs)) (fst a) ∧
    ∀ c, c ∈ cs → spec_le (snd (foldl f a cs)) (Spec c) ∧ agrees None (fst (foldl f a cs)) (Delete c)) as Hfold.
  { clear Hc. induction Hcs as [|c' cs Hc' _ IH]; intros a Ha; simpl.
    { split_and!; [done|apply spec_le_refl|by right|]. intros c0 Hc0. by apply not_elem_of_nil in Hc0. }
    destruct (Intersect_le _ _ Ha Hc') as [Hle1 Hle2].
    destruct (IH (f a c')) as (Hok & Hle & Hd & Hall); [by apply Intersect_ok|].
    assert (agrees None (fst (f a c')) (fst a) ∧ agrees None (fst (f a c')) (Delete c')) as [Hd1 Hd2].
    { simpl. unfold deleteEq, agrees. case_bool_decide; simpl; auto. }
    split_and!; [done|by eapply spec_le_trans|by eapply agrees_trans|].
    intros c0 [-> |Hc0]%elem_of_cons; [|by apply Hall].
    split; [by eapply spec_le_trans|by eapply agrees_trans]. }
  destruct (Hfold (Delete c, Spec c) Hc) as (Hok & Hle & Hd & Hall).
  split_and!; [done..|]. intros c0 [-> |Hc0]%elem_of_cons; [done|by apply Hall].
Qed.

(** A tree whose directories hold nothing of their own, as the ones [extractTree]
    builds and [PushDown] leaves; leaves have no children. *)
Fixpoint plain (n : Node) : Prop :=
  if IsDir n
  then Delete n = None ∧ Spec n = Spec_zero (n_Name n) ∧
       (fix each l := match l with [] => True | c :: l => plain c ∧ each l end) (Children n)
  else spec_ok (Spec n) ∧ Children n = [].

Lemma plain_unfold n :
  plain n ↔ if IsDir n then Delete n = None ∧ Spec n = Spec_zero (n_Name n) ∧ Forall plain (Children n)
            else spec_ok (Spec n) ∧ Children n = [].
Proof.
  destruct n as [c d s r ch p]. cbn [plain]. unfold IsDir. simpl. destruct (match rev _ with [] => _ | _ :: _ => _ end); [|done].
  assert (∀ l, (fix each l := match l with [] => True | c :: l => plain c ∧ each l end) l ↔ Forall plain l) as ->; [|done].
  induction l as [|x l IH]; [by split|]. rewrite Forall_cons, IH. done.
Qed.

Lemma Spec_zero_ok name : spec_ok (Spec_zero name).
Proof. split; [by repeat constructor|done]. Qed.

Lemma Hoist_unfold n : Hoist n =
  if negb (IsDir n) then n
  else
    let children := Hoist <$> Children n in
    let ds := shared (Delete n) (Spec n) children in
    let s := with_Name (snd ds) (n_Name n) in
    mkNode (Comment n) (fst ds) s (n_Revision n)
      ((λ c, with_Spec c (match fst ds with Some _ => None | None => Delete c end) (SubtractJournalSpecs (Spec c) s)) <$> children)
      (patched n).
Proof.
  destruct n as [c d s r ch p]. cbn [Hoist]. unfold IsDir. simpl.
  destruct (negb _); [done|]. by destruct (shared _ _ _) as [d' s'].
Qed.

Lemma with_Name_ok s name : spec_ok s → spec_ok (with_Name s name).
Proof. done. Qed.

Lemma Hoist_ok n : plain n → spec_ok (Spec (Hoist n)).
Proof.
  induction n as [n IH] using Node_rect_strong. rewrite plain_unfold, Hoist_unfold.
  destruct (IsDir n); simpl; [|by intros [? _]]. intros (_ & Hs & Hch). apply with_Name_ok.
  assert (Forall (λ c, spec_ok (Spec c)) (Hoist <$> Children n)) as Hok.
  { apply Forall_fmap. rewrite Forall_forall in *. intros c Hc. by apply IH, Hch. }
  apply (proj1 (shared_spec (Delete n) (Spec n) _ Hok)). rewrite Hs. apply Spec_zero_ok.
Qed.

Lemma Hoist_Name n : n_Name (Hoist n) = n_Name n.
Proof. rewrite Hoist_unfold. by destruct (negb (IsDir n)). Qed.

Lemma IsDir_name n m : n_Name n = n_Name m → IsDir n = IsDir m.
Proof. intros H. unfold IsDir. by rewrite H. Qed.

(** [n] gets back from its parent what hoisting took. *)
Definition restores (n : Node) : Prop := ∀ pd ps,
  plain n → spec_ok ps → spec_le ps (Spec (Hoist n)) → agrees None pd (Delete (Hoist n)) →
  push_into pd ps (with_Spec (Hoist n) (match pd with Some _ => None | None => Delete (Hoist n) end)
                     (SubtractJournalSpecs (Spec (Hoist n)) ps)) = n.

Lemma children_restore n :
  plain n → Forall restores (Children n) →
  push_into (Delete (Hoist n)) (Spec (Hoist n)) <$> Children (Hoist n) = Children n.
Proof.
  rewrite plain_unfold, (Hoist_unfold n). destruct (IsDir n) eqn:Hdir; simpl; intros Hp IH.
  - destruct Hp as (Hdn & Hsn & Hch).
    assert (Forall (λ c, spec_ok (Spec c)) (Hoist <$> Children n)) as Hoks'.
    { apply Forall_fmap. rewrite Forall_forall in *. intros x Hx. by apply Hoist_ok, Hch. }
    destruct (shared_spec (Delete n) (Spec n) _ Hoks') as (Hs1 & _ & Hall).
    rewrite Forall_forall in IH, Hch. rewrite <- list_fmap_compose. apply fmap_restore.
    intros x Hx. destruct (Hall (Hoist x)) as [Hle' Hd']; [by apply list_elem_of_fmap_2|].
    apply IH; [done|by apply Hch| |done|done]. apply with_Name_ok, Hs1. rewrite Hsn. apply Spec_zero_ok.
  - destruct Hp as [_ Hch]. by rewrite Hch.
Qed.

Lemma push_restore n : restores n.
Proof.
  induction n as [n IH] using Node_rect_strong. intros pd ps Hp Hok Hle Hd.
  pose proof (Hoist_ok n Hp) as Hoks. pose proof Hp as Hp'. rewrite plain_unfold in Hp.
  assert ((match (match pd with Some _ => None | None => Delete (Hoist n) end) with None => pd | d => d end)
          = Delete (Hoist n)) as Hdel.
  { destruct pd as [b|]; [destruct Hd as [|Hd]; [done|by rewrite <- Hd]|]. by destruct (Delete (Hoist n)). }
  set (m := with_Spec (Hoist n) _ _).
  assert (push_into pd ps m =
    if IsDir n then mkNode (Comment n) None (Spec_zero (n_Name n)) (n_Revision n)
                      (push_into (Delete (Hoist n)) (Spec (Hoist n)) <$> Children (Hoist n)) (patched n)
    else mkNode (Comment n) (Delete (Hoist n)) (Spec (Hoist n)) (n_Revision n)
           (push_into (Delete (Hoist n)) (Spec (Hoist n)) <$> Children (Hoist n)) (patched n)) as ->.
  { assert (n_Name m = n_Name n) as Hnm by (simpl; apply Hoist_Name).
    assert (IsDir m = IsDir n) as Hdir by (by apply IsDir_name).
    assert (Comment m = Comment n ∧ n_Revision m = n_Revision n ∧ patched m = patched n ∧
            Children m = Children (Hoist n)) as (Hc & Hr & Hpa & Hch).
    { unfold m. simpl. rewrite Hoist_unfold. by destruct (negb (IsDir n)). }
    pose proof (Union_Subtract _ _ Hoks Hok Hle) as Hspec.
    change (UnionJournalSpecs (Spec m) ps = Spec (Hoist n)) in Hspec.
    change (match Delete m with None => pd | d => d end = Delete (Hoist n)) in Hdel.
    clearbody m. destruct m as [mc md ms mr mch mp]. cbn [push_into]. simpl in *.
    rewrite Hdir, Hdel, Hspec, Hc, Hr, Hpa, Hch, Hnm. done. }
  rewrite (children_restore n Hp' IH), (Hoist_unfold n). destruct (IsDir n); simpl.
  - destruct Hp as (Hdn & Hsn & _). rewrite <- Hsn, <- Hdn. by destruct n.
  - by destruct n.
Qed.

Lemma PushDown_Hoist n : plain n → PushDown (Hoist n) = n.
Proof.
  intros Hp. unfold PushDown. rewrite children_restore, (IsDir_name _ n), Hoist_Name; [|by apply Hoist_Name|done|].
  2:{ apply Forall_forall. intros c _. apply push_restore. }
  rewrite plain_unfold in Hp. rewrite (Hoist_unfold n). destruct (IsDir n) eqn:Hdir; simpl.
  - destruct Hp as (Hdn & Hsn & _). rewrite <- Hsn, <- Hdn. by destruct n.
  - by destruct n.
Qed.

(** ** Extracting the tree *)

Lemma index_slash_spec s n :
  index_slash s = Some n → (n < length s)%nat ∧ ∃ s', take (n + 1) s = s' ++ ["/"%char].
Proof.
  revert n. induction s as [|c s IH]; intros n; simpl; [done|].
  destruct (Ascii.eqb_spec c "/"%char) as [-> |].
  - intros [= <-]. split; [lia|]. by exists [].
  - intros (m & Hm & ->)%fmap_Some. destruct (IH _ Hm) as (? & s' & Hs'). split; [lia|].
    exists (c :: s'). simpl. by rewrite Hs'.
Qed.

(** A list that is empty or ends in a slash. *)
Definition dir_chars (l : list ascii) : Prop := l = [] ∨ ∃ l', l = l' ++ ["/"%char].

Lemma shared_loop_spec fuel a b l :
  (l ≤ length a)%nat → take l a = take l b → dir_chars (take l a) →
  let r := shared_loop fuel a b l in take r a = take r b ∧ dir_chars (take r a).
Proof.
  revert l. induction fuel as [|fuel IH]; intros l Hl Heq Hd; [done|]. cbn [shared_loop].
  destruct (index_slash (drop l a)) as [n|] eqn:Hi; [|done]. case_bool_decide as Ht; [|done].
  apply index_slash_spec in Hi as [Hn [s' Hs']]. rewrite length_drop in Hn.
  apply IH; [lia|done|]. right. exists (take l a ++ s'). rewrite <- app_assoc, <- Hs'.
  replace (l + n + 1)%nat with (l + (n + 1))%nat by lia. by rewrite take_take_drop.
Qed.

Lemma sharedPrefix_spec a b :
  take (sharedPrefix a b) (name_chars a) = take (sharedPrefix a b) (name_chars b) ∧
  dir_chars (take (sharedPrefix a b) (name_chars b)).
Proof.
  unfold sharedPrefix. destruct (Nat.ltb_spec (length (name_chars b)) (length (name_chars a))).
  - edestruct (shared_loop_spec (S (length (name_chars b))) (name_chars b) (name_chars a) 0)
      as [H1 H2]; [lia|done|by left|]. done.
  - edestruct (shared_loop_spec (S (length (name_chars a))) (name_chars a) (name_chars b) 0)
      as [H1 H2]; [lia|done|by left|]. split; [done|]. by rewrite <- H1.
Qed.

Lemma IsDir_chars n l : n_Name n = String.string_of_list_ascii l → dir_chars l → IsDir n = true.
Proof.
  intros Hn Hd. unfold IsDir. rewrite Hn, String.list_ascii_of_string_of_list_ascii.
  destruct Hd as [-> |[l' ->]]; [done|]. by rewrite rev_app_distr.
Qed.

(** The run is of two nodes at least, and starts with the shared prefix. *)
Definition run_ok (all : list string) (i beg end_ : nat) (maxLen : Z) : Prop :=
  (beg + 2 ≤ end_ ≤ i)%nat ∧ maxLen = Z.of_nat (sharedPrefix (all !!! S beg) (all !!! beg)).

Lemma longest_run_spec (pre names : list string) beg end_ maxLen :
  run_ok (pre ++ names) (S (length pre)) beg end_ maxLen ∨ maxLen = -1 ∧ (2 ≤ length names)%nat →
  let '(b, e, m) := longest_run names (S (length pre)) beg end_ maxLen in
  run_ok (pre ++ names) (S (length pre) + (length names - 1)) b e m.
Proof.
  revert pre beg end_ maxLen. induction names as [|x names IH]; intros pre beg end_ maxLen Hinv.
  { simpl in *. destruct Hinv as [[? ?]|[_ ?]]; [|lia]. split; [lia|done]. }
  destruct names as [|y names].
  { simpl in *. destruct Hinv as [[? ?]|[_ ?]]; [|lia]. split; [lia|done]. }
  cbn [longest_run].
  assert ((pre ++ x :: y :: names) !!! length pre = x ∧ (pre ++ x :: y :: names) !!! S (length pre) = y) as [Hx Hy].
  { rewrite !lookup_total_app_r by lia. rewrite Nat.sub_diag. replace (S (length pre) - length pre)%nat with 1%nat by lia. done. }
  specialize (IH (pre ++ [x])). rewrite <- app_assoc in IH. cbn [app] in IH.
  rewrite length_app, (Nat.add_comm (length pre)) in IH. cbn [length Nat.add] in IH.
  assert (∀ b e m, run_ok (pre ++ x :: y :: names) (S (S (length pre + (S (length names) - 1)))) b e m →
    run_ok (pre ++ x :: y :: names) (S (length pre) + (length (x :: y :: names) - 1)) b e m) as Hle.
  { intros b e m [? ?]. split; [simpl in *; lia|done]. }
  assert (∀ beg end_ maxLen, run_ok (pre ++ x :: y :: names) (S (S (length pre))) beg end_ maxLen →
    let '(b, e, m) := longest_run (y :: names) (S (S (length pre))) beg end_ maxLen in
    run_ok (pre ++ x :: y :: names) (S (length pre) + (length (x :: y :: names) - 1)) b e m) as Hgo.
  { intros beg' end' max' H. specialize (IH beg' end' max' (or_introl H)).
    destruct (longest_run (y :: names) _ _ _ _) as [[b e] m]. by apply Hle. }
  destruct (Z.ltb_spec maxLen (Z.of_nat (sharedPrefix y x))) as [Hlt|Hge].
  - apply Hgo. split; [lia|]. replace (S (length pre) - 1)%nat with (length pre) by lia. by rewrite Hx, Hy.
  - destruct Hinv as [[Hb Hm]|[Hm _]]; [|lia].
    destruct ((Z.of_nat (sharedPrefix y x) =? maxLen) && (S (length pre) =? end_)%nat) eqn:Hc.
    + apply Hgo. split; [lia|done].
    + apply Hgo. split; [lia|done].
Qed.

Definition leaves (nodes : list Node) : list Node := concat (terminals <$> nodes).

Lemma terminals_unfold n : terminals n = if negb (IsDir n) then [n] else leaves (Children n).
Proof. by destruct n. Qed.

Lemma leaves_app l1 l2 : leaves (l1 ++ l2) = leaves l1 ++ leaves l2.
Proof. unfold leaves. by rewrite fmap_app, concat_app. Qed.

Lemma extract_loop_spec fuel nodes :
  Forall plain nodes → (length nodes ≤ S fuel)%nat → nodes ≠ [] →
  ∃ n, extract_loop fuel nodes = [n] ∧ plain n ∧ terminals n = leaves nodes.
Proof.
  revert nodes. induction fuel as [|fuel IH]; intros nodes Hp Hf Hne.
  { destruct nodes as [|n [|]]; [done| |simpl in Hf; lia]. exists n. rewrite Forall_singleton in Hp.
    split_and!; [done..|]. unfold leaves. simpl. by rewrite app_nil_r. }
  cbn [extract_loop]. destruct (Nat.ltb_spec 1 (length nodes)) as [Hlen|Hlen].
  2:{ destruct nodes as [|n [|]]; [done| |simpl in Hlen; lia]. exists n. rewrite Forall_singleton in Hp.
      split_and!; [done..|]. unfold leaves. simpl. by rewrite app_nil_r. }
  pose proof (longest_run_spec [] ((λ n, n_Name n) <$> nodes) 0 0 (-1)) as Hrun. simpl in Hrun.
  destruct (longest_run _ 1 0 0 (-1)) as [[b e] m]. rewrite length_fmap in Hrun.
  destruct Hrun as [Hbe Hm]; [right; lia|].
  set (node := mkNode _ _ _ _ _ _).
  assert (IsDir node = true) as Hdir.
  { eapply IsDir_chars; [done|]. rewrite Hm, Nat2Z.id.
    destruct (sharedPrefix_spec (((λ n, n_Name n) <$> nodes) !!! S b) (((λ n, n_Name n) <$> nodes) !!! b)) as [_ Hd].
    rewrite <- (list_lookup_total_fmap (λ n, n_Name n) nodes b) by lia. exact Hd. }
  assert (slice nodes b e ++ drop e nodes = drop b nodes) as Hsl.
  { unfold slice. replace (drop e nodes) with (drop (e - b) (drop b nodes)); [apply take_drop|].
    rewrite drop_drop. f_equal. lia. }
  assert (nodes = take b nodes ++ slice nodes b e ++ drop e nodes) as Hsplit by (by rewrite Hsl, take_drop).
  rewrite Hsplit, !Forall_app in Hp. destruct Hp as (Hp1 & Hp2 & Hp3).
  destruct (IH (take b nodes ++ [node] ++ drop e nodes)) as (n & Hn & Hpn & Htn).
  - rewrite !Forall_app. split_and!; [done| |done]. apply Forall_singleton. rewrite plain_unfold, Hdir. done.
  - rewrite !length_app, length_take, length_drop. simpl. lia.
  - by destruct (take b nodes).
  - exists n. split_and!; [done..|]. trans (leaves (take b nodes ++ slice nodes b e ++ drop e nodes)); [|by rewrite <- Hsplit].
    rewrite Htn, !leaves_app.
    assert (leaves [node] = leaves (slice nodes b e)) as ->; [|done].
    unfold leaves at 1. rewrite fmap_cons, fmap_nil. cbn [concat]. by rewrite app_nil_r, terminals_unfold, Hdir.
Qed.

Lemma extractTree_spec nodes :
  Forall plain nodes → plain (extractTree nodes) ∧ terminals (extractTree nodes) = leaves nodes.
Proof.
  intros Hp. destruct nodes as [|n nodes]; [done|].
  destruct (extract_loop_spec (length (n :: nodes)) (n :: nodes)) as (t & Ht & ?); [done|simpl; lia|done|].
  unfold extractTree. by rewrite Ht.
Qed.

(** The tree of a listing loses nothing. Of listed journals whose names are no
    directories, hoisting common configuration into the directories of the extracted tree
    and pushing it down again gives the listed specs and revisions, in their order. *)
Theorem FromListResponse_roundtrip (resp : list (JournalSpec * Z)) :
  Forall (λ j, spec_ok (fst j) ∧ IsDir (mkNode "" None (fst j) (snd j) [] false) = false) resp →
  terminals (PushDown (FromListResponse resp)) = (λ j, mkNode "" None (fst j) (snd j) [] false) <$> resp.
Proof.
  intros Hok. unfold FromListResponse. set (leaf := λ j : JournalSpec * Z, mkNode _ _ _ _ _ _).
  assert (Forall plain (leaf <$> resp) ∧ leaves (leaf <$> resp) = leaf <$> resp) as [Hp Hl].
  { induction Hok as [|j resp [Hs Hd] _ [IH1 IH2]]; [done|]. rewrite fmap_cons.
    change (IsDir (leaf j) = false) in Hd. split.
    - constructor; [|done]. rewrite plain_unfold. by rewrite Hd.
    - unfold leaves in *. rewrite fmap_cons. cbn [concat]. rewrite IH2, terminals_unfold. by rewrite Hd. }
  destruct (extractTree_spec _ Hp) as [Hpt Htt]. by rewrite PushDown_Hoist, Htt.
Qed.

(** ** Concrete inputs *)

Definition demo_spec (name : string) (len : Z) : JournalSpec :=
  mkJournalSpec name 3 [mkLabel "env" "prod"] (mkSpecFragment len Codec_GZIP (Some ["s3://bucket/"]) second 0 0) O_RDWR.

Definition demo_list : list (JournalSpec * Z) :=
  [(demo_spec "root/bing" 2048, 7); (demo_spec "root/foo/bar" 1024, 8); (demo_spec "root/foo/baz" 1024, 9)].

(** What the three share is hoisted to the root, and the length of two to their directory. *)
Example FromListResponse_demo :
  let t := FromListResponse demo_list in
  n_Name t = "root/"%string ∧ Replication (Spec t) = 3 ∧ Length (js_Fragment (Spec t)) = 0 ∧
  map (λ c, (n_Name c, Length (js_Fragment (Spec c)), Replication (Spec c))) (Children t) =
    [("root/bing"%string, 2048, 0); ("root/foo/"%string, 1024, 0)].
Proof. vm_compute. done. Qed.

Lemma FromListResponse_roundtrip_witness :
  terminals (PushDown (FromListResponse demo_list)) = (λ j, mkNode "" None (fst j) (snd j) [] false) <$> demo_list.
Proof.
  apply FromListResponse_roundtrip.
  assert (∀ n len, spec_ok (demo_spec n len)) as Hok.
  { intros n len. split; [|done]. apply LabelSet_Validate_spec. reflexivity. }
  repeat (constructor; [split; [apply Hok|reflexivity]|]). constructor.
Defined.
