(* ===== verification/FragmentName.v ===== *)
(** * Content-addressed names of fragments (src/v2/pkg/protocol/fragment_extensions.go)

    The file name of a fragment in its store, and its parse. Strings are taken
    apart as lists of characters; the functions of [fmt], [path], [strings],
    [strconv] and [encoding/hex] are modelled for what the code uses of them. *)
From S2P Require Import Prelude Encoding Protocol.
From Stdlib Require Import Ascii.
Local Open Scope Z_scope.

Abbreviation chars := (list ascii).
Definition to_chars (s : string) : chars := String.list_ascii_of_string s.
Definition of_chars (l : chars) : string := String.string_of_list_ascii l.

(** ** Hexadecimal *)

Definition hex_digit (d : Z) : ascii := nth (Z.to_nat d) (to_chars "0123456789abcdef") "0"%char.

(** [n] digits of [z], least significant first. *)
Fixpoint hex_le (n : nat) (z : Z) : chars :=
  match n with
  | O => []
  | S n => hex_digit (z mod 16) :: hex_le n (z / 16)
  end.
Definition hex_fixed (n : nat) (z : Z) : chars := reverse (hex_le n z).

Fixpoint strip_zeros (l : chars) : chars :=
  match l with
  | "0"%char :: (_ :: _) as l' => strip_zeros l'
  | _ => l
  end.

(** ["%016x"] of an [int64]: sign, then zero-padding to the width of 16. *)
Definition fmt_016x (z : Z) : chars :=
  if z <? 0 then
    let d := strip_zeros (hex_fixed 16 (- z)) in
    "-"%char :: replicate (15 - length d) "0"%char ++ d
  else hex_fixed 16 z.

(** ["%x"] of a byte array. *)
Definition fmt_x (l : bytes) : chars := l ≫= λ b, hex_fixed 2 (byte_Z b).

Definition unhex (c : ascii) : option Z :=
  let n := Z.of_N (N_of_ascii c) in
  if (48 <=? n) && (n <=? 57) then Some (n - 48)
  else if (97 <=? n) && (n <=? 102) then Some (n - 97 + 10)
  else if (65 <=? n) && (n <=? 70) then Some (n - 65 + 10)
  else None.

Fixpoint parse_digits (acc : Z) (l : chars) : option Z :=
  match l with
  | [] => Some acc
  | c :: l => match unhex c with Some d => parse_digits (acc * 16 + d) l | None => None end
  end.

Definition split_sign (l : chars) : bool * chars :=
  match l with
  | c :: l' =>
      if Ascii.eqb c "-" then (true, l') else if Ascii.eqb c "+" then (false, l') else (false, l)
  | [] => (false, [])
  end.

(** [strconv.ParseInt(s, 16, 64)]; [None] is any of its errors. *)
Definition ParseInt16 (l : chars) : option Z :=
  let '(neg, digits) := split_sign l in
  match digits with
  | [] => None
  | _ =>
      match parse_digits 0 digits with
      | None => None
      | Some un =>
          if neg then (if 2 ^ 63 <? un then None else Some (- un))
          else (if 2 ^ 63 <=? un then None else Some un)
      end
  end.

(** [hex.DecodeString] *)
Fixpoint hex_DecodeString (l : chars) : option bytes :=
  match l with
  | [] => Some []
  | [_] => None
  | a :: b :: l =>
      match unhex a, unhex b, hex_DecodeString l with
      | Some x, Some y, Some r => Some (Z_byte (x * 16 + y) :: r)
      | _, _, _ => None
      end
  end.

(** ** Paths *)

(** [path.Ext]: from the last dot of the last path element. *)
Fixpoint ext_rev (acc : chars) (l : chars) : chars :=
  match l with
  | [] => []
  | c :: l =>
      if Ascii.eqb c "/" then []
      else if Ascii.eqb c "." then c :: acc
      else ext_rev (c :: acc) l
  end.
Definition path_Ext (l : chars) : chars := ext_rev [] (reverse l).

(** [path.Split]: immediately after the last slash. *)
Fixpoint split_rev (file : chars) (l : chars) : chars * chars :=
  match l with
  | [] => ([], file)
  | c :: l' => if Ascii.eqb c "/" then (reverse l, file) else split_rev (c :: file) l'
  end.
Definition path_Split (l : chars) : chars * chars := split_rev [] (reverse l).

Definition path_Dir (p : string) : string := path_Clean (of_chars (fst (path_Split (to_chars p)))).

(** [path.Base]: trailing slashes are removed first; an empty path is ".". *)
Fixpoint drop_slashes (l : chars) : chars :=
  match l with
  | c :: l' => if Ascii.eqb c "/" then drop_slashes l' else l
  | [] => []
  end.
Definition path_Base (p : string) : string :=
  let l := to_chars p in
  let l' := reverse (drop_slashes (reverse l)) in
  if Nat.eqb (length l) 0 then "."
  else if Nat.eqb (length l') 0 then "/"
  else of_chars (snd (path_Split l')).

(** [strings.ToLower], on ASCII. *)
Definition lower (c : ascii) : ascii :=
  let n := N_of_ascii c in
  if ((65 <=? n) && (n <=? 90))%N then ascii_of_N (n + 32) else c.

(** ** Codecs and names *)

Definition ToExtension (m : CompressionCodec) : outcome string :=
  match m with
  | Codec_NONE => Ret ".raw"%string
  | Codec_GZIP => Ret ".gz"%string
  | Codec_ZSTANDARD => Ret ".zst"%string
  | Codec_SNAPPY => Ret ".sz"%string
  | Codec_GZIP_OFFLOAD_DECOMPRESSION => Ret ""%string
  | _ => Panic "invalid CompressionCodec"
  end.

Definition CompressionCodecFromExtension (ext : chars) : CompressionCodec * option ValidationError :=
  let e := of_chars (map lower ext) in
  if String.eqb e ".raw" then (Codec_NONE, None)
  else if String.eqb e ".gz" || String.eqb e ".gzip" then (Codec_GZIP, None)
  else if String.eqb e ".zst" || String.eqb e ".zstandard" then (Codec_ZSTANDARD, None)
  else if String.eqb e ".sz" || String.eqb e ".snappy" then (Codec_SNAPPY, None)
  else if String.eqb e "" || String.eqb e ".gzod" then (Codec_GZIP_OFFLOAD_DECOMPRESSION, None)
  else (Codec_NONE, NewValidationError "unrecognized compression extension: %s").

Definition ContentName (m : Fragment) : outcome string :=
  let! ext := ToExtension (f_CompressionCodec m) in
  Ret (of_chars (fmt_016x (f_Begin m) ++ "-"%char :: fmt_016x (f_End m) ++ "-"%char ::
                 fmt_x (ToDigest (f_Sum m)) ++ to_chars ext)).

Definition ContentPath (m : Fragment) : outcome string :=
  let! name := ContentName m in Ret (f_Journal m ++ "/" ++ name)%string.

Definition ParseContentName (journal : Journal) (name : string)
    : outcome (Fragment * option ValidationError) :=
  let l := to_chars name in
  let ext := path_Ext l in
  let name := take (length l - length ext) l in
  match split_on "-"%char [] name with
  | [f0; f1; f2] =>
      match ParseInt16 f0 with
      | None => Ret (Fragment_zero, ExtendContext (NewValidationError "strconv.ParseInt") "Begin")
      | Some begin =>
          match ParseInt16 f1 with
          | None => Ret (Fragment_zero, ExtendContext (NewValidationError "strconv.ParseInt") "End")
          | Some end_ =>
              match hex_DecodeString f2 with
              | None => Ret (Fragment_zero, ExtendContext (NewValidationError "encoding/hex") "Sum")
              | Some sum =>
                  if negb (Nat.eqb (length sum) 20) then
                    Ret (Fragment_zero, NewValidationError "invalid SHA1Sum length: %x")
                  else
                    match CompressionCodecFromExtension ext with
                    | (_, Some err) => Ret (Fragment_zero, Some err)
                    | (cc, None) =>
                        let! sum := SHA1SumFromDigest sum in
                        let f := mkFragment journal begin end_ sum cc "" 0 in
                        Ret (f, Fragment_Validate f)
                    end
              end
          end
      end
  | _ => Ret (Fragment_zero, NewValidationError "wrong Fragment format: %v")
  end.

Definition ParseContentPath (p : string) : outcome (Fragment * option ValidationError) :=
  ParseContentName (path_Dir p) (path_Base p).

(** ** Lemmas on hexadecimal text *)

Definition is_hex (c : ascii) : Prop := c ∈ to_chars "0123456789abcdef".

Lemma hex_digit_cases (P : ascii → Z → Prop) :
  Forall (λ d, P (hex_digit d) d) [0;1;2;3;4;5;6;7;8;9;10;11;12;13;14;15] →
  ∀ d, 0 ≤ d < 16 → P (hex_digit d) d.
Proof.
  intros H d Hd. rewrite Forall_forall in H. apply H.
  assert (d = 0 ∨ d = 1 ∨ d = 2 ∨ d = 3 ∨ d = 4 ∨ d = 5 ∨ d = 6 ∨ d = 7 ∨ d = 8 ∨ d = 9 ∨
          d = 10 ∨ d = 11 ∨ d = 12 ∨ d = 13 ∨ d = 14 ∨ d = 15) by lia. set_solver.
Qed.

Lemma hex_digit_is_hex d : is_hex (hex_digit (d mod 16)).
Proof.
  pose proof (Z.mod_pos_bound d 16 ltac:(lia)) as H. revert H. generalize (d mod 16).
  apply (hex_digit_cases (λ c _, is_hex c)). unfold is_hex. simpl. repeat constructor; set_solver.
Qed.

Lemma unhex_hex_digit d : 0 ≤ d < 16 → unhex (hex_digit d) = Some d.
Proof. revert d. apply (hex_digit_cases (λ c d, unhex c = Some d)). repeat constructor. Qed.

Lemma is_hex_not c : is_hex c → c ≠ "-"%char ∧ c ≠ "+"%char ∧ c ≠ "."%char ∧ c ≠ "/"%char.
Proof.
  unfold is_hex. simpl. rewrite !elem_of_cons, elem_of_nil.
  intros H. repeat destruct H as [->|H]; done.
Qed.

Lemma hex_fixed_S n z : hex_fixed (S n) z = hex_fixed n (z / 16) ++ [hex_digit (z mod 16)].
Proof. unfold hex_fixed. simpl. by rewrite reverse_cons. Qed.

Lemma hex_fixed_hex n z : Forall is_hex (hex_fixed n z).
Proof.
  revert z. induction n as [|n IH]; intros z; [constructor|].
  rewrite hex_fixed_S. apply Forall_app. split; [done|]. apply Forall_singleton, hex_digit_is_hex.
Qed.

Lemma length_hex_fixed n z : length (hex_fixed n z) = n.
Proof.
  revert z. induction n as [|n IH]; intros z; [done|]. rewrite hex_fixed_S, length_app, IH. simpl. lia.
Qed.

Lemma parse_digits_app acc l1 l2 :
  parse_digits acc (l1 ++ l2) = match parse_digits acc l1 with Some a => parse_digits a l2 | None => None end.
Proof.
  revert acc. induction l1 as [|c l1 IH]; intros acc; simpl; [done|]. destruct (unhex c); [apply IH|done].
Qed.

Lemma parse_hex_fixed acc n z :
  parse_digits acc (hex_fixed n z) = Some (acc * 16 ^ Z.of_nat n + z mod 16 ^ Z.of_nat n).
Proof.
  revert z. induction n as [|n IH]; intros z; [simpl; rewrite Z.mod_1_r; f_equal; lia|].
  rewrite hex_fixed_S, parse_digits_app, IH. cbn [parse_digits].
  rewrite unhex_hex_digit by (apply Z.mod_pos_bound; lia). f_equal.
  rewrite Nat2Z.inj_succ, Z.pow_succ_r by lia. rewrite (Z.rem_mul_r z) by lia. lia.
Qed.

Lemma ParseInt16_hex z : 0 ≤ z < 2 ^ 63 → ParseInt16 (hex_fixed 16 z) = Some z.
Proof.
  intros Hz. pose proof (parse_hex_fixed 0 16 z) as HP. pose proof (hex_fixed_hex 16 z) as HH.
  pose proof (length_hex_fixed 16 z) as HL.
  rewrite Z.mod_small in HP by (change (16 ^ Z.of_nat 16) with 18446744073709551616; lia).
  unfold ParseInt16. destruct (hex_fixed 16 z) as [|c l]; [done|].
  apply Forall_cons in HH as [(Hm & Hp & _)%is_hex_not _].
  unfold split_sign. rewrite (proj2 (Ascii.eqb_neq _ _) Hm), (proj2 (Ascii.eqb_neq _ _) Hp).
  rewrite HP. destruct (Z.leb_spec (2 ^ 63) (0 * 16 ^ Z.of_nat 16 + z)); [lia|].
  done.
Qed.

Lemma fmt_x_hex l : Forall is_hex (fmt_x l).
Proof. apply Forall_bind. apply Forall_forall. intros b _. apply hex_fixed_hex. Qed.

Lemma hex_Decode_fmt_x l : hex_DecodeString (fmt_x l) = Some l.
Proof.
  induction l as [|b l IH]; [done|]. unfold fmt_x in *. rewrite bind_cons.
  rewrite !hex_fixed_S. simpl. rewrite IH. pose proof (byte_Z_range b).
  rewrite !unhex_hex_digit by (apply Z.mod_pos_bound; lia). do 2 f_equal.
  rewrite <- (Z_byte_Z b) at 3. f_equal.
  rewrite (Z.mod_small (byte_Z b / 16) 16) by (split; [apply Z.div_pos|apply Z.div_lt_upper_bound]; lia).
  pose proof (Z.div_mod (byte_Z b) 16). lia.
Qed.

#[global] Arguments hex_fixed : simpl never.
#[global] Arguments fmt_x : simpl never.
#[global] Arguments hex_DecodeString : simpl never.
#[global] Arguments ParseInt16 : simpl never.
#[global] Arguments ToDigest : simpl never.
#[global] Arguments SHA1SumFromDigest : simpl never.

(** ** Lemmas on separators and extensions *)

Lemma split_on_none sep cur l : sep ∉ l → split_on sep cur l = [rev cur ++ l].
Proof.
  revert cur. induction l as [|c l IH]; intros cur Hl; simpl; [by rewrite app_nil_r|].
  apply not_elem_of_cons in Hl as [Hc Hl]. rewrite (proj2 (Ascii.eqb_neq c sep)) by congruence.
  rewrite IH by done. simpl. by rewrite <- (assoc_L (++)).
Qed.

Lemma split_on_app sep cur l1 l2 :
  sep ∉ l1 → split_on sep cur (l1 ++ sep :: l2) = (rev cur ++ l1) :: split_on sep [] l2.
Proof.
  revert cur. induction l1 as [|c l1 IH]; intros cur Hl; simpl.
  - by rewrite Ascii.eqb_refl, app_nil_r.
  - apply not_elem_of_cons in Hl as [Hc Hl]. rewrite (proj2 (Ascii.eqb_neq c sep)) by congruence.
    rewrite IH by done. simpl. by rewrite <- (assoc_L (++)).
Qed.

Lemma ext_rev_none acc l : "."%char ∉ l → ext_rev acc l = [].
Proof.
  revert acc. induction l as [|c l IH]; intros acc Hl; simpl; [done|].
  apply not_elem_of_cons in Hl as [Hc Hl]. destruct (Ascii.eqb c "/"); [done|].
  rewrite (proj2 (Ascii.eqb_neq c ".")) by congruence. by apply IH.
Qed.

Lemma ext_rev_some acc e l :
  "."%char ∉ e → "/"%char ∉ e → ext_rev acc (e ++ "."%char :: l) = ("."%char :: (reverse e ++ acc)).
Proof.
  revert acc. induction e as [|c e IH]; intros acc H1 H2; simpl; [done|].
  apply not_elem_of_cons in H1 as [Hc1 H1], H2 as [Hc2 H2].
  rewrite (proj2 (Ascii.eqb_neq c "/")), (proj2 (Ascii.eqb_neq c ".")) by congruence.
  rewrite IH by done. by rewrite reverse_cons, <- (assoc_L (++)).
Qed.

(** The extension of [body ++ ext], for [ext] of [ToExtension]. *)
Lemma path_Ext_app body ext codec :
  "."%char ∉ body → ToExtension codec = Ret ext → path_Ext (body ++ to_chars ext) = to_chars ext.
Proof.
  intros Hb He. unfold path_Ext. rewrite reverse_app.
  assert (to_chars ext = [] ∨
          (∃ e, to_chars ext = ("."%char :: e) ∧ ("."%char ∉ e) ∧ ("/"%char ∉ e)))
    as [->|(e & -> & H1 & H2)].
  { destruct codec; simplify_eq/=; auto; right; eexists; (split; [done|]); set_solver. }
  - simpl. apply ext_rev_none. by rewrite elem_of_reverse.
  - rewrite reverse_cons, <- (assoc_L (++)). simpl.
    rewrite ext_rev_some by (by rewrite elem_of_reverse). by rewrite reverse_involutive, app_nil_r.
Qed.

Lemma codec_extension codec ext :
  ToExtension codec = Ret ext → CompressionCodecFromExtension (to_chars ext) = (codec, None).
Proof. by destruct codec; intros [= <-]. Qed.

Definition SHA1Sum_wf (m : SHA1Sum) : Prop :=
  0 ≤ Part1 m < 2 ^ 64 ∧ 0 ≤ Part2 m < 2 ^ 64 ∧ 0 ≤ Part3 m < 2 ^ 32.

Lemma length_ToDigest m : length (ToDigest m) = 20%nat.
Proof. unfold ToDigest. by rewrite !length_app, !length_Z_be. Qed.

Lemma digest_roundtrip m : SHA1Sum_wf m → SHA1SumFromDigest (ToDigest m) = Ret m.
Proof.
  intros (H1 & H2 & H3). unfold SHA1SumFromDigest. rewrite length_ToDigest. simpl. f_equal.
  unfold ToDigest, slice. rewrite drop_0, (take_app_length' (Z_be 8 (Part1 m))) by (by rewrite length_Z_be).
  rewrite drop_app_length' by (by rewrite length_Z_be).
  rewrite (take_app_length' (Z_be 8 (Part2 m))) by (by rewrite length_Z_be).
  rewrite (assoc_L (++)), drop_app_length' by (by rewrite length_app, !length_Z_be).
  rewrite take_ge by (by rewrite length_Z_be). rewrite !be_Z_be.
  rewrite !Z.mod_small by done. by destruct m.
Qed.

Lemma of_to_chars s : of_chars (to_chars s) = s.
Proof. apply String.string_of_list_ascii_of_string. Qed.

Lemma to_of_chars l : to_chars (of_chars l) = l.
Proof. apply String.list_ascii_of_string_of_list_ascii. Qed.

Lemma not_elem_of_hex c l : Forall is_hex l → (is_hex c → False) → c ∉ l.
Proof. intros Hl Hc Hin. rewrite Forall_forall in Hl. by apply Hc, Hl. Qed.

Lemma sep_not_hex c : c ∈ to_chars "-+./" → is_hex c → False.
Proof. intros H Hc%is_hex_not. set_solver. Qed.

(** A fragment as a name can represent it: the fields that the name does not
    carry are zero, and the bounds are not negative. *)
Definition nameable (f : Fragment) : Prop :=
  0 ≤ f_Begin f < 2 ^ 63 ∧ 0 ≤ f_End f < 2 ^ 63 ∧ SHA1Sum_wf (f_Sum f) ∧
  f_BackingStore f = ""%string ∧ f_ModTime f = 0 ∧ Fragment_Validate f = None.

Lemma ContentName_parses f name :
  nameable f → ContentName f = Ret name → ParseContentName (f_Journal f) name = Ret (f, None).
Proof.
  intros (Hb & He & Hs & Hst & Hmt & Hv). unfold ContentName. rewrite outcome_bind_Ret.
  intros (ext & Hext & <-%Ret_inj). unfold ParseContentName, fmt_016x. rewrite to_of_chars.
  destruct (Z.ltb_spec (f_Begin f) 0); [lia|]. destruct (Z.ltb_spec (f_End f) 0); [lia|].
  set (d := fmt_x (ToDigest (f_Sum f))).
  set (body := hex_fixed 16 (f_Begin f) ++ "-"%char :: hex_fixed 16 (f_End f) ++ "-"%char :: d).
  assert (hex_fixed 16 (f_Begin f) ++ "-"%char :: hex_fixed 16 (f_End f) ++ "-"%char :: d ++ to_chars ext
          = body ++ to_chars ext) as ->.
  { unfold body. by rewrite <- app_assoc, <- app_comm_cons, <- app_assoc, <- app_comm_cons. }
  assert (∀ c, c ∈ to_chars "-+./" →
    (c ∉ hex_fixed 16 (f_Begin f)) ∧ (c ∉ hex_fixed 16 (f_End f)) ∧ (c ∉ d)) as Hnot.
  { intros c Hc. split_and!; apply not_elem_of_hex; try (intros; by eapply sep_not_hex).
    - apply hex_fixed_hex.
    - apply hex_fixed_hex.
    - apply fmt_x_hex. }
  assert ("."%char ∉ body) as Hdot.
  { destruct (Hnot "."%char) as (H1 & H2 & H3); [simpl; set_solver|].
    unfold body. rewrite elem_of_app, elem_of_cons, elem_of_app, elem_of_cons. clearbody d. naive_solver. }
  rewrite (path_Ext_app _ _ _ Hdot Hext).
  rewrite length_app, Nat.add_sub, take_app_length.
  destruct (Hnot "-"%char) as (Hd1 & Hd2 & Hd3); [simpl; set_solver|].
  unfold body. rewrite split_on_app, split_on_app, split_on_none by done. simpl.
  rewrite !ParseInt16_hex by done. unfold d. rewrite hex_Decode_fmt_x. cbv iota beta.
  rewrite length_ToDigest, (codec_extension _ _ Hext), digest_roundtrip by done. simpl.
  destruct f; simpl in *; subst. by rewrite Hv.
Qed.

(** The content name of a valid, unpersisted fragment exists and parses back to it. *)
Theorem ContentName_roundtrip f :
  nameable f →
  ∃ name, ContentName f = Ret name ∧ ParseContentName (f_Journal f) name = Ret (f, None).
Proof.
  intros Hf. destruct (ContentName f) as [name|msg] eqn:E.
  - exists name. split; [done|]. by apply ContentName_parses.
  - exfalso. destruct Hf as (_ & _ & _ & _ & _ & Hv). unfold Fragment_Validate in Hv.
    autorewrite with validate in Hv. unfold ContentName in E.
    destruct (f_CompressionCodec f); simpl in *; naive_solver.
Qed.

(** ** Paths *)

Lemma to_chars_app (s t : string) : to_chars (s ++ t)%string = to_chars s ++ to_chars t.
Proof. induction s as [|c s IH]; simpl; [done|]. unfold to_chars in *. simpl. by rewrite IH. Qed.

Lemma split_on_snoc sep cur l : split_on sep cur (l ++ [sep]) = split_on sep cur l ++ [[]].
Proof.
  revert cur. induction l as [|c l IH]; intros cur; simpl; [by rewrite Ascii.eqb_refl|].
  destruct (Ascii.eqb c sep); simpl; by rewrite IH.
Qed.

(** A trailing slash does not change a non-empty clean path. *)
Lemma path_Clean_slash l : l ≠ [] → path_Clean (of_chars (l ++ ["/"%char])) = path_Clean (of_chars l).
Proof.
  intros Hl. unfold path_Clean, of_chars. rewrite !String.list_ascii_of_string_of_list_ascii.
  rewrite split_on_snoc, foldl_app. simpl. destruct l as [|c l]; [done|]. done.
Qed.

Lemma split_rev_app file l1 l2 :
  "/"%char ∉ l1 → split_rev file (l1 ++ "/"%char :: l2) = (reverse ("/"%char :: l2), reverse l1 ++ file).
Proof.
  revert file. induction l1 as [|c l1 IH]; intros file Hl; cbn [split_rev app]; [done|].
  apply not_elem_of_cons in Hl as [Hc Hl]. rewrite (proj2 (Ascii.eqb_neq c "/")) by congruence.
  rewrite IH by done. by rewrite !reverse_cons, <- !app_assoc.
Qed.

Lemma path_Split_join (j name : chars) :
  "/"%char ∉ name → path_Split (j ++ "/"%char :: name) = (j ++ ["/"%char], name).
Proof.
  intros Hn. unfold path_Split. rewrite reverse_app, reverse_cons, <- app_assoc. simpl.
  rewrite split_rev_app by (by rewrite elem_of_reverse).
  by rewrite reverse_cons, !reverse_involutive, app_nil_r.
Qed.

Lemma ContentName_chars f name :
  0 ≤ f_Begin f → 0 ≤ f_End f → ContentName f = Ret name →
  ("/"%char ∉ to_chars name) ∧ to_chars name ≠ [].
Proof.
  intros Hb He. unfold ContentName. rewrite outcome_bind_Ret. intros (ext & Hext & <-%Ret_inj).
  rewrite to_of_chars. unfold fmt_016x.
  destruct (Z.ltb_spec (f_Begin f) 0); [lia|]. destruct (Z.ltb_spec (f_End f) 0); [lia|].
  split; [|by destruct (hex_fixed 16 (f_Begin f))].
  assert (∀ l, Forall is_hex l → "/"%char ∉ l) as Hn.
  { intros l Hl. apply not_elem_of_hex; [done|]. apply sep_not_hex. simpl. set_solver. }
  pose proof (Hn _ (hex_fixed_hex 16 (f_Begin f))). pose proof (Hn _ (hex_fixed_hex 16 (f_End f))).
  pose proof (Hn _ (fmt_x_hex (ToDigest (f_Sum f)))).
  assert ("/"%char ∉ to_chars ext) by (destruct (f_CompressionCodec f); simplify_eq/=; set_solver).
  rewrite !elem_of_app, !elem_of_cons, !elem_of_app, !elem_of_cons, !elem_of_app. naive_solver.
Qed.

(** The content path of a valid, unpersisted fragment parses back to the fragment,
    journal name included. *)
Theorem ContentPath_roundtrip f path :
  nameable f → ContentPath f = Ret path → ParseContentPath path = Ret (f, None).
Proof.
  intros Hf. unfold ContentPath. rewrite outcome_bind_Ret. intros (name & Hname & <-%Ret_inj).
  pose proof Hf as (Hb & He & _ & _ & _ & Hv).
  destruct (ContentName_chars f name) as [Hslash Hne]; [lia|lia|done|].
  unfold Fragment_Validate, Journal_Validate in Hv. autorewrite with validate in Hv.
  destruct Hv as ((Htok & Hclean & _) & _). apply String.eqb_eq in Hclean.
  apply ValidateToken_spec in Htok as [Hlen _]. unfold minJournalNameLen, slen in Hlen.
  assert (to_chars (f_Journal f ++ "/" ++ name)%string = to_chars (f_Journal f) ++ "/"%char :: to_chars name) as Htc.
  { by rewrite to_chars_app. }
  assert (to_chars (f_Journal f) ≠ []) as Hj. { destruct (f_Journal f); [simpl in Hlen; lia|done]. }
  unfold ParseContentPath.
  assert (path_Dir (f_Journal f ++ "/" ++ name) = f_Journal f) as ->.
  { unfold path_Dir. rewrite Htc, path_Split_join by done. simpl.
    by rewrite path_Clean_slash, of_to_chars. }
  assert (path_Base (f_Journal f ++ "/" ++ name) = name) as ->.
  { unfold path_Base. rewrite Htc.
    assert (drop_slashes (reverse (to_chars (f_Journal f) ++ "/"%char :: to_chars name))
            = reverse (to_chars (f_Journal f) ++ "/"%char :: to_chars name)) as ->.
    { rewrite reverse_app, reverse_cons, <- app_assoc.
      destruct (reverse (to_chars name)) as [|c l] eqn:E.
      - apply (f_equal reverse) in E. by rewrite reverse_involutive in E.
      - simpl. rewrite (proj2 (Ascii.eqb_neq c "/")); [done|]. intros ->.
        apply Hslash. apply elem_of_reverse. rewrite E. set_solver. }
    rewrite reverse_involutive, path_Split_join by done. simpl. rewrite of_to_chars.
    by destruct (to_chars (f_Journal f)). }
  by apply ContentName_parses.
Qed.

(** ** Concrete inputs *)

Definition demo_fragment : Fragment :=
  mkFragment "a/journal" 4660 8191 (mkSHA1Sum 81985529216486895 1147797409030816545 1985229328) Codec_GZIP "" 0.

Lemma demo_nameable : nameable demo_fragment.
Proof. unfold nameable. split_and!; try done; vm_compute; try done; split_and!; done. Qed.

Lemma ContentName_roundtrip_witness :
  ∃ name, ContentName demo_fragment = Ret name ∧ ParseContentName (f_Journal demo_fragment) name = Ret (demo_fragment, None).
Proof. apply ContentName_roundtrip. apply demo_nameable. Defined.

Lemma ContentPath_roundtrip_witness :
  ∃ path, ContentPath demo_fragment = Ret path ∧ ParseContentPath path = Ret (demo_fragment, None).
Proof.
  eexists. split; [vm_compute; reflexivity|]. apply ContentPath_roundtrip; [apply demo_nameable|vm_compute; reflexivity].
Defined.
