(* ===== verification/CoverSet.v ===== *)
(** * Cover sets of fragments (src/v2/pkg/fragment/cover_set.go)

    [CoverSet] is the ordered collection of fragments with which a broker maps a
    journal offset to the fragment that serves it. Slices are lists; every
    index the code uses is in range, so [s !!! i] is [s[i]]. A [File] is the
    handle of a local file, [None] for a remote fragment. *)
From S2P Require Import Prelude Protocol.
Local Open Scope Z_scope.

(** A non-nil value of the interface [File]: an open file, or a nil [*os.File]
    stored in the interface, on which every operation fails. *)
Inductive handle := Fd (n : nat) | NilFd.

#[global] Instance handle_eq_dec : EqDecision handle.
Proof. solve_decision. Defined.

(** fragment.Fragment: the protocol fragment with a nil-able local file. *)
Record LFragment := mkLFragment { frag : Fragment; File : option handle }.

#[global] Instance LFragment_eq_dec : EqDecision LFragment.
Proof. solve_decision. Defined.
#[global] Instance LFragment_inhabited : Inhabited LFragment := populate (mkLFragment Fragment_zero None).

Abbreviation Begin f := (f_Begin (frag f)).
Abbreviation End f := (f_End (frag f)).
Abbreviation JournalOf f := (f_Journal (frag f)).
Abbreviation CoverSet := (list LFragment).

Definition BeginOffset (s : CoverSet) : Z :=
  if Nat.eqb (length s) 0 then 0 else Begin (s !!! 0%nat).

Definition EndOffset (s : CoverSet) : Z :=
  if Nat.eqb (length s) 0 then 0 else End (s !!! (length s - 1)%nat).

(** The loop of [Add] that advances [rBegin]: [None] when an entry already
    covers [fragment] without being equal to it. *)
Fixpoint add_scan (fuel : nat) (s : CoverSet) (fragment : LFragment) (rBegin : nat) : option nat :=
  match fuel with
  | O => Some rBegin
  | S fuel =>
      if Nat.eqb rBegin (length s) then Some rBegin
      else
        let e := s !!! rBegin in
        if ((Begin e <=? Begin fragment) && (End fragment <? End e)) ||
           ((Begin e <? Begin fragment) && (End fragment <=? End e)) then None
        else if Begin fragment <=? Begin e then Some rBegin
        else add_scan fuel s fragment (rBegin + 1)
  end.

Definition Add (s : CoverSet) (fragment : LFragment) : outcome (CoverSet * bool) :=
  let lens := length s in
  if negb (Nat.eqb lens 0) && negb (String.eqb (JournalOf fragment) (JournalOf (s !!! 0%nat)))
  then Panic "journal mismatch"
  (* 1) Ignore empty Fragments. *)
  else if ContentLength (frag fragment) =? 0 then Ret (s, false)
  (* 2) CoverSet is empty. *)
  else if Nat.eqb lens 0 then Ret (s ++ [fragment], true)
  (* 3) Fragment replaces or is sequenced after the current last Fragment. *)
  else
    let i := (lens - 1)%nat in
    if End (s !!! i) <? End fragment then
      if Begin fragment <=? Begin (s !!! i) then Ret (<[i:=fragment]> s, true)
      else Ret (s ++ [fragment], true)
    else
      (* Slow path: the first index which covers fragment.Begin. *)
      let rBegin0 := sort_Search lens (λ i, Begin fragment <? End (s !!! i)) in
      match add_scan lens s fragment rBegin0 with
      | None => Ret (s, false)
      | Some rBegin =>
          let rEnd := skip_while lens lens (λ i, End (s !!! i) <=? End fragment) rBegin in
          let newSize := (lens + 1 - (rEnd - rBegin))%nat in
          let s1 := if Nat.ltb lens newSize then s ++ [mkLFragment Fragment_zero None] else s in
          let s2 := <[rBegin:=fragment]> (slice_copy s1 (rBegin + 1) (drop rEnd s1)) in
          Ret (take newSize s2, true)
      end.

Definition LongestOverlappingFragment (s : CoverSet) (offset : Z) : nat * bool :=
  let ind := sort_Search (length s) (λ i, offset <? End (s !!! i)) in
  let found := Nat.ltb ind (length s) && (Begin (s !!! ind) <=? offset) in
  (skip_while (length s) (length s)
     (λ i, Nat.ltb (i + 1) (length s) && (Begin (s !!! (i + 1)%nat) <=? offset)) ind, found).

(** The loop of [CoverSetDifference] that walks a contiguous run of [b]. *)
Definition contiguous_run (a0 : LFragment) (b : CoverSet) : nat :=
  skip_while (length b) (length b)
    (λ i, Nat.ltb (i + 1) (length b) && (End (b !!! i) <? End a0)
          && (Begin (b !!! (i + 1)%nat) <=? End (b !!! i))) 0.

Fixpoint CoverSetDifference (a b : CoverSet) : CoverSet :=
  match a with
  | [] => []
  | a0 :: a' =>
      let b' := drop (fst (LongestOverlappingFragment b (Begin a0))) b in
      let ind := contiguous_run a0 b' in
      let out := CoverSetDifference a' b' in
      if Nat.eqb (length b') ind || (Begin a0 <? Begin (b' !!! 0%nat)) || (End (b' !!! ind) <? End a0)
      then a0 :: out else out
  end.

(** ** Specification *)

(** Offsets of a fragment, and of a set. *)
Definition in_frag (o : Z) (f : LFragment) : Prop := Begin f ≤ o < End f.
Definition covered (s : CoverSet) (o : Z) : Prop := ∃ f, f ∈ s ∧ in_frag o f.

Definition frag_lt (f g : LFragment) : Prop := Begin f < Begin g ∧ End f < End g.

(** A well-formed, non-empty fragment of [journal]. *)
Definition frag_wf (journal : Journal) (f : LFragment) : Prop :=
  JournalOf f = journal ∧ is_int64 (Begin f) ∧ is_int64 (End f) ∧ Begin f < End f.

(** The invariant of the type's documentation: both bounds strictly increase. *)
Definition CoverSet_inv (journal : Journal) (s : CoverSet) : Prop :=
  StronglySorted frag_lt s ∧ Forall (frag_wf journal) s.

(** [g] covers [f] without being equal to it. *)
Definition covers_strictly (g f : LFragment) : Prop :=
  (Begin g ≤ Begin f ∧ End f < End g) ∨ (Begin g < Begin f ∧ End f ≤ End g).
#[global] Instance covers_strictly_dec g f : Decision (covers_strictly g f).
Proof. unfold covers_strictly. apply _. Defined.

(** The reference: drop what [f] covers, keep the order. *)
Definition Add_reference (s : CoverSet) (f : LFragment) : CoverSet * bool :=
  if decide (Exists (λ g, covers_strictly g f) s) then (s, false)
  else (filter (λ g, Begin g < Begin f) s ++ f :: filter (λ g, End f < End g) s, true).

(** What the O(1) path for a fragment that extends the set relies on: the
    entries it would have to drop are at most the last one. *)
Definition drops_only_last (s : CoverSet) (f : LFragment) : Prop :=
  ∀ i g l, s !! i = Some g → last s = Some l → (S i < length s)%nat → End l < End f → Begin g < Begin f.

(** ** Lemmas *)

Lemma ContentLength_nonzero journal f : frag_wf journal f → ContentLength (frag f) ≠ 0.
Proof.
  intros (_ & Hb & He & Hlt) Hz. unfold ContentLength in Hz.
  rewrite int64_sub_eq_0 in Hz by done. lia.
Qed.

Lemma covered_nil o : ¬ covered [] o.
Proof. intros (f & Hf & _). set_solver. Qed.

Lemma covered_cons f s o : covered (f :: s) o ↔ in_frag o f ∨ covered s o.
Proof. unfold covered. set_solver. Qed.

Lemma covered_app s1 s2 o : covered (s1 ++ s2) o ↔ covered s1 o ∨ covered s2 o.
Proof. unfold covered. set_solver. Qed.

#[global] Instance in_frag_dec o f : Decision (in_frag o f).
Proof. unfold in_frag. apply _. Defined.

#[global] Instance covered_dec s o : Decision (covered s o).
Proof.
  refine (cast_if (decide (Exists (in_frag o) s))); rewrite Exists_exists in *; done.
Defined.

Section inv.
Context (journal : Journal) (s : CoverSet) (Hinv : CoverSet_inv journal s).

Lemma inv_wf i : (i < length s)%nat → frag_wf journal (s !!! i).
Proof. intros Hi. destruct Hinv as [_ H]. rewrite Forall_forall in H. by apply H, lookup_total_in. Qed.

Lemma inv_lt i j : (i < j < length s)%nat → frag_lt (s !!! i) (s !!! j).
Proof.
  intros Hij. destruct Hinv as [H _].
  eapply (ssorted_lookup _ _ i j); [done|lia|apply lookup_total_some; lia..].
Qed.

Lemma inv_le i j :
  (i ≤ j < length s)%nat → Begin (s !!! i) ≤ Begin (s !!! j) ∧ End (s !!! i) ≤ End (s !!! j).
Proof.
  intros Hij. destruct (decide (i = j)) as [->|]; [lia|].
  destruct (inv_lt i j) as [??]; lia.
Qed.

(** [sort.Search] for the first entry that ends after [o]. *)
Lemma search_end o :
  let r := sort_Search (length s) (λ i, o <? End (s !!! i)) in
  (r ≤ length s)%nat ∧ (∀ i, (i < r)%nat → End (s !!! i) ≤ o) ∧
  (∀ i, (r ≤ i < length s)%nat → o < End (s !!! i)).
Proof.
  destruct (sort_Search_least (length s) (λ i, o <? End (s !!! i))) as (H1 & H2 & H3).
  { intros i j Hij Hj. rewrite !Z.ltb_lt. destruct (inv_le i j); lia. }
  split; [done|]. split.
  - intros i Hi. apply Z.ltb_ge. by apply H2.
  - intros i [Hi Hi']. apply Z.ltb_lt. by apply H3.
Qed.

Lemma covered_index o : covered s o ↔ ∃ i, (i < length s)%nat ∧ in_frag o (s !!! i).
Proof.
  split.
  - intros (f & [i Hi]%list_elem_of_lookup & Hf). exists i.
    rewrite (list_lookup_total_correct _ _ _ Hi). split; [by eapply lookup_lt_Some|done].
  - intros (i & Hi & Hf). exists (s !!! i). split; [by apply lookup_total_in|done].
Qed.

Lemma Exists_index (P : LFragment → Prop) : Exists P s ↔ ∃ i, (i < length s)%nat ∧ P (s !!! i).
Proof.
  rewrite Exists_exists. split.
  - intros (f & [i Hi]%list_elem_of_lookup & Hf). exists i.
    rewrite (list_lookup_total_correct _ _ _ Hi). split; [by eapply lookup_lt_Some|done].
  - intros (i & Hi & Hf). exists (s !!! i). split; [by apply lookup_total_in|done].
Qed.

Lemma inv_drop k : CoverSet_inv journal (drop k s).
Proof.
  destruct Hinv as [H1 H2]. rewrite <- (take_drop k s) in H1, H2.
  apply ssorted_app in H1 as (_ & H1 & _). apply Forall_app in H2 as [_ H2]. by split.
Qed.
End inv.

Lemma covers_strictly_bool (g f : LFragment) :
  ((Begin g <=? Begin f) && (End f <? End g)) || ((Begin g <? Begin f) && (End f <=? End g)) = true
  ↔ covers_strictly g f.
Proof. unfold covers_strictly. rewrite orb_true_iff, !andb_true_iff, !Z.leb_le, !Z.ltb_lt. done. Qed.

Lemma add_scan_spec fuel s f r :
  (length s - r ≤ fuel)%nat → (r ≤ length s)%nat →
  match add_scan fuel s f r with
  | None => ∃ i, (r ≤ i < length s)%nat ∧ covers_strictly (s !!! i) f
  | Some r' =>
      (r ≤ r' ≤ length s)%nat ∧
      (∀ i, (r ≤ i < r')%nat → Begin (s !!! i) < Begin f ∧ ¬ covers_strictly (s !!! i) f) ∧
      ((r' < length s)%nat → Begin f ≤ Begin (s !!! r') ∧ ¬ covers_strictly (s !!! r') f)
  end.
Proof.
  revert r. induction fuel as [|fuel IH]; intros r Hf Hr; simpl.
  { repeat split; intros; lia. }
  destruct (Nat.eqb_spec r (length s)) as [->|Hne]; [repeat split; intros; lia|].
  destruct (_ || _) eqn:Hc.
  { apply covers_strictly_bool in Hc. exists r. split; [lia|done]. }
  assert (¬ covers_strictly (s !!! r) f) as Hnc.
  { rewrite <- covers_strictly_bool. congruence. }
  destruct (Z.leb_spec (Begin f) (Begin (s !!! r))); [repeat split; try done; intros; lia|].
  specialize (IH (r + 1)%nat). destruct (add_scan fuel s f (r + 1)) as [r'|].
  - destruct IH as (H1 & H2 & H3); [lia..|]. split; [lia|]. split; [|done].
    intros i Hi. destruct (decide (i = r)) as [->|]; [done|]. apply H2. lia.
  - destruct IH as (i & Hi & Hc'); [lia..|]. exists i. split; [lia|done].
Qed.

(** The slow path, entered when [f] does not extend the set. *)
Lemma Add_slow journal s f :
  CoverSet_inv journal s → frag_wf journal f → s ≠ [] →
  End f ≤ End (s !!! (length s - 1)%nat) →
  Add s f = Ret (Add_reference s f).
Proof.
  intros Hinv Hf Hne Hlast. pose proof (ContentLength_nonzero _ _ Hf) as Hlen0.
  destruct Hf as (Hj & Hb & He & Hlt).
  assert (0 < length s)%nat as Hlen by (destruct s; [done|simpl; lia]).
  unfold Add. destruct (Nat.eqb_spec (length s) 0) as [|_]; [lia|]. simpl.
  destruct (inv_wf _ _ Hinv 0 Hlen) as (Hj0 & _). rewrite Hj, Hj0, String.eqb_refl. simpl.
  rewrite (proj2 (Z.eqb_neq _ _) Hlen0).
  destruct (Z.ltb_spec (End (s !!! (length s - 1)%nat)) (End f)) as [|_]; [lia|].
  destruct (search_end _ _ Hinv (Begin f)) as (Hr & Hr1 & Hr2).
  set (r0 := sort_Search _ _) in *.
  pose proof (add_scan_spec (length s) s f r0 ltac:(lia) Hr) as Hscan.
  unfold Add_reference.
  destruct (add_scan (length s) s f r0) as [rB|].
  2:{ rewrite decide_True; [done|]. apply Exists_index. destruct Hscan as (i & ? & ?).
      exists i. split; [lia|done]. }
  destruct Hscan as (HrB & Hlo & Hhi).
  assert (∀ i, (i < rB)%nat → Begin (s !!! i) < Begin f ∧ End (s !!! i) < End f) as Hbelow.
  { intros i Hi. destruct (decide (i < r0)%nat) as [Hi0|Hi0].
    - specialize (Hr1 _ Hi0). destruct (inv_wf _ _ Hinv i) as (_ & _ & _ & ?); lia.
    - destruct (Hlo i) as [? Hc]; [lia|]. unfold covers_strictly in Hc. lia. }
  assert (∀ i, (rB ≤ i < length s)%nat → Begin f ≤ Begin (s !!! i) ∧ ¬ covers_strictly (s !!! i) f) as Habove.
  { intros i Hi. destruct Hhi as [? Hc]; [lia|]. destruct (decide (i = rB)) as [->|]; [done|].
    destruct (inv_lt _ _ Hinv rB i) as [??]; [lia|]. unfold covers_strictly. lia. }
  rewrite decide_False.
  2:{ rewrite Exists_index. intros (i & Hi & Hc). destruct (decide (i < rB)%nat).
      - destruct (Hbelow i); [lia|]. unfold covers_strictly in Hc. lia.
      - by apply (Habove i); [lia|]. }
  destruct (skip_while_spec (length s) (length s) (λ i, End (s !!! i) <=? End f) rB) as (HrE & HE1 & HE2); [lia..|].
  set (rE := skip_while _ _ _ _) in *.
  rewrite splice_correct by lia. do 3 f_equal.
  - symmetry. apply filter_prefix.
    + intros i x Hi Hx. rewrite <- (list_lookup_total_correct _ _ _ Hx). by apply Hbelow.
    + intros i x Hi Hx. pose proof (lookup_lt_Some _ _ _ Hx).
      rewrite <- (list_lookup_total_correct _ _ _ Hx). destruct (Habove i); lia.
  - f_equal. symmetry. apply filter_suffix.
    + intros i x Hi Hx. rewrite <- (list_lookup_total_correct _ _ _ Hx).
      destruct (decide (i < rB)%nat); [destruct (Hbelow i); lia|].
      specialize (HE1 i ltac:(lia)). apply Z.leb_le in HE1. lia.
    + intros i x Hi Hx. pose proof (lookup_lt_Some _ _ _ Hx).
      rewrite <- (list_lookup_total_correct _ _ _ Hx).
      specialize (HE2 ltac:(lia)). apply Z.leb_gt in HE2.
      destruct (inv_le _ _ Hinv rE i); lia.
Qed.

(** The O(1) paths. *)
Lemma Add_empty journal f : frag_wf journal f → Add [] f = Ret ([f], true).
Proof.
  intros Hf%ContentLength_nonzero. unfold Add. simpl. by rewrite (proj2 (Z.eqb_neq _ _)).
Qed.

Lemma Add_extend journal s l f :
  CoverSet_inv journal (s ++ [l]) → frag_wf journal f → End l < End f →
  Add (s ++ [l]) f = Ret (if decide (Begin f ≤ Begin l) then s ++ [f] else s ++ [l; f], true).
Proof.
  intros Hinv Hf Hlast. pose proof (ContentLength_nonzero _ _ Hf) as Hlen0.
  destruct Hf as (Hj & Hb & He & Hlt).
  assert (0 < length (s ++ [l]))%nat as Hlen by (rewrite length_app; simpl; lia).
  unfold Add. destruct (Nat.eqb_spec (length (s ++ [l])) 0) as [|_]; [lia|]. simpl.
  destruct (inv_wf _ _ Hinv 0 Hlen) as (Hj0 & _). rewrite Hj, Hj0, String.eqb_refl. simpl.
  rewrite (proj2 (Z.eqb_neq _ _) Hlen0).
  assert ((length (s ++ [l]) - 1)%nat = length s) as -> by (rewrite length_app; simpl; lia).
  assert ((s ++ [l]) !!! length s = l) as ->.
  { apply list_lookup_total_correct. by apply list_lookup_middle. }
  destruct (Z.ltb_spec (End l) (End f)) as [_|]; [|lia].
  destruct (Z.leb_spec (Begin f) (Begin l)).
  - rewrite decide_True by lia. do 2 f_equal.
    rewrite insert_app_r_alt by lia. by rewrite Nat.sub_diag.
  - rewrite decide_False by lia. by rewrite <- (assoc_L (++)).
Qed.

Lemma inv_snoc journal s l g :
  CoverSet_inv journal (s ++ [l]) → g ∈ s → frag_lt g l ∧ frag_wf journal g.
Proof.
  intros [H1 H2] Hg. apply ssorted_app in H1 as (_ & _ & H1). rewrite Forall_forall in H2.
  split; [apply H1; set_solver|apply H2; set_solver].
Qed.

(** [Add] is the reference insertion, when the O(1) path for an extending
    fragment drops every entry it must drop. *)
Lemma Add_correct journal s f :
  CoverSet_inv journal s → frag_wf journal f → drops_only_last s f →
  Add s f = Ret (Add_reference s f).
Proof.
  intros Hinv Hf Hdrop. destruct (list_snoc_cases s) as [->|(s' & l & ->)].
  { rewrite (Add_empty journal) by done. unfold Add_reference.
    rewrite decide_False by (by intros H%Exists_nil). done. }
  destruct (decide (End l < End f)) as [Hlast|Hlast].
  2:{ apply (Add_slow journal); [done..| |].
      - by destruct s'.
      - rewrite length_app; simpl. replace (length s' + 1 - 1)%nat with (length s') by lia.
        rewrite (list_lookup_total_correct _ _ l); [lia|]. by apply list_lookup_middle. }
  rewrite (Add_extend journal) by done. unfold Add_reference.
  assert (∀ g, g ∈ s' → Begin g < Begin f ∧ End g < End f) as Hbelow.
  { intros g Hg. destruct (inv_snoc _ _ _ _ Hinv Hg) as [[??] _]. split; [|lia].
    apply list_elem_of_lookup in Hg as [i Hi]. apply (Hdrop i g l).
    - apply lookup_app_l_Some. done.
    - apply last_snoc.
    - pose proof (lookup_lt_Some _ _ _ Hi). rewrite length_app. simpl. lia.
    - done. }
  rewrite (decide_False (P := Exists _ _)).
  2:{ rewrite Exists_exists. intros (g & Hg & Hc). unfold covers_strictly in Hc.
      apply elem_of_app in Hg as [Hg|Hg%list_elem_of_singleton]; [destruct (Hbelow _ Hg); lia|subst; lia]. }
  assert (filter (λ g, End f < End g) (s' ++ [l]) = []) as ->.
  { apply list_filter_none. intros g [Hg|Hg%list_elem_of_singleton]%elem_of_app; [destruct (Hbelow _ Hg); lia|subst; lia]. }
  assert (filter (λ g, Begin g < Begin f) (s' ++ [l]) =
          s' ++ if decide (Begin l < Begin f) then [l] else []) as ->.
  { rewrite filter_app, (list_filter_all _ s'); [done|]. intros g Hg. by apply Hbelow. }
  repeat case_decide; try lia; [by rewrite (right_id_L [] (++))|by rewrite <- (assoc_L (++))].
Qed.

(** The reference insertion keeps the invariant and adds exactly the offsets of [f]. *)
Lemma Add_reference_inv journal s f :
  CoverSet_inv journal s → frag_wf journal f → CoverSet_inv journal (fst (Add_reference s f)).
Proof.
  intros [Hs Hw] Hf. unfold Add_reference. case_decide as Hc; [by split|]. simpl.
  rewrite Exists_exists in Hc. rewrite Forall_forall in Hw.
  assert (∀ g, g ∈ s → Begin g < Begin f → End g < End f) as H1.
  { intros g Hg Hb. destruct (decide (End g < End f)); [done|].
    destruct Hc. exists g. split; [done|]. unfold covers_strictly. lia. }
  assert (∀ g, g ∈ s → End f < End g → Begin f < Begin g) as H2.
  { intros g Hg He. destruct (decide (Begin f < Begin g)); [done|].
    destruct Hc. exists g. split; [done|]. unfold covers_strictly. lia. }
  split.
  - apply ssorted_app. split_and!.
    + by apply ssorted_filter.
    + constructor; [by apply ssorted_filter|]. apply Forall_forall.
      intros g [He Hg]%list_elem_of_filter. split; [by apply H2|done].
    + intros g h [Hb Hg]%list_elem_of_filter [->|[He Hh]%list_elem_of_filter]%elem_of_cons.
      * split; [done|by apply H1].
      * specialize (H1 _ Hg Hb). specialize (H2 _ Hh He). split; lia.
  - apply Forall_forall. intros g [Hg|[->|Hg]%elem_of_cons]%elem_of_app; [|done|];
      apply list_elem_of_filter in Hg as [_ Hg]; auto.
Qed.

Lemma Add_reference_covered journal s f o :
  CoverSet_inv journal s →
  covered (fst (Add_reference s f)) o ↔ covered s o ∨ in_frag o f.
Proof.
  intros Hinv. unfold Add_reference, covered, in_frag. case_decide as Hc; simpl.
  - apply Exists_exists in Hc as (g & Hg & Hc). split; [by left|]. intros [H|H]; [done|].
    exists g. split; [done|]. unfold covers_strictly in Hc. lia.
  - split.
    + intros (g & [Hg|[->|Hg]%elem_of_cons]%elem_of_app & Ho); [left|by right|left];
        apply list_elem_of_filter in Hg as [_ Hg]; by exists g.
    + intros [(g & Hg & Ho)|Ho].
      2:{ exists f. split; [|done]. apply elem_of_app. right. apply elem_of_cons. by left. }
      destruct (decide (Begin g < Begin f)).
      { exists g. split; [|done]. apply elem_of_app. left. by apply list_elem_of_filter. }
      destruct (decide (End f < End g)).
      { exists g. split; [|done]. apply elem_of_app. right. apply elem_of_cons. right.
        by apply list_elem_of_filter. }
      exists f. split; [|lia]. apply elem_of_app. right. apply elem_of_cons. by left.
Qed.

(** C26: inserting a well-formed fragment into a well-formed [CoverSet] is the
    reference insertion (ignore a fragment that an entry covers, else drop all
    the entries it covers and keep the order), and keeps the documented invariant;
    the one exclusion is an extending fragment that also covers an entry before
    the last one. *)
Theorem Add_refines_reference journal s f :
  CoverSet_inv journal s → frag_wf journal f → drops_only_last s f →
  Add s f = Ret (Add_reference s f) ∧ CoverSet_inv journal (fst (Add_reference s f)).
Proof. intros. split; [by eapply Add_correct|by apply Add_reference_inv]. Qed.

(** Whatever the fragment, one insertion into a well-formed set covers
    exactly the offsets covered before and those of the fragment, and is refused
    only because a single entry already covers the fragment. *)
Theorem Add_covers journal s f :
  CoverSet_inv journal s → frag_wf journal f →
  ∃ s' updated, Add s f = Ret (s', updated) ∧
    (∀ o, covered s' o ↔ covered s o ∨ in_frag o f) ∧
    (updated = false ↔ ∃ g, g ∈ s ∧ covers_strictly g f).
Proof.
  intros Hinv Hf. destruct (list_snoc_cases s) as [->|(s0 & l & ->)].
  { exists [f], true. rewrite (Add_empty journal) by done. split_and!; [done| |].
    - intros o. unfold covered. set_solver.
    - split; [done|]. intros (g & Hg & _). set_solver. }
  destruct (decide (End l < End f)) as [Hl|Hl].
  - rewrite (Add_extend journal) by done. eexists _, true. split; [done|]. split.
    + intros o. case_decide; rewrite !covered_app, !covered_cons; [|tauto].
      destruct Hinv as [_ (_ & Hw)%Forall_app]. apply Forall_singleton in Hw as (_ & _ & _ & ?).
      assert (in_frag o l → in_frag o f) by (unfold in_frag; lia).
      assert (¬ covered [] o) by apply covered_nil. tauto.
    + split; [done|]. intros (g & Hg & Hc). unfold covers_strictly in Hc.
      apply elem_of_app in Hg as [Hg|Hg%list_elem_of_singleton]; [|subst; lia].
      destruct (inv_snoc _ _ _ _ Hinv Hg) as [[??] _]. lia.
  - rewrite (Add_correct journal); [|done|done|].
    2:{ intros i g l' _ Hl'. rewrite last_snoc in Hl'. simplify_eq. lia. }
    eexists _, _. split; [by rewrite <- surjective_pairing|].
    split; [intros o; by eapply Add_reference_covered|].
    unfold Add_reference. case_decide as Hc; rewrite Exists_exists in Hc; naive_solver.
Qed.

(** ** Lookups *)

Lemma LongestOverlapping_spec journal s o :
  CoverSet_inv journal s →
  let '(ind, found) := LongestOverlappingFragment s o in
  (ind ≤ length s)%nat ∧
  if found then
    (ind < length s)%nat ∧ in_frag o (s !!! ind) ∧
    (∀ i, (i < length s)%nat → in_frag o (s !!! i) → (i ≤ ind)%nat)
  else
    (∀ i, (i < ind)%nat → End (s !!! i) ≤ o) ∧ (∀ i, (ind ≤ i < length s)%nat → o < Begin (s !!! i)).
Proof.
  intros Hinv. unfold LongestOverlappingFragment.
  destruct (search_end _ _ Hinv o) as (Hr & Hr1 & Hr2). set (r := sort_Search _ _) in *.
  set (p := λ i, _). destruct (skip_while_spec (length s) (length s) p r) as (Hk & Hk1 & Hk2); [lia..|].
  set (k := skip_while _ _ _ _) in *. split; [lia|].
  assert (∀ i, p i = true ↔ (i + 1 < length s)%nat ∧ Begin (s !!! (i + 1)%nat) ≤ o) as Hp.
  { intros i. unfold p. by rewrite andb_true_iff, Nat.ltb_lt, Z.leb_le. }
  destruct (Nat.ltb_spec r (length s)) as [Hrl|Hrl]; simpl.
  2:{ assert (k = r) as -> by lia. split; [done|]. intros i Hi. lia. }
  destruct (Z.leb_spec (Begin (s !!! r)) o) as [Hb|Hb].
  - assert (Begin (s !!! k) ≤ o ∧ (k < length s)%nat) as [Hbk Hkl].
    { destruct (decide (k = r)) as [->|]; [done|].
      specialize (Hk1 (k - 1)%nat ltac:(lia)). apply Hp in Hk1 as [??].
      by replace (k - 1 + 1)%nat with k in * by lia. }
    split; [done|]. split; [split; [done|]; apply Hr2; lia|].
    intros i Hi [Hbi _]. destruct (decide (i ≤ k)%nat); [done|]. specialize (Hk2 Hkl).
    assert (p k = true); [|congruence]. apply Hp. split; [lia|].
    destruct (inv_le _ _ Hinv (k + 1) i); lia.
  - assert (k = r) as ->.
    { destruct (decide (k = r)); [done|]. specialize (Hk1 r ltac:(lia)). apply Hp in Hk1 as [??].
      destruct (inv_lt _ _ Hinv r (r + 1)); lia. }
    split; [done|]. intros i Hi. destruct (inv_le _ _ Hinv r i); lia.
Qed.

(** For a well-formed set, [LongestOverlappingFragment] finds a fragment
    exactly when the offset is covered; then the index is of a fragment that covers
    the offset and ends last among those that do; otherwise it is of the first
    fragment that begins after the offset. *)
Theorem LongestOverlapping_correct journal s o ind found :
  CoverSet_inv journal s → LongestOverlappingFragment s o = (ind, found) →
  (found = true ↔ covered s o) ∧
  (found = true → (ind < length s)%nat ∧ in_frag o (s !!! ind) ∧
                  ∀ g, g ∈ s → in_frag o g → End g ≤ End (s !!! ind)) ∧
  (found = false → (∀ i, (i < ind)%nat → End (s !!! i) ≤ o) ∧
                   (∀ i, (ind ≤ i < length s)%nat → o < Begin (s !!! i))).
Proof.
  intros Hinv Heq. pose proof (LongestOverlapping_spec journal s o Hinv) as H. rewrite Heq in H.
  destruct H as [Hi H]. destruct found.
  - destruct H as (Hlt & Hin & Hmax). split_and!.
    + split; [|done]. intros _. apply covered_index. eauto.
    + intros _. split_and!; [done..|]. intros g [i Hg]%list_elem_of_lookup Hog.
      pose proof (lookup_lt_Some _ _ _ Hg). rewrite <- (list_lookup_total_correct _ _ _ Hg) in *.
      apply (inv_le _ _ Hinv). split; [by apply Hmax|lia].
    + done.
  - destruct H as (Hlo & Hhi). split_and!; [|done|done]. split; [done|].
    intros (i & Hil & Ho)%covered_index. unfold in_frag in Ho.
    destruct (decide (i < ind)%nat); [specialize (Hlo i); lia|specialize (Hhi i); lia].
Qed.

(** ** Difference *)

Lemma covered_drop_LOF journal b x o :
  CoverSet_inv journal b → x ≤ o →
  covered (drop (fst (LongestOverlappingFragment b x)) b) o ↔ covered b o.
Proof.
  intros Hinv Hxo. pose proof (LongestOverlapping_spec journal b x Hinv) as H.
  destruct (LongestOverlappingFragment b x) as [ind found]. destruct H as [Hind H]. simpl.
  rewrite <- (take_drop ind b) at 2. rewrite covered_app. split; [by right|].
  intros [(g & [i Hi]%list_elem_of_lookup & Hg)|?]; [|done]. pose proof (lookup_lt_Some _ _ _ Hi) as Hil.
  rewrite length_take in Hil. rewrite lookup_take_lt in Hi by lia.
  rewrite <- (list_lookup_total_correct _ _ _ Hi) in Hg. unfold in_frag in Hg. destruct found.
  - destruct H as (Hlt & [Hb He] & _). destruct (inv_le _ _ Hinv i ind) as [_ ?]; [lia|].
    exists (b !!! ind). split; [|unfold in_frag; lia].
    apply list_elem_of_lookup. exists 0%nat. rewrite lookup_drop, Nat.add_0_r. by apply lookup_total_some.
  - destruct H as [Hlo _]. specialize (Hlo i). lia.
Qed.

(** Entries [0..k] of a contiguous run cover from the first begin to the last end. *)
Lemma run_covered journal b k o :
  CoverSet_inv journal b → (k < length b)%nat →
  (∀ i, (i < k)%nat → Begin (b !!! (i + 1)%nat) ≤ End (b !!! i)) →
  Begin (b !!! 0%nat) ≤ o < End (b !!! k) → covered b o.
Proof.
  intros Hinv Hk Hrun Ho. apply covered_index. revert Hk Hrun Ho. induction k as [|k IH]; intros Hk Hrun Ho.
  - exists 0%nat. done.
  - destruct (decide (o < End (b !!! k))).
    + apply IH; [lia| |lia]. intros i Hi. apply Hrun. lia.
    + exists (S k). split; [done|]. specialize (Hrun k ltac:(lia)). rewrite Nat.add_1_r in Hrun.
      unfold in_frag. lia.
Qed.

Definition uncovered_part (f : LFragment) (b : CoverSet) : Prop := ∃ o, in_frag o f ∧ ¬ covered b o.

(** The test of [CoverSetDifference] after [b] was advanced to [a0.Begin]. *)
Lemma difference_test journal a0 b :
  CoverSet_inv journal b → Begin a0 < End a0 →
  ((0 < length b)%nat → Begin (b !!! 0%nat) ≤ Begin a0 → Begin a0 < End (b !!! 0%nat)) →
  (Nat.eqb (length b) (contiguous_run a0 b) || (Begin a0 <? Begin (b !!! 0%nat))
     || (End (b !!! contiguous_run a0 b) <? End a0)) = true
  ↔ uncovered_part a0 b.
Proof.
  intros Hinv Hlt H0. unfold contiguous_run. set (p := λ i, _).
  destruct (skip_while_spec (length b) (length b) p 0) as (Hr & Hr1 & Hr2); [lia..|].
  set (r := skip_while _ _ _ _) in *.
  assert (∀ i, p i = true ↔ ((i + 1 < length b)%nat ∧ End (b !!! i) < End a0) ∧
                            Begin (b !!! (i + 1)%nat) ≤ End (b !!! i)) as Hp.
  { intros i. unfold p. by rewrite !andb_true_iff, Nat.ltb_lt, Z.leb_le, Z.ltb_lt. }
  destruct (decide (length b = 0%nat)) as [Hz|Hz].
  { assert (r = 0%nat) as -> by lia. rewrite Hz. simpl. split; [|done]. intros _.
    exists (Begin a0). split; [unfold in_frag; lia|]. rewrite (nil_length_inv b) by done. apply covered_nil. }
  assert (r < length b)%nat as Hrl.
  { destruct (decide (r = 0%nat)) as [->|]; [lia|].
    specialize (Hr1 (r - 1)%nat ltac:(lia)). apply Hp in Hr1. lia. }
  assert ((length b =? r)%nat = false) as -> by (apply Nat.eqb_neq; lia). simpl.
  rewrite orb_true_iff, !Z.ltb_lt. split.
  - intros [Hlow|Hhigh].
    + exists (Begin a0). split; [unfold in_frag; lia|]. rewrite covered_index. intros (i & Hi & Ho & _).
      destruct (inv_le _ _ Hinv 0 i); lia.
    + destruct (decide (Begin (b !!! 0%nat) ≤ Begin a0)) as [Hb|Hb].
      2:{ exists (Begin a0). split; [unfold in_frag; lia|]. rewrite covered_index. intros (i & Hi & Ho & _).
          destruct (inv_le _ _ Hinv 0 i); lia. }
      specialize (H0 ltac:(lia) Hb). destruct (inv_le _ _ Hinv 0 r) as [_ ?]; [lia|].
      exists (End (b !!! r)). split; [unfold in_frag; lia|]. rewrite covered_index.
      intros (i & Hi & Ho1 & Ho2). destruct (decide (i ≤ r)%nat); [destruct (inv_le _ _ Hinv i r); lia|].
      specialize (Hr2 Hrl). assert (p r = true); [|congruence]. apply Hp. split; [lia|].
      destruct (inv_le _ _ Hinv (r + 1) i); lia.
  - intros (o & [Ho1 Ho2] & Hnc).
    destruct (decide (Begin a0 < Begin (b !!! 0%nat))); [by left|].
    destruct (decide (End (b !!! r) < End a0)); [by right|]. destruct Hnc.
    apply (run_covered journal b r); [done|done| |lia].
    intros i Hi. specialize (Hr1 i ltac:(lia)). apply Hp in Hr1. lia.
Qed.

Lemma CoverSetDifference_elem journal a b f :
  CoverSet_inv journal a → CoverSet_inv journal b →
  f ∈ CoverSetDifference a b ↔ f ∈ a ∧ uncovered_part f b.
Proof.
  revert b. induction a as [|a0 a IH]; intros b Ha Hb; [set_solver|]. cbn [CoverSetDifference].
  destruct Ha as [[Hs Hlt]%StronglySorted_inv [Hw0 Hw]%Forall_cons].
  pose proof (covered_drop_LOF journal b (Begin a0)) as Hdrop.
  pose proof (LongestOverlapping_spec journal b (Begin a0) Hb) as Hlof.
  destruct (LongestOverlappingFragment b (Begin a0)) as [k found]. cbn [fst] in *.
  set (b' := drop k b) in *.
  assert (CoverSet_inv journal b') as Hb' by (by apply inv_drop).
  assert (∀ g, Begin a0 ≤ Begin g → uncovered_part g b' ↔ uncovered_part g b) as Heq.
  { intros g Hg. split; intros (o & Ho & Hc); exists o; (split; [done|]); intros Hc'; apply Hc;
      apply (Hdrop o); try done; unfold in_frag in Ho; lia. }
  assert ((0 < length b')%nat → Begin (b' !!! 0%nat) ≤ Begin a0 → Begin a0 < End (b' !!! 0%nat)) as H0.
  { unfold b'. rewrite length_drop, lookup_total_drop, Nat.add_0_r. intros Hl Hle.
    destruct Hlof as [_ Hlof]. destruct found; [by apply Hlof|].
    destruct Hlof as [_ Hhi]. specialize (Hhi k). lia. }
  assert (f ∈ CoverSetDifference a b' ↔ f ∈ a ∧ uncovered_part f b) as IH'.
  { rewrite IH; [|by split|done]. split; intros [Hf Hu]; (split; [done|]);
      apply Heq in Hu; try done; rewrite Forall_forall in Hlt; destruct (Hlt _ Hf); lia. }
  pose proof (difference_test journal a0 b' Hb' ltac:(apply Hw0) H0) as Htest.
  rewrite Heq in Htest by lia.
  destruct (_ || _).
  - rewrite !elem_of_cons, IH'. assert (uncovered_part a0 b) by (by apply Htest). naive_solver.
  - rewrite elem_of_cons, IH'. split; [naive_solver|]. intros [[->|?] ?]; [|done].
    assert (false = true) by (by apply Htest). done.
Qed.

Lemma CoverSetDifference_sublist a b : sublist (CoverSetDifference a b) a.
Proof.
  revert b. induction a as [|a0 a IH]; intros b; simpl; [done|].
  destruct (_ || _); [by apply sublist_skip|by apply sublist_cons].
Qed.

(** [CoverSetDifference a b] keeps, in order, exactly the fragments of [a]
    that have an offset which no fragment of [b], nor a run of them, covers. *)
Theorem CoverSetDifference_correct journal a b :
  CoverSet_inv journal a → CoverSet_inv journal b →
  sublist (CoverSetDifference a b) a ∧
  ∀ f, f ∈ CoverSetDifference a b ↔ f ∈ a ∧ ∃ o, in_frag o f ∧ ¬ covered b o.
Proof.
  intros Ha Hb. split; [apply CoverSetDifference_sublist|]. intros f.
  by apply (CoverSetDifference_elem journal).
Qed.

(** ** The O(1) path for an extending fragment *)

Definition mkF (b e : Z) : LFragment :=
  mkLFragment (mkFragment "a/journal" b e SHA1Sum_zero Codec_NONE "" 0) None.

(** Folding [Add], as [WalkAllStores] does over a listing. *)
Definition AddAll (s : CoverSet) (l : list LFragment) : outcome CoverSet :=
  outcome_fold (λ s f, let! r := Add s f in Ret (fst r)) s l.

Definition spans (s : CoverSet) : list (Z * Z) := map (λ f, (Begin f, End f)) s.

(** The unit tests of the repository (cover_set_test.go). *)
Example TestSetAddReplaceRangeAtEnd :
  AddAll [] [mkF 100 200; mkF 200 300; mkF 300 400; mkF 400 500; mkF 150 500]
  = Ret [mkF 100 200; mkF 150 500].
Proof. vm_compute. reflexivity. Qed.

Example TestSetAddOverlappingRanges :
  AddAll [] [mkF 100 150; mkF 149 201; mkF 200 250; mkF 250 300; mkF 299 351; mkF 350 400;
             mkF 200 300; mkF 300 400; mkF 100 200]
  = Ret [mkF 100 200; mkF 149 201; mkF 200 300; mkF 299 351; mkF 300 400].
Proof. vm_compute. reflexivity. Qed.

(** An extending fragment that covers more than the last entry leaves a
    fully overlapped entry behind, against the invariant of the type; a lookup of
    an offset covered by the new fragment alone then fails, and a later insertion
    drops it, after which an offset that was added is covered no more. *)
Theorem Add_extending_breaks_invariant :
  AddAll [] [mkF 5 10; mkF 10 20; mkF 0 30] = Ret [mkF 5 10; mkF 0 30] ∧
  ¬ CoverSet_inv "a/journal" [mkF 5 10; mkF 0 30] ∧
  snd (LongestOverlappingFragment [mkF 5 10; mkF 0 30] 0) = false ∧
  covered [mkF 5 10; mkF 0 30] 0 ∧
  AddAll [] [mkF 5 10; mkF 10 20; mkF 0 30; mkF 5 30] = Ret [mkF 5 30] ∧
  ¬ covered [mkF 5 30] 0.
Proof.
  split_and!; [reflexivity| |reflexivity| |reflexivity|].
  - intros [H _]. apply (ssorted_lookup _ _ 0 1 (mkF 5 10) (mkF 0 30)) in H as [H _]; [|lia|done..].
    simpl in H. lia.
  - exists (mkF 0 30). split; [set_solver|]. unfold in_frag. simpl. lia.
  - intros (f & ->%list_elem_of_singleton & H). unfold in_frag in H. simpl in H. lia.
Qed.

(** ** What holds of [Add] for any set, well-formed or not *)

Lemma Add_any s f s' b :
  Add s f = Ret (s', b) →
  (∀ g, g ∈ s' → g ∈ s ∨ g = f) ∧
  (b = false → s' = s ∧ (ContentLength (frag f) = 0 ∨ ∃ g, g ∈ s ∧ covers_strictly g f)).
Proof.
  unfold Add. destruct (_ && _); [done|].
  destruct (Z.eqb_spec (ContentLength (frag f)) 0); [intros [= <- <-]; split; [by left|by auto]|].
  destruct (Nat.eqb_spec (length s) 0); [intros [= <- <-]; split; [set_solver|done]|].
  destruct (_ <? _).
  { destruct (_ <=? _); intros [= <- <-]; (split; [|done]); intros g.
    - rewrite take_insert_drop by lia. intros [Hg%list_elem_of_In|[->|Hg]%elem_of_cons]%elem_of_app; [left|by right|left].
      + apply list_elem_of_In in Hg. by eapply subseteq_take.
      + by eapply subseteq_drop.
    - set_solver. }
  set (r0 := sort_Search _ _). destruct (sort_Search_spec (length s) (λ i, Begin f <? End (s !!! i))) as (Hr & _).
  pose proof (add_scan_spec (length s) s f r0 ltac:(lia) Hr) as Hscan.
  destruct (add_scan (length s) s f r0) as [rB|]; intros [= <- <-].
  - split; [|done]. destruct Hscan as [HrB _].
    destruct (skip_while_spec (length s) (length s) (λ i, End (s !!! i) <=? End f) rB) as (HrE & _); [lia..|].
    rewrite splice_correct by lia. intros g [Hg|[->|Hg]%elem_of_cons]%elem_of_app; [left|by right|left].
    + by eapply subseteq_take.
    + by eapply subseteq_drop.
  - split; [by left|]. intros _. split; [done|]. right. destruct Hscan as (i & Hi & Hc).
    exists (s !!! i). split; [apply lookup_total_in; lia|done].
Qed.

Lemma Add_no_panic journal s f :
  Forall (λ g, JournalOf g = journal) s → JournalOf f = journal → ∃ s' b, Add s f = Ret (s', b).
Proof.
  intros Hs Hf. unfold Add. destruct s as [|g s]; simpl.
  { destruct (_ =? _); eauto. }
  apply Forall_cons in Hs as [Hg _]. rewrite Hf, Hg, String.eqb_refl. simpl.
  repeat case_match; eauto.
Qed.

(** An insertion after the begin of every entry takes no entry but the last away. *)
Lemma drops_only_last_after journal s f :
  CoverSet_inv journal s → (∀ g, g ∈ s → Begin g ≤ Begin f) → drops_only_last s f.
Proof.
  intros [Hs _] H i g l Hi Hl Hlen _.
  assert (l ∈ s) as Hin by (by apply last_Some_elem_of).
  rewrite last_lookup in Hl. destruct (ssorted_lookup _ _ i (pred (length s)) g l Hs); [lia|done|done|].
  specialize (H l Hin). lia.
Qed.

(** An insertion that contains no entry is never in conflict with the O(1) path. *)
Lemma drops_only_last_disjoint journal s f :
  CoverSet_inv journal s → (∀ g, g ∈ s → Begin g < Begin f ∨ End f < End g) → drops_only_last s f.
Proof.
  intros [Hs _] H i g l Hi Hl Hlen Hend. rewrite last_lookup in Hl.
  destruct (ssorted_lookup _ _ i (pred (length s)) g l Hs); [lia|done|done|].
  destruct (H g); [by apply list_elem_of_lookup; eauto|done|lia].
Qed.

Lemma EndOffset_max journal s g : CoverSet_inv journal s → g ∈ s → End g ≤ EndOffset s.
Proof.
  intros Hinv [i Hi]%list_elem_of_lookup. pose proof (lookup_lt_Some _ _ _ Hi).
  unfold EndOffset. destruct (Nat.eqb_spec (length s) 0); [lia|].
  rewrite <- (list_lookup_total_correct _ _ _ Hi). apply (inv_le _ _ Hinv). lia.
Qed.

Lemma EndOffset_in s : s ≠ [] → ∃ g, g ∈ s ∧ EndOffset s = End g.
Proof.
  intros Hne. unfold EndOffset. destruct (Nat.eqb_spec (length s) 0) as [H|H].
  - by apply nil_length_inv in H.
  - eexists. split; [|done]. apply lookup_total_in. lia.
Qed.

(** ** Concrete inputs *)

Ltac solve_cover_inv :=
  repeat match goal with
  | |- CoverSet_inv _ _ => split
  | |- StronglySorted _ _ => constructor
  | |- Forall _ _ => constructor
  | |- frag_lt _ _ => unfold frag_lt; simpl; lia
  | |- frag_wf _ _ => unfold frag_wf, is_int64, MinInt64, MaxInt64; simpl; split_and!; (done || lia)
  | |- (_ ≤ _)%Z => simpl; lia
  end.

Lemma demo_inv : CoverSet_inv "a/journal" [mkF 0 5; mkF 3 8].
Proof. solve_cover_inv. Qed.

Lemma demo_wf : frag_wf "a/journal" (mkF 4 10).
Proof. solve_cover_inv. Qed.

Lemma Add_refines_reference_witness :
  Add [mkF 0 5; mkF 3 8] (mkF 4 10) = Ret (Add_reference [mkF 0 5; mkF 3 8] (mkF 4 10)) ∧
  CoverSet_inv "a/journal" (fst (Add_reference [mkF 0 5; mkF 3 8] (mkF 4 10))).
Proof.
  apply (Add_refines_reference "a/journal"); [apply demo_inv|apply demo_wf|].
  intros [|[|i]] g l Hg Hl Hlen _; simpl in *; simplify_eq/=; lia.
Defined.

Lemma Add_covers_witness :
  ∃ s' updated, Add [mkF 0 5; mkF 3 8] (mkF 4 10) = Ret (s', updated) ∧
    (∀ o, covered s' o ↔ covered [mkF 0 5; mkF 3 8] o ∨ in_frag o (mkF 4 10)) ∧
    (updated = false ↔ ∃ g, g ∈ [mkF 0 5; mkF 3 8] ∧ covers_strictly g (mkF 4 10)).
Proof. apply (Add_covers "a/journal"); [apply demo_inv|apply demo_wf]. Defined.

Lemma LongestOverlapping_correct_witness :
  (true = true ↔ covered [mkF 0 5; mkF 3 8] 4) ∧
  (true = true → (1 < 2)%nat ∧ in_frag 4 (mkF 3 8) ∧ ∀ g, g ∈ [mkF 0 5; mkF 3 8] → in_frag 4 g → End g ≤ 8) ∧
  (true = false → (∀ i, (i < 1)%nat → End ([mkF 0 5; mkF 3 8] !!! i) ≤ 4) ∧
                  (∀ i, (1 ≤ i < 2)%nat → 4 < Begin ([mkF 0 5; mkF 3 8] !!! i))).
Proof. apply (LongestOverlapping_correct "a/journal" [mkF 0 5; mkF 3 8] 4 1%nat true); [apply demo_inv|reflexivity]. Defined.

Lemma CoverSetDifference_correct_witness :
  sublist (CoverSetDifference [mkF 0 5; mkF 3 8] []) [mkF 0 5; mkF 3 8] ∧
  ∀ f, f ∈ CoverSetDifference [mkF 0 5; mkF 3 8] [] ↔ f ∈ [mkF 0 5; mkF 3 8] ∧ ∃ o, in_frag o f ∧ ¬ covered [] o.
Proof. apply (CoverSetDifference_correct "a/journal"); [apply demo_inv|solve_cover_inv]. Defined.
