(* ===== verification/FragmentIndex.v ===== *)
(** * The fragment index of a replica (src/v2/pkg/fragment/index.go)

    [Index] holds the cover set of all fragments of a journal and the one of the
    fragments that are only local. Its mutex makes each operation atomic, so an
    operation is a function of the state; a blocking [Query] is the sequence of
    states it wakes up in. The time, the signing of URLs and the listing of
    stores are arguments. *)
From S2P Require Import Prelude Protocol CoverSet.
Local Open Scope Z_scope.

Record Index := mkIndex {
  set : CoverSet;              (* All Fragments of the index (local and remote). *)
  local : CoverSet;            (* Local Fragments only. *)
  condCh : nat;                (* Generation of the condition channel. *)
  firstRefreshCh : bool;       (* Closed by the first ReplaceRemote. *)
}.

Definition NewIndex : Index := mkIndex [] [] 0 false.

Definition offsetJumpAgeThreshold : Z := 6 * 60 * 60.

(** What happens while a query is blocked in its [select]. *)
Inductive wake :=
| Woken (fi : Index) (now : Z)      (* condCh was closed; the index is now [fi]. *)
| Cancelled (err : string).         (* The request or the index context is done. *)

Inductive query_result :=
| Answered (resp : ReadResponse) (file : option handle) (err : option string)
| Failed (err : string)
| Blocked (offset : Z).

Section query.
(** [SignGetURL] of the fragment's store: a URL or an error. *)
Context (SignGetURL : Fragment → string * option string).

(** One iteration of the loop of [Query], under the read lock. *)
Definition query_once (fi : Index) (now : Z) (req : ReadRequest) (offset : Z) : query_result :=
  let '(ind, found) := LongestOverlappingFragment (set fi) offset in
  let e := set fi !!! ind in
  let jump := negb found && negb (Nat.eqb ind (length (set fi))) &&
              negb (f_ModTime (frag e) =? 0) && (f_ModTime (frag e) <? now - offsetJumpAgeThreshold) in
  let offset' := if jump then Begin e else offset in
  if found || jump then
    let '(url, err) :=
      if negb (String.eqb (f_BackingStore (frag e)) "") && negb (f_ModTime (frag e) =? 0)
      then SignGetURL (frag e) else (""%string, None) in
    Answered {| rs_Status := Status_OK; rs_Header := None; rs_Offset := offset';
                rs_WriteHead := EndOffset (set fi); rs_Fragment := Some (frag e);
                rs_FragmentUrl := url; rs_Content := None |} (File e) err
  else if negb (rr_Block req) then
    Answered {| rs_Status := OFFSET_NOT_YET_AVAILABLE; rs_Header := None; rs_Offset := offset;
                rs_WriteHead := EndOffset (set fi); rs_Fragment := None;
                rs_FragmentUrl := ""; rs_Content := None |} None None
  else Blocked offset.

Fixpoint query_loop (fi : Index) (now : Z) (req : ReadRequest) (offset : Z) (wakes : list wake)
    : query_result :=
  match query_once fi now req offset with
  | Blocked offset =>
      match wakes with
      | [] => Blocked offset
      | Cancelled err :: _ => Failed err
      | Woken fi' now' :: wakes => query_loop fi' now' req offset wakes
      end
  | r => r
  end.

Definition Query (fi : Index) (now : Z) (req : ReadRequest) (wakes : list wake) : query_result :=
  query_loop fi now req
    (if rr_Offset req =? -1 then EndOffset (set fi) else rr_Offset req) wakes.
End query.

Definition Index_EndOffset (fi : Index) : Z := EndOffset (set fi).

Definition wakeBlockedQueries (fi : Index) : Index :=
  mkIndex (set fi) (local fi) (S (condCh fi)) (firstRefreshCh fi).

Definition SpoolCommit (fi : Index) (f : LFragment) : outcome Index :=
  let! s := Add (set fi) f in
  let! l := Add (local fi) f in
  Ret (wakeBlockedQueries (mkIndex (fst s) (fst l) (condCh fi) (firstRefreshCh fi))).

(** The loop of [ReplaceRemote] over the remaining local fragments. *)
Definition extend_with_local (remote locals : CoverSet) : outcome CoverSet :=
  outcome_fold (λ s f,
    let! r := Add s f in
    if snd r then Ret (fst r) else Panic "expected local fragment to not be covered") remote locals.

Definition ReplaceRemote (fi : Index) (remote : CoverSet) : outcome Index :=
  let local' := CoverSetDifference (local fi) remote in
  let! set' := extend_with_local remote local' in
  let fi' := wakeBlockedQueries (mkIndex set' local' (condCh fi) (firstRefreshCh fi)) in
  Ret (mkIndex (set fi') (local fi') (condCh fi') true).

(** [WaitForFirstRemoteRefresh]: the states in which it is woken, then the error of a context. *)
Fixpoint WaitForFirstRemoteRefresh (fi : Index) (wakes : list wake) : option (option string) :=
  if firstRefreshCh fi then Some None
  else match wakes with
       | [] => None
       | Cancelled err :: _ => Some (Some err)
       | Woken fi' _ :: wakes => WaitForFirstRemoteRefresh fi' wakes
       end.

Definition Inspect {A} (fi : Index) (callback : CoverSet → A) : A := callback (set fi).

(** [WalkAllStores]: [List] enumerates a store, and may fail after some fragments. *)
Section walk.
Context {store : Type} (List : store → list Fragment * option string).

Fixpoint walk (set : CoverSet) (stores : list store) : outcome (CoverSet * option string) :=
  match stores with
  | [] => Ret (set, None)
  | st :: stores =>
      let '(listing, err) := List st in
      let! set' := AddAll set (map (λ f, mkLFragment f None) listing) in
      match err with
      | Some e => Ret ([], Some e)
      | None => walk set' stores
      end
  end.

Definition WalkAllStores (stores : list store) : outcome (CoverSet * option string) := walk [] stores.
End walk.

(** ** Invariant *)

Definition Index_inv (journal : Journal) (fi : Index) : Prop :=
  CoverSet_inv journal (set fi) ∧ CoverSet_inv journal (local fi) ∧
  (∀ o, covered (local fi) o → covered (set fi) o) ∧
  Forall (λ f, is_Some (File f)) (local fi).

Lemma NewIndex_inv journal : Index_inv journal NewIndex.
Proof.
  split_and!; simpl; [by split; constructor..|done|constructor].
Qed.

(** One [Add] whose O(1) path is exact, in the form the index uses it. *)
Lemma Add_step journal s f :
  CoverSet_inv journal s → frag_wf journal f → drops_only_last s f →
  ∃ s' b, Add s f = Ret (s', b) ∧ CoverSet_inv journal s' ∧
    (∀ o, covered s' o ↔ covered s o ∨ in_frag o f) ∧ (∀ g, g ∈ s' → g ∈ s ∨ g = f).
Proof.
  intros Hs Hf Hd. pose proof (Add_correct journal s f Hs Hf Hd) as HA.
  destruct (Add_reference s f) as [s' b] eqn:E. exists s', b. split; [done|].
  split; [|split].
  - pose proof (Add_reference_inv journal s f Hs Hf) as H. by rewrite E in H.
  - intros o. pose proof (Add_reference_covered journal s f o Hs) as H. by rewrite E in H.
  - by apply Add_any in HA as [? _].
Qed.

Lemma SpoolCommit_spec journal fi f :
  Index_inv journal fi → frag_wf journal f → is_Some (File f) →
  drops_only_last (set fi) f → drops_only_last (local fi) f →
  ∃ fi', SpoolCommit fi f = Ret fi' ∧ Index_inv journal fi' ∧
    (∀ o, covered (set fi') o ↔ covered (set fi) o ∨ in_frag o f) ∧
    (∀ o, covered (local fi') o ↔ covered (local fi) o ∨ in_frag o f) ∧
    condCh fi' ≠ condCh fi.
Proof.
  intros (Hs & Hl & Hsub & Hfile) Hf HF Hd1 Hd2. unfold SpoolCommit.
  destruct (Add_step journal (set fi) f) as (s' & b & -> & Hs' & Hc & _); [done..|].
  destruct (Add_step journal (local fi) f) as (l' & b' & -> & Hl' & Hcl & Hel); [done..|]. simpl.
  eexists. split; [done|]. unfold wakeBlockedQueries. simpl. split; [|by auto with lia].
  split_and!; [done|done| |]; simpl.
  - intros o. rewrite Hc, Hcl. naive_solver.
  - rewrite Forall_forall in *. intros g [?| ->]%Hel; auto.
Qed.

(** Committing the spool fragment, which begins at or after every
    indexed fragment, never panics and keeps the index invariant; the index then covers
    exactly what it covered and the committed fragment, its end offset is the
    larger of the two, and blocked queries are woken. *)
Theorem SpoolCommit_correct journal fi f :
  Index_inv journal fi → frag_wf journal f → is_Some (File f) →
  (∀ g, g ∈ set fi ∨ g ∈ local fi → Begin g ≤ Begin f) →
  ∃ fi', SpoolCommit fi f = Ret fi' ∧ Index_inv journal fi' ∧
    (∀ o, covered (set fi') o ↔ covered (set fi) o ∨ in_frag o f) ∧ condCh fi' ≠ condCh fi.
Proof.
  intros Hinv Hf HF Hb.
  destruct (SpoolCommit_spec journal fi f) as (fi' & ? & ? & ? & _ & ?); [done..| | |].
  - apply (drops_only_last_after journal); [apply Hinv|auto].
  - apply (drops_only_last_after journal); [apply Hinv|auto].
  - by exists fi'.
Qed.

(** ** ReplaceRemote *)

(** Two entries of one well-formed set never cover one another. *)
Lemma inv_no_cover journal s f g :
  CoverSet_inv journal s → f ∈ s → g ∈ s → ¬ covers_strictly g f.
Proof.
  intros [Hs _] [i Hi]%list_elem_of_lookup [j Hj]%list_elem_of_lookup. unfold covers_strictly.
  destruct (lt_eq_lt_dec i j) as [[Hlt| ->]|Hlt].
  - destruct (ssorted_lookup _ _ i j f g Hs); [done..|lia].
  - simplify_eq. lia.
  - destruct (ssorted_lookup _ _ j i g f Hs); [done..|lia].
Qed.

Lemma uncovered_no_cover f s g :
  uncovered_part f s → g ∈ s → ¬ covers_strictly g f.
Proof.
  intros (o & Ho & Hnc) Hg Hc. apply Hnc. exists g. split; [done|].
  unfold covers_strictly, in_frag in *. lia.
Qed.

Section extend.
Context (journal : Journal) (remote all : CoverSet).
Hypothesis Hall : CoverSet_inv journal all.

(** The loop of [ReplaceRemote] never meets a covered local fragment. *)
Lemma extend_no_panic s ls :
  (∀ g, g ∈ s → JournalOf g = journal ∧ (g ∈ remote ∨ g ∈ all)) →
  (∀ f, f ∈ ls → f ∈ all ∧ uncovered_part f remote) →
  ∃ s', extend_with_local s ls = Ret s'.
Proof.
  revert s. induction ls as [|f ls IH]; intros s Hs Hls; [by eexists|].
  destruct (Hls f) as [Hf Hu]; [set_solver|].
  assert (frag_wf journal f) as Hwf. { destruct Hall as [_ H]. rewrite Forall_forall in H. auto. }
  destruct (Add_no_panic journal s f) as (s' & b & HA).
  { apply Forall_forall. intros g Hg. by apply Hs. } { apply Hwf. }
  unfold extend_with_local. cbn [outcome_fold]. rewrite HA. simpl.
  apply Add_any in HA as [Hel Hfalse]. destruct b.
  - apply IH; [|set_solver]. intros g [Hg| ->]%Hel; [auto|]. split; [apply Hwf|by right].
  - destruct Hfalse as [_ [Hz|(g & Hg & Hc)]]; [done| |].
    + by apply (ContentLength_nonzero _ _ Hwf) in Hz.
    + destruct (Hs g Hg) as [_ [Hr|Ha]].
      * by eapply uncovered_no_cover in Hc.
      * by eapply inv_no_cover in Hc.
Qed.
End extend.

(** Replacing the remote fragments never reaches its panic: no local
    fragment that remains after the difference is covered by an entry of the set. *)
Theorem ReplaceRemote_no_panic journal fi remote :
  Index_inv journal fi → CoverSet_inv journal remote →
  ∃ fi', ReplaceRemote fi remote = Ret fi' ∧ firstRefreshCh fi' = true.
Proof.
  intros (_ & Hl & _) Hr. unfold ReplaceRemote.
  destruct (extend_no_panic journal remote (local fi) Hl remote (CoverSetDifference (local fi) remote))
    as [s' ->].
  - intros g Hg. split; [|by left]. destruct Hr as [_ Hw]. rewrite Forall_forall in Hw. by apply Hw.
  - intros f Hf. by apply (CoverSetDifference_elem journal) in Hf.
  - simpl. by eexists.
Qed.

Lemma extend_covers journal s ls :
  CoverSet_inv journal s → CoverSet_inv journal ls →
  (∀ f g, f ∈ ls → g ∈ s → Begin g < Begin f ∨ End f < End g) →
  ∀ s', extend_with_local s ls = Ret s' →
  CoverSet_inv journal s' ∧ (∀ o, covered s' o ↔ covered s o ∨ covered ls o).
Proof.
  revert s. induction ls as [|f ls IH]; intros s Hs Hls Hdis s' Hext.
  { injection Hext as <-. split; [done|]. intros o. pose proof (covered_nil o). tauto. }
  destruct Hls as [[Hsl Hlt]%StronglySorted_inv [Hwf Hw]%Forall_cons].
  destruct (Add_step journal s f) as (s1 & b & HA & Hs1 & Hc & Hel); [done|done| |].
  { apply (drops_only_last_disjoint journal); [done|]. intros g Hg. apply Hdis; set_solver. }
  unfold extend_with_local in Hext. cbn [outcome_fold] in Hext. rewrite HA in Hext. simpl in Hext.
  destruct b; [|done]. destruct (IH s1) with (s' := s') as [Hinv' Hc']; [done|by split| |done|].
  - intros f' g Hf' [Hg| ->]%Hel; [apply Hdis; set_solver|].
    rewrite Forall_forall in Hlt. destruct (Hlt _ Hf'). lia.
  - split; [done|]. intros o. rewrite Hc', Hc, covered_cons. tauto.
Qed.

(** When no local fragment contains a remote one, the index after
    [ReplaceRemote] is well-formed and covers exactly the offsets of the remote
    fragments and of the local ones it held: no local content becomes
    unreadable; a fragment that stays local has an offset the remote set lacks. *)
Theorem ReplaceRemote_covers journal fi remote fi' :
  Index_inv journal fi → CoverSet_inv journal remote →
  (∀ f g, f ∈ local fi → g ∈ remote → Begin g < Begin f ∨ End f < End g) →
  ReplaceRemote fi remote = Ret fi' →
  Index_inv journal fi' ∧
  (∀ o, covered (set fi') o ↔ covered remote o ∨ covered (local fi) o) ∧
  (∀ f, f ∈ local fi' ↔ f ∈ local fi ∧ ∃ o, in_frag o f ∧ ¬ covered remote o).
Proof.
  intros (_ & Hl & _ & Hfile) Hr Hdis. unfold ReplaceRemote.
  rewrite outcome_bind_Ret. intros (s' & Hext & [= <-]). simpl.
  pose proof (CoverSetDifference_sublist (local fi) remote) as Hsub.
  pose proof (λ f, CoverSetDifference_elem journal (local fi) remote f Hl Hr) as Hdiff.
  assert (CoverSet_inv journal (CoverSetDifference (local fi) remote)) as Hl'.
  { split; [by eapply ssorted_sublist; [exact Hsub|apply Hl]|].
    destruct Hl as [_ Hw]. rewrite Forall_forall in *. intros f [? _]%Hdiff. auto. }
  destruct (extend_covers journal remote _ Hr Hl') with (s' := s') as [Hs' Hc]; [|done|].
  { intros f g Hf Hg. apply Hdiff in Hf as [Hf _]. auto. }
  assert (∀ o, covered s' o ↔ covered remote o ∨ covered (local fi) o) as Hcov.
  { intros o. rewrite Hc. split; (intros [Ho|(f & Hf & Ho)]; [by left|]).
    - right. exists f. split; [|done]. by apply Hdiff in Hf as [? _].
    - destruct (decide (covered remote o)) as [?|Hn]; [by left|]. right. exists f.
      split; [|done]. apply Hdiff. split; [done|]. by exists o. }
  split; [|done]. split_and!; simpl; [done|done| |].
  - intros o Ho. apply Hc. by right.
  - rewrite Forall_forall in *. intros f [? _]%Hdiff. auto.
Qed.

(** ** Query *)

(** What an answer says about the index state [fi] that gave it. *)
Definition answers (fi : Index) (now offset : Z) (req : ReadRequest)
    (resp : ReadResponse) (file : option handle) : Prop :=
  rs_Header resp = None ∧ rs_Content resp = None ∧ rs_WriteHead resp = EndOffset (set fi) ∧
  match rs_Fragment resp with
  | Some f =>
      rs_Status resp = Status_OK ∧
      ∃ e, e ∈ set fi ∧ f = frag e ∧ file = File e ∧ in_frag (rs_Offset resp) e ∧
        ((rs_Offset resp = offset ∧ ∀ g, g ∈ set fi → in_frag offset g → End g ≤ End e) ∨
         (offset < rs_Offset resp ∧ (∀ o, offset ≤ o < rs_Offset resp → ¬ covered (set fi) o) ∧
          f_ModTime f ≠ 0 ∧ f_ModTime f < now - offsetJumpAgeThreshold))
  | None =>
      rs_Status resp = OFFSET_NOT_YET_AVAILABLE ∧ rs_Offset resp = offset ∧ file = None ∧
      rs_FragmentUrl resp = ""%string ∧ rr_Block req = false ∧ ¬ covered (set fi) offset
  end.

Lemma query_once_spec sign journal fi now req offset :
  CoverSet_inv journal (set fi) →
  match query_once sign fi now req offset with
  | Answered resp file err => answers fi now offset req resp file
  | Blocked offset' => offset' = offset ∧ rr_Block req = true ∧ ¬ covered (set fi) offset
  | Failed _ => False
  end.
Proof.
  intros Hinv. unfold query_once.
  pose proof (LongestOverlapping_spec journal (set fi) offset Hinv) as Hspec.
  destruct (LongestOverlappingFragment (set fi) offset) as [ind found].
  destruct Hspec as [Hind Hspec]. set (e := set fi !!! ind).
  destruct found; simpl.
  - destruct Hspec as (Hlt & Hin & Hmax).
    destruct (if _ && _ then _ else _) as [url err]. unfold answers; simpl.
    split_and!; [done..|]. exists e. split_and!; [by apply lookup_total_in|done..|]. left. split; [done|].
    intros g [i Hg]%list_elem_of_lookup Hog. pose proof (lookup_lt_Some _ _ _ Hg).
    rewrite <- (list_lookup_total_correct _ _ _ Hg) in *. apply (inv_le _ _ Hinv). split; [by apply Hmax|lia].
  - destruct Hspec as [Hlo Hhi].
    assert (∀ o, (ind < length (set fi))%nat → offset ≤ o < Begin e → ¬ covered (set fi) o) as Hgap.
    { intros o Hl Ho (i & Hi & Hoi)%covered_index. unfold in_frag, e in *.
      destruct (decide (i < ind)%nat); [specialize (Hlo i); lia|].
      destruct (inv_le _ _ Hinv ind i); lia. }
    assert (¬ covered (set fi) offset) as Hnc.
    { intros (i & Hi & Hoi)%covered_index. unfold in_frag in Hoi.
      destruct (decide (i < ind)%nat); [specialize (Hlo i); lia|specialize (Hhi i); lia]. }
    destruct (_ && _ && _) eqn:Hj; simpl.
    + rewrite !andb_true_iff, !negb_true_iff, Nat.eqb_neq, Z.eqb_neq, Z.ltb_lt in Hj.
      destruct Hj as [[Hne Hm1] Hm2]. assert (ind < length (set fi))%nat as Hlt by lia.
      destruct (if _ && _ then _ else _) as [url err]. unfold answers; simpl.
      split_and!; [done..|]. exists e. destruct (inv_wf _ _ Hinv ind Hlt) as (_ & _ & _ & ?).
      specialize (Hhi ind). split_and!; [by apply lookup_total_in|done|done|unfold in_frag, e; lia|].
      right. split_and!; [unfold e; lia|intros o Ho; by apply Hgap|done|done].
    + destruct (rr_Block req) eqn:HB; simpl; [done|]. unfold answers; simpl. by rewrite HB.
Qed.

Definition wake_inv (journal : Journal) (w : wake) : Prop :=
  match w with Woken fi _ => CoverSet_inv journal (set fi) | Cancelled _ => True end.

Lemma query_loop_spec sign journal req wakes fi now offset :
  CoverSet_inv journal (set fi) → Forall (wake_inv journal) wakes →
  match query_loop sign fi now req offset wakes with
  | Answered resp file err =>
      ∃ fi' now', (fi' = fi ∧ now' = now ∨ Woken fi' now' ∈ wakes) ∧
                  answers fi' now' offset req resp file
  | Blocked offset' => offset' = offset ∧ rr_Block req = true ∧ ¬ covered (set fi) offset ∧
                       ∀ fi' now', Woken fi' now' ∈ wakes → ¬ covered (set fi') offset
  | Failed err => rr_Block req = true ∧ Cancelled err ∈ wakes
  end.
Proof.
  revert fi now. induction wakes as [|w wakes IH]; intros fi now Hinv Hw; simpl;
    pose proof (query_once_spec sign journal fi now req offset Hinv) as H1;
    destruct (query_once sign fi now req offset) as [resp file err|err|offset'].
  1, 4: by exists fi, now; auto.
  1, 3: done.
  - destruct H1 as (-> & ? & ?). split_and!; [done..|]. set_solver.
  - destruct H1 as (-> & HB & Hnc). apply Forall_cons in Hw as [Hw0 Hw]. destruct w as [fi' now'|err].
    2:{ split; [done|]. set_solver. }
    specialize (IH fi' now' Hw0 Hw). destruct (query_loop sign fi' now' req offset wakes).
    + destruct IH as (fi2 & now2 & Hin & ?). exists fi2, now2. split; [|done]. right. set_solver.
    + set_solver.
    + destruct IH as (-> & _ & Hnc' & Hrest). split_and!; [done..|].
      intros fi2 now2 [Heq|?]%elem_of_cons; [by simplify_eq|eauto].
Qed.

(** An answer of [Query] is one of an index state it observed: a
    fragment of that state which covers the response offset and ends last among
    those that do, the offset being the requested one (the end of the index for
    -1) or, past a gap that nothing covers, the begin of a fragment older than
    the threshold. Without [Block] it answers at once; it stays blocked only if
    none of the states it woke up in covers the offset. *)
Theorem Query_correct sign journal fi now req wakes :
  CoverSet_inv journal (set fi) → Forall (wake_inv journal) wakes →
  let offset := if rr_Offset req =? -1 then EndOffset (set fi) else rr_Offset req in
  match Query sign fi now req wakes with
  | Answered resp file err =>
      ∃ fi' now', (fi' = fi ∧ now' = now ∨ Woken fi' now' ∈ wakes) ∧
                  answers fi' now' offset req resp file
  | Blocked offset' => offset' = offset ∧ rr_Block req = true ∧ ¬ covered (set fi) offset ∧
                       ∀ fi' now', Woken fi' now' ∈ wakes → ¬ covered (set fi') offset
  | Failed err => rr_Block req = true ∧ Cancelled err ∈ wakes
  end.
Proof. intros. by apply (query_loop_spec sign journal). Qed.

Lemma EndOffset_nonneg journal s :
  CoverSet_inv journal s → (∀ g, g ∈ s → 0 ≤ Begin g) → 0 ≤ EndOffset s.
Proof.
  intros [_ Hw] Hpos. destruct s as [|g s]; [done|].
  destruct (EndOffset_in (g :: s)) as (h & Hh & ->); [done|].
  rewrite Forall_forall in Hw. destruct (Hw _ Hh) as (_ & _ & _ & ?). specialize (Hpos h Hh). lia.
Qed.

(** The URL of an answer is a signed URL of its fragment. *)
Lemma query_loop_url SignGetURL fi now req o wakes resp file :
  query_loop SignGetURL fi now req o wakes = Answered resp file None →
  rs_FragmentUrl resp ≠ "" → ∃ f, rs_Fragment resp = Some f ∧ SignGetURL f = (rs_FragmentUrl resp, None).
Proof.
  revert fi now o. induction wakes as [|w wakes IH]; intros fi now o; cbn [query_loop]; destruct (query_once SignGetURL fi now req o) as [resp' file' err|?|?] eqn:Hq; try done.
  1, 2: intros [= -> -> ->] Hu; revert Hq; unfold query_once; destruct (LongestOverlappingFragment _ _) as [ind found]; cbn zeta.
  1, 2: destruct (found || _); [|destruct (rr_Block req); [done|by intros [= <- _]]].
  1, 2: destruct (negb _ && negb _); [destruct (SignGetURL _) as [url e] eqn:Hs|]; intros Hq; simplify_eq; by eexists.
  destruct w as [fi' now'|e]; [apply IH|done].
Qed.

(** C39: A response that [Query] returns without an error passes the validation which clients apply to
    it. In whatever states the index is found, it is a cover set of the journal, of fragments which validate and do not begin before zero; and signed URLs
    parse: those that [SignGetURL] returns for fragments of the index. *)
Theorem Query_response_valid `{UrlParser} sign journal fi now req wakes resp file :
  (∀ fi', fi' = fi ∨ (∃ now', Woken fi' now' ∈ wakes) →
     CoverSet_inv journal (set fi') ∧
     ∀ e, e ∈ set fi' → 0 ≤ Begin e ∧ Fragment_Validate (frag e) = None ∧
       ∀ url, sign (frag e) = (url, None) → url ≠ "" → ∃ u, url_Parse url = inl u) →
  Query sign fi now req wakes = Answered resp file None →
  ReadResponse_Validate resp = None.
Proof.
  intros Hst HQ. pose proof (query_loop_url _ _ _ _ _ _ _ _ HQ) as Hurl.
  assert (Forall (wake_inv journal) wakes) as Hw.
  { apply Forall_forall. intros [fi' now'|] Hin; simpl; [|done]. apply Hst. eauto. }
  pose proof (query_loop_spec sign journal req wakes fi now
    (if rr_Offset req =? -1 then EndOffset (set fi) else rr_Offset req)
    ltac:(apply Hst; by left) Hw) as Hspec.
  unfold Query in HQ. rewrite HQ in Hspec. destruct Hspec as (fi' & now' & Hin & Hh & Hc & Hwh & Hans).
  destruct (Hst fi') as [Hinv Hval]; [naive_solver|].
  assert (0 ≤ rs_WriteHead resp).
  { rewrite Hwh. apply (EndOffset_nonneg journal); [done|]. intros g Hg. by apply Hval. }
  unfold ReadResponse_Validate. rewrite Hc, Hh. unfold validateHeaderPtr.
  destruct (rs_Fragment resp) as [f|].
  - destruct Hans as (-> & e & He & -> & _ & [Ho1 Ho2] & _).
    destruct (Hval e He) as (_ & -> & Hsign). pose proof (EndOffset_max journal _ e Hinv He).
    autorewrite with validate. simpl. split_and!; try lia; [done..|].
    destruct (String.eqb_spec (rs_FragmentUrl resp) "") as [|Hne]; cbn; [done|]. destruct (Hurl Hne) as (f & [= <-] & Hs).
    by destruct (Hsign _ Hs Hne) as [u ->].
  - destruct Hans as (-> & _ & _ & -> & _). autorewrite with validate. simpl.
    split_and!; try lia; done.
Qed.

(** ** Walking stores *)

Lemma AddAll_ascending journal s l :
  CoverSet_inv journal s → Forall (frag_wf journal) l →
  StronglySorted (λ f g, Begin f ≤ Begin g) l →
  (∀ f g, f ∈ l → g ∈ s → Begin g ≤ Begin f) →
  ∃ s', AddAll s l = Ret s' ∧ CoverSet_inv journal s' ∧
        ∀ o, covered s' o ↔ covered s o ∨ covered l o.
Proof.
  revert s. induction l as [|f l IH]; intros s Hs Hw Hl Hle.
  { exists s. split_and!; [done..|]. intros o. pose proof (covered_nil o). tauto. }
  apply Forall_cons in Hw as [Hf Hw]. apply StronglySorted_inv in Hl as [Hl Hfl].
  destruct (Add_step journal s f) as (s1 & b & HA & Hs1 & Hc & Hel); [done|done| |].
  { apply (drops_only_last_after journal); [done|]. intros; apply Hle; set_solver. }
  destruct (IH s1) as (s' & HAA & Hs' & Hc'); [done..| |].
  { intros f' g Hf' [Hg| ->]%Hel; [apply Hle; set_solver|]. rewrite Forall_forall in Hfl. auto. }
  exists s'. unfold AddAll in *. cbn [outcome_fold]. rewrite HA. simpl. split_and!; [done..|].
  intros o. rewrite Hc', Hc, covered_cons. tauto.
Qed.

(** Walking one store whose listing ascends in [Begin], as a listing of
    content names in lexicographic order does, yields a well-formed set which covers
    exactly the listed fragments; a listing error discards the set. *)
Theorem WalkAllStores_single {store} (List : store → list Fragment * option string) st listing err journal :
  List st = (listing, err) →
  Forall (λ f, frag_wf journal (mkLFragment f None)) listing →
  StronglySorted (λ f g, f_Begin f ≤ f_Begin g) listing →
  ∃ s, WalkAllStores List [st] = Ret (s, err) ∧
    match err with
    | Some _ => s = []
    | None => CoverSet_inv journal s ∧
              ∀ o, covered s o ↔ ∃ f, f ∈ listing ∧ f_Begin f ≤ o < f_End f
    end.
Proof.
  intros HL Hw Hs. unfold WalkAllStores, walk. rewrite HL.
  destruct (AddAll_ascending journal [] (map (λ f, mkLFragment f None) listing))
    as (s & -> & Hinv & Hc).
  - by split; constructor.
  - apply Forall_fmap. done.
  - clear -Hs. induction Hs as [|a l Hs IH Ha]; constructor; [done|].
    apply Forall_fmap. done.
  - set_solver.
  - simpl. destruct err; eexists; split; [done|done|done|]. split; [done|].
    intros o. rewrite Hc. pose proof (covered_nil o). unfold covered at 2.
    setoid_rewrite list_elem_of_fmap. unfold in_frag. naive_solver.
Qed.

(** ** Concrete inputs *)

Definition demo_remote : CoverSet := [mkF 0 5; mkF 3 8].
Definition demo_local : LFragment := mkLFragment (mkFragment "a/journal" 8 12 SHA1Sum_zero Codec_NONE "" 0) (Some (Fd 0)).
Definition demo_index : Index := mkIndex (demo_remote ++ [demo_local]) [demo_local] 0 true.

Lemma demo_index_inv : Index_inv "a/journal" demo_index.
Proof.
  unfold Index_inv. split_and!; simpl; [solve_cover_inv..| |by repeat constructor].
  intros o (f & Hf & Ho). exists f. split; [|done]. apply list_elem_of_singleton in Hf as ->. set_solver.
Qed.

Lemma SpoolCommit_correct_witness :
  ∃ fi', SpoolCommit NewIndex demo_local = Ret fi' ∧ Index_inv "a/journal" fi' ∧
    (∀ o, covered (set fi') o ↔ covered (set NewIndex) o ∨ in_frag o demo_local) ∧ condCh fi' ≠ condCh NewIndex.
Proof.
  apply (SpoolCommit_correct "a/journal"); [apply NewIndex_inv| |by eexists|].
  - solve_cover_inv.
  - intros g [Hg|Hg]; by apply not_elem_of_nil in Hg.
Defined.

Lemma ReplaceRemote_no_panic_witness :
  ∃ fi', ReplaceRemote demo_index demo_remote = Ret fi' ∧ firstRefreshCh fi' = true.
Proof. apply (ReplaceRemote_no_panic "a/journal"); [apply demo_index_inv|apply demo_inv]. Defined.

Lemma ReplaceRemote_covers_witness :
  ∃ fi', ReplaceRemote demo_index demo_remote = Ret fi' ∧ Index_inv "a/journal" fi' ∧
  (∀ o, covered (set fi') o ↔ covered demo_remote o ∨ covered [demo_local] o) ∧
  (∀ f, f ∈ local fi' ↔ f ∈ [demo_local] ∧ ∃ o, in_frag o f ∧ ¬ covered demo_remote o).
Proof.
  eexists. split; [vm_compute; reflexivity|].
  apply (ReplaceRemote_covers "a/journal" demo_index demo_remote); [apply demo_index_inv|apply demo_inv| |vm_compute; reflexivity].
  intros f g Hf Hg. apply list_elem_of_singleton in Hf as ->. left.
  repeat (apply elem_of_cons in Hg as [-> |Hg]; [simpl; lia|]). by apply not_elem_of_nil in Hg.
Defined.

Definition demo_read : ReadRequest := mkReadRequest None "a/journal" 4 false false false.

Lemma Query_correct_witness :
  match Query (λ _, ("", None)) demo_index 0 demo_read [] with
  | Answered resp file err =>
      ∃ fi' now', (fi' = demo_index ∧ now' = 0 ∨ Woken fi' now' ∈ []) ∧ answers fi' now' 4 demo_read resp file
  | Blocked offset' => offset' = 4 ∧ rr_Block demo_read = true ∧ ¬ covered (set demo_index) 4 ∧
                       ∀ fi' now', Woken fi' now' ∈ [] → ¬ covered (set fi') 4
  | Failed err => rr_Block demo_read = true ∧ Cancelled err ∈ []
  end.
Proof. apply (Query_correct (λ _, ("", None)) "a/journal" demo_index 0 demo_read []); [apply demo_index_inv|constructor]. Defined.

(** A persisted fragment, of which URLs are signed; other strings do not parse. *)
Definition signed_index : Index :=
  mkIndex [mkLFragment (mkFragment "a/journal" 0 8 SHA1Sum_zero Codec_NONE "s3://bucket/" 7) None] [] 0 true.
Definition demo_sign (f : Fragment) : string * option string := ("https://bucket/" ++ f_Journal f, None)%string.
Definition demo_url : UrlParser := λ s,
  if String.prefix "https://" s then inl {| url_IsAbs := true; url_Scheme := "https"; url_Host := "bucket"; url_Path := s |} else inr "no scheme".

Lemma Query_response_valid_witness :
  ∃ resp file, Query demo_sign signed_index 0 demo_read [] = Answered resp file None ∧ rs_FragmentUrl resp = "https://bucket/a/journal" ∧
    @ReadResponse_Validate demo_url resp = None.
Proof.
  eexists _, _. split; [vm_compute; reflexivity|]. split; [reflexivity|].
  refine (@Query_response_valid demo_url demo_sign "a/journal" signed_index 0 demo_read [] _ _ _ _);
    [|vm_compute; reflexivity].
  intros fi' [-> |[now' Hin]]; [|by apply not_elem_of_nil in Hin]. split; [solve_cover_inv|].
  intros e [-> |He]%elem_of_cons; [|by apply not_elem_of_nil in He]. split; [simpl; lia|]. split; [vm_compute; reflexivity|].
  intros url [= <-] _. eexists. vm_compute. reflexivity.
Defined.

Definition demo_listing : list Fragment := [frag (mkF 0 5); frag (mkF 3 8)].

Lemma WalkAllStores_single_witness :
  ∃ s, WalkAllStores (λ _ : unit, (demo_listing, None)) [tt] = Ret (s, None) ∧
    CoverSet_inv "a/journal" s ∧ ∀ o, covered s o ↔ ∃ f, f ∈ demo_listing ∧ f_Begin f ≤ o < f_End f.
Proof.
  apply (WalkAllStores_single (λ _ : unit, (demo_listing, None)) tt demo_listing None "a/journal"); [done|..].
  - solve_cover_inv.
  - solve_cover_inv.
Defined.
