(* ===== verification/Spool.v ===== *)
(** * Spools (src/v2/pkg/fragment/spool.go, spool_unix.go)

    A [Spool] is the fragment a replica is writing, backed by a local file.
    Files live in a store shared with the readers of the index: a spool and an
    indexed fragment hold the same handle. The SHA-1 hash and its marshalled
    state are the bytes they have consumed; an open compressor is the content it
    was fed. The outcomes of filesystem calls are a list from which each round of
    a retry loop takes one; a loop that is still retrying when they run out is
    [IoRetry]. Calls to the observer are returned as events. *)
From S2P Require Import Prelude Encoding Protocol CoverSet.
Local Open Scope Z_scope.

(** ** Files *)

Record FS := mkFS { files : gmap nat bytes; next_fd : nat }.

(** The outcome of the filesystem calls of one round of a retry loop. *)
Inductive io :=
| IoOk
| IoCreateFail          (* ioutil.TempFile fails *)
| IoRemoveFail          (* the file is created, but os.Remove of its name fails *)
| IoFail (n : nat).     (* a write, seek, copy or close fails, after [n] bytes *)

Inductive ioresult (A : Type) :=
| IoRet (a : A)
| IoPanic (msg : string)
| IoRetry.
Arguments IoRet {A} a.
Arguments IoPanic {A} msg.
Arguments IoRetry {A}.

Definition io_bind {A B} (m : ioresult A) (k : A → ioresult B) : ioresult B :=
  match m with IoRet a => k a | IoPanic msg => IoPanic msg | IoRetry => IoRetry end.
Notation "'io!' x ':=' m 'in' k" := (io_bind m (λ x, k))
  (at level 10, x pattern, m at level 100, k at level 200) : go_scope.

Definition file_content (fs : FS) (f : option handle) : bytes :=
  match f with Some (Fd h) => default [] (files fs !! h) | _ => [] end.

(** [WriteAt]: a file is extended with zeros up to the offset. *)
Definition write_at (l : bytes) (off : nat) (data : bytes) : bytes :=
  take off l ++ replicate (off - length l) Byte.x00 ++ data ++ drop (off + length data) l.

Definition fs_write (fs : FS) (h off : nat) (data : bytes) : FS :=
  mkFS (<[h := write_at (default [] (files fs !! h)) off data]> (files fs)) (next_fd fs).

(** [newSpoolFile]: the returned [File] and whether there was an error. When
    [TempFile] fails, the nil [*os.File] it returns is stored in the interface. *)
Definition newSpoolFile (i : io) (fs : FS) : FS * option handle * bool :=
  match i with
  | IoCreateFail => (fs, Some NilFd, true)
  | _ => (mkFS (<[next_fd fs := []]> (files fs)) (S (next_fd fs)), Some (Fd (next_fd fs)),
          match i with IoRemoveFail => true | _ => false end)
  end.

(** ** State *)

Record Spool := mkSpool {
  sp_Fragment : LFragment;               (* Fragment at time of last commit. *)
  sp_FirstAppendTime : option Z;
  sp_compressedFile : option handle;
  sp_compressedLength : Z;
  sp_compressor : option bytes;          (* Content fed to the open compressor. *)
  sp_delta : Z;                          (* Offset of next byte to write, relative to End. *)
  sp_summer : bytes;                     (* Running SHA1, through End + delta. *)
  sp_sumState : bytes;                   (* SHA1 at the last commit. *)
}.

Inductive event :=
| EvCommit (f : LFragment)                     (* observer.SpoolCommit *)
| EvComplete (s : Spool) (primary : bool).     (* observer.SpoolComplete *)

Abbreviation sfrag s := (frag (sp_Fragment s)).

Definition NewSpool (journal : Journal) : Spool :=
  mkSpool (mkLFragment (mkFragment journal 0 0 SHA1Sum_zero Codec_NONE "" 0) None)
    None None 0 None 0 [] [].

(** [SHA1SumFromDigest(summer.Sum(nil))]; the zero sum for an empty fragment. *)
Definition Next (s : Spool) : Fragment :=
  let f := sfrag s in
  let end' := int64 (f_End f + sp_delta s) in
  mkFragment (f_Journal f) (f_Begin f) end'
    (if f_Begin f =? end' then SHA1Sum_zero else SHA1SumOf (sp_summer s))
    (f_CompressionCodec f) (f_BackingStore f) (f_ModTime f).

Definition saveSumState (s : Spool) : Spool :=
  mkSpool (sp_Fragment s) (sp_FirstAppendTime s) (sp_compressedFile s) (sp_compressedLength s)
    (sp_compressor s) (sp_delta s) (sp_summer s) (sp_summer s).

Definition restoreSumState (s : Spool) : Spool :=
  mkSpool (sp_Fragment s) (sp_FirstAppendTime s) (sp_compressedFile s) (sp_compressedLength s)
    (sp_compressor s) (sp_delta s) (sp_sumState s) (sp_sumState s).

Definition with_File (s : Spool) (f : option handle) : Spool :=
  mkSpool (mkLFragment (sfrag s) f) (sp_FirstAppendTime s) (sp_compressedFile s)
    (sp_compressedLength s) (sp_compressor s) (sp_delta s) (sp_summer s) (sp_sumState s).

Definition with_compression (s : Spool) (f : option handle) (len : Z) (c : option bytes) : Spool :=
  mkSpool (sp_Fragment s) (sp_FirstAppendTime s) f len c (sp_delta s) (sp_summer s) (sp_sumState s).

Definition with_delta (s : Spool) (d : Z) : Spool :=
  mkSpool (sp_Fragment s) (sp_FirstAppendTime s) (sp_compressedFile s) (sp_compressedLength s)
    (sp_compressor s) d (sp_summer s) (sp_sumState s).

Definition with_summer (s : Spool) (l : bytes) : Spool :=
  mkSpool (sp_Fragment s) (sp_FirstAppendTime s) (sp_compressedFile s) (sp_compressedLength s)
    (sp_compressor s) (sp_delta s) l (sp_sumState s).

Definition codec_is_none (s : Spool) : bool := bool_decide (f_CompressionCodec (sfrag s) = Codec_NONE).

(** ** Content *)

(** The retry loop of [applyContent]: create the file if there is none, write. *)
Fixpoint write_loop (ios : list io) (fs : FS) (s : Spool) (content : bytes)
    : ioresult (FS * Spool * list io) :=
  match ios with
  | [] => IoRetry
  | i :: ios =>
      let write fs s :=
        match File (sp_Fragment s) with
        | Some (Fd h) =>
            let off := Z.to_nat (int64 (ContentLength (sfrag s) + sp_delta s)) in
            match i with
            | IoFail n => write_loop ios (fs_write fs h off (take n content)) s content
            | _ => IoRet (fs_write fs h off content, s, ios)
            end
        | _ => write_loop ios fs s content    (* WriteAt of a nil file fails. *)
        end in
      match File (sp_Fragment s) with
      | None =>
          if negb (ContentLength (sfrag s) =? 0) then IoPanic "Spool.Fragment not empty."
          else
            let '(fs', f, failed) := newSpoolFile i fs in
            let s' := with_File s f in
            if failed then write_loop ios fs' s' content else write fs' s'
      | Some _ => write fs s
      end
  end.

Definition applyContent (ios : list io) (fs : FS) (s : Spool) (r : ReplicateRequest)
    : ioresult (FS * Spool * list io * option ValidationError) :=
  if negb (rq_ContentDelta r =? sp_delta s) then
    IoRet (fs, s, ios, NewValidationError "invalid ContentDelta (%d; expected %d)")
  else
    let content := default [] (rq_Content r) in
    io! (fs, s, ios) := write_loop ios fs s content in
    let s := with_summer s (sp_summer s ++ content) in
    let s := with_delta s (int64 (sp_delta s + Z.of_nat (length content))) in
    IoRet (fs, s, ios, None).

(** ** Compression *)

Section compression.
(** Output of the codec libraries for a content. *)
Context (encode : CompressionCodec → bytes → bytes).

(** [codecs.NewCodecWriter] knows the codec. *)
Definition codec_supported (c : CompressionCodec) : bool :=
  match c with Codec_INVALID | Codec_unnamed _ => false | _ => true end.

(** [io.NewSectionReader(s.File, off, n)], read to its end. *)
Definition section_content (fs : FS) (s : Spool) (off n : Z) : bytes :=
  take (Z.to_nat n) (drop (Z.to_nat off) (file_content fs (File (sp_Fragment s)))).

(** The loop of [compressThrough] that builds the compression from the start. *)
Fixpoint rebuild_loop (ios : list io) (fs : FS) (s : Spool) (end_ : Z)
    : ioresult (FS * Spool * list io) :=
  match ios with
  | [] => IoRetry
  | i :: ios =>
      let init fs s :=
        match sp_compressedFile s with
        | Some (Fd _) =>
            if negb (codec_supported (f_CompressionCodec (sfrag s)))
            then rebuild_loop ios fs (with_compression s (sp_compressedFile s) (sp_compressedLength s) None) end_
            else match i with
                 | IoFail _ =>
                     rebuild_loop ios fs (with_compression s (sp_compressedFile s) (sp_compressedLength s) None) end_
                 | _ =>
                     let fed := section_content fs s 0 (int64 (end_ - f_Begin (sfrag s))) in
                     IoRet (fs, with_compression s (sp_compressedFile s) (sp_compressedLength s) (Some fed), ios)
                 end
        | _ => rebuild_loop ios fs s end_      (* Seek of a nil file fails. *)
        end in
      match sp_compressedFile s with
      | None =>
          let '(fs', f, failed) := newSpoolFile i fs in
          let s' := with_compression s f (sp_compressedLength s) (sp_compressor s) in
          if failed then rebuild_loop ios fs' s' end_ else init fs' s'
      | Some _ => init fs s
      end
  end.

Definition compressThrough (ios : list io) (fs : FS) (s : Spool) (end_ : Z)
    : ioresult (FS * Spool * list io) :=
  if codec_is_none s then IoPanic "expected CompressionCodec != NONE"
  else
    match sp_compressor s with
    | Some fed =>
        match ios with
        | [] => IoRetry
        | IoFail _ :: ios =>
            rebuild_loop ios fs (with_compression s (sp_compressedFile s) (sp_compressedLength s) None) end_
        | _ :: ios =>
            let more := section_content fs s (ContentLength (sfrag s)) (int64 (end_ - f_End (sfrag s))) in
            IoRet (fs, with_compression s (sp_compressedFile s) (sp_compressedLength s) (Some (fed ++ more)), ios)
        end
    | None => rebuild_loop ios fs s end_
    end.

(** The loop of [finishCompression], with [fuel] rounds at most. *)
Fixpoint finish_loop (fuel : nat) (retry : bool) (ios : list io) (fs : FS) (s : Spool)
    : ioresult (FS * Spool * list io) :=
  match fuel with
  | O => IoRetry
  | S fuel =>
      io! (fs, s, ios) :=
        if retry then compressThrough ios fs s (f_End (sfrag s)) else IoRet (fs, s, ios) in
      match ios with
      | [] => IoRetry
      | IoFail _ :: ios =>
          finish_loop fuel true ios fs (with_compression s (sp_compressedFile s) (sp_compressedLength s) None)
      | _ :: ios =>
          let out := encode (f_CompressionCodec (sfrag s)) (default [] (sp_compressor s)) in
          let fs' := match sp_compressedFile s with
                     | Some (Fd h) => fs_write fs h 0 out
                     | _ => fs
                     end in
          IoRet (fs', with_compression s (sp_compressedFile s) (Z.of_nat (length out)) None, ios)
      end
  end.

Definition finishCompression (ios : list io) (fs : FS) (s : Spool)
    : ioresult (FS * Spool * list io) :=
  if codec_is_none s then IoPanic "expected CompressionCodec != NONE"
  else if negb (sp_compressedLength s =? 0) then IoRet (fs, s, ios)
  else
    io! (fs, s, ios) :=
      match sp_compressor s with
      | None => compressThrough ios fs s (f_End (sfrag s))
      | Some _ => IoRet (fs, s, ios)
      end in
    finish_loop (S (length ios)) false ios fs s.

(** ** Commits *)

Definition response (st : Status) (f : option Fragment) : ReplicateResponse :=
  mkReplicateResponse st None f.

(** The spool [*s = Spool{...}] to which a proposal rolls forward. *)
Definition rolled (s : Spool) (p : Fragment) : Spool :=
  mkSpool (mkLFragment (mkFragment (f_Journal (sfrag s)) (f_End p) (f_End p) SHA1Sum_zero
                          (f_CompressionCodec p) "" 0) None)
    None None 0 None 0 [] [].

Definition must_roll (s : Spool) (p : Fragment) : bool :=
  (int64 (f_End (sfrag s) + sp_delta s) <? f_End p) ||
  ((f_End p =? f_End (sfrag s)) && (ContentLength p =? 0)).

Definition roll (ios : list io) (fs : FS) (s : Spool) (p : Fragment) (primary : bool)
    : ioresult (FS * Spool * list io * list event) :=
  if must_roll s p then
    io! (fs, s, ios) :=
      match sp_compressor s with
      | Some _ => finishCompression ios fs s
      | None => IoRet (fs, s, ios)
      end in
    let evs := if negb (ContentLength (sfrag s) =? 0) then [EvComplete s primary] else [] in
    IoRet (fs, rolled s p, ios, evs)
  else IoRet (fs, s, ios, []).

Definition applyCommit (now : Z) (ios : list io) (fs : FS) (s : Spool) (p : Fragment) (primary : bool)
    : ioresult (FS * Spool * list io * list event * ReplicateResponse) :=
  io! (fs, s, ios, evs) := roll ios fs s p primary in
  (* Case 1: "undo" any partial content. *)
  if bool_decide (sfrag s = p) then
    IoRet (fs, restoreSumState (with_delta s 0), ios, evs, response Status_OK None)
  (* Case 2: apply the delta bytes spooled since last commit. *)
  else if bool_decide (Next s = p) then
    let next := Next s in
    io! (fs, s, ios) :=
      if primary && negb (codec_is_none s) then compressThrough ios fs s (f_End next)
      else IoRet (fs, s, ios) in
    let s := mkSpool (mkLFragment next (File (sp_Fragment s)))
               (match sp_FirstAppendTime s with None => Some now | t => t end)
               (sp_compressedFile s) (sp_compressedLength s) (sp_compressor s)
               0 (sp_summer s) (sp_sumState s) in
    IoRet (fs, saveSumState s, ios, evs ++ [EvCommit (sp_Fragment s)], response Status_OK None)
  (* This proposal cannot apply to our Spool. *)
  else IoRet (fs, s, ios, evs, response FRAGMENT_MISMATCH (Some (sfrag s))).

Definition Apply (now : Z) (ios : list io) (fs : FS) (s : Spool) (r : ReplicateRequest) (primary : bool)
    : ioresult (FS * Spool * list io * list event * ReplicateResponse * option ValidationError) :=
  match rq_Proposal r with
  | Some p =>
      io! (fs, s, ios, evs, resp) := applyCommit now ios fs s p primary in
      IoRet (fs, s, ios, evs, resp, None)
  | None =>
      io! (fs, s, ios, err) := applyContent ios fs s r in
      IoRet (fs, s, ios, [], response Status_OK None, err)
  end.

Definition MustApply (now : Z) (ios : list io) (fs : FS) (s : Spool) (r : ReplicateRequest)
    : ioresult (FS * Spool * list io * list event) :=
  io! (fs, s, ios, evs, resp, err) := Apply now ios fs s r false in
  match err with
  | Some e => IoPanic (Err e)
  | None =>
      if bool_decide (rp_Status resp = Status_OK) then IoRet (fs, s, ios, evs)
      else IoPanic "resp.Status != OK"
  end.
End compression.

(** ** Invariant *)

Definition clen (s : Spool) : Z := f_End (sfrag s) - f_Begin (sfrag s).
Definition cbytes (s : Spool) : nat := Z.to_nat (clen s).
Definition spooled (s : Spool) : nat := Z.to_nat (clen s + sp_delta s).

(** Handles are allocated in order, and never reused. *)
Definition FS_inv (fs : FS) : Prop := ∀ h, (next_fd fs ≤ h)%nat → files fs !! h = None.

Definition open_handle (fs : FS) (f : option handle) : Prop :=
  ∀ h, f = Some (Fd h) → is_Some (files fs !! h).

(** "At all times, the Spool Fragment is a consistent, valid Fragment": its sum
    is the SHA-1 of the committed prefix of its file, and the running hash is the one
    of everything spooled. *)
Record Spool_inv (fs : FS) (s : Spool) : Prop := {
  inv_bounds : 0 ≤ f_Begin (sfrag s) ≤ f_End (sfrag s);
  inv_delta : 0 ≤ sp_delta s ∧ f_End (sfrag s) + sp_delta s ≤ MaxInt64;
  inv_local : f_BackingStore (sfrag s) = ""%string ∧ f_ModTime (sfrag s) = 0;
  inv_length : (spooled s ≤ length (file_content fs (File (sp_Fragment s))))%nat;
  inv_summer : sp_summer s = take (spooled s) (file_content fs (File (sp_Fragment s)));
  inv_sumState : sp_sumState s = take (cbytes s) (file_content fs (File (sp_Fragment s)));
  inv_sum : f_Sum (sfrag s) =
    if f_Begin (sfrag s) =? f_End (sfrag s) then SHA1Sum_zero else SHA1SumOf (sp_sumState s);
  inv_open : open_handle fs (File (sp_Fragment s)) ∧ open_handle fs (sp_compressedFile s);
  inv_distinct : ∀ h, File (sp_Fragment s) = Some (Fd h) → sp_compressedFile s ≠ Some (Fd h);
  inv_compressor : is_Some (sp_compressor s) → codec_is_none s = false;
}.

(** What a step leaves alone: the files of others, and the committed prefix of
    the spool's own file, which readers of the index may hold; no file is lost. *)
Definition frame (s : Spool) (fs fs' : FS) : Prop :=
  (∀ h, is_Some (files fs !! h) → File (sp_Fragment s) ≠ Some (Fd h) → sp_compressedFile s ≠ Some (Fd h) →
        files fs' !! h = files fs !! h) ∧
  take (cbytes s) (file_content fs' (File (sp_Fragment s))) =
    take (cbytes s) (file_content fs (File (sp_Fragment s))) ∧
  (∀ h, is_Some (files fs !! h) → is_Some (files fs' !! h)).

(** A file other than the spool's own does not become its file. *)
Definition file_own_or_new (fs : FS) (s : Spool) (f : option handle) : Prop :=
  ∀ h, is_Some (files fs !! h) → File (sp_Fragment s) ≠ Some (Fd h) → f ≠ Some (Fd h).

Lemma ContentLength_id f : 0 ≤ f_Begin f ≤ f_End f → f_End f ≤ MaxInt64 →
  ContentLength f = f_End f - f_Begin f.
Proof. intros. unfold ContentLength. apply int64_id. unfold is_int64, MinInt64, MaxInt64 in *. lia. Qed.

Section inv_facts.
Context (fs : FS) (s : Spool) (Hinv : Spool_inv fs s).

Lemma inv_ContentLength : ContentLength (sfrag s) = clen s.
Proof. destruct Hinv. apply ContentLength_id; unfold MaxInt64 in *; lia. Qed.

Lemma inv_EndDelta : int64 (f_End (sfrag s) + sp_delta s) = f_End (sfrag s) + sp_delta s.
Proof. destruct Hinv. apply int64_id. unfold is_int64, MinInt64, MaxInt64 in *. lia. Qed.

Lemma inv_offset : Z.to_nat (int64 (ContentLength (sfrag s) + sp_delta s)) = spooled s.
Proof.
  rewrite inv_ContentLength. unfold spooled. f_equal. apply int64_id.
  destruct Hinv. unfold is_int64, MinInt64, MaxInt64, clen in *. lia.
Qed.

Lemma inv_no_file :
  (∀ h, File (sp_Fragment s) ≠ Some (Fd h)) → clen s = 0 ∧ sp_delta s = 0.
Proof.
  destruct Hinv. intros Hf. unfold spooled, clen in *.
  assert (file_content fs (File (sp_Fragment s)) = []) as Hc.
  { unfold file_content. destruct (File (sp_Fragment s)) as [[h|]|]; [by destruct (Hf h)|done..]. }
  rewrite Hc in inv_length0. simpl in *. lia.
Qed.
End inv_facts.

Lemma IoRet_inj {A} (a b : A) : IoRet a = IoRet b → a = b.
Proof. by intros [= ->]. Qed.

(** ** Writes *)

Lemma take_write_at l off data : (off ≤ length l)%nat → take off (write_at l off data) = take off l.
Proof. intros. unfold write_at. rewrite take_app_le by (rewrite length_take; lia). by rewrite take_take, Nat.min_id. Qed.

Lemma take_write_at_all l off data :
  (off ≤ length l)%nat → take (off + length data) (write_at l off data) = take off l ++ data.
Proof.
  intros. unfold write_at. replace (off - length l)%nat with 0%nat by lia. simpl.
  rewrite app_assoc, take_app_length'; [done|]. rewrite length_app, length_take. lia.
Qed.

Lemma length_write_at l off data :
  (off ≤ length l)%nat → (off + length data ≤ length (write_at l off data))%nat.
Proof.
  intros. unfold write_at. rewrite !length_app, length_take, length_replicate. lia.
Qed.

Lemma take_take_le {A} (l l' : list A) n m :
  (n ≤ m)%nat → take m l = take m l' → take n l = take n l'.
Proof. intros Hnm H. rewrite <- (Nat.min_l n m) by done. by rewrite <- !take_take, H. Qed.

Lemma file_content_write fs h off data f :
  file_content (fs_write fs h off data) f =
    if decide (f = Some (Fd h)) then write_at (file_content fs f) off data else file_content fs f.
Proof.
  unfold file_content, fs_write. simpl. destruct f as [[h'|]|]; try (by rewrite decide_False).
  rewrite lookup_insert. repeat case_decide; simplify_eq; done.
Qed.

Lemma FS_inv_write fs h off data :
  FS_inv fs → is_Some (files fs !! h) → FS_inv (fs_write fs h off data).
Proof.
  intros HF [c Hc] h' Hh'. unfold fs_write in *. simpl in *. rewrite lookup_insert_ne; [auto|].
  intros ->. rewrite HF in Hc by done. done.
Qed.

Lemma open_handle_write fs h off data f : open_handle fs f → open_handle (fs_write fs h off data) f.
Proof.
  intros Ho h' Hf. unfold fs_write. simpl. rewrite lookup_insert. case_decide; [done|]. by apply Ho.
Qed.

Lemma fs_write_grows fs h off data h' : is_Some (files fs !! h') → is_Some (files (fs_write fs h off data) !! h').
Proof. intros Hs. unfold fs_write. simpl. rewrite lookup_insert. by case_decide. Qed.

Lemma FS_inv_new fs i fs' f failed :
  FS_inv fs → newSpoolFile i fs = (fs', f, failed) →
  FS_inv fs' ∧ open_handle fs' f ∧ file_content fs' f = [] ∧
  (∀ h, is_Some (files fs !! h) → files fs' !! h = files fs !! h ∧ f ≠ Some (Fd h)) ∧
  (failed = false → ∃ h, f = Some (Fd h)).
Proof.
  intros HF Hn. assert (∀ h, is_Some (files fs !! h) → h ≠ next_fd fs) as Hne.
  { intros h [c Hc] ->. by rewrite HF in Hc. }
  assert (FS_inv (mkFS (<[next_fd fs := []]> (files fs)) (S (next_fd fs)))) as HF'.
  { intros h Hh. simpl in *. rewrite lookup_insert_ne by lia. apply HF. lia. }
  assert (open_handle (mkFS (<[next_fd fs := []]> (files fs)) (S (next_fd fs))) (Some (Fd (next_fd fs)))) as Ho.
  { intros h [= <-]. simpl. rewrite lookup_insert_eq. eauto. }
  assert (∀ h, is_Some (files fs !! h) → <[next_fd fs := []]> (files fs) !! h = files fs !! h ∧
               Some (Fd (next_fd fs)) ≠ Some (Fd h)) as Hold.
  { intros h Hh. specialize (Hne h Hh). rewrite lookup_insert_ne by congruence. split; congruence. }
  destruct i; simpl in Hn; simplify_eq; split_and!; try done; simpl; try (by eauto).
  all: by rewrite lookup_insert_eq.
Qed.

Lemma frame_refl s fs : frame s fs fs.
Proof. by split. Qed.

(** Bytes past everything spooled are not part of the state. *)
Lemma Spool_inv_write fs s h data :
  Spool_inv fs s → File (sp_Fragment s) = Some (Fd h) →
  Spool_inv (fs_write fs h (spooled s) data) s ∧ frame s fs (fs_write fs h (spooled s) data).
Proof.
  intros Hinv Hh. pose proof Hinv as [Hb Hd Hl Hlen Hsum Hst HS [Ho1 Ho2] Hdis Hc].
  set (fs' := fs_write _ _ _ _).
  assert (file_content fs' (File (sp_Fragment s)) =
          write_at (file_content fs (File (sp_Fragment s))) (spooled s) data) as Hfc.
  { unfold fs'. by rewrite file_content_write, decide_True. }
  assert (cbytes s ≤ spooled s)%nat as Hle. { unfold cbytes, spooled. lia. }
  assert (take (spooled s) (file_content fs' (File (sp_Fragment s))) =
          take (spooled s) (file_content fs (File (sp_Fragment s)))) as Htk.
  { rewrite Hfc. by apply take_write_at. }
  split.
  - split; try done.
    + rewrite Hfc. etransitivity; [|by apply length_write_at]. lia.
    + by rewrite Htk.
    + by rewrite (take_take_le _ _ _ _ Hle Htk).
    + split; by apply open_handle_write.
  - split_and!.
    + intros h' _ Hne _. unfold fs', fs_write. simpl. rewrite lookup_insert_ne; [done|congruence].
    + by apply (take_take_le _ _ _ _ Hle).
    + apply fs_write_grows.
Qed.

Lemma Spool_inv_new fs s i fs' f failed :
  FS_inv fs → Spool_inv fs s → File (sp_Fragment s) = None → newSpoolFile i fs = (fs', f, failed) →
  Spool_inv fs' (with_File s f).
Proof.
  intros HF Hinv Hn Hnew. destruct (FS_inv_new _ _ _ _ _ HF Hnew) as (_ & Ho & Hc & Hold & _).
  destruct (inv_no_file fs s Hinv) as [Hcl Hdl]; [by rewrite Hn|].
  pose proof Hinv as [Hb Hd Hl Hlen Hsum Hst HS [Ho1 Ho2] Hdis Hcm].
  assert (spooled (with_File s f) = 0%nat ∧ cbytes (with_File s f) = 0%nat) as [Hs0 Hc0].
  { unfold spooled, cbytes, clen in *. simpl. lia. }
  assert (spooled s = 0%nat ∧ cbytes s = 0%nat) as [Hs1 Hc1] by done.
  split; simpl; try done.
  - rewrite Hs0, Hc. simpl. lia.
  - by rewrite Hs0, Hc, Hsum, Hs1.
  - by rewrite Hc0, Hc, Hst, Hc1.
  - split; [done|]. intros h Hh. destruct (Hold h) as [-> _]; by apply Ho2.
  - intros h -> Hcf. destruct (Hold h) as [_ Hne]; [by apply Ho2|done].
Qed.

Definition write_done (s : Spool) (content : bytes) (fs fs' : FS) (s' : Spool) : Prop :=
  (∃ f, s' = with_File s f ∧ file_own_or_new fs s f) ∧
  take (spooled s + length content) (file_content fs' (File (sp_Fragment s'))) = sp_summer s ++ content ∧
  (spooled s + length content ≤ length (file_content fs' (File (sp_Fragment s'))))%nat.

Lemma with_File_id s : with_File s (File (sp_Fragment s)) = s.
Proof. by destruct s as [[]]. Qed.

Definition write_ok (s : Spool) (content : bytes) (fs : FS) (r : ioresult (FS * Spool * list io)) : Prop :=
  match r with
  | IoRet (fs', s', _) =>
      FS_inv fs' ∧ Spool_inv fs' s' ∧ frame s fs fs' ∧ write_done s content fs fs' s'
  | IoPanic _ => False
  | IoRetry => True
  end.

Lemma frame_trans s fs fs1 fs2 :
  frame s fs fs1 → frame s fs1 fs2 → frame s fs fs2.
Proof.
  intros (H1 & H1' & H1'') (H2 & H2' & H2''). split_and!; [|congruence|by auto].
  intros h Hs Hn1 Hn2. rewrite H2; [by apply H1|by apply H1''|done..].
Qed.

(** A round that finds a file open. *)
Lemma write_round ios i content fs s h :
  (∀ fs s, FS_inv fs → Spool_inv fs s → write_ok s content fs (write_loop ios fs s content)) →
  FS_inv fs → Spool_inv fs s → File (sp_Fragment s) = Some (Fd h) →
  write_ok s content fs
    match i with
    | IoFail n => write_loop ios (fs_write fs h (spooled s) (take n content)) s content
    | _ => IoRet (fs_write fs h (spooled s) content, s, ios)
    end.
Proof.
  intros IH HF Hinv Hh. pose proof (proj1 (inv_open _ _ Hinv) h Hh) as Hop.
  assert (write_done s content fs (fs_write fs h (spooled s) content) s) as Hdone.
  { split; [exists (File (sp_Fragment s)); by rewrite with_File_id; split; [|intros ???]|].
    rewrite file_content_write, decide_True by done. pose proof (inv_length _ _ Hinv).
    split; [|by apply length_write_at]. rewrite take_write_at_all by done. by rewrite (inv_summer _ _ Hinv). }
  destruct (Spool_inv_write fs s h content Hinv Hh) as [? ?].
  pose proof (FS_inv_write fs h (spooled s) content HF Hop).
  destruct i as [| | |n]; [done..|].
  destruct (Spool_inv_write fs s h (take n content) Hinv Hh) as [Hinv1 Hfr1].
  specialize (IH _ s (FS_inv_write fs h (spooled s) (take n content) HF Hop) Hinv1).
  destruct (write_loop ios _ s content) as [[[fs' s'] ios']| |]; [|done..].
  destruct IH as (? & ? & Hfr2 & Hd). split_and!; [done..|by eapply frame_trans|].
  destruct Hd as [(f & -> & Hn) ?]. split; [|done]. exists f. split; [done|].
  intros h' Hh'. apply Hn. by apply fs_write_grows.
Qed.

(** A round that had to create the file. *)
Lemma write_ok_new fs s i fs' f failed content r :
  FS_inv fs → Spool_inv fs s → File (sp_Fragment s) = None → newSpoolFile i fs = (fs', f, failed) →
  write_ok (with_File s f) content fs' r → write_ok s content fs r.
Proof.
  intros HF Hinv Hn Hnew Hr. destruct (FS_inv_new _ _ _ _ _ HF Hnew) as (_ & _ & _ & Hold & _).
  destruct (inv_no_file fs s Hinv) as [Hcl Hdl]; [by rewrite Hn|].
  destruct r as [[[fs2 s2] ios2]| |]; [|done..].
  destruct Hr as (? & ? & (Hfr & _ & Hgr) & (f' & -> & Hon) & Hd1 & Hd2). split_and!; [done..| |].
  - split_and!; [|by rewrite Hn|].
    + intros h Hs H1 H2. destruct (Hold h Hs) as [Heq Hne].
      rewrite <- Heq. apply Hfr; [by rewrite Heq|done|done].
    + intros h Hs. apply Hgr. by destruct (Hold h Hs) as [-> _].
  - split_and!; [|done..]. exists f'. split; [done|].
    intros h Hs _. destruct (Hold h Hs) as [Heq Hne]. apply Hon; [by rewrite Heq|done].
Qed.

Lemma write_loop_spec ios fs s content :
  FS_inv fs → Spool_inv fs s → write_ok s content fs (write_loop ios fs s content).
Proof.
  revert fs s. induction ios as [|i ios IH]; intros fs s HF Hinv; [done|].
  cbn [write_loop]. destruct (File (sp_Fragment s)) as [[h|]|] eqn:Hfile.
  - rewrite (inv_offset _ _ Hinv). by apply write_round.
  - by apply IH.
  - destruct (inv_no_file fs s Hinv) as [Hcl Hdl]; [by rewrite Hfile|].
    rewrite (inv_ContentLength _ _ Hinv), Hcl. simpl.
    destruct (newSpoolFile i fs) as [[fs' f] failed] eqn:Hnew.
    destruct (FS_inv_new _ _ _ _ _ HF Hnew) as (HF' & _ & _ & _ & Hok).
    pose proof (Spool_inv_new _ _ _ _ _ _ HF Hinv Hfile Hnew) as Hinv'.
    apply (write_ok_new _ _ _ _ _ _ _ _ HF Hinv Hfile Hnew).
    destruct failed; [by apply IH|]. destruct (Hok eq_refl) as [h ->].
    pose proof (inv_offset _ _ Hinv') as Ho. simpl in Ho |- *. rewrite Ho.
    by apply (write_round ios i content fs' (with_File s (Some (Fd h))) h).
Qed.

(** ** Compression touches no file but its own *)

Definition keeps (fs fs' : FS) : Prop := ∀ h, is_Some (files fs !! h) → files fs' !! h = files fs !! h.

Lemma keeps_content fs fs' f : keeps fs fs' → open_handle fs f → file_content fs' f = file_content fs f.
Proof. intros Hk Ho. destruct f as [[h|]|]; [|done..]. simpl. by rewrite Hk by (by apply Ho). Qed.

Lemma keeps_open fs fs' f : keeps fs fs' → open_handle fs f → open_handle fs' f.
Proof. intros Hk Ho h Hf. rewrite Hk; by apply Ho. Qed.

Lemma keeps_frame fs s fs' : Spool_inv fs s → keeps fs fs' → frame s fs fs'.
Proof.
  intros Hinv Hk. split_and!; [intros; by apply Hk| |intros h Hh; by rewrite Hk].
  by rewrite (keeps_content fs) by (done || apply Hinv).
Qed.

Lemma Spool_inv_compression fs s fs' f len c :
  Spool_inv fs s → keeps fs fs' → open_handle fs' f →
  (∀ h, File (sp_Fragment s) = Some (Fd h) → f ≠ Some (Fd h)) →
  (is_Some c → codec_is_none s = false) →
  Spool_inv fs' (with_compression s f len c).
Proof.
  intros Hinv Hk Ho Hd Hc. pose proof Hinv as [Hb Hdl Hl Hlen Hsum Hst HS [Ho1 Ho2] Hdis Hcm].
  pose proof (keeps_content fs fs' _ Hk Ho1) as Heq.
  assert (spooled (with_compression s f len c) = spooled s) as Hs by done.
  assert (cbytes (with_compression s f len c) = cbytes s) as Hcb by done.
  split; simpl; rewrite ?Hs, ?Hcb, ?Heq; try done. split; [by eapply keeps_open|done].
Qed.

Definition own_or_new (fs : FS) (s : Spool) (f : option handle) : Prop :=
  ∀ h, is_Some (files fs !! h) → sp_compressedFile s ≠ Some (Fd h) → f ≠ Some (Fd h).

Definition comp_ok (s : Spool) (fs : FS) (r : ioresult (FS * Spool * list io)) : Prop :=
  match r with
  | IoRet (fs', s', _) =>
      FS_inv fs' ∧ Spool_inv fs' s' ∧ keeps fs fs' ∧ own_or_new fs s (sp_compressedFile s') ∧
      ∃ f c, s' = with_compression s f (sp_compressedLength s) (Some c)
  | IoPanic _ => False
  | IoRetry => True
  end.

Lemma comp_ok_trans s fs f c fs' r :
  keeps fs fs' → own_or_new fs s f →
  comp_ok (with_compression s f (sp_compressedLength s) c) fs' r → comp_ok s fs r.
Proof.
  intros Hk Hn. destruct r as [[[fs2 s2] ?]| |]; [|done..]. intros (? & ? & Hk2 & Hn2 & f' & c' & ->).
  split_and!; [done..| | |by exists f', c'].
  - intros h Hh. rewrite Hk2 by (by rewrite Hk). by apply Hk.
  - intros h Hh Hne. apply Hn2; [by rewrite Hk|by apply Hn].
Qed.

Lemma keeps_refl fs : keeps fs fs. Proof. done. Qed.

Lemma with_compression_id s : with_compression s (sp_compressedFile s) (sp_compressedLength s) (sp_compressor s) = s.
Proof. by destruct s. Qed.

Lemma rebuild_loop_spec ios fs s end_ :
  FS_inv fs → Spool_inv fs s → codec_is_none s = false → comp_ok s fs (rebuild_loop ios fs s end_).
Proof.
  revert fs s. induction ios as [|i ios IH]; intros fs s HF Hinv Hcodec; [done|].
  assert (∀ fs s, FS_inv fs → Spool_inv fs s → codec_is_none s = false →
    comp_ok s fs match sp_compressedFile s with
    | Some (Fd _) =>
        if negb (codec_supported (f_CompressionCodec (sfrag s)))
        then rebuild_loop ios fs (with_compression s (sp_compressedFile s) (sp_compressedLength s) None) end_
        else match i with
             | IoFail _ =>
                 rebuild_loop ios fs (with_compression s (sp_compressedFile s) (sp_compressedLength s) None) end_
             | _ =>
                 let fed := section_content fs s 0 (int64 (end_ - f_Begin (sfrag s))) in
                 IoRet (fs, with_compression s (sp_compressedFile s) (sp_compressedLength s) (Some fed), ios)
             end
    | _ => rebuild_loop ios fs s end_
    end) as Hinit.
  { clear fs s HF Hinv Hcodec. intros fs s HF Hinv Hcodec.
    destruct (sp_compressedFile s) as [[h|]|] eqn:Hcf; [|by apply IH..].
    assert (∀ c, Spool_inv fs (with_compression s (Some (Fd h)) (sp_compressedLength s) c)) as Hi.
    { intros c. apply (Spool_inv_compression fs); [done..| | |done].
      - rewrite <- Hcf. apply Hinv.
      - rewrite <- Hcf. apply Hinv. }
    assert (comp_ok s fs (rebuild_loop ios fs
      (with_compression s (Some (Fd h)) (sp_compressedLength s) None) end_)) as Hretry.
    { eapply comp_ok_trans; [apply keeps_refl|intros ? _; by rewrite Hcf|]. by apply IH. }
    destruct (codec_supported _); [|done].
    destruct i; simpl; try done;
      (split_and!; [done|apply Hi|done|intros ? _; by rewrite Hcf|by eexists _, _]). }
  cbn [rebuild_loop]. destruct (sp_compressedFile s) as [hd|] eqn:Hcf.
  { specialize (Hinit fs s HF Hinv Hcodec). by rewrite Hcf in Hinit. }
  destruct (newSpoolFile i fs) as [[fs' f] failed] eqn:Hnew.
  destruct (FS_inv_new _ _ _ _ _ HF Hnew) as (HF' & Ho & _ & Hold & _).
  assert (keeps fs fs') as Hk by (intros h Hh; by apply Hold).
  assert (Spool_inv fs' (with_compression s f (sp_compressedLength s) (sp_compressor s))) as Hinv'.
  { apply (Spool_inv_compression fs); [done..| |intros; done].
    intros h Hh. destruct (Hold h) as [_ Hne]; [by apply (proj1 (inv_open _ _ Hinv))|exact Hne]. }
  apply (comp_ok_trans s fs f (sp_compressor s) fs'); [done|intros h Hh _; by apply Hold|].
  destruct failed; [by apply IH|by apply Hinit].
Qed.

Lemma compressThrough_spec ios fs s end_ :
  FS_inv fs → Spool_inv fs s → codec_is_none s = false → comp_ok s fs (compressThrough ios fs s end_).
Proof.
  intros HF Hinv Hcodec. unfold compressThrough. rewrite Hcodec.
  destruct (sp_compressor s) as [fed|] eqn:Hc; [|by apply rebuild_loop_spec].
  assert (∀ c, Spool_inv fs (with_compression s (sp_compressedFile s) (sp_compressedLength s) c)) as Hi.
  { intros c. apply (Spool_inv_compression fs);
      [done|apply keeps_refl|apply (inv_open _ _ Hinv)|apply (inv_distinct _ _ Hinv)|done]. }
  assert (∀ ios, comp_ok s fs (rebuild_loop ios fs
    (with_compression s (sp_compressedFile s) (sp_compressedLength s) None) end_)).
  { intros ios'. eapply comp_ok_trans; [apply keeps_refl|by intros ???|]. by apply rebuild_loop_spec. }
  destruct ios as [|[] ios]; simpl; try done; (split_and!; [done|apply Hi|done|by intros ???|by eexists _, _]).
Qed.

(** [finishCompression] leaves a completed spool: only its compression fields differ. *)
Definition finish_ok (s : Spool) (fs : FS) (r : ioresult (FS * Spool * list io)) : Prop :=
  match r with
  | IoRet (fs', s', _) => FS_inv fs' ∧ frame s fs fs' ∧ ∃ f len c, s' = with_compression s f len c
  | IoPanic _ => False
  | IoRetry => True
  end.

Lemma finish_ok_trans s fs f len c fs' r :
  Spool_inv fs s → keeps fs fs' → own_or_new fs s f →
  finish_ok (with_compression s f len c) fs' r → finish_ok s fs r.
Proof.
  intros Hinv Hk Hnew. destruct r as [[[fs2 s2] ?]| |]; [|done..].
  intros (? & (Hf1 & Hf2 & Hf3) & f' & len' & c' & ->). split_and!; [done| |by eexists _, _, _].
  split_and!.
  - intros h Hs H1 H2. rewrite <- (Hk h Hs). apply Hf1; [by rewrite Hk|done|by apply Hnew].
  - change (cbytes (with_compression s f len c)) with (cbytes s) in Hf2. simpl in Hf2.
    rewrite Hf2, (keeps_content fs); [done|done|apply Hinv].
  - intros h Hh. apply Hf3. by rewrite Hk.
Qed.


Lemma fs_write_own fs s h off out :
  Spool_inv fs s → sp_compressedFile s = Some (Fd h) → frame s fs (fs_write fs h off out).
Proof.
  intros Hinv Hh. split_and!; [| |apply fs_write_grows].
  - intros h' _ _ Hne. unfold fs_write. simpl. rewrite lookup_insert_ne; [done|congruence].
  - rewrite file_content_write, decide_False; [done|].
    intros Hf. by apply (inv_distinct _ _ Hinv h Hf).
Qed.

Lemma finish_loop_spec encode fuel retry ios fs s :
  FS_inv fs → Spool_inv fs s → codec_is_none s = false →
  finish_ok s fs (finish_loop encode fuel retry ios fs s).
Proof.
  revert retry ios fs s. induction fuel as [|fuel IH]; intros retry ios fs s HF Hinv Hcodec; [done|].
  assert (∀ ios fs s, FS_inv fs → Spool_inv fs s → codec_is_none s = false →
    finish_ok s fs match ios with
      | [] => IoRetry
      | IoFail _ :: ios =>
          finish_loop encode fuel true ios fs (with_compression s (sp_compressedFile s) (sp_compressedLength s) None)
      | _ :: ios =>
          let out := encode (f_CompressionCodec (sfrag s)) (default [] (sp_compressor s)) in
          let fs' := match sp_compressedFile s with Some (Fd h) => fs_write fs h 0 out | _ => fs end in
          IoRet (fs', with_compression s (sp_compressedFile s) (Z.of_nat (length out)) None, ios)
      end) as Hclose.
  { clear dependent fs s. intros ios' fs s HF Hinv Hcodec.
    set (out := encode _ _).
    set (fs' := match sp_compressedFile s with Some (Fd h) => fs_write fs h 0 out | _ => fs end).
    assert (FS_inv fs' ∧ frame s fs fs') as [HF' Hfr].
    { unfold fs'. destruct (sp_compressedFile s) as [[h|]|] eqn:Hcf; [|split; [done|apply frame_refl]..].
      split; [apply FS_inv_write; [done|by apply (inv_open _ _ Hinv)]|by apply fs_write_own]. }
    destruct ios' as [|[] ios']; simpl; try done; try (split_and!; [done..|by eexists _, _, _]).
    eapply finish_ok_trans; [done|apply keeps_refl|by intros ???|]. apply IH; [done| |done].
    by apply (Spool_inv_compression fs); [..|apply (inv_open _ _ Hinv)|apply (inv_distinct _ _ Hinv)|]. }
  cbn [finish_loop]. destruct retry; [|by apply Hclose].
  pose proof (compressThrough_spec ios fs s (f_End (sfrag s)) HF Hinv Hcodec) as Hct.
  destruct (compressThrough ios fs s _) as [[[fs1 s1] ios1]| |]; [|done..].
  destruct Hct as (HF1 & Hinv1 & Hk & Hn & f & c & ->). unfold io_bind.
  eapply (finish_ok_trans s fs f _ _ fs1); [done..|].
  by apply (Hclose ios1 fs1 (with_compression s f (sp_compressedLength s) (Some c))).
Qed.

Lemma finishCompression_spec encode ios fs s :
  FS_inv fs → Spool_inv fs s → codec_is_none s = false →
  finish_ok s fs (finishCompression encode ios fs s).
Proof.
  intros HF Hinv Hcodec. unfold finishCompression. rewrite Hcodec.
  destruct (negb _).
  { split_and!; [done|apply frame_refl|]. eexists _, _, _. symmetry. apply with_compression_id. }
  destruct (sp_compressor s) as [c0|] eqn:Hc; [by apply finish_loop_spec|].
  pose proof (compressThrough_spec ios fs s (f_End (sfrag s)) HF Hinv Hcodec) as Hct.
  destruct (compressThrough ios fs s _) as [[[fs1 s1] ios1]| |]; [|done..].
  destruct Hct as (HF1 & Hinv1 & Hk & Hn & f & c & ->). unfold io_bind.
  by eapply (finish_ok_trans s fs f _ _ fs1); [..|by apply finish_loop_spec].
Qed.

(** ** Commits preserve the invariant *)

(** Offsets of a proposal, as [Fragment_Validate] bounds them. *)
Definition proposal_ok (p : Fragment) : Prop := 0 ≤ f_Begin p ≤ f_End p ∧ f_End p ≤ MaxInt64.

(** An [EvCommit] carries a fragment that is the spool's; an [EvComplete] a
    spool with the committed content. *)
Lemma rolled_inv fs s p : proposal_ok p → Spool_inv fs (rolled s p).
Proof.
  intros [? ?]. split; simpl; try done; try lia.
  - unfold spooled, clen. simpl. lia.
  - by rewrite firstn_nil.
  - by rewrite firstn_nil.
  - by rewrite Z.eqb_refl.
Qed.

Definition roll_ok (s : Spool) (p : Fragment) (primary : bool) (fs : FS)
    (r : ioresult (FS * Spool * list io * list event)) : Prop :=
  match r with
  | IoRet (fs', s', _, evs) =>
      FS_inv fs' ∧ Spool_inv fs' s' ∧ frame s fs fs' ∧
      if must_roll s p then
        s' = rolled s p ∧
        if clen s =? 0 then evs = []
        else ∃ f len c, evs = [EvComplete (with_compression s f len c) primary]
      else fs' = fs ∧ s' = s ∧ evs = []
  | IoPanic _ => False
  | IoRetry => True
  end.

Lemma roll_spec encode ios fs s p primary :
  FS_inv fs → Spool_inv fs s → proposal_ok p →
  roll_ok s p primary fs (roll encode ios fs s p primary).
Proof.
  intros HF Hinv Hp. unfold roll. destruct (must_roll s p) eqn:Hm.
  2:{ simpl. rewrite Hm. by split_and!; [..|apply frame_refl| | |]. }
  assert (finish_ok s fs match sp_compressor s with
            | Some _ => finishCompression encode ios fs s | None => IoRet (fs, s, ios) end) as Hfin.
  { destruct (sp_compressor s) eqn:Hc.
    - apply finishCompression_spec; [done..|]. by apply (inv_compressor _ _ Hinv); rewrite Hc.
    - split_and!; [done|apply frame_refl|]. eexists _, _, _. symmetry. apply with_compression_id. }
  destruct (match sp_compressor s with Some _ => _ | None => _ end) as [[[fs1 s1] ios1]| |]; [|done..].
  destruct Hfin as (HF1 & Hfr & f & len & c & ->). simpl. rewrite Hm.
  split_and!; [done|by apply rolled_inv|done|done|].
  rewrite (inv_ContentLength _ _ Hinv). destruct (clen s =? 0); simpl; [done|by eexists _, _, _].
Qed.

(** ** What a spool promises

    Committed and pending bytes from an offset of a journal. A replica's answers
    and its observer's events are a function of these alone. *)

Record aSpool := mkA {
  a_Journal : Journal; a_Begin : Z; a_Codec : CompressionCodec;
  a_committed : bytes; a_pending : bytes
}.

Definition blen (l : bytes) : Z := Z.of_nat (length l).

Definition a_fragment (a : aSpool) : Fragment :=
  mkFragment (a_Journal a) (a_Begin a) (a_Begin a + blen (a_committed a))
    (if bool_decide (a_committed a = []) then SHA1Sum_zero else SHA1SumOf (a_committed a))
    (a_Codec a) "" 0.

Definition a_commit (a : aSpool) : aSpool :=
  mkA (a_Journal a) (a_Begin a) (a_Codec a) (a_committed a ++ a_pending a) [].
Definition a_rollback (a : aSpool) : aSpool :=
  mkA (a_Journal a) (a_Begin a) (a_Codec a) (a_committed a) [].
Definition a_append (a : aSpool) (l : bytes) : aSpool :=
  mkA (a_Journal a) (a_Begin a) (a_Codec a) (a_committed a) (a_pending a ++ l).

Inductive aevent :=
| ACommit (f : Fragment) (content : bytes)
| AComplete (f : Fragment) (content : bytes) (primary : bool).

Definition a_must_roll (a : aSpool) (p : Fragment) : bool :=
  bool_decide (f_End (a_fragment (a_commit a)) < f_End p) ||
  bool_decide (f_End p = f_End (a_fragment a) ∧ f_Begin p = f_End p).

Definition a_roll (a : aSpool) (p : Fragment) (primary : bool) : aSpool * list aevent :=
  if a_must_roll a p then
    (mkA (a_Journal a) (f_End p) (f_CompressionCodec p) [] [],
     if bool_decide (a_committed a = []) then [] else [AComplete (a_fragment a) (a_committed a) primary])
  else (a, []).

Definition aApply (a : aSpool) (r : ReplicateRequest) (primary : bool)
    : aSpool * list aevent * ReplicateResponse * option ValidationError :=
  match rq_Proposal r with
  | Some p =>
      let '(a, evs) := a_roll a p primary in
      if bool_decide (a_fragment a = p) then (a_rollback a, evs, response Status_OK None, None)
      else if bool_decide (a_fragment (a_commit a) = p) then
        (a_commit a, evs ++ [ACommit p (a_committed (a_commit a))], response Status_OK None, None)
      else (a, evs, response FRAGMENT_MISMATCH (Some (a_fragment a)), None)
  | None =>
      if bool_decide (rq_ContentDelta r = blen (a_pending a))
      then (a_append a (default [] (rq_Content r)), [], response Status_OK None, None)
      else (a, [], response Status_OK None, NewValidationError "invalid ContentDelta (%d; expected %d)")
  end.

Definition frag_content (fs : FS) (f : Fragment) (h : option handle) : bytes :=
  take (Z.to_nat (f_End f - f_Begin f)) (file_content fs h).

Definition abs (fs : FS) (s : Spool) : aSpool :=
  mkA (f_Journal (sfrag s)) (f_Begin (sfrag s)) (f_CompressionCodec (sfrag s))
    (frag_content fs (sfrag s) (File (sp_Fragment s)))
    (drop (cbytes s) (take (spooled s) (file_content fs (File (sp_Fragment s))))).

Definition abs_event (fs : FS) (e : event) : aevent :=
  match e with
  | EvCommit f => ACommit (frag f) (frag_content fs (frag f) (File f))
  | EvComplete s primary => AComplete (sfrag s) (frag_content fs (sfrag s) (File (sp_Fragment s))) primary
  end.

Section abs_facts.
Context (fs : FS) (s : Spool) (Hinv : Spool_inv fs s).

Lemma abs_committed : a_committed (abs fs s) = sp_sumState s.
Proof. symmetry. apply Hinv. Qed.

Lemma abs_all : a_committed (abs fs s) ++ a_pending (abs fs s) = sp_summer s.
Proof.
  simpl. rewrite (inv_summer _ _ Hinv). unfold frag_content. fold (clen s) (cbytes s).
  etrans; [|apply (take_drop (cbytes s))]. f_equal.
  rewrite take_take. f_equal. unfold cbytes, spooled. pose proof (inv_delta _ _ Hinv). lia.
Qed.

Lemma abs_lengths : blen (a_committed (abs fs s)) = clen s ∧ blen (a_pending (abs fs s)) = sp_delta s.
Proof.
  pose proof (inv_length _ _ Hinv). pose proof (inv_delta _ _ Hinv). pose proof (inv_bounds _ _ Hinv).
  unfold blen. simpl. unfold frag_content. rewrite length_drop, !length_take.
  unfold cbytes, spooled, clen in *. lia.
Qed.

Lemma bool_decide_nil (l : bytes) : bool_decide (l = []) = (blen l =? 0).
Proof. destruct l; [done|]. rewrite bool_decide_eq_false_2 by done. symmetry. apply Z.eqb_neq. unfold blen. simpl. lia. Qed.

Lemma abs_fragment : sfrag s = a_fragment (abs fs s).
Proof.
  destruct abs_lengths as [Hl _]. unfold a_fragment. rewrite Hl, bool_decide_nil, Hl.
  pose proof (inv_sum _ _ Hinv) as HS. rewrite abs_committed. simpl.
  destruct (inv_local _ _ Hinv) as [Hb Hm]. unfold clen in *.
  destruct (sfrag s) as [j b e sum c st mt]. simpl in *. subst. f_equal; [lia|].
  replace (e - b =? 0) with (b =? e); [done|]. destruct (Z.eqb_spec b e), (Z.eqb_spec (e - b) 0); lia.
Qed.

Lemma abs_Next : Next s = a_fragment (a_commit (abs fs s)).
Proof.
  destruct abs_lengths as [Hl Hp]. unfold Next. rewrite (inv_EndDelta _ _ Hinv).
  unfold a_fragment, a_commit. cbn [a_committed a_Begin a_Journal a_Codec].
  rewrite bool_decide_nil, abs_all. assert (blen (sp_summer s) = clen s + sp_delta s) as ->.
  { rewrite <- abs_all. unfold blen in *. rewrite length_app. lia. }
  destruct (inv_local _ _ Hinv) as [Hb Hm]. rewrite Hb, Hm. simpl. unfold clen. f_equal; [lia|].
  set (b := f_Begin _). set (e := f_End _).
  replace (e - b + sp_delta s =? 0) with (b =? e + sp_delta s); [done|].
  destruct (Z.eqb_spec b (e + sp_delta s)), (Z.eqb_spec (e - b + sp_delta s) 0); lia.
Qed.

Lemma abs_must_roll p : proposal_ok p → must_roll s p = a_must_roll (abs fs s) p.
Proof.
  intros [? ?]. unfold must_roll, a_must_roll. rewrite <- abs_fragment, <- abs_Next.
  rewrite ContentLength_id by done. unfold Next. cbn [f_End]. rewrite (inv_EndDelta _ _ Hinv). f_equal.
  - symmetry. apply eq_true_iff_eq. rewrite bool_decide_eq_true, Z.ltb_lt. done.
  - symmetry. apply eq_true_iff_eq. rewrite bool_decide_eq_true, andb_true_iff, !Z.eqb_eq. lia.
Qed.
End abs_facts.

(** Proposals are valid fragments, and content does not run past [MaxInt64]. *)
Definition request_ok (s : Spool) (r : ReplicateRequest) : Prop :=
  match rq_Proposal r with
  | Some p => proposal_ok p
  | None => f_End (sfrag s) + sp_delta s + blen (default [] (rq_Content r)) ≤ MaxInt64
  end.

Lemma drop_take_extend {A} (l l' : list A) n m data :
  (n ≤ m ≤ length l)%nat → take (m + length data) l' = take m l ++ data →
  drop n (take (m + length data) l') = drop n (take m l) ++ data ∧ take n l' = take n l.
Proof.
  intros Hn Ht. rewrite Ht. split.
  - rewrite drop_app_le; [done|]. rewrite length_take. lia.
  - apply (f_equal (take n)) in Ht. rewrite take_take, Nat.min_l in Ht by lia.
    rewrite Ht, take_app_le, take_take, Nat.min_l by (rewrite ?length_take; lia). done.
Qed.

(** The spool after a write: one more chunk pending. *)
Lemma pend_content fs s fs' s' content :
  Spool_inv fs s → Spool_inv fs' s' → write_done s content fs fs' s' →
  f_End (sfrag s) + sp_delta s + blen content ≤ MaxInt64 →
  let s'' := with_delta (with_summer s' (sp_summer s' ++ content))
               (int64 (sp_delta s' + Z.of_nat (length content))) in
  Spool_inv fs' s'' ∧ abs fs' s'' = a_append (abs fs s) content.
Proof.
  intros Hinv Hinv' [(f & -> & _) [Htk Hlen]] Hmax. simpl in Htk, Hlen.
  pose proof (inv_bounds _ _ Hinv). pose proof (inv_delta _ _ Hinv). pose proof (inv_length _ _ Hinv).
  simpl. unfold blen in Hmax.
  rewrite int64_id by (unfold is_int64, MinInt64, MaxInt64 in *; lia).
  set (s'' := with_delta _ _).
  assert (spooled s'' = spooled s + length content)%nat as Hsp.
  { unfold spooled, clen. simpl. unfold clen. lia. }
  assert (cbytes s'' = cbytes s) as Hcb by done.
  assert (cbytes s ≤ spooled s)%nat as Hcs by (unfold cbytes, spooled, clen; lia).
  rewrite (inv_summer _ _ Hinv) in Htk.
  destruct (drop_take_extend _ _ (cbytes s) _ _ (conj Hcs (inv_length _ _ Hinv)) Htk) as [Hpend Hcom].
  split.
  - pose proof Hinv' as [? Hd' ? ? ? Hst' HS' ? ? ?].
    split; simpl; rewrite ?Hsp, ?Hcb; try done; [lia|]. by rewrite Htk, (inv_summer _ _ Hinv).
  - unfold abs, a_append. simpl. f_equal.
    + unfold frag_content. apply Hcom.
    + by rewrite Hsp, Hcb, Hpend.
Qed.

(** The files of a spool after a step are its files before, or new; a file it keeps
    has at least the committed content it had. *)
Definition stable (fs : FS) (s s' : Spool) : Prop :=
  (∀ h, is_Some (files fs !! h) → File (sp_Fragment s') = Some (Fd h) →
        File (sp_Fragment s) = Some (Fd h) ∧ (cbytes s ≤ cbytes s')%nat) ∧
  own_or_new fs s (sp_compressedFile s').

Lemma applyContent_spec ios fs s r :
  FS_inv fs → Spool_inv fs s → rq_Proposal r = None → request_ok s r →
  match applyContent ios fs s r with
  | IoRet (fs', s', _, err) =>
      FS_inv fs' ∧ Spool_inv fs' s' ∧ frame s fs fs' ∧ stable fs s s' ∧
      (∀ primary, aApply (abs fs s) r primary = (abs fs' s', [], response Status_OK None, err))
  | IoPanic _ => False
  | IoRetry => True
  end.
Proof.
  intros HF Hinv Hp Hr. unfold request_ok in Hr. rewrite Hp in Hr. unfold applyContent, aApply. rewrite Hp.
  destruct (abs_lengths _ _ Hinv) as [_ ->].
  destruct (Z.eqb_spec (rq_ContentDelta r) (sp_delta s)) as [Hd|Hd]; simpl.
  2:{ rewrite bool_decide_eq_false_2 by done. by split_and!; [..|apply frame_refl|split; [done|by intros ???]|]. }
  rewrite bool_decide_eq_true_2 by done. set (content := default [] (rq_Content r)) in *.
  pose proof (write_loop_spec ios fs s content HF Hinv) as Hw.
  destruct (write_loop ios fs s content) as [[[fs' s'] ios']| |]; [|done..].
  destruct Hw as (HF' & Hinv' & Hfr & Hdone).
  destruct (pend_content _ _ _ _ _ Hinv Hinv' Hdone Hr) as [Hi Ha].
  simpl. split_and!; [done..| |intros _; by rewrite <- Ha].
  destruct Hdone as [(f & -> & Hn) _]. split; [|by intros ???]. intros h Hh Hf. split; [|done].
  destruct (decide (File (sp_Fragment s) = Some (Fd h))) as [|Hne]; [done|]. by destruct (Hn h Hh Hne).
Qed.

Lemma rollback_spec fs s : Spool_inv fs s →
  Spool_inv fs (restoreSumState (with_delta s 0)) ∧
  abs fs (restoreSumState (with_delta s 0)) = a_rollback (abs fs s).
Proof.
  intros Hinv. pose proof Hinv as [Hb Hd Hl Hlen Hsum Hst HS Ho Hdi Hc].
  set (s' := restoreSumState _). assert (spooled s' = cbytes s) as Hs.
  { unfold spooled, cbytes, clen. simpl. f_equal. lia. }
  assert (cbytes s' = cbytes s) as Hcb by done.
  assert (cbytes s ≤ spooled s)%nat as Hcs by (unfold cbytes, spooled, clen; lia).
  split.
  - split; rewrite ?Hs, ?Hcb; simpl; try done; lia.
  - unfold abs, a_rollback. rewrite Hs, Hcb. simpl. f_equal.
    apply drop_ge. rewrite length_take. lia.
Qed.

(** The state a commit of [Next] leaves. *)
Definition committed (s : Spool) (t : option Z) : Spool :=
  mkSpool (mkLFragment (Next s) (File (sp_Fragment s))) t
    (sp_compressedFile s) (sp_compressedLength s) (sp_compressor s) 0 (sp_summer s) (sp_summer s).

Lemma commit_spec fs s t : Spool_inv fs s →
  Spool_inv fs (committed s t) ∧ abs fs (committed s t) = a_commit (abs fs s).
Proof.
  intros Hinv. pose proof Hinv as [Hb Hd Hl Hlen Hsum Hst HS Ho Hdi Hc].
  pose proof (inv_EndDelta _ _ Hinv) as He.
  set (s' := committed s t).
  assert (f_End (sfrag s') = f_End (sfrag s) + sp_delta s) as He' by done.
  assert (clen s' = clen s + sp_delta s) as Hcl. { unfold clen. rewrite He'. simpl. lia. }
  assert (cbytes s' = spooled s) as Hcb. { unfold cbytes. by rewrite Hcl. }
  assert (spooled s' = spooled s) as Hs. { unfold spooled. rewrite Hcl. simpl. f_equal. lia. }
  split.
  - split; rewrite ?Hs, ?Hcb, ?He'; simpl; try done; try lia. rewrite He. done.
  - unfold abs, a_commit. rewrite Hs, Hcb. unfold frag_content. fold (clen s') (cbytes s'). rewrite Hcb.
    simpl. f_equal.
    + etrans; [|symmetry; apply (abs_all fs s Hinv)]. by rewrite Hsum.
    + apply drop_ge. rewrite length_take. lia.
Qed.

Lemma committed_stable fs s f len c t :
  Spool_inv fs s → own_or_new fs s f → stable fs s (committed (with_compression s f len c) t).
Proof.
  intros Hinv Hon. split; [|done]. intros h _ Hf. split; [done|].
  pose proof (inv_EndDelta _ _ Hinv). pose proof (inv_delta _ _ Hinv).
  unfold cbytes, clen. simpl. lia.
Qed.

Definition apply_ok (s : Spool) (fs : FS) (a : aSpool) (r : ReplicateRequest) (primary : bool)
    (res : ioresult (FS * Spool * list io * list event * ReplicateResponse * option ValidationError)) : Prop :=
  match res with
  | IoRet (fs', s', _, evs, resp, err) =>
      FS_inv fs' ∧ Spool_inv fs' s' ∧ frame s fs fs' ∧ stable fs s s' ∧
      aApply a r primary = (abs fs' s', map (abs_event fs') evs, resp, err)
  | IoPanic _ => False
  | IoRetry => True
  end.

(** The events of a roll, seen abstractly. *)
Lemma roll_abs s p primary fs fs' s' ios' evs :
  FS_inv fs → Spool_inv fs s → proposal_ok p →
  roll_ok s p primary fs (IoRet (fs', s', ios', evs)) →
  a_roll (abs fs s) p primary = (abs fs' s', map (abs_event fs') evs).
Proof.
  intros HF Hinv Hp (_ & Hinv' & (_ & Hfr & _) & Hr). unfold a_roll.
  rewrite <- (abs_must_roll fs s Hinv) by done. destruct (must_roll s p).
  2:{ by destruct Hr as (-> & -> & ->). }
  destruct Hr as [-> Hev]. f_equal.
  { unfold abs. simpl. f_equal; unfold frag_content; simpl; by rewrite ?take_nil, ?drop_nil. }
  rewrite bool_decide_nil. destruct (abs_lengths _ _ Hinv) as [-> _].
  destruct (clen s =? 0); [by rewrite Hev|]. destruct Hev as (f & len & c & ->). simpl.
  rewrite <- (abs_fragment _ _ Hinv). f_equal. f_equal. unfold frag_content. by apply symmetry.
Qed.

Lemma abs_compression fs s fs' f len c :
  Spool_inv fs s → keeps fs fs' → abs fs' (with_compression s f len c) = abs fs s.
Proof.
  intros Hinv Hk. unfold abs, frag_content. simpl.
  by rewrite (keeps_content fs) by (done || apply (inv_open _ _ Hinv)).
Qed.

Lemma Next_rolled s p : proposal_ok p → Next (rolled s p) = sfrag (rolled s p).
Proof.
  intros [? ?]. unfold Next. simpl. rewrite Z.add_0_r.
  rewrite int64_id by (unfold is_int64, MinInt64, MaxInt64 in *; lia). by rewrite Z.eqb_refl.
Qed.

Lemma roll_stable s p primary fs fs' s' ios' evs :
  roll_ok s p primary fs (IoRet (fs', s', ios', evs)) → stable fs s s'.
Proof.
  intros (_ & _ & _ & Hr). destruct (must_roll s p).
  - destruct Hr as [-> _]. split; [done|by intros ???].
  - destruct Hr as (_ & -> & _). split; [done|by intros ???].
Qed.

(** A commit that extends the spool was preceded by no roll. *)
Lemma roll_extend s p primary fs fs' s' ios' evs :
  proposal_ok p → roll_ok s p primary fs (IoRet (fs', s', ios', evs)) →
  sfrag s' ≠ p → Next s' = p → fs' = fs ∧ s' = s ∧ evs = [].
Proof.
  intros Hp (_ & _ & _ & Hr) Hne Hnx. destruct (must_roll s p); [|done].
  destruct Hr as [-> _]. by rewrite Next_rolled in Hnx.
Qed.

Lemma applyCommit_spec encode now ios fs s p primary r :
  FS_inv fs → Spool_inv fs s → proposal_ok p → rq_Proposal r = Some p →
  match applyCommit encode now ios fs s p primary with
  | IoRet (fs', s', ios', evs, resp) => apply_ok s fs (abs fs s) r primary (IoRet (fs', s', ios', evs, resp, None))
  | IoPanic _ => False
  | IoRetry => True
  end.
Proof.
  intros HF Hinv Hp Hr. unfold applyCommit, apply_ok, aApply. rewrite Hr.
  pose proof (roll_spec encode ios fs s p primary HF Hinv Hp) as Hroll.
  destruct (roll encode ios fs s p primary) as [[[[fs1 s1] ios1] evs]| |]; [|done..].
  pose proof (roll_abs _ _ _ _ _ _ _ _ HF Hinv Hp Hroll) as ->.
  pose proof Hroll as (HF1 & Hinv1 & Hfr1 & _). unfold io_bind at 1.
  rewrite <- (abs_fragment _ _ Hinv1), <- (abs_Next _ _ Hinv1).
  pose proof (roll_stable _ _ _ _ _ _ _ _ Hroll) as Hst1.
  case_bool_decide as Hcase1.
  { destruct (rollback_spec _ _ Hinv1) as [? ->]. done. }
  case_bool_decide as Hcase2; [|done].
  destruct (roll_extend _ _ _ _ _ _ _ _ Hp Hroll Hcase1 Hcase2) as (-> & -> & ->).
  set (comp := if primary && _ then _ else _).
  assert (match comp with
          | IoRet (fs2, s2, _) => FS_inv fs2 ∧ Spool_inv fs2 s2 ∧ keeps fs fs2 ∧
              own_or_new fs s (sp_compressedFile s2) ∧
              ∃ f len c, s2 = with_compression s f len c
          | IoPanic _ => False | IoRetry => True end) as Hcomp.
  { unfold comp. destruct (primary && negb (codec_is_none s)) eqn:Hcn.
    - apply andb_true_iff in Hcn as [_ Hcn%negb_true_iff].
      pose proof (compressThrough_spec ios1 fs s (f_End (Next s)) HF Hinv Hcn) as Hct.
      destruct (compressThrough _ _ _ _) as [[[fs2 s2] ?]| |]; [|done..].
      destruct Hct as (? & ? & ? & ? & f & c & ->). split_and!; [done..|by eexists _, _, _].
    - split_and!; [done..|by intros ???|]. eexists _, _, _. symmetry. apply with_compression_id. }
  destruct comp as [[[fs2 s2] ios2]| |]; [|done..].
  destruct Hcomp as (HF2 & Hinv2 & Hk & Hon & f & len & c & ->). unfold io_bind.
  set (t := match sp_FirstAppendTime _ with None => _ | _ => _ end).
  destruct (commit_spec fs2 _ t Hinv2) as [Hinv3 Habs3].
  change (Next s) with (Next (with_compression s f len c)).
  split_and!; [done|exact Hinv3|by apply keeps_frame|by apply (committed_stable fs)|].
  change (saveSumState _) with (committed (with_compression s f len c) t).
  rewrite Habs3, (abs_compression fs) by done. f_equal. f_equal. f_equal.
  cbn [map app abs_event sp_Fragment saveSumState]. f_equal. f_equal; [done|].
  pose proof (abs_committed _ _ Hinv3) as Hc. rewrite Habs3, (abs_compression fs) in Hc by done.
  rewrite Hc. exact (inv_sumState _ _ Hinv3).
Qed.

(** A spool refines its abstract specification: whatever the filesystem does,
    [Apply] either is still retrying or gives the specified answer, never a panic. *)
Lemma Apply_spec encode now ios fs s r primary :
  FS_inv fs → Spool_inv fs s → request_ok s r →
  apply_ok s fs (abs fs s) r primary (Apply encode now ios fs s r primary).
Proof.
  intros HF Hinv Hr. unfold Apply. destruct (rq_Proposal r) as [p|] eqn:Hp.
  - assert (proposal_ok p) as Hpo. { unfold request_ok in Hr. by rewrite Hp in Hr. }
    pose proof (applyCommit_spec encode now ios fs s p primary r HF Hinv Hpo Hp) as Hc.
    destruct (applyCommit _ _ _ _ _ _ _) as [[[[[fs' s'] ios'] evs] resp]| |]; done.
  - pose proof (applyContent_spec ios fs s r HF Hinv Hp Hr) as Hc.
    destruct (applyContent _ _ _ _) as [[[[fs' s'] ios'] err]| |]; [|done..].
    destruct Hc as (? & ? & ? & ? & Ha). simpl. by rewrite Ha.
Qed.

(** C6: a spool refines its specification. Whatever the filesystem does, [Apply]
    either is still retrying or leaves a consistent spool, whose committed and pending
    bytes, answer, error and observer events are those [aApply] specifies; it leaves
    committed bytes and the files of others alone, and never panics. *)
Theorem Apply_refines encode now ios fs s r primary :
  FS_inv fs → Spool_inv fs s → request_ok s r →
  match Apply encode now ios fs s r primary with
  | IoRet (fs', s', _, evs, resp, err) =>
      FS_inv fs' ∧ Spool_inv fs' s' ∧ frame s fs fs' ∧
      aApply (abs fs s) r primary = (abs fs' s', map (abs_event fs') evs, resp, err)
  | IoPanic _ => False
  | IoRetry => True
  end.
Proof.
  intros HF Hinv Hr. pose proof (Apply_spec encode now ios fs s r primary HF Hinv Hr) as Ha.
  destruct (Apply _ _ _ _ _ _ _) as [[[[[[fs' s'] ios'] evs] resp] err]| |]; [|done..].
  by destruct Ha as (? & ? & ? & _ & ?).
Qed.

(** ** Runs of a spool *)

Section runs.
Context (encode : CompressionCodec → bytes → bytes).

Definition spool_step (c c' : FS * Spool) : Prop :=
  ∃ now ios r primary ios' evs resp err,
    request_ok c.2 r ∧
    Apply encode now ios c.1 c.2 r primary = IoRet (c'.1, c'.2, ios', evs, resp, err).

Definition config_inv (c : FS * Spool) : Prop := FS_inv c.1 ∧ Spool_inv c.1 c.2.

Lemma spool_step_spec c c' :
  config_inv c → spool_step c c' → config_inv c' ∧ frame c.2 c.1 c'.1 ∧ stable c.1 c.2 c'.2.
Proof.
  intros [HF Hinv] (now & ios & r & primary & ios' & evs & resp & err & Hr & Ha).
  pose proof (Apply_spec encode now ios c.1 c.2 r primary HF Hinv Hr) as Hs. rewrite Ha in Hs.
  destruct Hs as (? & ? & ? & ? & _). by split_and!.
Qed.

(** The first [n] bytes of file [h] are settled: [h] belongs to another, or they are committed. *)
Definition settled (n h : nat) (c : FS * Spool) : Prop :=
  is_Some (files c.1 !! h) ∧ sp_compressedFile c.2 ≠ Some (Fd h) ∧
  (File (sp_Fragment c.2) = Some (Fd h) → (n ≤ cbytes c.2)%nat).

Lemma settled_step n h c c' :
  config_inv c → spool_step c c' → settled n h c →
  settled n h c' ∧ take n (file_content c'.1 (Some (Fd h))) = take n (file_content c.1 (Some (Fd h))).
Proof.
  intros Hc Hstep (Ho & Hn & Hf). destruct (spool_step_spec _ _ Hc Hstep) as (_ & (F1 & F2 & F3) & S1 & S2).
  split; [split_and!|].
  - by apply F3.
  - by apply S2.
  - intros Hf'. destruct (S1 h Ho Hf') as [Hf0 ?]. specialize (Hf Hf0). lia.
  - destruct (decide (File (sp_Fragment c.2) = Some (Fd h))) as [Heq|Hne].
    + rewrite Heq in F2. by apply (take_take_le _ _ _ _ (Hf Heq)).
    + simpl. by rewrite F1.
Qed.

Lemma settled_run n h c c' :
  rtc spool_step c c' → config_inv c → settled n h c →
  take n (file_content c'.1 (Some (Fd h))) = take n (file_content c.1 (Some (Fd h))).
Proof.
  induction 1 as [|c c1 c2 Hstep _ IH]; [done|]. intros Hc Hs.
  destruct (settled_step _ _ _ _ Hc Hstep Hs) as [Hs1 <-].
  destruct (spool_step_spec _ _ Hc Hstep) as [Hc1 _]. by apply IH.
Qed.

(** A committed fragment is immutable: through any run of requests, whether
    they append, commit, roll back or roll the spool forward, a reader holding the
    fragment and its file reads the content that was committed. *)
Theorem committed_content_immutable fs s fs' s' :
  rtc spool_step (fs, s) (fs', s') → FS_inv fs → Spool_inv fs s →
  frag_content fs' (sfrag s) (File (sp_Fragment s)) = frag_content fs (sfrag s) (File (sp_Fragment s)).
Proof.
  intros Hrun HF Hinv. unfold frag_content. fold (clen s) (cbytes s).
  destruct (File (sp_Fragment s)) as [[h|]|] eqn:Hf; [|done..].
  apply (settled_run (cbytes s) h _ _ Hrun); [done|]. split_and!; simpl.
  - by apply (proj1 (inv_open _ _ Hinv)).
  - by apply (inv_distinct _ _ Hinv).
  - done.
Qed.
End runs.

(** ** Agreement of replicas *)

Lemma aApply_ok a r primary a' evs resp err p :
  aApply a r primary = (a', evs, resp, err) → rq_Proposal r = Some p → rp_Status resp = Status_OK →
  a_fragment a' = p ∧ a_pending a' = [].
Proof.
  unfold aApply. intros Ha Hp Hok. rewrite Hp in Ha. destruct (a_roll a p primary) as [a1 evs1].
  case_bool_decide as H1; [by simplify_eq|]. case_bool_decide as H2; [by simplify_eq/=|]. by simplify_eq.
Qed.

Definition holds (fs : FS) (s : Spool) (p : Fragment) : Prop :=
  let content := frag_content fs (sfrag s) (File (sp_Fragment s)) in
  sfrag s = p ∧ sp_delta s = 0 ∧ blen content = f_End p - f_Begin p ∧
  (f_Begin p ≠ f_End p → SHA1SumOf content = f_Sum p).

Lemma Apply_accepted encode now ios fs s r p pr fs' s' ios' evs resp err :
  FS_inv fs → Spool_inv fs s → rq_Proposal r = Some p → proposal_ok p →
  Apply encode now ios fs s r pr = IoRet (fs', s', ios', evs, resp, err) →
  rp_Status resp = Status_OK → holds fs' s' p.
Proof.
  intros HF Hinv Hp Hpo Ha Hok.
  assert (request_ok s r) as Hr by (unfold request_ok; by rewrite Hp).
  pose proof (Apply_spec encode now ios fs s r pr HF Hinv Hr) as Hs. rewrite Ha in Hs.
  destruct Hs as (_ & Hinv' & _ & _ & Has).
  destruct (aApply_ok _ _ _ _ _ _ _ _ Has Hp Hok) as [Hfr Hpe].
  rewrite <- (abs_fragment _ _ Hinv') in Hfr. destruct (abs_lengths _ _ Hinv') as [Hl Hd].
  rewrite Hpe in Hd. unfold holds. change (frag_content _ _ _) with (a_committed (abs fs' s')).
  split_and!; [done|done| |].
  - rewrite Hl. unfold clen. by rewrite Hfr.
  - intros Hne. rewrite (abs_committed _ _ Hinv'). pose proof (inv_sum _ _ Hinv') as HS.
    rewrite Hfr in HS. rewrite HS. by destruct (Z.eqb_spec (f_Begin p) (f_End p)).
Qed.

(** Replicas agree. If two replicas, in whatever states, accept one proposal then
    both have committed exactly that fragment with nothing pending, and hold
    contents of its length and SHA-1. *)
Theorem replicas_agree encode1 encode2 now1 now2 ios1 ios2 fs1 fs2 s1 s2 r p pr1 pr2
    fs1' s1' ios1' evs1 resp1 err1 fs2' s2' ios2' evs2 resp2 err2 :
  FS_inv fs1 → Spool_inv fs1 s1 → FS_inv fs2 → Spool_inv fs2 s2 →
  rq_Proposal r = Some p → proposal_ok p →
  Apply encode1 now1 ios1 fs1 s1 r pr1 = IoRet (fs1', s1', ios1', evs1, resp1, err1) →
  Apply encode2 now2 ios2 fs2 s2 r pr2 = IoRet (fs2', s2', ios2', evs2, resp2, err2) →
  rp_Status resp1 = Status_OK → rp_Status resp2 = Status_OK →
  sfrag s1' = p ∧ sfrag s2' = p ∧ sp_delta s1' = 0 ∧ sp_delta s2' = 0 ∧
  let content1 := frag_content fs1' (sfrag s1') (File (sp_Fragment s1')) in
  let content2 := frag_content fs2' (sfrag s2') (File (sp_Fragment s2')) in
  blen content1 = f_End p - f_Begin p ∧ blen content2 = blen content1 ∧
  (f_Begin p ≠ f_End p → SHA1SumOf content1 = f_Sum p ∧ SHA1SumOf content2 = f_Sum p).
Proof.
  intros HF1 Hi1 HF2 Hi2 Hp Hpo Ha1 Ha2 Hok1 Hok2.
  destruct (Apply_accepted _ _ _ _ _ _ _ _ _ _ _ _ _ _ HF1 Hi1 Hp Hpo Ha1 Hok1) as (? & ? & Hb1 & ?).
  destruct (Apply_accepted _ _ _ _ _ _ _ _ _ _ _ _ _ _ HF2 Hi2 Hp Hpo Ha2 Hok2) as (? & ? & Hb2 & ?).
  cbv zeta. split_and!; [done..|by rewrite Hb1, Hb2|by auto].
Qed.

(** ** Retry loops end

    Errors of writes, seeks, copies and closes are retried until they pass. *)

Definition is_IoFail (i : io) : Prop := match i with IoFail _ => True | _ => False end.

(** No file is the nil file of a failed creation, and the codec is one of the known ones. *)
Definition healthy (s : Spool) : Prop :=
  File (sp_Fragment s) ≠ Some NilFd ∧ sp_compressedFile s ≠ Some NilFd ∧
  codec_supported (f_CompressionCodec (sfrag s)) = true.

Definition returns {A} (r : ioresult A) (P : A → Prop) : Prop :=
  match r with IoRet a => P a | _ => False end.

Lemma write_loop_returns fails rest fs s content :
  Forall is_IoFail fails → FS_inv fs → Spool_inv fs s → healthy s →
  returns (write_loop (fails ++ IoOk :: rest) fs s content) (λ x, healthy x.1.2).
Proof.
  intros Hf HF Hinv. revert fs s HF Hinv. induction Hf as [|i fails Hi _ IH]; intros fs s HF Hinv Hh.
  - simpl. destruct (File (sp_Fragment s)) as [[h|]|] eqn:Hfile; [done|by destruct Hh|].
    rewrite (inv_ContentLength _ _ Hinv).
    destruct (inv_no_file fs s Hinv) as [-> _]; [by rewrite Hfile|]. simpl. by destruct Hh.
  - destruct i as [| | |n]; try done. simpl.
    destruct (File (sp_Fragment s)) as [[h|]|] eqn:Hfile; [|by destruct Hh|].
    + rewrite (inv_offset _ _ Hinv).
      destruct (Spool_inv_write fs s h (take n content) Hinv Hfile) as [? _].
      apply IH; [|done..]. apply FS_inv_write; [done|by apply (proj1 (inv_open _ _ Hinv))].
    + rewrite (inv_ContentLength _ _ Hinv).
      destruct (inv_no_file fs s Hinv) as [Hc _]; [by rewrite Hfile|]. rewrite Hc. simpl.
      destruct (FS_inv_new fs IoOk _ _ _ HF eq_refl) as (HF' & Ho & _).
      pose proof (Spool_inv_new fs s IoOk _ _ _ HF Hinv Hfile eq_refl) as Hinv'.
      pose proof (inv_offset _ _ Hinv') as Hoff. simpl in Hoff.
      rewrite (inv_ContentLength _ _ Hinv), Hc in Hoff. simpl in Hoff. rewrite Hoff.
      destruct (Spool_inv_write _ _ (next_fd fs) (take n content) Hinv' eq_refl) as [? _].
      apply IH; [|done|by destruct Hh]. apply FS_inv_write; [done|]. by apply Ho.
Qed.

Lemma rebuild_loop_returns fails rest fs s end_ :
  Forall is_IoFail fails → healthy s →
  returns (rebuild_loop (fails ++ IoOk :: rest) fs s end_) (λ x, healthy x.1.2 ∧ x.2 = rest).
Proof.
  intros Hf. revert fs s. induction Hf as [|i fails Hi _ IH]; intros fs s Hh;
    pose proof Hh as (Hh1 & Hh2 & Hh3).
  - simpl. destruct (sp_compressedFile s) as [[h|]|] eqn:Hc; [|done|]; simpl; by rewrite Hh3.
  - destruct i as [| | |n]; try done. simpl.
    destruct (sp_compressedFile s) as [[h|]|] eqn:Hc; [|done|]; simpl; rewrite Hh3; simpl; by apply IH.
Qed.

Lemma compressThrough_returns fails rest fs s end_ :
  Forall is_IoFail fails → healthy s → codec_is_none s = false →
  returns (compressThrough (fails ++ IoOk :: rest) fs s end_) (λ x, healthy x.1.2 ∧ x.2 = rest).
Proof.
  intros Hf Hh Hc. unfold compressThrough. rewrite Hc.
  destruct (sp_compressor s); [|by apply rebuild_loop_returns].
  destruct Hf as [|i fails Hi Hf]; [done|]. destruct i; try done. simpl. by apply rebuild_loop_returns.
Qed.

Lemma finish_loop_returns encode fuel fails rest fs s :
  Forall is_IoFail fails → FS_inv fs → Spool_inv fs s → healthy s → codec_is_none s = false →
  (2 ≤ fuel)%nat →
  returns (finish_loop encode fuel false (fails ++ IoOk :: IoOk :: rest) fs s) (λ _, True).
Proof.
  intros Hf HF Hinv Hh Hc Hfuel. destruct fuel as [|[|fuel]]; [lia..|].
  destruct Hf as [|i fails Hi Hf]; [done|]. destruct i as [| | |n]; try done.
  cbn [finish_loop io_bind app]. set (s' := with_compression _ _ _ _).
  pose proof (compressThrough_returns fails (IoOk :: rest) fs s' (f_End (sfrag s')) Hf Hh Hc) as Hr.
  destruct (compressThrough _ _ _ _) as [[[fs2 s2] ios2]| |]; [|done..].
  destruct Hr as [_ Hios]. simpl in Hios. by subst.
Qed.

Lemma roll_returns encode fails rest fs s p primary :
  Forall is_IoFail fails → FS_inv fs → Spool_inv fs s → healthy s →
  codec_supported (f_CompressionCodec p) = true →
  returns (roll encode (fails ++ IoOk :: IoOk :: rest) fs s p primary)
    (λ x, healthy x.1.1.2 ∧ (must_roll s p = true ∨ x.1.2 = fails ++ IoOk :: IoOk :: rest)).
Proof.
  intros Hf HF Hinv Hh Hp. unfold roll. destruct (must_roll s p) eqn:Hm; [|by split; [|right]].
  assert (returns match sp_compressor s with
    | Some _ => finishCompression encode (fails ++ IoOk :: IoOk :: rest) fs s
    | None => IoRet (fs, s, fails ++ IoOk :: IoOk :: rest) end (λ _, True)) as Hfin.
  { destruct (sp_compressor s) eqn:Hc; [|done]. unfold finishCompression.
    rewrite (inv_compressor _ _ Hinv) by (rewrite Hc; eauto). destruct (negb _); [done|]. rewrite Hc.
    cbn [io_bind]. apply finish_loop_returns; try done; [|rewrite length_app; simpl; lia].
    by apply (inv_compressor _ _ Hinv); rewrite Hc. }
  destruct (match sp_compressor s with Some _ => _ | None => _ end) as [[[fs1 s1] ios1]| |]; [|done..].
  simpl. split; [done|by left].
Qed.

Lemma applyCommit_returns encode now fails rest fs s p primary :
  Forall is_IoFail fails → FS_inv fs → Spool_inv fs s → proposal_ok p → healthy s →
  codec_supported (f_CompressionCodec p) = true →
  returns (applyCommit encode now (fails ++ IoOk :: IoOk :: rest) fs s p primary) (λ x, healthy x.1.1.1.2).
Proof.
  intros Hf HF Hinv Hpo Hh Hp. unfold applyCommit.
  set (ios := fails ++ _).
  pose proof (roll_spec encode ios fs s p primary HF Hinv Hpo) as Hspec.
  pose proof (roll_returns encode fails rest fs s p primary Hf HF Hinv Hh Hp) as Hr. fold ios in Hr.
  destruct (roll encode ios fs s p primary) as [[[[fs1 s1] ios1] evs]| |]; [|done..].
  destruct Hr as [Hh1 Hios]. cbn [fst snd] in *. unfold io_bind at 1.
  case_bool_decide as H1; [done|]. case_bool_decide as H2; [|done].
  destruct (roll_extend _ _ _ _ _ _ _ _ Hpo Hspec H1 H2) as (-> & -> & ->).
  destruct (primary && negb (codec_is_none s)) eqn:Hc; [|done].
  apply andb_true_iff in Hc as [_ Hc%negb_true_iff].
  destruct Hios as [Hm| ->].
  { destruct Hspec as (_ & _ & _ & Hs). rewrite Hm in Hs. destruct Hs as [Hs _].
    rewrite Hs in H1, H2. by rewrite Next_rolled in H2. }
  pose proof (compressThrough_returns fails (IoOk :: rest) fs s (f_End (Next s)) Hf Hh Hc) as Hct.
  fold ios in Hct. destruct (compressThrough _ _ _ _) as [[[fs2 s2] ios2]| |] eqn:Heq; [|done..].
  destruct Hct as [Hh2 _]. pose proof (compressThrough_spec ios fs s (f_End (Next s)) HF Hinv Hc) as Hs2.
  rewrite Heq in Hs2. destruct Hs2 as (_ & _ & _ & _ & f & c & ->). done.
Qed.

Lemma Apply_live encode now fails rest fs s r primary :
  Forall is_IoFail fails → FS_inv fs → Spool_inv fs s → request_ok s r → healthy s →
  (∀ p, rq_Proposal r = Some p → codec_supported (f_CompressionCodec p) = true) →
  ∃ fs' s' ios' evs resp err,
    Apply encode now (fails ++ IoOk :: IoOk :: rest) fs s r primary = IoRet (fs', s', ios', evs, resp, err) ∧
    healthy s'.
Proof.
  intros Hf HF Hinv Hr Hh Hp. unfold Apply. unfold request_ok in Hr. destruct (rq_Proposal r) as [p|].
  - pose proof (applyCommit_returns encode now fails rest fs s p primary Hf HF Hinv Hr Hh (Hp p eq_refl)) as Hc.
    destruct (applyCommit _ _ _ _ _ _ _) as [[[[[fs' s'] ios'] evs] resp]| |]; [|done..]. by eexists _, _, _, _, _, _.
  - unfold applyContent. destruct (negb _); [by eexists _, _, _, _, _, _|].
    pose proof (write_loop_returns fails (IoOk :: rest) fs s (default [] (rq_Content r)) Hf HF Hinv Hh) as Hw.
    destruct (write_loop _ _ _ _) as [[[fs' s'] ios']| |]; [|done..]. by eexists _, _, _, _, _, _.
Qed.

(** C37: [Apply] ends. However many times writes, seeks, copies and closes fail, once
    the filesystem works again the request is answered and the spool stays healthy. *)
Theorem Apply_returns encode now fails rest fs s r primary :
  Forall is_IoFail fails → FS_inv fs → Spool_inv fs s → request_ok s r → healthy s →
  (∀ p, rq_Proposal r = Some p → codec_supported (f_CompressionCodec p) = true) →
  ∃ fs' s' ios' evs resp err,
    Apply encode now (fails ++ IoOk :: IoOk :: rest) fs s r primary = IoRet (fs', s', ios', evs, resp, err) ∧
    healthy s'.
Proof. by apply Apply_live. Qed.

(** Once creation of the spool file has failed, content is never accepted again: the
    nil file that was stored is not the nil interface, so that no file is created and
    every later write of the retry loop fails, whatever the filesystem does. *)
Theorem failed_creation_wedges ios fs s r :
  Spool_inv fs s → File (sp_Fragment s) = None → rq_ContentDelta r = sp_delta s →
  applyContent (IoCreateFail :: ios) fs s r = IoRetry.
Proof.
  intros Hinv Hn Hd. unfold applyContent. rewrite Hd, Z.eqb_refl. simpl. rewrite Hn.
  destruct (inv_no_file fs s Hinv) as [Hc _]; [by rewrite Hn|].
  rewrite (inv_ContentLength _ _ Hinv), Hc. simpl.
  assert (∀ ios s, File (sp_Fragment s) = Some NilFd →
    write_loop ios fs s (default [] (rq_Content r)) = IoRetry) as Hw.
  { clear. intros ios s Hf. induction ios as [|i ios IH]; [done|]. simpl. by rewrite Hf. }
  by rewrite Hw.
Qed.

Lemma aApply_self a r primary :
  rq_Proposal r = Some (a_fragment a) →
  aApply a r primary = (a_rollback a, [], response Status_OK None, None).
Proof.
  intros Hp. unfold aApply, a_roll. rewrite Hp. destruct (a_must_roll a (a_fragment a)) eqn:Hm.
  2:{ by rewrite bool_decide_eq_true_2. }
  assert (a_committed a = []) as Hc.
  { unfold a_must_roll in Hm. apply orb_true_iff in Hm as [Hm|Hm]; apply bool_decide_eq_true in Hm.
    - simpl in Hm. unfold blen in Hm. rewrite length_app in Hm. lia.
    - destruct Hm as [_ Hm]. simpl in Hm. unfold blen in Hm. destruct (a_committed a); [done|simpl in Hm; lia]. }
  destruct a as [j b codec com pend]. simpl in Hc. subst com. unfold a_fragment, a_rollback, blen. simpl.
  rewrite Z.add_0_r. by rewrite Z.add_0_r, bool_decide_eq_true_2.
Qed.

(** A rollback derived from the spool itself, as [MustApply] is used for, never
    panics: the committed fragment and content stay, what was pending is dropped and the
    observer is not notified. *)
Theorem MustApply_rollback encode now ios fs s r :
  FS_inv fs → Spool_inv fs s → rq_Proposal r = Some (sfrag s) →
  match MustApply encode now ios fs s r with
  | IoRet (fs', s', _, evs) =>
      Spool_inv fs' s' ∧ sfrag s' = sfrag s ∧ evs = [] ∧ abs fs' s' = a_rollback (abs fs s)
  | IoPanic _ => False
  | IoRetry => True
  end.
Proof.
  intros HF Hinv Hp. unfold MustApply.
  assert (request_ok s r) as Hr.
  { unfold request_ok, proposal_ok. rewrite Hp. destruct Hinv. unfold MaxInt64 in *. lia. }
  pose proof (Apply_spec encode now ios fs s r false HF Hinv Hr) as Ha.
  rewrite (abs_fragment _ _ Hinv) in Hp.
  destruct (Apply _ _ _ _ _ _ _) as [[[[[[fs' s'] ios'] evs] resp] err]| |]; [|done..].
  destruct Ha as (_ & Hinv' & _ & _ & Ha). rewrite aApply_self in Ha by done.
  pose proof (f_equal (λ x, x.1.1.1) Ha) as Habs. pose proof (f_equal (λ x, x.1.1.2) Ha) as Hev.
  pose proof (f_equal (λ x, x.1.2) Ha) as Hresp. pose proof (f_equal snd Ha) as Herr.
  cbn [fst snd] in *. subst resp err. simpl. symmetry in Hev.
  split_and!; [done| |by eapply map_eq_nil|done].
  by rewrite (abs_fragment _ _ Hinv'), <- Habs, (abs_fragment _ _ Hinv).
Qed.

(** ** Content of the compression *)

Definition scontent (fs : FS) (s : Spool) : bytes := file_content fs (File (sp_Fragment s)).

(** An open compressor has been fed the committed content, and writes to a file. *)
Definition comp_inv (fs : FS) (s : Spool) : Prop :=
  sp_compressedLength s = 0 ∧
  ∀ fed, sp_compressor s = Some fed →
    fed = take (cbytes s) (scontent fs s) ∧ ∃ h, sp_compressedFile s = Some (Fd h).

(** What was written to the compressed file when it was finalized. *)
Definition compressed_of (fs : FS) (s : Spool) : bytes :=
  take (Z.to_nat (sp_compressedLength s)) (file_content fs (sp_compressedFile s)).

Definition fed_through (l : bytes) (r : ioresult (FS * Spool * list io)) : Prop :=
  match r with
  | IoRet (_, s', _) => sp_compressor s' = Some l ∧ ∃ h, sp_compressedFile s' = Some (Fd h)
  | _ => True
  end.

Lemma rebuild_loop_fed ios fs s end_ :
  FS_inv fs → open_handle fs (File (sp_Fragment s)) → f_Begin (sfrag s) ≤ end_ ≤ MaxInt64 →
  0 ≤ f_Begin (sfrag s) →
  fed_through (take (Z.to_nat (end_ - f_Begin (sfrag s))) (scontent fs s)) (rebuild_loop ios fs s end_).
Proof.
  revert fs s. induction ios as [|i ios IH]; intros fs s HF Ho He Hb; [done|]. cbn [rebuild_loop].
  assert (int64 (end_ - f_Begin (sfrag s)) = end_ - f_Begin (sfrag s)) as Hi.
  { apply int64_id. unfold is_int64, MinInt64, MaxInt64 in *. lia. }
  destruct (sp_compressedFile s) as [hd|] eqn:Hcf.
  - destruct hd as [h|]; [|by apply IH]. rewrite Hi.
    destruct (codec_supported _); [|by apply (IH fs (with_compression s _ _ _))].
    destruct i; simpl; try (by split; [|eauto]). by apply (IH fs (with_compression s _ _ _)).
  - destruct (newSpoolFile i fs) as [[fs' f] failed] eqn:Hnew.
    destruct (FS_inv_new _ _ _ _ _ HF Hnew) as (HF' & Hof & _ & Hold & Hok).
    assert (keeps fs fs') as Hk by (intros h Hh; by apply Hold).
    assert (scontent fs s = scontent fs' s) as -> by (symmetry; by apply keeps_content).
    assert (∀ f c, fed_through (take (Z.to_nat (end_ - f_Begin (sfrag s))) (scontent fs' s))
      (rebuild_loop ios fs' (with_compression s f (sp_compressedLength s) c) end_)) as Hgo.
    { intros f' c. apply (IH fs' (with_compression s f' _ c)); [done| |done..]. by apply (keeps_open fs). }
    destruct failed; [by apply Hgo|]. destruct (Hok eq_refl) as [h ->]. simpl. rewrite Hi.
    destruct (codec_supported _); [|by apply Hgo]. destruct i; simpl; try (by split; [|eauto]). by apply Hgo.
Qed.

Lemma compressThrough_fed ios fs s end_ :
  FS_inv fs → Spool_inv fs s → comp_inv fs s → codec_is_none s = false →
  f_End (sfrag s) ≤ end_ ≤ f_End (sfrag s) + sp_delta s →
  fed_through (take (Z.to_nat (end_ - f_Begin (sfrag s))) (scontent fs s)) (compressThrough ios fs s end_).
Proof.
  intros HF Hinv Hc Hcodec He. pose proof (inv_delta _ _ Hinv). pose proof (inv_bounds _ _ Hinv).
  assert (∀ ios c, fed_through (take (Z.to_nat (end_ - f_Begin (sfrag s))) (scontent fs s))
    (rebuild_loop ios fs (with_compression s (sp_compressedFile s) (sp_compressedLength s) c) end_)) as Hre.
  { intros ios' c. apply (rebuild_loop_fed ios' fs (with_compression s _ _ c));
      simpl; [done|apply (inv_open _ _ Hinv)|lia..]. }
  unfold compressThrough. rewrite Hcodec. destruct (sp_compressor s) as [fed|] eqn:Hfed.
  2:{ specialize (Hre ios (sp_compressor s)). by rewrite with_compression_id in Hre. }
  destruct ios as [|i ios]; [done|]. destruct (proj2 Hc _ Hfed) as [-> Hh].
  assert (take (cbytes s) (scontent fs s) ++
          section_content fs s (ContentLength (sfrag s)) (int64 (end_ - f_End (sfrag s))) =
          take (Z.to_nat (end_ - f_Begin (sfrag s))) (scontent fs s)) as Happ.
  { unfold section_content. rewrite (inv_ContentLength _ _ Hinv), int64_id
      by (unfold is_int64, MinInt64, MaxInt64 in *; lia).
    fold (cbytes s) (scontent fs s). rewrite take_take_drop. f_equal. unfold cbytes, clen. lia. }
  destruct i; try (by simpl; rewrite Happ). apply Hre.
Qed.

Lemma finish_loop_compressed encode fuel retry ios fs s :
  FS_inv fs → Spool_inv fs s → comp_inv fs s → codec_is_none s = false →
  (retry = false → is_Some (sp_compressor s)) →
  match finish_loop encode fuel retry ios fs s with
  | IoRet (fs', s', _) =>
      compressed_of fs' s' = encode (f_CompressionCodec (sfrag s)) (take (cbytes s) (scontent fs s))
  | _ => True
  end.
Proof.
  revert retry ios fs s. induction fuel as [|fuel IH]; intros retry ios fs s HF Hinv Hc Hcodec Hr; [done|].
  assert (∀ ios fs s l, FS_inv fs → Spool_inv fs s → comp_inv fs s → codec_is_none s = false →
    sp_compressor s = Some l →
    match match ios with
      | [] => IoRetry
      | IoFail _ :: ios =>
          finish_loop encode fuel true ios fs (with_compression s (sp_compressedFile s) (sp_compressedLength s) None)
      | _ :: ios =>
          let out := encode (f_CompressionCodec (sfrag s)) (default [] (sp_compressor s)) in
          let fs' := match sp_compressedFile s with Some (Fd h) => fs_write fs h 0 out | _ => fs end in
          IoRet (fs', with_compression s (sp_compressedFile s) (Z.of_nat (length out)) None, ios)
      end with
    | IoRet (fs', s', _) =>
        compressed_of fs' s' = encode (f_CompressionCodec (sfrag s)) (take (cbytes s) (scontent fs s))
    | _ => True
    end) as Hclose.
  { clear dependent fs s. intros ios' fs s l HF Hinv Hc Hcodec Hl. destruct (proj2 Hc _ Hl) as [-> [h Hh]].
    assert (compressed_of (fs_write fs h 0 (encode (f_CompressionCodec (sfrag s)) (take (cbytes s) (scontent fs s))))
      (with_compression s (Some (Fd h)) (Z.of_nat (length (encode (f_CompressionCodec (sfrag s)) (take (cbytes s) (scontent fs s))))) None)
      = encode (f_CompressionCodec (sfrag s)) (take (cbytes s) (scontent fs s))) as Hout.
    { unfold compressed_of. cbn [sp_compressedFile sp_compressedLength with_compression].
      rewrite file_content_write, decide_True, Nat2Z.id by done.
      apply (take_write_at_all _ 0). lia. }
    rewrite Hl, Hh. destruct ios' as [|i ios']; [done|]. destruct i; try done.
    apply (IH true ios' fs (with_compression s (Some (Fd h)) (sp_compressedLength s) None));
      [done| |by split; [apply Hc|]|done|done]. apply (Spool_inv_compression fs); rewrite <- ?Hh;
      [done|apply keeps_refl|apply (inv_open _ _ Hinv)|apply (inv_distinct _ _ Hinv)|done]. }
  cbn [finish_loop]. destruct retry; [|destruct (Hr eq_refl) as [l Hl]; by apply (Hclose ios fs s l)].
  pose proof (inv_delta _ _ Hinv) as Hd.
  pose proof (compressThrough_spec ios fs s (f_End (sfrag s)) HF Hinv Hcodec) as Hct.
  assert (f_End (sfrag s) ≤ f_End (sfrag s) ≤ f_End (sfrag s) + sp_delta s) as He by lia.
  pose proof (compressThrough_fed ios fs s (f_End (sfrag s)) HF Hinv Hc Hcodec He) as Hfed.
  destruct (compressThrough ios fs s _) as [[[fs1 s1] ios1]| |]; [|done..].
  destruct Hct as (HF1 & Hinv1 & Hk & Hn & f & c & ->). destruct Hfed as [Hcm Hh]. unfold io_bind.
  assert (scontent fs s = scontent fs1 (with_compression s f (sp_compressedLength s) (Some c))) as Hsc.
  { symmetry. apply keeps_content; [done|apply (inv_open _ _ Hinv)]. }
  rewrite Hsc in Hcm |- *. injection Hcm as Hcm. fold (clen s) (cbytes s) in Hcm.
  apply (Hclose ios1 fs1 (with_compression s f (sp_compressedLength s) (Some c)) c); [done..| |done|done].
  split; [apply Hc|]. intros fed [= <-]. by split.
Qed.

Lemma finishCompression_compressed encode ios fs s :
  FS_inv fs → Spool_inv fs s → comp_inv fs s → codec_is_none s = false →
  match finishCompression encode ios fs s with
  | IoRet (fs', s', _) =>
      compressed_of fs' s' = encode (f_CompressionCodec (sfrag s)) (take (cbytes s) (scontent fs s))
  | _ => True
  end.
Proof.
  intros HF Hinv Hc Hcodec. unfold finishCompression. rewrite Hcodec, (proj1 Hc).
  change (negb (0 =? 0)) with false. cbv iota.
  destruct (sp_compressor s) as [l|] eqn:Hl.
  { unfold io_bind. apply finish_loop_compressed; [done..|]. by rewrite Hl. }
  assert (f_End (sfrag s) ≤ f_End (sfrag s) ≤ f_End (sfrag s) + sp_delta s) as He.
  { pose proof (inv_delta _ _ Hinv). lia. }
  pose proof (compressThrough_spec ios fs s (f_End (sfrag s)) HF Hinv Hcodec) as Hct.
  pose proof (compressThrough_fed ios fs s (f_End (sfrag s)) HF Hinv Hc Hcodec He) as Hfed.
  destruct (compressThrough ios fs s _) as [[[fs1 s1] ios1]| |]; [|done..].
  destruct Hct as (HF1 & Hinv1 & Hk & Hn & f & c & ->). destruct Hfed as [Hcm Hh]. unfold io_bind.
  set (s1 := with_compression s f (sp_compressedLength s) (Some c)) in *.
  assert (scontent fs s = scontent fs1 s1) as Hsc.
  { symmetry. apply keeps_content; [done|apply (inv_open _ _ Hinv)]. }
  rewrite Hsc in Hcm |- *. injection Hcm as Hcm. fold (clen s) (cbytes s) in Hcm.
  apply (finish_loop_compressed encode _ false ios1 fs1 s1); [done..| |done|by eexists].
  split; [apply Hc|]. intros fed [= <-]. by split.
Qed.

Lemma roll_compressed encode ios fs s p primary fs' s' ios' evs :
  FS_inv fs → Spool_inv fs s → comp_inv fs s →
  roll encode ios fs s p primary = IoRet (fs', s', ios', evs) →
  comp_inv fs' s' ∧
  (∀ sc pr, In (EvComplete sc pr) evs → is_Some (sp_compressor s) →
     compressed_of fs' sc = encode (f_CompressionCodec (sfrag s)) (take (cbytes s) (scontent fs s))).
Proof.
  intros HF Hinv Hc. unfold roll. destruct (must_roll s p); [|by intros [= <- <- _ <-]].
  destruct (sp_compressor s) as [l|] eqn:Hl.
  - pose proof (finishCompression_compressed encode ios fs s HF Hinv Hc) as Hf.
    destruct (finishCompression encode ios fs s) as [[[fs1 s1] ios1]| |]; [|done..].
    unfold io_bind. intros Heq%IoRet_inj. simplify_eq. split; [by split|].
    intros sc pr Hin _. destruct (negb _); [|done]. destruct Hin as [[= <- <-]|[]]. apply Hf.
    by apply (inv_compressor _ _ Hinv); rewrite Hl.
  - simpl. intros [= <- <- _ <-]. split; [by split|]. by intros ??? [? ?].
Qed.

Lemma comp_inv_committed ios fs s primary t fs2 s2 ios2 :
  FS_inv fs → Spool_inv fs s → comp_inv fs s → primary = true ∨ sp_compressor s = None →
  (if primary && negb (codec_is_none s) then compressThrough ios fs s (f_End (Next s)) else IoRet (fs, s, ios))
    = IoRet (fs2, s2, ios2) →
  comp_inv fs2 (committed s2 t).
Proof.
  intros HF Hinv Hc Hpr. pose proof (inv_EndDelta _ _ Hinv) as He. pose proof (inv_delta _ _ Hinv).
  destruct (primary && negb (codec_is_none s)) eqn:Hcn.
  - apply andb_true_iff in Hcn as [_ Hcn%negb_true_iff]. intros Heq.
    pose proof (compressThrough_spec ios fs s (f_End (Next s)) HF Hinv Hcn) as Hct.
    pose proof (compressThrough_fed ios fs s (f_End (Next s)) HF Hinv Hc Hcn) as Hfed.
    rewrite Heq in Hct, Hfed. destruct Hct as (_ & _ & Hk & _ & f & c & ->).
    destruct Hfed as [Hcm Hh]; [simpl; lia|]. split; [apply Hc|].
    intros fed [= <-]. split; [|done]. injection Hcm as ->.
    change (scontent fs2 (committed _ t)) with (scontent fs2 s).
    unfold scontent. by rewrite (keeps_content fs fs2) by (done || apply (inv_open _ _ Hinv)).
  - intros [= <- <- _]. split; [apply Hc|]. intros fed Hf. exfalso.
    change (sp_compressor s = Some fed) in Hf. destruct Hpr as [-> | Hn]; [|by rewrite Hn in Hf]. apply negb_false_iff in Hcn.
    rewrite (inv_compressor _ _ Hinv) in Hcn; [done|by exists fed].
Qed.

(** Compression follows commits. Of a spool whose open compressor holds the
    committed content, each request keeps it so, provided that it is applied as primary or
    no compressor is open; and when the spool is completed, its compressed file is the
    compression of exactly its committed content. *)
Theorem Apply_compression encode now ios fs s r primary fs' s' ios' evs resp err :
  FS_inv fs → Spool_inv fs s → request_ok s r → comp_inv fs s →
  primary = true ∨ sp_compressor s = None →
  Apply encode now ios fs s r primary = IoRet (fs', s', ios', evs, resp, err) →
  comp_inv fs' s' ∧
  (∀ sc pr, In (EvComplete sc pr) evs → is_Some (sp_compressor s) →
     compressed_of fs' sc =
       encode (f_CompressionCodec (sfrag s)) (frag_content fs (sfrag s) (File (sp_Fragment s)))).
Proof.
  intros HF Hinv Hr Hc Hpr. unfold Apply, request_ok in *. destruct (rq_Proposal r) as [p|].
  - unfold applyCommit. pose proof (roll_spec encode ios fs s p primary HF Hinv Hr) as Hroll.
    destruct (roll encode ios fs s p primary) as [[[[fs1 s1] ios1] evs1]| |] eqn:Heq; [|done..].
    destruct (roll_compressed _ _ _ _ _ _ _ _ _ _ HF Hinv Hc Heq) as [Hc1 Hev].
    unfold io_bind at 2. case_bool_decide as H1; [intros Ha%IoRet_inj; by simplify_eq|].
    case_bool_decide as H2; [|intros Ha%IoRet_inj; by simplify_eq].
    destruct (roll_extend _ _ _ _ _ _ _ _ Hr Hroll H1 H2) as (-> & -> & ->).
    destruct (if primary && _ then _ else _) as [[[fs2 s2] ios2]| |] eqn:Hcm; [|done..].
    pose proof (comp_inv_committed ios1 fs s primary
      (match sp_FirstAppendTime s2 with None => Some now | t => t end) _ _ _ HF Hinv Hc Hpr Hcm) as Hci.
    assert (Next s2 = Next s) as Hnx.
    { destruct (primary && negb (codec_is_none s)) eqn:Hcn; [|by simplify_eq].
      apply andb_true_iff in Hcn as [_ Hcn%negb_true_iff].
      pose proof (compressThrough_spec ios1 fs s (f_End (Next s)) HF Hinv Hcn) as Hct.
      rewrite Hcm in Hct. by destruct Hct as (_ & _ & _ & _ & f & c & ->). }
    unfold io_bind. rewrite <- Hnx. intros Ha%IoRet_inj. injection Ha as <- <- _ <- _ _.
    split; [exact Hci|]. by intros sc pr [[=]|[]].
  - unfold applyContent. destruct (negb _); [intros Ha%IoRet_inj; by simplify_eq|].
    set (content := default [] (rq_Content r)) in *.
    pose proof (write_loop_spec ios fs s content HF Hinv) as Hw.
    destruct (write_loop ios fs s content) as [[[fs1 s1] ios1]| |]; [|done..].
    destruct Hw as (HF1 & Hinv1 & _ & Hdone).
    destruct (pend_content _ _ _ _ _ Hinv Hinv1 Hdone Hr) as [_ Habs].
    unfold io_bind. intros Ha%IoRet_inj. injection Ha as <- <- _ <- _ _. split; [|done].
    destruct Hdone as [(f & -> & _) _]. split; [apply Hc|]. intros fed Hf. destruct (proj2 Hc fed Hf) as [-> Hh].
    split; [|done]. apply (f_equal a_committed) in Habs. symmetry. exact Habs.
Qed.

(** Content committed as a replica is missed by the compression. A spool with an
    open compressor, of which content was committed as primary, accepts the commit of
    more content as replica without compressing it; what is then persisted is the
    compression of the older, shorter content, under the name of the longer fragment. *)
Theorem replica_commit_skips_compression encode now ios fs s r fed rest :
  FS_inv fs → Spool_inv fs s → comp_inv fs s → sp_compressor s = Some fed → 0 < sp_delta s →
  rq_Proposal r = Some (Next s) →
  ∃ s' lf, Apply encode now ios fs s r false = IoRet (fs, s', ios, [EvCommit lf], response Status_OK None, None) ∧
    sfrag s' = Next s ∧ sp_compressor s' = Some fed ∧ blen fed < clen s' ∧
    ∃ fs2 s2, finishCompression encode (IoOk :: rest) fs s' = IoRet (fs2, s2, rest) ∧
      compressed_of fs2 s2 = encode (f_CompressionCodec (sfrag s')) fed.
Proof.
  intros HF Hinv Hc Hfed Hd Hp. pose proof (inv_EndDelta _ _ Hinv) as He.
  assert (must_roll s (Next s) = false) as Hm.
  { unfold must_roll. simpl. rewrite He. apply orb_false_iff. split; [apply Z.ltb_ge; lia|].
    apply andb_false_iff. left. apply Z.eqb_neq. lia. }
  assert (sfrag s ≠ Next s) as Hne. { intros Heq%(f_equal f_End). simpl in Heq. lia. }
  set (t := match sp_FirstAppendTime s with None => Some now | t => t end).
  destruct (proj2 Hc fed Hfed) as [Heq [h Hh]].
  eexists (committed s t), _. split_and!.
  - unfold Apply, applyCommit, roll. rewrite Hp, Hm. unfold io_bind.
    rewrite bool_decide_eq_false_2, bool_decide_eq_true_2 by done. done.
  - done.
  - done.
  - destruct (abs_lengths _ _ Hinv) as [Hl _]. change (blen (take (cbytes s) (scontent fs s)) = clen s) in Hl.
    rewrite Heq, Hl. unfold clen. simpl. lia.
  - assert (codec_is_none (committed s t) = false) as Hcn.
    { apply (inv_compressor _ _ Hinv). by rewrite Hfed. }
    eexists _, _. split.
    + unfold finishCompression. rewrite Hcn. cbn [committed sp_compressedLength sp_compressor].
      rewrite (proj1 Hc), Hfed. change (negb (0 =? 0)) with false. cbv iota. unfold io_bind.
      cbn [finish_loop io_bind committed sp_compressor sp_compressedFile default sp_Fragment frag Next f_CompressionCodec].
      rewrite Hfed, Hh. reflexivity.
    + unfold compressed_of. cbn [sp_compressedFile sp_compressedLength with_compression].
      rewrite file_content_write, decide_True, Nat2Z.id by done. apply (take_write_at_all _ 0). lia.
Qed.

(** ** Concrete inputs *)

Definition demo_fs : FS := mkFS ∅ 0.
Definition demo_encode (c : CompressionCodec) (l : bytes) : bytes := l.

Lemma demo_fs_inv : FS_inv demo_fs.
Proof. intros h _. done. Qed.

Lemma NewSpool_inv fs j : Spool_inv fs (NewSpool j).
Proof.
  split; simpl; try done; try (unfold MaxInt64; lia); try (unfold spooled, clen; simpl; lia); by rewrite firstn_nil.
Qed.

Definition demo_content (delta : Z) (l : bytes) : ReplicateRequest := mkReplicateRequest None "" None (Some l) delta false.
Definition demo_propose (f : Fragment) : ReplicateRequest := mkReplicateRequest None "" (Some f) None 0 true.

(** One request, applied as primary. *)
Definition demo_run (c : FS * Spool) (r : ReplicateRequest) : FS * Spool :=
  match Apply demo_encode 0 [IoOk; IoOk] (fst c) (snd c) r true with
  | IoRet (fs, s, _, _, _, _) => (fs, s)
  | _ => c
  end.

Definition demo0 : FS * Spool := (demo_fs, NewSpool "a/journal").
Definition demo1 : FS * Spool := demo_run demo0 (demo_content 0 (str_bytes "ab")).
Definition demo2 : FS * Spool := demo_run demo1 (demo_propose (Next (snd demo1))).
Definition demo3 : FS * Spool := demo_run demo2 (demo_content 0 (str_bytes "c")).

(** The same with a codec: content committed as primary, and more of it spooled. *)
Definition demo0z : FS * Spool :=
  (demo_fs, rolled (NewSpool "a/journal") (mkFragment "a/journal" 0 0 SHA1Sum_zero Codec_GZIP "" 0)).
Definition demo1z : FS * Spool := demo_run demo0z (demo_content 0 (str_bytes "ab")).
Definition demo2z : FS * Spool := demo_run demo1z (demo_propose (Next (snd demo1z))).
Definition demo3z : FS * Spool := demo_run demo2z (demo_content 0 (str_bytes "c")).

Ltac demo_step r := exists 0, [IoOk; IoOk], r, true; eexists _, _, _, _; split; [|vm_compute; reflexivity];
  vm_compute; repeat split; discriminate.

Lemma demo_step1 : spool_step demo_encode demo0 demo1.
Proof. demo_step (demo_content 0 (str_bytes "ab")). Qed.
Lemma demo_step2 : spool_step demo_encode demo1 demo2.
Proof. demo_step (demo_propose (Next (snd demo1))). Qed.
Lemma demo_step3 : spool_step demo_encode demo2 demo3.
Proof. demo_step (demo_content 0 (str_bytes "c")). Qed.
Lemma demo_step1z : spool_step demo_encode demo0z demo1z.
Proof. demo_step (demo_content 0 (str_bytes "ab")). Qed.
Lemma demo_step2z : spool_step demo_encode demo1z demo2z.
Proof. demo_step (demo_propose (Next (snd demo1z))). Qed.
Lemma demo_step3z : spool_step demo_encode demo2z demo3z.
Proof. demo_step (demo_content 0 (str_bytes "c")). Qed.

Lemma demo_invs :
  config_inv demo0 ∧ config_inv demo1 ∧ config_inv demo2 ∧ config_inv demo3 ∧
  config_inv demo1z ∧ config_inv demo2z ∧ config_inv demo3z.
Proof.
  assert (config_inv demo0) as H0 by (split; [apply demo_fs_inv|apply NewSpool_inv]).
  assert (config_inv demo0z) as H0z.
  { split; [apply demo_fs_inv|]. apply rolled_inv. unfold proposal_ok, MaxInt64. simpl. lia. }
  pose proof (proj1 (spool_step_spec _ _ _ H0 demo_step1)) as H1.
  pose proof (proj1 (spool_step_spec _ _ _ H1 demo_step2)) as H2.
  pose proof (proj1 (spool_step_spec _ _ _ H2 demo_step3)) as H3.
  pose proof (proj1 (spool_step_spec _ _ _ H0z demo_step1z)) as H1z.
  pose proof (proj1 (spool_step_spec _ _ _ H1z demo_step2z)) as H2z.
  pose proof (proj1 (spool_step_spec _ _ _ H2z demo_step3z)) as H3z.
  done.
Qed.

Lemma Apply_refines_witness :
  match Apply demo_encode 0 [IoFail 1; IoOk] (fst demo0) (snd demo0) (demo_content 0 (str_bytes "ab")) true with
  | IoRet (fs', s', _, evs, resp, err) =>
      FS_inv fs' ∧ Spool_inv fs' s' ∧ frame (snd demo0) (fst demo0) fs' ∧
      aApply (abs (fst demo0) (snd demo0)) (demo_content 0 (str_bytes "ab")) true =
        (abs fs' s', map (abs_event fs') evs, resp, err)
  | IoPanic _ => False
  | IoRetry => True
  end.
Proof. apply Apply_refines; [apply demo_invs..|]. vm_compute. discriminate. Defined.

Lemma committed_content_immutable_witness :
  rtc (spool_step demo_encode) demo2 demo3 ∧
  frag_content (fst demo3) (sfrag (snd demo2)) (File (sp_Fragment (snd demo2))) = str_bytes "ab".
Proof.
  split; [apply rtc_once, demo_step3|].
  etrans; [apply (committed_content_immutable demo_encode (fst demo2) (snd demo2) (fst demo3) (snd demo3))|vm_compute; reflexivity].
  - apply rtc_once. apply demo_step3.
  - apply demo_invs.
  - apply demo_invs.
Defined.

Lemma replicas_agree_witness :
  let p := Next (snd demo1) in
  sfrag (snd demo2) = p ∧ blen (frag_content (fst demo2) (sfrag (snd demo2)) (File (sp_Fragment (snd demo2)))) = f_End p - f_Begin p.
Proof.
  set (p := Next (snd demo1)). intros q.
  assert (proposal_ok p) as Hp by (vm_compute; repeat split; discriminate).
  edestruct (replicas_agree demo_encode demo_encode 0 0 [IoOk; IoOk] [IoOk; IoOk] (fst demo1) (fst demo1) (snd demo1) (snd demo1)
    (demo_propose p) p true true (fst demo2) (snd demo2)) as (H1 & _ & _ & _ & H2 & _);
    [apply demo_invs|apply demo_invs|apply demo_invs|apply demo_invs|reflexivity|exact Hp|vm_compute; reflexivity|
     vm_compute; reflexivity|reflexivity|reflexivity|]. split; [exact H1|exact H2].
Defined.

Lemma Apply_returns_witness :
  ∃ fs' s' ios' evs resp err,
    Apply demo_encode 0 ([IoFail 1] ++ IoOk :: IoOk :: []) (fst demo0) (snd demo0) (demo_content 0 (str_bytes "ab")) true =
      IoRet (fs', s', ios', evs, resp, err) ∧ healthy s'.
Proof. apply Apply_returns; [by repeat constructor|apply demo_invs..|vm_compute; discriminate|by repeat split|done]. Defined.

Lemma failed_creation_wedges_witness :
  applyContent (IoCreateFail :: [IoOk; IoOk; IoOk]) (fst demo0) (snd demo0) (demo_content 0 (str_bytes "ab")) = IoRetry.
Proof. apply failed_creation_wedges; [apply demo_invs|reflexivity|reflexivity]. Defined.

Lemma MustApply_rollback_witness :
  match MustApply demo_encode 0 [IoOk] (fst demo1) (snd demo1) (demo_propose (sfrag (snd demo1))) with
  | IoRet (fs', s', _, evs) =>
      Spool_inv fs' s' ∧ sfrag s' = sfrag (snd demo1) ∧ evs = [] ∧
      abs fs' s' = a_rollback (abs (fst demo1) (snd demo1))
  | IoPanic _ => False
  | IoRetry => True
  end.
Proof. apply MustApply_rollback; [apply demo_invs..|reflexivity]. Defined.

Lemma demo_comp : comp_inv (fst demo1z) (snd demo1z) ∧ comp_inv (fst demo3z) (snd demo3z).
Proof.
  split; (split; [vm_compute; reflexivity|]); intros fed Hf; vm_compute in Hf; simplify_eq;
    (split; [vm_compute; reflexivity|by eexists; vm_compute]).
Qed.

Lemma Apply_compression_witness : comp_inv (fst demo2z) (snd demo2z).
Proof.
  edestruct (Apply_compression demo_encode 0 [IoOk; IoOk] (fst demo1z) (snd demo1z) (demo_propose (Next (snd demo1z))) true
    (fst demo2z) (snd demo2z)) as [H _]; [apply demo_invs|apply demo_invs| |apply demo_comp|by left|vm_compute; reflexivity|exact H].
  vm_compute. repeat split; discriminate.
Defined.

Lemma replica_commit_skips_compression_witness :
  ∃ s' lf, Apply demo_encode 0 [] (fst demo3z) (snd demo3z) (demo_propose (Next (snd demo3z))) false =
      IoRet (fst demo3z, s', [], [EvCommit lf], response Status_OK None, None) ∧
    sfrag s' = Next (snd demo3z) ∧ sp_compressor s' = Some (str_bytes "ab") ∧ blen (str_bytes "ab") < clen s' ∧
    ∃ fs2 s2, finishCompression demo_encode (IoOk :: []) (fst demo3z) s' = IoRet (fs2, s2, []) ∧
      compressed_of fs2 s2 = demo_encode (f_CompressionCodec (sfrag s')) (str_bytes "ab").
Proof.
  apply replica_commit_skips_compression; [apply demo_invs|apply demo_invs|apply demo_comp|vm_compute; reflexivity|
    vm_compute; reflexivity|reflexivity].
Defined.
