(* ===== verification/Pipeline.v ===== *)
(** * The replication pipeline (src/v2/pkg/broker/pipeline.go, replicate_api.go,
      append_api.go, and nextProposal, acquirePipeline, releasePipelineAndGatherResponse
      and shutDownReplica of replica.go)

    The primary of a journal scatters requests to its own spool and to streams to its
    peers, each of which serves them against the spool it holds. The spool is seen
    through the class [ReplicaSpool], with the laws that Spool.v proves; a stream through
    [ReplicateStream], of which a serving peer is an instance. The slices of a
    pipeline, which have one entry per route member, are one list of records. Channels
    hand over a pipeline or spool between RPCs that are served one after the other: what
    is sent on one is returned to the caller. *)
From S2P Require Import Prelude Encoding Protocol Labels JournalSpec CoverSet FragmentIndex Spool.
Local Open Scope Z_scope.

(** ** Interfaces *)

(** The methods of a spool that the broker calls. *)
Class ReplicaSpool (S : Type) := {
  sp_Frag : S → Fragment;
  sp_NextFrag : S → Fragment;
  sp_FirstAppend : S → option Z;
  sp_Apply : S → ReplicateRequest → bool → ioresult (S * ReplicateResponse * option ValidationError);
  sp_MustApply : S → ReplicateRequest → ioresult S;
}.

(** What they promise: a spool refines the specification [aApply], and answers. *)
Class ReplicaSpoolLaws (S : Type) `{ReplicaSpool S} := {
  sp_inv : S → Prop;
  sp_abs : S → aSpool;
  law_Frag s : sp_inv s → sp_Frag s = a_fragment (sp_abs s);
  law_Next s : sp_inv s → sp_NextFrag s = a_fragment (a_commit (sp_abs s));
  law_bounds s : sp_inv s → 0 ≤ a_Begin (sp_abs s) ∧ f_End (a_fragment (a_commit (sp_abs s))) ≤ MaxInt64;
  law_codec s : sp_inv s → codec_supported (a_Codec (sp_abs s)) = true;
  law_Apply s r primary : sp_inv s →
    match rq_Proposal r with
    | Some p => proposal_ok p ∧ codec_supported (f_CompressionCodec p) = true
    | None => f_End (a_fragment (a_commit (sp_abs s))) + blen (default [] (rq_Content r)) ≤ MaxInt64
    end →
    ∃ s' evs resp err, sp_Apply s r primary = IoRet (s', resp, err) ∧ sp_inv s' ∧
      aApply (sp_abs s) r primary = (sp_abs s', evs, resp, err);
  law_MustApply s r : sp_inv s → rq_Proposal r = Some (sp_Frag s) →
    ∃ s', sp_MustApply s r = IoRet s' ∧ sp_inv s' ∧ sp_abs s' = a_rollback (sp_abs s);
}.

(** A [Journal_ReplicateClient]. [IoRetry] is a call that blocks. *)
Class ReplicateStream (P : Type) := {
  st_Send : P → ReplicateRequest → ioresult (P * option string);
  st_Recv : P → ioresult (P * (ReplicateResponse + string));
  st_CloseSend : P → ioresult (P * option string);
}.

Definition io_EOF : string := "EOF".

Fixpoint io_map {A B} (f : A → ioresult B) (l : list A) : ioresult (list B) :=
  match l with
  | [] => IoRet []
  | x :: l => io! y := f x in io! l := io_map f l in IoRet (y :: l)
  end.

(** ** The pipeline *)

Section pipeline.
Context {S P : Type} `{ReplicaSpool S, ReplicateStream P}.

(** The entries of one route member. *)
Record peer := mkPeer {
  pr_id : ProcessSpec_ID;
  pr_stream : option P;
  pr_sendErr : option string;
  pr_recvResp : ReplicateResponse;
  pr_recvErr : option string;
}.

Record pipeline := mkPipeline {
  pl_Header : Header;
  pl_spool : S;
  pl_peers : list peer;
  pl_readThroughRev : Z;
}.

Definition with_peers (pln : pipeline) (l : list peer) : pipeline :=
  mkPipeline (pl_Header pln) (pl_spool pln) l (pl_readThroughRev pln).
Definition with_spool (pln : pipeline) (s : S) : pipeline :=
  mkPipeline (pl_Header pln) s (pl_peers pln) (pl_readThroughRev pln).
Definition with_sent (pr : peer) (st : option P) (err : option string) : peer :=
  mkPeer (pr_id pr) st err (pr_recvResp pr) (pr_recvErr pr).
Definition with_recv (pr : peer) (st : option P) (resp : ReplicateResponse) (err : option string) : peer :=
  mkPeer (pr_id pr) st (pr_sendErr pr) resp err.

Definition ReplicateResponse_zero : ReplicateResponse := mkReplicateResponse Status_OK None None.

(** Dialing of every member but the primary; [dial] is [jc.Replicate]. *)
Fixpoint dial_members (dial : ProcessSpec_ID → P + string) (primary : Z) (i : Z) (l : list ProcessSpec_ID)
    : list peer :=
  match l with
  | [] => []
  | id :: l =>
      (if i =? primary then mkPeer id None None ReplicateResponse_zero None
       else match dial id with
            | inl s => mkPeer id (Some s) None ReplicateResponse_zero None
            | inr err => mkPeer id None (Some err) ReplicateResponse_zero None
            end) :: dial_members dial primary (i + 1) l
  end.

Definition newPipeline (hdr : Header) (spool : S) (dial : ProcessSpec_ID → P + string) : ioresult pipeline :=
  if Primary (h_Route hdr) =? -1 then IoPanic "dial requires Route with Primary != -1"
  else IoRet (mkPipeline hdr spool
                (dial_members dial (Primary (h_Route hdr)) 0 (Members (h_Route hdr))) 0).

Definition boxHeaderProcessID (hdr : Header) (id : ProcessSpec_ID) : Header :=
  mkHeader id (h_Route hdr) (Etcd hdr).

Definition request_for (r : ReplicateRequest) (id : ProcessSpec_ID) : ReplicateRequest :=
  mkReplicateRequest (match rq_Header r with Some h => Some (boxHeaderProcessID h id) | None => None end)
    (rq_Journal r) (rq_Proposal r) (rq_Content r) (rq_ContentDelta r) (rq_Acknowledge r).

Definition send_peer (r : ReplicateRequest) (pr : peer) : ioresult peer :=
  match pr_stream pr, pr_sendErr pr with
  | Some s, None =>
      io! (s, err) := st_Send s (request_for r (pr_id pr)) in IoRet (with_sent pr (Some s) err)
  | _, _ => IoRet pr
  end.

Definition scatter (pln : pipeline) (r : ReplicateRequest) : ioresult pipeline :=
  io! peers := io_map (send_peer r) (pl_peers pln) in
  let i := Primary (h_Route (pl_Header pln)) in
  match (if i <? 0 then None else peers !! Z.to_nat i) with
  | None => IoPanic "index out of range"
  | Some pr =>
      match pr_sendErr pr with
      | Some _ => IoRet (with_peers pln peers)
      | None =>
          io! (s, resp, err) := sp_Apply (pl_spool pln) r true in
          if negb (bool_decide (rp_Status resp = Status_OK)) then IoPanic "resp.Status != OK"
          else IoRet (with_spool (with_peers pln
                        (<[Z.to_nat i := with_sent pr (pr_stream pr) (Err <$> err)]> peers)) s)
      end
  end.

(** [closeSend], and the spool it sends to [returnCh]. *)
Definition close_peer (pr : peer) : ioresult peer :=
  match pr_stream pr, pr_sendErr pr with
  | Some s, None => io! (s, err) := st_CloseSend s in IoRet (with_sent pr (Some s) err)
  | _, _ => IoRet pr
  end.

Definition proposal_request (p : Fragment) (ack : bool) : ReplicateRequest :=
  mkReplicateRequest None "" (Some p) None 0 ack.

Definition closeSend (pln : pipeline) : ioresult (pipeline * S) :=
  io! s := sp_MustApply (pl_spool pln) (proposal_request (sp_Frag (pl_spool pln)) false) in
  let pln := with_spool pln s in
  io! peers := io_map close_peer (pl_peers pln) in
  IoRet (with_peers pln peers, s).

Fixpoint first_err (l : list (option string)) : option string :=
  match l with [] => None | Some e :: _ => Some e | None :: l => first_err l end.

Definition sendErr (pln : pipeline) : option string := first_err (pr_sendErr <$> pl_peers pln).
Definition recvErr (pln : pipeline) : option string := first_err (pr_recvErr <$> pl_peers pln).

Definition gather_peer (pr : peer) : ioresult peer :=
  match pr_stream pr, pr_recvErr pr with
  | Some s, None =>
      io! (s, res) := st_Recv s in
      IoRet (match res with
             | inl resp => with_recv pr (Some s) resp None
             | inr err => with_recv pr (Some s) (pr_recvResp pr) (Some err)
             end)
  | _, _ => IoRet pr
  end.

Definition gather (pln : pipeline) : ioresult pipeline :=
  io! peers := io_map gather_peer (pl_peers pln) in IoRet (with_peers pln peers).

Definition set_recvErr (pr : peer) (err : string) : peer :=
  with_recv pr (pr_stream pr) (pr_recvResp pr) (Some err).

Definition live (pr : peer) : bool :=
  match pr_stream pr, pr_recvErr pr with Some _, None => true | _, _ => false end.

Definition gatherOK (pln : pipeline) : ioresult pipeline :=
  io! pln := gather pln in
  IoRet (with_peers pln
    ((λ pr, if live pr && negb (bool_decide (rp_Status (pr_recvResp pr) = Status_OK))
            then set_recvErr pr "unexpected !OK response: %s" else pr) <$> pl_peers pln)).

(** One peer's response to the proposal: the peer, and the greater of the offsets and
    revisions seen so far and its own. *)
Definition sync_peer (hdr : Header) (proposal : Fragment) (pr : peer) (rollToOffset readThroughRev : Z)
    : ioresult (peer * Z * Z) :=
  if negb (live pr) then IoRet (pr, rollToOffset, readThroughRev)
  else
    let resp := pr_recvResp pr in
    match rp_Status resp with
    | Status_OK => IoRet (pr, rollToOffset, readThroughRev)
    | WRONG_ROUTE =>
        match rp_Header resp with
        | None => IoPanic "nil pointer dereference"
        | Some h =>
            if negb (Route_Equivalent (h_Route h) (Some (h_Route hdr))) &&
               (Revision (Etcd hdr) <? Revision (Etcd h))
            then IoRet (pr, rollToOffset,
                        if readThroughRev <? Revision (Etcd h) then Revision (Etcd h) else readThroughRev)
            else IoRet (set_recvErr pr "unexpected WRONG_ROUTE: %s", rollToOffset, readThroughRev)
        end
    | FRAGMENT_MISMATCH =>
        match rp_Fragment resp with
        | None => IoPanic "nil pointer dereference"
        | Some f =>
            if (f_End proposal <? f_End f) || ((f_End f =? f_End proposal) && (ContentLength f =? 0))
            then IoRet (pr, (if rollToOffset <? f_End f then f_End f else rollToOffset), readThroughRev)
            else IoRet (set_recvErr pr "unexpected FRAGMENT_MISMATCH: %s", rollToOffset, readThroughRev)
        end
    | _ => IoRet (set_recvErr pr "unexpected Status: %s", rollToOffset, readThroughRev)
    end.

Fixpoint sync_peers (hdr : Header) (proposal : Fragment) (l : list peer) (rollToOffset readThroughRev : Z)
    : ioresult (list peer * Z * Z) :=
  match l with
  | [] => IoRet ([], rollToOffset, readThroughRev)
  | pr :: l =>
      io! (pr, roll, rev) := sync_peer hdr proposal pr rollToOffset readThroughRev in
      io! (l, roll, rev) := sync_peers hdr proposal l roll rev in
      IoRet (pr :: l, roll, rev)
  end.

Definition gatherSync (pln : pipeline) (proposal : Fragment) : ioresult (pipeline * Z * Z) :=
  io! pln := gather pln in
  io! (peers, roll, rev) := sync_peers (pl_Header pln) proposal (pl_peers pln) 0 0 in
  IoRet (with_peers pln peers, roll, rev).

Definition eof_peer (pr : peer) : ioresult peer :=
  match pr_stream pr, pr_recvErr pr with
  | Some s, None =>
      io! (s, res) := st_Recv s in
      IoRet (match res with
             | inr err => if String.eqb err io_EOF then with_recv pr (Some s) (pr_recvResp pr) None
                          else with_recv pr (Some s) (pr_recvResp pr) (Some err)
             | inl _ => with_recv pr (Some s) (pr_recvResp pr) (Some "unexpected response: %s")
             end)
  | _, _ => IoRet pr
  end.

Definition gatherEOF (pln : pipeline) : ioresult pipeline :=
  io! peers := io_map eof_peer (pl_peers pln) in IoRet (with_peers pln peers).

Definition shutdown (pln : pipeline) : ioresult (pipeline * S) :=
  io! (pln, s) := closeSend pln in
  io! pln := gatherEOF pln in
  IoRet (pln, s).

Definition sync_request (hdr : Header) (journal : Journal) (proposal : Fragment) : ReplicateRequest :=
  mkReplicateRequest (Some hdr) journal (Some proposal) None 0 true.

Definition rolled_proposal (proposal : Fragment) (offset : Z) : Fragment :=
  mkFragment (f_Journal proposal) offset offset SHA1Sum_zero (f_CompressionCodec proposal)
    (f_BackingStore proposal) (f_ModTime proposal).

(** [synchronize], of at most [fuel] rounds. The last component is the spool that
    was returned, if the pipeline was shut down. *)
Fixpoint sync_loop (fuel : nat) (pln : pipeline) (proposal : Fragment)
    : ioresult (pipeline * option string * option S) :=
  match fuel with
  | O => IoRetry
  | Datatypes.S fuel =>
      io! pln := scatter pln (sync_request (pl_Header pln) (f_Journal (sp_Frag (pl_spool pln))) proposal) in
      io! (pln, rollToOffset, readThroughRev) := gatherSync pln proposal in
      let err := match recvErr pln with None => sendErr pln | e => e end in
      match err with
      | Some e => io! (pln, s) := shutdown pln in IoRet (pln, Some e, Some s)
      | None =>
          if negb (rollToOffset =? 0) then sync_loop fuel pln (rolled_proposal proposal rollToOffset)
          else if negb (readThroughRev =? 0) then
            io! (pln, s) := shutdown pln in
            IoRet (mkPipeline (pl_Header pln) (pl_spool pln) (pl_peers pln) readThroughRev, None, Some s)
          else IoRet (pln, None, None)
      end
  end.

Definition synchronize (fuel : nat) (pln : pipeline) : ioresult (pipeline * option string * option S) :=
  sync_loop fuel pln (sp_Frag (pl_spool pln)).
End pipeline.
Arguments peer : clear implicits.
Arguments pipeline : clear implicits.

(** ** Serving replication (replicate_api.go) *)

Section server.
Context {S : Type} `{ReplicaSpool S, UrlParser}.

(** What the resolver answers a peer: a status, and the header it resolved to. *)
Record resolution := mkResolution { res_status : Status; res_Header : Header }.

Inductive phase :=
| Fresh                              (* No request was received yet. *)
| Serving (hdr : option Header)      (* In serveReplicate; the header goes with the first response. *)
| Ended (err : option string).       (* The handler returned. *)

Record server := mkServer {
  sv_resolve : ReplicateRequest → resolution + string;
  sv_spool : S;
  sv_phase : phase;
  sv_out : list ReplicateResponse;   (* Sent, and not yet received. *)
}.

Definition sv_with (sv : server) (s : S) (ph : phase) (out : list ReplicateResponse) : server :=
  mkServer (sv_resolve sv) s ph out.

(** [serveReplicate] returned: roll back and release the spool. *)
Definition end_serving (sv : server) (s : S) (err : option string) : ioresult server :=
  io! s := sp_MustApply s (proposal_request (sp_Frag s) false) in
  IoRet (sv_with sv s (Ended err) (sv_out sv)).

(** One round of [serveReplicate]. *)
Definition serveReplicate (sv : server) (hdr : option Header) (req : ReplicateRequest) : ioresult server :=
  io! (s, resp, err) := sp_Apply (sv_spool sv) req false in
  match err with
  | Some e => end_serving sv s (Some (Err e))
  | None =>
      if rq_Acknowledge req then
        IoRet (sv_with sv s (Serving None)
                 (sv_out sv ++ [mkReplicateResponse (rp_Status resp) hdr (rp_Fragment resp)]))
      else if negb (bool_decide (rp_Status resp = Status_OK)) then
        end_serving sv s (Some "no ack requested but status != OK: %s")
      else IoRet (sv_with sv s (Serving hdr) (sv_out sv))
  end.

(** The [Replicate] handler, up to its next [Recv]. *)
Definition Replicate (sv : server) (req : ReplicateRequest) : ioresult server :=
  match sv_phase sv with
  | Ended _ => IoRet sv
  | Serving hdr =>
      match ReplicateRequest_Validate req with
      | Some e => end_serving sv (sv_spool sv) (Some (Err e))
      | None => serveReplicate sv hdr req
      end
  | Fresh =>
      match ReplicateRequest_Validate req with
      | Some e => IoRet (sv_with sv (sv_spool sv) (Ended (Some (Err e))) (sv_out sv))
      | None =>
          match sv_resolve sv req with
          | inr e => IoRet (sv_with sv (sv_spool sv) (Ended (Some e)) (sv_out sv))
          | inl res =>
              if negb (bool_decide (res_status res = Status_OK)) then
                IoRet (sv_with sv (sv_spool sv) (Ended None)
                         (sv_out sv ++ [mkReplicateResponse (res_status res) (Some (res_Header res)) None]))
              else
                match rq_Header req with
                | None => IoPanic "nil pointer dereference"
                | Some h =>
                    if negb (Route_Equivalent (h_Route (res_Header res)) (Some (h_Route h))) then
                      IoRet (sv_with sv (sv_spool sv) (Ended None)
                               (sv_out sv ++ [mkReplicateResponse WRONG_ROUTE (Some (res_Header res)) None]))
                    else serveReplicate sv (Some (res_Header res)) req
                end
          end
      end
  end.

(** The stream of a client to the server: sends are processed in order. *)
Definition server_Send (sv : server) (req : ReplicateRequest) : ioresult (server * option string) :=
  match sv_phase sv with
  | Ended _ => IoRet (sv, Some io_EOF)
  | _ => io! sv := Replicate sv req in IoRet (sv, None)
  end.

Definition server_Recv (sv : server) : ioresult (server * (ReplicateResponse + string)) :=
  match sv_out sv with
  | resp :: out => IoRet (sv_with sv (sv_spool sv) (sv_phase sv) out, inl resp)
  | [] => match sv_phase sv with
          | Ended err => IoRet (sv, inr (default io_EOF err))
          | _ => IoRetry
          end
  end.

Definition server_CloseSend (sv : server) : ioresult (server * option string) :=
  match sv_phase sv with
  | Ended _ => IoRet (sv, None)
  | Fresh => IoRet (sv_with sv (sv_spool sv) (Ended (Some io_EOF)) (sv_out sv), None)
  | Serving _ => io! sv := end_serving sv (sv_spool sv) None in IoRet (sv, None)
  end.

#[global] Instance server_stream : ReplicateStream server :=
  {| st_Send := server_Send; st_Recv := server_Recv; st_CloseSend := server_CloseSend |}.
End server.
Arguments server : clear implicits.

(** ** Appending (append_api.go, replica.go) *)

(** [time.Time{}.Unix()] *)
Definition zero_time_unix : Z := -62135596800.

Section append.
Context {S P : Type} `{ReplicaSpool S, ReplicateStream P, UrlParser}.

Definition nextProposal (now : Z) (cur : S) (spec : JournalSpec_Fragment) : Fragment :=
  let f := sp_Frag cur in
  let cl := ContentLength f in
  let flush :=
    if cl =? 0 then true                       (* Empty fragment is trivially rolled. *)
    else if Length spec <? cl then true        (* Roll if over the target Fragment length. *)
    else f_Begin f =? 0 in                     (* Roll after the journal's very first write. *)
  let interval := Z.quot (FlushInterval spec) second in
  let flush :=
    if 0 <? interval then
      let first := Z.quot (default zero_time_unix (sp_FirstAppend cur)) interval in
      if negb (first =? Z.quot now interval) then true else flush
    else flush in
  if flush
  then mkFragment (f_Journal f) (f_End f) (f_End f) SHA1Sum_zero (sf_CompressionCodec spec)
         (f_BackingStore f) (f_ModTime f)
  else f.

(** [releasePipelineAndGatherResponse]: what is released to the pipeline channel,
    the spool that was returned, and the error. *)
Definition releasePipelineAndGatherResponse (pln : pipeline S P)
    : ioresult (option (pipeline S P) * option S * option string) :=
  let sendErr_ := sendErr pln in
  io! (pln, s) :=
    match sendErr_ with
    | None => IoRet (pln, None)
    | Some _ => io! (pln, s) := closeSend pln in IoRet (pln, Some s)
    end in
  io! pln := gatherOK pln in
  io! pln := match sendErr_ with None => IoRet pln | Some _ => gatherEOF pln end in
  IoRet (match sendErr_ with None => Some pln | Some _ => None end, s,
         match recvErr pln with None => sendErr_ | e => e end).

Inductive recv_err := RecvEOF | RecvError (msg : string).

Record appender := mkAppender {
  ap_pln : pipeline S P;
  ap_reqCommit : bool;
  ap_reqErr : option recv_err;
  ap_reqFragment : option Fragment;
  ap_reqSummer : bytes;
}.

Definition beginAppending (now : Z) (pln : pipeline S P) (spec : JournalSpec_Fragment) : ioresult appender :=
  let proposal := nextProposal now (pl_spool pln) spec in
  io! pln := if negb (bool_decide (sp_Frag (pl_spool pln) = proposal))
             then scatter pln (proposal_request proposal false) else IoRet pln in
  let f := sp_Frag (pl_spool pln) in
  IoRet (mkAppender pln false None
           (Some (mkFragment (f_Journal f) (f_End f) (f_End f) SHA1Sum_zero (f_CompressionCodec f) "" 0)) []).

Definition content_request (content : bytes) (delta : Z) : ReplicateRequest :=
  mkReplicateRequest None "" None (Some content) delta false.

(** [onRecv], and whether it expects to be called again. *)
Definition onRecv (a : appender) (msg : AppendRequest + recv_err) : ioresult (appender * bool) :=
  let err := match msg with
             | inr e => Some e
             | inl req => match AppendRequest_Validate req with
                          | Some e => Some (RecvError (Err e))
                          | None => if negb (String.eqb (ar_Journal req) "")
                                    then Some (RecvError "expected Content chunk") else None
                          end
             end in
  let content := match msg with inl req => ar_Content req | inr _ => [] end in
  match ap_reqFragment a with
  | None => IoPanic "nil pointer dereference"
  | Some f =>
      (* End of input: commit, or roll back. *)
      let finish (err : recv_err) :=
        let f := mkFragment (f_Journal f) (f_Begin f) (f_End f) (SHA1SumOf (ap_reqSummer a))
                   (f_CompressionCodec f) (f_BackingStore f) (f_ModTime f) in
        let spool := pl_spool (ap_pln a) in
        match err with
        | RecvEOF =>
            if negb (ap_reqCommit a) then IoPanic "invariant violated: reqCommit = true"
            else
              io! pln := scatter (ap_pln a) (proposal_request (sp_NextFrag spool) true) in
              IoRet (mkAppender pln (ap_reqCommit a) (ap_reqErr a) (Some f) (ap_reqSummer a), false)
        | RecvError _ =>
            io! pln := scatter (ap_pln a) (proposal_request (sp_Frag spool) true) in
            IoRet (mkAppender pln (ap_reqCommit a) (Some err) None (ap_reqSummer a), false)
        end in
      match err with
      | Some RecvEOF => if negb (ap_reqCommit a) then finish (RecvError "unexpected EOF") else finish RecvEOF
      | Some (RecvError e) => finish (RecvError e)
      | None =>
          if ap_reqCommit a then finish (RecvError "expected EOF after empty Content chunk")
          else if Nat.eqb (length content) 0 then
            IoRet (mkAppender (ap_pln a) true (ap_reqErr a) (Some f) (ap_reqSummer a), true)
          else
            io! pln := scatter (ap_pln a) (content_request content (ContentLength f)) in
            let f := mkFragment (f_Journal f) (f_Begin f) (int64 (f_End f + Z.of_nat (length content)))
                       (f_Sum f) (f_CompressionCodec f) (f_BackingStore f) (f_ModTime f) in
            IoRet (mkAppender pln (ap_reqCommit a) (ap_reqErr a) (Some f) (ap_reqSummer a ++ content),
                   match sendErr pln with None => true | Some _ => false end)
      end
  end.

(** [for appender.onRecv(stream.Recv()) {}], over the messages received. *)
Fixpoint append_loop (a : appender) (msgs : list (AppendRequest + recv_err)) : ioresult appender :=
  match msgs with
  | [] => IoRetry
  | msg :: msgs =>
      io! (a, more) := onRecv a msg in
      if more : bool then append_loop a msgs else IoRet a
  end.

Inductive append_result :=
| AppendResp (resp : AppendResponse)
| AppendErr (err : recv_err).

(** [serveAppend]: what is released to the pipeline channel, a spool that was
    returned, and what the client gets. *)
Definition serveAppend (now : Z) (index : Index) (hdr : Header) (spec : JournalSpec_Fragment)
    (req : AppendRequest) (pln : pipeline S P) (msgs : list (AppendRequest + recv_err))
    : ioresult (option (pipeline S P) * option S * append_result) :=
  let po := f_End (sp_Frag (pl_spool pln)) in
  let eo := Index_EndOffset index in
  let offset := if po <? eo then eo else po in
  let run pln :=
    io! a := beginAppending now pln spec in
    io! a := append_loop a msgs in
    io! (released, s, err) := releasePipelineAndGatherResponse (ap_pln a) in
    IoRet (released, s,
      match ap_reqErr a, err with
      | Some e, _ => AppendErr e
      | None, Some e => AppendErr (RecvError e)
      | None, None => AppendResp (mkAppendResponse Status_OK (pl_Header (ap_pln a)) (ap_reqFragment a))
      end) in
  if negb (po =? offset) && (ar_Offset req =? 0) then
    IoRet (Some pln, None, AppendResp (mkAppendResponse INDEX_HAS_GREATER_OFFSET hdr None))
  else if ar_Offset req =? 0 then run pln
  else if negb (ar_Offset req =? offset) then
    IoRet (Some pln, None, AppendResp (mkAppendResponse WRONG_APPEND_OFFSET hdr None))
  else if negb (po =? offset) then
    io! pln := scatter pln (proposal_request (rolled_proposal (sp_Frag (pl_spool pln)) offset) false) in
    run pln
  else run pln.

(** [acquirePipeline] from what the pipeline and spool channels hold (a spool there is
    only when no pipeline has it): the channels after, the pipeline acquired or the
    revision to read through, or an error. *)
Definition acquirePipeline (fuel : nat) (hdr : Header) (dial : ProcessSpec_ID → P + string)
    (pln : option (pipeline S P)) (spoolCh : option S)
    : ioresult (option (option (pipeline S P)) * option S * (pipeline S P + Z * option string)) :=
  let pln := match pln with
             | Some p => if negb (pl_readThroughRev p =? 0) && (pl_readThroughRev p <=? Revision (Etcd hdr))
                         then None else Some p
             | None => None
             end in
  io! (pln, spoolCh) :=
    match pln with
    | Some p =>
        if (pl_readThroughRev p =? 0) && negb (Route_Equivalent (h_Route (pl_Header p)) (Some (h_Route hdr)))
           && (Revision (Etcd (pl_Header p)) <? Revision (Etcd hdr))
        then io! (_, s) := shutdown p in IoRet (None, Some s)
        else IoRet (Some p, spoolCh)
    | None => IoRet (None, spoolCh)
    end in
  io! (pln, spoolCh, err) :=
    match pln with
    | Some p => IoRet (Some p, spoolCh, None)
    | None =>
        match spoolCh with
        | None => IoRetry          (* Blocks until the spool is returned. *)
        | Some spool =>
            io! p := newPipeline hdr spool dial in
            io! (p, err, s) := synchronize fuel p in
            IoRet (Some p, s, err)
        end
    end in
  match err, pln with
  | Some e, _ => IoRet (Some None, spoolCh, inr (0, Some e))
  | None, Some p =>
      if negb (pl_readThroughRev p =? 0)
      then IoRet (Some (Some p), spoolCh, inr (pl_readThroughRev p, None))
      else IoRet (None, spoolCh, inl p)
  | None, None => IoPanic "nil pointer dereference"
  end.

(** [shutDownReplica]: the final roll of the spool, which persists its fragment. *)
Definition shutDownReplica (pln : option (pipeline S P)) (spoolCh : option S) : ioresult S :=
  io! spoolCh :=
    match pln with
    | Some p => if pl_readThroughRev p =? 0 then io! (_, s) := shutdown p in IoRet (Some s) else IoRet spoolCh
    | None => IoRet spoolCh
    end in
  match spoolCh with
  | None => IoRetry
  | Some sp =>
      let f := sp_Frag sp in
      sp_MustApply sp (proposal_request (mkFragment (f_Journal f) (f_End f) (f_End f) SHA1Sum_zero
        (f_CompressionCodec f) (f_BackingStore f) (f_ModTime f)) false)
  end.
End append.
Arguments appender : clear implicits.
Arguments append_result : clear implicits.

(** ** Lists of calls that return *)

Lemma io_map_returns {A B} (f : A → ioresult B) (R : A → B → Prop) l :
  Forall (λ x, ∃ y, f x = IoRet y ∧ R x y) l → ∃ l', io_map f l = IoRet l' ∧ Forall2 R l l'.
Proof.
  induction 1 as [|x l (y & Hy & HR) _ (l' & Hl & HF)]; [by exists []|].
  exists (y :: l'). split; [simpl; rewrite Hy; simpl; by rewrite Hl|by constructor].
Qed.

Lemma io_map_id {A} (f : A → ioresult A) l : Forall (λ x, f x = IoRet x) l → io_map f l = IoRet l.
Proof. induction 1 as [|x l Hx _ IH]; [done|]. simpl. rewrite Hx. simpl. by rewrite IH. Qed.

(** ** Answers of the specification to proposals *)

(** The fragments of spools: local, with a sum exactly when they have content. *)
Definition spool_fragment (f : Fragment) : Prop := ∃ a, f = a_fragment a.

Lemma a_fragment_len a : f_Begin (a_fragment a) ≤ f_End (a_fragment a).
Proof. simpl. unfold blen. lia. Qed.

(** A proposal of an empty fragment at or past the end rolls the spool to it. *)
Lemma aApply_roll a r p primary :
  rq_Proposal r = Some p → p = a_fragment (mkA (a_Journal a) (f_End p) (f_CompressionCodec p) [] []) →
  a_pending a = [] → f_End (a_fragment a) ≤ f_End p →
  ∃ evs, aApply a r primary =
    (mkA (a_Journal a) (f_End p) (f_CompressionCodec p) [] [], evs, response Status_OK None, None).
Proof.
  intros Hr Hp Hpend Hend. unfold aApply, a_roll. rewrite Hr.
  assert (f_Begin p = f_End p) as Hbe. { rewrite Hp at 1. done. }
  assert (a_must_roll a p = true) as ->.
  { unfold a_must_roll. apply orb_true_iff.
    destruct (decide (f_End (a_fragment a) = f_End p)) as [Heq|Hne].
    - right. by apply bool_decide_eq_true.
    - left. apply bool_decide_eq_true. simpl in *. rewrite Hpend, app_nil_r. lia. }
  rewrite bool_decide_eq_true_2 by done. by eexists.
Qed.

(** A spool with nothing pending either agrees to a proposal, or answers with its
    fragment, which ends no earlier than what is proposed. *)
Lemma aApply_proposal a r ap primary :
  rq_Proposal r = Some (a_fragment ap) → a_pending a = [] → a_Journal a = a_Journal ap → 0 ≤ a_Begin ap →
  ∃ a' evs resp, aApply a r primary = (a', evs, resp, None) ∧ a_pending a' = [] ∧ a_Journal a' = a_Journal ap ∧
    rp_Header resp = None ∧ f_End (a_fragment a) ≤ f_End (a_fragment a') ∧
    (rp_Status resp = Status_OK ∧ rp_Fragment resp = None ∧ a_fragment a' = a_fragment ap ∨
     rp_Status resp = FRAGMENT_MISMATCH ∧ rp_Fragment resp = Some (a_fragment a') ∧
     f_End (a_fragment ap) ≤ f_End (a_fragment a') ∧ 0 < f_End (a_fragment a') ∧
     (a_committed ap = [] → f_End (a_fragment ap) < f_End (a_fragment a)) ∧
     (f_End (a_fragment a') = f_End (a_fragment ap) →
        a_committed a' = [] ∨ a' = a ∧ a_fragment a ≠ a_fragment ap ∧ a_committed ap ≠ [])).
Proof.
  intros Hr Hpend Hj Hb. unfold aApply, a_roll. rewrite Hr.
  assert (blen (a_committed ap) = 0 ↔ a_committed ap = []) as Hempty.
  { unfold blen. destruct (a_committed ap); simpl; [done|]. split; [lia|done]. }
  assert (a_commit a = a) as Hac by (destruct a; unfold a_commit; simpl in *; by rewrite Hpend, app_nil_r).
  destruct (a_must_roll a (a_fragment ap)) eqn:Hm.
  - set (a1 := mkA _ _ _ [] []).
    assert (f_End (a_fragment a1) = f_End (a_fragment ap)) as He by (simpl; unfold blen; simpl; lia).
    assert (f_End (a_fragment a) ≤ f_End (a_fragment a1)) as Hfwd.
    { unfold a_must_roll in Hm. rewrite Hac in Hm.
      apply orb_true_iff in Hm as [Hm|Hm]; apply bool_decide_eq_true in Hm; lia. }
    case_bool_decide as H1; [by eexists _, _, _; split_and!; [..|left]|].
    change (a_commit a1) with a1. rewrite bool_decide_eq_false_2 by done.
    eexists _, _, _. split_and!; [done..|]. right.
    assert (a_committed ap = [] → False) as Hne.
    { intros Hc. apply H1. unfold a_fragment, a1. simpl. rewrite Hc. unfold blen. simpl. by rewrite !Z.add_0_r, Hj. }
    split_and!; [done|done|lia| |by intros ?%Hne|by left]. rewrite He.
    destruct (decide (0 < f_End (a_fragment ap))) as [|Hz]; [done|]. destruct Hne. apply Hempty.
    simpl in Hz. unfold blen in *. lia.
  - apply orb_false_iff in Hm as [Hm1%bool_decide_eq_false Hm2%bool_decide_eq_false].
    rewrite Hac in Hm1 |- *. case_bool_decide as H1; [by eexists _, _, _; split_and!; [..|left]|].
    eexists _, _, _. split_and!; [done..|]. right.
    assert (a_committed ap = [] → f_Begin (a_fragment ap) = f_End (a_fragment ap)) as Hbe.
    { intros Hc. simpl. rewrite Hc. unfold blen. simpl. lia. }
    split_and!; [done|done|lia| |intros Hc; specialize (Hbe Hc); lia|].
    + destruct (decide (0 < f_End (a_fragment a))) as [|Hz]; [done|]. exfalso. apply Hm2.
      assert (f_End (a_fragment ap) = 0 ∧ f_End (a_fragment a) = f_End (a_fragment ap)) as [Hz1 Hz2]; [|split; [done|]].
      * pose proof (a_fragment_len ap). pose proof (a_fragment_len a).
        assert (0 ≤ f_Begin (a_fragment ap)) by done. lia.
      * simpl in *. unfold blen in *. lia.
    + intros He. right. split_and!; [done|done|]. intros Hc. apply Hm2. split; [done|by apply Hbe].
Qed.

Lemma codec_valid c : CompressionCodec_Validate c = None ↔ codec_supported c = true.
Proof. by destruct c. Qed.

Lemma Journal_Validate_nonempty j : Journal_Validate j = None → String.eqb j "" = false.
Proof. destruct j; [vm_compute; done|done]. Qed.

Lemma sync_request_valid `{UrlParser} hdr j id a :
  Journal_Validate j = None → Header_Validate (boxHeaderProcessID hdr id) = None →
  a_Journal a = j → codec_supported (a_Codec a) = true →
  ReplicateRequest_Validate (request_for (sync_request hdr j (a_fragment a)) id) = None.
Proof.
  intros Hj Hh Ha Hc. unfold ReplicateRequest_Validate.
  cbn [request_for sync_request rq_Header rq_Journal rq_Proposal rq_Content rq_ContentDelta rq_Acknowledge].
  rewrite (Journal_Validate_nonempty j Hj). cbn [negb]. unfold Fragment_Validate.
  autorewrite with validate. rewrite codec_valid. cbn [f_Journal a_fragment f_CompressionCodec].
  rewrite Ha, Hj, String.eqb_refl. split_and!; try done. apply a_fragment_len.
Qed.

Section theorems.
Context {S : Type} `{ReplicaSpoolLaws S, UrlParser}.
Abbreviation node := (server S).
Abbreviation peer_t := (peer node).
Abbreviation pipeline_t := (pipeline S node).

(** A server that accepts the route of the pipeline. *)
Definition accepts (hdr : Header) (sv : node) : Prop :=
  match sv_phase sv with
  | Fresh => ∀ r, ∃ res, sv_resolve sv r = inl res ∧ res_status res = Status_OK ∧
               Route_Equivalent (h_Route (res_Header res)) (Some (h_Route hdr)) = true
  | Serving _ => True
  | Ended _ => False
  end.

(** A member's entries at the start of a round: no errors, and a spool that holds
    nothing pending. The primary has no stream. *)
Record peer_ready (hdr : Header) (j : Journal) (pr : peer_t) : Prop := {
  ready_errs : pr_sendErr pr = None ∧ pr_recvErr pr = None;
  ready_id : Header_Validate (boxHeaderProcessID hdr (pr_id pr)) = None;
  ready_stream : ∀ sv, pr_stream pr = Some sv →
    accepts hdr sv ∧ sv_out sv = [] ∧ sp_inv (sv_spool sv) ∧
    a_pending (sp_abs (sv_spool sv)) = [] ∧ a_Journal (sp_abs (sv_spool sv)) = j;
}.

Definition peer_abs (pr : peer_t) : option aSpool := (λ sv, sp_abs (sv_spool sv)) <$> pr_stream pr.

Record pln_ready (j : Journal) (pln : pipeline_t) : Prop := {
  pr_journal : Journal_Validate j = None;
  pr_primary : 0 ≤ Primary (h_Route (pl_Header pln)) ∧
    ∃ pr, pl_peers pln !! Z.to_nat (Primary (h_Route (pl_Header pln))) = Some pr ∧ pr_stream pr = None;
  pr_spool : sp_inv (pl_spool pln) ∧ a_pending (sp_abs (pl_spool pln)) = [] ∧ a_Journal (sp_abs (pl_spool pln)) = j;
  pr_peers : Forall (peer_ready (pl_Header pln) j) (pl_peers pln);
}.

(** A served proposal: the server answers as the specification says, and serves on. *)
Lemma serve_proposal sv hdr j id ap :
  accepts hdr sv → sp_inv (sv_spool sv) → a_pending (sp_abs (sv_spool sv)) = [] →
  a_Journal (sp_abs (sv_spool sv)) = j → sv_out sv = [] →
  Journal_Validate j = None → Header_Validate (boxHeaderProcessID hdr id) = None →
  a_Journal ap = j → codec_supported (a_Codec ap) = true → 0 ≤ a_Begin ap → f_End (a_fragment ap) ≤ MaxInt64 →
  let r := request_for (sync_request hdr j (a_fragment ap)) id in
  ∃ s' h evs resp, server_Send sv r = IoRet (sv_with sv s' (Serving None) [mkReplicateResponse (rp_Status resp) h (rp_Fragment resp)], None) ∧
    sp_inv s' ∧ aApply (sp_abs (sv_spool sv)) r false = (sp_abs s', evs, resp, None).
Proof.
  intros Hacc Hinv Hpend Hj Hout Hjv Hh Hap Hc Hb Hmax r.
  pose proof (sync_request_valid hdr j id ap Hjv Hh Hap Hc) as Hval. fold r in Hval.
  destruct (law_Apply (sv_spool sv) r false Hinv) as (s' & evs & resp & err & Happ & Hinv' & Ha).
  { simpl. split; [|done]. split; [|done]. split; [done|apply a_fragment_len]. }
  destruct (aApply_proposal (sp_abs (sv_spool sv)) r ap false) as (a' & evs' & resp' & Ha' & _); [done..|congruence|done|].
  rewrite Ha in Ha'. assert (err = None) as -> by (by injection Ha').
  assert (∀ h, serveReplicate sv h r =
    IoRet (sv_with sv s' (Serving None) [mkReplicateResponse (rp_Status resp) h (rp_Fragment resp)])) as Hserve.
  { intros h. unfold serveReplicate. rewrite Happ. simpl. by rewrite Hout. }
  assert (∃ h, Replicate sv r =
    IoRet (sv_with sv s' (Serving None) [mkReplicateResponse (rp_Status resp) h (rp_Fragment resp)])) as [h Hrep].
  { unfold Replicate, accepts in *. rewrite Hval. destruct (sv_phase sv) as [|h|]; [|eauto|done].
    destruct (Hacc r) as (res & -> & -> & Heq). rewrite bool_decide_eq_true_2 by done.
    change (rq_Header r) with (Some (boxHeaderProcessID hdr id)). cbn [negb boxHeaderProcessID h_Route].
    rewrite Heq. cbn [negb]. eauto. }
  exists s', h, evs, resp. split_and!; [|done..]. unfold server_Send. rewrite Hrep.
  unfold accepts in Hacc. by destruct (sv_phase sv).
Qed.
(** What a member's entries say after a round that proposed the fragment of [ap]. *)
Definition answered (ap : aSpool) (pr pr' : peer_t) : Prop :=
  match peer_abs pr, peer_abs pr' with
  | None, None => pr_stream pr' = None
  | Some a, Some a' =>
      let resp := pr_recvResp pr' in
      f_End (a_fragment a) ≤ f_End (a_fragment a') ∧
      (rp_Status resp = Status_OK ∧ a_fragment a' = a_fragment ap ∨
      rp_Status resp = FRAGMENT_MISMATCH ∧ rp_Fragment resp = Some (a_fragment a') ∧
      f_End (a_fragment ap) ≤ f_End (a_fragment a') ∧ 0 < f_End (a_fragment a') ∧
      (a_committed ap = [] → f_End (a_fragment ap) < f_End (a_fragment a)) ∧
      (f_End (a_fragment a') = f_End (a_fragment ap) →
         a_committed a' = [] ∨ a' = a ∧ a_fragment a ≠ a_fragment ap ∧ a_committed ap ≠ []))
  | _, _ => False
  end.

Definition proposes (j : Journal) (ap : aSpool) : Prop :=
  a_Journal ap = j ∧ codec_supported (a_Codec ap) = true ∧ 0 ≤ a_Begin ap ∧ f_End (a_fragment ap) ≤ MaxInt64.

(** After the send of a round; [pr'] is what the gather will make of it. *)
Definition sent (hdr : Header) (j : Journal) (ap : aSpool) (pr pr1 : peer_t) : Prop :=
  pr_sendErr pr1 = None ∧ (pr_stream pr = None → pr1 = pr) ∧
  ∃ pr', gather_peer pr1 = IoRet pr' ∧ peer_ready hdr j pr' ∧ answered ap pr pr'.

Lemma peer_round hdr j ap pr :
  Journal_Validate j = None → proposes j ap → peer_ready hdr j pr →
  ∃ pr1, send_peer (sync_request hdr j (a_fragment ap)) pr = IoRet pr1 ∧ sent hdr j ap pr pr1.
Proof.
  intros Hj (Hap & Hc & Hb & Hmax) Hready. pose proof Hready as [[Hse Hre] Hid Hst].
  unfold send_peer, sent, answered, peer_abs. rewrite Hse. destruct (pr_stream pr) as [sv|] eqn:Hsv.
  2:{ exists pr. split_and!; [done..|]. exists pr. unfold gather_peer. by rewrite Hsv. }
  destruct (Hst sv eq_refl) as (Hacc & Hout & Hinv & Hpend & Hjs).
  destruct (serve_proposal sv hdr j (pr_id pr) ap) as (s' & h & evs & resp & Hsend & Hinv' & Ha); [done..|].
  destruct (aApply_proposal (sp_abs (sv_spool sv)) (request_for (sync_request hdr j (a_fragment ap)) (pr_id pr)) ap false)
    as (a' & evs' & resp' & Ha' & Hp' & Hj' & _ & Hfwd & Hans); [done..|congruence|done|].
  rewrite Ha in Ha'. injection Ha' as <- -> ->. cbn [st_Send server_stream]. rewrite Hsend. cbn [io_bind].
  eexists. split; [reflexivity|]. split_and!; [done|done|].
  unfold gather_peer. cbn [with_sent pr_stream pr_recvErr]. rewrite Hre. cbn [st_Recv server_stream server_Recv sv_with sv_out io_bind].
  eexists. split; [reflexivity|]. split.
  - split; [done|done|]. intros sv' [= <-]. cbn [sv_out sv_with sv_spool]. split_and!; [done|done|done|done|congruence].
  - cbn [with_recv with_sent pr_stream pr_recvResp rp_Status rp_Fragment sv_with sv_spool fmap option_fmap option_map].
    split; [done|]. destruct Hans as [(? & _ & ?)|(? & ? & ? & ? & ? & ?)]; [left|right]; by split_and!.
Qed.

Lemma peers_round hdr j ap l :
  Journal_Validate j = None → proposes j ap → Forall (peer_ready hdr j) l →
  ∃ l1, io_map (send_peer (sync_request hdr j (a_fragment ap))) l = IoRet l1 ∧ Forall2 (sent hdr j ap) l l1.
Proof.
  intros Hj Hap Hl. apply io_map_returns. eapply Forall_impl; [exact Hl|]. intros pr Hpr. by apply peer_round.
Qed.

Lemma gather_round hdr j ap l l1 :
  Forall2 (sent hdr j ap) l l1 →
  ∃ l', io_map gather_peer l1 = IoRet l' ∧ Forall (peer_ready hdr j) l' ∧ Forall2 (answered ap) l l'.
Proof.
  induction 1 as [|pr pr1 l l1 (_ & _ & pr' & Hg & Hr & Ha) _ (l' & Hl & HF & H2)]; [by exists []|].
  exists (pr' :: l'). split_and!; [|by constructor..]. simpl. rewrite Hg. simpl. by rewrite Hl.
Qed.

(** One scatter and gather of a synchronization round. *)
Lemma sync_round j ap pln a' evs :
  pln_ready j pln → proposes j ap →
  aApply (sp_abs (pl_spool pln)) (sync_request (pl_Header pln) j (a_fragment ap)) true
    = (a', evs, response Status_OK None, None) →
  a_pending a' = [] → a_Journal a' = j →
  ∃ pln1 pln', scatter pln (sync_request (pl_Header pln) j (a_fragment ap)) = IoRet pln1 ∧
    gather pln1 = IoRet pln' ∧ pln_ready j pln' ∧ sp_abs (pl_spool pln') = a' ∧
    pl_Header pln1 = pl_Header pln ∧ pl_Header pln' = pl_Header pln ∧ pl_readThroughRev pln' = pl_readThroughRev pln ∧
    Forall2 (answered ap) (pl_peers pln) (pl_peers pln').
Proof.
  intros [Hj [Hp0 (pr0 & Hpr0 & Hnone)] (Hinv & _ & _) Hpeers] Hap Ha Hpe Hja. set (r := sync_request _ _ _) in *.
  destruct (peers_round _ _ _ _ Hj Hap Hpeers) as (l1 & Hl1 & HF1). fold r in Hl1.
  destruct (gather_round _ _ _ _ _ HF1) as (l' & Hl' & HF' & Hans).
  destruct (Forall2_lookup_l _ _ _ _ _ HF1 Hpr0) as (pr1 & Hpr1 & Hse & Heq & _). specialize (Heq Hnone). subst pr1.
  destruct (law_Apply (pl_spool pln) r true Hinv) as (s' & evs' & resp & err & Happ & Hinv' & Ha').
  { destruct Hap as (_ & Hc & Hb & Hmax). simpl. split; [|done]. split; [|done]. split; [done|apply a_fragment_len]. }
  rewrite Ha in Ha'. injection Ha' as -> <- <- <-.
  assert (scatter pln r = IoRet (with_spool (with_peers pln l1) s')) as Hsc.
  { unfold scatter. rewrite Hl1. cbn [io_bind]. destruct (Z.ltb_spec (Primary (h_Route (pl_Header pln))) 0); [lia|].
    rewrite Hpr1, Hse, Happ. cbn [io_bind response rp_Status]. rewrite bool_decide_eq_true_2 by done. cbn [negb fmap option_fmap option_map].
    rewrite list_insert_id; [done|]. rewrite Hpr1. by destruct pr0; simpl in *; subst. }
  exists (with_spool (with_peers pln l1) s'), (with_spool (with_peers pln l') s'). split_and!; try done.
  - unfold gather. cbn [with_spool with_peers pl_peers]. by rewrite Hl'.
  - split; [done| |done|done]. split; [done|].
    destruct (Forall2_lookup_l _ _ _ _ _ Hans Hpr0) as (pr' & Hpr' & Hans'). exists pr'. split; [done|].
    unfold answered, peer_abs in Hans'. rewrite Hnone in Hans'. simpl in Hans'. by destruct (pr_stream pr').
Qed.
(** An answer on which the primary can act. *)
Definition agreeable (ap : aSpool) (pr : peer_t) : Prop := ∀ a, peer_abs pr = Some a →
  rp_Status (pr_recvResp pr) = Status_OK ∧ a_fragment a = a_fragment ap ∨
  rp_Status (pr_recvResp pr) = FRAGMENT_MISMATCH ∧ rp_Fragment (pr_recvResp pr) = Some (a_fragment a) ∧
  f_End (a_fragment ap) ≤ f_End (a_fragment a) ∧ 0 < f_End (a_fragment a) ∧
  (f_End (a_fragment a) = f_End (a_fragment ap) → a_committed a = []).

(** The greatest offset a member advertises. *)
Definition rolls_to (ap : aSpool) (l : list peer_t) (roll roll' : Z) : Prop :=
  roll ≤ roll' ∧ (roll < roll' → f_End (a_fragment ap) ≤ roll' ≤ MaxInt64) ∧
  ((∀ pr a, pr ∈ l → peer_abs pr = Some a → rp_Status (pr_recvResp pr) = Status_OK) → roll' = roll) ∧
  (∀ pr a, pr ∈ l → peer_abs pr = Some a →
     a_fragment a = a_fragment ap ∨ 0 < f_End (a_fragment a) ≤ roll' ∧ f_End (a_fragment ap) ≤ roll').

Lemma ready_bounds hdr j pr a : peer_ready hdr j pr → peer_abs pr = Some a →
  0 ≤ a_Begin a ∧ f_End (a_fragment a) ≤ MaxInt64.
Proof.
  intros [_ _ Hst] Ha. unfold peer_abs in Ha. apply fmap_Some in Ha as (sv & Hsv & ->).
  destruct (Hst sv Hsv) as (_ & _ & Hinv & _). destruct (law_bounds _ Hinv) as [? Hmax]. split; [done|].
  simpl in *. unfold blen in *. rewrite length_app in Hmax. lia.
Qed.

Lemma sync_peers_spec hdr j ap l roll rev :
  Forall (peer_ready hdr j) l → Forall (agreeable ap) l →
  ∃ roll', sync_peers hdr (a_fragment ap) l roll rev = IoRet (l, roll', rev) ∧ rolls_to ap l roll roll'.
Proof.
  intros Hl. revert roll. induction Hl as [|pr l Hpr _ IH]; intros roll Hag.
  { exists roll. split; [done|]. split_and!; [lia|lia|done|]. intros pr a Hin. by apply not_elem_of_nil in Hin. }
  apply Forall_cons in Hag as [Hag Hags]. destruct Hpr as [[Hse Hre] Hid Hst] eqn:Hpr'. clear Hpr'.
  assert (∃ roll1, sync_peer hdr (a_fragment ap) pr roll rev = IoRet (pr, roll1, rev) ∧ rolls_to ap [pr] roll roll1)
    as (roll1 & Hone & Hr1a & Hr1b & Hr1d & Hr1c).
  { unfold sync_peer, live. rewrite Hre. destruct (pr_stream pr) as [sv|] eqn:Hsv; cbn [negb].
    2:{ exists roll. split; [done|]. split_and!; [lia|lia|done|]. intros pr' a ->%list_elem_of_singleton.
        unfold peer_abs. by rewrite Hsv. }
    assert (peer_abs pr = Some (sp_abs (sv_spool sv))) as Hpa by (unfold peer_abs; by rewrite Hsv).
    set (a := sp_abs (sv_spool sv)) in *. destruct (ready_bounds hdr j pr a Hpr Hpa) as [Hb Hmax]. clearbody a.
    assert (∀ r, (∀ b, peer_abs pr = Some b →
      a_fragment b = a_fragment ap ∨ 0 < f_End (a_fragment b) ≤ r ∧ f_End (a_fragment ap) ≤ r) →
      ∀ pr' b, pr' ∈ [pr] → peer_abs pr' = Some b →
      a_fragment b = a_fragment ap ∨ 0 < f_End (a_fragment b) ≤ r ∧ f_End (a_fragment ap) ≤ r) as Hsing.
    { intros r Hall pr' b ->%list_elem_of_singleton. auto. }
    destruct (Hag a Hpa) as [[-> Heq]|(Hst' & -> & He & Hpos & Hempty)]; [|rewrite Hst'].
    { exists roll. split; [done|]. split_and!; [lia|lia|done|]. apply Hsing. intros b Hb'. assert (b = a) as -> by congruence. by left. }
    assert ((f_End (a_fragment ap) <? f_End (a_fragment a)) ||
            ((f_End (a_fragment a) =? f_End (a_fragment ap)) && (ContentLength (a_fragment a) =? 0)) = true) as ->.
    { destruct (Z.ltb_spec (f_End (a_fragment ap)) (f_End (a_fragment a))) as [|Hge]; [done|]. cbn [orb].
      assert (f_End (a_fragment a) = f_End (a_fragment ap)) as Hee by lia.
      rewrite (proj2 (Z.eqb_eq _ _) Hee). cbn [andb]. unfold ContentLength. cbn [a_fragment f_End f_Begin].
      rewrite (Hempty Hee). unfold blen. cbn [length]. rewrite Z.add_0_r, Z.sub_diag. reflexivity. }
    eexists. split; [reflexivity|]. destruct (Z.ltb_spec roll (f_End (a_fragment a))) as [Hlt|Hge].
    - split_and!; [lia|lia| |].
      { intros Hok. rewrite (Hok pr a (list_elem_of_here _ _) Hpa) in Hst'. done. }
      apply Hsing. intros b Hb'. assert (b = a) as -> by congruence. right. lia.
    - split_and!; [lia|lia|done|]. apply Hsing. intros b Hb'. assert (b = a) as -> by congruence. right. lia. }
  destruct (IH roll1 Hags) as (roll2 & Hrest & Hr2a & Hr2b & Hr2d & Hr2c).
  exists roll2. split; [simpl; rewrite Hone; simpl; by rewrite Hrest|]. split_and!; [lia| | |].
  - intros Hlt. destruct (decide (roll1 < roll2)) as [|Hn]; [by apply Hr2b|].
    replace roll2 with roll1 by lia. apply Hr1b. lia.
  - intros Hok. rewrite Hr2d; [apply Hr1d|]; intros pr' a Hin; apply Hok.
    + apply list_elem_of_singleton in Hin as ->. apply list_elem_of_here.
    + by apply elem_of_cons; right.
  - intros pr' a [-> |Hin]%elem_of_cons Hpa; [|by eapply Hr2c].
    destruct (Hr1c pr a) as [?|?]; [apply list_elem_of_here|done|by left|right; lia].
Qed.
Lemma first_err_none l : Forall (λ e, e = None) l → first_err l = None.
Proof. by induction 1 as [|e l -> _ IH]. Qed.

Lemma ready_no_err j pln : pln_ready j pln → recvErr pln = None ∧ sendErr pln = None.
Proof.
  intros [_ _ _ Hl]. split; apply first_err_none, Forall_fmap; (eapply Forall_impl; [exact Hl|]); by intros pr [[? ?] _ _].
Qed.

(** One round of [synchronize] to which every member gives an answer it can act on. *)
Lemma sync_loop_step fuel j ap pln a' evs :
  pln_ready j pln → proposes j ap → a_Journal (sp_abs (pl_spool pln)) = j →
  aApply (sp_abs (pl_spool pln)) (sync_request (pl_Header pln) j (a_fragment ap)) true
    = (a', evs, response Status_OK None, None) →
  a_pending a' = [] → a_Journal a' = j →
  (∀ pr pr', pr ∈ pl_peers pln → answered ap pr pr' → agreeable ap pr') →
  ∃ pln' roll, pln_ready j pln' ∧ sp_abs (pl_spool pln') = a' ∧
    pl_Header pln' = pl_Header pln ∧ pl_readThroughRev pln' = pl_readThroughRev pln ∧
    Forall2 (answered ap) (pl_peers pln) (pl_peers pln') ∧ rolls_to ap (pl_peers pln') 0 roll ∧
    sync_loop (Datatypes.S fuel) pln (a_fragment ap) =
      if negb (roll =? 0) then sync_loop fuel pln' (rolled_proposal (a_fragment ap) roll)
      else IoRet (pln', None, None).
Proof.
  intros Hr Hap Hj Ha Hpe Hja Hag.
  destruct (sync_round j ap pln a' evs Hr Hap Ha Hpe Hja) as (pln1 & pln' & Hsc & Hga & Hr' & Habs & Hh1 & Hh' & Hrev & Hans).
  assert (Forall (agreeable ap) (pl_peers pln')) as Hag'.
  { apply Forall_forall. intros pr' [i Hi]%list_elem_of_lookup.
    destruct (Forall2_lookup_r _ _ _ _ _ Hans Hi) as (pr & Hpr & Ha'). eapply Hag; [|done].
    by eapply list_elem_of_lookup_2. }
  destruct (sync_peers_spec (pl_Header pln') j ap (pl_peers pln') 0 0) as (roll & Hsp & Hroll); [by apply Hr'|done|].
  exists pln', roll. split_and!; try done. cbn [sync_loop].
  rewrite (law_Frag (pl_spool pln)) by apply Hr. cbn [a_fragment f_Journal]. rewrite Hj.
  rewrite Hsc. cbn [io_bind]. unfold gatherSync. rewrite Hga. cbn [io_bind]. rewrite Hsp. cbn [io_bind].
  replace (with_peers pln' (pl_peers pln')) with pln' by (by destruct pln').
  destruct (ready_no_err j pln' Hr') as [-> ->]. by destruct (negb (roll =? 0)).
Qed.

(** Members hold the fragment of the primary, and nothing pending. *)
Definition in_sync (j : Journal) (pln : pipeline_t) : Prop :=
  pln_ready j pln ∧
  ∀ pr a, pr ∈ pl_peers pln → peer_abs pr = Some a → a_fragment a = a_fragment (sp_abs (pl_spool pln)).

(** Spools of one journal with content up to one offset have the same fragment. *)
Definition no_conflict (ap : aSpool) (pr : peer_t) : Prop := ∀ a, peer_abs pr = Some a →
  f_End (a_fragment a) = f_End (a_fragment ap) →
  a_fragment a = a_fragment ap ∨ a_committed a = [] ∨ a_committed ap = [].

Lemma answered_ends ap l l' e :
  Forall2 (answered ap) l l' →
  (∀ pr' a', pr' ∈ l' → peer_abs pr' = Some a' → f_End (a_fragment a') ≤ e) →
  ∀ pr a, pr ∈ l → peer_abs pr = Some a → f_End (a_fragment a) ≤ e.
Proof.
  intros Hans Hle pr a [i Hi]%list_elem_of_lookup Hpa.
  destruct (Forall2_lookup_l _ _ _ _ _ Hans Hi) as (pr' & Hi' & Ha'). unfold answered in Ha'. rewrite Hpa in Ha'.
  destruct (peer_abs pr') as [a'|] eqn:Hpa'; [|done]. destruct Ha' as [Hfwd _].
  specialize (Hle pr' a' (list_elem_of_lookup_2 _ _ _ Hi') Hpa'). lia.
Qed.

(** Everyone agrees to roll to an offset no one is past. *)
Lemma answered_roll ap pr pr' a' :
  answered ap pr pr' → a_committed ap = [] →
  (∀ a, peer_abs pr = Some a → f_End (a_fragment a) ≤ f_End (a_fragment ap)) →
  peer_abs pr' = Some a' → rp_Status (pr_recvResp pr') = Status_OK ∧ a_fragment a' = a_fragment ap.
Proof.
  intros Hans Hc Hle Hpa'. unfold answered in Hans. rewrite Hpa' in Hans.
  destruct (peer_abs pr) as [a|]; [|done]. destruct Hans as [_ [?|(_ & _ & _ & _ & Hlt & _)]]; [done|].
  specialize (Hle a eq_refl). specialize (Hlt Hc). lia.
Qed.

(** Members that are asked to roll to an offset which is no less than their ends do so. *)
Lemma sync_rolls fuel j pln1 ap roll :
  pln_ready j pln1 → sp_abs (pl_spool pln1) = ap → proposes j ap → a_Journal ap = j → f_End (a_fragment ap) ≤ roll ≤ MaxInt64 → roll ≠ 0 →
  (∀ pr a, pr ∈ pl_peers pln1 → peer_abs pr = Some a → f_End (a_fragment a) ≤ roll) →
  ∃ pln2, sync_loop (Datatypes.S fuel) pln1 (rolled_proposal (a_fragment ap) roll) = IoRet (pln2, None, None) ∧ in_sync j pln2 ∧
    pl_Header pln2 = pl_Header pln1 ∧ pl_readThroughRev pln2 = pl_readThroughRev pln1 ∧ f_End (a_fragment (sp_abs (pl_spool pln2))) = roll.
Proof.
  intros Hr1 Habs1 Hap Hj Hle Hroll Hends1. pose proof (pr_spool _ _ Hr1) as (Hinv & Hpend & _). rewrite Habs1 in Hpend.
  pose proof (law_codec _ Hinv) as Hc. destruct (law_bounds _ Hinv) as [Hb _]. rewrite Habs1 in Hc, Hb.
  set (ap2 := mkA j roll (a_Codec ap) [] []).
  assert (rolled_proposal (a_fragment ap) roll = a_fragment ap2) as ->.
  { unfold rolled_proposal, a_fragment, ap2, blen. simpl. by rewrite Z.add_0_r, Hj. }
  assert (f_End (a_fragment ap2) = roll) as Hend2 by (simpl; unfold blen; simpl; lia).
  assert (proposes j ap2) as Hap2.
  { split_and!; [done|done| |lia]. simpl. pose proof (a_fragment_len ap). simpl in *. lia. }
  destruct (aApply_roll ap (sync_request (pl_Header pln1) j (a_fragment ap2)) (a_fragment ap2) true) as [evs2 Ha2];
    [done|by rewrite Hend2, Hj|done|lia|]. rewrite Hend2, Hj in Ha2.
  assert (∀ pr pr' a', pr ∈ pl_peers pln1 → answered ap2 pr pr' → peer_abs pr' = Some a' →
    rp_Status (pr_recvResp pr') = Status_OK ∧ a_fragment a' = a_fragment ap2) as Hall.
  { intros pr pr' a' Hin Hans. apply (answered_roll ap2 pr pr' a'); [done..|].
    intros a Hpa. rewrite Hend2. by apply (Hends1 pr). }
  destruct (sync_loop_step fuel j ap2 pln1 ap2 evs2 Hr1 Hap2) as
    (pln2 & roll2 & Hr2 & Habs2 & Hh2 & Hrev2 & Hans2 & (_ & _ & Hzero & _) & ->);
    [by rewrite Habs1|by rewrite Habs1|done|done| |].
  { intros pr pr' Hin Hans a' Ha'. left. by apply (Hall pr). }
  assert (∀ pr' a', pr' ∈ pl_peers pln2 → peer_abs pr' = Some a' →
    rp_Status (pr_recvResp pr') = Status_OK ∧ a_fragment a' = a_fragment ap2) as Hall2.
  { intros pr' a' [i Hi]%list_elem_of_lookup Hpa'.
    destruct (Forall2_lookup_r _ _ _ _ _ Hans2 Hi) as (pr & Hpr & Ha'). apply (Hall pr); [|done..].
    by eapply list_elem_of_lookup_2. }
  rewrite Hzero by (intros pr' a' ??; by eapply Hall2). cbn [negb Z.eqb]. exists pln2. split_and!; [done| |congruence..|by rewrite Habs2].
  split; [done|]. intros pr a Hin Hpa. rewrite Habs2. by eapply Hall2.
Qed.

(** C11: Synchronization converges. Let members accept the pipeline's route and hold nothing pending. Their spools may have reached
    different offsets; but a spool that ends where the primary's does, and of which both have content, must hold
    the same fragment (a replica of [5, 10) beside a primary of [0, 10) answers FRAGMENT_MISMATCH, which is an error). Then [synchronize] returns
    after at most two rounds, without error and without a panic of the primary; every member
    then holds the same fragment as the primary, which ends no earlier than any did. *)
Theorem synchronize_converges fuel j pln :
  pln_ready j pln → Forall (no_conflict (sp_abs (pl_spool pln))) (pl_peers pln) → (2 ≤ fuel)%nat →
  ∃ pln', synchronize fuel pln = IoRet (pln', None, None) ∧ in_sync j pln' ∧
    pl_Header pln' = pl_Header pln ∧ pl_readThroughRev pln' = pl_readThroughRev pln ∧
    (∀ pr a, pr ∈ pl_peers pln → peer_abs pr = Some a →
       f_End (a_fragment a) ≤ f_End (a_fragment (sp_abs (pl_spool pln')))).
Proof.
  intros Hr Hnc Hfuel. destruct fuel as [|[|fuel]]; [lia..|].
  destruct (pr_spool _ _ Hr) as (Hinv & Hpend & Hj). set (ap := sp_abs (pl_spool pln)) in *.
  destruct (law_bounds _ Hinv) as [Hb Hmax]. pose proof (law_codec _ Hinv) as Hc. fold ap in Hb, Hmax, Hc.
  assert (a_commit ap = ap) as Hac by (destruct ap; unfold a_commit; simpl in *; by rewrite Hpend, app_nil_r).
  rewrite Hac in Hmax. assert (proposes j ap) as Hap by done.
  assert (a_rollback ap = ap) as Hrb by (destruct ap; unfold a_rollback; simpl in *; by rewrite Hpend).
  unfold synchronize. rewrite (law_Frag _ Hinv). fold ap.
  destruct (sync_loop_step (Datatypes.S fuel) j ap pln ap [] Hr Hap Hj) as
    (pln1 & roll & Hr1 & Habs1 & Hh1 & Hrev1 & Hans1 & (Hroll0 & Hrollb & _ & Hrolls) & ->).
  { fold ap. rewrite aApply_self by done. by rewrite Hrb. }
  { done. } { done. }
  { intros pr pr' Hin Hans a' Ha'. unfold answered in Hans. rewrite Ha' in Hans.
    destruct (peer_abs pr) as [a|] eqn:Ha; [|done].
    destruct Hans as [_ [[? ?]|(? & ? & ? & ? & Hlt & He)]]; [by left|right].
    split_and!; [done..|]. intros Heq. destruct (He Heq) as [?|(-> & Hne & Hnil)]; [done|].
    rewrite Forall_forall in Hnc. destruct (Hnc pr Hin a Ha Heq) as [?|[?|?]]; done. }
  destruct (Z.eqb_spec roll 0) as [-> |Hroll]; cbn [negb].
  { (* All members agreed. *)
    assert (in_sync j pln1) as Hsync.
    { split; [done|]. intros pr a Hin Hpa. rewrite Habs1. destruct (Hrolls pr a Hin Hpa) as [?|?]; [done|lia]. }
    exists pln1. split_and!; try done. apply (answered_ends _ _ _ _ Hans1).
    intros pr' a' Hin Hpa. by rewrite (proj2 Hsync pr' a'). }
  (* The members roll to the greatest offset. *)
  assert (f_End (a_fragment ap) ≤ roll ≤ MaxInt64) as Hle by (apply Hrollb; lia).
  assert (∀ pr a, pr ∈ pl_peers pln1 → peer_abs pr = Some a → f_End (a_fragment a) ≤ roll) as Hends1.
  { intros pr a Hin Hpa. destruct (Hrolls pr a Hin Hpa) as [-> |?]; lia. }
  destruct (sync_rolls fuel j pln1 ap roll Hr1 Habs1 Hap Hj) as (pln2 & Hrun & Hsync & Hh2 & Hrev2 & Hend2); [done..|].
  exists pln2. split_and!; [done|done|congruence..|]. apply (answered_ends _ _ _ _ Hans1). intros pr a Hin Hpa. rewrite Hend2. by eapply Hends1.
Qed.
(** ** Appends *)

(** A serving member whose spool is [a], with [k] acknowledgements on their way. *)
Record member_at (a : aSpool) (k : nat) (pr : peer_t) : Prop := {
  at_errs : pr_sendErr pr = None ∧ pr_recvErr pr = None;
  at_stream : ∀ sv, pr_stream pr = Some sv →
    (∃ h, sv_phase sv = Serving h) ∧ sp_inv (sv_spool sv) ∧ sp_abs (sv_spool sv) = a ∧
    length (sv_out sv) = k ∧ Forall (λ resp, rp_Status resp = Status_OK) (sv_out sv);
}.

(** Primary and members hold the same content. *)
Record aligned (a : aSpool) (k : nat) (pln : pipeline_t) : Prop := {
  al_primary : 0 ≤ Primary (h_Route (pl_Header pln)) ∧
    ∃ pr, pl_peers pln !! Z.to_nat (Primary (h_Route (pl_Header pln))) = Some pr ∧ pr_stream pr = None;
  al_spool : sp_inv (pl_spool pln) ∧ sp_abs (pl_spool pln) = a;
  al_peers : Forall (member_at a k) (pl_peers pln);
}.

(** A request to which a spool in state [a] agrees, moving to [a']. *)
Record agreed (a : aSpool) (r : ReplicateRequest) (a' : aSpool) : Prop := {
  ag_header : rq_Header r = None;
  ag_valid : ReplicateRequest_Validate r = None;
  ag_bounds : match rq_Proposal r with
              | Some p => proposal_ok p ∧ codec_supported (f_CompressionCodec p) = true
              | None => f_End (a_fragment (a_commit a)) + blen (default [] (rq_Content r)) ≤ MaxInt64
              end;
  ag_apply : ∀ primary, ∃ evs, aApply a r primary = (a', evs, response Status_OK None, None);
}.

(** The parts of a pipeline that its requests leave alone. *)
Definition kept (pln pln' : pipeline_t) : Prop :=
  pl_Header pln' = pl_Header pln ∧ pl_readThroughRev pln' = pl_readThroughRev pln.

Lemma kept_trans p1 p2 p3 : kept p1 p2 → kept p2 p3 → kept p1 p3.
Proof. intros [? ?] [? ?]. split; congruence. Qed.

Definition acks (r : ReplicateRequest) : nat := if rq_Acknowledge r then 1%nat else 0%nat.

Lemma request_for_id r id : rq_Header r = None → request_for r id = r.
Proof. destruct r. simpl. by intros ->. Qed.

Lemma send_agreed a r a' k pr :
  agreed a r a' → member_at a k pr →
  ∃ pr', send_peer r pr = IoRet pr' ∧ member_at a' (k + acks r) pr' ∧ (pr_stream pr = None → pr' = pr).
Proof.
  intros [Hh Hv Hb Ha] [[Hse Hre] Hst]. unfold send_peer. rewrite Hse.
  destruct (pr_stream pr) as [sv|] eqn:Hsv.
  2:{ exists pr. split_and!; [done| |done]. split; [done|]. intros sv' Hsv'. congruence. }
  destruct (Hst sv eq_refl) as ([h Hph] & Hinv & Habs & Hlen & Hok).
  destruct (law_Apply (sv_spool sv) r false Hinv) as (s' & evs & resp & err & Happ & Hinv' & Hspec); [by rewrite Habs|].
  destruct (Ha false) as [evs' Ha']. rewrite Habs, Ha' in Hspec. injection Hspec as Habs' <- <- <-.
  rewrite request_for_id by done. cbn [st_Send server_stream]. unfold server_Send, Replicate. rewrite Hph, Hv.
  unfold serveReplicate. rewrite Happ. cbn [io_bind]. unfold acks.
  destruct (rq_Acknowledge r); cbn [io_bind response rp_Status].
  - eexists. split; [reflexivity|]. split; [|done]. split; [done|]. intros sv' [= <-]. cbn [sv_with sv_phase sv_spool sv_out].
    split_and!; [by eexists|done|done|rewrite length_app; simpl; lia|]. apply Forall_app. split; [done|by repeat constructor].
  - rewrite bool_decide_eq_true_2 by done. cbn [negb io_bind]. eexists. split; [reflexivity|]. split; [|done].
    split; [done|]. intros sv' [= <-]. cbn [sv_with sv_phase sv_spool sv_out]. split_and!; [by eexists|done|done|lia|done].
Qed.

Lemma scatter_agreed a r a' k pln :
  agreed a r a' → aligned a k pln →
  ∃ pln', scatter pln r = IoRet pln' ∧ aligned a' (k + acks r) pln' ∧ kept pln pln'.
Proof.
  intros Hag [[Hp0 (pr0 & Hpr0 & Hnone)] [Hinv Habs] Hl].
  destruct (io_map_returns (send_peer r) (λ pr pr', member_at a' (k + acks r) pr' ∧ (pr_stream pr = None → pr' = pr))
              (pl_peers pln)) as (l1 & Hl1 & HF).
  { eapply Forall_impl; [exact Hl|]. intros pr Hpr. by apply (send_agreed a). }
  destruct (Forall2_lookup_l _ _ _ _ _ HF Hpr0) as (pr1 & Hpr1 & Hm1 & Heq). specialize (Heq Hnone). subst pr1.
  destruct Hag as [Hh Hv Hb Ha]. destruct (law_Apply (pl_spool pln) r true Hinv)
    as (s' & evs & resp & err & Happ & Hinv' & Hspec); [by rewrite Habs|].
  destruct (Ha true) as [evs' Ha']. rewrite Habs, Ha' in Hspec. injection Hspec as Habs' <- <- <-.
  exists (with_spool (with_peers pln l1) s'). split_and!; try done.
  - unfold scatter. rewrite Hl1. cbn [io_bind]. destruct (Z.ltb_spec (Primary (h_Route (pl_Header pln))) 0); [lia|].
    destruct Hm1 as [[Hse _] _]. rewrite Hpr1, Hse, Happ. cbn [io_bind response rp_Status].
    rewrite bool_decide_eq_true_2 by done. cbn [negb fmap option_fmap option_map].
    rewrite list_insert_id; [done|]. rewrite Hpr1. by destruct pr0; simpl in *; subst.
  - split; [split; [done|]; by exists pr0|done|].
    clear -HF. induction HF as [|pr pr' l l' [? _] _ IH]; by constructor.
Qed.

Lemma gather_agreed a k pln :
  aligned a (Datatypes.S k) pln →
  ∃ pln', gatherOK pln = IoRet pln' ∧ aligned a k pln' ∧ kept pln pln'.
Proof.
  intros [[Hp0 (pr0 & Hpr0 & Hnone)] Hsp Hl].
  destruct (io_map_returns gather_peer (λ pr pr', member_at a k pr' ∧ (pr_stream pr = None → pr' = pr) ∧
    (live pr' = true → rp_Status (pr_recvResp pr') = Status_OK)) (pl_peers pln)) as (l1 & Hl1 & HF).
  { eapply Forall_impl; [exact Hl|]. intros pr [[Hse Hre] Hst]. unfold gather_peer. rewrite Hre.
    destruct (pr_stream pr) as [sv|] eqn:Hsv.
    2:{ exists pr. split_and!; [done| |done|unfold live; by rewrite Hsv]. split; [done|]. intros sv' Hsv'. congruence. }
    destruct (Hst sv eq_refl) as ([h Hph] & Hinv & Habs & Hlen & Hok).
    cbn [st_Recv server_stream]. unfold server_Recv. destruct (sv_out sv) as [|resp out]; [done|].
    apply Forall_cons in Hok as [Hok Hoks]. cbn [io_bind]. eexists. split; [reflexivity|]. split_and!; [|done|done].
    split; [done|]. intros sv' [= <-]. cbn [sv_with sv_phase sv_spool sv_out]. split_and!; [by eexists|done|done| |done].
    simpl in Hlen. lia. }
  assert (((λ pr, if live pr && negb (bool_decide (rp_Status (pr_recvResp pr) = Status_OK))
            then set_recvErr pr "unexpected !OK response: %s" else pr) <$> l1) = l1) as Hid.
  { clear -HF. induction HF as [|pr pr' l l' (_ & _ & Hlive) _ IH]; [done|]. rewrite fmap_cons, IH. f_equal.
    destruct (live pr'); [|done]. by rewrite bool_decide_eq_true_2 by auto. }
  exists (with_peers pln l1). split_and!; try done.
  - unfold gatherOK, gather. rewrite Hl1. cbn [io_bind with_peers pl_peers]. by rewrite Hid.
  - destruct (Forall2_lookup_l _ _ _ _ _ HF Hpr0) as (pr1 & Hpr1 & _ & Heq & _). specialize (Heq Hnone). subst pr1.
    split; [split; [done|]; by exists pr0|done|].
    clear -HF. induction HF as [|pr pr' l l' [? _] _ IH]; by constructor.
Qed.

Lemma aligned_no_err a k pln : aligned a k pln → recvErr pln = None ∧ sendErr pln = None.
Proof.
  intros [_ _ Hl]. split; apply first_err_none, Forall_fmap; (eapply Forall_impl; [exact Hl|]); by intros pr [[? ?] _].
Qed.
(** Spools of a valid journal, in bounds. *)
Record a_ok (a : aSpool) : Prop := {
  ok_journal : Journal_Validate (a_Journal a) = None;
  ok_codec : codec_supported (a_Codec a) = true;
  ok_bounds : 0 ≤ a_Begin a ∧ f_End (a_fragment (a_commit a)) ≤ MaxInt64;
}.

Lemma a_commit_end a : f_End (a_fragment a) ≤ f_End (a_fragment (a_commit a)).
Proof. simpl. unfold blen. rewrite length_app. lia. Qed.

Lemma proposal_valid a ack : Journal_Validate (a_Journal a) = None → codec_supported (a_Codec a) = true →
  ReplicateRequest_Validate (proposal_request (a_fragment a) ack) = None.
Proof.
  intros Hj Hc. unfold ReplicateRequest_Validate.
  cbn [proposal_request rq_Header rq_Journal rq_Proposal rq_Content rq_ContentDelta].
  rewrite String.eqb_refl. cbn [negb]. unfold Fragment_Validate.
  autorewrite with validate. rewrite codec_valid. cbn [f_Journal a_fragment f_CompressionCodec].
  split_and!; try done. apply a_fragment_len.
Qed.

Lemma proposal_agreed a b a' ack :
  Journal_Validate (a_Journal b) = None → codec_supported (a_Codec b) = true →
  0 ≤ a_Begin b → f_End (a_fragment b) ≤ MaxInt64 →
  (∀ primary, ∃ evs, aApply a (proposal_request (a_fragment b) ack) primary = (a', evs, response Status_OK None, None)) →
  agreed a (proposal_request (a_fragment b) ack) a'.
Proof.
  intros Hj Hc Hb Hm Ha. split; [done|by apply proposal_valid| |done].
  simpl. split; [|done]. split; [|done]. split; [done|apply a_fragment_len].
Qed.

Lemma agreed_rollback a ack : a_ok a → agreed a (proposal_request (a_fragment a) ack) (a_rollback a).
Proof.
  intros [Hj Hc [Hb Hm]]. apply proposal_agreed; try done; [pose proof (a_commit_end a); lia|].
  intros primary. eexists. by rewrite aApply_self.
Qed.

Lemma agreed_roll a e codec :
  a_ok a → a_pending a = [] → f_End (a_fragment a) ≤ e ≤ MaxInt64 → codec_supported codec = true →
  agreed a (proposal_request (a_fragment (mkA (a_Journal a) e codec [] [])) false) (mkA (a_Journal a) e codec [] []).
Proof.
  intros [Hj Hc [Hb Hm]] Hp He Hcc. set (b := mkA _ e codec [] []).
  assert (f_End (a_fragment b) = e) as Hend by (simpl; unfold blen; simpl; lia).
  apply proposal_agreed; try done; [|lia|].
  { simpl. pose proof (a_fragment_len a). simpl in *. lia. }
  intros primary. destruct (aApply_roll a (proposal_request (a_fragment b) false) (a_fragment b) primary) as [evs Ha];
    [done|by rewrite Hend|done|lia|]. rewrite Hend in Ha. by exists evs.
Qed.

Lemma agreed_commit a ack : a_ok a → agreed a (proposal_request (a_fragment (a_commit a)) ack) (a_commit a).
Proof.
  intros [Hj Hc [Hb Hm]]. apply proposal_agreed; try done. intros primary.
  destruct (decide (a_pending a = [])) as [Hp|Hp].
  { assert (a_commit a = a) as Hac by (destruct a; unfold a_commit; simpl in *; by rewrite Hp, app_nil_r).
    rewrite Hac. eexists. rewrite aApply_self by done. destruct a; unfold a_rollback; simpl in *. by rewrite Hp. }
  unfold aApply, a_roll. cbn [proposal_request rq_Proposal].
  assert (f_End (a_fragment a) < f_End (a_fragment (a_commit a))) as Hlt.
  { simpl. unfold blen. rewrite length_app. destruct (a_pending a); [done|simpl; lia]. }
  assert (a_must_roll a (a_fragment (a_commit a)) = false) as ->.
  { unfold a_must_roll. rewrite !bool_decide_eq_false_2; [done|lia|lia]. }
  rewrite bool_decide_eq_false_2 by (intros Heq%(f_equal f_End); lia).
  rewrite bool_decide_eq_true_2 by done. by eexists.
Qed.

Lemma agreed_content a c :
  f_End (a_fragment (a_commit a)) + blen c ≤ MaxInt64 →
  agreed a (content_request c (blen (a_pending a))) (a_append a c).
Proof.
  intros Hm. split; [done| |done|].
  - unfold ReplicateRequest_Validate. cbn [content_request rq_Header rq_Journal rq_Proposal rq_Content rq_ContentDelta rq_Acknowledge].
    rewrite String.eqb_refl. cbn [negb]. autorewrite with validate. split_and!; try done. unfold blen. lia.
  - intros primary. unfold aApply. cbn [content_request rq_Proposal rq_Content rq_ContentDelta].
    rewrite bool_decide_eq_true_2 by done. by eexists.
Qed.

Lemma aligned_ok a k pln : aligned a k pln → Journal_Validate (a_Journal a) = None → a_ok a.
Proof.
  intros [_ [Hinv <-] _] Hj. split; [done|by apply law_codec|by apply law_bounds].
Qed.

(** The state appends start from: the current one, or an empty spool at its end. *)
Definition begun (spec : JournalSpec_Fragment) (a a0 : aSpool) : Prop :=
  a0 = a ∨ a0 = mkA (a_Journal a) (f_End (a_fragment a)) (sf_CompressionCodec spec) [] [].

Definition append_fragment (a0 : aSpool) (sum : SHA1Sum) (len : Z) : Fragment :=
  mkFragment (a_Journal a0) (f_End (a_fragment a0)) (f_End (a_fragment a0) + len) sum (a_Codec a0) "" 0.

Lemma beginAppending_spec now pln spec a :
  aligned a 0 pln → Journal_Validate (a_Journal a) = None → a_pending a = [] →
  codec_supported (sf_CompressionCodec spec) = true →
  ∃ pln' a0, beginAppending now pln spec =
      IoRet (mkAppender pln' false None (Some (append_fragment a0 SHA1Sum_zero 0)) []) ∧
    begun spec a a0 ∧ aligned a0 0 pln' ∧ kept pln pln'.
Proof.
  intros Hal Hj Hpend Hc. pose proof (aligned_ok _ _ _ Hal Hj) as Hok.
  assert (∀ pln' a0, aligned a0 0 pln' →
    mkFragment (f_Journal (sp_Frag (pl_spool pln'))) (f_End (sp_Frag (pl_spool pln'))) (f_End (sp_Frag (pl_spool pln')))
      SHA1Sum_zero (f_CompressionCodec (sp_Frag (pl_spool pln'))) "" 0 = append_fragment a0 SHA1Sum_zero 0) as Hfr.
  { intros pln' a0 [_ [Hinv Habs] _]. rewrite (law_Frag _ Hinv), Habs. unfold append_fragment. by rewrite Z.add_0_r. }
  unfold beginAppending. destruct Hal as [Hp [Hinv Habs] Hl] eqn:Hal'. pose proof (law_Frag _ Hinv) as Hf. rewrite Habs in Hf.
  set (b := mkA (a_Journal a) (f_End (a_fragment a)) (sf_CompressionCodec spec) [] []).
  assert (nextProposal now (pl_spool pln) spec = a_fragment a ∨ nextProposal now (pl_spool pln) spec = a_fragment b) as Hnext.
  { unfold nextProposal. rewrite Hf. set (flush := if 0 <? _ then _ else _). destruct flush; [right|by left].
    unfold a_fragment, b, blen. simpl. by rewrite Z.add_0_r. }
  rewrite Hf. case_bool_decide as Heq; cbn [negb io_bind].
  { exists pln, a. split_and!; [|by left|done|done]. by rewrite (Hfr pln a). }
  destruct Hnext as [Hn|Hn]; [congruence|]. rewrite Hn.
  destruct (scatter_agreed a (proposal_request (a_fragment b) false) b 0 pln) as (pln' & -> & Hal1 & Hh); [|done|].
  { apply agreed_roll; try done. split; [done|]. destruct Hok as [_ _ [_ ?]]. pose proof (a_commit_end a). lia. }
  cbn [io_bind]. exists pln', b. split_and!; [|by right|done|done]. by rewrite (Hfr pln' b).
Qed.
Definition chunk (c : bytes) : AppendRequest + recv_err := inl (mkAppendRequest None "" false 0 c).

(** An appender that has forwarded [buf]. *)
Definition appending (pln : pipeline_t) (commit : bool) (a0 : aSpool) (buf : bytes) : appender S node :=
  mkAppender pln commit None (Some (append_fragment a0 SHA1Sum_zero (blen buf))) buf.

Lemma a_append_nil a : a_append a [] = a.
Proof. destruct a. unfold a_append. simpl. by rewrite app_nil_r. Qed.

Lemma a_append_app a b c : a_append (a_append a b) c = a_append a (b ++ c).
Proof. destruct a. unfold a_append. simpl. by rewrite app_assoc. Qed.

Lemma append_bounds a0 buf : a_pending a0 = [] →
  f_End (a_fragment (a_commit (a_append a0 buf))) = f_End (a_fragment a0) + blen buf.
Proof. intros Hp. simpl. rewrite Hp. unfold blen. rewrite !length_app. simpl. lia. Qed.

Lemma append_ContentLength a0 sum buf :
  a_ok (a_append a0 buf) → a_pending a0 = [] → ContentLength (append_fragment a0 sum (blen buf)) = blen buf.
Proof.
  intros [_ _ [Hb Hm]] Hp. rewrite append_bounds in Hm by done. unfold ContentLength, append_fragment.
  cbn [f_End f_Begin]. replace (f_End (a_fragment a0) + blen buf - f_End (a_fragment a0)) with (blen buf) by lia.
  apply int64_id. simpl in *. unfold is_int64, MinInt64, MaxInt64, blen in *. lia.
Qed.

(** A content chunk reaches the pending content of every member. *)
Lemma onRecv_chunk a0 buf c pln :
  aligned (a_append a0 buf) 0 pln → Journal_Validate (a_Journal a0) = None → a_pending a0 = [] → c ≠ [] →
  f_End (a_fragment a0) + blen buf + blen c ≤ MaxInt64 →
  ∃ pln', onRecv (appending pln false a0 buf) (chunk c) = IoRet (appending pln' false a0 (buf ++ c), true) ∧
    aligned (a_append a0 (buf ++ c)) 0 pln' ∧ kept pln pln'.
Proof.
  intros Hal Hj Hp Hc Hmax. pose proof (aligned_ok _ _ _ Hal Hj) as Hok.
  destruct (scatter_agreed (a_append a0 buf) (content_request c (blen buf)) (a_append a0 (buf ++ c)) 0 pln)
    as (pln' & Hsc & Hal' & Hh); [|done|].
  { rewrite <- a_append_app. replace (blen buf) with (blen (a_pending (a_append a0 buf))) by (simpl; by rewrite Hp).
    apply agreed_content. rewrite append_bounds by done. lia. }
  exists pln'. split_and!; [|done|done]. unfold onRecv, appending. cbn [ap_reqFragment ap_reqCommit ap_pln ap_reqErr ap_reqSummer chunk].
  change (AppendRequest_Validate (mkAppendRequest None "" false 0 c)) with (None : option ValidationError).
  cbn [ar_Journal ar_Content]. rewrite String.eqb_refl. cbn [negb].
  destruct (Nat.eqb_spec (length c) 0) as [Hz|_]; [by apply nil_length_inv in Hz|].
  rewrite append_ContentLength by done. rewrite Hsc. cbn [io_bind].
  destruct (aligned_no_err _ _ _ Hal') as [_ ->]. do 3 f_equal. unfold append_fragment. cbn [f_Journal f_Begin f_End f_Sum f_CompressionCodec f_BackingStore f_ModTime].
  assert (blen (buf ++ c) = blen buf + blen c) as Hl by (unfold blen; rewrite length_app; lia).
  rewrite Hl. f_equal. f_equal. rewrite int64_id; [unfold blen; lia|].
  destruct Hok as [_ _ [Hb _]]. simpl in *. unfold is_int64, MinInt64, MaxInt64, blen in *. lia.
Qed.

Lemma append_loop_chunks a0 chunks rest : ∀ buf pln,
  aligned (a_append a0 buf) 0 pln → Journal_Validate (a_Journal a0) = None → a_pending a0 = [] →
  Forall (λ c, c ≠ []) chunks → f_End (a_fragment a0) + blen buf + blen (concat chunks) ≤ MaxInt64 →
  ∃ pln', append_loop (appending pln false a0 buf) ((chunk <$> chunks) ++ rest) =
            append_loop (appending pln' false a0 (buf ++ concat chunks)) rest ∧
    aligned (a_append a0 (buf ++ concat chunks)) 0 pln' ∧ kept pln pln'.
Proof.
  induction chunks as [|c chunks IH]; intros buf pln Hal Hj Hp Hne Hmax.
  { exists pln. simpl. by rewrite app_nil_r. }
  apply Forall_cons in Hne as [Hc Hne]. cbn [concat] in Hmax |- *.
  assert (blen (c ++ concat chunks) = blen c + blen (concat chunks)) as Hl by (unfold blen; rewrite length_app; lia).
  assert (blen (buf ++ c) = blen buf + blen c) as Hl' by (unfold blen; rewrite length_app; lia).
  rewrite Hl in Hmax.
  destruct (onRecv_chunk a0 buf c pln Hal Hj Hp Hc) as (pln1 & Hr1 & Hal1 & Hh1); [unfold blen in *; lia|].
  destruct (IH (buf ++ c) pln1 Hal1 Hj Hp Hne) as (pln2 & Hr2 & Hal2 & Hh2); [lia|].
  exists pln2. rewrite app_assoc. split_and!; [|done|by eapply kept_trans].
  rewrite fmap_cons. cbn [app append_loop]. rewrite Hr1. cbn [io_bind]. exact Hr2.
Qed.

Lemma release_acked a pln :
  aligned a 1 pln →
  ∃ pln', releasePipelineAndGatherResponse pln = IoRet (Some pln', None, None) ∧ aligned a 0 pln' ∧ kept pln pln'.
Proof.
  intros Hal. unfold releasePipelineAndGatherResponse. destruct (aligned_no_err _ _ _ Hal) as [_ ->]. cbn [io_bind].
  destruct (gather_agreed a 0 pln Hal) as (pln' & -> & Hal' & Hk). cbn [io_bind]. exists pln'. split; [|done].
  by destruct (aligned_no_err _ _ _ Hal') as [-> _].
Qed.

(** The next offset is the pipeline's: there is none greater in the index, and the
    request names no other. *)
Definition at_head (index : Index) (req : AppendRequest) (a : aSpool) : Prop :=
  Index_EndOffset index ≤ f_End (a_fragment a) ∧ (ar_Offset req = 0 ∨ ar_Offset req = f_End (a_fragment a)).

Lemma serveAppend_at_head now index hdr spec req pln msgs a :
  aligned a 0 pln → at_head index req a →
  serveAppend now index hdr spec req pln msgs =
    (io! ap := beginAppending now pln spec in
     io! ap := append_loop ap msgs in
     io! (released, s, err) := releasePipelineAndGatherResponse (ap_pln ap) in
     IoRet (released, s,
       match ap_reqErr ap, err with
       | Some e, _ => AppendErr e
       | None, Some e => AppendErr (RecvError e)
       | None, None => AppendResp (mkAppendResponse Status_OK (pl_Header (ap_pln ap)) (ap_reqFragment ap))
       end)).
Proof.
  intros [_ [Hinv Habs] _] [Hi Ho]. unfold serveAppend. rewrite (law_Frag _ Hinv), Habs.
  destruct (Z.ltb_spec (f_End (a_fragment a)) (Index_EndOffset index)); [lia|].
  rewrite Z.eqb_refl. cbn [negb andb]. destruct (Z.eqb_spec (ar_Offset req) 0); [done|].
  destruct Ho as [?| ->]; [lia|]. by rewrite Z.eqb_refl.
Qed.

(** What is left to do once the chunks were forwarded. *)
Definition append_rest (ap : appender S node) (msgs : list (AppendRequest + recv_err)) :=
  io! ap := append_loop ap msgs in
  io! (released, s, err) := releasePipelineAndGatherResponse (ap_pln ap) in
  IoRet (released, s,
    match ap_reqErr ap, err with
    | Some e, _ => AppendErr e
    | None, Some e => AppendErr (RecvError e)
    | None, None => AppendResp (mkAppendResponse Status_OK (pl_Header (ap_pln ap)) (ap_reqFragment ap))
    end).

Lemma serveAppend_forwards now index hdr spec req pln a chunks rest :
  aligned a 0 pln → Journal_Validate (a_Journal a) = None → a_pending a = [] → at_head index req a →
  codec_supported (sf_CompressionCodec spec) = true → Forall (λ c, c ≠ []) chunks →
  f_End (a_fragment a) + blen (concat chunks) ≤ MaxInt64 →
  ∃ a0 pln1, begun spec a a0 ∧ a_Journal a0 = a_Journal a ∧ a_pending a0 = [] ∧
    serveAppend now index hdr spec req pln ((chunk <$> chunks) ++ rest) =
      append_rest (appending pln1 false a0 (concat chunks)) rest ∧
    aligned (a_append a0 (concat chunks)) 0 pln1 ∧ kept pln pln1.
Proof.
  intros Hal Hj Hp Hhd Hc Hne Hmax. rewrite (serveAppend_at_head _ _ _ _ _ _ _ a) by done.
  destruct (beginAppending_spec now pln spec a Hal Hj Hp Hc) as (pln0 & a0 & -> & Hbeg & Hal0 & Hh0).
  assert (a_Journal a0 = a_Journal a ∧ a_pending a0 = [] ∧ f_End (a_fragment a0) = f_End (a_fragment a)) as (Hj0 & Hp0 & He0).
  { destruct Hbeg as [-> | ->]; [done|]. split_and!; [done|done|]. simpl. unfold blen. simpl. lia. }
  rewrite <- Hj0 in Hj. cbn [io_bind].
  destruct (append_loop_chunks a0 chunks rest [] pln0) as (pln1 & Hloop & Hal1 & Hh1);
    [by rewrite a_append_nil|done..|rewrite He0; change (blen []) with 0; lia|]. cbn [app] in Hloop, Hal1.
  unfold appending in Hloop at 1. change (blen []) with 0 in Hloop. rewrite Hloop.
  exists a0, pln1. split_and!; try done. by eapply kept_trans.
Qed.

(** While the messages are not complete the handler waits for the next. *)
Lemma serveAppend_waits now index hdr spec req pln a chunks rest :
  aligned a 0 pln → Journal_Validate (a_Journal a) = None → a_pending a = [] → at_head index req a →
  codec_supported (sf_CompressionCodec spec) = true → Forall (λ c, c ≠ []) chunks →
  f_End (a_fragment a) + blen (concat chunks) ≤ MaxInt64 → rest = [] ∨ rest = [chunk []] →
  serveAppend now index hdr spec req pln ((chunk <$> chunks) ++ rest) = IoRetry.
Proof.
  intros Hal Hj Hp Hhd Hc Hne Hmax Hrest.
  destruct (serveAppend_forwards now index hdr spec req pln a chunks rest) as (a0 & pln1 & _ & _ & _ & -> & _); [done..|].
  by destruct Hrest as [-> | ->].
Qed.

Lemma serveAppend_wrong_offset now index hdr spec req pln msgs a :
  aligned a 0 pln → Index_EndOffset index ≤ f_End (a_fragment a) →
  ar_Offset req ≠ 0 → ar_Offset req ≠ f_End (a_fragment a) →
  serveAppend now index hdr spec req pln msgs = IoRet (Some pln, None, AppendResp (mkAppendResponse WRONG_APPEND_OFFSET hdr None)).
Proof.
  intros [_ [Hinv Habs] _] Hi Hz Hne. unfold serveAppend. rewrite (law_Frag _ Hinv), Habs.
  rewrite (proj2 (Z.ltb_ge _ _)) by done. rewrite Z.eqb_refl. cbn [negb andb].
  by rewrite (proj2 (Z.eqb_neq _ _) Hz), (proj2 (Z.eqb_neq _ _) Hne).
Qed.

Lemma begun_end spec a a0 : begun spec a a0 → f_End (a_fragment a0) = f_End (a_fragment a).
Proof. intros [-> | ->]; [done|]. simpl. unfold blen. simpl. lia. Qed.

Lemma serveAppend_commits now index hdr spec req pln a chunks rest :
  aligned a 0 pln → Journal_Validate (a_Journal a) = None → a_pending a = [] → at_head index req a →
  codec_supported (sf_CompressionCodec spec) = true → Forall (λ c, c ≠ []) chunks →
  f_End (a_fragment a) + blen (concat chunks) ≤ MaxInt64 →
  ∃ a0 pln', begun spec a a0 ∧
    serveAppend now index hdr spec req pln ((chunk <$> chunks) ++ [chunk []; inr RecvEOF] ++ rest) =
      IoRet (Some pln', None, AppendResp (mkAppendResponse Status_OK (pl_Header pln)
        (Some (append_fragment a0 (SHA1SumOf (concat chunks)) (blen (concat chunks)))))) ∧
    aligned (a_commit (a_append a0 (concat chunks))) 0 pln' ∧ kept pln pln'.
Proof.
  intros Hal Hj Hp Hhd Hc Hne Hmax.
  destruct (serveAppend_forwards now index hdr spec req pln a chunks ([chunk []; inr RecvEOF] ++ rest))
    as (a0 & pln1 & Hbeg & Hj0 & Hp0 & -> & Hal1 & Hh1); [done..|]. rewrite <- Hj0 in Hj.
  destruct (scatter_agreed _ _ _ 0 pln1 (agreed_commit _ true (aligned_ok _ _ _ Hal1 Hj)) Hal1) as (pln2 & Hsc & Hal2 & Hh2).
  assert (append_loop (appending pln1 false a0 (concat chunks)) ([chunk []; inr RecvEOF] ++ rest) =
    IoRet (mkAppender pln2 true None (Some (append_fragment a0 (SHA1SumOf (concat chunks)) (blen (concat chunks)))) (concat chunks)))
    as Hloop.
  { cbn [app append_loop]. unfold onRecv, appending, chunk. cbn -[scatter sp_NextFrag].
    rewrite (law_Next _ (proj1 (al_spool _ _ _ Hal1))), (proj2 (al_spool _ _ _ Hal1)). by rewrite Hsc. }
  unfold append_rest. rewrite Hloop. cbn [io_bind ap_pln ap_reqErr ap_reqFragment].
  destruct (release_acked _ _ Hal2) as (pln3 & -> & Hal3 & Hh3). cbn [io_bind].
  pose proof (kept_trans _ _ _ Hh1 Hh2) as Hh. exists a0, pln3. split_and!; [done| |done|by eapply kept_trans].
  do 4 f_equal. apply Hh.
Qed.

(** C7: an append commits. Of a pipeline whose members hold the same content, an Append RPC that
    sends chunks, an empty chunk and EOF commits exactly the concatenation of the chunks, at the
    end of the spool of every member, and answers with the fragment appended and its SHA-1. The request asks for
    the end of the spools or for no offset, the index of fragments is not ahead of them, nothing is pending in them,
    and offsets stay within MaxInt64. *)
Theorem append_commits now index hdr spec req pln a chunks rest :
  aligned a 0 pln → Journal_Validate (a_Journal a) = None → a_pending a = [] → at_head index req a →
  codec_supported (sf_CompressionCodec spec) = true → Forall (λ c, c ≠ []) chunks →
  f_End (a_fragment a) + blen (concat chunks) ≤ MaxInt64 →
  ∃ a0 pln', begun spec a a0 ∧
    serveAppend now index hdr spec req pln ((chunk <$> chunks) ++ [chunk []; inr RecvEOF] ++ rest) =
      IoRet (Some pln', None, AppendResp (mkAppendResponse Status_OK (pl_Header pln)
        (Some (append_fragment a0 (SHA1SumOf (concat chunks)) (blen (concat chunks)))))) ∧
    aligned (a_commit (a_append a0 (concat chunks))) 0 pln'.
Proof.
  intros. destruct (serveAppend_commits now index hdr spec req pln a chunks rest) as (a0 & pln' & ? & ? & ? & _); [done..|].
  by exists a0, pln'.
Qed.

(** Messages that end an append without committing it. *)
Inductive aborts : list (AppendRequest + recv_err) → recv_err → Prop :=
| abort_error e : aborts [inr (RecvError e)] (RecvError e)
| abort_eof : aborts [inr RecvEOF] (RecvError "unexpected EOF")
| abort_invalid req e : AppendRequest_Validate req = Some e → aborts [inl req] (RecvError (Err e))
| abort_preamble req : AppendRequest_Validate req = None → ar_Journal req ≠ "" →
    aborts [inl req] (RecvError "expected Content chunk")
| abort_uncommitted e : aborts [chunk []; inr (RecvError e)] (RecvError e)
| abort_no_eof c : aborts [chunk []; chunk c] (RecvError "expected EOF after empty Content chunk").

Lemma serveAppend_aborts now index hdr spec req pln a chunks msgs err rest :
  aligned a 0 pln → Journal_Validate (a_Journal a) = None → a_pending a = [] → at_head index req a →
  codec_supported (sf_CompressionCodec spec) = true → Forall (λ c, c ≠ []) chunks →
  f_End (a_fragment a) + blen (concat chunks) ≤ MaxInt64 → aborts msgs err →
  ∃ a0 pln', begun spec a a0 ∧
    serveAppend now index hdr spec req pln ((chunk <$> chunks) ++ msgs ++ rest) =
      IoRet (Some pln', None, AppendErr err) ∧ aligned a0 0 pln' ∧ kept pln pln'.
Proof.
  intros Hal Hj Hp Hhd Hc Hne Hmax Hab.
  destruct (serveAppend_forwards now index hdr spec req pln a chunks (msgs ++ rest))
    as (a0 & pln1 & Hbeg & Hj0 & Hp0 & -> & Hal1 & Hh1); [done..|]. rewrite <- Hj0 in Hj.
  destruct (scatter_agreed _ _ _ 0 pln1 (agreed_rollback _ true (aligned_ok _ _ _ Hal1 Hj)) Hal1) as (pln2 & Hsc & Hal2 & Hh2).
  assert (a_rollback (a_append a0 (concat chunks)) = a0) as Hrb.
  { destruct a0; unfold a_rollback, a_append; simpl in *. by subst. }
  rewrite Hrb in Hal2.
  assert (∃ cm, append_loop (appending pln1 false a0 (concat chunks)) (msgs ++ rest) =
    IoRet (mkAppender pln2 cm (Some err) None (concat chunks))) as [cm Hloop].
  { destruct Hab as [e| |r e Hv|r Hv Hjr|e|c]; cbn [app append_loop]; unfold onRecv, appending, chunk; cbn -[scatter sp_Frag];
      rewrite ?Hv; try (rewrite (proj2 (String.eqb_neq _ _) Hjr)); cbn -[scatter sp_Frag];
      rewrite (law_Frag _ (proj1 (al_spool _ _ _ Hal1))), (proj2 (al_spool _ _ _ Hal1)), Hsc; cbn; by eexists. }
  unfold append_rest. rewrite Hloop. cbn [io_bind ap_pln ap_reqErr ap_reqFragment].
  destruct (release_acked _ _ Hal2) as (pln3 & -> & Hal3 & Hh3). cbn [io_bind].
  exists a0, pln3. split_and!; [done..|]. by do 2 (eapply kept_trans; [done|]).
Qed.

(** C33: an append that does not complete is rolled back. If after some chunks the client
    stream fails, ends without the empty chunk, or sends what it should not, nothing of it is
    committed: every member holds what it held when the append began, the pipeline is
    released for the next append, and the client gets the error. As for an append that commits, the request asks for
    the end of the spools or for no offset, the index is not ahead of them, and nothing is pending in them. *)
Theorem append_rolls_back now index hdr spec req pln a chunks msgs err rest :
  aligned a 0 pln → Journal_Validate (a_Journal a) = None → a_pending a = [] → at_head index req a →
  codec_supported (sf_CompressionCodec spec) = true → Forall (λ c, c ≠ []) chunks →
  f_End (a_fragment a) + blen (concat chunks) ≤ MaxInt64 → aborts msgs err →
  ∃ a0 pln', begun spec a a0 ∧
    serveAppend now index hdr spec req pln ((chunk <$> chunks) ++ msgs ++ rest) =
      IoRet (Some pln', None, AppendErr err) ∧ aligned a0 0 pln'.
Proof.
  intros. destruct (serveAppend_aborts now index hdr spec req pln a chunks msgs err rest) as (a0 & pln' & ? & ? & ? & _); [done..|].
  by exists a0, pln'.
Qed.

Lemma aApply_status a r primary a' evs resp err :
  aApply a r primary = (a', evs, resp, err) → rp_Status resp ≠ WRONG_ROUTE.
Proof. unfold aApply. destruct (rq_Proposal r); [destruct (a_roll a _ primary)|]; repeat case_bool_decide; by intros [= <- <- <- <-]. Qed.

(** The response with which a server acknowledges the first request of a stream carries
    the Header of the server's resolution, as the protocol documents of it, and for that
    the validation of responses rejects it whatever its status: Validate admits a Header only
    with WRONG_ROUTE, which no spool answers. *)
Theorem first_response_invalid sv hdr r :
  sp_inv (sv_spool sv) → rq_Acknowledge r = true →
  match rq_Proposal r with
  | Some p => proposal_ok p ∧ codec_supported (f_CompressionCodec p) = true
  | None => f_End (a_fragment (a_commit (sp_abs (sv_spool sv)))) + blen (default [] (rq_Content r)) ≤ MaxInt64
  end →
  (aApply (sp_abs (sv_spool sv)) r false).2 = None →
  ∃ s' resp, serveReplicate sv (Some hdr) r = IoRet (sv_with sv s' (Serving None) (sv_out sv ++ [resp])) ∧
    ReplicateResponse_Validate resp ≠ None.
Proof.
  intros Hinv Hack Hr Hok. destruct (law_Apply _ r false Hinv Hr) as (s' & evs & resp & err & Happ & _ & Ha).
  rewrite Ha in Hok. cbn [snd] in Hok. subst err. unfold serveReplicate. rewrite Happ. cbn [io_bind]. rewrite Hack.
  eexists s', _. split; [reflexivity|]. pose proof (aApply_status _ _ _ _ _ _ _ Ha) as Hst.
  unfold ReplicateResponse_Validate. cbn [rp_Status rp_Header]. rewrite (bool_decide_eq_false_2 (_ = WRONG_ROUTE)) by done.
  by destruct (rp_Status resp).
Qed.
End theorems.

(** ** The spool of a broker implements the interface *)

Section spool_node.
(** Output of the codec libraries. *)
Context (encode : CompressionCodec → bytes → bytes).

(** A spool with its filesystem; call [n] meets the outcomes [sn_script n] at time [sn_clock n]. *)
Record spool_node := mkSpoolNode {
  sn_script : nat → list io;
  sn_clock : nat → Z;
  sn_calls : nat;
  sn_fs : FS;
  sn_spool : Spool;
  sn_events : list event;
}.

Definition sn_Apply (nd : spool_node) (r : ReplicateRequest) (primary : bool)
    : ioresult (spool_node * ReplicateResponse * option ValidationError) :=
  io! (fs, s, _, evs, resp, err) :=
    Apply encode (sn_clock nd (sn_calls nd)) (sn_script nd (sn_calls nd)) (sn_fs nd) (sn_spool nd) r primary in
  IoRet (mkSpoolNode (sn_script nd) (sn_clock nd) (S (sn_calls nd)) fs s (sn_events nd ++ evs), resp, err).

Definition sn_MustApply (nd : spool_node) (r : ReplicateRequest) : ioresult spool_node :=
  io! (fs, s, _, evs) :=
    MustApply encode (sn_clock nd (sn_calls nd)) (sn_script nd (sn_calls nd)) (sn_fs nd) (sn_spool nd) r in
  IoRet (mkSpoolNode (sn_script nd) (sn_clock nd) (S (sn_calls nd)) fs s (sn_events nd ++ evs)).

#[global] Instance spool_node_ops : ReplicaSpool spool_node := {|
  sp_Frag nd := sfrag (sn_spool nd);
  sp_NextFrag nd := Next (sn_spool nd);
  sp_FirstAppend nd := sp_FirstAppendTime (sn_spool nd);
  sp_Apply := sn_Apply;
  sp_MustApply := sn_MustApply;
|}.

(** Every call meets transient failures at most. *)
Definition recovers (script : nat → list io) : Prop :=
  ∀ n, ∃ fails rest, script n = fails ++ IoOk :: IoOk :: rest ∧ Forall is_IoFail fails.

Record node_inv (nd : spool_node) : Prop := {
  ni_fs : FS_inv (sn_fs nd);
  ni_spool : Spool_inv (sn_fs nd) (sn_spool nd);
  ni_healthy : healthy (sn_spool nd);
  ni_recovers : recovers (sn_script nd);
}.

Lemma sn_Apply_spec nd r primary :
  node_inv nd → request_ok (sn_spool nd) r →
  (∀ p, rq_Proposal r = Some p → codec_supported (f_CompressionCodec p) = true) →
  ∃ nd' evs resp err, sn_Apply nd r primary = IoRet (nd', resp, err) ∧ node_inv nd' ∧
    aApply (abs (sn_fs nd) (sn_spool nd)) r primary = (abs (sn_fs nd') (sn_spool nd'), evs, resp, err).
Proof.
  intros [HF Hinv Hh Hrec] Hr Hc. destruct (Hrec (sn_calls nd)) as (fails & rest & Hs & Hfails).
  destruct (Apply_live encode (sn_clock nd (sn_calls nd)) fails rest (sn_fs nd) (sn_spool nd) r primary)
    as (fs' & s' & ios' & evs & resp & err & Happ & Hh'); [done..|].
  pose proof (Apply_spec encode (sn_clock nd (sn_calls nd)) (fails ++ IoOk :: IoOk :: rest) (sn_fs nd) (sn_spool nd) r
    primary HF Hinv Hr) as Hspec. rewrite Happ in Hspec. destruct Hspec as (HF' & Hinv' & _ & _ & Ha).
  eexists _, _, resp, err. split; [unfold sn_Apply; by rewrite Hs, Happ|]. split; [done|exact Ha].
Qed.

#[global] Instance spool_node_laws : ReplicaSpoolLaws spool_node.
Proof.
  refine {| sp_inv := node_inv; sp_abs nd := abs (sn_fs nd) (sn_spool nd) |}.
  - intros nd [_ Hinv _ _]. by apply abs_fragment.
  - intros nd [_ Hinv _ _]. by apply abs_Next.
  - intros nd [_ Hinv _ _]. split; [apply (inv_bounds _ _ Hinv)|]. rewrite <- abs_Next by done.
    unfold Next. cbn [f_End]. rewrite (inv_EndDelta _ _ Hinv). apply (inv_delta _ _ Hinv).
  - intros nd [_ _ (_ & _ & Hc) _]. exact Hc.
  - intros nd r primary Hnd Hr. destruct Hnd as [HF Hinv Hh Hrec] eqn:E. clear E.
    apply (sn_Apply_spec nd r primary).
    + by split.
    + unfold request_ok. rewrite <- abs_Next in Hr by done. unfold Next in Hr. cbn [f_End] in Hr.
      rewrite (inv_EndDelta _ _ Hinv) in Hr. destruct (rq_Proposal r); [by destruct Hr|exact Hr].
    + intros p Hp. rewrite Hp in Hr. by destruct Hr.
  - intros nd r Hnd Hp. change (sp_Frag nd) with (sfrag (sn_spool nd)) in Hp.
    pose proof Hnd as [HF Hinv (_ & _ & Hc) Hrec].
    destruct (sn_Apply_spec nd r false Hnd) as (nd' & evs & resp & err & Happ & Hnd' & Ha).
    { unfold request_ok, proposal_ok. rewrite Hp. destruct Hinv. unfold MaxInt64 in *. lia. }
    { intros p. rewrite Hp. by intros [= <-]. }
    rewrite aApply_self in Ha by (by rewrite Hp, (abs_fragment _ _ Hinv)).
    pose proof (f_equal (λ x, x.1.1.1) Ha) as Habs. pose proof (f_equal (λ x, x.1.2) Ha) as Hresp.
    pose proof (f_equal snd Ha) as Herr. cbn [fst snd] in *. subst resp err.
    exists nd'. split_and!; [|done|done].
    change (sp_MustApply nd r) with (sn_MustApply nd r). unfold sn_Apply, sn_MustApply, MustApply in *.
    destruct (Apply _ _ _ _ _ _ _) as [[[[[[fs' s'] ios'] evs'] resp'] err']| |]; [|done..].
    cbn [io_bind] in Happ |- *. apply IoRet_inj in Happ. by simplify_eq/=.
Defined.
End spool_node.

(** ** Concrete inputs *)

Definition demo_ids : list ProcessSpec_ID := [mkProcessID "zone" "broker-a"; mkProcessID "zone" "broker-b"].
Definition demo_header : Header :=
  mkHeader (mkProcessID "zone" "broker-a") {| Members := demo_ids; Primary := 0; Endpoints := [] |} (mkEtcd 1 2 3 4).

#[local] Instance demo_url_parser : UrlParser := demo_url.

Definition demo_script (n : nat) : list io := [IoFail 1; IoOk; IoOk].
Definition demo_spool_node (c : FS * Spool) : spool_node := mkSpoolNode demo_script (λ _, 0) 0 (fst c) (snd c) [].

Lemma demo_node_inv c :
  config_inv c → healthy (snd c) → node_inv (demo_spool_node c).
Proof.
  intros [? ?] ?. split; [done..|]. intros n. exists [IoFail 1], []. split; [done|by repeat constructor].
Qed.

#[local] Instance demo_ops : ReplicaSpool spool_node := spool_node_ops demo_encode.
#[local] Instance demo_laws : ReplicaSpoolLaws spool_node := spool_node_laws demo_encode.

(** A member that serves, or is about to. *)
Definition demo_server (c : FS * Spool) (ph : phase) : server spool_node :=
  mkServer (λ _, inl (mkResolution Status_OK demo_header)) (demo_spool_node c) ph [].

Definition demo_pipeline (c1 c2 : FS * Spool) (ph : phase) : pipeline spool_node (server spool_node) :=
  mkPipeline demo_header (demo_spool_node c1)
    [mkPeer (mkProcessID "zone" "broker-a") None None ReplicateResponse_zero None;
     mkPeer (mkProcessID "zone" "broker-b") (Some (demo_server c2 ph)) None ReplicateResponse_zero None] 0.

Lemma demo_nodes : node_inv (demo_spool_node demo0) ∧ node_inv (demo_spool_node demo2).
Proof.
  destruct demo_invs as (H0 & _ & H2 & _).
  split; (apply demo_node_inv; [assumption|vm_compute; by split_and!]).
Qed.

Lemma demo_ready : pln_ready "a/journal" (demo_pipeline demo2 demo0 Fresh).
Proof.
  destruct demo_nodes as [H0 H2]. split.
  - reflexivity.
  - split; [done|]. by eexists.
  - split_and!; [exact H2|vm_compute; reflexivity..].
  - apply Forall_cons; split; [|apply Forall_singleton]; (split; [by split|reflexivity|intros sv [= <-]]).
    split_and!; [|reflexivity|exact H0|vm_compute; reflexivity..]. intros r. by eexists.
Qed.

(** A primary that committed two bytes, and a member that has none. *)
Lemma synchronize_converges_witness :
  ∃ pln', synchronize 2 (demo_pipeline demo2 demo0 Fresh) = IoRet (pln', None, None) ∧ in_sync "a/journal" pln'.
Proof.
  destruct (synchronize_converges 2 "a/journal" (demo_pipeline demo2 demo0 Fresh)) as (pln' & Hs & Hin & _).
  - exact demo_ready.
  - apply Forall_cons; split; [|apply Forall_singleton]; intros a [= <-]. vm_compute. intros [=].
  - lia.
  - exists pln'. split; [exact Hs|exact Hin].
Defined.

Definition demo_aligned_spool : aSpool := abs (fst demo0) (snd demo0).
Definition demo_append : AppendRequest := mkAppendRequest None "a/journal" false 0 [].
Definition demo_fragment_spec : JournalSpec_Fragment := js_Fragment (demo_spec "a/journal" 1024).

Lemma demo_aligned : aligned demo_aligned_spool 0 (demo_pipeline demo0 demo0 (Serving None)).
Proof.
  destruct demo_nodes as [H0 _]. split.
  - split; [done|]. by eexists.
  - split; [exact H0|reflexivity].
  - apply Forall_cons; split; [|apply Forall_singleton]; (split; [by split|intros sv [= <-]]).
    split_and!; [by eexists|exact H0|reflexivity|reflexivity|constructor].
Qed.

Lemma append_commits_witness :
  ∃ a0 pln', serveAppend 0 NewIndex demo_header demo_fragment_spec demo_append (demo_pipeline demo0 demo0 (Serving None))
    [chunk (str_bytes "ab"); chunk (str_bytes "c"); chunk []; inr RecvEOF] =
      IoRet (Some pln', None, AppendResp (mkAppendResponse Status_OK demo_header
        (Some (append_fragment a0 (SHA1SumOf (str_bytes "abc")) 3)))).
Proof.
  destruct (append_commits 0 NewIndex demo_header demo_fragment_spec demo_append (demo_pipeline demo0 demo0 (Serving None))
    demo_aligned_spool [str_bytes "ab"; str_bytes "c"] []) as (a0 & pln' & _ & Heq & _).
  - exact demo_aligned.
  - reflexivity.
  - reflexivity.
  - split; [vm_compute; intros [=]|by left].
  - reflexivity.
  - by repeat constructor.
  - vm_compute. intros [=].
  - exists a0, pln'. exact Heq.
Defined.

(** The client goes away after a chunk. *)
Lemma append_rolls_back_witness :
  ∃ pln', serveAppend 0 NewIndex demo_header demo_fragment_spec demo_append (demo_pipeline demo0 demo0 (Serving None))
    [chunk (str_bytes "ab"); inr (RecvError "canceled")] = IoRet (Some pln', None, AppendErr (RecvError "canceled")).
Proof.
  destruct (append_rolls_back 0 NewIndex demo_header demo_fragment_spec demo_append
    (demo_pipeline demo0 demo0 (Serving None)) demo_aligned_spool [str_bytes "ab"] [inr (RecvError "canceled")]
    (RecvError "canceled") []) as (a0 & pln' & _ & Heq & _).
  - exact demo_aligned.
  - reflexivity.
  - reflexivity.
  - split; [vm_compute; intros [=]|by left].
  - reflexivity.
  - by repeat constructor.
  - vm_compute. intros [=].
  - constructor.
  - exists pln'. exact Heq.
Defined.

Lemma first_response_invalid_witness :
  ∃ s' resp, serveReplicate (demo_server demo0 Fresh) (Some demo_header) (demo_propose (sfrag (snd demo0))) =
    IoRet (sv_with (demo_server demo0 Fresh) s' (Serving None) [resp]) ∧ ReplicateResponse_Validate resp ≠ None.
Proof.
  apply (first_response_invalid (demo_server demo0 Fresh) demo_header (demo_propose (sfrag (snd demo0)))).
  - exact (proj1 demo_nodes).
  - reflexivity.
  - vm_compute. split; [split; [split; intros [=]|intros [=]]|reflexivity].
  - reflexivity.
Defined.
