(* ===== verification/Framing.v ===== *)
(** * Fixed framing of messages (src/v2/pkg/message/fixed_framing.go)

    A message is framed by a magic word and its length. [Unpack] reads the next frame of a
    [bufio.Reader], whatever its buffer holds and however the reads of the source come in;
    where there is no magic word it returns what precedes the next one. The marshaling of
    messages is generated code, a parameter here. *)
From S2P Require Import Prelude Encoding.

Definition FixedFrameHeaderLength : nat := 8.
Definition magicWord : bytes := [Byte.x66; Byte.x33; Byte.x93; Byte.x36].

(** ** bufio.Reader *)

Inductive read_error :=
| EOF
| ErrUnexpectedEOF
| ErrBufferFull
| ReadError (msg : string).

#[global] Instance read_error_eq_dec : EqDecision read_error.
Proof. solve_decision. Defined.

(** The buffer with its size; what the source still holds, the error that ends it, and the
    sizes of the reads it will serve (then as much as is asked for). *)
Record Reader := mkReader {
  rd_size : nat;
  rd_buf : bytes;
  rd_rest : bytes;
  rd_err : read_error;
  rd_reads : list nat;
}.

Definition contents (r : Reader) : bytes := rd_buf r ++ rd_rest r.

(** A read of at most [n] bytes, [0 < n], of the source, which holds some. *)
Definition source_read (r : Reader) (n : nat) : nat :=
  min n (min (length (rd_rest r)) (match rd_reads r with k :: _ => max 1 k | [] => n end)).

Definition fill (r : Reader) : Reader * option read_error :=
  match rd_rest r with
  | [] => (r, Some (rd_err r))
  | _ =>
      let n := source_read r (rd_size r - length (rd_buf r)) in
      (mkReader (rd_size r) (rd_buf r ++ take n (rd_rest r)) (drop n (rd_rest r)) (rd_err r) (tail (rd_reads r)), None)
  end.

Fixpoint peek_loop (fuel : nat) (r : Reader) (n : nat) : Reader * option read_error :=
  match fuel with
  | O => (r, None)
  | S fuel =>
      if (length (rd_buf r) <? n) && (length (rd_buf r) <? rd_size r) then
        match fill r with
        | (r, None) => peek_loop fuel r n
        | (r, Some e) => (r, Some e)
        end
      else (r, None)
  end.

(** Every round of the loop adds a byte to the buffer: [n] rounds fill it. *)
Definition Peek (r : Reader) (n : nat) : Reader * bytes * option read_error :=
  let '(r, err) := peek_loop n r n in
  if rd_size r <? n then (r, rd_buf r, Some ErrBufferFull)
  else if length (rd_buf r) <? n then (r, rd_buf r, Some (default ErrBufferFull err))
  else (r, take n (rd_buf r), None).

(** Of at most the bytes that are buffered. *)
Definition Discard (r : Reader) (n : nat) : Reader :=
  mkReader (rd_size r) (drop n (rd_buf r)) (rd_rest r) (rd_err r) (rd_reads r).

(** One [Read] of up to [n] bytes. *)
Definition Read (r : Reader) (n : nat) : Reader * bytes * option read_error :=
  match rd_buf r, rd_rest r with
  | _ :: _, _ => (Discard r n, take n (rd_buf r), None)
  | [], [] => (r, [], Some (rd_err r))
  | [], _ :: _ =>
      if rd_size r <=? n then
        let k := source_read r n in
        (mkReader (rd_size r) [] (drop k (rd_rest r)) (rd_err r) (tail (rd_reads r)), take k (rd_rest r), None)
      else
        let '(r, _) := fill r in (Discard r n, take n (rd_buf r), None)
  end.

Fixpoint ReadFull (fuel : nat) (r : Reader) (n : nat) (acc : bytes) : Reader * bytes * option read_error :=
  match fuel with
  | O => (r, acc, None)
  | S fuel =>
      if n =? 0 then (r, acc, None)
      else
        match Read r n with
        | (r, b, None) => ReadFull fuel r (n - length b) (acc ++ b)
        | (r, _, Some e) =>
            (r, acc, Some (if bool_decide (e = EOF) && negb (length acc =? 0) then ErrUnexpectedEOF else e))
        end
  end.

(** ** Frames *)

(** [b[0] == magicWord[0] && ...]: an index is evaluated if those before it matched. *)
Fixpoint matches_prefix (w b : bytes) : outcome bool :=
  match w, b with
  | [], _ => Ret true
  | _ :: _, [] => Panic "index out of range"
  | x :: w, y :: b => if bool_decide (y = x) then matches_prefix w b else Ret false
  end.

Definition matchesMagicWord (b : bytes) : outcome bool := matches_prefix magicWord b.

Fixpoint scan (fuel : nat) (b : bytes) (i j : nat) : outcome nat :=
  match fuel with
  | O => Ret i
  | S fuel =>
      if i =? j then Ret i
      else
        let! m := matchesMagicWord (drop i b) in
        if m then Ret i else scan fuel b (i + 1) j
  end.

Definition Unpack (r : Reader) : outcome (Reader * bytes * option read_error) :=
  let '(r, b, err) := Peek r FixedFrameHeaderLength in
  match err with
  | Some err =>
      if bool_decide (err = EOF) && bool_decide (b = [Byte.x0a]) then Ret (r, [], Some EOF)
      else if bool_decide (err = EOF) && negb (length b =? 0) then Ret (r, [], Some ErrUnexpectedEOF)
      else Ret (r, [], Some err)
  | None =>
      let! m := matchesMagicWord b in
      if negb m then
        let '(r, b, _) := Peek r (length (rd_buf r)) in
        let! i := scan (length b) b 1 (1 + length b - length magicWord) in
        Ret (Discard r i, take i b, None)
      else
        let size := FixedFrameHeaderLength + Z.to_nat (le_Z (take 4 (drop 4 b))) in
        let '(r, b, err) := Peek r size in
        match err with
        | None => Ret (Discard r size, b, None)
        | Some _ => Ret (ReadFull (size + 1) r size [])
        end
  end.

Section messages.
(** Messages with their generated methods, and the optional [Fixup]. *)
Context {M : Type} (MarshalTo : M → bytes + string) (UnmarshalProto : bytes → M + string) (Fixup : M → option string).

(** Appends the frame to [b]. [MarshalTo] fills the [ProtoSize] bytes it is given. *)
Definition Encode (msg : M) (b : bytes) : bytes + string :=
  match MarshalTo msg with
  | inr err => inr err
  | inl payload => inl (b ++ magicWord ++ Z_le 4 (uint32 (Z.of_nat (length payload))) ++ payload)
  end.

(** What is written to the writer, and the error. *)
Definition Marshal (msg : M) : bytes * option string :=
  match Encode msg [] with inl b => (b, None) | inr err => ([], Some err) end.

Definition Unmarshal (b : bytes) : outcome (M + string) :=
  let! m := matchesMagicWord b in
  if negb m then Ret (inr "detected de-synchronization")
  else if length b <? FixedFrameHeaderLength then Panic "slice bounds out of range"
  else
    match UnmarshalProto (drop FixedFrameHeaderLength b) with
    | inr err => Ret (inr err)
    | inl msg => match Fixup msg with Some err => Ret (inr err) | None => Ret (inl msg) end
    end.
End messages.

(** ** Readers keep their contents *)

Definition reader_ok (r : Reader) : Prop := 16 ≤ rd_size r ∧ length (rd_buf r) ≤ rd_size r.

(** [r'] is [r] with more of the source in its buffer. *)
Record buffers (r r' : Reader) : Prop := {
  bf_ok : reader_ok r';
  bf_size : rd_size r' = rd_size r ∧ rd_err r' = rd_err r;
  bf_contents : contents r' = contents r;
}.

Lemma source_read_pos r n : 0 < n → rd_rest r ≠ [] → 0 < source_read r n ≤ n.
Proof. intros Hn Hr. unfold source_read. destruct (rd_rest r); [done|]. destruct (rd_reads r); cbn [length]; lia. Qed.

Lemma fill_spec r :
  reader_ok r → length (rd_buf r) < rd_size r → rd_rest r ≠ [] →
  ∃ r', fill r = (r', None) ∧ buffers r r' ∧ length (rd_buf r) < length (rd_buf r').
Proof.
  intros [Hs Hb] Hlt Hr. pose proof (source_read_pos r (rd_size r - length (rd_buf r)) ltac:(lia) Hr) as Hk.
  unfold fill. destruct (rd_rest r) as [|x rest] eqn:E; [done|]. rewrite <- E.
  set (k := source_read r _) in *. assert (k ≤ length (rd_rest r)) as Hkl by (unfold k, source_read; lia).
  eexists. split; [reflexivity|]. split; [split|]; cbn.
  - split; cbn; [done|]. rewrite length_app, length_take. lia.
  - done.
  - unfold contents. cbn. by rewrite <- app_assoc, take_drop.
  - rewrite length_app, length_take. lia.
Qed.

Lemma buffers_refl r : reader_ok r → buffers r r.
Proof. by split. Qed.
Lemma buffers_trans r1 r2 r3 : buffers r1 r2 → buffers r2 r3 → buffers r1 r3.
Proof. intros [_ [H1 H1'] H2] [H3 [H4 H4'] H5]. split; [done|split; congruence|congruence]. Qed.

Lemma peek_loop_spec n : ∀ fuel r,
  reader_ok r → n - length (rd_buf r) ≤ fuel →
  ∃ r' e, peek_loop fuel r n = (r', e) ∧ buffers r r' ∧
    match e with
    | None => min n (rd_size r) ≤ length (rd_buf r')
    | Some x => rd_rest r' = [] ∧ x = rd_err r ∧ length (rd_buf r') < n
    end.
Proof.
  induction fuel as [|fuel IH]; intros r Hok Hf; cbn [peek_loop].
  { eexists _, None. split; [reflexivity|]. split; [by apply buffers_refl|]. lia. }
  destruct (Nat.ltb_spec (length (rd_buf r)) n) as [H1|H1]; cbn [andb].
  2:{ eexists _, None. split; [reflexivity|]. split; [by apply buffers_refl|]. lia. }
  destruct (Nat.ltb_spec (length (rd_buf r)) (rd_size r)) as [H2|H2].
  2:{ eexists _, None. split; [reflexivity|]. split; [by apply buffers_refl|]. lia. }
  destruct (decide (rd_rest r = [])) as [Hr|Hr].
  - unfold fill. rewrite Hr. eexists _, (Some _). split; [reflexivity|]. split; [by apply buffers_refl|]. done.
  - destruct (fill_spec r Hok H2 Hr) as (r1 & -> & Hb1 & Hl1).
    destruct (IH r1) as (r' & e & -> & Hb & He); [apply Hb1|lia|]. exists r', e. split; [done|].
    destruct Hb1 as [? [Hs1 He1] ?]. split; [by eapply buffers_trans; [split|]|]. rewrite Hs1, He1 in He. done.
Qed.

Lemma Peek_spec r n :
  reader_ok r → n ≤ rd_size r →
  ∃ r', buffers r r' ∧
    (n ≤ length (contents r) → Peek r n = (r', take n (contents r), None) ∧ n ≤ length (rd_buf r')) ∧
    (length (contents r) < n → Peek r n = (r', contents r, Some (rd_err r))).
Proof.
  intros Hok Hn. destruct (peek_loop_spec n n r Hok ltac:(lia)) as (r' & e & Hp & Hb & He).
  exists r'. split; [done|]. destruct Hb as [Hok' [Hs Her] Hc]. unfold Peek. rewrite Hp, Hs.
  destruct (Nat.ltb_spec (rd_size r) n); [lia|]. rewrite <- Hc. unfold contents. rewrite length_app.
  destruct e as [x|].
  - destruct He as (Hr & -> & Hlt). rewrite Hr. simpl. rewrite app_nil_r. split; [lia|]. intros _.
    destruct (Nat.ltb_spec (length (rd_buf r')) n); [done|lia].
  - split; [intros _|lia]. destruct (Nat.ltb_spec (length (rd_buf r')) n); [lia|]. split; [|done].
    by rewrite take_app_le by lia.
Qed.

Lemma Peek_large r n : reader_ok r → rd_size r < n → ∃ r' b, Peek r n = (r', b, Some ErrBufferFull) ∧ buffers r r'.
Proof.
  intros Hok Hn. destruct (peek_loop_spec n n r Hok ltac:(lia)) as (r' & e & Hp & Hb & _).
  exists r', (rd_buf r'). split; [|done]. unfold Peek. rewrite Hp. destruct Hb as [_ [-> _] _].
  by destruct (Nat.ltb_spec (rd_size r) n); [|lia].
Qed.

Lemma Discard_spec r n : reader_ok r → n ≤ length (rd_buf r) →
  reader_ok (Discard r n) ∧ contents (Discard r n) = drop n (contents r) ∧ rd_size (Discard r n) = rd_size r ∧ rd_err (Discard r n) = rd_err r.
Proof.
  intros [? ?] Hn. split_and!; [|unfold contents; simpl; by rewrite drop_app_le|done|done].
  split; cbn; [done|]. rewrite length_drop. lia.
Qed.

(** A read of what is buffered, or of as much of it as there is. *)
Lemma Discard_read r n :
  reader_ok r → 0 < n → rd_buf r ≠ [] →
  ∃ k, take n (rd_buf r) = take k (contents r) ∧ reader_ok (Discard r n) ∧ contents (Discard r n) = drop k (contents r) ∧
    rd_err (Discard r n) = rd_err r ∧ 0 < k ≤ n ∧ k ≤ length (contents r).
Proof.
  intros Hok Hn Hb. assert (0 < length (rd_buf r)) as Hpos by (destruct (rd_buf r); [done|simpl; lia]).
  exists (min n (length (rd_buf r))).
  assert (Discard r n = Discard r (min n (length (rd_buf r))) ∧ take n (rd_buf r) = take (min n (length (rd_buf r))) (rd_buf r)) as [-> ->].
  { unfold Discard. destruct (decide (n ≤ length (rd_buf r))); [by rewrite Nat.min_l|].
    rewrite Nat.min_r by lia. by rewrite !drop_ge, !take_ge by lia. }
  destruct (Discard_spec r (min n (length (rd_buf r))) Hok ltac:(lia)) as (? & ? & _ & ?).
  assert (length (contents r) = length (rd_buf r) + length (rd_rest r)) by (unfold contents; apply length_app).
  split_and!; [|done..|lia|lia|lia]. unfold contents. by rewrite take_app_le by lia.
Qed.

Lemma Read_spec r n :
  reader_ok r → 0 < n → contents r ≠ [] →
  ∃ r' k, Read r n = (r', take k (contents r), None) ∧ reader_ok r' ∧ contents r' = drop k (contents r) ∧
    rd_err r' = rd_err r ∧ 0 < k ≤ n ∧ k ≤ length (contents r).
Proof.
  intros Hok Hn Hc. unfold Read. destruct (rd_buf r) as [|x buf] eqn:Hb.
  2:{ rewrite <- Hb. destruct (Discard_read r n Hok Hn) as (k & -> & ?); [by rewrite Hb|]. by exists (Discard r n), k. }
  assert (contents r = rd_rest r) as Hcr by (unfold contents; by rewrite Hb).
  destruct (rd_rest r) as [|y rest] eqn:Hr; [done|]. rewrite <- Hr in *.
  assert (rd_rest r ≠ []) as Hne by (by rewrite Hr).
  destruct (Nat.leb_spec (rd_size r) n) as [Hle|Hgt].
  - pose proof (source_read_pos r n Hn Hne) as Hk. set (k := source_read r n) in *.
    assert (k ≤ length (rd_rest r)) by (unfold k, source_read; lia).
    rewrite Hcr. eexists _, k. split; [reflexivity|]. split_and!; cbn; try lia; [split; cbn; destruct Hok; lia|done|done].
  - destruct (fill_spec r Hok) as (r1 & -> & [Hok1 [_ He1] Hc1] & Hl); [rewrite Hb; destruct Hok; simpl; lia|done|].
    destruct (Discard_read r1 n Hok1 Hn) as (k & -> & H1 & H2 & H3 & H4); [intros E; rewrite E in Hl; simpl in Hl; lia|].
    rewrite Hc1 in *. exists (Discard r1 n), k. split_and!; try done; try lia; congruence.
Qed.

Lemma ReadFull_spec fuel : ∀ r n acc,
  reader_ok r → n < fuel → n ≤ length (contents r) →
  ∃ r', ReadFull fuel r n acc = (r', acc ++ take n (contents r), None) ∧ reader_ok r' ∧ contents r' = drop n (contents r).
Proof.
  induction fuel as [|fuel IH]; intros r n acc Hok Hf Hn; [lia|]. cbn [ReadFull].
  destruct (Nat.eqb_spec n 0) as [-> |Hn0]; [exists r; by rewrite take_0, app_nil_r, drop_0|].
  destruct (Read_spec r n Hok) as (r1 & k & -> & Hok1 & Hc1 & _ & Hk & Hkl); [lia|by intros E; rewrite E in Hn; simpl in Hn; lia|].
  rewrite length_take, Nat.min_l by lia.
  destruct (IH r1 (n - k) (acc ++ take k (contents r)) Hok1) as (r' & -> & Hok' & Hc'); [lia|rewrite Hc1, length_drop; lia|].
  exists r'. rewrite Hc', Hc1, drop_drop, <- app_assoc. split_and!; [|done|f_equal; lia].
  do 3 f_equal. replace n with (k + (n - k)) at 2 by lia. by rewrite take_take_drop.
Qed.

(** The source ends first. *)
Lemma ReadFull_short fuel : ∀ r n acc,
  reader_ok r → n < fuel → length (contents r) < n → rd_err r = EOF → acc ++ contents r ≠ [] →
  ∃ r' b, ReadFull fuel r n acc = (r', b, Some ErrUnexpectedEOF).
Proof.
  induction fuel as [|fuel IH]; intros r n acc Hok Hf Hn He Hne; [lia|]. cbn [ReadFull].
  destruct (Nat.eqb_spec n 0); [lia|]. destruct (decide (contents r = [])) as [Hc|Hc].
  - assert (Read r n = (r, [], Some EOF)) as ->.
    { unfold contents in Hc. apply app_nil in Hc as [Hb Hr]. unfold Read. by rewrite Hb, Hr, He. }
    rewrite Hc, app_nil_r in Hne. rewrite bool_decide_eq_true_2 by done.
    destruct (Nat.eqb_spec (length acc) 0) as [Hz|_]; [by apply nil_length_inv in Hz|]. by eexists _, _.
  - destruct (Read_spec r n Hok) as (r1 & k & -> & Hok1 & Hc1 & He1 & Hk & Hkl); [lia|done|].
    rewrite length_take, Nat.min_l by lia. apply IH; [done|lia|rewrite Hc1, length_drop; lia|congruence|].
    rewrite Hc1, <- app_assoc, take_drop. done.
Qed.

(** ** Unpack *)

Definition at_magic (b : bytes) : Prop := take 4 b = magicWord.
#[global] Instance at_magic_dec b : Decision (at_magic b).
Proof. unfold at_magic. apply _. Defined.

Lemma matches_prefix_spec w : ∀ b, length w ≤ length b → matches_prefix w b = Ret (bool_decide (take (length w) b = w)).
Proof.
  induction w as [|x w IH]; intros [|y b] Hl; simpl in Hl |- *; try done; try lia.
  case_bool_decide as Hxy.
  - subst y. rewrite IH by lia. f_equal. apply bool_decide_ext. split; congruence.
  - rewrite bool_decide_eq_false_2 by congruence. done.
Qed.

Lemma matchesMagicWord_spec b : 4 ≤ length b → matchesMagicWord b = Ret (bool_decide (at_magic b)).
Proof. intros Hl. by apply (matches_prefix_spec magicWord). Qed.

Lemma scan_spec b : ∀ fuel i,
  4 ≤ length b → 1 ≤ i ≤ length b - 3 → length b - 3 - i < fuel →
  ∃ k, scan fuel b i (1 + length b - 4) = Ret k ∧ i ≤ k ≤ length b - 3 ∧ ∀ j, i ≤ j < k → ¬ at_magic (drop j b).
Proof.
  induction fuel as [|fuel IH]; intros i Hb Hi Hf; [lia|]. cbn [scan].
  replace (1 + length b - 4) with (length b - 3) in * by lia.
  destruct (Nat.eqb_spec i (length b - 3)); [exists i; split_and!; [done|lia|lia|intros; lia]|].
  rewrite matchesMagicWord_spec by (rewrite length_drop; lia). cbn [outcome_bind].
  case_bool_decide as Hm; [exists i; split_and!; [done|lia|lia|intros; lia]|].
  destruct (IH (i + 1)) as (k & -> & Hk & Hj); [lia..|]. exists k. split_and!; [done|lia|lia|].
  intros j Hjk. destruct (decide (j = i)) as [-> |]; [done|]. apply Hj. lia.
Qed.

(** The length that a header announces. *)
Definition frame_size (c : bytes) : nat := FixedFrameHeaderLength + Z.to_nat (le_Z (take 4 (drop 4 c))).

(** What is left of [c] after [b] was taken. *)
Definition takes (r : Reader) (res : outcome (Reader * bytes * option read_error)) (n : nat) : Prop :=
  ∃ r', res = Ret (r', take n (contents r), None) ∧ reader_ok r' ∧ contents r' = drop n (contents r).

Lemma Unpack_frame r :
  reader_ok r → at_magic (contents r) → frame_size (contents r) ≤ length (contents r) →
  takes r (Unpack r) (frame_size (contents r)).
Proof.
  intros Hok Hm Hl. assert (8 ≤ frame_size (contents r)) as H8 by (unfold frame_size, FixedFrameHeaderLength; lia).
  assert (8 ≤ rd_size r) as Hsz by (destruct Hok; lia).
  destruct (Peek_spec r 8 Hok Hsz) as (r1 & Hb1 & Hp1 & _). destruct (Hp1 ltac:(lia)) as [Hp _].
  unfold Unpack, FixedFrameHeaderLength. rewrite Hp, matchesMagicWord_spec by (rewrite length_take; lia). cbn [outcome_bind].
  rewrite bool_decide_eq_true_2 by (unfold at_magic; by rewrite take_take). cbn [negb].
  assert (8 + Z.to_nat (le_Z (take 4 (drop 4 (take 8 (contents r))))) = frame_size (contents r)) as ->.
  { unfold frame_size, FixedFrameHeaderLength. do 3 f_equal. rewrite skipn_firstn_comm. by rewrite take_take. }
  destruct Hb1 as [Hok1 [Hs1 _] Hc1]. set (size := frame_size (contents r)) in *. unfold takes. rewrite <- Hc1 in Hl |- *.
  destruct (decide (size ≤ rd_size r1)) as [Hle|Hgt].
  - destruct (Peek_spec r1 size Hok1 Hle) as (r2 & [Hok2 _ Hc2] & Hp2 & _). destruct (Hp2 Hl) as [-> Hbuf].
    destruct (Discard_spec r2 size Hok2 Hbuf) as (? & Hd & _). exists (Discard r2 size). split_and!; [done|done|by rewrite Hd, Hc2].
  - destruct (Peek_large r1 size Hok1) as (r2 & b & -> & [Hok2 _ Hc2]); [lia|]. rewrite <- Hc2 in Hl |- *.
    destruct (ReadFull_spec (size + 1) r2 size [] Hok2) as (r3 & -> & Hok3 & Hc3); [lia|done|]. by exists r3.
Qed.

Lemma Unpack_desync r :
  reader_ok r → 8 ≤ length (contents r) → ¬ at_magic (contents r) →
  ∃ n, takes r (Unpack r) n ∧ 0 < n < length (contents r) ∧ ∀ j, j < n → ¬ at_magic (drop j (contents r)).
Proof.
  intros Hok Hl Hm. assert (8 ≤ rd_size r) as Hsz by (destruct Hok; lia).
  destruct (Peek_spec r 8 Hok Hsz) as (r1 & [Hok1 _ Hc1] & Hp1 & _). destruct (Hp1 Hl) as [Hp Hbuf].
  unfold Unpack, FixedFrameHeaderLength. rewrite Hp, matchesMagicWord_spec by (rewrite length_take; lia). cbn [outcome_bind].
  rewrite bool_decide_eq_false_2 by (unfold at_magic in *; by rewrite take_take). cbn [negb].
  destruct (Peek_spec r1 (length (rd_buf r1)) Hok1) as (r2 & [Hok2 _ Hc2] & Hp2 & _); [by destruct Hok1|].
  assert (length (contents r1) = length (rd_buf r1) + length (rd_rest r1)) as Hlc by (unfold contents; apply length_app).
  destruct Hp2 as [-> Hbuf2]; [lia|]. set (b := take _ _).
  assert (b = rd_buf r1) as -> by (unfold b, contents; by rewrite take_app_le, firstn_all by lia).
  change (length magicWord) with 4. destruct (scan_spec (rd_buf r1) (length (rd_buf r1)) 1) as (k & -> & Hk & Hj); [lia..|]. cbn [outcome_bind].
  destruct (Discard_spec r2 k Hok2) as (? & Hd & _); [lia|].
  exists k. rewrite <- Hc1 in *. split_and!; [|lia|lia|].
  - exists (Discard r2 k). rewrite Hd, Hc2, Hc1. split_and!; [|done|by rewrite <- Hc1]. rewrite <- Hc1. do 3 f_equal. unfold contents. by rewrite take_app_le by lia.
  - intros j Hjk. destruct (decide (j = 0)) as [-> |]; [done|]. intros Hat. apply (Hj j); [lia|]. unfold at_magic in *. rewrite <- Hat.
    unfold contents. rewrite drop_app_le by lia. rewrite take_app_le by (rewrite length_drop; lia). done.
Qed.

Lemma Unpack_short r :
  reader_ok r → rd_err r = EOF →
  length (contents r) < 8 ∨ at_magic (contents r) ∧ length (contents r) < frame_size (contents r) →
  ∃ r' b, Unpack r = Ret (r', b, Some (if bool_decide (contents r = [] ∨ contents r = [Byte.x0a]) then EOF else ErrUnexpectedEOF)).
Proof.
  intros Hok He Hs. assert (8 ≤ rd_size r) as Hsz by (destruct Hok; lia).
  destruct (Peek_spec r 8 Hok Hsz) as (r1 & [Hok1 [Hs1 He1] Hc1] & Hp1 & Hp2). unfold Unpack, FixedFrameHeaderLength.
  destruct (decide (length (contents r) < 8)) as [Hlt|Hge].
  { rewrite (Hp2 Hlt), He, (bool_decide_eq_true_2 (EOF = EOF)) by done. cbn [andb].
    destruct (decide (contents r = [Byte.x0a])) as [Hn|Hn].
    { rewrite !bool_decide_eq_true_2 by auto. by eexists _, _. }
    rewrite (bool_decide_eq_false_2 (contents r = _)) by done.
    destruct (Nat.eqb_spec (length (contents r)) 0) as [Hz|Hz]; cbn [negb].
    - apply nil_length_inv in Hz. rewrite bool_decide_eq_true_2 by auto. by eexists _, _.
    - rewrite bool_decide_eq_false_2 by (intros [Hc|?]; [by rewrite Hc in Hz|done]). by eexists _, _. }
  destruct Hs as [?|[Hm Hl]]; [lia|]. destruct (Hp1 ltac:(lia)) as [-> _].
  rewrite matchesMagicWord_spec by (rewrite length_take; lia). cbn [outcome_bind].
  rewrite (bool_decide_eq_true_2 (at_magic _)) by (unfold at_magic; by rewrite take_take). cbn [negb].
  assert (8 + Z.to_nat (le_Z (take 4 (drop 4 (take 8 (contents r))))) = frame_size (contents r)) as ->.
  { unfold frame_size, FixedFrameHeaderLength. do 3 f_equal. rewrite skipn_firstn_comm. by rewrite take_take. }
  rewrite bool_decide_eq_false_2 by (intros [Hc|Hc]; rewrite Hc in Hge; simpl in Hge; lia).
  set (size := frame_size (contents r)) in *. rewrite <- Hc1 in Hl, Hge.
  assert (∃ r2 b e, Peek r1 size = (r2, b, Some e) ∧ buffers r1 r2) as (r2 & b & e & -> & [Hok2 [_ He2] Hc2]).
  { destruct (decide (size ≤ rd_size r1)) as [Hle|Hgt].
    - destruct (Peek_spec r1 size Hok1 Hle) as (r2 & Hb2 & _ & Hp). by eexists r2, _, _; split; [apply Hp|].
    - destruct (Peek_large r1 size Hok1) as (r2 & b & -> & ?); [lia|]. by eexists _, _, _. }
  rewrite <- Hc2 in Hl, Hge.
  destruct (ReadFull_short (size + 1) r2 size [] Hok2) as (r3 & b3 & ->); [lia|done|congruence| |by eexists _, _].
  intros Hnil. cbn [app] in Hnil. rewrite Hnil in Hge. simpl in Hge. lia.
Qed.

(** [Unpack], of a reader of any buffer size and however its source serves reads. At a magic
    word with a whole frame it returns exactly the frame. Out of sync it returns a
    non-empty prefix of what follows, in which no magic word begins: no frame is skipped. With a
    partial header or frame it fails with ErrUnexpectedEOF, and at the end of the source (or a
    last newline) with EOF. It never panics. *)
Theorem Unpack_correct r :
  reader_ok r → rd_err r = EOF →
  let c := contents r in
  (at_magic c → frame_size c ≤ length c → takes r (Unpack r) (frame_size c)) ∧
  (¬ at_magic c → 8 ≤ length c →
     ∃ n, takes r (Unpack r) n ∧ 0 < n < length c ∧ ∀ j, j < n → ¬ at_magic (drop j c)) ∧
  (length c < 8 ∨ at_magic c ∧ length c < frame_size c →
     ∃ r' b, Unpack r = Ret (r', b, Some (if bool_decide (c = [] ∨ c = [Byte.x0a]) then EOF else ErrUnexpectedEOF))).
Proof.
  intros Hok He c. split_and!.
  - by apply Unpack_frame.
  - intros ? ?. by apply Unpack_desync.
  - by apply Unpack_short.
Qed.

Section roundtrip.
Context {M : Type} (MarshalTo : M → bytes + string) (UnmarshalProto : bytes → M + string) (Fixup : M → option string).
(** Unmarshaling restores what was marshaled, of messages that their [Fixup] accepts. *)
Context (proto_roundtrip : ∀ msg payload, MarshalTo msg = inl payload → UnmarshalProto payload = inl msg).

(** Reads [n] messages. *)
Fixpoint read_messages (n : nat) (r : Reader) : outcome (Reader * list M + string) :=
  match n with
  | O => Ret (inl (r, []))
  | S n =>
      let! (r, b, err) := Unpack r in
      match err with
      | Some _ => Ret (inr "Unpack")
      | None =>
          let! m := Unmarshal UnmarshalProto Fixup b in
          match m with
          | inr e => Ret (inr e)
          | inl msg =>
              let! rest := read_messages n r in
              match rest with inr e => Ret (inr e) | inl (r, l) => Ret (inl (r, msg :: l)) end
          end
      end
  end.

Lemma Encode_frame msg payload :
  MarshalTo msg = inl payload → (Z.of_nat (length payload) < 2 ^ 32)%Z →
  ∃ b, Encode MarshalTo msg [] = inl b ∧ length b = 8 + length payload ∧ drop 8 b = payload ∧
    ∀ tail, at_magic (b ++ tail) ∧ frame_size (b ++ tail) = length b.
Proof.
  intros Hm Hl. unfold Encode. rewrite Hm. eexists. split; [reflexivity|].
  assert (uint32 (Z.of_nat (length payload)) = Z.of_nat (length payload)) as ->.
  { apply uint32_id. unfold is_uint32, MaxUint32. lia. }
  set (h := Z_le 4 (Z.of_nat (length payload))). assert (length h = 4) as Hh by apply length_Z_le.
  assert (length (magicWord ++ h) = 8) as H8 by (rewrite length_app, Hh; done).
  cbn [app]. change (magicWord ++ h ++ payload) with (magicWord ++ (h ++ payload)).
  rewrite !length_app, Hh. split_and!; [done| |].
  - rewrite app_assoc. by rewrite drop_app_ge, H8 by lia.
  - intros tail. split; [done|]. unfold frame_size, FixedFrameHeaderLength.
    assert (take 4 (drop 4 ((magicWord ++ h ++ payload) ++ tail)) = h) as ->.
    { change (drop 4 ((magicWord ++ h ++ payload) ++ tail)) with ((h ++ payload) ++ tail).
      rewrite <- app_assoc, take_app_le by lia. apply take_ge. lia. }
    unfold h. rewrite le_Z_le, Z.mod_small by lia. rewrite Nat2Z.id. simpl. lia.
Qed.

(** C38: framing round trip. Messages that are marshaled one after the other are read back as
    they were, whatever follows them, and the reader is left at what follows. *)
Theorem framing_roundtrip msgs : ∀ r tail,
  reader_ok r → contents r = concat ((λ m, fst (Marshal MarshalTo m)) <$> msgs) ++ tail →
  Forall (λ m, Fixup m = None ∧ ∃ p, MarshalTo m = inl p ∧ (Z.of_nat (length p) < 2 ^ 32)%Z) msgs →
  ∃ r', read_messages (length msgs) r = Ret (inl (r', msgs)) ∧ reader_ok r' ∧ contents r' = tail.
Proof.
  induction msgs as [|m msgs IH]; intros r tail Hok Hc Hmsgs; cbn [read_messages length].
  { by exists r. }
  apply Forall_cons in Hmsgs as [(Hfix & p & Hp & Hpl) Hmsgs].
  destruct (Encode_frame m p Hp Hpl) as (b & Hb & Hlen & Hdrop & Hfr).
  rewrite fmap_cons in Hc. cbn [concat] in Hc. unfold Marshal in Hc at 1. rewrite Hb in Hc. cbn [fst] in Hc.
  rewrite <- app_assoc in Hc. destruct (Hfr (concat ((λ m, fst (Marshal MarshalTo m)) <$> msgs) ++ tail)) as [Hat Hsz].
  rewrite <- Hc in Hat, Hsz.
  destruct (Unpack_frame r Hok Hat) as (r1 & -> & Hok1 & Hc1); [rewrite Hsz, Hc, length_app; lia|]. cbn [outcome_bind].
  rewrite Hsz, Hc, drop_app_length in Hc1. rewrite Hsz, Hc, take_app_length.
  assert (at_magic b) as Hbm by (destruct (Hfr []) as [? _]; by rewrite app_nil_r in *).
  unfold Unmarshal at 1. rewrite matchesMagicWord_spec, bool_decide_eq_true_2 by (done || lia). cbn [outcome_bind negb].
  unfold FixedFrameHeaderLength. destruct (Nat.ltb_spec (length b) 8); [lia|].
  rewrite Hdrop, (proto_roundtrip m p Hp), Hfix. cbn [outcome_bind].
  destruct (IH r1 tail Hok1 Hc1 Hmsgs) as (r' & -> & ? & ?). cbn [outcome_bind]. by exists r'.
Qed.

(** A byte 0x66 that precedes a frame crashes the reader. [Unpack] returns the byte as
    desynchronized content, as it should, but [Unmarshal] compares the frame with the magic word
    without regard to its length: the first byte matches, and the index of the second is out
    of range. It should have returned ErrDesyncDetected. *)
Theorem short_desync_panics r :
  reader_ok r → 8 ≤ length (contents r) → take 5 (contents r) = Byte.x66 :: magicWord →
  ∃ r', Unpack r = Ret (r', [Byte.x66], None) ∧
    Unmarshal UnmarshalProto Fixup [Byte.x66] = Panic "index out of range".
Proof.
  intros Hok Hl Ht. destruct (contents r) as [|x c] eqn:Hc; [done|]. simpl in Ht. injection Ht as -> Ht.
  destruct (Unpack_desync r Hok) as (n & (r' & -> & _) & Hn & Hj).
  - by rewrite Hc.
  - rewrite Hc. unfold at_magic, magicWord in *. simpl. intros Heq. injection Heq as Heq.
    destruct c as [|y c]; [done|]. injection Ht as ->. done.
  - assert (n = 1) as ->.
    { destruct (decide (n = 1)); [done|]. exfalso. apply (Hj 1); [lia|]. by rewrite Hc. }
    exists r'. rewrite Hc. done.
Qed.
End roundtrip.

(** ** Concrete inputs *)

(** Messages that are their own encoding. *)
Definition demo_marshal (m : bytes) : bytes + string := inl m.
Definition demo_unmarshal (b : bytes) : bytes + string := inl b.
Definition demo_frame (s : string) : bytes := fst (Marshal demo_marshal (str_bytes s)).

(** A small buffer, and a source that serves three bytes at a time. *)
Definition demo_reader (c : bytes) : Reader := mkReader 16 [] c EOF (replicate 20 3).

Lemma demo_reader_ok c : reader_ok (demo_reader c).
Proof. split; simpl; lia. Qed.

Lemma Unpack_correct_witness :
  takes (demo_reader (demo_frame "test message content")) (Unpack (demo_reader (demo_frame "test message content"))) 28.
Proof.
  apply (Unpack_correct (demo_reader (demo_frame "test message content"))).
  - apply demo_reader_ok.
  - reflexivity.
  - reflexivity.
  - vm_compute. lia.
Defined.

Lemma framing_roundtrip_witness :
  ∃ r', read_messages demo_unmarshal (λ _, None) 2 (demo_reader (demo_frame "foo" ++ demo_frame "bar" ++ str_bytes "x")) =
    Ret (inl (r', [str_bytes "foo"; str_bytes "bar"])) ∧ contents r' = str_bytes "x".
Proof.
  destruct (framing_roundtrip demo_marshal demo_unmarshal (λ _, None) ltac:(by intros m p [= ->])
    [str_bytes "foo"; str_bytes "bar"] (demo_reader (demo_frame "foo" ++ demo_frame "bar" ++ str_bytes "x")) (str_bytes "x"))
    as (r' & Hr & _ & Hc).
  - apply demo_reader_ok.
  - reflexivity.
  - repeat (apply Forall_cons; split; [split; [done|]; eexists; split; [reflexivity|vm_compute; reflexivity]|]). constructor.
  - exists r'. split; [exact Hr|exact Hc].
Defined.

Lemma short_desync_panics_witness :
  ∃ r', Unpack (demo_reader (Byte.x66 :: demo_frame "foo")) = Ret (r', [Byte.x66], None) ∧
    Unmarshal demo_unmarshal (λ _, None) [Byte.x66] = Panic "index out of range".
Proof.
  apply (short_desync_panics (M := bytes) demo_unmarshal (λ _, None) (demo_reader (Byte.x66 :: demo_frame "foo"))).
  - apply demo_reader_ok.
  - vm_compute. lia.
  - reflexivity.
Defined.
