(* ===== verification/Segment.v ===== *)
(** * Segments of a recovery log (src/v2/pkg/recoverylog/segment.go)

    A segment is a range of sequence numbers that one author wrote, with bounds on the
    offsets of the log where it lies. A [SegmentSet] keeps disjoint segments in order; [Add]
    reduces a segment with those it overlaps or adjoins. *)
From S2P Require Import Prelude Encoding.
Local Open Scope Z_scope.

Record Segment := mkSegment {
  Author : Z;
  FirstSeqNo : Z;
  FirstOffset : Z;
  FirstChecksum : Z;
  LastSeqNo : Z;
  LastOffset : Z;
}.

#[global] Instance Segment_eq_dec : EqDecision Segment.
Proof. solve_decision. Defined.
#[global] Instance Segment_inhabited : Inhabited Segment := populate (mkSegment 0 0 0 0 0 0).

Definition Segment_Validate (s : Segment) : option string :=
  if Author s =? 0 then Some "segment.Author is zero"
  else if FirstSeqNo s <=? 0 then Some "segment.FirstSeqNo <= 0"
  else if FirstOffset s <? 0 then Some "segment.FirstOffset < 0"
  else if LastSeqNo s <? FirstSeqNo s then Some "segment.LastSeqNo < segment.FirstSeqNo"
  else if negb (LastOffset s =? 0) && (LastOffset s <=? FirstOffset s)
  then Some "segment.LastOffset <= segment.FirstOffset"
  else None.

Abbreviation SegmentSet := (list Segment).

(** ** Reduction *)

Definition nonZeroAndLess (a b : Z) : bool := negb (a =? 0) && (a <? b).

(** The results of [reduceSegment]: a nil error, [errNotReducible], any other error. *)
Inductive reduction :=
| Reduced (s : Segment)
| NotReducible
| Inconsistent (err : string).

Definition reduce_ordered (a b : Segment) : outcome reduction :=
  if (FirstSeqNo a <? FirstSeqNo b) && (FirstOffset b <? FirstOffset a) then
    Ret (Inconsistent "expected monotonic FirstOffset: %#v vs %#v")
  else if (FirstSeqNo a <? FirstSeqNo b) && (LastOffset a =? 0) && negb (LastOffset b =? 0) then
    Ret (Inconsistent "expected preceding Segment to also include LastOffset: %#v vs %#v")
  else if (LastSeqNo a <=? LastSeqNo b) && nonZeroAndLess (LastOffset b) (LastOffset a)
       || (LastSeqNo b <=? LastSeqNo a) && nonZeroAndLess (LastOffset a) (LastOffset b) then
    Ret (Inconsistent "expected monotonic LastOffset: %#v vs %#v")
  else if (FirstSeqNo a =? FirstSeqNo b) && negb (FirstChecksum a =? FirstChecksum b) then
    Ret (Inconsistent "expected FirstChecksum equality: %#v vs %#v")
  else if int64 (LastSeqNo a + 1) <? FirstSeqNo b then Ret NotReducible
  else if (int64 (LastSeqNo a + 1) =? FirstSeqNo b) && negb (Author a =? Author b) then Ret NotReducible
  else if negb (Author a =? Author b) then
    Ret (Inconsistent "expected Segment Author equality: %#v vs %#v")
  else if FirstSeqNo a <=? FirstSeqNo b then
    let firstOffset :=
      if (FirstSeqNo a =? FirstSeqNo b) && (FirstOffset a <? FirstOffset b) then FirstOffset b else FirstOffset a in
    let lastOffset :=
      if (LastSeqNo a =? LastSeqNo b) && (LastOffset a =? 0) then LastOffset b else LastOffset a in
    let '(lastSeqNo, lastOffset) :=
      if LastSeqNo a <? LastSeqNo b then (LastSeqNo b, LastOffset b) else (LastSeqNo a, lastOffset) in
    Ret (Reduced (mkSegment (Author a) (FirstSeqNo a) firstOffset (FirstChecksum a) lastSeqNo lastOffset))
  else Panic "not reached".

Definition reduceSegment (a b : Segment) : outcome reduction :=
  if (FirstSeqNo b <? FirstSeqNo a) || (FirstSeqNo a =? FirstSeqNo b) && (LastSeqNo a <? LastSeqNo b)
  then reduce_ordered b a else reduce_ordered a b.

(** ** Operations of a set *)

(** The iterative reductions: the reduced segment, and how many of [l] went into it. *)
Fixpoint reduce_following (l : list Segment) (segment : Segment) (end_ : nat) : outcome (Segment * nat + string) :=
  match l with
  | [] => Ret (inl (segment, end_))
  | x :: l =>
      let! r := reduceSegment x segment in
      match r with
      | Reduced m => reduce_following l m (S end_)
      | NotReducible => Ret (inl (segment, end_))
      | Inconsistent e => Ret (inr e)
      end
  end.

Definition reduce_previous (s : SegmentSet) (begin_ : nat) (segment : Segment) : outcome (Segment * nat + string) :=
  if (0 <? begin_)%nat then
    let! r := reduceSegment (s !!! (begin_ - 1)%nat) segment in
    match r with
    | Reduced m => Ret (inl (m, (begin_ - 1)%nat))
    | NotReducible => Ret (inl (segment, begin_))
    | Inconsistent e => Ret (inr e)
    end
  else Ret (inl (segment, begin_)).

Definition SegmentSet_splice (s : SegmentSet) (begin_ end_ : nat) (segment : Segment) : SegmentSet :=
  if (begin_ =? length s)%nat then s ++ [segment]
  else <[begin_ := segment]> (take (begin_ + 1) s ++ drop end_ s).

(** The set after the call, and the error it returns. *)
Definition SegmentSet_Add (s : SegmentSet) (segment : Segment) : outcome (SegmentSet * option string) :=
  match Segment_Validate segment with
  | Some err => Ret (s, Some err)
  | None =>
      let begin_ := sort_Search (length s) (λ i, FirstSeqNo segment <=? FirstSeqNo (s !!! i)) in
      let! r := reduce_previous s begin_ segment in
      match r with
      | inr err => Ret (s, Some err)
      | inl (segment, begin_) =>
          let! r := reduce_following (drop begin_ s) segment begin_ in
          match r with
          | inr err => Ret (s, Some err)
          | inl (segment, end_) => Ret (SegmentSet_splice s begin_ end_ segment, None)
          end
      end
  end.

Fixpoint walk_back (s : SegmentSet) (firstOffset : Z) (i : nat) : nat :=
  match i with
  | O => O
  | S i' =>
      if (LastOffset (s !!! i') =? 0) || (firstOffset <? LastOffset (s !!! i'))
      then walk_back s firstOffset i' else i
  end.

Definition Intersect (s : SegmentSet) (firstOffset lastOffset : Z) : outcome SegmentSet :=
  if lastOffset <? firstOffset then Panic "invalid range"
  else
    let j := sort_Search (length s) (λ i, lastOffset <=? FirstOffset (s !!! i)) in
    let i := walk_back s firstOffset j in
    Ret (slice s i j).

(** ** The invariant *)

Record seg_ok (s : Segment) : Prop := {
  ok_first : 0 < FirstSeqNo s;
  ok_last : FirstSeqNo s ≤ LastSeqNo s < MaxInt64;
  ok_offsets : 0 ≤ FirstOffset s ∧ 0 ≤ LastOffset s;
}.

(** [a] precedes [b] in a set. A LastOffset of zero is one that is not known. *)
Definition precedes (a b : Segment) : Prop :=
  LastSeqNo a < FirstSeqNo b ∧ FirstOffset a ≤ FirstOffset b ∧
  (LastOffset b = 0 ∨ LastOffset a ≠ 0 ∧ LastOffset a ≤ LastOffset b).

Record SegmentSet_inv (s : SegmentSet) : Prop := {
  set_ok : Forall seg_ok s;
  set_sorted : StronglySorted precedes s;
}.

(** [n] was written by author [a], according to the segment. *)
Definition seg_covers (s : Segment) (n a : Z) : Prop := FirstSeqNo s ≤ n ≤ LastSeqNo s ∧ Author s = a.
Definition covered (s : SegmentSet) (n a : Z) : Prop := ∃ x, x ∈ s ∧ seg_covers x n a.

Lemma Validate_ok s : Segment_Validate s = None → LastSeqNo s < MaxInt64 → seg_ok s.
Proof.
  unfold Segment_Validate. intros Hv ?. repeat (case_match; [done|]).
  split; [lia..|]. destruct (Z.eqb_spec (LastOffset s) 0); simpl in *; lia.
Qed.

Lemma precedes_trans a b c : seg_ok b → precedes a b → precedes b c → precedes a c.
Proof. unfold precedes. intros [_ ? _] ? ?. lia. Qed.

(** What a reduction of [a] and [b] to [m] establishes. *)
Record reduces (a b m : Segment) : Prop := {
  red_author : Author a = Author b ∧ Author m = Author a;
  red_first : FirstSeqNo m = Z.min (FirstSeqNo a) (FirstSeqNo b);
  red_last : LastSeqNo m = Z.max (LastSeqNo a) (LastSeqNo b);
  red_touch : Z.max (FirstSeqNo a) (FirstSeqNo b) ≤ Z.min (LastSeqNo a) (LastSeqNo b) + 1;
  red_FirstOffset : FirstOffset m = FirstOffset a ∨ FirstOffset m = FirstOffset b;
  red_LastOffset : LastOffset m = LastOffset a ∨ LastOffset m = LastOffset b;
  red_left : FirstSeqNo a < FirstSeqNo b → FirstOffset m = FirstOffset a ∧
    (LastOffset m = LastOffset a ∨ LastOffset m = 0 ∨ LastOffset a ≠ 0 ∧ LastOffset a ≤ LastOffset m);
}.

Lemma reduce_ordered_spec a b :
  seg_ok a → seg_ok b → FirstSeqNo a ≤ FirstSeqNo b →
  ∃ r, reduce_ordered a b = Ret r ∧
    match r with
    | Reduced m => reduces a b m ∧ (FirstSeqNo a = FirstSeqNo b → LastSeqNo b ≤ LastSeqNo a → reduces b a m)
    | NotReducible => precedes a b
    | Inconsistent _ => True
    end.
Proof.
  intros Ha Hb Hab. pose proof Ha as [Ha1 Ha2 Ha3]. pose proof Hb as [Hb1 Hb2 Hb3].
  unfold reduce_ordered, nonZeroAndLess. rewrite int64_id by (unfold is_int64, MinInt64, MaxInt64 in *; lia).
  repeat match goal with
  | |- ∃ r, (if ?c then Ret (Inconsistent _) else _) = Ret r ∧ _ => destruct c eqn:?; [by eexists|]
  | |- ∃ r, (if ?c then Ret NotReducible else _) = Ret r ∧ _ =>
      destruct c eqn:?; [eexists; split; [reflexivity|unfold precedes; lia]|]
  end.
  destruct (FirstSeqNo a <=? FirstSeqNo b) eqn:?; [|lia].
  assert (Author a = Author b) by lia.
  destruct (LastSeqNo a <? LastSeqNo b) eqn:Hlast; (eexists; split; [reflexivity|]); (split; [|intros ? ?]);
    (split; cbn [Author FirstSeqNo FirstOffset LastSeqNo LastOffset]; [lia..| | |]);
    repeat case_match; lia.
Qed.

(** The segment of the set begins no earlier than the one being added. *)
Lemma reduceSegment_following x m :
  seg_ok x → seg_ok m → FirstSeqNo m ≤ FirstSeqNo x →
  ∃ r, reduceSegment x m = Ret r ∧
    match r with Reduced m' => reduces m x m' | NotReducible => precedes m x | Inconsistent _ => True end.
Proof.
  intros Hx Hm Hle. unfold reduceSegment. case_match eqn:Hc.
  - destruct (reduce_ordered_spec m x) as (r & Hr & Hspec); [done..|]. exists r. split; [done|].
    destruct r; [apply Hspec|done..].
  - destruct (reduce_ordered_spec x m) as (r & Hr & Hspec); [done|done|lia|]. exists r. split; [done|].
    destruct r; [apply Hspec; lia| |done]. destruct Hx. unfold precedes in *. lia.
Qed.

(** The segment of the set begins earlier. *)
Lemma reduceSegment_previous p m :
  seg_ok p → seg_ok m → FirstSeqNo p < FirstSeqNo m →
  ∃ r, reduceSegment p m = Ret r ∧
    match r with Reduced m' => reduces p m m' | NotReducible => precedes p m | Inconsistent _ => True end.
Proof.
  intros Hp Hm Hlt. unfold reduceSegment. case_match eqn:Hc; [lia|].
  destruct (reduce_ordered_spec p m) as (r & Hr & Hspec); [done|done|lia|]. exists r. split; [done|].
  destruct r; [apply Hspec|done..].
Qed.

Lemma reduces_ok a b m : seg_ok a → seg_ok b → reduces a b m → seg_ok m.
Proof. intros [] [] []. split; lia. Qed.

Lemma reduces_covers a b m n au : seg_ok a → seg_ok b → reduces a b m →
  seg_covers m n au ↔ seg_covers a n au ∨ seg_covers b n au.
Proof. unfold seg_covers. intros [] [] []. lia. Qed.

Lemma reduces_precedes a b m p : reduces a b m → precedes p a → precedes p b → precedes p m.
Proof. unfold precedes. intros [] ? ?. lia. Qed.

Lemma reduces_precedes_left a b m p :
  FirstSeqNo a < FirstSeqNo b → reduces a b m → precedes p a → precedes p m.
Proof. unfold precedes. intros ? [] ?. lia. Qed.

Lemma segs_covered_nil n a : covered [] n a ↔ False.
Proof. unfold covered. split; [|done]. intros (x & Hx & _). by apply not_elem_of_nil in Hx. Qed.

Lemma segs_covered_cons x s n a : covered (x :: s) n a ↔ seg_covers x n a ∨ covered s n a.
Proof. unfold covered. setoid_rewrite elem_of_cons. naive_solver. Qed.

Lemma segs_covered_app s1 s2 n a : covered (s1 ++ s2) n a ↔ covered s1 n a ∨ covered s2 n a.
Proof. unfold covered. setoid_rewrite elem_of_app. naive_solver. Qed.

(** A property of segments that reductions keep. *)
Definition closed (Q : Segment → Prop) : Prop :=
  ∀ a b m, Q a → Q b → reduceSegment a b = Ret (Reduced m) → Q m.

(** The segment [m'] that takes the place of [k] segments of [l] and of [m]. *)
Record absorbed (pre l : list Segment) (m : Segment) (k : nat) (m' : Segment) : Prop := {
  abs_ok : seg_ok m';
  abs_before : Forall (λ p, precedes p m') pre;
  abs_after : Forall (precedes m') (drop k l);
  abs_covers n a : seg_covers m' n a ↔ seg_covers m n a ∨ covered (take k l) n a;
  abs_closed Q : closed Q → Q m → Forall Q l → Q m';
}.

Lemma reduce_following_spec pre l : ∀ m e,
  Forall seg_ok l → StronglySorted precedes l → seg_ok m → Forall (λ x, FirstSeqNo m ≤ FirstSeqNo x) l →
  Forall (λ p, precedes p m) pre → (∀ p x, p ∈ pre → x ∈ l → precedes p x) →
  ∃ r, reduce_following l m e = Ret r ∧
    match r with inr _ => True | inl (m', e') => ∃ k, e' = (e + k)%nat ∧ (k ≤ length l)%nat ∧ absorbed pre l m k m' end.
Proof.
  induction l as [|x l IH]; intros m e Hok Hs Hm Hle Hpre Hpl; cbn [reduce_following].
  { eexists; split; [reflexivity|]. exists 0%nat. split_and!; [lia|done|]. split; [done|done|constructor| |done].
    intros n a. rewrite segs_covered_nil. tauto. }
  apply Forall_cons in Hok as [Hx Hok]. apply Forall_cons in Hle as [Hlex Hle].
  apply StronglySorted_inv in Hs as [Hs Hxl]. rewrite Forall_forall in Hxl.
  destruct (reduceSegment_following x m) as (r & Hr & Hspec); [done..|]. rewrite Hr. cbn [outcome_bind].
  destruct r as [m1| |]; [| |by eexists].
  - destruct (IH m1 (S e)) as (r & Hf & Hres); [done|done|by apply (reduces_ok m x)| | | |].
    { eapply Forall_impl; [exact Hle|]. intros y Hy. cbn beta in *. destruct Hspec. lia. }
    { rewrite Forall_forall in Hpre |- *. intros p Hp. eapply reduces_precedes; [done|auto|]. apply Hpl; [done|by left]. }
    { intros p y Hp Hy. apply Hpl; [done|by right]. }
    exists r. split; [done|]. destruct r as [[m' e']|]; [|done]. destruct Hres as (k & -> & Hk & Habs).
    exists (S k). split_and!; [lia|simpl; lia|]. destruct Habs as [H1 H2 H3 H4 H5]. split; [done..| |].
    + intros n a. cbn [take]. rewrite H4, segs_covered_cons, (reduces_covers m x m1) by done. tauto.
    + intros Q HQ Qm [Qx Ql]%Forall_cons. apply H5; [done| |done]. by apply (HQ x m).
  - eexists; split; [reflexivity|]. exists 0%nat. split_and!; [lia|simpl; lia|]. split; [done|done| | |done].
    + constructor; [done|]. apply Forall_forall. intros y Hy. by eapply precedes_trans; [| |apply Hxl].
    + intros n a. rewrite take_0, segs_covered_nil. tauto.
Qed.

Lemma SegmentSet_splice_eq s b e m :
  (b ≤ e)%nat → (e ≤ length s)%nat → SegmentSet_splice s b e m = take b s ++ m :: drop e s.
Proof.
  intros Hbe He. unfold SegmentSet_splice. destruct (Nat.eqb_spec b (length s)) as [-> |Hb].
  { by rewrite firstn_all, drop_ge by lia. }
  rewrite insert_app_l by (rewrite length_take; lia).
  rewrite take_insert_drop by (rewrite length_take; lia).
  rewrite take_take, Nat.min_l by lia. rewrite (drop_ge (take _ _)) by (rewrite length_take; lia).
  by rewrite <- app_assoc.
Qed.

Lemma set_lookup s i j : SegmentSet_inv s → (i < j)%nat → (j < length s)%nat → precedes (s !!! i) (s !!! j).
Proof.
  intros [_ Hs] Hij Hj. eapply (ssorted_lookup _ _ i j); [exact Hs|done|apply lookup_total_some; lia..].
Qed.

Lemma set_seg_ok s i : SegmentSet_inv s → (i < length s)%nat → seg_ok (s !!! i).
Proof. intros [Hok _] Hi. rewrite Forall_forall in Hok. by apply Hok, lookup_total_in. Qed.

Lemma set_split s b : SegmentSet_inv s →
  Forall seg_ok (take b s) ∧ StronglySorted precedes (take b s) ∧
  Forall seg_ok (drop b s) ∧ StronglySorted precedes (drop b s) ∧
  (∀ p x, p ∈ take b s → x ∈ drop b s → precedes p x).
Proof.
  intros [Hok Hs]. rewrite <- (take_drop b s) in Hok, Hs.
  apply Forall_app in Hok as [? ?]. by apply ssorted_app in Hs as (? & ? & ?).
Qed.

(** The search and the first reduction: the reduced segment begins no later than what
    follows, and every segment before it precedes it. *)
Lemma reduce_previous_spec s seg :
  SegmentSet_inv s → seg_ok seg →
  let begin_ := sort_Search (length s) (λ i, FirstSeqNo seg <=? FirstSeqNo (s !!! i)) in
  ∃ r, reduce_previous s begin_ seg = Ret r ∧
    match r with
    | inr _ => True
    | inl (m, b) =>
        (b ≤ length s)%nat ∧ seg_ok m ∧ Forall (λ p, precedes p m) (take b s) ∧
        Forall (λ x, FirstSeqNo m ≤ FirstSeqNo x) (drop b s) ∧
        (∀ n a, seg_covers m n a ∨ covered (drop b s) n a ↔ seg_covers seg n a ∨ covered (drop b s) n a) ∧
        (∀ Q, closed Q → Q seg → Forall Q s → Q m)
    end.
Proof.
  intros Hinv Hseg begin_.
  destruct (sort_Search_least (length s) (λ i, FirstSeqNo seg <=? FirstSeqNo (s !!! i))) as (Hb & Hlt & Hge).
  { intros i j Hij Hj Hi. destruct (decide (i = j)) as [-> |]; [done|].
    pose proof (set_lookup s i j Hinv ltac:(lia) Hj) as Hp. destruct (set_seg_ok s i Hinv); [lia|]. unfold precedes in Hp. lia. }
  fold begin_ in Hb, Hlt, Hge.
  assert (Forall (λ x, FirstSeqNo seg ≤ FirstSeqNo x) (drop begin_ s)) as Hafter.
  { apply Forall_forall. intros x [i Hi]%list_elem_of_lookup. rewrite lookup_drop in Hi.
    pose proof (lookup_lt_Some _ _ _ Hi). specialize (Hge (begin_ + i)%nat ltac:(lia) ltac:(lia)).
    rewrite (list_lookup_total_correct _ _ _ Hi) in Hge. lia. }
  unfold reduce_previous. destruct (Nat.ltb_spec 0 begin_) as [Hpos|Hz].
  2:{ exists (inl (seg, begin_)). split; [done|]. replace begin_ with 0%nat in * by lia. by split_and!; [..|auto]. }
  specialize (Hlt (begin_ - 1)%nat ltac:(lia)).
  assert (take begin_ s = take (begin_ - 1) s ++ [s !!! (begin_ - 1)%nat]) as Htake.
  { rewrite <- take_S_r by (apply lookup_total_some; lia). f_equal. lia. }
  assert (drop (begin_ - 1) s = s !!! (begin_ - 1)%nat :: drop begin_ s) as Hdrop.
  { rewrite (drop_S _ (s !!! (begin_ - 1)%nat) (begin_ - 1)) by (apply lookup_total_some; lia). do 2 f_equal. lia. }
  pose proof (set_seg_ok s (begin_ - 1) Hinv ltac:(lia)) as Hpok. set (p := s !!! (begin_ - 1)%nat) in *.
  destruct (set_split s begin_ Hinv) as (_ & Hsort & _). rewrite Htake in Hsort.
  apply ssorted_app in Hsort as (_ & _ & Hpre).
  destruct (reduceSegment_previous p seg) as (r & Hr & Hspec); [done|done|lia|]. rewrite Hr. cbn [outcome_bind].
  destruct r as [m| |]; (eexists; split; [reflexivity|]); [| |done].
  - split_and!; [lia|by apply (reduces_ok p seg)| | | |].
    + apply Forall_forall. intros q Hq. eapply reduces_precedes_left; [|done|apply Hpre; [done|by left]]. lia.
    + rewrite Hdrop. constructor; [destruct Hspec; lia|]. eapply Forall_impl; [exact Hafter|]. intros x Hx. cbn beta in *. destruct Hspec. lia.
    + intros n a. rewrite Hdrop, segs_covered_cons, (reduces_covers p seg m) by done. tauto.
    + intros Q HQ Qseg Qs. apply (HQ p seg); [|done|done]. rewrite Forall_forall in Qs. apply Qs, lookup_total_in. lia.
  - split_and!; [done|done| |done|done|auto]. rewrite Htake. apply Forall_app. split; [|by apply Forall_singleton].
    apply Forall_forall. intros q Hq. eapply precedes_trans; [exact Hpok| |done]. apply Hpre; [done|by left].
Qed.

Lemma SegmentSet_Add_spec s seg :
  SegmentSet_inv s → LastSeqNo seg < MaxInt64 →
  ∃ s' err, SegmentSet_Add s seg = Ret (s', err) ∧
    match err with
    | Some _ => s' = s
    | None => SegmentSet_inv s' ∧ (∀ n a, covered s' n a ↔ covered s n a ∨ seg_covers seg n a) ∧
        (∀ Q, closed Q → Q seg → Forall Q s → Forall Q s')
    end.
Proof.
  intros Hinv Hmax. unfold SegmentSet_Add. destruct (Segment_Validate seg) as [e|] eqn:Hv; [by eexists _, _|].
  pose proof (Validate_ok _ Hv Hmax) as Hok.
  destruct (reduce_previous_spec s seg Hinv Hok) as (r & -> & Hprev). cbn [outcome_bind].
  destruct r as [[m b]|e]; [|by eexists _, _]. destruct Hprev as (Hb & Hm & Hpre & Hle & Hcov & HQ).
  destruct (set_split s b Hinv) as (Hok1 & Hs1 & Hok2 & Hs2 & H12).
  destruct (reduce_following_spec (take b s) (drop b s) m b Hok2 Hs2 Hm Hle Hpre H12) as (r & -> & Hf). cbn [outcome_bind].
  destruct r as [[m' e']|e]; [|by eexists _, _]. destruct Hf as (k & -> & Hk & [H1 H2 H3 H4 H5]).
  rewrite length_drop in Hk. eexists _, _. split; [reflexivity|].
  rewrite SegmentSet_splice_eq by lia. rewrite <- drop_drop.
  assert (∀ x, x ∈ drop k (drop b s) → x ∈ drop b s) as Hsub.
  { intros x Hx. rewrite <- (take_drop k (drop b s)). apply elem_of_app. by right. }
  rewrite <- (take_drop k (drop b s)) in Hs2, Hok2. apply ssorted_app in Hs2 as (_ & Hs2 & _). apply Forall_app in Hok2 as [_ Hok2].
  rewrite Forall_forall in H2. split_and!.
  - split; [apply Forall_app; split; [done|by constructor]|].
    apply ssorted_app. split_and!; [done|by constructor|].
    intros x y Hx [-> |Hy]%elem_of_cons; [auto|]. apply H12; auto.
  - intros n a. rewrite segs_covered_app, segs_covered_cons, H4. rewrite <- (take_drop b s) at 4. rewrite segs_covered_app.
    specialize (Hcov n a). rewrite <- (take_drop k (drop b s)) in Hcov at 1 2. rewrite !segs_covered_app in Hcov.
    rewrite <- (take_drop k (drop b s)) at 3. rewrite segs_covered_app. clear -Hcov. tauto.
  - intros Q Hcl Qseg Qs. pose proof (HQ Q Hcl Qseg Qs) as Qm.
    rewrite <- (take_drop b s) in Qs. apply Forall_app in Qs as [Q1 Q2].
    apply Forall_app. split; [done|]. constructor; [by apply H5|].
    rewrite <- (take_drop k (drop b s)) in Q2. by apply Forall_app in Q2 as [_ ?].
Qed.

(** Segments that are always consistent with each other. *)
Definition consistent (Q : Segment → Prop) : Prop :=
  ∀ a b, Q a → Q b → ∃ r, reduceSegment a b = Ret r ∧
    match r with Inconsistent _ => False | NotReducible => True | Reduced m => Q m end.

Lemma SegmentSet_Add_consistent Q s seg :
  consistent Q → Forall Q s → Q seg → Segment_Validate seg = None →
  ∃ s', SegmentSet_Add s seg = Ret (s', None).
Proof.
  intros HQ Hs Hseg Hv. unfold SegmentSet_Add. rewrite Hv.
  assert (∀ l m e, Forall Q l → Q m → ∃ x, reduce_following l m e = Ret (inl x)) as Hf.
  { induction l as [|y l IH]; intros m e Hl Hm; [by eexists|]. apply Forall_cons in Hl as [Hy Hl]. cbn [reduce_following].
    destruct (HQ y m Hy Hm) as (r & -> & Hr). cbn [outcome_bind]. destruct r; [by apply IH|by eexists|done]. }
  assert (∀ b, (b ≤ length s)%nat → ∃ m b', reduce_previous s b seg = Ret (inl (m, b')) ∧ Q m) as Hp.
  { intros b Hb. unfold reduce_previous. destruct (Nat.ltb_spec 0 b); [|by eexists _, _].
    destruct (HQ (s !!! (b - 1)%nat) seg) as (r & -> & Hr); [|done|].
    { rewrite Forall_forall in Hs. apply Hs, lookup_total_in. lia. }
    cbn [outcome_bind]. destruct r; [by eexists _, _|by eexists _, _|done]. }
  destruct (sort_Search_spec (length s) (λ i, FirstSeqNo seg <=? FirstSeqNo (s !!! i))) as (Hb & _).
  destruct (Hp _ Hb) as (m & b & -> & Hm). cbn [outcome_bind].
  destruct (Hf (drop b s) m b) as [[m' e] ->]; [by apply Forall_drop|done|]. by eexists.
Qed.

(** [Add] either fails and leaves the set as it was, or makes a set that satisfies the
    documented invariant and covers, for each author, exactly the sequence numbers that the set
    and the segment covered. It never panics. *)
Theorem SegmentSet_Add_correct s seg :
  SegmentSet_inv s → LastSeqNo seg < MaxInt64 →
  ∃ s' err, SegmentSet_Add s seg = Ret (s', err) ∧
    (err ≠ None → s' = s) ∧
    (err = None → SegmentSet_inv s' ∧ Segment_Validate seg = None ∧
       ∀ n a, covered s' n a ↔ covered s n a ∨ seg_covers seg n a).
Proof.
  intros Hinv Hmax. destruct (SegmentSet_Add_spec s seg Hinv Hmax) as (s' & err & Hadd & Hspec).
  exists s', err. split; [done|]. destruct err as [e|]; [by split|]. split; [done|]. intros _.
  destruct Hspec as (? & ? & _). split_and!; [done| |done].
  unfold SegmentSet_Add in Hadd. by destruct (Segment_Validate seg).
Qed.

(** ** Intersections *)

Definition overlaps (firstOffset lastOffset : Z) (s : Segment) : Prop :=
  FirstOffset s < lastOffset ∧ (LastOffset s = 0 ∨ firstOffset < LastOffset s).

#[global] Instance overlaps_dec f l s : Decision (overlaps f l s).
Proof. unfold overlaps. apply _. Defined.

Lemma filter_slice {A} (P : A → Prop) `{∀ x, Decision (P x)} (l : list A) i j :
  (i ≤ j)%nat → (∀ k x, l !! k = Some x → P x ↔ (i ≤ k < j)%nat) → filter P l = slice l i j.
Proof.
  intros Hij HP. unfold slice.
  rewrite <- (take_drop i l) at 1. rewrite <- (take_drop (j - i) (drop i l)) at 1. rewrite !filter_app, drop_drop.
  rewrite (list_filter_none P (take i l)), (list_filter_none P (drop _ l)), (list_filter_all P (take (j - i) _)), app_nil_r; [done|..].
  - intros x [k Hk]%list_elem_of_lookup. apply lookup_take_Some in Hk as [Hk ?]. rewrite lookup_drop in Hk.
    apply (HP _ _ Hk). lia.
  - intros x [k Hk]%list_elem_of_lookup. rewrite lookup_drop in Hk. rewrite (HP _ _ Hk). lia.
  - intros x [k Hk]%list_elem_of_lookup. apply lookup_take_Some in Hk as [Hk ?]. rewrite (HP _ _ Hk). lia.
Qed.

Lemma walk_back_spec s f j :
  let i := walk_back s f j in
  (i ≤ j)%nat ∧ (∀ k, (i ≤ k < j)%nat → LastOffset (s !!! k) = 0 ∨ f < LastOffset (s !!! k)) ∧
  ((0 < i)%nat → LastOffset (s !!! (i - 1)%nat) ≠ 0 ∧ LastOffset (s !!! (i - 1)%nat) ≤ f).
Proof.
  induction j as [|j IH]; [cbn; split_and!; intros; lia|]. cbn [walk_back]. case_match eqn:Hc.
  - destruct IH as (H1 & H2 & H3). split_and!; [lia| |done]. intros k Hk.
    destruct (decide (k = j)) as [-> |]; [lia|]. apply H2. lia.
  - split_and!; [lia|intros; lia|]. intros _. replace (S j - 1)%nat with j by lia. lia.
Qed.

(** [Intersect] returns exactly the segments that overlap the offset range, where a
    LastOffset that is not known is infinite. *)
Theorem Intersect_correct s firstOffset lastOffset :
  SegmentSet_inv s → firstOffset ≤ lastOffset →
  Intersect s firstOffset lastOffset = Ret (filter (overlaps firstOffset lastOffset) s).
Proof.
  intros Hinv Hle. unfold Intersect. destruct (Z.ltb_spec lastOffset firstOffset); [lia|]. f_equal.
  destruct (sort_Search_least (length s) (λ i, lastOffset <=? FirstOffset (s !!! i))) as (Hj & Hlt & Hge).
  { intros i j Hij Hj Hi. destruct (decide (i = j)) as [-> |]; [done|].
    pose proof (set_lookup s i j Hinv ltac:(lia) Hj) as Hp. unfold precedes in Hp. lia. }
  set (j := sort_Search _ _) in *. destruct (walk_back_spec s firstOffset j) as (Hij & Hin & Hout).
  set (i := walk_back _ _ _) in *. symmetry. apply filter_slice; [done|]. intros k x Hk.
  pose proof (lookup_lt_Some _ _ _ Hk) as Hkl. pose proof (list_lookup_total_correct _ _ _ Hk) as Hkx. unfold overlaps. split.
  - intros [Hf Hl]. assert (k < j)%nat.
    { destruct (decide (k < j)%nat); [done|]. specialize (Hge k ltac:(lia) Hkl). rewrite Hkx in Hge. lia. }
    split; [|done]. destruct (decide (i ≤ k)%nat); [done|]. destruct (Hout ltac:(lia)) as [Hne Hlf].
    destruct (decide (k = i - 1)%nat) as [-> |]; [rewrite Hkx in *; lia|].
    pose proof (set_lookup s k (i - 1) Hinv ltac:(lia) ltac:(lia)) as Hp. rewrite Hkx in Hp. unfold precedes in Hp. lia.
  - intros Hk2. specialize (Hlt k ltac:(lia)). specialize (Hin k ltac:(lia)). rewrite Hkx in *. lia.
Qed.

(** ** Concrete inputs *)

Definition demo_segments : SegmentSet :=
  [mkSegment 100 1 0 7 10 50; mkSegment 100 20 80 8 30 0; mkSegment 200 31 90 9 40 0].

Lemma demo_segments_inv : SegmentSet_inv demo_segments.
Proof.
  split; [repeat (apply Forall_cons; split; [split; simpl; unfold MaxInt64; lia|]); constructor|].
  repeat constructor; simpl; lia.
Qed.

(** A segment that bridges two of the set. *)
Lemma SegmentSet_Add_correct_witness :
  ∃ s', SegmentSet_Add demo_segments (mkSegment 100 11 60 5 19 0) = Ret (s', None) ∧ SegmentSet_inv s' ∧ covered s' 15 100.
Proof.
  destruct (SegmentSet_Add_correct demo_segments (mkSegment 100 11 60 5 19 0)) as (s' & err & Hadd & _ & Hok).
  - exact demo_segments_inv.
  - reflexivity.
  - assert (err = None) as -> by (vm_compute in Hadd; congruence). destruct (Hok eq_refl) as (Hinv & _ & Hcov).
    exists s'. split_and!; [exact Hadd|exact Hinv|]. apply Hcov. right. unfold seg_covers. simpl. lia.
Defined.

Lemma Intersect_correct_witness : Intersect demo_segments 60 85 = Ret [mkSegment 100 20 80 8 30 0].
Proof. rewrite (Intersect_correct demo_segments 60 85 demo_segments_inv); [reflexivity|lia]. Defined.

(** The reduction of valid segments need not be valid. It prefers the greater FirstOffset
    of two segments that begin alike, and checks it against no LastOffset: adding a segment
    whose LastOffset is not known makes one that ends before it begins. *)
Theorem SegmentSet_Add_makes_invalid :
  Forall (λ s, Segment_Validate s = None) [mkSegment 100 1 10 7 5 20; mkSegment 100 1 30 7 1 0] ∧
  SegmentSet_Add [mkSegment 100 1 10 7 5 20] (mkSegment 100 1 30 7 1 0) = Ret ([mkSegment 100 1 30 7 5 20], None) ∧
  Segment_Validate (mkSegment 100 1 30 7 5 20) = Some "segment.LastOffset <= segment.FirstOffset".
Proof. split_and!; [by repeat constructor|reflexivity..]. Qed.
