(* ===== verification/Fsm.v ===== *)
(** * The recovery-log state machine (src/v2/pkg/recoverylog/fsm.go, recorded_op_extensions.go,
      applyOperation of playback.go)

    An [FSM] applies recorded file operations in order, by sequence number and checksum, and
    tracks the live file nodes with the segments of log that hold their operations.
    [BuildHints] reduces a state to hints; [NewFSM] prepares a state that follows them. The main
    theorem: playing the log back against its hints rebuilds the state. *)
From S2P Require Import Prelude Encoding Framing Segment.
Local Open Scope Z_scope.

Inductive FsmError :=
| ErrChecksumMismatch
| ErrExpectedHintedFnode
| ErrFnodeNotTracked
| ErrLinkExists
| ErrNoSuchLink
| ErrNotHintedAuthor
| ErrPropertyExists
| ErrWrongSeqNo.

#[global] Instance FsmError_eq_dec : EqDecision FsmError.
Proof. solve_decision. Defined.

(** The union fields are pointers: a path, or a file node with a path. Write has an offset and
    a length, Property a path and its content. *)
Record RecordedOp := mkOp {
  op_SeqNo : Z;
  op_Checksum : Z;
  op_Author : Z;
  op_FirstOffset : Z;
  op_LastOffset : Z;
  op_Create : option string;
  op_Link : option (Z * string);
  op_Unlink : option (Z * string);
  op_Write : option (Z * Z * Z);
  op_Property : option (string * string);
}.

Record fnodeState := mkNode {
  fn_Links : gset string;
  fn_Segments : list Segment;
}.

Record FSM := mkFSM {
  Log : string;
  NextSeqNo : Z;
  NextChecksum : Z;
  Properties : gmap string string;
  LiveNodes : gmap Z fnodeState;
  Links : gmap string Z;
  hintedSegments : list Segment;
  hintedFnodes : list Z;
}.

Record FSMHints := mkHints {
  hi_Log : string;
  hi_LiveNodes : list (Z * list Segment);
  hi_Properties : list (string * string);
}.

(** ** Hints *)

Fixpoint add_segments (set : SegmentSet) (l : list Segment) : outcome (SegmentSet + string) :=
  match l with
  | [] => Ret (inl set)
  | s :: l =>
      let! (set, err) := SegmentSet_Add set s in
      match err with Some e => Ret (inr e) | None => add_segments set l end
  end.

(** The loop over the hinted nodes, with the previous node of the loop. *)
Fixpoint live_loop (nodes : list (Z * list Segment)) (prev : option Z) (set : SegmentSet)
    : outcome (list Z * SegmentSet + string) :=
  match nodes with
  | [] => Ret (inl ([], set))
  | (fnode, segs) :: nodes =>
      if negb match segs with s :: _ => FirstSeqNo s =? fnode | [] => false end then
        Ret (inr "expected Fnode to match Segment FirstSeqNo: %v")
      else if match prev with Some p => fnode <=? p | None => false end then
        Ret (inr "expected monotonic Fnode ordering: %v vs %v")
      else
        let! r := add_segments set segs in
        match r with
        | inr e => Ret (inr e)
        | inl set =>
            let! r := live_loop nodes (Some fnode) set in
            match r with
            | inr e => Ret (inr e)
            | inl (fnodes, set) => Ret (inl (fnode :: fnodes, set))
            end
        end
  end.

Definition LiveLogSegments (m : FSMHints) : outcome (list Z * SegmentSet + string) :=
  live_loop (hi_LiveNodes m) None [].

Definition NewFSM (hints : FSMHints) : outcome (FSM + string) :=
  if String.eqb (hi_Log hints) "" then Ret (inr "hinted log not provided")
  else
    let! r := LiveLogSegments hints in
    match r with
    | inr e => Ret (inr e)
    | inl (fnodes, set) =>
        let '(nextSeqNo, nextChecksum) :=
          match set with s :: _ => (FirstSeqNo s, FirstChecksum s) | [] => (1, 0) end in
        Ret (inl (mkFSM (hi_Log hints) nextSeqNo nextChecksum
                    (foldl (λ m '(path, content), <[path := content]> m) ∅ (hi_Properties hints))
                    ∅ ∅ set fnodes))
    end.

Fixpoint validate_segments (l : list Segment) : option string :=
  match l with
  | [] => None
  | s :: l => match Segment_Validate s with Some e => Some e | None => validate_segments l end
  end.

Fixpoint FSMHints_Validate_nodes (nodes : list (Z * list Segment)) : option string :=
  match nodes with
  | [] => None
  | (_, segs) :: nodes => match validate_segments segs with Some e => Some e | None => FSMHints_Validate_nodes nodes end
  end.

Definition FSMHints_Validate (h : FSMHints) : option string := FSMHints_Validate_nodes (hi_LiveNodes h).

Definition fnode_le (a b : Z * list Segment) : Prop := fst a ≤ fst b.
#[global] Instance fnode_le_dec : RelDecision fnode_le.
Proof. unfold fnode_le, RelDecision. apply _. Defined.

(** Go visits the entries of a map in any order: [nodes] and [props] are those of the call. *)
Definition BuildHints (nodes : list (Z * fnodeState)) (props : list (string * string)) (m : FSM) : FSMHints :=
  mkHints (Log m)
    (merge_sort fnode_le ((λ x, (fst x, fn_Segments (snd x))) <$> nodes))
    props.

Definition hasRemainingHints (m : FSM) : bool :=
  negb (length (hintedSegments m) =? 0)%nat || negb (length (hintedFnodes m) =? 0)%nat.

(** ** Transitions *)

Definition extendSegments (s : list Segment) (op : RecordedOp) : list Segment :=
  let fresh := mkSegment (op_Author op) (op_SeqNo op) (op_FirstOffset op) (op_Checksum op) (op_SeqNo op) (op_LastOffset op) in
  match last s with
  | Some x =>
      if Author x =? op_Author op then
        <[(length s - 1)%nat := mkSegment (Author x) (FirstSeqNo x) (FirstOffset x) (FirstChecksum x)
                                  (op_SeqNo op) (op_LastOffset op)]> s
      else s ++ [fresh]
  | None => s ++ [fresh]
  end.

Definition with_nodes (m : FSM) (nodes : gmap Z fnodeState) (links : gmap string Z) : FSM :=
  mkFSM (Log m) (NextSeqNo m) (NextChecksum m) (Properties m) nodes links (hintedSegments m) (hintedFnodes m).
Definition with_hintedFnodes (m : FSM) (l : list Z) : FSM :=
  mkFSM (Log m) (NextSeqNo m) (NextChecksum m) (Properties m) (LiveNodes m) (Links m) (hintedSegments m) l.
Definition with_properties (m : FSM) (p : gmap string string) : FSM :=
  mkFSM (Log m) (NextSeqNo m) (NextChecksum m) p (LiveNodes m) (Links m) (hintedSegments m) (hintedFnodes m).

Definition is_some {A} (o : option A) : bool := match o with Some _ => true | None => false end.

Definition applyCreate (m : FSM) (op : RecordedOp) (path : string) : FSM * option FsmError :=
  if is_some (Links m !! path) then (m, Some ErrLinkExists)
  else if is_some (Properties m !! path) then (m, Some ErrPropertyExists)
  else
    let fnode := op_SeqNo op in
    let create m :=
      (with_nodes m (<[fnode := mkNode {[ path ]} (extendSegments [] op)]> (LiveNodes m)) (<[path := fnode]> (Links m)), None) in
    match hintedFnodes m with
    | [] => create m
    | f :: l => if negb (f =? fnode) then (m, Some ErrFnodeNotTracked) else create (with_hintedFnodes m l)
    end.

Definition applyLink (m : FSM) (op : RecordedOp) (fnode : Z) (path : string) : FSM * option FsmError :=
  if is_some (Links m !! path) then (m, Some ErrLinkExists)
  else if is_some (Properties m !! path) then (m, Some ErrPropertyExists)
  else
    match LiveNodes m !! fnode with
    | None => (m, Some ErrFnodeNotTracked)
    | Some node =>
        let node := mkNode ({[ path ]} ∪ fn_Links node) (extendSegments (fn_Segments node) op) in
        (with_nodes m (<[fnode := node]> (LiveNodes m)) (<[path := fnode]> (Links m)), None)
    end.

Definition applyUnlink (m : FSM) (op : RecordedOp) (fnode : Z) (path : string) : FSM * option FsmError :=
  match LiveNodes m !! fnode with
  | None => (m, Some ErrFnodeNotTracked)
  | Some node =>
      if negb (bool_decide (path ∈ fn_Links node)) then (m, Some ErrNoSuchLink)
      else
        let links := fn_Links node ∖ {[ path ]} in
        let node := mkNode links (extendSegments (fn_Segments node) op) in
        let nodes := <[fnode := node]> (LiveNodes m) in
        (with_nodes m (if (size links =? 0)%nat then delete fnode nodes else nodes) (delete path (Links m)), None)
  end.

Definition applyWrite (m : FSM) (op : RecordedOp) (fnode : Z) : FSM * option FsmError :=
  match LiveNodes m !! fnode with
  | None => (m, Some ErrFnodeNotTracked)
  | Some node =>
      (with_nodes m (<[fnode := mkNode (fn_Links node) (extendSegments (fn_Segments node) op)]> (LiveNodes m)) (Links m), None)
  end.

Definition applyProperty (m : FSM) (path content : string) : FSM * option FsmError :=
  if is_some (Links m !! path) then (m, Some ErrLinkExists)
  else if match Properties m !! path with Some c => negb (String.eqb c content) | None => false end
  then (m, Some ErrPropertyExists)
  else (with_properties m (<[path := content]> (Properties m)), None).

(** The dispatch on the union field that is set. *)
Definition apply_body (m : FSM) (op : RecordedOp) : FSM * option FsmError :=
  match op_Create op with
  | Some path => applyCreate m op path
  | None =>
      if match hintedFnodes m with f :: _ => f =? op_SeqNo op | [] => false end then (m, Some ErrExpectedHintedFnode)
      else
        match op_Link op with
        | Some (fnode, path) => applyLink m op fnode path
        | None =>
            match op_Unlink op with
            | Some (fnode, path) => applyUnlink m op fnode path
            | None =>
                match op_Write op with
                | Some (fnode, _, _) => applyWrite m op fnode
                | None =>
                    match op_Property op with
                    | Some (path, content) => applyProperty m path content
                    | None => (m, None)
                    end
                end
            end
        end
  end.

(** The step to the next state, past the current segment if that is exhausted. *)
Definition fsm_step (m : FSM) (frame : bytes) : FSM :=
  let nextSeqNo := int64 (NextSeqNo m + 1) in
  let nextChecksum := Crc32.Update (NextChecksum m) frame in
  let step n c segs := mkFSM (Log m) n c (Properties m) (LiveNodes m) (Links m) segs (hintedFnodes m) in
  match hintedSegments m with
  | s :: rest =>
      if LastSeqNo s <? nextSeqNo then
        match rest with
        | s' :: _ => step (FirstSeqNo s') (FirstChecksum s') rest
        | [] => step nextSeqNo nextChecksum []
        end
      else step nextSeqNo nextChecksum (s :: rest)
  | [] => step nextSeqNo nextChecksum []
  end.

Definition FSM_Apply (m : FSM) (op : RecordedOp) (frame : bytes) : FSM * option FsmError :=
  if match hintedSegments m with s :: _ => negb (Author s =? op_Author op) | [] => false end
  then (m, Some ErrNotHintedAuthor)
  else if negb (op_SeqNo op =? NextSeqNo m) then (m, Some ErrWrongSeqNo)
  else if negb (op_Checksum op =? NextChecksum m) then (m, Some ErrChecksumMismatch)
  else
    let '(m, err) := apply_body m op in
    match err with
    | None => (fsm_step m frame, None)
    | Some ErrFnodeNotTracked => (fsm_step m frame, Some ErrFnodeNotTracked)
    | Some e => (m, Some e)
    end.

(** Whether the operation was applied. *)
Definition applyOperation (fsm : FSM) (op : RecordedOp) (frame : bytes) : FSM * bool :=
  let '(fsm, err) := FSM_Apply fsm op (drop FixedFrameHeaderLength frame) in (fsm, negb (is_some err)).

(** ** Transitions as a relation *)

Definition not_create (m : FSM) (op : RecordedOp) : Prop :=
  op_Create op = None ∧ head (hintedFnodes m) ≠ Some (op_SeqNo op).

(** An operation that [apply_body] applies. *)
Inductive body_ok (m : FSM) (op : RecordedOp) : FSM → Prop :=
| ok_create path l :
    op_Create op = Some path → Links m !! path = None → Properties m !! path = None →
    hintedFnodes m = [] ∧ l = [] ∨ hintedFnodes m = op_SeqNo op :: l →
    body_ok m op (with_nodes (with_hintedFnodes m l)
      (<[op_SeqNo op := mkNode {[ path ]} (extendSegments [] op)]> (LiveNodes m)) (<[path := op_SeqNo op]> (Links m)))
| ok_link fnode path node :
    not_create m op → op_Link op = Some (fnode, path) → Links m !! path = None → Properties m !! path = None →
    LiveNodes m !! fnode = Some node →
    body_ok m op (with_nodes m
      (<[fnode := mkNode ({[ path ]} ∪ fn_Links node) (extendSegments (fn_Segments node) op)]> (LiveNodes m))
      (<[path := fnode]> (Links m)))
| ok_unlink fnode path node :
    not_create m op → op_Link op = None → op_Unlink op = Some (fnode, path) →
    LiveNodes m !! fnode = Some node → path ∈ fn_Links node →
    body_ok m op (with_nodes m
      (if decide (fn_Links node ∖ {[ path ]} = ∅) then delete fnode (LiveNodes m)
       else <[fnode := mkNode (fn_Links node ∖ {[ path ]}) (extendSegments (fn_Segments node) op)]> (LiveNodes m))
      (delete path (Links m)))
| ok_write fnode off len node :
    not_create m op → op_Link op = None → op_Unlink op = None → op_Write op = Some (fnode, off, len) →
    LiveNodes m !! fnode = Some node →
    body_ok m op (with_nodes m
      (<[fnode := mkNode (fn_Links node) (extendSegments (fn_Segments node) op)]> (LiveNodes m)) (Links m))
| ok_property path content :
    not_create m op → op_Link op = None → op_Unlink op = None → op_Write op = None →
    op_Property op = Some (path, content) → Links m !! path = None →
    Properties m !! path = None ∨ Properties m !! path = Some content →
    body_ok m op (with_properties m (<[path := content]> (Properties m)))
| ok_noop :
    not_create m op → op_Link op = None → op_Unlink op = None → op_Write op = None → op_Property op = None →
    body_ok m op m.

Lemma is_some_None {A} (o : option A) : is_some o = false → o = None.
Proof. by destruct o. Qed.

Lemma with_nodes_hinted m nodes links : with_nodes (with_hintedFnodes m (hintedFnodes m)) nodes links = with_nodes m nodes links.
Proof. by destruct m. Qed.

(** Note the functions do not modify the state if they return an error. *)
Lemma apply_body_cases m op m' err :
  apply_body m op = (m', err) → match err with None => body_ok m op m' | Some _ => m' = m end.
Proof.
  unfold apply_body. destruct (op_Create op) as [path|] eqn:Hc.
  { unfold applyCreate. destruct (is_some (Links m !! path)) eqn:Hl; [by intros [= <- <-]|].
    destruct (is_some (Properties m !! path)) eqn:Hp; [by intros [= <- <-]|]. apply is_some_None in Hl, Hp.
    destruct (hintedFnodes m) as [|f l] eqn:Hh.
    - intros [= <- <-]. rewrite <- with_nodes_hinted, Hh. eapply ok_create; eauto.
    - destruct (Z.eqb_spec f (op_SeqNo op)) as [-> |]; cbn [negb]; intros [= <- <-]; [|done].
      eapply ok_create; eauto. }
  destruct (match hintedFnodes m with f :: _ => f =? op_SeqNo op | [] => false end) eqn:Hh; [by intros [= <- <-]|].
  assert (not_create m op) as Hnc.
  { split; [done|]. destruct (hintedFnodes m); [done|]. intros [= ->]. lia. }
  destruct (op_Link op) as [[fnode path]|] eqn:Hlk.
  { unfold applyLink. destruct (is_some (Links m !! path)) eqn:Hl; [by intros [= <- <-]|].
    destruct (is_some (Properties m !! path)) eqn:Hp; [by intros [= <- <-]|]. apply is_some_None in Hl, Hp.
    destruct (LiveNodes m !! fnode) eqn:Hn; intros [= <- <-]; [|done]. eapply ok_link; eauto. }
  destruct (op_Unlink op) as [[fnode path]|] eqn:Hu.
  { unfold applyUnlink. destruct (LiveNodes m !! fnode) as [node|] eqn:Hn; [|by intros [= <- <-]].
    destruct (bool_decide (path ∈ fn_Links node)) eqn:Hb; cbn [negb]; intros [= <- <-]; [|done].
    apply bool_decide_eq_true in Hb. pose proof (ok_unlink m op fnode path node Hnc Hlk Hu Hn Hb) as Hok.
    destruct (Nat.eqb_spec (size (fn_Links node ∖ {[path]})) 0) as [Hz|Hz]; case_decide as Hd; try done.
    - by rewrite delete_insert_eq.
    - destruct Hd. by apply size_empty_inv, leibniz_equiv in Hz.
    - rewrite Hd in Hz. by rewrite size_empty in Hz. }
  destruct (op_Write op) as [[[fnode off] len]|] eqn:Hw.
  { unfold applyWrite. destruct (LiveNodes m !! fnode) eqn:Hn; intros [= <- <-]; [|done]. eapply ok_write; eauto. }
  destruct (op_Property op) as [[path content]|] eqn:Hp; [|intros [= <- <-]; by apply ok_noop].
  unfold applyProperty. destruct (is_some (Links m !! path)) eqn:Hl; [by intros [= <- <-]|]. apply is_some_None in Hl.
  destruct (Properties m !! path) as [c|] eqn:Hpp.
  - destruct (String.eqb_spec c content) as [-> |]; cbn [negb]; intros [= <- <-]; [|done]. eapply ok_property; eauto.
  - intros [= <- <-]. eapply ok_property; eauto.
Qed.

Lemma not_create_head m op : not_create m op →
  match hintedFnodes m with f :: _ => f =? op_SeqNo op | [] => false end = false.
Proof. intros [_ Hh]. destruct (hintedFnodes m); [done|]. apply Z.eqb_neq. intros ->. by apply Hh. Qed.

Lemma body_ok_apply m op m' : body_ok m op m' → apply_body m op = (m', None).
Proof.
  destruct 1 as [path l Hc Hl Hp Hh|f p nd Hnc H1 Hl Hp Hn|f p nd Hnc H1 H2 Hn Hin|f o n nd Hnc H1 H2 H3 Hn|p c Hnc H1 H2 H3 H4 Hl Hp|Hnc H1 H2 H3 H4];
    unfold apply_body; [|rewrite (proj1 Hnc), not_create_head, ?H1, ?H2, ?H3, ?H4 by done..].
  - rewrite Hc. unfold applyCreate. rewrite Hl, Hp. cbn [is_some].
    destruct Hh as [[Hh ->]|Hh]; rewrite Hh.
    + by rewrite <- (with_nodes_hinted m), Hh.
    + by rewrite Z.eqb_refl.
  - unfold applyLink. by rewrite Hl, Hp, Hn.
  - unfold applyUnlink. rewrite Hn, (bool_decide_eq_true_2 _ Hin). cbn [negb].
    destruct (Nat.eqb_spec (size (fn_Links nd ∖ {[p]})) 0) as [Hz|Hz]; case_decide as Hd; try done.
    + by rewrite delete_insert_eq.
    + destruct Hd. by apply size_empty_inv, leibniz_equiv in Hz.
    + rewrite Hd in Hz. by rewrite size_empty in Hz.
  - unfold applyWrite. by rewrite Hn.
  - unfold applyProperty. rewrite Hl. cbn [is_some]. destruct Hp as [-> | ->]; [done|]. by rewrite String.eqb_refl.
  - done.
Qed.

(** ** The invariant *)

(** [Links] indexes the paths of the live nodes, each of which has one. *)
Definition links_ok (nodes : gmap Z fnodeState) (links : gmap string Z) : Prop :=
  (∀ p f, links !! p = Some f ↔ ∃ nd, nodes !! f = Some nd ∧ p ∈ fn_Links nd) ∧
  (∀ f nd, nodes !! f = Some nd → fn_Links nd ≠ ∅).

Record FSM_inv (m : FSM) : Prop := {
  inv_pos : 0 < NextSeqNo m;
  inv_links : links_ok (LiveNodes m) (Links m);
  inv_live f nd : LiveNodes m !! f = Some nd → f < NextSeqNo m;
  inv_props p c : Properties m !! p = Some c → Links m !! p = None;
  inv_hints : SegmentSet_inv (hintedSegments m);
  inv_seq s l : hintedSegments m = s :: l → FirstSeqNo s ≤ NextSeqNo m ≤ LastSeqNo s;
}.

Lemma links_ok_create nodes links fnode path segs :
  links_ok nodes links → nodes !! fnode = None → links !! path = None →
  links_ok (<[fnode := mkNode {[ path ]} segs]> nodes) (<[path := fnode]> links).
Proof.
  intros [Hl Hne] Hn Hp. split.
  - intros p f. rewrite lookup_insert_Some, Hl. split.
    + intros [[<- <-]|(Hpp & nd & Hnd & Hin)].
      * exists (mkNode {[path]} segs). rewrite lookup_insert_eq. simpl. set_solver.
      * exists nd. rewrite lookup_insert_ne by congruence. done.
    + intros (nd & Hnd & Hin). apply lookup_insert_Some in Hnd as [[<- <-]|[Hf Hnd]]; simpl in *; [left; set_solver|].
      right. split; [|by exists nd]. intros <-. assert (links !! path = Some f) by (apply Hl; by exists nd). congruence.
  - intros f nd [[<- <-]|[_ Hnd]]%lookup_insert_Some; [simpl; set_solver|eauto].
Qed.

Lemma links_ok_link nodes links fnode path nd segs :
  links_ok nodes links → nodes !! fnode = Some nd → links !! path = None →
  links_ok (<[fnode := mkNode ({[ path ]} ∪ fn_Links nd) segs]> nodes) (<[path := fnode]> links).
Proof.
  intros [Hl Hne] Hn Hp. split.
  - intros p f. rewrite lookup_insert_Some, Hl. split.
    + intros [[<- <-]|(Hpp & nd' & Hnd & Hin)].
      * eexists. rewrite lookup_insert_eq. split; [done|]. simpl. set_solver.
      * destruct (decide (fnode = f)) as [<-|].
        -- eexists. rewrite lookup_insert_eq. split; [done|]. simplify_eq/=. set_solver.
        -- exists nd'. by rewrite lookup_insert_ne.
    + intros (nd' & Hnd & Hin). destruct (decide (path = p)) as [<-|Hpp].
      * apply lookup_insert_Some in Hnd as [[<- _]|[Hf Hnd]]; [by left|].
        assert (links !! path = Some f) by (apply Hl; by exists nd'). congruence.
      * right. split; [done|]. apply lookup_insert_Some in Hnd as [[<- <-]|[Hf Hnd]]; [|by exists nd'].
        exists nd. split; [done|]. simpl in Hin. set_solver.
  - intros f nd' [[<- <-]|[_ Hnd]]%lookup_insert_Some; [simpl; set_solver|eauto].
Qed.

Lemma links_ok_unlink nodes links fnode path nd segs :
  links_ok nodes links → nodes !! fnode = Some nd → path ∈ fn_Links nd →
  links_ok (if decide (fn_Links nd ∖ {[ path ]} = ∅) then delete fnode nodes
            else <[fnode := mkNode (fn_Links nd ∖ {[ path ]}) segs]> nodes) (delete path links).
Proof.
  intros [Hl Hne] Hn Hp. assert (links !! path = Some fnode) as Hpath by (apply Hl; by exists nd). split.
  - intros p f. rewrite lookup_delete_Some, Hl. split.
    + intros (Hpp & nd' & Hnd & Hin). destruct (decide (fnode = f)) as [<-|].
      * simplify_eq/=. rewrite decide_False by set_solver. eexists. rewrite lookup_insert_eq. split; [done|]. simpl. set_solver.
      * exists nd'. split; [|done]. case_decide; [by rewrite lookup_delete_ne|by rewrite lookup_insert_ne].
    + intros (nd' & Hnd & Hin). destruct (decide (fnode = f)) as [<-|Hf].
      * case_decide; [by rewrite lookup_delete_eq in Hnd|]. rewrite lookup_insert_eq in Hnd. simplify_eq/=.
        split; [set_solver|]. exists nd. split; [done|]. set_solver.
      * assert (nodes !! f = Some nd') as Hnf.
        { case_decide; [by rewrite lookup_delete_ne in Hnd|by rewrite lookup_insert_ne in Hnd]. }
        split; [|by exists nd']. intros <-. assert (links !! path = Some f) by (apply Hl; by exists nd'). congruence.
  - intros f nd'. case_decide.
    + intros [_ Hnd]%lookup_delete_Some. eauto.
    + intros [[<- <-]|[_ Hnd]]%lookup_insert_Some; [done|eauto].
Qed.

Lemma links_ok_write nodes links fnode nd segs :
  links_ok nodes links → nodes !! fnode = Some nd →
  links_ok (<[fnode := mkNode (fn_Links nd) segs]> nodes) links.
Proof.
  intros [Hl Hne] Hn. split.
  - intros p f. rewrite Hl. split; intros (nd' & Hnd & Hin).
    + destruct (decide (fnode = f)) as [<-|]; [|exists nd'; by rewrite lookup_insert_ne].
      eexists. rewrite lookup_insert_eq. simplify_eq/=. done.
    + apply lookup_insert_Some in Hnd as [[<- <-]|[Hf Hnd]]; [|by exists nd']. by exists nd.
  - intros f nd' [[<- <-]|[_ Hnd]]%lookup_insert_Some; simpl; eauto.
Qed.

(** The body keeps the index, and adds at most the node of the operation. *)
Lemma body_ok_links m op m' :
  body_ok m op m' → links_ok (LiveNodes m) (Links m) → LiveNodes m !! op_SeqNo op = None →
  links_ok (LiveNodes m') (Links m') ∧ (∀ f, is_Some (LiveNodes m' !! f) → f = op_SeqNo op ∨ is_Some (LiveNodes m !! f)).
Proof.
  destruct 1 as [path l Hc Hl Hp Hh|f p nd Hnc H1 Hl Hp Hn|f p nd Hnc H1 H2 Hn Hin|f o n nd Hnc H1 H2 H3 Hn|p c Hnc H1 H2 H3 H4 Hl Hp|];
    intros Hok Hfresh; cbn [with_nodes with_properties with_hintedFnodes LiveNodes Links].
  - split; [by apply links_ok_create|]. intros f [nd [[<- _]|[_ ?]]%lookup_insert_Some]; [by left|right; by eexists].
  - split; [by apply links_ok_link|]. intros f' [nd' [[<- _]|[_ ?]]%lookup_insert_Some]; right; by eexists.
  - split; [by apply links_ok_unlink|]. intros f' [nd' Hnd]. right. case_decide.
    + apply lookup_delete_Some in Hnd as [_ ?]. by eexists.
    + apply lookup_insert_Some in Hnd as [[<- _]|[_ ?]]; by eexists.
  - split; [by apply links_ok_write|]. intros f' [nd' [[<- _]|[_ ?]]%lookup_insert_Some]; right; by eexists.
  - auto.
  - auto.
Qed.

Lemma body_ok_frame m op m' : body_ok m op m' →
  Log m' = Log m ∧ NextSeqNo m' = NextSeqNo m ∧ NextChecksum m' = NextChecksum m ∧ hintedSegments m' = hintedSegments m.
Proof. by destruct 1. Qed.

(** Either nothing happened, or the state stepped. *)
Lemma FSM_Apply_cases m op fr m' err :
  FSM_Apply m op fr = (m', err) →
  err ≠ None ∧ err ≠ Some ErrFnodeNotTracked ∧ m' = m ∨
  op_SeqNo op = NextSeqNo m ∧ op_Checksum op = NextChecksum m ∧
    (∀ s l, hintedSegments m = s :: l → Author s = op_Author op) ∧
    ∃ m1, (err = None ∧ body_ok m op m1 ∨ err = Some ErrFnodeNotTracked ∧ m1 = m) ∧ m' = fsm_step m1 fr.
Proof.
  unfold FSM_Apply. destruct (match hintedSegments m with s :: _ => negb (Author s =? op_Author op) | [] => false end) eqn:Ha;
    [intros [= <- <-]; by left|].
  destruct (Z.eqb_spec (op_SeqNo op) (NextSeqNo m)); cbn [negb]; [|intros [= <- <-]; by left].
  destruct (Z.eqb_spec (op_Checksum op) (NextChecksum m)); cbn [negb]; [|intros [= <- <-]; by left].
  assert (∀ s l, hintedSegments m = s :: l → Author s = op_Author op).
  { intros s l Hs. rewrite Hs in Ha. apply negb_false_iff, Z.eqb_eq in Ha. done. }
  destruct (apply_body m op) as [m1 e1] eqn:Hb. apply apply_body_cases in Hb. destruct e1 as [er|].
  - subst m1. destruct (decide (er = ErrFnodeNotTracked)) as [-> |Hne].
    + intros [= <- <-]. right. split_and!; [done..|]. exists m. auto.
    + destruct er; try done; intros [= <- <-]; by left.
  - intros [= <- <-]. right. split_and!; [done..|]. exists m1. auto.
Qed.

Lemma fsm_step_inv m fr :
  0 < NextSeqNo m < MaxInt64 → links_ok (LiveNodes m) (Links m) →
  (∀ f nd, LiveNodes m !! f = Some nd → f ≤ NextSeqNo m) →
  (∀ p c, Properties m !! p = Some c → Links m !! p = None) → SegmentSet_inv (hintedSegments m) →
  (∀ s l, hintedSegments m = s :: l → FirstSeqNo s ≤ NextSeqNo m ≤ LastSeqNo s) →
  FSM_inv (fsm_step m fr) ∧ NextSeqNo m < NextSeqNo (fsm_step m fr).
Proof.
  intros Hn Hl Hlive Hp Hh Hs. pose proof Hh as Hh'. unfold fsm_step.
  rewrite int64_id by (unfold is_int64, MinInt64, MaxInt64 in *; lia).
  destruct (hintedSegments m) as [|s rest] eqn:Hseg.
  { split; [|simpl; lia]. split; simpl; [lia|done| |done|done|done]. intros f nd Hf. apply Hlive in Hf. lia. }
  specialize (Hs s rest eq_refl). destruct Hh as [Hok Hsort].
  apply Forall_cons in Hok as [_ Hok]. apply StronglySorted_inv in Hsort as [Hsort Hfirst].
  assert (∀ f nd, LiveNodes m !! f = Some nd → f < NextSeqNo m + 1) as Hlt by (intros f nd Hf; apply Hlive in Hf; lia).
  destruct (Z.ltb_spec (LastSeqNo s) (NextSeqNo m + 1)).
  - destruct rest as [|s' rest]; [split; [split|]; simpl; [lia|done|done|done|done|done|lia]|].
    apply Forall_cons in Hfirst as [[Hlast _] _]. pose proof (Forall_inv Hok) as [_ Hok' _].
    split; [|simpl; lia]. split; simpl; [lia|done| |done|done|].
    + intros f nd Hf. specialize (Hlt f nd Hf). lia.
    + intros ? ? [= <- <-]. lia.
  - split; [split|]; simpl; [lia|done|done|done|done| |lia]. intros ? ? [= <- <-]. lia.
Qed.

Lemma body_ok_props m op m' :
  body_ok m op m' → (∀ p c, Properties m !! p = Some c → Links m !! p = None) →
  ∀ p c, Properties m' !! p = Some c → Links m' !! p = None.
Proof.
  destruct 1 as [path l Hc Hl Hp Hh|f p nd Hnc H1 Hl Hp Hn|f p nd Hnc H1 H2 Hn Hin|f o n nd Hnc H1 H2 H3 Hn|p c Hnc H1 H2 H3 H4 Hl Hp|];
    intros Hprops p' c'; cbn [with_nodes with_properties with_hintedFnodes Properties Links]; intros Hpc.
  - rewrite lookup_insert_ne by congruence. eauto.
  - rewrite lookup_insert_ne by congruence. eauto.
  - rewrite lookup_delete_None. eauto.
  - eauto.
  - apply lookup_insert_Some in Hpc as [[<- _]|[_ Hpc]]; eauto.
  - eauto.
Qed.

(** [Apply] keeps the state consistent: [Links] is the index of the paths of the live
    nodes, every live node has a link and was created by an operation applied before, property
    paths are not links, and the next operation lies in the first hinted segment. A
    transition occurs, to a greater sequence number, if and only if the error is nil or
    ErrFnodeNotTracked; any other error leaves the state unchanged. *)
Theorem FSM_Apply_correct m op frame :
  FSM_inv m → NextSeqNo m < MaxInt64 →
  let '(m', err) := FSM_Apply m op frame in
  FSM_inv m' ∧
  (err = None ∨ err = Some ErrFnodeNotTracked → NextSeqNo m < NextSeqNo m') ∧
  (err ≠ None → err ≠ Some ErrFnodeNotTracked → m' = m) ∧
  (err = Some ErrFnodeNotTracked → LiveNodes m' = LiveNodes m ∧ Links m' = Links m ∧ Properties m' = Properties m).
Proof.
  intros Hinv Hmax. destruct (FSM_Apply m op frame) as [m' err] eqn:Happ.
  apply FSM_Apply_cases in Happ as [(He1 & He2 & ->)|(Hseq & _ & _ & m1 & Hm1 & ->)].
  { split_and!; [done|naive_solver|done|done]. }
  pose proof Hinv as [Hpos Hlinks Hlive Hprops Hhints Hhseq].
  assert (∀ f nd, LiveNodes m !! f = Some nd → f ≤ NextSeqNo m) as Hle by (intros f nd Hf; apply Hlive in Hf; lia).
  assert (FSM_inv (fsm_step m1 frame) ∧ NextSeqNo m < NextSeqNo (fsm_step m1 frame)) as [Hi Hlt].
  { destruct Hm1 as [[-> Hb]|[-> ->]]; [|by apply fsm_step_inv].
    assert (LiveNodes m !! op_SeqNo op = None) as Hfresh.
    { destruct (LiveNodes m !! op_SeqNo op) eqn:E; [|done]. apply Hlive in E. lia. }
    destruct (body_ok_frame _ _ _ Hb) as (_ & <- & _ & Hsg). destruct (body_ok_links _ _ _ Hb Hlinks Hfresh) as [Hl' Hdom].
    pose proof (body_ok_props _ _ _ Hb Hprops) as Hp'. destruct (body_ok_frame _ _ _ Hb) as (_ & Hns & _ & _).
    apply fsm_step_inv; rewrite ?Hsg, ?Hns; [done|done| |done|done|done].
    intros f nd Hf. destruct (Hdom f) as [-> |[nd' Hnd']]; [by eexists|lia|eauto]. }
  split_and!; [done|done| |].
  - destruct Hm1 as [[-> _]|[-> _]]; done.
  - intros ->. destruct Hm1 as [[? _]|[_ ->]]; [done|]. unfold fsm_step. by repeat case_match.
Qed.

(** ** Histories *)

Abbreviation entry := (RecordedOp * bytes)%type.

(** The state of a log that applies without error. *)
Fixpoint history (m : FSM) (l : list entry) : option FSM :=
  match l with
  | [] => Some m
  | (op, fr) :: l =>
      match FSM_Apply m op fr with
      | (m, None) => history m l
      | (_, Some _) => None
      end
  end.

(** The state after a log whose operations are applied where they can be. *)
Definition play (m : FSM) (l : list entry) : FSM := foldl (λ m x, fst (FSM_Apply m (fst x) (snd x))) m l.

Definition FSM_empty (log : string) : FSM := mkFSM log 1 0 ∅ ∅ ∅ [] [].

Lemma NewFSM_empty log props : log ≠ "" → props = [] → NewFSM (mkHints log [] props) = Ret (inl (FSM_empty log)).
Proof. intros Hlog ->. unfold NewFSM. simpl. destruct (String.eqb_spec log ""); done. Qed.

Lemma history_snoc m l op fr :
  history m (l ++ [(op, fr)]) =
    match history m l with
    | Some m' => match FSM_Apply m' op fr with (m'', None) => Some m'' | _ => None end
    | None => None
    end.
Proof.
  revert m. induction l as [|[op' fr'] l IH]; intros m; simpl.
  - by destruct (FSM_Apply m op fr) as [? [|]].
  - destruct (FSM_Apply m op' fr') as [? [|]]; [done|]. apply IH.
Qed.

Lemma history_app m l1 l2 :
  history m (l1 ++ l2) = match history m l1 with Some m1 => history m1 l2 | None => None end.
Proof.
  revert m. induction l1 as [|[op fr] l1 IH]; intros m; [done|]. cbn [app history].
  destruct (FSM_Apply m op fr) as [m1 [e|]]; [done|]. apply IH.
Qed.

(** The state after an operation of the log. *)
Lemma history_step m l m' k x :
  history m l = Some m' → l !! k = Some x →
  ∃ m1 m2, history m (take k l) = Some m1 ∧ FSM_Apply m1 (fst x) (snd x) = (m2, None) ∧
    history m (take (S k) l) = Some m2 ∧ history m2 (drop (S k) l) = Some m'.
Proof.
  intros Hh Hx. rewrite <- (take_drop_middle l k x Hx), history_app in Hh. destruct (history m (take k l)) as [m1|] eqn:E1; [|done].
  destruct x as [op fr]. cbn [history] in Hh. destruct (FSM_Apply m1 op fr) as [m2 [e|]] eqn:E2; [done|]. exists m1, m2. cbn [fst snd].
  rewrite (take_S_r _ _ _ Hx), history_snoc, E1, E2. done.
Qed.

(** The checksum that follows a log. *)
Definition chain (l : list entry) : Z := foldl (λ c x, Crc32.Update c (snd x)) 0 l.

Definition touches (op : RecordedOp) (f : Z) : Prop :=
  match op_Create op, op_Link op, op_Unlink op, op_Write op with
  | Some _, _, _, _ => f = op_SeqNo op
  | None, Some (g, _), _, _ | None, None, Some (g, _), _ | None, None, None, Some (g, _, _) => f = g
  | None, None, None, None => False
  end.

(** [s] is a segment of the log: its bounds are those of its first and last operation. *)
Record seg_of (l : list entry) (s : Segment) : Prop := {
  sg_range : 0 < FirstSeqNo s ≤ LastSeqNo s ∧ LastSeqNo s ≤ Z.of_nat (length l);
  sg_first x : l !! Z.to_nat (FirstSeqNo s - 1) = Some x →
    Author s = op_Author (fst x) ∧ FirstOffset s = op_FirstOffset (fst x) ∧ FirstChecksum s = op_Checksum (fst x);
  sg_last x : l !! Z.to_nat (LastSeqNo s - 1) = Some x →
    Author s = op_Author (fst x) ∧ LastOffset s = op_LastOffset (fst x);
}.

(** [n] lies in a segment. *)
Definition within (segs : list Segment) (n : Z) : Prop := ∃ s, s ∈ segs ∧ FirstSeqNo s ≤ n ≤ LastSeqNo s.

Record node_of (l : list entry) (f : Z) (nd : fnodeState) : Prop := {
  nd_range : 0 < f ≤ Z.of_nat (length l);
  nd_first : FirstSeqNo <$> head (fn_Segments nd) = Some f;
  nd_created x : l !! Z.to_nat (f - 1) = Some x → op_Create (fst x) ≠ None;
  nd_segments : Forall (seg_of l) (fn_Segments nd);
  nd_touched i x : l !! i = Some x → touches (fst x) f → within (fn_Segments nd) (Z.of_nat i + 1);
}.

(** What a history that leads to [m] consists of. *)
Record history_of (log : string) (l : list entry) (m : FSM) : Prop := {
  hs_next : Log m = log ∧ NextSeqNo m = Z.of_nat (length l) + 1 ∧ NextChecksum m = chain l;
  hs_hints : hintedSegments m = [] ∧ hintedFnodes m = [];
  hs_ops i x : l !! i = Some x → op_SeqNo (fst x) = Z.of_nat i + 1 ∧ op_Checksum (fst x) = chain (take i l);
  hs_touch i x f : l !! i = Some x → touches (fst x) f → f ≤ Z.of_nat i + 1;
  hs_links : links_ok (LiveNodes m) (Links m);
  hs_nodes f nd : LiveNodes m !! f = Some nd → node_of l f nd;
}.

Lemma lookup_snoc {A} (l : list A) x i y :
  (l ++ [x]) !! i = Some y ↔ l !! i = Some y ∨ i = length l ∧ y = x.
Proof.
  rewrite lookup_app_Some, list_lookup_singleton_Some. split; [intros [?|(? & ? & ?)]; [by left|right; split; [lia|done]]|].
  intros [?|[-> ->]]; [by left|right; split; [done|]; split; [lia|done]].
Qed.

Lemma seg_of_snoc l x s : seg_of l s → seg_of (l ++ [x]) s.
Proof.
  intros [Hr Hf Hl]. split.
  - rewrite length_app. simpl. lia.
  - intros y [Hy|[Hi _]]%lookup_snoc; [by apply Hf|lia].
  - intros y [Hy|[Hi _]]%lookup_snoc; [by apply Hl|lia].
Qed.

Lemma extendSegments_spec l segs op fr :
  Forall (seg_of l) segs → op_SeqNo op = Z.of_nat (length l) + 1 →
  Forall (seg_of (l ++ [(op, fr)])) (extendSegments segs op) ∧
  (∀ n, within segs n → within (extendSegments segs op) n) ∧
  within (extendSegments segs op) (Z.of_nat (length l) + 1) ∧
  FirstSeqNo <$> head (extendSegments segs op) = Some (default (op_SeqNo op) (FirstSeqNo <$> head segs)).
Proof.
  intros Hsegs Hseq. set (fresh := mkSegment (op_Author op) (op_SeqNo op) (op_FirstOffset op) (op_Checksum op) (op_SeqNo op) (op_LastOffset op)).
  assert (∀ y, (l ++ [(op, fr)]) !! Z.to_nat (op_SeqNo op - 1) = Some y → y = (op, fr)) as Hlast.
  { intros y [Hy|[_ ->]]%lookup_snoc; [|done]. apply lookup_lt_Some in Hy. lia. }
  assert (seg_of (l ++ [(op, fr)]) fresh) as Hfresh.
  { split; simpl; [rewrite length_app; simpl; lia|intros y Hy..]; by rewrite (Hlast y Hy). }
  assert (Forall (seg_of (l ++ [(op, fr)])) segs) as Hsegs'.
  { eapply Forall_impl; [exact Hsegs|]. intros. by apply seg_of_snoc. }
  assert (within [fresh] (Z.of_nat (length l) + 1)) as Hw.
  { exists fresh. split; [by left|]. simpl. lia. }
  assert (Forall (seg_of (l ++ [(op, fr)])) (segs ++ [fresh]) ∧ (∀ n, within segs n → within (segs ++ [fresh]) n) ∧
    within (segs ++ [fresh]) (Z.of_nat (length l) + 1) ∧
    FirstSeqNo <$> head (segs ++ [fresh]) = Some (default (op_SeqNo op) (FirstSeqNo <$> head segs))) as Happ.
  { split_and!; [apply Forall_app; split; [done|by apply Forall_singleton]| | |by destruct segs].
    - intros n (s & Hs & Hn). exists s. split; [apply elem_of_app; by left|done].
    - destruct Hw as (s & Hs & Hn). exists s. split; [apply elem_of_app; by right|done]. }
  unfold extendSegments. fold fresh. destruct (last segs) as [x|] eqn:Hx; [|done].
  destruct (Z.eqb_spec (Author x) (op_Author op)) as [Hau|]; [|done]. clear Happ Hw.
  apply last_Some in Hx as [init ->]. rewrite length_app. cbn [length].
  rewrite insert_app_r_alt by lia. replace (length init + 1 - 1 - length init)%nat with 0%nat by lia. cbn [insert list_insert].
  set (x' := mkSegment (Author x) _ _ _ _ _). apply Forall_app in Hsegs' as [Hinit _].
  apply Forall_app in Hsegs as [_ Hxs]. apply Forall_singleton in Hxs as [Hr Hf _].
  split_and!.
  - apply Forall_app. split; [done|]. apply Forall_singleton. split; simpl.
    + rewrite length_app. simpl. lia.
    + intros y [Hy|[Hi _]]%lookup_snoc; [by apply Hf|lia].
    + intros y Hy. by rewrite (Hlast y Hy).
  - intros n (s & [Hs|Hs]%elem_of_app & Hn); [exists s; split; [apply elem_of_app; by left|done]|].
    apply list_elem_of_singleton in Hs as ->. exists x'. split; [apply elem_of_app; right; by left|]. simpl. lia.
  - exists x'. split; [apply elem_of_app; right; by left|]. simpl. lia.
  - by destruct init.
Qed.

Lemma node_of_snoc l f nd op fr : node_of l f nd → ¬ touches op f → node_of (l ++ [(op, fr)]) f nd.
Proof.
  intros [H1 H2 H3 H4 H5] Hnt. split; [rewrite length_app; simpl; lia|done| | |].
  - intros x [Hx|[Hi _]]%lookup_snoc; [by apply H3|lia].
  - eapply Forall_impl; [exact H4|]. intros. by apply seg_of_snoc.
  - intros i x [Hx|[-> ->]]%lookup_snoc Ht; [by eapply H5|done].
Qed.

Lemma node_of_extend l f nd op fr links :
  node_of l f nd → op_SeqNo op = Z.of_nat (length l) + 1 →
  node_of (l ++ [(op, fr)]) f (mkNode links (extendSegments (fn_Segments nd) op)).
Proof.
  intros [H1 H2 H3 H4 H5] Hseq. destruct (extendSegments_spec l (fn_Segments nd) op fr H4 Hseq) as (He1 & He2 & He3 & He4).
  split; simpl; [rewrite length_app; simpl; lia|by rewrite He4, H2| |done|].
  - intros x [Hx|[Hi _]]%lookup_snoc; [by apply H3|lia].
  - intros i x [Hx|[-> ->]]%lookup_snoc Ht; [by eapply He2, H5|done].
Qed.

Lemma node_of_create l op fr links :
  op_SeqNo op = Z.of_nat (length l) + 1 → op_Create op ≠ None →
  (∀ i x f, l !! i = Some x → touches (fst x) f → f ≤ Z.of_nat i + 1) →
  node_of (l ++ [(op, fr)]) (op_SeqNo op) (mkNode links (extendSegments [] op)).
Proof.
  intros Hseq Hc Htouch. destruct (extendSegments_spec l [] op fr) as (He1 & He2 & He3 & He4); [constructor|done|].
  split; simpl; [rewrite length_app; simpl; lia|done| |done|].
  - intros x [Hx|[Hi ->]]%lookup_snoc; [apply lookup_lt_Some in Hx; lia|done].
  - intros i x [Hx|[-> ->]]%lookup_snoc Ht; [|done]. pose proof (lookup_lt_Some _ _ _ Hx). specialize (Htouch _ _ _ Hx Ht). lia.
Qed.

(** The nodes that a body changes, and how. *)
Lemma body_ok_nodes m op m' :
  body_ok m op m' →
  (∀ f nd, LiveNodes m' !! f = Some nd →
     LiveNodes m !! f = Some nd ∧ ¬ touches op f ∨
     (∃ nd0 links, LiveNodes m !! f = Some nd0 ∧ nd = mkNode links (extendSegments (fn_Segments nd0) op)) ∨
     op_Create op ≠ None ∧ f = op_SeqNo op ∧ ∃ links, nd = mkNode links (extendSegments [] op)) ∧
  (∀ f, touches op f → is_Some (LiveNodes m !! f) ∨ f = op_SeqNo op).
Proof.
  unfold touches.
  destruct 1 as [path l Hc Hl Hp Hh|f p nd [Hnc _] H1 Hl Hp Hn|f p nd [Hnc _] H1 H2 Hn Hin|f o n nd [Hnc _] H1 H2 H3 Hn|p c [Hnc _] H1 H2 H3 H4 Hl Hp|[Hnc _] H1 H2 H3 H4];
    rewrite ?Hc, ?Hnc, ?H1, ?H2, ?H3; cbn [with_nodes with_properties with_hintedFnodes LiveNodes].
  - split; [|by right]. intros f nd [[<- <-]|[Hf ?]]%lookup_insert_Some; [right; right; eauto|left; auto].
  - split; [|intros f' ->; left; by eexists]. intros f' nd' [[<- <-]|[Hf ?]]%lookup_insert_Some; [right; left; eauto|left; auto].
  - split; [|intros f' ->; left; by eexists]. intros f' nd'. case_decide.
    + intros [? ?]%lookup_delete_Some. left; auto.
    + intros [[<- <-]|[Hf ?]]%lookup_insert_Some; [right; left; eauto|left; auto].
  - split; [|intros f' ->; left; by eexists]. intros f' nd' [[<- <-]|[Hf ?]]%lookup_insert_Some; [right; left; eauto|left; auto].
  - split; [|done]. intros f' nd' ?. left; auto.
  - split; [|done]. intros f' nd' ?. left; auto.
Qed.

Lemma fsm_step_frame m fr :
  hintedSegments m = [] →
  fsm_step m fr = mkFSM (Log m) (int64 (NextSeqNo m + 1)) (Crc32.Update (NextChecksum m) fr) (Properties m) (LiveNodes m) (Links m) [] (hintedFnodes m).
Proof. intros Hs. unfold fsm_step. by rewrite Hs. Qed.

Lemma body_ok_no_hints m op m' : body_ok m op m' → hintedFnodes m = [] → hintedFnodes m' = [].
Proof. destruct 1 as [path l Hc Hl Hp [[_ ->]|Hh]| | | | |]; cbn; congruence. Qed.

Lemma history_of_snoc log l m op fr m' :
  history_of log l m → Z.of_nat (length l) + 1 < MaxInt64 → FSM_Apply m op fr = (m', None) →
  history_of log (l ++ [(op, fr)]) m' ∧ ∃ m1, body_ok m op m1 ∧ m' = fsm_step m1 fr.
Proof.
  intros [(Hlog & Hn & Hsum) [Hhs Hhf] Hops Htouch Hlinks Hnodes] Hmax Happ.
  apply FSM_Apply_cases in Happ as [(? & _)|(Hseq & Hck & _ & m1 & [[_ Hb]|[? _]] & ->)]; [done| |done].
  split; [|by exists m1]. rewrite Hn in Hseq. rewrite Hsum in Hck.
  assert (LiveNodes m !! op_SeqNo op = None) as Hfresh.
  { destruct (LiveNodes m !! op_SeqNo op) as [nd|] eqn:E; [|done]. destruct (nd_range _ _ _ (Hnodes _ _ E)). lia. }
  destruct (body_ok_frame _ _ _ Hb) as (H1 & H2 & H3 & H4). destruct (body_ok_links _ _ _ Hb Hlinks Hfresh) as [Hl' _].
  destruct (body_ok_nodes _ _ _ Hb) as [Hn' Ht']. pose proof (body_ok_no_hints _ _ _ Hb Hhf) as Hhf'.
  rewrite fsm_step_frame by congruence. rewrite H1, H2, H3, Hn. split; cbn.
  - split_and!; [done| |].
    + rewrite int64_id by (unfold is_int64, MinInt64, MaxInt64 in *; lia). rewrite length_app. simpl. lia.
    + unfold chain. rewrite foldl_app. simpl. unfold chain in Hsum. by rewrite Hsum.
  - done.
  - intros i x [Hx|[-> ->]]%lookup_snoc.
    + rewrite take_app_le by (apply lookup_lt_Some in Hx; lia). by apply Hops.
    + by rewrite take_app_length.
  - intros i x f [Hx|[-> ->]]%lookup_snoc Ht; [by eapply Htouch|].
    destruct (Ht' f Ht) as [[nd Hnd]| ->]; [|simpl; lia]. destruct (nd_range _ _ _ (Hnodes _ _ Hnd)). lia.
  - done.
  - intros f nd Hf. destruct (Hn' f nd Hf) as [[Hnd Hnt]|[(nd0 & links & Hnd & ->)|(Hc & -> & links & ->)]].
    + apply node_of_snoc; eauto.
    + apply node_of_extend; eauto.
    + by apply node_of_create.
Qed.

Lemma history_of_history log l m :
  history (FSM_empty log) l = Some m → Z.of_nat (length l) < MaxInt64 → history_of log l m.
Proof.
  revert m. induction l as [|[op fr] l IH] using rev_ind; intros m.
  - intros [= <-] _. split; try done; cbn.
    + split; [|done]. intros p f. split; [done|]. intros (nd & Hnd & _). done.
  - rewrite history_snoc, length_app. simpl. intros H Hmax.
    destruct (history (FSM_empty log) l) as [m0|] eqn:E; [|done].
    destruct (FSM_Apply m0 op fr) as [m1 [e|]] eqn:Ha; [done|]. injection H as <-.
    eapply history_of_snoc; [apply IH; [done|lia]|lia|done].
Qed.

(** ** Logs *)

(** A log as its recorders write it: each author writes a range of it, and offsets grow. The
    LastOffset of what was played back is known, that of what a recorder wrote itself is not. *)
Record log_ok (l : list entry) : Prop := {
  lg_author i x : l !! i = Some x → op_Author (fst x) ≠ 0;
  lg_range i j k x y z : (i ≤ j ≤ k)%nat → l !! i = Some x → l !! j = Some y → l !! k = Some z →
    op_Author (fst x) = op_Author (fst z) → op_Author (fst y) = op_Author (fst x);
  lg_FirstOffset i j x y : (i ≤ j)%nat → l !! i = Some x → l !! j = Some y →
    0 ≤ op_FirstOffset (fst x) ≤ op_FirstOffset (fst y);
  lg_LastOffset i j x y : (i ≤ j)%nat → l !! i = Some x → l !! j = Some y →
    op_LastOffset (fst y) = 0 ∨ op_LastOffset (fst x) ≠ 0 ∧ op_LastOffset (fst x) ≤ op_LastOffset (fst y);
  lg_known i j x y : l !! i = Some x → l !! j = Some y → op_Author (fst x) = op_Author (fst y) →
    op_LastOffset (fst x) = 0 → op_LastOffset (fst y) = 0;
  lg_ends i x : l !! i = Some x → op_LastOffset (fst x) = 0 ∨ op_FirstOffset (fst x) < op_LastOffset (fst x);
}.

Section log.
Context (l : list entry) (Hlog : log_ok l) (Hlen : Z.of_nat (length l) < MaxInt64).

Lemma log_at n : 0 < n ≤ Z.of_nat (length l) → ∃ x, l !! Z.to_nat (n - 1) = Some x.
Proof. intros Hn. apply lookup_lt_is_Some. lia. Qed.

Lemma seg_of_ends s : seg_of l s → ∃ x y,
  l !! Z.to_nat (FirstSeqNo s - 1) = Some x ∧ l !! Z.to_nat (LastSeqNo s - 1) = Some y ∧
  (Author s = op_Author (fst x) ∧ FirstOffset s = op_FirstOffset (fst x) ∧ FirstChecksum s = op_Checksum (fst x)) ∧
  (Author s = op_Author (fst y) ∧ LastOffset s = op_LastOffset (fst y)).
Proof.
  intros [Hr Hf Hl]. destruct (log_at (FirstSeqNo s)) as [x Hx]; [lia|]. destruct (log_at (LastSeqNo s)) as [y Hy]; [lia|].
  exists x, y. auto.
Qed.

(** Every operation of a segment is by its author. *)
Lemma seg_of_author s n x : seg_of l s → FirstSeqNo s ≤ n ≤ LastSeqNo s →
  l !! Z.to_nat (n - 1) = Some x → op_Author (fst x) = Author s.
Proof.
  intros Hs Hn Hx. destruct (seg_of_ends s Hs) as (a & b & Ha & Hb & (HA & _) & (HB & _)). rewrite HA.
  pose proof (sg_range _ _ Hs). eapply (lg_range l Hlog _ _ _ a x b); [|done..|congruence]. lia.
Qed.

Lemma seg_of_valid s : seg_of l s → seg_ok s ∧ Segment_Validate s = None.
Proof.
  intros Hs. destruct (seg_of_ends s Hs) as (x & y & Hx & Hy & (HA & HFO & _) & (HB & HLO)). pose proof (sg_range _ _ Hs) as Hr.
  pose proof (lg_author _ Hlog _ _ Hx). pose proof (lg_ends _ Hlog _ _ Hy).
  pose proof (lg_FirstOffset _ Hlog (Z.to_nat (FirstSeqNo s - 1)) (Z.to_nat (LastSeqNo s - 1)) x y ltac:(lia) Hx Hy).
  split; [split; lia|]. unfold Segment_Validate. repeat case_match; try done; lia.
Qed.

(** How two segments of the log relate. *)
Record seg_facts (a b : Segment) : Prop := {
  sf_first : FirstSeqNo a ≤ FirstSeqNo b → FirstOffset a ≤ FirstOffset b;
  sf_last : LastSeqNo a ≤ LastSeqNo b → LastOffset b = 0 ∨ LastOffset a ≠ 0 ∧ LastOffset a ≤ LastOffset b;
  sf_last' : LastSeqNo b ≤ LastSeqNo a → LastOffset a = 0 ∨ LastOffset b ≠ 0 ∧ LastOffset b ≤ LastOffset a;
  sf_same : FirstSeqNo a = FirstSeqNo b → FirstChecksum a = FirstChecksum b ∧ FirstOffset a = FirstOffset b;
  sf_overlap : FirstSeqNo a ≤ FirstSeqNo b ≤ LastSeqNo a → Author a = Author b;
  sf_known : Author a = Author b → (LastOffset a = 0 ↔ LastOffset b = 0);
}.

Lemma seg_of_facts a b : seg_of l a → seg_of l b → seg_facts a b.
Proof.
  intros Ha Hb. destruct (seg_of_ends a Ha) as (x & y & Hx & Hy & (HA & HFO & HC) & (HA' & HLO)).
  destruct (seg_of_ends b Hb) as (x' & y' & Hx' & Hy' & (HB & HFO' & HC') & (HB' & HLO')).
  pose proof (sg_range _ _ Ha). pose proof (sg_range _ _ Hb). split.
  - intros Hle. rewrite HFO, HFO'. eapply (lg_FirstOffset l Hlog); [|done|done]. lia.
  - intros Hle. rewrite HLO, HLO'. eapply (lg_LastOffset l Hlog); [|done|done]. lia.
  - intros Hle. rewrite HLO, HLO'. eapply (lg_LastOffset l Hlog); [|done|done]. lia.
  - intros Heq. rewrite Heq, Hx' in Hx. injection Hx as ->. by rewrite HFO, HC.
  - intros Hn. symmetry. rewrite HB. by apply (seg_of_author a (FirstSeqNo b)).
  - intros Heq. rewrite HLO, HLO'. split; eapply (lg_known l Hlog); try done; congruence.
Qed.

Lemma reduce_ordered_of a b :
  seg_of l a → seg_of l b → FirstSeqNo a ≤ FirstSeqNo b → (FirstSeqNo a = FirstSeqNo b → LastSeqNo b ≤ LastSeqNo a) →
  ∃ r, reduce_ordered a b = Ret r ∧
    match r with Inconsistent _ => False | NotReducible => True | Reduced m => seg_of l m end.
Proof.
  intros Ha Hb Hab Heq. pose proof (seg_of_facts a b Ha Hb) as [F1 F2 F3 F4 F5 F6].
  destruct (seg_of_valid a Ha) as [[Ha1 Ha2 Ha3] _]. destruct (seg_of_valid b Hb) as [[Hb1 Hb2 Hb3] _].
  unfold reduce_ordered, nonZeroAndLess. rewrite int64_id by (unfold is_int64, MinInt64, MaxInt64 in *; lia).
  repeat match goal with
  | |- ∃ r, (if ?c then Ret (Inconsistent _) else _) = Ret r ∧ _ => destruct c eqn:?; [exfalso; lia|]
  | |- ∃ r, (if ?c then Ret NotReducible else _) = Ret r ∧ _ => destruct c eqn:?; [by eexists|]
  end.
  destruct (FirstSeqNo a <=? FirstSeqNo b) eqn:?; [|lia]. assert (Author a = Author b) as Hau by lia.
  assert ((if (FirstSeqNo a =? FirstSeqNo b) && (FirstOffset a <? FirstOffset b) then FirstOffset b else FirstOffset a) = FirstOffset a)
    as -> by (case_match; lia).
  pose proof (sg_range _ _ Ha) as Hra. pose proof (sg_range _ _ Hb) as Hrb.
  destruct (LastSeqNo a <? LastSeqNo b) eqn:?; (eexists; split; [reflexivity|]).
  - destruct Ha as [_ Haf _], Hb as [_ _ Hbl]. split; cbn; [lia|done|]. intros x Hx. rewrite Hau. by apply Hbl.
  - assert ((if (LastSeqNo a =? LastSeqNo b) && (LastOffset a =? 0) then LastOffset b else LastOffset a) = LastOffset a)
      as -> by (case_match; lia).
    destruct Ha as [? ? ?]. by split.
Qed.

Lemma reduceSegment_of a b :
  seg_of l a → seg_of l b →
  ∃ r, reduceSegment a b = Ret r ∧
    match r with Inconsistent _ => False | NotReducible => True | Reduced m => seg_of l m end.
Proof. intros Ha Hb. unfold reduceSegment. case_match eqn:Hc; apply reduce_ordered_of; auto; lia. Qed.

Lemma seg_of_closed : closed (seg_of l).
Proof. intros a b m Ha Hb Hm. destruct (reduceSegment_of a b Ha Hb) as (r & Hr & Hs). by rewrite Hm in Hr; injection Hr as <-. Qed.

(** A set of segments of the log that holds the sequence numbers [P]. *)
Record hinted (set : SegmentSet) (P : Z → Prop) : Prop := {
  ht_inv : SegmentSet_inv set;
  ht_of : Forall (seg_of l) set;
  ht_within n : within set n ↔ P n;
}.

Lemma within_covered set n : within set n ↔ ∃ a, covered set n a.
Proof. unfold within, covered, seg_covers. naive_solver. Qed.

Lemma add_segments_of segs : ∀ set P,
  hinted set P → Forall (seg_of l) segs →
  ∃ set', add_segments set segs = Ret (inl set') ∧ hinted set' (λ n, P n ∨ within segs n).
Proof.
  induction segs as [|s segs IH]; intros set P Hset Hsegs; cbn [add_segments].
  { exists set. split; [done|]. destruct Hset as [? ? Hw]. split; [done..|]. intros n. rewrite Hw.
    split; [by left|]. intros [?|(x & Hx & _)]; [done|]. by apply not_elem_of_nil in Hx. }
  apply Forall_cons in Hsegs as [Hs Hsegs]. pose proof Hset as [Hinv Hof Hw].
  destruct (seg_of_valid s Hs) as [[_ ? _] Hv].
  destruct (SegmentSet_Add_consistent (seg_of l) set s) as [set1 Hadd]; [|done..|].
  { intros a b Ha Hb. by apply reduceSegment_of. }
  rewrite Hadd. cbn [outcome_bind].
  destruct (SegmentSet_Add_spec set s Hinv) as (s' & err & Hadd' & Hspec); [lia|].
  rewrite Hadd in Hadd'. injection Hadd' as <- <-. destruct Hspec as (Hinv1 & Hcov & HQ).
  destruct (IH set1 (λ n, P n ∨ FirstSeqNo s ≤ n ≤ LastSeqNo s)) as (set' & Hs' & [Hi Ho Hw']); [|done|].
  { split; [done|by apply HQ; [apply seg_of_closed|..]|]. intros n. rewrite within_covered, <- Hw, within_covered.
    setoid_rewrite Hcov. unfold seg_covers. naive_solver. }
  exists set'. split; [done|]. split; [done..|]. intros n. rewrite Hw'. unfold within. setoid_rewrite elem_of_cons. naive_solver.
Qed.

(** A node as [BuildHints] writes it. *)
Definition hint_ok (x : Z * list Segment) : Prop := Forall (seg_of l) (snd x) ∧ FirstSeqNo <$> head (snd x) = Some (fst x).

Lemma live_loop_of nodes : ∀ prev set P,
  hinted set P → Forall hint_ok nodes → StronglySorted Z.lt (nodes.*1) →
  (∀ p, prev = Some p → Forall (Z.lt p) (nodes.*1)) →
  ∃ set', live_loop nodes prev set = Ret (inl (nodes.*1, set')) ∧
    hinted set' (λ n, P n ∨ ∃ x, x ∈ nodes ∧ within (snd x) n).
Proof.
  induction nodes as [|[f segs] nodes IH]; intros prev set P Hset Hok Hs Hprev; cbn [live_loop].
  { exists set. split; [done|]. destruct Hset as [? ? Hw]. split; [done..|]. intros n. rewrite Hw.
    split; [by left|]. intros [?|(x & Hx & _)]; [done|]. by apply not_elem_of_nil in Hx. }
  apply Forall_cons in Hok as [[Hsegs Hf] Hok]. cbn [fst snd] in Hsegs, Hf. rewrite fmap_cons in Hs. cbn [fst] in Hs.
  apply StronglySorted_inv in Hs as [Hs Hlt].
  destruct segs as [|s segs]; [done|]. injection Hf as Hf. rewrite (proj2 (Z.eqb_eq _ _) Hf). cbn [negb].
  assert (match prev with Some p => f <=? p | None => false end = false) as ->.
  { destruct prev as [p|]; [|done]. specialize (Hprev p eq_refl). rewrite fmap_cons in Hprev. apply Forall_cons in Hprev as [? _]. simpl in *. lia. }
  destruct (add_segments_of (s :: segs) set P Hset Hsegs) as (set1 & -> & Hset1). cbn [outcome_bind].
  destruct (IH (Some f) set1 _ Hset1 Hok Hs) as (set' & -> & Hset'); [by intros ? [= <-]|]. cbn [outcome_bind].
  exists set'. split; [done|]. destruct Hset' as [? ? Hw']. split; [done..|]. intros n. rewrite Hw'.
  setoid_rewrite elem_of_cons. naive_solver.
Qed.
End log.

#[global] Instance fnode_le_total : Total fnode_le.
Proof. intros a b. unfold fnode_le. lia. Qed.
#[global] Instance fnode_le_trans : Transitive fnode_le.
Proof. intros a b c. unfold fnode_le. lia. Qed.

Lemma ssorted_strict (nodes : list (Z * list Segment)) :
  StronglySorted fnode_le nodes → NoDup (nodes.*1) → StronglySorted Z.lt (nodes.*1).
Proof.
  induction 1 as [|x nodes Hs IH Hx]; rewrite ?fmap_nil, ?fmap_cons; [constructor|].
  intros [Hni Hnd]%NoDup_cons. constructor; [auto|]. apply Forall_fmap. rewrite Forall_forall in Hx |- *.
  intros y Hy. specialize (Hx y Hy). unfold fnode_le in Hx. cbn.
  assert (fst x ≠ fst y); [|lia]. intros Heq. apply Hni. rewrite Heq. by apply list_elem_of_fmap_2.
Qed.

(** The hints of a history: its live nodes in order, and the segments that hold their operations. *)
Lemma LiveLogSegments_of log l m nodes props :
  history_of log l m → log_ok l → Z.of_nat (length l) < MaxInt64 → nodes ≡ₚ map_to_list (LiveNodes m) →
  ∃ F H, LiveLogSegments (BuildHints nodes props m) = Ret (inl (F, H)) ∧ StronglySorted Z.lt F ∧
    (∀ f, f ∈ F ↔ is_Some (LiveNodes m !! f)) ∧
    hinted l H (λ n, ∃ f nd, LiveNodes m !! f = Some nd ∧ within (fn_Segments nd) n).
Proof.
  intros Hh Hok Hlen Hnodes. unfold LiveLogSegments, BuildHints. cbn [hi_LiveNodes].
  set (g := λ x : Z * fnodeState, (fst x, fn_Segments (snd x))). set (L := merge_sort fnode_le (g <$> nodes)).
  assert (L ≡ₚ g <$> nodes) as HL by apply merge_sort_Permutation.
  assert (∀ f segs, (f, segs) ∈ L ↔ ∃ nd, LiveNodes m !! f = Some nd ∧ segs = fn_Segments nd) as Hin.
  { intros f segs. rewrite HL, list_elem_of_fmap. setoid_rewrite Hnodes. split.
    - intros ([f' nd] & [= -> ->] & Hx%elem_of_map_to_list). by exists nd.
    - intros (nd & Hnd & ->). exists (f, nd). split; [done|]. by apply elem_of_map_to_list. }
  assert (StronglySorted Z.lt (L.*1)) as Hsort.
  { apply ssorted_strict; [apply StronglySorted_merge_sort; apply _|]. rewrite HL, <- list_fmap_compose.
    change (fst ∘ g) with (λ x : Z * fnodeState, fst x). rewrite Hnodes. apply NoDup_fst_map_to_list. }
  destruct (live_loop_of l Hok Hlen L None [] (λ _, False)) as (H & HH & [Hi Ho Hw]).
  - split; [split; constructor|constructor|]. intros n. split; [|done]. intros (x & Hx & _). by apply not_elem_of_nil in Hx.
  - apply Forall_forall. intros [f segs] (nd & Hnd & ->)%Hin. destruct (hs_nodes _ _ _ Hh f nd Hnd). by split.
  - done.
  - done.
  - exists (L.*1), H. split_and!; [done|done| |].
    + intros f. rewrite list_elem_of_fmap. split.
      * intros ([f' segs] & -> & (nd & Hnd & _)%Hin). by eexists.
      * intros [nd Hnd]. exists (f, fn_Segments nd). split; [done|]. apply Hin. eauto.
    + split; [done..|]. intros n. rewrite Hw. split.
      * intros [[]|([f segs] & (nd & Hnd & ->)%Hin & Hn)]. eauto.
      * intros (f & nd & Hnd & Hn). right. exists (f, fn_Segments nd). split; [apply Hin; eauto|done].
Qed.

Lemma foldl_insert_union (l : list (string * string)) : ∀ acc : gmap string string,
  NoDup (l.*1) → foldl (λ m '(p, c), <[p := c]> m) acc l = list_to_map l ∪ acc.
Proof.
  induction l as [|[p c] l IH]; intros acc; simpl; [by rewrite map_empty_union|].
  intros [Hni Hnd]%NoDup_cons. rewrite IH by done. rewrite <- insert_union_l.
  rewrite insert_union_r; [done|]. by apply not_elem_of_list_to_map.
Qed.

Lemma hinted_properties (m : FSM) props :
  props ≡ₚ map_to_list (Properties m) → foldl (λ m '(p, c), <[p := c]> m) ∅ props = Properties m.
Proof.
  intros Hp. assert (NoDup (props.*1)) as Hnd by (rewrite Hp; apply NoDup_fst_map_to_list).
  rewrite foldl_insert_union, map_union_empty by done.
  by rewrite (list_to_map_proper _ _ Hnd Hp), list_to_map_to_list.
Qed.

(** ** Logs that differ in offsets

    The recorder that writes an operation knows a lower bound of its offset, a player its
    exact offsets: the states they reach differ in the offsets of segments only. *)

Record same_entry (x y : entry) : Prop := {
  se_frame : snd x = snd y;
  se_meta : op_SeqNo (fst x) = op_SeqNo (fst y) ∧ op_Checksum (fst x) = op_Checksum (fst y) ∧ op_Author (fst x) = op_Author (fst y);
  se_body : op_Create (fst x) = op_Create (fst y) ∧ op_Link (fst x) = op_Link (fst y) ∧
    op_Unlink (fst x) = op_Unlink (fst y) ∧ op_Write (fst x) = op_Write (fst y) ∧ op_Property (fst x) = op_Property (fst y);
}.

Definition erase_seg (s : Segment) : Segment := mkSegment (Author s) (FirstSeqNo s) 0 (FirstChecksum s) (LastSeqNo s) 0.
Definition erase_node (nd : fnodeState) : fnodeState := mkNode (fn_Links nd) (erase_seg <$> fn_Segments nd).

(** Equal up to the offsets of segments. *)
Record same_state (m m' : FSM) : Prop := {
  ss_next : Log m = Log m' ∧ NextSeqNo m = NextSeqNo m' ∧ NextChecksum m = NextChecksum m';
  ss_maps : Properties m = Properties m' ∧ Links m = Links m';
  ss_hints : hintedSegments m = hintedSegments m' ∧ hintedFnodes m = hintedFnodes m';
  ss_nodes : erase_node <$> LiveNodes m = erase_node <$> LiveNodes m';
}.

#[global] Instance same_state_equiv : Equivalence same_state.
Proof.
  split.
  - by intros m.
  - intros m m' [(? & ? & ?) [? ?] [? ?] ?]. by split.
  - intros m1 m2 m3 [(? & ? & ?) [? ?] [? ?] ?] [(? & ? & ?) [? ?] [? ?] ?]. split; split_and?; congruence.
Qed.

Lemma extendSegments_same segs segs' x y :
  same_entry x y → erase_seg <$> segs = erase_seg <$> segs' →
  erase_seg <$> extendSegments segs (fst x) = erase_seg <$> extendSegments segs' (fst y).
Proof.
  intros [_ (H1 & H2 & H3) _] Hs. unfold extendSegments. rewrite H1, H2, H3.
  assert (erase_seg <$> last segs = erase_seg <$> last segs') as Hl by (rewrite <- !fmap_last; by f_equal).
  assert (length segs = length segs') as Hlen by (rewrite <- (length_fmap erase_seg segs), Hs; apply length_fmap).
  destruct (last segs) as [a|], (last segs') as [b|]; try done.
  - injection Hl as Ha Hf Hc Hll. rewrite Ha, Hlen. destruct (Author b =? op_Author (fst y)).
    + rewrite !list_fmap_insert, Hs. unfold erase_seg. cbn. by rewrite Hf, Hc.
    + by rewrite !fmap_app, Hs.
  - by rewrite !fmap_app, Hs.
Qed.

Lemma erased_lookup (n n' : gmap Z fnodeState) f nd :
  erase_node <$> n = erase_node <$> n' → n !! f = Some nd →
  ∃ nd', n' !! f = Some nd' ∧ fn_Links nd = fn_Links nd' ∧ erase_seg <$> fn_Segments nd = erase_seg <$> fn_Segments nd'.
Proof.
  intros Heq Hn. assert ((erase_node <$> n) !! f = (erase_node <$> n') !! f) as Hf by (by rewrite Heq).
  rewrite !lookup_fmap, Hn in Hf. destruct (n' !! f) as [nd'|]; [|done]. injection Hf as ? ?. by exists nd'.
Qed.

Lemma erased_insert (n n' : gmap Z fnodeState) f links segs segs' :
  erase_node <$> n = erase_node <$> n' → erase_seg <$> segs = erase_seg <$> segs' →
  erase_node <$> <[f := mkNode links segs]> n = erase_node <$> <[f := mkNode links segs']> n'.
Proof. intros Hn Hs. rewrite !fmap_insert, Hn. unfold erase_node. cbn. by rewrite Hs. Qed.

Lemma body_ok_same m m' x y m1 :
  same_state m m' → same_entry x y → body_ok m (fst x) m1 →
  ∃ m1', body_ok m' (fst y) m1' ∧ same_state m1 m1'.
Proof.
  intros Hm Hxy Hb. pose proof Hm as [(N1 & N2 & N3) [P1 P2] [S1 S2] Hn]. pose proof Hxy as [_ (M1 & M2 & M3) (B1 & B2 & B3 & B4 & B5)].
  assert (not_create m (fst x) → not_create m' (fst y)) as Hnc' by (unfold not_create; by rewrite M1, B1, S2).
  destruct Hb as [path l Hc Hl Hp Hh|f p nd Hnc H1 Hl Hp Hnd|f p nd Hnc H1 H2 Hnd Hin|f o n nd Hnc H1 H2 H3 Hnd|p c Hnc H1 H2 H3 H4 Hl Hp|Hnc H1 H2 H3 H4];
    try (destruct (erased_lookup _ _ _ _ Hn Hnd) as (nd' & Hnd' & Hlk & Hsg);
         pose proof (extendSegments_same _ _ _ _ Hxy Hsg) as Hext);
    rewrite ?B1, ?B2, ?B3, ?B4, ?B5, ?P1, ?P2, ?S2, ?M1 in *.
  - eexists. split; [eapply ok_create; try done; by rewrite <- S2, <- M1|].
    split; [done|split; cbn; congruence|done|].
    apply erased_insert; [done|]. exact (extendSegments_same [] [] x y Hxy eq_refl).
  - eexists. split; [eapply ok_link; eauto; congruence|]. rewrite <- Hlk.
    split; cbn; [done| |done|by apply erased_insert]. split; congruence.
  - eexists. split; [eapply ok_unlink; eauto; congruence|]. rewrite <- Hlk.
    split; cbn; [done| |done|]; [split; congruence|].
    case_decide; [by rewrite !fmap_delete, Hn|by apply erased_insert].
  - eexists. split; [eapply ok_write; eauto; congruence|]. rewrite <- Hlk.
    split; cbn; [done|done|done|by apply erased_insert].
  - eexists. split; [eapply ok_property; eauto; congruence|]. split; cbn; [done| |done|done]. split; congruence.
  - eexists. split; [apply ok_noop; auto; congruence|done].
Qed.

Lemma FSM_Apply_ok m op fr m1 err :
  (∀ s l, hintedSegments m = s :: l → Author s = op_Author op) → op_SeqNo op = NextSeqNo m →
  op_Checksum op = NextChecksum m → err = None ∨ err = Some ErrFnodeNotTracked → apply_body m op = (m1, err) →
  FSM_Apply m op fr = (fsm_step m1 fr, err).
Proof.
  intros Hs Hseq Hck Herr Hb. unfold FSM_Apply. rewrite Hseq, Hck, !Z.eqb_refl, Hb. cbn [negb].
  assert (match hintedSegments m with s :: _ => negb (Author s =? op_Author op) | [] => false end = false) as ->.
  { destruct (hintedSegments m); [done|]. apply negb_false_iff, Z.eqb_eq. eauto. }
  destruct Herr as [-> | ->]; done.
Qed.

Lemma fsm_step_same m m' fr : same_state m m' → same_state (fsm_step m fr) (fsm_step m' fr).
Proof.
  intros [(H1 & H2 & H3) [H4 H5] [H6 H7] H8]. unfold fsm_step. rewrite H2, H3, H6.
  repeat case_match; by split; cbn; split_and?.
Qed.

Lemma history_same m m' l l' m1 :
  same_state m m' → Forall2 same_entry l l' → history m l = Some m1 →
  ∃ m1', history m' l' = Some m1' ∧ same_state m1 m1'.
Proof.
  intros Hm Hl. revert m m' Hm. induction Hl as [|[op fr] [op' fr'] l l' Hx Hl IH]; intros m m' Hm; cbn [history].
  { intros [= <-]. by exists m'. }
  destruct (FSM_Apply m op fr) as [m2 [e|]] eqn:Ha; [done|]. intros Hh.
  apply FSM_Apply_cases in Ha as [(? & _)|(Hseq & Hck & Hau & m3 & [[_ Hb]|[? _]] & ->)]; [done| |done].
  destruct (body_ok_same _ _ _ _ _ Hm Hx Hb) as (m3' & Hb' & Hs').
  pose proof Hm as [(? & ? & ?) _ [Hsg _] _]. pose proof Hx as [Hfr (? & ? & ?) _]. cbn [fst snd] in *.
  rewrite (FSM_Apply_ok m' op' fr' m3' None); [|intros s k; rewrite <- Hsg; intros Hsk; rewrite (Hau s k Hsk); congruence|congruence..|by left|by apply body_ok_apply].
  apply (IH (fsm_step m3 fr)); [subst fr'; by apply fsm_step_same|done].
Qed.

Lemma same_entry_touches x y f : same_entry x y → touches (fst x) f ↔ touches (fst y) f.
Proof. intros [_ (H1 & _) (H2 & H3 & H4 & H5 & _)]. unfold touches. by rewrite H1, H2, H3, H4, H5. Qed.

Lemma body_ok_properties m op m1 : body_ok m op m1 → Properties m ⊆ Properties m1.
Proof.
  destruct 1 as [| | | |p c Hnc H1 H2 H3 H4 Hl Hp|]; cbn; try done.
  apply map_subseteq_spec. intros p' c' Hp'. destruct (decide (p = p')) as [<-|]; [|by rewrite lookup_insert_ne].
  rewrite lookup_insert_eq. destruct Hp; congruence.
Qed.

(** Properties are never updated nor removed. *)
Lemma history_properties l : ∀ m m', history m l = Some m' → Properties m ⊆ Properties m'.
Proof.
  induction l as [|[op fr] l IH]; intros m m'; cbn [history]; [by intros [= <-]|].
  destruct (FSM_Apply m op fr) as [m2 [e|]] eqn:Ha; [done|]. intros Hh. etrans; [|by eapply IH].
  apply FSM_Apply_cases in Ha as [(? & _)|(_ & _ & _ & m3 & [[_ Hb]|[? _]] & ->)]; [done| |done].
  etrans; [by eapply body_ok_properties|]. unfold fsm_step. by repeat case_match.
Qed.

(** ** Playback *)

(** Paths of properties are not links. *)
Lemma history_props_links l : ∀ m m', history m l = Some m' →
  (∀ p c, Properties m !! p = Some c → Links m !! p = None) → ∀ p c, Properties m' !! p = Some c → Links m' !! p = None.
Proof.
  induction l as [|[op fr] l IH]; intros m m'; cbn [history]; [by intros [= ->]|].
  destruct (FSM_Apply m op fr) as [m1 [e|]] eqn:E; [done|]. intros Hh Hp. apply (IH m1 m' Hh).
  destruct (FSM_Apply_cases _ _ _ _ _ E) as [(? & _)|(_ & _ & _ & m2 & [[_ Hb]|[? _]] & ->)]; [done| |done].
  unfold fsm_step. repeat case_match; cbn; by apply (body_ok_props m op m2 Hb).
Qed.

Lemma filter_lt_step (F : list Z) n :
  StronglySorted Z.lt F →
  (n + 1 ∈ F → filter (λ f, n < f) F = (n + 1) :: filter (λ f, n + 1 < f) F) ∧
  (n + 1 ∉ F → filter (λ f, n < f) F = filter (λ f, n + 1 < f) F).
Proof.
  induction 1 as [|a F Hs IH Ha]; [split; [by intros ?%not_elem_of_nil|done]|].
  rewrite Forall_forall in Ha. rewrite !filter_cons. split.
  - intros [<-|Hin]%elem_of_cons.
    + rewrite decide_True, decide_False by lia. f_equal.
      rewrite !list_filter_all; [done|intros x Hx; specialize (Ha x Hx); lia..].
    + specialize (Ha _ Hin). rewrite !decide_False by lia. by apply IH.
  - intros [Hne Hni]%not_elem_of_cons. rewrite (proj2 IH Hni). repeat case_decide; try done; lia.
Qed.

Section playback.
(** The live nodes and the segments of the hints, and the properties they list. *)
Context (log : string) (F : list Z) (H : SegmentSet) (props : gmap string string).

(** The nodes a player tracks: the hinted ones, and any that are created after the last of them. *)
Definition tracked (f : Z) : Prop := f ∈ F ∨ Forall (λ g, g < f) F.

#[local] Instance tracked_dec f : Decision (tracked f).
Proof. unfold tracked. apply _. Defined.

Definition tracked_nodes (n : gmap Z fnodeState) : gmap Z fnodeState := filter (λ x, tracked (fst x)) n.
Definition tracked_links (n : gmap string Z) : gmap string Z := filter (λ x, tracked (snd x)) n.

Lemma tracked_lookup n f nd : tracked f → n !! f = Some nd → tracked_nodes n !! f = Some nd.
Proof. intros Ht Hn. by apply map_lookup_filter_Some. Qed.
Lemma untracked_lookup n f : ¬ tracked f → tracked_nodes n !! f = None.
Proof. intros Ht. apply map_lookup_filter_None. right. by intros nd _ ?. Qed.
Lemma tracked_link_None n p : n !! p = None → tracked_links n !! p = None.
Proof. intros Hn. apply map_lookup_filter_None. by left. Qed.

(** The view a player has of the state [m] that wrote the log. *)
Record views (n : Z) (m g : FSM) : Prop := {
  vw_props : Properties g = props;
  vw_nodes : LiveNodes g = tracked_nodes (LiveNodes m);
  vw_links : Links g = tracked_links (Links m);
  vw_fnodes : hintedFnodes g = filter (λ f, n < f) F;
}.

(** Paths that are created or linked are not of properties. *)
Definition no_sink (op : RecordedOp) : Prop :=
  (∀ p, op_Create op = Some p → props !! p = None) ∧ (∀ f p, op_Link op = Some (f, p) → props !! p = None).

Context (HF : StronglySorted Z.lt F).

(** The body of an operation as a player applies it. *)
Definition views_step (n : Z) (op : RecordedOp) (m1 g : FSM) : Prop :=
  ∃ g1 err, apply_body g op = (g1, err) ∧ (err = None ∨ err = Some ErrFnodeNotTracked) ∧ views (n + 1) m1 g1 ∧
    Log g1 = Log g ∧ NextSeqNo g1 = NextSeqNo g ∧ NextChecksum g1 = NextChecksum g ∧ hintedSegments g1 = hintedSegments g.

Lemma create_views n op m g path l :
  op_Create op = Some path → Links m !! path = None → op_SeqNo op = n + 1 → views n m g → no_sink op →
  views_step n op (with_nodes (with_hintedFnodes m l)
    (<[op_SeqNo op := mkNode {[ path ]} (extendSegments [] op)]> (LiveNodes m)) (<[path := op_SeqNo op]> (Links m))) g.
Proof.
  intros Hc Hl Hseq [Vp Vn Vl Vf] [Hsc _]. destruct (filter_lt_step F n HF) as [Hin Hout].
  assert (Links g !! path = None) as HLg by (rewrite Vl; by apply tracked_link_None).
  assert (Properties g !! path = None) as HPg by (rewrite Vp; eauto).
  set (m1 := with_nodes _ _ _).
  assert (∀ l', hintedFnodes g = [] ∧ l' = [] ∨ hintedFnodes g = op_SeqNo op :: l' → tracked (n + 1) →
    l' = filter (λ f, n + 1 < f) F → views_step n op m1 g) as Htr.
  { intros l' Hl' Ht Hf. eexists _, None. split; [apply body_ok_apply; by eapply (ok_create g op path l')|].
    split_and!; [by left| |done..]. subst m1. rewrite Hseq in *. split; [done|cbn..|done].
    - rewrite Vn. unfold tracked_nodes. by rewrite map_filter_insert_True.
    - rewrite Vl. unfold tracked_links. by rewrite map_filter_insert_True. }
  destruct (decide (n + 1 ∈ F)) as [HnF|HnF].
  { apply (Htr (filter (λ f, n + 1 < f) F)); [right; by rewrite Vf, Hseq, Hin|by left|done]. }
  rewrite (Hout HnF) in Vf. clear Hin Hout. destruct (filter (λ f, n + 1 < f) F) as [|h r] eqn:Hr.
  { apply (Htr []); [by left| |done]. right. apply Forall_forall. intros a Ha.
    destruct (decide (n + 1 < a)) as [Hlt|Hge]; [|assert (a ≠ n + 1) by (by intros ->); lia].
    assert (a ∈ filter (λ f, n + 1 < f) F) as Hx by (by apply list_elem_of_filter). rewrite Hr in Hx. by apply not_elem_of_nil in Hx. }
  assert (h ∈ filter (λ f, n + 1 < f) F) as [Hhn HhF]%list_elem_of_filter by (rewrite Hr; by left).
  assert (¬ tracked (n + 1)) as Hnt.
  { intros [?|Hall]; [done|]. rewrite Forall_forall in Hall. specialize (Hall h HhF). lia. }
  exists g, (Some ErrFnodeNotTracked). split_and!; [|by right| |done..].
  - unfold apply_body. rewrite Hc. unfold applyCreate. rewrite HLg, HPg, Vf. cbn [is_some].
    destruct (Z.eqb_spec h (op_SeqNo op)); [lia|done].
  - subst m1. split; [done|cbn|cbn|by rewrite Vf, Hr].
    + rewrite Vn. unfold tracked_nodes. rewrite map_filter_insert_not; [done|]. intros y. cbn. by rewrite Hseq.
    + rewrite Vl. unfold tracked_links. rewrite map_filter_insert_not'; [done|cbn; by rewrite Hseq|congruence].
Qed.

(** An operation of a node that is not tracked does not change the view. *)
Lemma untracked_step n op m1 g fnode :
  not_create g op → ¬ tracked fnode → LiveNodes g !! fnode = None → views (n + 1) m1 g →
  match op_Link op, op_Unlink op, op_Write op with
  | Some (f, p), _, _ => f = fnode ∧ Links g !! p = None ∧ Properties g !! p = None
  | None, Some (f, _), _ | None, None, Some (f, _, _) => f = fnode
  | None, None, None => False
  end → views_step n op m1 g.
Proof.
  intros Hnc Ht Hn Hv Hop. exists g, (Some ErrFnodeNotTracked). split_and!; [|by right|done..].
  unfold apply_body. rewrite (proj1 Hnc), not_create_head by done.
  destruct (op_Link op) as [[f p]|].
  { destruct Hop as (-> & Hl & Hp). unfold applyLink. by rewrite Hl, Hp, Hn. }
  destruct (op_Unlink op) as [[f p]|]; [subst f; unfold applyUnlink; by rewrite Hn|].
  destruct (op_Write op) as [[[f o] k]|]; [subst f; unfold applyWrite; by rewrite Hn|done].
Qed.

Lemma body_views n op m m1 g :
  body_ok m op m1 → op_SeqNo op = n + 1 → links_ok (LiveNodes m) (Links m) →
  views n m g → no_sink op → (n + 1 ∈ F → op_Create op ≠ None) → Properties m1 ⊆ props →
  views_step n op m1 g.
Proof.
  intros Hb Hseq Hlinks Hv Hsink HcF Hprops. pose proof Hv as [Vp Vn Vl Vf].
  destruct Hb as [path l Hc Hl Hp Hh|f p nd Hnc H1 Hl Hp Hnd|f p nd Hnc H1 H2 Hnd Hpin|f o k nd Hnc H1 H2 H3 Hnd|p c Hnc H1 H2 H3 H4 Hl Hp|Hnc H1 H2 H3 H4].
  1: by apply create_views.
  all: assert (n + 1 ∉ F) as HnF by (intros HnF; by apply (HcF HnF), (proj1 Hnc)).
  all: rewrite (proj2 (filter_lt_step F n HF) HnF) in Vf.
  all: assert (not_create g op) as Hncg
    by (split; [by destruct Hnc|]; rewrite Vf, Hseq; intros Hh; apply head_Some_elem_of, list_elem_of_filter in Hh as [? ?]; lia).
  1-3: destruct (decide (tracked f)) as [Ht|Ht];
    [pose proof (tracked_lookup _ _ _ Ht Hnd) as Hg; rewrite <- Vn in Hg
    |pose proof (untracked_lookup (LiveNodes m) f Ht) as Hg; rewrite <- Vn in Hg].
  - assert (Properties g !! p = None) by (rewrite Vp; by eapply (proj2 Hsink)).
    eexists _, None. split; [apply body_ok_apply; eapply ok_link; try done; by rewrite Vl; apply tracked_link_None|].
    split_and!; [by left| |done..]. split; [done|cbn..|done].
    + rewrite Vn. unfold tracked_nodes. by rewrite map_filter_insert_True.
    + rewrite Vl. unfold tracked_links. by rewrite map_filter_insert_True.
  - apply (untracked_step _ _ _ _ f); [done..| |].
    + split; [done|cbn..|done].
      * rewrite Vn. unfold tracked_nodes. by rewrite map_filter_insert_not.
      * rewrite Vl. unfold tracked_links. rewrite map_filter_insert_not'; [done|done|congruence].
    + rewrite H1, Vl, Vp. split_and!; [done|by apply tracked_link_None|by eapply (proj2 Hsink)].
  - eexists _, None. split; [apply body_ok_apply; by eapply ok_unlink|]. split_and!; [by left| |done..]. split; [done|cbn..|done].
    + rewrite Vn. unfold tracked_nodes. case_decide; [by rewrite map_filter_delete|by rewrite map_filter_insert_True].
    + rewrite Vl. unfold tracked_links. by rewrite map_filter_delete.
  - apply (untracked_step _ _ _ _ f); [done..| |by rewrite H1, H2].
    assert (Links m !! p = Some f) as Hlp by (apply (proj1 Hlinks); by exists nd). split; [done|cbn..|done].
    + rewrite Vn. unfold tracked_nodes. case_decide; [|by rewrite map_filter_insert_not].
      rewrite map_filter_delete_not; [done|]. by intros y _.
    + rewrite Vl. unfold tracked_links. rewrite map_filter_delete_not; [done|]. intros y Hy. rewrite Hlp in Hy. by injection Hy as <-.
  - eexists _, None. split; [apply body_ok_apply; by eapply ok_write|]. split_and!; [by left| |done..]. split; [done|cbn|done|done].
    rewrite Vn. unfold tracked_nodes. by rewrite map_filter_insert_True.
  - apply (untracked_step _ _ _ _ f); [done..| |by rewrite H1, H2, H3]. split; [done|cbn|done|done].
    rewrite Vn. unfold tracked_nodes. by rewrite map_filter_insert_not.
  - cbn in Hprops. assert (props !! p = Some c) as Hpc by (eapply lookup_weaken; [apply lookup_insert_eq|exact Hprops]).
    eexists _, None. split; [apply body_ok_apply; eapply ok_property; try done; [rewrite Vl; by apply tracked_link_None|right; by rewrite Vp]|].
    split_and!; [by left| |done..]. split; [cbn|done..]. rewrite Vp. by apply insert_id.
  - eexists _, None. split; [apply body_ok_apply; by apply ok_noop|]. by split_and!; [left|..].
Qed.

(** An operation of untracked nodes does not change what is tracked. *)
Lemma body_untracked m op m1 :
  body_ok m op m1 → links_ok (LiveNodes m) (Links m) → (∀ f, touches op f → ¬ tracked f) →
  tracked_nodes (LiveNodes m1) = tracked_nodes (LiveNodes m) ∧ tracked_links (Links m1) = tracked_links (Links m).
Proof.
  unfold touches, tracked_nodes, tracked_links. intros Hb Hlinks.
  destruct Hb as [path l Hc Hl Hp Hh|f p nd [Hnc _] H1 Hl Hp Hnd|f p nd [Hnc _] H1 H2 Hnd Hpin|f o k nd [Hnc _] H1 H2 H3 Hnd| |]; cbn; try done;
    rewrite ?Hc, ?Hnc, ?H1, ?H2, ?H3; intros Ht; specialize (Ht _ eq_refl).
  - by rewrite map_filter_insert_not, map_filter_insert_not' by (done || congruence).
  - by rewrite map_filter_insert_not, map_filter_insert_not' by (done || congruence).
  - assert (Links m !! p = Some f) as Hlp by (apply (proj1 Hlinks); by exists nd).
    rewrite (map_filter_delete_not _ (Links m)) by (intros y Hy; rewrite Hlp in Hy; by injection Hy as <-).
    case_decide; [by rewrite map_filter_delete_not|by rewrite map_filter_insert_not].
  - by rewrite map_filter_insert_not.
Qed.

(** The log that is played, and how the hints describe it. *)
Context (l : list entry) (Hlen : Z.of_nat (length l) < MaxInt64).
Context (Hops : ∀ i x, l !! i = Some x → op_SeqNo (fst x) = Z.of_nat i + 1 ∧ op_Checksum (fst x) = chain (take i l)).

Record seg_in (s : Segment) : Prop := {
  si_range : 0 < FirstSeqNo s ≤ LastSeqNo s ∧ LastSeqNo s ≤ Z.of_nat (length l);
  si_author n x : FirstSeqNo s ≤ n ≤ LastSeqNo s → l !! Z.to_nat (n - 1) = Some x → op_Author (fst x) = Author s;
  si_first x : l !! Z.to_nat (FirstSeqNo s - 1) = Some x → FirstChecksum s = op_Checksum (fst x);
}.

Context (HH : SegmentSet_inv H) (Hsegs : Forall seg_in H).
(** The segments hold the operations of the hinted nodes, and from the last of these on
    there is no gap between them. *)
Context (Htouch : ∀ i x f, l !! i = Some x → touches (fst x) f → f ∈ F → within H (Z.of_nat i + 1)).
Context (Hcreate : ∀ f x, f ∈ F → l !! Z.to_nat (f - 1) = Some x → op_Create (fst x) ≠ None).
Context (Hsinks : Forall (λ x, no_sink (fst x)) l).
Definition no_gap : Prop := ∀ n k, Forall (λ f, f < n) F → n ≤ k → within H k → within H n.
Context (Hgap : no_gap).

(** The state of a player that has read [pre]. *)
Record plays (pre : list entry) (m g : FSM) : Prop := {
  pl_view : views (Z.of_nat (length pre)) m g;
  pl_log : Log g = log;
  pl_done : ∃ d, H = d ++ hintedSegments g ∧ Forall (λ s, LastSeqNo s ≤ Z.of_nat (length pre)) d;
  pl_next : match hintedSegments g with
            | [] => NextSeqNo g = Z.of_nat (length pre) + 1
            | s :: _ => NextSeqNo g = Z.max (Z.of_nat (length pre) + 1) (FirstSeqNo s) ∧ NextSeqNo g ≤ LastSeqNo s
            end;
  pl_sum : NextChecksum g = chain (take (Z.to_nat (NextSeqNo g - 1)) l);
}.

Lemma chain_at i x : l !! i = Some x → chain (take (S i) l) = Crc32.Update (chain (take i l)) (snd x).
Proof. intros Hx. rewrite (take_S_r _ _ _ Hx). unfold chain. by rewrite foldl_app. Qed.

(** Before the next hinted segment. *)
Lemma gap_not_within pre m g s rest :
  plays pre m g → hintedSegments g = s :: rest → Z.of_nat (length pre) + 1 < FirstSeqNo s →
  ¬ within H (Z.of_nat (length pre) + 1).
Proof.
  intros [_ _ (d & Hd & Hdone) _ _] Hs Hlt (x & Hx & Hn). rewrite Hs in Hd. rewrite Forall_forall in Hdone.
  destruct HH as [Hok Hsort]. rewrite Hd in Hx, Hsort, Hok. apply ssorted_app in Hsort as (_ & Hsort & _).
  apply Forall_app in Hok as [_ Hok]. apply Forall_cons in Hok as [[_ Hsok _] _].
  apply StronglySorted_inv in Hsort as [_ Hsort]. rewrite Forall_forall in Hsort.
  apply elem_of_app in Hx as [Hx|[-> |Hx]%elem_of_cons]; [specialize (Hdone x Hx); cbn in Hdone; lia|lia|].
  destruct (Hsort x Hx) as [? _]. lia.
Qed.

Lemma plays_gap pre x m m1 g s rest :
  plays pre m g → history_of log pre m → l !! length pre = Some x → body_ok m (fst x) m1 →
  hintedSegments g = s :: rest → Z.of_nat (length pre) + 1 < FirstSeqNo s →
  FSM_Apply g (fst x) (snd x) = (g, snd (FSM_Apply g (fst x) (snd x))) ∧
  (∀ m', LiveNodes m' = LiveNodes m1 → Links m' = Links m1 → plays (pre ++ [x]) m' g) ∧
  (∀ f, touches (fst x) f → LiveNodes g !! f = None).
Proof.
  intros Hp Hh Hx Hb Hs Hlt. pose proof (gap_not_within _ _ _ _ _ Hp Hs Hlt) as Hnw.
  pose proof Hp as [[Vp Vn Vl Vf] Hlg (d & Hd & Hdone) Hnext Hsum]. rewrite Hs in Hnext. destruct (Hops _ _ Hx) as [Hseq Hck]. split.
  { unfold FSM_Apply. rewrite Hs. case_match; [done|]. by rewrite (proj2 (Z.eqb_neq _ _)) by lia. }
  assert (within H (FirstSeqNo s)) as Hws.
  { exists s. split; [rewrite Hd, Hs; apply elem_of_app; right; by left|].
    assert (seg_ok s) as [_ ? _]; [|lia]. pose proof (set_ok _ HH) as Hok. rewrite Hd, Hs in Hok.
    apply Forall_app in Hok as [_ Hok]. by apply Forall_cons in Hok as [? _]. }
  assert (∀ f, touches (fst x) f → ¬ tracked f) as Hnt.
  { intros f Ht [HfF|Hall]; [by apply Hnw, (Htouch _ x f)|]. apply Hnw, (Hgap _ (FirstSeqNo s)); [|lia|done].
    assert (f ≤ Z.of_nat (length pre) + 1).
    { destruct (proj2 (body_ok_nodes _ _ _ Hb) f Ht) as [[nd Hnd]| ->]; [|lia].
      destruct (nd_range _ _ _ (hs_nodes _ _ _ Hh _ _ Hnd)). lia. }
    eapply Forall_impl; [exact Hall|]. cbn. lia. }
  split; [|intros f Ht; rewrite Vn; by apply untracked_lookup, Hnt].
  destruct (body_untracked _ _ _ Hb (hs_links _ _ _ Hh) Hnt) as [Hn' Hl']. intros m' Hm1 Hm2.
  assert (Z.of_nat (length (pre ++ [x])) = Z.of_nat (length pre) + 1) as Hlpre by (rewrite length_app; simpl; lia).
  split; rewrite ?Hlpre; [|done| |rewrite Hs; lia|done].
  - split; [done|by rewrite Vn, Hm1, Hn'|by rewrite Vl, Hm2, Hl'|]. rewrite Vf. apply (filter_lt_step F _ HF). intros HnF.
    apply Hnw, (Htouch _ x (Z.of_nat (length pre) + 1)); [done| |done]. unfold touches.
    destruct (op_Create (fst x)) eqn:Hc; [lia|]. exfalso. eapply (Hcreate _ x HnF); [|exact Hc].
    by replace (Z.to_nat (Z.of_nat (length pre) + 1 - 1)) with (length pre) by lia.
  - exists d. split; [done|]. eapply Forall_impl; [exact Hdone|]. cbn. lia.
Qed.

(** The step of a player to the operation that follows, or to the next segment. *)
Lemma plays_step pre x m' g1 :
  l !! length pre = Some x → views (Z.of_nat (length pre) + 1) m' g1 → Log g1 = log →
  (∃ d, H = d ++ hintedSegments g1 ∧ Forall (λ s, LastSeqNo s ≤ Z.of_nat (length pre)) d) →
  NextSeqNo g1 = Z.of_nat (length pre) + 1 → NextChecksum g1 = chain (take (length pre) l) →
  (∀ s rest, hintedSegments g1 = s :: rest → FirstSeqNo s ≤ NextSeqNo g1 ≤ LastSeqNo s) →
  plays (pre ++ [x]) m' (fsm_step g1 (snd x)).
Proof.
  intros Hx Hv Hlg (d & Hd & Hdone) Hn Hsum Hs. pose proof (lookup_lt_Some _ _ _ Hx) as Hlt.
  assert (Z.of_nat (length (pre ++ [x])) = Z.of_nat (length pre) + 1) as Hlpre by (rewrite length_app; simpl; lia).
  assert (chain (take (Z.to_nat (Z.of_nat (length pre) + 1 + 1 - 1)) l) = Crc32.Update (NextChecksum g1) (snd x)) as Hc.
  { rewrite Hsum. replace (Z.to_nat _) with (S (length pre)) by lia. by apply chain_at. }
  assert (∀ d', Forall (λ s, LastSeqNo s ≤ Z.of_nat (length pre)) d' → Forall (λ s, LastSeqNo s ≤ Z.of_nat (length pre) + 1) d') as Hmono.
  { intros d' Hd'. eapply Forall_impl; [exact Hd'|]. cbn. lia. }
  destruct Hv as [Vp Vn Vl Vf]. unfold fsm_step. rewrite Hn. rewrite int64_id by (unfold is_int64, MinInt64, MaxInt64 in *; lia).
  destruct (hintedSegments g1) as [|s rest] eqn:Hseg.
  { split; rewrite ?Hlpre; cbn; [by split|done| |lia|done]. exists d. auto. }
  destruct (Hs s rest eq_refl) as [Hs1 Hs2]. destruct (Z.ltb_spec (LastSeqNo s) (Z.of_nat (length pre) + 1 + 1)) as [Hend|Hin].
  2:{ split; rewrite ?Hlpre; cbn; [by split|done| |lia|done]. exists d. auto. }
  assert (H = (d ++ [s]) ++ rest) as Hd' by (by rewrite <- app_assoc).
  assert (Forall (λ s, LastSeqNo s ≤ Z.of_nat (length pre) + 1) (d ++ [s])) as Hdone'.
  { apply Forall_app. split; [auto|]. apply Forall_singleton. lia. }
  destruct rest as [|s' rest]; (split; rewrite ?Hlpre; cbn; [by split|done|by exists (d ++ [s])| |]); [lia|done| |].
  - destruct HH as [Hok Hsort]. rewrite Hd in Hok, Hsort. apply ssorted_app in Hsort as (_ & Hsort & _).
    apply StronglySorted_inv in Hsort as [_ Hsort]. apply Forall_cons in Hsort as [[? _] _].
    apply Forall_app in Hok as [_ Hok]. apply Forall_cons in Hok as [_ Hok]. apply Forall_cons in Hok as [[_ ? _] _]. lia.
  - rewrite Hd in Hsegs. apply Forall_app in Hsegs as [_ Hsegs']. apply Forall_cons in Hsegs' as [_ Hsegs'].
    apply Forall_cons in Hsegs' as [[Hr _ Hf] _]. destruct (log_at l (FirstSeqNo s')) as [y Hy]; [lia|].
    rewrite (Hf y Hy). by destruct (Hops _ _ Hy).
Qed.

(** A player applies the operation, skips it as one of a node it does not track, or is before a
    segment that the operation precedes. *)
Lemma plays_snoc_err pre x m m' g :
  plays pre m g → history_of log pre m → l !! length pre = Some x → FSM_Apply m (fst x) (snd x) = (m', None) →
  Properties m' ⊆ props → plays (pre ++ [x]) m' (fst (FSM_Apply g (fst x) (snd x))) ∧
  (snd (FSM_Apply g (fst x) (snd x)) = None ∨ snd (FSM_Apply g (fst x) (snd x)) = Some ErrFnodeNotTracked ∨
   ∀ f, touches (fst x) f → LiveNodes g !! f = None).
Proof.
  intros Hp Hh Hx Happ Hprops. pose proof (lookup_lt_Some _ _ _ Hx) as Hlt. destruct x as [op fr]. cbn [fst snd] in *.
  destruct (history_of_snoc log pre m op fr m' Hh ltac:(lia) Happ) as [_ (m1 & Hb & ->)].
  destruct (hs_hints _ _ _ Hh) as [Hsg _]. destruct (body_ok_frame _ _ _ Hb) as (_ & _ & _ & Hsg').
  rewrite (fsm_step_frame m1) in Hprops |- * by congruence. cbn in Hprops. set (m' := mkFSM _ _ _ _ _ _ _ _).
  pose proof Hp as [Hv Hlg Hd Hnext Hsum]. destruct (Hops _ _ Hx) as [Hseq Hck]. cbn [fst] in Hseq, Hck.
  destruct (decide (NextSeqNo g = Z.of_nat (length pre) + 1)) as [Heq|Hne].
  2:{ destruct (hintedSegments g) as [|s rest] eqn:Hs; [done|].
      destruct (plays_gap pre (op, fr) m m1 g s rest) as (Hg & Hpl & Ht); [done..|lia|].
      split; [|by right; right]. cbn [fst snd] in Hg. rewrite Hg. by apply Hpl. }
  destruct (body_views (Z.of_nat (length pre)) op m m1 g) as (g1 & err & Hb1 & Herr & Hv1 & G1 & G2 & G3 & G4);
    [done|done|apply Hh|done| | |done|].
  { rewrite Forall_forall in Hsinks. apply (Hsinks (op, fr)). by eapply list_elem_of_lookup_2. }
  { intros HnF. apply (Hcreate _ (op, fr) HnF). by replace (Z.to_nat (Z.of_nat (length pre) + 1 - 1)) with (length pre) by lia. }
  assert (∀ s rest, hintedSegments g = s :: rest → FirstSeqNo s ≤ NextSeqNo g ≤ LastSeqNo s) as Hin.
  { intros s rest Hs. rewrite Hs in Hnext. lia. }
  assert (chain (take (Z.to_nat (NextSeqNo g - 1)) l) = chain (take (length pre) l)) as Hch by (do 2 f_equal; lia).
  rewrite (FSM_Apply_ok g op fr g1 err); [cbn [fst snd]; split; [|naive_solver]| |congruence..|done|done].
  - apply (plays_step pre (op, fr)); rewrite ?G4, ?G2, ?G3; [done|by destruct Hv1|congruence|done|done|congruence|done].
  - intros s rest Hs. destruct Hd as (d & Hd & _). rewrite Hd, Hs in Hsegs. apply Forall_app in Hsegs as [_ Hsg1].
    apply Forall_cons in Hsg1 as [[_ Hau _] _]. symmetry. apply (Hau (NextSeqNo g) (op, fr)); [eauto|].
    rewrite Heq. by replace (Z.to_nat (Z.of_nat (length pre) + 1 - 1)) with (length pre) by lia.
Qed.

Lemma plays_snoc pre x m m' g :
  plays pre m g → history_of log pre m → l !! length pre = Some x → FSM_Apply m (fst x) (snd x) = (m', None) →
  Properties m' ⊆ props → plays (pre ++ [x]) m' (fst (FSM_Apply g (fst x) (snd x))).
Proof. intros. by eapply plays_snoc_err. Qed.

Lemma plays_all post : ∀ pre m m' g,
  l = pre ++ post → history_of log pre m → plays pre m g → history m post = Some m' → Properties m' ⊆ props →
  plays l m' (play g post) ∧ history_of log l m'.
Proof.
  induction post as [|[op fr] post IH]; intros pre m m' g Hl Hh Hp Hpost Hprops.
  { rewrite app_nil_r in Hl. injection Hpost as <-. by subst pre. }
  cbn [history] in Hpost. destruct (FSM_Apply m op fr) as [m1 [e|]] eqn:Ha; [done|].
  assert (l !! length pre = Some (op, fr)) as Hx by (rewrite Hl, lookup_app_r, Nat.sub_diag by lia; done).
  pose proof (lookup_lt_Some _ _ _ Hx).
  destruct (history_of_snoc log pre m op fr m1 Hh ltac:(lia) Ha) as [Hh1 _].
  unfold play. cbn [foldl fst snd]. apply (IH (pre ++ [(op, fr)]) m1); [by rewrite Hl, <- app_assoc|done| |done|done].
  apply (plays_snoc pre (op, fr) m m1 g); [done..|]. etrans; [|exact Hprops]. by eapply history_properties.
Qed.
End playback.

(** [n] lies in a segment of a live node. *)
Definition live_within (m : FSM) (n : Z) : Prop :=
  ∃ f nd, LiveNodes m !! f = Some nd ∧ within (fn_Segments nd) n.

(** From the creation of the last live node on, the segments of live nodes have no gap. *)
Definition no_gap_after_nodes (m : FSM) : Prop :=
  ∀ n k, (∀ f, is_Some (LiveNodes m !! f) → f < n) → n ≤ k → live_within m k → live_within m n.

Section same_log.
Context (l l' : list entry) (Hsame : Forall2 same_entry l l').

Lemma same_lookup i x : l' !! i = Some x → ∃ y, l !! i = Some y ∧ same_entry y x.
Proof. intros Hx. by eapply Forall2_lookup_r. Qed.

Lemma seg_of_same s : log_ok l → seg_of l s → seg_in l' s.
Proof.
  intros Hok Hs. pose proof Hs as [Hr Hf _]. split.
  - by rewrite <- (Forall2_length _ _ _ Hsame).
  - intros n x Hn (y & Hy & [_ (_ & _ & <-) _])%same_lookup. by apply (seg_of_author l Hok s n).
  - intros x (y & Hy & [_ (_ & <- & _) _])%same_lookup. by apply Hf.
Qed.

Lemma no_sink_same props : Forall (λ x, no_sink props (fst x)) l → Forall (λ x, no_sink props (fst x)) l'.
Proof.
  intros Hl. rewrite Forall_forall in *. intros x [i Hx]%list_elem_of_lookup.
  destruct (same_lookup i x Hx) as (y & Hy & [_ _ (B1 & B2 & _)]). unfold no_sink. rewrite <- B1, <- B2.
  apply Hl. by eapply list_elem_of_lookup_2.
Qed.
End same_log.

(** A player that has read the whole log. *)
Lemma plays_end log F H props l m g :
  plays log F H props l l m g → history_of log l m → Forall (seg_in l) H → Properties m = props →
  (∀ f, f ∈ F ↔ is_Some (LiveNodes m !! f)) → g = m.
Proof.
  intros [[Vp Vn Vl Vf] Hlg (d & Hd & _) Hnext Hsum] [(Hlog & Hn & Hc) [Hs Hf] _ _ Hlinks Hnodes] Hsegs Hprops HF.
  destruct (hintedSegments g) as [|s rest] eqn:Hseg.
  2:{ rewrite Hd in Hsegs. apply Forall_app in Hsegs as [_ Hsegs]. apply Forall_cons in Hsegs as [[Hr _ _] _]. lia. }
  rewrite Hnext in Hsum. replace (Z.to_nat _) with (length l) in Hsum by lia. rewrite firstn_all in Hsum.
  assert (tracked_nodes F (LiveNodes m) = LiveNodes m) as Ht.
  { apply map_filter_id. intros f nd Hnd. left. apply HF. by eexists. }
  assert (tracked_links F (Links m) = Links m) as Htl.
  { apply map_filter_id. intros p f Hp. left. apply HF. apply (proj1 Hlinks) in Hp as (nd & Hnd & _). by eexists. }
  assert (filter (λ f, Z.of_nat (length l) < f) F = []) as HFe.
  { apply list_filter_none. intros f Hf' Hlt. apply HF in Hf' as [nd Hnd]. destruct (nd_range _ _ _ (Hnodes _ _ Hnd)). lia. }
  rewrite HFe in Vf. rewrite Ht in Vn. rewrite Htl in Vl. destruct g, m; cbn in *. subst. done.
Qed.

(** A player that is about to read it. *)
Lemma plays_begin log F H props l m nodes hprops :
  log ≠ "" → Log m = log → LiveLogSegments (BuildHints nodes hprops m) = Ret (inl (F, H)) →
  foldl (λ m '(p, c), <[p := c]> m) ∅ hprops = props → Forall (λ f, 0 < f) F → Forall (seg_in l) H →
  (∀ i x, l !! i = Some x → op_SeqNo (fst x) = Z.of_nat i + 1 ∧ op_Checksum (fst x) = chain (take i l)) →
  ∃ g, NewFSM (BuildHints nodes hprops m) = Ret (inl g) ∧ plays log F H props l [] (FSM_empty log) g.
Proof.
  intros Hlog Hlm HL Hprops HF Hsegs Hops. unfold NewFSM. cbn [BuildHints hi_Log]. rewrite Hlm.
  destruct (String.eqb_spec log "") as [|_]; [done|]. rewrite HL. cbn [outcome_bind BuildHints hi_Properties]. rewrite Hprops.
  assert (F = filter (λ f, 0 < f) F) as HFe.
  { symmetry. apply list_filter_all. by rewrite Forall_forall in HF. }
  destruct H as [|s H]; (eexists; split; [reflexivity|]); (split; [split|done|by exists []|..]); cbn; try done.
  - apply Forall_cons in Hsegs as [[Hr _ _] _]. lia.
  - apply Forall_cons in Hsegs as [[Hr _ Hf] _]. destruct (log_at l (FirstSeqNo s)) as [x Hx]; [lia|].
    rewrite (Hf x Hx). by destruct (Hops _ _ Hx).
Qed.

(** The log [l'] can be played against the hints of nodes [F] and segments [H]. *)
Record playable (F : list Z) (H : SegmentSet) (props : gmap string string) (l : list entry) : Prop := {
  pb_sorted : StronglySorted Z.lt F;
  pb_len : Z.of_nat (length l) < MaxInt64;
  pb_ops i x : l !! i = Some x → op_SeqNo (fst x) = Z.of_nat i + 1 ∧ op_Checksum (fst x) = chain (take i l);
  pb_set : SegmentSet_inv H;
  pb_segs : Forall (seg_in l) H;
  pb_touch i x f : l !! i = Some x → touches (fst x) f → f ∈ F → within H (Z.of_nat i + 1);
  pb_create f x : f ∈ F → l !! Z.to_nat (f - 1) = Some x → op_Create (fst x) ≠ None;
  pb_sinks : Forall (λ x, no_sink props (fst x)) l;
  pb_gap : no_gap F H;
}.

(** The recorded log [l] leads to [m]; [l'] is the log as it is played. *)
Record recorded_log (log : string) (l l' : list entry) (m : FSM) : Prop := {
  rl_log : log ≠ "";
  rl_history : history (FSM_empty log) l = Some m;
  rl_ok : log_ok l;
  rl_len : Z.of_nat (length l) < MaxInt64;
  rl_same : Forall2 same_entry l l';
  rl_sinks : Forall (λ x, no_sink (Properties m) (fst x)) l;
  rl_gap : no_gap_after_nodes m;
}.

(** The hints of [m] prepare a player of [l']. *)
Lemma replay_setup log l l' m nodes props :
  recorded_log log l l' m → nodes ≡ₚ map_to_list (LiveNodes m) → props ≡ₚ map_to_list (Properties m) →
  ∃ F H g m', NewFSM (BuildHints nodes props m) = Ret (inl g) ∧ hintedSegments g = H ∧ Forall (seg_of l) H ∧
    playable F H (Properties m) l' ∧ plays log F H (Properties m) l' [] (FSM_empty log) g ∧
    history (FSM_empty log) l' = Some m' ∧ same_state m m' ∧ ∀ f, f ∈ F ↔ is_Some (LiveNodes m' !! f).
Proof.
  intros [Hlog Hh Hok Hlen Hsame Hsinks Hgap] Hnodes Hprops.
  pose proof (history_of_history log l m Hh Hlen) as Hof.
  destruct (history_same _ _ _ _ _ (reflexivity (FSM_empty log)) Hsame Hh) as (m' & Hh' & Hss).
  assert (length l = length l') as Hll by (by eapply Forall2_length).
  pose proof (history_of_history log l' m' Hh' ltac:(lia)) as Hof'.
  destruct (LiveLogSegments_of log l m nodes props Hof Hok Hlen Hnodes) as (F & H & HL & HFs & HF & [HHi HHo HHw]).
  assert (Forall (seg_in l') H) as Hsegs.
  { eapply Forall_impl; [exact HHo|]. intros s Hs. by apply (seg_of_same l l'). }
  assert (∀ f, f ∈ F ↔ is_Some (LiveNodes m' !! f)) as HF'.
  { intros f. rewrite HF. destruct Hss as [_ _ _ He].
    assert (is_Some ((erase_node <$> LiveNodes m) !! f) ↔ is_Some ((erase_node <$> LiveNodes m') !! f)) as Hi by (by rewrite He).
    by rewrite !lookup_fmap, !fmap_is_Some in Hi. }
  assert (∀ f, f ∈ F → ∃ nd, LiveNodes m !! f = Some nd ∧ node_of l f nd) as Hlive.
  { intros f [nd Hnd]%HF. exists nd. split; [done|]. by apply (hs_nodes _ _ _ Hof). }
  destruct (plays_begin log F H (Properties m) l' m nodes props Hlog (proj1 (hs_next _ _ _ Hof)) HL (hinted_properties m props Hprops)) as (g & Hg & Hp);
    [|done|apply Hof'|].
  { apply Forall_forall. intros f (nd & _ & Hnd)%Hlive. apply Hnd. }
  exists F, H, g, m'. split_and!; [done| |done| |done|done|done|done].
  { pose proof (pl_done _ _ _ _ _ _ _ _ Hp) as (d & Hd & Hdn). destruct d as [|s d]; [done|]. exfalso.
    apply Forall_cons in Hdn as [Hdn _]. rewrite Hd in Hsegs. apply Forall_cons in Hsegs as [[Hr _ _] _]. cbn in Hdn. lia. }
  split; [done|lia|apply Hof'|done|done| | | |].
  - intros i x f (y & Hy & Hxy)%(same_lookup l l' Hsame) Ht (nd & Hnd & Hno)%Hlive.
    apply HHw. exists f, nd. split; [done|]. apply (nd_touched _ _ _ Hno i y Hy). by apply (same_entry_touches y x).
  - intros f x (nd & Hnd & Hno)%Hlive (y & Hy & [_ _ (<- & _)])%(same_lookup l l' Hsame). by apply (nd_created _ _ _ Hno).
  - by apply (no_sink_same l l' Hsame).
  - intros n k Hn Hk Hw. apply HHw, (Hgap n k); [|done|by apply HHw]. intros f Hf. apply HF in Hf. rewrite Forall_forall in Hn. auto.
Qed.

Lemma FSM_empty_history log : history_of log [] (FSM_empty log).
Proof. apply history_of_history; [done|]. simpl. unfold MaxInt64. lia. Qed.

(** C32: playback rebuilds the state. Let a log lead an FSM to state [m] without error,
    with hints built of [m] in whatever order the maps are visited. An FSM made of the hints
    that plays the log, attempting every operation and skipping those that do not apply, reaches
    exactly the state that the played log leads to; this is [m] up to the offsets of segments,
    which a player knows and a recorder does not. The log is one that its authors wrote in
    turn; no path that is a property was created or linked; and from the creation of the
    last live node on, segments have no gap. *)
Theorem replay_rebuilds log l l' m nodes props :
  recorded_log log l l' m → nodes ≡ₚ map_to_list (LiveNodes m) → props ≡ₚ map_to_list (Properties m) →
  ∃ g m', NewFSM (BuildHints nodes props m) = Ret (inl g) ∧ play g l' = m' ∧
    history (FSM_empty log) l' = Some m' ∧ same_state m m'.
Proof.
  intros Hrl Hnodes Hprops.
  destruct (replay_setup log l l' m nodes props Hrl Hnodes Hprops) as (F & H & g & m' & Hg & _ & _ & Hpb & Hp & Hh' & Hss & HF).
  exists g, m'. split_and!; [done| |done|done]. destruct Hpb as [HFs Hl Hops HHi Hsegs Ht Hc Hsi Hga].
  pose proof (history_of_history log l' m' Hh' Hl) as Hof'. destruct Hss as [_ [Hpr _] _ _].
  eapply (plays_end log F H (Properties m) l' m'); [|done..].
  eapply (plays_all log F H (Properties m) HFs l') with (pre := []); [done..|apply FSM_empty_history|done|done|by rewrite Hpr].
Qed.

(** ** Concrete inputs *)

(** File operations of an author. *)
Inductive demo_action :=
| DCreate (path : string)
| DLink (fnode : Z) (path : string)
| DUnlink (fnode : Z) (path : string)
| DWrite (fnode : Z).

Definition demo_op (m : FSM) (author first last : Z) (a : demo_action) : RecordedOp :=
  mkOp (NextSeqNo m) (NextChecksum m) author first last
    (match a with DCreate p => Some p | _ => None end)
    (match a with DLink f p => Some (f, p) | _ => None end)
    (match a with DUnlink f p => Some (f, p) | _ => None end)
    (match a with DWrite f => Some (f, 0, 10) | _ => None end) None.

(** The log of the actions; the offsets of an operation are those of its index, if known. *)
Fixpoint demo_log (known : bool) (m : FSM) (l : list (Z * demo_action)) : list entry :=
  match l with
  | [] => []
  | (author, a) :: l =>
      let op := demo_op m author (if known then 10 * NextSeqNo m else 0) (if known then 10 * NextSeqNo m + 10 else 0) a in
      let frame := Z_le 8 (NextSeqNo m) in
      (op, frame) :: demo_log known (fst (FSM_Apply m op frame)) l
  end.

(** Author 2 takes over from author 1, whose second file it removes. *)
Definition demo_actions : list (Z * demo_action) :=
  [(1, DCreate "/a"); (1, DCreate "/b"); (1, DWrite 1); (2, DUnlink 2 "/b"); (2, DCreate "/c"); (2, DWrite 1)].
Definition demo_recorded : list entry := demo_log false (FSM_empty "log") demo_actions.
Definition demo_played : list entry := demo_log true (FSM_empty "log") demo_actions.

Definition demo_state : FSM := default (FSM_empty "") (history (FSM_empty "log") demo_recorded).

Lemma demo_live : LiveNodes demo_state =
  <[1 := mkNode {["/a"]} [mkSegment 1 1 0 0 3 0; mkSegment 2 6 0 (chain (take 5 demo_recorded)) 6 0]]>
    {[5 := mkNode {["/c"]} [mkSegment 2 5 0 (chain (take 4 demo_recorded)) 5 0]]}.
Proof. vm_compute. reflexivity. Qed.

(** Logs that recorders wrote: no offsets are known, and here authors are numbered in turn. *)
Lemma log_ok_recorded l :
  Forall (λ x, 0 < op_Author (fst x) ∧ op_FirstOffset (fst x) = 0 ∧ op_LastOffset (fst x) = 0) l →
  StronglySorted (λ x y, op_Author (fst x) ≤ op_Author (fst y)) l → log_ok l.
Proof.
  intros Hl Hs. rewrite Forall_forall in Hl.
  assert (∀ i x, l !! i = Some x → 0 < op_Author (fst x) ∧ op_FirstOffset (fst x) = 0 ∧ op_LastOffset (fst x) = 0) as Hx.
  { intros i x Hx. apply Hl. by eapply list_elem_of_lookup_2. }
  assert (∀ i j x y, (i ≤ j)%nat → l !! i = Some x → l !! j = Some y → op_Author (fst x) ≤ op_Author (fst y)) as Hle.
  { intros i j x y Hij Hi Hj. destruct (decide (i = j)) as [-> |]; [|by eapply (ssorted_lookup (λ x y : entry, op_Author (fst x) ≤ op_Author (fst y)) l i j); [|lia|..]].
    rewrite Hi in Hj. injection Hj as ->. done. }
  split.
  - intros i x Hi. destruct (Hx i x Hi). lia.
  - intros i j k x y z Hijk Hi Hj Hk Heq. pose proof (Hle i j x y ltac:(lia) Hi Hj). pose proof (Hle j k y z ltac:(lia) Hj Hk). lia.
  - intros i j x y Hij Hi Hj. destruct (Hx i x Hi), (Hx j y Hj). lia.
  - intros i j x y Hij Hi Hj. destruct (Hx j y Hj). lia.
  - intros i j x y Hi Hj _ _. destruct (Hx j y Hj). lia.
  - intros i x Hi. destruct (Hx i x Hi). lia.
Qed.

Lemma demo_no_gap : no_gap_after_nodes demo_state.
Proof.
  unfold no_gap_after_nodes, live_within. rewrite demo_live.
  generalize (chain (take 5 demo_recorded)), (chain (take 4 demo_recorded)). intros c5 c4 n k Hn Hk (f & nd & Hf & s & Hs & Hr).
  assert (5 < n) as H5 by (apply Hn; rewrite lookup_insert_ne, lookup_singleton_eq by done; by eexists).
  apply lookup_insert_Some in Hf as [[<- <-]|[_ [<- <-]%lookup_singleton_Some]]; cbn in Hs.
  - exists 1. eexists. rewrite lookup_insert_eq. split; [done|].
    apply elem_of_cons in Hs as [-> |Hs]; [cbn in Hr; lia|]. apply list_elem_of_singleton in Hs as ->.
    eexists. split; [right; left|]. cbn in *. lia.
  - apply list_elem_of_singleton in Hs as ->. cbn in Hr. lia.
Qed.

Lemma demo_same : Forall2 same_entry demo_recorded demo_played.
Proof. vm_compute. repeat constructor. Qed.

Lemma demo_log_ok : log_ok demo_recorded.
Proof. apply log_ok_recorded; [repeat constructor|repeat (constructor || (vm_compute; intros [=]))]. Qed.

Lemma replay_rebuilds_witness :
  ∃ g m', NewFSM (BuildHints (map_to_list (LiveNodes demo_state)) [] demo_state) = Ret (inl g) ∧
    play g demo_played = m' ∧ same_state demo_state m'.
Proof.
  destruct (replay_rebuilds "log" demo_recorded demo_played demo_state (map_to_list (LiveNodes demo_state)) [])
    as (g & m' & Hg & Hp & _ & Hs).
  - split.
    + done.
    + vm_compute. reflexivity.
    + exact demo_log_ok.
    + vm_compute. reflexivity.
    + exact demo_same.
    + repeat constructor; vm_compute; done.
    + exact demo_no_gap.
  - reflexivity.
  - vm_compute. reflexivity.
  - exists g, m'. split_and!; [exact Hg|exact Hp|exact Hs].
Defined.

Lemma FSM_empty_inv log : FSM_inv (FSM_empty log).
Proof.
  split; cbn; try done; [|split; constructor].
  split; [|done]. intros p f. split; [done|]. intros (nd & Hnd & _). done.
Qed.

Lemma FSM_Apply_correct_witness :
  FSM_inv (fst (FSM_Apply (FSM_empty "log") (demo_op (FSM_empty "log") 1 0 0 (DCreate "/a")) [])) ∧
  snd (FSM_Apply (FSM_empty "log") (demo_op (FSM_empty "log") 1 0 0 (DCreate "/a")) []) = None.
Proof.
  split; [|vm_compute; reflexivity].
  pose proof (FSM_Apply_correct (FSM_empty "log") (demo_op (FSM_empty "log") 1 0 0 (DCreate "/a")) []
    (FSM_empty_inv "log") eq_refl) as Hc.
  destruct (FSM_Apply _ _ _) as [m err]. exact (proj1 Hc).
Defined.

(** As [demo_actions], but the last live node is created before the gap. *)
Definition gap_actions (last : demo_action) : list (Z * demo_action) :=
  [(1, DCreate "/a"); (1, DCreate "/b"); (1, DWrite 1); (2, DUnlink 2 "/b"); (2, last)].
Definition gap_log (last : demo_action) : list entry := demo_log false (FSM_empty "log") (gap_actions last).

(** What a player makes of a log and the hints of its state. *)
Definition played_back (l : list entry) : option (FSM * FSM) :=
  match history (FSM_empty "log") l with
  | Some m =>
      match NewFSM (BuildHints (map_to_list (LiveNodes m)) (map_to_list (Properties m)) m) with
      | Ret (inl g) => Some (m, play g l)
      | _ => None
      end
  | None => None
  end.

(** Where segments have a gap after the creation of the last live node, playback does not
    rebuild the state. Once the hinted nodes are used up, a player tracks any node that is
    created, though segments are left and the node's removal is in the gap that is skipped:
    the removed file "/b" comes back; or, if "/b" is linked again, the link is refused and the
    hints are never used up, with which playback fails. Both logs are as recorders write them. *)
Theorem replay_resurrects :
  (log_ok (gap_log (DWrite 1)) ∧
   ∃ m g, played_back (gap_log (DWrite 1)) = Some (m, g) ∧
     Links m = {["/a" := 1]} ∧ hasRemainingHints g = false ∧ Links g = <["/b" := 2]> {["/a" := 1]}) ∧
  (log_ok (gap_log (DLink 1 "/b")) ∧
   ∃ m g, played_back (gap_log (DLink 1 "/b")) = Some (m, g) ∧
     Links m = <["/b" := 1]> {["/a" := 1]} ∧ hasRemainingHints g = true).
Proof.
  assert (∀ a, log_ok (gap_log a)) as Hok.
  { intros a. apply log_ok_recorded; [repeat constructor|repeat (constructor || (vm_compute; intros [=]))]. }
  split; (split; [apply Hok|]).
  - eexists _, _. split; [vm_compute; reflexivity|]. split_and!; vm_compute; reflexivity.
  - eexists _, _. split; [vm_compute; reflexivity|]. split_and!; vm_compute; reflexivity.
Qed.
