(* ===== verification/Recorder.v ===== *)
(** * The recorder of a recovery log (src/v2/pkg/recoverylog/recorder.go)

    A recorder turns changes of a file system into operations, writes them to the log and
    applies them to its FSM. The theorem: it refines a file system that maps paths to nodes,
    and what it writes is a history of the FSM. *)
From S2P Require Import Prelude Encoding Protocol Framing Segment Fsm.
Local Open Scope Z_scope.

Definition propertyFiles : gset string := {["/IDENTITY"]}.

(** [rec_out] is what was written to the log. *)
Record Recorder := mkRecorder {
  rec_fsm : FSM;
  rec_id : Z;
  rec_stripLen : nat;
  rec_writeHead : Z;
  rec_out : bytes;
}.

(** The barrier that a new recorder issues is its first transaction, which leaves the write head at zero. *)
Definition NewRecorder (fsm : FSM) (id : Z) (dir : string) : Recorder := mkRecorder fsm id (String.length (path_Clean dir)) 0 [].

(** The fields of an operation that the caller of [process] sets. *)
Definition newCreateOp (path : string) : RecordedOp := mkOp 0 0 0 0 0 (Some path) None None None None.
Definition newLinkOp (fnode : Z) (path : string) : RecordedOp := mkOp 0 0 0 0 0 None (Some (fnode, path)) None None None.
Definition newUnlinkOp (fnode : Z) (path : string) : RecordedOp := mkOp 0 0 0 0 0 None None (Some (fnode, path)) None None.
Definition newWriteOp (fnode offset length : Z) : RecordedOp := mkOp 0 0 0 0 0 None None None (Some (fnode, offset, length)) None.
Definition newPropertyOp (path content : string) : RecordedOp := mkOp 0 0 0 0 0 None None None None (Some (path, content)).

Definition with_meta (op : RecordedOp) (author seqNo checksum firstOffset : Z) : RecordedOp :=
  mkOp seqNo checksum author firstOffset (op_LastOffset op)
    (op_Create op) (op_Link op) (op_Unlink op) (op_Write op) (op_Property op).

Definition string_drop (n : nat) (s : string) : string := String.substring n (String.length s - n) s.

Definition normalizePath (r : Recorder) (fpath : string) : outcome string :=
  if (String.length fpath <? rec_stripLen r)%nat then Panic "slice bounds out of range"
  else Ret (path_Clean (string_drop (rec_stripLen r) fpath)).

(** Start of a transaction. [recent] is what the recent one tells: nothing while it is not
    done, or an error, or the end of its commit. *)
Definition lockAndBeginTxn (r : Recorder) (recent : option (option Z)) : outcome Recorder :=
  match recent with
  | None | Some None => Ret r
  | Some (Some end_) =>
      if end_ <? rec_writeHead r then Panic "invalid writeHead at lockAndBeginTxn"
      else Ret (mkRecorder (rec_fsm r) (rec_id r) (rec_stripLen r) end_ (rec_out r))
  end.

Section recorder.
(** The generated marshaling of operations. *)
Context (MarshalOp : RecordedOp → bytes + string).

Definition process (r : Recorder) (op : RecordedOp) : outcome Recorder :=
  let op := with_meta op (rec_id r) (NextSeqNo (rec_fsm r)) (NextChecksum (rec_fsm r)) 0 in
  match Encode MarshalOp op [] with
  | inr _ => Panic "fixed-framing encode failed"
  | inl buf =>
      let op := with_meta op (op_Author op) (op_SeqNo op) (op_Checksum op) (rec_writeHead r) in
      match FSM_Apply (rec_fsm r) op (drop FixedFrameHeaderLength buf) with
      | (fsm, None) => Ret (mkRecorder fsm (rec_id r) (rec_stripLen r) (rec_writeHead r) (rec_out r ++ buf))
      | (_, Some _) => Panic "recorder FSM error"
      end
  end.

Definition process_if (r : Recorder) (op : option RecordedOp) : outcome Recorder :=
  match op with Some op => process r op | None => Ret r end.

(** Also the node of the FileRecorder it returns. *)
Definition RecordCreate (r : Recorder) (recent : option (option Z)) (path : string) : outcome (Recorder * Z) :=
  let! path := normalizePath r path in
  if bool_decide (path ∈ propertyFiles) then Panic "unexpected open of property path"
  else
    let! r := lockAndBeginTxn r recent in
    let! r := process_if r ((λ prev, newUnlinkOp prev path) <$> Links (rec_fsm r) !! path) in
    let! r := process r (newCreateOp path) in
    Ret (r, default 0 (Links (rec_fsm r) !! path)).

Definition RecordRemove (r : Recorder) (recent : option (option Z)) (path : string) : outcome Recorder :=
  let! path := normalizePath r path in
  if bool_decide (path ∈ propertyFiles) then Panic "unexpected delete of property path"
  else
    let! r := lockAndBeginTxn r recent in
    match Links (rec_fsm r) !! path with
    | None => Panic "delete of unknown path"
    | Some fnode => process r (newUnlinkOp fnode path)
    end.

Definition RecordLink (r : Recorder) (recent : option (option Z)) (src target : string) : outcome Recorder :=
  let! src := normalizePath r src in
  let! target := normalizePath r target in
  if bool_decide (target ∈ propertyFiles) then Panic "unexpected link of property path"
  else
    let! r := lockAndBeginTxn r recent in
    match Links (rec_fsm r) !! src with
    | None => Panic "link of unknown path"
    | Some fnode => process r (newLinkOp fnode target)
    end.

(** [content] is what [ioutil.ReadFile] reads of the original target. *)
Definition RecordRename (r : Recorder) (recent : option (option Z)) (src target : string) (content : string + string)
    : outcome Recorder :=
  let! src := normalizePath r src in
  let! target := normalizePath r target in
  let! r := lockAndBeginTxn r recent in
  match Links (rec_fsm r) !! src with
  | None => Panic "rename of unknown path"
  | Some fnode =>
      let! r := process_if r ((λ prev, newUnlinkOp prev target) <$> Links (rec_fsm r) !! target) in
      let! r :=
        if bool_decide (target ∈ propertyFiles) then
          match content with
          | inr _ => Panic "reading file"
          | inl content => process r (newPropertyOp target content)
          end
        else process r (newLinkOp fnode target) in
      process r (newUnlinkOp fnode src)
  end.

(** A FileRecorder: its recorder, node and offset. *)
Record FileRecorder := mkFileRecorder { fr_Recorder : Recorder; fr_fnode : Z; fr_offset : Z }.

Definition frameAppend (f : FileRecorder) (b : bytes) : outcome FileRecorder :=
  let l := Z.of_nat (length b) in
  let! r := process (fr_Recorder f) (newWriteOp (fr_fnode f) (fr_offset f) l) in
  Ret (mkFileRecorder (mkRecorder (rec_fsm r) (rec_id r) (rec_stripLen r) (rec_writeHead r) (rec_out r ++ b))
         (fr_fnode f) (int64 (fr_offset f + l))).

Definition RecordWrite (f : FileRecorder) (recent : option (option Z)) (data : bytes) : outcome FileRecorder :=
  let! r := lockAndBeginTxn (fr_Recorder f) recent in
  frameAppend (mkFileRecorder r (fr_fnode f) (fr_offset f)) data.
End recorder.

(** ** The file system a recorder observes *)

(** An operation on a file system. *)
Inductive fs_op :=
| FsCreate (path : string)
| FsRemove (path : string)
| FsLink (src target : string)
| FsRename (src target : string).

(** The operation with its paths mapped. *)
Definition fs_map (f : string → string) (o : fs_op) : fs_op :=
  match o with
  | FsCreate p => FsCreate (f p)
  | FsRemove p => FsRemove (f p)
  | FsLink s t => FsLink (f s) (f t)
  | FsRename s t => FsRename (f s) (f t)
  end.

(** The node of each path. [fresh] is the node of a file that is created; renaming to a property
    path removes the file, which is kept as a property. *)
Definition fs_apply (fs : gmap string Z) (fresh : Z) (o : fs_op) : gmap string Z :=
  match o with
  | FsCreate p => <[p := fresh]> fs
  | FsRemove p => delete p fs
  | FsLink s t => match fs !! s with Some f => <[t := f]> fs | None => fs end
  | FsRename s t =>
      match fs !! s with
      | Some f => if bool_decide (t ∈ propertyFiles) then delete s fs else <[t := f]> (delete s fs)
      | None => fs
      end
  end.

(** What a file system requires of an operation. *)
Definition fs_allowed (fs : gmap string Z) (props : gmap string string) (content : string) (o : fs_op) : Prop :=
  match o with
  | FsCreate p => p ∉ propertyFiles
  | FsRemove p => is_Some (fs !! p)
  | FsLink s t => is_Some (fs !! s) ∧ fs !! t = None ∧ t ∉ propertyFiles
  | FsRename s t => is_Some (fs !! s) ∧ s ≠ t ∧ (t ∈ propertyFiles → props !! t = None ∨ props !! t = Some content)
  end.

Section refinement.
Context (MarshalOp : RecordedOp → bytes + string) (Hmarshal : ∀ op, ∃ p, MarshalOp op = inl p).
(** The directory that the recorder was made with. *)
Context (dir : string).

(** The call for an operation. *)
Definition record_op (r : Recorder) (recent : option (option Z)) (content : string) (o : fs_op) : outcome Recorder :=
  match o with
  | FsCreate p => let! (r, _) := RecordCreate MarshalOp r recent p in Ret r
  | FsRemove p => RecordRemove MarshalOp r recent p
  | FsLink s t => RecordLink MarshalOp r recent s t
  | FsRename s t => RecordRename MarshalOp r recent s t (inl content)
  end.

(** A path within the directory, as the database names the file, and as it is recorded. *)
Definition path_in (p : string) : string := path_Clean dir ++ p.

Record rec_inv (r : Recorder) : Prop := {
  ri_fsm : FSM_inv (rec_fsm r);
  ri_hints : hintedSegments (rec_fsm r) = [] ∧ hintedFnodes (rec_fsm r) = [];
  ri_props p : is_Some (Properties (rec_fsm r) !! p) → p ∈ propertyFiles;
  ri_links p : p ∈ propertyFiles → Links (rec_fsm r) !! p = None;
  ri_strip : rec_stripLen r = String.length (path_Clean dir);
}.

(** The frame of an operation of the FSM: of the operation without the offset, which is not part of it. *)
Definition frame_of (x : entry) (b : bytes) : Prop :=
  let op := fst x in
  Encode MarshalOp (with_meta op (op_Author op) (op_SeqNo op) (op_Checksum op) 0) [] = inl b ∧ snd x = drop FixedFrameHeaderLength b.

(** [r'] is [r] after operations that its FSM applied, and whose frames it wrote, which are all that it wrote. *)
Definition recorded (n : nat) (r r' : Recorder) : Prop :=
  ∃ l, history (rec_fsm r) l = Some (rec_fsm r') ∧ (length l ≤ n)%nat ∧ Forall (λ x, op_Author (fst x) = rec_id r) l ∧ rec_id r' = rec_id r ∧
    ∃ frames, rec_out r' = rec_out r ++ concat frames ∧ Forall2 frame_of l frames.

Lemma recorded_refl r : recorded 0 r r.
Proof. exists []. split_and!; [done..|]. exists []. by rewrite app_nil_r. Qed.

Lemma recorded_trans n k r1 r2 r3 : recorded n r1 r2 → recorded k r2 r3 → recorded (n + k) r1 r3.
Proof.
  intros (l1 & H1 & Hn & Ha1 & Hi1 & f1 & Ho1 & HF1) (l2 & H2 & Hk & Ha2 & Hi2 & f2 & Ho2 & HF2). exists (l1 ++ l2).
  rewrite history_app, H1, length_app. rewrite Hi1 in Ha2, Hi2. split_and!; [done|lia|by apply Forall_app|done|]. exists (f1 ++ f2).
  rewrite Ho2, Ho1, concat_app, app_assoc. split; [done|]. by apply Forall2_app.
Qed.

Lemma recorded_weaken n k r r' : recorded n r r' → (n ≤ k)%nat → recorded k r r'.
Proof. intros (l & H & Hn & Hl) Hle. exists l. split; [done|]. split; [lia|done]. Qed.

(** One operation. *)
Lemma process_ok r op m1 :
  rec_inv r → NextSeqNo (rec_fsm r) < MaxInt64 →
  body_ok (rec_fsm r) (with_meta op (rec_id r) (NextSeqNo (rec_fsm r)) (NextChecksum (rec_fsm r)) (rec_writeHead r)) m1 →
  (∀ p, is_Some (Properties m1 !! p) → p ∈ propertyFiles) → (∀ p, p ∈ propertyFiles → Links m1 !! p = None) →
  ∃ r', process MarshalOp r op = Ret r' ∧ rec_inv r' ∧ recorded 1 r r' ∧
    LiveNodes (rec_fsm r') = LiveNodes m1 ∧ Links (rec_fsm r') = Links m1 ∧ Properties (rec_fsm r') = Properties m1 ∧
    NextSeqNo (rec_fsm r') = NextSeqNo (rec_fsm r) + 1.
Proof.
  intros [Hf [Hs Hfn] Hp Hl Hst] Hmax Hb Hp1 Hl1. unfold process.
  set (op0 := with_meta op _ _ _ 0). destruct (Hmarshal op0) as [payload Hpay].
  assert (∃ buf, Encode MarshalOp op0 [] = inl buf) as [buf Hbuf] by (unfold Encode; rewrite Hpay; by eexists). rewrite Hbuf. cbn [op_Author op_SeqNo op_Checksum op0 with_meta].
  set (op1 := with_meta op0 _ _ _ _). assert (op1 = with_meta op (rec_id r) (NextSeqNo (rec_fsm r)) (NextChecksum (rec_fsm r)) (rec_writeHead r)) as Hop1 by done.
  rewrite <- Hop1 in Hb. set (frame := drop FixedFrameHeaderLength buf).
  assert (FSM_Apply (rec_fsm r) op1 frame = (fsm_step m1 frame, None)) as Happ.
  { apply FSM_Apply_ok; [by intros s l; rewrite Hs|done|done|by left|by apply body_ok_apply]. }
  rewrite Happ. pose proof (body_ok_frame _ _ _ Hb) as (_ & Hn1 & _ & Hs1). pose proof (body_ok_no_hints _ _ _ Hb Hfn) as Hfn1.
  assert (FSM_inv (fsm_step m1 frame)) as Hinv1.
  { pose proof Hf as [Hpos Hlk Hlive Hpr Hhi _].
    assert (LiveNodes (rec_fsm r) !! op_SeqNo op1 = None) as Hfresh.
    { destruct (LiveNodes (rec_fsm r) !! op_SeqNo op1) eqn:E; [|done]. apply Hlive in E. cbn in E. lia. }
    destruct (body_ok_links _ _ _ Hb Hlk Hfresh) as [Hlk1 Hdom]. pose proof (body_ok_props _ _ _ Hb Hpr) as Hpr1.
    apply fsm_step_inv; rewrite ?Hn1, ?Hs1, ?Hs; [done|done| |done|split; constructor|done].
    intros f nd Hnd. destruct (Hdom f) as [-> |[nd' Hnd']]; [by eexists|cbn; lia|]. apply Hlive in Hnd'. lia. }
  pose proof (fsm_step_frame m1 frame ltac:(congruence)) as Hstep.
  eexists. split; [reflexivity|]. cbn [rec_fsm].
  split_and!; try (by rewrite Hstep).
  - split; cbn [rec_fsm rec_stripLen]; [done|by rewrite Hstep|by rewrite Hstep|by rewrite Hstep|done].
  - exists [(op1, frame)]. cbn [history rec_fsm rec_out length]. rewrite Happ. split_and!; [done|lia|by repeat constructor|done|].
    exists [buf]. cbn [concat]. rewrite app_nil_r. split; [done|]. constructor; [|constructor]. by split.
  - rewrite Hstep. cbn. rewrite Hn1. destruct Hf. apply int64_id. unfold is_int64, MinInt64, MaxInt64 in *. lia.
Qed.

Lemma link_live m p f : links_ok (LiveNodes m) (Links m) → Links m !! p = Some f →
  ∃ nd, LiveNodes m !! f = Some nd ∧ p ∈ fn_Links nd.
Proof. intros [Hl _] Hp. by apply Hl. Qed.

(** An operation that leads to the links [links], from a state in the middle of a call. *)
Definition does (r : Recorder) (op : RecordedOp) (links : gmap string Z) : Prop :=
  ∃ r', process MarshalOp r op = Ret r' ∧ rec_inv r' ∧ recorded 1 r r' ∧ Links (rec_fsm r') = links ∧
    NextSeqNo (rec_fsm r') = NextSeqNo (rec_fsm r) + 1.

Lemma process_unlink r p f :
  rec_inv r → NextSeqNo (rec_fsm r) < MaxInt64 → Links (rec_fsm r) !! p = Some f →
  does r (newUnlinkOp f p) (delete p (Links (rec_fsm r))) ∧
  (∀ r', process MarshalOp r (newUnlinkOp f p) = Ret r' → Properties (rec_fsm r') = Properties (rec_fsm r)).
Proof.
  intros Hr Hmax Hp. pose proof Hr as [Hf [Hs Hfn] Hpr Hl _].
  destruct (link_live _ _ _ (inv_links _ Hf) Hp) as (nd & Hnd & Hin).
  edestruct (process_ok r (newUnlinkOp f p)) as (r' & Hproc & Hr' & Hrec & _ & Hlk & Hpp & Hn);
    [done|done|eapply ok_unlink; [split; [done|by rewrite Hfn]|done|done|done|done]|cbn; eauto| |].
  { cbn. intros q Hq. rewrite lookup_delete_None. auto. }
  split; [by exists r'|]. intros r'' Hr''. rewrite Hproc in Hr''. by injection Hr'' as <-.
Qed.

Lemma process_link r p f :
  rec_inv r → NextSeqNo (rec_fsm r) < MaxInt64 → is_Some (LiveNodes (rec_fsm r) !! f) → Links (rec_fsm r) !! p = None →
  p ∉ propertyFiles → does r (newLinkOp f p) (<[p := f]> (Links (rec_fsm r))).
Proof.
  intros Hr Hmax [nd Hnd] Hp Hnp. pose proof Hr as [Hf [Hs Hfn] Hpr Hl _].
  assert (Properties (rec_fsm r) !! p = None) as Hpn.
  { destruct (Properties (rec_fsm r) !! p) eqn:E; [|done]. destruct Hnp. apply Hpr. by eexists. }
  edestruct (process_ok r (newLinkOp f p)) as (r' & Hproc & Hr' & Hrec & _ & Hlk & _ & Hn);
    [done|done|eapply ok_link; [split; [done|by rewrite Hfn]|done|done|done|done]|cbn; eauto| |by exists r'].
  cbn. intros q Hq. rewrite lookup_insert_ne by (by intros ->). auto.
Qed.

Lemma process_create r p :
  rec_inv r → NextSeqNo (rec_fsm r) < MaxInt64 → Links (rec_fsm r) !! p = None → p ∉ propertyFiles →
  does r (newCreateOp p) (<[p := NextSeqNo (rec_fsm r)]> (Links (rec_fsm r))).
Proof.
  intros Hr Hmax Hp Hnp. pose proof Hr as [Hf [Hs Hfn] Hpr Hl _].
  assert (Properties (rec_fsm r) !! p = None) as Hpn.
  { destruct (Properties (rec_fsm r) !! p) eqn:E; [|done]. destruct Hnp. apply Hpr. by eexists. }
  edestruct (process_ok r (newCreateOp p)) as (r' & Hproc & Hr' & Hrec & _ & Hlk & _ & Hn);
    [done|done|eapply (ok_create _ _ p []); [done|done|done|by left]|cbn; eauto| |by exists r'].
  cbn. intros q Hq. rewrite lookup_insert_ne by (by intros ->). auto.
Qed.

Lemma process_property r p c :
  rec_inv r → NextSeqNo (rec_fsm r) < MaxInt64 → p ∈ propertyFiles →
  Properties (rec_fsm r) !! p = None ∨ Properties (rec_fsm r) !! p = Some c →
  does r (newPropertyOp p c) (Links (rec_fsm r)).
Proof.
  intros Hr Hmax Hin Hp. pose proof Hr as [Hf [Hs Hfn] Hpr Hl _].
  edestruct (process_ok r (newPropertyOp p c)) as (r' & Hproc & Hr' & Hrec & _ & Hlk & _ & Hn);
    [done|done|eapply ok_property; [split; [done|by rewrite Hfn]|done|done|done|done|by apply Hl|done]| |done|by exists r'].
  cbn. intros q [<-|[_ Hq]]%lookup_insert_is_Some; [done|auto].
Qed.

Lemma substring_all s : String.substring 0 (String.length s) s = s.
Proof. induction s as [|a s IH]; cbn; [done|]. by rewrite IH. Qed.

Lemma length_append (d q : string) : String.length (d ++ q) = (String.length d + String.length q)%nat.
Proof. induction d as [|a d IH]; [done|]. change (S (String.length (d ++ q)) = S (String.length d + String.length q)). by rewrite IH. Qed.

Lemma substring_skip (d q : string) : String.substring (String.length d) (String.length q) (d ++ q) = q.
Proof. induction d as [|a d IH]; [apply substring_all|exact IH]. Qed.

Lemma normalizePath_ok r p : rec_stripLen r = String.length (path_Clean dir) → normalizePath r (path_in p) = Ret (path_Clean p).
Proof.
  intros Hs. unfold normalizePath, path_in. rewrite Hs, length_append. destruct (Nat.ltb_spec (String.length (path_Clean dir) + String.length p) (String.length (path_Clean dir))); [lia|].
  unfold string_drop. rewrite length_append. replace (_ + _ - _)%nat with (String.length p) by lia. by rewrite substring_skip.
Qed.

Lemma lock_ok r recent :
  rec_inv r → (∀ end_, recent = Some (Some end_) → rec_writeHead r ≤ end_) →
  ∃ r0, lockAndBeginTxn r recent = Ret r0 ∧ rec_fsm r0 = rec_fsm r ∧ rec_inv r0 ∧ recorded 0 r r0.
Proof.
  intros Hr Hrec. destruct recent as [[end_|]|]; cbn; [|exists r; split_and!; [done..|apply recorded_refl]..].
  specialize (Hrec end_ eq_refl). destruct (Z.ltb_spec end_ (rec_writeHead r)); [lia|].
  eexists. split; [reflexivity|]. split_and!; [done| |].
  - by destruct Hr.
  - exists []. split_and!; [done..|]. exists []. cbn. by rewrite app_nil_r.
Qed.

(** The unlink of a path that may exist. *)
Lemma process_if_unlink r p :
  rec_inv r → NextSeqNo (rec_fsm r) < MaxInt64 →
  ∃ r', process_if MarshalOp r ((λ f, newUnlinkOp f p) <$> Links (rec_fsm r) !! p) = Ret r' ∧ rec_inv r' ∧ recorded 1 r r' ∧
    Links (rec_fsm r') = delete p (Links (rec_fsm r)) ∧ Properties (rec_fsm r') = Properties (rec_fsm r) ∧
    NextSeqNo (rec_fsm r) ≤ NextSeqNo (rec_fsm r') ≤ NextSeqNo (rec_fsm r) + 1.
Proof.
  intros Hr Hmax. destruct (Links (rec_fsm r) !! p) as [f|] eqn:Hp; cbn [fmap option_fmap option_map process_if].
  - destruct (process_unlink r p f Hr Hmax Hp) as [(r' & Hproc & ? & ? & ? & Hn) Hpr].
    exists r'. split_and!; try done; [by apply Hpr|lia|lia].
  - exists r. rewrite delete_id by done. split_and!; try done; [|lia].
    by eapply recorded_weaken; [apply recorded_refl|lia].
Qed.

Lemma RecordRename_ok r recent content s0 t0 r0 f :
  let s := path_Clean s0 in let t := path_Clean t0 in
  lockAndBeginTxn r recent = Ret r0 → rec_stripLen r = String.length (path_Clean dir) →
  rec_inv r0 → NextSeqNo (rec_fsm r0) + 2 < MaxInt64 → Links (rec_fsm r0) !! s = Some f → s ≠ t →
  (t ∈ propertyFiles → Properties (rec_fsm r0) !! t = None ∨ Properties (rec_fsm r0) !! t = Some content) →
  ∃ r3, RecordRename MarshalOp r recent (path_in s0) (path_in t0) (inl content) = Ret r3 ∧ rec_inv r3 ∧ recorded 3 r0 r3 ∧
    Links (rec_fsm r3) = (if bool_decide (t ∈ propertyFiles) then delete s (Links (rec_fsm r0)) else <[t := f]> (delete s (Links (rec_fsm r0)))) ∧
    NextSeqNo (rec_fsm r0) < NextSeqNo (rec_fsm r3).
Proof.
  intros s t Hlock Hst Hr0 Hmax Hsf Hne Hprop. unfold RecordRename.
  rewrite !(normalizePath_ok r) by done. fold s t. cbn [outcome_bind]. rewrite Hlock. cbn [outcome_bind]. rewrite Hsf.
  destruct (process_if_unlink r0 t Hr0 ltac:(lia)) as (r1 & -> & Hr1 & Hrc1 & Hl1 & Hp1 & Hn1). cbn [outcome_bind].
  assert (Links (rec_fsm r1) !! s = Some f) as Hsf1 by (rewrite Hl1, lookup_delete_ne; congruence).
  assert (∃ r2, (if bool_decide (t ∈ propertyFiles) then process MarshalOp r1 (newPropertyOp t content) else process MarshalOp r1 (newLinkOp f t)) = Ret r2 ∧
    rec_inv r2 ∧ recorded 1 r1 r2 ∧ Links (rec_fsm r2) = (if bool_decide (t ∈ propertyFiles) then Links (rec_fsm r0) else <[t := f]> (Links (rec_fsm r0))) ∧
    NextSeqNo (rec_fsm r2) = NextSeqNo (rec_fsm r1) + 1) as (r2 & -> & Hr2 & Hrc2 & Hl2 & Hn2).
  { case_bool_decide as Hin.
    - destruct (process_property r1 t content Hr1 ltac:(lia) Hin) as (r2 & ? & ? & ? & Hl2 & ?); [rewrite Hp1; auto|].
      exists r2. split_and!; try done. rewrite Hl2, Hl1. apply delete_id. by apply Hr0.
    - destruct (link_live _ _ _ (inv_links _ (ri_fsm _ Hr1)) Hsf1) as (nd & Hnd & _).
      destruct (process_link r1 t f Hr1 ltac:(lia)) as (r2 & ? & ? & ? & Hl2 & ?); [by eexists|by rewrite Hl1, lookup_delete_eq|done|].
      exists r2. split_and!; try done. by rewrite Hl2, Hl1, insert_delete_eq. }
  cbn [outcome_bind].
  destruct (process_unlink r2 s f Hr2 ltac:(lia)) as [(r3 & Hproc & Hr3 & Hrc3 & Hl3 & Hn3) _].
  { rewrite Hl2. case_bool_decide; [done|]. by rewrite lookup_insert_ne. }
  exists r3. split_and!; [done|done| | |lia].
  - apply (recorded_trans 1 2 r0 r1 r3); [done|]. by apply (recorded_trans 1 1 r1 r2 r3).
  - rewrite Hl3, Hl2. case_bool_decide; [done|]. by rewrite delete_insert_ne.
Qed.

(** C35: The recorder refines a file system that maps paths to nodes. Let a database use files by paths in the directory that the recorder was made
    with, spelled in any way that cleans to the same path in it. For an operation that the file system allows, the call does not panic, and the links of the FSM become those of the file
    system after the operation (a file that is created has a node never used before). What is written to the log is the frames of operations of this author, and nothing else; and these
    are what the FSM applied, in order and without error. Operations are marshaled without error, sequence numbers do not overflow, and
    the end of the recent transaction, if it is done, is not before the write head. This holds of a new recorder ([NewRecorder_inv]) whose
    FSM expects no more of hints, has properties of property files only and links none of these, and after each call. *)
Theorem recorder_refines r recent content o : let o' := fs_map path_Clean o in
  rec_inv r → NextSeqNo (rec_fsm r) + 3 < MaxInt64 →
  fs_allowed (Links (rec_fsm r)) (Properties (rec_fsm r)) content o' →
  (∀ end_, recent = Some (Some end_) → rec_writeHead r ≤ end_) →
  ∃ r' fresh, record_op r recent content (fs_map path_in o) = Ret r' ∧ rec_inv r' ∧
    NextSeqNo (rec_fsm r) ≤ fresh < NextSeqNo (rec_fsm r') ∧
    Links (rec_fsm r') = fs_apply (Links (rec_fsm r)) fresh o' ∧ recorded 3 r r'.
Proof.
  intros o' Hr Hmax Hall Hrec. destruct (lock_ok r recent Hr Hrec) as (r0 & Hlock & Hf0 & Hr0 & Hrec0).
  pose proof (ri_strip _ Hr) as Hst. unfold o' in *.
  assert (∀ n r', recorded n r0 r' → (n ≤ 3)%nat → recorded 3 r r') as Hfin.
  { intros n r' Hn Hle. eapply recorded_weaken; [exact (recorded_trans _ _ _ _ _ Hrec0 Hn)|lia]. }
  rewrite <- Hf0 in *. destruct o as [p|p|s t|s t]; cbn [fs_map record_op fs_apply fs_allowed] in *.
  - unfold RecordCreate. rewrite normalizePath_ok by done. cbn [outcome_bind]. set (q := path_Clean p) in *.
    rewrite bool_decide_eq_false_2 by done. rewrite Hlock. cbn [outcome_bind].
    destruct (process_if_unlink r0 q Hr0 ltac:(lia)) as (r1 & -> & Hr1 & Hrc1 & Hl1 & _ & Hn1). cbn [outcome_bind].
    destruct (process_create r1 q Hr1 ltac:(lia)) as (r2 & -> & Hr2 & Hrc2 & Hl2 & Hn2); [by rewrite Hl1, lookup_delete_eq|done|].
    cbn [outcome_bind]. exists r2, (NextSeqNo (rec_fsm r1)). split_and!; [done|done|lia|lia|by rewrite Hl2, Hl1, insert_delete_eq|].
    eapply (Hfin 2%nat); [|lia]. by apply (recorded_trans 1 1 r0 r1 r2).
  - unfold RecordRemove. rewrite normalizePath_ok by done. cbn [outcome_bind]. set (q := path_Clean p) in *. destruct Hall as [f Hp].
    rewrite bool_decide_eq_false_2 by (intros Hin; pose proof (ri_links _ Hr0 q Hin); congruence).
    rewrite Hlock. cbn [outcome_bind]. rewrite Hp.
    destruct (process_unlink r0 q f Hr0 ltac:(lia) Hp) as [(r1 & Hproc & Hr1 & Hrc1 & Hl1 & Hn1) _].
    exists r1, (NextSeqNo (rec_fsm r0)). split_and!; [done|done|lia|lia|done|]. by eapply (Hfin 1%nat); [|lia].
  - unfold RecordLink. rewrite !(normalizePath_ok r) by done. cbn [outcome_bind]. set (s' := path_Clean s) in *. set (t' := path_Clean t) in *.
    destruct Hall as ([f Hsf] & Htn & Htp). rewrite bool_decide_eq_false_2 by done. rewrite Hlock. cbn [outcome_bind]. rewrite Hsf.
    destruct (link_live _ _ _ (inv_links _ (ri_fsm _ Hr0)) Hsf) as (nd & Hnd & _).
    destruct (process_link r0 t' f Hr0 ltac:(lia)) as (r1 & Hproc & Hr1 & Hrc1 & Hl1 & Hn1); [by eexists|done|done|].
    exists r1, (NextSeqNo (rec_fsm r0)). split_and!; [done|done|lia|lia|done|]. by eapply (Hfin 1%nat); [|lia].
  - destruct Hall as ([f Hsf] & Hne & Hprop).
    destruct (RecordRename_ok r recent content s t r0 f) as (r3 & Hren & Hr3 & Hrc3 & Hl3 & Hn3); [done..|lia|done|done|done|].
    exists r3, (NextSeqNo (rec_fsm r0)). rewrite Hsf. split_and!; [done|done|lia|lia|done|]. by eapply (Hfin 3%nat); [|lia].
Qed.

(** A new recorder, of an FSM that expects no more of its log. *)
Lemma NewRecorder_inv fsm id :
  FSM_inv fsm → hintedSegments fsm = [] → hintedFnodes fsm = [] → (∀ p, is_Some (Properties fsm !! p) → p ∈ propertyFiles) →
  (∀ p, p ∈ propertyFiles → Links fsm !! p = None) → rec_inv (NewRecorder fsm id dir).
Proof. intros. by split. Qed.
End refinement.

(** ** Concrete inputs *)

Definition demo_marshal_op (op : RecordedOp) : bytes + string := inl (Z_le 8 (op_SeqNo op)).
Definition demo_recorder : Recorder := NewRecorder (FSM_empty "log") 1 "/tmp/db/".

Lemma demo_recorder_inv : rec_inv "/tmp/db/" demo_recorder.
Proof. apply NewRecorder_inv; [apply FSM_empty_inv|done|done| |done]. intros p [c Hc]. change ((∅ : gmap string string) !! p = Some c) in Hc. by rewrite lookup_empty in Hc. Qed.

Lemma recorder_refines_witness :
  ∃ r' fresh, record_op demo_marshal_op demo_recorder (Some (Some 7)) "" (FsCreate "/tmp/db//sub/../a") = Ret r' ∧
    Links (rec_fsm r') = <["/a" := fresh]> ∅.
Proof.
  destruct (recorder_refines demo_marshal_op (λ op, ex_intro _ _ eq_refl) "/tmp/db/" demo_recorder (Some (Some 7)) "" (FsCreate "//sub/../a"))
    as (r' & fresh & Hr & _ & _ & Hl & _).
  - exact demo_recorder_inv.
  - reflexivity.
  - cbn. unfold propertyFiles. rewrite elem_of_singleton. done.
  - intros e [= <-]. vm_compute. done.
  - exists r', fresh. split; [exact Hr|exact Hl].
Defined.
