(* ===== verification/LocalFS.v ===== *)
(** * Local files, as playback uses them (packages os and path/filepath)

    Directories and files below a root, by the components of their paths; files are inodes, which
    several paths may link to and an open file refers to. Any call can fail, as the list of
    faults of a file system says: then it has no effect, but for a write, which may be partial. *)
From Stdlib Require Import Ascii.
From S2P Require Import Prelude Encoding Protocol Framing.

(** Errors: of a reader, of a call, or one of these with the context of its callers. *)
Inductive error :=
| ErrRead (e : read_error)
| ErrMsg (msg : string)
| ErrWrap (msg : string) (e : error).

#[global] Instance error_eq_dec : EqDecision error.
Proof. solve_decision. Defined.

(** ** Paths *)

(** A clean, rooted path: its components. *)
Abbreviation path := (list (list ascii)).

Definition components (s : string) : path := split_on "/"%char [] (String.list_ascii_of_string s).

Definition filepath_Join (dir : path) (elem : string) : path :=
  rev (foldl (clean_step true) (rev dir) (components elem)).

Definition filepath_Dir (p : path) : path := take (length p - 1) p.

(** ** File systems *)

Inductive fs_node := NDir | NFile (ino : nat).

Record FS := mkFS {
  fs_nodes : gmap path fs_node;
  fs_data : gmap nat bytes;
  fs_next : nat;
  fs_faults : list (option (string * nat));
}.

(** An open file: its inode and position. *)
Record os_File := mkFile { f_ino : nat; f_pos : nat }.

(** Calls return a value or an error, and change the file system. *)
Definition os (A : Type) : Type := FS → FS * (A + error).

#[global] Instance os_ret : MRet os := λ A a w, (w, inl a).
#[global] Instance os_bind : MBind os := λ A B k m w,
  match m w with (w, inl a) => k a w | (w, inr e) => (w, inr e) end.

Definition os_fail {A} (e : error) : os A := λ w, (w, inr e).

Definition fs_with_nodes (w : FS) (nodes : gmap path fs_node) : FS := mkFS nodes (fs_data w) (fs_next w) (fs_faults w).
Definition fs_with_data (w : FS) (data : gmap nat bytes) : FS := mkFS (fs_nodes w) data (fs_next w) (fs_faults w).
Definition fs_with_faults (w : FS) faults : FS := mkFS (fs_nodes w) (fs_data w) (fs_next w) faults.

(** The next fault, if any. *)
Definition next_fault (w : FS) : FS * option (string * nat) :=
  match fs_faults w with
  | f :: l => (fs_with_faults w l, f)
  | [] => (w, None)
  end.

Definition syscall {A} (call : os A) : os A := λ w,
  match next_fault w with
  | (w, Some (msg, _)) => (w, inr (ErrMsg msg))
  | (w, None) => call w
  end.

Definition is_dir (w : FS) (p : path) : bool :=
  match p with [] => true | _ => match fs_nodes w !! p with Some NDir => true | _ => false end end.

(** [q] is below [p]. *)
Definition below (p q : path) : bool := bool_decide (take (length p) q = p) && (length p <? length q).

Definition RemoveAll (p : path) : os () := syscall (λ w,
  (fs_with_nodes w (filter (λ x, negb (bool_decide (fst x = p) || below p (fst x))) (fs_nodes w)), inl ())).

Fixpoint mkdirs (w : FS) (l : list path) : FS * (() + error) :=
  match l with
  | [] => (w, inl ())
  | p :: l =>
      match fs_nodes w !! p with
      | Some (NFile _) => (w, inr (ErrMsg "not a directory"))
      | _ => mkdirs (fs_with_nodes w (<[p := NDir]> (fs_nodes w))) l
      end
  end.

Definition prefixes (p : path) : list path := (λ n, take n p) <$> seq 1 (length p).

Definition MkdirAll (p : path) : os () := syscall (λ w, mkdirs w (prefixes p)).

(** With O_CREATE|O_EXCL: the file must not exist. *)
Definition OpenFile (p : path) : os os_File := syscall (λ w,
  match fs_nodes w !! p with
  | Some _ => (w, inr (ErrMsg "file exists"))
  | None =>
      if is_dir w (filepath_Dir p) then
        (mkFS (<[p := NFile (fs_next w)]> (fs_nodes w)) (<[fs_next w := []]> (fs_data w)) (S (fs_next w)) (fs_faults w),
         inl (mkFile (fs_next w) 0))
      else (w, inr (ErrMsg "no such file or directory"))
  end).

Definition Remove (p : path) : os () := syscall (λ w,
  match fs_nodes w !! p with
  | None => (w, inr (ErrMsg "no such file or directory"))
  | Some (NFile _) => (fs_with_nodes w (delete p (fs_nodes w)), inl ())
  | Some NDir =>
      if bool_decide (filter (λ x, below p (fst x)) (fs_nodes w) = ∅) then (fs_with_nodes w (delete p (fs_nodes w)), inl ())
      else (w, inr (ErrMsg "directory not empty"))
  end).

Definition Link (oldname newname : path) : os () := syscall (λ w,
  match fs_nodes w !! oldname with
  | None => (w, inr (ErrMsg "no such file or directory"))
  | Some NDir => (w, inr (ErrMsg "operation not permitted"))
  | Some (NFile ino) =>
      if bool_decide (is_Some (fs_nodes w !! newname)) then (w, inr (ErrMsg "file exists"))
      else if is_dir w (filepath_Dir newname) then (fs_with_nodes w (<[newname := NFile ino]> (fs_nodes w)), inl ())
      else (w, inr (ErrMsg "no such file or directory"))
  end).

(** Methods of a [*os.File], which may be nil. *)

Definition Close (file : option os_File) : os () :=
  match file with None => os_fail (ErrMsg "invalid argument") | Some _ => syscall (mret ()) end.

Definition Seek (file : option os_File) (offset : Z) : os os_File :=
  match file with
  | None => os_fail (ErrMsg "invalid argument")
  | Some f => syscall (if (offset <? 0)%Z then os_fail (ErrMsg "invalid argument") else mret (mkFile (f_ino f) (Z.to_nat offset)))
  end.

(** The content [c] with [b] written at [off]; a hole is filled with zeros. *)
Definition write_at (c : bytes) (off : nat) (b : bytes) : bytes :=
  match b with
  | [] => c
  | _ => take off (c ++ replicate (off - length c) Byte.x00) ++ b ++ drop (off + length b) c
  end.

(** How many bytes were written, and the error. *)
Definition file_Write (file : os_File) (b : bytes) (w : FS) : FS * os_File * nat * option error :=
  let '(w, fault) := next_fault w in
  let n := match fault with Some (_, n) => min n (length b) | None => length b end in
  let c := default [] (fs_data w !! f_ino file) in
  (fs_with_data w (<[f_ino file := write_at c (f_pos file) (take n b)]> (fs_data w)), mkFile (f_ino file) (f_pos file + n), n,
   match fault with Some (msg, _) => Some (ErrMsg msg) | None => None end).

(** The content of the file at a path. *)
Definition file_at (w : FS) (p : path) : option bytes :=
  match fs_nodes w !! p with Some (NFile ino) => fs_data w !! ino | _ => None end.

(** ** Sequences of calls *)

Lemma os_bind_ok {A B} (m : os A) (k : A → os B) w w' a : m w = (w', inl a) → (m ≫= k) w = k a w'.
Proof. intros Hm. unfold mbind, os_bind. by rewrite Hm. Qed.

Lemma os_bind_err {A B} (m : os A) (k : A → os B) w w' e : m w = (w', inr e) → (m ≫= k) w = (w', inr e).
Proof. intros Hm. unfold mbind, os_bind. by rewrite Hm. Qed.

Lemma syscall_ok {A} (call : os A) w : fs_faults w = [] → syscall call w = call w.
Proof. intros Hw. unfold syscall, next_fault. by rewrite Hw. Qed.

(** ** Writes *)

Lemma write_at_nil c off : write_at c off [] = c.
Proof. done. Qed.

Lemma write_at_length c off b : b ≠ [] → length (write_at c off b) = max (length c) (off + length b).
Proof.
  intros Hb. destruct b as [|x b]; [done|]. unfold write_at.
  rewrite !length_app, length_take, length_app, length_replicate, length_drop. lia.
Qed.

(** Consecutive writes are one. *)
Lemma write_at_app c off a b : write_at (write_at c off a) (off + length a) b = write_at c off (a ++ b).
Proof.
  destruct a as [|x a]; [simpl; by rewrite Nat.add_0_r|]. destruct b as [|y b]; [by rewrite app_nil_r|].
  pose proof (write_at_length c off (x :: a) ltac:(done)) as Hlen.
  unfold write_at at 1. replace (off + length (x :: a) - length (write_at c off (x :: a))) with 0 by lia.
  cbn [replicate]. rewrite app_nil_r. change ((x :: a) ++ y :: b) with (x :: (a ++ y :: b)). unfold write_at.
  set (h := take off _). set (d := drop (off + length (x :: a)) c).
  assert (length (h ++ x :: a) = off + length (x :: a)) as Hh.
  { unfold h. rewrite !length_app, length_take, length_app, length_replicate. lia. }
  replace (h ++ (x :: a) ++ d) with ((h ++ x :: a) ++ d) by (by rewrite <- app_assoc).
  rewrite take_app_length', drop_app_ge by (rewrite Hh; lia). rewrite Hh. unfold d. rewrite drop_drop.
  rewrite <- !app_assoc. cbn [app]. rewrite <- app_assoc. cbn [app]. do 6 f_equal. rewrite !length_cons, length_app, length_cons. lia.
Qed.

(** ** Paths of links *)

(** A component that [Clean] keeps. *)
Definition normal_comp (c : list ascii) : Prop :=
  c ≠ [] ∧ c ≠ ["."%char] ∧ c ≠ ["."%char; "."%char] ∧ "/"%char ∉ c.

#[global] Instance normal_comp_dec c : Decision (normal_comp c).
Proof. unfold normal_comp. apply _. Defined.

(** A rooted and clean path of a file: the form in which recorders write paths. *)
Definition link_ok (link : string) : Prop :=
  match components link with [] :: c :: cs => Forall normal_comp (c :: cs) | _ => False end.

#[global] Instance link_ok_dec link : Decision (link_ok link).
Proof. unfold link_ok. repeat case_match; apply _. Defined.

Definition link_comps (link : string) : path := tail (components link).

Lemma clean_step_normal stack c : normal_comp c → clean_step true stack c = c :: stack.
Proof.
  intros (H0 & H1 & H2 & _). unfold clean_step.
  repeat (case_match; subst; try done); exfalso; (by apply H1) || (by apply H2).
Qed.

Lemma clean_normal cs : ∀ stack, Forall normal_comp cs → foldl (clean_step true) stack cs = rev cs ++ stack.
Proof.
  induction cs as [|c cs IH]; intros stack Hcs; [done|]. apply Forall_cons in Hcs as [Hc Hcs].
  cbn [foldl rev]. rewrite clean_step_normal, IH by done. by rewrite <- app_assoc.
Qed.

Lemma link_comps_ok link : link_ok link →
  components link = [] :: link_comps link ∧ Forall normal_comp (link_comps link) ∧ link_comps link ≠ [].
Proof.
  unfold link_ok, link_comps. intros Hl. destruct (components link) as [|[|] [|c cs]]; try done.
Qed.

Lemma Join_link dir link : link_ok link → filepath_Join dir link = dir ++ link_comps link.
Proof.
  intros (Hc & Hn & _)%link_comps_ok. unfold filepath_Join. rewrite Hc. cbn [foldl clean_step].
  rewrite clean_normal by done. rewrite rev_app_distr, !rev_involutive. done.
Qed.

Lemma split_on_ne sep l : ∀ cur, split_on sep cur l ≠ [].
Proof. induction l as [|c l IH]; intros cur; cbn [split_on]; [done|]. case_match; [done|apply IH]. Qed.

(** The components determine the path. *)
Lemma split_on_join sep l : ∀ cur, join_with [sep] (split_on sep cur l) = rev cur ++ l.
Proof.
  induction l as [|c l IH]; intros cur; cbn [split_on]; [by cbn; rewrite app_nil_r|].
  destruct (Ascii.eqb_spec c sep) as [-> |Hne].
  - cbn [join_with]. destruct (split_on sep [] l) eqn:E; [by apply split_on_ne in E|].
    rewrite <- E, IH. done.
  - rewrite IH. cbn [rev]. by rewrite <- app_assoc.
Qed.

#[global] Instance components_inj : Inj (=) (=) components.
Proof.
  intros a b Hab. unfold components in Hab. apply (f_equal (join_with ["/"%char])) in Hab.
  rewrite !split_on_join in Hab. cbn [rev app] in Hab.
  rewrite <- (String.string_of_list_ascii_of_string a), <- (String.string_of_list_ascii_of_string b). by rewrite Hab.
Qed.

Lemma link_comps_inj a b : link_ok a → link_ok b → link_comps a = link_comps b → a = b.
Proof.
  intros (Ha & _)%link_comps_ok (Hb & _)%link_comps_ok Hab. apply (inj components). by rewrite Ha, Hb, Hab.
Qed.
