(* ===== verification/Playback.v ===== *)
(** * Playback of a recovery log (src/v2/pkg/recoverylog/playback.go)

    A player reads the operations of a log, applies them to an FSM made of hints, and reenacts
    those that apply on files of a staging directory; at the end it links the files to the paths
    they have in the FSM. What the player waits for (reads of the log, the signal to finish, the
    response to an append) comes from an environment, one step of which is an iteration. *)
From Stdlib Require Import Ascii.
From S2P Require Import Prelude Encoding Protocol Framing Segment Fsm LocalFS.
Local Open Scope Z_scope.

Definition ErrDesyncDetected : error := ErrMsg "detected de-synchronization".
Definition ErrOffsetNotYetAvailable : read_error := ReadError "OFFSET_NOT_YET_AVAILABLE".
Definition ErrOffsetJump : read_error := ReadError "offset jump".

Definition fnodeStagingDir : string := ".fnodes".

Definition extendErr (err : error) (msg : string) : error := ErrWrap msg err.

(** Open files of the nodes that are played back. *)
Abbreviation fnodeFileMap := (gmap Z os_File).

(** [dir] is a path of components already; the decimal name of a node is one. *)
Definition stagedPath (dir : path) (fnode : Z) : path :=
  dir ++ [String.list_ascii_of_string fnodeStagingDir; String.list_ascii_of_string (pretty fnode)].

Definition preparePlayback (dir : path) : os () :=
  RemoveAll dir;;
  MkdirAll (filepath_Join dir fnodeStagingDir).

(** Errors are logged only. *)
Definition cleanupOnAbort (dir : path) (files : list os_File) (w : FS) : FS :=
  let w := foldl (λ w file, fst (Close (Some file) w)) w files in
  fst (RemoveAll dir w).

(** ** One operation *)

Definition create (dir : path) (fnode : Z) (files : fnodeFileMap) : os fnodeFileMap :=
  file ← OpenFile (stagedPath dir fnode);
  mret (<[fnode := file]> files).

Definition unlink (dir : path) (fnode : Z) (fsm : FSM) (files : fnodeFileMap) : os fnodeFileMap :=
  if is_some (LiveNodes fsm !! fnode) then mret files
  else
    Close (files !! fnode);;
    Remove (stagedPath dir fnode);;
    mret (delete fnode files).

(** What [copyFixed] writes to: a file, or nothing. *)
Inductive writer := Discarding | Writing (file : os_File).

Definition writer_Write (out : writer) (b : bytes) (w : FS) : FS * writer * nat * option error :=
  match out with
  | Discarding => (w, out, length b, None)
  | Writing file => let '(w, file, n, err) := file_Write file b w in (w, Writing file, n, err)
  end.

(** The rounds of the loop: each writes a byte at least, or fails. *)
Fixpoint copy_loop (fuel : nat) (out : writer) (br : Reader) (length_ : Z) (w : FS)
    : outcome (FS * Reader * writer * option error) :=
  if length_ =? 0 then Ret (w, br, out, None)
  else
    match fuel with
    | O => Panic "not reached"
    | S fuel =>
        let '(br, _, err) := Peek br 1 in
        match err with
        | Some e => Ret (w, br, out, Some (extendErr (ErrRead e) "Peek"))
        | None =>
            let n := if length_ <? Z.of_nat (length (rd_buf br)) then length_ else Z.of_nat (length (rd_buf br)) in
            if n <? 0 then Panic "bufio: negative count"
            else
              let '(br, b, err) := Peek br (Z.to_nat n) in
              match err with
              | Some _ => Panic "Peek"
              | None =>
                  let '(w, out, n, err) := writer_Write out b w in
                  let br := Discard br n in
                  match err with
                  | Some e => Ret (w, br, out, Some e)
                  | None => copy_loop fuel out br (length_ - Z.of_nat n) w
                  end
              end
        end
    end.

Definition copyFixed (out : writer) (br : Reader) (length_ : Z) (w : FS)
    : outcome (FS * Reader * writer * option error) :=
  copy_loop (S (Z.to_nat length_)) out br length_ w.

(** [op] is the node, offset and length of a write. *)
Definition write (op : Z * Z * Z) (br : Reader) (files : fnodeFileMap) (w : FS)
    : outcome (FS * Reader * fnodeFileMap * option error) :=
  let '(fnode, offset, length_) := op in
  match Seek (files !! fnode) offset w with
  | (w, inr e) => Ret (w, br, files, Some e)
  | (w, inl file) =>
      let! (w, br, out, err) := copyFixed (Writing file) br length_ w in
      let files := match out with Writing file => <[fnode := file]> files | Discarding => files end in
      Ret (w, br, files, err)
  end.

(** What an operation has to do with: the reader, the FSM, the files and their file system. *)
Record playing := mkPlaying {
  p_br : Reader;
  p_fsm : FSM;
  p_files : fnodeFileMap;
  p_fs : FS;
}.

Definition run_os (p : playing) (call : os fnodeFileMap) : playing * option error :=
  match call (p_fs p) with
  | (w, inl files) => (mkPlaying (p_br p) (p_fsm p) files w, None)
  | (w, inr e) => (mkPlaying (p_br p) (p_fsm p) (p_files p) w, Some e)
  end.

Definition reenactOperation (dir : path) (op : RecordedOp) (p : playing) : outcome (playing * option error) :=
  match op_Create op with
  | Some _ => Ret (run_os p (create dir (op_SeqNo op) (p_files p)))
  | None =>
      match op_Unlink op with
      | Some (fnode, _) => Ret (run_os p (unlink dir fnode (p_fsm p) (p_files p)))
      | None =>
          match op_Write op with
          | Some wr =>
              let! (w, br, files, err) := write wr (p_br p) (p_files p) (p_fs p) in
              Ret (mkPlaying br (p_fsm p) files w, err)
          | None => Ret (p, None)
          end
      end
  end.

Definition zeroOp : RecordedOp := mkOp 0 0 0 0 0 None None None None None.

Definition with_offsets (op : RecordedOp) (first last : Z) : RecordedOp :=
  mkOp (op_SeqNo op) (op_Checksum op) (op_Author op) first last
    (op_Create op) (op_Link op) (op_Unlink op) (op_Write op) (op_Property op).

Section player.
(** The generated unmarshaling of operations, which do not implement [Fixup]. *)
Context (UnmarshalOp : bytes → RecordedOp + string).

Definition decodeOperation (br : Reader) (offset : Z) : outcome (Reader * RecordedOp * bytes * option error) :=
  let! (br, frame, err) := Unpack br in
  let! (op, err) :=
    match err with
    | Some e => Ret (zeroOp, Some (ErrRead e))
    | None =>
        let! r := Unmarshal UnmarshalOp (λ _, None) frame in
        Ret (match r with inl op => (op, None) | inr msg => (zeroOp, Some (ErrMsg msg)) end)
    end in
  let last := int64 (offset + Z.of_nat (length frame)) in
  let last := match op_Write op with Some (_, _, l) => int64 (last + l) | None => last end in
  Ret (br, with_offsets op offset last, frame, err).

(** The operation, whether it was applied, and the error. *)
Definition playOperation (dir : path) (offset : Z) (p : playing) : outcome (playing * RecordedOp * bool * option error) :=
  let! (br, op, frame, err) := decodeOperation (p_br p) offset in
  let p := mkPlaying br (p_fsm p) (p_files p) (p_fs p) in
  match err with
  | Some e =>
      if bool_decide (e = ErrDesyncDetected) then Ret (p, op, false, None)
      else Ret (p, op, false, Some (extendErr e "decodeOperation"))
  | None =>
      let '(fsm, applied) := applyOperation (p_fsm p) op frame in
      let p := mkPlaying (p_br p) fsm (p_files p) (p_fs p) in
      if applied then
        let! (p, err) := reenactOperation dir op p in
        Ret (p, op, true, (λ e, extendErr e "reenactOperation") <$> err)
      else
        match op_Write op with
        | Some (_, _, len) =>
            let! (w, br, _, err) := copyFixed Discarding (p_br p) len (p_fs p) in
            Ret (mkPlaying br (p_fsm p) (p_files p) w, op, false, (λ e, extendErr e "copyFixed") <$> err)
        | None => Ret (p, op, false, None)
        end
  end.
End player.

(** ** The end of playback *)

(** The links of a node, which the code visits in any order. *)
Fixpoint link_targets (dir : path) (fnode : Z) (links : list string) : os () :=
  match links with
  | [] => mret ()
  | link :: links =>
      let targetPath := filepath_Join dir link in
      MkdirAll (filepath_Dir targetPath);;
      LocalFS.Link (stagedPath dir fnode) targetPath;;
      link_targets dir fnode links
  end.

(** Also the files that are left. *)
Fixpoint link_nodes (dir : path) (nodes : list (Z * list string)) (files : fnodeFileMap) (w : FS)
    : FS * fnodeFileMap * option error :=
  match nodes with
  | [] => (w, files, None)
  | (fnode, links) :: nodes =>
      let file := files !! fnode in
      let files := delete fnode files in
      match (link_targets dir fnode links;; Close file;; Remove (stagedPath dir fnode)) w with
      | (w, inr e) => (w, files, Some e)
      | (w, inl _) => link_nodes dir nodes files w
      end
  end.

(** [io.Copy] of a string to a new file. *)
Definition write_file (targetPath : path) (content : bytes) : os () :=
  fout ← OpenFile targetPath;
  (λ w, match content with
        | [] => (w, inl ())
        | _ => match file_Write fout content w with (w, _, _, None) => (w, inl ()) | (w, _, _, Some e) => (w, inr e) end
        end);;
  Close (Some fout).

Fixpoint write_properties (dir : path) (props : list (string * string)) : os () :=
  match props with
  | [] => mret ()
  | (p, content) :: props =>
      let targetPath := filepath_Join dir p in
      MkdirAll (filepath_Dir targetPath);;
      write_file targetPath (str_bytes content);;
      write_properties dir props
  end.

(** [nodes] and [props] are the live nodes, each with its links, and the properties of [fsm], in
    the order in which the code visits these maps. The files that are left are returned too. *)
Definition makeLive (dir : path) (nodes : list (Z * list string)) (props : list (string * string))
    (fsm : FSM) (files : fnodeFileMap) (w : FS) : outcome (FS * fnodeFileMap * option error) :=
  if hasRemainingHints fsm then Panic "fsm.hasRemainingHints"
  else
    match link_nodes dir nodes files w with
    | (w, files, Some e) => Ret (w, files, Some e)
    | (w, files, None) =>
        if negb (size files =? 0)%nat then Panic "backing files not in FSM"
        else
          match (Remove (filepath_Join dir fnodeStagingDir);; write_properties dir props) w with
          | (w, inr e) => Ret (w, files, Some e)
          | (w, inl _) => Ret (w, files, None)
          end
    end.

(** ** The reader of a player *)

(** A buffered reader of the log, and the offset at which what its source serves ends. *)
Record playerReader := mkPlayerReader {
  pr_br : Reader;
  pr_end : Z;
  pr_pendingPeek : bool;
  pr_block : bool;
}.

(** The offset of the wrapped [RetryReader], and that of the next byte of the buffer. *)
Definition rr_Offset (pr : playerReader) : Z := pr_end pr - Z.of_nat (length (rd_rest (pr_br pr))).
Definition AdjustedOffset (pr : playerReader) : Z := rr_Offset pr - Z.of_nat (length (rd_buf (pr_br pr))).

Definition bufferSize : nat := Z.to_nat (32 * 1024).

Definition newPlayerReader : playerReader := mkPlayerReader (mkReader bufferSize [] [] EOF []) 0 false true.

(** What the log serves from the offset of the reader on, until an error. *)
Record source := mkSource { src_content : bytes; src_err : read_error; src_reads : list nat }.

Definition serve (pr : playerReader) (src : source) : playerReader :=
  let br := pr_br pr in
  mkPlayerReader (mkReader (rd_size br) (rd_buf br) (src_content src) (src_err src) (src_reads src))
    (rr_Offset pr + Z.of_nat (length (src_content src))) (pr_pendingPeek pr) (pr_block pr).

(** [AdjustedSeek] to an absolute offset: within the buffer, or by a restart of the reader. *)
Definition AdjustedSeek (pr : playerReader) (offset : Z) : playerReader :=
  let br := pr_br pr in
  let delta := offset - AdjustedOffset pr in
  if (0 <=? delta) && (delta <=? Z.of_nat (length (rd_buf br))) then
    mkPlayerReader (Discard br (Z.to_nat delta)) (pr_end pr) (pr_pendingPeek pr) (pr_block pr)
  else mkPlayerReader (mkReader (rd_size br) [] [] (rd_err br) []) offset (pr_pendingPeek pr) (pr_block pr).

Definition seek (pr : playerReader) (offset : Z) : outcome (playerReader * Z) :=
  if pr_pendingPeek pr then Panic "expected !pendingPeek" else Ret (AdjustedSeek pr offset, offset).

(** The reader continues at [offset], past what the log no longer has; its buffer stays. *)
Definition jump (pr : playerReader) (offset : Z) : playerReader :=
  let br := pr_br pr in
  mkPlayerReader (mkReader (rd_size br) (rd_buf br) [] (rd_err br) []) offset (pr_pendingPeek pr) (pr_block pr).

(** [drained] is the offset to which a pending peek jumped that is drained, if it did. *)
Definition setBlocking (pr : playerReader) (drained : option Z) (block : bool) : outcome playerReader :=
  if block && negb (pr_block pr) then
    if pr_pendingPeek pr then Panic "expected !pendingPeek"
    else Ret (mkPlayerReader (pr_br pr) (pr_end pr) (pr_pendingPeek pr) true)
  else if negb block && pr_block pr then
    let pr := if pr_pendingPeek pr then match drained with Some o => jump pr o | None => pr end else pr in
    Ret (mkPlayerReader (pr_br pr) (pr_end pr) false false)
  else Ret pr.

(** ** The state machine *)

Inductive playerState :=
| playerStateBackfill
| playerStateTail
| playerStateExitAtHead
| playerStateInjectHandoffAtHead
| playerStateReadHandoffBarrier
| playerStateComplete.

#[global] Instance playerState_eq_dec : EqDecision playerState.
Proof. solve_decision. Defined.

(** The variables of [playLog]. [ps_tailing]: whether tailingCh is closed; [ps_injected]: what was
    appended to the log. *)
Record play_state := mkPlayState {
  ps_state : playerState;
  ps_handoff : Z;
  ps_offset : Z;
  ps_readThrough : Z;
  ps_tailing : bool;
  ps_reader : playerReader;
  ps_fsm : FSM;
  ps_files : fnodeFileMap;
  ps_fs : FS;
  ps_injected : list bytes;
}.

Definition with_state (s : play_state) (st : playerState) : play_state :=
  mkPlayState st (ps_handoff s) (ps_offset s) (ps_readThrough s) (ps_tailing s) (ps_reader s)
    (ps_fsm s) (ps_files s) (ps_fs s) (ps_injected s).
Definition with_reader (s : play_state) (pr : playerReader) : play_state :=
  mkPlayState (ps_state s) (ps_handoff s) (ps_offset s) (ps_readThrough s) (ps_tailing s) pr
    (ps_fsm s) (ps_files s) (ps_fs s) (ps_injected s).
Definition with_offset (s : play_state) (offset : Z) : play_state :=
  mkPlayState (ps_state s) (ps_handoff s) offset (ps_readThrough s) (ps_tailing s) (ps_reader s)
    (ps_fsm s) (ps_files s) (ps_fs s) (ps_injected s).

(** The case of the select: the peek is done, of what the source then serves ([jumpTo] is
    the offset of the reader if it jumped), or the signal to finish. *)
Inductive select_case :=
| SelPeek (src : source) (jumpTo : Z)
| SelHandoff (author : Z).

(** The response to an injected operation: the end of its commit, and what the log then serves. *)
Record env := mkEnv {
  ev_select : select_case;
  ev_drained : option Z;
  ev_inject : (Z * source) + string;
}.

(** An iteration goes on, or [playLog] returns: no error if it completed. *)
Inductive iteration :=
| Continue (s : play_state)
| Return (s : play_state) (err : option error).

Section playLog.
Context (MarshalOp : RecordedOp → bytes + string) (UnmarshalOp : bytes → RecordedOp + string).
(** The order in which live nodes with their links, and properties, are visited. *)
Context (nodes_of : FSM → list (Z * list string)) (props_of : FSM → list (string * string)).
Context (dir : path).

Definition complete (s : play_state) (context : string) : outcome iteration :=
  let! (w, files, err) := makeLive dir (nodes_of (ps_fsm s)) (props_of (ps_fsm s)) (ps_fsm s) (ps_files s) (ps_fs s) in
  Ret (Return (mkPlayState playerStateComplete (ps_handoff s) (ps_offset s) (ps_readThrough s) (ps_tailing s) (ps_reader s)
                 (ps_fsm s) files w (ps_injected s))
         ((λ e, extendErr e context) <$> err)).

(** The operation that asks for the hand-off. *)
Definition handoff_op (s : play_state) : RecordedOp :=
  mkOp (NextSeqNo (ps_fsm s)) (NextChecksum (ps_fsm s)) (ps_handoff s) 0 0 None None None None None.

(** From the sanity check of the offset on: the next operation can be read. *)
Definition play_next (s : play_state) : outcome iteration :=
  if negb (ps_offset s =? AdjustedOffset (ps_reader s)) then Panic "unexpected AdjustedOffset"
  else
    let pr := ps_reader s in
    let! (p, op, applied, err) := playOperation UnmarshalOp dir (ps_offset s) (mkPlaying (pr_br pr) (ps_fsm s) (ps_files s) (ps_fs s)) in
    let s := mkPlayState (ps_state s) (ps_handoff s) (ps_offset s) (ps_readThrough s) (ps_tailing s)
               (mkPlayerReader (p_br p) (pr_end pr) (pr_pendingPeek pr) (pr_block pr)) (p_fsm p) (p_files p) (p_fs p) (ps_injected s) in
    match err with
    | Some e => Ret (Return s (Some (extendErr e "playOperation")))
    | None =>
        if negb (ps_handoff s =? 0) && (op_Author op =? ps_handoff s) then
          if negb (bool_decide (ps_state s = playerStateReadHandoffBarrier)) then Panic "unexpected state"
          else if applied then complete s "makeLive after reading handoff barrier"
          else Ret (Continue (with_offset (with_state s playerStateInjectHandoffAtHead) (op_LastOffset op)))
        else Ret (Continue (with_offset s (op_LastOffset op)))
    end.

(** The reader is at the head of the log. *)
Definition at_head (s : play_state) (inject : (Z * source) + string) : outcome iteration :=
  if ps_offset s <? ps_readThrough s then Panic "unexpected ErrNotYetAvailable"
  else
    let s := mkPlayState (ps_state s) (ps_handoff s) (ps_offset s) (ps_readThrough s) true (ps_reader s)
               (ps_fsm s) (ps_files s) (ps_fs s) (ps_injected s) in
    match ps_state s with
    | playerStateBackfill => Ret (Continue (with_state s playerStateTail))
    | playerStateExitAtHead => complete s "makeLive after reaching log head"
    | playerStateInjectHandoffAtHead =>
        let '(b, err) := Marshal MarshalOp (handoff_op s) in
        match err with
        | Some msg => Ret (Return s (Some (extendErr (ErrMsg msg) "injecting no-op")))
        | None =>
            match inject with
            | inr msg => Ret (Return s (Some (extendErr (ErrMsg msg) "injecting no-op")))
            | inl (end_, src) =>
                play_next
                  (mkPlayState playerStateReadHandoffBarrier (ps_handoff s) (ps_offset s) end_ (ps_tailing s)
                     (serve (ps_reader s) src) (ps_fsm s) (ps_files s) (ps_fs s) (ps_injected s ++ [b]))
            end
        end
    | _ => Panic "invalid state"
    end.

Definition select_handoff (s : play_state) (author : Z) : outcome iteration :=
  match ps_state s with
  | playerStateBackfill | playerStateTail =>
      Ret (Continue
        (mkPlayState (if author =? 0 then playerStateExitAtHead else playerStateInjectHandoffAtHead) author
           (ps_offset s) (ps_readThrough s) (ps_tailing s) (ps_reader s) (ps_fsm s) (ps_files s) (ps_fs s) (ps_injected s)))
  | _ => Panic "unexpected state on <-handoffCh"
  end.

Definition select_peek (s : play_state) (src : source) (jumpTo : Z) (inject : (Z * source) + string) : outcome iteration :=
  let pr := serve (ps_reader s) src in
  let '(br, _, err) := Peek (pr_br pr) FixedFrameHeaderLength in
  let s := with_reader s (mkPlayerReader br (pr_end pr) false (pr_block pr)) in
  match err with
  | None => play_next s
  | Some e =>
      if bool_decide (e = ErrOffsetNotYetAvailable) then at_head s inject
      else if bool_decide (e = ErrOffsetJump) then
        let s := with_reader s (jump (ps_reader s) jumpTo) in
        match hintedSegments (ps_fsm s) with
        | seg :: _ =>
            if negb (LastOffset seg =? 0) && (LastOffset seg <? jumpTo)
            then Ret (Return s (Some (ErrMsg "offset jumps over hinted segment; possible data loss")))
            else Ret (Continue (with_offset s jumpTo))
        | [] => Ret (Continue (with_offset s jumpTo))
        end
      else Ret (Return s (Some (extendErr (ErrRead e) "playerReader.peek")))
  end.

(** The check of the next hinted segment: skip to it, or fail when the log is read through. *)
Definition follow_hints (s : play_state) : outcome (play_state + error) :=
  match hintedSegments (ps_fsm s) with
  | seg :: _ =>
      if ps_offset s <? FirstOffset seg then
        let! (pr, offset) := seek (ps_reader s) (FirstOffset seg) in
        Ret (inl (with_offset (with_reader s pr) offset))
      else if ps_readThrough s <=? ps_offset s then
        Ret (inr (ErrMsg "offset >= readThrough, but FSM has unused hints; possible data loss"))
      else Ret (inl s)
  | [] => Ret (inl s)
  end.

Definition wants_block (s : play_state) : option bool :=
  match ps_state s with
  | playerStateTail | playerStateReadHandoffBarrier => Some true
  | playerStateBackfill | playerStateExitAtHead | playerStateInjectHandoffAtHead => Some (ps_offset s <? ps_readThrough s)
  | playerStateComplete => None
  end.

(** What comes before the select of an iteration; a peek is begun. *)
Definition before_select (s : play_state) (drained : option Z) : outcome (play_state + error) :=
  let! r := follow_hints s in
  match r with
  | inr e => Ret (inr e)
  | inl s =>
      let! pr := match wants_block s with Some b => setBlocking (ps_reader s) drained b | None => Ret (ps_reader s) end in
      Ret (inl (with_reader s (mkPlayerReader (pr_br pr) (pr_end pr) true (pr_block pr))))
  end.

Definition play_iteration (s : play_state) (e : env) : outcome iteration :=
  let! r := before_select s (ev_drained e) in
  match r with
  | inr err => Ret (Return s (Some err))
  | inl s =>
      match ev_select e with
      | SelHandoff author => select_handoff s author
      | SelPeek src jumpTo => select_peek s src jumpTo (ev_inject e)
      end
  end.

(** Hinted segments beyond the write head. *)
Fixpoint check_segments (segs : list Segment) (readThrough : Z) : option error :=
  match segs with
  | [] => None
  | seg :: segs =>
      if (readThrough <=? FirstOffset seg) || (readThrough <? LastOffset seg)
      then Some (ErrMsg "hinted segment beyond max write-head; possible data loss")
      else check_segments segs readThrough
  end.

(** The deferred function. *)
Definition deferred (s : play_state) (err : option error) : outcome (FS * (FSM + error)) :=
  match err with
  | Some e => Ret (cleanupOnAbort dir (snd <$> map_to_list (ps_files s)) (ps_fs s), inr e)
  | None =>
      if bool_decide (ps_state s = playerStateComplete) then Ret (ps_fs s, inl (ps_fsm s))
      else Panic "unexpected state on return"
  end.

(** Until [playLog] returns, or the environment ends. *)
Fixpoint play_run (s : play_state) (envs : list env) : outcome (play_state + FS * (FSM + error)) :=
  match envs with
  | [] => Ret (inl s)
  | e :: envs =>
      let! it := play_iteration s e in
      match it with
      | Continue s => play_run s envs
      | Return s err => let! r := deferred s err in Ret (inr r)
      end
  end.

(** What precedes the loop. [barrier] is the response to the append that determines the head. *)
Definition play_start (hints : FSMHints) (barrier : Z + string) (w : FS) : outcome (play_state + FS * error) :=
  let! r := NewFSM hints in
  match r with
  | inr e => Ret (inr (cleanupOnAbort dir [] w, extendErr (ErrMsg e) "NewFSM"))
  | inl fsm =>
      match preparePlayback dir w with
      | (w, inr e) => Ret (inr (cleanupOnAbort dir [] w, extendErr e "preparePlayback"))
      | (w, inl _) =>
          match barrier with
          | inr e => Ret (inr (cleanupOnAbort dir [] w, extendErr (ErrMsg e) "determining log head"))
          | inl readThrough =>
              match check_segments (hintedSegments fsm) readThrough with
              | Some e => Ret (inr (cleanupOnAbort dir [] w, e))
              | None =>
                  Ret (inl (mkPlayState playerStateBackfill 0 0 readThrough false newPlayerReader fsm ∅ w []))
              end
          end
      end
  end.

Definition playLog (hints : FSMHints) (barrier : Z + string) (envs : list env) (w : FS)
    : outcome (play_state + FS * (FSM + error)) :=
  let! r := play_start hints barrier w in
  match r with
  | inr (w, e) => Ret (inr (w, inr e))
  | inl s => play_run s envs
  end.
End playLog.

(** ** Staged files *)

Definition stagingDir (dir : path) : path := dir ++ [String.list_ascii_of_string fnodeStagingDir].

Lemma Join_staging dir : filepath_Join dir fnodeStagingDir = stagingDir dir.
Proof.
  unfold filepath_Join, stagingDir. change (components fnodeStagingDir) with [String.list_ascii_of_string fnodeStagingDir].
  cbn [foldl]. rewrite clean_step_normal by (by apply (bool_decide_unpack _)). cbn [rev]. by rewrite rev_involutive.
Qed.

Lemma stagedPath_eq dir f : stagedPath dir f = stagingDir dir ++ [String.list_ascii_of_string (pretty f)].
Proof. unfold stagedPath, stagingDir. by rewrite <- app_assoc. Qed.

#[global] Instance list_ascii_inj : Inj (=) (=) String.list_ascii_of_string.
Proof.
  intros a b Hab. rewrite <- (String.string_of_list_ascii_of_string a), <- (String.string_of_list_ascii_of_string b). by rewrite Hab.
Qed.

#[global] Instance stagedPath_inj dir : Inj (=) (=) (stagedPath dir).
Proof. intros f g Hfg. unfold stagedPath in Hfg. simplify_list_eq. done. Qed.

Lemma stagedPath_Dir dir f : filepath_Dir (stagedPath dir f) = stagingDir dir.
Proof. rewrite stagedPath_eq. unfold filepath_Dir. rewrite length_app. simpl. rewrite take_app_length'; [done|lia]. Qed.

Lemma below_spec p q : below p q = true ↔ ∃ x, x ≠ [] ∧ q = p ++ x.
Proof.
  unfold below. rewrite andb_true_iff, bool_decide_eq_true, Nat.ltb_lt. split.
  - intros [Ht Hl]. exists (drop (length p) q). split; [|by rewrite <- Ht at 1; rewrite take_drop].
    intros Hd. apply (f_equal length) in Hd. rewrite length_drop in Hd. simpl in Hd. lia.
  - intros (x & Hx & ->). rewrite take_app_length, length_app. split; [done|]. destruct x; [done|simpl; lia].
Qed.

(** The staging directory holds exactly the open [files], with the contents [cs]. *)
Record staged (dir : path) (files : fnodeFileMap) (w : FS) (cs : gmap Z bytes) : Prop := {
  sd_faults : fs_faults w = [];
  sd_dir : fs_nodes w !! stagingDir dir = Some NDir;
  sd_above n : (n ≤ length dir)%nat → is_dir w (take n dir) = true;
  sd_files f h : files !! f = Some h → fs_nodes w !! stagedPath dir f = Some (NFile (f_ino h)) ∧ (f_ino h < fs_next w)%nat;
  sd_inos f g h k : files !! f = Some h → files !! g = Some k → f_ino h = f_ino k → f = g;
  sd_data f h : files !! f = Some h → fs_data w !! f_ino h = cs !! f;
  sd_dom f : is_Some (cs !! f) ↔ is_Some (files !! f);
  sd_only p n : fs_nodes w !! p = Some n → below dir p = true →
    p = stagingDir dir ∨ ∃ f h, files !! f = Some h ∧ p = stagedPath dir f;
}.

Lemma staging_not_staged dir f : stagingDir dir ≠ stagedPath dir f.
Proof. unfold stagingDir, stagedPath. intros Heq. by simplify_list_eq. Qed.

Lemma below_staged dir f : below dir (stagedPath dir f) = true.
Proof. apply below_spec. unfold stagedPath. eexists. split; [|reflexivity]. done. Qed.

Lemma create_staged dir files w cs f :
  staged dir files w cs → files !! f = None →
  ∃ files' w', create dir f files w = (w', inl files') ∧ staged dir files' w' (<[f := []]> cs).
Proof.
  intros [Hfa Hd Ha Hf Hi Hdata Hdom Hon] Hn. unfold create.
  assert (fs_nodes w !! stagedPath dir f = None) as Hnone.
  { destruct (fs_nodes w !! stagedPath dir f) as [n|] eqn:E; [|done].
    destruct (Hon _ _ E (below_staged dir f)) as [Heq|(g & h & Hg & Heq%(inj _))]; [by symmetry in Heq; apply staging_not_staged in Heq|congruence]. }
  eexists _, _. split.
  { erewrite os_bind_ok; [reflexivity|]. unfold OpenFile. rewrite syscall_ok by done. rewrite Hnone, stagedPath_Dir.
    unfold is_dir. rewrite Hd. by destruct (stagingDir dir) eqn:E; [apply app_eq_nil in E as [_ ?]|]. }
  split; cbn.
  - done.
  - rewrite lookup_insert_ne; [done|]. intros Heq. by apply (staging_not_staged dir f).
  - intros n Hn'. specialize (Ha n Hn'). unfold is_dir in *. cbn. case_match; [done|].
    rewrite lookup_insert_ne; [done|]. intros Heq. apply (f_equal length) in Heq. rewrite stagedPath_eq in Heq.
    unfold stagingDir in Heq. rewrite !length_app in Heq. simpl in Heq.
    assert (length (l :: l0) ≤ length dir)%nat as Hle by (rewrite <- H; rewrite length_take; lia). simpl in Hle. lia.
  - intros g h [[<- <-]|[Hne Hg]]%lookup_insert_Some; cbn; [by rewrite lookup_insert_eq; split; [|lia]|].
    destruct (Hf g h Hg) as [Hg1 Hg2]. rewrite lookup_insert_ne by (intros Heq%(inj _); congruence). split; [done|lia].
  - intros g1 g2 h1 h2 [[<- <-]|[Hne1 Hg1]]%lookup_insert_Some [[<- <-]|[Hne2 Hg2]]%lookup_insert_Some Heq; cbn in *; [done| | |eauto].
    + destruct (Hf _ _ Hg2). lia.
    + destruct (Hf _ _ Hg1). lia.
  - intros g h [[<- <-]|[Hne Hg]]%lookup_insert_Some; cbn; [by rewrite !lookup_insert_eq|].
    destruct (Hf _ _ Hg). rewrite !lookup_insert_ne by (done || lia). auto.
  - intros g. destruct (decide (g = f)) as [-> |]; [by rewrite !lookup_insert_eq|]. by rewrite !lookup_insert_ne.
  - intros p n [[<- _]|[Hne Hp]]%lookup_insert_Some Hb; [right; exists f; eexists; by rewrite lookup_insert_eq|].
    destruct (Hon p n Hp Hb) as [?|(g & h & Hg & ->)]; [by left|]. right. exists g, h. rewrite lookup_insert_ne by congruence. done.
Qed.

Lemma unlink_staged dir files w cs f fsm :
  staged dir files w cs → is_Some (files !! f) → LiveNodes fsm !! f = None →
  ∃ w', unlink dir f fsm files w = (w', inl (delete f files)) ∧ staged dir (delete f files) w' (delete f cs).
Proof.
  intros [Hfa Hd Ha Hf Hi Hdata Hdom Hon] [h Hh] Hn. unfold unlink. rewrite Hn, Hh. cbn [is_some].
  destruct (Hf f h Hh) as [Hnode Hlt]. eexists. split.
  { erewrite os_bind_ok; [|unfold Close; by rewrite syscall_ok by done].
    erewrite os_bind_ok; [reflexivity|]. unfold Remove. rewrite syscall_ok by done. by rewrite Hnode. }
  split; cbn.
  - done.
  - rewrite lookup_delete_ne; [done|]. intros Heq. by apply (staging_not_staged dir f).
  - intros n Hn'. specialize (Ha n Hn'). unfold is_dir in *. cbn. case_match; [done|].
    rewrite lookup_delete_ne; [done|]. intros Heq. rewrite <- Heq, Hnode in Ha. done.
  - intros g k [Hne Hg]%lookup_delete_Some. destruct (Hf g k Hg) as [Hg1 Hg2].
    rewrite lookup_delete_ne by (intros Heq%(inj _); congruence). done.
  - intros g1 g2 h1 h2 [_ Hg1]%lookup_delete_Some [_ Hg2]%lookup_delete_Some. eauto.
  - intros g k [Hne Hg]%lookup_delete_Some. rewrite lookup_delete_ne by done. auto.
  - intros g. destruct (decide (g = f)) as [-> |]; [by rewrite !lookup_delete_eq|]. by rewrite !lookup_delete_ne.
  - intros p n [Hne Hp]%lookup_delete_Some Hb.
    destruct (Hon p n Hp Hb) as [?|(g & k & Hg & ->)]; [by left|]. right. exists g, k. rewrite lookup_delete_ne by congruence. done.
Qed.

(** ** Copies *)

(** After [b] was written. *)
Definition written (w : FS) (out : writer) (b : bytes) : FS * writer :=
  match out with
  | Discarding => (w, Discarding)
  | Writing file =>
      (fs_with_data w (<[f_ino file := write_at (default [] (fs_data w !! f_ino file)) (f_pos file) b]> (fs_data w)),
       Writing (mkFile (f_ino file) (f_pos file + length b)))
  end.

Definition open (w : FS) (out : writer) : Prop :=
  fs_faults w = [] ∧ match out with Writing file => is_Some (fs_data w !! f_ino file) | Discarding => True end.

Lemma written_nil w out : open w out → written w out [] = (w, out).
Proof.
  intros [_ Ho]. destruct out as [|[ino pos]]; [done|]. destruct Ho as [c Hc]. cbn in *. rewrite Hc. cbn.
  rewrite insert_id by done. destruct w. by rewrite Nat.add_0_r.
Qed.

Lemma written_app w out a b : (written w out (a ++ b)) = let '(w, out) := written w out a in written w out b.
Proof.
  destruct out as [|[ino pos]]; [done|]. cbn. rewrite lookup_insert_eq. cbn. rewrite write_at_app, insert_insert_eq, length_app.
  unfold fs_with_data. cbn. do 3 f_equal. lia.
Qed.

Lemma written_open w out b : open w out → open (fst (written w out b)) (snd (written w out b)).
Proof. intros [Hf Ho]. destruct out as [|[ino pos]]; [done|]. split; cbn; [done|]. rewrite lookup_insert_eq. by eexists. Qed.

Lemma copy_round out br n w :
  open w out → reader_ok br → (0 < n ≤ length (contents br))%nat →
  ∃ br1 k, (0 < k ≤ n)%nat ∧ reader_ok br1 ∧ contents br1 = drop k (contents br) ∧ rd_size br1 = rd_size br ∧ rd_err br1 = rd_err br ∧
    ∀ fuel, copy_loop (S fuel) out br (Z.of_nat n) w =
      let '(w1, out1) := written w out (take k (contents br)) in copy_loop fuel out1 br1 (Z.of_nat (n - k)) w1.
Proof.
  intros [Hf Ho] Hok Hn. assert (1 ≤ rd_size br)%nat as Hsz by (destruct Hok; lia).
  destruct (Peek_spec br 1 Hok Hsz) as (br0 & [Hok0 [Hs0 He0] Hc0] & Hp & _). destruct (Hp ltac:(lia)) as [Hp1 Hb].
  set (k := min n (length (rd_buf br0))). assert (0 < k ≤ n)%nat as Hk by (unfold k; lia).
  destruct (Peek_spec br0 k Hok0) as (br1 & [Hok1 [Hs1 He1] Hc1] & Hp2 & _); [destruct Hok0; unfold k; lia|].
  destruct Hp2 as [Hp2 Hb2]; [rewrite Hc0; lia|]. destruct (Discard_spec br1 k Hok1 Hb2) as (Hd1 & Hd2 & Hd3 & Hd4).
  exists (Discard br1 k), k. split_and!; [lia|lia|done|by rewrite Hd2, Hc1, Hc0|congruence|congruence|].
  intros fuel. cbn [copy_loop]. rewrite (proj2 (Z.eqb_neq _ _)) by lia. rewrite Hp1.
  assert ((if Z.of_nat n <? Z.of_nat (length (rd_buf br0)) then Z.of_nat n else Z.of_nat (length (rd_buf br0))) = Z.of_nat k) as ->.
  { unfold k. destruct (Z.ltb_spec (Z.of_nat n) (Z.of_nat (length (rd_buf br0)))); lia. }
  rewrite (proj2 (Z.ltb_ge _ _)), Nat2Z.id, Hp2, Hc0 by lia. set (b := take k (contents br)).
  assert (length b = k) as Hlb by (unfold b; rewrite length_take; lia).
  assert (Z.of_nat n - Z.of_nat k = Z.of_nat (n - k)) as Hsub by lia.
  destruct out as [|file]; cbn [writer_Write written].
  - by rewrite Hlb, Hsub.
  - unfold file_Write, next_fault. rewrite Hf, firstn_all, Hlb, Hsub. done.
Qed.

Lemma copy_loop_ok fuel : ∀ out br n w,
  open w out → reader_ok br → (n ≤ length (contents br))%nat → (n ≤ fuel)%nat →
  ∃ br', copy_loop fuel out br (Z.of_nat n) w =
      (let '(w', out') := written w out (take n (contents br)) in Ret (w', br', out', None)) ∧
    reader_ok br' ∧ contents br' = drop n (contents br) ∧ rd_size br' = rd_size br ∧ rd_err br' = rd_err br.
Proof.
  induction fuel as [|fuel IH]; intros out br n w Ho Hok Hn Hf.
  { assert (n = 0)%nat as -> by lia. exists br. cbn. by rewrite written_nil. }
  destruct (decide (n = 0)%nat) as [-> |Hn0]; [exists br; cbn; by rewrite written_nil|].
  destruct (copy_round out br n w Ho Hok) as (br1 & k & Hk & Hok1 & Hc1 & Hs1 & He1 & ->); [lia|].
  pose proof (written_open w out (take k (contents br)) Ho) as Ho1.
  assert (take n (contents br) = take k (contents br) ++ take (n - k) (contents br1)) as Ht.
  { rewrite Hc1. replace n with (k + (n - k))%nat at 1 by lia. by rewrite take_take_drop. }
  rewrite Ht, written_app. destruct (written w out (take k (contents br))) as [w1 out1]. cbn [fst snd] in Ho1.
  destruct (IH out1 br1 (n - k)%nat w1 Ho1 Hok1) as (br' & -> & Hok' & Hc' & Hs' & He'); [rewrite Hc1, length_drop; lia|lia|].
  exists br'. split_and!; [done|done|rewrite Hc', Hc1, drop_drop; f_equal; lia|congruence|congruence].
Qed.

Lemma copyFixed_ok out br n w :
  open w out → reader_ok br → (n ≤ length (contents br))%nat →
  ∃ br', copyFixed out br (Z.of_nat n) w =
      (let '(w', out') := written w out (take n (contents br)) in Ret (w', br', out', None)) ∧
    reader_ok br' ∧ contents br' = drop n (contents br) ∧ rd_size br' = rd_size br ∧ rd_err br' = rd_err br.
Proof. intros. apply copy_loop_ok; [done..|]. rewrite Nat2Z.id. lia. Qed.

Lemma write_staged dir files w cs br f c off n :
  staged dir files w cs → cs !! f = Some c → 0 ≤ off → reader_ok br → (n ≤ length (contents br))%nat →
  ∃ files' w' br', write (f, off, Z.of_nat n) br files w = Ret (w', br', files', None) ∧
    staged dir files' w' (<[f := write_at c (Z.to_nat off) (take n (contents br))]> cs) ∧
    reader_ok br' ∧ contents br' = drop n (contents br) ∧ rd_size br' = rd_size br ∧ rd_err br' = rd_err br.
Proof.
  intros [Hfa Hd Ha Hf Hi Hdata Hdom Hon] Hc Hoff Hok Hn.
  destruct (proj1 (Hdom f)) as [h Hh]; [by eexists|]. pose proof (Hdata f h Hh) as Hdf. rewrite Hc in Hdf.
  unfold write. rewrite Hh. cbn [Seek]. rewrite syscall_ok by done. rewrite (proj2 (Z.ltb_ge off 0)) by lia. cbn [mret os_ret].
  set (file := mkFile (f_ino h) (Z.to_nat off)).
  destruct (copyFixed_ok (Writing file) br n w) as (br' & -> & Hbr); [split; [done|by exists c]|done|done|].
  cbn [written outcome_bind]. eexists _, _, br'. split; [reflexivity|]. split; [|exact Hbr]. cbn [f_ino f_pos file].
  rewrite Hdf. cbn [default]. destruct (Hf f h Hh) as [Hn1 Hn2]. split; cbn.
  - done.
  - done.
  - done.
  - intros g k [[<- <-]|[Hne Hg]]%lookup_insert_Some; cbn; auto.
  - intros g1 g2 k1 k2 [[<- <-]|[Hne1 Hg1]]%lookup_insert_Some [[<- <-]|[Hne2 Hg2]]%lookup_insert_Some Heq; cbn in *; [done| | |eauto].
    + by apply (Hi f g2 h k2).
    + by apply (Hi g1 f k1 h).
  - intros g k [[<- <-]|[Hne Hg]]%lookup_insert_Some; cbn; [by rewrite !lookup_insert_eq|].
    rewrite !lookup_insert_ne; [auto|done|]. intros Heq. apply Hne. by apply (Hi f g h k).
  - intros g. destruct (decide (g = f)) as [-> |]; [by rewrite !lookup_insert_eq|]. by rewrite !lookup_insert_ne.
  - intros p nd Hp Hb. destruct (Hon p nd Hp Hb) as [?|(g & k & Hg & ->)]; [by left|]. right. exists g.
    destruct (decide (g = f)) as [-> |]; [rewrite lookup_insert_eq; by eexists|]. rewrite lookup_insert_ne by done. by exists k.
Qed.

(** ** Operations of a log *)

(** An operation as it is written: its fields (offsets are not), payload and data. *)
Record item := mkItem { it_op : RecordedOp; it_payload : bytes; it_data : bytes }.

Definition it_frame (it : item) : bytes :=
  magicWord ++ Z_le 4 (uint32 (Z.of_nat (length (it_payload it)))) ++ it_payload it.
Definition it_bytes (it : item) : bytes := it_frame it ++ it_data it.

(** At most one of the union fields is set. *)
Definition single (op : RecordedOp) : Prop :=
  (Nat.b2n (is_some (op_Create op)) + Nat.b2n (is_some (op_Link op)) + Nat.b2n (is_some (op_Unlink op)) +
   Nat.b2n (is_some (op_Write op)) + Nat.b2n (is_some (op_Property op)) ≤ 1)%nat.

#[global] Instance single_dec op : Decision (single op).
Proof. unfold single. apply _. Defined.

(** Which fields are not set, where one is. *)
Lemma single_fields op : single op →
  (op_Create op ≠ None → op_Link op = None ∧ op_Unlink op = None ∧ op_Write op = None) ∧
  (op_Link op ≠ None → op_Unlink op = None ∧ op_Write op = None) ∧ (op_Unlink op ≠ None → op_Write op = None).
Proof.
  unfold single. destruct (op_Create op), (op_Link op), (op_Unlink op), (op_Write op); cbn; intros; split_and!; intros; split_and?; done || lia.
Qed.

(** The operation as it is played back, at an offset. *)
Definition op_at (it : item) (offset : Z) : RecordedOp :=
  with_offsets (it_op it) offset (offset + Z.of_nat (length (it_bytes it))).

(** What playback makes of the contents of nodes, if it applies the operation. *)
Definition reenacted (fsm : FSM) (op : RecordedOp) (data : bytes) (cs : gmap Z bytes) : gmap Z bytes :=
  match op_Create op with
  | Some _ => <[op_SeqNo op := []]> cs
  | None =>
      match op_Unlink op with
      | Some (f, _) => if is_some (LiveNodes fsm !! f) then cs else delete f cs
      | None =>
          match op_Write op with
          | Some (f, off, _) => alter (λ c, write_at c (Z.to_nat off) data) f cs
          | None => cs
          end
      end
  end.

Lemma alter_lookup {A} (f : A → A) (m : gmap Z A) k x : m !! k = Some x → alter f k m = <[k := f x]> m.
Proof.
  intros Hk. apply map_eq. intros j. destruct (decide (j = k)) as [-> |].
  - by rewrite lookup_alter_eq, lookup_insert_eq, Hk.
  - by rewrite lookup_alter_ne, lookup_insert_ne.
Qed.

(** Files are those of live nodes. *)
Definition agrees (fsm : FSM) (cs : gmap Z bytes) : Prop := ∀ f, is_Some (cs !! f) ↔ is_Some (LiveNodes fsm !! f).

Section operations.
Context (MarshalOp : RecordedOp → bytes + string) (UnmarshalOp : bytes → RecordedOp + string).
Context (roundtrip : ∀ op payload, MarshalOp op = inl payload → UnmarshalOp payload = inl op).

Record item_ok (it : item) : Prop := {
  io_payload : MarshalOp (it_op it) = inl (it_payload it);
  io_small : Z.of_nat (length (it_payload it)) < 2 ^ 32;
  io_single : single (it_op it);
  io_data : match op_Write (it_op it) with
            | Some (_, off, len) => 0 ≤ off ∧ len = Z.of_nat (length (it_data it))
            | None => it_data it = []
            end;
}.

Lemma decodeOperation_ok it br rest offset :
  item_ok it → reader_ok br → contents br = it_bytes it ++ rest → 0 ≤ offset →
  offset + Z.of_nat (length (it_bytes it)) < MaxInt64 →
  ∃ br', decodeOperation UnmarshalOp br offset = Ret (br', op_at it offset, it_frame it, None) ∧
    reader_ok br' ∧ contents br' = it_data it ++ rest.
Proof.
  intros [Hp Hs _ Hd] Hok Hc Ho Hmax. destruct (Encode_frame MarshalOp _ _ Hp Hs) as (b & Hb & Hlen & Hdrop & Hfr).
  assert (b = it_frame it) as ->. { unfold Encode in Hb. rewrite Hp in Hb. by injection Hb. }
  unfold it_bytes in *. rewrite <- app_assoc in Hc. destruct (Hfr (it_data it ++ rest)) as [Hat Hsz]. rewrite <- Hc in Hat, Hsz.
  destruct (Unpack_frame br Hok Hat) as (br' & Hun & Hok' & Hc'); [rewrite Hsz, Hc, !length_app; lia|].
  rewrite Hsz, Hc, take_app_length in Hun. rewrite Hsz, Hc, drop_app_length in Hc'.
  exists br'. split; [|done]. unfold decodeOperation. rewrite Hun. cbn [outcome_bind].
  assert (at_magic (it_frame it)) as Hbm by (destruct (Hfr []) as [? _]; by rewrite app_nil_r in *).
  unfold Unmarshal. rewrite matchesMagicWord_spec, bool_decide_eq_true_2 by (done || lia). cbn [outcome_bind negb].
  unfold FixedFrameHeaderLength. destruct (Nat.ltb_spec (length (it_frame it)) 8); [lia|].
  rewrite Hdrop, (roundtrip _ _ Hp). cbn [outcome_bind]. unfold op_at, it_bytes. rewrite length_app in *.
  rewrite int64_id by (unfold is_int64, MinInt64, MaxInt64 in *; lia).
  destruct (op_Write (it_op it)) as [[[f off] len]|].
  - destruct Hd as [_ ->]. rewrite int64_id by (unfold is_int64, MinInt64, MaxInt64 in *; lia). do 5 f_equal. lia.
  - rewrite Hd. simpl. do 5 f_equal. lia.
Qed.

(** Files follow the FSM. *)
Lemma reenacted_agrees g op g1 fr data cs :
  body_ok g op g1 → single op → agrees g cs → agrees (fsm_step g1 fr) (reenacted (fsm_step g1 fr) op data cs).
Proof.
  intros Hb Hs Ha f. assert (LiveNodes (fsm_step g1 fr) = LiveNodes g1) as Hst by (unfold fsm_step; by repeat case_match).
  pose proof (Ha f : is_Some (cs !! f) ↔ is_Some (LiveNodes g !! f)) as Haf.
  destruct (single_fields op Hs) as (_ & Hsl & _). unfold reenacted. rewrite Hst.
  destruct Hb as [p l Hc Hl Hp Hh|k p nd [Hc _] H1 Hl Hp Hn|k p nd [Hc _] H1 H2 Hn Hin|k o n nd [Hc _] H1 H2 H3 Hn|p c [Hc _] H1 H2 H3 H4 Hl Hp|[Hc _] H1 H2 H3 H4];
    cbn [with_nodes with_properties with_hintedFnodes LiveNodes]; rewrite Hc.
  - destruct (decide (f = op_SeqNo op)) as [-> |]; [by rewrite !lookup_insert_eq|]. by rewrite !lookup_insert_ne.
  - destruct Hsl as [-> ->]; [congruence|]. rewrite Haf. destruct (decide (f = k)) as [-> |]; [by rewrite lookup_insert_eq, Hn|].
    by rewrite lookup_insert_ne.
  - rewrite H2. case_decide as He.
    + rewrite lookup_delete_eq. cbn [is_some]. destruct (decide (f = k)) as [-> |]; [by rewrite !lookup_delete_eq|].
      by rewrite !lookup_delete_ne.
    + rewrite lookup_insert_eq. cbn [is_some]. rewrite Haf. destruct (decide (f = k)) as [-> |]; [by rewrite lookup_insert_eq, Hn|].
      by rewrite lookup_insert_ne.
  - rewrite H2, H3. destruct (decide (f = k)) as [-> |].
    + rewrite lookup_alter_eq, lookup_insert_eq, fmap_is_Some, Haf, Hn. done.
    + by rewrite lookup_alter_ne, lookup_insert_ne.
  - by rewrite H2, H3.
  - by rewrite H2, H3.
Qed.

(** A reader that is past the data of the operation. *)
Definition reenacts (dir : path) (op : RecordedOp) (p : playing) (fsm : FSM) (data rest : bytes) (cs : gmap Z bytes) : Prop :=
  ∃ br files w, reenactOperation dir op p = Ret (mkPlaying br fsm files w, None) ∧
    staged dir files w (reenacted fsm op data cs) ∧ reader_ok br ∧ contents br = rest.

Lemma reenactOperation_ok dir it offset br g g1 fr files w cs rest :
  item_ok it → body_ok g (op_at it offset) g1 → LiveNodes g !! op_SeqNo (it_op it) = None → agrees g cs →
  staged dir files w cs → reader_ok br → contents br = it_data it ++ rest →
  reenacts dir (op_at it offset) (mkPlaying br (fsm_step g1 fr) files w) (fsm_step g1 fr) (it_data it) rest cs.
Proof.
  intros [_ _ Hs Hd] Hb Hfresh Ha Hst Hok Hc.
  assert (LiveNodes (fsm_step g1 fr) = LiveNodes g1) as Hln by (unfold fsm_step; by repeat case_match).
  destruct (single_fields _ Hs) as (Hsc & Hsl & Hsu).
  set (g' := fsm_step g1 fr) in *. unfold reenacts, reenactOperation, reenacted. cbn [p_files p_fs p_br p_fsm].
  destruct Hb as [p l Hcr Hl Hp Hh|k p nd [Hcr _] H1 Hl Hp Hn|k p nd [Hcr _] H1 H2 Hn Hin|k o n nd [Hcr _] H1 H2 H3 Hn|p c [Hcr _] H1 H2 H3 H4 Hl Hp|[Hcr _] H1 H2 H3 H4];
    cbn [op_at with_offsets op_Create op_Link op_Unlink op_Write op_SeqNo with_nodes with_properties with_hintedFnodes LiveNodes] in *; rewrite Hcr.
  - destruct Hsc as (_ & _ & Hw); [congruence|]. rewrite Hw in Hd. rewrite Hd in Hc.
    assert (files !! op_SeqNo (it_op it) = None) as Hnf.
    { rewrite <- not_elem_of_dom. intros Hin%elem_of_dom%(sd_dom _ _ _ _ Hst)%Ha. rewrite Hfresh in Hin. by destruct Hin. }
    destruct (create_staged dir files w cs _ Hst Hnf) as (files' & w' & Hcre & Hst'). unfold run_os. cbn [p_fs p_br p_fsm p_files].
    rewrite Hcre. by exists br, files', w'.
  - destruct Hsl as [-> Hw]; [congruence|]. rewrite Hw in *. rewrite Hd in Hc. by exists br, files, w.
  - rewrite H2, Hln. rewrite Hsu in Hd by congruence. rewrite Hd in Hc. unfold run_os. cbn [p_fs p_br p_fsm p_files].
    case_decide as He.
    + rewrite lookup_delete_eq. cbn [is_some].
      assert (is_Some (files !! k)) as Hk by (apply (sd_dom _ _ _ _ Hst), Ha; by rewrite Hn).
      destruct (unlink_staged dir files w cs k g' Hst Hk) as (w' & -> & Hst'); [by rewrite Hln, lookup_delete_eq|]. by exists br, (delete k files), w'.
    + unfold unlink. rewrite Hln, lookup_insert_eq. cbn. by exists br, files, w.
  - rewrite H2, H3 in *. destruct Hd as [Ho ->]. destruct (proj2 (Ha k)) as [c Hck]; [by rewrite Hn|].
    destruct (write_staged dir files w cs br k c o (length (it_data it)) Hst Hck Ho Hok) as (files' & w' & br' & Hwr & Hst' & Hok' & Hc' & _);
      [rewrite Hc, length_app; lia|].
    cbn [p_fs p_br p_fsm p_files]. rewrite Hwr. cbn [outcome_bind]. exists br', files', w'.
    rewrite Hc, take_app_length in Hst'. rewrite Hc, drop_app_length in Hc'. split_and!; [done| |done|done].
    replace (alter _ k cs) with (<[k := write_at c (Z.to_nat o) (it_data it)]> cs); [done|]. by rewrite (alter_lookup _ _ _ c).
  - rewrite H2, H3 in *. rewrite Hd in Hc. by exists br, files, w.
  - rewrite H2, H3 in *. rewrite Hd in Hc. by exists br, files, w.
Qed.

Lemma it_frame_payload it : drop FixedFrameHeaderLength (it_frame it) = it_payload it.
Proof. unfold it_frame. rewrite app_assoc. by rewrite drop_app_length'. Qed.

Lemma fsm_step_nodes g fr : LiveNodes (fsm_step g fr) = LiveNodes g.
Proof. unfold fsm_step. by repeat case_match. Qed.

(** An operation that does not apply: its data is skipped, and files stay. *)
Lemma skipOperation_ok it br rest w :
  item_ok it → fs_faults w = [] → reader_ok br → contents br = it_data it ++ rest →
  ∃ br', match op_Write (it_op it) with
         | Some (_, _, len) => copyFixed Discarding br len w = Ret (w, br', Discarding, None)
         | None => br' = br
         end ∧ reader_ok br' ∧ contents br' = rest.
Proof.
  intros [_ _ _ Hd] Hw Hok Hc. destruct (op_Write (it_op it)) as [[[f off] len]|]; [|rewrite Hd in Hc; by exists br].
  destruct Hd as [_ ->]. destruct (copyFixed_ok Discarding br (length (it_data it)) w) as (br' & Hcp & Hok' & Hc' & _);
    [done|done|rewrite Hc, length_app; lia|].
  rewrite Hc, drop_app_length in Hc'. by exists br'.
Qed.

(** The files of a player after an operation, and its reader past it. *)
Lemma playOperation_spec dir it offset br g files w cs rest g' err :
  item_ok it → staged dir files w cs → agrees g cs → (∀ f nd, LiveNodes g !! f = Some nd → f < NextSeqNo g) →
  reader_ok br → contents br = it_bytes it ++ rest → 0 ≤ offset → offset + Z.of_nat (length (it_bytes it)) < MaxInt64 →
  FSM_Apply g (op_at it offset) (it_payload it) = (g', err) →
  ∃ br' files' w' cs',
    playOperation UnmarshalOp dir offset (mkPlaying br g files w) =
      Ret (mkPlaying br' g' files' w', op_at it offset, negb (is_some err), None) ∧
    cs' = (if is_some err then cs else reenacted g' (op_at it offset) (it_data it) cs) ∧
    staged dir files' w' cs' ∧ agrees g' cs' ∧ reader_ok br' ∧ contents br' = rest.
Proof.
  intros Hit Hst Ha Hlive Hok Hc Ho Hmax Happ.
  destruct (decodeOperation_ok it br rest offset Hit Hok Hc Ho Hmax) as (br1 & Hdec & Hok1 & Hc1).
  unfold playOperation. cbn [p_br p_fsm p_files p_fs]. rewrite Hdec. cbn [outcome_bind]. unfold applyOperation. rewrite it_frame_payload, Happ.
  pose proof (FSM_Apply_cases _ _ _ _ _ Happ) as Hcases. destruct err as [e|]; cbn [is_some negb].
  - assert (LiveNodes g' = LiveNodes g) as Hln.
    { destruct Hcases as [(_ & _ & ->)|(_ & _ & _ & g1 & [[? _]|[_ ->]] & ->)]; [done|done|apply fsm_step_nodes]. }
    destruct (skipOperation_ok it br1 rest w Hit (sd_faults _ _ _ _ Hst) Hok1 Hc1) as (br' & Hsk & Hok' & Hc').
    assert (agrees g' cs) as Ha' by (unfold agrees in *; by rewrite Hln).
    exists br', files, w, cs. split; [|done]. cbn [op_at with_offsets op_Write p_br p_fsm p_files p_fs].
    destruct (op_Write (it_op it)) as [[[f off] len]|]; [rewrite Hsk; done|by subst br'].
  - destruct Hcases as [(? & _)|(Hseq & _ & _ & g1 & [[_ Hb]|[? _]] & ->)]; [done| |done].
    assert (LiveNodes g !! op_SeqNo (it_op it) = None) as Hfresh.
    { destruct (LiveNodes g !! op_SeqNo (it_op it)) eqn:E; [|done]. apply Hlive in E. cbn in Hseq. lia. }
    destruct (reenactOperation_ok dir it offset br1 g g1 (it_payload it) files w cs rest) as (br' & files' & w' & Hre & Hst' & Hok' & Hc'); [done..|].
    cbn [p_br p_fsm p_files p_fs]. rewrite Hre. cbn [outcome_bind fmap option_fmap option_map].
    exists br', files', w'. eexists. split_and!; [done|reflexivity|done| |done|done].
    apply (reenacted_agrees g); [done| |done]. apply Hit.
Qed.
End operations.

(** ** Hand-offs *)

(** A marshaling of no-ops, which hand-offs are. *)
Definition noop_marshal (op : RecordedOp) : bytes + string := inl (Z_le 8 (op_SeqNo op) ++ Z_le 8 (op_Checksum op) ++ Z_le 8 (op_Author op)).
Definition noop_unmarshal (b : bytes) : RecordedOp + string :=
  inl (mkOp (le_Z (take 8 b)) (le_Z (take 8 (drop 8 b))) (le_Z (drop 16 b)) 0 0 None None None None None).

Definition noop (seqNo checksum author : Z) : bytes :=
  fst (Marshal noop_marshal (mkOp seqNo checksum author 0 0 None None None None None)).

Definition peek_of (content : bytes) : select_case := SelPeek (mkSource content ErrOffsetNotYetAvailable []) 0.

(** What the log of author 9 holds once author 5 was handed the log, who lost the race: the
    operation of author 9, then the injected one, which the client appended twice. *)
Definition handoff_run (copies : nat) : list env :=
  let mine := noop 1 0 5 in
  let tail := concat (replicate copies mine) in
  [ mkEnv (SelHandoff 5) None (inr "");
    mkEnv (peek_of []) None (inl (64, mkSource (noop 1 0 9 ++ tail) ErrOffsetNotYetAvailable []));
    mkEnv (peek_of tail) None (inr "");
    mkEnv (peek_of (drop 32 tail)) None (inr "") ].

Definition handoff_play (copies iterations : nat) : outcome (play_state + FS * (FSM + error)) :=
  playLog noop_marshal noop_unmarshal (λ _, []) (λ _, []) [] (mkHints "log" [] []) (inl 0)
    (take iterations (handoff_run copies)) (mkFS ∅ ∅ 0 []).

(** A hand-off whose operation is in the log twice crashes the player. It lost the race against
    another author; reading the first copy it goes back to the state in which it injects
    another, and at the second copy, by the same author, panics with "unexpected state". With a
    single copy it is in the state to inject again. *)
Theorem duplicate_handoff_panics :
  handoff_play 2 4 = Panic "unexpected state" ∧
  match handoff_play 1 3 with Ret (inl s) => ps_state s = playerStateInjectHandoffAtHead | _ => False end.
Proof. split; vm_compute; reflexivity. Qed.
