(* ===== verification/MakeLive.v ===== *)
(** * The end of playback: staged files become live (makeLive of playback.go)

    The staged files of a player are linked to the paths of their nodes, and properties are
    written: the directory then holds these files, and no others. *)
From Stdlib Require Import Ascii.
From S2P Require Import Prelude Encoding Protocol Framing Segment Fsm LocalFS Playback.

Abbreviation staging_comp := (String.list_ascii_of_string fnodeStagingDir).

(** Paths of files of one file system: none is a directory of another, or in the staging directory. *)
Record paths_ok (P : gset string) : Prop := {
  po_link p : p ∈ P → link_ok p;
  po_head p : p ∈ P → head (link_comps p) ≠ Some staging_comp;
  po_prefix p q x : p ∈ P → q ∈ P → link_comps q = link_comps p ++ x → x = [];
}.

Section live.
Context (dir : path) (P : gset string) (HP : paths_ok P).

(** The directory of a file that is to be live. *)
Definition dir_of_target (q : path) : Prop := ∃ p x, p ∈ P ∧ x ≠ [] ∧ q ≠ [] ∧ link_comps p = q ++ x.

(** The directory while files become live: [S] are still staged, [T] are live. *)
Record living (st : bool) (w : FS) (S : gmap Z bytes) (T : gmap string bytes) : Prop := {
  lv_faults : fs_faults w = [];
  lv_above n : n ≤ length dir → is_dir w (take n dir) = true;
  lv_inos q ino : q ≠ [] → fs_nodes w !! (dir ++ q) = Some (NFile ino) → ino < fs_next w;
  lv_staging : st = true → fs_nodes w !! stagingDir dir = Some NDir;
  lv_staged f c : S !! f = Some c → file_at w (stagedPath dir f) = Some c;
  lv_targets p c : T !! p = Some c → p ∈ P ∧ file_at w (dir ++ link_comps p) = Some c;
  lv_only q n : fs_nodes w !! (dir ++ q) = Some n → q ≠ [] →
    st = true ∧ q = [staging_comp] ∨
    (∃ f, is_Some (S !! f) ∧ dir ++ q = stagedPath dir f) ∨
    (∃ p, is_Some (T !! p) ∧ q = link_comps p) ∨
    n = NDir ∧ dir_of_target q;
}.

Lemma head_dir_of_target q : dir_of_target q → head q ≠ Some staging_comp.
Proof.
  intros (p & x & Hp & _ & Hq & Heq). destruct q as [|c q]; [done|]. pose proof (po_head _ HP p Hp) as Hh. by rewrite Heq in Hh.
Qed.

Lemma head_staged q f : dir ++ q = stagedPath dir f → head q = Some staging_comp.
Proof. unfold stagedPath. intros ->%(inj _). done. Qed.

Lemma target_ne_dir p q : p ∈ P → dir_of_target q → q ≠ link_comps p.
Proof. intros Hp (p' & x & Hp' & Hx & _ & Heq) ->. by apply Hx, (po_prefix _ HP p p' x). Qed.

Lemma target_nonempty p : p ∈ P → link_comps p ≠ [].
Proof. intros Hp. by apply link_comps_ok, (po_link _ HP). Qed.

Lemma target_not_staged p f : p ∈ P → dir ++ link_comps p ≠ stagedPath dir f.
Proof. intros Hp Heq. by apply (po_head _ HP p Hp), (head_staged _ f). Qed.

(** The node of a directory of targets is not a file. *)
Lemma dir_node st w S T q : living st w S T → dir_of_target q → ∀ ino, fs_nodes w !! (dir ++ q) ≠ Some (NFile ino).
Proof.
  intros Hl Hq ino Hn. pose proof (head_dir_of_target q Hq) as Hh. destruct Hq as (p & x & Hp & Hx & Hq0 & Heq).
  destruct (lv_only _ _ _ _ Hl q _ Hn Hq0) as [[_ ->]|[(f & _ & Hf)|[(p' & [c Hc] & ->)|[? _]]]]; [done|by apply Hh, (head_staged _ f)| |done].
  destruct (lv_targets _ _ _ _ Hl p' c Hc) as [Hp' _]. by apply Hx, (po_prefix _ HP p' p x).
Qed.

(** A path that no target is, nor a directory of one, is free. *)
Lemma target_free st w S T p : living st w S T → p ∈ P → T !! p = None → fs_nodes w !! (dir ++ link_comps p) = None.
Proof.
  intros Hl Hp Ht. destruct (fs_nodes w !! (dir ++ link_comps p)) as [n|] eqn:Hn; [|done].
  destruct (lv_only _ _ _ _ Hl _ _ Hn (target_nonempty p Hp)) as [[_ Heq]|[(f & _ & Hf)|[(p' & [c Hc] & Heq)|[_ Hd]]]].
  - pose proof (po_head _ HP p Hp) as Hh. by rewrite Heq in Hh.
  - by apply target_not_staged in Hf.
  - destruct (lv_targets _ _ _ _ Hl p' c Hc) as [Hp' _]. apply link_comps_inj in Heq; [congruence|by apply (po_link _ HP)..].
  - by apply (target_ne_dir p) in Hd.
Qed.

Lemma file_at_insert w q n p : p ≠ q → file_at (fs_with_nodes w (<[q := n]> (fs_nodes w))) p = file_at w p.
Proof. intros Hne. unfold file_at. cbn. by rewrite lookup_insert_ne. Qed.

(** ** Directories *)

Lemma mkdir_living st w S T q :
  living st w S T → dir_of_target q → living st (fs_with_nodes w (<[dir ++ q := NDir]> (fs_nodes w))) S T.
Proof.
  intros Hl Hq. pose proof (head_dir_of_target q Hq) as Hh. pose proof Hl as [L1 L2 L3 L4 L5 L6 L7]. split; cbn.
  - done.
  - intros n Hn. specialize (L2 n Hn). unfold is_dir in *. cbn. case_match; [done|]. rewrite lookup_insert_ne; [done|].
    intros Heq. destruct Hq as (_ & _ & _ & _ & Hq0 & _). apply (f_equal length) in Heq, H. rewrite length_app in Heq.
    rewrite length_take in H. destruct q; [done|]. simpl in *. lia.
  - intros q' ino Hq0 [[_ ?]|[_ Hn]]%lookup_insert_Some; [done|]. by apply (L3 q').
  - intros Hst. rewrite lookup_insert_ne; [by apply L4|]. unfold stagingDir. intros Heq%(inj _). by rewrite Heq in Hh.
  - intros f c Hf. rewrite file_at_insert; [by apply L5|]. intros Heq. symmetry in Heq. by apply Hh, (head_staged _ f).
  - intros p c Hp. destruct (L6 p c Hp) as [HpP Hfile]. split; [done|]. rewrite file_at_insert; [done|].
    intros Heq%(inj _). by apply (target_ne_dir p q HpP Hq).
  - intros q' n [[Heq%(inj _) <-]|[_ Hn]]%lookup_insert_Some Hq0; [subst q'; by auto|]. by apply L7.
Qed.

(** Directories above a target, [dir] included. *)
Lemma mkdirs_living st S T l : ∀ w,
  living st w S T → Forall (λ p, (∃ n, 0 < n ≤ length dir ∧ p = take n dir) ∨ ∃ q, dir_of_target q ∧ p = dir ++ q) l →
  ∃ w', mkdirs w l = (w', inl ()) ∧ living st w' S T ∧ (∀ p, p ∈ l → fs_nodes w' !! p = Some NDir) ∧
    (∀ p, fs_nodes w !! p = Some NDir → fs_nodes w' !! p = Some NDir).
Proof.
  induction l as [|p l IH]; intros w Hl Hd; [exists w; split_and!; [done|done|by intros p ?%not_elem_of_nil|done]|].
  apply Forall_cons in Hd as [Hp Hd]. cbn [mkdirs].
  assert (living st (fs_with_nodes w (<[p := NDir]> (fs_nodes w))) S T ∧ ∀ ino, fs_nodes w !! p ≠ Some (NFile ino)) as [Hl1 Hno].
  { destruct Hp as [(n & Hn & ->)|(q & Hq & ->)]; [|by split; [apply mkdir_living|apply (dir_node st w S T)]].
    pose proof (lv_above _ _ _ _ Hl n ltac:(lia)) as Ha. unfold is_dir in Ha.
    destruct (take n dir) as [|c cs] eqn:Ht; [apply (f_equal length) in Ht; rewrite length_take in Ht; simpl in Ht; lia|].
    destruct (fs_nodes w !! (c :: cs)) as [[]|] eqn:Hn'; try done. split; [|by intros].
    rewrite insert_id by done. by destruct w. }
  destruct (IH _ Hl1 Hd) as (w' & Hw' & Hl' & Hin & Hmono). exists w'. split_and!; [|done| |].
  - destruct (fs_nodes w !! p) as [[|ino]|]; [done|by destruct (Hno ino)|done].
  - intros p' [-> |Hp']%elem_of_cons; [|auto]. apply Hmono. cbn. by rewrite lookup_insert_eq.
  - intros p' Hp'. apply Hmono. cbn. destruct (decide (p' = p)) as [-> |]; [by rewrite lookup_insert_eq|by rewrite lookup_insert_ne].
Qed.

Lemma MkdirAll_target st w S T p :
  living st w S T → p ∈ P →
  ∃ w', MkdirAll (filepath_Dir (filepath_Join dir p)) w = (w', inl ()) ∧ living st w' S T ∧
    is_dir w' (filepath_Dir (filepath_Join dir p)) = true.
Proof.
  intros Hl Hp. rewrite Join_link by (by apply (po_link _ HP)). pose proof (target_nonempty p Hp) as Hne.
  destruct (link_comps p) as [|c cs _] eqn:Hc using rev_ind; [done|].
  assert (filepath_Dir (dir ++ cs ++ [c]) = dir ++ cs) as ->.
  { unfold filepath_Dir. rewrite app_assoc. apply take_app_length'. rewrite !length_app. simpl. lia. }
  unfold MkdirAll. rewrite syscall_ok by apply Hl.
  destruct (mkdirs_living st S T (prefixes (dir ++ cs)) w Hl) as (w' & -> & Hl' & Hin & _).
  { apply Forall_forall. intros q (n & -> & Hn)%list_elem_of_fmap. apply elem_of_seq in Hn. rewrite length_app in Hn.
    destruct (decide (n ≤ length dir)) as [Hle|Hgt].
    - left. exists n. split; [lia|]. by rewrite take_app_le.
    - right. exists (take (n - length dir) cs). split; [|rewrite take_app_ge by lia; done].
      exists p, (drop (n - length dir) cs ++ [c]). split_and!; [done|by destruct (drop _ _)| |by rewrite app_assoc, take_drop].
      intros Hnil. apply (f_equal length) in Hnil. rewrite length_take in Hnil. simpl in Hnil. lia. }
  exists w'. split_and!; [done|done|]. destruct (decide (dir ++ cs = [])) as [-> |Hne']; [done|].
  unfold is_dir. rewrite (Hin (dir ++ cs)); [by destruct (dir ++ cs)|].
  apply list_elem_of_fmap. exists (length (dir ++ cs)). rewrite firstn_all. split; [done|]. apply elem_of_seq.
  destruct (dir ++ cs); [done|simpl; lia].
Qed.

(** ** Files *)

(** A new file at the path of a target. *)
Lemma add_target st w w' S T p c :
  living st w S T → p ∈ P → T !! p = None → fs_faults w' = [] → fs_next w ≤ fs_next w' →
  (∃ ino, fs_nodes w' = <[dir ++ link_comps p := NFile ino]> (fs_nodes w) ∧ ino < fs_next w' ∧ fs_data w' !! ino = Some c) →
  (∀ ino, ino < fs_next w → fs_data w' !! ino = fs_data w !! ino) →
  living st w' S (<[p := c]> T).
Proof.
  intros Hl Hp Ht Hf Hnext (ino & Hnodes & Hino & Hdata) Hold. pose proof (target_free _ _ _ _ _ Hl Hp Ht) as Hfree.
  pose proof Hl as [L1 L2 L3 L4 L5 L6 L7].
  assert (∀ q, q ≠ [] → dir ++ link_comps p ≠ dir ++ q → file_at w' (dir ++ q) = file_at w (dir ++ q)) as Hsame.
  { intros q Hq0 Hne. unfold file_at. rewrite Hnodes, lookup_insert_ne by done. destruct (fs_nodes w !! (dir ++ q)) as [[|i]|] eqn:E; [done| |done].
    apply Hold. by apply (L3 q). }
  split.
  - done.
  - intros n Hn. specialize (L2 n Hn). unfold is_dir in *. rewrite Hnodes. case_match; [done|].
    rewrite lookup_insert_ne; [done|]. intros Heq. by rewrite <- Heq, Hfree in L2.
  - intros q i Hq. rewrite Hnodes. intros [[_ [= <-]]|[_ Hn]]%lookup_insert_Some; [done|]. specialize (L3 q i Hq Hn). lia.
  - intros Hst. specialize (L4 Hst). rewrite Hnodes, lookup_insert_ne; [done|]. intros Heq. by rewrite <- Heq, Hfree in L4.
  - intros f c' Hc'. unfold stagedPath in *. rewrite Hsame; [by apply L5|done|]. apply (target_not_staged p f Hp).
  - intros p' c' [[<- <-]|[Hne Hp']]%lookup_insert_Some.
    + split; [done|]. unfold file_at. by rewrite Hnodes, lookup_insert_eq.
    + destruct (L6 p' c' Hp') as [HpP Hfile]. split; [done|]. rewrite Hsame; [done|by apply target_nonempty|].
      intros Heq%(inj _)%link_comps_inj; [done|by apply (po_link _ HP)..].
  - intros q n. rewrite Hnodes. intros [[Heq%(inj _) _]|[_ Hn]]%lookup_insert_Some Hq.
    + right; right; left. exists p. rewrite lookup_insert_eq. by split.
    + destruct (L7 q n Hn Hq) as [?|[?|[(p' & Hp' & ?)|?]]]; [by auto|by auto| |by auto]. right; right; left. exists p'.
      split; [|done]. destruct (decide (p' = p)) as [-> |]; [by rewrite lookup_insert_eq|by rewrite lookup_insert_ne].
Qed.

Lemma Link_target w S T p f c :
  living true w S T → p ∈ P → T !! p = None → S !! f = Some c → is_dir w (filepath_Dir (dir ++ link_comps p)) = true →
  ∃ w', LocalFS.Link (stagedPath dir f) (dir ++ link_comps p) w = (w', inl ()) ∧ living true w' S (<[p := c]> T).
Proof.
  intros Hl Hp Ht Hf Hdir. pose proof (lv_staged _ _ _ _ Hl f c Hf) as Hfile. unfold file_at in Hfile.
  destruct (fs_nodes w !! stagedPath dir f) as [[|ino]|] eqn:Hn; try done.
  pose proof (target_free _ _ _ _ _ Hl Hp Ht) as Hfree. unfold LocalFS.Link. rewrite syscall_ok by apply Hl.
  rewrite Hn, Hfree, bool_decide_eq_false_2 by (by intros []). rewrite Hdir. eexists. split; [reflexivity|].
  eapply (add_target true w); [done|done|done|apply Hl|done| |done].
  exists ino. split_and!; [done| |done]. cbn. unfold stagedPath in Hn. eapply (lv_inos _ _ _ _ Hl); [|exact Hn]. done.
Qed.

(** The links of a node. *)
Lemma link_targets_living f c links : ∀ w S T,
  living true w S T → S !! f = Some c → NoDup links → (∀ p, p ∈ links → p ∈ P ∧ T !! p = None) →
  ∃ w' T', link_targets dir f links w = (w', inl ()) ∧ living true w' S T' ∧
    (∀ p, p ∈ links → T' !! p = Some c) ∧ (∀ p, p ∉ links → T' !! p = T !! p).
Proof.
  induction links as [|p links IH]; intros w S T Hl Hf Hnd Hlinks.
  { exists w, T. split_and!; [done|done|by intros p ?%not_elem_of_nil|done]. }
  apply NoDup_cons in Hnd as [Hni Hnd]. destruct (Hlinks p) as [Hp Ht]; [left|].
  destruct (MkdirAll_target true w S T p Hl Hp) as (w1 & Hmk & Hl1 & Hdir). cbn [link_targets].
  erewrite os_bind_ok by exact Hmk. rewrite Join_link in * by (by apply (po_link _ HP)).
  destruct (Link_target w1 S T p f c Hl1 Hp Ht Hf Hdir) as (w2 & Hln & Hl2). erewrite os_bind_ok by exact Hln.
  destruct (IH w2 S (<[p := c]> T) Hl2 Hf Hnd) as (w' & T' & Hrun & Hl' & Hin & Hout).
  { intros q Hq. destruct (Hlinks q) as [Hq1 Hq2]; [by right|]. split; [done|]. rewrite lookup_insert_ne; [done|]. by intros ->. }
  exists w', T'. split_and!; [done|done| |].
  - intros q [-> |Hq]%elem_of_cons; [|auto]. by rewrite (Hout p Hni), lookup_insert_eq.
  - intros q [Hne Hq]%not_elem_of_cons. by rewrite (Hout q Hq), lookup_insert_ne.
Qed.

Lemma Remove_staged w S T f :
  living true w S T → is_Some (S !! f) →
  ∃ w', Remove (stagedPath dir f) w = (w', inl ()) ∧ living true w' (delete f S) T.
Proof.
  intros Hl [c Hf]. pose proof Hl as [L1 L2 L3 L4 L5 L6 L7]. pose proof (L5 f c Hf) as Hfile. unfold file_at in Hfile.
  destruct (fs_nodes w !! stagedPath dir f) as [[|ino]|] eqn:Hn; try done.
  unfold Remove. rewrite syscall_ok by done. rewrite Hn. eexists. split; [reflexivity|].
  assert (∀ q, q ≠ stagedPath dir f → file_at (fs_with_nodes w (delete (stagedPath dir f) (fs_nodes w))) q = file_at w q) as Hsame.
  { intros q Hne. unfold file_at. cbn. by rewrite lookup_delete_ne. }
  split; cbn.
  - done.
  - intros n Hn'. specialize (L2 n Hn'). unfold is_dir in *. cbn. case_match; [done|].
    rewrite lookup_delete_ne; [done|]. intros Heq. by rewrite <- Heq, Hn in L2.
  - intros q i Hq0 [_ Hq]%lookup_delete_Some. by apply (L3 q).
  - intros Hst. rewrite lookup_delete_ne; [auto|]. intros Heq. by apply (staging_not_staged dir f).
  - intros g c' [Hne Hg]%lookup_delete_Some. rewrite Hsame; [auto|]. intros Heq%(inj _). congruence.
  - intros p c' Hp. destruct (L6 p c' Hp) as [HpP Hfl]. split; [done|]. rewrite Hsame; [done|]. by apply target_not_staged.
  - intros q n [Hne Hq]%lookup_delete_Some Hq0. destruct (L7 q n Hq Hq0) as [?|[(g & Hg & Heq)|[?|?]]]; [by auto| |by auto|by auto].
    right; left. exists g. split; [|done]. rewrite lookup_delete_ne; [done|]. intros ->. congruence.
Qed.

(** The loop over live nodes, of which [nodes] lists each with its links. *)
Lemma link_nodes_living nodes : ∀ w files S T,
  living true w S T → (∀ f, is_Some (S !! f) ↔ is_Some (files !! f)) → NoDup (fst <$> nodes) →
  (∀ f, is_Some (S !! f) ↔ f ∈ fst <$> nodes) → NoDup (concat (snd <$> nodes)) →
  (∀ p, p ∈ concat (snd <$> nodes) → p ∈ P ∧ T !! p = None) →
  ∃ w' T', link_nodes dir nodes files w = (w', ∅, None) ∧ living true w' ∅ T' ∧
    (∀ f links p c, (f, links) ∈ nodes → p ∈ links → S !! f = Some c → T' !! p = Some c) ∧
    (∀ p, p ∉ concat (snd <$> nodes) → T' !! p = T !! p).
Proof.
  induction nodes as [|[f links] nodes IH]; intros w files S T Hl Hfiles Hnd HS Hlnd Hlinks.
  { assert (S = ∅) as ->. { apply map_eq. intros f. rewrite lookup_empty. destruct (S !! f) eqn:E; [|done].
      exfalso. eapply not_elem_of_nil, HS. by eexists. }
    assert (files = ∅) as ->. { apply map_eq. intros f. rewrite lookup_empty. destruct (files !! f) eqn:E; [|done].
      destruct (proj2 (Hfiles f)) as [? Hx]; [by eexists|]. by rewrite lookup_empty in Hx. }
    exists w, T. split_and!; [done|done|by intros ? ? ? ? ?%not_elem_of_nil|done]. }
  cbn [fmap list_fmap fst snd concat] in *. apply NoDup_cons in Hnd as [Hni Hnd]. apply NoDup_app in Hlnd as (Hlnd & Hdis & Hlnd').
  destruct (proj2 (HS f)) as [c Hc]; [left|]. destruct (proj1 (Hfiles f)) as [h Hh]; [by eexists|].
  destruct (link_targets_living f c links w S T Hl Hc Hlnd) as (w1 & T1 & Hrun & Hl1 & Hin & Hout).
  { intros p Hp. apply Hlinks, elem_of_app. by left. }
  destruct (Remove_staged w1 S T1 f Hl1) as (w2 & Hrm & Hl2); [by eexists|].
  destruct (IH w2 (delete f files) (delete f S) T1 Hl2) as (w' & T' & Hrun' & Hl' & Hin' & Hout'); [|done| |done| |].
  { intros g. destruct (decide (g = f)) as [-> |]; [by rewrite !lookup_delete_eq|by rewrite !lookup_delete_ne]. }
  { intros g. destruct (decide (g = f)) as [-> |Hne]; [rewrite lookup_delete_eq; split; [by intros []|done]|].
    rewrite lookup_delete_ne by done. rewrite HS, elem_of_cons. naive_solver. }
  { intros p Hp. destruct (Hlinks p) as [HpP Ht]; [apply elem_of_app; by right|]. split; [done|]. rewrite Hout; [done|]. intros Hp'. by apply (Hdis p). }
  exists w', T'. split_and!.
  - cbn [link_nodes]. erewrite os_bind_ok by exact Hrun. erewrite os_bind_ok; [|rewrite Hh; unfold Close; rewrite syscall_ok by apply Hl1; reflexivity].
    rewrite Hrm. done.
  - done.
  - intros g ls p c' [[= -> ->]|Hg]%elem_of_cons Hp HSg.
    + rewrite Hout'; [by rewrite Hin; congruence|]. intros Hp'. by apply (Hdis p).
    + assert (g ≠ f) as Hne by (intros ->; apply Hni, list_elem_of_fmap; by exists (f, ls)).
      apply (Hin' g ls p c' Hg Hp). by rewrite lookup_delete_ne.
  - intros p [Hp1 Hp2]%not_elem_of_app. by rewrite Hout', Hout.
Qed.

Lemma Remove_staging w T :
  living true w ∅ T → ∃ w', Remove (stagingDir dir) w = (w', inl ()) ∧ living false w' ∅ T ∧ fs_nodes w' !! stagingDir dir = None.
Proof.
  intros Hl. pose proof Hl as [L1 L2 L3 L4 L5 L6 L7]. unfold Remove. rewrite syscall_ok by done. rewrite (L4 eq_refl).
  rewrite bool_decide_eq_true_2.
  2:{ apply map_eq. intros q. rewrite lookup_empty. apply map_lookup_filter_None. right. intros n Hn Hb. cbn in Hb.
      apply Is_true_true_1, below_spec in Hb as (x & Hx & ->). unfold stagingDir in Hn. rewrite <- app_assoc in Hn.
      destruct (L7 _ _ Hn ltac:(done)) as [[_ Heq]|[(f & [c Hf] & _)|[(p & [c Hp] & Heq)|[_ Hd]]]].
      - cbn in Heq. by injection Heq as ->.
      - by rewrite lookup_empty in Hf.
      - destruct (L6 p c Hp) as [HpP _]. pose proof (po_head _ HP p HpP) as Hh. by rewrite <- Heq in Hh.
      - by apply head_dir_of_target in Hd. }
  eexists. split; [reflexivity|]. split; [|cbn; by rewrite lookup_delete_eq]. split; cbn.
  - done.
  - intros n Hn'. specialize (L2 n Hn'). unfold is_dir in *. cbn. case_match; [done|]. rewrite lookup_delete_ne; [done|].
    intros Heq. apply (f_equal length) in Heq, H. unfold stagingDir in Heq. rewrite length_app in Heq. rewrite length_take in H. simpl in *. lia.
  - intros q i Hq0 [_ Hq]%lookup_delete_Some. by apply (L3 q).
  - done.
  - intros f c Hf. by rewrite lookup_empty in Hf.
  - intros p c Hp. destruct (L6 p c Hp) as [HpP Hfl]. split; [done|]. unfold file_at. cbn. rewrite lookup_delete_ne; [done|].
    unfold stagingDir. intros Heq%(inj _). pose proof (po_head _ HP p HpP) as Hh. by rewrite <- Heq in Hh.
  - intros q n [Hne Hq]%lookup_delete_Some Hq0. destruct (L7 q n Hq Hq0) as [[_ ->]|[?|[?|?]]]; [done|by auto..].
Qed.

Lemma write_file_living w T p c :
  living false w ∅ T → p ∈ P → T !! p = None → is_dir w (filepath_Dir (dir ++ link_comps p)) = true →
  ∃ w', write_file (dir ++ link_comps p) c w = (w', inl ()) ∧ living false w' ∅ (<[p := c]> T).
Proof.
  intros Hl Hp Ht Hdir. pose proof (target_free _ _ _ _ _ Hl Hp Ht) as Hfree. unfold write_file.
  erewrite os_bind_ok; [|unfold OpenFile; rewrite syscall_ok by apply Hl; rewrite Hfree, Hdir; reflexivity].
  set (w1 := mkFS _ _ _ _). assert (fs_faults w1 = []) as Hf1 by apply Hl.
  assert (∃ w2, (match c with [] => (w1, inl ()) | _ => match file_Write (mkFile (fs_next w) 0) c w1 with (w, _, _, None) => (w, inl ()) | (w, _, _, Some e) => (w, inr e) end end) = (w2, inl () : () + error) ∧
    fs_nodes w2 = fs_nodes w1 ∧ fs_data w2 = <[fs_next w := c]> (fs_data w) ∧ fs_next w2 = S (fs_next w) ∧ fs_faults w2 = []) as (w2 & Hw2 & H1 & H2 & H3 & H4).
  { destruct c as [|x c]; [by exists w1|]. unfold file_Write, next_fault. rewrite Hf1. eexists. split; [reflexivity|]. split_and!; [done| |done|done].
    cbn. rewrite lookup_insert_eq, insert_insert_eq, firstn_all. cbn. by rewrite app_nil_r. }
  erewrite os_bind_ok by exact Hw2. unfold Close. rewrite syscall_ok by done. exists w2. split; [done|].
  eapply (add_target false w); [done|done|done|done|lia| |].
  - exists (fs_next w). rewrite H1, H2, lookup_insert_eq. split_and!; [done|lia|done].
  - intros ino Hino. rewrite H2, lookup_insert_ne by lia. done.
Qed.

Lemma write_properties_living props : ∀ w T,
  living false w ∅ T → NoDup (fst <$> props) → (∀ p, p ∈ fst <$> props → p ∈ P ∧ T !! p = None) →
  ∃ w' T', write_properties dir props w = (w', inl ()) ∧ living false w' ∅ T' ∧
    (∀ p c, (p, c) ∈ props → T' !! p = Some (str_bytes c)) ∧ (∀ p, p ∉ fst <$> props → T' !! p = T !! p).
Proof.
  induction props as [|[p c] props IH]; intros w T Hl Hnd Hp.
  { exists w, T. split_and!; [done|done|by intros ? ? ?%not_elem_of_nil|done]. }
  cbn [fmap list_fmap fst] in *. apply NoDup_cons in Hnd as [Hni Hnd]. destruct (Hp p) as [HpP Ht]; [left|].
  destruct (MkdirAll_target false w ∅ T p Hl HpP) as (w1 & Hmk & Hl1 & Hdir). cbn [write_properties].
  erewrite os_bind_ok by exact Hmk. rewrite Join_link in * by (by apply (po_link _ HP)).
  destruct (write_file_living w1 T p (str_bytes c) Hl1 HpP Ht Hdir) as (w2 & Hwr & Hl2). erewrite os_bind_ok by exact Hwr.
  destruct (IH w2 _ Hl2 Hnd) as (w' & T' & Hrun & Hl' & Hin & Hout).
  { intros q Hq. destruct (Hp q) as [Hq1 Hq2]; [by right|]. split; [done|]. rewrite lookup_insert_ne; [done|]. by intros ->. }
  exists w', T'. split_and!; [done|done| |].
  - intros q c' [[= -> ->]|Hq]%elem_of_cons; [|auto]. by rewrite (Hout p Hni), lookup_insert_eq.
  - intros q [Hne Hq]%not_elem_of_cons. by rewrite (Hout q Hq), lookup_insert_ne.
Qed.
End live.

(** ** makeLive *)

(** An order in which the code may visit the live nodes and their links. *)
Record node_order (fsm : FSM) (nodes : list (Z * list string)) : Prop := {
  no_dup : NoDup (fst <$> nodes);
  no_nodes f links : (f, links) ∈ nodes → ∃ nd, LiveNodes fsm !! f = Some nd ∧ links ≡ₚ elements (fn_Links nd);
  no_all f : is_Some (LiveNodes fsm !! f) → f ∈ fst <$> nodes;
}.

Definition live_paths (fsm : FSM) : gset string := dom (Links fsm) ∪ dom (Properties fsm).

(** The directory holds the files of the FSM: at each link the content of its node, the
    properties, and no other file. *)
Record restored (dir : path) (fsm : FSM) (content : Z → bytes) (w : FS) : Prop := {
  rs_links p f : Links fsm !! p = Some f → file_at w (filepath_Join dir p) = Some (content f);
  rs_props p c : Properties fsm !! p = Some c → file_at w (filepath_Join dir p) = Some (str_bytes c);
  rs_only q c : q ≠ [] → file_at w (dir ++ q) = Some c → ∃ p, p ∈ live_paths fsm ∧ dir ++ q = filepath_Join dir p;
  rs_staging : fs_nodes w !! filepath_Join dir fnodeStagingDir = None;
}.

Lemma staged_living dir P files w cs : paths_ok P → staged dir files w cs → living dir P true w cs ∅.
Proof.
  intros HP [Hfa Hd Ha Hf Hi Hdata Hdom Hon].
  assert (∀ q n, q ≠ [] → fs_nodes w !! (dir ++ q) = Some n → q = [staging_comp] ∨ ∃ f h, files !! f = Some h ∧ dir ++ q = stagedPath dir f) as Hq.
  { intros q n Hq Hn. destruct (Hon _ _ Hn) as [Heq|?]; [apply below_spec; by exists q| |by right]. left. by apply (inj (dir ++.)) in Heq. }
  split; [done|done| |done| | |].
  - intros q ino Hq0 Hn. destruct (Hq q _ Hq0 Hn) as [-> |(f & h & Hh & Heq)]; [unfold stagingDir in Hd; congruence|].
    destruct (Hf f h Hh) as [Hn' Hlt]. rewrite Heq, Hn' in Hn. by injection Hn as <-.
  - intros f c Hc. destruct (proj1 (Hdom f)) as [h Hh]; [by eexists|]. unfold file_at. destruct (Hf f h Hh) as [-> _]. by rewrite (Hdata f h Hh).
  - intros p c Hp. by rewrite lookup_empty in Hp.
  - intros q n Hn Hq0. destruct (Hq q n Hq0 Hn) as [-> |(f & h & Hh & Heq)]; [by left|]. right; left. exists f. split; [|done]. apply Hdom. by eexists.
Qed.

(** The links of all live nodes, each once. *)
Lemma node_order_links fsm nodes : links_ok (LiveNodes fsm) (Links fsm) → node_order fsm nodes →
  NoDup (concat (snd <$> nodes)) ∧ ∀ p, p ∈ concat (snd <$> nodes) ↔ is_Some (Links fsm !! p).
Proof.
  intros [Hl _] [Hnd Hn Hall]. split.
  - clear Hall. induction nodes as [|[f links] nodes IH]; [constructor|]. cbn in Hnd |- *. apply NoDup_cons in Hnd as [Hni Hnd].
    destruct (Hn f links) as (nd & Hnd1 & Hperm); [left|]. apply NoDup_app. split_and!; [rewrite Hperm; apply NoDup_elements| |apply IH; [done|intros; apply Hn; by right]].
    intros p Hp Hp'. rewrite Hperm in Hp. apply elem_of_elements in Hp.
    apply list_elem_of_In, in_concat in Hp' as (ls & Hls & Hin). apply list_elem_of_In in Hls, Hin. apply list_elem_of_fmap in Hls as ([g ls'] & -> & Hg).
    destruct (Hn g ls') as (nd' & Hnd2 & Hperm'); [by right|]. cbn in Hin. rewrite Hperm' in Hin. apply elem_of_elements in Hin.
    assert (Links fsm !! p = Some f) as E1 by (apply Hl; eauto). assert (Links fsm !! p = Some g) as E2 by (apply Hl; eauto).
    apply Hni. assert (f = g) as -> by congruence. apply list_elem_of_fmap. by exists (g, ls').
  - intros p. rewrite list_elem_of_In, in_concat. split.
    + intros (ls & Hls & Hin). apply list_elem_of_In in Hls, Hin. apply list_elem_of_fmap in Hls as ([g ls'] & -> & Hg).
      destruct (Hn g ls' Hg) as (nd & Hnd' & Hperm). cbn in Hin. rewrite Hperm in Hin. apply elem_of_elements in Hin. exists g. apply Hl. eauto.
    + intros [f (nd & Hnd' & Hp)%Hl]. destruct (proj1 (list_elem_of_fmap _ _ _) (Hall f ltac:(by eexists))) as ([g ls] & -> & Hg).
      destruct (Hn g ls Hg) as (nd2 & Hnd2 & Hperm). cbn in *. exists ls. split; [apply list_elem_of_In, list_elem_of_fmap; by exists (g, ls)|].
      apply list_elem_of_In. rewrite Hperm. apply elem_of_elements. congruence.
Qed.

(** Staged files become live. *)
Lemma makeLive_spec dir nodes props fsm files w cs content :
  staged dir files w cs → agrees fsm cs → (∀ f c, cs !! f = Some c → c = content f) → links_ok (LiveNodes fsm) (Links fsm) →
  (∀ p c, Properties fsm !! p = Some c → Links fsm !! p = None) → paths_ok (live_paths fsm) →
  hasRemainingHints fsm = false → node_order fsm nodes → props ≡ₚ map_to_list (Properties fsm) →
  ∃ w', makeLive dir nodes props fsm files w = Ret (w', ∅, None) ∧ restored dir fsm content w'.
Proof.
  intros Hst Ha Hcontent Hlk Hpd HP Hhints Hno Hprops. destruct (node_order_links fsm nodes Hlk Hno) as [Hlnd Hlinks].
  pose proof (staged_living dir _ files w cs HP Hst) as Hl.
  destruct (link_nodes_living dir _ HP nodes w files cs ∅ Hl) as (w1 & T1 & Hrun & Hl1 & Hin & Hout).
  { apply Hst. }
  { apply Hno. }
  { intros f. rewrite (Ha f). split; [apply Hno|]. intros ([g ls] & -> & Hg)%list_elem_of_fmap.
    destruct (no_nodes _ _ Hno g ls Hg) as (nd & Hnd & _). cbn. by rewrite Hnd. }
  { done. }
  { intros p Hp%Hlinks. split; [|by rewrite lookup_empty]. unfold live_paths. apply elem_of_union. left. by apply elem_of_dom. }
  destruct (Remove_staging dir _ HP w1 T1 Hl1) as (w2 & Hrm & Hl2 & _).
  assert (∀ p, p ∈ fst <$> props ↔ is_Some (Properties fsm !! p)) as Hpin.
  { intros p. rewrite Hprops, list_elem_of_fmap. split.
    - intros ([q c] & -> & Hq%elem_of_map_to_list). by eexists.
    - intros [c Hc]. exists (p, c). split; [done|]. by apply elem_of_map_to_list. }
  destruct (write_properties_living dir _ HP props w2 T1 Hl2) as (w' & T' & Hwp & Hl' & Hpr & Hpo).
  { rewrite Hprops. apply NoDup_fst_map_to_list. }
  { intros p Hp%Hpin. split; [apply elem_of_union; right; by apply elem_of_dom|]. rewrite Hout; [apply lookup_empty|].
    rewrite Hlinks. destruct Hp as [c Hc]. rewrite (Hpd p c Hc). by intros []. }
  exists w'. split.
  { unfold makeLive. rewrite Hhints, Hrun, map_size_empty. cbn [Nat.eqb negb]. erewrite os_bind_ok by (rewrite Join_staging; exact Hrm). by rewrite Hwp. }
  assert (∀ p, p ∈ live_paths fsm → filepath_Join dir p = dir ++ link_comps p) as Hjoin by (intros p Hp; by apply Join_link, (po_link _ HP)).
  assert (∀ p c, T' !! p = Some c → p ∈ live_paths fsm ∧ file_at w' (filepath_Join dir p) = Some c) as HT.
  { intros p c Hp. destruct (lv_targets _ _ _ _ _ _ Hl' p c Hp) as [HpP Hf]. by rewrite Hjoin. }
  split.
  - intros p f Hp. destruct (proj1 (proj1 Hlk p f) Hp) as (nd & Hnd & Hpnd). destruct (proj2 (Ha f)) as [c Hc]; [by rewrite Hnd|].
    rewrite <- (Hcontent f c Hc). apply HT. rewrite Hpo.
    + destruct (proj1 (list_elem_of_fmap _ _ _) (no_all _ _ Hno f ltac:(by rewrite Hnd))) as ([g ls] & -> & Hg).
      destruct (no_nodes _ _ Hno g ls Hg) as (nd2 & Hnd2 & Hperm). cbn in *. apply (Hin g ls p c Hg); [|done].
      rewrite Hperm. apply elem_of_elements. congruence.
    + rewrite Hpin. intros [c' Hc']. specialize (Hpd p c' Hc'). congruence.
  - intros p c Hp. apply HT, Hpr. rewrite Hprops. by apply elem_of_map_to_list.
  - intros q c Hq Hf. unfold file_at in Hf. destruct (fs_nodes w' !! (dir ++ q)) as [[|ino]|] eqn:Hn; try done.
    destruct (lv_only _ _ _ _ _ _ Hl' q _ Hn Hq) as [[? _]|[(f & [? Hf'] & _)|[(p & [c' Hp] & ->)|[? _]]]]; [done|by rewrite lookup_empty in Hf'| |done].
    destruct (HT p c' Hp) as [HpP _]. exists p. by rewrite Hjoin.
  - rewrite Join_staging. destruct (fs_nodes w' !! stagingDir dir) as [n|] eqn:Hn; [|done]. unfold stagingDir in Hn.
    destruct (lv_only _ _ _ _ _ _ Hl' _ _ Hn ltac:(done)) as [[? _]|[(f & [? Hf'] & _)|[(p & [c' Hp] & Heq)|[_ Hd]]]]; [done|by rewrite lookup_empty in Hf'| |].
    + destruct (HT p c' Hp) as [HpP _]. pose proof (po_head _ HP p HpP) as Hh. by rewrite <- Heq in Hh.
    + by apply (head_dir_of_target _ HP) in Hd.
Qed.
