(* ===== verification/Restore.v ===== *)
(** * Playback restores the recorded files

    The composition of the recovery log: its operations and data, framed into a journal; the
    hints of the state that they lead to; and a player that reads the journal. It ends with the
    files that were recorded, at their paths and with their contents. *)
From Stdlib Require Import Ascii.
From S2P Require Import Prelude Encoding Protocol Framing Segment Fsm LocalFS Playback MakeLive.
Local Open Scope Z_scope.

(** ** Contents of nodes *)

(** What the writes of the log make of a node. *)
Definition write_item (f : Z) (c : bytes) (it : item) : bytes :=
  match op_Write (it_op it) with
  | Some (k, off, _) => if k =? f then write_at c (Z.to_nat off) (it_data it) else c
  | None => c
  end.
Definition content_of (its : list item) (f : Z) : bytes := foldl (write_item f) [] its.

(** The journal of a log, and the offset of an operation. *)
Definition log_bytes (its : list item) : bytes := concat (it_bytes <$> its).
Definition start (its : list item) (i : nat) : Z := Z.of_nat (length (log_bytes (take i its))).

(** The operations as they are played: with their offsets. *)
Definition played (its : list item) : list entry := imap (λ i it, (op_at it (start its i), it_payload it)) its.

Lemma length_played its : length (played its) = length its.
Proof. apply length_imap. Qed.

Lemma played_lookup its i it : its !! i = Some it → played its !! i = Some (op_at it (start its i), it_payload it).
Proof. intros Hi. unfold played. by rewrite list_lookup_imap, Hi. Qed.

Lemma played_take_S its i it : its !! i = Some it →
  take (S i) (played its) = take i (played its) ++ [(op_at it (start its i), it_payload it)].
Proof. intros Hi. apply take_S_r. by apply played_lookup. Qed.

Lemma content_of_S its i it f : its !! i = Some it → content_of (take (S i) its) f = write_item f (content_of (take i its) f) it.
Proof. intros Hi. unfold content_of. by rewrite (take_S_r _ _ _ Hi), foldl_app. Qed.

Lemma content_untouched its i f :
  (∀ j it, (j < i)%nat → its !! j = Some it → op_Write (it_op it) ≠ None → ¬ touches (it_op it) f) →
  (∀ j it, (j < i)%nat → its !! j = Some it → single (it_op it)) →
  content_of (take i its) f = [].
Proof.
  induction i as [|i IH]; intros Hno Hs; [done|]. destruct (its !! i) as [it|] eqn:Hi.
  - rewrite (content_of_S _ _ _ _ Hi), IH by (intros; eauto with lia). unfold write_item.
    destruct (op_Write (it_op it)) as [[[k off] n]|] eqn:Hw; [|done]. destruct (Z.eqb_spec k f) as [-> |]; [|done].
    destruct (Hno i it); [lia|done|by rewrite Hw|]. destruct (single_fields _ (Hs i it ltac:(lia) Hi)) as (H1 & H2 & H3).
    unfold touches. destruct (op_Create (it_op it)); [by destruct H1 as (_ & _ & ?); [|congruence]|].
    destruct (op_Link (it_op it)); [by destruct H2 as (_ & ?); [|congruence]|].
    destruct (op_Unlink (it_op it)); [by rewrite H3 in Hw|]. by rewrite Hw.
  - apply lookup_ge_None in Hi. rewrite take_ge by lia. rewrite <- (take_ge its i) by lia. apply IH; intros; eauto with lia.
Qed.

Section contents.
Context (MarshalOp : RecordedOp → bytes + string).
Context (log : string) (its : list item) (Hits : Forall (item_ok MarshalOp) its).
Context (F : list Z) (H : SegmentSet) (props : gmap string string) (Hpb : playable F H props (played its)).

(** The staged contents of a player that has read [i] operations. *)
Definition holds (i : nat) (g : FSM) (cs : gmap Z bytes) : Prop :=
  agrees g cs ∧ ∀ f c, cs !! f = Some c → c = content_of (take i its) f.

Lemma its_ok i it : its !! i = Some it → item_ok MarshalOp it.
Proof. intros Hi. eapply Forall_lookup_1 in Hits; eauto. Qed.

Lemma write_touches it f off n : item_ok MarshalOp it → op_Write (it_op it) = Some (f, off, n) →
  op_Create (it_op it) = None ∧ op_Link (it_op it) = None ∧ op_Unlink (it_op it) = None.
Proof.
  intros [_ _ Hs _] Hw. destruct (single_fields _ Hs) as (H1 & H2 & H3).
  destruct (op_Create (it_op it)); [by destruct H1 as (_ & _ & ?); [|congruence]|].
  destruct (op_Link (it_op it)); [by destruct H2 as (_ & ?); [|congruence]|].
  destruct (op_Unlink (it_op it)); [by rewrite H3 in Hw|]. done.
Qed.

(** An operation that is not applied writes to no live node. *)
Lemma skipped_write i it m m' g g' e f off n :
  plays log F H props (played its) (take i (played its)) m g → history_of log (take i (played its)) m →
  its !! i = Some it → FSM_Apply m (op_at it (start its i)) (it_payload it) = (m', None) → Properties m' ⊆ props →
  FSM_Apply g (op_at it (start its i)) (it_payload it) = (g', Some e) → op_Write (it_op it) = Some (f, off, n) →
  LiveNodes g !! f = None.
Proof.
  intros Hp Hh Hi Hm Hprops Hg Hw. pose proof (its_ok i it Hi) as Hit. pose proof (played_lookup _ _ _ Hi) as Hx.
  assert (length (take i (played its)) = i) as Hlen.
  { rewrite length_take, length_played. apply lookup_lt_Some in Hi. lia. }
  destruct (write_touches it f off n Hit Hw) as (W1 & W2 & W3). destruct Hpb as [HFs Hl Hops HHi Hsegs Ht Hc Hsi Hga].
  destruct (plays_snoc_err log F H props HFs (played its) Hl Hops HHi Hsegs Ht Hc Hsi Hga (take i (played its))
    (op_at it (start its i), it_payload it) m m' g) as [_ Herr]; [done|done|by rewrite Hlen|done|done|].
  cbn [fst snd] in Herr. rewrite Hg in Herr. cbn [snd] in Herr. destruct Herr as [?|[[= ->]|Hnt]]; [done| |].
  - destruct (FSM_Apply_cases _ _ _ _ _ Hg) as [(_ & ? & _)|(_ & _ & _ & _)]; [done|].
    destruct (LiveNodes g !! f) as [nd|] eqn:Hnd; [|done]. exfalso. revert Hg.
    unfold FSM_Apply, apply_body, applyWrite. cbn [op_at with_offsets op_Create op_Link op_Unlink op_Write op_Author op_SeqNo op_Checksum].
    rewrite W1, W2, W3, Hw, Hnd. repeat case_match; try done; congruence.
  - apply Hnt. unfold touches. cbn. by rewrite W1, W2, W3, Hw.
Qed.

Lemma holds_step i it m m' g g' err cs :
  plays log F H props (played its) (take i (played its)) m g → history_of log (take i (played its)) m →
  its !! i = Some it → FSM_Apply m (op_at it (start its i)) (it_payload it) = (m', None) → Properties m' ⊆ props →
  FSM_Apply g (op_at it (start its i)) (it_payload it) = (g', err) → holds i g cs →
  holds (S i) g' (if is_some err then cs else reenacted g' (op_at it (start its i)) (it_data it) cs).
Proof.
  intros Hp Hh Hi Hm Hprops Hg [Ha Hcs]. pose proof (its_ok i it Hi) as Hit.
  assert (∀ c f, cs !! f = Some c → (∀ off n, op_Write (it_op it) ≠ Some (f, off, n)) → c = content_of (take (S i) its) f) as Hsame.
  { intros c f Hf Hw. rewrite (content_of_S _ _ _ _ Hi). unfold write_item. destruct (op_Write (it_op it)) as [[[k off] n]|]; [|auto].
    destruct (Z.eqb_spec k f) as [-> |]; [by destruct (Hw off n)|auto]. }
  destruct (FSM_Apply_cases _ _ _ _ _ Hg) as [(He & _ & ->)|(Hseq & _ & _ & g1 & [[-> Hb]|[-> ->]] & ->)].
  - destruct err as [e|]; [|done]. cbn [is_some]. split; [done|]. intros f c Hf. apply Hsame; [done|]. intros off n Hw.
    pose proof (skipped_write i it m m' g g e f off n Hp Hh Hi Hm Hprops Hg Hw) as Hn. destruct (proj1 (Ha f)) as [nd Hnd]; [by eexists|congruence].
  - cbn [is_some]. split; [apply (reenacted_agrees g); [done|apply Hit|done]|]. intros f c.
    pose proof (io_single _ _ Hit) as Hs. destruct (single_fields _ Hs) as (S1 & S2 & S3). unfold reenacted.
    cbn [op_at with_offsets op_Create op_Unlink op_Write op_SeqNo].
    destruct (op_Create (it_op it)) eqn:E1.
    { destruct S1 as (_ & _ & Hw); [done|]. intros [[<- <-]|[Hne Hf]]%lookup_insert_Some; [|apply Hsame; [done|by rewrite Hw]].
      rewrite (content_of_S _ _ _ _ Hi). unfold write_item. rewrite Hw. symmetry. apply content_untouched.
      - intros j y Hj Hy _ Ht. pose proof (played_lookup _ _ _ Hy) as Hpy.
        assert (take i (played its) !! j = Some (op_at y (start its j), it_payload y)) as Hty by (by rewrite lookup_take_lt).
        pose proof (hs_touch _ _ _ Hh j _ (op_SeqNo (it_op it)) Hty Ht) as Hle.
        destruct (pb_ops _ _ _ _ Hpb i _ (played_lookup _ _ _ Hi)) as [Hsq _]. cbn in Hsq. lia.
      - intros j y _ Hy. by apply (its_ok j). }
    destruct (op_Unlink (it_op it)) as [[k p]|] eqn:E2.
    { specialize (S3 ltac:(done)). intros Hf. apply Hsame; [|by rewrite S3].
      destruct (is_some (LiveNodes (fsm_step g1 (it_payload it)) !! k)); [done|]. by apply lookup_delete_Some in Hf as [_ ?]. }
    destruct (op_Write (it_op it)) as [[[k off] n]|] eqn:E3; [|by auto].
    destruct (decide (f = k)) as [-> |Hne].
    { rewrite lookup_alter_eq. intros (c0 & Hc0 & Hcc)%fmap_Some. subst c. rewrite (content_of_S _ _ _ _ Hi). unfold write_item. rewrite E3, Z.eqb_refl. f_equal. auto. }
    rewrite lookup_alter_ne by done. intros Hf. apply Hsame; [done|]. congruence.
  - cbn [is_some]. split; [unfold agrees in *; by rewrite fsm_step_nodes|]. intros f c Hf. apply Hsame; [done|]. intros off n Hw.
    pose proof (skipped_write i it m m' g _ _ f off n Hp Hh Hi Hm Hprops Hg Hw) as Hn. destruct (proj1 (Ha f)) as [nd Hnd]; [by eexists|congruence].
Qed.
End contents.

(** ** Readers of the journal *)

(** A reader at offset [o] of the journal, whatever it has buffered. *)
Record reads (J : bytes) (o : Z) (pr : playerReader) : Prop := {
  rd_reader : reader_ok (pr_br pr);
  rd_offset : AdjustedOffset pr = o;
  rd_range : 0 ≤ o ≤ Z.of_nat (length J);
  rd_buffered : ∃ rest, drop (Z.to_nat o) J = rd_buf (pr_br pr) ++ rest;
}.

Lemma newPlayerReader_reads J : reads J 0 newPlayerReader.
Proof.
  split; [|done|lia|by exists J]. split; cbn [newPlayerReader pr_br rd_size rd_buf length]; unfold bufferSize; lia.
Qed.

(** [reads] does not depend on the flags. *)
Lemma reads_flags J o pr p b : reads J o pr → reads J o (mkPlayerReader (pr_br pr) (pr_end pr) p b).
Proof. intros [H1 H2 H3 H4]. by split. Qed.

Lemma seek_reads J o o' pr : reads J o pr → 0 ≤ o' ≤ Z.of_nat (length J) → o ≤ o' → reads J o' (AdjustedSeek pr o').
Proof.
  intros [Hok Ho Hr (rest & Hb)] Ho' Hle. unfold AdjustedSeek. rewrite Ho.
  destruct ((0 <=? o' - o) && (o' - o <=? Z.of_nat (length (rd_buf (pr_br pr))))) eqn:E.
  - apply andb_true_iff in E as [_ E%Z.leb_le]. set (n := Z.to_nat (o' - o)).
    destruct (Discard_spec (pr_br pr) n Hok ltac:(lia)) as (Hok' & _). split; [done| |lia|].
    + unfold AdjustedOffset, rr_Offset in *. cbn. rewrite length_drop. lia.
    + exists rest. cbn. replace (Z.to_nat o') with (Z.to_nat o + n)%nat by lia. rewrite <- drop_drop, Hb. by rewrite drop_app_le by lia.
  - split; [|unfold AdjustedOffset, rr_Offset; cbn; lia|lia|by eexists]. destruct Hok as [Hs _]. split; cbn; [done|lia].
Qed.

(** What the journal serves at a peek. *)
Lemma serve_reads J o pr src :
  reads J o pr → src_content src = drop (Z.to_nat (rr_Offset pr)) J →
  let pr' := serve pr src in
  reader_ok (pr_br pr') ∧ contents (pr_br pr') = drop (Z.to_nat o) J ∧ pr_end pr' = Z.of_nat (length J) ∧ rd_err (pr_br pr') = src_err src.
Proof.
  intros [Hok Ho Hr (rest & Hb)] Hs. unfold AdjustedOffset in Ho. set (buf := rd_buf (pr_br pr)) in *.
  assert (length buf + length rest = length J - Z.to_nat o)%nat as Hlen.
  { rewrite <- length_app, <- Hb, length_drop. done. }
  assert (rr_Offset pr = o + Z.of_nat (length buf)) as Hrr by lia. cbn. split_and!; [by destruct Hok| | |done].
  - unfold contents. cbn. rewrite Hs, Hrr. replace (Z.to_nat (o + Z.of_nat (length buf))) with (Z.to_nat o + length buf)%nat by lia.
    rewrite <- drop_drop, Hb, drop_app_length. done.
  - rewrite Hs, length_drop, Hrr. lia.
Qed.

(** A reader that was served up to the end of the journal, with [o] next. *)
Lemma served_reads J o br p b :
  reader_ok br → contents br = drop (Z.to_nat o) J → 0 ≤ o ≤ Z.of_nat (length J) →
  reads J o (mkPlayerReader br (Z.of_nat (length J)) p b).
Proof.
  intros Hok Hc Ho. split; [done| |done|by exists (rd_rest br)]. unfold AdjustedOffset, rr_Offset. cbn.
  assert (length (contents br) = length J - Z.to_nat o)%nat as Hl by (rewrite Hc, length_drop; done).
  unfold contents in Hl. rewrite length_app in Hl. lia.
Qed.

Lemma start_S its i it : its !! i = Some it → start its (S i) = start its i + Z.of_nat (length (it_bytes it)).
Proof.
  intros Hi. unfold start, log_bytes. rewrite (take_S_r _ _ _ Hi), fmap_app, concat_app, length_app. cbn. rewrite app_nil_r. lia.
Qed.

Lemma it_bytes_long it : (8 ≤ length (it_bytes it))%nat.
Proof. unfold it_bytes, it_frame. rewrite !length_app, length_Z_le. simpl. lia. Qed.

Lemma start_mono its i j : (i ≤ j)%nat → start its i ≤ start its j.
Proof.
  intros Hij. unfold start, log_bytes. replace j with (i + (j - i))%nat by lia. rewrite <- take_take_drop, fmap_app, concat_app, length_app. lia.
Qed.

Lemma start_lt its i j : (i < j)%nat → (i < length its)%nat → start its i < start its j.
Proof.
  intros Hij Hi. destruct (lookup_lt_is_Some_2 its i Hi) as [it Hit]. pose proof (start_S _ _ _ Hit). pose proof (it_bytes_long it).
  pose proof (start_mono its (S i) j ltac:(lia)). lia.
Qed.

Lemma start_all its : start its (length its) = Z.of_nat (length (log_bytes its)).
Proof. unfold start. by rewrite firstn_all. Qed.

Lemma log_bytes_at its i it : its !! i = Some it →
  drop (Z.to_nat (start its i)) (log_bytes its) = it_bytes it ++ drop (Z.to_nat (start its (S i))) (log_bytes its).
Proof.
  intros Hi. assert (∀ k, drop (Z.to_nat (start its k)) (log_bytes its) = log_bytes (drop k its)) as Hd.
  { intros k. unfold start, log_bytes. rewrite Nat2Z.id. rewrite <- (take_drop k its) at 2. rewrite fmap_app, concat_app. apply drop_app_length. }
  rewrite !Hd, (drop_S _ _ _ Hi). done.
Qed.

(** ** A player of the journal *)

(** Hinted offsets as recorders know them: an operation is recorded with the offset of one that
    precedes it (or its own), and with its end if at all. *)
Definition hint_offsets (its : list item) (l : list entry) : Prop := ∀ i x, l !! i = Some x →
  (∃ j, (j ≤ i)%nat ∧ op_FirstOffset (fst x) = start its j) ∧ op_LastOffset (fst x) ≤ start its (length its).

Section restore.
Context (MarshalOp : RecordedOp → bytes + string) (UnmarshalOp : bytes → RecordedOp + string).
Context (roundtrip : ∀ op payload, MarshalOp op = inl payload → UnmarshalOp payload = inl op).
Context (nodes_of : FSM → list (Z * list string)) (props_of : FSM → list (string * string)) (dir : path).
Context (log : string) (its : list item) (Hits : Forall (item_ok MarshalOp) its).
Context (Hsize : Z.of_nat (length (log_bytes its)) < MaxInt64).
Context (l : list entry) (F : list Z) (H : SegmentSet) (props : gmap string string) (Hpb : playable F H props (played its)).
Context (Hsegs : Forall (seg_of l) H) (Hoff : hint_offsets its l) (Hll : length l = length its).
Context (mf : FSM) (Hmf : history (FSM_empty log) (played its) = Some mf) (Hprops : Properties mf = props).
Context (HF : ∀ f, f ∈ F ↔ is_Some (LiveNodes mf !! f)).

Abbreviation J := (log_bytes its).
Abbreviation pre i := (take i (played its)).
Abbreviation iterate := (play_iteration MarshalOp UnmarshalOp nodes_of props_of dir).

(** The FSM of a player that has read [i] operations. *)
Definition fsm_at (i : nat) (g : FSM) : Prop :=
  ∃ m, history (FSM_empty log) (pre i) = Some m ∧ plays log F H props (played its) (pre i) m g.

Record player_at (i : nat) (s : play_state) : Prop := {
  pa_index : (i ≤ length its)%nat;
  pa_fsm : fsm_at i (ps_fsm s);
  pa_offset : ps_offset s = start its i;
  pa_reads : reads J (start its i) (ps_reader s);
  pa_files : ∃ cs, staged dir (ps_files s) (ps_fs s) cs ∧ holds its i (ps_fsm s) cs;
  pa_through : ps_readThrough s = Z.of_nat (length J);
  pa_handoff : ps_handoff s = 0;
  pa_state : ps_state s = playerStateBackfill ∨ ps_state s = playerStateTail ∨ ps_state s = playerStateExitAtHead;
}.

(** A peek is pending only after the signal to finish; then no seek is due. *)
Definition idle (s : play_state) : Prop := pr_pendingPeek (ps_reader s) = true →
  ps_state s = playerStateExitAtHead ∧ (∀ seg rest, hintedSegments (ps_fsm s) = seg :: rest → FirstOffset seg ≤ ps_offset s) ∧
  (pr_block (ps_reader s) = true ∨ Z.of_nat (length J) ≤ ps_offset s).

Lemma pre_length i : (i ≤ length its)%nat → length (pre i) = i.
Proof. intros Hi. rewrite length_take, length_played. lia. Qed.

Lemma its_step i it : its !! i = Some it →
  ∃ m1 m2, history (FSM_empty log) (pre i) = Some m1 ∧ history_of log (pre i) m1 ∧
    FSM_Apply m1 (op_at it (start its i)) (it_payload it) = (m2, None) ∧
    history (FSM_empty log) (pre (S i)) = Some m2 ∧ Properties m2 ⊆ props.
Proof.
  intros Hi. destruct (history_step _ _ _ _ _ Hmf (played_lookup _ _ _ Hi)) as (m1 & m2 & H1 & H2 & H3 & H4).
  exists m1, m2. split_and!; [done| |done|done|].
  - apply history_of_history; [done|]. pose proof (pb_len _ _ _ _ Hpb). pose proof (length_take_le (played its) i).
    rewrite length_take. lia.
  - rewrite <- Hprops. by eapply history_properties.
Qed.

(** The player reads an operation. *)
Lemma fsm_at_step i it g g' err cs :
  its !! i = Some it → fsm_at i g → holds its i g cs →
  FSM_Apply g (op_at it (start its i)) (it_payload it) = (g', err) →
  fsm_at (S i) g' ∧ holds its (S i) g' (if is_some err then cs else reenacted g' (op_at it (start its i)) (it_data it) cs).
Proof.
  intros Hi (m & Hm & Hp) Hho Happ. destruct (its_step i it Hi) as (m1 & m2 & E1 & Hh & E2 & E3 & Hpr).
  assert (m1 = m) as -> by congruence. assert (i ≤ length its)%nat as Hle by (apply lookup_lt_Some in Hi; lia). split.
  - exists m2. split; [done|]. rewrite (played_take_S _ _ _ Hi). destruct Hpb as [HFs Hl Hops HHi Hse Ht Hc Hsi Hga].
    pose proof (plays_snoc log F H props HFs (played its) Hl Hops HHi Hse Ht Hc Hsi Hga (pre i) (op_at it (start its i), it_payload it) m m2 g) as Hs.
    cbn [fst snd] in Hs. rewrite Happ in Hs. apply Hs; [done|done| |done|done]. rewrite pre_length by done. by apply played_lookup.
  - by eapply (holds_step MarshalOp log its Hits F H props Hpb i it m m2).
Qed.

(** Nodes of the FSM precede the next operation. *)
Lemma fsm_at_live i g f nd : (i ≤ length its)%nat → fsm_at i g → LiveNodes g !! f = Some nd → f < NextSeqNo g.
Proof.
  intros Hi (m & Hm & [[_ Vn _ _] _ _ Hnext _]) Hf. rewrite Vn in Hf. apply map_lookup_filter_Some in Hf as [Hf _].
  pose proof (pb_len _ _ _ _ Hpb) as Hl. rewrite length_played in Hl.
  assert (history_of log (pre i) m) as Hh by (apply history_of_history; [done|rewrite pre_length by done; lia]).
  destruct (nd_range _ _ _ (hs_nodes _ _ _ Hh f nd Hf)) as [_ Hr]. destruct (hintedSegments g); lia.
Qed.

(** Operations before the next segment can be skipped. *)
Lemma skip_step i it g s rest cs :
  its !! i = Some it → fsm_at i g → holds its i g cs → hintedSegments g = s :: rest → Z.of_nat i + 1 < FirstSeqNo s →
  fsm_at (S i) g ∧ holds its (S i) g cs.
Proof.
  intros Hi (m & Hm & Hp) [Ha Hcs] Hs Hlt. destruct (its_step i it Hi) as (m1 & m2 & E1 & Hh & E2 & E3 & Hpr).
  assert (m1 = m) as -> by congruence. assert (i ≤ length its)%nat as Hle by (apply lookup_lt_Some in Hi; lia).
  destruct (FSM_Apply_cases _ _ _ _ _ E2) as [(? & _)|(_ & _ & _ & mb & [[_ Hb]|[? _]] & Hm2)]; [done| |done].
  destruct Hpb as [HFs Hl Hops HHi Hse Ht Hc Hsi Hga].
  destruct (plays_gap log F H props HFs (played its) Hops HHi Ht Hc Hga (pre i) (op_at it (start its i), it_payload it) m mb g s rest)
    as (_ & Hpl & Hno); [done|done|rewrite pre_length by done; by apply played_lookup|done|done|rewrite pre_length by done; lia|].
  split.
  - exists m2. split; [done|]. rewrite (played_take_S _ _ _ Hi). apply Hpl; subst m2; unfold fsm_step; by repeat case_match.
  - split; [done|]. intros f c Hf. rewrite (content_of_S _ _ _ _ Hi). unfold write_item.
    destruct (op_Write (it_op it)) as [[[k off] n]|] eqn:Hw; [|auto]. destruct (Z.eqb_spec k f) as [-> |]; [|auto]. exfalso.
    destruct (write_touches MarshalOp it f off n (its_ok MarshalOp its Hits i it Hi) Hw) as (W1 & W2 & W3).
    destruct (proj1 (Ha f)) as [nd Hnd]; [by eexists|]. rewrite (Hno f) in Hnd; [done|]. unfold touches. cbn. by rewrite W1, W2, W3, Hw.
Qed.

Lemma skip_to n : ∀ i g s rest cs,
  (i + n ≤ length its)%nat → fsm_at i g → holds its i g cs → hintedSegments g = s :: rest → Z.of_nat (i + n) < FirstSeqNo s →
  fsm_at (i + n) g ∧ holds its (i + n) g cs.
Proof.
  induction n as [|n IH]; intros i g s rest cs Hn Hg Hho Hs Hlt; [by rewrite Nat.add_0_r|].
  destruct (lookup_lt_is_Some_2 its i) as [it Hi]; [lia|].
  destruct (skip_step i it g s rest cs Hi Hg Hho Hs) as [Hg1 Hh1]; [lia|].
  replace (i + S n)%nat with (S i + n)%nat by lia. apply (IH (S i) g s rest cs); [lia|done|done|done|lia].
Qed.

(** The hints that remain are of operations to come. *)
Lemma next_segment i g s rest : fsm_at i g → hintedSegments g = s :: rest → (i ≤ length its)%nat →
  (i < length its)%nat ∧ ∃ j, FirstOffset s = start its j ∧ Z.of_nat j < FirstSeqNo s ∧ (j < length its)%nat.
Proof.
  intros (m & Hm & [_ _ (d & Hd & _) Hnext _]) Hs Hi. rewrite Hs in Hnext, Hd.
  assert (seg_of l s) as [Hr Hf _]. { rewrite Hd in Hsegs. apply Forall_app in Hsegs as [_ Hx]. by apply Forall_cons in Hx as [? _]. }
  rewrite pre_length in Hnext by done. split; [lia|].
  destruct (lookup_lt_is_Some_2 l (Z.to_nat (FirstSeqNo s - 1))) as [x Hx]; [lia|]. destruct (Hf x Hx) as (_ & -> & _).
  destruct (Hoff _ _ Hx) as [(j & Hj & ->) _]. exists j. split_and!; [done|lia|lia].
Qed.

(** ** Iterations *)

Lemma follow_hints_ok i s : player_at i s → idle s →
  ∃ j s', follow_hints s = Ret (inl s') ∧ (i ≤ j)%nat ∧ player_at j s' ∧ idle s' ∧ ps_state s' = ps_state s ∧
    (∀ seg rest, hintedSegments (ps_fsm s') = seg :: rest → FirstOffset seg ≤ ps_offset s' ∧ ps_offset s' < Z.of_nat (length J)).
Proof.
  intros Hp Hidle. pose proof Hp as [Hi Hg Ho Hr (cs & Hst & Hho) Ht Hh Hs]. unfold follow_hints.
  destruct (hintedSegments (ps_fsm s)) as [|seg rest] eqn:Hseg; [exists i, s; split_and!; try done; by rewrite Hseg|].
  destruct (next_segment i _ seg rest Hg Hseg Hi) as (Hlt & j & Hj & Hjs & Hjl).
  pose proof (start_lt its j (length its) Hjl Hjl) as Hjend. rewrite start_all in Hjend.
  pose proof (start_lt its i (length its) Hlt Hlt) as Hiend. rewrite start_all in Hiend.
  destruct (Z.ltb_spec (ps_offset s) (FirstOffset seg)) as [Hsk|Hns].
  - assert (i < j)%nat as Hij. { destruct (decide (i < j)%nat); [done|]. pose proof (start_mono its j i ltac:(lia)). lia. }
    unfold seek. destruct (pr_pendingPeek (ps_reader s)) eqn:Hpend; [destruct (Hidle Hpend) as (_ & Hx & _); specialize (Hx seg rest Hseg); lia|].
    cbn [outcome_bind]. eexists j, _. split; [reflexivity|]. rewrite Hj.
    destruct (skip_to (j - i) i (ps_fsm s) seg rest cs) as [Hg' Hho']; [lia|done|done|done|lia|].
    replace (i + (j - i))%nat with j in Hg', Hho' by lia. split_and!; [lia| | |done|].
    + split; cbn; [lia|done|done| |by exists cs|done|done|done]. apply (seek_reads J (start its i)); [done| |lia]. split; [|lia]. unfold start. lia.
    + unfold idle. cbn. unfold AdjustedSeek. case_match; cbn; congruence.
    + cbn. rewrite Hseg. intros ? ? [= <- <-]. lia.
  - rewrite (proj2 (Z.leb_gt (ps_readThrough s) (ps_offset s))) by lia. exists i, s. split_and!; try done.
    rewrite Hseg. intros ? ? [= <- <-]. lia.
Qed.

(** The player is before its select. *)
Record selecting (i : nat) (s : play_state) : Prop := {
  sl_at : player_at i s;
  sl_pending : pr_pendingPeek (ps_reader s) = true;
  sl_hints seg rest : hintedSegments (ps_fsm s) = seg :: rest → FirstOffset seg ≤ ps_offset s;
  sl_block : pr_block (ps_reader s) = match ps_state s with playerStateTail => true | _ => ps_offset s <? Z.of_nat (length J) end;
}.

Lemma setBlocking_ok pr b : (pr_pendingPeek pr = true → b = true → pr_block pr = true) →
  ∃ p, setBlocking pr None b = Ret (mkPlayerReader (pr_br pr) (pr_end pr) p b).
Proof.
  intros Hp. unfold setBlocking. destruct b, (pr_block pr) eqn:E; cbn [andb negb].
  - exists (pr_pendingPeek pr). destruct pr. cbn in *. by subst.
  - destruct (pr_pendingPeek pr) eqn:E2; [by specialize (Hp eq_refl eq_refl)|]. by exists false.
  - exists false. by destruct (pr_pendingPeek pr).
  - exists (pr_pendingPeek pr). destruct pr. cbn in *. by subst.
Qed.

Lemma before_select_ok i s : player_at i s → idle s →
  ∃ j s', before_select s None = Ret (inl s') ∧ (i ≤ j)%nat ∧ selecting j s' ∧ ps_state s' = ps_state s.
Proof.
  intros Hp Hidle. destruct (follow_hints_ok i s Hp Hidle) as (j & s1 & Hf & Hij & Hp1 & Hid1 & Hst1 & Hhint).
  unfold before_select. rewrite Hf. cbn [outcome_bind]. pose proof Hp1 as [Hi Hg Ho Hr Hfi Ht Hh Hs].
  set (b := match ps_state s1 with playerStateTail => true | _ => ps_offset s1 <? Z.of_nat (length J) end).
  assert (wants_block s1 = Some b) as ->. { unfold wants_block, b. rewrite Ht. by destruct Hs as [-> |[-> | ->]]. }
  destruct (setBlocking_ok (ps_reader s1) b) as (p & ->).
  { intros Hpend Hb. destruct (Hid1 Hpend) as (Hst & _ & [?|Hend]); [done|]. unfold b in Hb. rewrite Hst in Hb. apply Z.ltb_lt in Hb. lia. }
  cbn [outcome_bind]. eexists j, _. split; [reflexivity|]. split_and!; [done| |done]. split; cbn; [|done| |done].
  - split; cbn; try done. by apply reads_flags.
  - intros seg rest Hseg. by apply (Hhint seg rest).
Qed.

Lemma play_next_ok i it s br :
  selecting i s → its !! i = Some it → reader_ok br → contents br = drop (Z.to_nat (start its i)) J →
  ∃ s', play_next UnmarshalOp nodes_of props_of dir
          (with_reader s (mkPlayerReader br (Z.of_nat (length J)) false (pr_block (ps_reader s)))) = Ret (Continue s') ∧
    player_at (S i) s' ∧ idle s' ∧ ps_state s' = ps_state s.
Proof.
  intros [[Hi Hg Ho Hr (cs & Hst & Hho) Ht Hh Hs] _ _ _] Hit Hok Hc.
  assert (0 ≤ start its i) as Hpos by (unfold start; lia). pose proof (start_S its i it Hit) as HS.
  pose proof (start_mono its (S i) (length its) ltac:(apply lookup_lt_Some in Hit; lia)) as Hle. rewrite start_all in Hle.
  pose proof (served_reads J (start its i) br false (pr_block (ps_reader s)) Hok Hc ltac:(lia)) as Hsr.
  unfold play_next. cbn [with_reader ps_offset ps_reader pr_br ps_fsm ps_files ps_fs]. rewrite Ho, (rd_offset _ _ _ Hsr), Z.eqb_refl. cbn [negb].
  destruct (FSM_Apply (ps_fsm s) (op_at it (start its i)) (it_payload it)) as [g' err] eqn:Happ.
  rewrite (log_bytes_at its i it Hit) in Hc.
  destruct (playOperation_spec MarshalOp UnmarshalOp roundtrip dir it (start its i) br (ps_fsm s) (ps_files s) (ps_fs s) cs
    (drop (Z.to_nat (start its (S i))) J) g' err)
    as (br' & files' & w' & cs' & Hplay & Hcs' & Hst' & _ & Hok' & Hc'); [by eapply its_ok|done|apply Hho|intros; by eapply fsm_at_live|done|exact Hc|done|lia|done|].
  rewrite Hplay. cbn [outcome_bind with_reader ps_handoff]. rewrite Hh. cbn [Z.eqb negb andb]. eexists. split; [reflexivity|].
  destruct (fsm_at_step i it (ps_fsm s) g' err cs Hit Hg Hho Happ) as [Hg' Hho'].
  split_and!; [|by intros ?|done]. apply lookup_lt_Some in Hit.
  split; [lia|done|symmetry; exact HS| |exists cs'; by subst cs'|done|done|done].
  apply served_reads; [done|done|lia].
Qed.

(** At the head of the journal. *)
Lemma at_head_ok s inject :
  selecting (length its) s → ps_state s ≠ playerStateTail →
  ∀ br, reader_ok br → contents br = [] →
  let s1 := with_reader s (mkPlayerReader br (Z.of_nat (length J)) false (pr_block (ps_reader s))) in
  (ps_state s = playerStateBackfill →
    ∃ s', at_head MarshalOp UnmarshalOp nodes_of props_of dir s1 inject = Ret (Continue s') ∧ player_at (length its) s' ∧ idle s' ∧
      ps_state s' = playerStateTail) ∧
  (ps_state s = playerStateExitAtHead →
    ∃ s', at_head MarshalOp UnmarshalOp nodes_of props_of dir s1 inject = complete nodes_of props_of dir s' "makeLive after reaching log head" ∧
      ps_fsm s' = ps_fsm s ∧ ps_files s' = ps_files s ∧ ps_fs s' = ps_fs s).
Proof.
  intros [[Hi Hg Ho Hr Hfi Ht Hh Hs] _ _ _] Hnt br Hok Hc s1. unfold at_head. cbn [s1 with_reader ps_offset ps_readThrough ps_state].
  rewrite Ho, Ht, start_all. rewrite Z.ltb_irrefl. split; intros ->; cbn [with_state].
  - eexists. split; [reflexivity|]. split_and!; [|by intros ?|done]. split; [done|exact Hg|by rewrite start_all| |exact Hfi|done|exact Hh|by auto]. rewrite start_all.
    apply served_reads; [done| |lia]. rewrite Hc, drop_ge by lia. done.
  - by eexists.
Qed.

Context (Hpaths : paths_ok (live_paths mf)) (Hnodes : node_order mf (nodes_of mf)) (Hpo : props_of mf ≡ₚ map_to_list (Properties mf)).

Lemma fsm_at_end g : fsm_at (length its) g → g = mf.
Proof.
  intros (m & Hm & Hp). rewrite <- (length_played its), firstn_all in Hm, Hp. assert (m = mf) as -> by congruence.
  apply (plays_end log F H props (played its) mf); [done| |apply Hpb|done|done].
  apply history_of_history; [done|]. apply Hpb.
Qed.

Definition finished (r : outcome (play_state + FS * (FSM + error))) : Prop :=
  ∃ w', r = Ret (inr (w', inl mf)) ∧ restored dir mf (content_of its) w'.

Lemma complete_ok s msg cs :
  ps_fsm s = mf → staged dir (ps_files s) (ps_fs s) cs → holds its (length its) mf cs →
  ∃ s' w', complete nodes_of props_of dir s msg = Ret (Return s' None) ∧ deferred dir s' None = Ret (w', inl mf) ∧
    restored dir mf (content_of its) w'.
Proof.
  intros Hfsm Hst [Ha Hcs]. assert (history_of log (played its) mf) as Hh by (apply history_of_history; [done|apply Hpb]).
  destruct (makeLive_spec dir (nodes_of mf) (props_of mf) mf (ps_files s) (ps_fs s) cs (content_of its)) as (w' & Hml & Hres);
    [done|done| |apply Hh| |done| |done|done|].
  - intros f c Hf. rewrite (Hcs f c Hf), firstn_all. done.
  - by eapply history_props_links; [exact Hmf|].
  - unfold hasRemainingHints. by destruct (hs_hints _ _ _ Hh) as [-> ->].
  - unfold complete. rewrite Hfsm, Hml. cbn [outcome_bind]. eexists _, w'. split; [reflexivity|]. unfold deferred. cbn.
    done.
Qed.

(** What the journal serves at a select: all of its content from the reader's offset on. A
    blocking read does not return at the head. *)
Definition serves (s : play_state) (e : env) : Prop :=
  match ev_select e with
  | SelPeek src _ =>
      src_content src = drop (Z.to_nat (rr_Offset (ps_reader s))) J ∧ src_err src = ErrOffsetNotYetAvailable ∧
      (pr_block (ps_reader s) = true → ps_offset s < Z.of_nat (length J))
  | SelHandoff author => author = 0
  end.

(** An environment of the player that is [s]. *)
Fixpoint follows (s : play_state) (envs : list env) : Prop :=
  match envs with
  | [] => True
  | e :: envs =>
      match before_select s (ev_drained e) with Ret (inl s1) => serves s1 e | _ => True end ∧
      match iterate s e with Ret (Continue s') => follows s' envs | _ => True end
  end.

Definition peeks (e : env) : Prop := ev_drained e = None ∧ match ev_select e with SelPeek _ _ => True | SelHandoff _ => False end.

(** An iteration that peeks: an operation is read, or the head is reached. *)
Lemma peek_iteration i s e :
  player_at i s → idle s → peeks e →
  match before_select s (ev_drained e) with Ret (inl s1) => serves s1 e | _ => True end →
  (∃ j s', iterate s e = Ret (Continue s') ∧ player_at j s' ∧ idle s' ∧
     ((i < j)%nat ∧ ps_state s' = ps_state s ∨ ps_state s = playerStateBackfill ∧ ps_state s' = playerStateTail)) ∨
  ps_state s = playerStateExitAtHead ∧ ∃ s' w', iterate s e = Ret (Return s' None) ∧
    deferred dir s' None = Ret (w', inl mf) ∧ restored dir mf (content_of its) w'.
Proof.
  intros Hp Hidle [Hdr Hsel] Hserves. destruct (before_select_ok i s Hp Hidle) as (j & s1 & Hbs & Hij & Hsl & Hst).
  unfold play_iteration. rewrite Hdr, Hbs in *. unfold serves in Hserves. cbn [outcome_bind].
  destruct (ev_select e) as [src jumpTo|]; [|done]. destruct Hserves as (Hsrc & Herr & Hblk).
  pose proof Hsl as [[Hi Hg Ho Hr Hfi Ht Hh Hs] _ _ Hblock].
  destruct (serve_reads J _ _ src Hr Hsrc) as (Hok & Hc & Hend & Hse). unfold select_peek.
  assert (8 ≤ rd_size (pr_br (serve (ps_reader s1) src)))%nat as H8 by (destruct Hok; lia).
  destruct (Peek_spec _ 8 Hok H8) as (br & [Hokb _ Hcb] & Hpk & Hpke). unfold FixedFrameHeaderLength.
  destruct (decide (j = length its)) as [-> |Hne].
  - rewrite Hc, start_all, drop_ge in Hpke, Hcb by lia. rewrite (Hpke ltac:(simpl; lia)), Hse, Herr, Hend.
    rewrite bool_decide_eq_true_2 by done.
    assert (ps_state s1 ≠ playerStateTail) as Hnt.
    { intros Htail. rewrite Hblock, Htail, Ho, start_all in Hblk. specialize (Hblk eq_refl). lia. }
    destruct (at_head_ok s1 (ev_inject e) Hsl Hnt br Hokb Hcb) as [HB HE]. destruct Hs as [HsB|[?|HsE]]; [|done|].
    + left. destruct (HB HsB) as (s' & Hrun & Hp' & Hid' & Hst'). exists (length its), s'. split_and!; [exact Hrun|done|done|].
      right. split; [congruence|done].
    + right. split; [congruence|]. destruct (HE HsE) as (s' & Hrun & F1 & F2 & F3). destruct Hfi as (cs & Hst' & Hho).
      pose proof (fsm_at_end _ Hg) as Hgf.
      destruct (complete_ok s' "makeLive after reaching log head" cs) as (s2 & w' & Hco & Hde & Hre); [congruence|by rewrite F2, F3|by rewrite <- Hgf|].
      exists s2, w'. split; [|done]. rewrite <- Hco. exact Hrun.
  - destruct (lookup_lt_is_Some_2 its j) as [it Hit]; [lia|]. pose proof (log_bytes_at its j it Hit) as Hlb. pose proof (it_bytes_long it).
    destruct Hpk as [Hpk _]; [rewrite Hc, Hlb, length_app; lia|]. rewrite Hpk, Hend.
    destruct (play_next_ok j it s1 br Hsl Hit Hokb) as (s' & Hrun & Hp' & Hid' & Hst'); [by rewrite Hcb|].
    left. exists (S j), s'. split_and!; [exact Hrun|done|done|]. left. split; [lia|congruence].
Qed.

Lemma handoff_iteration i s e :
  player_at i s → idle s → ev_drained e = None → ev_select e = SelHandoff 0 →
  ps_state s = playerStateBackfill ∨ ps_state s = playerStateTail →
  ∃ j s', iterate s e = Ret (Continue s') ∧ player_at j s' ∧ idle s' ∧ ps_state s' = playerStateExitAtHead.
Proof.
  intros Hp Hidle Hdr Hsel Hst. destruct (before_select_ok i s Hp Hidle) as (j & s1 & Hbs & Hij & Hsl & Hst1).
  unfold play_iteration. rewrite Hdr, Hbs. cbn [outcome_bind]. rewrite Hsel. unfold select_handoff. rewrite <- Hst1 in Hst.
  destruct Hsl as [Hp1 Hpend Hhints Hblock]. pose proof Hp1 as [Hi Hg Ho Hr Hfi Ht Hh Hs].
  exists j. destruct Hst as [E|E]; rewrite E in *; (eexists; split; [reflexivity|]); (split; [by split; auto|]);
    (split; [|done]); intros _; (split; [done|]); (split; [done|]); cbn; rewrite Hblock.
  - destruct (Z.ltb_spec (ps_offset s1) (Z.of_nat (length J))); auto.
  - by left.
Qed.

Lemma run_exit envs : ∀ i s,
  player_at i s → idle s → ps_state s = playerStateExitAtHead → Forall peeks envs → follows s envs →
  (length its - i < length envs)%nat → finished (play_run MarshalOp UnmarshalOp nodes_of props_of dir s envs).
Proof.
  induction envs as [|e envs IH]; intros i s Hp Hidle Hst Hpk Hfo Hlen; [simpl in Hlen; lia|].
  destruct Hfo as [Hsv Hfo].  apply Forall_cons in Hpk as [He Hpk]. cbn [play_run]. unfold finished.
  destruct (peek_iteration i s e Hp Hidle He Hsv) as [(j & s' & Hit & Hp' & Hid' & [[Hij Hst']|[? _]])|(_ & s' & w' & Hit & Hde & Hre)].
  - rewrite Hit in Hfo |- *. cbn [outcome_bind]. apply (IH j s'); [done|done|congruence|done|done|]. simpl in Hlen.
    pose proof (pa_index _ _ Hp'). pose proof (pa_index _ _ Hp). lia.
  - congruence.
  - rewrite Hit. cbn [outcome_bind]. rewrite Hde. cbn [outcome_bind]. by exists w'.
Qed.

(** Until the signal to finish, and then to the head. *)
Lemma run_restores envs : ∀ i s e post,
  player_at i s → idle s → ps_state s = playerStateBackfill ∨ ps_state s = playerStateTail →
  Forall peeks envs → ev_drained e = None → ev_select e = SelHandoff 0 → Forall peeks post →
  (length its < length post)%nat → follows s (envs ++ e :: post) →
  finished (play_run MarshalOp UnmarshalOp nodes_of props_of dir s (envs ++ e :: post)).
Proof.
  induction envs as [|e' envs IH]; intros i s e post Hp Hidle Hst Hpk Hdr Hsel Hpost Hlen [Hsv Hfo]; cbn [app play_run] in *.
  - destruct (handoff_iteration i s e Hp Hidle Hdr Hsel Hst) as (j & s' & Hit & Hp' & Hid' & Hst').
    rewrite Hit in Hfo |- *. cbn [outcome_bind]. apply (run_exit post j s'); [done..|lia].
  - apply Forall_cons in Hpk as [He Hpk].
    destruct (peek_iteration i s e' Hp Hidle He Hsv) as [(j & s' & Hit & Hp' & Hid' & Hst')|(Hx & _)]; [|by destruct Hst; congruence].
    rewrite Hit in Hfo |- *. cbn [outcome_bind]. apply (IH j s' e post); try done.
    destruct Hst' as [[_ ->]|[_ ->]]; auto.
Qed.
End restore.

(** ** The start of playback *)

Lemma mkdirs_nodes ps : ∀ w, (∀ p ino, p ∈ ps → fs_nodes w !! p ≠ Some (NFile ino)) →
  ∃ w', mkdirs w ps = (w', inl ()) ∧ fs_faults w' = fs_faults w ∧
    ∀ p, fs_nodes w' !! p = if decide (p ∈ ps) then Some NDir else fs_nodes w !! p.
Proof.
  induction ps as [|q ps IH]; intros w Hno; [by exists w|]. cbn [mkdirs].
  destruct (IH (fs_with_nodes w (<[q := NDir]> (fs_nodes w)))) as (w' & Hw & Hf & Hn).
  { intros p ino Hp. cbn. destruct (decide (p = q)) as [-> |]; [by rewrite lookup_insert_eq|]. rewrite lookup_insert_ne by done.
    apply Hno. by right. }
  exists w'. split_and!; [|done|].
  - destruct (fs_nodes w !! q) as [[|ino]|] eqn:E; [done|by destruct (Hno q ino); [left|]|done].
  - intros p. rewrite Hn. cbn. destruct (decide (p = q)) as [-> |Hne].
    + rewrite lookup_insert_eq, (decide_True (P := q ∈ q :: ps)) by left. by case_decide.
    + rewrite lookup_insert_ne by done. apply decide_ext. set_solver.
Qed.

(** No directory above [dir] is a file. *)
Definition dir_ok (dir : path) (w : FS) : Prop :=
  fs_faults w = [] ∧ ∀ n ino, (n < length dir)%nat → fs_nodes w !! take n dir ≠ Some (NFile ino).

Lemma preparePlayback_ok dir w : dir_ok dir w → ∃ w', preparePlayback dir w = (w', inl ()) ∧ staged dir ∅ w' ∅.
Proof.
  intros [Hf Hd]. unfold preparePlayback, RemoveAll. erewrite os_bind_ok by (rewrite syscall_ok by done; reflexivity).
  rewrite Join_staging. unfold MkdirAll. set (w1 := fs_with_nodes w _). rewrite syscall_ok by done.
  assert (∀ p n, fs_nodes w1 !! p = Some n → fs_nodes w !! p = Some n ∧ p ≠ dir ∧ below dir p = false) as Hw1.
  { intros p n Hp. cbn in Hp. apply map_lookup_filter_Some in Hp as [Hp Hb]. cbn in Hb. split; [done|].
    apply Is_true_true, negb_true_iff, orb_false_iff in Hb as [Hb1 Hb2]. by apply bool_decide_eq_false in Hb1. }
  assert (∀ p, p ∈ prefixes (stagingDir dir) → (∃ n, 0 < n ≤ length dir ∧ p = take n dir)%nat ∨ p = stagingDir dir) as Hpre.
  { intros p (n & -> & Hn)%list_elem_of_fmap. apply elem_of_seq in Hn. unfold stagingDir in *. rewrite length_app in Hn. simpl in Hn.
    destruct (decide (n ≤ length dir)%nat); [left; exists n; split; [lia|]; by rewrite take_app_le|right]. rewrite take_ge; [done|]. rewrite length_app. simpl. lia. }
  destruct (mkdirs_nodes (prefixes (stagingDir dir)) w1) as (w' & Hmk & Hfa & Hn).
  { intros p ino Hp Hn. apply Hw1 in Hn as (Hn & Hne & Hb). destruct (Hpre p Hp) as [(n & Hn' & ->)| ->].
    - apply (Hd n ino); [|done]. destruct (decide (n = length dir)) as [-> |]; [by rewrite firstn_all in Hne|lia].
    - assert (below dir (stagingDir dir) = true) as Hbt by (apply below_spec; by exists [staging_comp]). congruence. }
  exists w'. split; [done|]. assert (∀ n, (0 < n ≤ length dir + 1)%nat → take n (stagingDir dir) ∈ prefixes (stagingDir dir)) as Hin.
  { intros n Hn'. apply list_elem_of_fmap. exists n. split; [done|]. apply elem_of_seq. unfold stagingDir. rewrite length_app. simpl. lia. }
  split; [by rewrite Hfa| | |by intros ? ? ?%lookup_empty_Some|by intros ? ? ? ? ?%lookup_empty_Some|by intros ? ? ?%lookup_empty_Some|intros f; by rewrite !lookup_empty|].
  - rewrite Hn, decide_True; [done|]. specialize (Hin (length dir + 1)%nat ltac:(lia)). rewrite take_ge in Hin; [done|].
    unfold stagingDir. rewrite length_app. simpl. lia.
  - intros n Hn'. destruct n as [|n]; [done|]. specialize (Hin (S n) ltac:(lia)). unfold stagingDir in Hin at 1. rewrite take_app_le in Hin by lia.
    unfold is_dir. rewrite Hn, decide_True by done. by case_match.
  - intros p n Hp Hb. rewrite Hn in Hp. case_decide as Hin'.
    + destruct (Hpre p Hin') as [(k & Hk & ->)| ->]; [|by left]. apply below_spec in Hb as (x & Hx & Heq).
      apply (f_equal length) in Heq. rewrite length_take, length_app in Heq. destruct x; [done|simpl in Heq; lia].
    + apply Hw1 in Hp as (_ & _ & ?). congruence.
Qed.

Lemma check_segments_ok segs t : Forall (λ s, FirstOffset s < t ∧ LastOffset s ≤ t) segs → check_segments segs t = None.
Proof.
  induction 1 as [|s segs [H1 H2] _ IH]; [done|]. cbn [check_segments].
  rewrite (proj2 (Z.leb_gt _ _)), (proj2 (Z.ltb_ge _ _)) by lia. done.
Qed.

Lemma segs_before_end its l H : hint_offsets its l → length l = length its → Forall (seg_of l) H →
  Forall (λ s, FirstOffset s < Z.of_nat (length (log_bytes its)) ∧ LastOffset s ≤ Z.of_nat (length (log_bytes its))) H.
Proof.
  intros Hoff Hll Hsegs. eapply Forall_impl; [exact Hsegs|]. intros s [Hr Hf Hl]. rewrite <- start_all.
  destruct (lookup_lt_is_Some_2 l (Z.to_nat (FirstSeqNo s - 1))) as [x Hx]; [lia|]. destruct (Hf x Hx) as (_ & -> & _).
  destruct (lookup_lt_is_Some_2 l (Z.to_nat (LastSeqNo s - 1))) as [y Hy]; [lia|]. destruct (Hl y Hy) as (_ & ->).
  destruct (Hoff _ _ Hx) as [(j & Hj & ->) _]. destruct (Hoff _ _ Hy) as [_ ?]. split; [|done].
  apply lookup_lt_Some in Hx. apply start_lt; lia.
Qed.

(** C1: A log is played back to the files that were recorded. Let operations and their data be
    written to a journal, leading an FSM to the state [m], and let a player be given hints of
    [m], whose offsets need not be exact. The log is one that its authors wrote in turn; no path that is a
    property was created or linked in it; and from the creation of the last live node on, the segments of live nodes have no
    gap (where they have one, a file that was removed may be live again: [replay_resurrects]). No call of the local file system fails, and none of the directories above
    the player's is a file; the paths of links are rooted and clean, none of them below another or in the directory for staging; and the journal is shorter than MaxInt64. Whatever the
    journal holds is served to the player in reads of any size, and at some point it is told to finish. Then the player starts, skips what
    hints tell it to, and after as many reads as there are operations and one more it has returned, with the
    state [m] up to offsets. Its directory then holds, at the path of each link, what the writes
    recorded of its node make of an empty file, the properties, and no other file. *)
Theorem playback_restores MarshalOp UnmarshalOp nodes_of props_of dir log its l m nodes props w :
  (∀ op payload, MarshalOp op = inl payload → UnmarshalOp payload = inl op) →
  (∀ fsm, node_order fsm (nodes_of fsm) ∧ props_of fsm ≡ₚ map_to_list (Properties fsm)) →
  Forall (item_ok MarshalOp) its → Z.of_nat (length (log_bytes its)) < MaxInt64 →
  recorded_log log l (played its) m → hint_offsets its l →
  nodes ≡ₚ map_to_list (LiveNodes m) → props ≡ₚ map_to_list (Properties m) →
  paths_ok (live_paths m) → dir_ok dir w →
  ∃ s mf, play_start dir (BuildHints nodes props m) (inl (Z.of_nat (length (log_bytes its)))) w = Ret (inl s) ∧ same_state m mf ∧
    ∀ envs e post, Forall peeks envs → ev_drained e = None → ev_select e = SelHandoff 0 → Forall peeks post →
      (length its < length post)%nat →
      follows MarshalOp UnmarshalOp nodes_of props_of dir its s (envs ++ e :: post) →
      ∃ w', play_run MarshalOp UnmarshalOp nodes_of props_of dir s (envs ++ e :: post) = Ret (inr (w', inl mf)) ∧
        restored dir mf (content_of its) w'.
Proof.
  intros Hround Horder Hits Hsize Hrl Hoff Hnodes Hprops Hpaths Hdir.
  destruct (replay_setup log l (played its) m nodes props Hrl Hnodes Hprops) as (F & H & g & mf & Hg & HH & Hsegs & Hpb & Hpl & Hmf & Hss & HF).
  assert (length l = length its) as Hll by (rewrite <- (length_played its); by eapply Forall2_length, rl_same).
  destruct (preparePlayback_ok dir w Hdir) as (w1 & Hprep & Hst).
  eexists _, mf. unfold play_start. rewrite Hg. cbn [outcome_bind]. rewrite Hprep, HH.
  rewrite (check_segments_ok H _ (segs_before_end its l H Hoff Hll Hsegs)). split; [reflexivity|]. split; [done|].
  intros envs e post Hpk Hdr Hsel Hpost Hlen Hfo. pose proof Hss as [_ [Hpr Hlk] _ _].
  assert (live_paths mf = live_paths m) as Hlp by (unfold live_paths; by rewrite Hpr, Hlk).
  apply (run_restores MarshalOp UnmarshalOp Hround nodes_of props_of dir log its Hits Hsize l F H (Properties m) Hpb Hsegs Hoff Hll mf Hmf) with (i := 0%nat);
    try done; [by rewrite Hlp|apply Horder|apply Horder| |by left].
  split; cbn; [lia| |done|apply newPlayerReader_reads| |done|done|by left].
  - exists (FSM_empty log). by rewrite take_0.
  - exists ∅. split; [done|]. split; [|done]. intros f.
    destruct Hpl as [[_ Vn _ _] _ _ _ _]. rewrite Vn. unfold tracked_nodes. cbn. by rewrite map_filter_empty, !lookup_empty.
Qed.

(** ** Concrete inputs *)

#[global] Instance RecordedOp_eq_dec : EqDecision RecordedOp.
Proof. solve_decision. Defined.

(** The log of [demo_actions]: a write is of ten bytes. *)
Definition demo_item (x : entry) : item :=
  mkItem (fst x) (snd x) (match op_Write (fst x) with Some _ => str_bytes "0123456789" | None => [] end).
Definition demo_its : list item := demo_item <$> demo_recorded.

Definition demo_MarshalOp (op : RecordedOp) : bytes + string :=
  if decide (op ∈ it_op <$> demo_its) then inl (Z_le 8 (op_SeqNo op)) else inr "unknown".
Definition demo_UnmarshalOp (b : bytes) : RecordedOp + string :=
  match filter (λ it, op_SeqNo (it_op it) = le_Z b) demo_its with it :: _ => inl (it_op it) | [] => inr "unknown" end.

Lemma demo_op_roundtrip op payload : demo_MarshalOp op = inl payload → demo_UnmarshalOp payload = inl op.
Proof.
  unfold demo_MarshalOp. case_decide as Hin; [|done]. intros Hp. apply (inj inl) in Hp as <-. apply list_elem_of_fmap in Hin as (it & -> & Hit).
  assert (Forall (λ it, demo_UnmarshalOp (Z_le 8 (op_SeqNo (it_op it))) = inl (it_op it)) demo_its) as Hall.
  { apply (bool_decide_unpack _). vm_compute. exact I. }
  rewrite Forall_forall in Hall. by apply Hall.
Qed.

Definition demo_nodes (fsm : FSM) : list (Z * list string) :=
  (λ x, (fst x, elements (fn_Links (snd x)))) <$> map_to_list (LiveNodes fsm).

Lemma demo_node_order fsm : node_order fsm (demo_nodes fsm).
Proof.
  unfold demo_nodes. split.
  - rewrite <- list_fmap_compose. apply NoDup_fst_map_to_list.
  - intros f links ([g nd] & [= -> ->] & Hg%elem_of_map_to_list)%list_elem_of_fmap. by exists nd.
  - intros f [nd Hf]. rewrite <- list_fmap_compose. apply list_elem_of_fmap. exists (f, nd). split; [done|]. by apply elem_of_map_to_list.
Qed.

Definition demo_dir : path := tail (components "/tmp/db").
Definition demo_fs : FS := mkFS {[ tail (components "/tmp/db") := NDir; tail (components "/tmp/db/old") := NFile 7 ]} {[ 7%nat := [] ]} 8 [].
Definition demo_hints : FSMHints := BuildHints (map_to_list (LiveNodes demo_state)) [] demo_state.

Abbreviation demo_iterate := (play_iteration demo_MarshalOp demo_UnmarshalOp demo_nodes (map_to_list ∘ Properties) demo_dir).
Abbreviation demo_follows := (follows demo_MarshalOp demo_UnmarshalOp demo_nodes (map_to_list ∘ Properties) demo_dir demo_its).

(** The environment of choices: a peek with reads of the given sizes, or the signal to finish. *)
Fixpoint drive (s : play_state) (choices : list (option (list nat))) : list env :=
  match choices with
  | [] => []
  | c :: choices =>
      let e := mkEnv
        match c, before_select s None with
        | Some sizes, Ret (inl s1) =>
            SelPeek (mkSource (drop (Z.to_nat (rr_Offset (ps_reader s1))) (log_bytes demo_its)) ErrOffsetNotYetAvailable sizes) 0
        | _, _ => SelHandoff 0
        end None (inr "") in
      e :: match demo_iterate s e with Ret (Continue s') => drive s' choices | _ => drive s choices end
  end.

#[global] Instance serves_dec its s e : Decision (serves its s e).
Proof. unfold serves. case_match; apply _. Defined.

#[global] Instance demo_follows_dec : ∀ envs s, Decision (demo_follows s envs).
Proof.
  induction envs as [|e envs IH]; intros s; cbn [follows]; [left; exact I|].
  apply and_dec; [destruct (before_select s (ev_drained e)) as [[s1|]|]; apply _|].
  destruct (demo_iterate s e) as [[s'|]|]; [apply IH|left; exact I|left; exact I].
Defined.

#[global] Instance peeks_dec e : Decision (peeks e).
Proof. unfold peeks. destruct (ev_select e); apply _. Defined.

Definition demo_player : option play_state :=
  match play_start demo_dir demo_hints (inl (Z.of_nat (length (log_bytes demo_its)))) demo_fs with Ret (inl s) => Some s | _ => None end.

(** Reads of three bytes, then of seven; the signal comes after four operations. *)
Definition demo_envs (s : play_state) : list env :=
  drive s (replicate 4 (Some (replicate 40 3%nat)) ++ [None] ++ replicate 7 (Some (replicate 40 7%nat))).

Definition demo_driven_b : bool :=
  match demo_player with
  | Some s => bool_decide (demo_follows s (demo_envs s)) && bool_decide (Forall peeks (take 4 (demo_envs s))) &&
      bool_decide (Forall peeks (drop 5 (demo_envs s))) && (length (drop 5 (demo_envs s)) =? 7)%nat &&
      match demo_envs s !! 4%nat with
      | Some e => bool_decide (ev_drained e = None) && match ev_select e with SelHandoff a => a =? 0 | _ => false end
      | None => false
      end
  | None => false
  end.

Lemma demo_driven s : demo_player = Some s →
  demo_follows s (demo_envs s) ∧ Forall peeks (take 4 (demo_envs s)) ∧ Forall peeks (drop 5 (demo_envs s)) ∧
  length (drop 5 (demo_envs s)) = 7%nat ∧
  ∃ e, demo_envs s = take 4 (demo_envs s) ++ e :: drop 5 (demo_envs s) ∧ ev_drained e = None ∧ ev_select e = SelHandoff 0.
Proof.
  intros Hs. assert (demo_driven_b = true) as Hd by (vm_compute; reflexivity). unfold demo_driven_b in Hd. rewrite Hs in Hd.
  rewrite !andb_true_iff, !bool_decide_eq_true, Nat.eqb_eq in Hd. destruct Hd as [(((H1 & H2) & H3) & H4) H5].
  split_and!; [done..|]. destruct (demo_envs s !! 4%nat) as [e|] eqn:E; [|done]. exists e. split; [by rewrite (take_drop_middle _ _ _ E)|].
  rewrite andb_true_iff, bool_decide_eq_true in H5. destruct H5 as [H5 H6]. split; [done|]. destruct (ev_select e); [done|].
  f_equal. by apply Z.eqb_eq.
Qed.

Lemma demo_paths : paths_ok (live_paths demo_state).
Proof.
  assert (∀ p, p ∈ live_paths demo_state ↔ p ∈ ["/a"; "/c"]) as Hp.
  { assert (live_paths demo_state = list_to_set ["/a"; "/c"]) as -> by (apply (bool_decide_unpack _); vm_compute; exact I). set_solver. }
  split.
  - intros p Hin%Hp. revert p Hin. apply Forall_forall, (bool_decide_unpack _). vm_compute. exact I.
  - intros p Hin%Hp. revert p Hin. apply Forall_forall, (bool_decide_unpack _). vm_compute. exact I.
  - intros p q x Hin1%Hp Hin2%Hp. apply elem_of_cons in Hin1 as [-> |Hin1]; [|apply list_elem_of_singleton in Hin1 as ->];
      (apply elem_of_cons in Hin2 as [-> |Hin2]; [|apply list_elem_of_singleton in Hin2 as ->]); vm_compute; by intros [= <-] || done.
Qed.

Lemma playback_restores_witness :
  ∃ s w' mf, demo_player = Some s ∧
    play_run demo_MarshalOp demo_UnmarshalOp demo_nodes (map_to_list ∘ Properties) demo_dir s (demo_envs s) = Ret (inr (w', inl mf)) ∧
    restored demo_dir mf (content_of demo_its) w'.
Proof.
  destruct (playback_restores demo_MarshalOp demo_UnmarshalOp demo_nodes (map_to_list ∘ Properties) demo_dir "log" demo_its demo_recorded demo_state
    (map_to_list (LiveNodes demo_state)) [] demo_fs) as (s & mf & Hs & _ & Hrun).
  - exact demo_op_roundtrip.
  - intros fsm. split; [exact (demo_node_order fsm)|reflexivity].
  - apply Forall_fmap. repeat (constructor; [split; vm_compute; done|]). constructor.
  - vm_compute. reflexivity.
  - split.
    + done.
    + vm_compute. reflexivity.
    + exact demo_log_ok.
    + vm_compute. reflexivity.
    + vm_compute. repeat constructor.
    + repeat constructor; vm_compute; done.
    + exact demo_no_gap.
  - intros i x Hx. split; [exists 0%nat; split; [lia|]|]; revert i x Hx; apply Forall_lookup; (apply (bool_decide_unpack _); vm_compute; exact I).
  - reflexivity.
  - vm_compute. reflexivity.
  - exact demo_paths.
  - split; [reflexivity|]. intros n ino Hn. do 3 (destruct n as [|n]; [vm_compute; done|]). simpl in Hn. lia.
  - assert (demo_player = Some s) as Hd by (unfold demo_player, demo_hints; rewrite Hs; reflexivity).
    destruct (demo_driven s Hd) as (Hfo & Hp1 & Hp2 & Hlen & e & Hsplit & He1 & He2).
    destruct (Hrun (take 4 (demo_envs s)) e (drop 5 (demo_envs s))) as (w' & Hw & Hre); [exact Hp1|exact He1|exact He2|exact Hp2|rewrite Hlen; vm_compute; lia|rewrite <- Hsplit; exact Hfo|].
    exists s, w', mf. split; [exact Hd|]. split; [rewrite Hsplit; exact Hw|exact Hre].
Defined.
