(* ===== verification/ClientReader.v ===== *)
(** * Reads of journals by clients (src/v2/pkg/client/reader.go, retry_reader.go,
      src/v2/pkg/codecs/codecs.go)

    A [FragmentReader] reads a stored fragment and checks that it is as long as it should be.
    [Reader] adapts the responses of a Read RPC to an io.Reader, and continues with the URL of a
    fragment if the broker does not proxy it. [RetryReader] restarts readers that fail. What
    servers and stores answer is an argument; the theorems: bytes are those of the journal, in order. *)
From S2P Require Import Prelude Encoding Protocol Framing.
Local Open Scope Z_scope.

(** ** io.Reader *)

(** A source: its content and the error that ends it; the sizes of the reads it serves, and whether
    the error comes with the last of its bytes. *)
Record input := mkInput {
  in_rest : bytes;
  in_err : read_error;
  in_reads : list (nat * bool);
}.

(** [Read] into a buffer of [n] bytes. *)
Definition input_Read (r : input) (n : nat) : input * bytes * option read_error :=
  let '(k, eager) := match in_reads r with x :: _ => x | [] => (n, false) end in
  match in_rest r with
  | [] => (mkInput [] (in_err r) (tail (in_reads r)), [], Some (in_err r))
  | _ =>
      let rest := drop (min n k) (in_rest r) in
      (mkInput rest (in_err r) (tail (in_reads r)), take (min n k) (in_rest r),
       if eager && bool_decide (rest = []) then Some (in_err r) else None)
  end.

(** ** Codecs *)

Section client.
(** Decompressors of libraries. *)
Context (gzip_NewReader zstdNewReader : input → input + read_error) (snappy_NewReader : input → input).

Definition NewCodecReader (r : input) (codec : CompressionCodec) : input + read_error :=
  match codec with
  | Codec_NONE | Codec_GZIP_OFFLOAD_DECOMPRESSION => inl r
  | Codec_GZIP => gzip_NewReader r
  | Codec_SNAPPY => inl (snappy_NewReader r)
  | Codec_ZSTANDARD => zstdNewReader r
  | _ => inr (ReadError "unsupported codec")
  end.

(** ** Fragment readers *)

Definition ErrDidNotReadExpectedEOF : read_error := ReadError "did not read EOF at expected Fragment.End".

Record FragmentReader := mkFragmentReader {
  fr_Fragment : Fragment;
  fr_Offset : Z;
  fr_decomp : input;
}.

(** The count may be negative, if an earlier read was past the end; the bytes are those of a count
    that is not. *)
Definition FragmentReader_Read (fr : FragmentReader) (n : nat) : FragmentReader * bytes * Z * option read_error :=
  let '(decomp, b, err) := input_Read (fr_decomp fr) n in
  let cnt := Z.of_nat (length b) in
  let offset := int64 (fr_Offset fr + cnt) in
  let fr := mkFragmentReader (fr_Fragment fr) offset decomp in
  let end_ := f_End (fr_Fragment fr) in
  if end_ <? offset then
    let cnt := cnt - (offset - end_) in (fr, take (Z.to_nat cnt) b, cnt, Some ErrDidNotReadExpectedEOF)
  else if bool_decide (err = Some EOF) && negb (offset =? end_) then (fr, b, cnt, Some ErrUnexpectedEOF)
  else (fr, b, cnt, err).

(** [io.CopyN] to [ioutil.Discard], which reads at most 8K at a time, of a reader [Read]: until
    [delta] bytes are read or an error. *)
Fixpoint discard {R} (Read : R → nat → R * bytes * Z * option read_error) (fuel : nat) (r : R) (delta : Z)
    : R * option read_error :=
  match fuel with
  | O => (r, Some (ReadError "no progress"))
  | S fuel =>
      if delta <=? 0 then (r, None)
      else
        let '(r, _, cnt, err) := Read r (Z.to_nat (Z.min delta 8192)) in
        let left := delta - cnt in
        match err with
        | None => discard Read fuel r left
        | Some e => (r, if left =? 0 then None else Some e)
        end
  end.

Definition discard_fuel (r : input) : nat := S (S (length (in_reads r) + length (in_rest r))).

Definition NewFragmentReader (rc : input) (fragment : Fragment) (offset : Z) : FragmentReader + read_error :=
  match NewCodecReader rc (f_CompressionCodec fragment) with
  | inr err => inr err
  | inl decomp =>
      let delta := int64 (offset - f_Begin fragment) in
      match discard FragmentReader_Read (discard_fuel decomp) (mkFragmentReader fragment (f_Begin fragment) decomp) delta with
      | (fr, None) => inl fr
      | (_, Some err) => inr err
      end
  end.

(** ** Fragment URLs *)

Record http_response := mkHttpResponse { ht_StatusOK : bool; ht_ContentEncoding : string; ht_Body : input }.

(** A GET of a URL, with the Accept-Encoding header if it is set. *)
Abbreviation http_client := (string → option string → http_response + read_error).

Definition with_codec (f : Fragment) (codec : CompressionCodec) : Fragment :=
  mkFragment (f_Journal f) (f_Begin f) (f_End f) (f_Sum f) codec (f_BackingStore f) (f_ModTime f).

Definition acceptEncoding (codec : CompressionCodec) : option string :=
  match codec with
  | Codec_GZIP_OFFLOAD_DECOMPRESSION => Some "identity"
  | Codec_GZIP => Some "gzip"
  | _ => None
  end.

(** [NewRequest]: the error of a URL that does not parse. *)
Definition OpenFragmentURL (NewRequest : string → option read_error) (http : http_client)
    (fragment : Fragment) (offset : Z) (url : string) : FragmentReader + read_error :=
  match NewRequest url with
  | Some err => inr err
  | None =>
      match http url (acceptEncoding (f_CompressionCodec fragment)) with
      | inr err => inr err
      | inl resp =>
          if negb (ht_StatusOK resp) then inr (ReadError "!OK fetching")
          else
            let fragment :=
              if bool_decide (f_CompressionCodec fragment = Codec_GZIP_OFFLOAD_DECOMPRESSION) && String.eqb (ht_ContentEncoding resp) "gzip"
              then with_codec fragment Codec_GZIP else fragment in
            NewFragmentReader (ht_Body resp) fragment offset
      end
  end.

(** ** Readers of an RPC *)

Inductive ctx_error := Canceled | DeadlineExceeded.
Inductive grpc_code := CodeCanceled | CodeDeadlineExceeded | CodeUnavailable | CodeOther.
#[global] Instance ctx_error_eq_dec : EqDecision ctx_error.
Proof. solve_decision. Defined.
#[global] Instance grpc_code_eq_dec : EqDecision grpc_code.
Proof. solve_decision. Defined.

(** Errors of readers: the named ones, of a context, of validation, of a status without a name, or what
    a source returned. *)
Inductive client_error :=
| ErrOffsetJump
| ErrNotJournalBroker
| ErrOffsetNotYetAvailable
| ErrSeekRequiresNewReader
| ErrSeekEnd
| ErrCtx (e : ctx_error)
| ErrValidation (msg : string)
| ErrStatus (s : Status)
| ErrSource (e : read_error).
#[global] Instance client_error_eq_dec : EqDecision client_error.
Proof. solve_decision. Defined.

(** An error of gRPC, with its code. *)
Abbreviation rpc_error := (grpc_code * read_error)%type.

Definition mapGRPCCtxErr (ctx : option ctx_error) (err : rpc_error) : client_error :=
  match ctx, fst err with
  | Some DeadlineExceeded, CodeDeadlineExceeded => ErrCtx DeadlineExceeded
  | Some Canceled, CodeCanceled => ErrCtx Canceled
  | _, _ => ErrSource (snd err)
  end.

(** The error of the status that preceded the end of the stream. *)
Definition status_error (s : Status) : client_error :=
  match s with
  | Status_OK => ErrSource EOF
  | NOT_JOURNAL_BROKER => ErrNotJournalBroker
  | OFFSET_NOT_YET_AVAILABLE => ErrOffsetNotYetAvailable
  | s => ErrStatus s
  end.

(** A Read RPC: the responses that the server sends, and the error that ends them. *)
Record rpc_stream := mkStream { st_frames : list ReadResponse; st_end : rpc_error }.

(** What a call of [Read] meets: the state of its context, the RPC that is begun if one is, and
    the HTTP client. *)
Record read_env := mkReadEnv {
  re_ctx : option ctx_error;
  re_open : ReadRequest → rpc_stream + rpc_error;
  re_NewRequest : string → option read_error;
  re_http : http_client;
}.

(** [r_routes]: the routes it advised its client of. *)
Record Reader := mkClientReader {
  r_Request : ReadRequest;
  r_Response : ReadResponse;
  r_stream : option rpc_stream;
  r_direct : option FragmentReader;
  r_routes : list (Journal * Route);
}.

Definition ReadResponse_zero : ReadResponse := mkReadResponse Status_OK None 0 0 None "" None.

Definition NewReader (req : ReadRequest) : Reader := mkClientReader req ReadResponse_zero None None [].

Definition req_with_offset (req : ReadRequest) (o : Z) : ReadRequest :=
  mkReadRequest (rr_Header req) (rr_Journal req) o (rr_Block req) (rr_DoNotProxy req) (rr_MetadataOnly req).

Definition r_Offset (r : Reader) : Z := rr_Offset (r_Request r).
Definition with_offset (r : Reader) (o : Z) : Reader :=
  mkClientReader (req_with_offset (r_Request r) o) (r_Response r) (r_stream r) (r_direct r) (r_routes r).
Definition with_stream (r : Reader) (st : rpc_stream) : Reader :=
  mkClientReader (r_Request r) (r_Response r) (Some st) (r_direct r) (r_routes r).
Definition with_direct (r : Reader) (fr : FragmentReader) : Reader :=
  mkClientReader (r_Request r) (r_Response r) (r_stream r) (Some fr) (r_routes r).
Definition with_response (r : Reader) (resp : ReadResponse) (st : rpc_stream) : Reader :=
  mkClientReader (r_Request r) resp (Some st) (r_direct r) (r_routes r).
Definition with_route (r : Reader) (h : option Header) : Reader :=
  mkClientReader (r_Request r) (r_Response r) (r_stream r) (r_direct r)
    (match h with Some h => r_routes r ++ [(rr_Journal (r_Request r), h_Route h)] | None => r_routes r end).

(** The bytes that were read, their count, and the error. *)
Abbreviation read_result := (Reader * bytes * Z * option client_error)%type.

Definition responseContent (r : Reader) : bytes := default [] (rs_Content (r_Response r)).

Section read.
Context `{UrlParser}.

(** The recursion is of the calls to itself: one for the RPC that is begun, one for each response
    of another status, one for the fragment URL. *)
Fixpoint read (fuel : nat) (env : read_env) (r : Reader) (n : nat) : outcome read_result :=
  match fuel with
  | O => Panic "stack overflow"
  | S fuel =>
      match r_direct r with
      | Some fr =>
          let '(fr, b, cnt, err) := FragmentReader_Read fr n in
          Ret (with_offset (with_direct r fr) (int64 (r_Offset r + cnt)), b, cnt, ErrSource <$> err)
      | None =>
          let l := Z.of_nat (length (responseContent r)) in
          let d := int64 (r_Offset r - rs_Offset (r_Response r)) in
          if negb (l =? 0) && (d <? l) then
            if d <? 0 then Panic "slice bounds out of range"
            else
              let b := take n (drop (Z.to_nat d) (responseContent r)) in
              Ret (with_offset r (int64 (r_Offset r + Z.of_nat (length b))), b, Z.of_nat (length b), None)
          else
            match r_stream r with
            | None =>
                match re_open env (r_Request r) with
                | inl st => read fuel env (with_stream r st) n
                | inr err => Ret (r, [], 0, Some (mapGRPCCtxErr (re_ctx env) err))
                end
            | Some st =>
                match st_frames st with
                | resp :: frames =>
                    let r := with_response r resp (mkStream frames (st_end st)) in
                    match ReadResponse_Validate resp with
                    | Some ve => Ret (r, [], 0, Some (ErrValidation (Err ve)))
                    | None =>
                        if bool_decide (rs_Status resp = Status_OK) && (rs_Offset resp <? r_Offset r) then
                          Ret (r, [], 0, Some (ErrValidation "invalid ReadResponse offset (%d; expected >= %d)"))
                        else
                          let r := with_route r (rs_Header resp) in
                          let jump := r_Offset r <? rs_Offset resp in
                          let r := if jump then with_offset r (rs_Offset resp) else r in
                          if bool_decide (rs_Status resp = Status_OK) then
                            Ret (r, [], 0, if jump then Some ErrOffsetJump else None)
                          else read fuel env r n
                    end
                | [] =>
                    let err := mapGRPCCtxErr (re_ctx env) (st_end st) in
                    if negb (bool_decide (err = ErrSource EOF)) then Ret (r, [], 0, Some err)
                    else
                      let resp := r_Response r in
                      if negb (rr_MetadataOnly (r_Request r)) && bool_decide (rs_Status resp = Status_OK) &&
                         negb (String.eqb (rs_FragmentUrl resp) "") then
                        match rs_Fragment resp with
                        | None => Panic "invalid memory address or nil pointer dereference"
                        | Some f =>
                            match OpenFragmentURL (re_NewRequest env) (re_http env) f (r_Offset r) (rs_FragmentUrl resp) with
                            | inl fr => read fuel env (with_direct r fr) n
                            | inr err => Ret (r, [], 0, Some (ErrSource err))
                            end
                        end
                      else Ret (r, [], 0, Some (status_error (rs_Status resp)))
                end
            end
      end
  end.

Definition frames_of (env : read_env) (r : Reader) : nat :=
  match r_stream r with
  | Some st => length (st_frames st)
  | None => match re_open env (r_Request r) with inl st => length (st_frames st) | inr _ => 0 end
  end.

Definition Reader_Read (env : read_env) (r : Reader) (n : nat) : outcome read_result :=
  read (4 + frames_of env r) env r n.

(** [Seek] to an absolute offset, or one relative to the current; SeekEnd is not supported. *)
Inductive Whence := SeekStart | SeekCurrent | SeekEnd.

(** [io.CopyN] of a direct reader: every [Read] delegates to it. *)
Definition direct_Read (r : Reader) (n : nat) : Reader * bytes * Z * option read_error :=
  match r_direct r with
  | Some fr =>
      let '(fr, b, cnt, err) := FragmentReader_Read fr n in
      (with_offset (with_direct r fr) (int64 (r_Offset r + cnt)), b, cnt, err)
  | None => (r, [], 0, None)
  end.

Definition Reader_Seek (r : Reader) (offset : Z) (whence : Whence) : outcome (Reader * Z * option client_error) :=
  match whence with
  | SeekEnd => Ret (r, r_Offset r, Some ErrSeekEnd)
  | _ =>
      let offset := match whence with SeekCurrent => int64 (r_Offset r + offset) | _ => offset end in
      match r_direct r with
      | None => Ret (r, r_Offset r, Some ErrSeekRequiresNewReader)
      | Some fr =>
          if offset <? r_Offset r then Ret (r, r_Offset r, Some ErrSeekRequiresNewReader)
          else
            match rs_Fragment (r_Response r) with
            | None => Panic "invalid memory address or nil pointer dereference"
            | Some f =>
                if f_End f <=? offset then Ret (r, r_Offset r, Some ErrSeekRequiresNewReader)
                else
                  let delta := int64 (offset - r_Offset r) in
                  let '(r, err) := discard direct_Read (discard_fuel (fr_decomp fr)) r delta in
                  Ret (r, r_Offset r, ErrSource <$> err)
            end
      end
  end.

(** ** Readers that retry *)

(** An attempt of the loop of [RetryReader.Read], and whether the context is done when it backs
    off. Its context is that of the reader, which [Cancel] cancels. *)
Record attempt := mkAttempt { at_env : read_env; at_done : bool }.

Definition is_ctx_error (e : client_error) : bool := match e with ErrCtx _ => true | _ => false end.

(** [None] while it is in a back-off, or in a read. *)
Fixpoint RetryReader_Read (r : Reader) (n : nat) (attempts : list attempt) : outcome (option read_result) :=
  match attempts with
  | [] => Ret None
  | a :: attempts =>
      let! (r, b, cnt, err) := Reader_Read (at_env a) r n in
      match err with
      | None => Ret (Some (r, b, cnt, None))
      | Some e =>
          if bool_decide (e = ErrOffsetJump) then Ret (Some (r, b, cnt, Some e))
          else
            let r := NewReader (r_Request r) in
            if is_ctx_error e || bool_decide (e = ErrOffsetNotYetAvailable) && negb (rr_Block (r_Request r))
            then Ret (Some (r, b, cnt, Some e))
            else if negb (cnt =? 0) then Ret (Some (r, b, cnt, None))
            else if at_done a then
              Ret (Some (r, [], 0, ErrCtx <$> re_ctx (at_env a)))
            else RetryReader_Read r n attempts
      end
  end.

Definition Restart (req : ReadRequest) : Reader := NewReader req.

Definition RetryReader_Seek (r : Reader) (offset : Z) (whence : Whence) : outcome (Reader * Z * option client_error) :=
  match whence with
  | SeekEnd => Ret (r, r_Offset r, Some ErrSeekEnd)
  | _ =>
      let offset := match whence with SeekCurrent => int64 (r_Offset r + offset) | _ => offset end in
      let! (r, _, err) := Reader_Seek r offset SeekStart in
      let r := match err with Some _ => Restart (req_with_offset (r_Request r) offset) | None => r end in
      Ret (r, r_Offset r, None)
  end.
End read.
End client.

(** In milliseconds. *)
Definition backoff (attempt : Z) : Z :=
  if (attempt =? 0) || (attempt =? 1) then 0
  else if attempt =? 2 then 5
  else if (attempt =? 3) || (attempt =? 4) || (attempt =? 5) then 1000 * (attempt - 1)
  else 5000.

(** ** Content of a journal *)

(** The bytes of the journal from an offset on. *)
Definition of_journal (J : Z → Byte.byte) (o : Z) (b : bytes) : Prop := ∀ i x, b !! i = Some x → x = J (o + Z.of_nat i).

Lemma of_journal_nil J o : of_journal J o [].
Proof. by intros i x Hx. Qed.

Lemma of_journal_app J o a b : of_journal J o (a ++ b) ↔ of_journal J o a ∧ of_journal J (o + Z.of_nat (length a)) b.
Proof.
  split.
  - intros Hab. split; intros i x Hx.
    + apply Hab. by apply lookup_app_l_Some.
    + replace (o + Z.of_nat (length a) + Z.of_nat i) with (o + Z.of_nat (length a + i)) by lia. apply Hab.
      rewrite lookup_app_r by lia. by replace (length a + i - length a)%nat with i by lia.
  - intros [Ha Hb] i x [Hx|[Hi Hx]]%lookup_app_Some; [by apply Ha|]. apply Hb in Hx. subst x. f_equal. lia.
Qed.

Lemma of_journal_split J o n b : of_journal J o b → of_journal J o (take n b) ∧ of_journal J (o + Z.of_nat (min n (length b))) (drop n b).
Proof. intros Hb. rewrite <- (take_drop n b), of_journal_app, length_take in Hb. done. Qed.

Lemma input_Read_spec r n r' b err :
  input_Read r n = (r', b, err) →
  in_rest r = b ++ in_rest r' ∧ (length b ≤ n)%nat ∧ in_err r' = in_err r ∧ in_reads r' = tail (in_reads r) ∧
  (err ≠ None → err = Some (in_err r) ∧ in_rest r' = []) ∧
  (err = None → in_reads r = [] → (0 < n)%nat → b ≠ []).
Proof.
  unfold input_Read. intros Hr.
  destruct (match in_reads r with x :: _ => x | [] => (n, false) end) as [k eager] eqn:Ek.
  destruct (in_rest r) as [|x rest] eqn:Er; injection Hr as <- <- <-; cbn [in_rest in_err in_reads].
  - split_and!; [done|simpl; lia|done|done|done|done].
  - split_and!; [by rewrite take_drop|rewrite length_take; lia|done|done| |].
    + destruct eager; cbn [andb]; [|done]. case_bool_decide; done.
    + intros _ Hrd Hn. rewrite Hrd in Ek. injection Ek as <- <-. rewrite Nat.min_id. destruct n; [lia|done].
Qed.

Lemma input_progress i n i' b err : input_Read i n = (i', b, err) → (0 < n)%nat → err = None →
  (length (in_reads i') + length (in_rest i') < length (in_reads i) + length (in_rest i))%nat.
Proof.
  intros Hr Hn He. destruct (input_Read_spec _ _ _ _ _ Hr) as (Hrest & _ & _ & Hrd & _ & Hpos). rewrite Hrd, Hrest, length_app.
  destruct (in_reads i) as [|x l]; cbn [tail length]; [|lia]. destruct b; [by destruct (Hpos He eq_refl Hn)|simpl; lia].
Qed.

(** ** Discards *)

Section discard.
(** A reader at an offset, with what it can still read before an error; reads are in bounds. *)
Context {R : Type} (Read : R → nat → R * bytes * Z * option read_error).
Context (at_ : R → Z → Prop) (measure avail : R → nat) (limit : Z).
Context (step : ∀ r o n r' b cnt err, at_ r o → (0 < n)%nat → o + Z.of_nat n ≤ limit → Read r n = (r', b, cnt, err) →
  0 ≤ cnt ≤ Z.of_nat n ∧ at_ r' (o + cnt) ∧ (err = None → (measure r' < measure r)%nat) ∧
  Z.of_nat (avail r) = Z.of_nat (avail r') + cnt ∧ (err ≠ None → avail r' = 0%nat)).

Lemma discard_spec fuel : ∀ r o delta r' err,
  at_ r o → 0 ≤ delta → o + delta ≤ limit → (measure r < fuel)%nat → discard Read fuel r delta = (r', err) →
  (err = None → at_ r' (o + delta)) ∧ (delta ≤ Z.of_nat (avail r) → err = None).
Proof.
  induction fuel as [|fuel IH]; intros r o delta r' err Hat Hd Hlim Hf; [lia|]. cbn [discard].
  destruct (Z.leb_spec delta 0); [intros [= <- <-]; replace (o + delta) with o by lia; done|].
  destruct (Read r (Z.to_nat (Z.min delta 8192))) as [[[r1 b] cnt] e] eqn:Hr.
  destruct (step r o (Z.to_nat (Z.min delta 8192)) r1 b cnt e Hat ltac:(lia) ltac:(lia) Hr) as (Hc & Hat1 & Hm & Hav & He). destruct e as [x|].
  - intros [= <- <-]. specialize (He ltac:(done)). split.
    + destruct (Z.eqb_spec (delta - cnt) 0); [|done]. intros _. by replace delta with cnt by lia.
    + intros Hle. destruct (Z.eqb_spec (delta - cnt) 0); [done|lia].
  - intros Hrun. specialize (Hm eq_refl). destruct (IH r1 (o + cnt) (delta - cnt) r' err) as [H1 H2]; [done|lia|lia|lia|done|].
    replace (o + cnt + (delta - cnt)) with (o + delta) in H1 by lia. split; [done|]. intros Hle. apply H2. lia.
Qed.
End discard.

(** ** Fragment readers *)

(** A reader of content of the journal, within its fragment. *)
Record fr_ok (J : Z → Byte.byte) (fr : FragmentReader) : Prop := {
  fk_content : of_journal J (fr_Offset fr) (in_rest (fr_decomp fr));
  fk_range : 0 ≤ fr_Offset fr ≤ f_End (fr_Fragment fr);
  fk_bound : f_End (fr_Fragment fr) ≤ MaxInt64 ∧ fr_Offset fr + Z.of_nat (length (in_rest (fr_decomp fr))) ≤ MaxInt64;
}.

Lemma FragmentReader_Read_spec J fr n fr' b cnt err :
  fr_ok J fr → FragmentReader_Read fr n = (fr', b, cnt, err) →
  cnt = Z.of_nat (length b) ∧ (length b ≤ n)%nat ∧ of_journal J (fr_Offset fr) b ∧ fr_Offset fr + cnt ≤ f_End (fr_Fragment fr) ∧
  fr_Fragment fr' = fr_Fragment fr ∧
  (err = None ∨ fr_Offset fr + Z.of_nat n ≤ f_End (fr_Fragment fr) → fr_ok J fr' ∧ fr_Offset fr' = fr_Offset fr + cnt) ∧
  (err = Some EOF → fr_Offset fr + cnt = f_End (fr_Fragment fr)).
Proof.
  intros [Hc Hr [Hb1 Hb2]]. unfold FragmentReader_Read. destruct (input_Read (fr_decomp fr) n) as [[d b0] e0] eqn:Hin.
  destruct (input_Read_spec _ _ _ _ _ Hin) as (Hrest & Hlen & Herr & _ & Hex & _). rewrite Hrest in Hc, Hb2. rewrite length_app in Hb2.
  apply of_journal_app in Hc as [Hc1 Hc2]. cbn [fr_Fragment fr_Offset].
  rewrite int64_id by (unfold is_int64, MinInt64, MaxInt64 in *; lia).
  destruct (Z.ltb_spec (f_End (fr_Fragment fr)) (fr_Offset fr + Z.of_nat (length b0))) as [Hov|Hin'].
  - set (k := Z.of_nat (length b0) - _). assert (0 ≤ k ≤ Z.of_nat (length b0)) as Hk by lia. intros [= <- <- <- <-].
    rewrite length_take. split_and!; [lia|lia| |lia|done|intros [?|?]; [done|lia]|done].
    by apply (of_journal_split J _ (Z.to_nat k)) in Hc1 as [? _].
  - assert (fr_ok J (mkFragmentReader (fr_Fragment fr) (fr_Offset fr + Z.of_nat (length b0)) d)) as Hok'.
    { split; cbn; [done|lia|lia]. }
    destruct (bool_decide (e0 = Some EOF) && negb (fr_Offset fr + Z.of_nat (length b0) =? f_End (fr_Fragment fr))) eqn:Heof;
      intros [= <- <- <- <-]; (split_and!; [done|done|done|lia|done|done|]); [done|].
    intros ->. rewrite bool_decide_eq_true_2 in Heof by done. cbn in Heof. apply negb_false_iff, Z.eqb_eq in Heof. done.
Qed.

Lemma FragmentReader_step J limit fr o n fr' b cnt err :
  fr_ok J fr ∧ fr_Offset fr = o ∧ limit = f_End (fr_Fragment fr) → (0 < n)%nat → o + Z.of_nat n ≤ limit →
  FragmentReader_Read fr n = (fr', b, cnt, err) →
  0 ≤ cnt ≤ Z.of_nat n ∧ (fr_ok J fr' ∧ fr_Offset fr' = o + cnt ∧ limit = f_End (fr_Fragment fr')) ∧
  (err = None → (length (in_reads (fr_decomp fr')) + length (in_rest (fr_decomp fr')) < length (in_reads (fr_decomp fr)) + length (in_rest (fr_decomp fr)))%nat) ∧
  Z.of_nat (length (in_rest (fr_decomp fr))) = Z.of_nat (length (in_rest (fr_decomp fr'))) + cnt ∧
  (err ≠ None → length (in_rest (fr_decomp fr')) = 0%nat).
Proof.
  intros (Hok & <- & ->) Hn Hlim Hread. destruct (FragmentReader_Read_spec J fr n fr' b cnt err Hok Hread) as (-> & Hl & _ & _ & Hf & Hk & _).
  destruct Hk as [Hok' Ho']; [by right|]. rewrite Hf. split_and!; [lia|lia|done|done|done| | |].
  all: revert Hread; unfold FragmentReader_Read; destruct (input_Read (fr_decomp fr) n) as [[d b0] e0] eqn:Hin;
    destruct (input_Read_spec _ _ _ _ _ Hin) as (Hrest & Hlen & Herr & Hrd & Hex & Hpos); cbn [fr_Fragment fr_Offset].
  all: destruct Hok as [_ Hr [Hb1 Hb2]]; rewrite Hrest, length_app in Hb2; rewrite int64_id by (unfold is_int64, MinInt64, MaxInt64 in *; lia).
  all: destruct (Z.ltb_spec (f_End (fr_Fragment fr)) (fr_Offset fr + Z.of_nat (length b0))); [lia|].
  - destruct (_ && _); intros [= <- <- _ <-]; [done|]. intros ->. cbn [fr_decomp]. rewrite Hrd, Hrest, length_app.
    destruct (in_reads (fr_decomp fr)) as [|x l]; cbn [tail length]; [|lia].
    destruct b0; [by destruct (Hpos eq_refl eq_refl Hn)|simpl; lia].
  - destruct (_ && _); intros [= <- <- _ <-]; cbn [fr_decomp]; rewrite Hrest, length_app; lia.
  - destruct (bool_decide _) eqn:Hd; [apply bool_decide_eq_true in Hd; subst e0|]; cbn [andb].
    + destruct Hex as [_ Hx]; [done|]. destruct (negb _); intros [= <- _ _ _] _; cbn [fr_decomp]; by rewrite Hx.
    + intros [= <- _ _ <-] He. cbn [fr_decomp]. destruct (Hex He) as [_ Hx]. by rewrite Hx.
Qed.

Section reads.
Context (gzip_NewReader zstdNewReader : input → input + read_error) (snappy_NewReader : input → input).
Context `{UrlParser}.
Context (J : Z → Byte.byte).

(** What a store holds of a fragment: once decompressed, content of the journal from its begin on. It
    may be too short or too long. *)
Definition stored (rc : input) (f : Fragment) : Prop := ∀ decomp,
  NewCodecReader gzip_NewReader zstdNewReader snappy_NewReader rc (f_CompressionCodec f) = inl decomp →
  of_journal J (f_Begin f) (in_rest decomp) ∧ f_Begin f + Z.of_nat (length (in_rest decomp)) ≤ MaxInt64.

Definition frag_range (f : Fragment) (o : Z) : Prop := 0 ≤ f_Begin f ≤ o ∧ o ≤ f_End f ≤ MaxInt64.

Lemma NewFragmentReader_spec rc f o fr :
  stored rc f → frag_range f o → NewFragmentReader gzip_NewReader zstdNewReader snappy_NewReader rc f o = inl fr →
  fr_ok J fr ∧ fr_Offset fr = o ∧ f_End (fr_Fragment fr) = f_End f.
Proof.
  intros Hst [Hb He]. unfold NewFragmentReader.
  destruct (NewCodecReader _ _ _ rc (f_CompressionCodec f)) as [d|] eqn:Hcd; [|done]. destruct (Hst d Hcd) as [Hc Hl].
  rewrite int64_id by (unfold is_int64, MinInt64, MaxInt64 in *; lia).
  destruct (discard _ _ _ _) as [fr' [e|]] eqn:Hd; [done|]. intros [= <-].
  eapply (discard_spec FragmentReader_Read (λ fr o, fr_ok J fr ∧ fr_Offset fr = o ∧ f_End f = f_End (fr_Fragment fr))
    (λ fr, (length (in_reads (fr_decomp fr)) + length (in_rest (fr_decomp fr)))%nat) (λ fr, length (in_rest (fr_decomp fr))) (f_End f)
    (FragmentReader_step J (f_End f)) _ _ (f_Begin f)) in Hd as [Hat _]; [| |lia|lia|].
  - destruct (Hat eq_refl) as (? & ? & ->). split_and!; [done|lia|done].
  - split_and!; [split; cbn; [done|lia|lia]|done|done].
  - unfold discard_fuel. cbn. lia.
Qed.

(** [urls] are the fragments and their URLs that brokers tell of. *)
Context (urls : Fragment → string → Prop).

Definition served (env : read_env) : Prop := ∀ f url resp codec,
  urls f url → re_http env url (acceptEncoding (f_CompressionCodec f)) = inl resp →
  codec = f_CompressionCodec f ∨ codec = Codec_GZIP ∧ ht_ContentEncoding resp = "gzip" →
  stored (ht_Body resp) (with_codec f codec).

Lemma OpenFragmentURL_spec env f o url fr :
  served env → urls f url → frag_range f o →
  OpenFragmentURL gzip_NewReader zstdNewReader snappy_NewReader (re_NewRequest env) (re_http env) f o url = inl fr →
  fr_ok J fr ∧ fr_Offset fr = o ∧ f_End (fr_Fragment fr) = f_End f.
Proof.
  intros Hs Hu Hr. unfold OpenFragmentURL. destruct (re_NewRequest env url); [done|].
  destruct (re_http env url _) as [resp|] eqn:Hg; [|done]. destruct (ht_StatusOK resp); [|done]. cbn [negb]. intros Hn.
  set (c := bool_decide _ && _) in Hn. destruct c eqn:Hc.
  - apply andb_true_iff in Hc as [_ Hc%String.eqb_eq].
    destruct (NewFragmentReader_spec (ht_Body resp) (with_codec f Codec_GZIP) o fr) as (? & ? & ?); [apply (Hs f url); auto|done..].
  - destruct (NewFragmentReader_spec (ht_Body resp) f o fr) as (? & ? & ?); [|done..].
    assert (f = with_codec f (f_CompressionCodec f)) as -> by (by destruct f). apply (Hs f url); cbn; auto.
Qed.

(** The responses of a Read of the journal from [o] on, which may be -1: chunks of content follow each other; a
    fragment begins at or after the offset (and the client checks that it does); another status
    is the last response, and does not tell of a greater offset, but for a request of the head. *)
Fixpoint delivers (o : Z) (frames : list ReadResponse) : Prop :=
  match frames with
  | [] => True
  | f :: frames =>
      match rs_Content f with
      | Some c => rs_Offset f = o ∧ 0 ≤ o ∧ of_journal J o c ∧ o + Z.of_nat (length c) ≤ MaxInt64 ∧ delivers (o + Z.of_nat (length c)) frames
      | None =>
          rs_Offset f ≤ MaxInt64 ∧
          (rs_Status f = Status_OK → ∀ fr, rs_Fragment f = Some fr → 0 ≤ f_Begin fr ∧ f_End fr ≤ MaxInt64 ∧ (rs_FragmentUrl f ≠ "" → urls fr (rs_FragmentUrl f))) ∧
          (rs_Status f ≠ Status_OK → (o = -1 ∨ rs_Offset f ≤ o) ∧ frames = []) ∧
          delivers (Z.max o (rs_Offset f)) frames
      end
  end.

(** Where the responses that follow continue. *)
Definition r_next (r : Reader) : Z :=
  match responseContent r with [] => r_Offset r | c => rs_Offset (r_Response r) + Z.of_nat (length c) end.

Record rpc_at (r : Reader) : Prop := {
  ra_content : responseContent r ≠ [] →
    0 ≤ rs_Offset (r_Response r) ≤ r_Offset r ∧ r_Offset r ≤ r_next r ≤ MaxInt64 ∧
    of_journal J (rs_Offset (r_Response r)) (responseContent r) ∧ rs_FragmentUrl (r_Response r) = "";
  ra_stream : match r_stream r with Some st => delivers (r_next r) (st_frames st) | None => responseContent r = [] end;
  ra_url : rs_Status (r_Response r) = Status_OK → rs_FragmentUrl (r_Response r) ≠ "" →
    ∃ f, rs_Fragment (r_Response r) = Some f ∧ urls f (rs_FragmentUrl (r_Response r)) ∧ frag_range f (r_Offset r);
}.

Definition reader_at (r : Reader) : Prop :=
  -1 ≤ r_Offset r ≤ MaxInt64 ∧
  match r_direct r with
  | Some fr => (fr_ok J fr ∧ fr_Offset fr = r_Offset r) ∧ ∃ f, rs_Fragment (r_Response r) = Some f ∧ f_End f = f_End (fr_Fragment fr)
  | None => rpc_at r
  end.

Lemma NewReader_at req : -1 ≤ rr_Offset req ≤ MaxInt64 → reader_at (NewReader req).
Proof. intros Hr. split; [done|]. by split. Qed.

Definition env_ok (env : read_env) : Prop :=
  served env ∧ ∀ req st, -1 ≤ rr_Offset req ≤ MaxInt64 → re_open env req = inl st → delivers (rr_Offset req) (st_frames st).

(** What a read returned: bytes of the journal from the reader's offset on, which is past
    them afterwards. *)
Record read_ok (r : Reader) (n : nat) (r' : Reader) (b : bytes) (cnt : Z) (err : option client_error) : Prop := {
  rk_count : cnt = Z.of_nat (length b) ∧ (length b ≤ n)%nat;
  rk_bytes : of_journal J (r_Offset r) b;
  rk_request : r_Request r' = req_with_offset (r_Request r) (r_Offset r');
  rk_range : -1 ≤ r_Offset r' ≤ MaxInt64;
  rk_none : err = None → r_Offset r' = r_Offset r + cnt ∧ reader_at r';
  rk_jump : err = Some ErrOffsetJump → b = [] ∧ r_Offset r < r_Offset r' ∧ reader_at r';
  rk_error e : err = Some e → e ≠ ErrOffsetJump → r_Offset r' = r_Offset r + cnt ∨ r_Offset r = -1 ∧ b = [];
}.

(** Reads of a fragment. *)
Lemma direct_ok r fr n fr' b cnt err :
  reader_at r → r_direct r = Some fr → FragmentReader_Read fr n = (fr', b, cnt, err) →
  read_ok r n (with_offset (with_direct r fr') (int64 (r_Offset r + cnt))) b cnt (ErrSource <$> err).
Proof.
  intros [Hrg Hd] Hfr Hread. rewrite Hfr in Hd. destruct Hd as ([Hok Ho] & f & Hf1 & Hf2).
  destruct (FragmentReader_Read_spec J fr n fr' b cnt err Hok Hread) as (-> & Hl & Hb & Hend & Hf & Hk & _).
  pose proof Hok as [_ Hr [Hm _]]. rewrite Ho in *. rewrite int64_id by (unfold is_int64, MinInt64, MaxInt64 in *; lia).
  split; cbn; [done|done|done|unfold r_Offset in *; cbn; lia| | |].
  - intros He. destruct err; [done|]. destruct Hk as [Hok' Ho']; [by left|]. split; [done|]. split; [unfold r_Offset in *; cbn; lia|].
    split; [by split|]. exists f. by rewrite Hf.
  - by destruct err.
  - intros e _ _. by left.
Qed.

(** What is left of the last chunk. *)
Lemma buffered_ok r n :
  let d := int64 (r_Offset r - rs_Offset (r_Response r)) in
  let b := take n (drop (Z.to_nat d) (responseContent r)) in
  -1 ≤ r_Offset r ≤ MaxInt64 → r_direct r = None → rpc_at r → responseContent r ≠ [] → d < Z.of_nat (length (responseContent r)) →
  0 ≤ d ∧ read_ok r n (with_offset r (int64 (r_Offset r + Z.of_nat (length b)))) b (Z.of_nat (length b)) None.
Proof.
  intros d b Hrg Hd [Hc Hs Hu] Hne Hlt. destruct (Hc Hne) as ([Hr1 Hr2] & Hnx & Hof & Hurl).
  assert (d = r_Offset r - rs_Offset (r_Response r)) as Hde.
  { unfold d. apply int64_id. unfold is_int64, MinInt64, MaxInt64 in *. lia. }
  assert (r_next r = rs_Offset (r_Response r) + Z.of_nat (length (responseContent r))) as Hnxe.
  { unfold r_next. by destruct (responseContent r). }
  assert (Z.of_nat (length b) ≤ Z.of_nat (length (responseContent r)) - d) as Hlb.
  { unfold b. rewrite length_take, length_drop. lia. }
  split; [lia|]. rewrite int64_id by (unfold is_int64, MinInt64, MaxInt64 in *; lia).
  split; cbn; [| | | | |done|done].
  - split; [done|]. unfold b. rewrite length_take. lia.
  - apply (of_journal_split J _ (Z.to_nat d)) in Hof as [_ Hof]. rewrite Nat.min_l in Hof by lia.
    replace (rs_Offset (r_Response r) + Z.of_nat (Z.to_nat d)) with (r_Offset r) in Hof by lia.
    by apply (of_journal_split J _ n) in Hof as [? _].
  - done.
  - unfold r_Offset in *. cbn. lia.
  - intros _. split; [done|]. set (o := r_Offset r + _) in *.
    assert (r_next (with_offset r o) = r_next r) as Hnn.
    { unfold r_next, responseContent in *. cbn. by destruct (default [] (rs_Content (r_Response r))). }
    split; [unfold r_Offset at 1 2; cbn; unfold o; lia|]. cbn [with_offset r_direct]. rewrite Hd. split; rewrite ?Hnn.
    + intros _. change (r_Offset (with_offset r o)) with o. change (r_Response (with_offset r o)) with (r_Response r). unfold o. split_and!; [lia..|done|done].
    + exact Hs.
    + change (r_Response (with_offset r o)) with (r_Response r). by rewrite Hurl.
Qed.

(** Errors that leave the reader where it was. *)
Lemma failed_ok r n r' e :
  r_Request r' = req_with_offset (r_Request r) (r_Offset r') → -1 ≤ r_Offset r' ≤ MaxInt64 →
  (r_Offset r' = r_Offset r ∨ r_Offset r = -1) → e ≠ ErrOffsetJump → read_ok r n r' [] 0 (Some e).
Proof.
  intros Hq Hrg Ho He. split; cbn; [split; [done|lia]|apply of_journal_nil|done|done|done|congruence|].
  intros e' [= <-] _. destruct Ho as [-> |?]; [left; lia|by right].
Qed.

Lemma req_with_same req : req_with_offset req (rr_Offset req) = req.
Proof. by destruct req. Qed.

Lemma mapGRPC_not_jump ctx e : mapGRPCCtxErr ctx e ≠ ErrOffsetJump.
Proof. unfold mapGRPCCtxErr. by destruct ctx as [[]|], (fst e). Qed.

Lemma status_not_jump st : status_error st ≠ ErrOffsetJump.
Proof. by destruct st. Qed.

(** What validation tells of a response. *)
Lemma valid_response f : ReadResponse_Validate f = None →
  (is_Some (rs_Content f) → rs_Status f = Status_OK ∧ rs_FragmentUrl f = "") ∧
  (rs_FragmentUrl f ≠ "" → ∃ fr, rs_Fragment f = Some fr) ∧
  (rs_Content f = None → ∀ fr, rs_Fragment f = Some fr → f_Begin fr ≤ rs_Offset f ≤ f_End fr).
Proof.
  unfold ReadResponse_Validate. rewrite !orElse_None. intros [_ Hv]. destruct (rs_Content f) as [c|].
  - rewrite !orElse_None, !failIf_None, !negb_false_iff in Hv. destruct Hv as (H1 & _ & _ & _ & H5).
    apply bool_decide_eq_true in H1. apply String.eqb_eq in H5. split_and!; [done|done|by intros].
  - rewrite !orElse_None in Hv. destruct Hv as (_ & _ & Hv). split_and!; [by intros []| |].
    + intros Hu. destruct (rs_Fragment f) as [fr|]; [by eexists|]. rewrite orElse_None, !failIf_None, negb_false_iff in Hv.
      destruct Hv as [_ Hv%String.eqb_eq]. done.
    + intros _ fr Hfr. rewrite Hfr, !orElse_None, ExtendContext_None, !failIf_None, orb_false_iff, Z.ltb_ge, Z.leb_gt in Hv.
      lia.
Qed.

(** A response that is OK. *)
Lemma response_ok r resp frames end_ n :
  reader_at r → r_direct r = None → responseContent r = [] ∨ r_Offset r = r_next r →
  delivers (r_next r) (resp :: frames) → ReadResponse_Validate resp = None → rs_Status resp = Status_OK → r_Offset r ≤ rs_Offset resp →
  let r1 := with_route (with_response r resp (mkStream frames end_)) (rs_Header resp) in
  let jump := r_Offset r1 <? rs_Offset resp in
  read_ok r n (if jump then with_offset r1 (rs_Offset resp) else r1) [] 0 (if jump then Some ErrOffsetJump else None).
Proof.
  intros [Hrg _] Hd Hcons Hdl Hval Hst Hle r1. assert (r_next r = r_Offset r) as Hnx by (destruct Hcons as [Hc|]; [unfold r_next; by rewrite Hc|done]).
  rewrite Hnx in Hdl. change (r_Offset r1) with (r_Offset r). cbn zeta.
  set (r2 := if r_Offset r <? rs_Offset resp then with_offset r1 (rs_Offset resp) else r1). assert (r_Offset r2 = rs_Offset resp) as Ho2.
  { unfold r2. destruct (Z.ltb_spec (r_Offset r) (rs_Offset resp)); [done|]. change (r_Offset r1) with (r_Offset r). lia. }
  assert (r_Response r2 = resp ∧ r_direct r2 = None ∧ r_stream r2 = Some (mkStream frames end_) ∧ r_Request r2 = req_with_offset (r_Request r) (rs_Offset resp)) as (E1 & E2 & E3 & E4).
  { unfold r2. destruct (Z.ltb_spec (r_Offset r) (rs_Offset resp)); split_and!; try done.
    assert (rs_Offset resp = r_Offset r) as -> by lia. symmetry. apply req_with_same. }
  destruct (valid_response resp Hval) as (V1 & V2 & V3). cbn [delivers] in Hdl.
  assert (rs_Offset resp ≤ MaxInt64 ∧ reader_at r2) as [Hmax Hat].
  { destruct (rs_Content resp) as [c|] eqn:Hc.
    - destruct Hdl as (D1 & D2 & D3 & D4 & D5). split; [lia|]. split; [lia|]. rewrite E2.
      assert (responseContent r2 = c) as Hrc by (unfold responseContent; by rewrite E1, Hc).
      destruct (V1 ltac:(by eexists)) as [_ Hu]. split; rewrite ?Hrc, ?E1, ?E3; cbn [st_frames].
      + intros Hcne. assert (r_next r2 = rs_Offset resp + Z.of_nat (length c)) as ->.
        { unfold r_next. rewrite Hrc, E1. by destruct c. }
        rewrite D1 in *. split_and!; [lia..|done|done].
      + unfold r_next. rewrite Hrc, E1, Ho2, D1. destruct c; [|done]. cbn [length] in D5. by rewrite Z.add_0_r in D5.
      + by rewrite Hu.
    - destruct Hdl as (D1 & D2 & _ & D4). split; [lia|]. split; [lia|]. rewrite E2.
      assert (responseContent r2 = []) as Hrc by (unfold responseContent; by rewrite E1, Hc).
      split; rewrite ?Hrc, ?E1, ?E3; cbn [st_frames]; [done| |].
      + unfold r_next. rewrite Hrc, Ho2. by rewrite Z.max_r in D4 by lia.
      + intros _ Hu. destruct (V2 Hu) as [fr Hfr]. destruct (D2 Hst fr Hfr) as (Hbeg & Hend & Hurl). exists fr. split_and!; [done|auto|].
        rewrite Ho2. specialize (V3 eq_refl fr Hfr). split; [lia|]. lia. }
  split; [split; [done|simpl; lia]|apply of_journal_nil|by rewrite E4, Ho2|lia| | |].
  - destruct (Z.ltb_spec (r_Offset r) (rs_Offset resp)); [done|]. intros _. split; [lia|done].
  - destruct (Z.ltb_spec (r_Offset r) (rs_Offset resp)); [|done]. intros _. split_and!; [done|lia|done].
  - intros e. destruct (r_Offset r <? rs_Offset resp); intros [= <-]; done.
Qed.

Abbreviation Read := (Reader_Read gzip_NewReader zstdNewReader snappy_NewReader).
Abbreviation read' := (read gzip_NewReader zstdNewReader snappy_NewReader).

(** The calls that [read] needs. *)
Definition enough (fuel : nat) (env : read_env) (r : Reader) : Prop :=
  match r_direct r with
  | Some _ => 1 ≤ fuel
  | None =>
      match r_stream r with
      | Some st => length (st_frames st) + 2 ≤ fuel
      | None => match re_open env (r_Request r) with inl st => length (st_frames st) + 3 ≤ fuel | inr _ => 1 ≤ fuel end
      end
  end%nat.

Definition reads_ok (fuel : nat) (env : read_env) (r : Reader) (n : nat) : Prop :=
  ∃ r' b cnt err, read' fuel env r n = Ret (r', b, cnt, err) ∧ read_ok r n r' b cnt err.

(** A reader that is done with its chunk reads the next response, or the end of the stream. *)
Definition drained (r : Reader) : Prop := responseContent r = [] ∨ r_Offset r = r_next r.

Lemma drained_false r : reader_at r → r_direct r = None → drained r →
  negb (Z.of_nat (length (responseContent r)) =? 0) && (int64 (r_Offset r - rs_Offset (r_Response r)) <? Z.of_nat (length (responseContent r))) = false.
Proof.
  intros [Hrg Hat] Hd Hdr. rewrite Hd in Hat. destruct Hat as [Hc _ _].
  destruct (decide (responseContent r = [])) as [-> |Hne]; [done|]. destruct Hdr as [?|Ho]; [done|]. destruct (Hc Hne) as (H1 & H2 & _).
  unfold r_next in Ho, H2. destruct (responseContent r) as [|x c] eqn:E; [done|]. apply andb_false_iff. right. apply Z.ltb_ge.
  rewrite int64_id by (unfold is_int64, MinInt64, MaxInt64 in *; lia). lia.
Qed.

(** At the end of the stream. *)
Lemma closed_ok fuel env r end_ n :
  reader_at r → r_direct r = None → drained r → r_stream r = Some (mkStream [] end_) → env_ok env → (2 ≤ fuel)%nat → reads_ok fuel env r n.
Proof.
  intros Hat Hd Hdr Hs [Hsv _] Hf. pose proof Hat as [Hrg Hat']. rewrite Hd in Hat'. destruct Hat' as [Hc _ Hu].
  destruct fuel as [|[|fuel]]; [lia|lia|]. unfold reads_ok. cbn [read]. rewrite Hd, Hs. cbn [st_frames st_end].
  rewrite drained_false by done.
  assert (∀ e, e ≠ ErrOffsetJump → read_ok r n r [] 0 (Some e)) as Hfail.
  { intros e He. apply failed_ok; [symmetry; apply req_with_same|done|by left|done]. }
  case_bool_decide as Heof; cbn [negb].
  2:{ eexists _, _, _, _. split; [reflexivity|]. apply Hfail, mapGRPC_not_jump. }
  destruct (negb (rr_MetadataOnly (r_Request r)) && bool_decide (rs_Status (r_Response r) = Status_OK) && negb (String.eqb (rs_FragmentUrl (r_Response r)) "")) eqn:Hurl.
  2:{ eexists _, _, _, _. split; [reflexivity|]. apply Hfail, status_not_jump. }
  rewrite !andb_true_iff, bool_decide_eq_true, !negb_true_iff, String.eqb_neq in Hurl. destruct Hurl as [[_ Hok] Hne].
  destruct (Hu Hok Hne) as (f & Hrf & Huf & Hfr). rewrite Hrf.
  destruct (OpenFragmentURL _ _ _ _ _ _ _ _) as [fr|e] eqn:Hop; [|eexists _, _, _, _; split; [reflexivity|]; by apply Hfail].
  destruct (OpenFragmentURL_spec env f (r_Offset r) _ fr Hsv Huf Hfr Hop) as (Hfk & Hfo & Hfe).
  cbn [with_direct r_direct]. destruct (FragmentReader_Read fr n) as [[[fr' b] cnt] err] eqn:Hread.
  eexists _, _, _, _. split; [reflexivity|].
  assert (reader_at (with_direct r fr)) as Hat2 by (split; [done|]; split; [done|by exists f]).
  pose proof (direct_ok (with_direct r fr) fr n fr' b cnt err Hat2 eq_refl Hread) as [K1 K2 K3 K4 K5 K6 K7]. by split.
Qed.

(** After the response of another status, the reader only reads the end of the stream. *)
Lemma status_read fuel env r end_ n :
  r_direct r = None → rs_Content (r_Response r) = None → rs_Status (r_Response r) ≠ Status_OK → r_stream r = Some (mkStream [] end_) →
  ∃ e, e ≠ ErrOffsetJump ∧ read' (S fuel) env r n = Ret (r, [], 0, Some e).
Proof.
  intros Hd Hc Hst Hs. cbn [read]. rewrite Hd, Hs. unfold responseContent. rewrite Hc. cbn [default length Z.of_nat Z.eqb negb andb st_frames st_end].
  case_bool_decide; cbn [negb]; [|eexists; split; [|reflexivity]; apply mapGRPC_not_jump].
  rewrite (bool_decide_eq_false_2 (rs_Status (r_Response r) = Status_OK)), andb_false_r by done. eexists. split; [|reflexivity]. apply status_not_jump.
Qed.

Lemma read_spec env n : env_ok env → ∀ fuel r, reader_at r → enough fuel env r → reads_ok fuel env r n.
Proof.
  intros Henv. induction fuel as [|fuel IH]; intros r Hat Hen.
  { unfold enough in Hen. repeat case_match; lia. }
  pose proof Hat as [Hrg Hat']. destruct (r_direct r) as [fr|] eqn:Hd.
  { unfold reads_ok. cbn [read]. rewrite Hd. destruct (FragmentReader_Read fr n) as [[[fr' b] cnt] err] eqn:Hread.
    eexists _, _, _, _. split; [reflexivity|]. by apply (direct_ok r fr). }
  destruct (decide (responseContent r ≠ [] ∧ int64 (r_Offset r - rs_Offset (r_Response r)) < Z.of_nat (length (responseContent r)))) as [[Hne Hlt]|Hnb].
  { destruct (buffered_ok r n Hrg Hd Hat' Hne Hlt) as [Hd0 Hok]. unfold reads_ok. cbn [read]. rewrite Hd.
    rewrite (proj2 (Z.eqb_neq _ _)), (proj2 (Z.ltb_lt _ _)) by (done || destruct (responseContent r); simpl; done || lia). cbn [negb andb].
    rewrite (proj2 (Z.ltb_ge _ _)) by lia. eexists _, _, _, _. split; [reflexivity|]. exact Hok. }
  assert (drained r) as Hdr.
  { destruct (decide (responseContent r = [])) as [|Hne]; [by left|right]. destruct Hat' as [Hc _ _]. destruct (Hc Hne) as (H1 & H2 & _).
    unfold r_next in *. destruct (responseContent r) as [|x c] eqn:E; [done|]. destruct (Z.lt_ge_cases (int64 (r_Offset r - rs_Offset (r_Response r))) (Z.of_nat (length (x :: c)))); [by destruct Hnb|].
    rewrite int64_id in * by (unfold is_int64, MinInt64, MaxInt64 in *; lia). lia. }
  unfold enough in Hen. rewrite Hd in Hen. destruct (r_stream r) as [[[|resp frames] end_]|] eqn:Hs; cbn [st_frames] in Hen.
  - apply (closed_ok _ env r end_ n); [done..|simpl in Hen; lia].
  - unfold reads_ok. cbn [read]. rewrite Hd, Hs, drained_false by done. cbn [st_frames st_end].
    destruct Hat' as [Hc Hst Hu]. rewrite Hs in Hst. cbn [st_frames] in Hst.
    assert (∀ r' e, r_Request r' = r_Request r → e ≠ ErrOffsetJump → read_ok r n r' [] 0 (Some e)) as Hfail.
    { intros r' e Hq He. assert (r_Offset r' = r_Offset r) as Ho by (unfold r_Offset; by rewrite Hq).
      apply failed_ok; [rewrite Ho, Hq; symmetry; apply req_with_same|by rewrite Ho|by left|done]. }
    destruct (ReadResponse_Validate resp) as [ve|] eqn:Hval; [eexists _, _, _, _; split; [reflexivity|]; by apply Hfail|].
    change (r_Offset (with_response r resp _)) with (r_Offset r).
    case_bool_decide as Hok; cbn [andb].
    + destruct (Z.ltb_spec (rs_Offset resp) (r_Offset r)) as [Hlt|Hle]; [eexists _, _, _, _; split; [reflexivity|]; by apply Hfail|].
      eexists _, _, _, _. split; [reflexivity|]. by apply (response_ok r resp frames end_ n).
    + destruct (valid_response resp Hval) as (V1 & _ & _). cbn [delivers] in Hst.
      destruct (rs_Content resp) as [c|] eqn:Hrc; [by destruct V1 as [? _]; [eexists|]|].
      destruct Hst as (D1 & _ & D3 & D4). destruct (D3 Hok) as [Hor ->].
      assert (r_next r = r_Offset r) as Hnx by (destruct Hdr as [E|]; [unfold r_next; by rewrite E|done]). rewrite Hnx in Hor.
      change (r_Offset (with_route _ _)) with (r_Offset r). destruct fuel as [|fuel']; [simpl in Hen; lia|].
      set (r1 := with_route (with_response r resp (mkStream [] end_)) (rs_Header resp)).
      set (r2 := if r_Offset r <? rs_Offset resp then with_offset r1 (rs_Offset resp) else r1).
      destruct (status_read fuel' env r2 end_ n) as (e & He & Hread).
      1-4: unfold r2; by destruct (r_Offset r <? rs_Offset resp).
      eexists _, _, _, _. split; [exact Hread|]. unfold r2. destruct (Z.ltb_spec (r_Offset r) (rs_Offset resp)).
      * apply failed_ok; [done|change (-1 ≤ rs_Offset resp ≤ MaxInt64); lia|right; lia|done].
      * by apply Hfail.
  - unfold reads_ok. cbn [read]. rewrite Hd, Hs, drained_false by done. destruct Henv as [Hsv Hopen].
    destruct (re_open env (r_Request r)) as [st|e] eqn:Ho.
    + destruct (IH (with_stream r st)) as (r' & b & cnt & err & Hr & [K1 K2 K3 K4 K5 K6 K7]).
      * split; [done|]. cbn. rewrite Hd. destruct Hat' as [Hc Hst Hu]. rewrite Hs in Hst. split; [done| |done]. cbn.
        unfold r_next. unfold responseContent in *. cbn. rewrite Hst. by apply (Hopen (r_Request r)).
      * unfold enough. cbn. rewrite Hd. lia.
      * eexists _, _, _, _. split; [exact Hr|]. by split.
    + eexists _, _, _, _. split; [reflexivity|]. apply failed_ok; [symmetry; apply req_with_same|done|by left|apply mapGRPC_not_jump].
Qed.

Lemma Reader_Read_spec env r n : env_ok env → reader_at r → ∃ r' b cnt err, Read env r n = Ret (r', b, cnt, err) ∧ read_ok r n r' b cnt err.
Proof.
  intros Henv Hat. apply read_spec; [done|done|]. unfold enough, frames_of. repeat case_match; lia.
Qed.

(** ** Retries *)

Abbreviation RetryRead := (RetryReader_Read gzip_NewReader zstdNewReader snappy_NewReader).

(** The errors that a [RetryReader] surfaces. *)
Definition surfaced (r : Reader) (e : client_error) : Prop :=
  e = ErrOffsetJump ∨ (∃ c, e = ErrCtx c) ∨ e = ErrOffsetNotYetAvailable ∧ rr_Block (r_Request r) = false.

Record retry_ok (r : Reader) (n : nat) (r' : Reader) (b : bytes) (cnt : Z) (err : option client_error) : Prop := {
  ry_at : reader_at r' ∧ 0 ≤ r_Offset r';
  ry_count : cnt = Z.of_nat (length b) ∧ (length b ≤ n)%nat;
  ry_bytes : of_journal J (r_Offset r) b;
  ry_request : r_Request r' = req_with_offset (r_Request r) (r_Offset r');
  ry_next : err ≠ Some ErrOffsetJump → r_Offset r' = r_Offset r + cnt;
  ry_jump : err = Some ErrOffsetJump → b = [] ∧ r_Offset r < r_Offset r';
  ry_error e : err = Some e → surfaced r e;
}.

Lemma RetryReader_Read_spec n attempts : Forall (λ a, env_ok (at_env a)) attempts → ∀ r, reader_at r → 0 ≤ r_Offset r →
  ∃ res, RetryRead r n attempts = Ret res ∧ ∀ r' b cnt err, res = Some (r', b, cnt, err) → retry_ok r n r' b cnt err.
Proof.
  induction 1 as [|a attempts Henv _ IH]; intros r Hat Ho; [by eexists|]. cbn [RetryReader_Read].
  destruct (Reader_Read_spec (at_env a) r n Henv Hat) as (r1 & b & cnt & err & -> & [[Hc Hl] Hb Hq Hrg Hn Hj He]). cbn [outcome_bind].
  destruct err as [e|].
  2:{ destruct (Hn eq_refl) as [Hn1 Hn2]. eexists. split; [done|]. intros ???? [= <- <- <- <-]. split; [split; [done|lia]|done..|done|done]. }
  case_bool_decide as Hej.
  { subst e. destruct (Hj eq_refl) as (-> & Hlt & Hat1). eexists. split; [done|]. intros ???? [= <- <- <- <-].
    split; [split; [done|lia]|done..|]. intros e [= <-]. by left. }
  destruct (He e eq_refl Hej) as [Ho1|[? _]]; [|lia].
  assert (reader_at (NewReader (r_Request r1))) as Hat1 by (by apply NewReader_at).
  assert (r_Request (NewReader (r_Request r1)) = r_Request r1) as Hnr by done. set (r2 := NewReader (r_Request r1)) in *.
  assert (r_Offset r2 = r_Offset r1) as Ho2 by done. rewrite Hnr, Hq. change (rr_Block (req_with_offset _ _)) with (rr_Block (r_Request r)).
  destruct (is_ctx_error e || bool_decide (e = ErrOffsetNotYetAvailable) && negb (rr_Block (r_Request r))) eqn:Hs.
  { eexists. split; [done|]. intros ???? [= <- <- <- <-]. split; [split; [done|lia]|done..|by rewrite Ho2|by rewrite Ho2|congruence|]. intros ? [= <-].
    apply orb_true_iff in Hs as [Hs|Hs]; [right; left; destruct e as [| | | | |c| | |]; try discriminate Hs; by exists c|]. right; right.
    by rewrite andb_true_iff, bool_decide_eq_true, negb_true_iff in Hs. }
  destruct (Z.eqb_spec cnt 0) as [H0|H0]; cbn [negb].
  2:{ eexists. split; [done|]. intros ???? [= <- <- <- <-]. split; [split; [done|lia]|done..|by rewrite Ho2|by rewrite Ho2|done|done]. }
  assert (b = []) as -> by (destruct b; [done|simpl in Hc; lia]). subst cnt. destruct (at_done a).
  { eexists. split; [done|]. intros ???? [= <- <- <- <-].
    split; [split; [done|lia]|done..|by rewrite Ho2|by rewrite Ho2| |].
    - by destruct (re_ctx (at_env a)).
    - intros e'. destruct (re_ctx (at_env a)); intros [= <-]. right; left. by eexists. }
  destruct (IH r2 Hat1 ltac:(lia)) as (res & -> & Hres). eexists. split; [done|]. intros r' b' c' err' Hr'.
  assert (r_Offset r2 = r_Offset r) as Ho3 by (rewrite Ho2, Ho1; simpl; lia).
  destruct (Hres r' b' c' err' Hr') as [K1 K2 K3 K4 K5 K6 K7]. rewrite Ho3 in *. split; [done..| |done|done|].
  - by rewrite K4, Hnr, Hq.
  - intros e' He'. specialize (K7 e' He'). unfold surfaced in *. by rewrite Hnr, Hq in K7.
Qed.

(** ** Sessions *)

(** Reads of a client in a row, each with the offset where it began and the one it left, until one does not return. *)
Fixpoint session (r : Reader) (calls : list (nat * list attempt)) : outcome (list (Z * bytes * option client_error * Z)) :=
  match calls with
  | [] => Ret []
  | (n, attempts) :: calls =>
      let! res := RetryRead r n attempts in
      match res with
      | None => Ret []
      | Some (r', b, cnt, err) => let! log := session r' calls in Ret ((r_Offset r, b, err, r_Offset r') :: log)
      end
  end.

(** The bytes of the journal in order, each once; only a jump skips some. *)
Fixpoint contiguous (block : bool) (o : Z) (log : list (Z * bytes * option client_error * Z)) : Prop :=
  match log with
  | [] => True
  | (o1, b, err, o2) :: log =>
      o1 = o ∧ of_journal J o b ∧
      match err with
      | Some ErrOffsetJump => b = [] ∧ o < o2
      | None | Some (ErrCtx _) => o2 = o + Z.of_nat (length b)
      | Some ErrOffsetNotYetAvailable => o2 = o + Z.of_nat (length b) ∧ block = false
      | Some _ => False
      end ∧ contiguous block o2 log
  end.

Lemma session_contiguous req calls :
  0 ≤ rr_Offset req ≤ MaxInt64 → Forall (λ c, Forall (λ a, env_ok (at_env a)) c.2) calls →
  ∃ log, session (NewReader req) calls = Ret log ∧ contiguous (rr_Block req) (rr_Offset req) log.
Proof.
  intros Hr Henv. assert (∀ r, reader_at r → 0 ≤ r_Offset r → rr_Block (r_Request r) = rr_Block req →
    ∃ log, session r calls = Ret log ∧ contiguous (rr_Block req) (r_Offset r) log) as Hgen.
  2:{ apply Hgen; [apply NewReader_at; lia|exact (proj1 Hr)|done]. }
  induction Henv as [|[n attempts] calls Ha _ IH]; intros r Hat Ho Hbl; [by eexists|]. cbn [session].
  destruct (RetryReader_Read_spec n attempts Ha r Hat Ho) as (res & -> & Hres). cbn [outcome_bind].
  destruct res as [[[[r' b] cnt] err]|]; [|by eexists].
  destruct (Hres r' b cnt err eq_refl) as [[K0 K0'] [K1 _] K2 K3 K4 K5 K6].
  destruct (IH r' K0 K0') as (log & -> & Hlog); [by rewrite K3|]. eexists. split; [done|]. split_and!; [done|done| |done].
  destruct err as [e|]; [|rewrite K4 by done; by rewrite K1].
  destruct (decide (e = ErrOffsetJump)) as [-> |Hne]; [by apply K5|]. rewrite <- K1, <- K4 by congruence.
  destruct (K6 e eq_refl) as [?|[[c ->]|[-> Hb]]]; [done|done|]. split; [done|]. by rewrite <- Hbl.
Qed.

(** A client that reads a journal with a [RetryReader] from an offset on, whatever the sizes of its buffers
    and however many RPCs, fragment downloads and streams fail on the way: no read panics; the reads return
    the bytes of the journal in order, none twice and none left out, but where a read returns [ErrOffsetJump] (then
    without bytes, and to a greater offset); the only other errors a read returns are those of its context, and
    [ErrOffsetNotYetAvailable] of a request that does not block. Brokers send content as [delivers] states, and
    stores serve bytes of fragments, perhaps too few or too many. *)
Theorem RetryReader_contiguous req calls :
  0 ≤ rr_Offset req ≤ MaxInt64 → Forall (λ c, Forall (λ a, env_ok (at_env a)) c.2) calls →
  ∃ log, session (NewReader req) calls = Ret log ∧ contiguous (rr_Block req) (rr_Offset req) log.
Proof. apply session_contiguous. Qed.

(** ** Seeks *)

(** A reader with an open fragment that ends at [limit]. *)
Definition direct_at (limit : Z) (r : Reader) (o : Z) : Prop :=
  ∃ fr f, r_direct r = Some fr ∧ fr_ok J fr ∧ fr_Offset fr = o ∧ r_Offset r = o ∧ rs_Fragment (r_Response r) = Some f ∧
    f_End f = limit ∧ f_End (fr_Fragment fr) = limit.

Definition direct_size (size : FragmentReader → nat) (r : Reader) : nat := match r_direct r with Some fr => size fr | None => 0 end.

Lemma direct_step limit r o n r' b cnt err :
  direct_at limit r o → (0 < n)%nat → o + Z.of_nat n ≤ limit → direct_Read r n = (r', b, cnt, err) →
  let measure := direct_size (λ fr, length (in_reads (fr_decomp fr)) + length (in_rest (fr_decomp fr)))%nat in
  let avail := direct_size (λ fr, length (in_rest (fr_decomp fr))) in
  0 ≤ cnt ≤ Z.of_nat n ∧ direct_at limit r' (o + cnt) ∧ (err = None → (measure r' < measure r)%nat) ∧
  Z.of_nat (avail r) = Z.of_nat (avail r') + cnt ∧ (err ≠ None → avail r' = 0%nat).
Proof.
  intros (fr & f & Hd & Hok & Ho & Hr & Hf & Hl & Hl') Hn Hlim. unfold direct_Read, direct_size. rewrite Hd.
  destruct (FragmentReader_Read fr n) as [[[fr' b'] cnt'] err'] eqn:Hread. intros [= <- <- <- <-].
  destruct (FragmentReader_step J limit fr o n fr' b' cnt' err') as (H1 & (H2 & H2' & H2'') & H3 & H4 & H5); [done..|].
  cbn. split_and!; [lia|lia| |done|done|done]. exists fr', f. cbn. split_and!; [done..| |done|done|done].
  destruct H2 as [_ H2 [H2m _]]. change (int64 (r_Offset r + cnt') = o + cnt'). rewrite Hr. apply int64_id. unfold is_int64, MinInt64, MaxInt64 in *. lia.
Qed.

Lemma Reader_Seek_spec r o : reader_at r → -1 ≤ o ≤ MaxInt64 →
  ∃ r' p err, Reader_Seek r o SeekStart = Ret (r', p, err) ∧ p = r_Offset r' ∧
    r_Request r' = req_with_offset (r_Request r) p ∧ (err = None → p = o ∧ reader_at r').
Proof.
  intros [Hrg Hat] Ho. unfold Reader_Seek. assert (r_Request r = req_with_offset (r_Request r) (r_Offset r)) as Hsame by (symmetry; apply req_with_same).
  destruct (r_direct r) as [fr|] eqn:Hd; [|by eexists _, _, _]. destruct Hat as ([Hok Hfo] & f & Hf & Hfe).
  destruct (Z.ltb_spec o (r_Offset r)); [by eexists _, _, _|]. rewrite Hf. destruct (Z.leb_spec (f_End f) o); [by eexists _, _, _|].
  pose proof Hok as [_ Hfr _]. rewrite int64_id by (unfold is_int64, MinInt64, MaxInt64 in *; lia).
  assert (∀ fuel r2 delta r3 e, r_Request r2 = req_with_offset (r_Request r) (r_Offset r2) → discard direct_Read fuel r2 delta = (r3, e) →
    r_Request r3 = req_with_offset (r_Request r) (r_Offset r3)) as Hreq.
  { induction fuel as [|fuel IH]; intros r2 delta r3 e Hq; cbn [discard]; [by intros [= <- _]|]. destruct (delta <=? 0); [by intros [= <- _]|].
    destruct (direct_Read r2 _) as [[[r4 b] cnt] err] eqn:Hr4. assert (r_Request r4 = req_with_offset (r_Request r) (r_Offset r4)) as Hq4.
    { revert Hr4. unfold direct_Read. destruct (r_direct r2); [|by intros [= <- _ _ _]]. destruct (FragmentReader_Read _ _) as [[[??]?]?].
      intros [= <- _ _ _]. cbn. by rewrite Hq. }
    destruct err; [by intros [= <- _]|]. by apply IH. }
  destruct (discard _ _ _ _) as [r' e] eqn:Hdis. specialize (Hreq _ _ _ _ _ Hsame Hdis). eexists _, _, _. split; [reflexivity|]. split_and!; [done..|].
  intros He. destruct e; [done|].
  eapply (discard_spec direct_Read (direct_at (f_End f)) (direct_size _) (direct_size _) (f_End f) (direct_step (f_End f)) _ r (r_Offset r)) in Hdis as [Hat' _]; [| |lia|lia|].
  - destruct (Hat' eq_refl) as (fr' & f' & E1 & E2 & E3 & E4 & E5 & E6 & E7). assert (r_Offset r' = o) as E8 by lia. split; [done|]. split; [lia|].
    rewrite E1. split; [split; [done|lia]|]. exists f'. split; [done|lia].
  - exists fr, f. by split_and!.
  - unfold direct_size. rewrite Hd. unfold discard_fuel. lia.
Qed.

(** [RetryReader.Seek] fails for [SeekEnd] only. Otherwise, whatever the state of the reader, and also if the
    open fragment turns out to be too short on the way, the reader is afterwards at the offset that was asked for, with the
    rest of its request unchanged, and its next read returns the journal's bytes of that offset. *)
Theorem RetryReader_Seek_exact r o whence :
  reader_at r → whence ≠ SeekEnd →
  let target := match whence with SeekCurrent => r_Offset r + o | _ => o end in
  -1 ≤ target ≤ MaxInt64 →
  ∃ r', RetryReader_Seek r o whence = Ret (r', target, None) ∧ reader_at r' ∧ r_Request r' = req_with_offset (r_Request r) target ∧
    ∀ env n, env_ok env → ∃ r'' b cnt err, Read env r' n = Ret (r'', b, cnt, err) ∧ of_journal J target b.
Proof.
  intros Hat Hw target Ht. assert (RetryReader_Seek r o whence = RetryReader_Seek r target SeekStart) as ->.
  { unfold RetryReader_Seek, target in *. destruct whence; [done| |done]. rewrite int64_id; [done|]. unfold is_int64, MinInt64, MaxInt64 in *. lia. }
  unfold RetryReader_Seek. destruct (Reader_Seek_spec r target Hat Ht) as (r1 & p & err & -> & Hp & Hq & Hok). cbn [outcome_bind].
  set (r' := match err with Some _ => _ | None => _ end).
  assert (reader_at r' ∧ r_Offset r' = target ∧ r_Request r' = req_with_offset (r_Request r) target) as (K1 & K2 & K3).
  { unfold r'. destruct err as [e|].
    - split_and!; [by apply NewReader_at|done|]. cbn. by rewrite Hq.
    - destruct (Hok eq_refl) as [-> ?]. by subst target. }
  exists r'. rewrite K2. split_and!; [done..|]. intros env n Henv.
  destruct (Reader_Read_spec env r' n Henv K1) as (r'' & b & cnt & err' & -> & Hk). eexists _, _, _, _. split; [done|].
  rewrite <- K2. apply Hk.
Qed.
End reads.

(** ** A concrete journal *)

Module Count.
(** The journal whose byte at an offset is the offset, modulo 256. *)
Definition J (o : Z) : Byte.byte := default Byte.x00 (Byte.of_N (Z.to_N (o mod 256))).
Definition text (o n : Z) : bytes := J <$> seqZ o n.

Lemma text_of o n : of_journal J o (text o n).
Proof.
  intros i x Hx. unfold text in Hx. rewrite list_lookup_fmap in Hx. apply fmap_Some in Hx as (y & Hy & ->).
  apply lookup_seqZ in Hy as [-> _]. done.
Qed.

#[global] Instance any_url : UrlParser := λ s, inl {| url_IsAbs := true; url_Scheme := "http"; url_Host := s; url_Path := "" |}.
Definition plain (r : input) : input + read_error := inl r.
Definition no_http (url : string) (accept : option string) : http_response + read_error := inr (ReadError "no route").

Definition chunk (o n : Z) : ReadResponse := mkReadResponse Status_OK None o 0 None "" (Some (text o n)).
Definition head (o : Z) : ReadResponse := mkReadResponse OFFSET_NOT_YET_AVAILABLE None o o None "" None.

(** A broker that sends three bytes before it fails, and others that have all six. *)
Definition open (req : ReadRequest) : rpc_stream + (grpc_code * read_error) :=
  if rr_Offset req =? 0 then inl (mkStream [chunk 0 3] (CodeUnavailable, ReadError "unavailable"))
  else if rr_Offset req =? 3 then inl (mkStream [chunk 3 2; chunk 5 1; head 6] (CodeOther, EOF))
  else inr (CodeUnavailable, ReadError "unavailable").

Definition env : read_env := mkReadEnv None open (λ _, None) no_http.
Definition urls (f : Fragment) (url : string) : Prop := False.

Lemma env_served : env_ok plain plain id J urls env.
Proof.
  split; [by intros ????|]. intros req st _. unfold re_open, env, open.
  destruct (Z.eqb_spec (rr_Offset req) 0) as [-> |]; [|destruct (Z.eqb_spec (rr_Offset req) 3) as [-> |]]; intros [= <-].
  - cbn [st_frames delivers chunk rs_Content rs_Offset]. split_and!; [done|done|apply text_of|done|done].
  - cbn [st_frames delivers chunk head rs_Content rs_Offset rs_Status]. split_and!; try done; try apply text_of. intros _. split; [by right|done].
Qed.

Definition request : ReadRequest := mkReadRequest None "a/count" 0 false false false.
Definition calls : list (nat * list attempt) := replicate 9 (2%nat, [mkAttempt env false; mkAttempt env false]).
End Count.

Lemma RetryReader_contiguous_witness :
  ∃ log, session Count.plain Count.plain id (NewReader Count.request) Count.calls = Ret log ∧ contiguous Count.J false 0 log ∧
    concat ((λ x, x.1.1.2) <$> log) = Count.text 0 6 ∧ last log = Some (6, [], Some ErrOffsetNotYetAvailable, 6).
Proof.
  destruct (RetryReader_contiguous Count.plain Count.plain id Count.J Count.urls Count.request Count.calls) as (log & Hlog & Hc).
  - done.
  - apply Forall_replicate. do 2 (apply Forall_cons; split; [apply Count.env_served|]). by apply Forall_nil.
  - exists log. split; [exact Hlog|]. split; [exact Hc|]. vm_compute in Hlog. injection Hlog as <-. by vm_compute.
Defined.

(** A fragment that is open, of which half was read. *)
Definition Count_fragment : Fragment := mkFragment "a/count" 0 10 SHA1Sum_zero Codec_NONE "" 0.
Definition Count_direct : Reader :=
  mkClientReader (req_with_offset Count.request 4) (mkReadResponse Status_OK None 0 10 (Some Count_fragment) "file:///a" None)
    (Some (mkStream [] (CodeOther, EOF))) (Some (mkFragmentReader Count_fragment 4 (mkInput (Count.text 4 6) EOF []))) [].

Lemma RetryReader_Seek_exact_witness :
  ∃ r', RetryReader_Seek Count_direct 3 SeekCurrent = Ret (r', 7, None) ∧
    reader_at Count.J Count.urls r' ∧ is_Some (r_direct r') ∧ r_Request r' = req_with_offset (r_Request Count_direct) 7.
Proof.
  destruct (RetryReader_Seek_exact Count.plain Count.plain id Count.J Count.urls Count_direct 3 SeekCurrent) as (r' & Hs & Hat & Hq & _).
  - split; [done|]. cbn [Count_direct r_direct]. split; [split; [|done]|by eexists]. split; [apply Count.text_of|done|done].
  - discriminate.
  - done.
  - exists r'. split; [exact Hs|]. split; [exact Hat|]. split; [|exact Hq]. vm_compute in Hs. injection Hs as <-. by eexists.
Defined.
