(* ===== verification/AppendBuffer.v ===== *)
(** * Buffers of asynchronous appends (src/v2/pkg/client/append_service.go, append_service_unix.go)

    An [appendBuffer] queues writes: a [bufio.Writer] in front of a file that has no name. A write to the
    file may fail, wholly or in part, as the list of faults says, and so may a seek. [flush] keeps
    what a failed write left over and clears the error of the [bufio.Writer], which is otherwise sticky;
    the theorems: the content of a buffer is what was written to it, whatever fails, and a rollback restores it. *)
From S2P Require Import Prelude Encoding Protocol Framing LocalFS.

(** ** bufio.Writer *)

Record bufio := mkBufio { b_buf : bytes; b_n : nat; b_err : option error }.

Definition ErrShortWrite : error := ErrMsg "short write".

Definition Buffered (b : bufio) : nat := b_n b.
Definition Size (b : bufio) : nat := length (b_buf b).
Definition Available (b : bufio) : nat := Size b - b_n b.

(** What is buffered. *)
Definition pending (b : bufio) : bytes := take (b_n b) (b_buf b).

Definition NewWriterSize (size : nat) : bufio := mkBufio (replicate size Byte.x00) 0 None.

(** [Reset] leaves the array alone. *)
Definition bufio_Reset (b : bufio) : bufio := mkBufio (b_buf b) 0 None.

Definition bufio_fail (b : bufio) (err : option error) : bufio := mkBufio (b_buf b) (b_n b) err.

(** [n := copy(b.buf[b.n:], p); b.n += n] *)
Definition bufio_copy (b : bufio) (p : bytes) : bufio :=
  mkBufio (slice_copy (b_buf b) (b_n b) p) (b_n b + min (Available b) (length p)) (b_err b).

Section bufio.
(** The underlying writer: the count and the error of its [Write]. *)
Context {W : Type} (wr : W → bytes → W * nat * option error).

Definition bufio_Flush (w : W) (b : bufio) : W * bufio * option error :=
  match b_err b with
  | Some err => (w, b, Some err)
  | None =>
      if b_n b =? 0 then (w, b, None)
      else
        let '(w, n, err) := wr w (pending b) in
        let err := if (n <? b_n b) && bool_decide (err = None) then Some ErrShortWrite else err in
        match err with
        | Some _ =>
            let buf := if (0 <? n) && (n <? b_n b) then slice_copy (b_buf b) 0 (slice (b_buf b) n (b_n b)) else b_buf b in
            (w, mkBufio buf (b_n b - n) err, err)
        | None => (w, mkBufio (b_buf b) 0 None, None)
        end
  end.

(** [for len(p) > b.Available() && b.err == nil] *)
Fixpoint write_loop (fuel : nat) (w : W) (b : bufio) (p : bytes) (nn : nat) : W * bufio * bytes * nat :=
  match fuel with
  | O => (w, b, p, nn)
  | S fuel =>
      if (Available b <? length p) && bool_decide (b_err b = None) then
        let '(w, b, n) :=
          if Buffered b =? 0 then let '(w, n, err) := wr w p in (w, bufio_fail b err, n)
          else let n := min (Available b) (length p) in
               let '(w, b, _) := bufio_Flush w (bufio_copy b p) in (w, b, n) in
        write_loop fuel w b (drop n p) (nn + n)
      else (w, b, p, nn)
  end.

Definition bufio_Write (w : W) (b : bufio) (p : bytes) : W * bufio * nat * option error :=
  let '(w, b, p, nn) := write_loop 3 w b p 0 in
  match b_err b with
  | Some err => (w, b, nn, Some err)
  | None => (w, bufio_copy b p, nn + min (Available b) (length p), None)
  end.

(** The loop of [ReadFrom]: the reader fills a prefix of the slice it is given. The writer is not a
    [io.ReaderFrom]. *)
Fixpoint readFrom_loop (fuel : nat) (rd : bytes → outcome (bytes * nat * option error)) (w : W) (b : bufio) (n : nat)
    : outcome (W * bufio * nat * option error) :=
  match fuel with
  | O => Ret (w, b, n, Some (ErrMsg "multiple Read calls return no data or error"))
  | S fuel =>
      let '(w, b, err1) := if Available b =? 0 then bufio_Flush w b else (w, b, None) in
      match err1 with
      | Some err1 => Ret (w, b, n, Some err1)
      | None =>
          let! (p, m, err) := rd (drop (b_n b) (b_buf b)) in
          let b := mkBufio (take (b_n b) (b_buf b) ++ p) (b_n b + m) (b_err b) in
          match err with
          | None => readFrom_loop fuel rd w b (n + m)
          | Some err =>
              if bool_decide (err = ErrRead EOF) then
                (* If we filled the buffer exactly, flush preemptively. *)
                let '(w, b, err) := if Available b =? 0 then bufio_Flush w b else (w, b, None) in
                Ret (w, b, n + m, err)
              else Ret (w, b, n + m, Some err)
          end
      end
  end.

Definition bufio_ReadFrom (w : W) (b : bufio) rd : outcome (W * bufio * nat * option error) := readFrom_loop 100 rd w b 0.
End bufio.

(** ** appendBuffer *)

(** A file that has no name: its content, position, and what goes wrong in the calls to come. *)
Record tmp_file := mkTmpFile {
  t_data : bytes;
  t_pos : nat;
  t_faults : list (option (string * nat));
}.

(** [*os.File.Write] *)
Definition tmp_Write (f : tmp_file) (p : bytes) : tmp_file * nat * option error :=
  match t_faults f with
  | Some (msg, k) :: l =>
      let n := min k (length p) in
      (mkTmpFile (write_at (t_data f) (t_pos f) (take n p)) (t_pos f + n) l, n, Some (ErrMsg msg))
  | l => (mkTmpFile (write_at (t_data f) (t_pos f) p) (t_pos f + length p) (tail l), length p, None)
  end.

(** [*os.File.Seek] *)
Definition tmp_Seek (f : tmp_file) (offset : nat) : tmp_file * option error :=
  match t_faults f with
  | Some (msg, _) :: l => (mkTmpFile (t_data f) (t_pos f) l, Some (ErrMsg msg))
  | l => (mkTmpFile (t_data f) offset (tail l), None)
  end.

(** The file and the offset, as the [bufio.Writer] sees them, and the [bufio.Writer]. *)
Record appendBuffer := mkAppendBuffer {
  fb_file : tmp_file;
  fb_offset : nat;
  fb_buf : bufio;
}.

Definition appendBufferSize : nat := 8 * 1024.

(** The file of [ioutil.TempFile] is empty, and has already lost its name; what fails before is retried. *)
Definition newAppendBuffer (faults : list (option (string * nat))) : appendBuffer :=
  mkAppendBuffer (mkTmpFile [] 0 faults) 0 (NewWriterSize appendBufferSize).

(** [appendBuffer.Write] *)
Definition fb_Write (fb : tmp_file * nat) (p : bytes) : tmp_file * nat * nat * option error :=
  let '(file, n, err) := tmp_Write (fst fb) p in (file, snd fb + n, n, err).

(** [fb.buf.Write(p)]: what a client of an append calls. *)
Definition write (fb : appendBuffer) (p : bytes) : appendBuffer * nat * option error :=
  let '(file, offset, buf, n, err) := bufio_Write fb_Write (fb_file fb, fb_offset fb) (fb_buf fb) p in
  (mkAppendBuffer file offset buf, n, err).

Definition seek (fb : appendBuffer) : outcome (appendBuffer * option error) :=
  if negb (Buffered (fb_buf fb) =? 0) then Panic "buffer not empty"
  else let '(file, err) := tmp_Seek (fb_file fb) (fb_offset fb) in
       Ret (mkAppendBuffer file (fb_offset fb) (fb_buf fb), err).

Definition returnNReader (n : nat) (p : bytes) : outcome (bytes * nat * option error) :=
  if length p <? n then Panic "len(p) < r.n" else Ret (p, n, Some (ErrRead EOF)).

(** A [bufio.Writer] as the writer below another one. *)
Definition wrapped_Write {W} (wr : W → bytes → W * nat * option error) (w : W * bufio) (p : bytes)
    : W * bufio * nat * option error :=
  bufio_Write wr (fst w) (snd w) p.

Definition flush (fb : appendBuffer) : outcome (appendBuffer * option error) :=
  let '(file, offset, buf, err) := bufio_Flush fb_Write (fb_file fb, fb_offset fb) (fb_buf fb) in
  match err with
  | None => Ret (mkAppendBuffer file offset buf, None)
  | Some _ =>
      let n := Buffered buf in
      let w := ((file, offset), NewWriterSize (Size buf)) in
      let! (w, buf, nn, err2) := bufio_ReadFrom (wrapped_Write fb_Write) w (bufio_Reset buf) (returnNReader n) in
      let '(w, buf, err2) :=
        match err2 with None => bufio_Flush (wrapped_Write fb_Write) w buf | Some _ => (w, buf, err2) end in
      if negb (bool_decide (err2 = None)) || negb (nn =? n) then Panic "expected nn == n && err == nil"
      else Ret (mkAppendBuffer (fst (fst w)) (snd (fst w)) (snd w), err)
  end.

(** [retryUntil]: [None] when [fuel] attempts are not enough. *)
Fixpoint retryUntil {A} (fuel : nat) (fn : A → outcome (A * option error)) (a : A) : outcome (option A) :=
  match fuel with
  | O => Ret None
  | S fuel =>
      let! (a, err) := fn a in
      match err with None => Ret (Some a) | Some _ => retryUntil fuel fn a end
  end.

(** A call that fails for a fault uses it up; another flush may fail for an earlier error. *)
Definition retry_fuel (fb : appendBuffer) : nat := 2 + length (t_faults (fb_file fb)).

Definition flush_retried (fb : appendBuffer) : outcome (option appendBuffer) := retryUntil (retry_fuel fb) flush fb.
Definition seek_retried (fb : appendBuffer) : outcome (option appendBuffer) := retryUntil (retry_fuel fb) seek fb.

Definition fb_with_offset (fb : appendBuffer) (offset : nat) : appendBuffer :=
  mkAppendBuffer (fb_file fb) offset (fb_buf fb).

(** [AsyncAppend.rollback], to a checkpoint. *)
Definition rollback (checkpoint : nat) (fb : appendBuffer) : outcome (option appendBuffer) :=
  let! fb := flush_retried fb in
  match fb with
  | None => Ret None
  | Some fb => seek_retried (fb_with_offset fb checkpoint)
  end.

(** [releaseFileBuffer]: what is put back to the pool. *)
Definition releaseFileBuffer (fb : appendBuffer) : outcome (option appendBuffer) := seek_retried (fb_with_offset fb 0).

(** [io.NewSectionReader(aa.fb.file, 0, checkpoint)]: the bytes it reads. *)
Definition section (fb : appendBuffer) (checkpoint : nat) : bytes := take checkpoint (t_data (fb_file fb)).

(** ** What writers promise *)

(** A writer appends to its content a prefix of what it is given, and all of it if there is no error. *)
Class Sink {W : Type} (wr : W → bytes → W * nat * option error) := {
  sink_ok : W → Prop;
  sink_content : W → bytes;
  sink_Write : ∀ w p w' n err, sink_ok w → wr w p = (w', n, err) →
    sink_ok w' ∧ n ≤ length p ∧ sink_content w' = sink_content w ++ take n p ∧
    (err = None → n = length p);
}.

Definition file_ok (w : tmp_file * nat) : Prop := t_pos (fst w) = snd w ∧ snd w ≤ length (t_data (fst w)).

(** The file up to the offset. *)
Definition file_content (w : tmp_file * nat) : bytes := take (snd w) (t_data (fst w)).

Lemma write_at_within c off b : off ≤ length c → write_at c off b = take off c ++ b ++ drop (off + length b) c.
Proof.
  intros Ho. destruct b as [|x b].
  - rewrite Nat.add_0_r. cbn [write_at app]. by rewrite take_drop.
  - unfold write_at. rewrite take_app_le by done. done.
Qed.

#[global, refine] Instance fb_sink : Sink fb_Write := {|
  sink_ok := file_ok;
  sink_content := file_content;
|}.
Proof.
  intros [f off] p w' n err [Hp Ho] Hw. unfold file_ok, file_content in *. cbn [fst snd] in *.
  assert (∀ q l, t_pos f + length q = snd (mkTmpFile (write_at (t_data f) (t_pos f) q) (t_pos f + length q) l, off + length q) ∧
    off + length q ≤ length (write_at (t_data f) (t_pos f) q) ∧
    take (off + length q) (write_at (t_data f) (t_pos f) q) = take off (t_data f) ++ q) as Hq.
  { intros q l. cbn [snd]. rewrite Hp, write_at_within by done. split; [done|].
    assert (length (take off (t_data f)) = off) as Ht by (rewrite length_take; lia).
    split; [rewrite !length_app, Ht; lia|].
    rewrite (app_assoc _ q), take_app_le by (rewrite length_app; lia).
    by rewrite take_ge by (rewrite length_app; lia). }
  unfold fb_Write, tmp_Write in Hw. cbn [fst snd] in Hw.
  destruct (t_faults f) as [|[[msg k]|] l]; cbn [tail] in Hw; injection Hw as <- <- <-; cbn [fst snd t_pos t_data t_faults length].
  - destruct (Hq p []) as (? & ? & Hc). rewrite firstn_all. split_and!; try done; lia.
  - destruct (Hq (take (min k (length p)) p) l) as (? & Hl & Hc).
    rewrite length_take in *. replace (min (min k (length p)) (length p)) with (min k (length p)) in * by lia.
    split_and!; try done; lia.
  - destruct (Hq p l) as (? & ? & Hc). rewrite firstn_all. split_and!; try done; lia.
Defined.

(** ** bufio.Writer is a writer *)

Definition bufio_ok (b : bufio) : Prop := 0 < Size b ∧ b_n b ≤ Size b.

Lemma length_pending b : bufio_ok b → length (pending b) = b_n b.
Proof. intros [_ H]. unfold pending, Size in *. rewrite length_take. lia. Qed.

Lemma bufio_copy_spec b p (Hb : bufio_ok b) :
  let m := min (Available b) (length p) in
  bufio_ok (bufio_copy b p) ∧ Size (bufio_copy b p) = Size b ∧ b_n (bufio_copy b p) = b_n b + m ∧
  pending (bufio_copy b p) = pending b ++ take m p.
Proof.
  destruct b as [buf n err]. revert Hb. unfold bufio_ok, pending, bufio_copy, slice_copy, Available, Size. cbn [b_buf b_n].
  intros [H0 Hn]. set (m := min (length buf - n) (length p)).
  assert (length (take n buf ++ take m p ++ drop (n + m) buf) = length buf) as Hl.
  { rewrite !length_app, !length_take, length_drop. unfold m. lia. }
  rewrite Hl. split_and!; [done|unfold m; lia|done..|].
  rewrite app_assoc, take_app_le by (rewrite length_app, !length_take; unfold m; lia).
  rewrite take_ge by (rewrite length_app, !length_take; unfold m; lia). done.
Qed.

(** What fits is copied. *)
Lemma bufio_Write_fits {W} (wr : W → bytes → W * nat * option error) w b p :
  b_err b = None → length p ≤ Available b → bufio_Write wr w b p = (w, bufio_copy b p, length p, None).
Proof.
  intros He Hp. unfold bufio_Write. cbn [write_loop].
  destruct (Nat.ltb_spec (Available b) (length p)); [lia|]. cbn [andb]. rewrite He. do 2 f_equal. lia.
Qed.

(** The rest of a buffer after a short write. *)
Lemma slide_spec (buf : bytes) n m : n ≤ m → m ≤ length buf →
  let buf' := if (0 <? n) && (n <? m) then slice_copy buf 0 (slice buf n m) else buf in
  length buf' = length buf ∧ take (m - n) buf' = drop n (take m buf).
Proof.
  intros Hnm Hm. unfold slice_copy, slice. rewrite skipn_firstn_comm.
  destruct (Nat.ltb_spec 0 n), (Nat.ltb_spec n m); cbn [andb].
  - rewrite take_0, Nat.add_0_l, Nat.sub_0_r, length_take, length_drop. cbn [app].
    replace (min (length buf) (min (m - n) (length buf - n))) with (m - n) by lia.
    rewrite take_take, Nat.min_id.
    assert (length (take (m - n) (drop n buf)) = m - n) as Hl by (rewrite length_take, length_drop; lia).
    split; [rewrite length_app, Hl, length_drop; lia|].
    by rewrite take_app_le, take_ge by lia.
  - replace n with m by lia. by rewrite Nat.sub_diag, !take_0.
  - replace n with 0 by lia. done.
  - replace n with 0 by lia. done.
Qed.

Section sink.
Context {W : Type} (wr : W → bytes → W * nat * option error) `{!Sink wr}.

Definition buffered_content (w : W) (b : bufio) : bytes := sink_content w ++ pending b.

Lemma Flush_spec w b w' b' err :
  sink_ok w → bufio_ok b → bufio_Flush wr w b = (w', b', err) →
  sink_ok w' ∧ bufio_ok b' ∧ Size b' = Size b ∧ buffered_content w' b' = buffered_content w b ∧
  b_err b' = err ∧ (err = None → b_n b' = 0).
Proof.
  intros Hw Hb. unfold bufio_Flush. destruct (b_err b) as [e|] eqn:He.
  { intros [= <- <- <-]. rewrite He. split_and!; done. }
  destruct (Nat.eqb_spec (b_n b) 0) as [H0|H0].
  { intros [= <- <- <-]. rewrite He. split_and!; try done; lia. }
  destruct (wr w (pending b)) as [[w1 n] e1] eqn:Hwr.
  destruct (sink_Write _ _ _ _ _ Hw Hwr) as (Hok & Hn & Hc & He1).
  rewrite length_pending in Hn, He1 by done.
  assert ((if (n <? b_n b) && bool_decide (e1 = None) then Some ErrShortWrite else e1) = e1) as ->.
  { destruct (Nat.ltb_spec n (b_n b)); [|done]. destruct e1; [done|]. specialize (He1 eq_refl). lia. }
  destruct Hb as [Hb0 Hb]. unfold bufio_ok, buffered_content, Size, pending in *.
  destruct e1 as [e1|]; intros [= <- <- <-]; cbn [b_buf b_n b_err]; rewrite Hc, <- app_assoc.
  - destruct (slide_spec (b_buf b) n (b_n b) Hn Hb) as [-> ->].
    split_and!; try done; [lia|].
    by rewrite take_drop.
  - specialize (He1 eq_refl). subst n. rewrite take_0, app_nil_r.
    split_and!; try done; [lia|]. by rewrite take_take, Nat.min_id.
Qed.

Lemma write_loop_err fuel w b p nn : b_err b ≠ None → write_loop wr fuel w b p nn = (w, b, p, nn).
Proof.
  intros He. destruct fuel; [done|]. cbn [write_loop]. rewrite (bool_decide_eq_false_2 (b_err b = None)) by done.
  by rewrite andb_false_r.
Qed.

(** A round writes what was buffered or, if nothing was, all of [p]: two rounds are enough. *)
Lemma bufio_loop_spec fuel : ∀ w b p nn w' b' p' nn',
  sink_ok w → bufio_ok b → write_loop wr fuel w b p nn = (w', b', p', nn') →
  ∃ k, k ≤ length p ∧ p' = drop k p ∧ nn' = nn + k ∧
    sink_ok w' ∧ bufio_ok b' ∧ Size b' = Size b ∧ buffered_content w' b' = buffered_content w b ++ take k p ∧
    ((if b_n b =? 0 then 1 else 2) ≤ fuel → length p' ≤ Available b' ∨ b_err b' ≠ None).
Proof.
  induction fuel as [|fuel IH]; intros w b p nn w' b' p' nn' Hw Hb; cbn [write_loop].
  { intros [= <- <- <- <-]. exists 0. rewrite drop_0, take_0, app_nil_r. split_and!; try done; [lia..|]. intros ?. destruct (b_n b =? 0); lia. }
  destruct (Nat.ltb_spec (Available b) (length p)) as [Ha|Ha]; cbn [andb].
  2: { intros [= <- <- <- <-]. exists 0. rewrite drop_0, take_0, app_nil_r. split_and!; try done; lia. }
  case_bool_decide as He; cbn [andb].
  2: { intros [= <- <- <- <-]. exists 0. rewrite drop_0, take_0, app_nil_r. split_and!; try done; try lia. by right. }
  unfold Buffered. destruct (Nat.eqb_spec (b_n b) 0) as [H0|H0].
  - destruct (wr w p) as [[w1 n] e1] eqn:Hwr. intros Hl.
    destruct (sink_Write _ _ _ _ _ Hw Hwr) as (Hok & Hn & Hc & He1).
    assert (e1 ≠ None → b_err b' ≠ None) as Herr by (intros ?; rewrite write_loop_err in Hl by done; by simplify_eq).
    apply IH in Hl as (k & Hk & -> & -> & Hok' & Hb' & Hsz & Hc' & Hx); [|done|done].
    unfold bufio_fail in *. cbn [b_err b_n b_buf] in *. rewrite length_drop in Hk.
    exists (n + k). rewrite drop_drop. split_and!; try done; [lia|lia| |].
    + rewrite Hc'. unfold buffered_content, pending. cbn [b_n b_buf]. rewrite H0, !take_0, !app_nil_r, Hc, <- app_assoc.
      f_equal. by rewrite take_take_drop.
    + intros _. destruct e1 as [e1|].
      * right. by apply Herr.
      * specialize (He1 eq_refl). left. rewrite length_drop. lia.
  - destruct (bufio_copy_spec b p Hb) as (Hb1 & Hs1 & Hn1 & Hp1).
    destruct (bufio_Flush wr w (bufio_copy b p)) as [[w1 b1] e1] eqn:Hfl. intros Hl.
    destruct (Flush_spec _ _ _ _ _ Hw Hb1 Hfl) as (Hok & Hb2 & Hs2 & Hc & He1 & Hz).
    assert (e1 ≠ None → b_err b' ≠ None) as Herr by (intros ?; rewrite write_loop_err in Hl by congruence; simplify_eq; congruence).
    apply IH in Hl as (k & Hk & -> & -> & Hok' & Hb' & Hsz & Hc' & Hx); [|done|done].
    set (m := min (Available b) (length p)) in *. rewrite length_drop in Hk.
    exists (m + k). rewrite drop_drop. split_and!; try done; [lia|lia|congruence| |].
    + rewrite Hc', Hc. unfold buffered_content. rewrite Hp1, <- !app_assoc. do 2 f_equal. by rewrite take_take_drop.
    + intros Hfu. destruct e1 as [e1|].
      * right. by apply Herr.
      * rewrite drop_drop in Hx. apply Hx. rewrite Hz by done. cbn. lia.
Qed.

Lemma Write_spec w b p w' b' n err :
  sink_ok w → bufio_ok b → bufio_Write wr w b p = (w', b', n, err) →
  sink_ok w' ∧ bufio_ok b' ∧ Size b' = Size b ∧ n ≤ length p ∧ b_err b' = err ∧
  buffered_content w' b' = buffered_content w b ++ take n p ∧ (err = None → n = length p).
Proof.
  intros Hw Hb. unfold bufio_Write. destruct (write_loop wr 3 w b p 0) as [[[w1 b1] p1] nn] eqn:Hl.
  apply bufio_loop_spec in Hl as (k & Hk & -> & -> & Hok & Hb1 & Hsz & Hc & Hx); [|done..].
  rewrite length_drop, Nat.add_0_l in *. destruct (b_err b1) as [e|] eqn:He; intros [= <- <- <- <-].
  { split_and!; done. }
  assert (length p - k ≤ Available b1) as Hfit by (destruct Hx as [?|?]; [destruct (b_n b =? 0); lia|lia|done]).
  destruct (bufio_copy_spec b1 (drop k p) Hb1) as (Hb2 & Hs2 & Hn2 & Hp2). rewrite length_drop in *.
  split_and!; [done|done|congruence|lia|done| |lia].
  unfold buffered_content in *. rewrite Hp2, app_assoc, Hc, <- app_assoc. f_equal. by rewrite take_take_drop.
Qed.
End sink.

(** A [bufio.Writer] in front of a writer is a writer. *)
#[global, refine] Instance wrapped_sink {W} (wr : W → bytes → W * nat * option error) `{!Sink wr} : Sink (wrapped_Write wr) := {|
  sink_ok w := sink_ok (fst w) ∧ bufio_ok (snd w);
  sink_content w := buffered_content wr (fst w) (snd w);
|}.
Proof.
  intros [w b] p [w' b'] n err [Hw Hb] Hwr. unfold wrapped_Write in Hwr. cbn [fst snd] in *.
  destruct (bufio_Write wr w b p) as [[[w1 b1] n1] e1] eqn:E. injection Hwr as <- <- <- <-.
  destruct (Write_spec wr w b p w1 b1 n1 e1 Hw Hb E) as (? & ? & ? & ? & He & ? & ?).
  split_and!; try done.
Defined.

(** ** flush *)

Definition fb_ok (fb : appendBuffer) : Prop := file_ok (fb_file fb, fb_offset fb) ∧ bufio_ok (fb_buf fb).

(** What was written to a buffer. *)
Definition content (fb : appendBuffer) : bytes := buffered_content fb_Write (fb_file fb, fb_offset fb) (fb_buf fb).

Definition clean (fb : appendBuffer) : Prop := b_err (fb_buf fb) = None.

(** The attempts to come that fail. *)
Definition failures (fb : appendBuffer) : nat :=
  length (t_faults (fb_file fb)) + match b_err (fb_buf fb) with Some _ => 1 | None => 0 end.

Lemma NewWriterSize_ok size : 0 < size → bufio_ok (NewWriterSize size) ∧ Size (NewWriterSize size) = size.
Proof. intros Hs. unfold bufio_ok, Size. cbn. rewrite length_replicate. lia. Qed.

(** The old writer drains into the new one, which does not flush. *)
Lemma Flush_fresh {W} (wr : W → bytes → W * nat * option error) w arr n :
  0 < length arr → n ≤ length arr →
  ∃ b, bufio_Flush (wrapped_Write wr) (w, NewWriterSize (length arr)) (mkBufio arr n None) =
      (w, b, mkBufio arr 0 None, None) ∧
    bufio_ok b ∧ Size b = length arr ∧ pending b = take n arr ∧ b_err b = None.
Proof.
  intros Ha Hn. destruct (NewWriterSize_ok (length arr) Ha) as [Hok Hs].
  unfold bufio_Flush. cbn [b_err b_n b_buf]. destruct (Nat.eqb_spec n 0) as [-> |H0].
  { eexists. split; [done|]. split_and!; done. }
  unfold pending at 1. cbn [b_n b_buf]. unfold wrapped_Write. cbn [fst snd].
  assert (length (take n arr) = n) as Hl by (rewrite length_take; lia).
  rewrite bufio_Write_fits; [|done|unfold Available; rewrite Hs, Hl; cbn; lia].
  rewrite Hl, Nat.ltb_irrefl. cbn [andb].
  destruct (bufio_copy_spec (NewWriterSize (length arr)) (take n arr) Hok) as (Hok' & Hs' & _ & Hp).
  eexists. split; [done|]. split_and!; [done|congruence| |done].
  rewrite Hp, Hl. unfold Available. rewrite Hs. cbn [NewWriterSize b_n pending].
  rewrite Nat.min_r by lia. unfold pending. cbn [b_n NewWriterSize]. rewrite take_0, take_take, Nat.min_id. done.
Qed.

(** The daisy-chained writer holds what the failed flush left over. *)
Lemma recover_spec {W} (wr : W → bytes → W * nat * option error) w buf :
  bufio_ok buf →
  ∃ b buf' err2,
    (let! (w, old, nn, err2) := bufio_ReadFrom (wrapped_Write wr) (w, NewWriterSize (Size buf)) (bufio_Reset buf) (returnNReader (b_n buf)) in
     Ret (match err2 with None => bufio_Flush (wrapped_Write wr) w old | Some _ => (w, old, err2) end, nn)) =
      Ret (((w, b), buf', err2), b_n buf) ∧ err2 = None ∧
    bufio_ok b ∧ Size b = Size buf ∧ pending b = pending buf ∧ b_err b = None.
Proof.
  destruct buf as [arr n err]. unfold bufio_ok, Size, pending. cbn [b_buf b_n]. intros [Ha Hn].
  destruct (Flush_fresh wr w arr n Ha Hn) as (b & Hfl & Hok & Hs & Hp & He).
  exists b. unfold bufio_ReadFrom, bufio_Reset. change 100 with (S 99). cbn [readFrom_loop b_buf b_n b_err].
  change (Available (mkBufio arr 0 None)) with (length arr - 0).
  destruct (Nat.eqb_spec (length arr - 0) 0); [lia|].
  assert (returnNReader n (drop 0 arr) = Ret (arr, n, Some (ErrRead EOF))) as Hrd.
  { unfold returnNReader. rewrite drop_0. destruct (Nat.ltb_spec (length arr) n); [lia|done]. }
  cbn [b_n b_buf b_err]. rewrite Hrd. cbn [outcome_bind].
  change (take 0 arr ++ arr) with arr. change (0 + n) with n. rewrite bool_decide_eq_true_2 by done.
  change (Available (mkBufio arr n None)) with (length arr - n).
  destruct (Nat.eqb_spec (length arr - n) 0) as [H0|H0].
  - rewrite Hfl. cbn [outcome_bind]. eexists _, None. unfold bufio_Flush. cbn [b_err b_n Nat.eqb].
    split; [done|]. split; [done|]. split; [exact Hok|done].
  - cbn [outcome_bind]. rewrite Hfl. eexists _, None. split; [done|]. split; [done|]. split; [exact Hok|done].
Qed.

(** A flush that fails has met a fault, unless it fails for an earlier error. *)
Lemma Flush_faults f off b f' off' b' err :
  file_ok (f, off) → bufio_ok b → bufio_Flush fb_Write (f, off) b = (f', off', b', err) →
  match err with
  | None => b_err b = None ∧ length (t_faults f') ≤ length (t_faults f)
  | Some _ => length (t_faults f') < length (t_faults f) + match b_err b with Some _ => 1 | None => 0 end
  end.
Proof.
  intros Hf Hb. unfold bufio_Flush. destruct (b_err b) as [e|] eqn:He.
  { intros [= <- <- <- <-]. lia. }
  destruct (b_n b =? 0); [by intros [= <- <- <- <-]|].
  destruct (fb_Write (f, off) (pending b)) as [[[f1 off1] n] e1] eqn:Hw.
  destruct (@sink_Write _ _ fb_sink _ _ _ _ _ Hf Hw) as (_ & _ & _ & Hn).
  rewrite length_pending in Hn by done.
  assert ((if (n <? b_n b) && bool_decide (e1 = None) then Some ErrShortWrite else e1) = e1) as ->.
  { destruct (Nat.ltb_spec n (b_n b)); [|done]. destruct e1; [done|]. specialize (Hn eq_refl). lia. }
  unfold fb_Write, tmp_Write in Hw. cbn [fst snd] in Hw.
  destruct (t_faults f) as [|[[msg k]|] l]; injection Hw as <- <- <- <-; intros [= <- <- <- <-]; cbn [t_faults length tail]; lia || (split; [done|lia]).
Qed.

(** [flush] does not panic. It keeps the content, whether or not it fails, and clears the error. *)
Lemma flush_spec fb : fb_ok fb →
  ∃ fb' err, flush fb = Ret (fb', err) ∧ fb_ok fb' ∧ content fb' = content fb ∧ clean fb' ∧
    Size (fb_buf fb') = Size (fb_buf fb) ∧
    match err with None => b_n (fb_buf fb') = 0 ∧ failures fb' ≤ failures fb | Some _ => failures fb' < failures fb end.
Proof.
  intros [Hf Hb]. unfold flush.
  destruct (bufio_Flush fb_Write (fb_file fb, fb_offset fb) (fb_buf fb)) as [[[file offset] buf] err] eqn:Hfl.
  destruct (@Flush_spec _ fb_Write fb_sink _ _ _ _ _ Hf Hb Hfl) as (Hf' & Hb' & Hs & Hc & He & Hz).
  pose proof (Flush_faults _ _ _ _ _ _ _ Hf Hb Hfl) as Hfaults.
  destruct err as [e|].
  - destruct (recover_spec fb_Write (file, offset) buf Hb') as (b & buf' & err2 & Hr & -> & Hok & Hs2 & Hp & He2).
    destruct (bufio_ReadFrom _ _ _ _) as [[[[w old] nn] e2]|]; [|done]. cbn [outcome_bind] in Hr |- *.
    injection Hr as Hr Hnn. unfold Buffered. rewrite Hr, Hnn, bool_decide_eq_true_2, Nat.eqb_refl by done. cbn [negb orb fst snd].
    eexists _, _. split; [done|]. unfold fb_ok, content, clean, failures. cbn [fb_file fb_offset fb_buf].
    split_and!; [done|done| |done|congruence|rewrite He2; lia].
    rewrite <- Hc. unfold buffered_content. by rewrite Hp.
  - eexists _, _. split; [done|]. unfold fb_ok, content, clean, failures. cbn [fb_file fb_offset fb_buf].
    split_and!; try done; [by apply Hz|]. rewrite He. lia.
Qed.

(** ** What buffers promise to appends *)

Lemma newAppendBuffer_ok faults : fb_ok (newAppendBuffer faults) ∧ clean (newAppendBuffer faults) ∧ content (newAppendBuffer faults) = [].
Proof.
  destruct (NewWriterSize_ok appendBufferSize) as [Hok _]; [unfold appendBufferSize; lia|].
  split; [|done]. split; [split; cbn; lia|exact Hok].
Qed.

(** A write adds a prefix of its bytes, and all of them if it does not fail. *)
Lemma write_spec fb p fb' n err : fb_ok fb → write fb p = (fb', n, err) →
  fb_ok fb' ∧ b_err (fb_buf fb') = err ∧ content fb' = content fb ++ take n p ∧ (err = None → n = length p).
Proof.
  intros [Hf Hb]. unfold write. destruct (bufio_Write fb_Write _ _ p) as [[[[file off] buf] n1] e1] eqn:Hw.
  intros [= <- <- <-]. destruct (@Write_spec _ fb_Write fb_sink _ _ _ _ _ _ _ Hf Hb Hw) as (? & ? & _ & _ & ? & ? & ?). done.
Qed.

(** A [bufio.Writer] that has an error keeps it. *)
Lemma write_sticky fb p e : b_err (fb_buf fb) = Some e → write fb p = (fb, 0, Some e).
Proof.
  intros He. unfold write, bufio_Write. rewrite write_loop_err, He by congruence. by destruct fb.
Qed.

Lemma retryUntil_spec {A} (fn : A → outcome (A * option error)) (Inv Post : A → Prop) (m : A → nat) fuel : ∀ a,
  (∀ a, Inv a → ∃ a' err, fn a = Ret (a', err) ∧ match err with None => Post a' | Some _ => Inv a' ∧ m a' < m a end) →
  Inv a → m a < fuel → ∃ a', retryUntil fuel fn a = Ret (Some a') ∧ Post a'.
Proof.
  induction fuel as [|fuel IH]; intros a Hfn Ha Hm; [lia|]. cbn [retryUntil].
  destruct (Hfn a Ha) as (a' & [e|] & -> & Hp); cbn [outcome_bind]; [|eauto].
  destruct Hp as [Ha' Hlt]. apply IH; [done|done|lia].
Qed.

(** A buffer without an error and with nothing buffered. *)
Definition flushed (fb : appendBuffer) : Prop := fb_ok fb ∧ clean fb ∧ Buffered (fb_buf fb) = 0.

Lemma content_drained fb : Buffered (fb_buf fb) = 0 → content fb = take (fb_offset fb) (t_data (fb_file fb)).
Proof. unfold Buffered, content, buffered_content, pending. intros ->. by rewrite take_0, app_nil_r. Qed.

Lemma flush_retried_spec fb : fb_ok fb →
  ∃ fb', flush_retried fb = Ret (Some fb') ∧ flushed fb' ∧ content fb' = content fb.
Proof.
  intros Hok. unfold flush_retried.
  apply (retryUntil_spec _ (λ x, fb_ok x ∧ content x = content fb) _ failures); [|done|].
  - intros x [Hx Hc]. destruct (flush_spec x Hx) as (x' & err & Hfl & Hok' & Hc' & Hcl & _ & He).
    exists x', err. split; [done|]. rewrite <- Hc. destruct err; [done|]. destruct He. done.
  - unfold failures, retry_fuel. case_match; lia.
Qed.

Lemma seek_retried_spec fb cp : flushed fb → cp ≤ length (content fb) →
  ∃ fb', seek_retried (fb_with_offset fb cp) = Ret (Some fb') ∧ flushed fb' ∧ content fb' = take cp (content fb).
Proof.
  intros ([[Hp Ho] Hb] & Hcl & Hz) Hcp. pose proof (content_drained fb Hz) as Hc. unfold Buffered in Hz.
  cbn [fst snd] in *. rewrite Hc, length_take in Hcp. unfold seek_retried.
  apply (retryUntil_spec _ (λ x, fb_offset x = cp ∧ t_data (fb_file x) = t_data (fb_file fb) ∧ fb_buf x = fb_buf fb) _
    (λ x, length (t_faults (fb_file x)))); [|done|unfold retry_fuel; lia].
  intros x (Hox & Hd & Hbx). unfold seek. rewrite Hbx. unfold Buffered. rewrite Hz. cbn [Nat.eqb negb]. unfold tmp_Seek.
  assert (∀ l, flushed (mkAppendBuffer (mkTmpFile (t_data (fb_file x)) (fb_offset x) l) (fb_offset x) (fb_buf fb)) ∧
    content (mkAppendBuffer (mkTmpFile (t_data (fb_file x)) (fb_offset x) l) (fb_offset x) (fb_buf fb)) = take cp (content fb)) as Hdone.
  { intros l. unfold flushed, fb_ok, file_ok, Buffered. cbn [fst snd fb_file fb_offset fb_buf t_pos t_data]. rewrite Hox, Hd.
    split; [split_and!; try done; [lia|apply Hb..]|].
    rewrite Hc, content_drained by done. cbn [fb_file fb_offset t_data]. rewrite take_take. f_equal. lia. }
  destruct (t_faults (fb_file x)) as [|[[msg k]|] l]; eexists _, _; (split; [done|]); [apply Hdone|cbn; split_and!; [done..|lia]|apply Hdone].
Qed.

Lemma buffer_rollback_spec fb cp : fb_ok fb → cp ≤ length (content fb) →
  ∃ fb', rollback cp fb = Ret (Some fb') ∧ flushed fb' ∧ content fb' = take cp (content fb).
Proof.
  intros Hok Hcp. destruct (flush_retried_spec fb Hok) as (fb1 & Hfl & Hf1 & Hc1).
  unfold rollback. rewrite Hfl. cbn [outcome_bind]. rewrite <- Hc1 in *. by apply seek_retried_spec.
Qed.

(** The bytes that are sent. *)
Lemma section_spec fb cp : flushed fb → cp ≤ length (content fb) → section fb cp = take cp (content fb).
Proof.
  intros ([[_ Ho] _] & _ & Hz) Hcp. cbn [fst snd] in Ho. rewrite content_drained, length_take in * by done.
  unfold section. rewrite take_take. f_equal. lia.
Qed.

Lemma releaseFileBuffer_spec fb : flushed fb →
  ∃ fb', releaseFileBuffer fb = Ret (Some fb') ∧ flushed fb' ∧ content fb' = [].
Proof. intros Hf. destruct (seek_retried_spec fb 0 Hf) as (fb' & ? & ? & ?); [lia|]. by exists fb'. Qed.

(** ** Transactions of clients *)

(** The writes of a client, who ignores what they return. *)
Definition writes (fb : appendBuffer) (ps : list bytes) : appendBuffer := foldl (λ fb p, fst (fst (write fb p))) fb ps.

(** [fb.buf.Write(nil)] finds the error of an earlier write. *)
Definition write_error (fb : appendBuffer) : option error := snd (write fb []).

Lemma write_error_spec fb : write_error fb = b_err (fb_buf fb).
Proof.
  unfold write_error. destruct (b_err (fb_buf fb)) as [e|] eqn:He; [by rewrite (write_sticky fb [] e)|].
  unfold write. rewrite bufio_Write_fits; [done|done|cbn; lia].
Qed.

Lemma write_nil fb : content (fst (fst (write fb []))) = content fb ∧ b_err (fb_buf (fst (fst (write fb [])))) = b_err (fb_buf fb).
Proof.
  destruct (b_err (fb_buf fb)) as [e|] eqn:He; [by rewrite (write_sticky fb [] e)|].
  unfold write. rewrite bufio_Write_fits; [|done|cbn; lia]. cbn [fst fb_buf bufio_copy b_err]. split; [|done].
  unfold content, buffered_content, pending, bufio_copy, slice_copy. cbn [fb_file fb_offset fb_buf b_buf b_n length].
  by rewrite !Nat.min_0_r, !Nat.add_0_r, take_0, app_nil_l, take_drop.
Qed.

Lemma writes_spec ps : ∀ fb, fb_ok fb →
  fb_ok (writes fb ps) ∧ (∃ tl, content (writes fb ps) = content fb ++ tl) ∧
  (b_err (fb_buf (writes fb ps)) = None → b_err (fb_buf fb) = None ∧ content (writes fb ps) = content fb ++ concat ps).
Proof.
  induction ps as [|p ps IH]; intros fb Hok; cbn [writes foldl concat].
  { split_and!; [done|exists []; by rewrite app_nil_r|by rewrite app_nil_r]. }
  destruct (write fb p) as [[fb1 n] e] eqn:Hw. cbn [fst].
  destruct (write_spec fb p fb1 n e Hok Hw) as (Hok1 & He & Hc & Hn).
  destruct (IH fb1 Hok1) as (Hok2 & [tl Htl] & Hnone). split; [done|]. split.
  - exists (take n p ++ tl). etrans; [exact Htl|]. by rewrite Hc, app_assoc.
  - intros Hz. destruct (Hnone Hz) as [He1 Hcc]. split.
    + destruct (b_err (fb_buf fb)) as [e0|] eqn:He0; [|done]. rewrite (write_sticky fb p e0 He0) in Hw.
      injection Hw as <- <- <-. congruence.
    + etrans; [exact Hcc|]. rewrite Hc, Hn, firstn_all by congruence. by rewrite app_assoc.
Qed.

(** The writes of a client take effect together or not at all, whatever fails: if Release finds no error of
    the Writer then what is later sent is the previous content and then all of the writes, in order; and
    otherwise a rollback ends, however often the disk fails, with the previous content and a Writer that can be used. *)
Theorem append_all_or_nothing fb ps : fb_ok fb → clean fb →
  let fb1 := writes fb ps in
  match write_error fb1 with
  | None => ∃ fb2, flush_retried fb1 = Ret (Some fb2) ∧ flushed fb2 ∧
      section fb2 (fb_offset fb1 + Buffered (fb_buf fb1)) = content fb ++ concat ps
  | Some _ => ∃ fb2, rollback (length (content fb)) fb1 = Ret (Some fb2) ∧ flushed fb2 ∧ content fb2 = content fb
  end.
Proof.
  intros Hok Hcl fb1. destruct (writes_spec ps fb Hok) as (Hok1 & [tl Htl] & Hn). fold fb1 in Hok1, Htl, Hn.
  rewrite write_error_spec. destruct (b_err (fb_buf fb1)) as [e|].
  - destruct (buffer_rollback_spec fb1 (length (content fb)) Hok1) as (fb2 & ? & ? & Hc2); [rewrite Htl, length_app; lia|].
    exists fb2. split_and!; [done..|]. by rewrite Hc2, Htl, take_app_length.
  - destruct Hn as [_ Hc]; [done|]. destruct (flush_retried_spec fb1 Hok1) as (fb2 & ? & Hfl & Hc2).
    exists fb2. split_and!; [done..|].
    assert (fb_offset fb1 + Buffered (fb_buf fb1) = length (content fb1)) as ->.
    { destruct Hok1 as [[_ Ho] Hb]. unfold content, buffered_content. rewrite length_app, length_pending by done.
      cbn in Ho |- *. unfold file_content. cbn. rewrite length_take. unfold Buffered. lia. }
    rewrite section_spec by (rewrite ?Hc2; done). by rewrite Hc2, firstn_all.
Qed.

(** ** Demonstration: the cases of the tests *)

Module Demo.
Definition b : string → bytes := String.list_byte_of_string.
Definition short (n : nat) : option (string * nat) := Some ("short write"%string, n).
Definition fb0 (size : nat) faults : appendBuffer := mkAppendBuffer (mkTmpFile [] 0 faults) 0 (NewWriterSize size).

Definition flushes (n : nat) (fb : appendBuffer) : outcome appendBuffer :=
  Nat.iter n (λ m, let! fb := m in let! (fb, _) := flush fb in Ret fb) (Ret fb).

(** A flush succeeds, and one fails after a partial write; repeated attempts are non-destructive. *)
Definition fb1 := writes (fb0 8 [None; short 3; short 0; short 0]) [b "XXX"].
Definition fb2 : outcome appendBuffer := let! fb := flushes 1 fb1 in flushes 3 (writes fb [b "YYYhello"]).

Lemma flush_cases :
  (let! fb := fb2 in Ret (t_data (fb_file fb), fb_offset fb, pending (fb_buf fb), Available (fb_buf fb))) =
    Ret (b "XXXYYY", 6, b "hello", 3) ∧
  (let! fb := fb2 in let! (fb, err) := flush fb in Ret (t_data (fb_file fb), fb_offset fb, Buffered (fb_buf fb), err)) =
    Ret (b "XXXYYYhello", 11, 0, None).
Proof. split; vm_compute; reflexivity. Qed.

(** A write triggers a flush that fails: what did not fit is lost, and then rolled back. *)
Definition fb3 := fb0 5 [short 4; short 0].

Lemma rollback_case :
  (let '(fb, n, err) := write (writes fb3 [b "123"]) (b "456") in (n, err, t_data (fb_file fb), pending (fb_buf fb))) =
    (2, Some (ErrMsg "short write"), b "1234", b "5") ∧
  (let! fb := rollback 0 (writes fb3 [b "123"; b "456"]) in
   match fb with
   | Some fb => let! (fb, err) := flush (writes fb [b "!"]) in Ret (section fb 1, fb_offset fb, err)
   | None => Panic "retries"
   end) = Ret (b "!", 1, None).
Proof. split; vm_compute; reflexivity. Qed.

End Demo.

Lemma append_all_or_nothing_witness :
  write_error (writes Demo.fb3 [Demo.b "123"; Demo.b "456"]) = Some (ErrMsg "short write") ∧
  ∃ fb, rollback 0 (writes Demo.fb3 [Demo.b "123"; Demo.b "456"]) = Ret (Some fb) ∧ flushed fb ∧ content fb = [].
Proof.
  split; [vm_compute; reflexivity|].
  assert (fb_ok Demo.fb3) as Hok by (split; split; vm_compute; lia).
  exact (append_all_or_nothing Demo.fb3 [Demo.b "123"; Demo.b "456"] Hok eq_refl).
Defined.
