(* ===== verification/AppendService.v ===== *)
(** * Asynchronous appends (src/v2/pkg/client/append_service.go)

    An [AppendService] keeps, for each journal, a chain of [AsyncAppend]s: clients write to the last one, and the
    service loop of the journal makes an Append RPC of each in turn. The goroutines of clients and loops are the threads
    of a [sys]; one runs from a synchronisation to the next: to where it locks the mutex of a journal
    (what follows is under the mutex, with the map of the service locked inside), waits for a channel, or returns.
    The theorems: a client has exclusive access, an append that is dispatched does not change, and
    journals receive what was released, in order and after what it depends on. *)
From S2P Require Import Prelude Encoding Protocol Framing LocalFS AppendBuffer.

(** ** State *)

(** [AsyncAppend]s are allocated one after the other; one of them only marks the end of chains. *)
Inductive aptr := AA (i : nat) | tombstoneAsyncAppend.

#[global] Instance aptr_eq_dec : EqDecision aptr.
Proof. solve_decision. Defined.

(** [mu] is the mutex that the appends of a chain share, named by the first of them. [dependencies]
    may be nil. After [commitCh] is closed, [fb] is another's. *)
Record AsyncAppend := mkAsyncAppend {
  journal : string;
  dependencies : option (list nat);
  closed : bool;
  fb : option appendBuffer;
  checkpoint : nat;
  aerr : option error;
  mu : nat;
  next : option aptr;
}.

Definition with_next (n : aptr) (a : AsyncAppend) : AsyncAppend :=
  mkAsyncAppend (journal a) (dependencies a) (closed a) (fb a) (checkpoint a) (aerr a) (mu a) (Some n).
Definition with_fb (f : appendBuffer) (a : AsyncAppend) : AsyncAppend :=
  mkAsyncAppend (journal a) (dependencies a) (closed a) (Some f) (checkpoint a) (aerr a) (mu a) (next a).
Definition with_checkpoint (n : nat) (a : AsyncAppend) : AsyncAppend :=
  mkAsyncAppend (journal a) (dependencies a) (closed a) (fb a) n (aerr a) (mu a) (next a).
Definition with_err (e : option error) (a : AsyncAppend) : AsyncAppend :=
  mkAsyncAppend (journal a) (dependencies a) (closed a) (fb a) (checkpoint a) e (mu a) (next a).
Definition with_closed (a : AsyncAppend) : AsyncAppend :=
  mkAsyncAppend (journal a) (dependencies a) true (fb a) (checkpoint a) (aerr a) (mu a) (next a).

(** A goroutine. The clients: in [StartAppend], before the map is read and then before the mutex is
    locked ([ok] as read from the map); with exclusive access (with what was written to the Writer); in [rollback]. The
    loops: before the mutex is locked; waiting for dependencies; making RPCs. *)
Inductive thread :=
| Looking (name : string) (deps : option (list nat))
| Locking (name : string) (deps : option (list nat)) (aa : nat) (ok : bool)
| Holding (aa : nat) (ws : list bytes)
| RollingBack (aa : nat)
| Serving (aa : nat)
| Waiting (aa : nat) (deps : list nat)
| Sending (aa : nat)
| Done.

#[global] Instance thread_eq_dec : EqDecision thread.
Proof. solve_decision. Defined.

(** The service, with its goroutines, the mutexes that are locked, and whether its Context is done; the Append RPCs so far,
    with their content and whether they succeeded; and what clients released, of which append. *)
Record sys := mkSys {
  heap : list AsyncAppend;
  appends : gmap string nat;
  locked : gset nat;
  pool : list appendBuffer;
  threads : list thread;
  cancelled : bool;
  rpcs : list (nat * bytes * bool);
  released : list (nat * bytes);
}.

Definition NewAppendService : sys := mkSys [] ∅ ∅ [] [] false [] [].

Definition with_heap (h : list AsyncAppend) (s : sys) : sys :=
  mkSys h (appends s) (locked s) (pool s) (threads s) (cancelled s) (rpcs s) (released s).
Definition with_appends (m : gmap string nat) (s : sys) : sys :=
  mkSys (heap s) m (locked s) (pool s) (threads s) (cancelled s) (rpcs s) (released s).
Definition with_locked (l : gset nat) (s : sys) : sys :=
  mkSys (heap s) (appends s) l (pool s) (threads s) (cancelled s) (rpcs s) (released s).
Definition with_pool (p : list appendBuffer) (s : sys) : sys :=
  mkSys (heap s) (appends s) (locked s) p (threads s) (cancelled s) (rpcs s) (released s).
Definition with_threads (ts : list thread) (s : sys) : sys :=
  mkSys (heap s) (appends s) (locked s) (pool s) ts (cancelled s) (rpcs s) (released s).
Definition with_rpc (r : nat * bytes * bool) (s : sys) : sys :=
  mkSys (heap s) (appends s) (locked s) (pool s) (threads s) (cancelled s) (rpcs s ++ [r]) (released s).
Definition with_released (r : nat * bytes) (s : sys) : sys :=
  mkSys (heap s) (appends s) (locked s) (pool s) (threads s) (cancelled s) (rpcs s) (released s ++ [r]).

(** [p.field = ...] *)
Definition update (i : nat) (f : AsyncAppend → AsyncAppend) (s : sys) : sys := with_heap (alter f i (heap s)) s.

Definition set_thread (t : nat) (th : thread) (s : sys) : sys := with_threads (<[t := th]> (threads s)) s.
Definition go_thread (th : thread) (s : sys) : sys := with_threads (threads s ++ [th]) s.

Definition Lock (m : nat) (s : sys) : sys := with_locked ({[m]} ∪ locked s) s.
Definition Unlock (m : nat) (s : sys) : sys := with_locked (locked s ∖ {[m]}) s.

(** ** Operations *)

Definition appendBufferCutoff : Z := 67108864.

Definition journal_of (h : list AsyncAppend) (i : nat) : string := from_option journal ""%string (h !! i).

(** [ai] and [bi] as the suffixes that remain, with the element before [a[ai]]. *)
Fixpoint isSubset_loop (fuel : nat) (h : list AsyncAppend) (prev : option nat) (a b : list nat) : outcome bool :=
  match fuel with
  | O => Ret false
  | S fuel =>
      match a, b with
      | [], _ => Ret true
      | _ :: _, [] => Ret false
      | x :: a', y :: b' =>
          let aj := journal_of h x in
          let bj := journal_of h y in
          if match prev with Some p => str_leb aj (journal_of h p) | None => false end then Panic "[]*AsyncAppend not ordered"
          else if String.ltb aj bj then Ret false (* aj cannot be in |b|. *)
          else if String.ltb bj aj then isSubset_loop fuel h prev a b'
          else if negb (x =? y) then Ret false (* Same journals, but different write operations. *)
          else isSubset_loop fuel h (Some x) a' b'
      end
  end.

Definition isSubset (h : list AsyncAppend) (a b : list nat) : outcome bool :=
  isSubset_loop (S (length a + length b)) h None a b.

(** [for aa.next != nil { aa = aa.next }] *)
Fixpoint follow (fuel : nat) (h : list AsyncAppend) (i : nat) : aptr :=
  match fuel with
  | O => AA i
  | S fuel =>
      match h !! i ≫= next with
      | Some (AA j) => follow fuel h j
      | Some tombstoneAsyncAppend => tombstoneAsyncAppend
      | None => AA i
      end
  end.

Definition new_append (name : string) (deps : option (list nat)) (m : nat) : AsyncAppend :=
  mkAsyncAppend name deps false None 0 None m None.

Definition chainNewAppend (i : nat) (a : AsyncAppend) (deps : option (list nat)) (s : sys) : outcome (sys * nat) :=
  match next a with
  | Some _ => Panic "aa.next != nil"
  | None =>
      let j := length (heap s) in
      let s := update i (with_next (AA j)) s in
      let s := with_heap (heap s ++ [new_append (journal a) deps (mu a)]) s in
      Ret (with_appends (<[journal a := j]> (appends s)) s, j)
  end.

(** [appendBufferPool.Get()]: one that was put back, or a new one, whose file fails as it will. *)
Inductive get := Pooled (k : nat) | New (faults : list (option (string * nat))).

Definition pool_Get (g : get) (s : sys) : option (sys * appendBuffer) :=
  match g with
  | Pooled k => match pool s !! k with Some f => Some (with_pool (delete k (pool s)) s, f) | None => None end
  | New faults => Some (s, newAppendBuffer faults)
  end.

(** What a mutex is of, if it is not locked. *)
Definition lockable (i : nat) (s : sys) : option AsyncAppend :=
  match heap s !! i with
  | Some a => if decide (mu a ∈ locked s) then None else Some a
  | None => None
  end.

(** [StartAppend] up to [aa.mu.Lock()]. *)
Definition lookup_append (t : nat) (name : string) (deps : option (list nat)) (s : sys) : sys :=
  match appends s !! name with
  | Some i => set_thread t (Locking name deps i true) s
  | None =>
      let i := length (heap s) in
      let s := with_heap (heap s ++ [new_append name deps i]) s in
      set_thread t (Locking name deps i false) (with_appends (<[name := i]> (appends s)) s)
  end.

(** The current append of the chain, or another after it. *)
Definition current_append (j : nat) (a : AsyncAppend) (deps : option (list nat)) (s : sys) : outcome (sys * nat) :=
  let! subset := if (appendBufferCutoff <? Z.of_nat (checkpoint a))%Z then Ret false
                 else isSubset (heap s) (default [] deps) (default [] (dependencies a)) in
  if subset then Ret (s, j) else chainNewAppend j a deps s.

(** The rest of [StartAppend]. The mutex stays locked, also where [StartAppend] is called again. *)
Definition acquire (t : nat) (name : string) (deps : option (list nat)) (i : nat) (ok : bool) (g : get) (s : sys) : outcome (option sys) :=
  match lockable i s with
  | None => Ret None
  | Some a =>
      let s := Lock (mu a) s in
      let s := if ok then s else go_thread (Serving i) s in
      match follow (length (heap s)) (heap s) i with
      | tombstoneAsyncAppend => Ret (Some (set_thread t (Looking name deps) s))
      | AA j =>
          match heap s !! j with
          | None => Panic "nil pointer dereference"
          | Some a =>
              let! (s, j) := current_append j a deps s in
              match heap s !! j ≫= fb with
              | Some _ => Ret (Some (set_thread t (Holding j []) s))
              | None =>
                  match pool_Get g s with
                  | None => Ret None
                  | Some (s, f) => Ret (Some (set_thread t (Holding j []) (update j (with_fb f) s)))
                  end
              end
          end
      end
  end.

(** [aa.Writer().Write(p)] *)
Definition client_write (t i : nat) (ws : list bytes) (p : bytes) (s : sys) : option sys :=
  match heap s !! i ≫= fb with
  | None => None
  | Some f => Some (set_thread t (Holding i (ws ++ [p])) (update i (with_fb (fst (fst (write f p)))) s))
  end.

Definition Require (err : option error) (a : AsyncAppend) : AsyncAppend :=
  match err, aerr a with Some _, None => with_err err a | _, _ => a end.

(** The error that it returns. *)
Definition Release (t i : nat) (ws : list bytes) (s : sys) : option (sys * option error) :=
  match heap s !! i with
  | None => None
  | Some a =>
      match fb a with
      | None => None
      | Some f =>
          let '(f, _, err) := write f [] in
          let a := Require err (with_fb f a) in
          let s := update i (λ _, with_err None a) s in
          match aerr a with
          | Some err => Some (set_thread t (RollingBack i) s, Some err)
          | None =>
              let s := update i (with_checkpoint (fb_offset f + Buffered (fb_buf f))) s in
              Some (with_released (i, concat ws) (set_thread t Done (Unlock (mu a) s)), None)
          end
      end
  end.

(** [rollback] *)
Definition run_rollback (t i : nat) (s : sys) : outcome (option sys) :=
  match heap s !! i with
  | None => Ret None
  | Some a =>
      match fb a with
      | None => Ret None
      | Some f =>
          let! f := rollback (checkpoint a) f in
          match f with
          | None => Ret None
          | Some f => Ret (Some (set_thread t Done (Unlock (mu a) (update i (with_fb f) s))))
          end
      end
  end.

(** [serveAppends], with the mutex. *)
Definition serve (t i : nat) (s : sys) : outcome (option sys) :=
  match lockable i s with
  | None => Ret None
  | Some a =>
      match next a, fb a, dependencies a with
      | None, None, None =>
          let s := with_appends (delete (journal a) (appends s)) s in
          Ret (Some (set_thread t Done (update i with_closed (update i (with_next tombstoneAsyncAppend) s))))
      | _, _, _ =>
          let! (s, _) := match next a with None => chainNewAppend i a None s | Some _ => Ret (s, i) end in
          Ret (Some (set_thread t (Waiting i (default [] (dependencies a))) s))
      end
  end.

(** [aa = aa.next] *)
Definition serve_next (t i : nat) (s : sys) : outcome (option sys) :=
  match heap s !! i ≫= next with
  | Some (AA j) => Ret (Some (set_thread t (Serving j) s))
  | _ => Panic "nil pointer dereference"
  end.

(** [dep.Err()] *)
Definition Err (a : AsyncAppend) : option error := if closed a then aerr a else None.

(** The next of the dependencies; after the last of them, [flush], or the end of an append that no client has. *)
Definition wait (t i : nat) (deps : list nat) (s : sys) : outcome (option sys) :=
  match deps with
  | d :: deps =>
      match heap s !! d with
      | None => Ret None
      | Some dep =>
          if closed dep then
            if negb (bool_decide (Err dep = None)) && negb (cancelled s)
            then Panic "dependency Err() != nil, but our own context.Err == nil"
            else Ret (Some (set_thread t (Waiting i deps) s))
          else Ret None
      end
  | [] =>
      match heap s !! i ≫= fb with
      | None => serve_next t i (update i with_closed s)
      | Some f =>
          let! f := flush_retried f in
          match f with
          | None => Ret None
          | Some f => Ret (Some (set_thread t (Sending i) (update i (with_fb f) s)))
          end
      end
  end.

(** How an Append RPC ends: with a response of the broker that is OK, with an error of the Context, once it is done, or with another. *)
Inductive rpc_end := RpcOK | RpcCtx (err : error) | RpcErr.

(** One attempt, and what follows if it is the last. *)
Definition send (t i : nat) (e : rpc_end) (s : sys) : outcome (option sys) :=
  match heap s !! i with
  | None => Ret None
  | Some a =>
      match fb a with
      | None => Ret None
      | Some f =>
          let r := section f (checkpoint a) in
          let close (s : sys) :=
            let! f := releaseFileBuffer f in
            match f with
            | None => Ret None
            | Some f => serve_next t i (with_pool (pool s ++ [f]) (update i with_closed s))
            end in
          match e with
          | RpcErr => Ret (Some (with_rpc (i, r, false) s))
          | RpcCtx err =>
              if cancelled s then close (update i (with_err (Some err)) (with_rpc (i, r, false) s)) else Ret None
          | RpcOK => close (with_rpc (i, r, true) s)
          end
      end
  end.

(** The appends of the map but for one journal; and [PendingExcept], which sorts them. *)
Definition pending_ids (except : string) (s : sys) : list nat :=
  snd <$> filter (λ x, journal_of (heap s) (snd x) ≠ except) (map_to_list (appends s)).

Definition journal_le (h : list AsyncAppend) (i j : nat) : Prop := str_leb (journal_of h i) (journal_of h j) = true.

#[global] Instance journal_le_dec h : RelDecision (journal_le h).
Proof. intros i j. unfold journal_le. apply _. Defined.

Definition PendingExcept (except : string) (s : sys) : list nat := merge_sort (journal_le (heap s)) (pending_ids except s).

(** ** Steps *)

Inductive label :=
| StartAppend (name : string) (deps : option (list nat))
| Run (t : nat) (g : get) (e : rpc_end)
| Write (t : nat) (p : bytes)
| Reject (t : nat) (err : error)
| Finish (t : nat)
| Cancel.

(** [None]: the thread cannot do this, or has to wait. Dependencies are appends of this service. *)
Definition step (l : label) (s : sys) : outcome (option sys) :=
  match l with
  | StartAppend name deps =>
      if forallb (λ d, d <? length (heap s)) (default [] deps) then Ret (Some (go_thread (Looking name deps) s)) else Ret None
  | Run t g e =>
      match threads s !! t with
      | Some (Looking name deps) => Ret (Some (lookup_append t name deps s))
      | Some (Locking name deps i ok) => acquire t name deps i ok g s
      | Some (RollingBack i) => run_rollback t i s
      | Some (Serving i) => serve t i s
      | Some (Waiting i deps) => wait t i deps s
      | Some (Sending i) => send t i e s
      | _ => Ret None
      end
  | Write t p =>
      match threads s !! t with
      | Some (Holding i ws) => Ret (client_write t i ws p s)
      | _ => Ret None
      end
  | Reject t err =>
      match threads s !! t with
      | Some (Holding i ws) => Ret (Some (update i (Require (Some err)) s))
      | _ => Ret None
      end
  | Finish t =>
      match threads s !! t with
      | Some (Holding i ws) => Ret (fst <$> Release t i ws s)
      | _ => Ret None
      end
  | Cancel => Ret (Some (mkSys (heap s) (appends s) (locked s) (pool s) (threads s) true (rpcs s) (released s)))
  end.

(** The dependencies of a call are ordered on their journals. *)
Definition ordered (h : list AsyncAppend) (l : list nat) : Prop := StronglySorted str_lt (journal_of h <$> l).

Definition label_ok (l : label) (s : sys) : Prop :=
  match l with StartAppend _ deps => ordered (heap s) (default [] deps) | _ => True end.

Inductive reachable : sys → Prop :=
| reachable_init : reachable NewAppendService
| reachable_step l s s' : reachable s → label_ok l s → step l s = Ret (Some s') → reachable s'.

(** ** isSubset *)

Section subset.
Context (h : list AsyncAppend).

Let J (i : nat) : string := journal_of h i.

Lemma ordered_cons x l : ordered h (x :: l) ↔ ordered h l ∧ ∀ y, y ∈ l → str_lt (J x) (J y).
Proof.
  unfold ordered. rewrite fmap_cons. split.
  - intros [Hl Hx]%StronglySorted_inv. rewrite Forall_fmap, Forall_forall in Hx. done.
  - intros [Hl Hx]. constructor; [done|]. rewrite Forall_fmap, Forall_forall. done.
Qed.

Lemma ordered_notin x l : ordered h (x :: l) → x ∉ l.
Proof. intros [_ Hx]%ordered_cons Hin. by apply (irreflexivity str_lt (J x)), Hx. Qed.

Lemma isSubset_loop_spec fuel : ∀ prev a b,
  ordered h a → (∀ p x, prev = Some p → x ∈ a → str_lt (J p) (J x)) → length a + length b < fuel →
  ∃ r, isSubset_loop fuel h prev a b = Ret r ∧ (r = true → a ⊆ b) ∧ (ordered h b → a ⊆ b → r = true).
Proof.
  induction fuel as [|fuel IH]; intros prev a b Ha Hprev Hf; [lia|]. cbn [isSubset_loop].
  destruct a as [|x a]; [exists true; split_and!; [done|set_solver|done]|].
  destruct b as [|y b]; [exists false; split_and!; [done..|intros _ Hin; specialize (Hin x ltac:(set_solver)); set_solver]|].
  apply ordered_cons in Ha as Hx. destruct Hx as [Ha' Hx]. fold (J x) (J y).
  assert (match prev with Some p => str_leb (J x) (journal_of h p) | None => false end = false) as ->.
  { destruct prev as [p|]; [|done]. specialize (Hprev p x eq_refl ltac:(set_solver)). unfold str_leb, str_lt, J in *. by rewrite Hprev. }
  destruct (String.ltb (J x) (J y)) eqn:Hxy; [|destruct (String.ltb (J y) (J x)) eqn:Hyx].
  - exists false. split_and!; [done..|]. intros [_ Hy]%ordered_cons Hin.
    specialize (Hin x ltac:(set_solver)). apply elem_of_cons in Hin as [-> |Hin].
    + by destruct (irreflexivity str_lt (J y)).
    + destruct (irreflexivity str_lt (J x)). etrans; [exact Hxy|by apply Hy].
  - destruct (IH prev (x :: a) b) as (r & -> & H1 & H2); [done|done|cbn in *; lia|].
    exists r. split_and!; [done|set_solver|]. intros [Hb Hy]%ordered_cons Hin. apply H2; [done|].
    intros z Hz. specialize (Hin z Hz). apply elem_of_cons in Hin as [-> |]; [|done]. exfalso.
    apply elem_of_cons in Hz as [-> |Hz]; [by destruct (irreflexivity str_lt (J x))|].
    destruct (irreflexivity str_lt (J y)). etrans; [exact Hyx|by apply Hx].
  - assert (J x = J y) as Hj.
    { destruct (str_lt_trichotomy (J x) (J y)) as [H|[H|H]]; [|done|]; unfold str_lt in H; congruence. }
    destruct (Nat.eqb_spec x y) as [<-|Hne]; cbn [negb].
    + destruct (IH (Some x) a b) as (r & -> & H1 & H2); [done|intros p z [= <-]; apply Hx|cbn in *; lia|].
      exists r. split_and!; [done|set_solver|]. intros Hb Hin. apply ordered_cons in Hb as [Hb _]. apply H2; [done|].
      intros z Hz. specialize (Hin z ltac:(set_solver)). apply elem_of_cons in Hin as [-> |]; [|done].
      by destruct (ordered_notin x a).
    + exists false. split_and!; [done..|]. intros [_ Hy]%ordered_cons Hin. specialize (Hin x ltac:(set_solver)).
      apply elem_of_cons in Hin as [-> |Hin]; [done|]. destruct (irreflexivity str_lt (J x)). rewrite Hj at 1. by apply Hy.
Qed.

Lemma isSubset_spec a b : ordered h a →
  ∃ r, isSubset h a b = Ret r ∧ (r = true → a ⊆ b) ∧ (ordered h b → a ⊆ b → r = true).
Proof. intros Ha. apply isSubset_loop_spec; [done|done|lia]. Qed.
End subset.

(** [isSubset] of dependencies that are ordered on their journals decides whether all of the one are among the other, as the same appends. *)
Theorem isSubset_correct h a b : ordered h a → ordered h b → isSubset h a b = Ret (bool_decide (a ⊆ b)).
Proof.
  intros Ha Hb. destruct (isSubset_spec h a b Ha) as ([] & -> & H1 & H2); f_equal; symmetry.
  - apply bool_decide_eq_true. by apply H1.
  - apply bool_decide_eq_false. intros Hs. by specialize (H2 Hb Hs).
Qed.

(** Three journals: of the appends of the second, only the same one is matched. *)
Definition demo_heap : list AsyncAppend :=
  [new_append "a" None 0; new_append "b" None 1; new_append "c" None 2; new_append "b" None 1].

Lemma isSubset_correct_witness :
  isSubset demo_heap [1; 2] [0; 1; 2] = Ret true ∧ isSubset demo_heap [1] [0; 3; 2] = Ret (bool_decide ([1] ⊆ [0; 3; 2])).
Proof.
  split; [vm_compute; reflexivity|]. apply (isSubset_correct demo_heap [1] [0; 3; 2]); repeat constructor.
Defined.
