(* ===== verification/AppendChains.v ===== *)
(** * The chains of an append service

    The appends that share a mutex are a chain, which grows at its end and is closed from its start; each chain has one
    service loop, and at most one client. This file has these invariants over the skeletons of appends (all but their
    content), and how the operations of AppendService.v keep them. *)
From S2P Require Import Prelude Encoding Protocol Framing LocalFS AppendBuffer AppendService.

(** ** The structure of chains *)

(** What of an append does not depend on its content. *)
Record node := mkNode {
  n_journal : string;
  n_deps : list nat;
  n_closed : bool;
  n_mu : nat;
  n_next : option aptr;
}.

Definition skel (a : AsyncAppend) : node := mkNode (journal a) (default [] (dependencies a)) (closed a) (mu a) (next a).
Definition skeleton (h : list AsyncAppend) : list node := skel <$> h.

Definition node_next (n : aptr) (a : node) : node := mkNode (n_journal a) (n_deps a) (n_closed a) (n_mu a) (Some n).
Definition node_closed (a : node) : node := mkNode (n_journal a) (n_deps a) true (n_mu a) (n_next a).

(** The appends that share a mutex are a chain, in the order in which they were made; the last of them, unless it is marked,
    is the one of the map. Appends of a journal are closed in order, and those of a chain after those of the chains before. *)
Record chains (k : list node) (m : gmap string nat) : Prop := mkChains {
  c_deps i a d : k !! i = Some a → d ∈ n_deps a → d < i;
  c_mu i a : k !! i = Some a → n_mu a ≤ i ∧ ∃ b, k !! n_mu a = Some b ∧ n_mu b = n_mu a ∧ n_journal b = n_journal a;
  c_next i a j : k !! i = Some a → n_next a = Some (AA j) → i < j ∧ ∃ b, k !! j = Some b ∧ n_mu b = n_mu a;
  c_order i j a b : k !! i = Some a → k !! j = Some b → n_mu a = n_mu b → i < j → ∃ j', n_next a = Some (AA j') ∧ j' ≤ j;
  c_last n i : m !! n = Some i ↔ ∃ a, k !! i = Some a ∧ n_journal a = n ∧ n_next a = None;
  c_open i a : k !! i = Some a → n_closed a = false → is_Some (m !! n_journal a) ∧ n_next a ≠ Some tombstoneAsyncAppend;
  c_live i a : k !! i = Some a → n_next a = None → n_closed a = false;
  c_closed i j a b : k !! i = Some a → k !! j = Some b → n_journal a = n_journal b → i < j →
    n_mu a ≠ n_mu b ∨ n_closed b = true → n_closed a = true;
}.

(** The first append of its journal that is not closed. *)
Definition first_open (k : list node) (i : nat) (a : node) : Prop :=
  k !! i = Some a ∧ n_closed a = false ∧
  ∀ j b, k !! j = Some b → n_journal b = n_journal a → j < i → n_closed b = true.

Lemma chains_init : chains [] ∅.
Proof. split; try (intros *; by rewrite ?lookup_nil). intros n i. rewrite lookup_empty. split; [done|]. intros (a & Ha & _). by rewrite lookup_nil in Ha. Qed.

Section chains.
Context (k : list node) (m : gmap string nat) (Hk : chains k m).

Lemma c_journal i j a b : k !! i = Some a → k !! j = Some b → n_mu a = n_mu b → n_journal a = n_journal b.
Proof.
  intros Ha Hb Hmu. destruct (c_mu _ _ Hk _ _ Ha) as (_ & a0 & Ha0 & _ & <-).
  destruct (c_mu _ _ Hk _ _ Hb) as (_ & b0 & Hb0 & _ & <-). rewrite Hmu in Ha0. congruence.
Qed.

(** Only one append of a journal can be the last of its chain and not closed. *)
Lemma c_last_max i j a b :
  k !! i = Some a → n_next a = None → k !! j = Some b → n_journal b = n_journal a → j ≤ i ∧ (j < i → n_mu b = n_mu a ∨ n_closed b = true).
Proof.
  intros Ha Hn Hb Hj. split.
  - destruct (decide (j ≤ i)) as [|Hlt]; [done|exfalso]. destruct (decide (n_mu a = n_mu b)) as [Hm|Hm].
    + destruct (c_order _ _ Hk i j a b Ha Hb Hm) as (j' & Hj' & _); [lia|congruence].
    + assert (n_closed a = true) as Hc by (apply (c_closed _ _ Hk i j a b); [done..|lia|by left]).
      rewrite (c_live _ _ Hk i a Ha Hn) in Hc. done.
  - intros Hlt. destruct (decide (n_mu b = n_mu a)) as [|Hm]; [by left|right].
    apply (c_closed _ _ Hk j i b a); [done..|by left].
Qed.

(** A chain that starts. *)
Lemma chains_start n deps : m !! n = None → Forall (λ d, d < length k) deps →
  chains (k ++ [mkNode n deps false (length k) None]) (<[n := length k]> m).
Proof.
  intros Hn Hd. set (x := mkNode n deps false (length k) None).
  assert (∀ i a, k !! i = Some a → n_journal a = n → n_closed a = true) as Hall.
  { intros i a Ha <-. destruct (n_closed a) eqn:Hc; [done|]. destruct (c_open _ _ Hk i a Ha Hc) as [[? ?] _]. congruence. }
  assert (∀ i a, k !! i = Some a → n_mu a < length k) as Hmu.
  { intros i a Ha. destruct (c_mu _ _ Hk i a Ha) as (? & _). apply lookup_lt_Some in Ha. lia. }
  split.
  - intros i a d [[_ Ha]|[-> <-]]%lookup_snoc_Some Hin; [by eapply c_deps|]. rewrite Forall_forall in Hd. by apply Hd.
  - intros i a [[_ Ha]|[-> <-]]%lookup_snoc_Some.
    + destruct (c_mu _ _ Hk i a Ha) as (? & b & Hb & ?). split; [done|]. exists b. split; [by apply lookup_app_l_Some|done].
    + split; [done|]. exists x. split; [by apply lookup_snoc_Some; right|done].
  - intros i a j [[_ Ha]|[-> <-]]%lookup_snoc_Some Hj; [|done].
    destruct (c_next _ _ Hk i a j Ha Hj) as (? & b & Hb & ?). split; [done|]. exists b. split; [by apply lookup_app_l_Some|done].
  - intros i j a b [[_ Ha]|[-> <-]]%lookup_snoc_Some [[Hlt Hb]|[-> <-]]%lookup_snoc_Some Hm Hij.
    + by eapply c_order.
    + cbn in Hm. specialize (Hmu i a Ha). lia.
    + lia.
    + lia.
  - intros n' i. rewrite lookup_insert_Some, (c_last _ _ Hk). split.
    + intros [[-> <-]|[Hne (a & Ha & Hj & Hnx)]].
      * exists x. split; [by apply lookup_snoc_Some; right|done].
      * exists a. split; [by apply lookup_app_l_Some|done].
    + intros (a & [[_ Ha]|[-> <-]]%lookup_snoc_Some & <- & Hnx); [|by left].
      right. split; [|by eauto]. intros ->. pose proof (c_live _ _ Hk i a Ha Hnx). by rewrite (Hall i a Ha eq_refl) in *.
  - intros i a [[_ Ha]|[-> <-]]%lookup_snoc_Some Hc.
    + destruct (c_open _ _ Hk i a Ha Hc) as [Hs ?]. split; [|done]. rewrite lookup_insert_is_Some'. by right.
    + split; [|done]. cbn. by rewrite lookup_insert_eq.
  - intros i a [[_ Ha]|[-> <-]]%lookup_snoc_Some; [by eapply c_live|done].
  - intros i j a b [[_ Ha]|[-> <-]]%lookup_snoc_Some [[Hlt Hb]|[-> <-]]%lookup_snoc_Some Hj Hij Hor; [by eapply (c_closed _ _ Hk i j)| |lia|lia].
    by apply (Hall i).
Qed.

(** Another append after the last one. *)
Lemma chains_chain i a deps : k !! i = Some a → n_next a = None → Forall (λ d, d < length k) deps →
  chains (<[i := node_next (AA (length k)) a]> k ++ [mkNode (n_journal a) deps false (n_mu a) None]) (<[n_journal a := length k]> m).
Proof.
  intros Ha Hnx Hd. set (x := mkNode (n_journal a) deps false (n_mu a) None). set (a' := node_next (AA (length k)) a).
  pose proof (lookup_lt_Some _ _ _ Ha) as Hi. pose proof (c_live _ _ Hk i a Ha Hnx) as Hopen.
  assert (∀ j b, (<[i := a']> k ++ [x]) !! j = Some b ↔
    j = i ∧ b = a' ∨ j ≠ i ∧ k !! j = Some b ∨ j = length k ∧ b = x) as Hl.
  { intros j b. rewrite lookup_snoc_Some, length_insert, list_lookup_insert_Some. split; [naive_solver|].
    intros [[-> ->]|[[Hne Hb]|[-> ->]]]; [left; naive_solver| |by right].
    left. split; [by eapply lookup_lt_Some|by right]. }
  assert (∀ j b, k !! j = Some b → ∃ b', (<[i := a']> k ++ [x]) !! j = Some b' ∧ n_mu b' = n_mu b ∧ n_journal b' = n_journal b) as Hold.
  { intros j b Hb. destruct (decide (j = i)) as [-> |Hne].
    - exists a'. split; [apply Hl; by left|]. by simplify_eq.
    - exists b. split; [apply Hl; auto|done]. }
  split.
  - intros j b d [[-> ->]|[[_ Hb]|[-> ->]]]%Hl Hin; [by eapply (c_deps _ _ Hk i a)|by eapply c_deps|].
    rewrite Forall_forall in Hd. by apply Hd.
  - intros j b [[-> ->]|[[_ Hb]|[-> ->]]]%Hl; cbn.
    + destruct (c_mu _ _ Hk i a Ha) as (? & b & Hb & Em & Ej). split; [done|]. rewrite <- Em, <- Ej; apply Hold; congruence.
    + destruct (c_mu _ _ Hk j b Hb) as (? & c & Hc & Em & Ej). split; [done|]. rewrite <- Em, <- Ej; apply Hold; congruence.
    + destruct (c_mu _ _ Hk i a Ha) as (? & b & Hb & Em & Ej). split; [lia|]. rewrite <- Em, <- Ej; apply Hold; congruence.
  - intros j b l [[-> ->]|[[_ Hb]|[-> ->]]]%Hl Hn; [|destruct (c_next _ _ Hk j b l Hb Hn) as (? & c & Hc & <-)|done].
    + injection Hn as <-. split; [done|]. exists x. split; [apply Hl; auto|done].
    + split; [done|]. destruct (Hold l c Hc) as (c' & ? & ? & _). eauto.
  - intros j l b c [[-> ->]|[[Hji Hb]|[-> ->]]]%Hl [[-> ->]|[[Hli Hc]|[-> ->]]]%Hl Hm Hjl; try lia.
    + destruct (c_order _ _ Hk i l a c Ha Hc Hm Hjl) as (? & ? & _). congruence.
    + by exists (length k).
    + by eapply (c_order _ _ Hk j i).
    + by eapply (c_order _ _ Hk j l).
    + destruct (c_order _ _ Hk j i b a Hb Ha Hm) as (l & Hl' & ?).
      { destruct (decide (j < i)); [done|]. destruct (c_order _ _ Hk i j a b Ha Hb) as (? & ? & _); [done|lia|congruence]. }
      exists l. split; [done|lia].
    + apply lookup_lt_Some in Hc. lia.
  - intros n j. rewrite lookup_insert_Some, (c_last _ _ Hk). split.
    + intros [[<- <-]|[Hne (b & Hb & <- & Hn)]]; [exists x; split; [apply Hl; auto|done]|].
      exists b. split; [|done]. apply Hl. right. left. split; [|done]. intros ->. congruence.
    + intros (b & [[-> ->]|[[Hji Hb]|[-> ->]]]%Hl & <- & Hn); [done| |by left].
      right. split; [|by eauto]. intros Hj.
      destruct (c_last_max i j a b Ha Hnx Hb (eq_sym Hj)) as [Hle _].
      destruct (c_last_max j i b a Hb Hn Ha Hj) as [Hle' _]. lia.
  - intros j b [[-> ->]|[[Hji Hb]|[-> ->]]]%Hl Hc; [|destruct (c_open _ _ Hk j b Hb Hc) as [? ?]; split; [|done]|split; [|done]];
      rewrite ?lookup_insert_is_Some'; cbn; auto.
  - intros j b [[-> ->]|[[Hji Hb]|[-> ->]]]%Hl Hn; [done|by eapply c_live|done].
  - intros j l b c [[-> ->]|[[Hji Hb]|[-> ->]]]%Hl [[-> ->]|[[Hli Hc]|[-> ->]]]%Hl Hj Hlt Hor; try lia.
    + by eapply (c_closed _ _ Hk i l a c).
    + exfalso. by destruct Hor.
    + by eapply (c_closed _ _ Hk j i b a).
    + by eapply (c_closed _ _ Hk j l b c).
    + cbn in Hor, Hj. destruct Hor as [Hm|]; [|done].
      destruct (c_last_max i j a b Ha Hnx Hb Hj) as [Hle Hc]. destruct Hc as [?|?]; [lia|done|done].
    + apply lookup_lt_Some in Hc. lia.
Qed.

(** The first append that is not closed is closed. *)
Lemma chains_close i a j : first_open k i a → n_next a = Some (AA j) → chains (<[i := node_closed a]> k) m.
Proof.
  intros (Ha & Hopen & Hfirst) Hnx. pose proof (lookup_lt_Some _ _ _ Ha) as Hi.
  assert (∀ j b, (<[i := node_closed a]> k) !! j = Some b ↔ j = i ∧ b = node_closed a ∨ j ≠ i ∧ k !! j = Some b) as Hl.
  { intros l b. rewrite list_lookup_insert_Some. naive_solver. }
  assert (∀ l b, (<[i := node_closed a]> k) !! l = Some b → ∃ b', k !! l = Some b' ∧ n_mu b' = n_mu b ∧ n_journal b' = n_journal b ∧
    n_next b' = n_next b ∧ n_deps b' = n_deps b) as Hnew.
  { intros l b [[-> ->]|[_ Hb]]%Hl; eauto 10. }
  assert (∀ l b, k !! l = Some b → ∃ b', (<[i := node_closed a]> k) !! l = Some b' ∧ n_mu b' = n_mu b ∧ n_journal b' = n_journal b ∧
    n_next b' = n_next b) as Hold.
  { intros l b Hb. destruct (decide (l = i)) as [-> |Hne]; [|exists b; split; [apply Hl; auto|done]].
    exists (node_closed a). split; [apply Hl; auto|]. by simplify_eq. }
  split.
  - intros l b d (b' & Hb & _ & _ & _ & <-)%Hnew. by eapply c_deps.
  - intros l b (b' & Hb & <- & <- & _)%Hnew. destruct (c_mu _ _ Hk l b' Hb) as (? & c & Hc & ? & ?). split; [done|].
    destruct (Hold _ c Hc) as (c' & ? & ? & ? & _). exists c'. split_and!; congruence.
  - intros l b j' (b' & Hb & <- & _ & <- & _)%Hnew Hn. destruct (c_next _ _ Hk l b' j' Hb Hn) as (? & c & Hc & ?).
    split; [done|]. destruct (Hold _ c Hc) as (c' & ? & ? & _). exists c'. split; congruence.
  - intros l l' b c (b' & Hb & <- & _ & <- & _)%Hnew (c' & Hc & <- & _)%Hnew. by eapply c_order.
  - intros n l. rewrite (c_last _ _ Hk). split.
    + intros (b & Hb & <- & Hn). destruct (Hold _ b Hb) as (b' & ? & _ & ? & ?). exists b'. split_and!; congruence.
    + intros (b & (b' & Hb & _ & <- & <- & _)%Hnew & <- & Hn). eauto.
  - intros l b [[-> ->]|[_ Hb]]%Hl Hc; [done|]. by eapply c_open.
  - intros l b [[-> ->]|[_ Hb]]%Hl Hn; [cbn in Hn; congruence|]. by eapply c_live.
  - intros l l' b c Hb [[-> ->]|[_ Hc]]%Hl Hj Hlt Hor; apply Hl in Hb as [[-> ->]|[_ Hb]]; try lia; try done.
    + by apply (Hfirst l b).
    + by eapply (c_closed _ _ Hk l l').
Qed.

(** The last append of a journal is closed, and marked as the last. *)
Lemma chains_stop i a : first_open k i a → n_next a = None →
  chains (<[i := node_closed (node_next tombstoneAsyncAppend a)]> k) (delete (n_journal a) m).
Proof.
  intros (Ha & Hopen & Hfirst) Hnx. pose proof (lookup_lt_Some _ _ _ Ha) as Hi.
  set (a' := node_closed (node_next tombstoneAsyncAppend a)).
  assert (∀ j b, (<[i := a']> k) !! j = Some b ↔ j = i ∧ b = a' ∨ j ≠ i ∧ k !! j = Some b) as Hl.
  { intros l b. rewrite list_lookup_insert_Some. naive_solver. }
  assert (∀ l b, k !! l = Some b → ∃ b', (<[i := a']> k) !! l = Some b' ∧ n_mu b' = n_mu b ∧ n_journal b' = n_journal b) as Hold.
  { intros l b Hb. destruct (decide (l = i)) as [-> |Hne]; [|exists b; split; [apply Hl; auto|done]].
    exists a'. split; [apply Hl; auto|]. by simplify_eq. }
  assert (m !! n_journal a = Some i) as Hm by (apply (c_last _ _ Hk); eauto).
  split.
  - intros l b d [[-> ->]|[_ Hb]]%Hl; [by apply (c_deps _ _ Hk i a)|by eapply c_deps].
  - intros l b [[-> ->]|[_ Hb]]%Hl.
    + destruct (c_mu _ _ Hk i a Ha) as (? & c & Hc & ? & ?). split; [done|].
      destruct (Hold _ c Hc) as (c' & ? & ? & ?). exists c'. cbn. split_and!; congruence.
    + destruct (c_mu _ _ Hk l b Hb) as (? & c & Hc & ? & ?). split; [done|].
      destruct (Hold _ c Hc) as (c' & ? & ? & ?). exists c'. split_and!; congruence.
  - intros l b j [[-> ->]|[_ Hb]]%Hl Hn; [done|]. destruct (c_next _ _ Hk l b j Hb Hn) as (? & c & Hc & ?).
    split; [done|]. destruct (Hold _ c Hc) as (c' & ? & ? & _). exists c'. split; congruence.
  - intros l l' b c [[-> ->]|[Hne Hb]]%Hl [[-> ->]|[_ Hc]]%Hl Hmu Hlt; [lia| | |by eapply (c_order _ _ Hk l l')].
    + destruct (c_order _ _ Hk i l' a c Ha Hc Hmu Hlt) as (? & ? & _). congruence.
    + by eapply (c_order _ _ Hk l i b a).
  - intros n l. rewrite lookup_delete_Some, (c_last _ _ Hk). split.
    + intros (Hne & b & Hb & <- & Hn). exists b. split; [|done]. apply Hl. right. split; [|done]. intros ->. congruence.
    + intros (b & [[-> ->]|[Hne Hb]]%Hl & <- & Hn); [done|]. split; [|by eauto]. intros Hj.
      assert (m !! n_journal b = Some l) by (apply (c_last _ _ Hk); eauto). congruence.
  - intros l b [[-> ->]|[Hne Hb]]%Hl Hc; [done|]. destruct (c_open _ _ Hk l b Hb Hc) as [Hs ?]. split; [|done].
    rewrite lookup_delete_ne; [done|]. intros Hj.
    destruct (c_last_max i l a b Ha Hnx Hb (eq_sym Hj)) as [Hle Hor].
    rewrite (Hfirst l b Hb (eq_sym Hj)) in Hc; [done|lia].
  - intros l b [[-> ->]|[_ Hb]]%Hl Hn; [done|]. by eapply c_live.
  - intros l l' b c Hb [[-> ->]|[_ Hc]]%Hl Hj Hlt Hor; apply Hl in Hb as [[-> ->]|[_ Hb]]; try lia; try done.
    + by apply (Hfirst l b).
    + by eapply (c_closed _ _ Hk l l').
Qed.

(** Following the chain. *)
Lemma follow_spec h fuel i a : skeleton h = k → k !! i = Some a → length k - i ≤ fuel →
  match follow fuel h i with
  | AA j => ∃ b, k !! j = Some b ∧ n_mu b = n_mu a ∧ n_next b = None
  | tombstoneAsyncAppend => n_closed a = true
  end.
Proof.
  intros Hh. revert i a. induction fuel as [|fuel IH]; intros i a Ha Hf; [apply lookup_lt_Some in Ha; lia|].
  cbn [follow]. assert (h !! i ≫= next = n_next a) as ->.
  { rewrite <- Hh in Ha. apply list_lookup_fmap_Some in Ha as (x & Hx & ->). by rewrite Hx. }
  destruct (n_next a) as [[j|]|] eqn:Hn.
  - destruct (c_next _ _ Hk i a j Ha Hn) as (Hij & b & Hb & Hmu). specialize (IH j b Hb ltac:(lia)).
    destruct (follow fuel h j) as [l|].
    + destruct IH as (c & ? & ? & ?). exists c. split_and!; congruence.
    + apply (c_closed _ _ Hk i j a b); [done..| |done|by right]. by eapply c_journal.
  - destruct (n_closed a) eqn:Hc; [done|]. by destruct (c_open _ _ Hk i a Ha Hc).
  - by exists a.
Qed.
End chains.

(** ** Threads *)

(** The append that a service loop has come to; a client that made a chain is about to start its loop. *)
Definition position (th : thread) : option nat :=
  match th with Serving i | Waiting i _ | Sending i | Locking _ _ i false => Some i | _ => None end.

(** The append that a client has, or that it rolls back. *)
Definition holder (th : thread) : option nat :=
  match th with Holding i _ | RollingBack i => Some i | _ => None end.

(** What is dispatched, with the dependencies that remain. *)
Definition dispatched (th : thread) : option (nat * list nat) :=
  match th with Waiting i ds => Some (i, ds) | Sending i => Some (i, []) | _ => None end.

Definition requested (th : thread) : list nat :=
  match th with Looking _ deps | Locking _ deps _ _ => default [] deps | _ => [] end.

Definition node_journal (k : list node) (i : nat) : string := from_option n_journal ""%string (k !! i).

Definition is_closed (k : list node) (i : nat) : Prop := ∃ a, k !! i = Some a ∧ n_closed a = true.

(** What a thread relies on. *)
Record thread_ok (k : list node) (L : gset nat) (th : thread) : Prop := mkThreadOk {
  o_position p : position th = Some p → ∃ a, first_open k p a;
  o_holder i : holder th = Some i → ∃ a, k !! i = Some a ∧ n_next a = None ∧ n_mu a ∈ L;
  o_dispatched p ds : dispatched th = Some (p, ds) → ∃ a j done, k !! p = Some a ∧ n_next a = Some (AA j) ∧
    n_deps a = done ++ ds ∧ Forall (is_closed k) done;
  o_locking name deps i ok : th = Locking name deps i ok → ∃ a, k !! i = Some a ∧ n_journal a = name;
  o_requested : Forall (λ d, d < length k) (requested th);
  o_ordered : StronglySorted str_lt (node_journal k <$> requested th);
}.

(** Each chain has one loop; and at most one client. *)
Record scheduled (k : list node) (ts : list thread) (L : gset nat) : Prop := mkScheduled {
  t_ok t th : ts !! t = Some th → thread_ok k L th;
  t_loop t1 t2 th1 th2 p : ts !! t1 = Some th1 → ts !! t2 = Some th2 → position th1 = Some p → position th2 = Some p → t1 = t2;
  t_served i a : k !! i = Some a → n_closed a = false →
    ∃ t th p b, ts !! t = Some th ∧ position th = Some p ∧ p ≤ i ∧ k !! p = Some b ∧ n_mu b = n_mu a;
  t_client t1 t2 th1 th2 i j a b : ts !! t1 = Some th1 → ts !! t2 = Some th2 → holder th1 = Some i → holder th2 = Some j →
    k !! i = Some a → k !! j = Some b → n_mu a = n_mu b → t1 = t2;
}.

Lemma scheduled_init : scheduled [] [] ∅.
Proof. split; try (intros *; by rewrite ?lookup_nil). Qed.

Lemma first_open_unique k i j a b : first_open k i a → first_open k j b → n_journal a = n_journal b → i = j.
Proof.
  intros (Ha & Hca & Hfa) (Hb & Hcb & Hfb) Hj. destruct (decide (i < j)); [rewrite (Hfb i a) in Hca; done|].
  destruct (decide (j < i)); [|lia]. rewrite (Hfa j b) in Hcb; done.
Qed.

(** A thread goes on where neither its loop nor its client changes. *)
Lemma scheduled_set k ts L t th th' :
  scheduled k ts L → ts !! t = Some th → thread_ok k L th' →
  position th' = position th → (holder th' = None ∨ holder th' = holder th) →
  scheduled k (<[t := th']> ts) L.
Proof.
  intros [Hok Hl Hs Hc] Ht Hok' Hp Hh.
  assert (∀ u x, <[t := th']> ts !! u = Some x → ∃ y, ts !! u = Some y ∧ position y = position x ∧ (holder x = None ∨ holder x = holder y)) as Hold.
  { intros u x [(<- & <- & _)|[_ Hu]]%list_lookup_insert_Some; eauto. }
  split.
  - intros u x [(_ & <- & _)|[_ Hu]]%list_lookup_insert_Some; eauto.
  - intros t1 t2 th1 th2 p (y1 & H1 & <- & _)%Hold (y2 & H2 & <- & _)%Hold. by eapply Hl.
  - intros i a Hi Ho. destruct (Hs i a Hi Ho) as (u & x & p & b & Hu & Hpx & ?).
    destruct (decide (u = t)) as [-> |Hne].
    + exists t, th', p, b. split; [apply list_lookup_insert_Some; left; split_and!; [done..|by eapply lookup_lt_Some]|].
      split; [congruence|done].
    + exists u, x, p, b. split; [|done]. apply list_lookup_insert_Some. by right.
  - intros t1 t2 th1 th2 i j a b (y1 & H1 & _ & Hh1)%Hold (y2 & H2 & _ & Hh2)%Hold Hi Hj.
    destruct Hh1, Hh2; try congruence. eapply Hc; [exact H1|exact H2|congruence..].
Qed.

Lemma scheduled_go k ts L th :
  scheduled k ts L → thread_ok k L th → position th = None → holder th = None → scheduled k (ts ++ [th]) L.
Proof.
  intros [Hok Hl Hs Hc] Hth Hp Hh. split.
  - intros u x [[_ Hu]|[_ <-]]%lookup_snoc_Some; eauto.
  - intros t1 t2 th1 th2 p [[_ H1]|[_ <-]]%lookup_snoc_Some [[_ H2]|[_ <-]]%lookup_snoc_Some; [by eapply Hl|congruence..].
  - intros i a Hi Ho. destruct (Hs i a Hi Ho) as (u & x & p & b & Hu & Hpx & ?). exists u, x, p, b.
    split; [by apply lookup_app_l_Some|done].
  - intros t1 t2 th1 th2 i j a b [[_ H1]|[_ <-]]%lookup_snoc_Some [[_ H2]|[_ <-]]%lookup_snoc_Some; [by eapply Hc|congruence..].
Qed.

(** The client that made a chain starts its loop. *)
Lemma scheduled_spawn k ts L t name deps i :
  scheduled k ts L → ts !! t = Some (Locking name deps i false) →
  scheduled k (<[t := Locking name deps i true]> ts ++ [Serving i]) L.
Proof.
  intros [Hok Hl Hs Hc] Ht. destruct (Hok _ _ Ht) as [Hp _ _ Hlock Hreq Hord].
  pose proof (lookup_lt_Some _ _ _ Ht) as Hlt.
  assert (∀ u x, (<[t := Locking name deps i true]> ts ++ [Serving i]) !! u = Some x ↔
    u = t ∧ x = Locking name deps i true ∨ u ≠ t ∧ ts !! u = Some x ∨ u = length ts ∧ x = Serving i) as Hts.
  { intros u x. rewrite lookup_snoc_Some, length_insert, list_lookup_insert_Some. split; [naive_solver|].
    intros [[-> ->]|[[Hne Hu]|[-> ->]]]; [left; naive_solver| |by right].
    left. split; [by eapply lookup_lt_Some|by right]. }
  split.
  - intros u x [[-> ->]|[[_ Hu]|[-> ->]]]%Hts; [|by eapply Hok|].
    + split; try done. intros ? ? ? ? [= <- <- <- <-]. by eapply Hlock.
    + split; done || constructor.
  - intros t1 t2 th1 th2 p [[-> ->]|[[Hn1 H1]|[-> ->]]]%Hts [[-> ->]|[[Hn2 H2]|[-> ->]]]%Hts P1 P2; try done.
    + by eapply Hl.
    + injection P2 as <-. destruct Hn1. by eapply Hl.
    + injection P1 as <-. destruct Hn2. by eapply Hl.
  - intros j a Hj Ho. destruct (Hs j a Hj Ho) as (u & x & p & b & Hu & Hpx & ?).
    destruct (decide (u = t)) as [-> |Hne].
    + exists (length ts), (Serving i), p, b. split; [apply Hts; auto|]. simplify_eq. done.
    + exists u, x, p, b. split; [apply Hts; auto|done].
  - intros t1 t2 th1 th2 l j a b [[-> ->]|[[Hn1 H1]|[-> ->]]]%Hts [[-> ->]|[[Hn2 H2]|[-> ->]]]%Hts; try done. by eapply Hc.
Qed.

Lemma thread_ok_lock k L L' th : L ⊆ L' → thread_ok k L th → thread_ok k L' th.
Proof.
  intros HL [Hp Hh Hd Hl Hr Hr']. split; try done. intros i Hi. destruct (Hh i Hi) as (a & ? & ? & ?). exists a. set_solver.
Qed.

Lemma scheduled_lock k ts L L' : L ⊆ L' → scheduled k ts L → scheduled k ts L'.
Proof. intros HL [Hok Hl Hs Hc]. split; [|done..]. intros t th Ht. eapply thread_ok_lock; eauto. Qed.

(** A client that has locked the mutex of a chain gets its last append. *)
Lemma scheduled_hold k ts L t th i a ws :
  scheduled k ts L → ts !! t = Some th → position th = None → k !! i = Some a → n_next a = None → n_mu a ∉ L →
  scheduled k (<[t := Holding i ws]> ts) ({[n_mu a]} ∪ L).
Proof.
  intros [Hok Hl Hs Hc] Ht Hp Hi Hn HL.
  assert (∀ u x j b, ts !! u = Some x → holder x = Some j → k !! j = Some b → n_mu b ≠ n_mu a) as Hfree.
  { intros u x j b Hu Hx Hj Hm. destruct (o_holder _ _ _ (Hok u x Hu) j Hx) as (b' & Hb' & _ & ?). congruence. }
  split.
  - intros u x [(_ & <- & _)|[_ Hu]]%list_lookup_insert_Some.
    + split; try (done || constructor). intros j [= <-]. exists a. set_solver.
    + eapply thread_ok_lock; [|by eapply Hok]. set_solver.
  - intros t1 t2 th1 th2 p [(_ & <- & _)|[_ H1]]%list_lookup_insert_Some [(_ & <- & _)|[_ H2]]%list_lookup_insert_Some; try done. by eapply Hl.
  - intros j b Hj Ho. destruct (Hs j b Hj Ho) as (u & x & p & c & Hu & Hpx & ?).
    exists u, x, p, c. split; [|done]. apply list_lookup_insert_Some. right. split; [|done]. congruence.
  - intros t1 t2 th1 th2 l j b c [(<- & <- & _)|[_ H1]]%list_lookup_insert_Some [(<- & <- & _)|[_ H2]]%list_lookup_insert_Some E1 E2 Hb Hcc Hm;
      [done| | |by eapply (Hc t1 t2)]; exfalso.
    + injection E1 as <-. eapply (Hfree t2 th2 j c); [done..|congruence].
    + injection E2 as <-. eapply (Hfree t1 th1 l b); [done..|congruence].
Qed.

(** A client that is done unlocks the mutex. *)
Lemma scheduled_unlock k ts L t th i a :
  scheduled k ts L → ts !! t = Some th → position th = None → holder th = Some i → k !! i = Some a →
  scheduled k (<[t := Done]> ts) (L ∖ {[n_mu a]}).
Proof.
  intros [Hok Hl Hs Hc] Ht Hp Hh Hi. split.
  - intros u x [(_ & <- & _)|[Hne Hu]]%list_lookup_insert_Some; [split; done || constructor|].
    destruct (Hok u x Hu) as [Hp' Hh' Hd' Hl' Hr' Ho']. split; try done.
    intros j Hj. destruct (Hh' j Hj) as (b & Hb & ? & ?). exists b. split_and!; [done..|].
    apply elem_of_difference. split; [done|]. intros Hm%elem_of_singleton. destruct Hne. symmetry. by eapply Hc.
  - intros t1 t2 th1 th2 p [(_ & <- & _)|[_ H1]]%list_lookup_insert_Some [(_ & <- & _)|[_ H2]]%list_lookup_insert_Some; try done. by eapply Hl.
  - intros j b Hj Ho. destruct (Hs j b Hj Ho) as (u & x & p & c & Hu & Hpx & ?).
    exists u, x, p, c. split; [|done]. apply list_lookup_insert_Some. right. split; [|done]. congruence.
  - intros t1 t2 th1 th2 l j b c [(_ & <- & _)|[_ H1]]%list_lookup_insert_Some [(_ & <- & _)|[_ H2]]%list_lookup_insert_Some; try done. by eapply Hc.
Qed.

(** How appends change. *)
Definition evolves (k k' : list node) : Prop :=
  ∀ i a, k !! i = Some a → ∃ a', k' !! i = Some a' ∧ n_journal a' = n_journal a ∧ n_mu a' = n_mu a ∧ n_deps a' = n_deps a ∧
    (n_closed a = true → n_closed a' = true) ∧ (∀ n, n_next a = Some n → n_next a' = Some n).

Lemma evolves_length k k' : evolves k k' → length k ≤ length k'.
Proof.
  intros He. destruct (decide (length k = 0)); [lia|]. destruct (lookup_lt_is_Some_2 k (length k - 1)) as [a Ha]; [lia|].
  destruct (He _ _ Ha) as (a' & Ha' & _). apply lookup_lt_Some in Ha'. lia.
Qed.

Lemma evolves_insert k i a a' : k !! i = Some a → n_journal a' = n_journal a → n_mu a' = n_mu a → n_deps a' = n_deps a →
  (n_closed a = true → n_closed a' = true) → (∀ n, n_next a = Some n → n_next a' = Some n) → evolves k (<[i := a']> k).
Proof.
  intros Ha ????? j b Hb. destruct (decide (j = i)) as [-> |Hne].
  - exists a'. rewrite list_lookup_insert_eq by (by eapply lookup_lt_Some). simplify_eq. done.
  - exists b. rewrite list_lookup_insert_ne by done. done.
Qed.

Lemma evolves_app k k' x : evolves k k' → evolves k (k' ++ [x]).
Proof. intros He i a Ha. destruct (He i a Ha) as (a' & Ha' & ?). exists a'. split; [by apply lookup_app_l_Some|done]. Qed.

Lemma evolves_journal k k' i : evolves k k' → is_Some (k !! i) → node_journal k' i = node_journal k i.
Proof. intros He [a Ha]. destruct (He i a Ha) as (a' & Ha' & ? & _). unfold node_journal. by rewrite Ha, Ha'. Qed.

Lemma evolves_journals k k' l : evolves k k' → Forall (λ d, d < length k) l → node_journal k' <$> l = node_journal k <$> l.
Proof.
  intros He Hl. apply list_fmap_ext. intros n d Hd. apply evolves_journal; [done|]. apply lookup_lt_is_Some_2.
  rewrite Forall_forall in Hl. apply Hl. by eapply list_elem_of_lookup_2.
Qed.

Lemma thread_ok_evolves k k' L th :
  evolves k k' → thread_ok k L th →
  (∀ p a, position th = Some p → first_open k p a → ∃ a', first_open k' p a') →
  (∀ i a, holder th = Some i → k !! i = Some a → n_next a = None → ∃ a', k' !! i = Some a' ∧ n_next a' = None ∧ n_mu a' = n_mu a) →
  thread_ok k' L th.
Proof.
  intros He [Hp Hh Hd Hl Hr Ho] Hp' Hh'. split.
  - intros p Hpo. destruct (Hp p Hpo) as (a & Ha). by eapply Hp'.
  - intros i Hi. destruct (Hh i Hi) as (a & Ha & Hn & HL). destruct (Hh' i a Hi Ha Hn) as (a' & ? & ? & Hm). exists a'. by rewrite Hm.
  - intros p ds Hds. destruct (Hd p ds Hds) as (a & j & done & Ha & Hn & Hdeps & Hcl).
    destruct (He p a Ha) as (a' & Ha' & _ & _ & Hd' & _ & Hn'). exists a', j, done. split_and!; [done|auto|congruence|].
    eapply Forall_impl; [exact Hcl|]. intros d (b & Hb & Hc). destruct (He d b Hb) as (b' & Hb' & _ & _ & _ & Hc' & _).
    exists b'. auto.
  - intros name deps i ok ->. destruct (Hl _ _ _ _ eq_refl) as (a & Ha & <-). destruct (He i a Ha) as (a' & Ha' & ? & _). by exists a'.
  - eapply Forall_impl; [exact Hr|]. intros d Hlt. pose proof (evolves_length k k' He). cbn in Hlt. lia.
  - by rewrite (evolves_journals k k').
Qed.

Lemma clients_evolve k k' ts L t1 t2 th1 th2 i j a b :
  scheduled k ts L → evolves k k' → ts !! t1 = Some th1 → ts !! t2 = Some th2 → holder th1 = Some i → holder th2 = Some j →
  k' !! i = Some a → k' !! j = Some b → n_mu a = n_mu b → t1 = t2.
Proof.
  intros [Hok _ _ Hc] He H1 H2 E1 E2 Ha Hb Hm.
  destruct (o_holder _ _ _ (Hok t1 th1 H1) i E1) as (a0 & Ha0 & _). destruct (o_holder _ _ _ (Hok t2 th2 H2) j E2) as (b0 & Hb0 & _).
  destruct (He i a0 Ha0) as (a1 & ? & _ & ? & _). destruct (He j b0 Hb0) as (b1 & ? & _ & ? & _).
  apply (Hc t1 t2 th1 th2 i j a0 b0); try done. congruence.
Qed.

Section scheduled.
Context (k : list node) (m : gmap string nat) (ts : list thread) (L : gset nat).
Context (Hk : chains k m) (Hts : scheduled k ts L).

Lemma scheduled_chain i a deps :
  k !! i = Some a → n_next a = None → n_mu a ∉ L →
  scheduled (<[i := node_next (AA (length k)) a]> k ++ [mkNode (n_journal a) deps false (n_mu a) None]) ts L.
Proof.
  intros Ha Hn HL. destruct Hts as [Hok Hl Hs Hc]. set (k' := _ ++ _).
  assert (evolves k k') as He.
  { apply evolves_app, (evolves_insert k i a); try done. intros n ?. congruence. }
  assert (∀ j b, k !! j = Some b → j ≠ i → k' !! j = Some b) as Hold.
  { intros j b Hb Hne. apply lookup_app_l_Some. by rewrite list_lookup_insert_ne. }
  assert (∀ j b, k' !! j = Some b → j < length k → ∃ b', k !! j = Some b' ∧ n_journal b' = n_journal b ∧ n_closed b' = n_closed b) as Hnew.
  { intros j b [[_ Hb]|[-> _]]%lookup_snoc_Some Hj; [|rewrite length_insert in Hj; lia].
    apply list_lookup_insert_Some in Hb as [(-> & <- & _)|[_ Hb]]; eauto. }
  assert (∀ p b, first_open k p b → ∃ b', first_open k' p b') as Hfirst.
  { intros p b (Hb & Ho & Hf). destruct (He p b Hb) as (b' & Hb' & Hj & _). exists b'. split_and!; [done| |].
    - destruct (Hnew p b' Hb') as (c & Hc' & _ & <-); [by eapply lookup_lt_Some|]. congruence.
    - intros l c Hcl Hjl Hlt. destruct (Hnew l c Hcl) as (c' & Hc' & ? & <-); [apply lookup_lt_Some in Hb; lia|].
      apply (Hf l c'); [done|congruence|done]. }
  split.
  - intros t th Ht. apply (thread_ok_evolves k k' L th He (Hok t th Ht)); [by eauto|].
    intros j b Hj Hb Hnb. exists b. split; [|done]. apply Hold; [done|]. intros ->.
    destruct (o_holder _ _ _ (Hok t th Ht) i Hj) as (b' & Hb' & _ & ?). congruence.
  - done.
  - intros j b Hb Ho.
    assert (∃ j' b', j' ≤ j ∧ k !! j' = Some b' ∧ n_closed b' = false ∧ n_mu b' = n_mu b) as (j' & b' & Hj' & Hb' & Ho' & Hm).
    { apply lookup_snoc_Some in Hb as [[Hlt Hb]|[-> <-]].
      - apply list_lookup_insert_Some in Hb as [(-> & <- & _)|[_ Hb]]; eauto 10.
      - exists i, a. apply lookup_lt_Some in Ha as ?. rewrite length_insert. split_and!; [lia|done|by eapply c_live|done]. }
    destruct (Hs j' b' Hb' Ho') as (t & th & p & c & Ht & Hp & Hle & Hpc & Hmc).
    destruct (He p c Hpc) as (c' & Hc' & _ & ? & _). exists t, th, p, c'. split_and!; [done|done|lia|done|congruence].
  - intros *. by apply (clients_evolve k _ ts L).
Qed.

Lemma first_open_app p a x : first_open k p a → first_open (k ++ [x]) p a.
Proof.
  intros (Ha & Ho & Hf). split_and!; [by apply lookup_app_l_Some|done|].
  intros j b [[_ Hb]|[-> _]]%lookup_snoc_Some Hj Hlt; [by eapply Hf|]. apply lookup_lt_Some in Ha. lia.
Qed.

(** A client makes the chain of a journal that has none. *)
Lemma scheduled_start t name deps :
  m !! name = None → ts !! t = Some (Looking name deps) →
  scheduled (k ++ [mkNode name (default [] deps) false (length k) None]) (<[t := Locking name deps (length k) false]> ts) L.
Proof.
  intros Hm Ht. destruct Hts as [Hok Hl Hs Hc]. set (x := mkNode _ _ _ _ _).
  assert (evolves k (k ++ [x])) as He by (apply evolves_app; intros i a Ha; by exists a).
  assert (first_open (k ++ [x]) (length k) x) as Hx.
  { split_and!; [apply lookup_snoc_Some; by right|done|]. intros j b [[_ Hb]|[-> _]]%lookup_snoc_Some Hj Hlt; [|lia].
    destruct (n_closed b) eqn:Ho; [done|]. destruct (c_open _ _ Hk j b Hb Ho) as [[? Hs'] _]. cbn in Hj. congruence. }
  split.
  - intros u th [(_ & <- & _)|[_ Hu]]%list_lookup_insert_Some.
    + split; try done.
      * intros p [= <-]. by exists x.
      * intros ? ? ? ? [= <- <- <- <-]. exists x. by destruct Hx.
      * eapply Forall_impl; [exact (o_requested _ _ _ (Hok t _ Ht))|]. intros d Hd. cbn in Hd. rewrite length_app. lia.
      * destruct (Hok t _ Ht) as [_ _ _ _ Hr Ho]. cbn in Hr, Ho |- *. by rewrite (evolves_journals k).
    + apply (thread_ok_evolves k _ L th He (Hok u th Hu)); [eauto using first_open_app|].
      intros j b Hj Hb Hnb. exists b. split; [by apply lookup_app_l_Some|done].
  - intros t1 t2 th1 th2 p [(<- & <- & _)|[Hn1 H1]]%list_lookup_insert_Some [(<- & <- & _)|[Hn2 H2]]%list_lookup_insert_Some P1 P2; [done| | |by eapply Hl].
    + injection P1 as <-. destruct (o_position _ _ _ (Hok t2 _ H2) _ P2) as (a & Ha%lookup_lt_Some & _). lia.
    + injection P2 as <-. destruct (o_position _ _ _ (Hok t1 _ H1) _ P1) as (a & Ha%lookup_lt_Some & _). lia.
  - intros j b [[_ Hb]|[-> <-]]%lookup_snoc_Some Ho.
    + destruct (Hs j b Hb Ho) as (u & th & p & c & Hu & Hp & Hle & Hpc & ?). exists u, th, p, c.
      split_and!; [|done..|by apply lookup_app_l_Some|done]. apply list_lookup_insert_Some. right. split; [intros ->; by simplify_eq|done].
    + exists t, (Locking name deps (length k) false), (length k), x. split_and!; try done; [|by destruct Hx].
      apply list_lookup_insert_Some. left. split_and!; [done..|by eapply lookup_lt_Some].
  - intros t1 t2 th1 th2 j l b c [(<- & <- & _)|[Hn1 H1]]%list_lookup_insert_Some [(<- & <- & _)|[Hn2 H2]]%list_lookup_insert_Some ; try done. by apply (clients_evolve k (k ++ [x]) ts L).
Qed.

(** To close an append is of no concern to other journals. *)
Lemma first_open_other i a a' p c :
  k !! i = Some a → n_closed a' = true → first_open k p c → n_journal c ≠ n_journal a → first_open (<[i := a']> k) p c.
Proof.
  intros Ha Hcl (Hpc & Ho & Hf) Hj. split_and!; [|done|].
  - rewrite list_lookup_insert_ne; [done|]. intros ->. congruence.
  - intros l d Hd Hjd Hlt. apply list_lookup_insert_Some in Hd as [(-> & <- & _)|[_ Hd]]; [done|by eapply Hf].
Qed.

Lemma loop_other t th i a u x p c :
  ts !! t = Some th → position th = Some i → first_open k i a →
  ts !! u = Some x → position x = Some p → first_open k p c → u ≠ t → n_journal c ≠ n_journal a.
Proof.
  intros Ht Hp Ha Hu Hpx Hc Hne Hj. destruct Hne. eapply (t_loop _ _ _ Hts); [exact Hu|exact Ht|exact Hpx|].
  by rewrite (first_open_unique k p i c a).
Qed.

Lemma first_open_next i a j b :
  first_open k i a → n_next a = Some (AA j) → k !! j = Some b → first_open (<[i := node_closed a]> k) j b.
Proof.
  intros (Ha & Hoa & Hf) Hn Hb. destruct (c_next _ _ Hk i a j Ha Hn) as (Hij & b' & Hb' & Hmu).
  assert (b' = b) as -> by congruence.
  assert (n_journal b = n_journal a) as Hjb by (eapply c_journal; eauto). split_and!.
  - rewrite list_lookup_insert_ne by lia. done.
  - destruct (n_closed b) eqn:Hcb; [|done]. rewrite (c_closed _ _ Hk i j a b) in Hoa; auto.
  - intros l c [(-> & <- & _)|[Hne Hc]]%list_lookup_insert_Some Hjl Hlt; [done|].
    destruct (n_closed c) eqn:Ho; [done|]. rewrite Hjb in Hjl.
    destruct (decide (l < i)); [by rewrite (Hf l c) in Ho|].
    destruct (decide (n_mu a = n_mu c)) as [Hm|Hm].
    + destruct (c_order _ _ Hk i l a c Ha Hc Hm) as (j' & Hj' & ?); [lia|]. rewrite Hn in Hj'. injection Hj' as <-. lia.
    + rewrite (c_closed _ _ Hk i l a c) in Hoa; [done..|lia|by left].
Qed.

(** A loop closes its append and goes on with the next. *)
Lemma scheduled_close t th i a j :
  ts !! t = Some th → position th = Some i → holder th = None → k !! i = Some a → n_next a = Some (AA j) →
  scheduled (<[i := node_closed a]> k) (<[t := Serving j]> ts) L.
Proof.
  intros Ht Hp Hh Ha Hn. destruct Hts as [Hok Hl Hs Hc].
  destruct (o_position _ _ _ (Hok t th Ht) i Hp) as (a0 & Hfa). assert (a0 = a) as -> by (destruct Hfa; congruence).
  destruct (c_next _ _ Hk i a j Ha Hn) as (Hij & b & Hb & Hmu).
  pose proof (first_open_next i a j b Hfa Hn Hb) as Hfj. set (k' := <[i := node_closed a]> k) in *.
  assert (evolves k k') as He by (by apply (evolves_insert k i a)).
  assert (∀ u x c, ts !! u = Some x → u ≠ t → position x = Some j → first_open k j c → False) as Hnext.
  { intros u x c Hu Hne Hpx Hfc. eapply (loop_other t th i a u x j c); [done..|]. destruct Hfc as (Hjc & _).
    assert (c = b) as -> by congruence. by eapply c_journal. }
  split.
  - intros u x [(_ & <- & _)|[Hne Hu]]%list_lookup_insert_Some.
    + split; try (done || constructor). intros p [= <-]. by exists b.
    + apply (thread_ok_evolves k k' L x He (Hok u x Hu)).
      * intros p c Hpx Hfc. exists c. apply (first_open_other i a); [done..|]. by eapply (loop_other t th i a u x p c).
      * intros l c Hl' Hlc Hnc. exists c. split; [|done]. unfold k'. rewrite list_lookup_insert_ne; [done|]. intros ->. congruence.
  - intros t1 t2 th1 th2 p [(<- & <- & _)|[Hn1 H1]]%list_lookup_insert_Some [(<- & <- & _)|[Hn2 H2]]%list_lookup_insert_Some P1 P2; [done| | |by eapply Hl];
      exfalso; [injection P1 as <-; destruct (o_position _ _ _ (Hok t2 _ H2) j P2)|injection P2 as <-; destruct (o_position _ _ _ (Hok t1 _ H1) j P1)]; by eapply Hnext.
  - intros l c Hlc Ho. assert (l ≠ i ∧ k !! l = Some c) as [Hne Hc'].
    { apply list_lookup_insert_Some in Hlc as [(-> & <- & _)|[? ?]]; done. }
    destruct (Hs l c Hc' Ho) as (u & x & p & d & Hu & Hpx & Hle & Hd & Hmd).
    destruct (decide (u = t)) as [-> |Hut].
    + assert (p = i) as -> by congruence. assert (d = a) as -> by congruence.
      destruct (c_order _ _ Hk i l a c Ha Hc' Hmd) as (j' & Hj' & ?); [lia|]. rewrite Hn in Hj'. injection Hj' as <-.
      exists t, (Serving j), j, b. split_and!; [|done|lia|by destruct Hfj|congruence].
      apply list_lookup_insert_Some. left. split_and!; [done..|by eapply lookup_lt_Some].
    + assert (p ≠ i) by (intros ->; destruct Hut; by eapply Hl). exists u, x, p, d.
      split_and!; [apply list_lookup_insert_Some; by right|done..|unfold k'; by rewrite list_lookup_insert_ne by congruence|done].
  - intros t1 t2 th1 th2 l l' c d [(<- & <- & _)|[Hn1 H1]]%list_lookup_insert_Some [(<- & <- & _)|[Hn2 H2]]%list_lookup_insert_Some ; try done.
    by apply (clients_evolve k k' ts L).
Qed.

(** A loop ends. *)
Lemma scheduled_stop t th i a :
  ts !! t = Some th → position th = Some i → holder th = None → k !! i = Some a → n_next a = None → n_mu a ∉ L →
  scheduled (<[i := node_closed (node_next tombstoneAsyncAppend a)]> k) (<[t := Done]> ts) L.
Proof.
  intros Ht Hp Hh Ha Hn HL. pose proof Hts as [Hok Hl Hs Hc].
  destruct (o_position _ _ _ (Hok t th Ht) i Hp) as (a0 & Hfa). assert (a0 = a) as -> by (destruct Hfa; congruence).
  set (k' := <[i := _]> k).
  assert (evolves k k') as He by (apply (evolves_insert k i a); try done; intros n ?; congruence).
  split.
  - intros u x [(_ & <- & _)|[Hne Hu]]%list_lookup_insert_Some; [split; done || constructor|].
    apply (thread_ok_evolves k k' L x He (Hok u x Hu)).
    + intros p c Hpx Hfc. exists c. apply (first_open_other i a); [done..|]. by eapply (loop_other t th i a u x p c).
    + intros l c Hl' Hlc Hnc. exists c. split; [|done]. unfold k'. rewrite list_lookup_insert_ne; [done|]. intros ->.
      destruct (o_holder _ _ _ (Hok u x Hu) l Hl') as (c' & Hc' & _ & ?). congruence.
  - intros t1 t2 th1 th2 p [(<- & <- & _)|[Hn1 H1]]%list_lookup_insert_Some [(<- & <- & _)|[Hn2 H2]]%list_lookup_insert_Some P1 P2; try done. by eapply Hl.
  - intros l c Hlc Ho. assert (l ≠ i ∧ k !! l = Some c) as [Hne Hc'].
    { apply list_lookup_insert_Some in Hlc as [(-> & <- & _)|[? ?]]; done. }
    destruct (Hs l c Hc' Ho) as (u & x & p & d & Hu & Hpx & Hle & Hd & Hmd).
    assert (p ≠ i).
    { intros ->. assert (d = a) as -> by congruence.
      destruct (c_order _ _ Hk i l a c Ha Hc' Hmd) as (j' & Hj' & ?); [lia|congruence]. }
    assert (u ≠ t) by congruence. exists u, x, p, d.
    split_and!; [apply list_lookup_insert_Some; by right|done..|unfold k'; by rewrite list_lookup_insert_ne by congruence|done].
  - intros t1 t2 th1 th2 l l' c d [(<- & <- & _)|[Hn1 H1]]%list_lookup_insert_Some [(<- & <- & _)|[Hn2 H2]]%list_lookup_insert_Some; try done.
    by apply (clients_evolve k k' ts L).
Qed.
End scheduled.
