(* ===== verification/AppendLog.v ===== *)
(** * What an append service delivers

    The invariant of an append service, that its steps keep: of the content of appends that are not closed, and of the
    Append RPCs against what clients released. From it: the order and content of what brokers confirm, the exclusive access of
    clients, barriers of dependencies, the absence of panics and deadlocks; and a mutex that is never unlocked. *)
From S2P Require Import Prelude Encoding Protocol Framing LocalFS AppendBuffer AppendService AppendChains.

(** ** Contents *)

(** What clients released of an append. *)
Definition entries (i : nat) (rel : list (nat * bytes)) : bytes := concat ((filter (λ x, fst x = i) rel).*2).

(** The append whose content a thread relies on. *)
Definition about (th : thread) : option nat :=
  match th with Holding i _ | RollingBack i | Sending i => Some i | _ => None end.

Definition held (ts : list thread) (i : nat) : Prop := ∃ th, th ∈ ts ∧ holder th = Some i.

(** Until an append is closed its buffer has, up to the checkpoint, what was released; and no more, unless a client
    has it. *)
Definition content_ok (ts : list thread) (rel : list (nat * bytes)) (canc : bool) (i : nat) (a : AsyncAppend) : Prop :=
  if closed a then aerr a ≠ None → canc = true
  else
    match fb a with
    | None => checkpoint a = 0 ∧ entries i rel = [] ∧ aerr a = None ∧ ∀ th, th ∈ ts → about th ≠ Some i
    | Some f =>
        fb_ok f ∧ checkpoint a ≤ length (content f) ∧ take (checkpoint a) (content f) = entries i rel ∧
        (¬ held ts i → clean f ∧ checkpoint a = length (content f) ∧ aerr a = None) ∧
        (∀ ws, Holding i ws ∈ ts → clean f → content f = entries i rel ++ concat ws) ∧
        (RollingBack i ∈ ts → aerr a = None) ∧ (Sending i ∈ ts → flushed f)
    end.

Definition contents (h : list AsyncAppend) (ts : list thread) (rel : list (nat * bytes)) (canc : bool) : Prop :=
  ∀ i a, h !! i = Some a → content_ok ts rel canc i a.

Lemma content_ok_frame ts ts' rel rel' canc canc' i a :
  (∀ th, about th = Some i → th ∈ ts' ↔ th ∈ ts) → entries i rel' = entries i rel → (canc = true → canc' = true) →
  content_ok ts rel canc i a → content_ok ts' rel' canc' i a.
Proof.
  intros Hts Hrel Hc. unfold content_ok. rewrite Hrel. destruct (closed a); [auto|]. destruct (fb a) as [f|].
  - assert (held ts i → held ts' i) as Hheld.
    { intros (th & Hin & Hh). exists th. split; [|done]. apply Hts; [|done]. by destruct th. }
    intros (? & ? & ? & Hn & Hw & Hr & Hs). split_and!; [done..|auto| | |].
    + intros ws Hin. apply Hw. by apply Hts in Hin.
    + intros Hin. apply Hr. by apply Hts in Hin.
    + intros Hin. apply Hs. by apply Hts in Hin.
  - intros (? & ? & ? & Hn). split_and!; [done..|]. intros th Hin Hab. apply (Hn th); [|done]. by apply Hts.
Qed.

Lemma elem_of_set (ts : list thread) t th th' x :
  ts !! t = Some th → x ≠ th → x ≠ th' → x ∈ <[t := th']> ts ↔ x ∈ ts.
Proof.
  intros Ht H1 H2. rewrite !list_elem_of_lookup. split.
  - intros [u [(_ & <- & _)|[_ Hu]]%list_lookup_insert_Some]; [done|eauto].
  - intros [u Hu]. exists u. apply list_lookup_insert_Some. right. split; [congruence|done].
Qed.

Lemma elem_of_set_inv (ts : list thread) t th x : x ∈ <[t := th]> ts → x = th ∨ x ∈ ts.
Proof. intros [u [(_ & <- & _)|[_ Hu]]%list_lookup_insert_Some]%list_elem_of_lookup; [by left|right]. by eapply list_elem_of_lookup_2. Qed.

Lemma elem_of_set_new (ts : list thread) t th th' : ts !! t = Some th → th' ∈ <[t := th']> ts.
Proof. intros Ht. apply list_elem_of_lookup. exists t. rewrite list_lookup_insert_eq; [done|]. by eapply lookup_lt_Some. Qed.

(** A step of a thread that is about none but [i]. *)
Lemma contents_step h h' ts rel rel' canc t th th' i :
  contents h ts rel canc → ts !! t = Some th → (∀ j, j ≠ i → entries j rel' = entries j rel) →
  (∀ j, about th = Some j → j = i) → (∀ j, about th' = Some j → j = i) →
  (∀ j, j ≠ i → h' !! j = h !! j) →
  (∀ a, h' !! i = Some a → content_ok (<[t := th']> ts) rel' canc i a) →
  contents h' (<[t := th']> ts) rel' canc.
Proof.
  intros Hh Ht Hrel H1 H2 Hne Hi j a Hj. destruct (decide (j = i)) as [-> |Hji]; [by apply Hi|].
  rewrite Hne in Hj by done. eapply content_ok_frame; [| | |by apply Hh]; [|by auto|done].
  intros x Hx. apply (elem_of_set ts t th); [done|intros ->; auto..].
Qed.

(** A step of a thread that is about no append. *)
Lemma contents_thread h ts rel canc t th th' :
  contents h ts rel canc → ts !! t = Some th → about th = None → about th' = None → contents h (<[t := th']> ts) rel canc.
Proof.
  intros Hh Ht H1 H2 j a Hj. eapply content_ok_frame; [| | |by apply Hh]; [|done..].
  intros x Hx. apply (elem_of_set ts t th); [done|congruence..].
Qed.

Lemma contents_go h ts rel canc th : contents h ts rel canc → about th = None → contents h (ts ++ [th]) rel canc.
Proof.
  intros Hh Hth j a Hj. eapply content_ok_frame; [| | |by apply Hh]; [|done..].
  intros x Hx. rewrite elem_of_app, list_elem_of_singleton. split; [intros [| ->]; [done|congruence]|auto].
Qed.

Lemma contents_update h ts rel canc i (P : AsyncAppend → AsyncAppend) :
  contents h ts rel canc → (∀ a, h !! i = Some a → content_ok ts rel canc i a → content_ok ts rel canc i (P a)) →
  contents (alter P i h) ts rel canc.
Proof.
  intros Hh Hi j a Hj. destruct (decide (j = i)) as [-> |Hne].
  - rewrite list_lookup_alter_eq in Hj. destruct (h !! i) as [b|] eqn:Hb; [|done]. injection Hj as <-. by apply Hi, Hh.
  - rewrite list_lookup_alter_ne in Hj by done. by apply Hh.
Qed.

Lemma entries_nil i rel : (∀ b, (i, b) ∉ rel) → entries i rel = [].
Proof.
  intros H. unfold entries. assert (filter (λ x, fst x = i) rel = []) as ->; [|done].
  apply elem_of_nil_inv. intros [j b] [Hx Hin]%list_elem_of_filter. cbn in Hx. subst j. by apply (H b).
Qed.

Lemma entries_snoc i j b rel : entries i (rel ++ [(j, b)]) = entries i rel ++ (if decide (j = i) then b else []).
Proof.
  unfold entries. rewrite filter_app, fmap_app, concat_app. f_equal. rewrite filter_cons. cbn [fst].
  case_decide; [|done]. cbn. by rewrite app_nil_r.
Qed.

(** A new append. *)
Lemma contents_new h ts rel canc name deps m :
  contents h ts rel canc → (∀ b, (length h, b) ∉ rel) → (∀ th, th ∈ ts → about th ≠ Some (length h)) →
  contents (h ++ [new_append name deps m]) ts rel canc.
Proof.
  intros Hh Hrel Hts i a [[_ Hi]|[-> <-]]%lookup_snoc_Some; [by apply Hh|].
  unfold content_ok. cbn. split_and!; [done|by apply entries_nil|done|done].
Qed.

(** ** What brokers are sent *)

Definition node_is_closed (k : list node) (i : nat) : bool := from_option n_closed false (k !! i).

(** What was released to a journal; of what is closed; and what a broker confirmed. *)
Definition released_to (k : list node) (n : string) (rel : list (nat * bytes)) : bytes :=
  concat ((filter (λ x, node_journal k (fst x) = n) rel).*2).
Definition completed (k : list node) (n : string) (rel : list (nat * bytes)) : bytes :=
  concat ((filter (λ x, node_journal k (fst x) = n ∧ node_is_closed k (fst x) = true) rel).*2).
Definition confirmed (k : list node) (n : string) (rs : list (nat * bytes * bool)) : bytes :=
  concat ((λ r, snd (fst r)) <$> filter (λ r, node_journal k (fst (fst r)) = n ∧ snd r = true) rs).

(** What held when an Append RPC was made. *)
Definition rpc_ok (k : list node) (rel : list (nat * bytes)) (i : nat) (b : bytes) : Prop :=
  ∃ a j, k !! i = Some a ∧ n_next a = Some (AA j) ∧ b = entries i rel ∧ Forall (is_closed k) (n_deps a) ∧
    ∀ i' a', k !! i' = Some a' → n_journal a' = n_journal a → i' < i → n_closed a' = true.

Record logged (k : list node) (rel : list (nat * bytes)) (rs : list (nat * bytes * bool)) (canc : bool) : Prop := mkLogged {
  l_ids i b : (i, b) ∈ rel → is_Some (k !! i);
  l_sorted n : StronglySorted le ((filter (λ x, node_journal k (fst x) = n) rel).*1);
  l_rpc i b ok : (i, b, ok) ∈ rs → rpc_ok k rel i b;
  l_confirmed n : canc = false → confirmed k n rs = completed k n rel;
}.

Lemma filter_agree {A} (P Q : A → Prop) `{∀ x, Decision (P x), ∀ x, Decision (Q x)} (l : list A) :
  (∀ x, x ∈ l → P x ↔ Q x) → filter P l = filter Q l.
Proof.
  induction l as [|x l IH]; intros HPQ; [done|]. rewrite !filter_cons, IH by set_solver.
  specialize (HPQ x ltac:(set_solver)). repeat case_decide; tauto.
Qed.

Lemma rpc_ok_evolves k k' rel i b : evolves k k' → rpc_ok k rel i b → rpc_ok k' rel i b.
Proof.
  intros He (a & j & Hia & Hn & Hb & Hd & Hf).
  destruct (He i a Hia) as (a' & Hia' & Hj' & _ & Hd' & _ & Hn'). exists a', j. rewrite Hd'. split_and!; [done|auto|done| |].
  - eapply Forall_impl; [exact Hd|]. intros d (c & Hdc & Hcc). destruct (He d c Hdc) as (c' & ? & _ & _ & _ & ? & _). exists c'. auto.
  - intros i' c' Hc' Hjc Hlt. destruct (lookup_lt_is_Some_2 k i') as [c Hcc]; [apply lookup_lt_Some in Hia; lia|].
    destruct (He i' c Hcc) as (c'' & ? & ? & _ & _ & Hclo & _). assert (c'' = c') as -> by congruence.
    apply Hclo, (Hf i' c); [done|congruence|done].
Qed.

(** Nothing new is closed. *)
Lemma logged_evolves k k' rel rs canc :
  evolves k k' → (∀ i, is_Some (k !! i) → node_is_closed k' i = node_is_closed k i) → logged k rel rs canc →
  logged k' rel rs canc.
Proof.
  intros He Hc [Hi Hs Hr Ha]. split.
  - intros i b Hin. destruct (Hi i b Hin) as [a Hia]. destruct (He i a Hia) as (a' & ? & _). eauto.
  - intros n. rewrite (filter_agree _ (λ x, node_journal k (fst x) = n)); [done|].
    intros [i b] Hin. cbn. by rewrite (evolves_journal k k' i He) by eauto.
  - intros i b ok Hin. eapply rpc_ok_evolves; [done|by eapply Hr].
  - intros n Hcanc. specialize (Ha n Hcanc). etrans; [|etrans; [exact Ha|]].
    + unfold confirmed. do 2 f_equal. apply filter_agree. intros [[i b] ok] Hin. cbn.
      destruct (Hr i b ok Hin) as (a & _ & Hia & _). by rewrite (evolves_journal k k' i He) by eauto.
    + unfold completed. do 2 f_equal. apply filter_agree. intros [i b] Hin. cbn.
      by rewrite (evolves_journal k k' i He), Hc by eauto.
Qed.

(** A client releases the last append of a journal. *)
Lemma logged_release k m rel rs canc i a b :
  chains k m → logged k rel rs canc → k !! i = Some a → n_next a = None → logged k (rel ++ [(i, b)]) rs canc.
Proof.
  intros Hk [Hi Hs Hr Ha] Hia Hn.
  assert (node_is_closed k i = false) as Hopen by (unfold node_is_closed; rewrite Hia; cbn; by eapply c_live). split.
  - intros j c [Hin|[= -> ->]%list_elem_of_singleton]%elem_of_app; eauto.
  - intros n. rewrite filter_app, fmap_app, filter_cons. cbn [fst filter]. case_decide as Hj; [|cbn; by rewrite app_nil_r].
    apply ssorted_app. split_and!; [done|cbn; repeat constructor|].
    intros x y [[x' c] [-> [Hx Hin]%list_elem_of_filter]]%list_elem_of_fmap ->%list_elem_of_singleton. cbn [fst] in *.
    destruct (Hi x' c Hin) as [a' Ha']. unfold node_journal in *. rewrite Ha', Hia in *. cbn in *.
    eapply (c_last_max k m Hk i x' a a'); [done..|congruence].
  - intros j c ok Hin. destruct (Hr j c ok Hin) as (a' & j' & Hj & Hn' & -> & Hd & Hf). exists a', j'. split_and!; try done.
    rewrite entries_snoc. case_decide; [subst; congruence|by rewrite app_nil_r].
  - intros n Hcanc. rewrite (Ha n Hcanc). unfold completed. rewrite filter_app, fmap_app, concat_app, filter_cons. cbn [fst].
    rewrite decide_False by (intros [_ ?]; congruence). cbn. by rewrite app_nil_r.
Qed.

(** An attempt that is not confirmed. *)
Lemma logged_attempt k rel rs canc i b : logged k rel rs canc → rpc_ok k rel i b → logged k rel (rs ++ [(i, b, false)]) canc.
Proof.
  intros [Hi Hs Hr Ha] Hb. split; [done..| |].
  - intros j c ok [Hin|[= -> -> ->]%list_elem_of_singleton]%elem_of_app; [by eapply Hr|done].
  - intros n Hcanc. rewrite <- (Ha n Hcanc). unfold confirmed. rewrite filter_app, filter_cons. cbn.
    rewrite decide_False by naive_solver. by rewrite app_nil_r.
Qed.

Lemma filter_le_split (l : list (nat * bytes)) i :
  StronglySorted le (l.*1) →
  filter (λ x, fst x ≤ i) l = filter (λ x, fst x < i) l ++ filter (λ x, fst x = i) l.
Proof.
  induction l as [|[j b] l IH]; [done|]. rewrite fmap_cons. intros [Hs Hj]%StronglySorted_inv. cbn [fst] in Hj.
  rewrite !filter_cons. cbn [fst]. rewrite IH by done. destruct (decide (j < i)) as [Hlt|Hge].
  - rewrite decide_True, decide_False by lia. done.
  - rewrite Forall_forall in Hj. assert (filter (λ x, fst x < i) l = []) as ->.
    { apply elem_of_nil_inv. intros x [Hx Hin]%list_elem_of_filter. specialize (Hj (fst x)). cbn in Hx.
      assert (j ≤ fst x) by (apply Hj, list_elem_of_fmap; eauto). lia. }
    destruct (decide (j = i)); [by rewrite decide_True by lia|]. rewrite decide_False by lia. done.
Qed.

(** What is completed when the first open append of a journal is closed. *)
Lemma completed_close k m rel rs canc i a a' n :
  chains k m → logged k rel rs canc → first_open k i a → n_journal a' = n_journal a → n_closed a' = true →
  completed (<[i := a']> k) n rel = completed k n rel ++ (if decide (node_journal k i = n) then entries i rel else []).
Proof.
  intros Hk [Hi Hs _ _] (Ha & Ho & Hf) Hj Hc. pose proof (lookup_lt_Some _ _ _ Ha) as Hlt.
  assert (∀ j, node_journal (<[i := a']> k) j = node_journal k j) as Hjour.
  { intros j. unfold node_journal. destruct (decide (i = j)) as [<-|]; [|by rewrite list_lookup_insert_ne].
    by rewrite list_lookup_insert_eq, Ha. }
  assert (∀ j, j ≠ i → node_is_closed (<[i := a']> k) j = node_is_closed k j) as Hcl.
  { intros j ?. unfold node_is_closed. by rewrite list_lookup_insert_ne. }
  unfold completed, entries. destruct (decide (node_journal k i = n)) as [<-|Hne].
  - set (P := λ x : nat * bytes, node_journal k (fst x) = node_journal k i).
    assert (∀ x, x ∈ rel → P x → (fst x < i ↔ node_is_closed k (fst x) = true)) as Hbelow.
    { intros [j b] Hin HP. unfold P, node_is_closed, node_journal in *. cbn [fst] in *. destruct (Hi j b Hin) as [c Hjc].
      rewrite Hjc, Ha in *. cbn in *. split; [intros; by eapply Hf|]. intros Hcc.
      destruct (decide (j < i)); [done|]. destruct (decide (j = i)) as [-> |]; [congruence|].
      rewrite (c_closed _ _ Hk i j a c) in Ho; [done..|lia|by right]. }
    rewrite (filter_agree _ (λ x, fst x ≤ i ∧ P x)).
    + rewrite <- list_filter_filter, filter_le_split by apply Hs. rewrite fmap_app, concat_app. f_equal.
      * do 2 f_equal. rewrite list_filter_filter. apply filter_agree. intros x Hin. specialize (Hbelow x Hin). unfold P in *. tauto.
      * do 2 f_equal. rewrite list_filter_filter. apply filter_agree. intros x Hin. unfold P. split; [by intros [? _]|intros ->; done].
    + intros x Hin. rewrite Hjour. fold (P x). specialize (Hbelow x Hin). destruct (decide (fst x = i)) as [Heq|Hne].
      * rewrite Heq. unfold node_is_closed. rewrite list_lookup_insert_eq by done. cbn. split; [intros [? _]; split; [lia|done]|by intros [_ ?]].
      * rewrite Hcl by done. split; [intros [HP Hcx]; apply Hbelow in Hcx; [split; [lia|done]|done]|].
        intros [? HP]. split; [done|]. apply Hbelow; [done|lia].
  - rewrite app_nil_r. do 2 f_equal. apply filter_agree. intros x Hin. rewrite Hjour.
    destruct (decide (fst x = i)) as [Heq|Hne']; [rewrite Heq; tauto|]. by rewrite Hcl.
Qed.

(** ** The invariant *)

Record Inv (s : sys) : Prop := mkInv {
  v_chains : chains (skeleton (heap s)) (appends s);
  v_sched : scheduled (skeleton (heap s)) (threads s) (locked s);
  v_cont : contents (heap s) (threads s) (released s) (cancelled s);
  v_log : logged (skeleton (heap s)) (released s) (rpcs s) (cancelled s);
  v_pool : Forall (λ f, flushed f ∧ content f = []) (pool s);
}.

(** A step that does not panic, and keeps the invariant. *)
Definition safe (o : outcome (option sys)) : Prop :=
  match o with Ret (Some s) => Inv s | Ret None => True | Panic _ => False end.

Lemma skeleton_lookup h i a : h !! i = Some a → skeleton h !! i = Some (skel a).
Proof. intros Ha. unfold skeleton. by rewrite list_lookup_fmap, Ha. Qed.

Lemma skeleton_inv h i n : skeleton h !! i = Some n → ∃ a, h !! i = Some a ∧ n = skel a.
Proof. intros (a & ? & ?)%list_lookup_fmap_Some. eauto. Qed.

Lemma skeleton_alter (P : AsyncAppend → AsyncAppend) i h a :
  h !! i = Some a → skeleton (alter P i h) = <[i := skel (P a)]> (skeleton h).
Proof.
  intros Ha. unfold skeleton. rewrite <- list_fmap_insert. f_equal. apply list_eq. intros j.
  destruct (decide (i = j)) as [<-|].
  - rewrite list_lookup_alter_eq, Ha, list_lookup_insert_eq by (by eapply lookup_lt_Some). done.
  - by rewrite list_lookup_alter_ne, list_lookup_insert_ne.
Qed.

Lemma skeleton_same (P : AsyncAppend → AsyncAppend) i h : (∀ a, h !! i = Some a → skel (P a) = skel a) → skeleton (alter P i h) = skeleton h.
Proof.
  intros HP. destruct (h !! i) as [a|] eqn:Ha.
  - rewrite (skeleton_alter P i h a Ha), HP by done. by rewrite list_insert_id by (by apply skeleton_lookup).
  - f_equal. apply list_eq. intros j. destruct (decide (i = j)) as [<-|]; [by rewrite list_lookup_alter_eq, Ha|by rewrite list_lookup_alter_ne].
Qed.

Lemma skeleton_length h : length (skeleton h) = length h.
Proof. apply length_fmap. Qed.

Lemma about_exists k L th i : thread_ok k L th → about th = Some i → is_Some (k !! i).
Proof.
  intros [_ Hh Hd _ _ _] Ha. destruct th; try done; injection Ha as <-.
  - destruct (Hh _ eq_refl) as (? & ? & _). eauto.
  - destruct (Hh _ eq_refl) as (? & ? & _). eauto.
  - destruct (Hd _ _ eq_refl) as (? & ? & ? & ? & _). eauto.
Qed.

(** Looks through the changes of a state. *)
Ltac sys_cbn := cbn [heap appends locked pool threads cancelled rpcs released with_heap with_appends with_locked with_pool
  with_threads with_rpc with_released set_thread go_thread Lock Unlock update].

Section steps.
Context (s : sys) (Hs : Inv s).

Let k := skeleton (heap s).

Lemma thread_safe t th : threads s !! t = Some th → thread_ok k (locked s) th.
Proof. apply (t_ok _ _ _ (v_sched s Hs)). Qed.

Lemma new_unreleased b : (length (heap s), b) ∉ released s.
Proof.
  intros Hin. destruct (l_ids _ _ _ _ (v_log s Hs) _ _ Hin) as [a Ha]. apply lookup_lt_Some in Ha. rewrite skeleton_length in Ha. lia.
Qed.

Lemma new_unknown th : th ∈ threads s → about th ≠ Some (length (heap s)).
Proof.
  intros [t Ht]%list_elem_of_lookup Ha. destruct (about_exists _ _ _ _ (thread_safe t th Ht) Ha) as [a Hl].
  apply lookup_lt_Some in Hl. unfold k in Hl. rewrite skeleton_length in Hl. lia.
Qed.

Lemma evolves_new x : evolves k (k ++ [x]).
Proof. apply evolves_app. intros i a Ha. by exists a. Qed.

Lemma closed_app x i : is_Some (k !! i) → node_is_closed (k ++ [x]) i = node_is_closed k i.
Proof. intros [a Ha]. unfold node_is_closed. rewrite Ha. by rewrite (lookup_app_l_Some _ [x] _ _ Ha). Qed.

Lemma lookup_append_inv t name deps :
  threads s !! t = Some (Looking name deps) → Inv (lookup_append t name deps s).
Proof.
  intros Ht. pose proof (thread_safe _ _ Ht) as Hok. destruct Hs as [Hc Hsc Hco Hl Hp]. unfold lookup_append.
  destruct (appends s !! name) as [i|] eqn:Hi.
  - split; sys_cbn; [done| |by eapply contents_thread|done..].
    apply (scheduled_set _ _ _ t (Looking name deps)); [done..| |done|by left].
    destruct Hok as [_ _ _ _ Hr Ho]. split; try done. intros ? ? ? ? [= <- <- <- <-].
    apply (c_last _ _ Hc) in Hi as (a & ? & ? & _). eauto.
  - pose proof (evolves_new (mkNode name (default [] deps) false (length k) None)) as He.
    pose proof (closed_app (mkNode name (default [] deps) false (length k) None)) as Hcl.
    assert (skeleton (heap s ++ [new_append name deps (length (heap s))]) = k ++ [mkNode name (default [] deps) false (length k) None]) as Hk.
    { unfold k, skeleton. rewrite fmap_app, length_fmap. done. }
    split; sys_cbn; rewrite ?Hk.
    + rewrite <- (skeleton_length (heap s)). apply chains_start; [done..|]. by destruct Hok as [_ _ _ _ Hr _].
    + rewrite <- (skeleton_length (heap s)). by apply (scheduled_start _ (appends s)).
    + eapply contents_thread; [|done..]. apply contents_new; [done|apply new_unreleased|apply new_unknown].
    + by apply (logged_evolves k).
    + done.
Qed.

(** Another append is chained after [a]. *)
Lemma chain_inv j a deps :
  heap s !! j = Some a → next a = None → mu a ∉ locked s → Forall (λ d, d < length (heap s)) (default [] deps) →
  ∃ s', chainNewAppend j a deps s = Ret (s', length (heap s)) ∧ Inv s' ∧
    heap s' !! length (heap s) = Some (new_append (journal a) deps (mu a)) ∧
    heap s' !! j = Some (with_next (AA (length (heap s))) a) ∧
    threads s' = threads s ∧ locked s' = locked s ∧ cancelled s' = cancelled s.
Proof.
  intros Ha Hn HL Hd. unfold chainNewAppend. rewrite Hn. eexists. split; [done|].
  pose proof (lookup_lt_Some _ _ _ Ha) as Hlt. pose proof (skeleton_lookup _ _ _ Ha) as Hka.
  assert (length (alter (with_next (AA (length (heap s)))) j (heap s)) = length (heap s)) as Hlen by apply length_alter.
  split; [|sys_cbn; split_and!; [|rewrite lookup_app_l, list_lookup_alter_eq, Ha by lia; done|done..]].
  2: { rewrite lookup_app_r by lia. by rewrite Hlen, Nat.sub_diag. }
  destruct Hs as [Hc Hsc Hco Hl Hp].
  set (k' := <[j := node_next (AA (length k)) (skel a)]> k ++ [mkNode (journal a) (default [] deps) false (mu a) None]).
  assert (skeleton (alter (with_next (AA (length (heap s)))) j (heap s) ++ [new_append (journal a) deps (mu a)]) = k') as Hk.
  { unfold k'. rewrite <- (skeleton_length (heap s)) at 1. unfold skeleton at 1. rewrite fmap_app.
    f_equal. fold (skeleton (alter (with_next (AA (length (skeleton (heap s))))) j (heap s))). by rewrite (skeleton_alter _ j _ a Ha). }
  rewrite <- (skeleton_length (heap s)) in Hd.
  split; sys_cbn; rewrite ?Hk.
  - rewrite <- (skeleton_length (heap s)). by apply (chains_chain _ _ Hc j (skel a)).
  - by apply (scheduled_chain _ (appends s) _ _ Hc Hsc j (skel a)).
  - apply contents_new.
    + apply contents_update; [done|]. by intros b Hb Hok.
    + intros b. rewrite Hlen. apply new_unreleased.
    + intros th Hth. rewrite Hlen. by apply new_unknown.
  - apply (logged_evolves k); [| |done].
    + apply evolves_app, (evolves_insert k j (skel a)); try done. cbn. intros n ?. congruence.
    + intros i Hi. unfold k'. rewrite <- (length_insert k j (node_next (AA (length k)) (skel a))) in *.
      unfold node_is_closed. rewrite lookup_app_l by (rewrite length_insert; by apply lookup_lt_is_Some_1).
      destruct (decide (i = j)) as [-> |]; [|by rewrite list_lookup_insert_ne].
      unfold k. rewrite list_lookup_insert_eq by (by eapply lookup_lt_Some). by rewrite Hka.
  - done.
Qed.

Lemma not_held j a : heap s !! j = Some a → mu a ∉ locked s → ¬ held (threads s) j.
Proof.
  intros Ha HL (th & [t Ht]%list_elem_of_lookup & Hh). destruct (o_holder _ _ _ (thread_safe t th Ht) j Hh) as (b & Hb & _ & ?).
  apply skeleton_lookup in Ha. unfold k in Hb. rewrite Ha in Hb. by injection Hb as <-.
Qed.

Lemma not_sending j a : heap s !! j = Some a → next a = None → Sending j ∉ threads s.
Proof.
  intros Ha Hn [t Ht]%list_elem_of_lookup. destruct (o_dispatched _ _ _ (thread_safe t _ Ht) j [] eq_refl) as (b & ? & ? & Hb & ? & _).
  apply skeleton_lookup in Ha. unfold k in Hb. rewrite Ha in Hb. injection Hb as <-. cbn in *. congruence.
Qed.

Lemma last_open j a : heap s !! j = Some a → next a = None → closed a = false.
Proof. intros Ha Hn. apply (c_live _ _ (v_chains s Hs) j (skel a)); [by apply skeleton_lookup|done]. Qed.

(** [StartAppend] returns the last append of the chain. *)
Lemma hold_inv t th j a f :
  threads s !! t = Some th → position th = None → about th = None →
  heap s !! j = Some a → next a = None → mu a ∉ locked s → fb a = Some f →
  Inv (set_thread t (Holding j []) (Lock (mu a) s)).
Proof.
  intros Ht Hpos Hab Ha Hn HL Hf. pose proof (not_held j a Ha HL) as Hheld. pose proof (not_sending j a Ha Hn) as Hsend.
  pose proof (last_open j a Ha Hn) as Hopen. destruct Hs as [Hc Hsc Hco Hl Hp].
  split; sys_cbn; [done| | |done..].
  - by apply (scheduled_hold _ _ _ t th j (skel a)); [| | |apply skeleton_lookup|..].
  - apply (contents_step (heap s) _ _ (released s) _ _ t th _ j); [done..|by rewrite Hab|by intros ? [= ->]|done|].
    intros a' Ha'. assert (a' = a) as -> by congruence. specialize (Hco j a Ha). unfold content_ok in *. rewrite Hopen, Hf in *.
    destruct Hco as (Hok & Hcp & Hen & Hn' & _). destruct (Hn' Hheld) as (Hcl & Hlen & Herr). split_and!; [done..| | | |].
    + intros []. exists (Holding j []). split; [by eapply elem_of_set_new|done].
    + intros ws [[= ->]|Hin]%elem_of_set_inv _; [|destruct Hheld; by exists (Holding j ws)].
      by rewrite <- Hen, Hlen, firstn_all, app_nil_r.
    + done.
    + by intros [?|?]%elem_of_set_inv.
Qed.

(** It is given a buffer. *)
Lemma get_inv g j a s' f :
  heap s !! j = Some a → fb a = None → pool_Get g s = Some (s', f) →
  Inv (update j (with_fb f) s') ∧ heap s' = heap s ∧ threads s' = threads s ∧ locked s' = locked s.
Proof.
  intros Ha Hf Hg.
  assert (flushed f ∧ content f = [] ∧ s' = with_pool (pool s') s ∧ Forall (λ f, flushed f ∧ content f = []) (pool s')) as (Hfl & Hcf & -> & Hp').
  { destruct Hs as [_ _ _ _ Hp]. destruct g as [n|faults]; cbn in Hg.
    - destruct (pool s !! n) as [f'|] eqn:Hn; [|done]. injection Hg as <- <-. rewrite Forall_forall in Hp.
      destruct (Hp f') as [? ?]; [by eapply list_elem_of_lookup_2|]. split_and!; [done..|]. cbn.
      apply Forall_forall. intros x Hx%list_elem_of_delete_inv. by apply Hp.
    - injection Hg as <- <-. destruct (newAppendBuffer_ok faults) as (? & ? & ?). split_and!; try done. by destruct s. }
  destruct Hs as [Hc Hsc Hco Hl Hp]. split; [|done].
  split; sys_cbn; rewrite ?skeleton_same by done; [done..| |done|done].
  apply contents_update; [done|]. intros b Hb. assert (b = a) as -> by congruence. unfold content_ok. cbn [closed fb with_fb].
  destruct (closed a); [done|]. rewrite Hf. cbn [checkpoint aerr with_fb]. intros (-> & -> & Herr & Hab). rewrite Hcf.
  destruct Hfl as (? & ? & ?). split_and!; try done. intros ws Hin. by destruct (Hab _ Hin).
Qed.

End steps.

Lemma pool_Get_Lock g m s : pool_Get g (Lock m s) = (λ x, (Lock m (fst x), snd x)) <$> pool_Get g s.
Proof. destruct g as [n|faults]; [|done]. cbn. by destruct (pool s !! n). Qed.

Section acquire.
Context (s : sys) (Hs : Inv s).

Let k := skeleton (heap s).

(** [current_append] does not look at the mutexes. *)
Lemma current_append_Lock j a deps m :
  current_append j a deps (Lock m s) = let! (s', j') := current_append j a deps s in Ret (Lock m s', j').
Proof.
  unfold current_append. sys_cbn. destruct (if (_ <? _)%Z then _ else _) as [[]|]; [done| |done]. cbn [outcome_bind].
  unfold chainNewAppend. by destruct (next a).
Qed.

Lemma current_inv j a deps :
  heap s !! j = Some a → next a = None → mu a ∉ locked s →
  Forall (λ d, d < length k) (default [] deps) → ordered (heap s) (default [] deps) →
  ∃ s' j' a', current_append j a deps s = Ret (s', j') ∧ Inv s' ∧ heap s' !! j' = Some a' ∧ next a' = None ∧
    mu a' = mu a ∧ threads s' = threads s ∧ locked s' = locked s.
Proof.
  intros Ha Hn HL Hd Ho. unfold current_append. unfold k in Hd. rewrite skeleton_length in Hd.
  destruct (chain_inv s Hs j a deps Ha Hn HL Hd) as (s' & Hch & Hi & Hnew & _ & ? & ? & _).
  assert (∀ subset : bool, ∃ s' j' a', (if subset then Ret (s, j) else chainNewAppend j a deps s) = Ret (s', j') ∧ Inv s' ∧
    heap s' !! j' = Some a' ∧ next a' = None ∧ mu a' = mu a ∧ threads s' = threads s ∧ locked s' = locked s) as Hboth.
  { intros []; [by exists s, j, a|]. exists s', (length (heap s)), (new_append (journal a) deps (mu a)). done. }
  destruct (_ <? _)%Z; [exact (Hboth false)|].
  destruct (isSubset_spec (heap s) (default [] deps) (default [] (dependencies a)) Ho) as (r & -> & _). apply Hboth.
Qed.

Lemma acquire_inv t name deps i g :
  threads s !! t = Some (Locking name deps i true) → safe (acquire t name deps i true g s).
Proof.
  intros Ht. pose proof (thread_safe s Hs _ _ Ht) as Hok. unfold acquire, lockable.
  destruct (heap s !! i) as [a|] eqn:Ha; [|done]. destruct (decide (mu a ∈ locked s)) as [|HL]; [done|].
  sys_cbn. pose proof (follow_spec k (appends s) (v_chains s Hs) (heap s) (length (heap s)) i (skel a) eq_refl) as Hfol.
  specialize (Hfol (skeleton_lookup _ _ _ Ha)). unfold k in Hfol at 1. rewrite skeleton_length in Hfol. specialize (Hfol ltac:(lia)).
  destruct (follow _ (heap s) i) as [j|].
  - destruct Hfol as (b & Hb & Hmu & Hn). apply skeleton_inv in Hb as (aj & Hj & ->). rewrite Hj. cbn in Hmu, Hn.
    destruct Hok as [_ _ _ _ Hr Ho]. cbn in Hr, Ho.
    assert (ordered (heap s) (default [] deps)) as Hord.
    { unfold ordered. erewrite list_fmap_ext; [exact Ho|]. intros n d _. cbn. unfold journal_of, node_journal, k, skeleton.
      rewrite list_lookup_fmap. by destruct (heap s !! d). }
    destruct (current_inv j aj deps Hj Hn ltac:(by rewrite Hmu) Hr Hord) as (s' & j' & a' & Hcur & Hi & Hj' & Hn' & Hmu' & Hth & Hlo).
    rewrite current_append_Lock, Hcur. cbn [outcome_bind]. sys_cbn. rewrite Hj'. cbn [mbind option_bind].
    assert (mu a = mu a') as -> by congruence.
    destruct (fb a') as [f|] eqn:Hf.
    + eapply (hold_inv s' Hi); [by rewrite Hth|done|done|done|done|by rewrite Hlo, Hmu', Hmu|done].
    + rewrite pool_Get_Lock. destruct (pool_Get g s') as [[s0 f]|] eqn:Hg; [|done]. cbn [fmap option_fmap option_map fst snd safe].
      destruct (get_inv s' Hi g j' a' s0 f Hj' Hf Hg) as (Hi0 & Hh0 & Ht0 & Hl0).
      eapply (hold_inv (update j' (with_fb f) s0) Hi0 t _ j' (with_fb f a')); sys_cbn; cbn [next mu fb with_fb];
        [by rewrite Ht0, Hth|done|done| |done|by rewrite Hl0, Hlo, Hmu', Hmu|done].
      by rewrite Hh0, list_lookup_alter_eq, Hj'.
  - destruct Hok as [Hp _ _ _ Hr Ho]. destruct Hs as [Hc Hsc Hco Hl Hpool]. split; sys_cbn; [done| |by eapply contents_thread|done..].
    eapply scheduled_set; [by eapply scheduled_lock; [|exact Hsc]; set_solver|exact Ht| |done|by left].
    by split.
Qed.

(** The client that made a chain starts its loop, and then goes on. *)
Lemma spawn_inv t name deps i :
  threads s !! t = Some (Locking name deps i false) →
  Inv (go_thread (Serving i) (set_thread t (Locking name deps i true) s)).
Proof.
  intros Ht. destruct Hs as [Hc Hsc Hco Hl Hp]. split; sys_cbn; [done|by apply scheduled_spawn| |done..].
  apply contents_go; [|done]. by eapply contents_thread.
Qed.
End acquire.

Lemma current_append_threads j a deps ts s :
  current_append j a deps (with_threads ts s) = let! (s', j') := current_append j a deps s in Ret (with_threads ts s', j').
Proof.
  unfold current_append. sys_cbn. destruct (if (_ <? _)%Z then _ else _) as [[]|]; [done| |done]. cbn [outcome_bind].
  unfold chainNewAppend. by destruct (next a).
Qed.

Lemma pool_Get_threads g ts s : pool_Get g (with_threads ts s) = (λ x, (with_threads ts (fst x), snd x)) <$> pool_Get g s.
Proof. destruct g as [n|faults]; [|done]. cbn. by destruct (pool s !! n). Qed.

Lemma acquire_spawn t name deps i g s :
  t < length (threads s) → acquire t name deps i false g s =
    acquire t name deps i true g (go_thread (Serving i) (set_thread t (Locking name deps i true) s)).
Proof.
  intros Ht. unfold acquire, lockable. sys_cbn. destruct (heap s !! i) as [a|]; [|done].
  destruct (decide _); [done|].
  set (X := threads s ++ [Serving i]). set (Y := <[t := Locking name deps i true]> (threads s) ++ [Serving i]).
  assert (∀ th, <[t := th]> X = <[t := th]> Y) as Hins.
  { intros th. unfold X, Y. rewrite !insert_app_l by (rewrite ?length_insert; done). by rewrite list_insert_insert_eq. }
  change (go_thread (Serving i) (Lock (mu a) s)) with (with_threads X (Lock (mu a) s)).
  change (Lock (mu a) (go_thread (Serving i) (set_thread t (Locking name deps i true) s))) with (with_threads Y (Lock (mu a) s)).
  sys_cbn. destruct (follow _ (heap s) i) as [j|]; [|unfold set_thread; sys_cbn; by rewrite Hins].
  destruct (heap s !! j) as [aj|]; [|done]. rewrite !current_append_threads.
  destruct (current_append j aj deps (Lock (mu a) s)) as [[s' j']|]; [|done]. cbn [outcome_bind]. sys_cbn.
  destruct (heap s' !! j' ≫= fb); [unfold set_thread; sys_cbn; by rewrite Hins|].
  rewrite !pool_Get_threads. destruct (pool_Get g s') as [[s0 f]|]; [|done]. cbn [fmap option_fmap option_map fst snd].
  unfold set_thread, update. sys_cbn. by rewrite Hins.
Qed.

Lemma acquire_safe s t name deps i ok g :
  Inv s → threads s !! t = Some (Locking name deps i ok) → safe (acquire t name deps i ok g s).
Proof.
  intros Hs Ht. destruct ok; [by apply acquire_inv|].
  pose proof (lookup_lt_Some _ _ _ Ht) as Hlt. rewrite acquire_spawn by done. apply acquire_inv; [by apply spawn_inv|].
  sys_cbn. rewrite lookup_app_l by (by rewrite length_insert). by rewrite list_lookup_insert_eq.
Qed.

Section client.
Context (s : sys) (Hs : Inv s) (t i : nat) (th : thread) (Ht : threads s !! t = Some th) (Hi : holder th = Some i).

(** What a client that has [i] knows. *)
Lemma holding : ∃ a f, heap s !! i = Some a ∧ next a = None ∧ closed a = false ∧ fb a = Some f ∧ mu a ∈ locked s ∧
  content_ok (threads s) (released s) (cancelled s) i a.
Proof.
  destruct (o_holder _ _ _ (thread_safe s Hs t th Ht) i Hi) as (n & Hn & Hnx & HL). apply skeleton_inv in Hn as (a & Ha & ->).
  pose proof (last_open s Hs i a Ha Hnx) as Ho. pose proof (v_cont s Hs i a Ha) as Hc.
  destruct (fb a) as [f|] eqn:Hf; [by exists a, f|]. exfalso. unfold content_ok in Hc. rewrite Ho, Hf in Hc.
  destruct Hc as (_ & _ & _ & Hab). apply (Hab th); [by eapply list_elem_of_lookup_2|]. by destruct th.
Qed.

Lemma holding_alone th' x : x ∈ <[t := th']> (threads s) → holder x = Some i → x = th'.
Proof.
  intros [u [(_ & <- & _)|[Hne Hu]]%list_lookup_insert_Some]%list_elem_of_lookup Hx; [done|]. destruct Hne.
  destruct (o_holder _ _ _ (thread_safe s Hs t th Ht) i Hi) as (n & Hn & _).
  symmetry. by eapply (t_client _ _ _ (v_sched s Hs) u t x th i i n n).
Qed.

Lemma holding_not_sending th' : th' ≠ Sending i → Sending i ∉ <[t := th']> (threads s).
Proof.
  intros Hne [?|Hin]%elem_of_set_inv; [done|]. destruct holding as (a & f & Ha & Hn & _). by apply (not_sending s Hs i a) in Hin.
Qed.

Lemma holding_set th' : holder th' = Some i → th' ≠ Done → held (<[t := th']> (threads s)) i.
Proof. intros Hh _. exists th'. split; [by eapply elem_of_set_new|done]. Qed.
End client.

Lemma client_write_inv s t i ws p :
  Inv s → threads s !! t = Some (Holding i ws) → safe (Ret (client_write t i ws p s)).
Proof.
  intros Hs Ht. destruct (holding s Hs t i _ Ht eq_refl) as (a & f & Ha & Hn & Ho & Hf & HL & Hco).
  unfold client_write. rewrite Ha. cbn [mbind option_bind]. rewrite Hf. cbn [safe].
  destruct (write f p) as [[f' n] err] eqn:Hw. cbn [fst].
  unfold content_ok in Hco. rewrite Ho, Hf in Hco. destruct Hco as (Hok & Hcp & Hen & _ & Hws & _).
  destruct (write_spec f p f' n err Hok Hw) as (Hok' & He & Hc & Hnp).
  pose proof (holding_alone s Hs t i _ Ht eq_refl (Holding i (ws ++ [p]))) as Halone.
  pose proof (holding_not_sending s Hs t i _ Ht eq_refl (Holding i (ws ++ [p])) ltac:(done)) as Hsend.
  pose proof (holding_set s t i _ Ht (Holding i (ws ++ [p])) eq_refl ltac:(done)) as Hheld.
  pose proof (thread_safe s Hs _ _ Ht) as Hth. destruct Hs as [Hch Hsc Hcont Hl Hp].
  split; sys_cbn; rewrite ?skeleton_same by done; [done| | |done..].
  - apply (scheduled_set _ _ _ t (Holding i ws)); [done..| |done|by right]. destruct Hth. by split.
  - eapply (contents_step (heap s) _ _ (released s) _ _ t _ _ i); [done..|by intros ? [= ->]|by intros ? [= ->]|intros; by apply list_lookup_alter_ne|].
    intros a'. rewrite list_lookup_alter_eq, Ha. intros [= <-]. unfold content_ok. cbn [closed fb with_fb checkpoint aerr]. rewrite Ho.
    split_and!; [done|rewrite Hc, length_app; lia|by rewrite Hc, take_app_le|done| | |done].
    + intros ws' Hin Hcl. apply Halone in Hin; [|done]. injection Hin as ->. unfold clean in *.
      rewrite concat_app. cbn [concat]. rewrite app_nil_r, app_assoc, <- (Hws ws).
      * rewrite Hc, Hnp, firstn_all by congruence. done.
      * by eapply list_elem_of_lookup_2.
      * destruct (b_err (fb_buf f)) as [e|] eqn:Hb; [|done]. rewrite (write_sticky f p e Hb) in Hw. congruence.
    + intros Hin. by apply Halone in Hin.
Qed.

Lemma reject_inv s t i ws err :
  Inv s → threads s !! t = Some (Holding i ws) → Inv (update i (Require (Some err)) s).
Proof.
  intros Hs Ht. pose proof (holding_alone s Hs t i _ Ht eq_refl (Holding i ws)) as Halone. rewrite list_insert_id in Halone by done.
  assert (∀ a, skel (Require (Some err) a) = skel a) as Hsk by (intros a; unfold Require; by destruct (aerr a)).
  destruct (holding s Hs t i _ Ht eq_refl) as (a & f & Ha & Hn & Ho & Hf & HL & _).
  assert (held (threads s) i) as Hheld by (exists (Holding i ws); split; [by eapply list_elem_of_lookup_2|done]).
  destruct Hs as [Hch Hsc Hcont Hl Hp]. split; sys_cbn; rewrite ?skeleton_same by (intros; apply Hsk); try done.
  apply contents_update; [done|]. intros b Hb. assert (b = a) as -> by congruence. unfold Require.
  destruct (aerr a); [done|]. unfold content_ok. cbn [closed fb checkpoint aerr with_err]. rewrite Ho, Hf.
  intros (? & ? & ? & ? & ? & ? & ?). split_and!; try done. intros Hin. by apply Halone in Hin.
Qed.

(** The bytes of a buffer, as Release counts them. *)
Lemma content_length f : fb_ok f → length (content f) = fb_offset f + Buffered (fb_buf f).
Proof.
  intros [[_ Ho] Hb]. cbn [fst snd] in Ho. unfold content, buffered_content. rewrite length_app, length_pending by done.
  cbn [sink_content fb_sink]. unfold file_content. cbn [fst snd]. rewrite length_take. unfold Buffered. lia.
Qed.

Lemma release_inv s t i ws :
  Inv s → threads s !! t = Some (Holding i ws) → ∃ s' err, Release t i ws s = Some (s', err) ∧ Inv s'.
Proof.
  intros Hs Ht. destruct (holding s Hs t i _ Ht eq_refl) as (a & f & Ha & Hn & Ho & Hf & HL & Hco).
  pose proof (holding_alone s Hs t i _ Ht eq_refl) as Halone.
  pose proof (holding_not_sending s Hs t i _ Ht eq_refl) as Hsend.
  unfold Release. rewrite Ha, Hf. destruct (write f []) as [[f1 n] err] eqn:Hw.
  unfold content_ok in Hco. rewrite Ho, Hf in Hco. destruct Hco as (Hok & Hcp & Hen & _ & Hws & _).
  destruct (write_spec f [] f1 n err Hok Hw) as (Hok1 & He & Hc & _). rewrite take_nil, app_nil_r in Hc.
  assert (skel (Require err (with_fb f1 a)) = skel a) as Hsk by (unfold Require; by destruct err, (aerr (with_fb f1 a))).
  assert (journal (Require err (with_fb f1 a)) = journal a ∧ closed (Require err (with_fb f1 a)) = false ∧
    mu (Require err (with_fb f1 a)) = mu a ∧ fb (Require err (with_fb f1 a)) = Some f1 ∧
    checkpoint (Require err (with_fb f1 a)) = checkpoint a ∧ (aerr (Require err (with_fb f1 a)) = None → err = None))
    as (Hj1 & Ho1 & Hm1 & Hf1 & Hcp1 & He1) by (unfold Require; cbn [aerr with_fb]; destruct err, (aerr a) eqn:?; cbn; split_and!; done || congruence).
  set (a1 := Require err (with_fb f1 a)) in *.
  pose proof (thread_safe s Hs _ _ Ht) as Hth. pose proof Hs as [Hch Hsc Hcont Hl Hp].
  destruct (aerr a1) as [e|] eqn:Hae; eexists _, _; (split; [reflexivity|]).
  - pose proof (holding_set s t i _ Ht (RollingBack i) eq_refl ltac:(done)) as Hheld.
    assert (∀ b, heap s !! i = Some b → skel (with_err None a1) = skel b) as Hsk' by (intros b; rewrite Ha; intros [= <-]; exact Hsk).
    split; sys_cbn; rewrite ?(skeleton_same (λ _, with_err None a1)) by done; [done| | |done..].
    + apply (scheduled_set _ _ _ t (Holding i ws)); [done..| |done|by right]. destruct Hth. by split.
    + eapply (contents_step (heap s) _ _ (released s) _ _ t _ _ i); [done..|by intros ? [= ->]|by intros ? [= ->]|intros; by apply list_lookup_alter_ne|].
      intros a'. rewrite list_lookup_alter_eq, Ha. intros [= <-]. unfold content_ok. cbn [closed fb with_err checkpoint aerr]. rewrite Ho1, Hf1, Hcp1, Hc.
      split_and!; try done; [|by intros []%Hsend]. intros ws' Hin. by apply Halone in Hin.
  - specialize (He1 eq_refl). subst err.
    set (Q := λ _ : AsyncAppend, with_checkpoint (fb_offset f1 + Buffered (fb_buf f1)) (with_err None a1)).
    assert (alter (with_checkpoint (fb_offset f1 + Buffered (fb_buf f1))) i (alter (λ _, with_err None a1) i (heap s)) = alter Q i (heap s)) as Halt.
    { apply list_eq. intros j. destruct (decide (j = i)) as [-> |]; [by rewrite !list_lookup_alter_eq, Ha|by rewrite !list_lookup_alter_ne]. }
    assert (∀ b, heap s !! i = Some b → skel (Q b) = skel b) as Hsk' by (intros b; rewrite Ha; intros [= <-]; exact Hsk).
    split; sys_cbn; rewrite ?Halt, ?(skeleton_same Q) by done; [done| | | |done].
    + rewrite Hm1. by apply (scheduled_unlock _ _ _ t (Holding i ws) i (skel a)); [..|apply skeleton_lookup].
    + eapply (contents_step (heap s) _ _ (released s) _ _ t _ _ i); [done..| |by intros ? [= ->]|done|intros; by apply list_lookup_alter_ne|].
      { intros j Hne. rewrite entries_snoc, decide_False by done. by rewrite app_nil_r. }
      intros a'. rewrite list_lookup_alter_eq, Ha. intros [= <-]. unfold content_ok. cbn [closed fb Q with_err with_checkpoint checkpoint aerr].
      rewrite Ho1, Hf1, <- content_length by done. rewrite entries_snoc, decide_True by done.
      assert (clean f) as Hcl.
      { unfold clean. destruct (b_err (fb_buf f)) as [e|] eqn:Hb; [|done]. rewrite (write_sticky f [] e Hb) in Hw. congruence. }
      rewrite firstn_all, Hc. split_and!; [done|done| |done| | |by intros []%Hsend].
      * apply Hws; [|done]. by eapply list_elem_of_lookup_2.
      * intros ws' Hin. by apply Halone in Hin.
      * intros Hin. by apply Halone in Hin.
    + eapply logged_release; [done..|by apply skeleton_lookup|done].
Qed.

Lemma run_rollback_inv s t i : Inv s → threads s !! t = Some (RollingBack i) → safe (run_rollback t i s).
Proof.
  intros Hs Ht. destruct (holding s Hs t i _ Ht eq_refl) as (a & f & Ha & Hn & Ho & Hf & HL & Hco).
  pose proof (holding_alone s Hs t i _ Ht eq_refl) as Halone.
  pose proof (holding_not_sending s Hs t i _ Ht eq_refl) as Hsend.
  unfold run_rollback. rewrite Ha, Hf. unfold content_ok in Hco. rewrite Ho, Hf in Hco.
  destruct Hco as (Hok & Hcp & Hen & _ & _ & Hr & _).
  destruct (buffer_rollback_spec f (checkpoint a) Hok Hcp) as (f' & -> & (Hok' & Hcl & Hz) & Hc). cbn [outcome_bind safe].
  destruct Hs as [Hch Hsc Hcont Hl Hp]. split; sys_cbn; rewrite ?skeleton_same by done; [done| | |done..].
  - by apply (scheduled_unlock _ _ _ t (RollingBack i) i (skel a)); [..|apply skeleton_lookup].
  - eapply (contents_step (heap s) _ _ (released s) _ _ t _ _ i); [done..|by intros ? [= ->]|done|intros; by apply list_lookup_alter_ne|].
    intros a'. rewrite list_lookup_alter_eq, Ha. intros [= <-]. unfold content_ok. cbn [closed fb with_fb checkpoint aerr]. rewrite Ho.
    assert (checkpoint a = length (content f')) as Hlen by (rewrite Hc, length_take; lia).
    split_and!; [done|lia|by rewrite Hlen, firstn_all, Hc| | | |by intros []%Hsend].
    + intros _. split_and!; [done..|]. apply Hr. by eapply list_elem_of_lookup_2.
    + intros ws' Hin. by apply Halone in Hin.
    + intros Hin. by apply Halone in Hin.
Qed.

(** ** Loops *)

Lemma logged_close k m rel rs rs' canc i a a' :
  chains k m → logged k rel rs canc → first_open k i a → evolves k (<[i := a']> k) → n_journal a' = n_journal a → n_closed a' = true →
  rs' = rs ∧ (canc = true ∨ entries i rel = []) ∨ rs' = rs ++ [(i, entries i rel, true)] ∧ rpc_ok k rel i (entries i rel) →
  logged (<[i := a']> k) rel rs' canc.
Proof.
  intros Hk Hl Ha He Hj Hc Hrs. pose proof Hl as [Hi Hs Hr Hcf].
  assert (∀ i b ok, (i, b, ok) ∈ rs' → rpc_ok k rel i b) as Hr'.
  { destruct Hrs as [[-> _]|[-> Hrpc]]; [done|].
    intros j b ok [Hin|[= -> -> ->]%list_elem_of_singleton]%elem_of_app; [by eapply Hr|done]. }
  assert (∀ r, r ∈ rs' → node_journal (<[i := a']> k) (fst (fst r)) = node_journal k (fst (fst r))) as Hjr.
  { intros [[j b] ok] Hin. destruct (Hr' j b ok Hin) as (c & _ & Hjc & _). apply evolves_journal; [done|eauto]. }
  split.
  - intros j b Hin. destruct (Hi j b Hin) as [c Hjc]. destruct (He j c Hjc) as (c' & ? & _). eauto.
  - intros n. rewrite (filter_agree _ (λ x, node_journal k (fst x) = n)); [done|].
    intros [j b] Hin. cbn. by rewrite (evolves_journal k _ j He) by eauto.
  - intros j b ok Hin. eapply rpc_ok_evolves; [done|by eapply Hr'].
  - intros n Hcanc. rewrite (completed_close k m rel rs canc i a a' n Hk Hl Ha Hj Hc), <- (Hcf n Hcanc).
    unfold confirmed at 1. rewrite (filter_agree _ (λ r, node_journal k (fst (fst r)) = n ∧ snd r = true)).
    2: { intros r Hin. by rewrite Hjr. }
    destruct Hrs as [[-> [?| ->]]|[-> _]]; [congruence| |].
    + case_decide; by rewrite app_nil_r.
    + rewrite filter_app, fmap_app, concat_app, filter_cons. cbn [fst snd]. f_equal.
      destruct (decide (node_journal k i = n)); [rewrite decide_True by done|rewrite decide_False by tauto]; cbn; by rewrite ?app_nil_r.
Qed.

Section loop.
Context (s : sys) (Hs : Inv s) (t : nat) (th : thread) (i : nat) (Ht : threads s !! t = Some th) (Hpos : position th = Some i).

Let k := skeleton (heap s).

Lemma serving : ∃ a, heap s !! i = Some a ∧ first_open k i (skel a).
Proof.
  destruct (o_position _ _ _ (thread_safe s Hs t th Ht) i Hpos) as (n & Hn). destruct Hn as (Hl & ? & ?).
  apply skeleton_inv in Hl as Ha. destruct Ha as (a & Ha & ->). exists a. done.
Qed.

(** The append is closed, with or without an RPC that succeeded; and the loop goes on. *)
Lemma close_inv (s' : sys) P a j rs :
  about th = None ∨ about th = Some i → holder th = None → heap s !! i = Some a → next a = Some (AA j) →
  heap s' = alter P i (heap s) → skel (P a) = node_closed (skel a) → (aerr (P a) ≠ None → cancelled s = true) →
  appends s' = appends s → locked s' = locked s → threads s' = threads s → cancelled s' = cancelled s → released s' = released s →
  Forall (λ f, flushed f ∧ content f = []) (pool s') →
  logged k (released s) rs (cancelled s) →
  rpcs s' = rs ∧ (cancelled s = true ∨ entries i (released s) = []) ∨
    rpcs s' = rs ++ [(i, entries i (released s), true)] ∧ rpc_ok k (released s) i (entries i (released s)) →
  Inv (set_thread t (Serving j) s').
Proof.
  intros Hab Hh Ha Hn Hheap HP Herr Hap Hlo Hth Hca Hre Hpool Hlog Hrpc. destruct serving as (a0 & Ha0 & Hfirst).
  assert (a0 = a) as -> by congruence. destruct Hs as [Hc Hsc Hco Hl Hp].
  assert (skeleton (heap s') = <[i := node_closed (skel a)]> k) as Hk by (by rewrite Hheap, (skeleton_alter P i _ a Ha), HP).
  split; sys_cbn; rewrite ?Hk, ?Hap, ?Hlo, ?Hth, ?Hca, ?Hre; [| | | |done].
  - by apply (chains_close _ _ Hc i (skel a) j).
  - by eapply (scheduled_close _ _ _ _ Hc Hsc t th i (skel a) j); [..|apply skeleton_lookup|].
  - rewrite Hheap. eapply (contents_step (heap s) _ _ (released s) _ _ t th _ i); [done..| |done|intros; by apply list_lookup_alter_ne|].
    { intros l Hl'. destruct Hab; congruence. }
    intros a'. rewrite list_lookup_alter_eq, Ha. intros [= <-]. unfold content_ok.
    assert (closed (P a) = true) as -> by (by apply (f_equal n_closed) in HP). done.
  - eapply logged_close; [exact Hc|exact Hlog|exact Hfirst|by apply (evolves_insert k i (skel a)); [apply skeleton_lookup|..]|done..].
Qed.

Lemma serve_inv : th = Serving i → safe (serve t i s).
Proof.
  intros Hth0. destruct serving as (a & Ha & Hfirst). rewrite Hth0 in Ht. unfold serve, lockable. rewrite Ha.
  destruct (decide (mu a ∈ locked s)) as [|HL]; [done|].
  pose proof (v_cont s Hs i a Ha) as Hco. destruct Hfirst as (Hka & Ho & Hf). cbn in Ho. unfold content_ok in Hco. rewrite Ho in Hco.
  assert (∀ s' a', Inv s' → heap s' !! i = Some a' → threads s' = threads s → (∃ j, next a' = Some (AA j)) →
    dependencies a' = dependencies a → safe (Ret (Some (set_thread t (Waiting i (default [] (dependencies a))) s')))) as Hwait.
  { intros s' a' Hs' Ha' Hth [j Hj] Hd. destruct Hs' as [Hc' Hsc' Hco' Hl' Hp']. cbn [safe]. rewrite <- Hth in Ht.
    split; sys_cbn; [done| |by eapply contents_thread|done..].
    destruct (t_ok _ _ _ Hsc' t _ Ht). eapply scheduled_set; [done..| |done|by left].
    split; try (done || constructor). intros p ds [= <- <-]. exists (skel a'), j, []. split_and!; [by apply skeleton_lookup|done| |done].
    cbn. by rewrite Hd. }
  assert (next a = None → safe (let! (s', _) := chainNewAppend i a None s in Ret (Some (set_thread t (Waiting i (default [] (dependencies a))) s')))) as Hchain.
  { intros Hn. destruct (chain_inv s Hs i a None Ha Hn HL) as (s' & -> & Hs' & _ & Ha' & Hth & _ & _); [constructor|].
    cbn [outcome_bind]. eapply Hwait; [done|exact Ha'|done| |done]. by eexists. }
  destruct (next a) as [[j|]|] eqn:Hn.
  - cbn [outcome_bind]. eapply Hwait; eauto.
  - destruct (c_open _ _ (v_chains s Hs) i (skel a) Hka Ho) as [_ []]. done.
  - destruct (fb a) as [f|] eqn:Hf'; [by apply Hchain|].
    destruct (dependencies a) as [ds|] eqn:Hd; [by apply Hchain|]. cbn [safe].
    set (P := λ a, with_closed (with_next tombstoneAsyncAppend a)).
    assert (alter with_closed i (alter (with_next tombstoneAsyncAppend) i (heap s)) = alter P i (heap s)) as Halt.
    { apply list_eq. intros l. destruct (decide (l = i)) as [-> |]; [by rewrite !list_lookup_alter_eq, Ha|by rewrite !list_lookup_alter_ne]. }
    destruct Hco as (_ & Hen & Herr & _). destruct Hs as [Hc Hsc Hcont Hl Hp].
    split; sys_cbn; rewrite ?Halt, ?(skeleton_alter P i _ a Ha); [| | | |done].
    + by apply (chains_stop _ _ Hc i (skel a)).
    + by eapply (scheduled_stop _ _ _ _ Hc Hsc t (Serving i) i (skel a)).
    + eapply (contents_step (heap s) _ _ (released s) _ _ t _ _ i); [done..|intros; by apply list_lookup_alter_ne|].
      intros a'. rewrite list_lookup_alter_eq, Ha. intros [= <-]. by intros [].
    + eapply logged_close; [exact Hc|exact Hl|by split_and!|apply (evolves_insert k i (skel a)); try done; cbn; intros ? ?; congruence|done|done|].
      left. by split; [|right].
Qed.

(** What a loop knows of an append that it dispatched. *)
Lemma dispatching ds : dispatched th = Some (i, ds) →
  ∃ a j done, heap s !! i = Some a ∧ closed a = false ∧ next a = Some (AA j) ∧ default [] (dependencies a) = done ++ ds ∧
    Forall (is_closed k) done ∧ first_open k i (skel a) ∧ ¬ held (threads s) i ∧ content_ok (threads s) (released s) (cancelled s) i a.
Proof.
  intros Hd. destruct serving as (a & Ha & Hfirst).
  destruct (o_dispatched _ _ _ (thread_safe s Hs t th Ht) i ds Hd) as (n & j & done & Hn & Hnx & Hdeps & Hcl).
  pose proof (skeleton_lookup _ _ _ Ha) as Hka. unfold k in Hn. rewrite Hka in Hn. injection Hn as <-. cbn in Hnx, Hdeps.
  exists a, j, done. pose proof Hfirst as (_ & Ho & _). split_and!; try done; [|by apply (v_cont s Hs)].
  intros (x & [u Hu]%list_elem_of_lookup & Hx). destruct (o_holder _ _ _ (thread_safe s Hs u x Hu) i Hx) as (n & Hn & Hnn & _).
  rewrite Hka in Hn. injection Hn as <-. cbn in Hnn. congruence.
Qed.

Lemma wait_inv ds : th = Waiting i ds → safe (wait t i ds s).
Proof.
  intros Hth. destruct (dispatching ds) as (a & j & done & Ha & Ho & Hn & Hdeps & Hcl & Hfirst & Hheld & Hco); [by rewrite Hth|].
  pose proof Ht as Ht'. rewrite Hth in Ht'. unfold wait. destruct ds as [|d ds].
  - rewrite Ha. cbn [mbind option_bind]. unfold content_ok in Hco. rewrite Ho in Hco. destruct (fb a) as [f|] eqn:Hf.
    + destruct Hco as (Hok & Hcp & Hen & Hnh & _). destruct (Hnh Hheld) as (Hclean & Hlen & Herr).
      destruct (flush_retried_spec f Hok) as (f' & -> & Hfl & Hc). cbn [outcome_bind safe].
      destruct Hs as [Hch Hsc Hcont Hl Hp]. split; sys_cbn; rewrite ?skeleton_same by done; [done| | |done..].
      * eapply (scheduled_set _ _ _ t (Waiting i [])); [done..| |done|by left].
        destruct (t_ok _ _ _ Hsc t _ Ht') as [Hp' Hh' Hd' Hl' Hr' Ho']. by split.
      * eapply (contents_step (heap s) _ _ (released s) _ _ t (Waiting i []) _ i); [done..|by intros ? [= ->]|intros; by apply list_lookup_alter_ne|].
        intros a'. rewrite list_lookup_alter_eq, Ha. intros [= <-]. unfold content_ok. cbn [closed fb with_fb checkpoint aerr]. rewrite Ho, Hc.
        pose proof Hfl as (? & ? & ?). split_and!; try done.
        intros ws [?|Hin]%elem_of_set_inv; [done|]. destruct Hheld. by exists (Holding i ws).
    + destruct Hco as (_ & Hen & Herr & _). unfold serve_next. sys_cbn. rewrite list_lookup_alter_eq, Ha. cbn [mbind option_bind fmap option_fmap option_map next with_closed]. rewrite Hn.
      cbn [safe]. apply (close_inv (update i with_closed s) with_closed a j (rpcs s)); sys_cbn; cbn [aerr with_closed]; try done;
        [left; by rewrite Hth|by rewrite Hth|apply (v_pool s Hs)|apply (v_log s Hs)|left; by split; [|right]].
  - destruct (heap s !! d) as [dep|] eqn:Hd; [|done]. destruct (closed dep) eqn:Hdc; [|done].
    pose proof (v_cont s Hs d dep Hd) as Hdco. unfold content_ok in Hdco. rewrite Hdc in Hdco. unfold Err. rewrite Hdc.
    assert (negb (bool_decide (aerr dep = None)) && negb (cancelled s) = false) as ->.
    { case_bool_decide as He; [done|]. by rewrite (Hdco He). }
    destruct Hs as [Hch Hsc Hcont Hl Hp]. split; sys_cbn; [done| |by eapply contents_thread|done..].
    eapply (scheduled_set _ _ _ t (Waiting i (d :: ds))); [done..| |done|by left].
    destruct (t_ok _ _ _ Hsc t _ Ht') as [Hp' Hh' Hd' Hl' Hr' Ho']. split; try done.
    intros p ds' [= <- <-]. exists (skel a), j, (done ++ [d]). split_and!; [by apply skeleton_lookup|done| |].
    + cbn. by rewrite Hdeps, <- app_assoc.
    + apply Forall_app. split; [done|]. constructor; [|done]. exists (skel dep). split; [by apply skeleton_lookup|done].
Qed.

Lemma send_inv e : th = Sending i → safe (send t i e s).
Proof.
  intros Hth. destruct (dispatching []) as (a & j & done & Ha & Ho & Hn & Hdeps & Hcl & Hfirst & Hheld & Hco); [by rewrite Hth|].
  pose proof Ht as Ht'. rewrite Hth in Ht'. unfold content_ok in Hco. rewrite Ho in Hco. unfold send. rewrite Ha.
  destruct (fb a) as [f|] eqn:Hf; [|done]. destruct Hco as (Hok & Hcp & Hen & Hnh & _ & _ & Hfl).
  destruct (Hnh Hheld) as (Hclean & Hlen & Herr). specialize (Hfl ltac:(by eapply list_elem_of_lookup_2)).
  rewrite section_spec, Hen by done. rewrite app_nil_r in Hdeps.
  assert (rpc_ok k (released s) i (entries i (released s))) as Hrpc.
  { exists (skel a), j. split_and!; [by apply skeleton_lookup|done|done|cbn; by rewrite Hdeps|]. by destruct Hfirst as (_ & _ & Hf'). }
  destruct (releaseFileBuffer_spec f Hfl) as (f' & Hrel & Hfl' & Hc').
  assert (Forall (λ f, flushed f ∧ content f = []) (pool s ++ [f'])) as Hpool.
  { apply Forall_app. split; [apply (v_pool s Hs)|]. by constructor. }
  assert (∀ s' P, heap s' = alter P i (heap s) → next (P a) = next a →
    serve_next t i s' = Ret (Some (set_thread t (Serving j) s'))) as Hnext.
  { intros s' P Hh HP. unfold serve_next. rewrite Hh, list_lookup_alter_eq, Ha. cbn. by rewrite HP, Hn. }
  destruct e as [|err|].
  - rewrite Hrel. cbn [outcome_bind]. rewrite (Hnext _ with_closed) by done. cbn [safe].
    apply (close_inv _ with_closed a j (rpcs s)); sys_cbn; cbn [aerr with_closed]; try done; [right; by rewrite Hth|by rewrite Hth|apply (v_log s Hs)|by right].
  - destruct (cancelled s) eqn:Hcanc; [|done]. rewrite Hrel. cbn [outcome_bind].
    set (P := λ a, with_closed (with_err (Some err) a)).
    assert (alter with_closed i (alter (with_err (Some err)) i (heap s)) = alter P i (heap s)) as Halt.
    { apply list_eq. intros l. destruct (decide (l = i)) as [-> |]; [by rewrite !list_lookup_alter_eq, Ha|by rewrite !list_lookup_alter_ne]. }
    rewrite (Hnext _ P) by (sys_cbn; done). cbn [safe].
    apply (close_inv _ P a j (rpcs s ++ [(i, entries i (released s), false)])); sys_cbn; try done;
      [right; by rewrite Hth|by rewrite Hth|by apply logged_attempt, Hrpc; [apply (v_log s Hs)]|by left; split; [|left]].
  - cbn [safe]. destruct Hs as [Hch Hsc Hcont Hl Hp]. split; sys_cbn; [done..| |done]. by apply logged_attempt.
Qed.
End loop.

(** ** Executions *)

Lemma journal_of_skeleton h i : journal_of h i = node_journal (skeleton h) i.
Proof. unfold journal_of, node_journal, skeleton. rewrite list_lookup_fmap. by destruct (h !! i). Qed.

Lemma Inv_init : Inv NewAppendService.
Proof.
  split; cbn; [apply chains_init|apply scheduled_init|done| |done].
  split; try done; [by intros ? ? ?%elem_of_nil|intros n; constructor|by intros ? ? ? ?%elem_of_nil].
Qed.

Lemma start_inv s name deps :
  Inv s → Forall (λ d, d < length (heap s)) (default [] deps) → ordered (heap s) (default [] deps) → Inv (go_thread (Looking name deps) s).
Proof.
  intros [Hc Hsc Hco Hl Hp] Hd Ho. split; sys_cbn; [done| |by apply contents_go|done..].
  apply scheduled_go; [done| |done..]. split; try done; cbn [requested].
  - by rewrite skeleton_length.
  - unfold ordered in Ho. erewrite list_fmap_ext; [exact Ho|]. intros n d _. cbn. symmetry. apply journal_of_skeleton.
Qed.

Lemma cancel_inv s : Inv s → Inv (mkSys (heap s) (appends s) (locked s) (pool s) (threads s) true (rpcs s) (released s)).
Proof.
  intros [Hc Hsc Hco Hl Hp]. split; cbn; [done|done| | |done].
  - intros i a Ha. by eapply content_ok_frame; [| | |apply Hco].
  - by destruct Hl.
Qed.

Lemma step_safe l s : Inv s → label_ok l s → safe (step l s).
Proof.
  intros Hs Hl. destruct l as [name deps|t g e|t p|t err|t|]; cbn [step].
  - destruct (forallb _ _) eqn:Hd; [|done]. cbn. apply start_inv; [done| |done].
    apply Forall_forall. intros d Hin. rewrite forallb_forall in Hd. apply Nat.ltb_lt, Hd. by apply list_elem_of_In.
  - destruct (threads s !! t) as [[name deps|name deps i ok|i ws|i|i|i ds|i|]|] eqn:Ht; try done.
    + by apply lookup_append_inv.
    + by apply acquire_safe.
    + by apply run_rollback_inv.
    + by eapply serve_inv.
    + by eapply wait_inv.
    + by eapply send_inv.
  - destruct (threads s !! t) as [[]|] eqn:Ht; try done. by apply client_write_inv.
  - destruct (threads s !! t) as [[]|] eqn:Ht; try done. cbn. by eapply reject_inv.
  - destruct (threads s !! t) as [[]|] eqn:Ht; try done. destruct (release_inv s t aa ws Hs Ht) as (s' & e & -> & Hs'). done.
  - by apply cancel_inv.
Qed.

Lemma reachable_inv s : reachable s → Inv s.
Proof.
  induction 1 as [|l s s' _ IH Hl Hst]; [apply Inv_init|]. pose proof (step_safe l s IH Hl) as Hsafe. by rewrite Hst in Hsafe.
Qed.

(** ** What is confirmed of what is released *)

Lemma filter_prefix_of {A} (P Q : A → Prop) `{∀ x, Decision (P x), ∀ x, Decision (Q x)} (R : relation A) (l : list A) :
  StronglySorted R (filter P l) → (∀ x y, x ∈ l → y ∈ l → P x → P y → R x y → Q y → Q x) →
  filter (λ x, P x ∧ Q x) l `prefix_of` filter P l.
Proof.
  induction l as [|x l IH]; intros Hs HQ; [done|]. rewrite !filter_cons in *. destruct (decide (P x)) as [HP|HP].
  - apply StronglySorted_inv in Hs as [Hs Hx]. rewrite Forall_forall in Hx. destruct (decide (Q x)) as [Hq|Hq].
    + rewrite decide_True by done. apply prefix_cons, IH; [done|]. intros; eapply HQ; set_solver.
    + rewrite decide_False by tauto. assert (filter (λ x, P x ∧ Q x) l = []) as ->; [|apply prefix_nil].
      apply elem_of_nil_inv. intros y [[HPy HQy] Hy]%list_elem_of_filter. destruct Hq.
      apply (HQ x y); [set_solver..|done|done| |done]. apply Hx, list_elem_of_filter. done.
  - rewrite decide_False by tauto. apply IH; [done|]. intros; eapply HQ; set_solver.
Qed.

Lemma fmap_prefix {A B} (f : A → B) l1 l2 : l1 `prefix_of` l2 → f <$> l1 `prefix_of` f <$> l2.
Proof. intros [l ->]. rewrite fmap_app. by apply prefix_app_r. Qed.

Lemma concat_prefix {A} (l1 l2 : list (list A)) : l1 `prefix_of` l2 → concat l1 `prefix_of` concat l2.
Proof. intros [l ->]. rewrite concat_app. by apply prefix_app_r. Qed.

Lemma ssorted_fmap {A B} (R : relation B) (f : A → B) (l : list A) : StronglySorted R (f <$> l) ↔ StronglySorted (λ x y, R (f x) (f y)) l.
Proof.
  induction l as [|x l IH]; [split; constructor|]. rewrite fmap_cons. split; intros [Hs Hx]%StronglySorted_inv; constructor; try (by apply IH).
  - by rewrite Forall_fmap in Hx.
  - by rewrite Forall_fmap.
Qed.

(** Appends are closed in the order in which they were made. *)
Lemma closed_before s i j : Inv s → i ≤ j → is_Some (heap s !! i) → journal_of (heap s) i = journal_of (heap s) j →
  node_is_closed (skeleton (heap s)) j = true → node_is_closed (skeleton (heap s)) i = true.
Proof.
  intros Hs Hij [a Ha] Hj Hc. destruct (decide (i = j)) as [-> |]; [done|]. unfold node_is_closed in *. rewrite !journal_of_skeleton in Hj.
  unfold node_journal in Hj. apply skeleton_lookup in Ha. rewrite Ha in *. cbn in *.
  destruct (skeleton (heap s) !! j) as [b|] eqn:Hb; [|done]. cbn in *.
  by apply (c_closed _ _ (v_chains s Hs) i j (skel a) b); [| | |lia|right].
Qed.

Lemma completed_prefix s n : Inv s → completed (skeleton (heap s)) n (released s) `prefix_of` released_to (skeleton (heap s)) n (released s).
Proof.
  intros Hs. pose proof (v_log s Hs) as Hl. unfold completed, released_to. apply concat_prefix, fmap_prefix.
  apply (filter_prefix_of _ _ (λ x y, fst x ≤ fst y)); [apply ssorted_fmap, Hl|].
  intros [i b] [j b'] Hx Hy Hi Hj Hle Hq. cbn in *. destruct (l_ids _ _ _ _ Hl i b Hx) as [a Ha].
  apply (closed_before s i j); [done|done|apply skeleton_inv in Ha as (? & ? & _); eauto|by rewrite !journal_of_skeleton, Hi, Hj|done].
Qed.

(** A journal that the map does not have is idle. *)
Lemma completed_idle s n : Inv s → appends s !! n = None →
  completed (skeleton (heap s)) n (released s) = released_to (skeleton (heap s)) n (released s).
Proof.
  intros Hs Hn. unfold completed, released_to. do 2 f_equal. apply filter_agree. intros [i b] Hin. cbn. split; [by intros [? _]|].
  intros Hj. split; [done|]. destruct (l_ids _ _ _ _ (v_log s Hs) i b Hin) as [a Ha]. unfold node_is_closed, node_journal in *. rewrite Ha in *. cbn in *.
  destruct (n_closed a) eqn:Hc; [done|]. destruct (c_open _ _ (v_chains s Hs) i a Ha Hc) as [[? Hs'] _]. congruence.
Qed.

(** ** How appends change over an execution *)

Definition heap_evolves (h h' : list AsyncAppend) : Prop := evolves (skeleton h) (skeleton h').

#[global] Instance heap_evolves_pre : PreOrder heap_evolves.
Proof.
  split; [by intros h i a Ha; exists a|].
  intros h1 h2 h3 H12 H23 i a Ha. destruct (H12 i a Ha) as (b & Hb & ? & ? & ? & ? & ?).
  destruct (H23 i b Hb) as (c & Hc & ? & ? & ? & ? & ?). exists c. split_and!; [done|congruence..|auto|auto].
Qed.

(** A change of an append that keeps what does not change. *)
Definition grows (a b : AsyncAppend) : Prop :=
  journal b = journal a ∧ mu b = mu a ∧ dependencies b = dependencies a ∧ (closed a = true → closed b = true) ∧
  (∀ n, next a = Some n → next b = Some n).

Lemma heap_evolves_alter P i h : (∀ a, h !! i = Some a → grows a (P a)) → heap_evolves h (alter P i h).
Proof.
  intros HP. destruct (h !! i) as [a|] eqn:Ha.
  - unfold heap_evolves. rewrite (skeleton_alter P i h a Ha). destruct (HP a eq_refl) as (? & ? & Hd & ? & ?).
    apply (evolves_insert _ i (skel a)); [by apply skeleton_lookup|done|done| |done..]. cbn. by rewrite Hd.
  - assert (alter P i h = h) as ->; [|done]. apply list_eq. intros j.
    destruct (decide (i = j)) as [<-|]; [by rewrite list_lookup_alter_eq, Ha|by rewrite list_lookup_alter_ne].
Qed.

Lemma heap_evolves_app h x : heap_evolves h (h ++ [x]).
Proof. unfold heap_evolves, skeleton. rewrite fmap_app. apply evolves_app. by intros i a Ha; exists a. Qed.

Lemma chain_evolves j a deps s s' j' :
  heap s !! j = Some a → chainNewAppend j a deps s = Ret (s', j') → heap_evolves (heap s) (heap s').
Proof.
  intros Ha. unfold chainNewAppend. destruct (next a) eqn:Hn; [done|]. intros [= <- <-]. sys_cbn.
  etrans; [|apply heap_evolves_app]. apply heap_evolves_alter. intros b Hb. assert (b = a) as -> by congruence.
  unfold grows. cbn. split_and!; try done. congruence.
Qed.

Lemma current_evolves j a deps s s' j' :
  heap s !! j = Some a → current_append j a deps s = Ret (s', j') → heap_evolves (heap s) (heap s').
Proof.
  intros Ha. unfold current_append. destruct (if (_ <? _)%Z then _ else _) as [[]|]; [by intros [= <- <-]| |done].
  by apply chain_evolves.
Qed.

Lemma pool_Get_heap g s s' f : pool_Get g s = Some (s', f) → heap s' = heap s.
Proof. destruct g as [n|faults]; cbn; [destruct (pool s !! n); [|done]|]; by intros [= <- <-]. Qed.

Lemma serve_next_heap t i s s' : serve_next t i s = Ret (Some s') → heap s' = heap s.
Proof. unfold serve_next. destruct (heap s !! i ≫= next) as [[j|]|]; [|done..]. by intros [= <-]. Qed.

Lemma acquire_evolves t name deps i ok g s s' : acquire t name deps i ok g s = Ret (Some s') → heap_evolves (heap s) (heap s').
Proof.
  unfold acquire. destruct (lockable i s) as [a|]; [|done].
  set (s0 := if ok then Lock (mu a) s else go_thread (Serving i) (Lock (mu a) s)).
  assert (heap s0 = heap s) as H0 by (by destruct ok). rewrite <- H0.
  destruct (follow _ (heap s0) i) as [j|]; [|by intros [= <-]].
  destruct (heap s0 !! j) as [aj|] eqn:Hj; [|done]. destruct (current_append j aj deps s0) as [[s1 j1]|] eqn:Hcur; [|done].
  cbn [outcome_bind]. apply (current_evolves _ _ _ _ _ _ Hj) in Hcur.
  destruct (heap s1 !! j1 ≫= fb); [by intros [= <-]|].
  destruct (pool_Get g s1) as [[s2 f]|] eqn:Hg; [|done]. intros [= <-]. sys_cbn. apply pool_Get_heap in Hg. rewrite Hg.
  etrans; [exact Hcur|]. by apply heap_evolves_alter.
Qed.

Lemma step_evolves l s s' : step l s = Ret (Some s') → heap_evolves (heap s) (heap s').
Proof.
  destruct l as [name deps|t g e|t p|t err|t|]; cbn [step].
  - destruct (forallb _ _); [|done]. by intros [= <-].
  - destruct (threads s !! t) as [[name deps|name deps i ok|i ws|i|i|i ds|i|]|]; try done.
    + intros [= <-]. unfold lookup_append. destruct (appends s !! name); [done|]. apply heap_evolves_app.
    + apply acquire_evolves.
    + unfold run_rollback. destruct (heap s !! i) as [a|]; [|done]. destruct (fb a); [|done].
      destruct (rollback _ _) as [[f|]|]; [|done..]. intros [= <-]. by apply heap_evolves_alter.
    + unfold serve. destruct (lockable i s) as [a|] eqn:Hl; [|done].
      assert (heap s !! i = Some a) as Ha.
      { unfold lockable in Hl. destruct (heap s !! i); [|done]. destruct (decide _); [done|]. congruence. }
      assert (∀ o : outcome (sys * nat), (∀ s1 j, o = Ret (s1, j) → heap_evolves (heap s) (heap s1)) →
        (let! (s, _) := o in Ret (Some (set_thread t (Waiting i (default [] (dependencies a))) s))) = Ret (Some s') →
        heap_evolves (heap s) (heap s')) as Hrest.
      { intros [[s1 j]|] Ho; [|done]. cbn [outcome_bind]. intros [= <-]. exact (Ho s1 j eq_refl). }
      destruct (next a) as [n|] eqn:Hn; [apply Hrest; by intros ? ? [= <- <-]|].
      destruct (fb a); [apply Hrest; intros ? ?; by apply chain_evolves|].
      destruct (dependencies a) eqn:Hd; [apply Hrest; intros ? ?; by apply chain_evolves|].
      intros [= <-]. sys_cbn. etrans; [|by apply heap_evolves_alter]. apply heap_evolves_alter.
      intros b Hb. assert (b = a) as -> by congruence. unfold grows. cbn. split_and!; try done. congruence.
    + unfold wait. destruct ds as [|d ds].
      * destruct (heap s !! i ≫= fb) as [f|].
        -- destruct (flush_retried f) as [[f'|]|]; [|done..]. intros [= <-]. by apply heap_evolves_alter.
        -- intros Hsn. apply serve_next_heap in Hsn. rewrite Hsn. by apply heap_evolves_alter.
      * destruct (heap s !! d) as [dep|]; [|done]. destruct (closed dep); [|done]. destruct (_ && _); [done|]. by intros [= <-].
    + unfold send. destruct (heap s !! i) as [a|]; [|done]. destruct (fb a) as [f|]; [|done].
      destruct e as [|err|]; [|destruct (cancelled s); [|done]|by intros [= <-]];
        (destruct (releaseFileBuffer f) as [[f'|]|]; [|done..]); cbn [outcome_bind]; intros Hsn; apply serve_next_heap in Hsn; rewrite Hsn; sys_cbn.
      * by apply heap_evolves_alter.
      * etrans; [|by apply heap_evolves_alter]. by apply heap_evolves_alter.
  - destruct (threads s !! t) as [[]|]; try done. unfold client_write. destruct (heap s !! aa ≫= fb); [|done]. intros [= <-].
    by apply heap_evolves_alter.
  - destruct (threads s !! t) as [[]|]; try done. intros [= <-]. apply heap_evolves_alter. intros a _. unfold Require. by destruct (aerr a).
  - destruct (threads s !! t) as [[]|]; try done. unfold Release. destruct (heap s !! aa) as [a|] eqn:Ha; [|done]. destruct (fb a) as [f|]; [|done].
    destruct (write f []) as [[f1 n] err]. set (a1 := Require err (with_fb f1 a)).
    assert (grows a (with_err None a1)) as Hg by (unfold a1, Require; by destruct err, (aerr (with_fb f1 a))).
    assert (heap_evolves (heap s) (alter (λ _, with_err None a1) aa (heap s))) as He.
    { apply heap_evolves_alter. intros b Hb. by assert (b = a) as -> by congruence. }
    destruct (aerr a1); intros [= <-]; sys_cbn; [done|]. etrans; [exact He|]. by apply heap_evolves_alter.
  - by intros [= <-].
Qed.

(** Executions from a state. *)
Inductive steps : sys → sys → Prop :=
| steps_refl s : steps s s
| steps_step l s s' s'' : label_ok l s → step l s = Ret (Some s') → steps s' s'' → steps s s''.

Lemma steps_evolves s s' : steps s s' → heap_evolves (heap s) (heap s').
Proof. induction 1 as [|l s s' s'' _ Hst _ IH]; [done|]. etrans; [by eapply step_evolves|done]. Qed.

Lemma steps_inv s s' : Inv s → steps s s' → Inv s'.
Proof.
  intros Hs. induction 1 as [|l s s' s'' Hl Hst _ IH]; [done|]. apply IH. pose proof (step_safe l s Hs Hl) as H. by rewrite Hst in H.
Qed.

(** ** Dependencies *)

Lemma elem_of_pending except s i : Inv s →
  i ∈ PendingExcept except s ↔ ∃ a, heap s !! i = Some a ∧ next a = None ∧ journal a ≠ except.
Proof.
  intros Hs. unfold PendingExcept. rewrite merge_sort_Permutation. unfold pending_ids. rewrite list_elem_of_fmap. split.
  - intros ([n j] & -> & [He Hin%elem_of_map_to_list]%list_elem_of_filter). cbn [snd] in *.
    apply (c_last _ _ (v_chains s Hs)) in Hin as (x & (a & Ha & ->)%skeleton_inv & <- & Hn). exists a.
    split_and!; [done|done|]. unfold journal_of in He. by rewrite Ha in He.
  - intros (a & Ha & Hn & Hj). exists (journal a, i). split; [done|]. apply list_elem_of_filter. cbn [snd]. split.
    + unfold journal_of. by rewrite Ha.
    + apply elem_of_map_to_list, (c_last _ _ (v_chains s Hs)). exists (skel a). by split; [apply skeleton_lookup|].
Qed.

#[global] Instance journal_le_total h : Total (journal_le h).
Proof.
  intros i j. unfold journal_le. rewrite !str_leb_spec. destruct (str_lt_trichotomy (journal_of h i) (journal_of h j)) as [|[|]]; auto.
Qed.

#[global] Instance journal_le_trans h : Transitive (journal_le h).
Proof.
  intros i j l. unfold journal_le. rewrite !str_leb_spec. intros [H1|H1] [H2|H2]; [left; by etrans|left; congruence|left; congruence|right; congruence].
Qed.

(** [PendingExcept] can be given to StartAppend. *)
Lemma pending_ordered except s : Inv s → ordered (heap s) (PendingExcept except s).
Proof.
  intros Hs. unfold ordered. apply ssorted_fmap.
  assert (StronglySorted (journal_le (heap s)) (PendingExcept except s)) as Hsort.
  { apply (StronglySorted_merge_sort _). }
  assert (NoDup (PendingExcept except s)) as Hnd.
  { unfold PendingExcept. rewrite merge_sort_Permutation. unfold pending_ids. apply NoDup_fmap_2_strong.
    - intros [n i] [n' i'] [_ H1%elem_of_map_to_list]%list_elem_of_filter [_ H2%elem_of_map_to_list]%list_elem_of_filter. cbn. intros <-.
      apply (c_last _ _ (v_chains s Hs)) in H1 as (a & Ha & <- & _). apply (c_last _ _ (v_chains s Hs)) in H2 as (b & Hb & <- & _). congruence.
    - apply NoDup_filter, NoDup_map_to_list. }
  apply ssorted_of_lookup. intros i j x y Hij Hx Hy. pose proof (ssorted_lookup _ _ _ _ _ _ Hsort Hij Hx Hy) as Hle.
  apply str_leb_spec in Hle as [|Heq]; [done|]. exfalso.
  apply list_elem_of_lookup_2 in Hx as Hx'. apply list_elem_of_lookup_2 in Hy as Hy'.
  apply (elem_of_pending except s x Hs) in Hx' as (a & Ha & Hna & _). apply (elem_of_pending except s y Hs) in Hy' as (b & Hb & Hnb & _).
  assert (x = y) as ->.
  { unfold journal_of in Heq. rewrite Ha, Hb in Heq. cbn in Heq. apply (inj Some).
    transitivity (appends s !! journal a); [symmetry; apply (c_last _ _ (v_chains s Hs)); exists (skel a); by split; [apply skeleton_lookup|]|].
    rewrite Heq. apply (c_last _ _ (v_chains s Hs)). exists (skel b). by split; [apply skeleton_lookup|]. }
  pose proof (NoDup_lookup _ i j y Hnd Hx Hy). lia.
Qed.

(** What [StartAppend] returns is of the same chain, and waits for all dependencies of the call. *)
Lemma current_spec j a deps s s' j' :
  heap s !! j = Some a → ordered (heap s) (default [] deps) → current_append j a deps s = Ret (s', j') →
  threads s' = threads s ∧ locked s' = locked s ∧
  ∃ a', heap s' !! j' = Some a' ∧ default [] deps ⊆ default [] (dependencies a') ∧ mu a' = mu a.
Proof.
  intros Ha Ho. unfold current_append.
  assert (chainNewAppend j a deps s = Ret (s', j') → threads s' = threads s ∧ locked s' = locked s ∧
    ∃ a', heap s' !! j' = Some a' ∧ default [] deps ⊆ default [] (dependencies a') ∧ mu a' = mu a) as Hchain.
  { unfold chainNewAppend. destruct (next a); [done|]. intros [= <- <-]. sys_cbn. split_and!; [done..|].
    exists (new_append (journal a) deps (mu a)). split; [|done]. rewrite lookup_app_r, length_alter, Nat.sub_diag by (by rewrite length_alter). done. }
  destruct (_ <? _)%Z; [exact Hchain|].
  destruct (isSubset_spec (heap s) (default [] deps) (default [] (dependencies a)) Ho) as ([] & -> & Hsub & _); [|exact Hchain].
  intros [= <- <-]. split_and!; [done..|]. exists a. auto.
Qed.

Lemma pool_Get_same g s s' f : pool_Get g s = Some (s', f) → threads s' = threads s ∧ heap s' = heap s ∧ locked s' = locked s.
Proof. destruct g as [n|faults]; cbn; [destruct (pool s !! n); [|done]|]; by intros [= <- <-]. Qed.

(** The outcomes of the second part of [StartAppend]. *)
Lemma acquire_spec t name deps i ok g s s' : Inv s → threads s !! t = Some (Locking name deps i ok) →
  acquire t name deps i ok g s = Ret (Some s') →
  ∃ a, heap s !! i = Some a ∧ (mu a ∉ locked s) ∧ locked s' = {[mu a]} ∪ locked s ∧
    let ts := if ok then threads s else threads s ++ [Serving i] in
    (threads s' = <[t := Looking name deps]> ts ∨
     ∃ j b, threads s' = <[t := Holding j []]> ts ∧ heap s' !! j = Some b ∧ mu b = mu a ∧ default [] deps ⊆ default [] (dependencies b)).
Proof.
  intros Hs Ht. destruct (thread_safe s Hs t _ Ht) as [_ _ _ _ _ Ho]. cbn in Ho.
  assert (ordered (heap s) (default [] deps)) as Hord.
  { unfold ordered. erewrite list_fmap_ext; [exact Ho|]. intros n d _. apply journal_of_skeleton. }
  unfold acquire, lockable. destruct (heap s !! i) as [a|] eqn:Ha; [|done]. destruct (decide _) as [|HL]; [done|].
  set (s0 := if ok then Lock (mu a) s else go_thread (Serving i) (Lock (mu a) s)).
  assert (heap s0 = heap s ∧ locked s0 = {[mu a]} ∪ locked s ∧ threads s0 = (if ok then threads s else threads s ++ [Serving i])) as (Hh0 & Hl0 & Ht0) by (by destruct ok).
  intros Hacq. exists a. split; [done|]. split; [done|]. rewrite Hh0 in Hacq.
  pose proof (follow_spec _ (appends s) (v_chains s Hs) (heap s) (length (heap s)) i (skel a) eq_refl (skeleton_lookup _ _ _ Ha)) as Hfol.
  rewrite skeleton_length in Hfol. specialize (Hfol ltac:(lia)). destruct (follow _ (heap s) i) as [j|].
  - destruct Hfol as (n & (aj & Hj & ->)%skeleton_inv & Hmu & _). rewrite Hj in Hacq. rewrite <- Hh0 in Hj, Hord.
    destruct (current_append j aj deps s0) as [[s1 j1]|] eqn:Hcur; [|done]. cbn [outcome_bind] in Hacq.
    destruct (current_spec j aj deps s0 s1 j1 Hj Hord Hcur) as (Ht1 & Hl1 & a1 & Ha1 & Hsub & Hmu1). cbn in Hmu.
    destruct (heap s1 !! j1 ≫= fb).
    + injection Hacq as <-. sys_cbn. split; [congruence|]. right. exists j1, a1. split_and!; [by rewrite Ht1, Ht0|done|congruence|done].
    + destruct (pool_Get g s1) as [[s2 f]|] eqn:Hg; [|done]. apply pool_Get_same in Hg as (Ht2 & Hh2 & Hl2).
      injection Hacq as <-. sys_cbn. split; [congruence|]. right. exists j1, (with_fb f a1).
      split_and!; [by rewrite Ht2, Ht1, Ht0|by rewrite Hh2, list_lookup_alter_eq, Ha1|cbn; congruence|done].
  - injection Hacq as <-. sys_cbn. split; [done|]. left. by rewrite Ht0.
Qed.

Lemma acquire_deps t name deps i ok g s s' j ws :
  Inv s → threads s !! t = Some (Locking name deps i ok) → acquire t name deps i ok g s = Ret (Some s') →
  threads s' !! t = Some (Holding j ws) → ∃ a, heap s' !! j = Some a ∧ default [] deps ⊆ default [] (dependencies a).
Proof.
  intros Hs Ht Hacq. destruct (acquire_spec t name deps i ok g s s' Hs Ht Hacq) as (a & _ & _ & _ & Hth).
  pose proof (lookup_lt_Some _ _ _ Ht) as Hlt.
  assert (t < length (if ok then threads s else threads s ++ [Serving i])) as Hlt' by (destruct ok; rewrite ?length_app; lia).
  destruct Hth as [-> |(j' & b & -> & Hb & _ & Hsub)]; rewrite list_lookup_insert_eq by done; [done|]. intros [= -> _]. eauto.
Qed.

(** ** Progress *)

Definition enabled (s : sys) (t : nat) : Prop := ∃ g s', step (Run t g RpcOK) s = Ret (Some s').

(** A step that neither waits nor panics. *)
Lemma safe_enabled o : safe o → o ≠ Ret None → ∃ s', o = Ret (Some s').
Proof. destruct o as [[s'|]|]; [eauto|done|done]. Qed.

Lemma acquire_waits t name deps i ok s : acquire t name deps i ok (New []) s = Ret None → lockable i s = None.
Proof.
  unfold acquire. destruct (lockable i s) as [a|]; [|done].
  destruct (follow _ _ i) as [j|]; [|done]. destruct (_ !! j) as [aj|]; [|done].
  destruct (current_append _ _ _ _) as [[s1 j1]|]; [|done]. cbn [outcome_bind]. by destruct (heap s1 !! j1 ≫= fb).
Qed.

Lemma serve_waits t i s : serve t i s = Ret None → lockable i s = None.
Proof.
  unfold serve. destruct (lockable i s) as [a|]; [|done]. unfold chainNewAppend.
  by destruct (next a), (fb a), (dependencies a).
Qed.

Lemma serve_next_waits t i s : serve_next t i s ≠ Ret None.
Proof. unfold serve_next. by destruct (heap s !! i ≫= next) as [[]|]. Qed.

Section progress.
Context (s : sys) (Hs : Inv s).

Lemma rollback_enabled t i : threads s !! t = Some (RollingBack i) → enabled s t.
Proof.
  intros Ht. exists (New []). cbn [step]. rewrite Ht. apply safe_enabled; [by apply run_rollback_inv|].
  destruct (holding s Hs t i _ Ht eq_refl) as (a & f & Ha & _ & Ho & Hf & _ & Hco).
  unfold content_ok in Hco. rewrite Ho, Hf in Hco. destruct Hco as (Hok & Hcp & _).
  unfold run_rollback. rewrite Ha, Hf. by destruct (buffer_rollback_spec f (checkpoint a) Hok Hcp) as (f' & -> & _).
Qed.

Lemma send_enabled t i : threads s !! t = Some (Sending i) → enabled s t.
Proof.
  intros Ht. exists (New []). cbn [step]. rewrite Ht. apply safe_enabled; [by eapply send_inv|].
  destruct (dispatching s Hs t _ i Ht eq_refl [] eq_refl) as (a & j & done & Ha & Ho & _ & _ & _ & _ & _ & Hco).
  unfold content_ok in Hco. rewrite Ho in Hco. unfold send. rewrite Ha. destruct (fb a) as [f|].
  - destruct Hco as (_ & _ & _ & _ & _ & _ & Hfl). destruct (releaseFileBuffer_spec f) as (f' & -> & _); [|apply serve_next_waits].
    apply Hfl. by eapply list_elem_of_lookup_2.
  - destruct Hco as (_ & _ & _ & Hab). by destruct (Hab (Sending i) ltac:(by eapply list_elem_of_lookup_2)).
Qed.

Lemma wait_enabled t i ds : threads s !! t = Some (Waiting i ds) →
  enabled s t ∨ ∃ d b, d < i ∧ heap s !! d = Some b ∧ closed b = false.
Proof.
  intros Ht. destruct (dispatching s Hs t _ i Ht eq_refl ds eq_refl) as (a & j & done & Ha & Ho & _ & Hdeps & _ & _ & _ & Hco).
  pose proof (wait_inv s Hs t _ i Ht eq_refl ds eq_refl) as Hsafe. destruct ds as [|d ds].
  - left. exists (New []). cbn [step]. rewrite Ht. apply safe_enabled; [done|]. unfold wait. rewrite Ha. cbn [mbind option_bind].
    unfold content_ok in Hco. rewrite Ho in Hco. destruct (fb a) as [f|]; [|apply serve_next_waits].
    destruct Hco as (Hok & _). by destruct (flush_retried_spec f Hok) as (f' & -> & _).
  - assert (d < i) as Hlt.
    { apply (c_deps _ _ (v_chains s Hs) i (skel a)); [by apply skeleton_lookup|]. cbn. rewrite Hdeps. set_solver. }
    destruct (lookup_lt_is_Some_2 (heap s) d) as [b Hb]; [apply lookup_lt_Some in Ha; lia|].
    destruct (closed b) eqn:Hc; [left|right; by exists d, b]. exists (New []). cbn [step]. rewrite Ht. apply safe_enabled; [done|].
    unfold wait. rewrite Hb, Hc. by destruct (_ && _).
Qed.

(** If no mutex is locked then the loop that is furthest behind can go on. *)
Lemma loop_enabled n : ∀ t th i, locked s = ∅ → i < n → threads s !! t = Some th → position th = Some i → ∃ t', enabled s t'.
Proof.
  induction n as [|n IH]; intros t th i HL Hi Ht Hp; [lia|].
  assert (lockable i s ≠ None) as Hlock.
  { destruct (serving s Hs t th i Ht Hp) as (a & Ha & _). unfold lockable. rewrite Ha. rewrite decide_False by (rewrite HL; set_solver). done. }
  destruct th as [name deps|name deps i' [|]|i' ws|i'|i'|i' ds|i'|]; try done; injection Hp as ->.
  - exists t, (New []). cbn [step]. rewrite Ht. apply safe_enabled; [by apply acquire_safe|]. by intros ?%acquire_waits.
  - exists t, (New []). cbn [step]. rewrite Ht. apply safe_enabled; [by eapply serve_inv|]. by intros ?%serve_waits.
  - destruct (wait_enabled t i ds Ht) as [?|(d & b & Hd & Hb & Hc)]; [eauto|].
    destruct (t_served _ _ _ (v_sched s Hs) d (skel b)) as (u & x & p & c & Hu & Hx & Hle & _); [by apply skeleton_lookup|done|].
    apply (IH u x p); [done|lia|done..].
  - exists t. by eapply send_enabled.
Qed.
End progress.

(** ** Theorems *)

Definition confirmed_on (s : sys) (n : string) : bytes := confirmed (skeleton (heap s)) n (rpcs s).
Definition released_on (s : sys) (n : string) : bytes := released_to (skeleton (heap s)) n (released s).

(** No loop has dispatched the append. *)
Definition undispatched (s : sys) (i : nat) : Prop := ∀ t th ds, threads s !! t = Some th → dispatched th ≠ Some (i, ds).

Definition no_panic (o : outcome (option sys)) : Prop := ∃ r, o = Ret r.

(** C4: what brokers confirm of a journal is, in order and without gaps or repetitions, a prefix of what clients released to it,
    however clients, loops, failing disks and failing RPCs interleave, unless the Context is done; and when the service has nothing
    pending for the journal then it is all of it. *)
Theorem appends_confirmed_in_order s n : reachable s → cancelled s = false →
  confirmed_on s n `prefix_of` released_on s n ∧ (appends s !! n = None → confirmed_on s n = released_on s n).
Proof.
  intros Hs%reachable_inv Hc. unfold confirmed_on, released_on. rewrite (l_confirmed _ _ _ _ (v_log s Hs) n Hc).
  split; [by apply completed_prefix|by apply completed_idle].
Qed.

(** C5: every attempt of an Append RPC has all of what clients released of that append and nothing else, then and ever after; it is made
    only after the dependencies of the append and the earlier appends of its journal are done. *)
Theorem append_rpc_content s i b ok : reachable s → (i, b, ok) ∈ rpcs s →
  b = entries i (released s) ∧
  ∃ a, heap s !! i = Some a ∧
    (∀ d, d ∈ default [] (dependencies a) → ∃ x, heap s !! d = Some x ∧ closed x = true) ∧
    (∀ j x, j < i → heap s !! j = Some x → journal x = journal a → closed x = true).
Proof.
  intros Hs%reachable_inv Hin. destruct (l_rpc _ _ _ _ (v_log s Hs) i b ok Hin) as (n & j & Hn & _ & -> & Hd & Hf).
  apply skeleton_inv in Hn as (a & Ha & ->). split; [done|]. exists a. split_and!; [done| |].
  - intros d Hdin. rewrite Forall_forall in Hd. destruct (Hd d Hdin) as (x & (y & Hy & ->)%skeleton_inv & ?). by exists y.
  - intros l x Hl Hx Hj. apply (Hf l (skel x)); [by apply skeleton_lookup|done..].
Qed.

(** At most one client at a time has an append of a journal, and what it has is the last append of the journal: neither closed nor
    dispatched, so that no loop reads or sends its buffer. *)
Theorem append_exclusive s t1 t2 i j th1 th2 : reachable s →
  threads s !! t1 = Some th1 → threads s !! t2 = Some th2 → holder th1 = Some i → holder th2 = Some j →
  journal_of (heap s) i = journal_of (heap s) j →
  t1 = t2 ∧ ∃ a, heap s !! i = Some a ∧ closed a = false ∧ appends s !! journal a = Some i ∧ undispatched s i.
Proof.
  intros Hs%reachable_inv H1 H2 E1 E2 Hj.
  destruct (holding s Hs t1 i th1 H1 E1) as (a & f & Ha & Hn & Ho & _). destruct (holding s Hs t2 j th2 H2 E2) as (b & g & Hb & Hnb & Hob & _).
  unfold journal_of in Hj. rewrite Ha, Hb in Hj. cbn in Hj.
  assert (appends s !! journal a = Some i) as Hm by (apply (c_last _ _ (v_chains s Hs)); exists (skel a); by split; [apply skeleton_lookup|]).
  assert (appends s !! journal b = Some j) as Hm' by (apply (c_last _ _ (v_chains s Hs)); exists (skel b); by split; [apply skeleton_lookup|]).
  assert (i = j) as <- by congruence. apply skeleton_lookup in Ha as Hka. split.
  - by eapply (t_client _ _ _ (v_sched s Hs) t1 t2 th1 th2 i i).
  - exists a. split_and!; [done..|]. intros t th ds Ht Hd.
    destruct (o_dispatched _ _ _ (thread_safe s Hs t th Ht) i ds Hd) as (n & l & dn & Hn' & Hnx & _). rewrite Hka in Hn'. injection Hn' as <-. cbn in Hnx. congruence.
Qed.

(** C36: no step of the service panics, provided that dependencies are ordered. *)
Theorem append_service_no_panic s l : reachable s → label_ok l s → no_panic (step l s).
Proof. intros Hs%reachable_inv Hl. pose proof (step_safe l s Hs Hl) as H. unfold no_panic. destruct (step l s); [eauto|done]. Qed.

(** C9: the documented barrier: if the dependencies of a call of StartAppend are the appends pending at an earlier time, then an RPC of the append that
    the call returns is made only after all that was by then started to other journals is done. *)
Theorem pending_barrier s0 s s1 s2 name t i ok g j ws b r : reachable s0 → steps s0 s → 
  threads s !! t = Some (Locking name (Some (PendingExcept name s0)) i ok) →
  step (Run t g RpcOK) s = Ret (Some s1) → threads s1 !! t = Some (Holding j ws) →
  steps s1 s2 → (j, b, r) ∈ rpcs s2 →
  ∀ l x, heap s0 !! l = Some x → journal x ≠ name → ∃ y, heap s2 !! l = Some y ∧ closed y = true.
Proof.
  intros Hs0%reachable_inv Hst Ht Hstep Hh Hst2 Hin l x Hx Hne.
  pose proof (steps_inv _ _ Hs0 Hst) as Hs. cbn [step] in Hstep. rewrite Ht in Hstep.
  pose proof (acquire_safe s t _ _ i ok g Hs Ht) as Hs1. rewrite Hstep in Hs1. pose proof (steps_inv _ _ Hs1 Hst2) as Hs2.
  destruct (acquire_deps t name _ i ok g s s1 j ws Hs Ht Hstep Hh) as (a & Ha & Hsub). cbn [default] in Hsub.
  assert (heap_evolves (heap s0) (heap s2)) as He.
  { etrans; [by apply steps_evolves|]. etrans; [by apply (acquire_evolves t name (Some (PendingExcept name s0)) i ok g)|]. by apply steps_evolves. }
  destruct (steps_evolves _ _ Hst2 j (skel a) (skeleton_lookup _ _ _ Ha)) as (n2 & Hn2 & _ & _ & Hd2 & _). 
  destruct (l_rpc _ _ _ _ (v_log s2 Hs2) j b r Hin) as (n2' & _ & Hn2' & _ & _ & Hcl & _). assert (n2' = n2) as -> by congruence.
  rewrite Hd2, Forall_forall in Hcl. cbn in Hcl.
  destruct (He l (skel x) (skeleton_lookup _ _ _ Hx)) as (y & Hy & Hjy & _ & _ & Hcy & _). apply skeleton_inv in Hy as (y' & Hy' & ->).
  exists y'. split; [done|]. destruct (closed x) eqn:Hcx; [by apply Hcy|].
  destruct (c_open _ _ (v_chains s0 Hs0) l (skel x) (skeleton_lookup _ _ _ Hx) Hcx) as [[m Hm] _].
  apply (c_last _ _ (v_chains s0 Hs0)) in Hm as (z & Hz & Hjz & Hnz).
  destruct (c_last_max _ _ (v_chains s0 Hs0) m l z (skel x) Hz Hnz (skeleton_lookup _ _ _ Hx) (eq_sym Hjz)) as [Hle _].
  apply skeleton_inv in Hz as (z' & Hz' & ->). cbn in Hjz, Hnz, Hjy.
  destruct (Hcl m) as (w & Hw & Hcw). { apply Hsub, (elem_of_pending name s0 m Hs0). exists z'. split_and!; [done..|congruence]. }
  destruct (He m (skel z') (skeleton_lookup _ _ _ Hz')) as (w' & Hw' & Hjw & _). assert (w' = w) as -> by congruence. cbn in Hjw.
  assert (node_is_closed (skeleton (heap s2)) l = true) as Hdone.
  { apply (closed_before s2 l m Hs2 Hle); [by eauto| |unfold node_is_closed; by rewrite Hw].
    rewrite !journal_of_skeleton. unfold node_journal. rewrite (skeleton_lookup _ _ _ Hy'), Hw. cbn. congruence. }
  unfold node_is_closed in Hdone. by rewrite (skeleton_lookup _ _ _ Hy') in Hdone.
Qed.

(** C18: the service does not deadlock: if clients have released what they had, and mutexes are locked by rollbacks only, then a client or
    a loop can go on (its RPC succeeding, if it makes one); or all of them are done, all appends are closed and the service is empty. *)
Theorem append_service_progress s : reachable s →
  (∀ t i ws, threads s !! t ≠ Some (Holding i ws)) →
  (∀ m, m ∈ locked s → ∃ t i, threads s !! t = Some (RollingBack i)) →
  (∃ t, enabled s t) ∨
  (∀ t th, threads s !! t = Some th → th = Done) ∧ (∀ i a, heap s !! i = Some a → closed a = true) ∧ appends s = ∅.
Proof.
  intros Hs%reachable_inv Hhold Hlock.
  destruct (decide (locked s = ∅)) as [HL|HL].
  2: { apply set_choose_L in HL as [m Hm]. destruct (Hlock m Hm) as (t & i & Ht). left. exists t. by eapply rollback_enabled. }
  destruct (decide (Forall (λ th, th = Done) (threads s))) as [Hdone|Hnot].
  - right. rewrite Forall_lookup in Hdone. split; [done|].
    assert (∀ i a, heap s !! i = Some a → closed a = true) as Hcl.
    { intros i a Ha. destruct (closed a) eqn:Hc; [done|].
      destruct (t_served _ _ _ (v_sched s Hs) i (skel a)) as (u & x & p & c & Hu & Hx & _); [by apply skeleton_lookup|done|].
      apply Hdone in Hu as ->. done. }
    split; [done|]. apply map_eq. intros n. rewrite lookup_empty. destruct (appends s !! n) as [i|] eqn:Hn; [|done].
    apply (c_last _ _ (v_chains s Hs)) in Hn as (x & (a & Ha & ->)%skeleton_inv & _ & Hnx).
    pose proof (c_live _ _ (v_chains s Hs) i (skel a) (skeleton_lookup _ _ _ Ha) Hnx) as Ho. cbn in Ho. by rewrite (Hcl i a Ha) in Ho.
  - left. apply not_Forall_Exists in Hnot; [|apply _]. apply Exists_exists in Hnot as (th & [t Ht]%list_elem_of_lookup & Hnd).
    destruct th as [name deps|name deps i [|]|i ws|i|i|i ds|i|]; try done.
    + exists t, (New []). cbn [step]. rewrite Ht. eauto.
    + exists t, (New []). cbn [step]. rewrite Ht. apply safe_enabled; [by apply acquire_safe|]. intros Hw%acquire_waits.
      destruct (o_locking _ _ _ (thread_safe s Hs t _ Ht) _ _ _ _ eq_refl) as (n & (a & Ha & _)%skeleton_inv & _).
      unfold lockable in Hw. rewrite Ha, decide_False in Hw by (rewrite HL; set_solver). done.
    + eapply (loop_enabled s Hs (S i) t _ i); [done|lia|exact Ht|done].
    + by destruct (Hhold t i ws).
    + exists t. by eapply rollback_enabled.
    + eapply (loop_enabled s Hs (S i) t _ i); [done|lia|exact Ht|done].
    + eapply (loop_enabled s Hs (S i) t _ i); [done|lia|exact Ht|done].
    + eapply (loop_enabled s Hs (S i) t _ i); [done|lia|exact Ht|done].
    + by destruct Hnd.
Qed.

(** ** A mutex that is never unlocked *)

(** Locked, by none who will unlock it. *)
Definition abandoned (m : nat) (s : sys) : Prop :=
  m ∈ locked s ∧ ∀ t th i a, threads s !! t = Some th → holder th = Some i → heap s !! i = Some a → mu a ≠ m.

(** Threads of which one goes on without a mutex of its own. *)
Lemma abandoned_frame m s s' :
  Inv s → heap_evolves (heap s) (heap s') → m ∈ locked s' →
  (∀ t th i, threads s' !! t = Some th → holder th = Some i →
    (∃ u x, threads s !! u = Some x ∧ holder x = Some i) ∨ (∃ a, heap s' !! i = Some a ∧ mu a ≠ m)) →
  abandoned m s → abandoned m s'.
Proof.
  intros Hs He Hm Hth [_ Hab]. split; [done|]. intros t th i a Ht Hh Ha.
  destruct (Hth t th i Ht Hh) as [(u & x & Hu & Hx)|(b & Hb & ?)]; [|congruence].
  destruct (o_holder _ _ _ (thread_safe s Hs u x Hu) i Hx) as (n & (c & Hc & ->)%skeleton_inv & _).
  destruct (He i (skel c) (skeleton_lookup _ _ _ Hc)) as (n & (c' & Hc' & ->)%skeleton_inv & _ & Hmu & _). cbn in Hmu.
  assert (c' = a) as -> by congruence. rewrite Hmu. by eapply Hab.
Qed.

Lemma holder_set s t th th' u x i :
  threads s !! t = Some th → holder th' = None ∨ holder th' = holder th →
  <[t := th']> (threads s) !! u = Some x → holder x = Some i → ∃ v y, threads s !! v = Some y ∧ holder y = Some i.
Proof. intros Ht Hh [(<- & <- & _)|[_ Hu]]%list_lookup_insert_Some Hx; [|eauto]. exists t, th. destruct Hh; split; congruence. Qed.

Lemma serve_next_sys t i s s' : serve_next t i s = Ret (Some s') → ∃ j, s' = set_thread t (Serving j) s.
Proof. unfold serve_next. destruct (heap s !! i ≫= next) as [[j|]|]; [|done..]. intros [= <-]. eauto. Qed.

(** What the steps of a thread do to mutexes and clients. *)
Definition keeps_mutexes (t : nat) (th : thread) (s s' : sys) : Prop :=
  locked s' = locked s ∧ ∃ th', threads s' = <[t := th']> (threads s) ∧ (holder th' = None ∨ holder th' = holder th).

Lemma serve_mutexes t i s s' : serve t i s = Ret (Some s') → keeps_mutexes t (Serving i) s s'.
Proof.
  unfold serve, chainNewAppend, keeps_mutexes. destruct (lockable i s) as [a|]; [|done].
  destruct (next a), (fb a), (dependencies a); intros [= <-]; sys_cbn; (split; [done|]); eexists; (split; [done|by left]).
Qed.

Lemma wait_mutexes t i ds s s' : wait t i ds s = Ret (Some s') → keeps_mutexes t (Waiting i ds) s s'.
Proof.
  unfold wait, keeps_mutexes. destruct ds as [|d ds].
  - destruct (heap s !! i ≫= fb) as [f|]; [destruct (flush_retried f) as [[f'|]|]; [|done..]; intros [= <-]|intros (j & ->)%serve_next_sys];
      sys_cbn; (split; [done|]); eexists; (split; [done|by left]).
  - destruct (heap s !! d) as [dep|]; [|done]. destruct (closed dep); [|done]. destruct (_ && _); [done|]. intros [= <-].
    sys_cbn. split; [done|]. eexists. split; [done|by left].
Qed.

Lemma send_mutexes t i e s s' : threads s !! t = Some (Sending i) → send t i e s = Ret (Some s') → keeps_mutexes t (Sending i) s s'.
Proof.
  intros Ht. unfold send, keeps_mutexes. destruct (heap s !! i) as [a|]; [|done]. destruct (fb a) as [f|]; [|done].
  destruct e as [|err|]; [|destruct (cancelled s); [|done]|intros [= <-]; split; [done|]; exists (Sending i); split; [by rewrite list_insert_id|by left]];
    (destruct (releaseFileBuffer f) as [[f'|]|]; [|done..]); cbn [outcome_bind]; intros (j & ->)%serve_next_sys;
    sys_cbn; (split; [done|]); eexists; (split; [done|by left]).
Qed.

(** A client that waits for [m]. *)
Definition waits (m : nat) (s : sys) (t : nat) : Prop :=
  ∃ name deps i ok a, threads s !! t = Some (Locking name deps i ok) ∧ heap s !! i = Some a ∧ mu a = m.

Definition is_locking (th : thread) : bool := match th with Locking _ _ _ _ => true | _ => false end.

Lemma waits_other m s s' u th th' t : threads s !! u = Some th → is_locking th = false → threads s' = <[u := th']> (threads s) →
  waits m s t → threads s' !! t = threads s !! t.
Proof.
  intros Hu Hl Hth (name & deps & i & ok & a & Ht & _). rewrite Hth. apply list_lookup_insert_ne. intros ->. rewrite Hu in Ht. by injection Ht as ->.
Qed.

Lemma abandoned_acquire m t name deps i ok g s s' : Inv s → threads s !! t = Some (Locking name deps i ok) →
  acquire t name deps i ok g s = Ret (Some s') → abandoned m s → heap_evolves (heap s) (heap s') →
  abandoned m s' ∧ ∀ t, waits m s t → threads s' !! t = threads s !! t.
Proof.
  intros Hs Ht Hst Hab He. pose proof Hab as [Hm Hno].
  destruct (acquire_spec t name deps i ok g s s' Hs Ht Hst) as (a & Ha & HL & Hlo & Hth). cbn zeta in Hth. split.
  - apply (abandoned_frame m s); [done..|rewrite Hlo; set_solver| |done]. intros u x j Hu Hx.
    assert (∀ v y, (if ok then threads s else threads s ++ [Serving i]) !! v = Some y → holder y = Some j →
      ∃ v y, threads s !! v = Some y ∧ holder y = Some j) as Hold.
    { intros v y Hv Hy. destruct ok; [eauto|]. apply lookup_snoc_Some in Hv as [[_ Hv]|[_ <-]]; [eauto|done]. }
    destruct Hth as [Hth|(j' & b & Hth & Hb & Hmu & _)]; rewrite Hth in Hu;
      apply list_lookup_insert_Some in Hu as [(_ & <- & _)|[_ Hu]]; [done|left; by eapply Hold| |left; by eapply Hold].
    injection Hx as <-. right. exists b. split; [done|congruence].
  - intros u (name' & deps' & i' & ok' & a' & Hu & Ha' & Hm').
    assert (t ≠ u) as Hne by (intros ->; rewrite Ht in Hu; injection Hu as <- <- <- <-; congruence).
    assert ((if ok then threads s else threads s ++ [Serving i]) !! u = threads s !! u) as Hts.
    { destruct ok; [done|]. rewrite Hu. by apply lookup_app_l_Some. }
    destruct Hth as [Hth|(j' & b & Hth & _)]; rewrite Hth, list_lookup_insert_ne by done; exact Hts.
Qed.

(** It waits forever. *)
Lemma abandoned_step m l s s' : Inv s → step l s = Ret (Some s') → abandoned m s →
  abandoned m s' ∧ ∀ t, waits m s t → threads s' !! t = threads s !! t.
Proof.
  intros Hs Hst Hab. pose proof (step_evolves l s s' Hst) as He. pose proof Hab as [Hm Hno].
  assert (∀ t th, threads s !! t = Some th → is_locking th = false → keeps_mutexes t th s s' →
    abandoned m s' ∧ ∀ t, waits m s t → threads s' !! t = threads s !! t) as Hkeep.
  { intros t th Ht Hl (Hlo & th' & Hth & Hh). split; [|intros u; by eapply waits_other].
    apply (abandoned_frame m s); [done..|by rewrite Hlo| |done].
    intros u x i. rewrite Hth. intros Hu Hx. left. by eapply holder_set. }
  assert (∀ t th i a, threads s !! t = Some th → is_locking th = false → holder th = Some i → heap s !! i = Some a →
    threads s' = <[t := Done]> (threads s) → locked s' = locked s ∖ {[mu a]} →
    abandoned m s' ∧ ∀ t, waits m s t → threads s' !! t = threads s !! t) as Hunlock.
  { intros t th i a Ht Hl Hh Ha Hth Hlo. split; [|intros u; by eapply waits_other].
    apply (abandoned_frame m s); [done..| | |done].
    - rewrite Hlo. apply elem_of_difference. split; [done|]. intros ->%elem_of_singleton. by apply (Hno t th i a Ht).
    - intros u x j. rewrite Hth. intros Hu Hx. left. eapply holder_set; [exact Ht| |exact Hu|exact Hx]. by left. }
  destruct l as [name deps|t g e|t p|t err|t|]; cbn [step] in Hst.
  - destruct (forallb _ _); [|done]. injection Hst as <-. split.
    + apply (abandoned_frame m s); [done..| |done]. intros u x i [[_ Hu]|[_ <-]]%lookup_snoc_Some Hx; [eauto|done].
    + intros t (? & ? & ? & ? & ? & Ht & _). sys_cbn. rewrite Ht. by apply lookup_app_l_Some.
  - destruct (threads s !! t) as [[name deps|name deps i ok|i ws|i|i|i ds|i|]|] eqn:Ht; try done.
    + injection Hst as <-. apply (Hkeep t _ Ht); [done|]. unfold lookup_append, keeps_mutexes.
      destruct (appends s !! name); sys_cbn; (split; [done|]); eexists; (split; [done|by left]).
    + by eapply abandoned_acquire.
    + unfold run_rollback in Hst. destruct (heap s !! i) as [a|] eqn:Ha; [|done]. destruct (fb a); [|done].
      destruct (rollback _ _) as [[f|]|]; [|done..]. injection Hst as <-. by apply (Hunlock t _ i a Ht).
    + eapply Hkeep, serve_mutexes; eauto.
    + eapply Hkeep, wait_mutexes; eauto.
    + eapply Hkeep, send_mutexes; eauto.
  - destruct (threads s !! t) as [[]|] eqn:Ht; try done. unfold client_write in Hst. destruct (heap s !! aa ≫= fb); [|done]. injection Hst as <-.
    apply (Hkeep t _ Ht); [done|]. split; [done|]. eexists. split; [done|by right].
  - destruct (threads s !! t) as [[]|] eqn:Ht; try done. injection Hst as <-.
    apply (Hkeep t _ Ht); [done|]. split; [done|]. eexists. split; [symmetry; by apply list_insert_id|by right].
  - destruct (threads s !! t) as [[]|] eqn:Ht; try done. unfold Release in Hst. destruct (heap s !! aa) as [a|] eqn:Ha; [|done].
    destruct (fb a) as [f|]; [|done]. destruct (write f []) as [[f1 n] err]. set (a1 := Require err (with_fb f1 a)) in *.
    assert (mu a1 = mu a) as Hmu by (unfold a1, Require; by destruct err, (aerr (with_fb f1 a))).
    destruct (aerr a1) as [e|]; injection Hst as <-.
    + apply (Hkeep t _ Ht); [done|]. split; [done|]. eexists. split; [done|by right].
    + apply (Hunlock t _ aa a Ht); [done..|]. by rewrite <- Hmu.
  - injection Hst as <-. done.
Qed.

Lemma abandoned_steps m s s' : Inv s → steps s s' → abandoned m s →
  abandoned m s' ∧ ∀ t, waits m s t → threads s' !! t = threads s !! t.
Proof.
  intros Hs Hst. induction Hst as [|l s s' s'' Hl Hst _ IH]; intros Hab; [done|].
  destruct (abandoned_step m l s s' Hs Hst Hab) as [Hab' Hw].
  pose proof (step_safe l s Hs Hl) as Hs'. rewrite Hst in Hs'. destruct (IH Hs' Hab') as [Hab'' Hw']. split; [done|].
  intros t Ht. rewrite <- (Hw t Ht). apply Hw'. destruct Ht as (name & deps & i & ok & a & Ht & Ha & Hm).
  destruct (step_evolves l s s' Hst i (skel a) (skeleton_lookup _ _ _ Ha)) as (n & (a' & Ha' & ->)%skeleton_inv & _ & Hmu & _).
  exists name, deps, i, ok, a'. split_and!; [|done|cbn in Hmu; congruence]. rewrite Hw; [done|]. by exists name, deps, i, ok, a.
Qed.

(** ** Demonstrations *)

Module Runs.
#[global] Instance ordered_dec h l : Decision (ordered h l).
Proof. unfold ordered. apply _. Defined.

#[global] Instance label_ok_dec l s : Decision (label_ok l s).
Proof. destruct l; cbn; apply _. Defined.

(** The state that a sequence of steps leads to. *)
Fixpoint run (ls : list label) (s : sys) : option sys :=
  match ls with
  | [] => Some s
  | l :: ls =>
      if decide (label_ok l s) then match step l s with Ret (Some s) => run ls s | _ => None end else None
  end.

Lemma run_steps ls : ∀ s s', run ls s = Some s' → steps s s'.
Proof.
  induction ls as [|l ls IH]; intros s s'; cbn [run]; [intros [= <-]; constructor|].
  destruct (decide (label_ok l s)) as [Hl|]; [|done]. destruct (step l s) as [[s1|]|] eqn:Hst; [|done..].
  intros Hr. econstructor; eauto.
Qed.

Lemma run_reachable ls : ∀ s s', reachable s → run ls s = Some s' → reachable s'.
Proof.
  induction ls as [|l ls IH]; intros s s' Hs; cbn [run]; [by intros [= <-]|].
  destruct (decide (label_ok l s)) as [Hl|]; [|done]. destruct (step l s) as [[s1|]|] eqn:Hst; [|done..].
  apply IH. by econstructor.
Qed.

Definition at_end (ls : list label) : sys := default NewAppendService (run ls NewAppendService).

Definition b : string → bytes := String.list_byte_of_string.
Definition go (t : nat) : label := Run t (New []) RpcOK.

(** Two clients write to a journal, and one to another after it; a client's write is aborted; an RPC fails and is tried again. *)
Definition trace : list label :=
  [StartAppend "a/journal" None; go 0; go 0; Write 0 (b "write one"); Finish 0;
   StartAppend "a/journal" None; go 2; go 2; Write 2 (b "ABT"); Reject 2 (ErrMsg "potato"); Finish 2; go 2;
   StartAppend "a/journal" None; go 3; go 3; Write 3 (b " write"); Write 3 (b " two"); Finish 3;
   StartAppend "b/journal" (Some [0]); go 4; go 4; Write 4 (b "checkpoint"); Finish 4;
   go 5; go 1; go 1; Run 1 (New []) RpcErr; go 1; go 5; go 5; go 5].

Definition done : list label := trace ++ [go 1; go 5].

Lemma trace_runs : run trace NewAppendService = Some (at_end trace).
Proof. vm_compute. reflexivity. Qed.

Lemma done_runs : run done NewAppendService = Some (at_end done).
Proof. vm_compute. reflexivity. Qed.

Lemma trace_rpcs : rpcs (at_end trace) =
  [(0, b "write one write two", false); (0, b "write one write two", true); (1, b "checkpoint", true)].
Proof. vm_compute. reflexivity. Qed.

Lemma done_reachable : reachable (at_end done).
Proof. exact (run_reachable done _ _ reachable_init done_runs). Qed.

Lemma trace_reachable : reachable (at_end trace).
Proof. exact (run_reachable trace _ _ reachable_init trace_runs). Qed.

(** The first append is closed before two more clients, who have read the map, lock its mutex. *)
Definition race : list label :=
  [StartAppend "a/journal" None; go 0; go 0; Finish 0; go 1; go 1; StartAppend "a/journal" None; StartAppend "a/journal" None; go 2; go 3;
   go 1; go 1; go 2].

Lemma race_runs : run race NewAppendService = Some (at_end race).
Proof. vm_compute. reflexivity. Qed.
End Runs.

(** StartAppend, where it finds that the loop of its chain has ended, calls itself without unlocking the mutex of the chain. Another client that
    has read the same append from the map waits for that mutex: it waits forever. *)
Theorem abandoned_mutex_deadlocks :
  ∃ s t, reachable s ∧ waits 0 s t ∧ ∀ s', steps s s' → threads s' !! t = threads s !! t.
Proof.
  exists (Runs.at_end Runs.race), 3.
  assert (reachable (Runs.at_end Runs.race)) as Hs by exact (Runs.run_reachable Runs.race _ _ reachable_init Runs.race_runs).
  assert (waits 0 (Runs.at_end Runs.race) 3) as Hw.
  { exists "a/journal"%string, None, 1, true, (default (new_append "" None 0) (heap (Runs.at_end Runs.race) !! 1)).
    split_and!; vm_compute; reflexivity. }
  assert (abandoned 0 (Runs.at_end Runs.race)) as Hab.
  { split; [apply (bool_decide_unpack _); vm_compute; exact I|].
    assert (Forall (λ th, holder th = None) (threads (Runs.at_end Runs.race))) as Hth by (vm_compute; repeat constructor).
    intros t th i a Ht Hh. rewrite Forall_lookup in Hth. rewrite (Hth t th Ht) in Hh. done. }
  split_and!; [done..|]. intros s' Hst. by apply (abandoned_steps 0 _ s' (reachable_inv _ Hs) Hst Hab).
Qed.

Lemma appends_confirmed_in_order_witness :
  confirmed_on (Runs.at_end Runs.done) "a/journal" = Runs.b "write one write two" ∧
  confirmed_on (Runs.at_end Runs.done) "a/journal" = released_on (Runs.at_end Runs.done) "a/journal".
Proof.
  split; [vm_compute; reflexivity|].
  exact (proj2 (appends_confirmed_in_order (Runs.at_end Runs.done) "a/journal" Runs.done_reachable eq_refl) eq_refl).
Defined.

Lemma append_rpc_content_witness :
  Runs.b "checkpoint" = entries 1 (released (Runs.at_end Runs.trace)) ∧
  ∃ a, heap (Runs.at_end Runs.trace) !! 1 = Some a ∧
    (∀ d, d ∈ default [] (dependencies a) → ∃ x, heap (Runs.at_end Runs.trace) !! d = Some x ∧ closed x = true) ∧
    (∀ j x, j < 1 → heap (Runs.at_end Runs.trace) !! j = Some x → journal x = journal a → closed x = true).
Proof.
  apply (append_rpc_content (Runs.at_end Runs.trace) 1 (Runs.b "checkpoint") true Runs.trace_reachable).
  rewrite Runs.trace_rpcs. right. right. left.
Defined.

Lemma append_exclusive_witness :
  let s := Runs.at_end (take 4 Runs.trace) in
  0 = 0 ∧ ∃ a, heap s !! 0 = Some a ∧ closed a = false ∧ appends s !! journal a = Some 0 ∧ undispatched s 0.
Proof.
  apply (append_exclusive (Runs.at_end (take 4 Runs.trace)) 0 0 0 0 (Holding 0 [Runs.b "write one"]) (Holding 0 [Runs.b "write one"])); try reflexivity.
  apply (Runs.run_reachable (take 4 Runs.trace) _ _ reachable_init). vm_compute. reflexivity.
Defined.

Lemma append_service_no_panic_witness : no_panic (step (Runs.go 1) (Runs.at_end Runs.trace)).
Proof. apply (append_service_no_panic (Runs.at_end Runs.trace) (Runs.go 1) Runs.trace_reachable I). Defined.

Lemma pending_barrier_witness : ∃ y, heap (Runs.at_end Runs.trace) !! 0 = Some y ∧ closed y = true.
Proof.
  apply (pending_barrier (Runs.at_end (take 18 Runs.trace)) (Runs.at_end (take 20 Runs.trace)) (Runs.at_end (take 21 Runs.trace)) (Runs.at_end Runs.trace)
    "b/journal" 4 1 false (New []) 1 [] (Runs.b "checkpoint") true) with (x := default (new_append "" None 0) (heap (Runs.at_end (take 18 Runs.trace)) !! 0)).
  - apply (Runs.run_reachable (take 18 Runs.trace) _ _ reachable_init). vm_compute. reflexivity.
  - apply (Runs.run_steps (take 2 (drop 18 Runs.trace))). vm_compute. reflexivity.
  - vm_compute. reflexivity.
  - vm_compute. reflexivity.
  - vm_compute. reflexivity.
  - apply (Runs.run_steps (drop 21 Runs.trace)). vm_compute. reflexivity.
  - rewrite Runs.trace_rpcs. right. right. left.
  - vm_compute. reflexivity.
  - vm_compute. intros [=].
Defined.

Lemma append_service_progress_witness :
  (∃ t, enabled (Runs.at_end Runs.trace) t) ∨
  (∀ t th, threads (Runs.at_end Runs.trace) !! t = Some th → th = Done) ∧
  (∀ i a, heap (Runs.at_end Runs.trace) !! i = Some a → closed a = true) ∧ appends (Runs.at_end Runs.trace) = ∅.
Proof.
  apply (append_service_progress (Runs.at_end Runs.trace) Runs.trace_reachable).
  - assert (Forall (λ th, match th with Holding _ _ => False | _ => True end) (threads (Runs.at_end Runs.trace))) as Hth by (vm_compute; repeat constructor).
    intros t i ws Ht. rewrite Forall_lookup in Hth. exact (Hth t _ Ht).
  - assert (locked (Runs.at_end Runs.trace) = ∅) as -> by (vm_compute; reflexivity). intros m Hm%elem_of_empty. destruct Hm.
Defined.
