(* ===== verification/KeySpace.v ===== *)
(** * The local mirror of an Etcd key space (src/v2/pkg/keyspace/key_values.go, key_space.go)

    A [KeySpace] holds the decoded values of a key prefix in key order. [Apply] brings a batch of
    watch responses into it by one merge over the keys. The theorem: the merge is the same as
    applying to each key its own events, in the order of their revisions. Decoding is the
    client's function; Etcd's client is a parameter as far as it is used. *)
From S2P Require Import Prelude Protocol.
Local Open Scope Z_scope.

(** ** Key/values *)

Record RawKV := mkRaw {
  k_Key : string;
  k_CreateRevision : Z;
  k_ModRevision : Z;
  k_Version : Z;
  k_Value : string;
  k_Lease : Z;
}.

Inductive EventType := PUT | DELETE | OtherEvent (n : Z).
#[global] Instance EventType_eq_dec : EqDecision EventType.
Proof. solve_decision. Defined.

Record Event := mkEvent { ev_Type : EventType; ev_Kv : RawKV }.
Abbreviation ev_Key e := (k_Key (ev_Kv e)).
Abbreviation ev_Mod e := (k_ModRevision (ev_Kv e)).

Section keyvalues.
(** The client's [KeyValueDecoder]. *)
Context {D : Type} (decode : RawKV → D + string).

Record KeyValue := mkKV { Raw : RawKV; Decoded : D }.
Abbreviation kv_Key x := (k_Key (Raw x)).

(** The key at an index that a search keeps within the list. *)
Definition key_at (kv : list KeyValue) (i : nat) : string := match kv !! i with Some x => kv_Key x | None => "" end.

Definition Search (kv : list KeyValue) (key : string) : nat * bool :=
  let ind := sort_Search (length kv) (λ i, str_leb key (key_at kv i)) in
  (ind, negb (ind =? length kv)%nat && String.eqb key (key_at kv ind)).

Definition Range (kv : list KeyValue) (from to : string) : list KeyValue :=
  let tmp := drop (fst (Search kv from)) kv in
  take (fst (Search tmp to)) tmp.

(** [GetPrefixRangeEnd] is of Etcd's client. *)
Definition Prefixed (GetPrefixRangeEnd : string → string) (kv : list KeyValue) (prefix : string) : list KeyValue :=
  Range kv prefix (GetPrefixRangeEnd prefix).

Definition appendKeyValue (kv : list KeyValue) (cur : RawKV) : outcome (list KeyValue * option string) :=
  if match last kv with Some x => negb (String.ltb (kv_Key x) (k_Key cur)) | None => false end
  then Panic "invalid key ordering"
  else
    match decode cur with
    | inr err => Ret (kv, Some err)
    | inl decoded => Ret (kv ++ [mkKV cur decoded], None)
    end.

Definition updateKeyValuesTail (kv : list KeyValue) (event : Event) : outcome (list KeyValue * option string) :=
  let cur := ev_Kv event in
  let put_new :=
    match ev_Type event with
    | DELETE => Ret (kv, Some "unexpected deletion of unknown key")
    | OtherEvent _ => Panic "event.Type"
    | PUT =>
        match decode cur with
        | inr err => Ret (kv, Some err)
        | inl decoded =>
            Ret (kv ++ [mkKV cur decoded],
                 if negb (k_CreateRevision cur =? k_ModRevision cur) then
                   Some "unexpected modification of unknown key (applied anyway)"
                 else if negb (k_Version cur =? 1) then
                   Some "unexpected Version of created key (should be 1; applied anyway)"
                 else None)
        end
    end in
  match last kv with
  | None => put_new
  | Some tail =>
      if String.ltb (k_Key cur) (kv_Key tail) then Panic "invalid key ordering (tail is ordered after event key)"
      else if String.ltb (kv_Key tail) (k_Key cur) then put_new
      else if k_ModRevision cur <=? k_ModRevision (Raw tail) then
        Ret (kv, Some "unexpected ModRevision (it's too small; prev is %s)")
      else
        let init := take (length kv - 1) kv in
        match ev_Type event with
        | DELETE => Ret (init, None)
        | OtherEvent _ => Panic "event.Type"
        | PUT =>
            match decode cur with
            | inr err => Ret (kv, Some err)
            | inl decoded =>
                Ret (init ++ [mkKV cur decoded],
                     if negb (k_CreateRevision (Raw tail) =? k_CreateRevision cur) then
                       Some "unexpected CreateRevision (should be equal; applied anyway; prev is %s)"
                     else if negb (int64 (k_Version (Raw tail) + 1) =? k_Version cur) then
                       Some "unexpected Version (should be monotonic; applied anyway; prev is %s)"
                     else None)
            end
        end
  end.

(** ** The key space *)

Record ResponseHeader := mkRespHeader { rh_ClusterId : Z; rh_MemberId : Z; rh_Revision : Z; rh_RaftTerm : Z }.

(** The header after the call, and the error. *)
Definition patchHeader (h update : ResponseHeader) (allowSameRevision : bool) : ResponseHeader * option string :=
  if negb (rh_ClusterId h =? 0) && negb (rh_ClusterId h =? rh_ClusterId update) then
    (h, Some "etcd ClusterID mismatch (expected %d, got %d)")
  else if allowSameRevision && (rh_Revision update <? rh_Revision h) then
    (h, Some "etcd Revision mismatch (expected >= %d, got %d)")
  else if negb allowSameRevision && (rh_Revision update <=? rh_Revision h) then
    (h, Some "etcd Revision mismatch (expected > %d, got %d)")
  else (update, None).

Record WatchResponse := mkWatch {
  wr_Header : ResponseHeader;
  wr_Events : list Event;
  wr_Canceled : bool;
  wr_Created : bool;
  wr_CompactRevision : Z;
}.

Definition with_Events (wr : WatchResponse) (l : list Event) : WatchResponse :=
  mkWatch (wr_Header wr) l (wr_Canceled wr) (wr_Created wr) (wr_CompactRevision wr).

(** [ks_updates] counts the calls of [onUpdate], which runs the observers and wakes waiters. *)
Record KeySpace := mkKeySpace {
  ks_Root : string;
  ks_Header : ResponseHeader;
  ks_KeyValues : list KeyValue;
  ks_updates : nat;
}.

Definition zeroHeader : ResponseHeader := mkRespHeader 0 0 0 0.

Definition NewKeySpace (prefix : string) : outcome KeySpace :=
  if negb (String.eqb (path_Clean prefix) prefix) then Panic "expected prefix to be a cleaned path (%s != %s)"
  else Ret (mkKeySpace prefix zeroHeader [] 0).

(** [sort.SliceStable] of the events of a response by key. *)
Fixpoint insert_event (e : Event) (l : list Event) : list Event :=
  match l with
  | [] => [e]
  | x :: l => if str_leb (ev_Key e) (ev_Key x) then e :: x :: l else x :: insert_event e l
  end.
Definition sort_events (l : list Event) : list Event := foldr insert_event [] l.

Fixpoint patch_headers (hdr : ResponseHeader) (responses : list WatchResponse) : ResponseHeader * option string :=
  match responses with
  | [] => (hdr, None)
  | wr :: responses =>
      match patchHeader hdr (wr_Header wr) false with
      | (hdr, None) => patch_headers hdr responses
      | (hdr, Some err) => (hdr, Some err)
      end
  end.

(** [Less] of the heap, on the events that are left of two responses. *)
Definition heap_Less (a b : list Event) : bool :=
  match a, b with
  | [], [] => false
  | [], _ :: _ => true
  | _ :: _, [] => false
  | x :: _, y :: _ =>
      if String.eqb (ev_Key x) (ev_Key y) then ev_Mod x <? ev_Mod y else String.ltb (ev_Key x) (ev_Key y)
  end.

(** [heap.Pop]: a least element, and the others. *)
Fixpoint heap_pop (best : list Event) (l : list (list Event)) : list Event * list (list Event) :=
  match l with
  | [] => (best, [])
  | x :: l =>
      if heap_Less x best then let '(m, rest) := heap_pop x l in (m, best :: rest)
      else let '(m, rest) := heap_pop best l in (m, x :: rest)
  end.

(** The merge. Each round takes an event, or a response that has none left: as many rounds as
    there are of both are enough. *)
Fixpoint merge_loop (fuel : nat) (heap : list (list Event)) (current next : list KeyValue)
    : outcome (list KeyValue) :=
  match fuel, heap with
  | _, [] => Ret (next ++ current)
  | O, _ :: _ => Ret (next ++ current)
  | S fuel, h :: heap =>
      let '(wr, heap) := heap_pop h heap in
      match wr with
      | [] => merge_loop fuel heap current next
      | e :: rest =>
          let '(ind, found) := Search current (ev_Key e) in
          let ind := if found : bool then (ind + 1)%nat else ind in
          let! (next, _) := updateKeyValuesTail (next ++ take ind current) e in
          merge_loop fuel (rest :: heap) (drop ind current) next
      end
  end.

Definition rounds (heap : list (list Event)) : nat := sum_list_with (λ l, S (length l)) heap.

(** [IsProgressNotify] is of Etcd's client. The heap works in the array of [responses]: each
    [Push] writes the popped response back without its first event, so the one response of a
    batch of one has no events left when [IsProgressNotify] looks at it. *)
Definition KeySpace_Apply (IsProgressNotify : WatchResponse → bool) (ks : KeySpace) (responses : list WatchResponse) : outcome (KeySpace * option string) :=
  match patch_headers zeroHeader responses with
  | (_, Some err) => Ret (ks, Some err)
  | (hdr, None) =>
      let heap := (λ wr, sort_events (wr_Events wr)) <$> responses in
      let! next := merge_loop (rounds heap) heap (ks_KeyValues ks) [] in
      let expectSameRevision :=
        match responses with
        | [wr] => IsProgressNotify (with_Events wr []) && (rh_Revision (ks_Header ks) =? rh_Revision hdr)
        | _ => false
        end in
      match patchHeader (ks_Header ks) hdr expectSameRevision with
      | (h, None) => Ret (mkKeySpace (ks_Root ks) h next (S (ks_updates ks)), None)
      | (h, Some err) => Ret (mkKeySpace (ks_Root ks) h (ks_KeyValues ks) (ks_updates ks), Some err)
      end
  end.

(** The key/values of the responses of a [Load], appended in order; decoding errors are logged. *)
Fixpoint load_kvs (kv : list KeyValue) (l : list RawKV) : outcome (list KeyValue) :=
  match l with
  | [] => Ret kv
  | cur :: l => let! (kv, _) := appendKeyValue kv cur in load_kvs kv l
  end.

Fixpoint load_responses (hdr : ResponseHeader) (kv : list KeyValue) (l : list (ResponseHeader * list RawKV))
    : outcome (ResponseHeader * list KeyValue * option string) :=
  match l with
  | [] => Ret (hdr, kv, None)
  | (h, kvs) :: l =>
      match patchHeader hdr h true with
      | (hdr, Some err) => Ret (hdr, kv, Some err)
      | (hdr, None) => let! kv := load_kvs kv kvs in load_responses hdr kv l
      end
  end.

(** [Load] at revision [rev], of the responses that [SyncBase] sends. *)
Definition Load (ks : KeySpace) (rev : Z) (l : list (ResponseHeader * list RawKV)) : outcome (KeySpace * option string) :=
  let! (hdr, kv, err) := load_responses zeroHeader [] l in
  match err with
  | Some err => Ret (mkKeySpace (ks_Root ks) hdr kv (ks_updates ks), Some err)
  | None =>
      Ret (mkKeySpace (ks_Root ks) (mkRespHeader (rh_ClusterId hdr) (rh_MemberId hdr) rev (rh_RaftTerm hdr)) kv
             (S (ks_updates ks)), None)
  end.
End keyvalues.
Arguments KeyValue D : clear implicits.
Arguments KeySpace D : clear implicits.

(** ** Lookups *)

Section facts.
Context {D : Type} (decode : RawKV → D + string).
Abbreviation kv_Key x := (k_Key (Raw x)).
Abbreviation KeyValues := (list (KeyValue D)).

Definition kv_sorted (kv : KeyValues) : Prop := StronglySorted (λ a b, str_lt (kv_Key a) (kv_Key b)) kv.

Fixpoint kv_lookup (kv : KeyValues) (key : string) : option (KeyValue D) :=
  match kv with
  | [] => None
  | x :: kv => if String.eqb (kv_Key x) key then Some x else kv_lookup kv key
  end.

(** One event of a key, on its own: updates that are not newer and values that do not decode
    are ignored. *)
Definition apply_event (o : option (KeyValue D)) (e : Event) : option (KeyValue D) :=
  let put := match decode (ev_Kv e) with inl d => Some (mkKV (ev_Kv e) d) | inr _ => o end in
  match o with
  | None => match ev_Type e with PUT => put | _ => None end
  | Some t =>
      if ev_Mod e <=? k_ModRevision (Raw t) then o
      else match ev_Type e with PUT => put | _ => None end
  end.

Lemma kv_lookup_app kv1 kv2 q :
  kv_lookup (kv1 ++ kv2) q = match kv_lookup kv1 q with Some x => Some x | None => kv_lookup kv2 q end.
Proof. induction kv1 as [|x kv1 IH]; [done|]. simpl. by destruct (String.eqb (kv_Key x) q). Qed.

Lemma kv_lookup_none kv q : Forall (λ x, kv_Key x ≠ q) kv → kv_lookup kv q = None.
Proof.
  induction 1 as [|x kv Hx _ IH]; [done|]. simpl. by rewrite (proj2 (String.eqb_neq _ _) Hx).
Qed.

Definition key_le (a b : string) : Prop := str_lt a b ∨ a = b.

Lemma str_lt_ne a b : str_lt a b → a ≠ b.
Proof. intros Hlt ->. by apply (irreflexivity str_lt b). Qed.
Lemma str_lt_asym a b : str_lt a b → ¬ str_lt b a.
Proof. intros H1 H2. by apply (irreflexivity str_lt a), (transitivity H1). Qed.
Lemma key_le_lt_trans a b c : key_le a b → str_lt b c → str_lt a c.
Proof. intros [?| ->]; [by etrans|done]. Qed.
Lemma key_le_trans a b c : key_le a b → key_le b c → key_le a c.
Proof. intros H1 [H2|<-]; [left; by eapply key_le_lt_trans|done]. Qed.

Lemma ltb_spec' a b : String.ltb a b = true ↔ str_lt a b.
Proof. done. Qed.
Lemma ltb_false a b : String.ltb a b = false ↔ key_le b a.
Proof.
  unfold key_le. destruct (String.ltb a b) eqn:E.
  - split; [done|]. intros [H| ->]; [by destruct (str_lt_asym a b)|by destruct (irreflexivity str_lt a)].
  - split; [intros _|done]. destruct (str_lt_trichotomy a b) as [H|[->|H]]; [|by right|by left]. congruence.
Qed.

(** The position of a key splits the list. *)
Lemma Search_spec kv q : kv_sorted kv →
  let '(ind, found) := Search kv q in
  (ind ≤ length kv)%nat ∧ Forall (λ x, str_lt (kv_Key x) q) (take ind kv) ∧
  if found : bool then ∃ x, kv !! ind = Some x ∧ kv_Key x = q ∧ Forall (λ y, str_lt q (kv_Key y)) (drop (ind + 1) kv)
  else Forall (λ x, str_lt q (kv_Key x)) (drop ind kv).
Proof.
  intros Hs. unfold Search. set (f := λ i, str_leb q (key_at kv i)).
  destruct (sort_Search_least (length kv) f) as (Hr & Hlt & Hge).
  { intros i j Hij Hj. unfold f, key_at. destruct (decide (i = j)) as [-> |]; [done|].
    destruct (kv !! i) as [x|] eqn:Hi; [|apply lookup_ge_None in Hi; lia].
    destruct (kv !! j) as [y|] eqn:Hy; [|apply lookup_ge_None in Hy; lia].
    pose proof (ssorted_lookup _ _ i j x y Hs ltac:(lia) Hi Hy) as Hxy. cbn in Hxy.
    rewrite !str_leb_spec. intros Hq. left. by eapply key_le_lt_trans. }
  set (r := sort_Search (length kv) f) in *. split; [done|]. split.
  { apply Forall_forall. intros x [i Hi]%list_elem_of_lookup. apply lookup_take_Some in Hi as [Hi Hir].
    specialize (Hlt i Hir). unfold f, key_at in Hlt. rewrite Hi in Hlt.
    destruct (str_lt_trichotomy (kv_Key x) q) as [?|Hc]; [done|]. exfalso.
    assert (str_leb q (kv_Key x) = true); [|congruence]. apply str_leb_spec. destruct Hc; auto. }
  assert (∀ i x, (r ≤ i)%nat → kv !! i = Some x → key_le q (kv_Key x)) as Hge'.
  { intros i x Hri Hi. specialize (Hge i Hri (lookup_lt_Some _ _ _ Hi)). unfold f, key_at in Hge. rewrite Hi in Hge.
    by apply str_leb_spec in Hge. }
  destruct (Nat.eqb_spec r (length kv)) as [Heq|Hne]; cbn [negb andb].
  { rewrite Heq, drop_ge by lia. constructor. }
  destruct (kv !! r) as [x|] eqn:Hx; [|apply lookup_ge_None in Hx; lia]. unfold key_at. rewrite Hx.
  assert (∀ i y, (r < i)%nat → kv !! i = Some y → str_lt (kv_Key x) (kv_Key y)) as Hafter.
  { intros i y Hri Hy. by apply (ssorted_lookup _ _ r i x y Hs Hri Hx Hy). }
  destruct (String.eqb_spec q (kv_Key x)) as [-> |Hq].
  - exists x. split_and!; [done|done|]. apply Forall_forall. intros y [i Hi]%list_elem_of_lookup.
    rewrite lookup_drop in Hi. eapply Hafter; [|exact Hi]. lia.
  - apply Forall_forall. intros y [i Hi]%list_elem_of_lookup. rewrite lookup_drop in Hi.
    destruct (Hge' r x ltac:(lia) Hx) as [Hlt'|?]; [|done].
    destruct (decide (i = 0%nat)) as [-> |]; [rewrite Nat.add_0_r, Hx in Hi; by injection Hi as <-|].
    etrans; [exact Hlt'|]. eapply Hafter; [|exact Hi]. lia.
Qed.

Definition known_type (e : Event) : Prop := ev_Type e = PUT ∨ ev_Type e = DELETE.

Lemma kv_sorted_snoc kv x : kv_sorted kv → Forall (λ y, str_lt (kv_Key y) (kv_Key x)) kv → kv_sorted (kv ++ [x]).
Proof.
  intros Hs Hx. apply ssorted_app. split_and!; [done|repeat constructor|]. intros y z Hy Hz%list_elem_of_singleton. subst z.
  rewrite Forall_forall in Hx. auto.
Qed.

Definition olist (o : option (KeyValue D)) : KeyValues := match o with Some x => [x] | None => [] end.

(** A list that reaches to the key [q]: what precedes it, and its value if there is one. *)
Record reaches (q : string) (init : KeyValues) (o : option (KeyValue D)) : Prop := {
  rc_sorted : kv_sorted init;
  rc_before : Forall (λ x, str_lt (kv_Key x) q) init;
  rc_tail x : o = Some x → kv_Key x = q;
}.

Lemma reaches_spec q init o : reaches q init o →
  kv_sorted (init ++ olist o) ∧ Forall (λ x, key_le (kv_Key x) q) (init ++ olist o) ∧
  ∀ p, kv_lookup (init ++ olist o) p = if decide (p = q) then o else kv_lookup init p.
Proof.
  intros [Hi Hil Ho]. split_and!.
  - destruct o as [x|]; cbn [olist]; [|by rewrite app_nil_r]. apply kv_sorted_snoc; [done|]. by rewrite (Ho x eq_refl).
  - apply Forall_app. split; [eapply Forall_impl; [exact Hil|]; by left|].
    destruct o as [x|]; [|constructor]. apply Forall_singleton. right. by apply Ho.
  - intros p. rewrite kv_lookup_app. case_decide as Hp; [subst p|].
    + rewrite kv_lookup_none by (eapply Forall_impl; [exact Hil|]; intros y Hy; by apply str_lt_ne).
      destruct o as [x|]; [|done]. simpl. by rewrite (Ho x eq_refl), String.eqb_refl.
    + destruct (kv_lookup init p); [done|]. destruct o as [x|]; [|done]. simpl.
      by rewrite (Ho x eq_refl), (proj2 (String.eqb_neq _ _)) by congruence.
Qed.

Lemma reaches_split q kv : kv_sorted kv → Forall (λ x, key_le (kv_Key x) q) kv →
  ∃ init o, kv = init ++ olist o ∧ reaches q init o.
Proof.
  intros Hs Hle. destruct (list_snoc_cases kv) as [-> |(init & t & ->)].
  { exists [], None. split; [done|]. split; [done|constructor|done]. }
  apply Forall_app in Hle as [_ Ht]. apply Forall_inv in Ht. pose proof Hs as Hs'.
  apply ssorted_app in Hs as (Hsi & _ & Hit).
  assert (Forall (λ x, str_lt (kv_Key x) (kv_Key t)) init) as Hi by (apply Forall_forall; intros x Hx; apply Hit; [done|by left]).
  destruct Ht as [Hlt|Heq].
  - exists (init ++ [t]), None. split; [by rewrite app_nil_r|]. split; [done| |done]. apply Forall_app.
    split; [|by apply Forall_singleton]. eapply Forall_impl; [exact Hi|]. intros x Hx.
    eapply (transitivity (R := str_lt)); [exact Hx|exact Hlt].
  - exists init, (Some t). split; [done|]. rewrite <- Heq. split; [done|done|by intros x [= <-]].
Qed.

Lemma updateKeyValuesTail_reaches init o e :
  reaches (ev_Key e) init o → known_type e →
  ∃ err, updateKeyValuesTail decode (init ++ olist o) e = Ret (init ++ olist (apply_event o e), err).
Proof.
  intros [Hs Hb Ho] Ht. unfold updateKeyValuesTail, apply_event. destruct o as [t|]; cbn [olist].
  - rewrite last_snoc, (Ho t eq_refl). rewrite (proj2 (ltb_false _ _)) by (by right).
    destruct (Z.leb_spec (ev_Mod e) (k_ModRevision (Raw t))); [by eexists|].
    rewrite length_app. cbn [length]. replace (length init + 1 - 1)%nat with (length init) by lia. rewrite take_app_length.
    destruct Ht as [-> | ->]; [destruct (decode (ev_Kv e))|]; cbn [olist]; rewrite ?app_nil_r; by eexists.
  - rewrite app_nil_r. assert (∀ t, last init = Some t → str_lt (kv_Key t) (ev_Key e)) as Hl.
    { intros t [l ->]%last_Some. apply Forall_app in Hb as [_ Hb]. by apply Forall_inv in Hb. }
    destruct (last init) as [t|].
    + specialize (Hl t eq_refl). rewrite (proj2 (ltb_false _ _)) by (by left). rewrite (Hl : String.ltb _ _ = true).
      destruct Ht as [-> | ->]; [destruct (decode (ev_Kv e))|]; cbn [olist]; rewrite ?app_nil_r; by eexists.
    + destruct Ht as [-> | ->]; [destruct (decode (ev_Kv e))|]; cbn [olist]; rewrite ?app_nil_r; by eexists.
Qed.

Lemma apply_event_key o e : (∀ x, o = Some x → kv_Key x = ev_Key e) → ∀ x, apply_event o e = Some x → kv_Key x = ev_Key e.
Proof.
  intros Ho x. unfold apply_event. destruct o as [t|]; repeat case_match; try done; try (intros [= <-]); auto.
Qed.

(** Of a list that reaches to the key of the event at most. *)
Lemma updateKeyValuesTail_spec kv e :
  kv_sorted kv → Forall (λ x, key_le (kv_Key x) (ev_Key e)) kv → known_type e →
  ∃ kv' err, updateKeyValuesTail decode kv e = Ret (kv', err) ∧ kv_sorted kv' ∧
    Forall (λ x, key_le (kv_Key x) (ev_Key e)) kv' ∧
    ∀ q, kv_lookup kv' q = if decide (q = ev_Key e) then apply_event (kv_lookup kv q) e else kv_lookup kv q.
Proof.
  intros Hs Hle Ht. destruct (reaches_split _ _ Hs Hle) as (init & o & -> & Hr).
  destruct (updateKeyValuesTail_reaches init o e Hr Ht) as [err Hu]. exists (init ++ olist (apply_event o e)), err.
  assert (reaches (ev_Key e) init (apply_event o e)) as Hr' by (destruct Hr; split; [done|done|by apply apply_event_key]).
  destruct (reaches_spec _ _ _ Hr) as (_ & _ & Hl). destruct (reaches_spec _ _ _ Hr') as (? & ? & Hl').
  split_and!; [done|done|done|]. intros q. rewrite Hl', Hl. by case_decide.
Qed.

(** ** The merge *)

(** The order in which events are merged. *)
Definition ev_lt (a b : Event) : Prop := str_lt (ev_Key a) (ev_Key b) ∨ ev_Key a = ev_Key b ∧ ev_Mod a < ev_Mod b.

Lemma ev_lt_trans a b c : ev_lt a b → ev_lt b c → ev_lt a c.
Proof.
  unfold ev_lt. intros [H1|[H1 H1']] [H2|[H2 H2']].
  - left. by etrans.
  - left. by rewrite <- H2.
  - left. by rewrite H1.
  - right. split; [congruence|lia].
Qed.

Lemma ev_lt_irrefl a : ¬ ev_lt a a.
Proof. intros [H|[_ H]]; [by apply (irreflexivity str_lt (ev_Key a))|lia]. Qed.

Definition ev_id (e : Event) : string * Z := (ev_Key e, ev_Mod e).

Lemma ev_lt_total a b : ev_id a ≠ ev_id b → ev_lt a b ∨ ev_lt b a.
Proof.
  unfold ev_id, ev_lt. intros Hne. destruct (str_lt_trichotomy (ev_Key a) (ev_Key b)) as [?|[Heq|?]]; [auto| |auto].
  assert (ev_Mod a ≠ ev_Mod b) by congruence. destruct (Z.lt_total (ev_Mod a) (ev_Mod b)) as [?|[?|?]]; auto; done.
Qed.

Definition head_lt (a b : list Event) : Prop :=
  match a, b with [], _ :: _ => True | x :: _, y :: _ => ev_lt x y | _, [] => False end.

Lemma heap_Less_spec a b : heap_Less a b = true ↔ head_lt a b.
Proof.
  destruct a as [|x a], b as [|y b]; cbn; try done. unfold ev_lt. destruct (String.eqb_spec (ev_Key x) (ev_Key y)) as [Heq|Hne].
  - rewrite Z.ltb_lt. split; [auto|]. intros [H|[_ H]]; [by destruct (str_lt_ne _ _ H)|done].
  - split; [auto|]. by intros [H|[H _]].
Qed.

Lemma head_lt_trans a b c : head_lt a b → head_lt b c → head_lt a c.
Proof. destruct a, b, c; cbn; try done. apply ev_lt_trans. Qed.

Lemma heap_pop_spec l : ∀ best,
  let '(m, rest) := heap_pop best l in
  m :: rest ≡ₚ best :: l ∧ (m = best ∨ head_lt m best) ∧ Forall (λ x, ¬ head_lt x m) rest.
Proof.
  induction l as [|x l IH]; intros best; cbn [heap_pop]; [split_and!; [done|by left|constructor]|].
  destruct (heap_Less x best) eqn:Hx.
  - apply heap_Less_spec in Hx. specialize (IH x). destruct (heap_pop x l) as [m rest]. destruct IH as (Hp & Hm & Hr).
    split_and!.
    + rewrite Permutation_swap, Hp. done.
    + right. destruct Hm as [-> |Hm]; [done|by eapply head_lt_trans].
    + constructor; [|done]. intros Hb. destruct Hm as [-> |Hm].
      * assert (head_lt x x) as Hxx by (by eapply head_lt_trans). destruct x; [done|]. by apply ev_lt_irrefl in Hxx.
      * assert (head_lt m m) as Hmm by (eapply head_lt_trans; [exact Hm|by eapply head_lt_trans]). destruct m; [done|]. by apply ev_lt_irrefl in Hmm.
  - assert (¬ head_lt x best) as Hx' by (rewrite <- heap_Less_spec; congruence).
    specialize (IH best). destruct (heap_pop best l) as [m rest]. destruct IH as (Hp & Hm & Hr). split_and!; [|done|].
    + rewrite Permutation_swap, Hp. by rewrite Permutation_swap.
    + constructor; [|done]. intros Hb. destruct Hm as [-> |Hm]; [done|]. apply Hx'. by eapply head_lt_trans.
Qed.

(** What is left to merge: each response in order, and no two events of one key at a revision. *)
Record heap_ok (heap : list (list Event)) : Prop := {
  hp_sorted : Forall (StronglySorted ev_lt) heap;
  hp_distinct : NoDup (ev_id <$> concat heap);
  hp_types : Forall known_type (concat heap);
}.

Lemma concat_perm (l l' : list (list Event)) : l ≡ₚ l' → concat l ≡ₚ concat l'.
Proof.
  induction 1 as [|x l l' _ IH|x y l|l1 l2 l3 _ IH1 _ IH2]; cbn; [done|by rewrite IH| |by etrans].
  rewrite !app_assoc. by rewrite (Permutation_app_comm y x).
Qed.

Lemma heap_ok_perm l l' : l ≡ₚ l' → heap_ok l → heap_ok l'.
Proof.
  intros Hp [H1 H2 H3]. pose proof (concat_perm _ _ Hp) as Hc. split.
  - by rewrite <- Hp.
  - by rewrite <- Hc.
  - by rewrite <- Hc.
Qed.

(** The event that is popped precedes all others. *)
Lemma heap_min e rest heap :
  heap_ok ((e :: rest) :: heap) → Forall (λ x, ¬ head_lt x (e :: rest)) heap →
  heap_ok (rest :: heap) ∧ Forall (ev_lt e) (concat (rest :: heap)) ∧ known_type e.
Proof.
  intros [Hs Hd Ht] Hmin. apply Forall_cons in Hs as [Her Hs]. apply StronglySorted_inv in Her as [Hrest He].
  cbn [concat app] in *. rewrite fmap_cons in Hd. apply NoDup_cons in Hd as [Hni Hd]. apply Forall_cons in Ht as [Hte Ht].
  split_and!; [split; [by constructor|done|done]| |done]. apply Forall_app. split; [done|].
  apply Forall_forall. intros x Hx. assert (ev_id e ≠ ev_id x) as Hne.
  { intros Heq. apply Hni. rewrite Heq. apply list_elem_of_fmap_2. apply elem_of_app. by right. }
  apply list_elem_of_In, in_concat in Hx as (l & Hl%list_elem_of_In & Hxl%list_elem_of_In).
  rewrite Forall_forall in Hmin, Hs. specialize (Hmin l Hl). specialize (Hs l Hl).
  destruct l as [|y l]; [by apply not_elem_of_nil in Hxl|]. cbn in Hmin. apply StronglySorted_inv in Hs as [_ Hy]. rewrite Forall_forall in Hy.
  destruct (ev_lt_total e x Hne) as [?|Hxe]; [done|]. exfalso. apply Hmin.
  apply elem_of_cons in Hxl as [-> |Hxl]; [done|]. eapply ev_lt_trans; [by apply Hy|done].
Qed.

Lemma rounds_pop best l m rest : heap_pop best l = (m, rest) → rounds (best :: l) = (S (length m) + rounds rest)%nat.
Proof.
  intros Hp. pose proof (heap_pop_spec l best) as Hs. rewrite Hp in Hs. destruct Hs as (Hperm & _ & _).
  unfold rounds. change (S (length m) + sum_list_with (λ l, S (length l)) rest)%nat with (sum_list_with (λ l : list Event, S (length l)) (m :: rest)).
  clear -Hperm. induction Hperm; cbn; lia.
Qed.

Lemma heap_pop_ok best l m rest :
  heap_pop best l = (m, rest) → heap_ok (best :: l) →
  heap_ok (m :: rest) ∧ concat (m :: rest) ≡ₚ concat (best :: l) ∧ Forall (λ x, ¬ head_lt x m) rest.
Proof.
  intros Hp Hok. pose proof (heap_pop_spec l best) as Hs. rewrite Hp in Hs. destruct Hs as (Hperm & _ & Hmin).
  split_and!; [by eapply heap_ok_perm; [symmetry; exact Hperm|]|by apply concat_perm|done].
Qed.

(** The keys copied to [next] before an event of key [q] is applied. *)
Lemma Search_copies current q :
  kv_sorted current →
  let '(ind, found) := Search current q in
  let k := if found : bool then (ind + 1)%nat else ind in
  Forall (λ x, key_le (kv_Key x) q) (take k current) ∧ Forall (λ x, str_lt q (kv_Key x)) (drop k current).
Proof.
  intros Hs. pose proof (Search_spec current q Hs) as Hsp. destruct (Search current q) as [ind found].
  destruct Hsp as (Hi & Hlt & Hf). destruct found; cbn zeta.
  - destruct Hf as (x & Hx & Hkx & Hgt). split; [|done]. rewrite Nat.add_1_r, (take_S_r _ _ _ Hx).
    apply Forall_app. split; [eapply Forall_impl; [exact Hlt|]; by left|]. apply Forall_singleton. by right.
  - split; [eapply Forall_impl; [exact Hlt|]; by left|done].
Qed.

(** The events of a key, in the order they are merged. *)
Definition events_of (q : string) (l : list Event) : list Event := filter (λ e, ev_Key e = q) l.

Lemma kv_sorted_app kv1 kv2 :
  kv_sorted (kv1 ++ kv2) ↔ kv_sorted kv1 ∧ kv_sorted kv2 ∧ ∀ x y, x ∈ kv1 → y ∈ kv2 → str_lt (kv_Key x) (kv_Key y).
Proof. apply ssorted_app. Qed.

(** One round that takes an event. *)
Lemma merge_round current next e :
  kv_sorted (next ++ current) → Forall (λ x, key_le (kv_Key x) (ev_Key e)) next → known_type e →
  let '(ind, found) := Search current (ev_Key e) in
  let k := if found : bool then (ind + 1)%nat else ind in
  ∃ next' err, updateKeyValuesTail decode (next ++ take k current) e = Ret (next', err) ∧
    kv_sorted (next' ++ drop k current) ∧ Forall (λ x, key_le (kv_Key x) (ev_Key e)) next' ∧
    ∀ q, kv_lookup (next' ++ drop k current) q =
      if decide (q = ev_Key e) then apply_event (kv_lookup (next ++ current) q) e else kv_lookup (next ++ current) q.
Proof.
  intros Hs Hn Ht. apply kv_sorted_app in Hs as (Hsn & Hsc & Hnc).
  pose proof (Search_copies current (ev_Key e) Hsc) as Hcp. destruct (Search current (ev_Key e)) as [ind found].
  set (k := if found then (ind + 1)%nat else ind) in *. destruct Hcp as [Hle Hgt].
  assert (kv_sorted (take k current) ∧ kv_sorted (drop k current)) as [Hst Hsd].
  { rewrite <- (take_drop k current) in Hsc. by apply kv_sorted_app in Hsc as (? & ? & _). }
  assert (∀ x, x ∈ take k current → x ∈ current) as Hsub.
  { intros x Hx. rewrite <- (take_drop k current). apply elem_of_app. by left. }
  destruct (updateKeyValuesTail_spec (next ++ take k current) e) as (next' & err & Hu & Hs' & Hle' & Hl').
  - apply kv_sorted_app. split_and!; [done|done|]. auto.
  - by apply Forall_app.
  - done.
  - exists next', err. rewrite Forall_forall in Hgt, Hle'. split_and!; [done| |by apply Forall_forall|].
    + apply kv_sorted_app. split_and!; [done|done|]. intros x y Hx Hy. eapply key_le_lt_trans; [by apply Hle'|by apply Hgt].
    + intros q. assert (next ++ current = (next ++ take k current) ++ drop k current) as -> by (by rewrite <- app_assoc, take_drop).
    rewrite (kv_lookup_app next'), Hl', (kv_lookup_app (next ++ take k current)).
      case_decide as Hq; [subst q|done].
      rewrite (kv_lookup_none (drop k current)) by (apply Forall_forall; intros y Hy; symmetry; by apply str_lt_ne, Hgt).
      destruct (kv_lookup (next ++ take k current) (ev_Key e)) as [x|]; by destruct (apply_event _ e).
Qed.

Lemma merge_loop_spec fuel : ∀ heap current next,
  (rounds heap ≤ fuel)%nat → heap_ok heap → kv_sorted (next ++ current) →
  Forall (λ e, Forall (λ x, key_le (kv_Key x) (ev_Key e)) next) (concat heap) →
  ∃ kv P, merge_loop decode fuel heap current next = Ret kv ∧ P ≡ₚ concat heap ∧ StronglySorted ev_lt P ∧ kv_sorted kv ∧
    ∀ q, kv_lookup kv q = foldl apply_event (kv_lookup (next ++ current) q) (events_of q P).
Proof.
  induction fuel as [|fuel IH]; intros [|h heap] current next Hf Hok Hs Hn; cbn [merge_loop];
    [by exists (next ++ current), []; split_and!; [..|constructor| |]|cbn in Hf; lia|by exists (next ++ current), []; split_and!; [..|constructor| |]|].
  destruct (heap_pop h heap) as [m rest] eqn:Hp. pose proof (rounds_pop _ _ _ _ Hp) as Hrd.
  destruct (heap_pop_ok _ _ _ _ Hp Hok) as (Hok1 & Hperm & Hmin). rewrite <- Hperm in Hn.
  destruct m as [|e l].
  { destruct (IH rest current next) as (kv & P & Hm & HP & Hrest); [cbn in *; lia| |done|done|].
    - destruct Hok1 as [H1 H2 H3]. by apply Forall_cons in H1 as [_ H1].
    - exists kv, P. split; [done|]. split; [by rewrite HP, <- Hperm|done]. }
  destruct (heap_min e l rest Hok1 Hmin) as (Hok2 & Hlt & Ht).
  cbn [concat app] in Hn. apply Forall_cons in Hn as [Hne Hn].
  pose proof (merge_round current next e Hs Hne Ht) as Hr. destruct (Search current (ev_Key e)) as [ind found].
  destruct Hr as (next' & err & -> & Hs' & Hle' & Hl'). cbn [outcome_bind].
  destruct (IH (l :: rest) (drop (if found then (ind + 1)%nat else ind) current) next') as (kv & P & Hm & HP & HPs & Hkv & Hlk);
    [change (rounds (l :: rest)) with (S (length l) + rounds rest)%nat; cbn [length] in Hrd; lia|done|exact Hs'| |].
  { eapply Forall_impl; [exact Hlt|]. intros e' He'. eapply Forall_impl; [exact Hle'|]. intros x Hx.
    eapply key_le_trans; [exact Hx|]. destruct He' as [?|[? _]]; [by left|by right]. }
  exists kv, (e :: P). split_and!; [done| | |done|].
  - by rewrite HP, <- Hperm.
  - constructor; [done|]. by rewrite HP.
  - intros q. rewrite Hlk, Hl'. unfold events_of. rewrite filter_cons. case_decide as Hq; case_decide as Hq'; subst; done.
Qed.

(** ** Apply *)

Lemma insert_event_perm e l : insert_event e l ≡ₚ e :: l.
Proof.
  induction l as [|x l IH]; cbn; [done|]. destruct (str_leb _ _); [done|]. rewrite IH. apply Permutation_swap.
Qed.

Lemma sort_events_perm l : sort_events l ≡ₚ l.
Proof. induction l as [|x l IH]; cbn; [done|]. by rewrite insert_event_perm, IH. Qed.

(** Revisions of a key grow. *)
Definition revised (a b : Event) : Prop := ev_Key a = ev_Key b → ev_Mod a < ev_Mod b.

Lemma insert_event_sorted e l :
  StronglySorted ev_lt l → Forall (revised e) l → StronglySorted ev_lt (insert_event e l).
Proof.
  induction 1 as [|x l Hs IH Hx]; cbn; [by repeat constructor|]. intros [Hex Hel]%Forall_cons.
  destruct (str_leb (ev_Key e) (ev_Key x)) eqn:Hle.
  - apply str_leb_spec in Hle. assert (ev_lt e x) as Hlt by (destruct Hle as [?|Heq]; [by left|right; split; [done|by apply Hex]]).
    constructor; [by constructor|]. constructor; [done|]. eapply Forall_impl; [exact Hx|]. intros y Hy. by eapply ev_lt_trans.
  - constructor; [by apply IH|]. rewrite insert_event_perm. constructor; [|done]. left.
    destruct (str_lt_trichotomy (ev_Key x) (ev_Key e)) as [?|Hc]; [done|].
    assert (str_leb (ev_Key e) (ev_Key x) = true); [|congruence]. apply str_leb_spec. destruct Hc; auto.
Qed.

Lemma sort_events_sorted l : StronglySorted revised l → StronglySorted ev_lt (sort_events l).
Proof.
  induction 1 as [|x l Hs IH Hx]; cbn; [constructor|]. apply insert_event_sorted; [done|]. by rewrite sort_events_perm.
Qed.

Definition all_events (responses : list WatchResponse) : list Event := concat (wr_Events <$> responses).

(** What Etcd promises of responses: within one, the events of a key come by revision; no two
    events are of one key and revision; puts and deletes are the only types. *)
Record etcd_ok (responses : list WatchResponse) : Prop := {
  ek_ordered : Forall (λ wr, StronglySorted revised (wr_Events wr)) responses;
  ek_distinct : NoDup (ev_id <$> all_events responses);
  ek_types : Forall known_type (all_events responses);
}.

Lemma sorted_events_perm responses :
  concat ((λ wr, sort_events (wr_Events wr)) <$> responses) ≡ₚ all_events responses.
Proof.
  unfold all_events. induction responses as [|wr l IH]; [done|]. rewrite !fmap_cons. cbn [concat]. by rewrite IH, sort_events_perm.
Qed.

Lemma etcd_heap_ok responses : etcd_ok responses → heap_ok ((λ wr, sort_events (wr_Events wr)) <$> responses).
Proof.
  intros [H1 H2 H3]. split.
  - apply Forall_fmap. eapply Forall_impl; [exact H1|]. intros wr Hwr. by apply sort_events_sorted.
  - by rewrite sorted_events_perm.
  - by rewrite sorted_events_perm.
Qed.

Definition mod_lt (a b : Event) : Prop := ev_Mod a < ev_Mod b.

#[local] Instance mod_lt_antisymm : AntiSymm (=) mod_lt.
Proof. intros a b. unfold mod_lt. lia. Qed.

Lemma events_of_sorted q P : StronglySorted ev_lt P → StronglySorted mod_lt (events_of q P).
Proof.
  induction 1 as [|x P Hs IH Hx]; unfold events_of; [constructor|]. rewrite filter_cons. case_decide as Hq; [|done].
  constructor; [done|]. rewrite Forall_forall in Hx |- *. intros y [Hyq Hy]%list_elem_of_filter.
  destruct (Hx y Hy) as [Hlt|[_ ?]]; [|done]. rewrite Hq, Hyq in Hlt. by apply (irreflexivity str_lt q) in Hlt.
Qed.

Lemma patchHeader_grows h u same h' err :
  patchHeader h u same = (h', err) → rh_Revision h ≤ rh_Revision h' ∧ (err = None → h' = u) ∧ (err ≠ None → h' = h).
Proof. unfold patchHeader. repeat case_match; intros [= <- <-]; split_and!; intros; simplify_eq; try done; try congruence; destruct same; cbn in *; lia. Qed.

(** C19: a batch of watch responses is applied to each key as if its events were applied to
    the key alone, one by one and by revision, however they are spread over the responses.
    Keys stay in order, so that searches of the key space are right. If the header of the batch
    does not fit, the key/values stay as they are. It never panics. *)
Theorem KeySpace_Apply_correct IsProgressNotify ks responses :
  kv_sorted (ks_KeyValues ks) → etcd_ok responses →
  ∃ ks' err, KeySpace_Apply decode IsProgressNotify ks responses = Ret (ks', err) ∧
    kv_sorted (ks_KeyValues ks') ∧ rh_Revision (ks_Header ks) ≤ rh_Revision (ks_Header ks') ∧
    (err ≠ None → ks' = ks) ∧
    (err = None → ks_updates ks' = S (ks_updates ks) ∧ ∀ q l,
       l ≡ₚ events_of q (all_events responses) → StronglySorted mod_lt l →
       kv_lookup (ks_KeyValues ks') q = foldl apply_event (kv_lookup (ks_KeyValues ks) q) l).
Proof.
  intros Hs Hok. unfold KeySpace_Apply. destruct (patch_headers zeroHeader responses) as [hdr [err|]].
  { eexists ks, (Some err). split; [reflexivity|]. split_and!; [done|lia|done|done]. }
  set (heap := (λ wr, sort_events (wr_Events wr)) <$> responses).
  destruct (merge_loop_spec (rounds heap) heap (ks_KeyValues ks) []) as (kv & P & -> & HP & HPs & Hkv & Hl);
    [lia|by apply etcd_heap_ok|done|apply Forall_forall; intros; constructor|]. cbn [outcome_bind].
  destruct (patchHeader (ks_Header ks) hdr _) as [h [err|]] eqn:Hh; apply patchHeader_grows in Hh as (Hrev & _ & Hne).
  - eexists _, (Some err). split; [reflexivity|]. rewrite Hne by done. cbn. split_and!; [done|lia|by destruct ks|done].
  - eexists _, None. split; [reflexivity|]. cbn. split_and!; [done|done|done|]. intros _. split; [done|]. intros q l Hlp Hls.
    rewrite Hl. cbn [app]. f_equal. eapply (StronglySorted_unique mod_lt); [by apply events_of_sorted|done|].
    rewrite Hlp. unfold events_of. rewrite HP. subst heap. by rewrite (sorted_events_perm responses).
Qed.

(** What [IsProgressNotify] is documented to tell: a response that has no events, and is not one
    of the other kinds without events. *)
Definition documented_progress (IsProgressNotify : WatchResponse → bool) : Prop :=
  ∀ wr, IsProgressNotify wr = true ↔
    wr_Events wr = [] ∧ wr_Canceled wr = false ∧ wr_Created wr = false ∧ wr_CompactRevision wr = 0 ∧
    rh_Revision (wr_Header wr) ≠ 0.

(** The revision of a batch has to be greater than the one of the key space, unless it is
    a single progress notification. But a single response with events is accepted at the
    revision of the key space too: the merge has emptied it before it is asked for its kind. *)
Theorem Apply_repeats_revision IsProgressNotify ks wr :
  documented_progress IsProgressNotify →
  kv_sorted (ks_KeyValues ks) → etcd_ok [wr] →
  wr_Events wr ≠ [] → wr_Canceled wr = false → wr_Created wr = false → wr_CompactRevision wr = 0 →
  0 < rh_Revision (wr_Header wr) → rh_Revision (wr_Header wr) = rh_Revision (ks_Header ks) →
  rh_ClusterId (wr_Header wr) = rh_ClusterId (ks_Header ks) →
  IsProgressNotify wr = false ∧
  ∃ ks', KeySpace_Apply decode IsProgressNotify ks [wr] = Ret (ks', None) ∧ ks_updates ks' = S (ks_updates ks).
Proof.
  intros Hdoc Hs Hok Hne Hc Hcr Hcomp Hpos Hrev Hid. split.
  { apply not_true_is_false. rewrite (Hdoc wr). by intros []. }
  unfold KeySpace_Apply. cbn [patch_headers]. unfold patchHeader at 1. cbn -[merge_loop rounds].
  assert ((rh_Revision (wr_Header wr) <=? 0) = false) as -> by lia. cbn -[merge_loop rounds].
  set (heap := [sort_events (wr_Events wr)]).
  destruct (merge_loop_spec (rounds heap) heap (ks_KeyValues ks) []) as (kv & P & -> & _);
    [lia|by apply (etcd_heap_ok [wr])|done|apply Forall_forall; intros; constructor|]. cbn [outcome_bind].
  rewrite (proj2 (Hdoc (with_Events wr []))) by (cbn; split_and!; try done; lia).
  unfold patchHeader. rewrite Hrev, Hid, !Z.eqb_refl. cbn. rewrite andb_false_r, Z.ltb_irrefl. cbn. eauto.
Qed.

(** ** Ranges *)

Lemma Range_spec kv from to :
  kv_sorted kv → Range kv from to = filter (λ x, key_le from (kv_Key x) ∧ str_lt (kv_Key x) to) kv.
Proof.
  intros Hs. unfold Range.
  assert (∀ l q, kv_sorted l → let i := fst (Search l q) in
    Forall (λ x, str_lt (kv_Key x) q) (take i l) ∧ Forall (λ x, key_le q (kv_Key x)) (drop i l)) as Hsp.
  { intros l q Hl. pose proof (Search_spec l q Hl) as H. destruct (Search l q) as [i found]. cbn. destruct H as (Hi & Hlt & Hf).
    split; [done|]. destruct found; [|eapply Forall_impl; [exact Hf|]; by left].
    destruct Hf as (x & Hx & Hkx & Hgt). rewrite (drop_S _ _ _ Hx). constructor; [by right|].
    rewrite <- Nat.add_1_r. eapply Forall_impl; [exact Hgt|]. by left. }
  destruct (Hsp kv from Hs) as [H1 H2]. set (i := fst (Search kv from)) in *.
  assert (kv_sorted (drop i kv)) as Hsd by (rewrite <- (take_drop i kv) in Hs; by apply kv_sorted_app in Hs as (_ & ? & _)).
  destruct (Hsp (drop i kv) to Hsd) as [H3 H4]. set (j := fst (Search (drop i kv) to)) in *.
  trans (filter (λ x, key_le from (kv_Key x) ∧ str_lt (kv_Key x) to)
    (take i kv ++ take j (drop i kv) ++ drop j (drop i kv))); [|by rewrite !take_drop]. rewrite !filter_app.
  rewrite (list_filter_none _ (take i kv)), (list_filter_none _ (drop j _)), list_filter_all, app_nil_r; [done|..].
  - intros x Hx. rewrite Forall_forall in H2, H3. split; [|by apply H3]. apply H2.
    rewrite <- (take_drop j (drop i kv)). apply elem_of_app. by left.
  - intros x Hx [_ Hlt]. rewrite Forall_forall in H4. destruct (H4 x Hx) as [Hc| ->]; [by destruct (str_lt_asym _ _ Hc)|].
    by apply (irreflexivity str_lt) in Hlt.
  - intros x Hx [Hle _]. rewrite Forall_forall in H1. specialize (H1 x Hx).
    assert (str_lt from from) as Hff by (by eapply key_le_lt_trans). by apply (irreflexivity str_lt) in Hff.
Qed.

(** [Range] is the key/values whose keys lie in [from, to). *)
Theorem Range_correct kv from to :
  kv_sorted kv → Range kv from to = filter (λ x, key_le from (kv_Key x) ∧ str_lt (kv_Key x) to) kv.
Proof. apply Range_spec. Qed.

(** ** Load *)

Definition decoded (l : list RawKV) : list (KeyValue D) :=
  omap (λ raw, match decode raw with inl d => Some (mkKV raw d) | inr _ => None end) l.

Lemma decoded_keys l x : x ∈ decoded l → Raw x ∈ l.
Proof. intros (raw & Hraw & Hx)%list_elem_of_omap. destruct (decode raw); [|done]. by injection Hx as <-. Qed.

Lemma load_kvs_spec l : ∀ kv,
  kv_sorted kv → StronglySorted (λ a b, str_lt (k_Key a) (k_Key b)) l →
  (∀ x raw, x ∈ kv → raw ∈ l → str_lt (kv_Key x) (k_Key raw)) →
  load_kvs decode kv l = Ret (kv ++ decoded l) ∧ kv_sorted (kv ++ decoded l).
Proof.
  induction l as [|raw l IH]; intros kv Hs Hl Hlt; cbn [load_kvs decoded omap list_omap]; [by rewrite app_nil_r|].
  apply StronglySorted_inv in Hl as [Hl Hraw]. rewrite Forall_forall in Hraw. unfold appendKeyValue.
  assert (match last kv with Some x => negb (String.ltb (kv_Key x) (k_Key raw)) | None => false end = false) as ->.
  { destruct (last kv) as [x|] eqn:Hx; [|done]. apply last_Some in Hx as [init ->]. apply negb_false_iff.
    apply Hlt; [apply elem_of_app; right; by left|by left]. }
  destruct (decode raw) as [d|err] eqn:Hd; cbn [outcome_bind].
  - destruct (IH (kv ++ [mkKV raw d])) as [-> Hs']; [|done| |].
    + apply kv_sorted_snoc; [done|]. apply Forall_forall. intros y Hy. apply Hlt; [done|by left].
    + intros x r [Hx| ->%list_elem_of_singleton]%elem_of_app Hr; [apply Hlt; [done|by right]|by apply Hraw].
    + rewrite <- app_assoc in Hs' |- *. done.
  - apply IH; [done|done|]. intros x r Hx Hr. apply Hlt; [done|by right].
Qed.

Lemma load_responses_spec l : ∀ hdr kv,
  kv_sorted kv → StronglySorted (λ a b, str_lt (k_Key a) (k_Key b)) (concat (snd <$> l)) →
  (∀ x raw, x ∈ kv → raw ∈ concat (snd <$> l) → str_lt (kv_Key x) (k_Key raw)) →
  Forall (λ p, rh_ClusterId (fst p) = rh_ClusterId hdr ∨ rh_ClusterId hdr = 0) l →
  (∀ p, p ∈ l → rh_Revision hdr ≤ rh_Revision (fst p)) →
  (∀ p q, p ∈ l → q ∈ l → rh_ClusterId (fst p) = rh_ClusterId (fst q)) →
  StronglySorted (λ p q, rh_Revision (fst p) ≤ rh_Revision (fst q)) l →
  load_responses decode hdr kv l = Ret (default hdr (fst <$> last l), kv ++ decoded (concat (snd <$> l)), None) ∧
  kv_sorted (kv ++ decoded (concat (snd <$> l))).
Proof.
  induction l as [|[h kvs] l IH]; intros hdr kv Hs Hl Hlt Hid Hrev Hids Hrevs; [cbn; by rewrite app_nil_r|].
  cbn [load_responses fmap list_fmap concat snd] in *. apply StronglySorted_app in Hl as (Hx & Hk & Hrest).
  assert (patchHeader hdr h true = (h, None)) as ->.
  { unfold patchHeader. pose proof (Hrev (h, kvs) ltac:(by left)) as Hr. cbn in Hr. apply Forall_inv in Hid. cbn in Hid.
    assert ((rh_Revision h <? rh_Revision hdr) = false) as -> by lia. cbn.
    by destruct Hid as [-> | ->]; rewrite ?Z.eqb_refl, ?andb_false_r. }
  destruct (load_kvs_spec kvs kv) as [-> Hs']; [done..|intros; apply Hlt; [done|apply elem_of_app; by left]|]. cbn [outcome_bind].
  apply StronglySorted_inv in Hrevs as [Hrevs Hh]. rewrite Forall_forall in Hh.
  destruct (IH h (kv ++ decoded kvs)) as [-> Hs'']; [done|done|..|done|].
  - intros x raw [Hxk|Hxd]%elem_of_app Hraw; [apply Hlt; [done|apply elem_of_app; by right]|].
    apply Hx; [by apply decoded_keys in Hxd|done].
  - apply Forall_forall. intros p Hp. left. apply (Hids p (h, kvs)); [by right|by left].
  - intros p Hp. by apply (Hh p).
  - intros p q Hp Hq. apply Hids; by right.
  - unfold decoded in *. rewrite omap_app, app_assoc. split; [|done]. do 2 f_equal.
    rewrite last_cons. by destruct (last l) as [[]|].
Qed.

(** Loading a snapshot that the syncer sends as pages of one cluster, in key order and at
    revisions that do not go back, ends with the decodable key/values of the pages in key order,
    at the asked-for revision. No panic, and no error. *)
Theorem Load_correct ks rev l :
  StronglySorted (λ a b, str_lt (k_Key a) (k_Key b)) (concat (snd <$> l)) →
  (∀ p q, p ∈ l → q ∈ l → rh_ClusterId (fst p) = rh_ClusterId (fst q)) →
  StronglySorted (λ p q, rh_Revision (fst p) ≤ rh_Revision (fst q)) l →
  (∀ p, p ∈ l → 0 ≤ rh_Revision (fst p)) →
  ∃ ks', Load decode ks rev l = Ret (ks', None) ∧ rh_Revision (ks_Header ks') = rev ∧
    ks_KeyValues ks' = decoded (concat (snd <$> l)) ∧ kv_sorted (ks_KeyValues ks') ∧
    ks_updates ks' = S (ks_updates ks).
Proof.
  intros Hl Hids Hrevs Hpos. unfold Load.
  destruct (load_responses_spec l zeroHeader []) as [-> Hs]; [constructor|done|by intros ?? ?%elem_of_nil| |done..|].
  { apply Forall_forall. by right. }
  cbn [outcome_bind]. eexists. split; [reflexivity|]. by split_and!.
Qed.
End facts.

(** ** Witnesses *)

Definition demo_kv (key : string) (create mod_ ver : Z) (value : string) : RawKV := mkRaw key create mod_ ver value 0.
Definition demo_decode (raw : RawKV) : string + string :=
  if String.eqb (k_Value raw) "bad" then inr "bad value" else inl (k_Value raw).
Definition demo_header (rev : Z) : ResponseHeader := mkRespHeader 8675309 111 rev 222.
Definition demo_ks : KeySpace string :=
  mkKeySpace "/foo" (demo_header 10)
    [mkKV (demo_kv "/foo/a" 4 4 1 "1") "1"; mkKV (demo_kv "/foo/c" 5 10 2 "2") "2"] 0.
Definition demo_first : WatchResponse :=
  mkWatch (demo_header 12) [mkEvent PUT (demo_kv "/foo/c" 5 11 3 "3"); mkEvent PUT (demo_kv "/foo/b" 12 12 1 "4")] false false 0.
Definition demo_second : WatchResponse :=
  mkWatch (demo_header 14) [mkEvent DELETE (demo_kv "/foo/a" 0 13 0 ""); mkEvent PUT (demo_kv "/foo/b" 12 14 2 "bad")] false false 0.
Definition demo_progress (wr : WatchResponse) : bool :=
  (length (wr_Events wr) =? 0)%nat && negb (wr_Canceled wr) && negb (wr_Created wr) &&
  (wr_CompactRevision wr =? 0) && negb (rh_Revision (wr_Header wr) =? 0).

Lemma demo_sorted : kv_sorted (ks_KeyValues demo_ks).
Proof. repeat constructor. Qed.

Lemma demo_etcd_ok : etcd_ok [demo_first; demo_second].
Proof.
  split; [|by vm_compute; repeat constructor; set_solver|vm_compute; repeat (apply Forall_cons_2; [by auto|]); constructor].
  repeat (constructor; [|]); try done; repeat constructor; unfold revised; cbn; congruence.
Qed.

Lemma demo_progress_documented : documented_progress demo_progress.
Proof.
  intros wr. unfold demo_progress. rewrite !andb_true_iff, !negb_true_iff, Z.eqb_eq, Z.eqb_neq, Nat.eqb_eq, length_zero_iff_nil.
  tauto.
Qed.

Lemma KeySpace_Apply_correct_witness :
  (∃ ks', KeySpace_Apply demo_decode demo_progress demo_ks [demo_first; demo_second] = Ret (ks', None) ∧
     ((λ x, (k_Key (Raw x), Decoded x)) <$> ks_KeyValues ks') = [("/foo/b", "4"); ("/foo/c", "3")]) ∧
  ∃ ks' err, KeySpace_Apply demo_decode demo_progress demo_ks [demo_first; demo_second] = Ret (ks', err) ∧
    kv_sorted (ks_KeyValues ks') ∧ rh_Revision (ks_Header demo_ks) ≤ rh_Revision (ks_Header ks') ∧
    (err ≠ None → ks' = demo_ks) ∧
    (err = None → ks_updates ks' = S (ks_updates demo_ks) ∧ ∀ q l,
       l ≡ₚ events_of q (all_events [demo_first; demo_second]) → StronglySorted mod_lt l →
       kv_lookup (ks_KeyValues ks') q = foldl (apply_event demo_decode) (kv_lookup (ks_KeyValues demo_ks) q) l).
Proof.
  split; [eexists; split; vm_compute; reflexivity|].
  exact (KeySpace_Apply_correct demo_decode demo_progress demo_ks [demo_first; demo_second] demo_sorted demo_etcd_ok).
Defined.

Definition demo_repeat : WatchResponse :=
  mkWatch (demo_header 10) [mkEvent PUT (demo_kv "/foo/b" 9 9 1 "late")] false false 0.

Lemma demo_repeat_ok : etcd_ok [demo_repeat].
Proof.
  split; [|by vm_compute; repeat constructor; set_solver|vm_compute; repeat (apply Forall_cons_2; [by auto|]); constructor].
  by repeat constructor.
Qed.

Lemma Apply_repeats_revision_witness :
  demo_progress demo_repeat = false ∧
  ∃ ks', KeySpace_Apply demo_decode demo_progress demo_ks [demo_repeat] = Ret (ks', None) ∧
    ks_updates ks' = S (ks_updates demo_ks).
Proof.
  apply (Apply_repeats_revision demo_decode demo_progress demo_ks demo_repeat);
    [exact demo_progress_documented|exact demo_sorted|exact demo_repeat_ok|done..].
Defined.

Lemma Range_correct_witness :
  Range (ks_KeyValues demo_ks) "/foo/b" "/foo/d" =
    filter (λ x, key_le "/foo/b" (k_Key (Raw x)) ∧ str_lt (k_Key (Raw x)) "/foo/d") (ks_KeyValues demo_ks) ∧
  ((λ x, Decoded x) <$> Range (ks_KeyValues demo_ks) "/foo/b" "/foo/d") = ["2"].
Proof. split; [exact (Range_correct (ks_KeyValues demo_ks) "/foo/b" "/foo/d" demo_sorted)|reflexivity]. Defined.

Definition demo_pages : list (ResponseHeader * list RawKV) :=
  [(demo_header 20, [demo_kv "/foo/a" 4 4 1 "1"; demo_kv "/foo/b" 5 5 1 "bad"]); (demo_header 21, [demo_kv "/foo/c" 6 6 1 "3"])].

Lemma Load_correct_witness :
  ∃ ks', Load demo_decode demo_ks 19 demo_pages = Ret (ks', None) ∧ rh_Revision (ks_Header ks') = 19 ∧
    ks_KeyValues ks' = decoded demo_decode (concat (snd <$> demo_pages)) ∧ kv_sorted (ks_KeyValues ks') ∧
    ks_updates ks' = S (ks_updates demo_ks).
Proof.
  apply (Load_correct demo_decode demo_ks 19 demo_pages).
  - repeat constructor.
  - intros p q Hp Hq. unfold demo_pages in *. rewrite !elem_of_cons, elem_of_nil in Hp, Hq. by destruct Hp as [-> |[-> |[]]], Hq as [-> |[-> |[]]].
  - repeat constructor; cbn; lia.
  - intros p Hp. unfold demo_pages in *. rewrite !elem_of_cons, elem_of_nil in Hp. by destruct Hp as [-> |[-> |[]]].
Defined.
