(* ===== verification/PushRelabel.v ===== *)
(** * Maximum flow by push/relabel (src/v2/pkg/allocator/push_relabel/push_relabel.go)

    The allocator maps items to members by a maximum flow. Nodes point to each other; here the
    nodes of a network are a list and pointers are positions of it. The theorem: of a network
    that is labeled validly, [FindMaxFlow] ends, does not panic, and leaves a maximum flow. The
    proof does not need paths: a valid labeling of [n] nodes over [n] levels skips a level, and
    the nodes above the skipped level are a cut that the flow saturates. *)
From S2P Require Import Prelude.
Local Open Scope Z_scope.

(** ** Arcs and nodes *)

Record Arc := mkArc {
  Capacity : Z;
  Flow : Z;
  Priority : Z;
  reciprocal : nat;
  Target : nat;
}.

Record Node := mkNode {
  ID : Z;
  Height : Z;
  Arcs : list Arc;
  excess : Z;
  next : nat;
}.

Abbreviation network := (list Node).

Definition MaxInt8 : Z := 127.

Definition with_Flow (a : Arc) (f : Z) : Arc := mkArc (Capacity a) f (Priority a) (reciprocal a) (Target a).
Definition with_reciprocal (a : Arc) (r : nat) : Arc := mkArc (Capacity a) (Flow a) (Priority a) r (Target a).
Definition with_Height (n : Node) (h : Z) : Node := mkNode (ID n) h (Arcs n) (excess n) (next n).
Definition with_Arcs (n : Node) (l : list Arc) : Node := mkNode (ID n) (Height n) l (excess n) (next n).
Definition with_excess (n : Node) (e : Z) : Node := mkNode (ID n) (Height n) (Arcs n) e (next n).
Definition with_next (n : Node) (i : nat) : Node := mkNode (ID n) (Height n) (Arcs n) (excess n) i.

(** Updates in place, and reads, through a pointer. *)
Definition add_flow (i : nat) (d : Z) (n : Node) : Node :=
  with_Arcs n (alter (λ a, with_Flow a (int32 (Flow a + d))) i (Arcs n)).
Definition add_excess (d : Z) (n : Node) : Node := with_excess n (uint32 (excess n + d)).

Definition ht (net : network) (u : nat) : Z := match net !! u with Some n => Height n | None => 0 end.
Definition ex (net : network) (u : nat) : Z := match net !! u with Some n => excess n | None => 0 end.

(** ** Heaps of Go's container/heap, of nodes by descending height *)

Section heap.
Context (height : nat → Z).

Definition heap_less (h : list nat) (i j : nat) : bool :=
  match h !! i, h !! j with Some x, Some y => height y <? height x | _, _ => false end.

Definition heap_swap (h : list nat) (i j : nat) : list nat :=
  match h !! i, h !! j with Some x, Some y => <[i:=y]> (<[j:=x]> h) | _, _ => h end.

Fixpoint heap_up (fuel : nat) (h : list nat) (j : nat) : list nat :=
  match fuel with
  | O => h
  | S fuel =>
      let i := ((j - 1) / 2)%nat in
      if (i =? j)%nat || negb (heap_less h j i) then h else heap_up fuel (heap_swap h i j) i
  end.

Fixpoint heap_down (fuel : nat) (h : list nat) (i n : nat) : list nat :=
  match fuel with
  | O => h
  | S fuel =>
      let j1 := (2 * i + 1)%nat in
      if (n <=? j1)%nat then h
      else
        let j := if (j1 + 1 <? n)%nat && heap_less h (j1 + 1) j1 then (j1 + 1)%nat else j1 in
        if negb (heap_less h j i) then h else heap_down fuel (heap_swap h i j) j n
  end.

Definition heap_Push (h : list nat) (x : nat) : list nat := heap_up (length h) (h ++ [x]) (length h).

Definition heap_Pop (h : list nat) : option (nat * list nat) :=
  let n := (length h - 1)%nat in
  let h := heap_down n (heap_swap h 0 n) 0 n in
  match h !! n with Some x => Some (x, take n h) | None => None end.
End heap.

(** ** Discharge *)

(** The least height of a neighbor to which flow could be pushed. *)
Definition min_height (net : network) (arcs : list Arc) : Z :=
  foldl (λ m adj, if 0 <? int32 (Capacity adj - Flow adj) then Z.min m (ht net (Target adj)) else m) MaxUint32 arcs.

(** "Relabel", or [None] if there is no such neighbor. *)
Definition relabel (net : network) (n : Node) : option Node :=
  if (next n =? length (Arcs n))%nat then
    let minHeight := min_height net (Arcs n) in
    if minHeight =? MaxUint32 then None else Some (with_next (with_Height n (uint32 (minHeight + 1))) 0)
  else Some n.

(** A push of [delta] from [node] along its arc [i], to [target]. *)
Definition push (net : network) (node i target recip : nat) (delta : Z) : network :=
  let net := alter (add_flow i delta) node net in
  let net := alter (add_flow recip (- delta)) target net in
  let net := alter (add_excess (- delta)) node net in
  alter (add_excess delta) target net.

(** The arc at the position [next] of [n], which is [node]: push along it if it leads downhill,
    and step to the next one. *)
Definition try_arc (node sink : nat) (n : Node) (net : network) (active : list nat)
    : outcome (network * list nat * bool) :=
  match Arcs n !! next n with
  | None => Panic "index out of range"
  | Some adj =>
      let residual := int32 (Capacity adj - Flow adj) in
      let step net active := Ret (alter (λ n, with_next n (S (next n))) node net, active, true) in
      if (0 <? residual) && (ht net (Target adj) <? Height n) then
        match net !! Target adj ≫= λ t, Arcs t !! reciprocal adj with
        | None => Panic "index out of range"
        | Some _ =>
            let delta := Z.min (excess n) (uint32 residual) in
            let net := push net node (next n) (Target adj) (reciprocal adj) delta in
            step net (if (ex net (Target adj) =? delta) && negb (Target adj =? sink)%nat
                      then heap_Push (ht net) active (Target adj) else active)
        end
      else step net active
  end.

(** An iteration of the loop of [discharge]: [false] if it returns. *)
Definition discharge_iter (node sink : nat) (net : network) (active : list nat)
    : outcome (network * list nat * bool) :=
  match net !! node with
  | None => Panic "nil pointer dereference"
  | Some n =>
      match relabel net n with
      | None => Ret (net, active, false)
      | Some n => try_arc node sink n (<[node := n]> net) active
      end
  end.

(** [None] if the fuel does not suffice. *)
Fixpoint discharge (fuel : nat) (node sink : nat) (net : network) (active : list nat)
    : option (outcome (network * list nat)) :=
  if ex net node =? 0 then Some (Ret (net, active))
  else
    match fuel with
    | O => None
    | S fuel =>
        match discharge_iter node sink net active with
        | Panic m => Some (Panic m)
        | Ret (net, active, false) => Some (Ret (net, active))
        | Ret (net, active, true) => discharge fuel node sink net active
        end
    end.

Fixpoint max_loop (fuel inner : nat) (source sink : nat) (net : network) (active : list nat)
    : option (outcome network) :=
  match heap_Pop (ht net) active with
  | None => Some (Ret net)
  | Some (node, active) =>
      match fuel with
      | O => None
      | S fuel =>
          if ex net node =? 0 then Some (Panic "invalid pre-excess")
          else
            match discharge inner node sink net active with
            | None => None
            | Some (Panic m) => Some (Panic m)
            | Some (Ret (net, active)) =>
                if negb (ex net node =? 0) && negb (node =? source)%nat then Some (Panic "invalid post-excess")
                else max_loop fuel inner source sink net active
            end
      end
  end.

Definition FindMaxFlow (fuel : nat) (source sink : nat) (net : network) : option (outcome network) :=
  max_loop fuel fuel source sink (alter (λ n, with_excess n MaxUint32) source net) [source].

(** ** Building networks *)

(** [InitNodes] of [n] nodes, whose [ID]s are counted from zero. The nodes and their arcs are
    new: the capacity of the slices which Go reuses is not part of the model. *)
Definition InitNodes (n : nat) (height : Z) : network :=
  (λ i, mkNode (uint32 (Z.of_nat i)) (uint32 height) [] 0 0) <$> seq 0 n.

Definition AddArc (net : network) (from to : nat) (capacity priority : Z) : outcome network :=
  match net !! from, net !! to with
  | Some f, Some t =>
      let fromInd := length (Arcs f) in
      let toInd := length (Arcs t) in
      if (capacity <? 0) || (MaxInt32 <? capacity) then Panic "invalid capacity"
      else if (priority <? 0) || (MaxInt8 <? priority) then Panic "invalid priority"
      else
        let net := alter (λ n, with_Arcs n (Arcs n ++ [mkArc capacity 0 priority toInd to])) from net in
        Ret (alter (λ n, with_Arcs n (Arcs n ++ [mkArc 0 0 (- priority) fromInd from])) to net)
  | _, _ => Panic "nil pointer dereference"
  end.

(** [sort.Slice] by descending priority: an insertion sort, as Go's is for short slices. *)
Fixpoint insert_arc (a : Arc) (l : list Arc) : list Arc :=
  match l with
  | [] => [a]
  | x :: l => if Priority a <? Priority x then x :: insert_arc a l else a :: x :: l
  end.
Definition sort_arcs (l : list Arc) : list Arc := foldr insert_arc [] l.

Fixpoint fix_reciprocals (net : network) (i : nat) (arcs : list Arc) : network :=
  match arcs with
  | [] => net
  | a :: arcs =>
      let net := alter (λ n, with_Arcs n (alter (λ b, with_reciprocal b i) (reciprocal a) (Arcs n))) (Target a) net in
      fix_reciprocals net (S i) arcs
  end.

Definition sort_node (net : network) (u : nat) : network :=
  match net !! u with
  | None => net
  | Some n =>
      let arcs := sort_arcs (Arcs n) in
      fix_reciprocals (<[u := with_Arcs n arcs]> net) 0 arcs
  end.

Definition SortNodeArcs (net : network) (nodes : list nat) : network := foldl sort_node net nodes.

(** ** Sums *)

Fixpoint zsum {A} (f : A → Z) (l : list A) : Z :=
  match l with
  | [] => 0
  | x :: l => f x + zsum f l
  end.

Section sums.
Context {A : Type}.
Implicit Types (f g : A → Z) (l : list A).

Lemma zsum_app f l k : zsum f (l ++ k) = zsum f l + zsum f k.
Proof. induction l as [|x l IH]; cbn; [done|]. rewrite IH. lia. Qed.

Lemma zsum_perm f l k : l ≡ₚ k → zsum f l = zsum f k.
Proof. induction 1; cbn; lia. Qed.

Lemma zsum_ext f g l : (∀ x, x ∈ l → f x = g x) → zsum f l = zsum g l.
Proof.
  induction l as [|x l IH]; intros H; [done|]. cbn. rewrite (H x) by by left. rewrite IH; [done|]. intros y Hy. apply H. by right.
Qed.

Lemma zsum_le f g l : (∀ x, x ∈ l → f x ≤ g x) → zsum f l ≤ zsum g l.
Proof.
  induction l as [|x l IH]; intros H; [done|]. cbn. pose proof (H x ltac:(by left)).
  specialize (IH (λ y Hy, H y ltac:(by right))). lia.
Qed.

Lemma zsum_lt f g l x : (∀ y, y ∈ l → f y ≤ g y) → x ∈ l → f x < g x → zsum f l < zsum g l.
Proof.
  intros H Hx Hlt. apply list_elem_of_split in Hx as (l1 & l2 & ->). rewrite !zsum_app. cbn.
  assert (zsum f l1 ≤ zsum g l1) by (apply zsum_le; intros; apply H; apply elem_of_app; by left).
  assert (zsum f l2 ≤ zsum g l2) by (apply zsum_le; intros; apply H; apply elem_of_app; right; by right). lia.
Qed.

Lemma zsum_zero f l : (∀ x, x ∈ l → f x = 0) → zsum f l = 0.
Proof. intros H. rewrite (zsum_ext f (λ _, 0)) by done. clear H. induction l; cbn; lia. Qed.

Lemma zsum_opp f l : zsum (λ x, - f x) l = - zsum f l.
Proof. induction l; cbn; lia. Qed.

Lemma zsum_fmap {B} (h : B → A) f (l : list B) : zsum f (h <$> l) = zsum (λ x, f (h x)) l.
Proof. induction l as [|x l IH]; cbn; [done|]. by rewrite IH. Qed.

Lemma zsum_filter f (P : A → Prop) `{∀ x, Decision (P x)} l :
  zsum f l = zsum f (filter P l) + zsum f (filter (λ x, ¬ P x) l).
Proof.
  induction l as [|x l IH]; [done|]. rewrite !filter_cons. cbn [zsum].
  destruct (decide (P x)); destruct (decide (¬ P x)); try done; cbn; lia.
Qed.

Lemma zsum_insert f l i x y : l !! i = Some x → zsum f (<[i:=y]> l) = zsum f l - f x + f y.
Proof.
  revert i. induction l as [|z l IH]; intros [|i] H; simplify_eq/=; [lia|].
  rewrite (IH i H). lia.
Qed.

Lemma zsum_nonneg f l : (∀ x, x ∈ l → 0 ≤ f x) → 0 ≤ zsum f l.
Proof. intros H. rewrite <- (zsum_zero (λ _, 0) l) by done. by apply zsum_le. Qed.

Lemma zsum_elem f l x : (∀ y, y ∈ l → 0 ≤ f y) → x ∈ l → f x ≤ zsum f l.
Proof.
  intros H Hx. apply list_elem_of_split in Hx as (l1 & l2 & ->). rewrite zsum_app. cbn.
  assert (0 ≤ zsum f l1) by (apply zsum_nonneg; intros; apply H; apply elem_of_app; by left).
  assert (0 ≤ zsum f l2) by (apply zsum_nonneg; intros; apply H; apply elem_of_app; right; by right). lia.
Qed.
End sums.

Lemma zsum_concat {A B} (f : A → Z) (h : B → list A) (l : list B) :
  zsum f (concat (h <$> l)) = zsum (λ x, zsum f (h x)) l.
Proof. induction l as [|x l IH]; cbn; [done|]. by rewrite zsum_app, IH. Qed.

Lemma zsum_lookup {A} (f : A → Z) (l : list A) (d : A) : zsum f l = zsum (λ i, f (default d (l !! i))) (seq 0 (length l)).
Proof.
  induction l as [|x l IH] using rev_ind; [done|]. rewrite length_app. cbn [length].
  rewrite seq_app, !zsum_app. cbn [seq zsum]. rewrite lookup_app_r, Nat.sub_diag by lia. cbn. f_equal.
  rewrite IH. apply zsum_ext. intros i Hi%elem_of_seq. by rewrite lookup_app_l by lia.
Qed.

(** ** Heaps are permutations of what was pushed *)

Lemma swap_perm (l : list nat) i j x y : l !! i = Some x → l !! j = Some y → <[i:=y]> (<[j:=x]> l) ≡ₚ l.
Proof.
  intros Hi Hj. by apply Permutation_insert_swap.
Qed.

Section heap_facts.
Context (height : nat → Z).

Lemma heap_swap_perm h i j : heap_swap h i j ≡ₚ h.
Proof. unfold heap_swap. destruct (h !! i) eqn:Hi, (h !! j) eqn:Hj; try done. by apply swap_perm. Qed.

Lemma heap_up_perm fuel : ∀ h j, heap_up height fuel h j ≡ₚ h.
Proof. induction fuel as [|fuel IH]; intros h j; cbn; [done|]. case_match; [done|]. by rewrite IH, heap_swap_perm. Qed.

Lemma heap_down_perm fuel : ∀ h i n, heap_down height fuel h i n ≡ₚ h.
Proof.
  induction fuel as [|fuel IH]; intros h i n; cbn [heap_down]; [done|]. case_match; [done|].
  case_match; [done|]. by rewrite IH, heap_swap_perm.
Qed.

Lemma heap_Push_perm h x : heap_Push height h x ≡ₚ x :: h.
Proof. unfold heap_Push. rewrite heap_up_perm. by rewrite (comm (++)). Qed.

Lemma heap_Pop_spec h :
  match heap_Pop height h with None => h = [] | Some (x, h') => h ≡ₚ x :: h' end.
Proof.
  unfold heap_Pop. set (n := (length h - 1)%nat). set (h' := heap_down _ _ _ _ _).
  assert (h' ≡ₚ h) as Hp by (unfold h'; by rewrite heap_down_perm, heap_swap_perm).
  pose proof (Permutation_length Hp) as Hlen. destruct (h' !! n) as [x|] eqn:Hx.
  - rewrite <- Hp. rewrite <- (take_drop_middle h' n x Hx) at 1. rewrite drop_ge by lia. by rewrite (comm (++)).
  - apply lookup_ge_None in Hx. destruct h; [done|cbn in *; lia].
Qed.
End heap_facts.

(** ** Networks *)

Definition arcs_of (net : network) (u : nat) : list Arc := match net !! u with Some n => Arcs n | None => [] end.
Definition arc (net : network) (u i : nat) : option Arc := arcs_of net u !! i.
#[global] Arguments arc : simpl never.
#[global] Arguments arcs_of : simpl never.

(** Arcs come in pairs that point to each other. *)
Definition paired (net : network) : Prop :=
  ∀ u i a, arc net u i = Some a → Target a ≠ u ∧ 0 ≤ Capacity a ∧
    ∃ b, arc net (Target a) (reciprocal a) = Some b ∧ Target b = u ∧ reciprocal b = i ∧
      Capacity a + Capacity b ≤ MaxInt32.

Lemma arc_node net u i a : arc net u i = Some a → ∃ n, net !! u = Some n ∧ Arcs n !! i = Some a.
Proof. unfold arc, arcs_of. destruct (net !! u) as [n|]; [eauto|done]. Qed.

Lemma arc_lt net u i a : arc net u i = Some a → (u < length net)%nat ∧ (i < length (arcs_of net u))%nat.
Proof.
  intros H. split; [|by apply lookup_lt_Some in H]. destruct (arc_node _ _ _ _ H) as (n & Hn & _). by apply lookup_lt_Some in Hn.
Qed.

(** Flows over the arcs of a network, by their positions. *)
Definition flow_t : Type := nat → nat → Z.
Definition arc_flow (net : network) : flow_t := λ u i, match arc net u i with Some a => Flow a | None => 0 end.
Definition out (net : network) (F : flow_t) (u : nat) : Z := zsum (F u) (seq 0 (length (arcs_of net u))).

Record feasible (net : network) (s t : nat) (F : flow_t) : Prop := {
  fe_anti : ∀ u i a, arc net u i = Some a → F (Target a) (reciprocal a) = - F u i;
  fe_cap : ∀ u i a, arc net u i = Some a → F u i ≤ Capacity a;
  fe_conserved : ∀ u, (u < length net)%nat → u ≠ s → u ≠ t → out net F u = 0;
}.

Lemma out_arcs net u : out net (arc_flow net) u = zsum Flow (arcs_of net u).
Proof.
  unfold out. rewrite (zsum_lookup Flow _ (mkArc 0 0 0 0 0)). apply zsum_ext. intros i Hi%elem_of_seq.
  unfold arc_flow, arc. by destruct (lookup_lt_is_Some_2 (arcs_of net u) i) as [a ->]; [lia|].
Qed.

(** ** Cuts *)

Definition keys (net : network) : list (nat * nat) :=
  concat ((λ u, (u,.) <$> seq 0 (length (arcs_of net u))) <$> seq 0 (length net)).

Lemma elem_of_keys net u i : (u, i) ∈ keys net ↔ is_Some (arc net u i).
Proof.
  unfold keys. rewrite elem_of_concat. split.
  - intros (l & (w & -> & Hw)%list_elem_of_fmap & (k & [= <- <-] & Hk%elem_of_seq)%list_elem_of_fmap).
    apply lookup_lt_is_Some_2. lia.
  - intros [a Ha]. destruct (arc_lt _ _ _ _ Ha) as [H1 H2]. eexists. split.
    + apply list_elem_of_fmap. exists u. split; [reflexivity|]. apply elem_of_seq. lia.
    + apply list_elem_of_fmap. exists i. split; [done|]. apply elem_of_seq. lia.
Qed.

Lemma NoDup_keys net : NoDup (keys net).
Proof.
  unfold keys. generalize 0%nat at 2 as k. induction (length net) as [|n IH]; intros k; cbn; [constructor|].
  apply NoDup_app. split_and!; [|intros [u i]|apply IH].
  - apply NoDup_fmap_2; [intros x y; by intros [= ->]|apply NoDup_seq].
  - intros (j & [= -> ->] & _)%list_elem_of_fmap (l & (w & -> & Hw%elem_of_seq)%list_elem_of_fmap & Hi)%elem_of_concat.
    apply list_elem_of_fmap in Hi as (i' & [= -> _] & _). lia.
Qed.

Section cut.
Context (net : network) (Hpair : paired net) (S : nat → bool).

Definition target_of (k : nat * nat) : nat := match arc net k.1 k.2 with Some a => Target a | None => k.1 end.
Definition partner (k : nat * nat) : nat * nat :=
  match arc net k.1 k.2 with Some a => (Target a, reciprocal a) | None => k end.
Definition F2 (F : flow_t) (k : nat * nat) : Z := F k.1 k.2.
Definition inside : list (nat * nat) := filter (λ k, S k.1 = true ∧ S (target_of k) = true) (keys net).
Definition leaving : list (nat * nat) := filter (λ k, S k.1 = true ∧ S (target_of k) = false) (keys net).

Lemma partner_inside k : k ∈ inside → partner k ∈ inside ∧ partner (partner k) = k.
Proof.
  intros [[H1 H2] H3]%list_elem_of_filter. destruct k as [u i]. apply elem_of_keys in H3 as [a Ha].
  unfold partner, target_of in *. cbn in *. rewrite Ha in H2 |- *. cbn in *.
  destruct (Hpair _ _ _ Ha) as (_ & _ & b & Hb & Hbu & Hbi & _). rewrite Hb. cbn. subst. split; [|done].
  apply list_elem_of_filter. unfold target_of. cbn. rewrite Hb. split; [done|]. apply elem_of_keys. eauto.
Qed.

Lemma inside_perm : partner <$> inside ≡ₚ inside.
Proof.
  apply NoDup_Permutation.
  - apply NoDup_fmap_2_strong; [|apply NoDup_filter, NoDup_keys]. intros x y Hx Hy Heq.
    destruct (partner_inside x Hx) as [_ <-], (partner_inside y Hy) as [_ <-]. by rewrite Heq.
  - apply NoDup_filter, NoDup_keys.
  - intros k. rewrite list_elem_of_fmap. split.
    + intros (x & -> & Hx). by apply partner_inside.
    + intros Hk. destruct (partner_inside k Hk) as [H1 H2]. by exists (partner k).
Qed.

(** What flows within the cut cancels out: the nodes of the cut send what leaves it. *)
Lemma cut_sum F : (∀ u i a, arc net u i = Some a → F (Target a) (reciprocal a) = - F u i) →
  zsum (out net F) (filter (λ u, S u = true) (seq 0 (length net))) = zsum (F2 F) leaving.
Proof.
  intros Hanti.
  assert (zsum (F2 F) inside = 0) as Hin.
  { assert (zsum (F2 F) inside = - zsum (F2 F) inside) as H; [|lia]. rewrite <- zsum_opp.
    rewrite <- (zsum_perm (F2 F) _ _ inside_perm) at 1. rewrite zsum_fmap. apply zsum_ext.
    intros [u i] [_ Hk]%list_elem_of_filter. apply elem_of_keys in Hk as [a Ha]. unfold F2, partner. cbn. rewrite Ha. cbn. by apply Hanti. }
  trans (zsum (F2 F) (filter (λ k, S k.1 = true) (keys net))).
  - unfold keys. generalize (seq 0 (length net)) as l. induction l as [|u l IH]; [done|]. cbn [fmap list_fmap concat].
    rewrite filter_app, zsum_app, <- IH, filter_cons. case_decide as Hu.
    + rewrite (list_filter_all (λ k : nat * nat, S k.1 = true) ((u,.) <$> _)); [|by intros ? (? & -> & _)%list_elem_of_fmap]. cbn [zsum]. f_equal. unfold out.
      by rewrite zsum_fmap.
    + rewrite (list_filter_none (λ k : nat * nat, S k.1 = true) ((u,.) <$> _)); [done|]. by intros ? (? & -> & _)%list_elem_of_fmap.
  - rewrite (zsum_filter _ (λ k, S (target_of k) = true)), !list_filter_filter.
    rewrite (list_filter_iff _ (λ k, S k.1 = true ∧ S (target_of k) = true)) by (intros; tauto).
    change (filter _ (keys net)) with inside at 1. rewrite Hin, Z.add_0_l. f_equal. apply list_filter_iff.
    intros k. rewrite not_true_iff_false. tauto.
Qed.
End cut.

(** ** Labelings skip a level *)

Definition residual (net : network) (u i : nat) : Prop := ∃ a, arc net u i = Some a ∧ Flow a < Capacity a.

(** Along arcs with capacity left, heights of the nodes [P] fall by one at most. *)
Definition labeled (P : nat → Prop) (net : network) : Prop :=
  ∀ u i a, P u → arc net u i = Some a → Flow a < Capacity a → ht net u ≤ ht net (Target a) + 1.

Lemma ht_lookup net u n : net !! u = Some n → ht net u = Height n.
Proof. unfold ht. by intros ->. Qed.

Lemma gap net lo u v :
  (u < length net)%nat → (v < length net)%nat → ht net u ≠ ht net v →
  ¬ (lo ≤ ht net u < lo + Z.of_nat (length net) - 1) → ¬ (lo ≤ ht net v < lo + Z.of_nat (length net) - 1) →
  ∃ k, lo ≤ k < lo + Z.of_nat (length net) - 1 ∧ ∀ w, (w < length net)%nat → ht net w ≠ k.
Proof.
  intros Hu Hv Hne Hou Hov. set (m := Z.of_nat (length net) - 1).
  assert (∀ w, (w < length net)%nat → ht net w ∈ Height <$> net) as Hin.
  { intros w Hw. apply lookup_lt_is_Some in Hw as [n Hn]. rewrite (ht_lookup _ _ _ Hn).
    apply list_elem_of_fmap. exists n. split; [done|]. by eapply list_elem_of_lookup_2. }
  destruct (decide (Forall (λ k, k ∈ Height <$> net) (seqZ lo m))) as [Hall|Hnot].
  - exfalso. assert (NoDup (ht net u :: ht net v :: seqZ lo m)) as Hnd.
    { rewrite !NoDup_cons, elem_of_cons, !elem_of_seqZ. split_and!; [|lia|apply NoDup_seqZ]. intros [?|?]; [done|lia]. }
    eapply NoDup_submseteq in Hnd; [apply submseteq_length in Hnd|].
    + cbn [length] in Hnd. rewrite length_seqZ, (length_fmap Height net : length (Height <$> net) = _) in Hnd. lia.
    + rewrite Forall_forall in Hall. intros x. rewrite !elem_of_cons. intros [-> |[-> |Hx]]; auto.
  - apply not_Forall_Exists in Hnot; [|apply _]. apply Exists_exists in Hnot as (k & Hk%elem_of_seqZ & Hnk). exists k. split; [lia|].
    intros w Hw <-. by apply Hnk, Hin.
Qed.

Section level.
Context (net : network) (Hpair : paired net) (k : Z) (Hk : ∀ w, (w < length net)%nat → ht net w ≠ k).
Context (P : nat → Prop) (HP : ∀ u, k < ht net u → P u) (Hlab : labeled P net).
Context (Hcap : ∀ u i a, arc net u i = Some a → Flow a ≤ Capacity a).

Definition above (u : nat) : bool := bool_decide (k < ht net u).

Lemma leaving_saturated u i : (u, i) ∈ leaving net above → ∃ a, arc net u i = Some a ∧ Flow a = Capacity a.
Proof.
  intros [[Hu Ht] [a Ha]%elem_of_keys]%list_elem_of_filter. exists a. split; [done|]. unfold target_of, above in *. cbn in *.
  rewrite Ha in Ht. apply bool_decide_eq_true in Hu. apply bool_decide_eq_false in Ht.
  destruct (Hpair _ _ _ Ha) as (_ & _ & b & Hb & _). pose proof (Hk _ (proj1 (arc_lt _ _ _ _ Hb))) as Hne.
  pose proof (Hcap _ _ _ Ha). destruct (decide (Flow a < Capacity a)) as [Hlt|]; [|lia].
  pose proof (Hlab u i a (HP u Hu) Ha Hlt). lia.
Qed.

Lemma leaving_sum (F : flow_t) : (∀ u i a, arc net u i = Some a → F u i ≤ Capacity a) →
  zsum (F2 F) (leaving net above) ≤ zsum (F2 (arc_flow net)) (leaving net above) ∧
  0 ≤ zsum (F2 (arc_flow net)) (leaving net above).
Proof.
  intros HF. split.
  - apply zsum_le. intros [u i] Hui. destruct (leaving_saturated u i Hui) as (a & Ha & Heq).
    unfold F2, arc_flow. cbn. rewrite Ha, Heq. by apply HF.
  - apply zsum_nonneg. intros [u i] Hui. destruct (leaving_saturated u i Hui) as (a & Ha & Heq).
    unfold F2, arc_flow. cbn. rewrite Ha, Heq. by apply (Hpair u i a).
Qed.
End level.

(** A feasible flow under a valid labeling that puts the source above all levels is maximal. *)
Lemma labeled_maximal net s t :
  paired net → feasible net s t (arc_flow net) → labeled (λ _, True) net →
  (s < length net)%nat → (t < length net)%nat → Z.of_nat (length net) ≤ ht net s → ht net t = 0 →
  ∀ F, feasible net s t F → out net F s ≤ out net (arc_flow net) s.
Proof.
  intros Hp Hfe Hlab Hs Ht Hhs Hht F HF.
  destruct (gap net 1 s t) as (k & Hk & Hgap); [done|done|lia|lia|lia|].
  assert (∀ F, feasible net s t F → out net F s = zsum (F2 F) (leaving net (above net k))) as Hval.
  { clear F HF. intros F HF. rewrite <- (cut_sum net Hp (above net k) F (fe_anti _ _ _ _ HF)).
    assert (filter (λ u, above net k u = true) (seq 0 (length net)) ≡ₚ
      s :: filter (λ u, u ≠ s ∧ above net k u = true) (seq 0 (length net))) as Hperm.
    { apply NoDup_Permutation; [apply NoDup_filter, NoDup_seq|constructor; [by intros [[]]%list_elem_of_filter|apply NoDup_filter, NoDup_seq]|].
      intros u. rewrite elem_of_cons, !list_elem_of_filter, elem_of_seq. split; [destruct (decide (u = s)); naive_solver|].
      intros [-> |?]; [|naive_solver]. split; [|lia]. apply bool_decide_eq_true. lia. }
    rewrite (zsum_perm _ _ _ Hperm). cbn. rewrite zsum_zero; [lia|]. intros u [[Hus Hab] Hu%elem_of_seq]%list_elem_of_filter.
    apply (fe_conserved _ _ _ _ HF); [lia|done|]. intros ->. apply bool_decide_eq_true in Hab. lia. }
  rewrite (Hval F HF), (Hval _ Hfe).
  eapply leaving_sum; [done|done| |done|..].
  - done.
  - intros u i a Ha. pose proof (fe_cap _ _ _ _ Hfe _ _ _ Ha) as H. unfold arc_flow in H. by rewrite Ha in H.
  - apply HF.
Qed.

(** ** The invariant of flow and excess *)

Section invariant.
Context (s t : nat).

Record flow_ok (net : network) : Prop := {
  fo_paired : paired net;
  fo_anti : ∀ u i a, arc net u i = Some a → arc_flow net (Target a) (reciprocal a) = - Flow a;
  fo_cap : ∀ u i a, arc net u i = Some a → Flow a ≤ Capacity a;
  fo_ex : ∀ u, (u < length net)%nat → ex net u = (if (u =? s)%nat then MaxUint32 else 0) - zsum Flow (arcs_of net u);
  fo_pos : ∀ u, 0 ≤ ex net u;
  fo_total : zsum excess net = MaxUint32;
  fo_source : zsum Capacity (arcs_of net s) < MaxUint32;
}.

Lemma ex_lookup net u n : net !! u = Some n → ex net u = excess n.
Proof. unfold ex. by intros ->. Qed.

Lemma arcs_lookup net u n : net !! u = Some n → arcs_of net u = Arcs n.
Proof. unfold arcs_of. by intros ->. Qed.

Lemma ex_bound net u : flow_ok net → 0 ≤ ex net u ≤ MaxUint32.
Proof.
  intros H. split; [by apply fo_pos|]. unfold ex. destruct (net !! u) as [n|] eqn:Hn; [|done].
  rewrite <- (fo_total _ H). apply (zsum_elem excess); [|by eapply list_elem_of_lookup_2].
  intros m (v & Hv)%list_elem_of_lookup_1. rewrite <- (ex_lookup net v m Hv). by apply fo_pos.
Qed.

Lemma flow_bound net u i a : flow_ok net → arc net u i = Some a →
  - MaxInt32 ≤ Flow a ≤ MaxInt32 ∧ 0 ≤ Capacity a ≤ MaxInt32 ∧ Capacity a - Flow a ≤ MaxInt32.
Proof.
  intros H Ha. pose proof (fo_cap _ H _ _ _ Ha) as Hc. pose proof (fo_anti _ H _ _ _ Ha) as Hanti.
  destruct (fo_paired _ H _ _ _ Ha) as (_ & Hc0 & b & Hb & _ & _ & Hsum). unfold arc_flow in Hanti. rewrite Hb in Hanti.
  pose proof (fo_cap _ H _ _ _ Hb). destruct (fo_paired _ H _ _ _ Hb) as (_ & Hb0 & _). lia.
Qed.

Lemma source_excess net : flow_ok net → (s < length net)%nat → 0 < ex net s.
Proof.
  intros H Hs. rewrite (fo_ex _ H s Hs), Nat.eqb_refl. pose proof (fo_source _ H).
  assert (zsum Flow (arcs_of net s) ≤ zsum Capacity (arcs_of net s)); [|lia].
  apply zsum_le. intros a (i & Hi)%list_elem_of_lookup_1. by apply (fo_cap _ H s i).
Qed.

(** A node with excess has a way back: some of its arcs have capacity left. *)
Lemma excess_residual net u : flow_ok net → (u < length net)%nat → u ≠ s → 0 < ex net u → ∃ i, residual net u i.
Proof.
  intros H Hu Hus Hex. rewrite (fo_ex _ H u Hu) in Hex. rewrite (proj2 (Nat.eqb_neq _ _) Hus) in Hex.
  destruct (decide (Forall (λ a, 0 ≤ Flow a) (arcs_of net u))) as [Hall|Hn].
  - rewrite Forall_forall in Hall. pose proof (zsum_nonneg Flow (arcs_of net u) Hall). lia.
  - apply (not_Forall_Exists _) in Hn. apply Exists_exists in Hn as (a & (i & Hi)%list_elem_of_lookup_1 & Hneg). exists i, a.
    split; [done|]. destruct (fo_paired _ H u i a Hi) as (_ & ? & _). cbn in Hneg. lia.
Qed.

(** Heights of nodes with excess stay within the number of nodes of the source's. *)
Lemma excess_height net v :
  flow_ok net → labeled (λ u, u ≠ s) net → (s < length net)%nat → (v < length net)%nat → v ≠ s → 0 < ex net v →
  ht net v < ht net s + Z.of_nat (length net).
Proof.
  intros H Hlab Hs Hv Hvs Hex. destruct (decide (ht net v < ht net s + Z.of_nat (length net))) as [|Hge]; [done|exfalso].
  destruct (gap net (ht net s + 1) s v) as (k & Hk & Hgap); [done|done|lia|lia|lia|].
  assert (0 ≤ zsum (F2 (arc_flow net)) (leaving net (above net k))) as Hout.
  { eapply (leaving_sum net (fo_paired _ H) k Hgap (λ u, u ≠ s)) with (F := λ _ _, 0); [|done|apply H|].
    - intros u Hu ->. lia.
    - intros u i a Ha. by destruct (fo_paired _ H _ _ _ Ha) as (_ & ? & _). }
  rewrite <- (cut_sum net (fo_paired _ H)) in Hout.
  2:{ intros u i a Ha. rewrite (fo_anti _ H _ _ _ Ha). unfold arc_flow. by rewrite Ha. }
  set (S := filter _ _) in Hout.
  assert (∀ u, u ∈ S → out net (arc_flow net) u = - ex net u) as HS.
  { intros u [Hab Hu%elem_of_seq]%list_elem_of_filter. apply bool_decide_eq_true in Hab.
    rewrite (fo_ex _ H u) by lia. rewrite out_arcs, (proj2 (Nat.eqb_neq u s)); [lia|]. intros ->. lia. }
  rewrite (zsum_ext _ (λ u, - ex net u)), zsum_opp in Hout by done.
  assert (ex net v ≤ zsum (ex net) S); [|lia]. apply zsum_elem; [intros; by apply fo_pos|].
  apply list_elem_of_filter. split; [apply bool_decide_eq_true; lia|apply elem_of_seq; lia].
Qed.

(** ** Pushes *)

(** The compact form of a push, without wrap-around. *)
Definition bump (i : nat) (d : Z) (n : Node) : Node :=
  mkNode (ID n) (Height n) (alter (λ a, with_Flow a (Flow a + d)) i (Arcs n)) (excess n - d) (next n).

Definition delta (u i v j : nat) (d : Z) (w k : nat) : Z :=
  if decide (w = u ∧ k = i) then d else if decide (w = v ∧ k = j) then - d else 0.

Lemma alter_ext_at {A} (f g : A → A) i (l : list A) x : l !! i = Some x → f x = g x → alter f i l = alter g i l.
Proof.
  intros Hi Hfg. apply list_eq. intros k. destruct (decide (k = i)) as [-> |Hne].
  - rewrite !list_lookup_alter_eq, Hi. cbn. by rewrite Hfg.
  - by rewrite !list_lookup_alter_ne.
Qed.

Lemma zsum_alter {A} (f : A → Z) g i (l : list A) x : l !! i = Some x → zsum f (alter g i l) = zsum f l - f x + f (g x).
Proof.
  intros Hi. rewrite <- (zsum_insert f l i x (g x) Hi). f_equal. rewrite list_insert_alter. by eapply alter_ext_at.
Qed.

Lemma int32_id z : - MaxInt32 ≤ z ≤ MaxInt32 → int32 z = z.
Proof. unfold int32, wrapS, MaxInt32. intros. rewrite Z.mod_small by lia. lia. Qed.

Section push.
Context (net : network) (u i v j : nat) (d : Z) (a : Arc).
Context (Hok : flow_ok net) (Ha : arc net u i = Some a) (Hv : Target a = v) (Hj : reciprocal a = j).
Context (Hd : 0 ≤ d) (Hex : d ≤ ex net u) (Hres : d ≤ Capacity a - Flow a).
Let net' := alter (bump j (- d)) v (alter (bump i d) u net).

Lemma push_ne : u ≠ v.
Proof. destruct (fo_paired _ Hok _ _ _ Ha) as [? _]. congruence. Qed.

Lemma push_partner : ∃ b, arc net v j = Some b ∧ Target b = u ∧ reciprocal b = i ∧ Flow b = - Flow a.
Proof.
  destruct (fo_paired _ Hok _ _ _ Ha) as (_ & _ & b & Hb & Hbu & Hbi & _). exists b.
  pose proof (fo_anti _ Hok _ _ _ Ha) as Hf. unfold arc_flow in Hf. rewrite Hb in Hf. rewrite Hv, Hj in Hb. by split_and!.
Qed.

Lemma lookup_push w : net' !! w =
  (λ n, if decide (w = u) then bump i d n else if decide (w = v) then bump j (- d) n else n) <$> net !! w.
Proof.
  pose proof push_ne. unfold net'. destruct (decide (w = v)) as [-> |Hwv].
  - rewrite list_lookup_alter_eq, list_lookup_alter_ne by done. destruct (net !! v); cbn; [|done]. by rewrite decide_False.
  - rewrite list_lookup_alter_ne by done. destruct (decide (w = u)) as [-> |Hwu].
    + by rewrite list_lookup_alter_eq.
    + rewrite list_lookup_alter_ne by done. by destruct (net !! w).
Qed.

Lemma push_bump : push net u i v j d = net'.
Proof.
  pose proof push_ne as Hne. destruct push_partner as (b & Hb & _ & _ & Hbf).
  destruct (arc_node _ _ _ _ Ha) as (n & Hn & Hna), (arc_node _ _ _ _ Hb) as (m & Hm & Hmb).
  pose proof (flow_bound _ _ _ _ Hok Ha) as (? & ? & ?). pose proof (flow_bound _ _ _ _ Hok Hb) as (? & ? & ?).
  pose proof (ex_bound _ u Hok) as Hu. rewrite (ex_lookup _ _ _ Hn) in Hu, Hex.
  assert (excess n + excess m ≤ MaxUint32 ∧ 0 ≤ excess m) as [Hsum Hm0].
  { pose proof (fo_pos _ Hok v) as Hp. rewrite (ex_lookup _ _ _ Hm) in Hp. split; [|done]. rewrite <- (fo_total _ Hok).
    assert (excess m ≤ zsum excess (<[u := with_excess n 0]> net)) as Hle.
    { apply (zsum_elem excess); [|eapply list_elem_of_lookup_2; by rewrite list_lookup_insert_ne].
      intros x (w & Hw)%list_elem_of_lookup_1. destruct (decide (w = u)) as [-> |Hwu].
      - rewrite list_lookup_insert_eq in Hw by (by apply lookup_lt_Some in Hn). by simplify_eq.
      - rewrite list_lookup_insert_ne in Hw by done. rewrite <- (ex_lookup _ _ _ Hw). by apply fo_pos. }
    rewrite (zsum_insert _ _ _ _ _ Hn) in Hle. cbn in Hle. lia. }
  apply list_eq. intros w. rewrite lookup_push. unfold push.
  destruct (decide (w = u)) as [-> |Hwu]; [|destruct (decide (w = v)) as [-> |Hwv]].
  - rewrite (list_lookup_alter_ne _ _ v u), list_lookup_alter_eq, (list_lookup_alter_ne _ _ v u), list_lookup_alter_eq by done.
    rewrite Hn. cbn. f_equal. unfold add_excess, add_flow, with_excess, with_Arcs, bump. cbn. f_equal; [|rewrite uint32_id by (unfold is_uint32, MaxUint32 in *; lia); lia].
    eapply alter_ext_at; [done|]. cbn. unfold with_Flow. by rewrite int32_id by lia.
  - rewrite list_lookup_alter_eq, (list_lookup_alter_ne _ _ u v), list_lookup_alter_eq, (list_lookup_alter_ne _ _ u v) by done.
    rewrite Hm. cbn. f_equal. unfold add_excess, add_flow, with_excess, with_Arcs, bump. cbn. f_equal; [|rewrite uint32_id by (unfold is_uint32, MaxUint32 in *; lia); lia].
    eapply alter_ext_at; [done|]. cbn. unfold with_Flow. by rewrite int32_id by lia.
  - rewrite !list_lookup_alter_ne by done. by destruct (net !! w).
Qed.

Lemma length_push : length net' = length net.
Proof. unfold net'. by rewrite !length_alter. Qed.

Lemma ht_push w : ht net' w = ht net w.
Proof. unfold ht. rewrite lookup_push. destruct (net !! w) as [n|]; cbn; [|done]. by repeat case_decide. Qed.

Lemma ex_push w : ex net' w = ex net w - (if decide (w = u) then d else if decide (w = v) then - d else 0).
Proof.
  unfold ex. rewrite lookup_push. destruct (net !! w) as [n|] eqn:Hw; cbn; [repeat case_decide; cbn; lia|].
  destruct (arc_node _ _ _ _ Ha) as (n & Hn & _). destruct push_partner as (b & Hb & _).
  destruct (arc_node _ _ _ _ Hb) as (m & Hm & _). repeat case_decide; congruence || done.
Qed.

Lemma arcs_push w : arcs_of net' w =
  if decide (w = u) then alter (λ a, with_Flow a (Flow a + d)) i (arcs_of net w)
  else if decide (w = v) then alter (λ a, with_Flow a (Flow a - d)) j (arcs_of net w) else arcs_of net w.
Proof. unfold arcs_of. rewrite lookup_push. destruct (net !! w) as [n|]; cbn; by repeat case_decide. Qed.

Lemma arc_push w k : arc net' w k = (λ b, with_Flow b (Flow b + delta u i v j d w k)) <$> arc net w k.
Proof.
  pose proof push_ne. unfold arc, delta. rewrite arcs_push.
  assert (∀ b : Arc, with_Flow b (Flow b + 0) = b) as Hid by (intros []; unfold with_Flow; cbn; f_equal; lia).
  assert (∀ o : option Arc, o = (λ b, with_Flow b (Flow b + 0)) <$> o) as Hido by (intros [b|]; cbn; [by rewrite Hid|done]).
  destruct (decide (w = u)) as [-> |Hwu]; [|destruct (decide (w = v)) as [-> |Hwv]].
  - destruct (decide (k = i)) as [-> |Hk].
    + rewrite list_lookup_alter_eq, decide_True by done. done.
    + rewrite list_lookup_alter_ne by done. rewrite decide_False by naive_solver. rewrite decide_False by naive_solver. apply Hido.
  - rewrite decide_False by naive_solver. destruct (decide (k = j)) as [-> |Hk].
    + rewrite list_lookup_alter_eq, decide_True by done. by destruct (_ !! _).
    + rewrite list_lookup_alter_ne, decide_False by naive_solver. apply Hido.
  - rewrite !decide_False by naive_solver. apply Hido.
Qed.

Lemma flow_sum_push w : zsum Flow (arcs_of net' w) =
  zsum Flow (arcs_of net w) + (if decide (w = u) then d else if decide (w = v) then - d else 0).
Proof.
  rewrite arcs_push. destruct push_partner as (b & Hb & _). repeat case_decide; subst.
  - rewrite (zsum_alter _ _ _ _ _ Ha). cbn. lia.
  - rewrite (zsum_alter _ _ _ _ _ Hb). cbn. lia.
  - lia.
Qed.

Lemma delta_partner w k b : arc net w k = Some b →
  delta u i v j d (Target b) (reciprocal b) = - delta u i v j d w k.
Proof.
  intros Hb. pose proof push_ne. destruct push_partner as (c & Hc & Hcu & Hci & _).
  destruct (fo_paired _ Hok _ _ _ Hb) as (Hbw & _ & b' & Hb' & Hb'w & Hb'k & _). unfold delta.
  destruct (decide (w = u ∧ k = i)) as [[-> ->]|H1].
  { assert (b = a) as -> by congruence. rewrite decide_False by naive_solver. by rewrite decide_True. }
  destruct (decide (w = v ∧ k = j)) as [[-> ->]|H2].
  { assert (b = c) as -> by congruence. rewrite decide_True by done. lia. }
  rewrite decide_False; [rewrite decide_False; [done|]|].
  - intros [Ht Hr]. rewrite Ht, Hr, Hc in Hb'. naive_solver congruence.
  - intros [Ht Hr]. rewrite Ht, Hr, Ha in Hb'. naive_solver congruence.
Qed.

Lemma flow_ok_push : flow_ok net'.
Proof.
  pose proof push_ne as Hne. destruct push_partner as (c & Hc & Hcu & Hci & Hcf). split.
  - intros w k b' Hb'. rewrite arc_push in Hb'. apply fmap_Some in Hb' as (b & Hb & ->). cbn.
    destruct (fo_paired _ Hok _ _ _ Hb) as (H1 & H2 & e & He & ? & ? & ?). split_and!; [done|done|].
    rewrite arc_push, He. cbn. eexists. split; [reflexivity|]. by cbn.
  - intros w k b' Hb'. rewrite arc_push in Hb'. apply fmap_Some in Hb' as (b & Hb & ->). cbn.
    pose proof (delta_partner w k b Hb) as Hdl. pose proof (fo_anti _ Hok _ _ _ Hb) as Hf. unfold arc_flow in *.
    rewrite arc_push. destruct (fo_paired _ Hok _ _ _ Hb) as (_ & _ & e & He & _). rewrite He in *. cbn. lia.
  - intros w k b' Hb'. rewrite arc_push in Hb'. apply fmap_Some in Hb' as (b & Hb & ->). cbn.
    pose proof (fo_cap _ Hok _ _ _ Hb). unfold delta. repeat case_decide; [|lia..].
    destruct_and!. assert (b = a) by congruence. subst. lia.
  - intros w Hw. rewrite length_push in Hw. rewrite ex_push, flow_sum_push, (fo_ex _ Hok w Hw). repeat case_decide; lia.
  - intros w. rewrite ex_push. pose proof (fo_pos _ Hok w). repeat case_decide; subst; lia.
  - unfold net'. destruct (arc_node _ _ _ _ Ha) as (n & Hn & _), (arc_node _ _ _ _ Hc) as (m & Hm & _).
    rewrite (zsum_alter excess _ v _ m) by (by rewrite list_lookup_alter_ne).
    rewrite (zsum_alter excess _ u _ n) by done. cbn. pose proof (fo_total _ Hok). lia.
  - rewrite arcs_push. pose proof (fo_source _ Hok) as Hsrc.
    destruct (decide (s = u)) as [Hsu|]; [|destruct (decide (s = v)) as [Hsv|]; [|done]].
    + rewrite Hsu in Hsrc |- *. rewrite (zsum_alter _ _ _ _ _ Ha). cbn. lia.
    + rewrite Hsv in Hsrc |- *. rewrite (zsum_alter _ _ _ _ _ Hc). cbn. lia.
Qed.

Lemma labeled_push P : labeled P net → ht net v < ht net u → labeled P net'.
Proof.
  intros Hlab Hlt w k b' HP Hb' Hr. destruct push_partner as (c & Hc & Hcu & _). rewrite !ht_push. rewrite arc_push in Hb'. apply fmap_Some in Hb' as (b & Hb & ->). cbn in *.
  destruct (decide (Flow b < Capacity b)) as [Hres'|Hsat]; [by eapply Hlab|].
  unfold delta in Hr. destruct (decide (w = u ∧ k = i)); [lia|]. destruct (decide (w = v ∧ k = j)) as [[-> ->]|]; [|lia].
  assert (b = c) as -> by congruence. rewrite Hcu. lia.
Qed.
End push.

(** ** Changes of height and position *)

Lemma zsum_ex net : zsum excess net = zsum (ex net) (seq 0 (length net)).
Proof.
  rewrite (zsum_lookup excess net (mkNode 0 0 [] 0 0)). apply zsum_ext. intros u _. unfold ex. by destruct (net !! u).
Qed.

Lemma flow_ok_same net net' :
  length net' = length net → (∀ u, arcs_of net' u = arcs_of net u) → (∀ u, ex net' u = ex net u) → flow_ok net → flow_ok net'.
Proof.
  intros Hl Ha He H.
  assert (∀ u i, arc net' u i = arc net u i) as Harc by (intros; unfold arc; by rewrite Ha).
  split.
  - intros u i a. rewrite !Harc. intros Hua. destruct (fo_paired _ H _ _ _ Hua) as (? & ? & b & ?). split_and!; [done..|].
    by exists b.
  - intros u i a. unfold arc_flow. rewrite !Harc. apply H.
  - intros u i a. rewrite !Harc. apply H.
  - intros u. rewrite Hl, He, Ha. apply H.
  - intros u. rewrite He. apply H.
  - rewrite zsum_ex, Hl, (zsum_ext _ (ex net)) by auto. rewrite <- zsum_ex. apply H.
  - rewrite Ha. apply H.
Qed.

Definition next_of (net : network) (u : nat) : nat := match net !! u with Some n => next n | None => 0 end.

Section touch.
Context (net : network) (u : nat) (n n' : Node) (Hn : net !! u = Some n) (Harcs : Arcs n' = Arcs n) (Hexc : excess n' = excess n).

Lemma touch_lookup w : <[u:=n']> net !! w = if decide (w = u) then Some n' else net !! w.
Proof.
  case_decide as Hw; [subst; by rewrite list_lookup_insert_eq by (by apply lookup_lt_Some in Hn)|by rewrite list_lookup_insert_ne].
Qed.

Lemma touch_arcs w : arcs_of (<[u:=n']> net) w = arcs_of net w.
Proof. unfold arcs_of. rewrite touch_lookup. case_decide; [subst; by rewrite Hn|done]. Qed.

Lemma touch_arc w k : arc (<[u:=n']> net) w k = arc net w k.
Proof. unfold arc. by rewrite touch_arcs. Qed.

Lemma touch_ex w : ex (<[u:=n']> net) w = ex net w.
Proof. unfold ex. rewrite touch_lookup. case_decide; [subst; by rewrite Hn|done]. Qed.

Lemma touch_ht w : ht (<[u:=n']> net) w = if decide (w = u) then Height n' else ht net w.
Proof. unfold ht. rewrite touch_lookup. by case_decide. Qed.

Lemma touch_next w : next_of (<[u:=n']> net) w = if decide (w = u) then next n' else next_of net w.
Proof. unfold next_of. rewrite touch_lookup. by case_decide. Qed.

Lemma touch_ok : flow_ok net → flow_ok (<[u:=n']> net).
Proof. apply flow_ok_same; [by rewrite length_insert|apply touch_arcs|apply touch_ex]. Qed.
End touch.

(** ** The least height *)

Definition resid (a : Arc) : bool := 0 <? int32 (Capacity a - Flow a).

Lemma resid_spec net u i a : flow_ok net → arc net u i = Some a → resid a = (Flow a <? Capacity a).
Proof.
  intros H Ha. destruct (flow_bound _ _ _ _ H Ha) as (? & ? & ?). pose proof (fo_cap _ H _ _ _ Ha). unfold resid.
  rewrite int32_id by lia. apply eq_bool_prop_intro. rewrite !Is_true_true. lia.
Qed.

Lemma min_fold net arcs : ∀ m0,
  let m := foldl (λ m adj, if resid adj then Z.min m (ht net (Target adj)) else m) m0 arcs in
  m ≤ m0 ∧ (∀ a, a ∈ arcs → resid a = true → m ≤ ht net (Target a)) ∧
  (m = m0 ∨ ∃ a, a ∈ arcs ∧ resid a = true ∧ m = ht net (Target a)).
Proof.
  induction arcs as [|b arcs IH]; intros m0; cbn; [split_and!; [lia|by intros ? ?%elem_of_nil|by left]|].
  destruct (IH (if resid b then Z.min m0 (ht net (Target b)) else m0)) as (H1 & H2 & H3).
  destruct (resid b) eqn:Hb; split_and!; try lia.
  - intros a [-> |Ha]%elem_of_cons Hr; [lia|auto].
  - destruct H3 as [H3|(a & ? & ? & ?)]; [|right; exists a; split_and!; [by right|done..]].
    destruct (Z.min_spec m0 (ht net (Target b))) as [[? Hm]|[? Hm]]; [left; lia|right; exists b; split_and!; [by left|done|lia]].
  - intros a [-> |Ha]%elem_of_cons Hr; [congruence|auto].
  - destruct H3 as [H3|(a & ? & ? & ?)]; [by left|right; exists a; split_and!; [by right|done..]].
Qed.

(** ** The state of a discharge *)

(** What pushes and relabels leave alone. *)
Definition shape (net : network) : list (Z * list Arc) := (λ n, (ID n, (λ a, with_Flow a 0) <$> Arcs n)) <$> net.

(** The nodes [P] are labeled validly while [node] is discharged. *)
Record inv (P : nat → Prop) (node : nat) (net : network) (active : list nat) : Prop := {
  in_ok : flow_ok net;
  in_lab : labeled P net;
  in_s : (s < length net)%nat;
  in_t : (t < length net)%nat;
  in_st : s ≠ t;
  in_hs : Z.of_nat (length net) ≤ ht net s;
  in_hmax : ht net s + Z.of_nat (length net) < MaxUint32;
  in_ht : ∀ u, 0 ≤ ht net u ≤ ht net s + Z.of_nat (length net);
  in_tht : ht net t = 0;
  in_next : ∀ u, (next_of net u ≤ length (arcs_of net u))%nat;
  in_active : ∀ v, v ∈ active ↔ v ≠ node ∧ v ≠ s ∧ v ≠ t ∧ 0 < ex net v;
  in_nodup : NoDup active;
}.

(** The part of it that does not depend on heights. *)
Record base (node : nat) (net : network) (active : list nat) : Prop := {
  ba_ok : flow_ok net;
  ba_s : (s < length net)%nat;
  ba_active : ∀ v, v ∈ active ↔ v ≠ node ∧ v ≠ s ∧ v ≠ t ∧ 0 < ex net v;
  ba_nodup : NoDup active;
}.

Lemma inv_base P u net active : inv P u net active → base u net active.
Proof. by intros []. Qed.

Definition adm (net : network) (u i : nat) : bool :=
  match arc net u i with Some a => (Flow a <? Capacity a) && (ht net (Target a) <? ht net u) | None => false end.
(** An arc with capacity left that falls by more than one. *)
Definition steep (net : network) (k : nat * nat) : bool :=
  match arc net k.1 k.2 with Some a => (Flow a <? Capacity a) && (ht net (Target a) + 1 <? ht net k.1) | None => false end.
Definition skipped (net : network) (u : nat) : bool := existsb (adm net u) (seq 0 (next_of net u)).

(** The progress of a discharge of [u]: it is raised, or heights are the same and only nodes
    below it have become active. *)
Record progress (u : nat) (net : network) (active : list nat) (net' : network) (active' : list nat) : Prop := {
  pg_shape : shape net' = shape net;
  pg_up : ∀ w, ht net w ≤ ht net' w;
  pg_other : ∀ w, w ≠ u → ht net' w = ht net w;
  pg_cases : ht net u < ht net' u ∨
    (∀ w, ht net' w = ht net w) ∧ ∃ new, active' ≡ₚ new ++ active ∧ Forall (λ v, ht net v < ht net u) new;
}.

Lemma progress_refl u net active : progress u net active net active.
Proof. split; [done|done|done|]. right. split; [done|]. by exists []. Qed.

Lemma progress_trans u n1 a1 n2 a2 n3 a3 : progress u n1 a1 n2 a2 → progress u n2 a2 n3 a3 → progress u n1 a1 n3 a3.
Proof.
  intros [S1 U1 O1 C1] [S2 U2 O2 C2]. split; [congruence|intros w; etrans; eauto|intros w Hw; by rewrite O2, O1|].
  destruct C1 as [C1|[H1 (new1 & P1 & F1)]]; [left; pose proof (U2 u); lia|].
  destruct C2 as [C2|[H2 (new2 & P2 & F2)]]; [left; rewrite H1 in C2; lia|].
  right. split; [intros w; by rewrite H2|]. exists (new2 ++ new1). split; [by rewrite P2, P1, app_assoc|].
  apply Forall_app. split; [|done]. eapply Forall_impl; [exact F2|]. intros v. by rewrite !H1.
Qed.

Lemma shape_touch net u n n' : net !! u = Some n → Arcs n' = Arcs n → ID n' = ID n → shape (<[u:=n']> net) = shape net.
Proof.
  intros Hn Ha Hi. unfold shape. rewrite list_fmap_insert. apply list_insert_id.
  rewrite list_lookup_fmap, Hn. cbn. by rewrite Ha, Hi.
Qed.

Lemma shape_push net u i v j d : shape (alter (bump j (- d)) v (alter (bump i d) u net)) = shape net.
Proof.
  assert (∀ k e w l, shape (alter (bump k e) w l) = shape l) as H; [|by rewrite !H].
  intros k e w l. unfold shape. apply list_eq. intros x. rewrite !list_lookup_fmap. destruct (decide (x = w)) as [-> |Hx].
  - rewrite list_lookup_alter_eq. destruct (l !! w) as [n|]; [|done]. cbn. do 2 f_equal.
    apply list_eq. intros y. rewrite !list_lookup_fmap. destruct (decide (y = k)) as [-> |Hy].
    + rewrite list_lookup_alter_eq. by destruct (_ !! k).
    + by rewrite list_lookup_alter_ne.
  - by rewrite list_lookup_alter_ne.
Qed.

(** ** Relabeling *)

Lemma relabel_ok u net active n :
  inv (λ _, True) u net active → u ≠ s → u ≠ t → net !! u = Some n → 0 < ex net u →
  ∃ n', relabel net n = Some n' ∧ inv (λ _, True) u (<[u:=n']> net) active ∧
    Arcs n' = Arcs n ∧ excess n' = excess n ∧ ID n' = ID n ∧ (next n' < length (Arcs n'))%nat ∧
    (n' = n ∨ next n = length (Arcs n) ∧ next n' = 0%nat ∧
       (Height n < Height n' ∨ Height n' = Height n ∧ skipped net u = true)).
Proof.
  intros Hinv Hus Hut Hn Hex. unfold relabel. pose proof (in_ok _ _ _ _ Hinv) as Hok.
  pose proof (in_next _ _ _ _ Hinv u) as Hnext. unfold next_of in Hnext. rewrite Hn, (arcs_lookup _ _ _ Hn) in Hnext.
  destruct (Nat.eqb_spec (next n) (length (Arcs n))) as [Heq|Hneq].
  2:{ exists n. split; [done|]. split_and!; try done; [|lia|by left]. by rewrite list_insert_id. }
  assert (∀ i a, Arcs n !! i = Some a → arc net u i = Some a) as Harc by (intros; unfold arc; by rewrite (arcs_lookup _ _ _ Hn)).
  destruct (min_fold net (Arcs n) MaxUint32) as (_ & Hmin & Hcase). change (foldl _ _ _) with (min_height net (Arcs n)) in *.
  set (m := min_height net (Arcs n)) in *.
  destruct (excess_residual net u Hok (lookup_lt_Some _ _ _ Hn) Hus Hex) as (i0 & a0 & Ha0 & Hr0).
  assert (resid a0 = true) as Hres0 by (rewrite (resid_spec _ _ _ _ Hok Ha0); lia).
  assert (a0 ∈ Arcs n) as Hin0.
  { eapply list_elem_of_lookup_2. unfold arc in Ha0. by rewrite (arcs_lookup _ _ _ Hn) in Ha0. }
  pose proof (in_hmax _ _ _ _ Hinv) as Hmax. pose proof (in_ht _ _ _ _ Hinv) as Hht.
  assert (m < MaxUint32) as Hm by (pose proof (Hmin _ Hin0 Hres0); pose proof (Hht (Target a0)); lia).
  destruct Hcase as [?|(a & (i & Hi)%list_elem_of_lookup_1 & Hra & Hma)]; [lia|]. pose proof (Harc _ _ Hi) as Ha.
  assert (Flow a < Capacity a) as Hfa by (rewrite (resid_spec _ _ _ _ Hok Ha) in Hra; lia).
  assert (ht net u ≤ m + 1) as Hup by (rewrite Hma; by eapply (in_lab _ _ _ _ Hinv)).
  pose proof (Hht (Target a)) as Hmpos. rewrite <- Hma in Hmpos.
  rewrite (proj2 (Z.eqb_neq _ _)) by lia. eexists. split; [reflexivity|].
  rewrite uint32_id by (unfold is_uint32; lia). set (n' := with_next (with_Height n (m + 1)) 0).
  assert (flow_ok (<[u:=n']> net)) as Hok' by (by eapply touch_ok).
  assert (labeled (λ _, True) (<[u:=n']> net)) as Hlab'.
  { intros w k b _ Hb Hfb. rewrite (touch_arc net u n n') in Hb by done. rewrite !(touch_ht net u n n') by done.
    pose proof (in_lab _ _ _ _ Hinv w k b I Hb Hfb) as Hl. destruct (fo_paired _ Hok _ _ _ Hb) as (Hne & _).
    destruct (decide (w = u)) as [-> |Hwu]; [rewrite decide_False by done|case_decide as Ht; [rewrite Ht in Hl|]]; cbn; [|lia..].
    assert (m ≤ ht net (Target b)); [|lia]. apply Hmin; [|by rewrite (resid_spec _ _ _ _ Hok Hb); apply Z.ltb_lt].
    eapply list_elem_of_lookup_2. unfold arc in Hb. by rewrite (arcs_lookup _ _ _ Hn) in Hb. }
  assert (m + 1 < ht net s + Z.of_nat (length net)) as Hbound.
  { pose proof (excess_height (<[u:=n']> net) u Hok') as Hh.
    rewrite length_insert, (touch_ex net u n n'), !(touch_ht net u n n'), decide_True, (decide_False (P := s = u)) in Hh by done.
    apply Hh; [|apply Hinv|by apply lookup_lt_Some in Hn|done..]. intros w k b _. by apply Hlab'. }
  assert (0 < length (Arcs n))%nat by (by apply lookup_lt_Some in Hi; lia).
  split_and!; [|done..|cbn; lia|right; split_and!; [done|done|]].
  - destruct Hinv. split; try done; rewrite ?length_insert, ?(touch_ht net u n n'), ?(decide_False (P := s = u)),
      ?(decide_False (P := t = u)) by done; try done.
    + intros w. rewrite (touch_ht net u n n') by done. case_decide; [cbn; lia|apply Hht].
    + intros w. rewrite (touch_next net u n n'), (touch_arcs net u n n') by done. case_decide; [cbn; lia|done].
    + intros v. by rewrite (touch_ex net u n n').
  - cbn. rewrite (ht_lookup _ _ _ Hn) in Hup. destruct (decide (Height n < m + 1)); [by left|right]. split; [lia|].
    unfold skipped. apply existsb_exists. exists i. split.
    + apply in_seq. unfold next_of. rewrite Hn, Heq. apply lookup_lt_Some in Hi. lia.
    + unfold adm. rewrite Ha, (ht_lookup _ _ _ Hn). apply andb_true_iff. rewrite !Z.ltb_lt. lia.
Qed.

(** ** Trying an arc *)

(** What trying the arc at position [i] of [u] does. *)
Record tried (P : nat → Prop) (u i : nat) (net : network) (active : list nat) (net' : network) (active' : list nat) : Prop := {
  tr_inv : inv P u net' active';
  tr_shape : shape net' = shape net;
  tr_ht : ∀ w, ht net' w = ht net w;
  tr_new : ∃ new, active' ≡ₚ new ++ active ∧ Forall (λ v, ht net v < ht net u) new;
  tr_done : ex net' u = 0 ∨ adm net' u i = false;
  tr_adm : ∀ k, k ≠ i → adm net' u k = adm net u k;
  tr_next : next_of net' u = S i;
  tr_arcs : length (arcs_of net' u) = length (arcs_of net u);
  tr_steep : ∀ k, steep net' k = true → steep net k = true;
}.

Lemma alter_touch (f : Node → Node) u (net : network) n : net !! u = Some n → alter f u net = <[u := f n]> net.
Proof. intros Hn. rewrite list_insert_alter. by eapply alter_ext_at. Qed.

(** The step to the next arc. *)
Lemma step_tried P u i net active :
  inv P u net active → next_of net u = i → (i < length (arcs_of net u))%nat → ex net u = 0 ∨ adm net u i = false →
  tried P u i net active (alter (λ n, with_next n (S (next n))) u net) active.
Proof.
  intros Hinv Hnx Hi Hdone. unfold next_of in Hnx. destruct (net !! u) as [n|] eqn:Hn; [|by unfold arcs_of in Hi; rewrite Hn in Hi; cbn in Hi; lia].
  rewrite (alter_touch _ u net n Hn). set (n' := with_next n _).
  assert (∀ w, ht (<[u:=n']> net) w = ht net w) as Hht.
  { intros w. rewrite (touch_ht net u n n') by done. case_decide as Hw; [|done]. subst w. by rewrite (ht_lookup _ _ _ Hn). }
  assert (∀ k, adm (<[u:=n']> net) u k = adm net u k) as Hadm.
  { intros k. unfold adm. rewrite (touch_arc net u n n') by done. by destruct (arc net u k); rewrite ?Hht. }
  split.
  - destruct Hinv. split; try done; rewrite ?length_insert, ?Hht; try done.
    + by eapply touch_ok.
    + intros w k b HPw Hb Hf. rewrite (touch_arc net u n n') in Hb by done. rewrite !Hht. eauto.
    + intros w. by rewrite Hht.
    + intros w. rewrite (touch_next net u n n'), (touch_arcs net u n n') by done. case_decide; [subst; cbn; lia|done].
    + intros v. by rewrite (touch_ex net u n n').
  - by eapply shape_touch.
  - done.
  - by exists [].
  - by rewrite (touch_ex net u n n'), Hadm.
  - done.
  - rewrite (touch_next net u n n'), decide_True by done. cbn. by rewrite Hnx.
  - by rewrite (touch_arcs net u n n').
  - intros [w k]. unfold steep. cbn [fst snd]. rewrite (touch_arc net u n n') by done. by destruct (arc net w k); rewrite ?Hht.
Qed.

Section push_base.
Context (u i : nat) (net : network) (active : list nat) (a : Arc).
Context (Hb : base u net active) (Hut : u ≠ t) (Ha : arc net u i = Some a).
Context (Hres : Flow a < Capacity a) (Hdown : ht net (Target a) < ht net u) (Hex : 0 < ex net u).
Ltac push_side := first [done|apply Hb|apply (ba_ok _ _ _ Hb)|lia].
Let v := Target a.
Let d := Z.min (ex net u) (Capacity a - Flow a).
Let net' := alter (bump (reciprocal a) (- d)) v (alter (bump i d) u net).
Let active' := if (ex net' v =? d) && negb (v =? t)%nat then heap_Push (ht net') active v else active.

Lemma push_d : 0 < d ∧ d ≤ ex net u ∧ d ≤ Capacity a - Flow a.
Proof. unfold d. lia. Qed.

Lemma push_ex w : ex net' w = ex net w - (if decide (w = u) then d else if decide (w = v) then - d else 0).
Proof. pose proof push_d. apply (ex_push net u i v (reciprocal a) d a); push_side. Qed.

Lemma push_ht w : ht net' w = ht net w.
Proof. pose proof push_d. apply (ht_push net u i v (reciprocal a) d a); push_side. Qed.

Lemma push_length w : length (arcs_of net' w) = length (arcs_of net w).
Proof.
  pose proof push_d. unfold net'. rewrite (arcs_push net u i v (reciprocal a) d a) by push_side.
  repeat case_decide; by rewrite ?length_alter.
Qed.

Lemma push_active w : w ∈ active' ↔ w ≠ u ∧ w ≠ s ∧ w ≠ t ∧ 0 < ex net' w.
Proof.
  pose proof push_d as Hd. pose proof (ba_active _ _ _ Hb) as Hact. pose proof (ba_ok _ _ _ Hb) as Hok.
  assert (u ≠ v) as Huv by (destruct (fo_paired _ Hok _ _ _ Ha) as [? _]; by apply not_eq_sym).
  assert (ex net' v = ex net v + d) as Hv by (rewrite push_ex, decide_False, decide_True by done; lia).
  assert (w ∈ active ↔ w ≠ u ∧ w ≠ s ∧ w ≠ t ∧ 0 < ex net w) as Hw by apply Hact.
  assert (w ≠ u → w ≠ v → ex net' w = ex net w) as Hother by (intros; rewrite push_ex, !decide_False by done; lia).
  pose proof (fo_pos _ Hok v) as Hv0. unfold active'. rewrite Hv.
  destruct (Z.eqb_spec (ex net v + d) d) as [Heq|Hne]; cbn; [destruct (Nat.eqb_spec v t) as [Ht|Ht]; cbn|].
  - rewrite Hw. destruct (decide (w = u)); [naive_solver|]. destruct (decide (w = v)) as [-> |]; [naive_solver|]. by rewrite Hother.
  - rewrite heap_Push_perm, elem_of_cons, Hw. destruct (decide (w = u)) as [-> |]; [naive_solver|].
    destruct (decide (w = v)) as [-> |]; [|rewrite Hother by done; naive_solver].
    rewrite Hv. split; [|by left]. intros _. split_and!; [done| |done|lia].
    intros Hvs. pose proof (source_excess net Hok (ba_s _ _ _ Hb)). rewrite <- Hvs in *. lia.
  - rewrite Hw. destruct (decide (w = u)); [naive_solver|]. destruct (decide (w = v)) as [-> |]; [|by rewrite Hother].
    rewrite Hv. naive_solver lia.
Qed.

Lemma push_nodup : NoDup active'.
Proof.
  pose proof push_d. unfold active'. destruct (Z.eqb_spec (ex net' v) d) as [Heq|]; cbn; [|apply Hb]. case_match; [|apply Hb].
  rewrite heap_Push_perm. constructor; [|apply Hb]. rewrite (ba_active _ _ _ Hb). intros (? & _ & _ & Hv).
  rewrite push_ex, decide_False, decide_True in Heq by done. lia.
Qed.

Lemma push_base : base u net' active'.
Proof.
  pose proof push_d. split; [|unfold net'; rewrite !length_alter; apply Hb|apply push_active|apply push_nodup].
  apply (flow_ok_push net u i v (reciprocal a) d a); push_side.
Qed.
End push_base.

Section push_step.
Context (P : nat → Prop) (u i : nat) (net : network) (active : list nat) (a : Arc).
Context (Hinv : inv P u net active) (Hut : u ≠ t) (Ha : arc net u i = Some a).
Context (Hres : Flow a < Capacity a) (Hdown : ht net (Target a) < ht net u) (Hex : 0 < ex net u).
Ltac push_side := first [done|apply Hinv|apply (in_ok _ _ _ _ Hinv)|lia].
Let v := Target a.
Let d := Z.min (ex net u) (Capacity a - Flow a).
Let net' := alter (bump (reciprocal a) (- d)) v (alter (bump i d) u net).
Let active' := if (ex net' v =? d) && negb (v =? t)%nat then heap_Push (ht net') active v else active.
Let Hb : base u net active := inv_base P u net active Hinv.

Lemma push_d' : 0 < d ∧ d ≤ ex net u ∧ d ≤ Capacity a - Flow a.
Proof. unfold d. lia. Qed.

Lemma push_ht' w : ht net' w = ht net w.
Proof. by apply (push_ht u i net active a). Qed.

Lemma push_inv : inv P u net' active'.
Proof.
  pose proof push_d' as Hd. pose proof (in_ok _ _ _ _ Hinv) as Hok.
  assert (length net' = length net) as Hl by (unfold net'; by rewrite !length_alter).
  split; rewrite ?Hl, ?push_ht'; try apply Hinv.
  - apply (flow_ok_push net u i v (reciprocal a) d a); push_side.
  - apply (labeled_push net u i v (reciprocal a) d a); push_side.
  - intros w. rewrite push_ht'. apply Hinv.
  - intros w. rewrite (push_length u i net active a) by push_side. unfold next_of, net'. rewrite (lookup_push net u i v (reciprocal a) d a) by push_side.
    pose proof (in_next _ _ _ _ Hinv w) as Hn. unfold next_of in Hn. destruct (net !! w); cbn; [|done]. by repeat case_decide.
  - apply (push_active u i net active a); push_side.
  - apply (push_nodup u i net active a); push_side.
Qed.

Lemma push_adm k : k ≠ i → adm net' u k = adm net u k.
Proof.
  pose proof push_d'. intros Hk. unfold adm, net'. rewrite (arc_push net u i v (reciprocal a) d a) by push_side.
  unfold delta. rewrite !decide_False; [|intros [Huv _]; destruct (fo_paired _ (in_ok _ _ _ _ Hinv) _ _ _ Ha) as [[] _]; by rewrite Huv|naive_solver].
  destruct (arc net u k) as [b|]; cbn; [|done]. fold net'. rewrite !push_ht'. by rewrite Z.add_0_r.
Qed.

Lemma push_done : ex net' u = 0 ∨ adm net' u i = false.
Proof.
  pose proof push_d'. unfold net', d, v; rewrite (push_ex u i net active a), decide_True by done; fold v d net'. destruct (decide (d = ex net u)); [left; lia|right].
  assert (d = Capacity a - Flow a) as Hd by (unfold d in *; lia).
  unfold adm, net'. rewrite (arc_push net u i v (reciprocal a) d a), Ha by push_side.
  cbn. unfold delta. rewrite decide_True by done. apply andb_false_iff. left. lia.
Qed.

Lemma push_steep k : steep net' k = true → steep net k = true.
Proof.
  pose proof push_d' as Hd. destruct k as [w k]. unfold steep, net'. cbn [fst snd]. rewrite (arc_push net u i v (reciprocal a) d a) by push_side.
  destruct (arc net w k) as [b|] eqn:Hw; cbn [fmap option_fmap option_map]; [|done]. fold net'. cbn [with_Flow Flow Capacity Target]. rewrite !push_ht', !andb_true_iff, !Z.ltb_lt.
  intros [Hf Hs]. split; [|done]. unfold delta in Hf. destruct (decide (w = u ∧ k = i)); [lia|]. destruct (decide (w = v ∧ k = reciprocal a)) as [[-> ->]|]; [|lia].
  destruct (fo_paired _ (in_ok _ _ _ _ Hinv) _ _ _ Ha) as (_ & _ & c & Hc & Hcu & _). assert (b = c) as -> by (unfold v in Hw; congruence).
  rewrite Hcu in Hs. unfold v in *. lia.
Qed.

Lemma push_new : ∃ new, active' ≡ₚ new ++ active ∧ Forall (λ w, ht net w < ht net u) new.
Proof.
  unfold active'. case_match; [exists [v]; rewrite heap_Push_perm; by repeat constructor|by exists []].
Qed.
End push_step.

Lemma try_arc_ok P u net active n :
  inv P u net active → u ≠ t → net !! u = Some n → 0 < ex net u → (next n < length (Arcs n))%nat →
  ∃ net' active', try_arc u t n net active = Ret (net', active', true) ∧ tried P u (next n) net active net' active'.
Proof.
  intros Hinv Hut Hn Hex Hnx. pose proof (in_ok _ _ _ _ Hinv) as Hok. unfold try_arc.
  destruct (lookup_lt_is_Some_2 _ _ Hnx) as [a Hi]. rewrite Hi.
  assert (arc net u (next n) = Some a) as Ha by (unfold arc; by rewrite (arcs_lookup _ _ _ Hn)).
  assert (next_of net u = next n) as Hnext by (unfold next_of; by rewrite Hn).
  assert (next n < length (arcs_of net u))%nat as Hlt by (by rewrite (arcs_lookup _ _ _ Hn)).
  change (0 <? int32 (Capacity a - Flow a)) with (resid a). rewrite (resid_spec _ _ _ _ Hok Ha).
  destruct (flow_bound _ _ _ _ Hok Ha) as (Hf1 & Hf2 & Hf3).
  destruct ((Flow a <? Capacity a) && (ht net (Target a) <? Height n)) eqn:Hadm.
  - apply andb_true_iff in Hadm as [Hres%Z.ltb_lt Hdown%Z.ltb_lt]. rewrite <- (ht_lookup _ _ _ Hn) in Hdown.
    destruct (fo_paired _ Hok _ _ _ Ha) as (_ & _ & b & Hb & _).
    destruct (arc_node _ _ _ _ Hb) as (m & Hm & Hmb). rewrite Hm. cbn [mbind option_bind]. rewrite Hmb.
    rewrite int32_id, uint32_id by (unfold is_uint32, MaxInt32, MaxUint32 in *; lia).
    rewrite <- (ex_lookup _ _ _ Hn). set (d := Z.min _ _).
    rewrite (push_bump net u (next n) (Target a) (reciprocal a) d a Hok Ha eq_refl eq_refl) by lia.
    pose proof (push_inv P u (next n) net active a Hinv Hut Ha Hres Hdown Hex) as Hinv'. fold d in Hinv'.
    set (net' := alter _ _ _) in *. 
    set (active' := if (ex net' (Target a) =? d) && negb (Target a =? t)%nat then heap_Push (ht net') active (Target a) else active) in *.
    assert (∀ w, ht net' w = ht net w) as Hht by (intros w; apply (push_ht u (next n) net active a); by eauto using inv_base).
    assert (length (arcs_of net' u) = length (arcs_of net u)) as Hlen by (apply (push_length u (next n) net active a); by eauto using inv_base).
    assert (next_of net' u = next n) as Hnext'.
    { unfold next_of, net'. rewrite (lookup_push net u (next n) (Target a) (reciprocal a) d a) by (done || lia).
      rewrite Hn. cbn. by rewrite decide_True. }
    destruct (step_tried P u (next n) net' active') as [T1 T2 T3 T4 T5 T6 T7 T8 T9]; [done|done|lia|by apply (push_done P u (next n) net active a)|].
    eexists _, _. split; [reflexivity|]. split; try done.
    + rewrite T2. apply shape_push.
    + intros w. by rewrite T3.
    + by apply (push_new u (next n) net active a).
    + intros k Hk. rewrite T6 by done. by apply (push_adm P u (next n) net active a).
    + by rewrite T8.
    + intros k Hk. by apply (push_steep P u (next n) net active a), T9.
  - eexists _, _. split; [reflexivity|]. apply step_tried; [done..|]. right. unfold adm. by rewrite Ha, (ht_lookup _ _ _ Hn).
Qed.

(** ** Discharges end *)

Definition imeasure (net : network) (u : nat) : nat :=
  (2 * Z.to_nat (ht net s + Z.of_nat (length net) - ht net u) + (if skipped net u then 1 else 0)) *
    (S (length (arcs_of net u))) + (length (arcs_of net u) - next_of net u).

Lemma skipped_tried P u i net active net' active' :
  tried P u i net active net' active' → next_of net u = i → ex net' u ≠ 0 →
  skipped net' u = skipped net u.
Proof.
  intros T Hi Hne. unfold skipped. rewrite (tr_next _ _ _ _ _ _ _ T), Hi. rewrite seq_S, existsb_app. cbn.
  destruct (tr_done _ _ _ _ _ _ _ T) as [?| ->]; [done|]. rewrite !orb_false_r.
  apply eq_bool_prop_intro. rewrite !Is_true_true, !existsb_exists. apply exist_proper. intros k.
  rewrite in_seq. split; intros [Hk Hk']; (split; [done|]); [rewrite <- Hk'; symmetry|rewrite <- Hk'];
    apply (tr_adm _ _ _ _ _ _ _ T); lia.
Qed.

Lemma length_shape net net' : shape net' = shape net → length net' = length net.
Proof. intros H%(f_equal length). unfold shape in H. by rewrite !length_fmap in H. Qed.

(** A relabel that raises the node, or starts over its arcs, and the arc that is tried next. *)
Lemma relabel_try P u net active n n' net' active' : let net1 := <[u:=n']> net in
  net !! u = Some n → u ≠ s → Arcs n' = Arcs n → excess n' = excess n → ID n' = ID n → (next n' < length (Arcs n'))%nat →
  (n' = n ∨ next n = length (Arcs n) ∧ next n' = 0%nat ∧ (Height n < Height n' ∨ Height n' = Height n ∧ skipped net u = true)) →
  inv P u net1 active → tried P u (next n') net1 active net' active' →
  progress u net active net' active' ∧ (ex net' u = 0 ∨ (imeasure net' u < imeasure net u)%nat).
Proof.
  intros net1 Hn Hus Harcs Hexc HID Hnx Hcase Hinv' T.
  assert (net1 !! u = Some n') as Hn1 by (unfold net1; rewrite (touch_lookup net u n n') by done; by rewrite decide_True).
  assert (shape net1 = shape net) as Hsh1 by (by eapply shape_touch).
  assert (∀ w, ht net w ≤ ht net1 w) as Hup.
  { intros w. unfold net1. rewrite (touch_ht net u n n') by done. case_decide as Hw; [subst w|lia]. rewrite (ht_lookup _ _ _ Hn).
    destruct Hcase as [-> |(_ & _ & [?|[? _]])]; lia. }
  assert (∀ w, w ≠ u → ht net1 w = ht net w) as Hother by (intros w Hw; unfold net1; rewrite (touch_ht net u n n') by done; by rewrite decide_False).
  destruct T as [T1 T2 T3 T4 T5 T6 T7 T8 T9] eqn:HT.
  assert (ht net1 u = Height n' ∧ ht net u = Height n) as [Hh1 Hh] by (split; by apply ht_lookup).
  split.
  - split; [congruence|intros w; by rewrite T3|intros w Hw; by rewrite T3, Hother|]. rewrite T3. destruct (decide (ht net u < ht net1 u)); [by left|right].
    assert (∀ w, ht net1 w = ht net w) as Hsame by (intros w; destruct (decide (w = u)) as [-> |]; [pose proof (Hup u); lia|by apply Hother]).
    split; [intros w; by rewrite T3|]. destruct T4 as (new & Hp & Hall). exists new. split; [done|].
    eapply Forall_impl; [exact Hall|]. intros v. by rewrite !Hsame.
  - destruct (decide (ex net' u = 0)) as [|Hne]; [by left|right].
    assert (next_of net1 u = next n') as Hnx1 by (unfold next_of; by rewrite Hn1).
    pose proof (skipped_tried _ _ _ _ _ _ _ T Hnx1 Hne) as Hsk. unfold imeasure. rewrite T8, Hsk, T7.
    rewrite (length_shape net net') by congruence. rewrite !T3, (Hother s) by done.
    assert (arcs_of net1 u = arcs_of net u) as -> by (by apply (touch_arcs net u n n')).
    rewrite (arcs_lookup _ _ _ Hn). rewrite Harcs in Hnx.
    assert (next_of net u = next n) as -> by (unfold next_of; by rewrite Hn).
    pose proof (in_ht _ _ _ _ Hinv' u) as Hb. rewrite Hh1, (Hother s) in Hb by done.
    assert (length net1 = length net) as Hl1 by (unfold net1; by rewrite length_insert). rewrite Hl1 in Hb.
    destruct Hcase as [Heq|(Hwrap & Hz & Hraise)].
    + assert (net1 = net) as -> by (unfold net1; rewrite Heq; by apply list_insert_id). rewrite Heq in *. lia.
    + rewrite Hwrap, Hz. assert (skipped net1 u = false) as -> by (unfold skipped, next_of; rewrite Hn1, Hz; done).
      destruct Hraise as [Hr|[Hr ->]]; [|rewrite Hh1, Hr, <- Hh; nia].
      rewrite Hh1, Hh. destruct (skipped net u); nia.
Qed.

Lemma iter_ok u net active :
  inv (λ _, True) u net active → u ≠ s → u ≠ t → 0 < ex net u →
  ∃ net' active', discharge_iter u t net active = Ret (net', active', true) ∧
    inv (λ _, True) u net' active' ∧ progress u net active net' active' ∧
    (ex net' u = 0 ∨ (imeasure net' u < imeasure net u)%nat).
Proof.
  intros Hinv Hus Hut Hex. unfold discharge_iter.
  destruct (net !! u) as [n|] eqn:Hn; [|by unfold ex in Hex; rewrite Hn in Hex].
  destruct (relabel_ok u net active n Hinv Hus Hut Hn Hex) as (n' & -> & Hinv' & Harcs & Hexc & HID & Hnx & Hcase).
  assert (<[u:=n']> net !! u = Some n') as Hn1 by (rewrite (touch_lookup net u n n') by done; by rewrite decide_True).
  assert (ex (<[u:=n']> net) u = ex net u) as Hex1 by (by apply (touch_ex net u n n')).
  destruct (try_arc_ok (λ _, True) u (<[u:=n']> net) active n' Hinv' Hut Hn1) as (net' & active' & -> & T); [by rewrite Hex1|done|].
  exists net', active'. split; [done|]. split; [apply T|]. by eapply (relabel_try _ u net active n n').
Qed.

Lemma discharge_ok u : u ≠ s → u ≠ t → ∀ m net active,
  (imeasure net u ≤ m)%nat → inv (λ _, True) u net active →
  ∃ fuel0 net' active', (∀ fuel, (fuel0 ≤ fuel)%nat → discharge fuel u t net active = Some (Ret (net', active'))) ∧
    inv (λ _, True) u net' active' ∧ progress u net active net' active' ∧ ex net' u = 0.
Proof.
  intros Hus Hut m. induction m as [m IH] using lt_wf_ind. intros net active Hm Hinv.
  destruct (Z.eqb_spec (ex net u) 0) as [Hz|Hnz].
  { exists 0%nat, net, active. split_and!; [|done|apply progress_refl|done]. intros [|fuel] _; cbn; by rewrite Hz. }
  pose proof (fo_pos _ (in_ok _ _ _ _ Hinv) u).
  destruct (iter_ok u net active Hinv Hus Hut) as (net1 & active1 & Hit & Hinv1 & Hpg & Hdec); [lia|].
  assert (∃ fuel0 net' active', (∀ fuel, (fuel0 ≤ fuel)%nat → discharge fuel u t net1 active1 = Some (Ret (net', active'))) ∧
    inv (λ _, True) u net' active' ∧ progress u net1 active1 net' active' ∧ ex net' u = 0)
    as (fuel0 & net' & active' & Hrun & Hinv' & Hpg' & Hz').
  { destruct Hdec as [Hz|Hlt]; [|by apply (IH (imeasure net1 u)); [lia|done|]].
    exists 0%nat, net1, active1. split_and!; [|done|apply progress_refl|done]. intros [|fuel] _; cbn; by rewrite Hz. }
  exists (S fuel0), net', active'. split_and!; [|done|by eapply progress_trans|done].
  intros [|fuel] Hf; [lia|]. cbn. rewrite (proj2 (Z.eqb_neq _ _) Hnz), Hit. apply Hrun. lia.
Qed.

Lemma shape_arc net net' u i a : shape net' = shape net → arc net u i = Some a →
  ∃ a', arc net' u i = Some a' ∧ Capacity a' = Capacity a ∧ reciprocal a' = reciprocal a ∧ Target a' = Target a.
Proof.
  intros Hsh Ha. destruct (arc_node _ _ _ _ Ha) as (n & Hn & Hi).
  assert (shape net' !! u = shape net !! u) as Hs by congruence. unfold shape in Hs. rewrite !list_lookup_fmap, Hn in Hs.
  destruct (net' !! u) as [n'|] eqn:Hn'; [|done]. cbn in Hs. injection Hs as _ Hs.
  assert (((λ a, with_Flow a 0) <$> Arcs n') !! i = ((λ a, with_Flow a 0) <$> Arcs n) !! i) as Hi' by congruence.
  rewrite !list_lookup_fmap, Hi in Hi'. destruct (Arcs n' !! i) as [a'|] eqn:Ha'; [|done]. exists a'.
  split; [unfold arc; by rewrite (arcs_lookup _ _ _ Hn')|]. cbn in Hi'. unfold with_Flow in Hi'. by injection Hi' as -> _ -> ->.
Qed.

(** ** The first discharge saturates the arcs of the source *)

Section source.
Context (P : nat → Prop).

Record source_inv (net : network) (active : list nat) : Prop := {
  si_inv : inv P s net active;
  si_down : ∀ i a, arc net s i = Some a → ht net (Target a) < ht net s;
  si_full : ∀ i a, (i < next_of net s)%nat → arc net s i = Some a → Flow a = Capacity a;
}.

Lemma tried_source net active net' active' :
  source_inv net active → tried P s (next_of net s) net active net' active' → source_inv net' active'.
Proof.
  intros [Hinv Hdown Hfull] [T1 T2 T3 T4 T5 T6 T7 T8 T9].
  pose proof (source_excess net' (in_ok _ _ _ _ T1) (in_s _ _ _ _ T1)) as Hex.
  assert (∀ i a', arc net' s i = Some a' → ∃ a, arc net s i = Some a ∧ Target a = Target a') as Hold.
  { intros i a' Ha'. destruct (shape_arc net' net s i a' ltac:(done) Ha') as (a & ? & _ & _ & ?). eauto. }
  split; [done| |].
  - intros i a' Ha'. destruct (Hold i a' Ha') as (a & Ha & <-). rewrite !T3. by eapply Hdown.
  - intros i a' Hi Ha'. rewrite T7 in Hi. destruct (Hold i a' Ha') as (a & Ha & Htgt).
    assert (adm net' s i = false) as Hadm.
    { destruct (decide (i = next_of net s)) as [-> |Hne]; [destruct T5; [lia|done]|]. rewrite T6 by done.
      unfold adm. rewrite Ha, (Hfull i a) by (lia || done). by rewrite Z.ltb_irrefl. }
    unfold adm in Hadm. rewrite Ha' in Hadm. rewrite !T3, <- Htgt in Hadm. pose proof (Hdown _ _ Ha).
    pose proof (fo_cap _ (in_ok _ _ _ _ T1) _ _ _ Ha'). apply andb_false_iff in Hadm as [?|?]; lia.
Qed.

Lemma source_full net active : source_inv net active → next_of net s = length (arcs_of net s) →
  discharge_iter s t net active = Ret (net, active, false) ∧ inv (λ u, u = s ∨ P u) s net active.
Proof.
  intros [Hinv Hdown Hfull] Hnx. pose proof (in_ok _ _ _ _ Hinv) as Hok.
  assert (∀ i a, arc net s i = Some a → Flow a = Capacity a) as Hsat.
  { intros i a Ha. apply (Hfull i a); [|done]. rewrite Hnx. by apply lookup_lt_Some in Ha. }
  destruct (lookup_lt_is_Some_2 _ _ (in_s _ _ _ _ Hinv)) as [n Hn]. split.
  - unfold discharge_iter. rewrite Hn. unfold relabel, next_of in *. rewrite Hn, (arcs_lookup _ _ _ Hn) in Hnx.
    rewrite Hnx, Nat.eqb_refl. destruct (min_fold net (Arcs n) MaxUint32) as (_ & _ & Hcase).
    change (foldl _ _ _) with (min_height net (Arcs n)) in Hcase.
    destruct Hcase as [-> |(a & (i & Hi)%list_elem_of_lookup_1 & Hra & _)]; [done|].
    assert (arc net s i = Some a) as Ha by (unfold arc; by rewrite (arcs_lookup _ _ _ Hn)).
    rewrite (resid_spec _ _ _ _ Hok Ha), (Hsat _ _ Ha), Z.ltb_irrefl in Hra. done.
  - destruct Hinv. split; try done. intros u i a [-> |HP] Ha Hr; [|by eapply in_lab0]. rewrite (Hsat _ _ Ha) in Hr. lia.
Qed.

Lemma source_discharge m : ∀ net active,
  (length (arcs_of net s) - next_of net s ≤ m)%nat → source_inv net active →
  ∃ fuel0 net' active', (∀ fuel, (fuel0 ≤ fuel)%nat → discharge fuel s t net active = Some (Ret (net', active'))) ∧
    inv (λ u, u = s ∨ P u) s net' active' ∧ shape net' = shape net ∧ ∀ w, ht net' w = ht net w.
Proof.
  induction m as [|m IH]; intros net active Hm Hsi; pose proof (si_inv _ _ Hsi) as Hinv;
    pose proof (source_excess net (in_ok _ _ _ _ Hinv) (in_s _ _ _ _ Hinv)) as Hex;
    pose proof (in_next _ _ _ _ Hinv s) as Hle;
    (destruct (decide (next_of net s = length (arcs_of net s))) as [Heq|Hne]; [|try lia]).
  1,2: destruct (source_full net active Hsi Heq) as [Hit Hinv']; exists 1%nat, net, active; split_and!; [|done..];
    intros [|fuel] Hf; [lia|]; cbn; rewrite (proj2 (Z.eqb_neq _ _)) by lia; by rewrite Hit.
  destruct (lookup_lt_is_Some_2 _ _ (in_s _ _ _ _ Hinv)) as [n Hn].
  assert (next_of net s = next n) as Hnx by (unfold next_of; by rewrite Hn). rewrite (arcs_lookup _ _ _ Hn) in *.
  destruct (try_arc_ok P s net active n Hinv (in_st _ _ _ _ Hinv) Hn Hex) as (net1 & active1 & Htry & T); [lia|].
  rewrite <- Hnx in T. pose proof (tried_source _ _ _ _ Hsi T) as Hsi1. destruct T as [T1 T2 T3 T4 T5 T6 T7 T8 T9].
  rewrite (arcs_lookup _ _ _ Hn) in T8.
  destruct (IH net1 active1) as (fuel0 & net' & active' & Hrun & Hinv' & Hsh & Hht); [lia|done|].
  exists (S fuel0), net', active'. split_and!; [|done|congruence|intros w; by rewrite Hht].
  intros [|fuel] Hf; [lia|]. cbn. rewrite (proj2 (Z.eqb_neq _ _)) by lia. unfold discharge_iter. rewrite Hn. unfold relabel.
  rewrite (proj2 (Nat.eqb_neq _ _)) by lia. rewrite list_insert_id by done. rewrite Htry. apply Hrun. lia.
Qed.
End source.

Lemma inv_weaken (P Q : nat → Prop) u net active : inv P u net active → (∀ w, Q w → P w) → inv Q u net active.
Proof. intros [] HQ. split; try done. intros w i a Hw. eauto. Qed.

(** ** The loop ends *)

Definition slack (net : network) : Z := zsum (λ u, ht net s + Z.of_nat (length net) - ht net u) (seq 0 (length net)).
Definition weight (net : network) (active : list nat) : Z := zsum (λ v, (Z.of_nat (length net) + 1) ^ ht net v) active.

Lemma inv_pop P net active u rest :
  inv P s net active → active ≡ₚ u :: rest →
  inv P u net rest ∧ u ≠ s ∧ u ≠ t ∧ 0 < ex net u.
Proof.
  intros Hinv Hp. pose proof (in_active _ _ _ _ Hinv) as Hact. pose proof (in_nodup _ _ _ _ Hinv) as Hnd. rewrite Hp in Hnd.
  apply NoDup_cons in Hnd as [Hnu Hnd]. assert (u ∈ active) as Hu by (rewrite Hp; by left). apply Hact in Hu as (_ & ? & ? & ?).
  split_and!; [|done..]. destruct Hinv. split; try done. intros v. specialize (Hact v). rewrite Hp, elem_of_cons in Hact.
  destruct (decide (v = u)) as [-> |]; naive_solver.
Qed.

Lemma inv_return P u net active : inv P u net active → ex net u = 0 → inv P s net active.
Proof.
  intros Hinv Hz. pose proof (in_active _ _ _ _ Hinv) as Hact. destruct Hinv. split; try done. intros v. rewrite Hact.
  destruct (decide (v = u)) as [-> |]; [naive_solver lia|naive_solver].
Qed.

Lemma slack_nonneg P u net active : inv P u net active → 0 ≤ slack net.
Proof. intros Hinv. apply zsum_nonneg. intros v _. pose proof (in_ht _ _ _ _ Hinv v). lia. Qed.

Lemma weight_nonneg net active : 0 ≤ weight net active.
Proof. apply zsum_nonneg. intros v _. apply Z.pow_nonneg. lia. Qed.

(** A discharge that raises nothing replaces a node by nodes below it. *)
Lemma weight_below net u new : NoDup new → (∀ v, v ∈ new → (v < length net)%nat) →
  Forall (λ v, ht net v < ht net u) new → (∀ v, 0 ≤ ht net v) →
  weight net new < (Z.of_nat (length net) + 1) ^ ht net u.
Proof.
  intros Hnd Hin Hlow Hpos. set (b := Z.of_nat (length net) + 1).
  assert (length new ≤ length net)%nat as Hlen.
  { rewrite <- (length_seq (length net) 0). apply submseteq_length, NoDup_submseteq; [done|]. intros v Hv.
    apply elem_of_seq. specialize (Hin v Hv). lia. }
  destruct new as [|v0 new0]; [cbn; apply Z.pow_pos_nonneg; [lia|apply Hpos]|]. set (new := v0 :: new0) in *.
  assert (0 < ht net u) by (apply Forall_inv in Hlow; specialize (Hpos v0); lia).
  assert (weight net new ≤ Z.of_nat (length new) * b ^ (ht net u - 1)) as Hle.
  { unfold weight. clearbody new. induction new as [|v l IH]; [cbn; lia|]. apply Forall_cons in Hlow as [Hv Hl]. cbn [zsum length].
    apply NoDup_cons in Hnd as [_ Hnd]. assert (b ^ ht net v ≤ b ^ (ht net u - 1)) by (apply Z.pow_le_mono_r; lia).
    specialize (IH Hnd (λ w Hw, Hin w ltac:(by right)) Hl ltac:(cbn in Hlen; lia)). fold b in IH |- *. lia. }
  replace (ht net u) with (ht net u - 1 + 1) by lia. rewrite Z.pow_add_r, Z.pow_1_r by lia.
  assert (0 < b ^ (ht net u - 1)) by (apply Z.pow_pos_nonneg; lia). unfold b in *. nia.
Qed.

Lemma progress_decreases P u net rest net' active' :
  u ≠ s → (u < length net)%nat → inv P u net rest → inv P u net' active' →
  progress u net rest net' active' →
  slack net' < slack net ∨ slack net' = slack net ∧ weight net' active' < weight net (u :: rest).
Proof.
  intros Hus Hu Hinv Hinv' [Hsh Hup Hoth Hcase]. pose proof (length_shape _ _ Hsh) as Hl. unfold slack. rewrite Hl, (Hoth s) by done.
  destruct Hcase as [Hlt|[Hsame (new & Hp & Hlow)]].
  - left. apply zsum_lt with (x := u); [|apply elem_of_seq; lia|lia]. intros v _. specialize (Hup v). lia.
  - right. split; [apply zsum_ext; intros; by rewrite Hsame|]. unfold weight. rewrite (zsum_perm _ _ _ Hp), zsum_app, Hl. cbn [zsum].
    rewrite (zsum_ext _ (λ v, (Z.of_nat (length net) + 1) ^ ht net v) new), (zsum_ext _ (λ v, (Z.of_nat (length net) + 1) ^ ht net v) rest)
      by (intros; by rewrite Hsame).
    pose proof (weight_below net u new) as Hw. unfold weight in Hw. apply Z.add_lt_mono_r, Hw.
    + pose proof (in_nodup _ _ _ _ Hinv') as Hnd. rewrite Hp in Hnd. by apply NoDup_app in Hnd as [? _].
    + intros v Hv. assert (v ∈ active') as Ha by (rewrite Hp; apply elem_of_app; by left).
      apply (in_active _ _ _ _ Hinv') in Ha as (_ & _ & _ & Hex). rewrite <- Hl. unfold ex in Hex.
      destruct (net' !! v) eqn:Hv'; [by apply lookup_lt_Some in Hv'|lia].
    + done.
    + apply Hinv.
Qed.

Lemma max_loop_ok m : ∀ k net active,
  (Z.to_nat (slack net) ≤ m)%nat → (Z.to_nat (weight net active) ≤ k)%nat → inv (λ _, True) s net active →
  ∃ fuel0 net', (∀ fuel inner, (fuel0 ≤ fuel)%nat → (fuel0 ≤ inner)%nat → max_loop fuel inner s t net active = Some (Ret net')) ∧
    inv (λ _, True) s net' [] ∧ shape net' = shape net.
Proof.
  induction m as [m IHm] using lt_wf_ind. intros k. induction k as [k IHk] using lt_wf_ind. intros net active Hm Hk Hinv.
  pose proof (heap_Pop_spec (ht net) active) as Hpop. destruct (heap_Pop (ht net) active) as [[u rest]|] eqn:Hp.
  2:{ subst active. exists 0%nat, net. split_and!; [|done..]. intros [|fuel] inner _ _; cbn [max_loop]; by rewrite Hp. }
  destruct (inv_pop _ _ _ _ _ Hinv Hpop) as (Hinvu & Hus & Hut & Hex).
  destruct (discharge_ok u Hus Hut (imeasure net u) net rest (le_n _) Hinvu) as (f1 & net1 & active1 & Hrun & Hinv1 & Hpg & Hz).
  pose proof (inv_return _ _ _ _ Hinv1 Hz) as Hinvs.
  assert (u < length net)%nat as Hu by (unfold ex in Hex; destruct (net !! u) eqn:E; [by apply lookup_lt_Some in E|lia]).
  assert (∃ fuel0 net', (∀ fuel inner, (fuel0 ≤ fuel)%nat → (fuel0 ≤ inner)%nat → max_loop fuel inner s t net1 active1 = Some (Ret net')) ∧
    inv (λ _, True) s net' [] ∧ shape net' = shape net1) as (f2 & net' & Hloop & Hinv' & Hsh').
  { pose proof (slack_nonneg _ _ _ _ Hinv1). pose proof (weight_nonneg net1 active1).
    destruct (progress_decreases _ u net rest net1 active1 Hus Hu Hinvu Hinv1 Hpg) as [Hlt|[Heq Hlt]].
    - by apply (IHm (Z.to_nat (slack net1))) with (k := Z.to_nat (weight net1 active1)); [lia|..].
    - unfold weight in Hk. rewrite (zsum_perm _ _ _ Hpop) in Hk. fold (weight net (u :: rest)) in Hk.
      apply (IHk (Z.to_nat (weight net1 active1))); [lia|lia|done|done]. }
  exists (S (f1 + f2)), net'. split_and!; [|done|rewrite Hsh'; apply Hpg].
  intros [|fuel] inner Hf Hi; [lia|]. cbn [max_loop]. rewrite Hp, (proj2 (Z.eqb_neq _ _)) by lia. rewrite Hrun by lia.
  rewrite Hz. cbn. apply Hloop; lia.
Qed.

(** ** Maximum flow *)

(** Nodes that nothing has flowed through. *)
Definition fresh (net : network) : Prop :=
  ∀ u n, net !! u = Some n → excess n = 0 ∧ next n = 0%nat ∧ Forall (λ a, Flow a = 0) (Arcs n).

(** A network as it is built: arcs in pairs, no flow yet, and a labeling by heights that is valid
    but for the arcs of the source, which is above all others. *)
Record network_ok (net : network) : Prop := {
  no_s : (s < length net)%nat;
  no_t : (t < length net)%nat;
  no_st : s ≠ t;
  no_paired : paired net;
  no_fresh : fresh net;
  no_source : zsum Capacity (arcs_of net s) < MaxUint32;
  no_label : labeled (λ u, u ≠ s) net;
  no_top : ∀ i a, arc net s i = Some a → ht net (Target a) < ht net s;
  no_heights : ∀ u, 0 ≤ ht net u ≤ ht net s;
  no_hs : Z.of_nat (length net) ≤ ht net s;
  no_hmax : ht net s + Z.of_nat (length net) < MaxUint32;
  no_ht : ht net t = 0;
}.

Lemma shape_out net net' F u : shape net' = shape net → out net' F u = out net F u.
Proof.
  intros Hsh. unfold out. do 2 f_equal. assert (shape net' !! u = shape net !! u) as Hs by congruence.
  unfold shape in Hs. rewrite !list_lookup_fmap in Hs. unfold arcs_of.
  destruct (net !! u), (net' !! u); try done. cbn in Hs. injection Hs as _ Hs%(f_equal length). by rewrite !length_fmap in Hs.
Qed.

Lemma feasible_shape net net' F : shape net' = shape net → feasible net s t F → feasible net' s t F.
Proof.
  intros Hsh [H1 H2 H3]. split.
  - intros u i a' Ha'. destruct (shape_arc net' net u i a' ltac:(done) Ha') as (a & Ha & _ & <- & <-). eauto.
  - intros u i a' Ha'. destruct (shape_arc net' net u i a' ltac:(done) Ha') as (a & Ha & <- & _). eauto.
  - intros u. rewrite (length_shape _ _ Hsh), (shape_out _ _ _ _ Hsh). eauto.
Qed.

(** The source starts with all of the excess. *)
Section start.
Context (net : network) (n : Node) (Hn : net !! s = Some n) (Hfresh : fresh net).
Let n' := with_excess n MaxUint32.

Lemma start_lookup w : <[s:=n']> net !! w = if decide (w = s) then Some n' else net !! w.
Proof. by apply (touch_lookup net s n n'). Qed.

Lemma start_arcs w : arcs_of (<[s:=n']> net) w = arcs_of net w.
Proof. unfold arcs_of. rewrite start_lookup. case_decide; [subst; by rewrite Hn|done]. Qed.

Lemma start_arc w k : arc (<[s:=n']> net) w k = arc net w k.
Proof. unfold arc. by rewrite start_arcs. Qed.

Lemma start_ht w : ht (<[s:=n']> net) w = ht net w.
Proof. unfold ht. rewrite start_lookup. case_decide; [subst; by rewrite Hn|done]. Qed.

Lemma start_ex w : ex (<[s:=n']> net) w = if decide (w = s) then MaxUint32 else 0.
Proof.
  unfold ex. rewrite start_lookup. case_decide; [done|]. destruct (net !! w) as [m|] eqn:Hm; [|done]. by apply Hfresh in Hm as [-> _].
Qed.

Lemma start_next w : next_of (<[s:=n']> net) w = 0%nat.
Proof.
  unfold next_of. rewrite start_lookup. case_decide; [by apply Hfresh in Hn as (_ & ? & _)|].
  destruct (net !! w) as [m|] eqn:Hm; [|done]. by apply Hfresh in Hm as (_ & ? & _).
Qed.

Lemma fresh_flow w a : a ∈ arcs_of net w → Flow a = 0.
Proof.
  unfold arcs_of. destruct (net !! w) as [m|] eqn:Hm; [|by intros ?%elem_of_nil].
  apply Hfresh in Hm as (_ & _ & Hall). rewrite Forall_forall in Hall. auto.
Qed.

Lemma start_flow_ok : paired net → zsum Capacity (arcs_of net s) < MaxUint32 → flow_ok (<[s:=n']> net).
Proof.
  intros Hp Hsrc. assert (∀ w k a, arc net w k = Some a → Flow a = 0) as Hz by (intros w k a ?%list_elem_of_lookup_2; by eapply fresh_flow). split.
  - intros u i a. rewrite !start_arc. apply Hp.
  - intros u i a. unfold arc_flow. rewrite !start_arc. intros Ha. destruct (Hp _ _ _ Ha) as (_ & _ & b & Hb & _). rewrite Hb.
    by rewrite (Hz _ _ _ Ha), (Hz _ _ _ Hb).
  - intros u i a. rewrite start_arc. intros Ha. rewrite (Hz _ _ _ Ha). by apply (Hp _ _ _ Ha).
  - intros u _. rewrite start_ex, start_arcs, zsum_zero by apply fresh_flow. destruct (Nat.eqb_spec u s); case_decide; congruence || lia.
  - intros u. rewrite start_ex. by case_decide.
  - rewrite (zsum_insert _ _ _ _ _ Hn). rewrite (zsum_zero excess net).
    + cbn. destruct (Hfresh _ _ Hn) as [-> _]. lia.
    + intros m (w & Hw)%list_elem_of_lookup_1. by apply Hfresh in Hw as [? _].
  - by rewrite start_arcs.
Qed.

Lemma start_base : paired net → zsum Capacity (arcs_of net s) < MaxUint32 → base s (<[s:=n']> net) [].
Proof.
  intros Hp Hsrc. split; [by apply start_flow_ok|rewrite length_insert; by eapply lookup_lt_Some| |constructor].
  intros v. rewrite start_ex, elem_of_nil. split; [done|]. intros (? & ? & ? & ?). rewrite decide_False in * by done. lia.
Qed.
End start.

Lemma network_start net : network_ok net → source_inv (λ u, u ≠ s) (alter (λ n, with_excess n MaxUint32) s net) [].
Proof.
  intros [? ? ? Hp Hfresh Hsrc Hlab Htop Hh Hhs Hmax Hht]. destruct (lookup_lt_is_Some_2 net s) as [n Hn]; [done|].
  rewrite (alter_touch _ s net n Hn). pose proof (start_base net n Hn Hfresh Hp Hsrc) as [Hok ? Hact ?]. split.
  - split; rewrite ?length_insert, ?(start_ht net n Hn); try done.
    + intros u i a Hu. rewrite (start_arc net n Hn), !(start_ht net n Hn). by apply Hlab.
    + intros u. rewrite (start_ht net n Hn). specialize (Hh u). lia.
    + intros u. rewrite (start_next net n Hn Hfresh). lia.
  - intros i a. rewrite (start_arc net n Hn), !(start_ht net n Hn). apply Htop.
  - intros i a. rewrite (start_next net n Hn Hfresh). lia.
Qed.

(** ** Flows that are found keep to the network, whatever the heights *)

Lemma base_touch u net active n n' : base u net active → net !! u = Some n → Arcs n' = Arcs n → excess n' = excess n → base u (<[u:=n']> net) active.
Proof.
  intros [] Hn Ha He. split; [by eapply touch_ok|by rewrite length_insert| |done]. intros v. by rewrite (touch_ex net u n n').
Qed.

Lemma base_try u net active n net' active' b :
  base u net active → u ≠ t → net !! u = Some n → 0 < ex net u → try_arc u t n net active = Ret (net', active', b) →
  base u net' active' ∧ shape net' = shape net.
Proof.
  intros Hb Hut Hn Hex. pose proof (ba_ok _ _ _ Hb) as Hok. unfold try_arc. destruct (Arcs n !! next n) as [a|] eqn:Hi; [|done].
  assert (arc net u (next n) = Some a) as Ha by (unfold arc; by rewrite (arcs_lookup _ _ _ Hn)).
  assert (∀ l act m, l !! u = Some m → base u l act → base u (alter (λ n, with_next n (S (next n))) u l) act ∧
    shape (alter (λ n, with_next n (S (next n))) u l) = shape l) as Hstep.
  { intros l act m Hm Hl. rewrite (alter_touch _ u l m Hm). split; [by eapply base_touch|by eapply shape_touch]. }
  change (0 <? int32 (Capacity a - Flow a)) with (resid a). rewrite (resid_spec _ _ _ _ Hok Ha).
  destruct (flow_bound _ _ _ _ Hok Ha) as (Hf1 & Hf2 & Hf3). destruct (_ && _) eqn:Hadm; [|intros [= <- <- <-]; by eapply Hstep].
  apply andb_true_iff in Hadm as [Hres%Z.ltb_lt Hdown%Z.ltb_lt]. rewrite <- (ht_lookup _ _ _ Hn) in Hdown.
  destruct (fo_paired _ Hok _ _ _ Ha) as (_ & _ & c & Hc & _). destruct (arc_node _ _ _ _ Hc) as (m & Hm & Hmb).
  rewrite Hm. cbn [mbind option_bind]. rewrite Hmb. rewrite int32_id, uint32_id by (unfold is_uint32, MaxInt32, MaxUint32 in *; lia).
  rewrite <- (ex_lookup _ _ _ Hn). rewrite (push_bump net u (next n) (Target a) (reciprocal a) _ a Hok Ha eq_refl eq_refl) by lia.
  pose proof (push_base u (next n) net active a Hb Hut Ha Hres Hdown Hex) as Hb'. intros [= <- <- <-].
  match goal with |- base _ (alter _ u ?l) _ ∧ _ => destruct (lookup_lt_is_Some_2 l u) as [k Hk] end.
  { rewrite !length_alter. by eapply lookup_lt_Some. }
  destruct (Hstep _ _ _ Hk Hb') as [H1 H2]. split; [exact H1|]. rewrite H2. apply shape_push.
Qed.

Lemma relabel_keeps net n n' : relabel net n = Some n' → Arcs n' = Arcs n ∧ excess n' = excess n ∧ ID n' = ID n.
Proof. unfold relabel. repeat case_match; by intros [= <-]. Qed.

Lemma base_discharge u fuel : u ≠ t → ∀ net active net' active',
  base u net active → discharge fuel u t net active = Some (Ret (net', active')) → base u net' active' ∧ shape net' = shape net.
Proof.
  intros Hut. induction fuel as [|fuel IH]; intros net active net' active' Hb; cbn [discharge];
    (destruct (Z.eqb_spec (ex net u) 0) as [|Hnz]; [by intros [= <- <-]|]); [done|].
  pose proof (fo_pos _ (ba_ok _ _ _ Hb) u). unfold discharge_iter. destruct (net !! u) as [n|] eqn:Hn; [|done].
  destruct (relabel net n) as [n1|] eqn:Hr; [|by intros [= <- <-]]. destruct (relabel_keeps _ _ _ Hr) as (Ha & He & Hi).
  pose proof (base_touch _ _ _ _ _ Hb Hn Ha He) as Hb1. destruct (try_arc _ _ _ _ _) as [[[net2 active2] [|]]|] eqn:Ht; [|..|done].
  - apply base_try in Ht as [Hb2 Hs2]; [|done|done|by rewrite (touch_lookup net u n n1), decide_True|rewrite (touch_ex net u n n1) by done; lia].
    intros Hd. destruct (IH _ _ _ _ Hb2 Hd) as [Hb' Hs']. split; [done|]. rewrite Hs', Hs2. by eapply shape_touch.
  - apply base_try in Ht as [Hb2 Hs2]; [|done|done|by rewrite (touch_lookup net u n n1), decide_True|rewrite (touch_ex net u n n1) by done; lia].
    intros [= <- <-]. split; [done|]. rewrite Hs2. by eapply shape_touch.
Qed.

Lemma base_pop net active u rest : base s net active → active ≡ₚ u :: rest → base u net rest ∧ u ≠ t.
Proof.
  intros [H1 H2 Hact Hnd] Hp. rewrite Hp in Hnd. apply NoDup_cons in Hnd as [Hnu Hnd].
  assert (u ∈ active) as Hu by (rewrite Hp; by left). apply Hact in Hu as (_ & ? & ? & ?). split; [|done]. split; [done|done| |done].
  intros v. specialize (Hact v). rewrite Hp, elem_of_cons in Hact. destruct (decide (v = u)) as [-> |]; naive_solver.
Qed.

Lemma base_return u net active : base u net active → u = s ∨ ex net u = 0 → base s net active.
Proof.
  intros Hb [-> |Hz]; [done|]. destruct Hb as [H1 H2 Hact Hnd]. split; try done. intros v. rewrite Hact.
  destruct (decide (v = u)) as [-> |]; [naive_solver lia|naive_solver].
Qed.

Lemma base_loop inner fuel : ∀ net active net',
  base s net active → max_loop fuel inner s t net active = Some (Ret net') → base s net' [] ∧ shape net' = shape net.
Proof.
  induction fuel as [|fuel IH]; intros net active net' Hb; cbn [max_loop]; pose proof (heap_Pop_spec (ht net) active) as Hpop;
    (destruct (heap_Pop (ht net) active) as [[u rest]|]; [|subst; by intros [= <-]]); [done|].
  destruct (base_pop _ _ _ _ Hb Hpop) as [Hbu Hut]. case_match; [done|].
  destruct (discharge inner u t net rest) as [[[net1 active1]|]|] eqn:Hd; [|done..].
  destruct (base_discharge u inner Hut _ _ _ _ Hbu Hd) as [Hb1 Hs1]. destruct (_ && _) eqn:Hx; [done|].
  intros Hl. destruct (IH net1 active1 net') as [Hb' Hs']; [|done|by rewrite Hs', Hs1].
  apply (base_return u); [done|]. apply andb_false_iff in Hx as [Hx|Hx]; apply negb_false_iff in Hx; [right; lia|left; by apply Nat.eqb_eq].
Qed.

Lemma base_feasible net : base s net [] → feasible net s t (arc_flow net).
Proof.
  intros [Hok _ Hact _]. split.
  - intros u i a Ha. rewrite (fo_anti _ Hok _ _ _ Ha). unfold arc_flow. by rewrite Ha.
  - intros u i a Ha. unfold arc_flow. rewrite Ha. by eapply fo_cap.
  - intros u Hu Hus Hut. rewrite out_arcs. pose proof (fo_ex _ Hok u Hu) as Hex. rewrite (proj2 (Nat.eqb_neq _ _) Hus) in Hex.
    pose proof (fo_pos _ Hok u). specialize (Hact u). rewrite elem_of_nil in Hact. destruct (decide (0 < ex net u)); [naive_solver|lia].
Qed.

(** Whatever the heights, a flow that [FindMaxFlow] returns is one of the network. *)
Lemma FindMaxFlow_feasible fuel net net' :
  (s < length net)%nat → s ≠ t → paired net → fresh net → zsum Capacity (arcs_of net s) < MaxUint32 →
  FindMaxFlow fuel s t net = Some (Ret net') → shape net' = shape net ∧ feasible net' s t (arc_flow net').
Proof.
  intros Hs Hst Hp Hf Hsrc. destruct (lookup_lt_is_Some_2 net s Hs) as [n Hn]. unfold FindMaxFlow. rewrite (alter_touch _ s net n Hn).
  pose proof (start_base net n Hn Hf Hp Hsrc) as Hb. set (net0 := <[s:=_]> net) in *.
  assert (shape net0 = shape net) as Hsh0 by (by eapply shape_touch). generalize fuel at 2 as inner. intros inner. destruct fuel as [|fuel]; [done|]. cbn [max_loop].
  change (heap_Pop (ht net0) [s]) with (Some (s, @nil nat)). cbv iota beta. case_match; [done|].
  destruct (discharge inner s t net0 []) as [[[net1 active1]|]|] eqn:Hd; [|done..].
  destruct (base_discharge s inner Hst _ _ _ _ Hb Hd) as [Hb1 Hs1]. rewrite Nat.eqb_refl, andb_false_r. intros Hl.
  destruct (base_loop inner fuel _ _ _ Hb1 Hl) as [Hb' Hs']. split; [congruence|by apply base_feasible].
Qed.

(** C12: On a network that starts from a valid labeling, [FindMaxFlow] ends without a panic, with enough fuel, and leaves a maximum flow: one that
    keeps to the capacities, is conserved at every node but the source and the sink, and sends
    as much from the source as any other flow of the network can. The network is one without flow yet, whose arcs come in pairs with
    their reverses; heights drop by one at most along each arc with capacity but those of the source, whose arcs all lead down,
    which has the greatest height and no less than the count of nodes, and are zero at the sink; and the
    capacities of the source add up to less than MaxUint32. The network that the allocator builds has an overflow node whose height
    is not a valid label: what it finds is a flow, not always a maximum one ([overflow_not_maximum]). *)
Theorem FindMaxFlow_correct net : network_ok net →
  ∃ fuel0 net', (∀ fuel, (fuel0 ≤ fuel)%nat → FindMaxFlow fuel s t net = Some (Ret net')) ∧
    shape net' = shape net ∧ feasible net s t (arc_flow net') ∧
    ∀ F, feasible net s t F → out net F s ≤ out net (arc_flow net') s.
Proof.
  intros Hno. pose proof (network_start net Hno) as Hsi. set (net0 := alter _ s net) in *.
  assert (shape net0 = shape net) as Hsh0.
  { destruct (lookup_lt_is_Some_2 net s) as [n Hn]; [apply Hno|]. unfold net0. rewrite (alter_touch _ s net n Hn). by eapply shape_touch. }
  destruct (source_discharge _ _ net0 [] (le_n _) Hsi) as (f1 & net1 & active1 & Hrun & Hinv1 & Hsh1 & Hht1).
  apply (inv_weaken _ (λ _, True)) in Hinv1; [|intros w _; destruct (decide (w = s)); auto].
  destruct (max_loop_ok _ _ net1 active1 (le_n _) (le_n _) Hinv1) as (f2 & net' & Hloop & Hinv' & Hsh').
  assert (shape net' = shape net) as Hsh by congruence. pose proof (in_ok _ _ _ _ Hinv') as Hok.
  pose proof (base_feasible net' (inv_base _ _ _ _ Hinv')) as Hfe.
  exists (S (f1 + f2)), net'. split_and!; [|done|by apply (feasible_shape net')|].
  - intros [|fuel] Hf; [lia|]. unfold FindMaxFlow. fold net0. cbn [max_loop]. cbn [heap_Pop length Nat.sub heap_down heap_swap].
    change (heap_Pop (ht net0) [s]) with (Some (s, @nil nat)). cbv iota beta.
    pose proof (source_excess net0 (in_ok _ _ _ _ (si_inv _ _ _ Hsi)) (in_s _ _ _ _ (si_inv _ _ _ Hsi))).
    rewrite (proj2 (Z.eqb_neq _ _)) by lia. rewrite Hrun by lia. rewrite Nat.eqb_refl, andb_false_r. apply Hloop; lia.
  - intros F HF. rewrite <- !(shape_out _ _ _ _ Hsh). apply (labeled_maximal net' s t); [apply Hok|done|apply Hinv'..|].
    by apply (feasible_shape net).
Qed.
End invariant.

(** ** Building networks *)

Definition add_arc (a : Arc) (n : Node) : Node := with_Arcs n (Arcs n ++ [a]).

Section add_arc.
Context (net : network) (from to : nat) (capacity priority : Z).
Context (Hfrom : (from < length net)%nat) (Hto : (to < length net)%nat) (Hne : from ≠ to).
Let a := mkArc capacity 0 priority (length (arcs_of net to)) to.
Let b := mkArc 0 0 (- priority) (length (arcs_of net from)) from.
Let net' := alter (add_arc b) to (alter (add_arc a) from net).

Lemma add_arcs w : arcs_of net' w =
  if decide (w = from) then arcs_of net w ++ [a] else if decide (w = to) then arcs_of net w ++ [b] else arcs_of net w.
Proof.
  unfold net', arcs_of. destruct (lookup_lt_is_Some_2 _ _ Hfrom) as [f Hf], (lookup_lt_is_Some_2 _ _ Hto) as [g Hg].
  destruct (decide (w = from)) as [-> |]; [|destruct (decide (w = to)) as [-> |]].
  - rewrite list_lookup_alter_ne, list_lookup_alter_eq, Hf by done. done.
  - rewrite list_lookup_alter_eq, list_lookup_alter_ne, Hg by done. done.
  - by rewrite !list_lookup_alter_ne.
Qed.

Lemma add_arc_old w k c : arc net w k = Some c → arc net' w k = Some c.
Proof. unfold arc. rewrite add_arcs. intros H. repeat case_decide; [by apply lookup_app_l_Some..|done]. Qed.

Lemma add_arc_new w k c : arc net' w k = Some c →
  arc net w k = Some c ∨ w = from ∧ k = length (arcs_of net from) ∧ c = a ∨ w = to ∧ k = length (arcs_of net to) ∧ c = b.
Proof.
  unfold arc. rewrite add_arcs. intros H. repeat case_decide; [| |by left].
  - subst. apply lookup_snoc_Some in H as [[_ ?]|[? ?]]; [by left|right; left; naive_solver].
  - subst. apply lookup_snoc_Some in H as [[_ ?]|[? ?]]; [by left|right; right; naive_solver].
Qed.

Lemma add_arc_paired : 0 ≤ capacity ≤ MaxInt32 → paired net → paired net'.
Proof.
  intros Hcap Hp w k c Hc. destruct (add_arc_new w k c Hc) as [Hold|[(-> & -> & ->)|(-> & -> & ->)]].
  - destruct (Hp _ _ _ Hold) as (? & ? & e & He & ?). split_and!; [done..|]. exists e. split; [by apply add_arc_old|done].
  - split_and!; [done|cbn; lia|]. exists b. split_and!; [|done|done|cbn; lia]. unfold arc. rewrite add_arcs. cbn.
    rewrite decide_False, decide_True by done. by apply lookup_snoc_Some; right.
  - split_and!; [cbn; by apply not_eq_sym|done|]. exists a. split_and!; [|done|done|cbn; lia]. unfold arc. rewrite add_arcs. cbn.
    rewrite decide_True by done. by apply lookup_snoc_Some; right.
Qed.

Lemma add_arc_fresh : fresh net → fresh net'.
Proof.
  intros Hf w n' Hn'. unfold net' in Hn'.
  assert (∀ c v (l : network), fresh l → Flow c = 0 → fresh (alter (add_arc c) v l)) as Hstep.
  { intros c v l Hl Hc u n Hn. destruct (decide (u = v)) as [-> |]; [|rewrite list_lookup_alter_ne in Hn by done; eauto].
    rewrite list_lookup_alter_eq in Hn. apply fmap_Some in Hn as (m & Hm & ->). destruct (Hl _ _ Hm) as (? & ? & ?). cbn.
    split_and!; [done..|]. apply Forall_app. by repeat constructor. }
  eapply (Hstep b to); [|done|exact Hn']. eapply (Hstep a from); [exact Hf|done].
Qed.
End add_arc.

Lemma AddArc_ok net from to capacity priority :
  (from < length net)%nat → (to < length net)%nat → from ≠ to → 0 ≤ capacity ≤ MaxInt32 → 0 ≤ priority ≤ MaxInt8 →
  paired net → fresh net →
  ∃ net', AddArc net from to capacity priority = Ret net' ∧ paired net' ∧ fresh net' ∧ length net' = length net ∧ ∀ u, ht net' u = ht net u.
Proof.
  intros Hf Ht Hne Hc Hp Hpair Hfr. destruct (lookup_lt_is_Some_2 _ _ Hf) as [f Hf'], (lookup_lt_is_Some_2 _ _ Ht) as [g Hg'].
  pose proof (add_arc_paired net from to capacity priority Hf Ht Hne Hc Hpair) as H1.
  pose proof (add_arc_fresh net from to capacity priority Hfr) as H2. rewrite (arcs_lookup _ _ _ Hf'), (arcs_lookup _ _ _ Hg') in H1, H2.
  unfold AddArc. rewrite Hf', Hg'. rewrite (proj2 (orb_false_iff _ _)) by (split; lia). rewrite (proj2 (orb_false_iff _ _)) by (split; lia).
  eexists. split; [reflexivity|]. split_and!; [exact H1|exact H2|by rewrite !length_alter|].
  intros u. unfold ht. destruct (decide (u = to)) as [-> |].
  - rewrite list_lookup_alter_eq, list_lookup_alter_ne, Hg' by done. done.
  - rewrite list_lookup_alter_ne by done. destruct (decide (u = from)) as [-> |]; [by rewrite list_lookup_alter_eq, Hf'|by rewrite list_lookup_alter_ne].
Qed.

(** ** Sorting arcs *)

Definition by_priority (a b : Arc) : Prop := Priority b ≤ Priority a.

Lemma insert_arc_perm a l : insert_arc a l ≡ₚ a :: l.
Proof. induction l as [|x l IH]; cbn; [done|]. case_match; [|done]. rewrite IH. by constructor. Qed.

Lemma sort_arcs_perm l : sort_arcs l ≡ₚ l.
Proof. induction l as [|x l IH]; cbn; [done|]. by rewrite insert_arc_perm, IH. Qed.

Lemma sort_arcs_sorted l : StronglySorted by_priority (sort_arcs l).
Proof.
  induction l as [|a l IH]; [constructor|]. change (sort_arcs (a :: l)) with (insert_arc a (sort_arcs l)).
  generalize dependent (sort_arcs l). clear l. intros l Hl.
  induction Hl as [|x l Hl IH Hx]; cbn; [by repeat constructor|]. destruct (Z.ltb_spec (Priority a) (Priority x)).
  - constructor; [done|]. rewrite insert_arc_perm. constructor; [unfold by_priority; lia|done].
  - constructor; [by constructor|]. constructor; [unfold by_priority; lia|]. eapply Forall_impl; [exact Hx|].
    unfold by_priority. intros y. lia.
Qed.

Definition pos_of (a : Arc) : nat * nat := (Target a, reciprocal a).
Definition fix_arc (net : network) (a : Arc) (i : nat) : network :=
  alter (λ n, with_Arcs n (alter (λ b, with_reciprocal b i) (reciprocal a) (Arcs n))) (Target a) net.

Lemma arc_fix net a i w k :
  arc (fix_arc net a i) w k = (λ b, if decide (pos_of a = (w, k)) then with_reciprocal b i else b) <$> arc net w k.
Proof.
  unfold arc, arcs_of, fix_arc, pos_of. destruct (decide (w = Target a)) as [-> |Hw].
  - rewrite list_lookup_alter_eq. destruct (net !! Target a) as [n|]; [|done]. cbn. destruct (decide (k = reciprocal a)) as [-> |Hk].
    + rewrite list_lookup_alter_eq. destruct (Arcs n !! reciprocal a); cbn; [|done]. by rewrite decide_True.
    + rewrite list_lookup_alter_ne by done. destruct (Arcs n !! k); cbn; [|done]. rewrite decide_False; [done|]. congruence.
  - rewrite list_lookup_alter_ne by done. destruct (net !! w) as [n|]; [|done]. destruct (Arcs n !! k); cbn; [|done].
    rewrite decide_False; [done|]. congruence.
Qed.

Lemma arc_fix_all arcs : ∀ net i w k, NoDup (pos_of <$> arcs) →
  (∀ p a, arcs !! p = Some a → pos_of a = (w, k) →
     arc (fix_reciprocals net i arcs) w k = (λ b, with_reciprocal b (i + p)) <$> arc net w k) ∧
  ((w, k) ∉ pos_of <$> arcs → arc (fix_reciprocals net i arcs) w k = arc net w k).
Proof.
  induction arcs as [|a arcs IH]; intros net i w k Hnd; [split; [done|by intros _]|]. cbn [fmap list_fmap] in Hnd.
  apply NoDup_cons in Hnd as [Hna Hnd]. cbn [fix_reciprocals]. fold (fix_arc net a i).
  destruct (IH (fix_arc net a i) (S i) w k Hnd) as [H1 H2]. split.
  - intros [|p] c Hc Hpos; simplify_eq/=.
    + rewrite H2 by (by rewrite Hpos in Hna). rewrite arc_fix. destruct (arc net w k); cbn; [|done]. by rewrite decide_True, Nat.add_0_r.
    + rewrite (H1 p c Hc Hpos), arc_fix, <- option_fmap_compose, Nat.add_succ_r.
      destruct (arc net w k); cbn; [|done]. rewrite decide_False; [done|]. intros Ha. apply Hna. rewrite Ha, <- Hpos.
      apply list_elem_of_fmap. exists c. split; [done|]. by eapply list_elem_of_lookup_2.
  - cbn. rewrite not_elem_of_cons. intros [Hne Hnin]. rewrite H2 by done. rewrite arc_fix. destruct (arc net w k); cbn; [|done].
    by rewrite decide_False.
Qed.

(** What sorting keeps: nodes but for their arcs, and the arcs of a node but for their order. *)
Definition bare (a : Arc) : Arc := with_reciprocal a 0.
Record resorted (net net' : network) : Prop := {
  rs_length : length net' = length net;
  rs_node : ∀ u n', net' !! u = Some n' → ∃ n, net !! u = Some n ∧ Height n' = Height n ∧ excess n' = excess n ∧ next n' = next n ∧ ID n' = ID n;
  rs_arcs : ∀ u, bare <$> arcs_of net' u ≡ₚ bare <$> arcs_of net u;
}.

Lemma bare_alter (i k : nat) (l : list Arc) : bare <$> alter (λ b, with_reciprocal b i) k l = bare <$> l.
Proof.
  apply list_eq. intros x. rewrite !list_lookup_fmap. destruct (decide (x = k)) as [-> |]; [|by rewrite list_lookup_alter_ne].
  rewrite list_lookup_alter_eq. by destruct (l !! k).
Qed.

Lemma fix_keeps arcs : ∀ net i, length (fix_reciprocals net i arcs) = length net ∧
  (∀ u, bare <$> arcs_of (fix_reciprocals net i arcs) u = bare <$> arcs_of net u) ∧
  ∀ u n', fix_reciprocals net i arcs !! u = Some n' → ∃ n, net !! u = Some n ∧ Height n' = Height n ∧ excess n' = excess n ∧ next n' = next n ∧ ID n' = ID n.
Proof.
  induction arcs as [|a arcs IH]; intros net i; cbn [fix_reciprocals]; [split_and!; [done|done|naive_solver]|]. fold (fix_arc net a i).
  destruct (IH (fix_arc net a i) (S i)) as (H1 & H2 & H3). split_and!.
  - rewrite H1. unfold fix_arc. by rewrite length_alter.
  - intros u. rewrite H2. unfold arcs_of, fix_arc. destruct (decide (u = Target a)) as [-> |]; [|by rewrite list_lookup_alter_ne].
    rewrite list_lookup_alter_eq. destruct (net !! Target a) as [n|]; cbn [fmap option_fmap option_map]; [|done].
    cbn [with_Arcs Arcs]. apply bare_alter.
  - intros u n' Hn'. destruct (H3 _ _ Hn') as (m & Hm & ? & ? & ? & ?). unfold fix_arc in Hm.
    destruct (decide (u = Target a)) as [-> |]; [|rewrite list_lookup_alter_ne in Hm by done; exists m; split_and!; congruence].
    rewrite list_lookup_alter_eq in Hm. apply fmap_Some in Hm as (n & Hn & ->). exists n. cbn in *. split_and!; [done|congruence..].
Qed.

Lemma resorted_trans n1 n2 n3 : resorted n1 n2 → resorted n2 n3 → resorted n1 n3.
Proof.
  intros [L1 N1 A1] [L2 N2 A2]. split; [congruence| |intros u; by rewrite A2, A1].
  intros u n' Hn'. destruct (N2 _ _ Hn') as (m & Hm & ? & ? & ? & ?). destruct (N1 _ _ Hm) as (n & Hn & ? & ? & ? & ?). exists n. split_and!; congruence.
Qed.

Section sort_node.
Context (net : network) (u : nat) (n : Node) (Hn : net !! u = Some n) (Hp : paired net).
Let arcs := sort_arcs (Arcs n).
Let net1 := <[u := with_Arcs n arcs]> net.

Lemma sorted_arc a : a ∈ arcs → ∃ i, arc net u i = Some a.
Proof.
  unfold arcs. rewrite sort_arcs_perm. intros (i & Hi)%list_elem_of_lookup_1. exists i. unfold arc. by rewrite (arcs_lookup _ _ _ Hn).
Qed.

Lemma pos_of_inj a b : a ∈ arcs → b ∈ arcs → pos_of a = pos_of b → a = b.
Proof.
  intros (i & Ha)%sorted_arc (j & Hb)%sorted_arc [= Ht Hr].
  destruct (Hp _ _ _ Ha) as (_ & _ & c & Hc & _ & Hci & _), (Hp _ _ _ Hb) as (_ & _ & d & Hd & _ & Hdj & _). congruence.
Qed.

Lemma NoDup_pos : NoDup (pos_of <$> arcs).
Proof.
  assert (NoDup (pos_of <$> Arcs n)) as H.
  { apply NoDup_alt. intros i j p Hi Hj. rewrite list_lookup_fmap in Hi, Hj.
    apply fmap_Some in Hi as (a & Ha & ->), Hj as (b & Hb & [= Ht Hr]).
    assert (arc net u i = Some a ∧ arc net u j = Some b) as [Ha' Hb'] by (unfold arc; by rewrite (arcs_lookup _ _ _ Hn)).
    destruct (Hp _ _ _ Ha') as (_ & _ & c & Hc & _ & Hci & _), (Hp _ _ _ Hb') as (_ & _ & d & Hd & _ & Hdj & _). congruence. }
  unfold arcs. by rewrite (sort_arcs_perm (Arcs n)).
Qed.

Lemma arc_net1 w k : arc net1 w k = if decide (w = u) then arcs !! k else arc net w k.
Proof.
  unfold arc, arcs_of, net1. case_decide as Hw; [subst|by rewrite list_lookup_insert_ne].
  by rewrite list_lookup_insert_eq by (by apply lookup_lt_Some in Hn).
Qed.

(** Arcs of the sorted node are as they were, partners of such arcs point to their new positions. *)
Lemma sort_own k : arc (sort_node net u) u k = arcs !! k.
Proof.
  unfold sort_node. rewrite Hn. fold arcs net1. destruct (arc_fix_all arcs net1 0 u k NoDup_pos) as [_ H].
  rewrite H, arc_net1, decide_True; [done|done|]. intros (a & Hpos & (i & Ha)%sorted_arc)%list_elem_of_fmap.
  destruct (Hp _ _ _ Ha) as [Hne _]. by injection Hpos.
Qed.

Lemma sort_other w k b : w ≠ u → arc net w k = Some b →
  (Target b ≠ u ∧ arc (sort_node net u) w k = Some b) ∨
  (Target b = u ∧ ∃ p a, arcs !! p = Some a ∧ pos_of a = (w, k) ∧ arc (sort_node net u) w k = Some (with_reciprocal b p)).
Proof.
  intros Hw Hb. unfold sort_node. rewrite Hn. fold arcs net1. destruct (arc_fix_all arcs net1 0 w k NoDup_pos) as [H1 H2].
  rewrite arc_net1, decide_False, Hb in H1, H2 by done.
  destruct (Hp _ _ _ Hb) as (_ & _ & c & Hc & Hcw & Hck & _). destruct (decide (Target b = u)) as [Ht|Ht].
  - right. split; [done|]. assert (c ∈ arcs) as (p & Hpc)%list_elem_of_lookup_1.
    { unfold arcs. rewrite sort_arcs_perm. eapply list_elem_of_lookup_2. unfold arc in Hc. rewrite Ht, (arcs_lookup _ _ _ Hn) in Hc. exact Hc. }
    exists p, c. split_and!; [done|unfold pos_of; congruence|]. rewrite (H1 p c Hpc) by (unfold pos_of; congruence). done.
  - left. split; [done|]. rewrite H2; [done|]. intros (a & Hpos & (i & Ha)%sorted_arc)%list_elem_of_fmap.
    injection Hpos as Hw1 Hk1. destruct (Hp _ _ _ Ha) as (_ & _ & d & Hd & Hdu & _). congruence.
Qed.

Lemma sort_node_paired : paired (sort_node net u).
Proof.
  intros w k b' Hb'. destruct (decide (w = u)) as [-> |Hw].
  - rewrite sort_own in Hb'. destruct (sorted_arc b') as (i & Ha); [by eapply list_elem_of_lookup_2|].
    destruct (Hp _ _ _ Ha) as (Hne & Hcap & c & Hc & Hcu & Hci & Hsum). split_and!; [done..|].
    destruct (sort_other _ _ _ Hne Hc) as [[? _]|(_ & p & a & Hpa & Hpos & Hnew)]; [done|]. eexists. split; [exact Hnew|].
    split_and!; [done| |done]. cbn. assert (a = b') as -> by (apply pos_of_inj; [by eapply list_elem_of_lookup_2..|done]).
    pose proof NoDup_pos as Hnd. apply NoDup_fmap_1 in Hnd. by eapply NoDup_lookup.
  - assert (∃ b, arc net w k = Some b) as [b Hb].
    { assert (is_Some (arc net1 w k)) as [b Hb]; [|rewrite arc_net1, decide_False in Hb by done; eauto].
      destruct (decide ((w, k) ∈ pos_of <$> arcs)) as [Hin|Hnin].
      - apply list_elem_of_fmap in Hin as (a & Hpos & (p & Hpa)%list_elem_of_lookup_1). unfold sort_node in Hb'. rewrite Hn in Hb'. fold arcs net1 in Hb'.
        rewrite (proj1 (arc_fix_all arcs net1 0 w k NoDup_pos) p a Hpa (eq_sym Hpos)) in Hb'. apply fmap_Some in Hb' as (? & ? & _). eauto.
      - unfold sort_node in Hb'. rewrite Hn in Hb'. fold arcs net1 in Hb'. rewrite (proj2 (arc_fix_all arcs net1 0 w k NoDup_pos) Hnin) in Hb'. eauto. }
    destruct (Hp _ _ _ Hb) as (Hne & Hcap & c & Hc & Hcw & Hck & Hsum).
    destruct (sort_other _ _ _ Hw Hb) as [[Ht Hnew]|(Ht & p & a & Hpa & Hpos & Hnew)]; rewrite Hnew in Hb'; injection Hb' as <-.
    + split_and!; [done..|]. destruct (sort_other _ _ _ Ht Hc) as [[_ Hcn]|(Hcu & _)]; [by exists c|congruence].
    + cbn. split_and!; [done..|]. rewrite Ht, sort_own. exists a. injection Hpos as Hta Hra.
      destruct (sorted_arc a) as (i & Ha); [by eapply list_elem_of_lookup_2|].
      destruct (Hp _ _ _ Ha) as (_ & _ & d & Hd & Hdu & Hdi & _). assert (d = b) as -> by congruence.
      assert (c = a) as -> by congruence. by split_and!.
Qed.
End sort_node.

Lemma sort_node_resorted net u : resorted net (sort_node net u).
Proof.
  unfold sort_node. destruct (net !! u) as [n|] eqn:Hn; [|split; [done|naive_solver|done]].
  destruct (fix_keeps (sort_arcs (Arcs n)) (<[u:=with_Arcs n (sort_arcs (Arcs n))]> net) 0) as (H1 & H2 & H3). split.
  - by rewrite H1, length_insert.
  - intros w n' Hn'. destruct (H3 _ _ Hn') as (m & Hm & Hh). destruct (decide (w = u)) as [-> |].
    + rewrite list_lookup_insert_eq in Hm by (by apply lookup_lt_Some in Hn). injection Hm as <-. by exists n.
    + rewrite list_lookup_insert_ne in Hm by done. by exists m.
  - intros w. rewrite H2. unfold arcs_of. destruct (decide (w = u)) as [-> |]; [|by rewrite list_lookup_insert_ne].
    rewrite list_lookup_insert_eq, Hn by (by apply lookup_lt_Some in Hn). cbn [Arcs with_Arcs]. by rewrite (sort_arcs_perm (Arcs n)).
Qed.

Lemma sorted_bare l : StronglySorted by_priority (bare <$> l) ↔ StronglySorted by_priority l.
Proof.
  induction l as [|a l IH]; [done|]. rewrite fmap_cons. split; intros [H1 H2]%StronglySorted_inv; constructor; try (by apply IH).
  - exact (proj1 (Forall_fmap bare (by_priority (bare a)) l) H2).
  - exact (proj2 (Forall_fmap bare (by_priority (bare a)) l) H2).
Qed.

Lemma sort_node_sorted net u w : paired net → StronglySorted by_priority (arcs_of net w) ∨ w = u →
  StronglySorted by_priority (arcs_of (sort_node net u) w).
Proof.
  intros Hp Hw. destruct (net !! u) as [n|] eqn:Hn.
  - destruct (decide (w = u)) as [-> |Hne].
    + assert (arcs_of (sort_node net u) u = sort_arcs (Arcs n)) as ->; [|apply sort_arcs_sorted].
      apply list_eq. intros k. by apply (sort_own net u n Hn Hp).
    + destruct Hw as [Hw|]; [|done]. apply sorted_bare. unfold sort_node. rewrite Hn.
      rewrite (proj1 (proj2 (fix_keeps _ _ _))). apply sorted_bare. unfold arcs_of in *. by rewrite list_lookup_insert_ne.
  - unfold sort_node. rewrite Hn. destruct Hw as [?| ->]; [done|]. unfold arcs_of. rewrite Hn. constructor.
Qed.

Lemma resorted_fresh net net' : resorted net net' → fresh net → fresh net'.
Proof.
  intros [_ Hnode Harcs] Hf u n' Hn'. destruct (Hnode _ _ Hn') as (n & Hn & _ & -> & -> & _). destruct (Hf _ _ Hn) as (? & ? & Hall). split_and!; [done..|].
  specialize (Harcs u). rewrite (arcs_lookup _ _ _ Hn), (arcs_lookup _ _ _ Hn') in Harcs.
  assert (Forall (λ a, Flow a = 0) (bare <$> Arcs n')) as Hb by (rewrite Harcs; by apply (Forall_fmap bare)). by apply (Forall_fmap bare) in Hb.
Qed.

(** Sorting the arcs of nodes by priority leaves the network what it was, but for the order
    of arcs: each arc still points to its reciprocal, at the position it has now. *)
Theorem SortNodeArcs_correct net nodes : paired net →
  paired (SortNodeArcs net nodes) ∧ resorted net (SortNodeArcs net nodes) ∧
  ∀ u, u ∈ nodes → StronglySorted by_priority (arcs_of (SortNodeArcs net nodes) u).
Proof.
  intros Hp. unfold SortNodeArcs. induction nodes as [|u nodes IH] using rev_ind.
  { cbn. split_and!; [done|split; [done|naive_solver|done]|by intros ? ?%elem_of_nil]. }
  destruct IH as (H1 & H2 & H3). rewrite foldl_app. cbn. set (net1 := foldl sort_node net nodes) in *. split_and!.
  - destruct (net1 !! u) as [n|] eqn:Hn; [by apply (sort_node_paired net1 u n)|]. unfold sort_node. by rewrite Hn.
  - eapply resorted_trans; [done|apply sort_node_resorted].
  - intros w. rewrite elem_of_app, list_elem_of_singleton. intros Hw. apply sort_node_sorted; [done|]. naive_solver.
Qed.

(** ** Checks of concrete networks *)

Definition check_paired (net : network) : bool :=
  forallb (λ '(u, i), match arc net u i with
    | None => true
    | Some a => negb (Target a =? u)%nat && (0 <=? Capacity a) &&
        match arc net (Target a) (reciprocal a) with
        | Some b => (Target b =? u)%nat && (reciprocal b =? i)%nat && (Capacity a + Capacity b <=? MaxInt32)
        | None => false
        end
    end) (keys net).

Definition check_labeled (s : nat) (net : network) : bool :=
  forallb (λ '(u, i), (u =? s)%nat || match arc net u i with
    | Some a => (Capacity a <=? Flow a) || (ht net u <=? ht net (Target a) + 1)
    | None => true
    end) (keys net).

Lemma check_paired_ok net : check_paired net = true → paired net.
Proof.
  unfold check_paired. rewrite forallb_forall. intros H u i a Ha. specialize (H (u, i)).
  rewrite <- list_elem_of_In, elem_of_keys in H. specialize (H ltac:(eauto)). cbn in H. rewrite Ha in H.
  apply andb_true_iff in H as [[H1%negb_true_iff%Nat.eqb_neq H2]%andb_true_iff H3]. split_and!; [done|lia|].
  destruct (arc net (Target a) (reciprocal a)) as [b|]; [|done]. exists b.
  apply andb_true_iff in H3 as [[H3%Nat.eqb_eq H4%Nat.eqb_eq]%andb_true_iff H5]. split_and!; [done..|lia].
Qed.

Lemma check_labeled_ok s net : check_labeled s net = true → labeled (λ u, u ≠ s) net.
Proof.
  unfold check_labeled. rewrite forallb_forall. intros H u i a Hu Ha Hf. specialize (H (u, i)).
  rewrite <- list_elem_of_In, elem_of_keys in H. specialize (H ltac:(eauto)). cbn in H. rewrite Ha in H.
  apply orb_true_iff in H as [H%Nat.eqb_eq|[H|H]%orb_true_iff]; [done|lia|lia].
Qed.

(** A source, two inner nodes and a sink, where one of two paths is narrow. *)
Definition demo_network : outcome network :=
  let net := [mkNode 0 4 [] 0 0] ++ InitNodes 2 1 ++ [mkNode 3 0 [] 0 0] in
  let! net := AddArc net 0 1 3 0 in
  let! net := AddArc net 0 2 2 1 in
  let! net := AddArc net 1 2 1 0 in
  let! net := AddArc net 1 3 1 0 in
  let! net := AddArc net 2 3 4 2 in
  Ret (SortNodeArcs net [0; 1; 2; 3]%nat).
Definition demo_net : network := match demo_network with Ret net => net | Panic _ => [] end.

Lemma demo_network_ok : network_ok 0 3 demo_net.
Proof.
  split; try done.
  - vm_compute. lia.
  - vm_compute. lia.
  - by apply check_paired_ok.
  - intros [|[|[|[|u]]]] n Hn; vm_compute in Hn; simplify_eq; by repeat constructor.
  - by apply check_labeled_ok.
  - intros [|[|i]] a Ha; vm_compute in Ha; by simplify_eq.
  - intros [|[|[|[|u]]]]; vm_compute; by split.
Qed.

Lemma FindMaxFlow_correct_witness :
  (∃ net', FindMaxFlow 100 0 3 demo_net = Some (Ret net') ∧ out demo_net (arc_flow net') 0 = 4) ∧
  ∃ fuel0 net', (∀ fuel, (fuel0 ≤ fuel)%nat → FindMaxFlow fuel 0 3 demo_net = Some (Ret net')) ∧
    shape net' = shape demo_net ∧ feasible demo_net 0 3 (arc_flow net') ∧
    ∀ F, feasible demo_net 0 3 F → out demo_net F 0 ≤ out demo_net (arc_flow net') 0.
Proof.
  split; [eexists; split; vm_compute; reflexivity|]. exact (FindMaxFlow_correct 0 3 demo_net demo_network_ok).
Defined.

Lemma SortNodeArcs_correct_witness :
  let net := SortNodeArcs demo_net [1; 2]%nat in
  paired net ∧ resorted demo_net net ∧ ∀ u, u ∈ [1; 2]%nat → StronglySorted by_priority (arcs_of net u).
Proof. apply (SortNodeArcs_correct demo_net [1; 2]%nat). by apply check_paired_ok. Defined.
