(* ===== verification/PushEnds.v ===== *)
(** * Maximum flow ends on acyclic networks (src/v2/pkg/allocator/push_relabel/push_relabel.go)

    The allocator's network starts from heights that are no valid labeling, so what PushRelabel.v
    shows of valid ones does not apply. Its arcs do lead from each rank of nodes to higher ranks;
    the theorem: on such networks [FindMaxFlow] ends, without a panic, whatever the heights. The
    height of a node with excess stays within the rank of the node of the source's; a relabel that
    lowers a node makes steep arcs less, by a potential to which pushes and other relabels add nothing. *)
From S2P Require Import Prelude PushRelabel.
Local Open Scope Z_scope.

Section acyclic.
Context (s t : nat) (rank : nat → Z).

(** Arcs with capacity lead to higher ranks. *)
Definition ascending (net : network) : Prop := ∀ u i a, arc net u i = Some a → 0 < Capacity a → rank u < rank (Target a).

Lemma ascending_shape net net' : shape net' = shape net → ascending net → ascending net'.
Proof.
  intros Hsh Hasc u i a' Ha'. destruct (shape_arc net' net u i a' ltac:(done) Ha') as (a & Ha & <- & _ & <-). eauto.
Qed.

(** Excess came from a lower rank, and may go back. *)
Lemma excess_source net u :
  flow_ok s net → ascending net → (u < length net)%nat → u ≠ s → 0 < ex net u →
  ∃ i a, arc net u i = Some a ∧ Flow a < Capacity a ∧ rank (Target a) < rank u.
Proof.
  intros H Hasc Hu Hus Hex. rewrite (fo_ex _ _ H u Hu), (proj2 (Nat.eqb_neq _ _) Hus) in Hex.
  destruct (decide (Forall (λ a, 0 ≤ Flow a) (arcs_of net u))) as [Hall|Hn].
  - rewrite Forall_forall in Hall. pose proof (zsum_nonneg Flow (arcs_of net u) Hall). lia.
  - apply (not_Forall_Exists _) in Hn. apply Exists_exists in Hn as (a & (i & Hi)%list_elem_of_lookup_1 & Hneg). exists i, a.
    change (arc net u i = Some a) in Hi. cbn in Hneg. destruct (fo_paired _ _ H u i a Hi) as (_ & ? & b & Hb & Hbu & _). split; [done|]. split; [lia|].
    pose proof (fo_anti _ _ H _ _ _ Hi) as Hf. unfold arc_flow in Hf. rewrite Hb in Hf. pose proof (fo_cap _ _ H _ _ _ Hb).
    rewrite <- Hbu. eapply Hasc; [exact Hb|lia].
Qed.

(** ** The potential of steep arcs *)

Definition top (net : network) : Z := ht net s + Z.of_nat (length net).
Definition term (net : network) (k : nat * nat) : Z :=
  if steep net k then (Z.of_nat (length (keys net)) + 1) ^ (top net - ht net (target_of net k)) else 0.
Definition potential (net : network) : Z := zsum (term net) (keys net).

Lemma shape_lengths net net' u : shape net' = shape net → length (arcs_of net' u) = length (arcs_of net u).
Proof.
  intros Hsh. apply (f_equal (.!! u)) in Hsh. unfold shape in Hsh. rewrite !list_lookup_fmap in Hsh. unfold arcs_of.
  destruct (net !! u), (net' !! u); try done. injection Hsh as _ Hs%(f_equal length). by rewrite !length_fmap in Hs.
Qed.

Lemma shape_keys net net' : shape net' = shape net → keys net' = keys net.
Proof.
  intros Hsh. unfold keys. rewrite (length_shape _ _ Hsh). f_equal. apply list_fmap_ext. intros i u _. by rewrite (shape_lengths _ _ _ Hsh).
Qed.

Lemma shape_target net net' k : shape net' = shape net → target_of net' k = target_of net k.
Proof.
  intros Hsh. unfold target_of. destruct (arc net k.1 k.2) as [a|] eqn:Ha.
  - by destruct (shape_arc net net' _ _ _ Hsh Ha) as (a' & -> & _ & _ & ->).
  - destruct (arc net' k.1 k.2) as [a'|] eqn:Ha'; [|done]. destruct (shape_arc net' net _ _ a' ltac:(done) Ha') as (a & ? & _). congruence.
Qed.

Lemma term_nonneg net k : 0 ≤ term net k.
Proof. unfold term. case_match; [|done]. apply Z.pow_nonneg. lia. Qed.

Lemma potential_nonneg net : 0 ≤ potential net.
Proof. apply zsum_nonneg. intros k _. apply term_nonneg. Qed.

(** Where heights are the same, fewer steep arcs are less. *)
Lemma potential_le net net' : shape net' = shape net → (∀ w, ht net' w = ht net w) → (∀ k, steep net' k = true → steep net k = true) →
  potential net' ≤ potential net.
Proof.
  intros Hsh Hht Hst. unfold potential. rewrite (shape_keys _ _ Hsh). apply zsum_le. intros k _. unfold term, top.
  rewrite (shape_keys _ _ Hsh), (length_shape _ _ Hsh), (shape_target _ _ _ Hsh), !Hht. specialize (Hst k).
  destruct (steep net' k), (steep net k); try done; [by specialize (Hst eq_refl)|]. apply Z.pow_nonneg. lia.
Qed.

Section relabel.
Context (net : network) (u : nat) (n : Node) (m : Z) (Hn : net !! u = Some n) (Hus : u ≠ s).
Context (Hp : paired net) (Hht : ∀ w, ht net w ≤ top net).
Context (Hmin : ∀ i a, arc net u i = Some a → Flow a < Capacity a → m ≤ ht net (Target a)).
Let n' := with_next (with_Height n (m + 1)) 0.
Let net1 := <[u:=n']> net.

Lemma relabel_ht w : ht net1 w = if decide (w = u) then m + 1 else ht net w.
Proof. apply (touch_ht net u n n'); done. Qed.

Lemma relabel_shape : shape net1 = shape net.
Proof. by apply (shape_touch net u n n'). Qed.

Lemma relabel_top : top net1 = top net.
Proof. unfold top. rewrite (length_shape _ _ relabel_shape), relabel_ht, decide_False by congruence. done. Qed.

(** None of its own arcs is steep any more. *)
Lemma relabel_own i : steep net1 (u, i) = false.
Proof.
  unfold steep. cbn [fst snd]. unfold net1. rewrite (touch_arc net u n n') by done. fold net1. destruct (arc net u i) as [a|] eqn:Ha; [|done].
  rewrite !relabel_ht, (decide_True (P := u = u)) by done. apply andb_false_iff. destruct (Hp _ _ _ Ha) as [Hne _]. rewrite decide_False by done.
  destruct (Z.ltb_spec (Flow a) (Capacity a)) as [Hf|]; [right|by left]. specialize (Hmin i a Ha Hf). lia.
Qed.

(** Other steep arcs were steep, or lead to the node that was lowered. *)
Lemma relabel_steep k : steep net1 k = true →
  k.1 ≠ u ∧ (steep net k = true ∧ (target_of net k ≠ u ∨ ht net u ≤ m + 1 ) ∨ target_of net k = u ∧ m + 1 < ht net u).
Proof.
  destruct k as [w i]. destruct (decide (w = u)) as [-> |Hw]; [by rewrite relabel_own|]. unfold steep, target_of. cbn [fst snd]. unfold net1.
  rewrite (touch_arc net u n n') by done. fold net1. destruct (arc net w i) as [a|] eqn:Ha; [|done]. rewrite !relabel_ht, (decide_False (P := w = u)) by done.
  rewrite !andb_true_iff, !Z.ltb_lt. intros [Hf Hs]. split; [done|]. destruct (decide (Target a = u)) as [Ht|Ht].
  - rewrite Ht. destruct (decide (m + 1 < ht net u)); [by right|left]. split; [split; [done|lia]|right; lia].
  - left. split; [done|by left].
Qed.

Lemma relabel_term k : ht net u ≤ m + 1 → term net1 k ≤ term net k.
Proof.
  intros Hle. pose proof (relabel_steep k) as Hst. unfold term. rewrite relabel_top, (shape_keys _ _ relabel_shape), (shape_target _ _ _ relabel_shape).
  destruct (steep net1 k); [|case_match; [apply Z.pow_nonneg; lia|done]]. destruct (Hst eq_refl) as [_ [[-> _]|[_ ?]]]; [|lia].
  apply Z.pow_le_mono_r; [lia|]. rewrite relabel_ht. case_decide as Ht; [rewrite Ht|]; lia.
Qed.

Lemma relabel_up : ht net u ≤ m + 1 → potential net1 ≤ potential net.
Proof. intros Hle. unfold potential. rewrite (shape_keys _ _ relabel_shape). apply zsum_le. intros k _. by apply relabel_term. Qed.

(** Lowering a node trades a steep arc for steep arcs that weigh less, all together. *)
Lemma relabel_down i0 a0 : arc net u i0 = Some a0 → Flow a0 < Capacity a0 → ht net (Target a0) = m → m + 1 < ht net u →
  potential net1 < potential net.
Proof.
  intros Ha Hf Hm0 Hlow. pose proof (Hht u) as Htop. set (B := Z.of_nat (length (keys net)) + 1). set (e := B ^ (top net - m - 1)).
  assert (0 < e) as He by (apply Z.pow_pos_nonneg; lia).
  assert (term net (u, i0) = B * e) as H0.
  { unfold term, steep, target_of. cbn [fst snd]. rewrite Ha, Hm0, (proj2 (Z.ltb_lt _ _) Hf), (proj2 (Z.ltb_lt _ _) Hlow). cbn [andb].
    unfold e, B. rewrite <- Z.pow_succ_r by lia. f_equal. lia. }
  assert (∀ k, term net1 k ≤ (term net k + e) + - (if decide (k = (u, i0)) then B * e else 0)) as Hk.
  { intros k. pose proof (relabel_steep k) as Hst. pose proof (term_nonneg net k). destruct (decide (k = (u, i0))) as [-> |Hne].
    - unfold term at 1. rewrite relabel_own, H0. lia.
    - unfold term at 1. rewrite relabel_top, (shape_keys _ _ relabel_shape), (shape_target _ _ _ relabel_shape), relabel_ht. fold B.
      destruct (steep net1 k); [|lia]. destruct (Hst eq_refl) as [_ [[Hs [Ht|?]]|[-> _]]]; [|lia|].
      + rewrite decide_False by done. unfold term. rewrite Hs. fold B. lia.
      + rewrite decide_True by done. replace (top net - (m + 1)) with (top net - m - 1) by lia. fold e. lia. }
  unfold potential. rewrite (shape_keys _ _ relabel_shape).
  assert (zsum (term net1) (keys net) ≤ zsum (term net) (keys net) + Z.of_nat (length (keys net)) * e - zsum (λ k, if decide (k = (u, i0)) then B * e else 0) (keys net)) as Hle.
  { clear H0. generalize (keys net) as l. induction l as [|k l IH]; [cbn; lia|]. cbn [zsum length]. specialize (Hk k). lia. }
  assert (B * e ≤ zsum (λ k, if decide (k = (u, i0)) then B * e else 0) (keys net)) as Hind.
  { assert ((u, i0) ∈ keys net) as Hin by (apply elem_of_keys; eauto).
    pose proof (zsum_elem (λ k, if decide (k = (u, i0)) then B * e else 0) (keys net) (u, i0)) as H. cbn beta in H. rewrite decide_True in H by done.
    apply H; [|done]. intros y _. case_decide; [unfold B; lia|done]. }
  unfold B in *. lia.
Qed.
End relabel.

(** ** Relabels and pushes *)

(** The state of a discharge of [u]. *)
Record ranked (u : nat) (net : network) (active : list nat) : Prop := {
  rk_inv : inv s t (λ _, False) u net active;
  rk_asc : ascending net;
  rk_rank : ∀ w, 0 ≤ rank w ∧ (w ≠ t → rank w ≤ Z.of_nat (length net));
  rk_ht : ∀ w, ht net w ≤ ht net s + rank w;
}.

Lemma relabel_ranked u net active n :
  ranked u net active → u ≠ s → u ≠ t → net !! u = Some n → 0 < ex net u →
  ∃ n', relabel net n = Some n' ∧ ranked u (<[u:=n']> net) active ∧
    Arcs n' = Arcs n ∧ excess n' = excess n ∧ ID n' = ID n ∧ (next n' < length (Arcs n'))%nat ∧
    potential (<[u:=n']> net) ≤ potential net ∧
    (potential (<[u:=n']> net) < potential net ∨ n' = n ∨ next n = length (Arcs n) ∧ next n' = 0%nat ∧
       (Height n < Height n' ∨ Height n' = Height n ∧ skipped net u = true)).
Proof.
  intros [Hinv Hasc Hrank Hrht] Hus Hut Hn Hex. unfold relabel. pose proof (in_ok _ _ _ _ _ _ Hinv) as Hok.
  pose proof (in_next _ _ _ _ _ _ Hinv u) as Hnext. unfold next_of in Hnext. rewrite Hn, (arcs_lookup _ _ _ Hn) in Hnext.
  destruct (Nat.eqb_spec (next n) (length (Arcs n))) as [Heq|Hneq].
  2:{ exists n. rewrite list_insert_id by done. split_and!; try done; [lia|by right; left]. }
  assert (∀ i, Arcs n !! i = arc net u i) as Harc by (intros; unfold arc; by rewrite (arcs_lookup _ _ _ Hn)).
  destruct (min_fold net (Arcs n) MaxUint32) as (_ & Hmin & Hcase). change (foldl _ _ _) with (min_height net (Arcs n)) in *.
  set (m := min_height net (Arcs n)) in *.
  assert (∀ i a, arc net u i = Some a → Flow a < Capacity a → m ≤ ht net (Target a)) as Hmin'.
  { intros i a Ha Hf. apply Hmin; [eapply list_elem_of_lookup_2; by rewrite Harc|]. rewrite (resid_spec _ _ _ _ _ Hok Ha). lia. }
  destruct (excess_source net u Hok Hasc (lookup_lt_Some _ _ _ Hn) Hus Hex) as (i0 & a0 & Ha0 & Hr0 & Hlow).
  pose proof (Hmin' _ _ Ha0 Hr0) as Hm0. pose proof (Hrht (Target a0)) as Hta. pose proof (proj2 (Hrank u) Hut) as Hru. pose proof (Hrank (Target a0)).
  pose proof (in_hmax _ _ _ _ _ _ Hinv) as Hmax. pose proof (in_ht _ _ _ _ _ _ Hinv) as Hht.
  destruct Hcase as [?|(a & (i & Hi)%list_elem_of_lookup_1 & Hra & Hma)]; [lia|]. rewrite Harc in Hi.
  assert (Flow a < Capacity a) as Hfa by (rewrite (resid_spec _ _ _ _ _ Hok Hi) in Hra; lia).
  pose proof (Hht (Target a)) as Hmpos. rewrite <- Hma in Hmpos.
  rewrite (proj2 (Z.eqb_neq _ _)) by lia. eexists. split; [reflexivity|]. rewrite uint32_id by (unfold is_uint32; lia).
  assert (∀ w, ht net w ≤ top net) as Htop by (intros w; apply Hht). pose proof (fo_paired _ _ Hok) as Hp.
  pose proof (relabel_up net u n m Hn Hus Hp Hmin') as Hup.
  pose proof (relabel_down net u n m Hn Hus Hp Htop Hmin' i a Hi Hfa (eq_sym Hma)) as Hdown.
  set (n' := with_next (with_Height n (m + 1)) 0) in *.
  assert (0 < length (Arcs n))%nat by (rewrite <- Harc in Hi; by apply lookup_lt_Some in Hi; lia).
  split_and!; [|done..|cbn; lia| |].
  - split.
    + assert (ht (<[u:=n']> net) s = ht net s ∧ ht (<[u:=n']> net) t = ht net t) as [Hhs Hhtt] by (split; rewrite (touch_ht net u n n') by done; by rewrite decide_False by congruence).
      destruct Hinv. split; try done; rewrite ?length_insert, ?Hhs, ?Hhtt; try done.
      * by eapply touch_ok.
      * by intros w.
      * intros w. rewrite (touch_ht net u n n') by done. case_decide; [cbn; lia|apply Hht].
      * intros w. rewrite (touch_next net u n n'), (touch_arcs net u n n') by done. case_decide; [cbn; lia|done].
      * intros v. by rewrite (touch_ex net u n n').
    + eapply ascending_shape; [by eapply shape_touch|done].
    + by rewrite length_insert.
    + intros w. rewrite !(touch_ht net u n n') by done. rewrite (decide_False (P := s = u)) by done. case_decide; [subst; cbn; lia|apply Hrht].
  - destruct (decide (ht net u ≤ m + 1)); [by apply Hup|apply Z.lt_le_incl, Hdown; lia].
  - rewrite (ht_lookup _ _ _ Hn) in *. destruct (decide (m + 1 < Height n)); [left; by apply Hdown|right; right]. split_and!; [done|done|]. cbn [with_next with_Height Height n'].
    destruct (decide (Height n < m + 1)); [by left|right]. split; [lia|]. unfold skipped. apply existsb_exists. exists i. split.
    + apply in_seq. unfold next_of. rewrite Hn, Heq. rewrite <- Harc in Hi. apply lookup_lt_Some in Hi. lia.
    + unfold adm. rewrite Hi, (ht_lookup _ _ _ Hn). apply andb_true_iff. rewrite !Z.ltb_lt. lia.
Qed.

Lemma tried_ranked u i net active net' active' :
  ranked u net active → tried s t (λ _, False) u i net active net' active' → ranked u net' active' ∧ potential net' ≤ potential net.
Proof.
  intros [Hinv Hasc Hrank Hrht] [T1 T2 T3 T4 T5 T6 T7 T8 T9]. split; [split; [done|by eapply ascending_shape|by rewrite (length_shape _ _ T2)|]|by apply potential_le].
  intros w. by rewrite !T3.
Qed.

(** The progress of a discharge: less potential, or what it is on a validly labeled network. *)
Record advance (u : nat) (net : network) (active : list nat) (net' : network) (active' : list nat) : Prop := {
  ad_shape : shape net' = shape net;
  ad_potential : potential net' ≤ potential net;
  ad_cases : potential net' < potential net ∨ progress u net active net' active';
}.

Lemma advance_refl u net active : advance u net active net active.
Proof. split; [done|done|]. right. apply progress_refl. Qed.

Lemma advance_trans u n1 a1 n2 a2 n3 a3 : advance u n1 a1 n2 a2 → advance u n2 a2 n3 a3 → advance u n1 a1 n3 a3.
Proof.
  intros [S1 P1 C1] [S2 P2 C2]. split; [congruence|lia|]. destruct C1; [left; lia|]. destruct C2; [left; lia|]. right. by eapply progress_trans.
Qed.

Lemma iter_ranked u net active :
  ranked u net active → u ≠ s → u ≠ t → 0 < ex net u →
  ∃ net' active', discharge_iter u t net active = Ret (net', active', true) ∧ ranked u net' active' ∧ advance u net active net' active' ∧
    (ex net' u = 0 ∨ potential net' < potential net ∨ (imeasure s net' u < imeasure s net u)%nat).
Proof.
  intros Hrk Hus Hut Hex. unfold discharge_iter. destruct (net !! u) as [n|] eqn:Hn; [|by unfold ex in Hex; rewrite Hn in Hex].
  destruct (relabel_ranked u net active n Hrk Hus Hut Hn Hex) as (n' & -> & Hrk1 & Harcs & Hexc & HID & Hnx & Hpot & Hcase).
  set (net1 := <[u:=n']> net) in *.
  assert (net1 !! u = Some n') as Hn1 by (unfold net1; rewrite (touch_lookup net u n n') by done; by rewrite decide_True).
  assert (ex net1 u = ex net u) as Hex1 by (by apply (touch_ex net u n n')).
  destruct (try_arc_ok s t (λ _, False) u net1 active n' (rk_inv _ _ _ Hrk1) Hut Hn1) as (net' & active' & -> & T); [by rewrite Hex1|done|].
  destruct (tried_ranked _ _ _ _ _ _ Hrk1 T) as [Hrk' Hpot']. assert (shape net1 = shape net) as Hsh1 by (by eapply shape_touch).
  exists net', active'. split; [done|]. split; [done|].
  destruct Hcase as [Hlt|Hcase]; [split; [split; [rewrite (tr_shape _ _ _ _ _ _ _ _ _ T); done|lia|left; lia]|right; left; lia]|].
  destruct (relabel_try s t _ u net active n n' net' active' Hn Hus Harcs Hexc HID Hnx Hcase (rk_inv _ _ _ Hrk1) T) as [Hpg Hdec].
  split; [split; [apply Hpg|lia|by right]|]. destruct Hdec; auto.
Qed.

(** ** The loops end *)

Lemma discharge_ranked u : u ≠ s → u ≠ t → ∀ p m net active,
  (Z.to_nat (potential net) ≤ p)%nat → (imeasure s net u ≤ m)%nat → ranked u net active →
  ∃ fuel0 net' active', (∀ fuel, (fuel0 ≤ fuel)%nat → discharge fuel u t net active = Some (Ret (net', active'))) ∧
    ranked u net' active' ∧ advance u net active net' active' ∧ ex net' u = 0.
Proof.
  intros Hus Hut p. induction p as [p IHp] using lt_wf_ind. intros m. induction m as [m IHm] using lt_wf_ind. intros net active Hp Hm Hrk.
  assert (∀ net active, ex net u = 0 → ranked u net active → ∃ fuel0 net' active',
    (∀ fuel, (fuel0 ≤ fuel)%nat → discharge fuel u t net active = Some (Ret (net', active'))) ∧
    ranked u net' active' ∧ advance u net active net' active' ∧ ex net' u = 0) as Hdone.
  { intros net0 active0 Hz Hrk0. exists 0%nat, net0, active0. split_and!; [|done|apply advance_refl|done]. intros [|fuel] _; cbn; by rewrite Hz. }
  destruct (Z.eqb_spec (ex net u) 0) as [Hz|Hnz]; [by apply Hdone|].
  pose proof (fo_pos _ _ (in_ok _ _ _ _ _ _ (rk_inv _ _ _ Hrk)) u).
  destruct (iter_ranked u net active Hrk Hus Hut) as (net1 & active1 & Hit & Hrk1 & Had & Hdec); [lia|].
  assert (∃ fuel0 net' active', (∀ fuel, (fuel0 ≤ fuel)%nat → discharge fuel u t net1 active1 = Some (Ret (net', active'))) ∧
    ranked u net' active' ∧ advance u net1 active1 net' active' ∧ ex net' u = 0) as (fuel0 & net' & active' & Hrun & Hrk' & Had' & Hz').
  { pose proof (ad_potential _ _ _ _ _ Had). pose proof (potential_nonneg net1). pose proof (potential_nonneg net).
    destruct Hdec as [Hz|[Hlt|Hlt]]; [by apply Hdone|by eapply (IHp (Z.to_nat (potential net1))); [lia|..]|].
    by apply (IHm (imeasure s net1 u)); [lia|lia|..]. }
  exists (S fuel0), net', active'. split_and!; [|done|by eapply advance_trans|done].
  intros [|fuel] Hf; [lia|]. cbn. rewrite (proj2 (Z.eqb_neq _ _) Hnz), Hit. apply Hrun. lia.
Qed.

Lemma loop_ranked p : ∀ m k net active,
  (Z.to_nat (potential net) ≤ p)%nat → (Z.to_nat (slack s net) ≤ m)%nat → (Z.to_nat (weight net active) ≤ k)%nat → ranked s net active →
  ∃ fuel0 net', (∀ fuel inner, (fuel0 ≤ fuel)%nat → (fuel0 ≤ inner)%nat → max_loop fuel inner s t net active = Some (Ret net')) ∧
    base s t s net' [] ∧ shape net' = shape net.
Proof.
  induction p as [p IHp] using lt_wf_ind. intros m. induction m as [m IHm] using lt_wf_ind. intros k. induction k as [k IHk] using lt_wf_ind.
  intros net active Hpo Hm Hk Hrk. pose proof (rk_inv _ _ _ Hrk) as Hinv.
  pose proof (heap_Pop_spec (ht net) active) as Hpop. destruct (heap_Pop (ht net) active) as [[u rest]|] eqn:Hp.
  2:{ subst active. exists 0%nat, net. split_and!; [|by eapply inv_base|done]. intros [|fuel] inner _ _; cbn [max_loop]; by rewrite Hp. }
  destruct (inv_pop _ _ _ _ _ _ _ Hinv Hpop) as (Hinvu & Hus & Hut & Hex).
  assert (ranked u net rest) as Hrku by (destruct Hrk; by split).
  destruct (discharge_ranked u Hus Hut _ _ net rest (le_n _) (le_n _) Hrku) as (f1 & net1 & active1 & Hrun & Hrk1 & [Hsh1 Hpot1 Hcase] & Hz).
  pose proof (rk_inv _ _ _ Hrk1) as Hinv1. assert (ranked s net1 active1) as Hrks by (destruct Hrk1; split; [by eapply inv_return|done..]).
  assert (u < length net)%nat as Hu by (unfold ex in Hex; destruct (net !! u) eqn:E; [by apply lookup_lt_Some in E|lia]).
  assert (∃ fuel0 net', (∀ fuel inner, (fuel0 ≤ fuel)%nat → (fuel0 ≤ inner)%nat → max_loop fuel inner s t net1 active1 = Some (Ret net')) ∧
    base s t s net' [] ∧ shape net' = shape net1) as (f2 & net' & Hloop & Hb' & Hsh').
  { pose proof (slack_nonneg _ _ _ _ _ _ Hinv1). pose proof (weight_nonneg net1 active1). pose proof (potential_nonneg net1). pose proof (potential_nonneg net).
    destruct Hcase as [Hlt|Hpg]; [by eapply (IHp (Z.to_nat (potential net1))); [lia|..]|].
    destruct (progress_decreases s t _ u net rest net1 active1 Hus Hu Hinvu Hinv1 Hpg) as [Hlt|[Heq Hlt]].
    - by eapply (IHm (Z.to_nat (slack s net1))); [lia|lia|..].
    - unfold weight in Hk. rewrite (zsum_perm _ _ _ Hpop) in Hk. fold (weight net (u :: rest)) in Hk.
      by apply (IHk (Z.to_nat (weight net1 active1))); [lia|lia|lia|..]. }
  exists (S (f1 + f2)), net'. split_and!; [|done|congruence].
  intros [|fuel] inner Hf Hi; [lia|]. cbn [max_loop]. rewrite Hp, (proj2 (Z.eqb_neq _ _)) by lia. rewrite Hrun by lia.
  rewrite Hz. cbn. apply Hloop; lia.
Qed.

(** ** Acyclic networks *)

(** A network as it is built, whose arcs with capacity lead to higher ranks: those of the source also
    lead down. *)
Record acyclic_ok (net : network) : Prop := {
  ac_s : (s < length net)%nat;
  ac_t : (t < length net)%nat;
  ac_st : s ≠ t;
  ac_paired : paired net;
  ac_fresh : fresh net;
  ac_source : zsum Capacity (arcs_of net s) < MaxUint32;
  ac_ascending : ascending net;
  ac_rank : ∀ w, 0 ≤ rank w ∧ (w ≠ t → rank w ≤ Z.of_nat (length net));
  ac_top : ∀ i a, arc net s i = Some a → ht net (Target a) < ht net s;
  ac_heights : ∀ u, 0 ≤ ht net u ≤ ht net s;
  ac_hs : Z.of_nat (length net) ≤ ht net s;
  ac_hmax : ht net s + Z.of_nat (length net) < MaxUint32;
  ac_ht : ht net t = 0;
}.

Lemma acyclic_start net : acyclic_ok net → source_inv s t (λ _, False) (alter (λ n, with_excess n MaxUint32) s net) [].
Proof.
  intros [? ? ? Hp Hfresh Hsrc _ _ Htop Hh Hhs Hmax Hht]. destruct (lookup_lt_is_Some_2 net s) as [n Hn]; [done|].
  rewrite (alter_touch _ s net n Hn). pose proof (start_base s t net n Hn Hfresh Hp Hsrc) as [Hok ? Hact ?]. split.
  - split; rewrite ?length_insert, ?(start_ht s net n Hn); try done.
    + by intros w.
    + intros u. rewrite (start_ht s net n Hn). specialize (Hh u). lia.
    + intros u. rewrite (start_next s net n Hn Hfresh). lia.
  - intros i a. rewrite (start_arc s net n Hn), !(start_ht s net n Hn). apply Htop.
  - intros i a. rewrite (start_next s net n Hn Hfresh). lia.
Qed.

(** On an acyclic network [FindMaxFlow] ends without a panic, whatever the heights of its inner nodes. *)
Lemma FindMaxFlow_ends net : acyclic_ok net →
  ∃ fuel0 net', ∀ fuel, (fuel0 ≤ fuel)%nat → FindMaxFlow fuel s t net = Some (Ret net').
Proof.
  intros Hno. pose proof (acyclic_start net Hno) as Hsi. set (net0 := alter _ s net) in *.
  assert (shape net0 = shape net ∧ ∀ w, ht net0 w = ht net w) as [Hsh0 Hht0].
  { destruct (lookup_lt_is_Some_2 net s) as [n Hn]; [apply Hno|]. unfold net0. rewrite (alter_touch _ s net n Hn). split; [by eapply shape_touch|].
    intros w. by rewrite (start_ht s net n Hn). }
  destruct (source_discharge s t _ _ net0 [] (le_n _) Hsi) as (f1 & net1 & active1 & Hrun & Hinv1 & Hsh1 & Hht1).
  apply (inv_weaken _ _ _ (λ _, False)) in Hinv1; [|by intros w []].
  assert (ranked s net1 active1) as Hrk.
  { assert (shape net1 = shape net) as Hsh by congruence. split; [done|by eapply ascending_shape; [|apply Hno]|rewrite (length_shape _ _ Hsh); apply Hno|].
    intros w. rewrite !Hht1, !Hht0. pose proof (ac_heights _ Hno w). pose proof (ac_rank _ Hno w). lia. }
  destruct (loop_ranked _ _ _ net1 active1 (le_n _) (le_n _) (le_n _) Hrk) as (f2 & net' & Hloop & _).
  exists (S (f1 + f2)), net'. intros [|fuel] Hf; [lia|]. unfold FindMaxFlow. fold net0. cbn [max_loop].
  change (heap_Pop (ht net0) [s]) with (Some (s, @nil nat)). cbv iota beta.
  pose proof (source_excess s net0 (in_ok _ _ _ _ _ _ (si_inv _ _ _ _ _ Hsi)) (in_s _ _ _ _ _ _ (si_inv _ _ _ _ _ Hsi))).
  rewrite (proj2 (Z.eqb_neq _ _)) by lia. rewrite Hrun by lia. rewrite Nat.eqb_refl, andb_false_r. apply Hloop; lia.
Qed.
End acyclic.
