(* ===== verification/AllocKeys.v ===== *)
(** * Keys of the allocator and their joins (src/v2/pkg/allocator/allocator_key_space.go)

    Items, members and assignments are keys of one key space. The theorems: keys decode to what
    they were made of, the order of keys is the order of the entities, and the left join of two
    ordered collections gives each entry on the left the range of its equals on the right. *)
From S2P Require Import Prelude Protocol FragmentName KeySpace.
From Stdlib Require Import Ascii.
Local Open Scope Z_scope.

(** ** Decimal numbers: [strconv.Itoa] and [strconv.Atoi] *)

Definition dec_digit (d : Z) : ascii := ascii_of_N (Z.to_N (48 + d)).

Fixpoint dec_digits (fuel : nat) (z : Z) (acc : string) : string :=
  let acc := String (dec_digit (z mod 10)) acc in
  match fuel with
  | O => acc
  | S fuel => if z / 10 =? 0 then acc else dec_digits fuel (z / 10) acc
  end.

(** Twenty digits are enough for a number of 64 bits. *)
Definition Itoa (z : Z) : string := if z <? 0 then String "-" (dec_digits 19 (- z) "") else dec_digits 19 z "".

Fixpoint parse_dec (acc : Z) (s : string) : option Z :=
  match s with
  | EmptyString => Some acc
  | String c s =>
      let n := Z.of_N (N_of_ascii c) in
      if (48 <=? n) && (n <=? 57) then parse_dec (acc * 10 + (n - 48)) s else None
  end.

Definition Atoi (s : string) : Z + string :=
  let '(neg, digits) :=
    match s with
    | String c s' => if Ascii.eqb c "-" then (true, s') else if Ascii.eqb c "+" then (false, s') else (false, s)
    | EmptyString => (false, s)
    end in
  match digits with
  | EmptyString => inr "invalid syntax"
  | _ =>
      match parse_dec 0 digits with
      | None => inr "invalid syntax"
      | Some n =>
          let n := if neg : bool then - n else n in
          if (n <? MinInt64) || (MaxInt64 <? n) then inr "value out of range" else inl n
      end
  end.

(** ** Entities *)

Definition ItemsPrefix : string := "/items/".
Definition MembersPrefix : string := "/members/".
Definition AssignmentsPrefix : string := "/assign/".
Definition Sep : string := "#".
Definition SepByte : ascii := "#".

Section entities.
(** The values of members, items and assignments that the user of the allocator defines. *)
Context {MV IV AV : Type}.

Record Item := mkItem { it_ID : string; it_Value : IV }.
Record Member := mkMember { mb_Zone : string; mb_Suffix : string; mb_Value : MV }.
(** The value is nil until the key is decoded. *)
Record Assignment := mkAssignment {
  as_ItemID : string;
  as_MemberZone : string;
  as_MemberSuffix : string;
  as_Slot : Z;
  as_Value : option AV;
}.

Inductive Entity :=
| EntityMember (m : Member)
| EntityItem (i : Item)
| EntityAssignment (a : Assignment).

Class Decoder := {
  DecodeItem : string → RawKV → IV + string;
  DecodeMember : string → string → RawKV → MV + string;
  DecodeAssignment : string → string → string → Z → RawKV → AV + string;
}.

(** [strings.Split] at the separator. *)
Definition split_key (s : string) : list string := of_chars <$> split_on SepByte [] (to_chars s).

Fixpoint string_drop (n : nat) (s : string) : string :=
  match n, s with
  | S n, String _ s => string_drop n s
  | _, _ => s
  end.

Definition trim_prefix (p s : string) : option string :=
  if String.prefix p s then Some (string_drop (String.length p) s) else None.

(** [NewAllocatorKeyValueDecoder] of [prefix], applied to [raw]. *)
Definition decode_entity `{Decoder} (prefix : string) (raw : RawKV) : Entity + string :=
  match trim_prefix (prefix ++ MembersPrefix) (k_Key raw) with
  | Some rest =>
      match split_key rest with
      | [zone; suffix] =>
          match DecodeMember zone suffix raw with
          | inr err => inr err
          | inl value => inl (EntityMember (mkMember zone suffix value))
          end
      | _ => inr "expected (zone, suffix) in member key"
      end
  | None =>
      match trim_prefix (prefix ++ ItemsPrefix) (k_Key raw) with
      | Some rest =>
          match split_key rest with
          | [id] =>
              match DecodeItem id raw with
              | inr err => inr err
              | inl value => inl (EntityItem (mkItem id value))
              end
          | _ => inr "expected (id) in item key"
          end
      | None =>
          match trim_prefix (prefix ++ AssignmentsPrefix) (k_Key raw) with
          | Some rest =>
              match split_key rest with
              | [itemID; zone; suffix; slot] =>
                  match Atoi slot with
                  | inr err => inr err
                  | inl slot =>
                      match DecodeAssignment itemID zone suffix slot raw with
                      | inr err => inr err
                      | inl value => inl (EntityAssignment (mkAssignment itemID zone suffix slot (Some value)))
                      end
                  end
              | _ => inr "expected (item-id, member-zone, member-suffix, slot) in assignment key"
              end
          | None => inr "unexpected key prefix"
          end
      end
  end.

(** ** Keys *)

Definition above_sep (s : string) : bool :=
  forallb (λ c, N_of_ascii SepByte <? N_of_ascii c)%N (to_chars s).

Definition assertAboveSep (s : string) : outcome unit :=
  if above_sep s then Ret tt else Panic "invalid char <= '%c' (ind %d of %+q)".

Definition MemberKey (root zone suffix : string) : outcome string :=
  let! _ := assertAboveSep zone in
  let! _ := assertAboveSep suffix in
  Ret (root ++ MembersPrefix ++ zone ++ Sep ++ suffix)%string.

Definition ItemKey (root id : string) : outcome string :=
  let! _ := assertAboveSep id in
  Ret (root ++ ItemsPrefix ++ id)%string.

Definition ItemAssignmentsPrefix (root itemID : string) : outcome string :=
  let! _ := assertAboveSep itemID in
  Ret (root ++ AssignmentsPrefix ++ itemID ++ Sep)%string.

Definition AssignmentKey (root : string) (a : Assignment) : outcome string :=
  let! _ := assertAboveSep (as_MemberZone a) in
  let! _ := assertAboveSep (as_MemberSuffix a) in
  let! p := ItemAssignmentsPrefix root (as_ItemID a) in
  Ret (p ++ as_MemberZone a ++ Sep ++ as_MemberSuffix a ++ Sep ++ Itoa (as_Slot a))%string.

Definition memberAt (kv : list (KeyValue Entity)) (i : nat) : outcome Member :=
  match kv !! i with
  | None => Panic "index out of range"
  | Some x => match Decoded x with EntityMember m => Ret m | _ => Panic "interface conversion" end
  end.
Definition itemAt (kv : list (KeyValue Entity)) (i : nat) : outcome Item :=
  match kv !! i with
  | None => Panic "index out of range"
  | Some x => match Decoded x with EntityItem m => Ret m | _ => Panic "interface conversion" end
  end.
Definition assignmentAt (kv : list (KeyValue Entity)) (i : nat) : outcome Assignment :=
  match kv !! i with
  | None => Panic "index out of range"
  | Some x => match Decoded x with EntityAssignment m => Ret m | _ => Panic "interface conversion" end
  end.

Definition LookupMember (root : string) (kvs : list (KeyValue Entity)) (zone suffix : string) : outcome (option Member) :=
  let! key := MemberKey root zone suffix in
  let '(ind, found) := Search kvs key in
  if found : bool then let! m := memberAt kvs ind in Ret (Some m) else Ret None.

Definition LookupItem (root : string) (kvs : list (KeyValue Entity)) (id : string) : outcome (option Item) :=
  let! key := ItemKey root id in
  let '(ind, found) := Search kvs key in
  if found : bool then let! m := itemAt kvs ind in Ret (Some m) else Ret None.

(** [strings.Compare]. *)
Definition strings_Compare (a b : string) : Z :=
  if String.eqb a b then 0 else if String.ltb a b then -1 else 1.

Definition compareAssignment (l r : Assignment) : Z :=
  if String.ltb (as_ItemID l) (as_ItemID r) then -1
  else if String.ltb (as_ItemID r) (as_ItemID l) then 1
  else if String.ltb (as_MemberZone l) (as_MemberZone r) then -1
  else if String.ltb (as_MemberZone r) (as_MemberZone l) then 1
  else if String.ltb (as_MemberSuffix l) (as_MemberSuffix r) then -1
  else if String.ltb (as_MemberSuffix r) (as_MemberSuffix l) then 1
  else 0.
End entities.
Arguments Item IV : clear implicits.
Arguments Member MV : clear implicits.
Arguments Assignment AV : clear implicits.
Arguments Entity MV IV AV : clear implicits.
Arguments Decoder MV IV AV : clear implicits.

(** ** Left joins *)

Record LeftJoinCursor := mkCursor { Left : nat; RightBegin : nat; RightEnd : nat }.

Section join.
Context (LenL LenR : nat) (Compare : nat → nat → outcome Z).

(** [Next] from the cursor of the join: a row and the cursor after it. Each round takes an
    entry on the right or returns. *)
Fixpoint Next (fuel : nat) (j : LeftJoinCursor) : outcome (option (LeftJoinCursor * LeftJoinCursor)) :=
  if (Left j <? LenL)%nat then
    let! c := if (RightEnd j =? LenR)%nat then Ret (-1) else Compare (Left j) (RightEnd j) in
    if c =? -1 then Ret (Some (j, mkCursor (Left j + 1) (RightBegin j) (RightBegin j)))
    else
      match fuel with
      | O => Ret None
      | S fuel =>
          if c =? 0 then Next fuel (mkCursor (Left j) (RightBegin j) (RightEnd j + 1))
          else if c =? 1 then
            if negb (RightBegin j =? RightEnd j)%nat then Panic "LeftJoin inputs are not ordered"
            else Next fuel (mkCursor (Left j) (RightEnd j + 1) (RightEnd j + 1))
          else Next fuel j
      end
  else Ret None.

Fixpoint rows_from (fuel : nat) (j : LeftJoinCursor) : outcome (list LeftJoinCursor) :=
  match fuel with
  | O => Ret []
  | S fuel =>
      let! r := Next LenR j in
      match r with
      | None => Ret []
      | Some (row, j) => let! l := rows_from fuel j in Ret (row :: l)
      end
  end.

(** The rows that a loop over the join sees. *)
Definition LeftJoin_rows : outcome (list LeftJoinCursor) := rows_from LenL (mkCursor 0 0 0).
End join.

(** ** Order of keys *)

Lemma str_app_assoc (a b c : string) : ((a ++ b) ++ c)%string = (a ++ b ++ c)%string.
Proof. induction a as [|x a IH]; [done|]. change (String x ((a ++ b) ++ c) = String x (a ++ b ++ c)). by rewrite IH. Qed.

Lemma str_app_inj p a b : (p ++ a)%string = (p ++ b)%string → a = b.
Proof. induction p as [|c p IH]; [done|]. change (String c (p ++ a) = String c (p ++ b) → a = b). intros [= H]. auto. Qed.

Lemma str_lt_app p a b : str_lt (p ++ a)%string (p ++ b)%string ↔ str_lt a b.
Proof.
  induction p as [|c p IH]; [done|]. change (str_lt (String c (p ++ a)) (String c (p ++ b)) ↔ str_lt a b). rewrite str_lt_cons, IH. split; [intros [?|[_ ?]]; [lia|done]|by right]. Qed.

Lemma above_sep_cons c s : above_sep (String c s) = true ↔ (N_of_ascii SepByte < N_of_ascii c)%N ∧ above_sep s = true.
Proof. unfold above_sep. cbn. rewrite andb_true_iff, N.ltb_lt. done. Qed.

(** A separator below all other characters: the first fields decide, then the rest. *)
Lemma str_lt_sep a1 a2 r1 r2 : above_sep a1 = true → above_sep a2 = true →
  (str_lt (a1 ++ Sep ++ r1)%string (a2 ++ Sep ++ r2)%string ↔ str_lt a1 a2 ∨ a1 = a2 ∧ str_lt r1 r2).
Proof.
  revert a2. induction a1 as [|c a1 IH]; intros [|d a2] H1 H2.
  - change (("" ++ Sep ++ r1)%string) with (Sep ++ r1)%string. change (("" ++ Sep ++ r2)%string) with (Sep ++ r2)%string.
    rewrite str_lt_app. split; [by right|]. by intros [?|[_ ?]].
  - apply above_sep_cons in H2 as [H2 _]. split; [by left|]. intros _. apply str_lt_cons. by left.
  - apply above_sep_cons in H1 as [H1 _]. change ((String c a1 ++ Sep ++ r1)%string) with (String c (a1 ++ Sep ++ r1)).
    change (("" ++ Sep ++ r2)%string) with (String SepByte r2). rewrite str_lt_cons.
    split; [intros [?|[-> _]]; lia|]. intros [?|[? _]]; done.
  - apply above_sep_cons in H1 as [H1 H1'], H2 as [H2 H2'].
    change ((String c a1 ++ Sep ++ r1)%string) with (String c (a1 ++ Sep ++ r1)).
    change ((String d a2 ++ Sep ++ r2)%string) with (String d (a2 ++ Sep ++ r2)).
    rewrite !str_lt_cons, (IH a2 H1' H2'). split; [intros [?|[-> [?|[-> ?]]]]; auto|].
    intros [[?|[-> ?]]|[[= -> ->] ?]]; auto.
Qed.

Section keys.
Context {MV IV AV : Type}.

Lemma MemberKey_Ret root zone suffix key : MemberKey root zone suffix = Ret key →
  above_sep zone = true ∧ above_sep suffix = true ∧ key = (root ++ MembersPrefix ++ zone ++ Sep ++ suffix)%string.
Proof.
  unfold MemberKey, assertAboveSep. destruct (above_sep zone); cbn; [|done]. destruct (above_sep suffix); cbn; [|done].
  intros [= <-]. done.
Qed.

Lemma AssignmentKey_Ret root (a : Assignment AV) key : AssignmentKey root a = Ret key →
  above_sep (as_ItemID a) = true ∧ above_sep (as_MemberZone a) = true ∧ above_sep (as_MemberSuffix a) = true ∧
  key = (root ++ AssignmentsPrefix ++ as_ItemID a ++ Sep ++ as_MemberZone a ++ Sep ++ as_MemberSuffix a ++ Sep ++ Itoa (as_Slot a))%string.
Proof.
  unfold AssignmentKey, ItemAssignmentsPrefix, assertAboveSep. destruct (above_sep (as_MemberZone a)); cbn; [|done].
  destruct (above_sep (as_MemberSuffix a)); cbn; [|done]. destruct (above_sep (as_ItemID a)); cbn; [|done].
  intros [= <-]. split_and!; [done..|]. by rewrite !str_app_assoc.
Qed.

(** The order of assignments that [compareAssignment] decides. *)
Definition assignment_lt (l r : Assignment AV) : Prop :=
  str_lt (as_ItemID l) (as_ItemID r) ∨ as_ItemID l = as_ItemID r ∧
    (str_lt (as_MemberZone l) (as_MemberZone r) ∨ as_MemberZone l = as_MemberZone r ∧
       str_lt (as_MemberSuffix l) (as_MemberSuffix r)).

Definition same_assignment (l r : Assignment AV) : Prop :=
  as_ItemID l = as_ItemID r ∧ as_MemberZone l = as_MemberZone r ∧ as_MemberSuffix l = as_MemberSuffix r.

Lemma ltb_cases a b : (str_lt a b ∧ String.ltb a b = true) ∨ (a = b ∧ String.ltb a b = false ∧ String.ltb b a = false) ∨
  (str_lt b a ∧ String.ltb a b = false ∧ String.ltb b a = true).
Proof.
  assert (∀ x y, str_lt y x → String.ltb x y = false) as Hno.
  { intros x y H. apply not_true_is_false. intros H'. apply (irreflexivity str_lt x). by trans y. }
  destruct (str_lt_trichotomy a b) as [H|[-> |H]]; [by left| |]; right; [left|right]; split_and!; auto.
  all: apply not_true_is_false; apply (irreflexivity str_lt).
Qed.

Lemma compareAssignment_spec (l r : Assignment AV) :
  (compareAssignment l r = -1 ∧ assignment_lt l r) ∨ (compareAssignment l r = 0 ∧ same_assignment l r) ∨
  (compareAssignment l r = 1 ∧ assignment_lt r l).
Proof.
  unfold compareAssignment, assignment_lt, same_assignment.
  destruct (ltb_cases (as_ItemID l) (as_ItemID r)) as [[? ->]|[(-> & -> & _)|(? & -> & ->)]]; [naive_solver| |naive_solver].
  destruct (ltb_cases (as_MemberZone l) (as_MemberZone r)) as [[? ->]|[(-> & -> & _)|(? & -> & ->)]]; [naive_solver| |naive_solver].
  destruct (ltb_cases (as_MemberSuffix l) (as_MemberSuffix r)) as [[? ->]|[(-> & -> & _)|(? & -> & ->)]]; naive_solver.
Qed.

Lemma keys_ordered_spec root :
  (∀ z1 s1 z2 s2 k1 k2, MemberKey root z1 s1 = Ret k1 → MemberKey root z2 s2 = Ret k2 →
     (str_lt k1 k2 ↔ str_lt z1 z2 ∨ z1 = z2 ∧ str_lt s1 s2)) ∧
  (∀ (l r : Assignment AV) k1 k2, AssignmentKey root l = Ret k1 → AssignmentKey root r = Ret k2 →
     (compareAssignment l r = -1 → str_lt k1 k2) ∧
     (compareAssignment l r = 0 → as_Slot l = as_Slot r → k1 = k2) ∧
     (compareAssignment l r = 1 → str_lt k2 k1)).
Proof.
  split.
  - intros z1 s1 z2 s2 k1 k2 (? & ? & ->)%MemberKey_Ret (? & ? & ->)%MemberKey_Ret. rewrite !str_lt_app. by apply str_lt_sep.
  - assert (∀ (l r : Assignment AV) k1 k2, AssignmentKey root l = Ret k1 → AssignmentKey root r = Ret k2 →
      assignment_lt l r → str_lt k1 k2) as Hlt.
    { intros l r k1 k2 (? & ? & ? & ->)%AssignmentKey_Ret (? & ? & ? & ->)%AssignmentKey_Ret Hlt. rewrite !str_lt_app.
      apply str_lt_sep; [done..|]. destruct Hlt as [?|[? Hlt]]; [by left|right]. split; [done|].
      apply str_lt_sep; [done..|]. destruct Hlt as [?|[? Hlt]]; [by left|right]. split; [done|].
      apply str_lt_sep; [done..|]. by left. }
    intros l r k1 k2 H1 H2. destruct (compareAssignment_spec l r) as [[-> ?]|[[-> (E1 & E2 & E3)]|[-> ?]]]; split_and!; try done; eauto.
    intros _ Hs. apply AssignmentKey_Ret in H1 as (_ & _ & _ & ->), H2 as (_ & _ & _ & ->). congruence.
Qed.

(** The order of keys is the order of the entities: members are ordered by zone and suffix,
    and assignments by item, zone and suffix, as [compareAssignment] has it. The separator is
    below the characters of all fields, or building the key panics. *)
Theorem keys_ordered root :
  (∀ z1 s1 z2 s2 k1 k2, MemberKey root z1 s1 = Ret k1 → MemberKey root z2 s2 = Ret k2 →
     (str_lt k1 k2 ↔ str_lt z1 z2 ∨ z1 = z2 ∧ str_lt s1 s2)) ∧
  (∀ (l r : Assignment AV) k1 k2, AssignmentKey root l = Ret k1 → AssignmentKey root r = Ret k2 →
     (compareAssignment l r = -1 → str_lt k1 k2) ∧
     (compareAssignment l r = 0 → as_Slot l = as_Slot r → k1 = k2) ∧
     (compareAssignment l r = 1 → str_lt k2 k1)).
Proof. apply keys_ordered_spec. Qed.
End keys.

(** ** Keys decode to what they were made of *)

Lemma dec_digit_code d : 0 ≤ d < 10 → Z.of_N (N_of_ascii (dec_digit d)) = 48 + d.
Proof. intros. unfold dec_digit. rewrite N_ascii_embedding by lia. lia. Qed.

Lemma parse_dec_digit a d s : 0 ≤ d < 10 → parse_dec a (String (dec_digit d) s) = parse_dec (a * 10 + d) s.
Proof.
  intros Hd. cbn [parse_dec]. rewrite (dec_digit_code d Hd). rewrite (proj2 (andb_true_iff _ _)) by (split; lia).
  f_equal. lia.
Qed.

Lemma parse_dec_digits fuel : ∀ z acc, 0 ≤ z < 10 ^ Z.of_nat (S fuel) → parse_dec 0 (dec_digits fuel z acc) = parse_dec z acc.
Proof.
  induction fuel as [|fuel IH]; intros z acc Hz; cbn [dec_digits]; pose proof (Z.mod_pos_bound z 10 ltac:(lia)) as Hm;
    pose proof (Z.div_mod z 10 ltac:(lia)) as Hdm.
  - rewrite parse_dec_digit by done. f_equal. change (10 ^ Z.of_nat 1) with 10 in Hz.
    rewrite (Z.div_small z 10) in Hdm by lia. lia.
  - destruct (Z.eqb_spec (z / 10) 0) as [Hq|Hq].
    + rewrite parse_dec_digit by done. f_equal. lia.
    + rewrite IH; [rewrite parse_dec_digit by done; f_equal; lia|].
      rewrite Nat2Z.inj_succ, Z.pow_succ_r in Hz by lia. split; [apply Z.div_pos; lia|]. apply Z.div_lt_upper_bound; lia.
Qed.

Lemma dec_digits_cons fuel : ∀ z acc, 0 ≤ z → ∃ d s, dec_digits fuel z acc = String (dec_digit d) s ∧ 0 ≤ d < 10.
Proof.
  induction fuel as [|fuel IH]; intros z acc Hz; cbn [dec_digits]; pose proof (Z.mod_pos_bound z 10 ltac:(lia)); [eauto|].
  case_match; [eauto|]. apply IH. apply Z.div_pos; lia.
Qed.

Lemma Atoi_Itoa z : is_int64 z → Atoi (Itoa z) = inl z.
Proof.
  unfold is_int64. intros Hz. unfold Atoi, Itoa. change MaxInt64 with 9223372036854775807 in *. change MinInt64 with (-9223372036854775808) in *.
  assert (∀ n, 0 ≤ n ≤ 9223372036854775808 → parse_dec 0 (dec_digits 19 n "") = Some n) as Hp.
  { intros n Hn. rewrite parse_dec_digits; [done|]. change (10 ^ Z.of_nat 20) with 100000000000000000000. lia. }
  destruct (Z.ltb_spec z 0) as [Hneg|Hpos].
  - change (Ascii.eqb "-" "-") with true. cbv iota beta. destruct (dec_digits_cons 19 (- z) "") as (d & s & Hs & Hd); [lia|].
    pose proof (Hp (- z) ltac:(lia)) as Hpz. rewrite Hs in *. rewrite Hpz. cbv iota. rewrite (proj2 (orb_false_iff _ _)) by (split; lia).
    f_equal. lia.
  - destruct (dec_digits_cons 19 z "") as (d & s & Hs & Hd); [lia|]. pose proof (Hp z ltac:(lia)) as Hpz. rewrite Hs in *.
    assert (∀ c, Z.of_N (N_of_ascii c) < 48 → Ascii.eqb (dec_digit d) c = false) as Hne.
    { intros c Hc. apply Ascii.eqb_neq. intros <-. rewrite dec_digit_code in Hc by done. lia. }
    rewrite (Hne "-"%char), (Hne "+"%char) by done. rewrite Hpz. by rewrite (proj2 (orb_false_iff _ _)) by (split; lia).
Qed.

Lemma above_app a b : above_sep (a ++ b)%string = above_sep a && above_sep b.
Proof. unfold above_sep. by rewrite to_chars_app, forallb_app. Qed.

Lemma dec_digits_above fuel : ∀ z acc, above_sep acc = true → above_sep (dec_digits fuel z acc) = true.
Proof.
  assert (∀ z acc, above_sep acc = true → above_sep (String (dec_digit (z mod 10)) acc) = true) as H.
  { intros z acc Hacc. apply above_sep_cons. split; [|done]. pose proof (dec_digit_code (z mod 10) ltac:(apply Z.mod_pos_bound; lia)).
    pose proof (Z.mod_pos_bound z 10 ltac:(lia)). change (N_of_ascii SepByte) with 35%N. lia. }
  induction fuel as [|fuel IH]; intros z acc Hacc; cbn [dec_digits]; [by apply H|]. case_match; [by apply H|]. by apply IH, H.
Qed.

Lemma Itoa_above z : above_sep (Itoa z) = true.
Proof. unfold Itoa. case_match; [apply above_sep_cons; split; [done|]|]; by apply dec_digits_above. Qed.

Lemma split_on_last l : ∀ cur, forallb (λ c, N_of_ascii SepByte <? N_of_ascii c)%N l = true → split_on SepByte cur l = [rev cur ++ l].
Proof.
  induction l as [|c l IH]; intros cur H; cbn [split_on]; [by rewrite app_nil_r|]. cbn [forallb] in H. apply andb_true_iff in H as [Hc H].
  apply N.ltb_lt in Hc. rewrite (proj2 (Ascii.eqb_neq c SepByte)) by (intros ->; lia). rewrite IH by done. cbn. by rewrite <- app_assoc.
Qed.

Lemma split_on_sep l r : ∀ cur, forallb (λ c, N_of_ascii SepByte <? N_of_ascii c)%N l = true →
  split_on SepByte cur (l ++ SepByte :: r) = (rev cur ++ l) :: split_on SepByte [] r.
Proof.
  induction l as [|c l IH]; intros cur H; cbn [split_on app]; [by rewrite app_nil_r|]. cbn [forallb] in H. apply andb_true_iff in H as [Hc H].
  apply N.ltb_lt in Hc. rewrite (proj2 (Ascii.eqb_neq c SepByte)) by (intros ->; lia). rewrite IH by done. cbn. by rewrite <- app_assoc.
Qed.

Lemma split_key_last s : above_sep s = true → split_key s = [s].
Proof. intros H. unfold split_key. rewrite split_on_last by done. cbn. by rewrite of_to_chars. Qed.

Lemma split_key_sep s r : above_sep s = true → split_key (s ++ Sep ++ r) = s :: split_key r.
Proof.
  intros H. unfold split_key. rewrite to_chars_app. change (to_chars (Sep ++ r)) with (SepByte :: to_chars r).
  rewrite split_on_sep by done. cbn. by rewrite of_to_chars.
Qed.

Lemma prefix_app p s : String.prefix p (p ++ s) = true.
Proof.
  induction p as [|c p IH]; [by destruct s|]. change (String.prefix (String c p) (String c (p ++ s)) = true).
  cbn [String.prefix]. by rewrite IH; destruct (ascii_dec c c).
Qed.

Lemma drop_app p s : string_drop (String.length p) (p ++ s) = s.
Proof. induction p as [|c p IH]; [by destruct s|]. exact IH. Qed.

Lemma trim_prefix_app p s : trim_prefix p (p ++ s) = Some s.
Proof. unfold trim_prefix. by rewrite prefix_app, drop_app. Qed.

Lemma trim_prefix_other p q s : String.prefix q s = false → trim_prefix (p ++ q) (p ++ s) = None.
Proof.
  intros H. unfold trim_prefix. assert (String.prefix (p ++ q) (p ++ s) = false) as ->; [|done].
  induction p as [|c p IH]; [done|]. change (String.prefix (String c (p ++ q)) (String c (p ++ s)) = false).
  cbn [String.prefix]. by rewrite IH; destruct (ascii_dec c c).
Qed.

Section decode.
Context {MV IV AV : Type} `{Decoder MV IV AV}.

(** Keys decode to the entities they were made of, whatever user values the keys hold: the
    zone and suffix of a member, the ID of an item, and the item, zone, suffix and slot of an
    assignment. *)
Theorem keys_roundtrip root raw :
  (∀ zone suffix value, MemberKey root zone suffix = Ret (k_Key raw) → DecodeMember zone suffix raw = inl value →
     decode_entity root raw = inl (EntityMember (mkMember zone suffix value))) ∧
  (∀ id value, ItemKey root id = Ret (k_Key raw) → DecodeItem id raw = inl value →
     decode_entity root raw = inl (EntityItem (mkItem id value))) ∧
  (∀ (a : Assignment AV) value, AssignmentKey root a = Ret (k_Key raw) → is_int64 (as_Slot a) →
     DecodeAssignment (as_ItemID a) (as_MemberZone a) (as_MemberSuffix a) (as_Slot a) raw = inl value →
     decode_entity root raw =
       inl (EntityAssignment (mkAssignment (as_ItemID a) (as_MemberZone a) (as_MemberSuffix a) (as_Slot a) (Some value)))).
Proof.
  split_and!.
  - intros zone suffix value (Hz & Hs & Hk)%MemberKey_Ret Hd. unfold decode_entity. rewrite Hk, <- str_app_assoc, trim_prefix_app.
    by rewrite split_key_sep, split_key_last, Hd by done.
  - intros id value Hk Hd. unfold ItemKey, assertAboveSep in Hk. destruct (above_sep id) eqn:Hid; [|done]. injection Hk as Hk.
    unfold decode_entity. rewrite <- Hk, trim_prefix_other by done. rewrite <- str_app_assoc, trim_prefix_app.
    by rewrite split_key_last, Hd by done.
  - intros a value (Hi & Hz & Hs & Hk)%AssignmentKey_Ret Hslot Hd. unfold decode_entity. rewrite Hk, !trim_prefix_other by done.
    rewrite <- (str_app_assoc root), trim_prefix_app. rewrite !split_key_sep, split_key_last by (done || apply Itoa_above).
    by rewrite Atoi_Itoa, Hd by done.
Qed.
End decode.

(** ** Left joins *)

Definition str_le (a b : string) : Prop := str_lt a b ∨ a = b.
Definition below (x : string) (R : list string) : nat := length (filter (λ y, str_lt y x) R).
Definition upto (x : string) (R : list string) : nat := length (filter (λ y, ¬ str_lt x y) R).

Section join_facts.
Context (L R : list string) (HR : StronglySorted str_le R) (HL : StronglySorted str_le L).

(** The comparison of the keys at two positions. *)
Definition compare_keys (l r : nat) : outcome Z :=
  match L !! l, R !! r with
  | Some x, Some y => Ret (strings_Compare x y)
  | _, _ => Panic "index out of range"
  end.

Lemma str_le_lt_trans a b c : str_le a b → str_lt b c → str_lt a c.
Proof. intros [?| ->] ?; [by trans b|done]. Qed.

Lemma compare_spec x y :
  (strings_Compare x y = -1 ∧ str_lt x y) ∨ (strings_Compare x y = 0 ∧ x = y) ∨ (strings_Compare x y = 1 ∧ str_lt y x).
Proof.
  unfold strings_Compare. destruct (String.eqb_spec x y) as [-> |Hne]; [auto|].
  destruct (ltb_cases x y) as [[? ->]|[(-> & _)|(? & -> & _)]]; naive_solver.
Qed.

(** Positions of the right side relative to [x]: before [b] smaller, from [b] to [e] equal. *)
Record at_row (x : string) (b e : nat) : Prop := {
  ar_le : (b ≤ e ≤ length R)%nat;
  ar_below : ∀ r y, R !! r = Some y → (r < b)%nat → str_lt y x;
  ar_equal : ∀ r y, R !! r = Some y → (b ≤ r < e)%nat → y = x;
}.

Lemma right_sorted i j y z : R !! i = Some y → R !! j = Some z → (i < j)%nat → str_le y z.
Proof. intros Hi Hj Hlt. by eapply (ssorted_lookup str_le R i j). Qed.

(** From an element greater than [x] on, all are. *)
Lemma right_above x e : (∀ y, R !! e = Some y → str_lt x y) → ∀ r y, R !! r = Some y → (e ≤ r)%nat → str_lt x y.
Proof.
  intros Hgt r y Hr Her. destruct (decide (r = e)) as [-> |]; [by apply Hgt|].
  destruct (lookup_lt_is_Some_2 R e) as [z Hz]; [apply lookup_lt_Some in Hr; lia|].
  destruct (right_sorted e r z y Hz Hr ltac:(lia)) as [?| <-]; [trans z; auto|auto].
Qed.

(** A complete row spans the right elements that are equal to [x]. *)
Lemma row_counts x b e : at_row x b e → (∀ y, R !! e = Some y → str_lt x y) → below x R = b ∧ upto x R = e.
Proof.
  intros [Hle Hb He] Hgt. pose proof (right_above x e Hgt) as Hgt'. pose proof (irreflexivity str_lt x) as Hirr.
  unfold below, upto. split.
  - rewrite (filter_prefix _ R b), length_take; [lia|by eauto|]. intros r y Hbr Hr Hlt. apply Hirr.
    destruct (decide (r < e)%nat); [by rewrite (He r y Hr) in Hlt by lia|]. trans y; [apply (Hgt' r y Hr); lia|done].
  - rewrite (filter_prefix _ R e), length_take; [lia| |].
    + intros r y Hre Hr Hlt. apply Hirr. destruct (decide (r < b)%nat); [trans y; [done|by apply (Hb r y Hr)]|].
      by rewrite (He r y Hr) in Hlt by lia.
    + intros r y Hre Hr Hlt. apply Hlt. by apply (Hgt' r y Hr).
Qed.

Lemma upto_above x r : R !! r = Some x → (r < upto x R)%nat.
Proof.
  intros Hr. unfold upto. rewrite <- (take_drop (S r) R), filter_app, length_app.
  rewrite (list_filter_all _ (take (S r) R)); [rewrite length_take; apply lookup_lt_Some in Hr; lia|].
  intros y [i [Hi Hlt]%lookup_take_Some]%list_elem_of_lookup. destruct (decide (i = r)) as [-> |].
  - replace y with x by congruence. apply (irreflexivity str_lt).
  - intros Hxy. apply (irreflexivity str_lt y). eapply str_le_lt_trans; [apply (right_sorted i r y x); [done..|lia]|done].
Qed.

Lemma Next_spec x l : L !! l = Some x → ∀ fuel b e, at_row x b e → (length R - e ≤ fuel)%nat →
  Next (length L) (length R) compare_keys fuel (mkCursor l b e) =
    Ret (Some (mkCursor l (below x R) (upto x R), mkCursor (l + 1) (below x R) (below x R))) ∧
  at_row x (below x R) (upto x R).
Proof.
  intros Hx fuel. assert (l < length L)%nat as Hl by (by apply lookup_lt_Some in Hx).
  induction fuel as [|fuel IH]; intros b e [Hle Hb He] Hf.
  all: cbn [Next Left RightBegin RightEnd]; rewrite (proj2 (Nat.ltb_lt l (length L)) Hl).
  all: pose proof (row_counts x b e ltac:(by split)) as Hcount.
  all: destruct (Nat.eqb_spec e (length R)) as [Heq|Hne]; cbn [outcome_bind].
  1,3: change (-1 =? -1) with true; cbv iota; destruct Hcount as [-> ->];
    [intros y Hy%lookup_lt_Some; lia|split; [done|by split]].
  { lia. }
  destruct (lookup_lt_is_Some_2 R e) as [y Hy]; [lia|]. unfold compare_keys. rewrite Hx, Hy. cbn [outcome_bind].
  destruct (compare_spec x y) as [[-> Hlt]|[[-> Heq]|[-> Hlt]]]; cbv iota.
  - change (-1 =? -1) with true. cbv iota. destruct Hcount as [-> ->]; [intros z Hz; congruence|]. split; [done|by split].
  - change (0 =? -1) with false. change (0 =? 0) with true. cbv iota. apply IH; [|lia]. split; [lia|done|].
    intros r z Hr Hre. destruct (decide (r = e)) as [-> |]; [congruence|]. apply (He r); [done|lia].
  - change (1 =? -1) with false. change (1 =? 0) with false. change (1 =? 1) with true. cbv iota.
    destruct (Nat.eqb_spec b e) as [-> |Hbe]; cbn [negb].
    + apply IH; [|lia]. split; [lia| |intros; lia]. intros r z Hr Hre. destruct (decide (r = e)) as [-> |]; [congruence|].
      apply (Hb r); [done|lia].
    + exfalso. destruct (lookup_lt_is_Some_2 R b) as [z Hz]; [lia|]. pose proof (He b z Hz ltac:(lia)) as ->.
      apply (irreflexivity str_lt x). eapply str_le_lt_trans; [apply (right_sorted b e x y Hz Hy); lia|done].
Qed.

(** The row that the join has for position [l] of the left. *)
Definition row_of (l : nat) (x : string) : LeftJoinCursor := mkCursor l (below x R) (upto x R).

Lemma rows_from_spec : ∀ fuel l b, (length L - l ≤ fuel)%nat → (l ≤ length L)%nat →
  (∀ x, L !! l = Some x → at_row x b b) →
  rows_from (length L) (length R) compare_keys fuel (mkCursor l b b) =
    Ret (zip_with row_of (seq l (length L - l)) (drop l L)).
Proof.
  induction fuel as [|fuel IH]; intros l b Hf Hl Hrow.
  { assert (length L - l = 0)%nat as -> by lia. done. }
  cbn [rows_from]. destruct (L !! l) as [x|] eqn:Hx.
  - destruct (Next_spec x l Hx (length R) b b (Hrow x eq_refl) ltac:(lia)) as [-> Hat]. cbn [outcome_bind].
    assert (l < length L)%nat as Hlt by (by apply lookup_lt_Some in Hx).
    rewrite (IH (l + 1)%nat (below x R)); [|lia|lia|].
    + cbn [outcome_bind]. rewrite (drop_S L x l Hx). replace (length L - l)%nat with (S (length L - (l + 1))) by lia.
      cbn [seq zip_with]. by replace (l + 1)%nat with (S l) by lia.
    + intros y Hy. destruct Hat as [Hle Hb He]. split; [lia| |intros; lia].
      intros r z Hr Hlt'. destruct (ssorted_lookup str_le L l (l + 1) x y HL ltac:(lia) Hx Hy) as [?| ->]; [|by eapply Hb].
      trans x; [by eapply Hb|done].
  - apply lookup_ge_None in Hx. assert (length L - l = 0)%nat as -> by lia.
    destruct (length R); cbn [Next Left]; by rewrite (proj2 (Nat.ltb_ge _ _)) by lia.
Qed.
End join_facts.

Lemma LeftJoin_spec L R : StronglySorted str_le L → StronglySorted str_le R →
  LeftJoin_rows (length L) (length R) (compare_keys L R) =
    Ret (zip_with (λ l x, mkCursor l (below x R) (upto x R)) (seq 0 (length L)) L) ∧
  (∀ l x, L !! l = Some x → ∀ r, (below x R ≤ r < upto x R)%nat ↔ R !! r = Some x).
Proof.
  intros HL HR. split.
  - unfold LeftJoin_rows. rewrite (rows_from_spec L R HR HL (length L) 0 0); [by rewrite Nat.sub_0_r|lia|lia|].
    intros x _. split; [lia|intros; lia|intros; lia].
  - intros l x Hx r.
    assert (at_row R x 0 0) as H0 by (split; [lia|intros; lia|intros; lia]).
    destruct (Next_spec L R HR x l Hx (length R) 0 0 H0 ltac:(lia)) as [_ [Hle Hb He]].
    split.
    + intros Hr. destruct (lookup_lt_is_Some_2 R r) as [y Hy]; [lia|]. by rewrite Hy, (He r y Hy Hr).
    + intros Hr. pose proof (irreflexivity str_lt x). split.
      * apply Nat.le_ngt. intros Hlt. naive_solver.
      * by apply upto_above.
Qed.

(** A join of sorted keys visits every left key once and in order, and joins it with exactly
    the right keys that are equal to it: the row of a left key spans from the first right key
    that is not smaller to the first that is greater. Repeated left keys all have their rows, and
    no input makes it panic. *)
Theorem LeftJoin_correct L R : StronglySorted str_le L → StronglySorted str_le R →
  LeftJoin_rows (length L) (length R) (compare_keys L R) =
    Ret (zip_with (λ l x, mkCursor l (below x R) (upto x R)) (seq 0 (length L)) L) ∧
  (∀ l x, L !! l = Some x → ∀ r, (below x R ≤ r < upto x R)%nat ↔ R !! r = Some x).
Proof. apply LeftJoin_spec. Qed.

(** ** Concrete keys *)

Lemma keys_ordered_witness :
  str_lt "/root/members/zone#a" "/root/members/zone-b#a" ↔ str_lt "zone" "zone-b" ∨ "zone" = "zone-b" ∧ str_lt "a" "a".
Proof. apply (proj1 (keys_ordered (AV := unit) "/root") "zone" "a" "zone-b" "a"); reflexivity. Defined.

Definition example_decoder : Decoder Z Z Z :=
  {| DecodeMember := λ _ _ raw, inl (k_Version raw); DecodeItem := λ _ raw, inl (k_Version raw);
     DecodeAssignment := λ _ _ _ _ raw, inl (k_Version raw) |}.

Lemma keys_roundtrip_witness :
  decode_entity (H := example_decoder) "/root" (mkRaw "/root/assign/item#zone#member#1" 5 6 1 "" 7) =
    inl (EntityAssignment (mkAssignment "item" "zone" "member" 1 (Some 1))).
Proof.
  apply (proj2 (proj2 (keys_roundtrip (H := example_decoder) "/root" (mkRaw "/root/assign/item#zone#member#1" 5 6 1 "" 7)))
           (mkAssignment "item" "zone" "member" 1 None) 1); [vm_compute; reflexivity|vm_compute; split; discriminate|reflexivity].
Defined.

Lemma LeftJoin_correct_witness :
  LeftJoin_rows 3 4 (compare_keys ["a"; "b"; "c"] ["a"; "a"; "aa"; "c"]) =
    Ret [mkCursor 0 0 2; mkCursor 1 3 3; mkCursor 2 3 4].
Proof.
  apply (proj1 (LeftJoin_correct ["a"; "b"; "c"] ["a"; "a"; "aa"; "c"]
    ltac:(repeat constructor; (left; reflexivity) || (right; reflexivity))
    ltac:(repeat constructor; (left; reflexivity) || (right; reflexivity)))).
Defined.
