(* ===== verification/AllocState.v ===== *)
(** * State of the allocator (src/v2/pkg/allocator/alloc_state.go)

    [observe] extracts members, items and assignments from the key space, with the counts the
    allocator works with. The theorems: what is extracted is what the key space holds, and the
    members of a key space agree on one leader. *)
From S2P Require Import Prelude Encoding Protocol FragmentName KeySpace AllocKeys.
From Stdlib Require Import Ascii SpecFloat.
Local Open Scope Z_scope.

(** ** [hash/crc64] with the ECMA polynomial *)

Module Crc64.
Definition ECMA : Z := 0xC96C5795D7870F42.

Definition shift1 (crc : Z) : Z := if Z.odd crc then Z.lxor (Z.shiftr crc 1) ECMA else Z.shiftr crc 1.

Definition table (i : Z) : Z := Nat.iter 8 shift1 i.

Definition step (crc : Z) (v : byte) : Z := Z.lxor (table (Z.land (Z.lxor crc (byte_Z v)) 255)) (Z.shiftr crc 8).

Definition Update (crc : Z) (p : bytes) : Z :=
  Z.lxor (foldl step (Z.lxor crc 18446744073709551615) p) 18446744073709551615.
End Crc64.

Example crc64_check : Crc64.Update 0 (str_bytes "123456789") = 0x995dc9bbdf1939fa.
Proof. vm_compute. reflexivity. Qed.

Definition foldCRC (crc : Z) (key : string) (n : Z) : Z :=
  let crc := Crc64.Update crc (str_bytes key) in
  Crc64.Update crc (str_bytes (Itoa n)).

(** ** [float32] *)

(** [float32(n)] of an integer, and division: binary floating point with 24 bits of precision. *)
Definition float32 (n : Z) : spec_float := binary_normalize 24 128 n 0 false.
Definition float32_div (a b : spec_float) : spec_float := SFdiv 24 128 a b.
Definition MaxFloat32 : spec_float := S754_finite false 16777215 104.

(** ** The user's values *)

Section values.
Context (MV IV AV : Type).

Class MemberValue := { ItemLimit : MV → Z }.

Class ItemValue := {
  DesiredReplication : IV → Z;
  IsConsistent : IV → KeyValue (Entity MV IV AV) → list (KeyValue (Entity MV IV AV)) → bool;
}.
End values.
Arguments ItemLimit {MV _} _.
Arguments DesiredReplication {MV IV AV _} _.
Arguments IsConsistent {MV IV AV _} _ _ _.

(** [l[i] += d] *)
Definition add_at (l : list Z) (i : nat) (d : Z) : outcome (list Z) :=
  match l !! i with
  | None => Panic "index out of range"
  | Some n => Ret (<[i := int64 (n + d)]> l)
  end.

Section state.
Context {MV IV AV : Type} `{!MemberValue MV} `{!ItemValue MV IV AV}.
(** [clientv3.GetPrefixRangeEnd], of Etcd's client. *)
Context (GetPrefixRangeEnd : string → string).

Abbreviation E := (Entity MV IV AV).
Abbreviation KV := (KeyValue E).
Abbreviation kv_Key x := (k_Key (Raw x)).

Record LocalItem := mkLocalItem { li_Item : KV; li_Assignments : list KV; li_Index : nat }.

(** [LocalMemberInd] is [None] where the code has -1. *)
Record State := mkState {
  KS : KeySpace E;
  LocalKey : string;
  Members : list KV;
  Items : list KV;
  Assignments : list KV;
  LocalMemberInd : option nat;
  LocalItems : list LocalItem;
  Zones : list string;
  ZoneSlots : list Z;
  ItemSlots : Z;
  NetworkHash : Z;
  MemberTotalCount : list Z;
  MemberPrimaryCount : list Z;
}.
Abbreviation Root s := (ks_Root (KS s)).

Definition NewObservedState (ks : KeySpace E) (localKey : string) : State :=
  mkState ks localKey [] [] [] None [] [] [] 0 0 [] [].

(** The walk of [observe] over members. *)
Definition observe_member (acc : list string * list Z * Z) (kv : KV) : outcome (list string * list Z * Z) :=
  let '(zones, zoneSlots, hash) := acc in
  match Decoded kv with
  | EntityMember m =>
      let slots := ItemLimit (mb_Value m) in
      let! (zones, zoneSlots) :=
        match last zones with
        | None => Ret (zones ++ [mb_Zone m], zoneSlots ++ [0])
        | Some z =>
            if String.ltb z (mb_Zone m) then Ret (zones ++ [mb_Zone m], zoneSlots ++ [0])
            else if String.ltb (mb_Zone m) z then Panic "invalid Member order"
            else Ret (zones, zoneSlots)
        end in
      let! zoneSlots := add_at zoneSlots (length zones - 1) slots in
      Ret (zones, zoneSlots, foldCRC hash (kv_Key kv) slots)
  | _ => Panic "interface conversion"
  end.

(** The left join of items with their assignments. *)
Definition join_items (items assignments : list KV) : outcome (list LeftJoinCursor) :=
  LeftJoin_rows (length items) (length assignments)
    (λ l r, let! i := itemAt items l in let! a := assignmentAt assignments r in
            Ret (strings_Compare (it_ID i) (as_ItemID a))).

(** One assignment of a row of the join. *)
Definition observe_assignment (root localKey : string) (members : list KV) (item : KV) (row : list KV)
    (acc : list LocalItem * list Z * list Z) (index : nat) : outcome (list LocalItem * list Z * list Z) :=
  let '(localItems, total, primary) := acc in
  let! a := assignmentAt row index in
  let! key := MemberKey root (as_MemberZone a) (as_MemberSuffix a) in
  let localItems := if String.eqb key localKey then localItems ++ [mkLocalItem item row index] else localItems in
  let '(ind, found) := Search members key in
  if found : bool then
    let! primary := if as_Slot a =? 0 then add_at primary ind 1 else Ret primary in
    let! total := add_at total ind 1 in
    Ret (localItems, total, primary)
  else Ret (localItems, total, primary).

Definition observe_row (s : State) (cur : LeftJoinCursor) : outcome State :=
  let! item := itemAt (Items s) (Left cur) in
  match Items s !! Left cur with
  | None => Panic "index out of range"
  | Some itemKV =>
      let slots := DesiredReplication (it_Value item) in
      let row := slice (Assignments s) (RightBegin cur) (RightEnd cur) in
      let! (localItems, total, primary) :=
        outcome_fold (observe_assignment (Root s) (LocalKey s) (Members s) itemKV row)
          (LocalItems s, MemberTotalCount s, MemberPrimaryCount s) (seq 0 (length row)) in
      Ret (mkState (KS s) (LocalKey s) (Members s) (Items s) (Assignments s) (LocalMemberInd s) localItems
             (Zones s) (ZoneSlots s) (int64 (ItemSlots s + slots)) (foldCRC (NetworkHash s) (kv_Key itemKV) slots)
             total primary)
  end.

Definition observe (s : State) : outcome State :=
  let kvs := ks_KeyValues (KS s) in
  let members := Prefixed GetPrefixRangeEnd kvs (Root s ++ MembersPrefix) in
  let items := Prefixed GetPrefixRangeEnd kvs (Root s ++ ItemsPrefix) in
  let assignments := Prefixed GetPrefixRangeEnd kvs (Root s ++ AssignmentsPrefix) in
  let! (zones, zoneSlots, hash) := outcome_fold observe_member ([], [], 0) members in
  let localMemberInd := let '(ind, found) := Search members (LocalKey s) in if found : bool then Some ind else None in
  let! rows := join_items items assignments in
  outcome_fold observe_row
    (mkState (KS s) (LocalKey s) members items assignments localMemberInd [] zones zoneSlots 0 hash
       (replicate (length members) 0) (replicate (length members) 0)) rows.

Definition shouldExit (s : State) : outcome bool :=
  match LocalMemberInd s with
  | None => Panic "index out of range"
  | Some ind => let! m := memberAt (Members s) ind in Ret ((ItemLimit (mb_Value m) =? 0) && (length (LocalItems s) =? 0)%nat)
  end.

(** The scan starts from the zero key/value. *)
Definition scan_leader (leader : RawKV) (kv : KV) : RawKV :=
  if (k_CreateRevision leader =? 0) || (k_CreateRevision (Raw kv) <? k_CreateRevision leader) then Raw kv else leader.

Definition isLeader (s : State) : bool :=
  String.eqb (k_Key (foldl scan_leader (mkRaw "" 0 0 0 "" 0) (Members s))) (LocalKey s).

Definition memberLoadRatio (s : State) (assignment : KV) (counts : list Z) : outcome spec_float :=
  match Decoded assignment with
  | EntityAssignment a =>
      let! key := MemberKey (Root s) (as_MemberZone a) (as_MemberSuffix a) in
      let '(ind, found) := Search (Members s) key in
      if found : bool then
        match counts !! ind with
        | None => Panic "index out of range"
        | Some n => let! m := memberAt (Members s) ind in Ret (float32_div (float32 n) (float32 (ItemLimit (mb_Value m))))
        end
      else Ret MaxFloat32
  | _ => Panic "interface conversion"
  end.
End state.
Arguments LocalItem MV IV AV : clear implicits.
Arguments State MV IV AV : clear implicits.

(** ** Key spaces of the allocator *)

Section facts.
Context {MV IV AV : Type} `{!MemberValue MV} `{!ItemValue MV IV AV}.
Abbreviation E := (Entity MV IV AV).
Abbreviation KV := (KeyValue E).
Abbreviation kv_Key x := (k_Key (Raw x)).

Definition entity_key (root : string) (e : E) : outcome string :=
  match e with
  | EntityMember m => MemberKey root (mb_Zone m) (mb_Suffix m)
  | EntityItem i => ItemKey root (it_ID i)
  | EntityAssignment a => AssignmentKey root a
  end.

(** Sorted key/values, each under the key that is made of its fields. *)
Definition entities_ok (root : string) (kvs : list KV) : Prop :=
  kv_sorted kvs ∧ Forall (λ x, entity_key root (Decoded x) = Ret (kv_Key x)) kvs.

Definition is_member (x : KV) : bool := match Decoded x with EntityMember _ => true | _ => false end.
Definition is_item (x : KV) : bool := match Decoded x with EntityItem _ => true | _ => false end.
Definition is_assignment (x : KV) : bool := match Decoded x with EntityAssignment _ => true | _ => false end.

(** Fields of decoded entities. *)
Definition zone_of (x : KV) : string := match Decoded x with EntityMember m => mb_Zone m | _ => "" end.
Definition limit_of (x : KV) : Z := match Decoded x with EntityMember m => ItemLimit (mb_Value m) | _ => 0 end.
Definition id_of (x : KV) : string := match Decoded x with EntityItem i => it_ID i | _ => "" end.
Definition replication_of (x : KV) : Z := match Decoded x with EntityItem i => DesiredReplication (it_Value i) | _ => 0 end.
Definition asn_item (x : KV) : string := match Decoded x with EntityAssignment a => as_ItemID a | _ => "" end.
Definition asn_slot (x : KV) : Z := match Decoded x with EntityAssignment a => as_Slot a | _ => 0 end.
(** The key of the member that an assignment is of. *)
Definition asn_member (root : string) (x : KV) : string :=
  match Decoded x with
  | EntityAssignment a => (root ++ MembersPrefix ++ as_MemberZone a ++ Sep ++ as_MemberSuffix a)%string
  | _ => ""
  end.

(** What Etcd documents of [GetPrefixRangeEnd]: the range up to it is the range of the prefix. *)
Definition ends_prefix (GetPrefixRangeEnd : string → string) (p : string) : Prop :=
  ∀ s, key_le p s ∧ str_lt s (GetPrefixRangeEnd p) ↔ String.prefix p s = true.

Lemma entities_ok_filter root (P : KV → Prop) `{∀ x, Decision (P x)} kvs : entities_ok root kvs → entities_ok root (filter P kvs).
Proof.
  intros [Hs Hk]. split; [by apply ssorted_filter|].
  rewrite Forall_forall in *. intros x [_ Hx]%list_elem_of_filter. auto.
Qed.

Lemma prefix_other root p q : String.prefix p q = false → String.prefix (root ++ p) (root ++ q) = false.
Proof.
  intros H. induction root as [|c root IH]; [done|]. change (String.prefix (String c (root ++ p)) (String c (root ++ q)) = false).
  cbn [String.prefix]. by rewrite IH; destruct (ascii_dec c c).
Qed.

Lemma entity_prefixes root x : entity_key root (Decoded x) = Ret (kv_Key x) →
  String.prefix (root ++ MembersPrefix) (kv_Key x) = is_member x ∧
  String.prefix (root ++ ItemsPrefix) (kv_Key x) = is_item x ∧
  String.prefix (root ++ AssignmentsPrefix) (kv_Key x) = is_assignment x.
Proof.
  unfold is_member, is_item, is_assignment. destruct (Decoded x) as [m|i|a]; cbn [entity_key].
  - intros (_ & _ & ->)%MemberKey_Ret. split_and!; [rewrite <- str_app_assoc; apply prefix_app|by apply prefix_other..].
  - unfold ItemKey, assertAboveSep. case_match; [|done]. intros [= <-].
    split_and!; [by apply prefix_other|rewrite <- str_app_assoc; apply prefix_app|by apply prefix_other].
  - intros (_ & _ & _ & ->)%AssignmentKey_Ret.
    split_and!; [by apply prefix_other..|rewrite <- str_app_assoc; apply prefix_app].
Qed.

Lemma Prefixed_filter GetPrefixRangeEnd (kvs : list KV) p (f : KV → bool) : kv_sorted kvs →
  (∀ x, x ∈ kvs → String.prefix p (kv_Key x) = f x) → ends_prefix GetPrefixRangeEnd p →
  Prefixed GetPrefixRangeEnd kvs p = filter f kvs.
Proof.
  intros Hs Hf Hp. unfold Prefixed. rewrite Range_spec by done. clear Hs.
  induction kvs as [|x kvs IH]; [done|]. rewrite !filter_cons, IH by (intros; apply Hf; by right).
  pose proof (Hp (kv_Key x)) as Hx. rewrite (Hf x) in Hx by left.
  destruct (f x); repeat case_decide; try done; exfalso; intuition (discriminate || auto).
Qed.

Lemma Prefixed_entities GetPrefixRangeEnd root kvs : entities_ok root kvs →
  (ends_prefix GetPrefixRangeEnd (root ++ MembersPrefix) →
    Prefixed GetPrefixRangeEnd kvs (root ++ MembersPrefix) = filter is_member kvs) ∧
  (ends_prefix GetPrefixRangeEnd (root ++ ItemsPrefix) →
    Prefixed GetPrefixRangeEnd kvs (root ++ ItemsPrefix) = filter is_item kvs) ∧
  (ends_prefix GetPrefixRangeEnd (root ++ AssignmentsPrefix) →
    Prefixed GetPrefixRangeEnd kvs (root ++ AssignmentsPrefix) = filter is_assignment kvs).
Proof.
  intros [Hs Hk]. rewrite Forall_forall in Hk.
  split_and!; intros Hp; apply Prefixed_filter; try done; intros x Hx; by apply (entity_prefixes root x), Hk.
Qed.

(** ** Joins of items and assignments *)

Lemma ssorted_impl_in {A} (R S : relation A) l : (∀ x y, x ∈ l → y ∈ l → R x y → S x y) → StronglySorted R l → StronglySorted S l.
Proof.
  intros H Hs. induction Hs as [|x l Hl IH Hx]; constructor.
  - apply IH. intros y z Hy Hz. apply H; by right.
  - rewrite Forall_forall in *. intros y Hy. apply H; [by left|by right|by apply Hx].
Qed.

Lemma ssorted_map {A B} (R : relation B) (f : A → B) l : StronglySorted (λ x y, R (f x) (f y)) l → StronglySorted R (f <$> l).
Proof. induction 1; cbn; constructor; [done|]. by apply Forall_fmap. Qed.

Definition items_ok root (items : list KV) : Prop := entities_ok root items ∧ Forall (λ x, is_item x = true) items.
Definition assignments_ok root (asn : list KV) : Prop := entities_ok root asn ∧ Forall (λ x, is_assignment x = true) asn.
Definition members_ok root (ms : list KV) : Prop := entities_ok root ms ∧ Forall (λ x, is_member x = true) ms.

Lemma kind_ok root kvs : entities_ok root kvs →
  members_ok root (filter is_member kvs) ∧ items_ok root (filter is_item kvs) ∧ assignments_ok root (filter is_assignment kvs).
Proof.
  intros Hok. unfold members_ok, items_ok, assignments_ok.
  split_and!; try (by apply entities_ok_filter); apply Forall_forall; intros x [Hx _]%list_elem_of_filter; by destruct (_ x).
Qed.

Lemma items_sorted root items : items_ok root items → StronglySorted str_lt (id_of <$> items).
Proof.
  intros [[Hs Hk] Hi]. rewrite Forall_forall in Hk, Hi. apply ssorted_map. eapply ssorted_impl_in; [|exact Hs].
  intros x y Hx Hy Hlt. pose proof (Hk x Hx) as Ex. pose proof (Hk y Hy) as Ey. specialize (Hi x Hx) as Ix. specialize (Hi y Hy) as Iy.
  unfold is_item, id_of in *. destruct (Decoded x) as [|i|], (Decoded y) as [|j|]; try done.
  cbn [entity_key] in *. unfold ItemKey, assertAboveSep in *. destruct (above_sep (it_ID i)), (above_sep (it_ID j)); try done.
  injection Ex as Ex. injection Ey as Ey. rewrite <- Ex, <- Ey, !str_lt_app in Hlt. done.
Qed.

Lemma assignments_sorted root asn : assignments_ok root asn → StronglySorted str_le (asn_item <$> asn).
Proof.
  intros [[Hs Hk] Hi]. rewrite Forall_forall in Hk, Hi. apply ssorted_map. eapply ssorted_impl_in; [|exact Hs].
  intros x y Hx Hy Hlt. pose proof (Hk x Hx) as Ex. pose proof (Hk y Hy) as Ey. specialize (Hi x Hx) as Ix. specialize (Hi y Hy) as Iy.
  unfold is_assignment, asn_item in *. destruct (Decoded x) as [| |a], (Decoded y) as [| |b]; try done. cbn [entity_key] in *.
  destruct (proj2 (keys_ordered_spec root) a b _ _ Ex Ey) as (_ & _ & Hgt).
  destruct (ltb_cases (as_ItemID a) (as_ItemID b)) as [[? _]|[(-> & _)|(Hba & E1 & E2)]]; [by left|by right|].
  exfalso. apply (str_lt_asym _ _ Hlt), Hgt. unfold compareAssignment. by rewrite E1, E2.
Qed.

Lemma LeftJoin_rows_ext LenL LenR (C C' : nat → nat → outcome Z) :
  (∀ l r, C l r = C' l r) → LeftJoin_rows LenL LenR C = LeftJoin_rows LenL LenR C'.
Proof.
  intros HC. assert (∀ fuel j, Next LenL LenR C fuel j = Next LenL LenR C' fuel j) as HN.
  { induction fuel as [|fuel IH]; intros j; cbn [Next]; rewrite HC; [done|]. by rewrite !IH. }
  unfold LeftJoin_rows. generalize (mkCursor 0 0 0). generalize LenL at 2 4 as fuel.
  induction fuel as [|fuel IH]; intros j; cbn [rows_from]; [done|]. rewrite HN.
  destruct (Next LenL LenR C' LenR j) as [[[row j']|]|]; cbn [outcome_bind]; [by rewrite IH|done..].
Qed.

(** The assignments of an item. *)
Definition item_row (asn : list KV) (item : KV) : list KV := filter (λ x, asn_item x = id_of item) asn.

Lemma below_le_upto x R : (below x R ≤ upto x R)%nat.
Proof.
  unfold below, upto. induction R as [|y R IH]; [done|]. rewrite !filter_cons. repeat case_decide; cbn; try lia.
  by destruct (str_lt_asym x y).
Qed.

(** A span of positions that holds just what satisfies a predicate. *)
Lemma filter_span {A} (P : A → Prop) `{∀ x, Decision (P x)} (l : list A) b e : (b ≤ e)%nat →
  (∀ i x, l !! i = Some x → P x ↔ (b ≤ i < e)%nat) → filter P l = slice l b e.
Proof.
  intros Hbe HP. unfold slice. rewrite <- (take_drop b l) at 1. rewrite filter_app, list_filter_none.
  - apply filter_prefix; intros i x Hi; rewrite lookup_drop; intros Hx; rewrite (HP (b + i)%nat) by done; lia.
  - intros x [i [Hx Hi]%lookup_take_Some]%list_elem_of_lookup. rewrite (HP i) by done. lia.
Qed.

Lemma join_items_spec root items asn : items_ok root items → assignments_ok root asn →
  join_items items asn =
    Ret (zip_with (λ l x, mkCursor l (below (id_of x) (asn_item <$> asn)) (upto (id_of x) (asn_item <$> asn))) (seq 0 (length items)) items) ∧
  ∀ x, x ∈ items → slice asn (below (id_of x) (asn_item <$> asn)) (upto (id_of x) (asn_item <$> asn)) = item_row asn x.
Proof.
  intros Hi Ha. assert (StronglySorted str_le (id_of <$> items)) as Hsi.
  { eapply ssorted_impl_in; [|by eapply items_sorted]. intros; by left. }
  destruct (LeftJoin_spec (id_of <$> items) (asn_item <$> asn) Hsi (assignments_sorted root asn Ha)) as [Hrows Hspan]. split.
  - unfold join_items. rewrite (LeftJoin_rows_ext _ _ _ (compare_keys (id_of <$> items) (asn_item <$> asn))).
    + rewrite !length_fmap in Hrows. rewrite Hrows. f_equal. rewrite zip_with_fmap_r. done.
    + intros l r. unfold compare_keys, itemAt, assignmentAt. rewrite !list_lookup_fmap.
      destruct Hi as [_ Hi], Ha as [_ Ha]. rewrite Forall_lookup in Hi, Ha. unfold is_item, is_assignment, id_of, asn_item in *.
      destruct (items !! l) as [x|] eqn:Hx; [|done]. specialize (Hi l x Hx). cbn.
      destruct (Decoded x); try done. cbn. destruct (asn !! r) as [y|] eqn:Hy; [|done]. specialize (Ha r y Hy). cbn.
      by destruct (Decoded y).
  - intros x [l Hx]%list_elem_of_lookup. symmetry. apply filter_span; [apply below_le_upto|].
    intros i y Hy. rewrite (Hspan l (id_of x)) by (by rewrite list_lookup_fmap, Hx). rewrite list_lookup_fmap, Hy. cbn. split; congruence.
Qed.

(** ** The walk over members *)

Definition sum_Z (l : list Z) : Z := foldr Z.add 0 l.

Lemma sum_Z_snoc l z : sum_Z (l ++ [z]) = sum_Z l + z.
Proof. induction l as [|x l IH]; cbn [app sum_Z foldr] in *; [lia|]. fold (sum_Z l). unfold sum_Z in IH. rewrite IH. unfold sum_Z. lia. Qed.

(** The slots of the members of a zone. *)
Definition zone_total (ms : list KV) (z : string) : Z := int64 (sum_Z (limit_of <$> filter (λ x, zone_of x = z) ms)).

Definition members_hash (ms : list KV) : Z := foldl (λ h x, foldCRC h (kv_Key x) (limit_of x)) 0 ms.

Lemma add_at_lookup l i d n : l !! i = Some n → add_at l i d = Ret (<[i := int64 (n + d)]> l).
Proof. intros H. unfold add_at. by rewrite H. Qed.

Lemma zone_total_snoc ms x z :
  zone_total (ms ++ [x]) z = if decide (zone_of x = z) then int64 (zone_total ms z + limit_of x) else zone_total ms z.
Proof.
  unfold zone_total. rewrite filter_app, filter_cons. case_decide; cbn [filter list_filter].
  - rewrite fmap_app. cbn [fmap list_fmap]. by rewrite sum_Z_snoc, int64_add_l.
  - by rewrite app_nil_r.
Qed.

Lemma zone_order root ms i j x y : members_ok root ms → ms !! i = Some x → ms !! j = Some y → (i < j)%nat → str_le (zone_of x) (zone_of y).
Proof.
  intros [[Hs Hk] Hm] Hx Hy Hij. rewrite Forall_lookup in Hk, Hm. pose proof (ssorted_lookup _ _ _ _ _ _ Hs Hij Hx Hy) as Hlt. cbn in Hlt.
  pose proof (Hk _ _ Hx) as Ex. pose proof (Hk _ _ Hy) as Ey. specialize (Hm _ _ Hx) as Ix. specialize (Hm _ _ Hy) as Iy.
  unfold is_member, zone_of in *. destruct (Decoded x) as [m| |], (Decoded y) as [n| |]; try done. cbn [entity_key] in *.
  destruct (proj1 (keys_ordered_spec (AV := AV) root) _ _ _ _ _ _ Ex Ey) as [H _]. destruct (H Hlt) as [?|[? _]]; [by left|by right].
Qed.

(** What the walk has after the members [ms]. *)
Record zones_of (ms : list KV) (zones : list string) : Prop := {
  zo_sorted : StronglySorted str_lt zones;
  zo_in : ∀ z, z ∈ zones ↔ ∃ x, x ∈ ms ∧ zone_of x = z;
  zo_last : last zones = zone_of <$> last ms;
}.

Lemma zones_in_snoc ms x zones z : zones_of ms zones →
  (∃ y, y ∈ ms ++ [x] ∧ zone_of y = z) ↔ z ∈ zones ∨ z = zone_of x.
Proof.
  intros [_ Hin _]. rewrite Hin. split.
  - intros (y & [Hy| ->%list_elem_of_singleton]%elem_of_app & <-); [left; eauto|by right].
  - intros [(y & Hy & <-)| ->]; [exists y|exists x]; rewrite elem_of_app, list_elem_of_singleton; auto.
Qed.

Lemma zones_extend ms x zones : zones_of ms zones → (∀ z, z ∈ zones → str_lt z (zone_of x)) →
  add_at ((zone_total ms <$> zones) ++ [0]) (length (zones ++ [zone_of x]) - 1) (limit_of x) =
    Ret (zone_total (ms ++ [x]) <$> (zones ++ [zone_of x])) ∧ zones_of (ms ++ [x]) (zones ++ [zone_of x]).
Proof.
  intros Hzo Hlt. pose proof Hzo as [Hs Hin Hlast].
  assert (zone_of x ∉ zones) as Hni by (intros H%Hlt; by apply (irreflexivity str_lt) in H). split.
  - rewrite length_app, Nat.add_sub, (add_at_lookup _ _ _ 0).
    2: { rewrite lookup_app_r; rewrite length_fmap; [by rewrite Nat.sub_diag|done]. }
    rewrite insert_app_r_alt; rewrite length_fmap; [|done]. rewrite Nat.sub_diag, fmap_app. cbn. do 2 f_equal.
    + apply list_fmap_ext. intros i z Hzi. rewrite zone_total_snoc, decide_False; [done|]. intros <-. by apply Hni, (list_elem_of_lookup_2 _ i).
    + f_equal. rewrite zone_total_snoc, decide_True by done. unfold zone_total. rewrite list_filter_none; [done|].
      intros y Hy Hyz. apply Hni, Hin. eauto.
  - split; [|intros z|by rewrite !last_snoc].
    + apply ssorted_app. split_and!; [done|repeat constructor|]. intros a b Ha ->%list_elem_of_singleton. auto.
    + by rewrite (zones_in_snoc ms x zones), elem_of_app, list_elem_of_singleton.
Qed.

Lemma zones_again ms x zs : zones_of ms (zs ++ [zone_of x]) →
  add_at (zone_total ms <$> (zs ++ [zone_of x])) (length (zs ++ [zone_of x]) - 1) (limit_of x) =
    Ret (zone_total (ms ++ [x]) <$> (zs ++ [zone_of x])) ∧ zones_of (ms ++ [x]) (zs ++ [zone_of x]).
Proof.
  intros Hzo. pose proof Hzo as [Hs Hin Hlast]. apply ssorted_app in Hs as (_ & _ & Hlt). split.
  - rewrite length_app, Nat.add_sub, (add_at_lookup _ _ _ (zone_total ms (zone_of x))).
    2: { rewrite fmap_app, lookup_app_r; rewrite length_fmap; [by rewrite Nat.sub_diag|done]. }
    rewrite !fmap_app, insert_app_r_alt; rewrite length_fmap; [|done]. rewrite Nat.sub_diag. cbn. do 2 f_equal.
    + apply list_fmap_ext. intros i z Hzi. rewrite zone_total_snoc, decide_False; [done|]. intros <-.
      apply (irreflexivity str_lt (zone_of x)), Hlt; [by apply (list_elem_of_lookup_2 _ i)|by left].
    + f_equal. by rewrite zone_total_snoc, decide_True.
  - split; [by destruct Hzo|intros z|by rewrite !last_snoc].
    rewrite (zones_in_snoc ms x _ _ Hzo), !elem_of_app, list_elem_of_singleton. tauto.
Qed.

Lemma observe_member_step ms x zones : zones_of ms zones → is_member x = true →
  (∀ y, last ms = Some y → str_le (zone_of y) (zone_of x)) →
  ∃ zones', observe_member (zones, zone_total ms <$> zones, members_hash ms) x =
    Ret (zones', zone_total (ms ++ [x]) <$> zones', members_hash (ms ++ [x])) ∧ zones_of (ms ++ [x]) zones'.
Proof.
  intros Hzo Hx Hle. unfold observe_member.
  assert (members_hash (ms ++ [x]) = foldCRC (members_hash ms) (kv_Key x) (limit_of x)) as -> by (unfold members_hash; by rewrite foldl_app).
  assert (∃ m, Decoded x = EntityMember m) as [m Hd] by (unfold is_member in Hx; destruct (Decoded x); [eauto|done..]).
  assert (mb_Zone m = zone_of x) as Hz by (unfold zone_of; by rewrite Hd).
  assert (ItemLimit (mb_Value m) = limit_of x) as Hl by (unfold limit_of; by rewrite Hd).
  rewrite Hd, Hz, Hl. clear Hd Hz Hl. destruct (last zones) as [z|] eqn:Hlz.
  - pose proof (zo_last _ _ Hzo) as Hlast. rewrite Hlz in Hlast. destruct (last ms) as [y|]; [|done]. injection Hlast as ->.
    specialize (Hle y eq_refl). apply last_Some in Hlz as [zs ->]. pose proof (zo_sorted _ _ Hzo) as (_ & _ & Hlt)%ssorted_app.
    destruct (ltb_cases (zone_of y) (zone_of x)) as [[Hyx ->]|[(Heq & -> & ->)|(Hxy & _ & _)]]; cbn [outcome_bind].
    + destruct (zones_extend ms x _ Hzo) as [-> ?]; [|cbn [outcome_bind]; eauto].
      intros z [Hz| ->%list_elem_of_singleton]%elem_of_app; [|done]. trans (zone_of y); [apply Hlt; [done|by left]|done].
    + rewrite Heq in *. destruct (zones_again ms x zs Hzo) as [-> ?]. cbn [outcome_bind]. eauto.
    + destruct Hle as [Hle|Hle]; [by destruct (str_lt_asym _ _ Hle)|]. rewrite Hle in Hxy. by apply (irreflexivity str_lt) in Hxy.
  - apply last_None in Hlz as ->. cbn [outcome_bind].
    destruct (zones_extend ms x [] Hzo) as [-> ?]; [intros z []%elem_of_nil|cbn [outcome_bind]; eauto].
Qed.

Lemma observe_members_spec root ms : members_ok root ms →
  ∃ zones, outcome_fold observe_member ([], [], 0) ms = Ret (zones, zone_total ms <$> zones, members_hash ms) ∧ zones_of ms zones.
Proof.
  induction ms as [|x ms IH] using rev_ind; intros Hok.
  { exists []. split; [done|]. split; [constructor| |done]. intros z. rewrite elem_of_nil. split; [done|]. by intros (x & []%elem_of_nil & _). }
  pose proof Hok as [[Hs Hk] Hm]. apply kv_sorted_app in Hs as (Hs & _ & _). apply Forall_app in Hk as [Hk _], Hm as [Hm Hx].
  destruct IH as (zones & Hf & Hzo); [by repeat split|]. rewrite outcome_fold_app, Hf. cbn [outcome_bind outcome_fold].
  destruct (observe_member_step ms x zones Hzo) as (zones' & -> & Hzo'); [by apply Forall_inv in Hx| |cbn [outcome_bind]; eauto].
  intros y Hy. rewrite last_lookup in Hy. assert (pred (length ms) < length ms)%nat by (by apply lookup_lt_Some in Hy).
  apply (zone_order root (ms ++ [x]) (pred (length ms)) (length ms) y x Hok); [by apply lookup_app_l_Some|by apply list_lookup_middle|done].
Qed.

(** ** The walk over items and assignments *)

Lemma Search_member (ms : list KV) key : kv_sorted ms →
  let '(ind, found) := Search ms key in
  if found : bool then ∃ m, ms !! ind = Some m ∧ kv_Key m = key else ∀ m, m ∈ ms → kv_Key m ≠ key.
Proof.
  intros Hs. pose proof (Search_spec ms key Hs) as H. destruct (Search ms key) as [ind [|]]; destruct H as (_ & Hlt & Hf).
  { destruct Hf as (m & ? & ? & _). eauto. }
  intros m Hm. rewrite <- (take_drop ind ms) in Hm. rewrite Forall_forall in Hlt, Hf.
  apply elem_of_app in Hm as [Hm|Hm]; [by apply str_lt_ne, Hlt|]. apply not_eq_sym. by apply str_lt_ne, Hf.
Qed.

Lemma kv_sorted_inj (kvs : list KV) i j x y : kv_sorted kvs → kvs !! i = Some x → kvs !! j = Some y → kv_Key x = kv_Key y → i = j.
Proof.
  intros Hs Hx Hy Heq. destruct (decide (i < j)%nat) as [Hij|]; [|destruct (decide (j < i)%nat) as [Hij|]; [|lia]].
  all: exfalso; apply (irreflexivity str_lt (kv_Key x)).
  - rewrite Heq at 2. exact (ssorted_lookup _ _ _ _ _ _ Hs Hij Hx Hy).
  - rewrite Heq at 1. exact (ssorted_lookup _ _ _ _ _ _ Hs Hij Hy Hx).
Qed.

(** The number of assignments [asn] of each member. *)
Definition counts (root : string) (ms asn : list KV) : list Z :=
  (λ m, int64 (Z.of_nat (length (filter (λ x, asn_member root x = kv_Key m) asn)))) <$> ms.

Definition primaries (asn : list KV) : list KV := filter (λ x, asn_slot x = 0) asn.

Lemma counts_nil root ms : counts root ms [] = replicate (length ms) 0.
Proof. unfold counts. induction ms as [|m ms IH]; [done|]. cbn [fmap list_fmap length replicate]. by f_equal. Qed.

Lemma counts_found root ms asn ind m x : kv_sorted ms → ms !! ind = Some m → asn_member root x = kv_Key m →
  add_at (counts root ms asn) ind 1 = Ret (counts root ms (asn ++ [x])).
Proof.
  intros Hs Hm Hx. unfold counts at 1. erewrite add_at_lookup by (by rewrite list_lookup_fmap, Hm). f_equal.
  apply list_eq. intros i. rewrite int64_add_l. unfold counts. rewrite list_lookup_insert, !list_lookup_fmap, length_fmap.
  case_decide as Hi.
  - destruct Hi as [-> _]. rewrite Hm. cbn. rewrite filter_app, filter_cons, decide_True, length_app by done. cbn. do 2 f_equal. lia.
  - destruct (ms !! i) as [n|] eqn:Hn; [|done]. cbn. rewrite filter_app, filter_cons, decide_False, app_nil_r; [done|].
    rewrite Hx. intros Heq. apply Hi. split; [|by apply lookup_lt_Some in Hm]. by apply (kv_sorted_inj ms _ _ m n).
Qed.

Lemma counts_missing root ms asn x : (∀ m, m ∈ ms → kv_Key m ≠ asn_member root x) → counts root ms (asn ++ [x]) = counts root ms asn.
Proof.
  intros H. apply list_fmap_ext. intros i m Hm. rewrite filter_app, filter_cons, decide_False, app_nil_r; [done|].
  apply not_eq_sym, H. by apply (list_elem_of_lookup_2 _ i).
Qed.

Definition local_row (root localKey : string) (row : list KV) (item : KV) : list (LocalItem MV IV AV) :=
  (λ i, mkLocalItem item row i) <$> filter (λ i, asn_member root <$> row !! i = Some localKey) (seq 0 (length row)).

Definition assignment_key_ok (root : string) (x : KV) : Prop := is_assignment x = true ∧ entity_key root (Decoded x) = Ret (kv_Key x).

Lemma observe_assignment_step root lk ms item row li asn index x : kv_sorted ms → row !! index = Some x → assignment_key_ok root x →
  observe_assignment root lk ms item row (li, counts root ms asn, counts root ms (primaries asn)) index =
    Ret (li ++ (if decide (asn_member root x = lk) then [mkLocalItem item row index] else []),
         counts root ms (asn ++ [x]), counts root ms (primaries (asn ++ [x]))).
Proof.
  intros Hs Hx [Ha Hk]. unfold observe_assignment, assignmentAt. rewrite Hx.
  assert (primaries (asn ++ [x]) = primaries asn ++ if decide (asn_slot x = 0) then [x] else []) as Hp.
  { unfold primaries. rewrite filter_app, filter_cons. by case_decide. }
  assert (∃ a, Decoded x = EntityAssignment a ∧ MemberKey root (as_MemberZone a) (as_MemberSuffix a) = Ret (asn_member root x) ∧
    asn_slot x = as_Slot a) as (a & -> & Hmk & Hslot).
  { unfold is_assignment in Ha. destruct (Decoded x) as [| |a] eqn:Hd; try done. exists a. cbn [entity_key] in Hk.
    apply AssignmentKey_Ret in Hk as (Hi & Hz & Hu & _). unfold asn_member, asn_slot, MemberKey, assertAboveSep. by rewrite Hd, Hz, Hu. }
  cbn [outcome_bind]. rewrite Hmk, <- Hslot, Hp. cbn [outcome_bind]. clear Hslot Hp.
  assert (∀ r1 r2 : list (LocalItem MV IV AV), (if String.eqb (asn_member root x) lk then r1 else r2) =
    if decide (asn_member root x = lk) then r1 else r2) as ->.
  { intros r1 r2. destruct (String.eqb_spec (asn_member root x) lk); [by rewrite decide_True|by rewrite decide_False]. }
  pose proof (Search_member ms (asn_member root x) Hs) as Hf. destruct (Search ms (asn_member root x)) as [ind [|]].
  - destruct Hf as (m & Hm & Hkm). rewrite (counts_found root ms asn ind m x) by done.
    destruct (Z.eqb_spec (asn_slot x) 0) as [Heq|Hne].
    + rewrite (decide_True (P := asn_slot x = 0)), (counts_found root ms (primaries asn) ind m x) by done. cbn [outcome_bind].
      case_decide; by rewrite ?app_nil_r.
    + rewrite (decide_False (P := asn_slot x = 0)), app_nil_r by done. cbn [outcome_bind]. case_decide; by rewrite ?app_nil_r.
  - rewrite (counts_missing root ms asn) by done. do 2 f_equal; [case_decide; by rewrite ?app_nil_r|].
    case_decide; rewrite ?app_nil_r; [by rewrite counts_missing|done].
Qed.

Lemma observe_row_spec root lk ms item row : kv_sorted ms → Forall (assignment_key_ok root) row → ∀ li asn,
  outcome_fold (observe_assignment root lk ms item row) (li, counts root ms asn, counts root ms (primaries asn)) (seq 0 (length row)) =
    Ret (li ++ local_row root lk row item, counts root ms (asn ++ row), counts root ms (primaries (asn ++ row))).
Proof.
  intros Hs Hrow li asn. unfold local_row.
  assert (∀ k, (k ≤ length row)%nat →
    outcome_fold (observe_assignment root lk ms item row) (li, counts root ms asn, counts root ms (primaries asn)) (seq 0 k) =
    Ret (li ++ ((λ i, mkLocalItem item row i) <$> filter (λ i, asn_member root <$> row !! i = Some lk) (seq 0 k)),
         counts root ms (asn ++ take k row), counts root ms (primaries (asn ++ take k row)))) as H.
  { induction k as [|k IH]; intros Hk; [by rewrite take_0, !app_nil_r|]. rewrite seq_S, outcome_fold_app, IH by lia.
    destruct (lookup_lt_is_Some_2 row k) as [x Hx]; [lia|]. cbn [outcome_bind outcome_fold Nat.add].
    rewrite (observe_assignment_step root lk ms item row _ _ k x Hs Hx) by (by rewrite Forall_lookup in Hrow; eauto).
    rewrite (take_S_r _ _ _ Hx), <- !app_assoc. cbn [outcome_bind]. do 3 f_equal.
    rewrite filter_app, fmap_app. f_equal. cbn [filter list_filter]. rewrite Hx. cbn. repeat case_decide; naive_solver. }
  rewrite (H (length row) ltac:(done)). by rewrite firstn_all.
Qed.

Definition attached (asn items : list KV) : list KV := concat (item_row asn <$> items).

Definition local_items (root localKey : string) (asn items : list KV) : list (LocalItem MV IV AV) :=
  concat ((λ x, local_row root localKey (item_row asn x) x) <$> items).

(** The state after a walk over the items [xs]. *)
Definition walked (s : State MV IV AV) (xs : list KV) : State MV IV AV :=
  mkState (KS s) (LocalKey s) (Members s) (Items s) (Assignments s) (LocalMemberInd s)
    (local_items (ks_Root (KS s)) (LocalKey s) (Assignments s) xs) (Zones s) (ZoneSlots s)
    (int64 (sum_Z (replication_of <$> xs)))
    (foldl (λ h x, foldCRC h (kv_Key x) (replication_of x)) (NetworkHash s) xs)
    (counts (ks_Root (KS s)) (Members s) (attached (Assignments s) xs))
    (counts (ks_Root (KS s)) (Members s) (primaries (attached (Assignments s) xs))).

Lemma observe_rows_spec s : kv_sorted (Members s) → items_ok (ks_Root (KS s)) (Items s) →
  assignments_ok (ks_Root (KS s)) (Assignments s) → s = walked s [] →
  (let! rows := join_items (Items s) (Assignments s) in outcome_fold observe_row s rows) = Ret (walked s (Items s)).
Proof.
  intros Hm Hi Ha H0. destruct (join_items_spec _ _ _ Hi Ha) as [-> Hrow]. cbn [outcome_bind].
  set (cur := λ l x, mkCursor l (below (id_of x) (asn_item <$> Assignments s)) (upto (id_of x) (asn_item <$> Assignments s))).
  assert (∀ done todo, Items s = done ++ todo →
    outcome_fold observe_row (walked s done) (zip_with cur (seq (length done) (length todo)) todo) = Ret (walked s (Items s))) as H.
  2: { rewrite H0 at 1. exact (H [] (Items s) eq_refl). }
  intros done todo. revert done. induction todo as [|x todo IH]; intros done Hd; [by rewrite Hd, app_nil_r|].
  cbn [length seq zip_with outcome_fold]. assert (x ∈ Items s) as Hx by (rewrite Hd, elem_of_app; right; by left).
  assert (observe_row (walked s done) (cur (length done) x) = Ret (walked s (done ++ [x]))) as ->.
  - unfold observe_row, itemAt. cbn [walked Items Left cur Assignments]. rewrite Hd, (list_lookup_middle _ _ x) by done.
    destruct Hi as [_ Hi]. rewrite Forall_forall in Hi. specialize (Hi x Hx) as Hix.
    assert (∃ it, Decoded x = EntityItem it ∧ DesiredReplication (it_Value it) = replication_of x) as (it & -> & Hr).
    { unfold is_item, replication_of in *. destruct (Decoded x) as [|it|]; try done. eauto. }
    cbn [outcome_bind RightBegin RightEnd cur]. rewrite Hr, Hrow by done. rewrite <- Hd.
    cbn [walked KS LocalKey Members LocalItems LocalMemberInd Zones ZoneSlots ItemSlots NetworkHash MemberTotalCount MemberPrimaryCount].
    rewrite observe_row_spec; [|done|].
    + cbn [outcome_bind]. unfold walked, attached, local_items. rewrite !fmap_app, !concat_app, foldl_app.
      cbn [fmap list_fmap concat foldl]. rewrite sum_Z_snoc, int64_add_l. by rewrite !app_nil_r.
    + destruct Ha as [[_ Hk] Ha]. rewrite Forall_forall in *. intros y [_ Hy]%list_elem_of_filter. split; auto.
  - cbn [outcome_bind]. specialize (IH (done ++ [x])). rewrite length_app, Nat.add_1_r in IH. apply IH. by rewrite <- app_assoc.
Qed.

Lemma observe_spec GetPrefixRangeEnd s :
  let root := ks_Root (KS s) in let kvs := ks_KeyValues (KS s) in
  entities_ok root kvs →
  ends_prefix GetPrefixRangeEnd (root ++ MembersPrefix) → ends_prefix GetPrefixRangeEnd (root ++ ItemsPrefix) →
  ends_prefix GetPrefixRangeEnd (root ++ AssignmentsPrefix) →
  ∃ s', observe GetPrefixRangeEnd s = Ret s' ∧ KS s' = KS s ∧ LocalKey s' = LocalKey s ∧
    Members s' = filter is_member kvs ∧ Items s' = filter is_item kvs ∧ Assignments s' = filter is_assignment kvs ∧
    (∀ i, LocalMemberInd s' = Some i ↔ (λ x, kv_Key x) <$> Members s' !! i = Some (LocalKey s)) ∧
    StronglySorted str_lt (Zones s') ∧ (∀ z, z ∈ Zones s' ↔ ∃ x, x ∈ Members s' ∧ zone_of x = z) ∧
    ZoneSlots s' = zone_total (Members s') <$> Zones s' ∧
    ItemSlots s' = int64 (sum_Z (replication_of <$> Items s')) ∧
    MemberTotalCount s' = counts root (Members s') (attached (Assignments s') (Items s')) ∧
    MemberPrimaryCount s' = counts root (Members s') (primaries (attached (Assignments s') (Items s'))) ∧
    LocalItems s' = local_items root (LocalKey s) (Assignments s') (Items s').
Proof.
  intros root kvs Hok Hpm Hpi Hpa. destruct (Prefixed_entities GetPrefixRangeEnd root kvs Hok) as (Em & Ei & Ea).
  destruct (kind_ok root kvs Hok) as (Hm & Hi & Ha). unfold observe. fold root kvs. rewrite Em, Ei, Ea by done.
  destruct (observe_members_spec root _ Hm) as (zones & -> & [Hzs Hzi _]). cbn [outcome_bind].
  set (ms := filter is_member kvs) in *. set (ind := let '(ind, found) := Search ms (LocalKey s) in if found : bool then Some ind else None).
  assert (kv_sorted ms) as Hms by (by destruct Hm as [[? _] _]).
  set (s0 := mkState _ _ _ _ _ _ _ _ _ _ _ _ _). assert (s0 = walked s0 []) as H0.
  { unfold walked, s0, attached, primaries. cbn -[counts]. by rewrite counts_nil. }
  exists (walked s0 (Items s0)). split; [exact (observe_rows_spec s0 Hms Hi Ha H0)|]. cbn -[Search]. split_and!; try done.
  intros i. unfold ind. pose proof (Search_member ms (LocalKey s) Hms) as Hf. destruct (Search ms (LocalKey s)) as [j [|]].
  - destruct Hf as (m & Hj & Hkm). split; [by intros [= <-]; rewrite Hj; cbn; rewrite Hkm|].
    destruct (ms !! i) as [y|] eqn:Hy; [|done]. cbn. intros [= Hky]. f_equal. apply (kv_sorted_inj ms j i m y); [done..|congruence].
  - split; [done|]. destruct (ms !! i) as [y|] eqn:Hy; [|done]. cbn. intros [= Hky]. exfalso. apply (Hf y); [|done].
    by apply (list_elem_of_lookup_2 _ i).
Qed.

(** [observe] extracts the key space. The members, items and assignments are its entities of
    each kind; zones are the sorted zones of the members, with the sum of the members' item
    limits; the item slots are the sum of the desired replication; each member has the number
    of its assignments, and of its primary assignments, to items which exist; and the local
    items are the assignments of the local member. It does not panic. *)
Theorem observe_correct GetPrefixRangeEnd s :
  let root := ks_Root (KS s) in let kvs := ks_KeyValues (KS s) in
  entities_ok root kvs →
  ends_prefix GetPrefixRangeEnd (root ++ MembersPrefix) → ends_prefix GetPrefixRangeEnd (root ++ ItemsPrefix) →
  ends_prefix GetPrefixRangeEnd (root ++ AssignmentsPrefix) →
  ∃ s', observe GetPrefixRangeEnd s = Ret s' ∧ KS s' = KS s ∧ LocalKey s' = LocalKey s ∧
    Members s' = filter is_member kvs ∧ Items s' = filter is_item kvs ∧ Assignments s' = filter is_assignment kvs ∧
    (∀ i, LocalMemberInd s' = Some i ↔ (λ x, kv_Key x) <$> Members s' !! i = Some (LocalKey s)) ∧
    StronglySorted str_lt (Zones s') ∧ (∀ z, z ∈ Zones s' ↔ ∃ x, x ∈ Members s' ∧ zone_of x = z) ∧
    ZoneSlots s' = zone_total (Members s') <$> Zones s' ∧
    ItemSlots s' = int64 (sum_Z (replication_of <$> Items s')) ∧
    MemberTotalCount s' = counts root (Members s') (attached (Assignments s') (Items s')) ∧
    MemberPrimaryCount s' = counts root (Members s') (primaries (attached (Assignments s') (Items s'))) ∧
    LocalItems s' = local_items root (LocalKey s) (Assignments s') (Items s').
Proof. apply observe_spec. Qed.

(** ** Leaders *)

(** Order of members on create revision, then key. *)
Definition leads (x y : KV) : Prop :=
  k_CreateRevision (Raw x) < k_CreateRevision (Raw y) ∨
  k_CreateRevision (Raw x) = k_CreateRevision (Raw y) ∧ key_le (kv_Key x) (kv_Key y).

Lemma scan_leader_spec (ms : list KV) : kv_sorted ms → Forall (λ x, 0 < k_CreateRevision (Raw x)) ms → ms ≠ [] →
  ∃ x, x ∈ ms ∧ foldl scan_leader (mkRaw "" 0 0 0 "" 0) ms = Raw x ∧ ∀ y, y ∈ ms → leads x y.
Proof.
  induction ms as [|x ms IH] using rev_ind; [done|]. intros (Hs & _ & Hlt)%kv_sorted_app [Hpos Hx%Forall_inv]%Forall_app _.
  rewrite foldl_app. destruct ms as [|y ms].
  { exists x. split; [by left|]. split; [done|]. intros y ->%list_elem_of_singleton. right. split; [done|by right]. }
  destruct IH as (z & Hz & -> & Hleads); [done..|]. set (l := y :: ms) in *. cbn [foldl]. unfold scan_leader.
  rewrite Forall_forall in Hpos. specialize (Hpos z Hz) as Hzp.
  destruct (Z.eqb_spec (k_CreateRevision (Raw z)) 0); [lia|]. destruct (Z.ltb_spec (k_CreateRevision (Raw x)) (k_CreateRevision (Raw z))) as [Hl|Hl]; cbn [orb].
  - exists x. split; [apply elem_of_app; right; by left|]. split; [done|].
    intros w [Hw| ->%list_elem_of_singleton]%elem_of_app; [|right; split; [done|by right]].
    left. destruct (Hleads w Hw) as [?|[? _]]; lia.
  - exists z. split; [apply elem_of_app; by left|]. split; [done|].
    intros w [Hw| ->%list_elem_of_singleton]%elem_of_app; [by apply Hleads|]. unfold leads.
    destruct (Z.eq_dec (k_CreateRevision (Raw z)) (k_CreateRevision (Raw x))); [right|left; lia]. split; [done|]. left. apply Hlt; [done|by left].
Qed.

(** Of the members of a key space exactly one is leader: the one that is first on create
    revision and key. *)
Theorem isLeader_unique (s : State MV IV AV) :
  kv_sorted (Members s) → Forall (λ x, 0 < k_CreateRevision (Raw x)) (Members s) → Members s ≠ [] →
  (isLeader s = true ↔ ∃ x, x ∈ Members s ∧ kv_Key x = LocalKey s ∧ ∀ y, y ∈ Members s → leads x y) ∧
  ∃ key, ∀ s', Members s' = Members s → (isLeader s' = true ↔ LocalKey s' = key).
Proof.
  intros Hs Hpos Hne. destruct (scan_leader_spec _ Hs Hpos Hne) as (x & Hx & Hscan & Hleads). split.
  - unfold isLeader. rewrite Hscan. rewrite String.eqb_eq. split; [by eauto|]. intros (y & Hy & <- & Hleads').
    specialize (Hleads y Hy). specialize (Hleads' x Hx). unfold leads in *.
    assert (key_le (kv_Key x) (kv_Key y) ∧ key_le (kv_Key y) (kv_Key x)) as [[H1| ->] [H2|H2]] by (split; intuition lia); try done.
    by destruct (str_lt_asym _ _ H1).
  - exists (kv_Key x). intros s' Hm. unfold isLeader. rewrite Hm, Hscan, String.eqb_eq. split; by intros ->.
Qed.
End facts.

(** ** A concrete key space *)

(** The last byte of a prefix incremented, as Etcd's client does. *)
Fixpoint prefix_end (s : string) : string :=
  match s with
  | EmptyString => EmptyString
  | String c EmptyString => String (ascii_of_N (N_of_ascii c + 1)) EmptyString
  | String c s => String c (prefix_end s)
  end.

Fixpoint last_below (s : string) : bool :=
  match s with
  | EmptyString => false
  | String c EmptyString => (N_of_ascii c <? 255)%N
  | String _ s => last_below s
  end.

Lemma key_le_cons a x b y : key_le (String a x) (String b y) ↔ (N_of_ascii a < N_of_ascii b)%N ∨ a = b ∧ key_le x y.
Proof.
  unfold key_le. rewrite str_lt_cons. split; [intros [[?|[-> ?]]|[= -> ->]]; auto|intros [?|[-> [?| ->]]]; auto].
Qed.

Lemma prefix_end_ends p : last_below p = true → ends_prefix prefix_end p.
Proof.
  induction p as [|c p IH]; [done|]. intros Hp [|d s]; cbn [String.prefix].
  { split; [|done]. by intros [[?|?] _]. }
  rewrite key_le_cons. destruct p as [|c' p].
  - cbn [prefix_end]. rewrite str_lt_cons. cbn [last_below] in Hp. apply N.ltb_lt in Hp. rewrite N_ascii_embedding by lia.
    destruct (ascii_dec c d) as [-> |Hne]; cbn.
    + split; [by destruct s|]. intros _. split; [right; split; [done|]; destruct s; [by right|by left]|left; lia].
    + split; [|done]. intros [[Hlt|[? _]] [Hlt'|[_ Hs]]]; [|by destruct s|done..].
      exfalso; apply Hne; rewrite <- (ascii_N_embedding c), <- (ascii_N_embedding d); f_equal; lia.
  - change (prefix_end (String c (String c' p))) with (String c (prefix_end (String c' p))). rewrite str_lt_cons.
    specialize (IH Hp s). destruct (ascii_dec c d) as [-> |Hne].
    + rewrite <- IH. split; [intros [[?|[_ ?]] [?|[_ ?]]]; [lia..|auto]|intros [? ?]; auto].
    + split; [|done]. intros [[Hlt|[? _]] [Hlt'|[? _]]]; [lia|congruence..].
Qed.

Module Demo.
#[global] Instance limit : MemberValue Z := {| ItemLimit := id |}.
#[global] Instance replication : ItemValue Z Z unit :=
  {| DesiredReplication := id; IsConsistent := λ _ kv _, String.eqb (k_Value (Raw kv)) "consistent" |}.

Definition member (zone suffix : string) (rev limit : Z) : KeyValue (Entity Z Z unit) :=
  mkKV (mkRaw ("/members/" ++ zone ++ "#" ++ suffix) rev rev 1 "" rev) (EntityMember (mkMember zone suffix limit)).
Definition item (id : string) (rev replication : Z) : KeyValue (Entity Z Z unit) :=
  mkKV (mkRaw ("/items/" ++ id) rev rev 1 "" 0) (EntityItem (mkItem id replication)).
Definition assignment (id zone suffix : string) (slot rev : Z) (value : string) : KeyValue (Entity Z Z unit) :=
  mkKV (mkRaw ("/assign/" ++ id ++ "#" ++ zone ++ "#" ++ suffix ++ "#" ++ Itoa slot) rev rev 1 value rev)
    (EntityAssignment (mkAssignment id zone suffix slot (Some tt))).

(** An assignment of a removed item, and a primary of [a]. *)
Definition kvs : list (KeyValue (Entity Z Z unit)) :=
  [assignment "gone" "A" "one" 0 9 "consistent"; assignment "x" "A" "one" 1 10 "consistent"; assignment "x" "B" "two" 0 11 "consistent";
   item "x" 4 2; item "y" 5 1; member "A" "one" 3 2; member "A" "three" 2 5; member "B" "two" 2 4].

Definition ks : KeySpace (Entity Z Z unit) := mkKeySpace "" zeroHeader kvs 0.

Lemma kvs_ok : entities_ok "" kvs.
Proof. split; [unfold kv_sorted; repeat constructor|repeat constructor]. Qed.

Definition state : State Z Z unit := Eval vm_compute in
  match observe prefix_end (NewObservedState ks "/members/A#three") with Ret s => s | Panic _ => NewObservedState ks "" end.
End Demo.

Lemma observe_correct_witness :
  ∃ s', observe prefix_end (NewObservedState Demo.ks "/members/A#three") = Ret s' ∧ Zones s' = ["A"; "B"] ∧ ZoneSlots s' = [7; 4] ∧
    MemberTotalCount s' = [1; 0; 1] ∧ MemberPrimaryCount s' = [0; 0; 1].
Proof.
  destruct (observe_correct prefix_end (NewObservedState Demo.ks "/members/A#three")) as (s' & Hs & _);
    [exact Demo.kvs_ok|apply prefix_end_ends; reflexivity..|].
  exists s'. split; [exact Hs|]. vm_compute in Hs. injection Hs as <-. repeat split.
Defined.

Lemma isLeader_unique_witness : ∃ key, ∀ s' : State Z Z unit, Members s' = Members Demo.state → (isLeader s' = true ↔ LocalKey s' = key).
Proof.
  apply (isLeader_unique Demo.state); [unfold kv_sorted; repeat constructor|repeat constructor|discriminate].
Defined.
