(* ===== verification/AllocTxn.v ===== *)
(** * Transactions of the allocator (src/v2/pkg/allocator/allocator.go, [checkpointTxn] and [batchedTxn])

    The allocator writes to Etcd through an interface of checkpoints; [batchedTxn] groups them
    into transactions. The theorem says which transactions are issued, for all answers that Etcd
    may give. *)
From S2P Require Import Prelude KeySpace.
Local Open Scope Z_scope.

(** ** Comparisons and operations of Etcd's client, those the allocator builds *)

Inductive Cmp :=
| CmpModRevision (key : string) (rev : Z)
| CmpCreateRevision (key : string) (rev : Z).

Inductive Op :=
| OpDelete (key : string)
| OpPut (key value : string) (lease : Z).

Record TxnResponse := mkTxnResponse { Succeeded : bool; tr_Revision : Z }.

Definition modRevisionUnchanged {D} (kv : KeyValue D) : Cmp := CmpModRevision (k_Key (Raw kv)) (k_ModRevision (Raw kv)).

(** The interface, with a value of the transaction's state in place of its mutation. An error of
    [Checkpoint] or [Commit] is a message. *)
Class checkpointTxn (T : Type) := {
  If : list Cmp → T → T;
  Then : list Op → T → T;
  Checkpoint : T → outcome (T * option string);
  Commit : T → outcome (T * option TxnResponse * option string);
}.

Definition maxTxnOps : nat := 128.

(** ** Batched transactions *)

Section batched.
(** Etcd: a state that answers a transaction. *)
Context {W : Type} (txnDo : W → list Cmp → list Op → W * (TxnResponse + string)).

Record batchedTxn := mkBatched {
  b_world : W;
  b_cmps : list Cmp;
  b_ops : list Op;
  b_nextCmps : list Cmp;
  b_nextOps : list Op;
  b_fixedCmps : list Cmp;
  b_noop : bool;
}.

Definition newBatchedTxn (w : W) (fixedCmps : list Cmp) : outcome batchedTxn :=
  if (maxTxnOps <=? length fixedCmps)%nat then Panic "too many fixedCmps" else Ret (mkBatched w [] [] [] [] fixedCmps true).

Definition batched_If (c : list Cmp) (b : batchedTxn) : batchedTxn :=
  mkBatched (b_world b) (b_cmps b) (b_ops b) (b_nextCmps b ++ c) (b_nextOps b) (b_fixedCmps b) (b_noop b).

Definition batched_Then (o : list Op) (b : batchedTxn) : batchedTxn :=
  mkBatched (b_world b) (b_cmps b) (b_ops b) (b_nextCmps b) (b_nextOps b ++ o) (b_fixedCmps b) (b_noop b).

Definition batched_Commit (b : batchedTxn) : outcome (batchedTxn * option TxnResponse * option string) :=
  if negb (length (b_nextCmps b) =? 0)%nat || negb (length (b_nextOps b) =? 0)%nat then Panic "must call Checkpoint before Commit"
  else
    let '(w, r) := txnDo (b_world b) (b_cmps b) (b_ops b) in
    match r with
    | inr err => Ret (mkBatched w (b_cmps b) (b_ops b) (b_nextCmps b) (b_nextOps b) (b_fixedCmps b) (b_noop b), None, Some err)
    | inl r =>
        if Succeeded r then
          let noop := if (0 <? length (b_ops b))%nat then false else b_noop b in
          Ret (mkBatched w [] [] (b_nextCmps b) (b_nextOps b) (b_fixedCmps b) noop, Some r, None)
        else
          Ret (mkBatched w (b_cmps b) (b_ops b) (b_nextCmps b) (b_nextOps b) (b_fixedCmps b) (b_noop b), Some r,
               Some "transaction checks did not succeed")
    end.

Definition batched_Checkpoint (b : batchedTxn) : outcome (batchedTxn * option string) :=
  let cmps := if (length (b_cmps b) =? 0)%nat then b_cmps b ++ b_fixedCmps b else b_cmps b in
  let nc := b_nextCmps b in
  let no := b_nextOps b in
  let b := mkBatched (b_world b) cmps (b_ops b) [] [] (b_fixedCmps b) (b_noop b) in
  let add (b : batchedTxn) := mkBatched (b_world b) (b_cmps b ++ nc) (b_ops b ++ no) (b_nextCmps b) (b_nextOps b) (b_fixedCmps b) (b_noop b) in
  let lc := (length (b_cmps b) + length nc)%nat in
  let lo := (length (b_ops b) + length no)%nat in
  if (maxTxnOps <? lc)%nat || (maxTxnOps <? lo)%nat then
    let! (b, _, err) := batched_Commit b in
    match err with
    | Some err => Ret (b, Some err)
    | None => Ret (add (mkBatched (b_world b) (b_cmps b ++ b_fixedCmps b) (b_ops b) (b_nextCmps b) (b_nextOps b) (b_fixedCmps b) (b_noop b)), None)
    end
  else Ret (add b, None).

#[global] Instance batchedTxn_checkpointTxn : checkpointTxn batchedTxn :=
  {| If := batched_If; Then := batched_Then; Checkpoint := batched_Checkpoint; Commit := batched_Commit |}.
End batched.
Arguments batchedTxn W : clear implicits.

(** ** Laws of the interface *)

(** [If] and [Then] collect what the next checkpoint has. *)
Class checkpointLaws (T : Type) `{checkpointTxn T} : Prop := {
  If_nil (t : T) : If [] t = t;
  Then_nil (t : T) : Then [] t = t;
  If_If c1 c2 (t : T) : If c2 (If c1 t) = If (c1 ++ c2) t;
  Then_Then o1 o2 (t : T) : Then o2 (Then o1 t) = Then (o1 ++ o2) t;
  If_Then c o (t : T) : If c (Then o t) = Then o (If c t);
}.

#[global] Instance batchedTxn_laws {W} (txnDo : W → list Cmp → list Op → W * (TxnResponse + string)) :
  @checkpointLaws (batchedTxn W) (batchedTxn_checkpointTxn txnDo).
Proof.
  split; cbn; unfold batched_If, batched_Then; cbn; intros.
  - destruct t; cbn. by rewrite app_nil_r.
  - destruct t; cbn. by rewrite app_nil_r.
  - by rewrite app_assoc.
  - by rewrite app_assoc.
  - done.
Qed.

(** ** What a client of the interface does *)

(** The comparisons and operations of a checkpoint. *)
Definition checkpoint : Type := list Cmp * list Op.

Section client.
Context {T : Type} `{checkpointTxn T}.

(** Checkpoints in order, up to the first error. *)
Fixpoint run_checkpoints (b : T) (l : list checkpoint) : outcome (T * option string) :=
  match l with
  | [] => Ret (b, None)
  | (c, o) :: l =>
      let! (b, err) := Checkpoint (Then o (If c b)) in
      match err with Some err => Ret (b, Some err) | None => run_checkpoints b l end
  end.

(** Checkpoints, and then the commit. *)
Definition run_batch (b : T) (l : list checkpoint) : outcome (T * option string) :=
  let! (b, err) := run_checkpoints b l in
  match err with
  | Some err => Ret (b, Some err)
  | None => let! (b, _, err) := Commit b in Ret (b, err)
  end.
End client.

(** ** Transactions that are issued *)

Section issued.
Context {W : Type} (txnDo : W → list Cmp → list Op → W * (TxnResponse + string)).

(** Etcd with a log of its transactions and answers. *)
Record entry := mkEntry { e_cmps : list Cmp; e_ops : list Op; e_answer : TxnResponse + string }.

Definition logged (wl : W * list entry) (c : list Cmp) (o : list Op) : (W * list entry) * (TxnResponse + string) :=
  let '(w, r) := txnDo (fst wl) c o in ((w, snd wl ++ [mkEntry c o r]), r).

Definition accepted (e : entry) : bool := match e_answer e with inl r => Succeeded r | inr _ => false end.

Abbreviation B := (batchedTxn (W * list entry)).
#[local] Instance logged_txn : checkpointTxn B := batchedTxn_checkpointTxn logged.

(** The transaction of a group of checkpoints. *)
Definition is_group (fixed : list Cmp) (e : entry) (g : list checkpoint) : Prop :=
  e_cmps e = fixed ++ concat (fst <$> g) ∧ e_ops e = concat (snd <$> g).

Definition small (fixed : list Cmp) (cp : checkpoint) : Prop :=
  (length fixed + length (fst cp) ≤ maxTxnOps ∧ length (snd cp) ≤ maxTxnOps)%nat.

Definition entry_small (e : entry) : Prop := (length (e_cmps e) ≤ maxTxnOps ∧ length (e_ops e) ≤ maxTxnOps)%nat.

(** Between checkpoints: [groups] went out in the transactions [es], [pend] waits. *)
Record batching (fixed : list Cmp) (groups : list (list checkpoint)) (pend : list checkpoint) (es : list entry) (b : B) : Prop := {
  bt_fixed : b_fixedCmps b = fixed;
  bt_next : b_nextCmps b = [] ∧ b_nextOps b = [];
  bt_log : snd (b_world b) = es;
  bt_groups : Forall2 (is_group fixed) es groups;
  bt_accepted : Forall (λ e, accepted e = true) es;
  bt_cmps : b_cmps b = fixed ++ concat (fst <$> pend) ∨ pend = [] ∧ b_cmps b = [];
  bt_ops : b_ops b = concat (snd <$> pend);
  bt_noop : b_noop b = forallb (λ e, length (e_ops e) =? 0)%nat es;
  bt_small : (length fixed ≤ maxTxnOps)%nat → Forall (Forall (small fixed)) groups → Forall (small fixed) pend →
    (length (b_cmps b) ≤ maxTxnOps ∧ length (b_ops b) ≤ maxTxnOps)%nat ∧ Forall entry_small es;
}.

Lemma commit_batch fixed groups pend es b : batching fixed groups pend es b → b_cmps b = fixed ++ concat (fst <$> pend) →
  ∃ b' r err e, batched_Commit logged b = Ret (b', r, err) ∧ is_group fixed e pend ∧
    e_cmps e = b_cmps b ∧ e_ops e = b_ops b ∧
    match err with
    | None => accepted e = true ∧ b_cmps b' = [] ∧ batching fixed (groups ++ [pend]) [] (es ++ [e]) b'
    | Some _ => accepted e = false ∧ snd (b_world b') = es ++ [e]
    end.
Proof.
  intros [Hf [Hnc Hno] Hl Hg Ha _ Ho Hn Hsm] Hc. unfold batched_Commit. rewrite Hnc, Hno. cbn [length Nat.eqb negb orb].
  destruct b as [[w log] cmps ops nc no fx noop]. cbn in *. subst. unfold logged. cbn.
  destruct (txnDo w (fixed ++ concat (fst <$> pend)) (concat (snd <$> pend))) as [w' [r|err]] eqn:Hdo; cbn.
  - destruct (Succeeded r) eqn:Hs.
    + eexists _, _, _, (mkEntry _ _ (inl r)). split; [done|]. cbn. split_and!; try done.
      split; cbn; try done; [by apply Forall2_app; [|repeat constructor]|by apply Forall_app; split; [|repeat constructor]|by right| |].
      * rewrite forallb_app. cbn. rewrite andb_true_r. destruct (concat (snd <$> pend)); cbn; [by rewrite andb_true_r|by rewrite andb_false_r].
      * intros Hfx Hgs _. apply Forall_app in Hgs as [Hgs Hp%Forall_inv]. destruct (Hsm Hfx Hgs Hp) as [Hb He].
        split; [lia|]. apply Forall_app. split; [done|]. by apply Forall_singleton.
    + eexists _, _, _, (mkEntry _ _ (inl r)). split; [done|]. by cbn.
  - eexists _, _, _, (mkEntry _ _ (inr err)). split; [done|]. by cbn.
Qed.

(** The batch as a checkpoint finds it. *)
Definition started (b : B) : B :=
  mkBatched (b_world b) (if (length (b_cmps b) =? 0)%nat then b_cmps b ++ b_fixedCmps b else b_cmps b) (b_ops b) [] [] (b_fixedCmps b) (b_noop b).

Lemma started_batch fixed groups pend es b : batching fixed groups pend es b →
  batching fixed groups pend es (started b) ∧ b_cmps (started b) = fixed ++ concat (fst <$> pend).
Proof.
  intros [Hf Hnx Hl Hg Ha Hc Ho Hn Hsm].
  assert (b_cmps (started b) = fixed ++ concat (fst <$> pend)) as Hc'.
  { cbn. destruct Hc as [Hc|[-> Hc]]; rewrite Hc, Hf; [|by cbn; rewrite app_nil_r].
    destruct (Nat.eqb_spec (length (fixed ++ concat (fst <$> pend))) 0) as [H0|]; [|done].
    apply nil_length_inv, app_nil in H0 as [-> ->]. done. }
  split; [|done]. split; try done; [by left|]. intros Hfx Hgs Hp. specialize (Hsm Hfx Hgs Hp) as [[H1 H2] H3].
  split; [|done]. rewrite Hc'. cbn. split; [|done]. destruct Hc as [Hc|[-> _]]; [by rewrite <- Hc|]. cbn. by rewrite app_nil_r.
Qed.

Definition queued (c : list Cmp) (o : list Op) (b : B) : B :=
  mkBatched (b_world b) (b_cmps b ++ c) (b_ops b ++ o) (b_nextCmps b) (b_nextOps b) (b_fixedCmps b) (b_noop b).

Lemma queue_batch fixed groups pend es b c o : batching fixed groups pend es b → b_cmps b = fixed ++ concat (fst <$> pend) →
  (Forall (small fixed) (pend ++ [(c, o)]) → (length (b_cmps b) + length c ≤ maxTxnOps ∧ length (b_ops b) + length o ≤ maxTxnOps)%nat) →
  batching fixed groups (pend ++ [(c, o)]) es (queued c o b).
Proof.
  intros [Hf Hnx Hl Hg Ha _ Ho Hn Hsm] Hc Hfit. split; cbn; try done.
  - left. rewrite Hc, fmap_app, concat_app. cbn. by rewrite app_nil_r, app_assoc.
  - rewrite Ho, fmap_app, concat_app. cbn. by rewrite app_nil_r.
  - intros Hfx Hgs Hp. specialize (Hfit Hp). apply Forall_app in Hp as [Hp _]. destruct (Hsm Hfx Hgs Hp) as [_ He].
    rewrite !length_app. split; [lia|done].
Qed.

Lemma Checkpoint_started b c o : b_nextCmps b = [] → b_nextOps b = [] →
  Checkpoint (Then o (If c b)) =
    if (maxTxnOps <? length (b_cmps (started b)) + length c)%nat || (maxTxnOps <? length (b_ops (started b)) + length o)%nat then
      let! (b, _, err) := batched_Commit logged (started b) in
      match err with
      | Some err => Ret (b, Some err)
      | None => Ret (queued c o (mkBatched (b_world b) (b_cmps b ++ b_fixedCmps b) (b_ops b) (b_nextCmps b) (b_nextOps b) (b_fixedCmps b) (b_noop b)), None)
      end
    else Ret (queued c o (started b), None).
Proof. intros Hc Ho. cbn. unfold batched_Checkpoint, batched_Then, batched_If. cbn. by rewrite Hc, Ho. Qed.

Lemma checkpoint_batch fixed groups pend es b c o : batching fixed groups pend es b →
  ∃ b' err, Checkpoint (Then o (If c b)) = Ret (b', err) ∧
    match err with
    | None => ∃ groups' pend' es', concat groups' ++ pend' = concat groups ++ pend ++ [(c, o)] ∧
        batching fixed groups' pend' es' b' ∧ b_cmps b' = fixed ++ concat (fst <$> pend')
    | Some _ => ∃ e, snd (b_world b') = es ++ [e] ∧ is_group fixed e pend ∧ accepted e = false ∧
        ((length fixed ≤ maxTxnOps)%nat → Forall (Forall (small fixed)) groups → Forall (small fixed) pend → entry_small e)
    end.
Proof.
  intros Hb. pose proof (bt_next _ _ _ _ _ Hb) as [Hnc Hno]. destruct (started_batch _ _ _ _ _ Hb) as [Hst Hc].
  rewrite Checkpoint_started by done. set (b1 := started b) in *.
  destruct ((maxTxnOps <? length (b_cmps b1) + length c)%nat || (maxTxnOps <? length (b_ops b1) + length o)%nat) eqn:Hbig.
  - destruct (commit_batch _ _ _ _ _ Hst Hc) as (b2 & r & err & e & -> & He & He1 & He2 & Hcase). cbn [outcome_bind].
    destruct err as [err|]; eexists _, _; (split; [done|]).
    + destruct Hcase as [Hacc Hlog]. exists e. split_and!; try done. intros Hfx Hgs Hp.
      destruct (bt_small _ _ _ _ _ Hst Hfx Hgs Hp) as [? _]. unfold entry_small. by rewrite He1, He2.
    + destruct Hcase as (Hacc & Hc2 & Hb2). pose proof (started_batch _ _ _ _ _ Hb2) as [Hst2 Hcs2].
      exists (groups ++ [pend]), [(c, o)], (es ++ [e]). split; [rewrite concat_app; cbn; by rewrite app_nil_r, app_assoc|].
      pose proof (bt_next _ _ _ _ _ Hb2) as [Hnc2 Hno2]. pose proof (bt_ops _ _ _ _ _ Hb2) as Ho2. cbn in Ho2.
      assert (b_cmps b2 ++ b_fixedCmps b2 = fixed ++ []) as Hcc by (by rewrite Hc2, app_nil_r, (bt_fixed _ _ _ _ _ Hb2)).
      split; [|cbn; rewrite Hcc; cbn; by rewrite !app_nil_r].
      refine (queue_batch _ _ [] _ (mkBatched (b_world b2) (b_cmps b2 ++ b_fixedCmps b2) (b_ops b2) (b_nextCmps b2) (b_nextOps b2) _ _) _ _ _ Hcc _).
      * unfold started in Hst2. rewrite Hc2 in Hst2 |- *. cbn in Hst2. by rewrite Hnc2, Hno2.
      * intros [Hs1 Hs2]%Forall_inv. cbn in *. rewrite Hcc, Ho2, app_nil_r. cbn. lia.
  - apply orb_false_iff in Hbig as [H1%Nat.ltb_ge H2%Nat.ltb_ge]. eexists _, _; (split; [done|]).
    exists groups, (pend ++ [(c, o)]), es. split; [done|]. split; [by apply queue_batch|].
    cbn [queued b_cmps]. rewrite Hc, fmap_app, concat_app. cbn. by rewrite app_nil_r, app_assoc.
Qed.

(** What is issued for the checkpoints [cps], with the error that is returned. *)
Definition issues (fixed : list Cmp) (cps : list checkpoint) (b : B) (err : option string) : Prop :=
  ∃ groups rest, Forall2 (is_group fixed) (snd (b_world b)) groups ∧ cps = concat groups ++ rest ∧
    ((length fixed ≤ maxTxnOps)%nat → Forall (small fixed) cps → Forall entry_small (snd (b_world b))) ∧
    match err with
    | None => rest = [] ∧ Forall (λ e, accepted e = true) (snd (b_world b)) ∧
        b_noop b = forallb (λ e, length (e_ops e) =? 0)%nat (snd (b_world b))
    | Some _ => ∃ es e, snd (b_world b) = es ++ [e] ∧ Forall (λ e, accepted e = true) es ∧ accepted e = false
    end.

Lemma Forall_concat {A} (P : A → Prop) (ls : list (list A)) : Forall P (concat ls) → Forall (Forall P) ls.
Proof. induction ls as [|l ls IH]; cbn; [by constructor|]. intros [? ?]%Forall_app. constructor; auto. Qed.

(** A failed transaction ends it. *)
Lemma issues_failed fixed groups pend rest es e b err : batching fixed groups pend es b →
  is_group fixed e pend → accepted e = false →
  ((length fixed ≤ maxTxnOps)%nat → Forall (Forall (small fixed)) groups → Forall (small fixed) pend → entry_small e) →
  ∀ b', snd (b_world b') = es ++ [e] → issues fixed (concat groups ++ pend ++ rest) b' (Some err).
Proof.
  intros Hb He Hacc Hsm b' Hlog. exists (groups ++ [pend]), rest. rewrite Hlog. split_and!.
  - apply Forall2_app; [by destruct Hb|by constructor; [|constructor]].
  - rewrite concat_app. cbn. by rewrite app_nil_r, <- app_assoc.
  - intros Hfx [Hg%Forall_concat [Hp _]%Forall_app]%Forall_app. apply Forall_app. split; [|apply Forall_singleton; by apply Hsm].
    by apply (bt_small _ _ _ _ _ Hb).
  - exists es, e. split_and!; [done|by destruct Hb|done].
Qed.

Lemma run_batch_issues fixed l : ∀ groups pend es b, batching fixed groups pend es b →
  l ≠ [] ∨ b_cmps b = fixed ++ concat (fst <$> pend) →
  ∃ b' err, run_batch b l = Ret (b', err) ∧ issues fixed (concat groups ++ pend ++ l) b' err.
Proof.
  induction l as [|[c o] l IH]; intros groups pend es b Hb Hc; unfold run_batch; cbn [run_checkpoints outcome_bind].
  - destruct Hc as [|Hc]; [done|]. destruct (commit_batch _ _ _ _ _ Hb Hc) as (b' & r & err & e & Hcm & He & He1 & He2 & Hcase).
    cbn [Commit logged_txn batchedTxn_checkpointTxn]. rewrite Hcm. cbn [outcome_bind]. eexists _, _. split; [done|]. destruct err as [err|].
    + destruct Hcase as [Hacc Hlog]. eapply issues_failed; try done. intros Hfx Hg Hp. unfold entry_small. rewrite He1, He2.
      by apply (bt_small _ _ _ _ _ Hb).
    + destruct Hcase as (Hacc & _ & Hb'). exists (groups ++ [pend]), []. rewrite (bt_log _ _ _ _ _ Hb'). split_and!; try by destruct Hb'.
      * rewrite concat_app. cbn. by rewrite !app_nil_r.
      * intros Hfx [Hg%Forall_concat [Hp _]%Forall_app]%Forall_app. apply (bt_small _ _ _ _ _ Hb'); [done| |constructor].
        apply Forall_app. split; [done|by repeat constructor].
  - destruct (checkpoint_batch _ _ _ _ _ c o Hb) as (b1 & err & -> & Hcase). cbn [outcome_bind]. destruct err as [err|].
    + destruct Hcase as (e & Hlog & He & Hacc & Hsm). eexists _, _. split; [done|]. by eapply issues_failed.
    + destruct Hcase as (groups' & pend' & es' & Heq & Hb1 & Hc1). destruct (IH groups' pend' es' b1 Hb1 (or_intror Hc1)) as (b' & err & Hrun & Hiss).
      exists b', err. split; [exact Hrun|].
      rewrite (app_assoc (concat groups')), Heq, <- !app_assoc in Hiss. exact Hiss.
Qed.

(** A batch issues its checkpoints once, in order, each whole within one transaction, and
    every transaction has the fixed comparisons. Transactions stay within the operations that
    Etcd admits, provided each checkpoint does on its own. The first transaction that Etcd
    does not accept ends the batch with an error; without an error all checkpoints have been
    accepted, and the batch is a no-op if they had no operations. *)
Theorem batch_issues fixed w cps b : newBatchedTxn (w, []) fixed = Ret b → cps ≠ [] →
  ∃ b' err, run_batch b cps = Ret (b', err) ∧ issues fixed cps b' err.
Proof.
  unfold newBatchedTxn. case_match; [done|]. intros [= <-] Hne.
  apply (run_batch_issues fixed cps [] [] []); [|by left]. split; cbn; try done; [by right|]. intros. split; [lia|done].
Qed.
End issued.

(** A batch whose first transaction is full, and whose second one Etcd does not accept. *)
Definition refuse_second (w : nat) (c : list Cmp) (o : list Op) : nat * (TxnResponse + string) :=
  (S w, inl (mkTxnResponse (w =? 0)%nat 10)).

Definition two_checkpoints : list checkpoint :=
  [([CmpModRevision "a" 1], replicate 100 (OpDelete "a")); ([CmpModRevision "b" 2], replicate 100 (OpDelete "b"))].

Lemma batch_issues_witness :
  ∃ b', @run_batch _ (batchedTxn_checkpointTxn (logged refuse_second)) (mkBatched (0%nat, []) [] [] [] [] [CmpModRevision "leader" 7] true)
      two_checkpoints = Ret (b', Some "transaction checks did not succeed") ∧
    (length <$> (e_ops <$> snd (b_world b'))) = [100%nat; 100%nat] ∧ b_noop b' = false.
Proof.
  destruct (batch_issues refuse_second [CmpModRevision "leader" 7] 0%nat two_checkpoints
    (mkBatched (0%nat, []) [] [] [] [] [CmpModRevision "leader" 7] true) eq_refl ltac:(discriminate)) as (b' & err & Hrun & _).
  exists b'. assert (err = Some "transaction checks did not succeed" ∧ (length <$> (e_ops <$> snd (b_world b'))) = [100%nat; 100%nat] ∧ b_noop b' = false) as (-> & ? & ?).
  { vm_compute in Hrun. injection Hrun as <- <-. vm_compute. repeat split. }
  split; [exact Hrun|split; assumption].
Defined.
