(* ===== verification/ItemState.v ===== *)
(** * Convergence of assignments (src/v2/pkg/allocator/item_state.go and [converge] of allocator.go)

    The leader brings the assignments of each item closer to the desired ones, within the limits
    of members and the replication of items. The theorems: what [init] derives, that removals
    keep the replication of an item, that additions keep the limits of members, what a round does
    to the assignments of an item, and that [converge] gives every item one checkpoint and removes
    the assignments that have no item. *)
From S2P Require Import Prelude Encoding Protocol FragmentName KeySpace AllocKeys AllocState AllocTxn.
From Stdlib Require Import SpecFloat.
Local Open Scope Z_scope.

(** ** [sort.Slice] *)

(** A sort by a comparison that may panic. What the package documents: the slice is sorted, given
    that the comparison is a strict weak order; it is not stable. *)
Class SliceSort := {
  sort_Slice {A} (less : A → A → outcome bool) (l : list A) : outcome (list A);
  sort_perm {A} (less : A → A → outcome bool) (l : list A) :
    (∀ x y, x ∈ l → y ∈ l → ∃ c, less x y = Ret c) → ∃ l', sort_Slice less l = Ret l' ∧ l' ≡ₚ l;
  sort_sorted {A} (less : A → A → outcome bool) (f : A → A → bool) :
    (∀ x, f x x = false) → (∀ x y z, f x y = true → f y z = true → f x z = true) →
    (∀ x y z, f x y = false → f y z = false → f x z = false) →
    ∀ l l' : list A, (∀ x y, x ∈ l → y ∈ l → less x y = Ret (f x y)) →
    sort_Slice less l = Ret l' → StronglySorted (λ x y, f y x = false) l';
}.

(** The insertion sort that the package uses for slices of less than 12 elements: an element moves
    to the left past those it is less than. [r] is the sorted part, from its end. *)
Section insertion_sort.
Context {A : Type} (less : A → A → outcome bool).

Fixpoint insert_right (x : A) (r : list A) : outcome (list A) :=
  match r with
  | [] => Ret [x]
  | y :: r' =>
      let! c := less x y in
      if c : bool then let! r' := insert_right x r' in Ret (y :: r') else Ret (x :: r)
  end.

Definition insertion_sort (l : list A) : outcome (list A) :=
  let! r := outcome_fold (λ r x, insert_right x r) [] l in Ret (rev r).

Lemma insert_right_perm x r : (∀ y, y ∈ r → ∃ c, less x y = Ret c) → ∃ r', insert_right x r = Ret r' ∧ r' ≡ₚ x :: r.
Proof.
  induction r as [|y r IH]; intros H; cbn [insert_right]; [by exists [x]|].
  destruct (H y ltac:(by left)) as [c ->]. cbn [outcome_bind]. destruct c; [|by eexists].
  destruct IH as (r' & -> & Hp); [intros; apply H; by right|]. cbn [outcome_bind]. exists (y :: r'). split; [done|].
  rewrite Hp. apply Permutation_swap.
Qed.

Lemma insert_fold_perm l : ∀ r, (∀ x y, x ∈ r ++ l → y ∈ r ++ l → ∃ c, less x y = Ret c) →
  ∃ r', outcome_fold (λ r x, insert_right x r) r l = Ret r' ∧ r' ≡ₚ r ++ l.
Proof.
  induction l as [|x l IH]; intros r H; cbn [outcome_fold]; [exists r; by rewrite app_nil_r|].
  destruct (insert_right_perm x r) as (r1 & -> & Hp).
  { intros y Hy. apply H; apply elem_of_app; [right; by left|by left]. }
  cbn [outcome_bind]. assert (r1 ++ l ≡ₚ r ++ x :: l) as Hp'.
  { rewrite Hp. cbn. apply Permutation_middle. }
  destruct (IH r1) as (r' & -> & Hr); [intros a b; rewrite Hp'; apply H|]. exists r'. split; [done|]. by rewrite Hr.
Qed.

Lemma insertion_sort_perm l : (∀ x y, x ∈ l → y ∈ l → ∃ c, less x y = Ret c) → ∃ l', insertion_sort l = Ret l' ∧ l' ≡ₚ l.
Proof.
  intros H. unfold insertion_sort. destruct (insert_fold_perm l [] H) as (r & -> & Hp). exists (rev r). split; [done|].
  rewrite <- Hp. symmetry. apply Permutation_rev.
Qed.

Section sorted.
Context (f : A → A → bool) (Hirr : ∀ x, f x x = false) (Htr : ∀ x y z, f x y = true → f y z = true → f x z = true)
  (Hneg : ∀ x y z, f x y = false → f y z = false → f x z = false).

Lemma insert_right_sorted x r r' : (∀ y, y ∈ r → less x y = Ret (f x y)) →
  StronglySorted (λ x y, f x y = false) r → insert_right x r = Ret r' → StronglySorted (λ x y, f x y = false) r'.
Proof.
  revert r'. induction r as [|y r IH]; intros r' Hl Hs; cbn [insert_right]; [intros [= <-]; repeat constructor|].
  apply StronglySorted_inv in Hs as [Hs Hy]. rewrite (Hl y) by left. cbn [outcome_bind]. destruct (f x y) eqn:Hxy.
  - destruct (insert_right_perm x r) as (r1 & Hr1 & Hp); [intros; eexists; apply Hl; by right|]. rewrite Hr1. cbn [outcome_bind].
    intros [= <-]. constructor; [apply IH; [intros; apply Hl; by right|done..]|]. rewrite Hp. constructor; [|done].
    destruct (f y x) eqn:Hyx; [|done]. by rewrite <- (Hirr x), (Htr x y x).
  - intros [= <-]. constructor; [by constructor|]. constructor; [done|]. rewrite Forall_forall in *. intros z Hz. eapply Hneg; eauto.
Qed.

Lemma insertion_sort_sorted l l' : (∀ x y, x ∈ l → y ∈ l → less x y = Ret (f x y)) →
  insertion_sort l = Ret l' → StronglySorted (λ x y, f y x = false) l'.
Proof.
  intros Hl. unfold insertion_sort. rewrite outcome_bind_Ret. intros (r & Hr & [= <-]).
  assert (∀ l r0 r, (∀ x y, x ∈ r0 ++ l → y ∈ r0 ++ l → less x y = Ret (f x y)) → StronglySorted (λ x y, f x y = false) r0 →
    outcome_fold (λ r x, insert_right x r) r0 l = Ret r → StronglySorted (λ x y, f x y = false) r) as H.
  { clear l Hl r Hr. intros l. induction l as [|x l IH]; intros r0 r Hl Hs; cbn [outcome_fold]; [by intros [= <-]|].
    rewrite outcome_bind_Ret. intros (r1 & Hr1 & Hr).
    destruct (insert_right_perm x r0) as (r1' & Hr1' & Hp).
    { intros y Hy. eexists. apply Hl; apply elem_of_app; [right; by left|by left]. }
    assert (r1' = r1) as -> by congruence. apply (IH r1); [|eapply insert_right_sorted; [|exact Hs|exact Hr1]|done].
    - assert (r1 ++ l ≡ₚ r0 ++ x :: l) as Hp' by (rewrite Hp; cbn; apply Permutation_middle). intros a b. rewrite Hp'. apply Hl.
    - intros y Hy. apply Hl; apply elem_of_app; [right; by left|by left]. }
  pose proof (H l [] r Hl (SSorted_nil _) Hr) as Hs. clear H Hr. induction Hs as [|x r Hs IH Hx]; cbn [rev]; [constructor|].
  apply ssorted_app. split_and!; [done|repeat constructor|]. intros a b Ha ->%list_elem_of_singleton.
  rewrite Forall_forall in Hx. apply Hx. by rewrite list_elem_of_In, <- in_rev, <- list_elem_of_In in *.
Qed.
End sorted.
End insertion_sort.

#[global] Instance insertion_SliceSort : SliceSort :=
  {| sort_Slice := @insertion_sort; sort_perm := @insertion_sort_perm; sort_sorted := @insertion_sort_sorted |}.

(** [item.ItemValue] and [member.MemberValue] are of the user. *)
Section item_state.
Context {MV IV AV : Type} `{!MemberValue MV} `{!ItemValue MV IV AV} {Sort : SliceSort}.
Abbreviation E := (Entity MV IV AV).
Abbreviation KV := (KeyValue E).
Abbreviation kv_Key x := (k_Key (Raw x)).
Abbreviation Root s := (ks_Root (KS s)).

Record itemState := mkItemState {
  s_item : nat;
  s_current : list KV;
  s_add : list (Assignment AV);
  s_remove : list KV;
  s_reorder : list KV;
}.

Definition asAssignment (x : KV) : outcome (Assignment AV) :=
  match Decoded x with EntityAssignment a => Ret a | _ => Panic "interface conversion" end.

Definition with_Slot (a : Assignment AV) (slot : Z) : Assignment AV :=
  mkAssignment (as_ItemID a) (as_MemberZone a) (as_MemberSuffix a) slot (as_Value a).

(** ** [init] *)

Definition max_slot (nextSlot : Z) (x : KV) : outcome Z :=
  let! a := asAssignment x in
  let n := int64 (as_Slot a + 1) in
  Ret (if nextSlot <? n then n else nextSlot).

(** The joint walk of what is left of current and desired assignments. Each round takes one. *)
Fixpoint init_walk (fuel : nat) (current : list KV) (desired : list (Assignment AV)) (nextSlot : Z) (s : itemState) : outcome itemState :=
  match fuel with
  | O => Ret s
  | S fuel =>
      let remove x current := init_walk fuel current desired nextSlot
            (mkItemState (s_item s) (s_current s) (s_add s) (s_remove s ++ [x]) (s_reorder s)) in
      let add d desired := init_walk fuel current desired (int64 (nextSlot + 1))
            (mkItemState (s_item s) (s_current s) (s_add s ++ [with_Slot d nextSlot]) (s_remove s) (s_reorder s)) in
      match current, desired with
      | x :: current', d :: desired' =>
          let! a := asAssignment x in
          let c := compareAssignment a d in
          if 0 <? c then add d desired'
          else if c <? 0 then remove x current'
          else init_walk fuel current' desired' nextSlot
                 (mkItemState (s_item s) (s_current s) (s_add s) (s_remove s) (s_reorder s ++ [x]))
      | x :: current', [] => remove x current'
      | [], d :: desired' => add d desired'
      | [], [] => Ret s
      end
  end.

Definition init (item : nat) (current : list KV) (desired : list (Assignment AV)) : outcome itemState :=
  let! nextSlot := outcome_fold max_slot 0 current in
  init_walk (length current + length desired) current desired nextSlot (mkItemState item current [] [] []).

(** ** Constraints *)

Definition count_consistent (value : IV) (current : list KV) : Z :=
  foldl (λ n x, if IsConsistent value x current then n + 1 else n) 0 current.

(** The loop over removals: how many of them are kept. *)
Fixpoint removal_limit (value : IV) (current : list KV) (r n : Z) (remove : list KV) : nat :=
  match remove with
  | [] => 0
  | x :: remove =>
      if r <=? n then
        let c := IsConsistent value x current in
        if c && (n =? r) then 0 else S (removal_limit value current r (if c then n - 1 else n) remove)
      else 0
  end.

Definition constrainRemovals (g : State MV IV AV) (s : itemState) : outcome itemState :=
  let! remove := sort_Slice (λ x y,
    let! ri := memberLoadRatio g x (MemberTotalCount g) in
    let! rj := memberLoadRatio g y (MemberTotalCount g) in
    Ret (SFltb rj ri)) (s_remove s) in
  let! item := itemAt (Items g) (s_item s) in
  let n := count_consistent (it_Value item) (s_current s) in
  let limit := removal_limit (it_Value item) (s_current s) (DesiredReplication (it_Value item)) n remove in
  Ret (mkItemState (s_item s) (s_current s) (s_add s) (take limit remove) (s_reorder s ++ drop limit remove)).

(** A candidate for primary: its index, whether it is consistent, its load ratio. *)
Definition select_primary (g : State MV IV AV) (value : IV) (current : list KV)
    (primary : option (nat * bool * spec_float * KV)) (ix : nat * KV) : outcome (option (nat * bool * spec_float * KV)) :=
  let '(i, x) := ix in
  let c := IsConsistent value x current in
  let! r := memberLoadRatio g x (MemberPrimaryCount g) in
  Ret match primary with
      | None => Some (i, c, r, x)
      | Some (_, pc, pr, _) =>
          if (c && negb pc) || (Bool.eqb c pc && SFltb r pr) then Some (i, c, r, x) else primary
      end.

Definition constrainReorders (g : State MV IV AV) (s : itemState) : outcome itemState :=
  let! reorder := sort_Slice (λ x y,
    let! a := asAssignment x in let! b := asAssignment y in Ret (as_Slot a <? as_Slot b)) (s_reorder s) in
  let done reorder := Ret (mkItemState (s_item s) (s_current s) (s_add s) (s_remove s) reorder) in
  match reorder with
  | [] => done reorder
  | x :: _ =>
      let! a := asAssignment x in
      if as_Slot a =? 0 then done reorder
      else
        let! item := itemAt (Items g) (s_item s) in
        let! primary := outcome_fold (select_primary g (it_Value item) (s_current s)) None (zip (seq 0 (length reorder)) reorder) in
        match primary with
        | None => Panic "index out of range"
        | Some (index, _, _, kv) => done (kv :: take index reorder ++ drop (index + 1) reorder)
        end
  end.

(** [constrainAdds] keeps the additions of members that have room. *)
Fixpoint constrain_adds (g : State MV IV AV) (add : list (Assignment AV)) : outcome (list (Assignment AV)) :=
  match add with
  | [] => Ret []
  | a :: add =>
      let! key := MemberKey (Root g) (as_MemberZone a) (as_MemberSuffix a) in
      let '(ind, found) := Search (Members g) key in
      if negb found then Panic "member not found"
      else
        let! m := memberAt (Members g) ind in
        match MemberTotalCount g !! ind with
        | None => Panic "index out of range"
        | Some n =>
            if ItemLimit (mb_Value m) <=? n then constrain_adds g add
            else let! add := constrain_adds g add in Ret (a :: add)
        end
  end.

Definition constrainAdds (g : State MV IV AV) (s : itemState) : outcome itemState :=
  let! add := constrain_adds g (s_add s) in
  Ret (mkItemState (s_item s) (s_current s) add (s_remove s) (s_reorder s)).

(** ** Operations *)

Section build.
Context {T : Type} `{checkpointTxn T}.

Definition with_counts (g : State MV IV AV) (total primary : list Z) : State MV IV AV :=
  mkState (KS g) (LocalKey g) (Members g) (Items g) (Assignments g) (LocalMemberInd g) (LocalItems g) (Zones g) (ZoneSlots g)
    (ItemSlots g) (NetworkHash g) total primary.

(** The counts of the member at [ind] change by [d], the primary count where [primary]. *)
Definition count_member (g : State MV IV AV) (ind : nat) (primary : bool) (d : Z) : outcome (State MV IV AV) :=
  let! p := if primary then add_at (MemberPrimaryCount g) ind d else Ret (MemberPrimaryCount g) in
  let! t := add_at (MemberTotalCount g) ind d in
  Ret (with_counts g t p).

Definition build_remove (item : nat) (gt : State MV IV AV * T) (ix : nat * KV) : outcome (State MV IV AV * T) :=
  let '(g, t) := gt in
  let '(i, r) := ix in
  let! t := if (i =? 0)%nat then match Items g !! item with Some x => Ret (If [modRevisionUnchanged x] t) | None => Panic "index out of range" end
            else Ret t in
  let t := If [modRevisionUnchanged r] t in
  let t := Then [OpDelete (kv_Key r)] t in
  let! a := asAssignment r in
  let! key := MemberKey (Root g) (as_MemberZone a) (as_MemberSuffix a) in
  let '(ind, found) := Search (Members g) key in
  if found : bool then let! g := count_member g ind (as_Slot a =? 0) (-1) in Ret (g, t)
  else Ret (g, t).

Definition buildRemoveOps (g : State MV IV AV) (s : itemState) (t : T) : outcome (State MV IV AV * T) :=
  outcome_fold (build_remove (s_item s)) (g, t) (zip (seq 0 (length (s_remove s))) (s_remove s)).

Definition buildMoveOps (g : State MV IV AV) (t : T) (cur : KV) (a : Assignment AV) : outcome T :=
  let! key := AssignmentKey (Root g) a in
  Ret (Then [OpDelete (kv_Key cur); OpPut key (k_Value (Raw cur)) (k_Lease (Raw cur))] (If [modRevisionUnchanged cur] t)).

Definition buildPromoteOps (g : State MV IV AV) (s : itemState) (t : T) : outcome (State MV IV AV * T) :=
  match s_reorder s with
  | [] => Ret (g, t)
  | x :: _ =>
      let! a := asAssignment x in
      if as_Slot a =? 0 then Ret (g, t)
      else
        let a := with_Slot a 0 in
        let! key := MemberKey (Root g) (as_MemberZone a) (as_MemberSuffix a) in
        let '(ind, found) := Search (Members g) key in
        let! g := if found : bool then let! p := add_at (MemberPrimaryCount g) ind 1 in Ret (with_counts g (MemberTotalCount g) p) else Ret g in
        let! t := buildMoveOps g t x a in
        Ret (g, t)
  end.

Definition build_add (gt : State MV IV AV * T) (a : Assignment AV) : outcome (State MV IV AV * T) :=
  let '(g, t) := gt in
  let! key := MemberKey (Root g) (as_MemberZone a) (as_MemberSuffix a) in
  let '(ind, found) := Search (Members g) key in
  if negb found then Panic "member not found"
  else
    match Members g !! ind with
    | None => Panic "index out of range"
    | Some m =>
        let t := If [modRevisionUnchanged m] t in
        let! key := AssignmentKey (Root g) a in
        let t := Then [OpPut key "" (k_Lease (Raw m))] t in
        let! g := count_member g ind (as_Slot a =? 0) 1 in
        Ret (g, t)
    end.

Definition buildAddOps (g : State MV IV AV) (s : itemState) (t : T) : outcome (State MV IV AV * T) :=
  outcome_fold build_add (g, t) (s_add s).

(** The first assignment from [i] on whose slot is not its index moves to it. *)
Fixpoint pack_from (g : State MV IV AV) (t : T) (i : nat) (reorder : list KV) : outcome T :=
  match reorder with
  | [] => Ret t
  | x :: reorder =>
      if (i =? 0)%nat then pack_from g t (S i) reorder
      else
        let! a := asAssignment x in
        if as_Slot a =? Z.of_nat i then pack_from g t (S i) reorder
        else buildMoveOps g t x (with_Slot a (Z.of_nat i))
  end.

Definition buildPackOps (g : State MV IV AV) (s : itemState) (t : T) : outcome T := pack_from g t 0 (s_reorder s).

Definition constrainAndBuildOps (g : State MV IV AV) (s : itemState) (t : T) : outcome (State MV IV AV * T * option string) :=
  let! s := constrainRemovals g s in
  let! s := constrainReorders g s in
  let! s := constrainAdds g s in
  let! (g, t) := buildAddOps g s t in
  let! (g, t) := buildRemoveOps g s t in
  let! (g, t) := buildPromoteOps g s t in
  let! t := if (length (s_add s) =? 0)%nat && (length (s_remove s) =? 0)%nat then buildPackOps g s t else Ret t in
  let! (t, err) := Checkpoint t in
  Ret (g, t, err).

(** ** [converge] *)

(** The number of leading assignments of [itemID]. *)
Fixpoint leading (itemID : string) (l : list KV) : outcome nat :=
  match l with
  | [] => Ret O
  | x :: l =>
      let! a := asAssignment x in
      if String.eqb (as_ItemID a) itemID then let! n := leading itemID l in Ret (S n) else Ret O
  end.

Fixpoint leading_desired (itemID : string) (l : list (Assignment AV)) : nat :=
  match l with
  | [] => O
  | d :: l => if String.eqb (as_ItemID d) itemID then S (leading_desired itemID l) else O
  end.

Definition delete_unchanged (t : T) (x : KV) : T := Then [OpDelete (kv_Key x)] (If [modRevisionUnchanged x] t).

(** Each round takes the assignments of one item. *)
Fixpoint remove_dead (fuel : nat) (root : string) (t : T) (asn : list KV) : outcome (T * option string) :=
  match fuel, asn with
  | S fuel, x :: rest =>
      let! a := asAssignment x in
      let! n := leading (as_ItemID a) rest in
      let! key := ItemKey root (as_ItemID a) in
      let t := If [CmpCreateRevision key 0] t in
      let t := foldl delete_unchanged t (take (S n) asn) in
      let! (t, err) := Checkpoint t in
      match err with
      | Some err => Ret (t, Some err)
      | None => remove_dead fuel root t (drop (S n) asn)
      end
  | _, _ => Ret (t, None)
  end.

Definition removeDeadAssignments (root : string) (t : T) (asn : list KV) : outcome (T * option string) :=
  remove_dead (length asn) root t asn.

Fixpoint converge_rows (g : State MV IV AV) (t : T) (lastCRE : nat) (desired : list (Assignment AV)) (rows : list LeftJoinCursor) :
    outcome (State MV IV AV * T * option string) :=
  match rows with
  | [] =>
      let! (t, err) := removeDeadAssignments (Root g) t (drop lastCRE (Assignments g)) in
      Ret (g, t, err)
  | cur :: rows =>
      if (RightBegin cur <? lastCRE)%nat then Panic "slice bounds out of range" else
      let! (t, err) := removeDeadAssignments (Root g) t (slice (Assignments g) lastCRE (RightBegin cur)) in
      match err with
      | Some err => Ret (g, t, Some err)
      | None =>
          let! item := itemAt (Items g) (Left cur) in
          let limit := leading_desired (it_ID item) desired in
          let! s := init (Left cur) (slice (Assignments g) (RightBegin cur) (RightEnd cur)) (take limit desired) in
          let! (g, t, err) := constrainAndBuildOps g s t in
          match err with
          | Some err => Ret (g, t, Some err)
          | None => converge_rows g t (RightEnd cur) (drop limit desired) rows
          end
      end
  end.

Definition converge (t : T) (g : State MV IV AV) (desired : list (Assignment AV)) : outcome (State MV IV AV * T * option string) :=
  let! rows := join_items (Items g) (Assignments g) in
  converge_rows g t 0 desired rows.
End build.
End item_state.
Arguments itemState MV IV AV : clear implicits.

(** ** What [init] derives *)

Section init_facts.
Context {MV IV AV : Type} `{!MemberValue MV} `{!ItemValue MV IV AV} {Sort : SliceSort}.
Abbreviation KV := (KeyValue (Entity MV IV AV)).

(** The item and member of an assignment, without its slot. *)
Definition tag (a : Assignment AV) : string * string * string := (as_ItemID a, as_MemberZone a, as_MemberSuffix a).

Definition asn (x : KV) : Assignment AV :=
  match Decoded x with EntityAssignment a => a | _ => mkAssignment "" "" "" 0 None end.

Abbreviation tags l := ((λ x, tag (asn x)) <$> l).

Lemma assignment_lt_trans (a b c : Assignment AV) : assignment_lt a b → assignment_lt b c → assignment_lt a c.
Proof.
  unfold assignment_lt. intros [H1|[E1 H1]] [H2|[E2 H2]]; [left; by trans (as_ItemID b)|left; congruence..|right]. split; [congruence|].
  destruct H1 as [H1|[F1 H1]], H2 as [H2|[F2 H2]]; [left; by trans (as_MemberZone b)|left; congruence..|right]. split; [congruence|].
  by trans (as_MemberSuffix b).
Qed.

Lemma assignment_lt_tag (a b : Assignment AV) : assignment_lt a b → tag a ≠ tag b.
Proof.
  intros H [= H1 H2 H3]. unfold assignment_lt in H. rewrite H1, H2, H3 in H.
  destruct H as [H|[_ [H|[_ H]]]]; by apply (irreflexivity str_lt) in H.
Qed.

Lemma asAssignment_asn (x : KV) : is_assignment x = true → asAssignment x = Ret (asn x).
Proof. unfold is_assignment, asAssignment, asn. by destruct (Decoded x). Qed.

Lemma compare_cases (a d : Assignment AV) :
  (compareAssignment a d = -1 ∧ assignment_lt a d) ∨ (compareAssignment a d = 0 ∧ tag a = tag d) ∨ (compareAssignment a d = 1 ∧ assignment_lt d a).
Proof.
  destruct (compareAssignment_spec a d) as [?|[[? (H1 & H2 & H3)]|?]]; auto. right; left. split; [done|]. unfold tag. congruence.
Qed.

Definition kept (desired : list (Assignment AV)) (current : list KV) : list KV := filter (λ x, tag (asn x) ∈ tag <$> desired) current.
Definition unwanted (desired : list (Assignment AV)) (current : list KV) : list KV := filter (λ x, tag (asn x) ∉ tag <$> desired) current.
Definition wanted (current : list KV) (desired : list (Assignment AV)) : list (Assignment AV) :=
  filter (λ d, tag d ∉ tags current) desired.

(** Additions take slots from [n] on. *)
Definition slotted (n : Z) (l : list (Assignment AV)) : list (Assignment AV) := imap (λ i d, with_Slot d (n + Z.of_nat i)) l.

Lemma slotted_cons n d l : slotted n (d :: l) = with_Slot d n :: slotted (n + 1) l.
Proof.
  unfold slotted. rewrite imap_cons. f_equal; [by rewrite Z.add_0_r|]. apply imap_ext. intros i x _. cbn. f_equal. lia.
Qed.

(** Heads of sorted lists that are below another list. *)
Lemma head_below (a : Assignment AV) l b : assignment_lt a b → Forall (assignment_lt b) l → tag a ∉ tag <$> b :: l.
Proof.
  intros Hab Hl Hin. apply list_elem_of_fmap in Hin as (c & Hc & [-> |Hin]%elem_of_cons); [by apply (assignment_lt_tag a b)|].
  rewrite Forall_forall in Hl. apply (assignment_lt_tag a c); [eapply assignment_lt_trans; eauto|done].
Qed.

Lemma head_absent (a b : Assignment AV) l : tag a = tag b → Forall (assignment_lt b) l → tag a ∉ tag <$> l.
Proof.
  intros Hab Hl (c & Hc & Hin)%list_elem_of_fmap. rewrite Forall_forall in Hl. apply (assignment_lt_tag b c); [auto|congruence].
Qed.

Lemma filter_iff_in {A} (P Q : A → Prop) `{∀ x, Decision (P x)} `{∀ x, Decision (Q x)} (l : list A) :
  (∀ x, x ∈ l → P x ↔ Q x) → filter P l = filter Q l.
Proof.
  induction l as [|x l IH]; intros HPQ; [done|]. rewrite !filter_cons, IH by (intros; apply HPQ; by right).
  specialize (HPQ x ltac:(by left)). repeat case_decide; tauto.
Qed.

Lemma skip_desired d desired current : tag d ∉ tags current →
  kept (d :: desired) current = kept desired current ∧ unwanted (d :: desired) current = unwanted desired current.
Proof.
  intros Hd. unfold kept, unwanted. split; apply filter_iff_in; intros x Hx; rewrite fmap_cons, elem_of_cons.
  all: assert (tag (asn x) ≠ tag d) by (intros Heq; apply Hd; rewrite <- Heq; apply list_elem_of_fmap; eauto); tauto.
Qed.

Lemma skip_current x current desired : tag (asn x) ∉ tag <$> desired → wanted (x :: current) desired = wanted current desired.
Proof.
  intros Hx. unfold wanted. apply filter_iff_in. intros d Hd. rewrite fmap_cons, elem_of_cons.
  assert (tag d ≠ tag (asn x)) by (intros Heq; apply Hx; rewrite <- Heq; apply list_elem_of_fmap; eauto). tauto.
Qed.

Lemma add_step n d desired current : tag d ∉ tags current →
  slotted n (wanted current (d :: desired)) = with_Slot d n :: slotted (n + 1) (wanted current desired).
Proof. intros Hd. unfold wanted at 1. rewrite filter_cons, decide_True by done. apply slotted_cons. Qed.

Lemma remove_step x current desired : tag (asn x) ∉ tag <$> desired →
  unwanted desired (x :: current) = x :: unwanted desired current ∧ kept desired (x :: current) = kept desired current.
Proof. intros Hx. unfold unwanted, kept. by rewrite !filter_cons, decide_True, decide_False by auto. Qed.

Lemma both_step x d current desired : tag (asn x) = tag d → tag d ∉ tags current → tag (asn x) ∉ tag <$> desired →
  kept (d :: desired) (x :: current) = x :: kept desired current ∧ unwanted (d :: desired) (x :: current) = unwanted desired current ∧
  wanted (x :: current) (d :: desired) = wanted current desired.
Proof.
  intros Heq Hd Hx. destruct (skip_desired d desired current Hd) as [Hk Hu].
  assert (tag (asn x) ∈ tag <$> d :: desired) by (rewrite Heq; by left). split_and!.
  - rewrite <- Hk. unfold kept at 1. by rewrite filter_cons, decide_True.
  - rewrite <- Hu. unfold unwanted at 1. by rewrite filter_cons, decide_False by tauto.
  - rewrite <- (skip_current x current desired Hx). unfold wanted at 1. rewrite filter_cons, decide_False; [done|].
    intros Hn. apply Hn. rewrite <- Heq. by left.
Qed.

Lemma init_walk_spec item cur0 : ∀ fuel current desired n add remove reorder,
  (length current + length desired ≤ fuel)%nat → Forall (λ x, is_assignment x = true) current →
  StronglySorted assignment_lt (asn <$> current) → StronglySorted assignment_lt desired →
  0 ≤ n → n + Z.of_nat (length desired) ≤ MaxInt64 →
  init_walk fuel current desired n (mkItemState item cur0 add remove reorder) =
    Ret (mkItemState item cur0 (add ++ slotted n (wanted current desired)) (remove ++ unwanted desired current) (reorder ++ kept desired current)).
Proof.
  assert (∀ l : list KV, tags l = tag <$> (asn <$> l)) as Htags by (intros l; by rewrite <- list_fmap_compose).
  induction fuel as [|fuel IH]; intros current desired n add remove reorder Hf Hca Hcs Hds Hn Hmax.
  { destruct current, desired; cbn in Hf; try lia. unfold kept, unwanted, wanted. cbn. by rewrite !app_nil_r. }
  assert (∀ d ds, desired = d :: ds → tag d ∉ tags current →
    init_walk fuel current ds (int64 (n + 1)) (mkItemState item cur0 (add ++ [with_Slot d n]) remove reorder) =
    Ret (mkItemState item cur0 (add ++ slotted n (wanted current desired)) (remove ++ unwanted desired current) (reorder ++ kept desired current))) as Hadd.
  { intros d ds -> Hd. apply StronglySorted_inv in Hds as [Hds _]. cbn [length] in *. unfold MaxInt64 in *.
    rewrite int64_id by (unfold is_int64, MinInt64, MaxInt64; lia). rewrite IH by (done || lia).
    rewrite add_step by done. destruct (skip_desired d ds current Hd) as [-> ->]. by rewrite <- app_assoc. }
  assert (∀ x cs, current = x :: cs → tag (asn x) ∉ tag <$> desired →
    init_walk fuel cs desired n (mkItemState item cur0 add (remove ++ [x]) reorder) =
    Ret (mkItemState item cur0 (add ++ slotted n (wanted current desired)) (remove ++ unwanted desired current) (reorder ++ kept desired current))) as Hrem.
  { intros x cs -> Hx. apply StronglySorted_inv in Hcs as [Hcs _]. apply Forall_cons in Hca as [_ Hca]. cbn [length] in *.
    rewrite IH by (done || lia). destruct (remove_step x cs desired Hx) as [-> ->]. by rewrite skip_current, <- app_assoc. }
  cbn [init_walk s_item s_current s_add s_remove s_reorder]. destruct current as [|x cs], desired as [|d ds].
  - unfold kept, unwanted, wanted. cbn. by rewrite !app_nil_r.
  - apply Hadd; [done|apply not_elem_of_nil].
  - apply Hrem; [done|apply not_elem_of_nil].
  - apply Forall_cons in Hca as [Hx Hca]. rewrite asAssignment_asn by done. cbn [outcome_bind].
    pose proof Hcs as [Hcs' Hxs]%StronglySorted_inv. pose proof Hds as [Hds' Hdd]%StronglySorted_inv.
    destruct (compare_cases (asn x) d) as [[-> Hlt]|[[-> Heq]|[-> Hlt]]]; cbn [Z.ltb Z.compare].
    + apply Hrem; [done|]. by apply head_below.
    + assert (tag d ∉ tags cs) as Hd by (rewrite Htags, <- Heq; by apply (head_absent _ (asn x))).
      assert (tag (asn x) ∉ tag <$> ds) as Hxd by (by apply (head_absent _ d)).
      cbn [length] in *. rewrite IH by (done || lia). destruct (both_step x d cs ds Heq Hd Hxd) as (-> & -> & ->). by rewrite <- app_assoc.
    + apply Hadd; [done|]. rewrite Htags. by apply head_below.
Qed.

(** One more than the slots in use. *)
Definition next_slot (current : list KV) : Z := foldl (λ n (x : KV), Z.max n (asn_slot x + 1)) 0 current.

Lemma asn_slot_asn (x : KV) : asn_slot x = as_Slot (asn x).
Proof. unfold asn_slot, asn. by destruct (Decoded x). Qed.

Lemma next_slot_ge (current : list KV) n : ∀ x, x ∈ current → asn_slot x < foldl (λ n (x : KV), Z.max n (asn_slot x + 1)) n current.
Proof.
  assert (∀ (l : list KV) m, m ≤ foldl (λ n x, Z.max n (asn_slot x + 1)) m l) as Hge.
  { intros l. induction l as [|y l IH]; intros m; cbn; [done|]. specialize (IH (Z.max m (asn_slot y + 1))). lia. }
  revert n. induction current as [|y l IH]; intros n x; [by intros []%elem_of_nil|]. cbn. intros [-> |Hx]%elem_of_cons; [|by apply IH].
  specialize (Hge l (Z.max n (asn_slot y + 1))). lia.
Qed.

Lemma max_slot_spec current : Forall (λ x, is_assignment x = true) current → Forall (λ x, 0 ≤ asn_slot x < MaxInt64) current →
  outcome_fold max_slot 0 current = Ret (next_slot current) ∧ 0 ≤ next_slot current.
Proof.
  intros Ha Hs. unfold next_slot. assert (∀ n, 0 ≤ n → outcome_fold max_slot n current = Ret (foldl (λ n x, Z.max n (asn_slot x + 1)) n current) ∧
    0 ≤ foldl (λ n x, Z.max n (asn_slot x + 1)) n current) as H; [|by apply H].
  induction current as [|x l IH]; intros n Hn; [done|]. apply Forall_cons in Ha as [Hx Ha], Hs as [Hsx Hs]. cbn [outcome_fold foldl].
  unfold max_slot at 1. rewrite asAssignment_asn by done. cbn [outcome_bind]. rewrite <- asn_slot_asn. unfold MaxInt64 in *.
  rewrite int64_id by (unfold is_int64, MinInt64, MaxInt64; lia).
  replace (if n <? asn_slot x + 1 then asn_slot x + 1 else n) with (Z.max n (asn_slot x + 1)) by (destruct (Z.ltb_spec n (asn_slot x + 1)); lia).
  apply IH; [done|done|lia].
Qed.

Lemma init_spec item current desired : Forall (λ x, is_assignment x = true) current →
  StronglySorted assignment_lt (asn <$> current) → StronglySorted assignment_lt desired →
  Forall (λ x, 0 ≤ asn_slot x < MaxInt64) current → next_slot current + Z.of_nat (length desired) ≤ MaxInt64 →
  init item current desired =
    Ret (mkItemState item current (slotted (next_slot current) (wanted current desired)) (unwanted desired current) (kept desired current)).
Proof.
  intros Ha Hc Hd Hs Hmax. unfold init. destruct (max_slot_spec current Ha Hs) as [-> Hn]. cbn [outcome_bind]. by rewrite init_walk_spec.
Qed.

(** [init] derives the edits between current and desired assignments: it keeps the current
    assignments that are desired, removes those that are not, and adds those that are desired
    only, at slots of their own above all slots in use. *)
Theorem init_correct item current desired : Forall (λ x, is_assignment x = true) current →
  StronglySorted assignment_lt (asn <$> current) → StronglySorted assignment_lt desired →
  Forall (λ x, 0 ≤ asn_slot x < MaxInt64) current → next_slot current + Z.of_nat (length desired) ≤ MaxInt64 →
  ∃ s, init item current desired = Ret s ∧ s_item s = item ∧ s_current s = current ∧
    s_reorder s = filter (λ x, tag (asn x) ∈ tag <$> desired) current ∧
    s_remove s = filter (λ x, tag (asn x) ∉ tag <$> desired) current ∧
    tag <$> s_add s = tag <$> filter (λ d, tag d ∉ tags current) desired ∧
    ∀ i a, s_add s !! i = Some a → as_Slot a = next_slot current + Z.of_nat i ∧ ∀ x, x ∈ current → as_Slot (asn x) < as_Slot a.
Proof.
  intros Ha Hc Hd Hs Hmax. rewrite init_spec by done. eexists. split; [done|]. cbn. split_and!; try done.
  - unfold slotted, wanted. generalize (next_slot current). generalize (filter (λ d, tag d ∉ tags current) desired).
    intros l. induction l as [|d l IH]; intros n; [done|]. fold (slotted n (d :: l)). rewrite slotted_cons. cbn. f_equal. apply IH.
  - intros i a. unfold slotted. rewrite list_lookup_imap. destruct (wanted current desired !! i) as [d|]; [|done]. cbn.
    intros [= <-]. cbn. split; [done|]. intros x Hx. rewrite <- asn_slot_asn. pose proof (next_slot_ge current 0 x Hx). unfold next_slot. lia.
Qed.

(** ** Removals *)

Definition consistent (value : IV) (current l : list KV) : list KV := filter (λ x, IsConsistent value x current) l.

Lemma count_consistent_spec value current : count_consistent value current = Z.of_nat (length (consistent value current current)).
Proof.
  unfold count_consistent, consistent. assert (∀ l n, foldl (λ n x, if IsConsistent value x current then n + 1 else n) n l =
    n + Z.of_nat (length (filter (λ x, IsConsistent value x current) l))) as H; [|apply H].
  intros l. induction l as [|x l IH]; intros n; cbn [foldl]; [cbn; lia|]. rewrite IH, filter_cons.
  destruct (IsConsistent value x current); case_decide; cbn [length]; try done; lia.
Qed.

Lemma removal_limit_spec value current r : ∀ remove n,
  let k := removal_limit value current r n remove in
  let c := Z.of_nat (length (consistent value current (take k remove))) in
  (k ≤ length remove)%nat ∧ (n < r → k = 0%nat) ∧ (r ≤ n → r ≤ n - c) ∧
  (r ≤ n → (k < length remove)%nat → n - c = r ∧ ∃ x, remove !! k = Some x ∧ IsConsistent value x current = true).
Proof.
  induction remove as [|x remove IH]; intros n; cbn [removal_limit]; [cbn; split_and!; lia|].
  destruct (Z.leb_spec r n) as [Hr|Hr]; [|cbn; split_and!; lia].
  destruct (IsConsistent value x current) eqn:Hx; cbn [andb].
  - destruct (Z.eqb_spec n r) as [-> |Hne].
    + cbn. split_and!; try lia. intros _ _. split; [lia|eauto].
    + destruct (IH (n - 1)) as (Hk & Hlt & Hge & Hmax). set (k := removal_limit value current r (n - 1) remove) in *.
      unfold consistent in *. cbn [take]. rewrite filter_cons, decide_True by (by rewrite Hx). cbn [length]. split_and!; try lia.
      intros _ Hk'. destruct (Hmax ltac:(lia) ltac:(cbn in Hk'; lia)) as [? ?]. split; [lia|done].
  - destruct (IH n) as (Hk & Hlt & Hge & Hmax). set (k := removal_limit value current r n remove) in *.
    unfold consistent in *. cbn [take]. rewrite filter_cons, decide_False by (rewrite Hx; intros []). cbn [length]. split_and!; try lia.
    intros _ Hk'. apply Hmax; [lia|cbn in Hk'; lia].
Qed.

(** ** States of the allocator and assignments that fit together *)

Record global_ok (g : State MV IV AV) : Prop := {
  go_members : members_ok (ks_Root (KS g)) (Members g);
  go_total : length (MemberTotalCount g) = length (Members g);
  go_primary : length (MemberPrimaryCount g) = length (Members g);
}.

Lemma member_key root x : assignment_key_ok root x →
  MemberKey root (as_MemberZone (asn x)) (as_MemberSuffix (asn x)) = Ret (asn_member root x).
Proof.
  intros [Ha Hk]. unfold is_assignment, asn, asn_member in *. destruct (Decoded x) as [| |a]; try done. cbn [entity_key] in Hk.
  apply AssignmentKey_Ret in Hk as (_ & Hz & Hu & _). unfold MemberKey, assertAboveSep. by rewrite Hz, Hu.
Qed.

Lemma member_at root (ms : list KV) i x : members_ok root ms → ms !! i = Some x →
  ∃ m, memberAt ms i = Ret m ∧ ItemLimit (mb_Value m) = limit_of x ∧ zone_of x = mb_Zone m.
Proof.
  intros [_ Hm] Hx. rewrite Forall_lookup in Hm. specialize (Hm _ _ Hx). unfold memberAt, is_member, limit_of, zone_of in *. rewrite Hx.
  destruct (Decoded x) as [m| |]; try done. eauto.
Qed.

Lemma memberLoadRatio_returns g x counts : global_ok g → length counts = length (Members g) → assignment_key_ok (ks_Root (KS g)) x →
  ∃ r, memberLoadRatio g x counts = Ret r.
Proof.
  intros Hg Hlen Hx. unfold memberLoadRatio. pose proof (member_key _ _ Hx) as Hk. destruct Hx as [Ha _].
  unfold is_assignment, asn in *. destruct (Decoded x) as [| |a]; try done. rewrite Hk. cbn [outcome_bind].
  destruct (go_members g Hg) as [[Hs _] _]. pose proof (Search_member (Members g) (asn_member (ks_Root (KS g)) x) Hs) as Hf.
  destruct (Search _ _) as [ind [|]]; [|eauto]. destruct Hf as (m & Hm & _).
  destruct (lookup_lt_is_Some_2 counts ind) as [n ->]; [rewrite Hlen; by apply lookup_lt_Some in Hm|].
  destruct (member_at _ _ _ _ (go_members g Hg) Hm) as (? & -> & _). cbn. eauto.
Qed.

Lemma constrainRemovals_spec g s value : global_ok g → Forall (assignment_key_ok (ks_Root (KS g))) (s_remove s) →
  (∃ it, itemAt (Items g) (s_item s) = Ret it ∧ it_Value it = value) →
  let R := DesiredReplication value in
  let n := Z.of_nat (length (consistent value (s_current s) (s_current s))) in
  ∃ remove back, constrainRemovals g s = Ret (mkItemState (s_item s) (s_current s) (s_add s) remove (s_reorder s ++ back)) ∧
    remove ++ back ≡ₚ s_remove s ∧
    Z.min n R ≤ n - Z.of_nat (length (consistent value (s_current s) remove)) ∧
    (n < R → remove = []) ∧
    (R ≤ n → back ≠ [] → n - Z.of_nat (length (consistent value (s_current s) remove)) = R).
Proof.
  intros Hg Hr (it & Hit & <-) R n. unfold constrainRemovals.
  destruct (sort_perm (λ x y : KV, let! ri := memberLoadRatio g x (MemberTotalCount g) in
    let! rj := memberLoadRatio g y (MemberTotalCount g) in Ret (SFltb rj ri)) (s_remove s)) as (l & -> & Hp).
  { rewrite Forall_forall in Hr. intros x y Hx Hy.
    destruct (memberLoadRatio_returns g x (MemberTotalCount g) Hg (go_total g Hg) (Hr x Hx)) as [r1 ->].
    destruct (memberLoadRatio_returns g y (MemberTotalCount g) Hg (go_total g Hg) (Hr y Hy)) as [r2 ->]. cbn. eauto. }
  cbn [outcome_bind]. rewrite Hit. cbn [outcome_bind]. rewrite count_consistent_spec. fold n R.
  destruct (removal_limit_spec (it_Value it) (s_current s) R l n) as (Hk & Hlt & Hge & Hmax).
  set (k := removal_limit _ _ _ _ _) in *. exists (take k l), (drop k l). split; [done|]. rewrite take_drop. split; [done|].
  split_and!.
  - destruct (Z.le_gt_cases R n) as [H|H]; [specialize (Hge H); lia|]. rewrite (Hlt H), take_0. unfold consistent. cbn [filter list_filter length]. lia.
  - intros H. by rewrite (Hlt H).
  - intros H Hne. apply Hmax; [done|]. destruct (decide (k < length l)%nat); [done|]. destruct Hne. apply drop_ge. lia.
Qed.

(** ** Order of the assignments that are kept *)

Lemma SFltb_trans a b c : SFltb a b = true → SFltb b c = true → SFltb a c = true.
Proof.
  unfold SFltb. destruct a as [[]|[]| |[] ma ea], b as [[]|[]| |[] mb eb], c as [[]|[]| |[] mc ec]; cbn; try done.
  all: destruct (Z.compare_spec ea eb), (Z.compare_spec eb ec), (Z.compare_spec ea ec); try done; try lia.
  all: fold (Pos.compare ma mb) (Pos.compare mb mc) (Pos.compare ma mc).
  all: destruct (Pos.compare_spec ma mb), (Pos.compare_spec mb mc), (Pos.compare_spec ma mc); cbn; try done; lia.
Qed.

Abbreviation by_slot := (λ a b : KV, asn_slot a ≤ asn_slot b).

Definition sort_by_slot (l : list KV) : outcome (list KV) :=
  sort_Slice (λ x y, let! a := asAssignment x in let! b := asAssignment y in Ret (as_Slot a <? as_Slot b)) l.

Lemma sort_by_slot_spec l : Forall (λ x, is_assignment x = true) l →
  ∃ l', sort_by_slot l = Ret l' ∧ l' ≡ₚ l ∧ StronglySorted by_slot l'.
Proof.
  intros Ha. rewrite Forall_forall in Ha. unfold sort_by_slot.
  assert (∀ x y : KV, x ∈ l → y ∈ l → (let! a := asAssignment x in let! b := asAssignment y in Ret (as_Slot a <? as_Slot b)) =
    Ret (asn_slot x <? asn_slot y)) as Hless.
  { intros x y Hx Hy. rewrite !asAssignment_asn by auto. cbn [outcome_bind]. by rewrite !asn_slot_asn. }
  destruct (sort_perm _ l (λ x y Hx Hy, ex_intro _ _ (Hless x y Hx Hy))) as (l' & Hl' & Hp). exists l'. split_and!; [done..|].
  assert (StronglySorted (λ x y : KV, (asn_slot y <? asn_slot x) = false) l') as Hs.
  { refine (sort_sorted _ (λ x y : KV, asn_slot x <? asn_slot y) _ _ _ l l' Hless Hl'); intros; lia. }
  eapply ssorted_impl_in; [|exact Hs]. cbn. intros; lia.
Qed.

(** [x] is no worse a primary than [y]. *)
Definition preferred (g : State MV IV AV) (value : IV) (current : list KV) (x y : KV) : Prop :=
  (IsConsistent value y current = true → IsConsistent value x current = true) ∧
  (IsConsistent value y current = IsConsistent value x current → ∀ rx ry,
     memberLoadRatio g x (MemberPrimaryCount g) = Ret rx → memberLoadRatio g y (MemberPrimaryCount g) = Ret ry → SFltb ry rx = false).

Lemma SFltb_irrefl a : SFltb a a = false.
Proof.
  unfold SFltb. destruct a as [[]|[]| |[] m e]; cbn; try done; rewrite Z.compare_refl; fold (Pos.compare m m); by rewrite Pos.compare_refl.
Qed.

Lemma select_primary_spec g value current l : Forall (λ x, ∃ r, memberLoadRatio g x (MemberPrimaryCount g) = Ret r) l → l ≠ [] →
  ∃ i r x, outcome_fold (select_primary g value current) None (zip (seq 0 (length l)) l) = Ret (Some (i, IsConsistent value x current, r, x)) ∧
    l !! i = Some x ∧ memberLoadRatio g x (MemberPrimaryCount g) = Ret r ∧ Forall (preferred g value current x) l.
Proof.
  induction l as [|y l IH] using rev_ind; [done|]. intros [Hl [ry Hry]%Forall_inv]%Forall_app _.
  rewrite length_app, seq_app, zip_with_app by (by rewrite length_seq). cbn [length seq zip_with]. rewrite outcome_fold_app.
  destruct (decide (l = [])) as [-> |Hne].
  - cbn. rewrite Hry. cbn. eexists _, _, _. split; [done|]. split; [done|]. split; [done|]. repeat constructor; [done|].
    intros _ r1 r2. rewrite Hry. intros [= <-] [= <-]. apply SFltb_irrefl.
  - destruct IH as (i & r & x & -> & Hx & Hr & Hpref); [done..|]. cbn [outcome_bind outcome_fold]. unfold select_primary. rewrite Hry. cbn [outcome_bind].
    destruct ((IsConsistent value y current && negb (IsConsistent value x current)) ||
      (Bool.eqb (IsConsistent value y current) (IsConsistent value x current) && SFltb ry r)) eqn:Hsel.
    + eexists _, _, y. split; [done|]. split; [by apply list_lookup_middle|]. split; [done|]. apply Forall_app. split.
      2: { repeat constructor; [done|]. intros _ r1 r2. rewrite Hry. intros [= <-] [= <-]. apply SFltb_irrefl. }
      eapply Forall_impl; [exact Hpref|]. intros z [Hz1 Hz2].
      apply orb_true_iff in Hsel as [[Hyc Hxc%negb_true_iff]%andb_true_iff|[Heq%eqb_prop Hlt]%andb_true_iff].
      * split; [done|]. intros Hzy. rewrite Hzy, Hyc in Hz1. rewrite Hxc in Hz1. by specialize (Hz1 eq_refl).
      * split; [by rewrite Heq|]. rewrite Heq. intros Hzx r1 r2. rewrite Hry. intros [= <-] Hrz.
        destruct (SFltb r2 ry) eqn:Hzl; [|done]. by rewrite <- (Hz2 Hzx r r2 Hr Hrz), (SFltb_trans r2 ry r).
    + eexists _, _, x. split; [done|]. split; [by apply lookup_app_l_Some|]. split; [done|]. apply Forall_app. split; [done|]. apply Forall_singleton.
      apply orb_false_iff in Hsel as [H1 H2]. split.
      * intros Hy. rewrite Hy in H1. by destruct (IsConsistent value x current).
      * intros Heq r1 r2. rewrite Hr, Hry. intros [= <-] [= <-]. rewrite Heq, eqb_reflx in H2. done.
Qed.

(** The order in which assignments are kept: a primary, and then the others by slot. *)
Definition reordered (g : State MV IV AV) (value : IV) (current l : list KV) : Prop :=
  match l with
  | [] => True
  | x :: rest => StronglySorted by_slot rest ∧
      (asn_slot x = 0 ∨ Forall (λ y, 0 < asn_slot y) l ∧ Forall (preferred g value current x) l)
  end.

Lemma constrainReorders_spec g s value : global_ok g → Forall (assignment_key_ok (ks_Root (KS g))) (s_reorder s) →
  Forall (λ x, 0 ≤ asn_slot x) (s_reorder s) → (∃ it, itemAt (Items g) (s_item s) = Ret it ∧ it_Value it = value) →
  ∃ reorder, constrainReorders g s = Ret (mkItemState (s_item s) (s_current s) (s_add s) (s_remove s) reorder) ∧
    reorder ≡ₚ s_reorder s ∧ reordered g value (s_current s) reorder.
Proof.
  intros Hg Hk Hs (it & Hit & <-). unfold constrainReorders. fold (sort_by_slot (s_reorder s)).
  destruct (sort_by_slot_spec (s_reorder s)) as (l & -> & Hp & Hsl); [eapply Forall_impl; [exact Hk|]; by intros x [? _]|].
  cbn [outcome_bind]. rewrite <- Hp in Hk, Hs. destruct l as [|x l]; [by exists []|]. pose proof Hk as [[Hx _] _]%Forall_cons.
  rewrite asAssignment_asn by done. cbn [outcome_bind]. rewrite <- asn_slot_asn. apply StronglySorted_inv in Hsl as [Hsl Hxl].
  destruct (Z.eqb_spec (asn_slot x) 0) as [H0|H0].
  { exists (x :: l). split_and!; [done..|]. split; [done|by left]. }
  rewrite Hit. cbn [outcome_bind].
  destruct (select_primary_spec g (it_Value it) (s_current s) (x :: l)) as (i & r & p & -> & Hi & _ & Hpref); [|done|].
  { eapply Forall_impl; [exact Hk|]. intros y Hy. apply memberLoadRatio_returns; [done|by apply go_primary|done]. }
  cbn [outcome_bind]. eexists. split; [done|].
  assert (p :: take i (x :: l) ++ drop (i + 1) (x :: l) ≡ₚ x :: l) as Hperm.
  { rewrite Nat.add_1_r, <- (delete_take_drop (x :: l)). symmetry. by apply delete_Permutation. }
  split; [by rewrite Hperm|]. split.
  - assert (StronglySorted by_slot (x :: l)) as Hall by (by constructor). rewrite <- (take_drop i (x :: l)), (drop_S _ _ _ Hi) in Hall.
    rewrite Nat.add_1_r. apply ssorted_app in Hall as (H1 & [H2 _]%StronglySorted_inv & H3). apply ssorted_app. split_and!; [done..|].
    intros a b Ha Hb. apply H3; [done|by right].
  - right. rewrite Hperm. split; [|done]. rewrite Forall_forall in Hs, Hxl |- *. intros y [-> |Hy]%elem_of_cons.
    + specialize (Hs x ltac:(by left)). lia.
    + specialize (Hxl y Hy). specialize (Hs x ltac:(by left)). cbn in Hxl. lia.
Qed.
End init_facts.

(** ** The operations of an item *)

Section build_facts.
Context {MV IV AV : Type} `{!MemberValue MV} `{!ItemValue MV IV AV} {Sort : SliceSort}.
Abbreviation KV := (KeyValue (Entity MV IV AV)).
Abbreviation kv_Key x := (k_Key (Raw x)).
Abbreviation Root g := (ks_Root (KS g)).

(** Keys of the member of an assignment, and of the assignment. *)
Definition mkey (root : string) (a : Assignment AV) : string :=
  (root ++ MembersPrefix ++ as_MemberZone a ++ Sep ++ as_MemberSuffix a)%string.
Definition akey (root : string) (a : Assignment AV) : string :=
  (root ++ AssignmentsPrefix ++ as_ItemID a ++ Sep ++ as_MemberZone a ++ Sep ++ as_MemberSuffix a ++ Sep ++ Itoa (as_Slot a))%string.

Definition mkeys (root : string) (l : list KV) : list string := (λ x, mkey root (asn x)) <$> l.

Definition fields_ok (a : Assignment AV) : Prop :=
  above_sep (as_ItemID a) = true ∧ above_sep (as_MemberZone a) = true ∧ above_sep (as_MemberSuffix a) = true.

Lemma MemberKey_mkey root a : fields_ok a → MemberKey root (as_MemberZone a) (as_MemberSuffix a) = Ret (mkey root a).
Proof. intros (_ & Hz & Hs). unfold MemberKey, assertAboveSep. by rewrite Hz, Hs. Qed.

Lemma AssignmentKey_akey root a : fields_ok a → AssignmentKey root a = Ret (akey root a).
Proof.
  intros (Hi & Hz & Hs). unfold AssignmentKey, ItemAssignmentsPrefix, assertAboveSep. rewrite Hi, Hz, Hs. cbn. f_equal. unfold akey.
  by rewrite !str_app_assoc.
Qed.

Lemma key_ok_asn root (x : KV) : assignment_key_ok root x →
  fields_ok (asn x) ∧ asn_member root x = mkey root (asn x) ∧ kv_Key x = akey root (asn x).
Proof.
  intros [Ha Hk]. unfold is_assignment, asn, asn_member in *. destruct (Decoded x) as [| |a]; try done. cbn [entity_key] in Hk.
  apply AssignmentKey_Ret in Hk as (? & ? & ? & ->). by split_and!.
Qed.

(** The number of keys of each member. *)
Definition key_counts (keys : list string) (ms : list KV) : list Z :=
  (λ m, int64 (Z.of_nat (length (filter (λ k, k = kv_Key m) keys)))) <$> ms.

Lemma key_counts_perm keys keys' ms : keys ≡ₚ keys' → key_counts keys ms = key_counts keys' ms.
Proof. intros Hp. unfold key_counts. apply list_fmap_ext. intros i m _. by rewrite Hp. Qed.

(** One key more, or less, at the member that has it. *)
Lemma key_counts_insert keys (ms : list KV) ind m : kv_sorted ms → ms !! ind = Some m →
  add_at (key_counts keys ms) ind 1 = Ret (key_counts (kv_Key m :: keys) ms) ∧
  add_at (key_counts (kv_Key m :: keys) ms) ind (-1) = Ret (key_counts keys ms).
Proof.
  intros Hs Hm. unfold add_at.
  assert (∀ ks, key_counts ks ms !! ind = Some (int64 (Z.of_nat (length (filter (λ k, k = kv_Key m) ks))))) as Hl.
  { intros ks. unfold key_counts. by rewrite list_lookup_fmap, Hm. }
  rewrite !Hl, !int64_add_l, filter_cons, decide_True by done. cbn [length].
  assert (∀ i n, i ≠ ind → ms !! i = Some n → kv_Key n ≠ kv_Key m) as Hne.
  { intros i n Hi Hn Heq. apply Hi. by apply (kv_sorted_inj ms i ind n m). }
  split; f_equal; apply list_eq; intros i; rewrite list_lookup_insert; unfold key_counts; rewrite length_fmap, !list_lookup_fmap.
  all: case_decide as Hi; [destruct Hi as [<- _]; rewrite Hm; cbn [fmap option_fmap option_map]|
    destruct (ms !! i) as [n|] eqn:Hn; [|done]; cbn [fmap option_fmap option_map]].
  all: rewrite ?filter_cons.
  1,3: rewrite ?decide_True by done; cbn [length]; do 2 f_equal; lia.
  all: rewrite decide_False; [done|]; apply not_eq_sym, (Hne i); [|done]; intros ->; apply Hi; split; [done|by apply lookup_lt_Some in Hm].
Qed.

Lemma key_counts_missing key keys (ms : list KV) : (∀ m, m ∈ ms → kv_Key m ≠ key) → key_counts (key :: keys) ms = key_counts keys ms.
Proof.
  intros H. apply list_fmap_ext. intros i m Hm. rewrite filter_cons, decide_False; [done|]. apply not_eq_sym, H. by apply (list_elem_of_lookup_2 _ i).
Qed.

(** [g'] is [g] with other counts. *)
Definition recounted (g g' : State MV IV AV) (keys : list string) : Prop :=
  ∃ primary, g' = with_counts g (key_counts keys (Members g)) primary ∧ length primary = length (Members g).

(** A state of the allocator whose counts are those of [keys]. *)
Definition counting (g : State MV IV AV) (keys : list string) : Prop :=
  members_ok (Root g) (Members g) ∧ MemberTotalCount g = key_counts keys (Members g) ∧ length (MemberPrimaryCount g) = length (Members g).

Lemma counting_global g keys : counting g keys → global_ok g.
Proof. intros (Hm & Ht & Hp). split; [done| |done]. rewrite Ht. unfold key_counts. by rewrite length_fmap. Qed.

Lemma recounted_counting g g' keys keys' : counting g keys → recounted g g' keys' → counting g' keys'.
Proof. intros (Hm & _) (p & -> & Hp). by split. Qed.

Lemma recounted_trans g1 g2 g3 keys keys' : recounted g1 g2 keys → recounted g2 g3 keys' → recounted g1 g3 keys'.
Proof. intros (p & -> & Hp) (p' & -> & Hp'). cbn in *. exists p'. split; [done|lia]. Qed.

Lemma recounted_refl g keys : counting g keys → recounted g g keys.
Proof. intros (Hm & Ht & Hp). exists (MemberPrimaryCount g). split; [|lia]. rewrite <- Ht. by destruct g. Qed.

Lemma count_member_spec g keys ind m primary : counting g keys → Members g !! ind = Some m →
  (∃ g', count_member g ind primary 1 = Ret g' ∧ recounted g g' (kv_Key m :: keys)) ∧
  (∀ keys', keys ≡ₚ kv_Key m :: keys' → ∃ g', count_member g ind primary (-1) = Ret g' ∧ recounted g g' keys').
Proof.
  intros ([[Hs _] _] & Ht & Hp) Hm.
  assert (∀ d, ∃ p, (if primary then add_at (MemberPrimaryCount g) ind d else Ret (MemberPrimaryCount g)) = Ret p ∧ length p = length (Members g)) as Hprim.
  { intros d. destruct primary; [|eauto]. unfold add_at. destruct (lookup_lt_is_Some_2 (MemberPrimaryCount g) ind) as [n ->].
    - rewrite Hp. by apply lookup_lt_Some in Hm.
    - eexists. split; [done|]. by rewrite length_insert. }
  unfold count_member. split.
  - destruct (Hprim 1) as (p & -> & Hlen). cbn [outcome_bind]. rewrite Ht, (proj1 (key_counts_insert keys _ _ _ Hs Hm)). cbn. eexists. split; [done|]. by exists p.
  - intros keys' Hk. destruct (Hprim (-1)) as (p & -> & Hlen). cbn [outcome_bind]. rewrite Ht, (key_counts_perm _ _ _ Hk), (proj2 (key_counts_insert keys' _ _ _ Hs Hm)).
    cbn. eexists. split; [done|]. by exists p.
Qed.

(** *** Additions *)

Definition member_of (g : State MV IV AV) (a : Assignment AV) : option KV :=
  let '(ind, found) := Search (Members g) (mkey (Root g) a) in if found : bool then Members g !! ind else None.

Definition add_ok (g : State MV IV AV) (a : Assignment AV) : Prop := fields_ok a ∧ ∃ m, m ∈ Members g ∧ kv_Key m = mkey (Root g) a.

Lemma member_of_found g a : kv_sorted (Members g) → (∃ m, m ∈ Members g ∧ kv_Key m = mkey (Root g) a) →
  ∃ ind m, Search (Members g) (mkey (Root g) a) = (ind, true) ∧ Members g !! ind = Some m ∧ kv_Key m = mkey (Root g) a ∧ member_of g a = Some m.
Proof.
  intros Hs (m & Hm & Hk). unfold member_of. pose proof (Search_member (Members g) (mkey (Root g) a) Hs) as Hf.
  destruct (Search _ _) as [ind [|]]; [|by destruct (Hf m Hm)]. destruct Hf as (m' & Hm' & Hk'). eauto 10.
Qed.

(** The member of [a] is below its limit. *)
Definition room (g : State MV IV AV) (a : Assignment AV) : bool :=
  let '(ind, found) := Search (Members g) (mkey (Root g) a) in
  match MemberTotalCount g !! ind, Members g !! ind with
  | Some n, Some m => n <? limit_of m
  | _, _ => false
  end.

Lemma constrain_adds_spec g keys add : counting g keys → Forall (add_ok g) add → constrain_adds g add = Ret (filter (λ a, room g a) add).
Proof.
  intros Hc Hadd. pose proof (counting_global g keys Hc) as Hg. destruct (go_members g Hg) as [[Hs _] _].
  induction add as [|a add IH]; [done|]. apply Forall_cons in Hadd as [[Hf Hm] Hadd]. specialize (IH Hadd). cbn [constrain_adds].
  rewrite MemberKey_mkey by done. cbn [outcome_bind]. rewrite filter_cons.
  destruct (member_of_found g a Hs Hm) as (ind & m & Hse & Hi & _ & _). rewrite Hse. cbn [negb].
  destruct (member_at _ _ _ _ (go_members g Hg) Hi) as (mb & -> & Hlim & _). cbn [outcome_bind]. rewrite Hlim.
  destruct (lookup_lt_is_Some_2 (MemberTotalCount g) ind) as [n Hn]; [rewrite (go_total g Hg); by apply lookup_lt_Some in Hi|].
  assert (room g a = (n <? limit_of m)) as Hroom by (unfold room; by rewrite Hse, Hn, Hi).
  rewrite Hn, IH. revert Hroom. generalize (room g a) as b. intros b ->. destruct (Z.leb_spec (limit_of m) n), (Z.ltb_spec n (limit_of m)); try lia; cbn [outcome_bind].
  - rewrite decide_False by (intros []). done.
  - rewrite decide_True by done. done.
Qed.

Section txn.
Context {T : Type} `{HT : checkpointTxn T} {HL : checkpointLaws T}.

(** A transaction with comparisons and operations for its next checkpoint. *)
Definition tx (c : list Cmp) (o : list Op) (t : T) : T := Then o (If c t).

Lemma tx_If c c' o t : If c' (tx c o t) = tx (c ++ c') o t.
Proof. unfold tx. by rewrite If_Then, If_If. Qed.
Lemma tx_Then c o o' t : Then o' (tx c o t) = tx c (o ++ o') t.
Proof. unfold tx. by rewrite Then_Then. Qed.
Lemma tx_nil t : tx [] [] t = t.
Proof. unfold tx. by rewrite If_nil, Then_nil. Qed.

Definition add_cmps (g : State MV IV AV) (l : list (Assignment AV)) : list Cmp := omap (λ a, modRevisionUnchanged <$> member_of g a) l.
Definition add_ops (g : State MV IV AV) (l : list (Assignment AV)) : list Op :=
  omap (λ a, (λ m, OpPut (akey (Root g) a) "" (k_Lease (Raw m))) <$> member_of g a) l.

Lemma buildAddOps_spec : ∀ l g keys, counting g keys → Forall (add_ok g) l →
  ∃ g', (∀ c o t, outcome_fold build_add (g, tx c o t) l = Ret (g', tx (c ++ add_cmps g l) (o ++ add_ops g l) t)) ∧
    recounted g g' (rev (mkey (Root g) <$> l) ++ keys).
Proof.
  intros l. induction l as [|a l IH]; intros g keys Hc Hl.
  { exists g. split; [|by apply recounted_refl]. intros. cbn. by rewrite !app_nil_r. }
  apply Forall_cons in Hl as [[Hf Hm] Hl].
  pose proof Hc as ([[Hs _] _] & _). destruct (member_of_found g a Hs Hm) as (ind & m & Hse & Hi & Hkm & Hmo).
  destruct (count_member_spec g keys ind m (as_Slot a =? 0) Hc Hi) as [(g1 & Hcm & Hr) _].
  pose proof Hr as (p & Hg1 & _).
  destruct (IH g1 _ (recounted_counting _ _ _ _ Hc Hr)) as (g' & Hb & Hr').
  { by rewrite Hg1. }
  exists g'. split.
  - intros c o t. cbn [outcome_fold]. unfold build_add at 1. rewrite MemberKey_mkey by done. cbn [outcome_bind]. rewrite Hse. cbn [negb].
    rewrite Hi, AssignmentKey_akey by done. cbn [outcome_bind]. rewrite Hcm. cbn [outcome_bind]. rewrite tx_If, tx_Then, Hb.
    unfold add_cmps, add_ops. cbn [omap list_omap]. rewrite Hmo, Hg1. cbn. rewrite <- !app_assoc. done.
  - rewrite Hg1 in Hr'. cbn in Hr'. rewrite Hg1 in Hr. pose proof (recounted_trans _ _ _ _ _ Hr Hr') as Hrr.
    rewrite Hkm in Hrr. cbn [fmap list_fmap rev]. by rewrite <- app_assoc.
Qed.

(** *** Removals *)

Definition remove_cmps (item : KV) (l : list KV) : list Cmp :=
  match l with [] => [] | _ => modRevisionUnchanged item :: (modRevisionUnchanged <$> l) end.
Definition remove_ops (l : list KV) : list Op := (λ x, OpDelete (kv_Key x)) <$> l.

Lemma build_remove_spec item ikv i g keys rest x : counting g keys → Items g !! item = Some ikv →
  assignment_key_ok (Root g) x → keys ≡ₚ mkey (Root g) (asn x) :: rest →
  ∃ g', (∀ c o t, build_remove item (g, tx c o t) (i, x) =
      Ret (g', tx ((c ++ if (i =? 0)%nat then [modRevisionUnchanged ikv] else []) ++ [modRevisionUnchanged x]) (o ++ [OpDelete (kv_Key x)]) t)) ∧
    recounted g g' rest.
Proof.
  intros Hc Hik Hx Hk. destruct (key_ok_asn _ _ Hx) as (Hf & _ & _).
  assert (∀ c o t, build_remove item (g, tx c o t) (i, x) = let '(ind, found) := Search (Members g) (mkey (Root g) (asn x)) in
    let t := tx ((c ++ if (i =? 0)%nat then [modRevisionUnchanged ikv] else []) ++ [modRevisionUnchanged x]) (o ++ [OpDelete (kv_Key x)]) t in
    if found : bool then let! g := count_member g ind (as_Slot (asn x) =? 0) (-1) in Ret (g, t) else Ret (g, t)) as Hstep.
  { intros c o t. unfold build_remove. rewrite Hik.
    assert ((if (i =? 0)%nat then Ret (If [modRevisionUnchanged ikv] (tx c o t)) else Ret (tx c o t)) =
    Ret (tx (c ++ if (i =? 0)%nat then [modRevisionUnchanged ikv] else []) o t)) as ->.
    { destruct (i =? 0)%nat; [by rewrite tx_If|by rewrite app_nil_r]. }
    cbn [outcome_bind]. rewrite tx_If, tx_Then, asAssignment_asn by apply Hx. cbn [outcome_bind]. by rewrite MemberKey_mkey. }
  pose proof Hc as ([[Hs _] _] & Ht & Hp). pose proof (Search_member (Members g) (mkey (Root g) (asn x)) Hs) as Hse.
  destruct (Search _ _) as [ind [|]].
  - destruct Hse as (m & Hm & Hkm). rewrite <- Hkm in Hk.
    destruct (proj2 (count_member_spec g keys ind m (as_Slot (asn x) =? 0) Hc Hm) rest Hk) as (g' & Hcm & Hr). exists g'.
    split; [|done]. intros. by rewrite Hstep, Hcm.
  - exists g. split; [intros; by rewrite Hstep|]. exists (MemberPrimaryCount g). split; [|lia].
    rewrite <- (key_counts_missing (mkey (Root g) (asn x)) rest) by done. rewrite <- (key_counts_perm _ _ _ Hk), <- Ht. by destruct g.
Qed.

Lemma buildRemoveOps_from item ikv : ∀ l i g keys rest, counting g keys → Items g !! item = Some ikv → i ≠ 0%nat →
  Forall (assignment_key_ok (Root g)) l → keys ≡ₚ mkeys (Root g) l ++ rest →
  ∃ g', (∀ c o t, outcome_fold (build_remove item) (g, tx c o t) (zip (seq i (length l)) l) =
      Ret (g', tx (c ++ (modRevisionUnchanged <$> l)) (o ++ remove_ops l) t)) ∧ recounted g g' rest.
Proof.
  intros l. induction l as [|x l IH]; intros i g keys rest Hc Hik Hi Hl Hk.
  { exists g. split; [intros; unfold remove_ops; cbn; by rewrite !app_nil_r|]. cbn in Hk. pose proof Hc as (Hm & Ht & Hp).
    exists (MemberPrimaryCount g). split; [|lia]. rewrite <- (key_counts_perm _ _ _ Hk), <- Ht. by destruct g. }
  apply Forall_cons in Hl as [Hx Hl].
  destruct (build_remove_spec item ikv i g keys (mkeys (Root g) l ++ rest) x Hc Hik Hx Hk) as (g1 & Hb & Hr). pose proof Hr as (p & Hg1 & _).
  destruct (IH (S i) g1 _ rest (recounted_counting _ _ _ _ Hc Hr)) as (g' & Hb' & Hr'); [by rewrite Hg1|done|by rewrite Hg1|by rewrite Hg1|].
  exists g'. split; [|by eapply recounted_trans]. intros c o t. cbn [length seq zip_with outcome_fold]. rewrite Hb. cbn [outcome_bind].
  rewrite (proj2 (Nat.eqb_neq i 0) Hi), app_nil_r, Hb'. unfold remove_ops. cbn [fmap list_fmap]. by rewrite <- !app_assoc.
Qed.

Lemma buildRemoveOps_spec g s keys rest ikv : counting g keys → Items g !! s_item s = Some ikv →
  Forall (assignment_key_ok (Root g)) (s_remove s) → keys ≡ₚ mkeys (Root g) (s_remove s) ++ rest →
  ∃ g', (∀ c o t, buildRemoveOps g s (tx c o t) = Ret (g', tx (c ++ remove_cmps ikv (s_remove s)) (o ++ remove_ops (s_remove s)) t)) ∧ recounted g g' rest.
Proof.
  intros Hc Hik Hl Hk. unfold buildRemoveOps. destruct (s_remove s) as [|x l].
  { exists g. split; [intros; unfold remove_ops; cbn; by rewrite !app_nil_r|]. cbn in Hk. pose proof Hc as (Hm & Ht & Hp).
    exists (MemberPrimaryCount g). split; [|lia]. rewrite <- (key_counts_perm _ _ _ Hk), <- Ht. by destruct g. }
  apply Forall_cons in Hl as [Hx Hl].
  destruct (build_remove_spec (s_item s) ikv 0 g keys (mkeys (Root g) l ++ rest) x Hc Hik Hx Hk) as (g1 & Hb & Hr). pose proof Hr as (p & Hg1 & _).
  destruct (buildRemoveOps_from (s_item s) ikv l 1 g1 _ rest (recounted_counting _ _ _ _ Hc Hr)) as (g' & Hb' & Hr'); [by rewrite Hg1|done|by rewrite Hg1|by rewrite Hg1|].
  exists g'. split; [|by eapply recounted_trans]. intros c o t. cbn [length seq zip_with outcome_fold]. rewrite Hb. cbn [outcome_bind Nat.eqb]. rewrite Hb'. unfold remove_ops, remove_cmps. cbn [fmap list_fmap]. by rewrite <- !app_assoc.
Qed.

(** *** Moves *)

(** The moves of a round: the first assignment kept becomes primary, and an assignment is packed
    to its index. *)
Definition promotion (l : list KV) : list (KV * Assignment AV) :=
  match l with
  | [] => []
  | x :: _ => if asn_slot x =? 0 then [] else [(x, with_Slot (asn x) 0)]
  end.

Fixpoint packing (i : nat) (l : list KV) : list (KV * Assignment AV) :=
  match l with
  | [] => []
  | x :: l => if (i =? 0)%nat || (asn_slot x =? Z.of_nat i) then packing (S i) l else [(x, with_Slot (asn x) (Z.of_nat i))]
  end.

Definition move_cmps (l : list (KV * Assignment AV)) : list Cmp := modRevisionUnchanged ∘ fst <$> l.
Definition move_ops (root : string) (l : list (KV * Assignment AV)) : list Op :=
  concat ((λ m, [OpDelete (kv_Key (fst m)); OpPut (akey root (snd m)) (k_Value (Raw (fst m))) (k_Lease (Raw (fst m)))]) <$> l).

Lemma buildMoveOps_spec g c o t x a : fields_ok a →
  buildMoveOps g (tx c o t) x a = Ret (tx (c ++ move_cmps [(x, a)]) (o ++ move_ops (Root g) [(x, a)]) t).
Proof. intros Ha. unfold buildMoveOps. rewrite AssignmentKey_akey by done. cbn [outcome_bind]. by rewrite tx_If, tx_Then. Qed.

Lemma buildPromoteOps_spec g s keys : counting g keys → Forall (assignment_key_ok (Root g)) (s_reorder s) →
  ∃ g', (∀ c o t, buildPromoteOps g s (tx c o t) =
      Ret (g', tx (c ++ move_cmps (promotion (s_reorder s))) (o ++ move_ops (Root g) (promotion (s_reorder s))) t)) ∧ recounted g g' keys.
Proof.
  intros Hc Hl. unfold buildPromoteOps. destruct (s_reorder s) as [|x l].
  { exists g. split; [|by apply recounted_refl]. intros. cbn. by rewrite !app_nil_r. }
  apply Forall_cons in Hl as [Hx _]. destruct (key_ok_asn _ _ Hx) as (Hf & _ & _). rewrite asAssignment_asn by apply Hx. cbn [outcome_bind promotion].
  rewrite <- asn_slot_asn. destruct (Z.eqb_spec (asn_slot x) 0).
  { exists g. split; [|by apply recounted_refl]. intros. cbn. by rewrite !app_nil_r. }
  rewrite MemberKey_mkey by done. cbn [outcome_bind]. pose proof Hc as ([[Hs _] _] & Ht & Hp).
  pose proof (Search_member (Members g) (mkey (Root g) (with_Slot (asn x) 0)) Hs) as Hse. destruct (Search _ _) as [ind [|]]; cbn [outcome_bind].
  - destruct Hse as (m & Hm & _). unfold add_at. destruct (lookup_lt_is_Some_2 (MemberPrimaryCount g) ind) as [k ->].
    { rewrite Hp. by apply lookup_lt_Some in Hm. }
    cbn [outcome_bind]. eexists. split; [intros; by rewrite buildMoveOps_spec|].
    eexists. split; [by rewrite <- Ht|]. by rewrite length_insert.
  - exists g. split; [intros; by rewrite buildMoveOps_spec|]. by apply recounted_refl.
Qed.

Lemma buildPackOps_spec g s c o t : Forall (assignment_key_ok (Root g)) (s_reorder s) →
  buildPackOps g s (tx c o t) = Ret (tx (c ++ move_cmps (packing 0 (s_reorder s))) (o ++ move_ops (Root g) (packing 0 (s_reorder s))) t).
Proof.
  unfold buildPackOps. generalize 0%nat. induction (s_reorder s) as [|x l IH]; intros i Hl; cbn [pack_from packing].
  { cbn. by rewrite !app_nil_r. }
  apply Forall_cons in Hl as [Hx Hl]. destruct (key_ok_asn _ _ Hx) as (Hf & _ & _). destruct (i =? 0)%nat; cbn [orb]; [by apply IH|].
  rewrite asAssignment_asn by apply Hx. cbn [outcome_bind]. rewrite <- asn_slot_asn. destruct (asn_slot x =? Z.of_nat i); [by apply IH|].
  by apply buildMoveOps_spec.
Qed.

(** *** A round for one item *)

(** What an item, its current and its desired assignments are, with the member keys [others] of
    the assignments of other items. *)
Record round_ok (g : State MV IV AV) (item : nat) (ikv : KV) (value : IV) (current : list KV) (desired : list (Assignment AV))
    (others : list string) : Prop := {
  ro_item : Items g !! item = Some ikv ∧ ∃ it, itemAt (Items g) item = Ret it ∧ it_Value it = value;
  ro_keys : Forall (assignment_key_ok (Root g)) current;
  ro_sorted : StronglySorted assignment_lt (asn <$> current);
  ro_slots : Forall (λ x, 0 ≤ asn_slot x < MaxInt64) current;
  ro_desired : StronglySorted assignment_lt desired;
  ro_members : Forall (add_ok g) desired;
  ro_bound : next_slot current + Z.of_nat (length desired) ≤ MaxInt64;
  ro_counts : counting g (mkeys (Root g) current ++ others);
}.

(** Edits within the constraints. *)
Record edits_ok (g : State MV IV AV) (value : IV) (current : list KV) (desired : list (Assignment AV))
    (add : list (Assignment AV)) (remove reorder : list KV) : Prop := {
  eo_add : add = filter (λ a, room g a) (slotted (next_slot current) (wanted current desired));
  eo_perm : remove ++ reorder ≡ₚ current;
  eo_remove : ∀ x, x ∈ remove → tag (asn x) ∉ tag <$> desired;
  eo_replication : let n := Z.of_nat (length (consistent value current current)) in
    Z.min n (DesiredReplication value) ≤ Z.of_nat (length (consistent value current reorder));
  eo_needed : let n := Z.of_nat (length (consistent value current current)) in
    (∃ x, x ∈ reorder ∧ tag (asn x) ∉ tag <$> desired) →
    n < DesiredReplication value ∨ Z.of_nat (length (consistent value current reorder)) = DesiredReplication value;
  eo_order : reordered g value current reorder;
}.

Definition round_moves (add : list (Assignment AV)) (remove reorder : list KV) : list (KV * Assignment AV) :=
  promotion reorder ++ if (length add =? 0)%nat && (length remove =? 0)%nat then packing 0 reorder else [].

Definition round_cmps (g : State MV IV AV) (ikv : KV) (add : list (Assignment AV)) (remove reorder : list KV) : list Cmp :=
  add_cmps g add ++ remove_cmps ikv remove ++ move_cmps (round_moves add remove reorder).
Definition round_ops (g : State MV IV AV) (add : list (Assignment AV)) (remove reorder : list KV) : list Op :=
  add_ops g add ++ remove_ops remove ++ move_ops (Root g) (round_moves add remove reorder).

Lemma split_current (desired : list (Assignment AV)) (current : list KV) : unwanted desired current ++ kept desired current ≡ₚ current.
Proof.
  unfold unwanted, kept. induction current as [|x l IH]; [done|]. rewrite !filter_cons. destruct (decide (tag (asn x) ∈ tag <$> desired)) as [H|H].
  - rewrite (decide_False (P := tag (asn x) ∉ _)) by tauto. rewrite <- Permutation_middle. by constructor.
  - rewrite (decide_True (P := tag (asn x) ∉ _)) by done. cbn. by constructor.
Qed.

Lemma consistent_perm (value : IV) (current l l' : list KV) : l ≡ₚ l' → length (consistent value current l) = length (consistent value current l').
Proof. intros Hp. unfold consistent. by rewrite Hp. Qed.

Lemma consistent_app (value : IV) (current l l' : list KV) :
  length (consistent value current (l ++ l')) = (length (consistent value current l) + length (consistent value current l'))%nat.
Proof. unfold consistent. by rewrite filter_app, length_app. Qed.

Lemma slotted_ok g n l : Forall (add_ok g) l → Forall (add_ok g) (slotted n l).
Proof.
  revert n. induction l as [|a l IH]; intros n Hl; [constructor|]. apply Forall_cons in Hl as [Ha Hl]. rewrite slotted_cons.
  constructor; [exact Ha|by apply IH].
Qed.

Lemma Forall_filter {A} (P : A → Prop) (Q : A → Prop) `{∀ x, Decision (Q x)} (l : list A) : Forall P l → Forall P (filter Q l).
Proof. rewrite !Forall_forall. intros Hl x [_ Hx]%list_elem_of_filter. auto. Qed.

(** Constraints and operations of the edits [init] derives. *)
Lemma constrain_edits g item ikv value current desired others : round_ok g item ikv value current desired others →
  ∃ s1 s2 s3, constrainRemovals g (mkItemState item current (slotted (next_slot current) (wanted current desired)) (unwanted desired current) (kept desired current)) = Ret s1 ∧
    constrainReorders g s1 = Ret s2 ∧ constrainAdds g s2 = Ret s3 ∧ s_item s3 = item ∧
    edits_ok g value current desired (s_add s3) (s_remove s3) (s_reorder s3).
Proof.
  intros [[Hik Hit] Hk Hs Hsl Hd Hm Hb Hc]. pose proof (counting_global _ _ Hc) as Hg. pose proof (split_current desired current) as Hsplit.
  set (s := mkItemState item current _ _ _).
  assert (Forall (assignment_key_ok (Root g)) (unwanted desired current ++ kept desired current)) as Hkk by (by rewrite Hsplit).
  apply Forall_app in Hkk as [Hku Hkk].
  destruct (constrainRemovals_spec g s value Hg Hku Hit) as (remove & back & Hrem & Hp & Hmin & Hnone & Hstop). cbn in Hrem, Hp, Hmin, Hnone, Hstop.
  assert (remove ++ kept desired current ++ back ≡ₚ current) as Hcur.
  { trans (unwanted desired current ++ kept desired current); [|done]. rewrite <- Hp. solve_Permutation. }
  assert (Forall (assignment_key_ok (Root g)) (kept desired current ++ back)) as Hk2 by (rewrite <- Hcur, Forall_app in Hk; tauto).
  assert (Forall (λ x, 0 ≤ asn_slot x) (kept desired current ++ back)) as Hs2.
  { rewrite <- Hcur, Forall_app in Hsl. destruct Hsl as [_ H]. eapply Forall_impl; [exact H|]. cbn. intros; lia. }
  set (s1 := mkItemState item current _ remove (kept desired current ++ back)) in Hrem.
  destruct (constrainReorders_spec g s1 value Hg Hk2 Hs2 Hit) as (reorder & Hreo & Hpr & Hord). cbn in Hreo, Hpr, Hord.
  set (s2 := mkItemState item current _ remove reorder) in Hreo.
  exists s1, s2, (mkItemState item current (filter (λ a, room g a) (s_add s2)) remove reorder).
  assert (remove ++ reorder ≡ₚ current) as Hpc by (by rewrite Hpr).
  assert (length (consistent value current current) = length (consistent value current remove) + length (consistent value current reorder))%nat as Hlen.
  { by rewrite <- consistent_app, (consistent_perm _ _ _ _ Hpc). }
  split_and!; [exact Hrem|exact Hreo| |done|].
  - unfold constrainAdds. rewrite (constrain_adds_spec g _ _ Hc); [done|]. apply slotted_ok. by apply Forall_filter.
  - split; cbn [s_add s_remove s_reorder]; [done|done| | | |done].
    + intros x Hx. assert (x ∈ unwanted desired current) as [? _]%list_elem_of_filter; [|done]. rewrite <- Hp. apply elem_of_app. by left.
    + cbv zeta. unfold consistent in *. lia.
    + intros (x & Hx & Hxd). rewrite Hpr in Hx. apply elem_of_app in Hx as [[? _]%list_elem_of_filter|Hx]; [done|].
      destruct (Z.le_gt_cases (DesiredReplication value) (Z.of_nat (length (consistent value current current)))) as [H|H]; [right|by left].
      assert (back ≠ []) as Hne by (by intros ->; apply elem_of_nil in Hx). specialize (Hstop H Hne). unfold consistent in *. lia.
Qed.

Lemma round_spec g item ikv value current desired others : round_ok g item ikv value current desired others →
  ∃ s g' add remove reorder, init item current desired = Ret s ∧ edits_ok g value current desired add remove reorder ∧
    (∀ t, constrainAndBuildOps g s t =
      (let! (t, err) := Checkpoint (tx (round_cmps g ikv add remove reorder) (round_ops g add remove reorder) t) in Ret (g', t, err))) ∧
    recounted g g' ((mkey (Root g) <$> add) ++ mkeys (Root g) reorder ++ others).
Proof.
  intros Hok. destruct (constrain_edits _ _ _ _ _ _ _ Hok) as (s1 & s2 & s3 & H1 & H2 & H3 & Hitem & He). pose proof Hok as [[Hik Hit] Hk Hs Hsl Hd Hm Hb Hc].
  rewrite init_spec; [|eapply Forall_impl; [exact Hk|]; by intros x [? _]|done..]. set (s := mkItemState item current _ _ _) in *.
  exists s. pose proof He as [Hadd Hp _ _ _ _].
  assert (Forall (assignment_key_ok (Root g)) (s_remove s3) ∧ Forall (assignment_key_ok (Root g)) (s_reorder s3)) as [Hkr Hko].
  { rewrite <- Hp, Forall_app in Hk. done. }
  assert (Forall (add_ok g) (s_add s3)) as Hao by (rewrite Hadd; apply Forall_filter, slotted_ok; by apply Forall_filter).
  destruct (buildAddOps_spec (s_add s3) g _ Hc Hao) as (g1 & Hb1 & Hr1). pose proof Hr1 as (p1 & Hg1 & _).
  pose proof (recounted_counting _ _ _ _ Hc Hr1) as Hc1.
  set (rest := (mkey (Root g) <$> s_add s3) ++ mkeys (Root g) (s_reorder s3) ++ others).
  destruct (buildRemoveOps_spec g1 s3 _ rest ikv Hc1) as (g2 & Hb2 & Hr2).
  { by rewrite Hg1, Hitem. } { by rewrite Hg1. }
  { rewrite Hg1. cbn [with_counts KS]. rewrite <- Permutation_rev. unfold rest.
    assert (mkeys (Root g) current ≡ₚ mkeys (Root g) (s_remove s3) ++ mkeys (Root g) (s_reorder s3)) as ->; [|solve_Permutation].
    unfold mkeys. by rewrite <- fmap_app, Hp. }
  pose proof Hr2 as (p2 & Hg2 & _). pose proof (recounted_counting _ _ _ _ Hc1 Hr2) as Hc2.
  destruct (buildPromoteOps_spec g2 s3 _ Hc2)
    as (g3 & Hb3 & Hr3); [by rewrite Hg2, Hg1|]. pose proof Hr3 as (p3 & Hg3 & _).
  exists g3, (s_add s3), (s_remove s3), (s_reorder s3). split; [done|]. split; [done|]. split.
  2: { eapply recounted_trans; [|exact Hr3]. by eapply recounted_trans. }
  intros t. unfold constrainAndBuildOps. rewrite H1. cbn [outcome_bind]. rewrite H2. cbn [outcome_bind]. rewrite H3. cbn [outcome_bind].
  unfold buildAddOps. rewrite <- (tx_nil t) at 1. rewrite Hb1. cbn [outcome_bind app]. rewrite Hb2. cbn [outcome_bind]. rewrite Hb3. cbn [outcome_bind].
  assert (Root g2 = Root g) as Hroot by (by rewrite Hg2, Hg1). unfold round_cmps, round_ops, round_moves. rewrite Hroot.
  destruct ((length (s_add s3) =? 0)%nat && (length (s_remove s3) =? 0)%nat).
  - rewrite buildPackOps_spec by (by rewrite Hg3, Hg2, Hg1). cbn [outcome_bind]. assert (Root g3 = Root g) as -> by (by rewrite Hg3).
    unfold move_cmps, move_ops. rewrite !fmap_app, !concat_app, <- !app_assoc. done.
  - cbn [outcome_bind]. rewrite !app_nil_r, <- !app_assoc. done.
Qed.
End txn.
End build_facts.

(** ** A concrete round *)

Module DemoRound.
Definition desired (id zone suffix : string) : Assignment unit := mkAssignment id zone suffix 0 None.

(** Item [x] is to move from member A#one to A#three. *)
Definition current : list (KeyValue (Entity Z Z unit)) :=
  [Demo.assignment "x" "A" "one" 1 10 "consistent"; Demo.assignment "x" "B" "two" 0 11 "consistent"].
Definition wants : list (Assignment unit) := [desired "x" "A" "three"; desired "x" "B" "two"].

Ltac assignment_order :=
  first [left; reflexivity | right; split; [reflexivity|]; first [left; reflexivity | right; split; reflexivity]].
Ltac assignments_sorted := repeat constructor; assignment_order.
End DemoRound.

Lemma init_correct_witness :
  ∃ s, init 0 DemoRound.current DemoRound.wants = Ret s ∧ (as_MemberSuffix <$> s_add s) = ["three"] ∧ (as_Slot <$> s_add s) = [2] ∧
    (asn_slot <$> s_remove s) = [1] ∧ (asn_slot <$> s_reorder s) = [0].
Proof.
  destruct (init_correct 0 DemoRound.current DemoRound.wants) as (s & Hs & _).
  - repeat constructor.
  - DemoRound.assignments_sorted.
  - DemoRound.assignments_sorted.
  - repeat constructor; vm_compute; discriminate.
  - vm_compute. discriminate.
  - exists s. split; [exact Hs|]. vm_compute in Hs. injection Hs as <-. repeat split.
Defined.

(** A member without room for items, and without primaries, has a load ratio that is not a number;
    it is preferred to a member with room if its slot is lower. *)
Definition draining : list (KeyValue (Entity Z Z unit)) :=
  [Demo.assignment "x" "A" "drained" 1 10 "consistent"; Demo.assignment "x" "B" "idle" 2 11 "consistent"].

Definition draining_state : State Z Z unit :=
  mkState Demo.ks "" [Demo.member "A" "drained" 3 0; Demo.member "B" "idle" 4 10] [Demo.item "x" 5 2] draining None [] ["A"; "B"] [0; 10] 2 0 [1; 1] [0; 0].

Lemma draining_member_promoted :
  memberLoadRatio draining_state (Demo.assignment "x" "A" "drained" 1 10 "consistent") (MemberPrimaryCount draining_state) = Ret S754_nan ∧
  ∃ s, constrainReorders draining_state (mkItemState 0 draining [] [] draining) = Ret s ∧
    (λ x, as_MemberSuffix (asn x)) <$> s_reorder s = ["drained"; "idle"].
Proof. vm_compute. split; [reflexivity|]. eexists. split; reflexivity. Qed.
