(* ===== verification/Rounds.v ===== *)
(** * Rounds of convergence (src/v2/pkg/allocator/item_state.go and [converge] of allocator.go)

    What the transactions of the allocator do to Etcd: the operations of an item turn its current
    assignments into the next ones, which keep the invariants of assignments; [converge] has a
    checkpoint for every item and removes the assignments that have none. *)
From S2P Require Import Prelude Encoding Protocol FragmentName KeySpace AllocKeys AllocState AllocTxn ItemState.
From Stdlib Require Import SpecFloat.
Local Open Scope Z_scope.

(** ** Etcd's store *)

(** Keys with their values and leases. *)
Definition store : Type := gmap string (string * Z).

Definition apply_op (σ : store) (o : Op) : store :=
  match o with
  | OpDelete k => delete k σ
  | OpPut k v l => <[k := (v, l)]> σ
  end.

Definition apply_ops (o : list Op) (σ : store) : store := foldl apply_op σ o.

Definition op_key (o : Op) : string := match o with OpDelete k => k | OpPut k _ _ => k end.

Definition op_entry (o : Op) : option (string * Z) := match o with OpDelete _ => None | OpPut _ v l => Some (v, l) end.

Lemma apply_op_lookup σ o k : apply_op σ o !! k = if decide (op_key o = k) then op_entry o else σ !! k.
Proof.
  destruct o as [k'|k' v l]; cbn; case_decide as Hk.
  - subst. apply lookup_delete_eq.
  - by apply lookup_delete_ne.
  - subst. apply lookup_insert_eq.
  - by apply lookup_insert_ne.
Qed.

(** With a key in one operation only, as Etcd demands, the order of operations does not matter. *)
Lemma apply_ops_lookup o : ∀ σ, NoDup (op_key <$> o) →
  (∀ x, x ∈ o → apply_ops o σ !! op_key x = op_entry x) ∧ (∀ k, k ∉ op_key <$> o → apply_ops o σ !! k = σ !! k).
Proof.
  induction o as [|x o IH]; intros σ Hnd.
  { split; [by intros x []%elem_of_nil|done]. }
  apply NoDup_cons in Hnd as [Hx Hnd]. destruct (IH (apply_op σ x) Hnd) as [H1 H2]. cbn [apply_ops foldl]. fold (apply_ops o (apply_op σ x)). split.
  - intros y [-> |Hy]%elem_of_cons; [|by apply H1]. rewrite H2, apply_op_lookup by done. by rewrite decide_True.
  - intros k [Hk Hko]%not_elem_of_cons. rewrite H2, apply_op_lookup by done. rewrite decide_False; [done|]. congruence.
Qed.

Section rounds.
Context {MV IV AV : Type} `{!MemberValue MV} `{!ItemValue MV IV AV} {Sort : SliceSort}.
Abbreviation KV := (KeyValue (Entity MV IV AV)).
Abbreviation kv_Key x := (k_Key (Raw x)).
Abbreviation Root g := (ks_Root (KS g)).

(** ** Keys of assignments *)

Definition pos (a : Assignment AV) : string * string * string * Z := (tag a, as_Slot a).

Lemma akey_inj root (a b : Assignment AV) : fields_ok a → fields_ok b → is_int64 (as_Slot a) → is_int64 (as_Slot b) →
  akey root a = akey root b → pos a = pos b.
Proof.
  intros (Hi & Hz & Hs) (Hi' & Hz' & Hs') Ha Hb Heq. unfold akey in Heq. apply str_app_inj, str_app_inj, (f_equal split_key) in Heq.
  rewrite !split_key_sep, !split_key_last in Heq by (done || apply Itoa_above). injection Heq as H1 H2 H3 H4.
  apply (f_equal Atoi) in H4. rewrite !Atoi_Itoa in H4 by done. unfold pos, tag. congruence.
Qed.

Definition asn_ok (a : Assignment AV) : Prop := fields_ok a ∧ is_int64 (as_Slot a).

Lemma NoDup_akey root (l : list (Assignment AV)) : Forall asn_ok l → NoDup (pos <$> l) → NoDup (akey root <$> l).
Proof.
  induction l as [|a l IH]; intros Hok Hnd; [constructor|]. apply Forall_cons in Hok as [Ha Hok]. apply NoDup_cons in Hnd as [Hn Hnd].
  constructor; [|by apply IH]. intros (b & Hk & Hb)%list_elem_of_fmap. apply Hn, list_elem_of_fmap. exists b. split; [|done].
  rewrite Forall_forall in Hok. destruct Ha, (Hok b Hb). by apply (akey_inj root).
Qed.

(** ** The next assignments of an item *)

(** The assignments kept, after the moves of a round. *)
Fixpoint packed (i : nat) (l : list KV) : list (Assignment AV) :=
  match l with
  | [] => []
  | x :: l => if asn_slot x =? Z.of_nat i then asn x :: packed (S i) l else with_Slot (asn x) (Z.of_nat i) :: (asn <$> l)
  end.

Definition settled (pack : bool) (l : list KV) : list (Assignment AV) :=
  match l with
  | [] => []
  | x :: l => with_Slot (asn x) 0 :: if pack then packed 1 l else asn <$> l
  end.

Lemma with_Slot_tag (a : Assignment AV) n : tag (with_Slot a n) = tag a.
Proof. done. Qed.

Lemma with_Slot_id (x : KV) n : asn_slot x = n → with_Slot (asn x) n = asn x.
Proof. intros <-. rewrite asn_slot_asn. by destruct (asn x). Qed.

Lemma packed_tags i l : tag <$> packed i l = tag <$> (asn <$> l).
Proof.
  revert i. induction l as [|x l IH]; intros i; cbn [packed]; [done|]. destruct (_ =? _); cbn [fmap list_fmap]; [f_equal; apply IH|]. done.
Qed.

Lemma settled_tags pack l : tag <$> settled pack l = tag <$> (asn <$> l).
Proof. destruct l as [|x l]; [done|]. cbn [settled fmap list_fmap]. f_equal. destruct pack; [apply packed_tags|done]. Qed.

(** Slots after packing: distinct, and none below the first index. *)
Lemma packed_slots l : ∀ i, StronglySorted (λ x y, asn_slot x ≤ asn_slot y) l → NoDup (asn_slot <$> l) → Forall (λ x, Z.of_nat i ≤ asn_slot x) l →
  NoDup (as_Slot <$> packed i l) ∧ Forall (λ a, Z.of_nat i ≤ as_Slot a) (packed i l).
Proof.
  induction l as [|x l IH]; intros i Hs Hnd Hge; cbn [packed]; [split; constructor|].
  apply StronglySorted_inv in Hs as [Hs Hx]. cbn in Hnd. apply NoDup_cons in Hnd as [Hxn Hnd]. apply Forall_cons in Hge as [Hxi Hge].
  assert (Forall (λ y, asn_slot x < asn_slot y) l) as Hgt.
  { rewrite Forall_forall in *. intros y Hy. specialize (Hx y Hy). assert (asn_slot x ≠ asn_slot y); [|lia].
    intros Heq. apply Hxn. rewrite Heq. apply list_elem_of_fmap. eauto. }
  destruct (Z.eqb_spec (asn_slot x) (Z.of_nat i)) as [Heq|Hne].
  - destruct (IH (S i) Hs Hnd) as [H1 H2]; [eapply Forall_impl; [exact Hgt|]; cbn; intros; lia|]. split.
    + cbn. constructor; [|done]. intros (a & Ha & Hin)%list_elem_of_fmap. rewrite Forall_forall in H2. specialize (H2 a Hin). rewrite asn_slot_asn in Heq. lia.
    + constructor; [rewrite <- asn_slot_asn; lia|]. eapply Forall_impl; [exact H2|]. cbn. intros; lia.
  - assert (as_Slot <$> (asn <$> l) = asn_slot <$> l) as Hss by (rewrite <- list_fmap_compose; apply list_fmap_ext; intros ? y _; cbn; by rewrite asn_slot_asn).
    split.
    + cbn [fmap list_fmap with_Slot as_Slot]. fold (fmap (M := list) as_Slot (asn <$> l)). rewrite Hss. constructor; [|done].
      intros (y & Hy & Hin)%list_elem_of_fmap. rewrite Forall_forall in Hgt. specialize (Hgt y Hin). lia.
    + constructor; [cbn; lia|]. apply Forall_fmap. eapply Forall_impl; [exact Hge|]. intros y Hy. cbn. by rewrite <- asn_slot_asn.
Qed.

(** What the order of kept assignments gives, whatever selects the primary. *)
Definition kept_order (l : list KV) : Prop :=
  match l with
  | [] => True
  | x :: rest => StronglySorted (λ x y, asn_slot x ≤ asn_slot y) rest ∧ NoDup (asn_slot <$> l) ∧ Forall (λ y, 0 < asn_slot y) rest
  end.

Lemma reordered_kept_order g value current l : reordered g value current l → NoDup (asn_slot <$> l) → Forall (λ x, 0 ≤ asn_slot x) l → kept_order l.
Proof.
  destruct l as [|x l]; [done|]. intros [Hs Hx] Hnd Hge. split_and!; [done..|]. destruct Hx as [H0|[Hall _]]; [|by apply Forall_cons in Hall as [_ ?]].
  cbn in Hnd. apply NoDup_cons in Hnd as [Hn _]. apply Forall_cons in Hge as [_ Hge]. rewrite Forall_forall in *. intros y Hy. specialize (Hge y Hy).
  assert (asn_slot x ≠ asn_slot y); [|lia]. intros Heq. apply Hn. rewrite Heq. apply list_elem_of_fmap. eauto.
Qed.

Lemma settled_slots pack l : kept_order l → NoDup (as_Slot <$> settled pack l) ∧ (l ≠ [] → 0 ∈ as_Slot <$> settled pack l) ∧
  Forall (λ a, 0 ≤ as_Slot a) (settled pack l).
Proof.
  destruct l as [|x l]; [intros _; split_and!; [constructor|done|constructor]|]. intros (Hs & Hnd & Hpos). cbn in Hnd. apply NoDup_cons in Hnd as [_ Hnd].
  assert (as_Slot <$> (asn <$> l) = asn_slot <$> l) as Hss by (rewrite <- list_fmap_compose; apply list_fmap_ext; intros ? y _; cbn; by rewrite asn_slot_asn).
  assert (NoDup (as_Slot <$> (if pack then packed 1 l else asn <$> l)) ∧ Forall (λ a, 0 < as_Slot a) (if pack then packed 1 l else asn <$> l)) as [H1 H2].
  { destruct pack.
    - destruct (packed_slots l 1 Hs Hnd) as [H1 H2]; [eapply Forall_impl; [exact Hpos|]; cbn; intros; lia|]. split; [done|].
      eapply Forall_impl; [exact H2|]. cbn. intros; lia.
    - rewrite Hss. split; [done|]. apply Forall_fmap. eapply Forall_impl; [exact Hpos|]. intros y Hy. cbn. by rewrite <- asn_slot_asn. }
  cbn [settled fmap list_fmap with_Slot as_Slot]. split_and!; [|by left|].
  - constructor; [|exact H1]. intros (a & Ha & Hin)%list_elem_of_fmap. rewrite Forall_forall in H2. specialize (H2 a Hin). lia.
  - constructor; [done|]. eapply Forall_impl; [exact H2|]. cbn. intros; lia.
Qed.

(** *** Moves *)

Lemma packing_sublist i (l : list KV) : sublist (fst <$> packing i l) l.
Proof.
  revert i. induction l as [|x l IH]; intros i; cbn [packing]; [constructor|]. destruct (_ || _); [by constructor|]. cbn. constructor. apply sublist_nil_l.
Qed.

Lemma moves_sublist (add : list (Assignment AV)) (remove reorder : list KV) : sublist (fst <$> round_moves add remove reorder) reorder.
Proof.
  unfold round_moves. rewrite fmap_app. destruct reorder as [|x l]; [cbn; by destruct (_ && _)|].
  assert (sublist (fst <$> (if (length add =? 0)%nat && (length remove =? 0)%nat then packing 0 (x :: l) else [])) l) as H.
  { destruct (_ && _); [|apply sublist_nil_l]. exact (packing_sublist 1 l). }
  cbn [promotion]. destruct (asn_slot x =? 0); cbn; by constructor.
Qed.

(** A kept assignment is moved to its next one, or stays. *)
Definition stays (moves : list (KV * Assignment AV)) (x : KV) (a : Assignment AV) : Prop :=
  (x, a) ∈ moves ∨ a = asn x ∧ tag (asn x) ∉ (λ m, tag (asn (fst m))) <$> moves.

Lemma packed_stays (l : list KV) : ∀ i, i ≠ 0%nat → NoDup ((λ x, tag (asn x)) <$> l) → Forall2 (stays (packing i l)) l (packed i l).
Proof.
  induction l as [|x l IH]; intros i Hi Hnd; cbn [packing packed]; [constructor|]. cbn in Hnd. apply NoDup_cons in Hnd as [Hx Hnd].
  rewrite (proj2 (Nat.eqb_neq i 0) Hi). cbn [orb]. destruct (asn_slot x =? Z.of_nat i).
  - constructor; [|by apply IH]. right. split; [done|]. intros (m & Hm & Hin)%list_elem_of_fmap. apply Hx. rewrite Hm.
    apply list_elem_of_fmap. exists (fst m). split; [done|]. eapply elem_of_sublist; [|apply (packing_sublist (S i))].
    apply list_elem_of_fmap. eauto.
  - constructor; [left; by left|]. apply Forall2_fmap_r, Forall_Forall2_diag. rewrite Forall_forall. intros y Hy. right. split; [done|].
    intros [Heq|[]%elem_of_nil]%elem_of_cons. apply Hx. cbn in Heq; rewrite <- Heq. apply list_elem_of_fmap. eauto.
Qed.

Lemma settled_stays (add : list (Assignment AV)) (remove reorder : list KV) : NoDup ((λ x, tag (asn x)) <$> reorder) → 
  Forall2 (stays (round_moves add remove reorder)) reorder (settled ((length add =? 0)%nat && (length remove =? 0)%nat) reorder).
Proof.
  destruct reorder as [|x l]; intros Hnd; [constructor|]. cbn in Hnd. apply NoDup_cons in Hnd as [Hx Hnd]. unfold round_moves. cbn [settled].
  set (pack := (length add =? 0)%nat && (length remove =? 0)%nat).
  assert (∀ y, y ∈ l → tag (asn y) ≠ tag (asn x)) as Hne by (intros y Hy Heq; apply Hx; rewrite <- Heq; apply list_elem_of_fmap; eauto).
  assert (∀ m, m ∈ (if pack then packing 0 (x :: l) else []) → fst m ∈ l) as Hsrc.
  { intros m Hm. destruct pack; [|by apply elem_of_nil in Hm]. cbn in Hm. eapply elem_of_sublist; [|apply (packing_sublist 1)].
    apply list_elem_of_fmap. eauto. }
  assert (∀ m, m ∈ promotion (x :: l) → fst m = x) as Hpr.
  { cbn. destruct (asn_slot x =? 0); [by intros m []%elem_of_nil|]. by intros m ->%list_elem_of_singleton. }
  constructor.
  - unfold promotion. destruct (Z.eqb_spec (asn_slot x) 0) as [H0|H0]; [|left; by left]. right. split; [by apply with_Slot_id|].
    intros (m & Hm & Hin)%list_elem_of_fmap. by apply (Hne (fst m) (Hsrc m Hin)).
  - assert (Forall2 (stays (if pack then packing 0 (x :: l) else [])) l (if pack then packed 1 l else asn <$> l)) as H.
    { destruct pack; [exact (packed_stays l 1 (Nat.neq_succ_0 0) Hnd)|]. apply Forall2_fmap_r, Forall_Forall2_diag. rewrite Forall_forall. intros y _. right.
      split; [done|apply not_elem_of_nil]. }
    apply Forall2_same_length_lookup in H as [Hlen H]. apply Forall2_same_length_lookup. split; [done|]. intros i y a Hy Ha.
    destruct (H i y a Hy Ha) as [Hin|[-> Hni]]; [left; apply elem_of_app; by right|]. right. split; [done|].
    rewrite fmap_app, elem_of_app. intros [(m & Hm & Hin)%list_elem_of_fmap|]; [|done]. rewrite (Hpr m Hin) in Hm.
    apply (Hne y); [|done]. by apply (list_elem_of_lookup_2 _ i).
Qed.

(** A move goes to the same member, at another slot. *)
Lemma moves_target (add : list (Assignment AV)) (remove reorder : list KV) m : m ∈ round_moves add remove reorder →
  tag (snd m) = tag (asn (fst m)) ∧ as_Slot (snd m) ≠ asn_slot (fst m) ∧ fields_ok (asn (fst m)) = fields_ok (snd m) ∧
  0 ≤ as_Slot (snd m) ≤ Z.of_nat (length reorder).
Proof.
  unfold round_moves. rewrite elem_of_app. intros [H|H].
  - destruct reorder as [|x l]; [by apply elem_of_nil in H|]. cbn in H. destruct (Z.eqb_spec (asn_slot x) 0); [by apply elem_of_nil in H|].
    apply list_elem_of_singleton in H as ->. cbn. split_and!; try done; lia.
  - destruct (_ && _); [|by apply elem_of_nil in H].
    assert (∀ (l : list KV) i, m ∈ packing i l → tag (snd m) = tag (asn (fst m)) ∧ as_Slot (snd m) ≠ asn_slot (fst m) ∧
      fields_ok (asn (fst m)) = fields_ok (snd m) ∧ 0 ≤ as_Slot (snd m) < Z.of_nat (i + length l)) as Hp.
    { clear. intros l. induction l as [|x l IH]; intros i; cbn [packing]; [by intros []%elem_of_nil|].
      destruct (Nat.eqb_spec i 0); cbn [orb]; [intros H%IH; cbn [length]; split_and!; try apply H; lia|].
      destruct (Z.eqb_spec (asn_slot x) (Z.of_nat i)); [intros H%IH; cbn [length]; split_and!; try apply H; lia|].
      intros ->%list_elem_of_singleton. cbn. split_and!; try done; lia. }
    apply Hp in H. split_and!; try apply H; lia.
Qed.

(** ** The operations of a round, on Etcd's store *)

(** The assignments whose keys a round writes. *)
Definition op_asns (add : list (Assignment AV)) (remove : list KV) (moves : list (KV * Assignment AV)) : list (Assignment AV) :=
  add ++ (asn <$> remove) ++ concat ((λ m, [asn (fst m); snd m]) <$> moves).

Lemma pos_tag (a : Assignment AV) (l : list (Assignment AV)) : pos a ∈ pos <$> l → tag a ∈ tag <$> l.
Proof. intros (b & Hb & Hin)%list_elem_of_fmap. apply list_elem_of_fmap. exists b. split; [|done]. exact (f_equal fst Hb). Qed.

Lemma NoDup_tag_pos (l : list (Assignment AV)) : NoDup (tag <$> l) → NoDup (pos <$> l).
Proof.
  induction l as [|a l IH]; cbn; [constructor|]. intros [Ha Hl]%NoDup_cons. constructor; [|by apply IH]. intros H. apply Ha. by apply pos_tag.
Qed.

Lemma NoDup_moves (moves : list (KV * Assignment AV)) :
  (∀ m, m ∈ moves → tag (snd m) = tag (asn (fst m)) ∧ as_Slot (snd m) ≠ asn_slot (fst m)) →
  NoDup ((λ m, tag (asn (fst m))) <$> moves) →
  NoDup (pos <$> concat ((λ m, [asn (fst m); snd m]) <$> moves)) ∧
  ∀ a, a ∈ concat ((λ m, [asn (fst m); snd m]) <$> moves) → tag a ∈ (λ m, tag (asn (fst m))) <$> moves.
Proof.
  induction moves as [|m moves IH]; cbn [fmap list_fmap concat app]; [intros _ _; split; [constructor|by intros a []%elem_of_nil]|].
  intros Hm [Hn Hnd]%NoDup_cons. destruct (Hm m ltac:(by left)) as [Ht Hs]. destruct IH as [IH1 IH2]; [intros; apply Hm; by right|done|].
  assert (∀ a, tag a = tag (asn (fst m)) → pos a ∉ pos <$> concat ((λ m, [asn (fst m); snd m]) <$> moves)) as Hout.
  { intros a Ha (b & Hb & Hin)%list_elem_of_fmap. apply Hn. pose proof (f_equal fst Hb) as Hbt; cbn in Hbt; rewrite <- Ha, Hbt. by apply IH2. }
  split.
  - constructor; [|constructor; [by apply Hout|done]]. apply not_elem_of_cons. split; [|by apply Hout]. rewrite asn_slot_asn in Hs. intros [= _ Heq]. done.
  - intros a [-> |[-> |Ha]%elem_of_cons]%elem_of_cons; [by left|rewrite Ht; by left|right; by apply IH2].
Qed.

Lemma wanted_tags n (current : list KV) (desired : list (Assignment AV)) : tag <$> slotted n (wanted current desired) = tag <$> (wanted current desired).
Proof.
  generalize (wanted current desired). intros l. revert n. induction l as [|d l IH]; intros n; [done|]. rewrite slotted_cons. cbn. f_equal. apply IH.
Qed.

Lemma sorted_tags (l : list (Assignment AV)) : StronglySorted assignment_lt l → NoDup (tag <$> l).
Proof.
  induction 1 as [|a l Hl IH Ha]; [constructor|]. cbn. constructor; [|done]. intros (b & Hb & Hin)%list_elem_of_fmap. rewrite Forall_forall in Ha.
  by apply (assignment_lt_tag a b (Ha b Hin)).
Qed.

Lemma tags_compose (l : list KV) : tag <$> (asn <$> l) = (λ x, tag (asn x)) <$> l.
Proof. by rewrite <- list_fmap_compose. Qed.

(** Tags of the edits: additions are of members without a current assignment. *)
Lemma edits_tags g value current desired add remove reorder : edits_ok g value current desired add remove reorder →
  StronglySorted assignment_lt (asn <$> current) → StronglySorted assignment_lt desired →
  NoDup (tag <$> add) ∧ (∀ a, a ∈ add → tag a ∉ (λ x, tag (asn x)) <$> current) ∧ NoDup ((λ x, tag (asn x)) <$> remove ++ reorder).
Proof.
  intros [-> Hp _ _ _ _] Hc Hd. assert (NoDup (tag <$> slotted (next_slot current) (wanted current desired))) as Hnd.
  { rewrite wanted_tags. eapply sublist_NoDup; [apply (sorted_tags desired Hd)|]. apply fmap_sublist, sublist_filter. }
  split_and!.
  - eapply sublist_NoDup; [exact Hnd|]. apply fmap_sublist, sublist_filter.
  - intros a [_ Ha]%list_elem_of_filter Hin. apply (list_elem_of_fmap_2 tag) in Ha. rewrite wanted_tags in Ha.
    apply list_elem_of_fmap in Ha as (d & Hd' & [Hn _]%list_elem_of_filter). apply Hn. by rewrite <- Hd'.
  - rewrite Hp, <- tags_compose. by apply sorted_tags.
Qed.

Lemma op_asns_NoDup g value current desired add remove reorder : edits_ok g value current desired add remove reorder →
  StronglySorted assignment_lt (asn <$> current) → StronglySorted assignment_lt desired →
  NoDup (pos <$> op_asns add remove (round_moves add remove reorder)).
Proof.
  intros He Hc Hd. destruct (edits_tags _ _ _ _ _ _ _ He Hc Hd) as (Ha & Hout & Hnd). pose proof (eo_perm _ _ _ _ _ _ _ He) as Hp.
  rewrite fmap_app in Hnd. apply NoDup_app in Hnd as (Hr & Hdis & Ho).
  assert (NoDup ((λ m, tag (asn (fst m))) <$> round_moves add remove reorder)) as Hm.
  { eapply sublist_NoDup; [exact Ho|]. change (λ m : KV * Assignment AV, tag (asn (fst m))) with ((λ x : KV, tag (asn x)) ∘ @fst KV (Assignment AV)). rewrite list_fmap_compose. apply fmap_sublist, moves_sublist. }
  destruct (NoDup_moves (round_moves add remove reorder)) as [Hmn Hmt]; [intros m Hin; by destruct (moves_target _ _ _ m Hin) as (? & ? & _)|done|].
  assert (∀ a : Assignment AV, tag a ∈ (λ m, tag (asn (fst m))) <$> round_moves add remove reorder → tag a ∈ (λ x : KV, tag (asn x)) <$> reorder) as Hsrc.
  { intros a (m & Hm' & Hin)%list_elem_of_fmap. rewrite Hm'. apply list_elem_of_fmap. exists (fst m). split; [done|].
    eapply elem_of_sublist; [|apply moves_sublist]. apply list_elem_of_fmap. eauto. }
  unfold op_asns. rewrite !fmap_app. apply NoDup_app. split_and!; [by apply NoDup_tag_pos| |apply NoDup_app; split_and!; [apply NoDup_tag_pos; by rewrite tags_compose| |done]].
  - intros p (a & -> & Hin)%list_elem_of_fmap. rewrite <- fmap_app. intros Hpos%pos_tag. apply (Hout a Hin).
    rewrite fmap_app, elem_of_app, tags_compose in Hpos. rewrite <- Hp, fmap_app, elem_of_app. destruct Hpos as [?|Hpos]; [by left|right].
    apply list_elem_of_fmap in Hpos as (b & Hb & Hin'). apply Hsrc. rewrite Hb. by apply Hmt.
  - intros p (a & -> & Hin)%list_elem_of_fmap Hpos%pos_tag. apply (Hdis (tag a)).
    + apply list_elem_of_fmap in Hin as (x & -> & Hx). apply list_elem_of_fmap. eauto.
    + apply list_elem_of_fmap in Hpos as (b & Hb & Hin'). apply Hsrc. rewrite Hb. by apply Hmt.
Qed.

Lemma round_ops_keys g add remove reorder : Forall (λ a, is_Some (member_of g a)) add → Forall (assignment_key_ok (Root g)) (remove ++ reorder) →
  op_key <$> round_ops g add remove reorder = akey (Root g) <$> op_asns add remove (round_moves add remove reorder).
Proof.
  intros Ha [Hr Ho]%Forall_app. unfold round_ops, op_asns. rewrite !fmap_app. f_equal; [|f_equal].
  - unfold add_ops. induction Ha as [|a l [m Hm] Hl IH]; [done|]. cbn [omap list_omap]. rewrite Hm. cbn [fmap option_fmap option_map list_fmap op_key]. f_equal. apply IH.
  - unfold remove_ops. rewrite <- !list_fmap_compose. rewrite Forall_forall in Hr. apply list_fmap_ext. intros i x Hx. cbn.
    apply key_ok_asn, Hr. by apply (list_elem_of_lookup_2 _ i).
  - pose proof (moves_sublist add remove reorder) as Hsub. rewrite Forall_forall in Ho.
    assert (∀ m, m ∈ round_moves add remove reorder → kv_Key (fst m) = akey (Root g) (asn (fst m))) as Hk.
    { intros m Hm. apply key_ok_asn, Ho. eapply elem_of_sublist; [|exact Hsub]. apply list_elem_of_fmap. eauto. }
    clear Hsub. unfold move_ops. induction (round_moves add remove reorder) as [|m l IH]; [done|]. cbn [fmap list_fmap concat app op_key].
    rewrite (Hk m) by left. do 2 f_equal. apply IH. intros; apply Hk; by right.
Qed.

(** The entries that a round leaves under the keys of an item's assignments, and the keys it leaves alone. *)
Record turns_into (g : State MV IV AV) (current : list KV) (add : list (Assignment AV)) (reorder : list KV) (settled : list (Assignment AV))
    (σ σ' : store) : Prop := {
  ti_added : ∀ a m, a ∈ add → member_of g a = Some m → σ' !! akey (Root g) a = Some ("", k_Lease (Raw m));
  ti_kept : Forall2 (λ x a, σ' !! akey (Root g) a = Some (k_Value (Raw x), k_Lease (Raw x))) reorder settled;
  ti_removed : ∀ x, x ∈ current → kv_Key x ∉ akey (Root g) <$> add ++ settled → σ' !! kv_Key x = None;
  ti_others : ∀ k, k ∉ akey (Root g) <$> add ++ settled → k ∉ (λ x : KV, kv_Key x) <$> current → σ' !! k = σ !! k;
}.

Lemma elem_of_concat_fmap {A B} (f : A → list B) (l : list A) x y : x ∈ l → y ∈ f x → y ∈ concat (f <$> l).
Proof.
  induction l as [|z l IH]; [by intros []%elem_of_nil|]. cbn. intros [-> |Hx]%elem_of_cons Hy; apply elem_of_app; [by left|right; auto].
Qed.

Lemma NoDup_fmap_eq {A B} (f : A → B) (l : list A) a b : NoDup (f <$> l) → a ∈ l → b ∈ l → f a = f b → a = b.
Proof.
  intros Hnd [i Hi]%list_elem_of_lookup [j Hj]%list_elem_of_lookup Hf.
  assert (i = j) as ->; [|congruence]. eapply NoDup_lookup; [exact Hnd| |]; rewrite list_lookup_fmap; [by rewrite Hi|by rewrite Hj, Hf].
Qed.

(** The targets of moves are among the settled assignments. *)
Lemma moves_settled (moves : list (KV * Assignment AV)) reorder l m : Forall2 (stays moves) reorder l →
  NoDup ((λ m, tag (asn (fst m))) <$> moves) → m ∈ moves → fst m ∈ reorder → snd m ∈ l.
Proof.
  intros [Hlen Hlk]%Forall2_same_length_lookup Hnd Hm [i Hi]%list_elem_of_lookup.
  destruct (lookup_lt_is_Some_2 l i) as [a Ha]; [rewrite <- Hlen; by apply lookup_lt_Some in Hi|].
  destruct (Hlk i (fst m) a Hi Ha) as [Hin|[_ Hni]].
  - assert (m = (fst m, a)) as -> by (by apply (NoDup_fmap_eq _ _ _ _ Hnd)). by apply (list_elem_of_lookup_2 _ i).
  - destruct Hni. apply list_elem_of_fmap. eauto.
Qed.

Lemma elem_of_concat_fmap_inv {A B} (f : A → list B) (l : list A) y : y ∈ concat (f <$> l) → ∃ x, x ∈ l ∧ y ∈ f x.
Proof.
  induction l as [|z l IH]; [by intros []%elem_of_nil|]. cbn. intros [Hy|Hy]%elem_of_app; [exists z; split; [by left|done]|].
  destruct (IH Hy) as (x & ? & ?). exists x. split; [by right|done].
Qed.

(** An assignment that stays is at no key of the operations. *)
Lemma stays_out current add remove reorder x : remove ++ reorder ≡ₚ current →
  (∀ a, a ∈ add → tag a ∉ (λ x, tag (asn x)) <$> current) → NoDup ((λ x, tag (asn x)) <$> remove ++ reorder) →
  x ∈ reorder → tag (asn x) ∉ (λ m, tag (asn (fst m))) <$> round_moves add remove reorder →
  tag (asn x) ∉ tag <$> op_asns add remove (round_moves add remove reorder).
Proof.
  intros Hp Hadd Hnd Hx Hm (b & Hb & Hin)%list_elem_of_fmap. unfold op_asns in Hin. rewrite !elem_of_app in Hin. destruct Hin as [Hin|[Hin|Hin]].
  - apply (Hadd b Hin). rewrite <- Hb, <- Hp. apply list_elem_of_fmap. exists x. split; [done|]. apply elem_of_app. by right.
  - apply list_elem_of_fmap in Hin as (y & -> & Hy). rewrite fmap_app in Hnd. apply NoDup_app in Hnd as (_ & Hdis & _).
    apply (Hdis (tag (asn x))); apply list_elem_of_fmap; eauto.
  - apply Hm. apply elem_of_concat_fmap_inv in Hin as (m & Hmin & Hbm).
    apply list_elem_of_fmap. exists m. split; [|done]. rewrite Hb.
    apply elem_of_cons in Hbm as [-> | ->%list_elem_of_singleton]; [done|]. by destruct (moves_target _ _ _ m Hmin) as (? & _).
Qed.

Lemma round_store g value current desired add remove reorder σ : edits_ok g value current desired add remove reorder →
  StronglySorted assignment_lt (asn <$> current) → Forall (assignment_key_ok (Root g)) current →
  StronglySorted assignment_lt desired → Forall asn_ok (op_asns add remove (round_moves add remove reorder)) → Forall (λ x, is_int64 (asn_slot x)) current →
  Forall (λ a, is_Some (member_of g a)) add → NoDup (op_key <$> round_ops g add remove reorder) →
  (∀ x, x ∈ current → σ !! kv_Key x = Some (k_Value (Raw x), k_Lease (Raw x))) →
  turns_into g current add reorder (settled ((length add =? 0)%nat && (length remove =? 0)%nat) reorder) σ (apply_ops (round_ops g add remove reorder) σ).
Proof.
  intros He Hs Hk Hd Hok Hi64 Ha Hnd Hσ. pose proof (eo_perm _ _ _ _ _ _ _ He) as Hp. destruct (edits_tags _ _ _ _ _ _ _ He Hs Hd) as (_ & Hadd & Htags). destruct (apply_ops_lookup _ σ Hnd) as [Hin Hout].
  rewrite <- Hp in Hk. pose proof (round_ops_keys g add remove reorder Ha Hk) as Hkeys.
  assert (∀ x, x ∈ remove ++ reorder → kv_Key x = akey (Root g) (asn x)) as Hkx by (intros x Hx; rewrite Forall_forall in Hk; by apply key_ok_asn, Hk).
  set (moves := round_moves add remove reorder) in *.
  assert (∀ m, m ∈ moves → fst m ∈ reorder) as Hsrc.
  { intros m Hm. eapply elem_of_sublist; [|apply (moves_sublist add remove)]. apply list_elem_of_fmap. eauto. }
  assert (∀ m o, m ∈ moves → o ∈ [OpDelete (kv_Key (fst m)); OpPut (akey (Root g) (snd m)) (k_Value (Raw (fst m))) (k_Lease (Raw (fst m)))] →
    o ∈ round_ops g add remove reorder) as Hmo.
  { intros m o Hm Ho. unfold round_ops. rewrite !elem_of_app. right; right. by apply (elem_of_concat_fmap _ _ m). }
  assert (∀ x, x ∈ remove → apply_ops (round_ops g add remove reorder) σ !! kv_Key x = None) as Hrm.
  { intros x Hx. apply (Hin (OpDelete (kv_Key x))). unfold round_ops. rewrite !elem_of_app. right; left. apply list_elem_of_fmap. eauto. }
  pose proof (settled_stays add remove reorder) as Hst. fold moves in Hst. pose proof Htags as Htags0. rewrite fmap_app in Htags. pose proof Htags as (Htr & Htd & Hto)%NoDup_app. specialize (Hst Hto).
  pose proof Hst as [Hlen Hlk]%Forall2_same_length_lookup. split.
  - intros a m Ha' Hm. apply (Hin (OpPut (akey (Root g) a) "" (k_Lease (Raw m)))). unfold round_ops. apply elem_of_app. left. unfold add_ops.
    apply list_elem_of_omap. exists a. by rewrite Hm.
  - apply Forall2_same_length_lookup_2; [done|]. intros i x a Hx Ha'. assert (x ∈ reorder) as Hxr by (by apply (list_elem_of_lookup_2 _ i)).
    destruct (Hlk i x a Hx Ha') as [Hm|[-> Hm]].
    + apply (Hin (OpPut (akey (Root g) a) (k_Value (Raw x)) (k_Lease (Raw x)))), (Hmo (x, a) _ Hm). right. by left.
    + rewrite <- Hkx by (apply elem_of_app; by right). rewrite Hout; [apply Hσ; rewrite <- Hp; apply elem_of_app; by right|].
      rewrite Hkeys, Hkx by (apply elem_of_app; by right). intros (b & Hb & Hbin)%list_elem_of_fmap.
      apply (stays_out current add remove reorder x Hp Hadd Htags0 Hxr Hm), (pos_tag (asn x)), list_elem_of_fmap. exists b. split; [|done].
      rewrite Forall_forall in Hok. rewrite Forall_forall in Hk. rewrite Forall_forall in Hi64. destruct (Hok b Hbin) as [? ?]. apply (akey_inj (Root g)); try done.
      * apply (key_ok_asn (Root g)), Hk, elem_of_app. by right.
      * rewrite <- asn_slot_asn. apply Hi64. rewrite <- Hp. apply elem_of_app. by right.
  - intros x Hx Hnk. rewrite <- Hp in Hx. apply elem_of_app in Hx as [Hx|Hx]; [by apply Hrm|]. apply list_elem_of_lookup in Hx as [i Hx].
    destruct (lookup_lt_is_Some_2 (settled ((length add =? 0)%nat && (length remove =? 0)%nat) reorder) i) as [a Ha']; [rewrite <- Hlen; by apply lookup_lt_Some in Hx|].
    destruct (Hlk i x a Hx Ha') as [Hm|[-> _]].
    + apply (Hin (OpDelete (kv_Key x))), (Hmo (x, a) _ Hm). by left.
    + destruct Hnk. rewrite Hkx by (apply elem_of_app; right; by apply (list_elem_of_lookup_2 _ i)). apply list_elem_of_fmap. exists (asn x). split; [done|].
      apply elem_of_app. right. by apply (list_elem_of_lookup_2 _ i).
  - intros k Hk1 Hk2. apply Hout. rewrite Hkeys. intros (b & -> & Hb)%list_elem_of_fmap. unfold op_asns in Hb. rewrite !elem_of_app in Hb.
    destruct Hb as [Hb|[Hb|Hb]].
    + apply Hk1, list_elem_of_fmap. exists b. split; [done|]. apply elem_of_app. by left.
    + apply list_elem_of_fmap in Hb as (x & -> & Hx). apply Hk2, list_elem_of_fmap. exists x. split; [symmetry; apply Hkx, elem_of_app; by left|].
      rewrite <- Hp. apply elem_of_app. by left.
    + apply elem_of_concat_fmap_inv in Hb as (m & Hm & [-> | ->%list_elem_of_singleton]%elem_of_cons).
      * apply Hk2, list_elem_of_fmap. exists (fst m). split; [symmetry; apply Hkx, elem_of_app; right; by apply Hsrc|].
        rewrite <- Hp. apply elem_of_app. right. by apply Hsrc.
      * apply Hk1, list_elem_of_fmap. exists (snd m). split; [done|]. apply elem_of_app. right. apply (moves_settled moves reorder _ m Hst); [|done|by apply Hsrc].
        eapply sublist_NoDup; [exact Hto|]. change (λ m : KV * Assignment AV, tag (asn (fst m))) with ((λ x : KV, tag (asn x)) ∘ @fst KV (Assignment AV)).
        rewrite list_fmap_compose. apply fmap_sublist, moves_sublist.
Qed.

(** ** What a round does *)

Lemma slotted_slots n (l : list (Assignment AV)) :
  NoDup (as_Slot <$> slotted n l) ∧ Forall (λ a, n ≤ as_Slot a < n + Z.of_nat (length l)) (slotted n l).
Proof.
  revert n. induction l as [|a l IH]; intros n; [split; constructor|]. rewrite slotted_cons. destruct (IH (n + 1)) as [H1 H2].
  assert (Forall (λ a, n < as_Slot a < n + Z.of_nat (length (a :: l))) (slotted (n + 1) l)) as H3.
  { eapply Forall_impl; [exact H2|]. cbn [length]. intros; lia. }
  split.
  - cbn. constructor; [|done]. intros (b & Hb & Hin)%list_elem_of_fmap. rewrite Forall_forall in H3. specialize (H3 b Hin). lia.
  - constructor; [cbn; lia|]. eapply Forall_impl; [exact H3|]. cbn. intros; lia.
Qed.

(** The next assignments of an item are well-formed. *)
Record next_ok (next : list (Assignment AV)) : Prop := {
  no_members : NoDup (tag <$> next);
  no_slots : NoDup (as_Slot <$> next);
  no_nonneg : Forall (λ a, 0 ≤ as_Slot a) next;
}.

Section round.
Context (g : State MV IV AV) (item : nat) (ikv : KV) (value : IV) (current : list KV) (desired : list (Assignment AV)) (others : list string).
Context (Hok : round_ok g item ikv value current desired others) (Hslots : NoDup (asn_slot <$> current)) (Hlen : Z.of_nat (length current) ≤ MaxInt64).
Context (add : list (Assignment AV)) (remove reorder : list KV) (He : edits_ok g value current desired add remove reorder).
Abbreviation pack := ((length add =? 0)%nat && (length remove =? 0)%nat).

Lemma add_slots : NoDup (as_Slot <$> add) ∧ Forall (λ a, next_slot current ≤ as_Slot a ≤ MaxInt64) add ∧ Forall (add_ok g) add.
Proof.
  pose proof (eo_add _ _ _ _ _ _ _ He) as ->. destruct (slotted_slots (next_slot current) (wanted current desired)) as [H1 H2].
  assert (length (wanted current desired) ≤ length desired)%nat as Hl by apply length_filter. pose proof (ro_bound _ _ _ _ _ _ _ Hok). split_and!.
  - eapply sublist_NoDup; [exact H1|]. apply fmap_sublist, sublist_filter.
  - apply Forall_filter. eapply Forall_impl; [exact H2|]. cbn. intros; lia.
  - apply Forall_filter, slotted_ok, Forall_filter. by destruct Hok.
Qed.

Lemma reorder_order : kept_order reorder.
Proof.
  pose proof (eo_perm _ _ _ _ _ _ _ He) as Hp. eapply reordered_kept_order; [exact (eo_order _ _ _ _ _ _ _ He)| |].
  - rewrite <- Hp, fmap_app, NoDup_app in Hslots. tauto.
  - pose proof (ro_slots _ _ _ _ _ _ _ Hok) as Hs. rewrite <- Hp, Forall_app in Hs. destruct Hs as [_ Hs]. eapply Forall_impl; [exact Hs|]. cbn. intros; lia.
Qed.

Lemma next_slot_nonneg : 0 ≤ next_slot current.
Proof. by apply max_slot_spec; [eapply Forall_impl; [exact (ro_keys _ _ _ _ _ _ _ Hok)|]; intros x [? _]|destruct Hok]. Qed.

Lemma round_next_ok : next_ok (add ++ settled pack reorder) ∧ (reorder ≠ [] → 0 ∈ as_Slot <$> add ++ settled pack reorder).
Proof.
  destruct (edits_tags _ _ _ _ _ _ _ He (ro_sorted _ _ _ _ _ _ _ Hok) (ro_desired _ _ _ _ _ _ _ Hok)) as (Ht & Hout & Hnd).
  destruct add_slots as (Has & Hab & _). destruct (settled_slots pack reorder reorder_order) as (Hss & Hprim & Hsn).
  pose proof (eo_perm _ _ _ _ _ _ _ He) as Hp. pose proof next_slot_nonneg as Hn. split; [split|].
  - rewrite fmap_app. apply NoDup_app. split_and!; [done| |].
    + intros p (a & -> & Ha)%list_elem_of_fmap Hin. apply (Hout a Ha). rewrite settled_tags, tags_compose in Hin. rewrite <- Hp, fmap_app. apply elem_of_app. by right.
    + rewrite settled_tags, tags_compose. rewrite fmap_app, NoDup_app in Hnd. tauto.
  - rewrite fmap_app. apply NoDup_app. split_and!; [done| |done]. intros p (a & -> & Ha)%list_elem_of_fmap (b & Hb & Hin)%list_elem_of_fmap.
    rewrite Forall_forall in Hab. specialize (Hab a Ha) as [Hge _]. destruct add as [|a0 add']; [by apply elem_of_nil in Ha|]. cbn [length Nat.eqb andb] in Hin.
    destruct reorder as [|x l]; [by apply elem_of_nil in Hin|]. assert (∀ y, y ∈ x :: l → asn_slot y < next_slot current) as Hlt.
    { intros y Hy. apply next_slot_ge. rewrite <- Hp. apply elem_of_app. by right. }
    apply elem_of_cons in Hin as [-> |(y & -> & Hy)%list_elem_of_fmap].
    + cbn in Hb. assert (0 ≤ asn_slot x); [|specialize (Hlt x ltac:(by left)); lia].
      pose proof (ro_slots _ _ _ _ _ _ _ Hok) as Hs. rewrite Forall_forall in Hs. apply Hs. rewrite <- Hp. apply elem_of_app. right. by left.
    + specialize (Hlt y ltac:(by right)). rewrite asn_slot_asn in Hlt. lia.
  - apply Forall_app. split; [|done]. eapply Forall_impl; [exact Hab|]. cbn. intros; lia.
  - intros H. rewrite fmap_app. apply elem_of_app. right. by apply Hprim.
Qed.

Lemma round_asns_ok : Forall asn_ok (op_asns add remove (round_moves add remove reorder)).
Proof.
  pose proof (eo_perm _ _ _ _ _ _ _ He) as Hp. pose proof (ro_keys _ _ _ _ _ _ _ Hok) as Hk. pose proof (ro_slots _ _ _ _ _ _ _ Hok) as Hs.
  rewrite Forall_forall in Hk. rewrite Forall_forall in Hs. destruct add_slots as (_ & Hab & Hao). pose proof next_slot_nonneg. unfold MaxInt64 in *.
  assert (∀ x, x ∈ current → asn_ok (asn x)) as Hx.
  { intros x Hx. split; [by apply (key_ok_asn (Root g)), Hk|]. specialize (Hs x Hx). rewrite <- asn_slot_asn. unfold is_int64, MinInt64, MaxInt64. lia. }
  unfold op_asns. rewrite !Forall_app. split_and!.
  - rewrite Forall_forall in *. intros a Ha. specialize (Hab a Ha). destruct (Hao a Ha) as [? _]. split; [done|]. unfold is_int64, MinInt64, MaxInt64. lia.
  - apply Forall_fmap, Forall_forall. intros x Hin. apply Hx. rewrite <- Hp. apply elem_of_app. by left.
  - apply Forall_forall. intros a (m & Hm & Ha)%elem_of_concat_fmap_inv. assert (fst m ∈ current) as Hf.
    { rewrite <- Hp. apply elem_of_app. right. eapply elem_of_sublist; [|apply (moves_sublist add remove)]. apply list_elem_of_fmap. eauto. }
    apply elem_of_cons in Ha as [-> | ->%list_elem_of_singleton]; [by apply Hx|]. destruct (moves_target _ _ _ m Hm) as (_ & _ & Hfo & Hsl).
    destruct (Hx _ Hf) as [Hfx _]. split; [by rewrite <- Hfo|]. assert (length reorder ≤ length current)%nat by (rewrite <- Hp, length_app; lia).
    unfold is_int64, MinInt64, MaxInt64. lia.
Qed.

Lemma add_members : Forall (λ a, is_Some (member_of g a)) add.
Proof.
  destruct add_slots as (_ & _ & Hao). destruct (ro_counts _ _ _ _ _ _ _ Hok) as ([[Hs _] _] & _). eapply Forall_impl; [exact Hao|]. intros a [_ Hm].
  destruct (member_of_found g a Hs Hm) as (? & m & _ & _ & _ & ->). eauto.
Qed.

Lemma round_keys : NoDup (op_key <$> round_ops g add remove reorder).
Proof.
  rewrite round_ops_keys; [|exact add_members|by rewrite (eo_perm _ _ _ _ _ _ _ He); destruct Hok]. apply NoDup_akey; [exact round_asns_ok|].
  eapply op_asns_NoDup; [exact He|by destruct Hok..].
Qed.
End round.

(** C13: the operations that a round has for an item turn its current assignments into the next
    ones, in Etcd's store: those added are put with the lease of their member, those kept are
    there with their values and leases, moved or not, those removed are gone, and no other key
    changes. No two operations have a key in common, as Etcd demands of a transaction. The next
    assignments again are of different members and have different slots, and one is primary if
    any current one was kept. *)
Theorem round_correct {T} `{checkpointLaws T} g item ikv value current desired others (t : T) :
  round_ok g item ikv value current desired others → NoDup (asn_slot <$> current) → Z.of_nat (length current) ≤ MaxInt64 →
  ∃ s g' cmps ops add remove reorder next, init item current desired = Ret s ∧
    constrainAndBuildOps g s t = (let! (t, err) := Checkpoint (Then ops (If cmps t)) in Ret (g', t, err)) ∧
    remove ++ reorder ≡ₚ current ∧ NoDup (op_key <$> ops) ∧
    (∀ σ, (∀ x, x ∈ current → σ !! kv_Key x = Some (k_Value (Raw x), k_Lease (Raw x))) →
       turns_into g current add reorder next σ (apply_ops ops σ)) ∧
    next_ok (add ++ next) ∧ (reorder ≠ [] → 0 ∈ as_Slot <$> add ++ next).
Proof.
  intros Hok Hslots Hlen. destruct (round_spec g item ikv value current desired others Hok) as (s & g' & add & remove & reorder & Hi & He & Hb & Hr).
  exists s, g', (round_cmps g ikv add remove reorder), (round_ops g add remove reorder), add, remove, reorder, (settled ((length add =? 0)%nat && (length remove =? 0)%nat) reorder).
  split; [done|]. split; [exact (Hb t)|]. split; [by destruct He|]. pose proof (round_keys _ _ _ _ _ _ _ Hok Hlen _ _ _ He) as Hnd.
  split; [done|]. split; [|by eapply round_next_ok].
  intros σ Hσ. eapply round_store; try done; [by destruct Hok..|by eapply round_asns_ok| |by eapply add_members].
  eapply Forall_impl; [exact (ro_slots _ _ _ _ _ _ _ Hok)|]. cbn. unfold is_int64, MinInt64, MaxInt64. intros; lia.
Qed.

(** ** Constraints of a round *)

(** The number of [keys] that are of the member [m]. *)
Definition load (keys : list string) (m : KV) : Z := Z.of_nat (length (filter (λ k, k = kv_Key m) keys)).

Lemma load_app k1 k2 m : load (k1 ++ k2) m = load k1 m + load k2 m.
Proof. unfold load. rewrite filter_app, length_app. lia. Qed.

Lemma load_perm k1 k2 m : k1 ≡ₚ k2 → load k1 m = load k2 m.
Proof. intros Hp. unfold load. by rewrite Hp. Qed.

Lemma load_nonneg k m : 0 ≤ load k m ≤ Z.of_nat (length k).
Proof. unfold load. pose proof (length_filter (λ x, x = kv_Key m) k). lia. Qed.

Lemma mkey_inj root (a b : Assignment AV) : fields_ok a → fields_ok b → as_ItemID a = as_ItemID b → mkey root a = mkey root b → tag a = tag b.
Proof.
  intros (_ & Hz & Hs) (_ & Hz' & Hs') Hid Heq. unfold mkey in Heq. apply str_app_inj, str_app_inj, (f_equal split_key) in Heq.
  rewrite !split_key_sep, !split_key_last in Heq by done. injection Heq as H1 H2. unfold tag. congruence.
Qed.

(** A member has at most one addition of an item, and only below its limit. *)
Lemma add_load g keys add id m : counting g keys → Z.of_nat (length keys) ≤ MaxInt64 → m ∈ Members g →
  Forall (λ a, add_ok g a ∧ as_ItemID a = id ∧ room g a = true) add → NoDup (tag <$> add) →
  load (mkey (Root g) <$> add) m = 0 ∨ load (mkey (Root g) <$> add) m = 1 ∧ load keys m < limit_of m.
Proof.
  intros Hc Hlen Hm. induction add as [|a add IH]; intros Hadd Hnd; [by left|]. apply Forall_cons in Hadd as [(Ha & Hid & Hroom) Hadd].
  cbn in Hnd. apply NoDup_cons in Hnd as [Hn Hnd]. cbn [fmap list_fmap]. unfold load at 1 2. rewrite filter_cons. case_decide as Hk.
  - right. assert (load (mkey (Root g) <$> add) m = 0) as H0.
    { unfold load. rewrite list_filter_none; [done|]. intros k (b & -> & Hb)%list_elem_of_fmap Hkb. apply Hn, list_elem_of_fmap. exists b. split; [|done].
      rewrite Forall_forall in Hadd. destruct (Hadd b Hb) as ([Hfb _] & Hidb & _), Ha as [Hfa _]. apply (mkey_inj (Root g)); congruence. }
    unfold load in H0. cbn [length]. split; [lia|]. pose proof Hc as ([[Hs _] _] & Ht & _). unfold room in Hroom. destruct Ha as [_ Hex].
    destruct (member_of_found g a Hs Hex) as (ind & m' & Hse & Hi & Hkm & _). rewrite Hse, Hi in Hroom.
    assert (m' = m) as ->.
    { apply list_elem_of_lookup in Hm as [j Hj]. assert (ind = j) as -> by (apply (kv_sorted_inj _ ind j m' m Hs Hi Hj); congruence). congruence. }
    rewrite Ht in Hroom. unfold key_counts in Hroom. rewrite list_lookup_fmap, Hi in Hroom. cbn in Hroom. fold (load keys m) in Hroom.
    rewrite int64_id in Hroom; [lia|]. pose proof (load_nonneg keys m). unfold is_int64, MinInt64, MaxInt64 in *. lia.
  - by apply IH.
Qed.

Lemma elem_of_move_cmps (moves : list (KV * Assignment AV)) m : m ∈ moves → modRevisionUnchanged (fst m) ∈ move_cmps moves.
Proof. intros Hm. unfold move_cmps. apply list_elem_of_fmap. by exists m. Qed.

Lemma add_desired g value current desired add remove reorder : edits_ok g value current desired add remove reorder →
  ∀ a, a ∈ add → tag a ∈ tag <$> desired.
Proof.
  intros [-> _ _ _ _ _] a [_ Ha]%list_elem_of_filter. apply (list_elem_of_fmap_2 tag) in Ha. rewrite wanted_tags in Ha.
  apply list_elem_of_fmap in Ha as (d & -> & [_ Hd]%list_elem_of_filter). apply list_elem_of_fmap. eauto.
Qed.

Lemma slotted_Forall n (P : Assignment AV → Prop) l : (∀ a k, P a → P (with_Slot a k)) → Forall P l → Forall P (slotted n l).
Proof.
  intros HP. revert n. induction l as [|a l IH]; intros n Hl; [constructor|]. apply Forall_cons in Hl as [Ha Hl]. rewrite slotted_cons. constructor; auto.
Qed.

Lemma round_load g value id current desired add remove reorder others m : edits_ok g value current desired add remove reorder →
  Forall (λ d, as_ItemID d = id) desired → Z.of_nat (length current + length others) ≤ MaxInt64 → counting g (mkeys (Root g) current ++ others) →
  m ∈ Members g → StronglySorted assignment_lt (asn <$> current) → StronglySorted assignment_lt desired → Forall (add_ok g) desired →
  load ((mkey (Root g) <$> add) ++ mkeys (Root g) reorder ++ others) m ≤ Z.max (load (mkeys (Root g) current ++ others) m) (limit_of m).
Proof.
  intros He Hid Hlen Hc Hm Hcs Hds Hao. destruct (edits_tags _ _ _ _ _ _ _ He Hcs Hds) as (Ht & _ & _).
  pose proof He as [Hadd Hp _ _ _ _].
  assert (Forall (λ a, add_ok g a ∧ as_ItemID a = id ∧ room g a = true) add) as Hall.
  { assert (Forall (λ a, add_ok g a ∧ as_ItemID a = id) (slotted (next_slot current) (wanted current desired))) as H.
    { apply slotted_Forall; [done|]. apply Forall_filter, Forall_and. done. }
    rewrite Hadd. rewrite Forall_forall in H |- *. intros a [Hr Ha]%list_elem_of_filter. destruct (H a Ha). split_and!; [done..|]. by destruct (room g a). }
  assert (Z.of_nat (length (mkeys (Root g) current ++ others)) ≤ MaxInt64) as Hlk by (unfold mkeys; by rewrite length_app, length_fmap).
  assert (load (mkeys (Root g) current ++ others) m = load (mkeys (Root g) remove) m + load (mkeys (Root g) reorder) m + load others m) as Hload.
  { rewrite load_app, (load_perm (mkeys (Root g) current) (mkeys (Root g) (remove ++ reorder))) by (unfold mkeys; by rewrite Hp).
    unfold mkeys. rewrite fmap_app, load_app. lia. }
  rewrite (load_app (mkey (Root g) <$> add)), (load_app (mkeys (Root g) reorder)). pose proof (load_nonneg (mkeys (Root g) remove) m).
  destruct (add_load g _ add id m Hc Hlk Hm Hall Ht) as [H0|[H1 Hlt]]; lia.
Qed.

Lemma round_guards (g : State MV IV AV) (ikv : KV) (current : list KV) (add : list (Assignment AV)) (remove reorder : list KV) : remove ++ reorder ≡ₚ current →
  (∀ k, OpDelete k ∈ round_ops g add remove reorder → ∃ x, x ∈ current ∧ kv_Key x = k ∧ modRevisionUnchanged x ∈ round_cmps g ikv add remove reorder) ∧
  (remove ≠ [] → modRevisionUnchanged ikv ∈ round_cmps g ikv add remove reorder) ∧
  (∀ a m, a ∈ add → member_of g a = Some m → modRevisionUnchanged m ∈ round_cmps g ikv add remove reorder).
Proof.
  intros Hp. unfold round_ops, round_cmps. setoid_rewrite elem_of_app. setoid_rewrite elem_of_app. split_and!.
  - intros k [Hk|[Hk|Hk]].
    + apply list_elem_of_omap in Hk as (a & _ & Hk). by destruct (member_of g a).
    + apply list_elem_of_fmap in Hk as (x & [= ->] & Hx). exists x. split; [rewrite <- Hp; apply elem_of_app; by left|]. split; [done|]. right; left.
      unfold remove_cmps. destruct remove; [by apply elem_of_nil in Hx|]. right. apply list_elem_of_fmap. eauto.
    + apply elem_of_concat_fmap_inv in Hk as (m & Hm & [[= ->]|Hk]%elem_of_cons); [|by apply list_elem_of_singleton in Hk].
      exists (fst m). split; [|split; [done|right; right; by apply elem_of_move_cmps]]. rewrite <- Hp. apply elem_of_app. right.
      eapply elem_of_sublist; [|apply (moves_sublist add remove)]. apply list_elem_of_fmap. eauto.
  - intros Hne. right; left. unfold remove_cmps. destruct remove; [done|by left].
  - intros a m Ha Hm. left. unfold add_cmps. apply list_elem_of_omap. exists a. by rewrite Hm.
Qed.

(** A round keeps the constraints. It removes assignments that are not desired, and keeps as
    many consistent ones as the item desires or has; where it keeps one that is not desired it
    has to. Additions are desired ones, of members below their limit, so that no member's load
    rises above its limit. A primary that is kept stays primary; otherwise one that is
    consistent, and then one of least primary load, becomes it. All that the round relies on is
    compared: the revisions of what it removes or moves, of the members it adds to, and of the
    item if it removes any. *)
Theorem round_constraints {T} `{checkpointLaws T} g item ikv value id current desired others (t : T) :
  round_ok g item ikv value current desired others → Forall (λ d, as_ItemID d = id) desired →
  Z.of_nat (length current + length others) ≤ MaxInt64 →
  let n := Z.of_nat (length (consistent value current current)) in let R := DesiredReplication value in
  ∃ s g' cmps ops add remove reorder, init item current desired = Ret s ∧
    constrainAndBuildOps g s t = (let! (t, err) := Checkpoint (Then ops (If cmps t)) in Ret (g', t, err)) ∧
    remove ++ reorder ≡ₚ current ∧
    (∀ x, x ∈ remove → tag (asn x) ∉ tag <$> desired) ∧
    Z.min n R ≤ Z.of_nat (length (consistent value current reorder)) ∧
    ((∃ x, x ∈ reorder ∧ tag (asn x) ∉ tag <$> desired) → n < R ∨ Z.of_nat (length (consistent value current reorder)) = R) ∧
    (∀ a, a ∈ add → tag a ∈ tag <$> desired) ∧
    (let keys := mkeys (Root g) current ++ others in let keys' := (mkey (Root g) <$> add) ++ mkeys (Root g) reorder ++ others in
     counting g' keys' ∧ ∀ m, m ∈ Members g → load keys' m ≤ Z.max (load keys m) (limit_of m)) ∧
    reordered g value current reorder ∧
    (∀ k, OpDelete k ∈ ops → ∃ x, x ∈ current ∧ kv_Key x = k ∧ modRevisionUnchanged x ∈ cmps) ∧
    (remove ≠ [] → modRevisionUnchanged ikv ∈ cmps) ∧
    (∀ a m, a ∈ add → member_of g a = Some m → modRevisionUnchanged m ∈ cmps).
Proof.
  intros Hok Hid Hlen n R. destruct (round_spec g item ikv value current desired others Hok) as (s & g' & add & remove & reorder & Hi & He & Hb & Hr).
  exists s, g', (round_cmps g ikv add remove reorder), (round_ops g add remove reorder), add, remove, reorder.
  pose proof He as [Hadd Hp Hrem Hrep Hneed Hord]. split; [done|]. split; [exact (Hb t)|]. split; [done|]. split; [done|]. split; [done|]. split; [done|].
  split; [by apply (add_desired g value current desired add remove reorder)|]. split; [|split; [done|by apply round_guards]].
  pose proof (ro_counts _ _ _ _ _ _ _ Hok) as Hc. split; [by eapply recounted_counting|].
  intros m Hm. apply (round_load g value id current desired add remove reorder others m He Hid Hlen Hc Hm); by destruct Hok.
Qed.
End rounds.

(** ** A concrete round *)

Definition demo_others : list string := [].

Lemma demo_state_members : members_ok "" (Members Demo.state).
Proof. split; [split; [unfold kv_sorted; repeat constructor|repeat constructor]|repeat constructor]. Qed.

Lemma demo_round_ok :
  round_ok Demo.state 0 (Demo.item "x" 4 2) 2 DemoRound.current DemoRound.wants demo_others.
Proof.
  split.
  - split; [reflexivity|]. eexists. split; reflexivity.
  - repeat constructor.
  - DemoRound.assignments_sorted.
  - repeat constructor; vm_compute; discriminate.
  - DemoRound.assignments_sorted.
  - apply Forall_cons. split; [split; [repeat split|]|apply Forall_cons; split; [split; [repeat split|]|constructor]].
    + exists (Demo.member "A" "three" 2 5). split; [right; left|reflexivity].
    + exists (Demo.member "B" "two" 2 4). split; [right; right; left|reflexivity].
  - vm_compute. discriminate.
  - split_and!; [exact demo_state_members|vm_compute; reflexivity|vm_compute; reflexivity].
Qed.

Definition demo_txn : batchedTxn nat := mkBatched 0%nat [] [] [] [] [] true.

Lemma demo_slots : NoDup (asn_slot <$> DemoRound.current).
Proof. vm_compute. repeat constructor; set_solver. Qed.

Lemma round_correct_witness :
  ∃ s g' cmps ops, init 0 DemoRound.current DemoRound.wants = Ret s ∧
    @constrainAndBuildOps _ _ _ _ _ _ _ (batchedTxn_checkpointTxn refuse_second) Demo.state s demo_txn =
      (let! (t, err) := batched_Checkpoint refuse_second (batched_Then ops (batched_If cmps demo_txn)) in Ret (g', t, err)) ∧
    NoDup (op_key <$> ops).
Proof.
  destruct (round_correct (T := batchedTxn nat) (H := batchedTxn_checkpointTxn refuse_second) (H0 := batchedTxn_laws refuse_second)
    Demo.state 0 (Demo.item "x" 4 2) 2 DemoRound.current DemoRound.wants demo_others demo_txn demo_round_ok demo_slots ltac:(vm_compute; discriminate))
    as (s & g' & cmps & ops & add & remove & reorder & next & Hi & Hb & _ & Hnd & _).
  exists s, g', cmps, ops. split; [exact Hi|split; [exact Hb|exact Hnd]].
Defined.

Lemma round_constraints_witness :
  ∃ s reorder, init 0 DemoRound.current DemoRound.wants = Ret s ∧
    Z.of_nat (length (consistent 2 DemoRound.current DemoRound.current)) = 2 ∧
    2 ≤ Z.of_nat (length (consistent 2 DemoRound.current reorder)) ∧ reordered Demo.state 2 DemoRound.current reorder.
Proof.
  destruct (round_constraints (T := batchedTxn nat) (H := batchedTxn_checkpointTxn refuse_second) (H0 := batchedTxn_laws refuse_second)
    Demo.state 0 (Demo.item "x" 4 2) 2 "x" DemoRound.current DemoRound.wants demo_others demo_txn demo_round_ok ltac:(repeat constructor) ltac:(vm_compute; discriminate))
    as (s & g' & cmps & ops & add & remove & reorder & Hi & _ & _ & _ & Hrep & _ & _ & _ & Hre & _).
  exists s, reorder. split; [exact Hi|]. split; [reflexivity|]. split; [exact Hrep|exact Hre].
Defined.
