(* ===== verification/Converge.v ===== *)
(** * [converge] (src/v2/pkg/allocator/allocator.go)

    The whole of a convergence round: which checkpoints it issues, for every item and for the
    assignments that have none, and that it keeps the limits of members over all items. *)
From S2P Require Import Prelude Encoding Protocol FragmentName KeySpace AllocKeys AllocState AllocTxn ItemState Rounds.
Local Open Scope Z_scope.

Section converge.
Context {MV IV AV : Type} `{!MemberValue MV} `{!ItemValue MV IV AV} {Sort : SliceSort}.
Abbreviation KV := (KeyValue (Entity MV IV AV)).
Abbreviation kv_Key x := (k_Key (Raw x)).
Abbreviation Root g := (ks_Root (KS g)).

Lemma in_take {A} n (l : list A) x : x ∈ take n l → x ∈ l.
Proof. intros H. rewrite <- (take_drop n l). apply elem_of_app. by left. Qed.
Lemma in_drop {A} n (l : list A) x : x ∈ drop n l → x ∈ l.
Proof. intros H. rewrite <- (take_drop n l). apply elem_of_app. by right. Qed.

(** ** Assignments without an item *)

(** The leading assignments of the item [id]. *)
Fixpoint leads_with (id : string) (l : list KV) : nat :=
  match l with
  | [] => 0
  | x :: l => if String.eqb (asn_item x) id then S (leads_with id l) else 0
  end.

Definition dead_checkpoint (root : string) (id : string) (l : list KV) : checkpoint :=
  (CmpCreateRevision (root ++ ItemsPrefix ++ id) 0 :: (modRevisionUnchanged <$> l), (λ x, OpDelete (kv_Key x)) <$> l).

(** A checkpoint for each item that is gone. *)
Fixpoint dead_groups (fuel : nat) (root : string) (l : list KV) : list checkpoint :=
  match fuel, l with
  | S fuel, x :: rest =>
      let n := leads_with (asn_item x) rest in
      dead_checkpoint root (asn_item x) (take (S n) l) :: dead_groups fuel root (drop (S n) l)
  | _, _ => []
  end.

Definition dead_checkpoints (root : string) (l : list KV) : list checkpoint := dead_groups (length l) root l.

Lemma leading_spec id l : Forall (λ x, is_assignment x = true) l → leading id l = Ret (leads_with id l).
Proof.
  induction 1 as [|x l Hx Hl IH]; [done|]. cbn [leading leads_with]. rewrite asAssignment_asn by done. cbn [outcome_bind].
  assert (as_ItemID (asn x) = asn_item x) as -> by (unfold asn, asn_item, is_assignment in *; by destruct (Decoded x)).
  destruct (String.eqb _ _); [|done]. by rewrite IH.
Qed.

Lemma asn_item_asn (x : KV) : as_ItemID (asn x) = asn_item x.
Proof. unfold asn, asn_item. by destruct (Decoded x). Qed.

(** Their operations delete them all, each where its item is compared to be gone. *)
Lemma dead_groups_ops fuel root l : (length l ≤ fuel)%nat →
  concat (snd <$> dead_groups fuel root l) = (λ x, OpDelete (kv_Key x)) <$> l ∧
  Forall (λ cp, ∃ id grp, cp = dead_checkpoint root id grp ∧ Forall (λ x, x ∈ l ∧ asn_item x = id) grp) (dead_groups fuel root l).
Proof.
  revert l. induction fuel as [|fuel IH]; intros l Hl; [destruct l; cbn in *; [split; [done|constructor]|lia]|].
  destruct l as [|x l]; [split; [done|constructor]|]. cbn [dead_groups]. set (n := leads_with (asn_item x) l).
  destruct (IH (drop (S n) (x :: l))) as [H1 H2]; [rewrite length_drop; cbn in *; lia|]. split.
  - rewrite fmap_cons. cbn [concat snd dead_checkpoint]. rewrite H1, <- fmap_app, take_drop. done.
  - constructor.
    + exists (asn_item x), (take (S n) (x :: l)). split; [done|]. apply Forall_forall. intros y Hy. split; [by eapply in_take|].
      cbn [take] in Hy. apply elem_of_cons in Hy as [-> |Hy]; [done|]. subst n. clear -Hy. induction l as [|z l IH]; cbn [leads_with] in Hy; [by apply elem_of_nil in Hy|].
      destruct (String.eqb_spec (asn_item z) (asn_item x)) as [Hz|]; [|by apply elem_of_nil in Hy]. cbn in Hy. apply elem_of_cons in Hy as [-> |Hy]; auto.
    + eapply Forall_impl; [exact H2|]. intros cp (id & grp & -> & Hg). exists id, grp. split; [done|]. eapply Forall_impl; [exact Hg|].
      intros y [Hy ?]. split; [|done]. by eapply in_drop.
Qed.

(** ** Rows of the join, by position *)

(** A predicate that holds of a prefix holds below its count. *)
Lemma count_prefix {A} (P : A → Prop) `{∀ x, Decision (P x)} (l : list A) :
  (∀ i j x y, (i ≤ j)%nat → l !! i = Some x → l !! j = Some y → P y → P x) →
  ∀ i x, l !! i = Some x → ((i < length (filter P l))%nat ↔ P x).
Proof.
  induction l as [|y l IH]; intros Hdown i x Hx; [done|]. rewrite filter_cons. case_decide as Hy; cbn [length].
  - destruct i as [|i]; cbn in Hx; [injection Hx as <-; split; [done|lia]|]. rewrite <- Nat.succ_lt_mono. apply IH; [|done].
    intros a b u v Hab Hu Hv. by apply (Hdown (S a) (S b)); [lia|..].
  - assert (¬ P x) as Hn by (intros Hp; apply Hy; apply (Hdown 0%nat i y x); [lia|done..]).
    assert (filter P l = []) as ->; [|cbn; split; [lia|done]].
    apply list_filter_none. intros z [j Hz]%list_elem_of_lookup Hp. apply Hy. by apply (Hdown 0%nat (S j) y z); [lia|..].
Qed.

Lemma below_upto_spec (A : list KV) id : StronglySorted str_le (asn_item <$> A) → ∀ i x, A !! i = Some x →
  ((i < below id (asn_item <$> A))%nat ↔ str_lt (asn_item x) id) ∧ ((i < upto id (asn_item <$> A))%nat ↔ ¬ str_lt id (asn_item x)).
Proof.
  intros Hs i x Hx. assert ((asn_item <$> A) !! i = Some (asn_item x)) as Hl by (by rewrite list_lookup_fmap, Hx).
  assert (∀ a b u v, (a ≤ b)%nat → (asn_item <$> A) !! a = Some u → (asn_item <$> A) !! b = Some v → str_le u v) as Hle.
  { intros a b u v Hab Hu Hv. destruct (decide (a = b)) as [-> |]; [right; congruence|]. apply (ssorted_lookup str_le _ a b u v Hs); [lia|done..]. }
  split.
  - apply (count_prefix (λ y, str_lt y id)); [|done]. intros a b u v Hab Hu Hv Hlt. eapply str_le_lt_trans; eauto.
  - apply (count_prefix (λ y, ¬ str_lt id y)); [|done]. intros a b u v Hab Hu Hv Hn Hlt. apply Hn.
    destruct (Hle a b u v Hab Hu Hv) as [?| <-]; [by trans u|done].
Qed.

(** From [c] on, assignments divide at an item: those before it, its own, and the rest. *)
Lemma split_at_item (A : list KV) (x : KV) c : StronglySorted str_le (asn_item <$> A) →
  (∀ y, y ∈ take c A → str_lt (asn_item y) (id_of x)) →
  let b := below (id_of x) (asn_item <$> A) in let e := upto (id_of x) (asn_item <$> A) in
  (c ≤ length A → c ≤ b)%nat ∧ (b ≤ e ≤ length A)%nat ∧
  (∀ y, y ∈ slice A c b → str_lt (asn_item y) (id_of x)) ∧
  (∀ y, y ∈ take e A → ¬ str_lt (id_of x) (asn_item y)) ∧ (∀ y, y ∈ drop e A → str_lt (id_of x) (asn_item y)).
Proof.
  intros Hs Hc b e. pose proof (below_upto_spec A (id_of x) Hs) as Hsp. fold b e in Hsp. pose proof (below_le_upto (id_of x) (asn_item <$> A)) as Hbe. fold b e in Hbe.
  assert (e ≤ length A)%nat as He by (unfold e, upto; etrans; [apply length_filter|by rewrite length_fmap]).
  split_and!; [|done|done| | |].
  - intros Hcl. destruct c as [|c]; [lia|]. destruct (lookup_lt_is_Some_2 A c) as [y Hy]; [lia|].
    assert (c < b)%nat; [|lia]. apply (proj1 (Hsp c y Hy)), Hc. apply list_elem_of_lookup. exists c. by rewrite lookup_take_lt by lia.
  - intros y Hy. unfold slice in Hy. apply list_elem_of_lookup in Hy as [i [Hy Hi]%lookup_take_Some]. rewrite lookup_drop in Hy.
    apply (proj1 (Hsp _ y Hy)). lia.
  - intros y [i [Hy Hi]%lookup_take_Some]%list_elem_of_lookup. by apply (proj2 (Hsp _ y Hy)).
  - intros y [i Hy]%list_elem_of_lookup. rewrite lookup_drop in Hy.
    destruct (ltb_cases (id_of x) (asn_item y)) as [[? _]|[(Heq & _)|(Hlt & _)]]; [done|exfalso..].
    + assert (e + i < e)%nat; [|lia]. apply (proj2 (Hsp _ y Hy)). rewrite Heq. apply (irreflexivity str_lt).
    + assert (e + i < e)%nat; [|lia]. apply (proj2 (Hsp _ y Hy)). intros H'. by destruct (str_lt_asym _ _ Hlt).
Qed.

Lemma drop_slice {X} (l : list X) a b : (a ≤ b)%nat → drop a l = slice l a b ++ drop b l.
Proof. intros H. unfold slice. replace (drop b l) with (drop (b - a) (drop a l)); [by rewrite take_drop|]. rewrite drop_drop. f_equal. lia. Qed.

(** ** Desired assignments *)

Definition desired_of (d : list (Assignment AV)) (x : KV) : list (Assignment AV) := filter (λ a, as_ItemID a = id_of x) d.

(** Of desired assignments that start no earlier than an item, those of the item lead. *)
Lemma leading_desired_spec d (x : KV) : StronglySorted assignment_lt d → (∀ a, a ∈ d → ¬ str_lt (as_ItemID a) (id_of x)) →
  let n := leading_desired (id_of x) d in take n d = desired_of d x ∧ ∀ a, a ∈ drop n d → str_lt (id_of x) (as_ItemID a).
Proof.
  induction 1 as [|a d Hd IH Ha]; intros Hge; cbn [leading_desired]; [split; [done|by intros a []%elem_of_nil]|].
  rewrite Forall_forall in Ha. destruct (String.eqb_spec (as_ItemID a) (id_of x)) as [Heq|Hne].
  - destruct IH as [H1 H2]; [intros b Hb; apply Hge; by right|]. cbn [take drop]. split; [|done].
    unfold desired_of in *. by rewrite filter_cons, decide_True, H1.
  - assert (str_lt (id_of x) (as_ItemID a)) as Hlt.
    { destruct (str_lt_trichotomy (id_of x) (as_ItemID a)) as [?|[?|Hlt]]; [done|congruence|by destruct (Hge a ltac:(by left))]. }
    assert (∀ b, b ∈ a :: d → str_lt (id_of x) (as_ItemID b)) as Hall.
    { intros b [-> |Hb]%elem_of_cons; [done|]. destruct (Ha b Hb) as [H|[H _]]; [by trans (as_ItemID a)|by rewrite <- H]. }
    cbn [take drop]. split; [|done]. unfold desired_of. rewrite list_filter_none; [done|]. intros b Hb Heq.
    specialize (Hall b Hb). rewrite Heq in Hall. by apply (irreflexivity str_lt) in Hall.
Qed.

(** ** Rounds *)

(** The round of an item, with the assignments without an item that come before it. *)
Record round := mkRound {
  r_dead : list KV;
  r_item : KV;
  r_add : list (Assignment AV);
  r_remove : list KV;
  r_reorder : list KV;
}.

Definition round_checkpoints (g : State MV IV AV) (r : round) : list checkpoint :=
  dead_checkpoints (Root g) (r_dead r) ++
  [(round_cmps g (r_item r) (r_add r) (r_remove r) (r_reorder r), round_ops g (r_add r) (r_remove r) (r_reorder r))].

Definition round_keys_after (root : string) (r : round) : list string := (mkey root <$> r_add r) ++ mkeys root (r_reorder r).

(** A round is one of edits within the constraints, at counts that earlier rounds left. *)
Definition round_edits (g : State MV IV AV) (desired : list (Assignment AV)) (r : round) : Prop :=
  ∃ it total primary, Decoded (r_item r) = EntityItem it ∧
    edits_ok (with_counts g total primary) (it_Value it) (item_row (Assignments g) (r_item r)) (desired_of desired (r_item r))
      (r_add r) (r_remove r) (r_reorder r).

Record converge_ok (g : State MV IV AV) (desired : list (Assignment AV)) : Prop := {
  cg_items : items_ok (Root g) (Items g);
  cg_assignments : assignments_ok (Root g) (Assignments g);
  cg_sorted : StronglySorted assignment_lt (asn <$> Assignments g);
  cg_slots : Forall (λ x, 0 ≤ asn_slot x < MaxInt64) (Assignments g);
  cg_desired : StronglySorted assignment_lt desired;
  cg_members : Forall (add_ok g) desired;
  cg_known : ∀ d, d ∈ desired → as_ItemID d ∈ id_of <$> Items g;
  cg_bound : ∀ x, x ∈ Items g → next_slot (item_row (Assignments g) x) + Z.of_nat (length desired) ≤ MaxInt64;
  cg_counts : counting g (mkeys (Root g) (attached (Assignments g) (Items g)));
  cg_len : Z.of_nat (length (attached (Assignments g) (Items g)) + length desired) ≤ MaxInt64;
}.

Lemma counting_perm (g : State MV IV AV) keys keys' : keys ≡ₚ keys' → counting g keys → counting g keys'.
Proof. intros Hp (Hm & Ht & Hl). split_and!; [done| |done]. by rewrite Ht, (key_counts_perm _ _ _ Hp). Qed.

Lemma item_row_ok g desired x : converge_ok g desired → x ∈ Items g →
  Forall (assignment_key_ok (Root g)) (item_row (Assignments g) x) ∧ StronglySorted assignment_lt (asn <$> item_row (Assignments g) x) ∧
  Forall (λ y, 0 ≤ asn_slot y < MaxInt64) (item_row (Assignments g) x).
Proof.
  intros Hok _. pose proof (cg_assignments _ _ Hok) as [[_ Hk] Ha]. split_and!.
  - apply Forall_filter. rewrite Forall_forall in *. intros y Hy. split; auto.
  - pose proof (cg_sorted _ _ Hok) as Hs. unfold item_row. revert Hs. generalize (Assignments g). intros l Hs.
    induction l as [|y l IH]; [constructor|]. rewrite filter_cons. rewrite fmap_cons in Hs. apply StronglySorted_inv in Hs as [Hs Hy].
    case_decide; [|by apply IH]. rewrite fmap_cons. constructor; [by apply IH|]. apply Forall_fmap. apply Forall_filter. exact (proj1 (Forall_fmap asn _ l) Hy).
  - apply Forall_filter. by destruct Hok.
Qed.

Section txn.
Context {T : Type} `{HT : checkpointTxn T} {HL : checkpointLaws T}.

Lemma delete_fold c o t (l : list KV) :
  foldl delete_unchanged (tx c o t) l = tx (c ++ (modRevisionUnchanged <$> l)) (o ++ ((λ x, OpDelete (kv_Key x)) <$> l)) t.
Proof.
  revert c o. induction l as [|x l IH]; intros c o; cbn; [by rewrite !app_nil_r|]. unfold delete_unchanged at 2. rewrite tx_If, tx_Then, IH.
  by rewrite <- !app_assoc.
Qed.

Lemma remove_dead_spec root fuel t (l : list KV) : Forall (assignment_key_ok root) l →
  remove_dead fuel root t l = run_checkpoints t (dead_groups fuel root l).
Proof.
  revert t l. induction fuel as [|fuel IH]; intros t l Hl; [by destruct l|]. destruct l as [|x l]; [done|]. cbn [remove_dead dead_groups run_checkpoints].
  pose proof Hl as [Hx Hl']%Forall_cons. rewrite asAssignment_asn by apply Hx. cbn [outcome_bind]. rewrite asn_item_asn.
  rewrite leading_spec by (eapply Forall_impl; [exact Hl'|]; by intros y [? _]). cbn [outcome_bind].
  destruct (key_ok_asn _ _ Hx) as ((Hid & _ & _) & _ & _). unfold ItemKey, assertAboveSep. rewrite asn_item_asn in Hid. rewrite Hid. cbn [outcome_bind].
  assert (∀ c, If c t = tx c [] t) as -> by (intros c; unfold tx; by rewrite Then_nil). rewrite delete_fold. cbn [dead_checkpoint app]. unfold tx.
  destruct (Checkpoint _) as [[t' [err|]]|]; cbn [outcome_bind]; try done. apply IH. by apply Forall_drop.
Qed.

Lemma run_checkpoints_app t l1 l2 : run_checkpoints t (l1 ++ l2) =
  let! (t, err) := run_checkpoints t l1 in match err with Some err => Ret (t, Some err) | None => run_checkpoints t l2 end.
Proof.
  revert t. induction l1 as [|[c o] l1 IH]; intros t; [done|]. cbn [app run_checkpoints].
  destruct (Checkpoint _) as [[t' [err|]]|]; cbn [outcome_bind]; done.
Qed.

Section walk.
Context (g : State MV IV AV) (desired : list (Assignment AV)) (Hok : converge_ok g desired).
Abbreviation A := (Assignments g).
Abbreviation root := (Root g).

Definition cursor (l : nat) (x : KV) : LeftJoinCursor := mkCursor l (below (id_of x) (asn_item <$> A)) (upto (id_of x) (asn_item <$> A)).

(** The walk before the items [todo]. *)
Record walking (gi : State MV IV AV) (done todo : list KV) (c : nat) (d : list (Assignment AV)) (keys : list string) : Prop := {
  wk_items : Items g = done ++ todo;
  wk_state : ∃ total primary, gi = with_counts g total primary;
  wk_counts : counting gi (keys ++ mkeys root (attached A todo));
  wk_c : (c ≤ length A)%nat;
  wk_before : ∀ y x, y ∈ take c A → x ∈ todo → str_lt (asn_item y) (id_of x);
  wk_after : ∀ y x, y ∈ drop c A → x ∈ done → str_lt (id_of x) (asn_item y);
  wk_suffix : ∃ pre, desired = pre ++ d ∧ ∀ a, a ∈ pre → as_ItemID a ∉ id_of <$> todo;
  wk_known : ∀ a, a ∈ d → as_ItemID a ∈ id_of <$> todo;
  wk_len : Z.of_nat (length keys + length (attached A todo) + length d) ≤ MaxInt64;
}.

Lemma todo_sorted gi done x todo c d keys : walking gi done (x :: todo) c d keys →
  x ∈ Items g ∧ (∀ y, y ∈ todo → str_lt (id_of x) (id_of y)) ∧ (∀ y, y ∈ done → str_lt (id_of y) (id_of x)).
Proof.
  intros Hw. pose proof (items_sorted _ _ (cg_items _ _ Hok)) as Hs. rewrite (wk_items _ _ _ _ _ _ Hw), fmap_app, fmap_cons in Hs.
  apply ssorted_app in Hs as (_ & [_ Hx]%StronglySorted_inv & Hd). rewrite Forall_forall in Hx. split_and!.
  - rewrite (wk_items _ _ _ _ _ _ Hw). apply elem_of_app. right. by left.
  - intros y Hy. apply Hx. apply list_elem_of_fmap. eauto.
  - intros y Hy. apply Hd; [apply list_elem_of_fmap; eauto|by left].
Qed.

(** Desired assignments at the next item. *)
Lemma walk_desired gi done x todo c d keys : walking gi done (x :: todo) c d keys →
  let n := leading_desired (id_of x) d in
  take n d = desired_of desired x ∧ desired_of d x = desired_of desired x ∧
  StronglySorted assignment_lt (desired_of desired x) ∧ Forall (add_ok g) (desired_of desired x) ∧
  (length (desired_of desired x) + length (drop n d) = length d)%nat ∧ (length d ≤ length desired)%nat ∧
  (∃ pre, desired = pre ++ drop n d ∧ ∀ a, a ∈ pre → as_ItemID a ∉ id_of <$> todo) ∧ (∀ a, a ∈ drop n d → as_ItemID a ∈ id_of <$> todo).
Proof.
  intros Hw n. destruct (wk_suffix _ _ _ _ _ _ Hw) as (pre & Hpre & Hnot). pose proof (wk_known _ _ _ _ _ _ Hw) as Hkn.
  destruct (todo_sorted _ _ _ _ _ _ _ Hw) as (_ & Hgt & _). pose proof (cg_desired _ _ Hok) as Hs. pose proof Hs as Hs'. rewrite Hpre in Hs'. apply ssorted_app in Hs' as (_ & Hsd & _).
  destruct (leading_desired_spec d x Hsd) as [Htake Hdrop].
  { intros a Ha Hlt. apply Hkn in Ha. rewrite fmap_cons, elem_of_cons in Ha. destruct Ha as [Ha|(y & Ha & Hy)%list_elem_of_fmap].
    - rewrite Ha in Hlt. by apply (irreflexivity str_lt) in Hlt.
    - rewrite Ha in Hlt. by destruct (str_lt_asym _ _ (Hgt y Hy)). }
  fold n in Htake, Hdrop. assert (desired_of d x = desired_of desired x) as Heq.
  { unfold desired_of. rewrite Hpre, filter_app, (list_filter_none _ pre); [done|]. intros a Ha Hid. apply (Hnot a Ha). rewrite Hid. by left. }
  split_and!; [congruence|done| | | | | |].
  - unfold desired_of. by apply ssorted_filter.
  - apply Forall_filter. by destruct Hok.
  - rewrite <- Heq, <- Htake, <- length_app, take_drop. done.
  - rewrite Hpre, length_app. lia.
  - exists (pre ++ take n d). split; [by rewrite <- app_assoc, take_drop|]. intros a [Ha|Ha]%elem_of_app Hin.
    + apply (Hnot a Ha). by right.
    + rewrite Htake in Ha. apply list_elem_of_filter in Ha as [Hid _]. apply list_elem_of_fmap in Hin as (y & Hy & Hin).
      specialize (Hgt y Hin). rewrite <- Hy, Hid in Hgt. by apply (irreflexivity str_lt) in Hgt.
  - intros a Ha. pose proof (Hdrop a Ha) as Hlt. apply in_drop, Hkn in Ha. rewrite fmap_cons, elem_of_cons in Ha. destruct Ha as [Ha|Ha]; [|done].
    rewrite Ha in Hlt. by apply (irreflexivity str_lt) in Hlt.
Qed.

Lemma attached_cons x todo : attached A (x :: todo) = item_row A x ++ attached A todo.
Proof. done. Qed.

Lemma mkeys_app r (l1 l2 : list KV) : mkeys r (l1 ++ l2) = mkeys r l1 ++ mkeys r l2.
Proof. unfold mkeys. by rewrite fmap_app. Qed.

(** The round of the next item. *)
Lemma walk_round gi done x todo c d keys : walking gi done (x :: todo) c d keys →
  ∃ it, Decoded x = EntityItem it ∧
    round_ok gi (length done) x (it_Value it) (item_row A x) (desired_of desired x) (keys ++ mkeys root (attached A todo)).
Proof.
  intros Hw. destruct (todo_sorted _ _ _ _ _ _ _ Hw) as (Hx & _ & _). destruct (walk_desired _ _ _ _ _ _ _ Hw) as (_ & _ & Hds & Hda & Hdl & Hds' & _).
  destruct (item_row_ok g desired x Hok Hx) as (Hk & Hs & Hsl). destruct (wk_state _ _ _ _ _ _ Hw) as (tt & pp & Hgi).
  pose proof (cg_items _ _ Hok) as [_ Hit]. rewrite Forall_forall in Hit. specialize (Hit x Hx).
  assert (∃ it, Decoded x = EntityItem it) as [it Hd] by (unfold is_item in Hit; destruct (Decoded x); [done|eauto|done]).
  exists it. split; [done|]. assert (Items g !! length done = Some x) as Hlk by (rewrite (wk_items _ _ _ _ _ _ Hw); by apply list_lookup_middle).
  split.
  - rewrite Hgi. cbn [with_counts Items]. split; [done|]. exists it. unfold itemAt. by rewrite Hlk, Hd.
  - by rewrite Hgi.
  - done.
  - done.
  - done.
  - by rewrite Hgi.
  - pose proof (cg_bound _ _ Hok x Hx). lia.
  - eapply counting_perm; [|exact (wk_counts _ _ _ _ _ _ Hw)]. rewrite Hgi. cbn [with_counts KS]. rewrite attached_cons, mkeys_app. solve_Permutation.
Qed.

Lemma walk_rows gi done x todo c d keys : walking gi done (x :: todo) c d keys →
  let b := below (id_of x) (asn_item <$> A) in let e := upto (id_of x) (asn_item <$> A) in
  (c ≤ b)%nat ∧ slice A b e = item_row A x ∧ drop c A = slice A c b ++ item_row A x ++ drop e A ∧
  (∀ y, y ∈ slice A c b → asn_item y ∉ id_of <$> Items g).
Proof.
  intros Hw b e. destruct (todo_sorted _ _ _ _ _ _ _ Hw) as (Hx & Hgt & Hlt). pose proof (assignments_sorted _ _ (cg_assignments _ _ Hok)) as Hs.
  destruct (split_at_item A x c Hs) as (Hcb & Hbe & Hdead & _ & _); [intros y Hy; apply (wk_before _ _ _ _ _ _ Hw); [done|by left]|]. fold b e in Hcb, Hbe, Hdead.
  specialize (Hcb (wk_c _ _ _ _ _ _ Hw)). destruct (join_items_spec _ _ _ (cg_items _ _ Hok) (cg_assignments _ _ Hok)) as [_ Hrow].
  specialize (Hrow x Hx). fold b e in Hrow. split_and!; [done|done| |].
  - rewrite (drop_slice A c b Hcb), (drop_slice A b e) by lia. by rewrite Hrow.
  - intros y Hy (z & Hz & Hin)%list_elem_of_fmap. specialize (Hdead y Hy). rewrite Hz in Hdead. rewrite (wk_items _ _ _ _ _ _ Hw), elem_of_app, elem_of_cons in Hin.
    destruct Hin as [Hin|[-> |Hin]].
    + assert (str_lt (id_of z) (id_of z)) as Hc; [|by apply (irreflexivity str_lt) in Hc].
      rewrite <- Hz at 2. apply (wk_after _ _ _ _ _ _ Hw); [|done]. rewrite (drop_slice A c b Hcb). apply elem_of_app. by left.
    + by apply (irreflexivity str_lt) in Hdead.
    + by destruct (str_lt_asym _ _ (Hgt z Hin)).
Qed.

Lemma walk_step gi done x todo c d keys value g1 add remove reorder : walking gi done (x :: todo) c d keys →
  edits_ok gi value (item_row A x) (desired_of desired x) add remove reorder →
  recounted gi g1 ((mkey root <$> add) ++ mkeys root reorder ++ keys ++ mkeys root (attached A todo)) →
  walking g1 (done ++ [x]) todo (upto (id_of x) (asn_item <$> A)) (drop (leading_desired (id_of x) d) d) (keys ++ (mkey root <$> add) ++ mkeys root reorder).
Proof.
  intros Hw He Hr. destruct (todo_sorted _ _ _ _ _ _ _ Hw) as (Hx & Hgt & Hlt). pose proof (assignments_sorted _ _ (cg_assignments _ _ Hok)) as Hs.
  destruct (split_at_item A x c Hs) as (_ & Hbe & _ & Htake & Hdrop); [intros y Hy; apply (wk_before _ _ _ _ _ _ Hw); [done|by left]|].
  destruct (walk_desired _ _ _ _ _ _ _ Hw) as (_ & _ & _ & _ & Hdl & _ & Hpre & Hkn).
  destruct (wk_state _ _ _ _ _ _ Hw) as (tt & pp & Hgi). split.
  - rewrite (wk_items _ _ _ _ _ _ Hw), <- app_assoc. done.
  - destruct Hr as (p & -> & _). rewrite Hgi. by eexists _, _.
  - eapply counting_perm; [|eapply recounted_counting; [exact (wk_counts _ _ _ _ _ _ Hw)|exact Hr]]. solve_Permutation.
  - lia.
  - intros y z Hy Hz. specialize (Htake y Hy). destruct (str_lt_trichotomy (asn_item y) (id_of x)) as [?|[-> |?]]; [trans (id_of x); auto|auto|done].
  - intros y z Hy [Hz| ->%list_elem_of_singleton]%elem_of_app; [|by apply Hdrop]. trans (id_of x); [by apply Hlt|by apply Hdrop].
  - done.
  - done.
  - pose proof (wk_len _ _ _ _ _ _ Hw) as Hlen. rewrite attached_cons in Hlen. rewrite !length_app in *. unfold mkeys. rewrite !length_fmap.
    assert (length add ≤ length (desired_of desired x))%nat.
    { rewrite (eo_add _ _ _ _ _ _ _ He). etrans; [apply length_filter|]. unfold slotted. rewrite length_imap. apply length_filter. }
    assert (length remove + length reorder = length (item_row A x))%nat by (rewrite <- length_app; by rewrite (eo_perm _ _ _ _ _ _ _ He)). lia.
Qed.

(** What the walk over [todo] issues. *)
Record walked_rounds (todo : list KV) (c : nat) (keys : list string) (rounds : list round) (tail : list KV) : Prop := {
  wr_items : r_item <$> rounds = todo;
  wr_rows : drop c A = concat ((λ r, r_dead r ++ item_row A (r_item r)) <$> rounds) ++ tail;
  wr_dead : Forall (λ y, asn_item y ∉ id_of <$> Items g) (concat (r_dead <$> rounds) ++ tail);
  wr_edits : Forall (round_edits g desired) rounds;
  wr_load : ∀ m, m ∈ Members g →
    load (keys ++ concat (round_keys_after root <$> rounds)) m ≤ Z.max (load (keys ++ mkeys root (attached A todo)) m) (limit_of m);
}.

Lemma walk_done gi done c d keys : walking gi done [] c d keys →
  (∀ t : T, (let! (_, t', err) := converge_rows gi t c d [] in Ret (t', err)) = run_checkpoints t (dead_checkpoints root (drop c A))) ∧
  walked_rounds [] c keys [] (drop c A).
Proof.
  intros Hw. destruct (wk_state _ _ _ _ _ _ Hw) as (tt & pp & Hgi). pose proof (cg_assignments _ _ Hok) as [[_ Hk] Ha]. split.
  - intros t. cbn [converge_rows]. unfold removeDeadAssignments. rewrite Hgi. cbn [with_counts KS Assignments]. rewrite remove_dead_spec.
    + unfold dead_checkpoints. by destruct (run_checkpoints t _) as [[t' err]|].
    + apply Forall_drop. rewrite Forall_forall in *. intros y Hy. split; auto.
  - split; [done|done| |constructor|].
    + cbn. apply Forall_forall. intros y Hy (z & Hz & Hin)%list_elem_of_fmap. rewrite (wk_items _ _ _ _ _ _ Hw), app_nil_r in Hin.
      pose proof (wk_after _ _ _ _ _ _ Hw y z Hy Hin) as Hlt. rewrite Hz in Hlt. by apply (irreflexivity str_lt) in Hlt.
    + intros m _. cbn. lia.
Qed.

(** The step for one item, and then the rest. *)
Lemma converge_row gi done x todo c d keys (t : T) s g1 add remove reorder rest : walking gi done (x :: todo) c d keys →
  init (length done) (item_row A x) (desired_of desired x) = Ret s →
  (∀ t, constrainAndBuildOps gi s t =
    (let! (t, err) := Checkpoint (tx (round_cmps gi x add remove reorder) (round_ops gi add remove reorder) t) in Ret (g1, t, err))) →
  (∀ t : T, (let! (_, t', err) := converge_rows g1 t (upto (id_of x) (asn_item <$> A)) (drop (leading_desired (id_of x) d) d)
      (zip_with cursor (seq (length (done ++ [x])) (length todo)) todo) in Ret (t', err)) = run_checkpoints t rest) →
  (let! (_, t', err) := converge_rows gi t c d (zip_with cursor (seq (length done) (length (x :: todo))) (x :: todo)) in Ret (t', err)) =
    run_checkpoints t (round_checkpoints g (mkRound (slice A c (below (id_of x) (asn_item <$> A))) x add remove reorder) ++ rest).
Proof.
  intros Hw Hinit Hbuild Hrest. destruct (walk_rows _ _ _ _ _ _ _ Hw) as (Hcb & Hrow & _). destruct (walk_round _ _ _ _ _ _ _ Hw) as (it & Hit & Hro).
  destruct (walk_desired _ _ _ _ _ _ _ Hw) as (Hlead & _). destruct (wk_state _ _ _ _ _ _ Hw) as (tt & pp & Hgi).
  pose proof (cg_assignments _ _ Hok) as [[_ Hk] Ha]. cbn [length seq zip_with converge_rows cursor RightBegin RightEnd Left].
  rewrite (proj2 (Nat.ltb_ge _ _) Hcb). unfold removeDeadAssignments. assert (Assignments gi = A ∧ Root gi = root) as [HA HR] by (by rewrite Hgi). rewrite HA, HR.
  rewrite remove_dead_spec by (unfold slice; apply Forall_take, Forall_drop; rewrite Forall_forall in *; intros y Hy; split; auto).
  unfold round_checkpoints. cbn [r_dead r_item r_add r_remove r_reorder]. rewrite <- app_assoc, run_checkpoints_app. unfold dead_checkpoints.
  destruct (run_checkpoints t (dead_groups _ root _)) as [[t1 [err|]]|]; cbn [outcome_bind]; [done| |done].
  destruct (ro_item _ _ _ _ _ _ _ Hro) as (Hlk & it' & Hat & _). rewrite Hat. cbn [outcome_bind].
  assert (it_ID it' = id_of x) as ->.
  { unfold itemAt in Hat. rewrite Hlk, Hit in Hat. injection Hat as <-. unfold id_of. by rewrite Hit. }
  rewrite Hrow, Hlead, Hinit. cbn [outcome_bind]. rewrite Hbuild. cbn [app run_checkpoints]. unfold tx.
  assert (round_cmps gi x add remove reorder = round_cmps g x add remove reorder ∧ round_ops gi add remove reorder = round_ops g add remove reorder) as [-> ->] by (by rewrite Hgi).
  destruct (Checkpoint _) as [[t2 [err|]]|]; cbn [outcome_bind]; [done| |done]. rewrite <- Hrest, length_app, Nat.add_1_r. done.
Qed.

Lemma converge_rows_spec : ∀ todo gi done c d keys, walking gi done todo c d keys →
  ∃ rounds tail, (∀ t : T, (let! (_, t', err) := converge_rows gi t c d (zip_with cursor (seq (length done) (length todo)) todo) in Ret (t', err)) =
      run_checkpoints t (concat (round_checkpoints g <$> rounds) ++ dead_checkpoints root tail)) ∧
    walked_rounds todo c keys rounds tail.
Proof.
  induction todo as [|x todo IH]; intros gi done c d keys Hw.
  { exists [], (drop c A). by apply (walk_done gi done c d keys Hw). }
  destruct (walk_round _ _ _ _ _ _ _ Hw) as (it & Hit & Hro). destruct (wk_state _ _ _ _ _ _ Hw) as (tt & pp & Hgi).
  destruct (round_spec _ _ _ _ _ _ _ Hro) as (s & g1 & add & remove & reorder & Hinit & He & Hbuild & Hr). assert (Root gi = root) as HR by (by rewrite Hgi). rewrite HR in Hr.
  pose proof (walk_step _ _ _ _ _ _ _ _ _ _ _ _ Hw He Hr) as Hw'. destruct (IH _ _ _ _ _ Hw') as (rounds & tail & Hrun & [Hi Hrows Hdead Hed Hload]).
  exists (mkRound (slice A c (below (id_of x) (asn_item <$> A))) x add remove reorder :: rounds), tail. split.
  { intros t. rewrite fmap_cons. cbn [concat]. rewrite <- app_assoc. by apply (converge_row gi done x todo c d keys t s g1). }
  destruct (walk_rows _ _ _ _ _ _ _ Hw) as (Hcb & Hrow & Hsplit & Hd). split; cbn [fmap list_fmap concat r_dead r_item].
  - by rewrite <- Hi.
  - rewrite Hsplit, Hrows, <- !app_assoc. done.
  - rewrite <- app_assoc. apply Forall_app. split; [by apply Forall_forall|done].
  - constructor; [|done]. exists it, tt, pp. cbn [r_item r_add r_remove r_reorder]. by rewrite <- Hgi.
  - intros m Hm. specialize (Hload m Hm). unfold round_keys_after at 1. cbn [r_add r_reorder].
    assert (m ∈ Members gi) as Hmi by (by rewrite Hgi). pose proof (wk_len _ _ _ _ _ _ Hw) as Hlen. rewrite attached_cons, length_app in Hlen.
    assert (load ((mkey root <$> add) ++ mkeys root reorder ++ keys ++ mkeys root (attached A todo)) m ≤
      Z.max (load (mkeys root (item_row A x) ++ keys ++ mkeys root (attached A todo)) m) (limit_of m)) as Hone.
    { rewrite <- HR. eapply (round_load gi _ (id_of x)); try done; try by destruct Hro.
      - apply Forall_forall. by intros a [? _]%list_elem_of_filter.
      - rewrite HR, length_app. unfold mkeys. rewrite length_fmap. lia.
      - rewrite HR. rewrite <- HR at 1. apply (ro_counts _ _ _ _ _ _ _ Hro). }
    rewrite attached_cons, mkeys_app. rewrite !load_app in *. lia.
Qed.

Lemma converge_spec :
  ∃ rounds tail, (∀ t : T, (let! (_, t', err) := converge t g desired in Ret (t', err)) =
      run_checkpoints t (concat (round_checkpoints g <$> rounds) ++ dead_checkpoints root tail)) ∧
    r_item <$> rounds = Items g ∧
    A = concat ((λ r, r_dead r ++ item_row A (r_item r)) <$> rounds) ++ tail ∧
    Forall (λ y, asn_item y ∉ id_of <$> Items g) (concat (r_dead <$> rounds) ++ tail) ∧
    (∀ dead, concat (snd <$> dead_checkpoints root dead) = (λ x, OpDelete (kv_Key x)) <$> dead ∧
       Forall (λ cp, ∃ id grp, cp = dead_checkpoint root id grp ∧ Forall (λ x, x ∈ dead ∧ asn_item x = id) grp) (dead_checkpoints root dead)) ∧
    Forall (round_edits g desired) rounds ∧
    ∀ m, m ∈ Members g → load (concat (round_keys_after root <$> rounds)) m ≤ Z.max (load (mkeys root (attached A (Items g))) m) (limit_of m).
Proof.
  destruct (converge_rows_spec (Items g) g [] 0 desired []) as (rounds & tail & Hrun & [Hi Hrows Hdead Hed Hload]).
  - split; try done.
    + exists (MemberTotalCount g), (MemberPrimaryCount g). by destruct g.
    + by destruct Hok.
    + lia.
    + by intros y x []%elem_of_nil.
    + by intros y x _ []%elem_of_nil.
    + exists []. split; [done|]. by intros a []%elem_of_nil.
    + by destruct Hok.
    + pose proof (cg_len _ _ Hok). cbn. lia.
  - exists rounds, tail. split; [|split_and!; try done; intros dead; by apply dead_groups_ops]. intros t. rewrite <- Hrun. unfold converge.
    destruct (join_items_spec _ _ _ (cg_items _ _ Hok) (cg_assignments _ _ Hok)) as [-> _]. done.
Qed.

(** C34: with the state of the key space, [converge] has a round for every item, in order, with
    all the assignments of the item and all its desired ones, and removes just the assignments
    whose item does not exist, each where it compares that the item has not been created; it
    issues the checkpoints of these, up to the first error. Each
    round edits within the constraints of the item, and the rounds together leave no member
    with a load above its limit that did not have it before. *)
Theorem converge_correct :
  ∃ rounds tail, (∀ t : T, (let! (_, t', err) := converge t g desired in Ret (t', err)) =
      run_checkpoints t (concat (round_checkpoints g <$> rounds) ++ dead_checkpoints root tail)) ∧
    r_item <$> rounds = Items g ∧
    A = concat ((λ r, r_dead r ++ item_row A (r_item r)) <$> rounds) ++ tail ∧
    Forall (λ y, asn_item y ∉ id_of <$> Items g) (concat (r_dead <$> rounds) ++ tail) ∧
    (∀ dead, concat (snd <$> dead_checkpoints root dead) = (λ x, OpDelete (kv_Key x)) <$> dead ∧
       Forall (λ cp, ∃ id grp, cp = dead_checkpoint root id grp ∧ Forall (λ x, x ∈ dead ∧ asn_item x = id) grp) (dead_checkpoints root dead)) ∧
    Forall (round_edits g desired) rounds ∧
    ∀ m, m ∈ Members g → load (concat (round_keys_after root <$> rounds)) m ≤ Z.max (load (mkeys root (attached A (Items g))) m) (limit_of m).
Proof. exact converge_spec. Qed.
End walk.
End txn.
End converge.

(** ** A concrete convergence *)

Definition demo_desired : list (Assignment unit) :=
  [DemoRound.desired "x" "A" "three"; DemoRound.desired "x" "B" "two"; DemoRound.desired "y" "A" "one"].

Lemma demo_converge_ok : converge_ok Demo.state demo_desired.
Proof.
  split.
  - split; [split; [unfold kv_sorted; repeat constructor|repeat constructor]|repeat constructor].
  - split; [split; [unfold kv_sorted; repeat constructor|repeat constructor]|repeat constructor].
  - DemoRound.assignments_sorted.
  - repeat constructor; vm_compute; discriminate.
  - DemoRound.assignments_sorted.
  - apply Forall_cons. split; [split; [repeat split|]|apply Forall_cons; split; [split; [repeat split|]|apply Forall_cons; split; [split; [repeat split|]|constructor]]].
    + exists (Demo.member "A" "three" 2 5). split; [right; left|reflexivity].
    + exists (Demo.member "B" "two" 2 4). split; [right; right; left|reflexivity].
    + exists (Demo.member "A" "one" 3 2). split; [left|reflexivity].
  - intros d Hd. unfold demo_desired in Hd. rewrite !elem_of_cons, elem_of_nil in Hd. destruct Hd as [-> |[-> |[-> |[]]]]; vm_compute; set_solver.
  - intros x Hx. change (Items Demo.state) with [Demo.item "x" 4 2; Demo.item "y" 5 1] in Hx. rewrite !elem_of_cons, elem_of_nil in Hx.
    destruct Hx as [-> |[-> |[]]]; vm_compute; discriminate.
  - split_and!; [exact demo_state_members|vm_compute; reflexivity|vm_compute; reflexivity].
  - vm_compute. discriminate.
Qed.

Lemma converge_correct_witness :
  ∃ rounds (tail : list (KeyValue (Entity Z Z unit))), (let! (_, t', err) := @converge _ _ _ _ _ _ _ (batchedTxn_checkpointTxn refuse_second) demo_txn Demo.state demo_desired in Ret (t', err)) =
      @run_checkpoints _ (batchedTxn_checkpointTxn refuse_second) demo_txn (concat (round_checkpoints Demo.state <$> rounds) ++ dead_checkpoints "" tail) ∧
    r_item <$> rounds = Items Demo.state.
Proof.
  destruct (converge_correct (T := batchedTxn nat) (HT := batchedTxn_checkpointTxn refuse_second) (HL := batchedTxn_laws refuse_second)
    Demo.state demo_desired demo_converge_ok) as (rounds & tail & Hrun & Hi & _).
  exists rounds, tail. split; [exact (Hrun demo_txn)|exact Hi].
Defined.
