(* ===== verification/FlowNetwork.v ===== *)
(** * The allocation as a flow network (src/v2/pkg/allocator/flow_network.go)

    Items, their zones and members are nodes of a network whose maximum flow assigns items to
    members. The theorems: how the capacity of members is scaled by zone, and that the label of
    the overflow node lets the flow found be less than a maximum one. *)
From S2P Require Import Prelude Protocol KeySpace AllocKeys AllocState AllocTxn ItemState PushRelabel.
Local Open Scope Z_scope.

(** ** Scaling factors of zones *)

Fixpoint zone_sums (itemCount : Z) (zoneSlots : list Z) : Z * Z :=
  match zoneSlots with
  | [] => (0, 0)
  | zs :: l => let '(memberSlots, fixedSlots) := zone_sums itemCount l in (int64 (zs + memberSlots), int64 (Z.min itemCount zs + fixedSlots))
  end.

(** Numerators and denominators, by zone. *)
Definition zoneScalingFactors (itemCount itemSlots : Z) (zoneSlots : list Z) : list Z * list Z :=
  let '(memberSlots, fixedSlots) := zone_sums itemCount zoneSlots in
  let itemRemainder := Z.max 0 (int64 (Z.min itemSlots memberSlots - fixedSlots)) in
  let memberRemainder := Z.max 1 (int64 (memberSlots - fixedSlots)) in
  ((λ zs, int64 ((memberRemainder - itemRemainder) * Z.min itemCount zs + itemRemainder * zs)) <$> zoneSlots,
   (λ zs, int64 (zs * memberRemainder)) <$> zoneSlots).

(** The scaled capacity of a member, rounded up. *)
Definition scale_limit (limit num denom : Z) : outcome Z :=
  let scaled := int64 (limit * num) in
  if scaled =? 0 then Ret scaled
  else if denom =? 0 then Panic "integer divide by zero"
  else if Z.rem scaled denom =? 0 then Ret (Z.quot scaled denom) else Ret (int64 (Z.quot scaled denom + 1)).

(** ** The network *)

Definition addArc (net : network) (from to : nat) (capacity prevFlow : Z) : outcome network :=
  AddArc net from to capacity (if capacity <=? prevFlow then 2 else if 0 <? prevFlow then 1 else 0).

Section flow.
Context {MV IV AV : Type} `{!MemberValue MV} `{!ItemValue MV IV AV}.
Abbreviation KV := (KeyValue (Entity MV IV AV)).

(** Positions of the nodes of a network: the source, the sink, the overflow node, items, items by
    zone, and members. *)
Definition sourceNode : nat := 0.
Definition sinkNode : nat := 1.
Definition overflowNode : nat := 2.
Definition itemNode (i : nat) : nat := (3 + i)%nat.
Definition zoneItemNode (s : State MV IV AV) (i : nat) : nat := (3 + length (Items s) + i)%nat.
Definition memberNode (s : State MV IV AV) (i : nat) : nat := (3 + length (Items s) + length (Items s) * length (Zones s) + i)%nat.

(** Arcs from a zone of an item to the members of the zone, from the cursor [j] of their join with
    the assignments of the zone: with the index of the first member of the next zone. *)
Fixpoint member_arcs (fuel : nat) (s : State MV IV AV) (net : network) (zone : string) (zoneItem moff : nat)
    (zoneAssignments : list KV) (j : LeftJoinCursor) : outcome (network * nat) :=
  match fuel with
  | O => Ret (net, moff)
  | S fuel =>
      let! r := Next (length (Members s) - moff) (length zoneAssignments)
        (λ l r, let! m := memberAt (Members s) (l + moff) in let! a := assignmentAt zoneAssignments r in
                Ret (strings_Compare (mb_Suffix m) (as_MemberSuffix a))) (length zoneAssignments) j in
      match r with
      | None => Ret (net, moff)
      | Some (mcur, j) =>
          let member := (Left mcur + moff)%nat in
          let! m := memberAt (Members s) member in
          let c := strings_Compare zone (mb_Zone m) in
          if c =? -1 then Ret (net, member)
          else if c =? 1 then Panic "invalid member / zone order"
          else
            let! net := addArc net (zoneItemNode s zoneItem) (memberNode s member) 1 (Z.of_nat (RightEnd mcur - RightBegin mcur)) in
            member_arcs fuel s net zone zoneItem moff zoneAssignments j
      end
  end.

Definition zone_arcs (s : State MV IV AV) (item : nat) (itemAssignments : list KV) (zoneSlots : Z) (acc : network * nat) (zcur : LeftJoinCursor)
    : outcome (network * nat) :=
  let '(net, moff) := acc in
  match Zones s !! Left zcur with
  | None => Panic "index out of range"
  | Some zone =>
      let zoneItem := (item * length (Zones s) + Left zcur)%nat in
      let zoneAssignments := slice itemAssignments (RightBegin zcur) (RightEnd zcur) in
      let! net := addArc net (itemNode item) (zoneItemNode s zoneItem) zoneSlots (Z.of_nat (length zoneAssignments)) in
      member_arcs (S (length (Members s))) s net zone zoneItem moff zoneAssignments (mkCursor 0 0 0)
  end.

Definition buildItemArcs (s : State MV IV AV) (net : network) (item : nat) (itemAssignments : list KV) (itemSlots effectiveZones : Z) : outcome network :=
  let zoneSlots := if (1 <? itemSlots) && (1 <? effectiveZones) then itemSlots - 1 else itemSlots in
  let! net := addArc net sourceNode (itemNode item) itemSlots (Z.of_nat (length itemAssignments)) in
  let! rows := LeftJoin_rows (length (Zones s)) (length itemAssignments)
    (λ l r, match Zones s !! l with
            | None => Panic "index out of range"
            | Some z => let! a := assignmentAt itemAssignments r in Ret (strings_Compare z (as_MemberZone a))
            end) in
  let! (net, _) := outcome_fold (zone_arcs s item itemAssignments zoneSlots) (net, O) rows in
  Ret net.

(** The walk over items, with the slots that are left. *)
Definition item_arcs (s : State MV IV AV) (effectiveZones : Z) (acc : network * Z) (cur : LeftJoinCursor) : outcome (network * Z) :=
  let '(net, effectiveSlots) := acc in
  let! item := itemAt (Items s) (Left cur) in
  let r := DesiredReplication (it_Value item) in
  let itemSlots := if r <? 0 then 0 else if effectiveSlots <? r then effectiveSlots else r in
  let! net := buildItemArcs s net (Left cur) (slice (Assignments s) (RightBegin cur) (RightEnd cur)) itemSlots effectiveZones in
  Ret (net, int64 (effectiveSlots - itemSlots)).

(** The walk over members. *)
Definition sink_arcs (s : State MV IV AV) (zsfNum zsfDenom : list Z) (net : network) (cur : LeftJoinCursor) : outcome network :=
  let member := Left cur in
  let! m := memberAt (Members s) member in
  match zsfNum !! RightBegin cur, zsfDenom !! RightBegin cur, MemberTotalCount s !! member with
  | Some num, Some denom, Some count =>
      let limit := ItemLimit (mb_Value m) in
      let! scaled := scale_limit limit num denom in
      let! net := addArc net (memberNode s member) sinkNode scaled count in
      if scaled <? limit then addArc net (memberNode s member) overflowNode (int64 (limit - scaled)) 0 else Ret net
  | _, _, _ => Panic "index out of range"
  end.

(** The nodes with their heights: their distance to the sink, and for the overflow node what the
    code sets. *)
Definition init_nodes (s : State MV IV AV) : network :=
  let items := InitNodes (length (Items s)) 3 in
  let zoneItems := InitNodes (length (Items s) * length (Zones s)) 2 in
  let members := InitNodes (length (Members s)) 1 in
  let height := uint32 (Z.of_nat (length items + length zoneItems + length members + 3)) in
  [mkNode 0 height [] 0 0; mkNode 0 0 [] 0 0; mkNode 0 (uint32 (height - 2)) [] 0 0] ++ items ++ zoneItems ++ members.

Definition fn_init (s : State MV IV AV) : outcome network :=
  let! net := addArc (init_nodes s) overflowNode sinkNode MaxInt32 0 in
  let effectiveSlots := foldl (λ n zs, int64 (n + zs)) 0 (ZoneSlots s) in
  let effectiveZones := Z.of_nat (length (filter (λ zs, Z.of_nat (length (Items s)) < zs) (ZoneSlots s))) in
  let! rows := join_items (Items s) (Assignments s) in
  let! (net, _) := outcome_fold (item_arcs s effectiveZones) (net, effectiveSlots) rows in
  let '(zsfNum, zsfDenom) := zoneScalingFactors (Z.of_nat (length (Items s))) (ItemSlots s) (ZoneSlots s) in
  let! rows := LeftJoin_rows (length (Members s)) (length (Zones s))
    (λ l r, match Zones s !! r with
            | None => Panic "index out of range"
            | Some z => let! m := memberAt (Members s) l in Ret (strings_Compare (mb_Zone m) z)
            end) in
  let! net := outcome_fold (sink_arcs s zsfNum zsfDenom) net rows in
  Ret (SortNodeArcs net (sourceNode :: (itemNode <$> seq 0 (length (Items s))) ++ (zoneItemNode s <$> seq 0 (length (Items s) * length (Zones s))) ++
         (memberNode s <$> seq 0 (length (Members s))) ++ [overflowNode; sinkNode])).

(** ** Assignments of a flow *)

Definition extract_arc (s : State MV IV AV) (net : network) (id : string) (out : list (Assignment AV)) (a : Arc) : outcome (list (Assignment AV)) :=
  if Flow a <=? 0 then Ret out
  else
    match net !! Target a with
    | None => Panic "nil pointer dereference"
    | Some t =>
        let! m := memberAt (Members s) (Z.to_nat (ID t)) in
        Ret (out ++ [mkAssignment id (mb_Zone m) (mb_Suffix m) 0 None])
    end.

Definition extractItemFlow {Sort : SliceSort} (s : State MV IV AV) (net : network) (item : nat) : outcome (list (Assignment AV)) :=
  let! it := itemAt (Items s) item in
  let! out := outcome_fold (λ out zone,
    match net !! zoneItemNode s (item * length (Zones s) + zone) with
    | None => Panic "index out of range"
    | Some n => outcome_fold (extract_arc s net (it_ID it)) out (Arcs n)
    end) [] (seq 0 (length (Zones s))) in
  sort_Slice (λ x y, Ret (compareAssignment x y <? 0)) out.

(** The desired assignments that [Allocate] solves for. *)
Definition solve {Sort : SliceSort} (fuel : nat) (s : State MV IV AV) : option (outcome (list (Assignment AV))) :=
  match fn_init s with
  | Panic m => Some (Panic m)
  | Ret net =>
      match FindMaxFlow fuel sourceNode sinkNode net with
      | None => None
      | Some (Panic m) => Some (Panic m)
      | Some (Ret net) =>
          Some (outcome_fold (λ desired item, let! out := extractItemFlow s net item in Ret (desired ++ out)) [] (seq 0 (length (Items s))))
      end
  end.
End flow.

(** ** Scaled capacities *)

Section scaling.
Context (itemCount itemSlots : Z) (zones : list (list Z)).
(** The item limits of the members of each zone. *)
Context (Hcount : 0 ≤ itemCount) (Hslots : 0 ≤ itemSlots) (Hlimits : Forall (Forall (λ l, 0 ≤ l)) zones) (Hbound : sum_Z (concat zones) ≤ 1048576).

Definition zone_slots : list Z := sum_Z <$> zones.
Definition fixed_slots : Z := sum_Z ((λ zs, Z.min itemCount zs) <$> zone_slots).
Definition member_slots : Z := sum_Z zone_slots.
Definition item_remainder : Z := Z.max 0 (Z.min itemSlots member_slots - fixed_slots).
Definition member_remainder : Z := Z.max 1 (member_slots - fixed_slots).
Definition zone_num (zs : Z) : Z := (member_remainder - item_remainder) * Z.min itemCount zs + item_remainder * zs.
Definition zone_denom (zs : Z) : Z := zs * member_remainder.

Lemma sum_Z_app l k : sum_Z (l ++ k) = sum_Z l + sum_Z k.
Proof. unfold sum_Z. induction l as [|x l IH]; cbn; [done|]. rewrite IH. lia. Qed.

Lemma sum_Z_cons x l : sum_Z (x :: l) = x + sum_Z l.
Proof. done. Qed.

Lemma sum_Z_nonneg l : Forall (λ x, 0 ≤ x) l → 0 ≤ sum_Z l.
Proof. induction 1 as [|x l Hx Hl IH]; [done|]. rewrite sum_Z_cons. lia. Qed.

Lemma sum_Z_elem l x : Forall (λ x, 0 ≤ x) l → x ∈ l → x ≤ sum_Z l.
Proof.
  induction 1 as [|y l Hy Hl IH]; [by intros []%elem_of_nil|]. rewrite sum_Z_cons. pose proof (sum_Z_nonneg l Hl).
  intros [-> |Hx]%elem_of_cons; [lia|]. specialize (IH Hx). lia.
Qed.

Lemma member_slots_eq : member_slots = sum_Z (concat zones).
Proof.
  unfold member_slots, zone_slots. clear. induction zones as [|z l IH]; [done|]. rewrite fmap_cons, sum_Z_cons, IH. cbn [concat]. by rewrite sum_Z_app.
Qed.

Lemma zone_slots_nonneg : Forall (λ zs, 0 ≤ zs) zone_slots.
Proof. unfold zone_slots. apply Forall_fmap. eapply Forall_impl; [exact Hlimits|]. intros l Hl. cbn. by apply sum_Z_nonneg. Qed.

Lemma zone_sums_spec l : Forall (λ zs, 0 ≤ zs) l → sum_Z l ≤ 1048576 →
  zone_sums itemCount l = (sum_Z l, sum_Z ((λ zs, Z.min itemCount zs) <$> l)) ∧ 0 ≤ sum_Z ((λ zs, Z.min itemCount zs) <$> l) ≤ sum_Z l.
Proof.
  induction 1 as [|zs l Hz Hl IH]; [cbn; split; [done|lia]|]. rewrite fmap_cons, !sum_Z_cons. intros Hs. pose proof (sum_Z_nonneg l Hl).
  destruct IH as [IH1 IH2]; [lia|]. cbn [zone_sums]. rewrite IH1, !int64_id by (unfold is_int64, MinInt64, MaxInt64; lia). split; [done|lia].
Qed.

Lemma remainders : 0 ≤ fixed_slots ≤ member_slots ∧ 0 ≤ member_slots ≤ 1048576 ∧ 0 ≤ item_remainder ≤ member_remainder ∧ 1 ≤ member_remainder ≤ 1048577.
Proof.
  pose proof member_slots_eq as Hms. pose proof (sum_Z_nonneg _ zone_slots_nonneg) as Hnn. fold member_slots in Hnn.
  destruct (zone_sums_spec zone_slots zone_slots_nonneg) as [_ Hf]; [fold member_slots; lia|]. fold fixed_slots member_slots in Hf.
  unfold item_remainder, member_remainder. lia.
Qed.

Lemma zone_num_bounds zs : zs ∈ zone_slots →
  0 ≤ zs ≤ member_slots ∧ member_remainder * Z.min itemCount zs ≤ zone_num zs ≤ zone_denom zs ∧ 0 ≤ zone_denom zs ≤ 1048576 * 1048577.
Proof.
  intros Hz. pose proof remainders as (Hf & Hms & Hi & Hm). pose proof (sum_Z_elem _ zs zone_slots_nonneg Hz) as Hle. fold member_slots in Hle.
  pose proof (proj1 (Forall_forall _ _) zone_slots_nonneg zs Hz) as H0. cbn in H0. unfold zone_num, zone_denom. split; [lia|]. split; nia.
Qed.

(** Without overflow the factors are the expressions of the documentation. *)
Lemma zoneScalingFactors_spec : zoneScalingFactors itemCount itemSlots zone_slots = (zone_num <$> zone_slots, zone_denom <$> zone_slots).
Proof.
  pose proof remainders as (Hf & Hms & Hi & Hm). unfold zoneScalingFactors.
  destruct (zone_sums_spec zone_slots zone_slots_nonneg) as [-> _]; [fold member_slots; lia|]. fold fixed_slots member_slots.
  assert (is_int64 (member_slots - fixed_slots)) as H1 by (unfold is_int64, MinInt64, MaxInt64; lia). rewrite (int64_id _ H1). fold member_remainder.
  assert (Z.max 0 (int64 (Z.min itemSlots member_slots - fixed_slots)) = item_remainder) as ->.
  { rewrite int64_id; [done|]. unfold is_int64, MinInt64, MaxInt64. lia. }
  f_equal; apply list_fmap_ext; intros i zs Hz; apply list_elem_of_lookup_2 in Hz; destruct (zone_num_bounds zs Hz) as (? & ? & ?); rewrite int64_id; try done.
  all: unfold is_int64, MinInt64, MaxInt64; nia.
Qed.

(** A member's capacity is the least whole number that is no less than its share. *)
Lemma scale_limit_spec zs limit : zs ∈ zone_slots → 0 ≤ limit ≤ 1048576 →
  ∃ c, scale_limit limit (zone_num zs) (zone_denom zs) = Ret c ∧ 0 ≤ c ≤ limit ∧ limit * zone_num zs ≤ c * zone_denom zs.
Proof.
  intros Hz Hl. destruct (zone_num_bounds zs Hz) as (H1 & [H2 H3] & H4). pose proof remainders as (_ & Hms & _ & Hm).
  assert (0 ≤ zone_num zs) as H0 by nia. assert (0 ≤ limit * zone_num zs ≤ 1048576 * (1048576 * 1048577)) as Hb by nia.
  unfold scale_limit. rewrite int64_id by (unfold is_int64, MinInt64, MaxInt64; lia).
  destruct (Z.eqb_spec (limit * zone_num zs) 0) as [Hz0|Hnz]; [exists 0; rewrite Hz0; split; [done|]; lia|].
  assert (0 < zone_denom zs) as Hd by nia. destruct (Z.eqb_spec (zone_denom zs) 0); [lia|].
  rewrite Z.rem_mod_nonneg, Z.quot_div_nonneg by lia. pose proof (Z.div_mod (limit * zone_num zs) (zone_denom zs) ltac:(lia)) as Hdm.
  pose proof (Z.mod_pos_bound (limit * zone_num zs) (zone_denom zs) Hd) as Hmod.
  assert (limit * zone_num zs ≤ limit * zone_denom zs) as Hle by nia.
  destruct (Z.eqb_spec ((limit * zone_num zs) mod zone_denom zs) 0) as [Hr|Hr].
  - exists (limit * zone_num zs / zone_denom zs). split; [done|]. split; [split; [apply Z.div_pos; lia|apply Z.div_le_upper_bound; nia]|nia].
  - set (q := limit * zone_num zs / zone_denom zs) in *. assert (0 ≤ q) by (apply Z.div_pos; lia). assert (q < limit) by nia.
    exists (q + 1). rewrite int64_id by (unfold is_int64, MinInt64, MaxInt64; nia). split; [done|]. split; [lia|nia].
Qed.

(** The capacities of a zone's members. *)
Lemma scale_zone_spec zs limits : zs ∈ zone_slots → Forall (λ l, 0 ≤ l ≤ zs) limits →
  ∃ caps, Forall2 (λ limit c, scale_limit limit (zone_num zs) (zone_denom zs) = Ret c ∧ 0 ≤ c ≤ limit) limits caps ∧
    sum_Z limits * zone_num zs ≤ sum_Z caps * zone_denom zs.
Proof.
  intros Hz. induction 1 as [|l limits Hl Hls IH]; [exists []; split; [constructor|cbn; lia]|].
  destruct IH as (caps & Hc & Hs). destruct (scale_limit_spec zs l Hz) as (c & Hc1 & Hc2 & Hc3).
  { destruct (zone_num_bounds zs Hz) as [? _]. pose proof remainders. lia. } exists (c :: caps).
  split; [by constructor|]. rewrite !sum_Z_cons. lia.
Qed.

Lemma num_sum l : Forall (λ zs, 0 ≤ zs) l → sum_Z (zone_num <$> l) =
  (member_remainder - item_remainder) * sum_Z ((λ zs, Z.min itemCount zs) <$> l) + item_remainder * sum_Z l.
Proof.
  induction 1 as [|zs l Hz Hl IH]; [cbn; lia|]. rewrite !fmap_cons, !sum_Z_cons, IH. unfold zone_num at 1. lia.
Qed.

Definition zone_caps (z c : list Z) : Prop :=
  Forall2 (λ limit c, scale_limit limit (zone_num (sum_Z z)) (zone_denom (sum_Z z)) = Ret c ∧ 0 ≤ c ≤ limit) z c ∧
  zone_num (sum_Z z) ≤ sum_Z c * member_remainder.

Lemma zone_caps_exist z : z ∈ zones → ∃ c, zone_caps z c.
Proof.
  intros Hz. assert (sum_Z z ∈ zone_slots) as Hzs by (apply list_elem_of_fmap; eauto).
  pose proof (proj1 (Forall_forall _ _) Hlimits z Hz) as Hzl. cbn in Hzl. destruct (scale_zone_spec (sum_Z z) z Hzs) as (c & Hc & Hs).
  { apply Forall_forall. intros x Hx. split; [by apply (proj1 (Forall_forall _ _) Hzl)|by apply sum_Z_elem]. }
  exists c. split; [done|]. destruct (zone_num_bounds _ Hzs) as (H1 & H2 & H3). unfold zone_denom in *.
  pose proof remainders as (_ & _ & Hi & Hm). destruct (Z.eq_dec (sum_Z z) 0) as [H0|Hn0]; [|nia].
  unfold zone_num. rewrite H0. assert (0 ≤ sum_Z c); [|rewrite Z.min_r by lia; nia].
  apply sum_Z_nonneg, Forall_forall. intros y [i Hy]%list_elem_of_lookup. destruct (Forall2_lookup_r _ _ _ _ _ Hc Hy) as (? & _ & _ & ? & _). done.
Qed.

Lemma all_caps_exist : ∃ caps, Forall2 zone_caps zones caps.
Proof.
  assert (∀ l, (∀ z, z ∈ l → z ∈ zones) → ∃ caps, Forall2 zone_caps l caps) as H; [|by apply H].
  induction l as [|z l IH]; intros Hsub; [exists []; constructor|]. destruct IH as (caps & IH); [intros; apply Hsub; by right|].
  destruct (zone_caps_exist z) as (c & Hc); [apply Hsub; by left|]. exists (c :: caps). by constructor.
Qed.

Lemma caps_sum l caps : Forall2 zone_caps l caps → sum_Z (zone_num <$> (sum_Z <$> l)) ≤ sum_Z (concat caps) * member_remainder.
Proof. induction 1 as [|z c l caps [_ Hc] Hl IH]; [done|]. rewrite !fmap_cons, sum_Z_cons. cbn [concat]. rewrite sum_Z_app. lia. Qed.

(** C40: Scaling the limits of members by zone, where limits are not negative and add up to 1048576 at most, gives every
    member a capacity within its limit, without a division by zero; each zone can hold every item once, or all that its limits
    admit; and together the zones can hold all item slots, or all that their limits admit. Beyond that sum products of 64 bits may
    overflow: a limit of MaxInt32 is given a capacity of one in [large_limit_overflows]. *)
Theorem scaling_sufficient : ∃ nums denoms caps, zoneScalingFactors itemCount itemSlots (sum_Z <$> zones) = (nums, denoms) ∧
  length caps = length zones ∧
  (∀ z limits c, zones !! z = Some limits → caps !! z = Some c →
     (∃ num denom, nums !! z = Some num ∧ denoms !! z = Some denom ∧
        Forall2 (λ limit c, scale_limit limit num denom = Ret c ∧ 0 ≤ c ≤ limit) limits c) ∧
     Z.min itemCount (sum_Z limits) ≤ sum_Z c) ∧
  Z.min itemSlots (sum_Z (concat zones)) ≤ sum_Z (concat caps).
Proof.
  destruct all_caps_exist as (caps & Hcaps). exists (zone_num <$> zone_slots), (zone_denom <$> zone_slots), caps.
  pose proof remainders as (Hf & Hms & Hi & Hm). pose proof Hcaps as [Hlen Hlk]%Forall2_same_length_lookup.
  split; [exact zoneScalingFactors_spec|]. split; [done|]. split.
  - intros z limits c Hz Hc. destruct (Hlk z limits c Hz Hc) as [Hc1 Hc2].
    assert (zone_slots !! z = Some (sum_Z limits)) as Hzs by (unfold zone_slots; by rewrite list_lookup_fmap, Hz). split.
    + exists (zone_num (sum_Z limits)), (zone_denom (sum_Z limits)). by rewrite !list_lookup_fmap, Hzs.
    + destruct (zone_num_bounds (sum_Z limits)) as (_ & [H2 _] & _); [by apply (list_elem_of_lookup_2 _ z)|]. nia.
  - pose proof (caps_sum _ _ Hcaps) as Hsum. fold zone_slots in Hsum. rewrite (num_sum _ zone_slots_nonneg) in Hsum. fold fixed_slots member_slots in Hsum.
    rewrite <- member_slots_eq. unfold item_remainder, member_remainder in *. nia.
Qed.
End scaling.

Lemma scaling_sufficient_witness : ∃ nums denoms caps, zoneScalingFactors 5 12 [10; 20] = (nums, denoms) ∧ length caps = 2%nat ∧
  12 ≤ sum_Z (concat caps).
Proof.
  destruct (scaling_sufficient 5 12 [[4; 6]; [20]] ltac:(lia) ltac:(lia) ltac:(repeat constructor; lia) ltac:(vm_compute; discriminate))
    as (nums & denoms & caps & Hz & Hl & _ & Hs).
  exists nums, denoms, caps. split; [exact Hz|]. split; [exact Hl|exact Hs].
Defined.

(** A limit that stands for no limit overflows the product with its numerator: four items with
    eight slots, and a capacity of one. *)
Lemma large_limit_overflows : ∃ num denom, zoneScalingFactors 4 8 [2147483647] = ([num], [denom]) ∧ scale_limit 2147483647 num denom = Ret 1.
Proof. exists 17179869144, 4611686005542486021. split; vm_compute; reflexivity. Qed.

(** ** The overflow node *)

(** Two items, to be replicated three and four times, and three members of one zone; one
    assignment exists. *)
Definition short_kvs : list (KeyValue (Entity Z Z unit)) :=
  [Demo.assignment "i1" "A" "m1" 0 10 "consistent"; Demo.item "i0" 4 3; Demo.item "i1" 5 4;
   Demo.member "A" "m0" 1 2; Demo.member "A" "m1" 2 6; Demo.member "A" "m2" 3 6].

Definition short_state : State Z Z unit := Eval vm_compute in
  match observe prefix_end (NewObservedState (mkKeySpace "" zeroHeader short_kvs 0) "") with Ret s => s | Panic _ => NewObservedState Demo.ks "" end.

(** Assignments of items to different members, within replication and limits. *)
Definition valid_allocation {MV IV AV} `{!MemberValue MV} `{!ItemValue MV IV AV} (s : State MV IV AV) (l : list (Assignment AV)) : Prop :=
  NoDup (tag <$> l) ∧
  (∀ a, a ∈ l → as_ItemID a ∈ id_of <$> Items s ∧ mkey (ks_Root (KS s)) a ∈ (λ m, k_Key (Raw m)) <$> Members s) ∧
  (∀ x, x ∈ Items s → Z.of_nat (length (filter (λ a, as_ItemID a = id_of x) l)) ≤ replication_of x) ∧
  (∀ m, m ∈ Members s → Z.of_nat (length (filter (λ a, mkey (ks_Root (KS s)) a = k_Key (Raw m)) l)) ≤ limit_of m).

Definition six_assignments : list (Assignment unit) :=
  (λ p, mkAssignment p.1 "A" p.2 0 None) <$> [("i0", "m0"); ("i0", "m1"); ("i0", "m2"); ("i1", "m0"); ("i1", "m1"); ("i1", "m2")].

Definition five_assignments : list (Assignment unit) :=
  (λ p, mkAssignment p.1 "A" p.2 0 None) <$> [("i0", "m1"); ("i0", "m2"); ("i1", "m0"); ("i1", "m1"); ("i1", "m2")].

(** The overflow node starts at a height that is no valid label, above its arc to the sink,
    and the flow found need not be maximum: here an item is to have two replicas, of the three
    that it desires and could have. *)
Theorem overflow_not_maximum :
  solve 2000 short_state = Some (Ret five_assignments) ∧
  valid_allocation short_state six_assignments ∧ length six_assignments = 6%nat.
Proof.
  split; [vm_compute; reflexivity|]. split; [|reflexivity]. split_and!.
  - apply (bool_decide_unpack _). vm_compute. reflexivity.
  - intros a Ha. unfold six_assignments in Ha. apply list_elem_of_fmap in Ha as (p & -> & Hp). rewrite !elem_of_cons, elem_of_nil in Hp.
    destruct Hp as [-> |[-> |[-> |[-> |[-> |[-> |[]]]]]]]; split; apply (bool_decide_unpack _); vm_compute; reflexivity.
  - intros x Hx. change (Items short_state) with [Demo.item "i0" 4 3; Demo.item "i1" 5 4] in Hx. rewrite !elem_of_cons, elem_of_nil in Hx.
    destruct Hx as [-> |[-> |[]]]; vm_compute; discriminate.
  - intros x Hx. change (Members short_state) with [Demo.member "A" "m0" 1 2; Demo.member "A" "m1" 2 6; Demo.member "A" "m2" 3 6] in Hx. rewrite !elem_of_cons, elem_of_nil in Hx.
    destruct Hx as [-> |[-> |[-> |[]]]]; vm_compute; discriminate.
Qed.
