(* ===== verification/AllocFlow.v ===== *)
(** * Allocations are flows (src/v2/pkg/allocator/flow_network.go)

    What the network of FlowNetwork.v is, as a list of edges, and what a flow of it says of the
    assignments that are read off: they keep to the replication of items, to the limits of
    members, and spread over zones. *)
From S2P Require Import Prelude Protocol KeySpace AllocKeys AllocState AllocTxn ItemState PushRelabel FlowNetwork.
Local Open Scope Z_scope.

(** ** Networks as lists of edges *)

(** An edge from a node to another, with its capacity. *)
Definition edge : Type := nat * nat * Z.
Definition e_from (e : edge) : nat := e.1.1.
Definition e_to (e : edge) : nat := e.1.2.
Definition e_cap (e : edge) : Z := e.2.

(** What an edge adds to the arcs of a node: itself, or its reverse. *)
Definition end_at (u : nat) (e : edge) : list (nat * Z) :=
  (if decide (e_from e = u) then [(e_to e, e_cap e)] else []) ++ (if decide (e_to e = u) then [(e_from e, 0)] else []).
Definition ends (u : nat) (B : list edge) : list (nat * Z) := concat (end_at u <$> B).
Definition cap_of (a : Arc) : nat * Z := (Target a, Capacity a).

Lemma ends_app u B C : ends u (B ++ C) = ends u B ++ ends u C.
Proof. unfold ends. by rewrite fmap_app, concat_app. Qed.

(** [net'] is [net] with the edges [B]. *)
Record built (net : network) (B : list edge) (net' : network) : Prop := {
  bu_length : length net' = length net;
  bu_arcs : ∀ u, cap_of <$> arcs_of net' u = (cap_of <$> arcs_of net u) ++ ends u B;
  bu_node : ∀ u n', net' !! u = Some n' → ∃ n, net !! u = Some n ∧ ID n' = ID n ∧ Height n' = Height n;
  bu_paired : paired net → paired net';
  bu_fresh : fresh net → fresh net';
}.

Lemma built_nil net : built net [] net.
Proof. split; [done|intros; by rewrite app_nil_r|naive_solver|done|done]. Qed.

Lemma built_trans n1 n2 n3 B C : built n1 B n2 → built n2 C n3 → built n1 (B ++ C) n3.
Proof.
  intros [L1 A1 N1 P1 F1] [L2 A2 N2 P2 F2]. split; [congruence| | |auto|auto].
  - intros u. by rewrite A2, A1, ends_app, <- app_assoc.
  - intros u n' Hn'. destruct (N2 _ _ Hn') as (m & Hm & ? & ?). destruct (N1 _ _ Hm) as (n & Hn & ? & ?). exists n. split_and!; congruence.
Qed.

Lemma built_AddArc net from to c p net' : AddArc net from to c p = Ret net' → from ≠ to → built net [(from, to, c)] net' ∧ 0 ≤ c.
Proof.
  unfold AddArc. destruct (net !! from) as [f|] eqn:Hf, (net !! to) as [t|] eqn:Ht; try done.
  destruct (_ || _) eqn:Hc; [done|]. apply orb_false_iff in Hc as [Hc1 Hc2]. destruct (_ || _); [done|].
  intros [= <-] Hne. pose proof (lookup_lt_Some _ _ _ Hf) as Hlf. pose proof (lookup_lt_Some _ _ _ Ht) as Hlt. split; [|lia].
  rewrite <- (arcs_lookup _ _ _ Hf), <- (arcs_lookup _ _ _ Ht). split.
  - by rewrite !length_alter.
  - intros u. etrans; [exact (f_equal (fmap cap_of) (add_arcs net from to c p Hlf Hlt Hne u))|]. unfold ends, end_at, e_from, e_to, e_cap. cbn. rewrite app_nil_r.
    destruct (decide (u = from)) as [-> |Huf]; [|destruct (decide (u = to)) as [-> |Hut]].
    + rewrite (decide_True (P := from = from)), (decide_False (P := to = from)) by done. by rewrite fmap_app.
    + rewrite (decide_False (P := from = to)), (decide_True (P := to = to)) by done. by rewrite fmap_app.
    + rewrite !decide_False by done. by rewrite app_nil_r.
  - intros u n' Hn'. destruct (decide (u = to)) as [-> |]; [|rewrite list_lookup_alter_ne in Hn' by done; destruct (decide (u = from)) as [-> |]].
    + rewrite list_lookup_alter_eq, list_lookup_alter_ne, Ht in Hn' by done. injection Hn' as <-. by exists t.
    + rewrite list_lookup_alter_eq, Hf in Hn'. injection Hn' as <-. by exists f.
    + rewrite list_lookup_alter_ne in Hn' by done. by exists n'.
  - intros Hp. apply add_arc_paired; [done..| |done]. lia.
  - intros Hfr. by apply add_arc_fresh.
Qed.

Lemma elem_of_ends u v c B : (v, c) ∈ ends u B ↔ (u, v, c) ∈ B ∨ c = 0 ∧ ∃ c', (v, u, c') ∈ B.
Proof.
  unfold ends. rewrite elem_of_concat. split.
  - intros (l & ([[f t] k] & -> & He)%list_elem_of_fmap & Hv). unfold end_at, e_from, e_to, e_cap in Hv. cbn in Hv.
    apply elem_of_app in Hv as [Hv|Hv]; case_decide; subst; apply list_elem_of_singleton in Hv || by apply elem_of_nil in Hv.
    + injection Hv as -> ->. by left.
    + injection Hv as -> ->. right. eauto.
  - intros [He|(-> & c' & He)]; eexists; (split; [apply list_elem_of_fmap; eexists; split; [reflexivity|exact He]|]);
      unfold end_at, e_from, e_to, e_cap; cbn; apply elem_of_app; [left|right]; rewrite decide_True by done; by left.
Qed.

(** Edges between different pairs of nodes, none of them the reverse of another. *)
Lemma NoDup_ends u B : NoDup B.*1 → (∀ e e', e ∈ B → e' ∈ B → ¬ (e_from e = e_to e' ∧ e_to e = e_from e')) → NoDup (ends u B).*1.
Proof.
  intros Hnd Hrev. induction B as [|e B IH]; [constructor|]. rewrite fmap_cons in Hnd. apply NoDup_cons in Hnd as [He Hnd].
  assert (∀ c, (e_from e, e_to e, c) ∉ B) as Hpair.
  { intros c Hc. apply He. apply list_elem_of_fmap. exists (e_from e, e_to e, c). split; [by destruct e as [[]]|done]. }
  change (ends u (e :: B)) with (end_at u e ++ ends u B). rewrite fmap_app. apply NoDup_app. split_and!.
  - unfold end_at. repeat case_decide; cbn; repeat constructor; try by intros ?%elem_of_nil.
    exfalso. apply (Hrev e e); [by left|by left|]. split; congruence.
  - intros v Hv ((v' & c) & Hv' & Hin)%list_elem_of_fmap. cbn in Hv'. subst v'. apply elem_of_ends in Hin. unfold end_at in Hv. rewrite fmap_app in Hv.
    apply elem_of_app in Hv as [Hv|Hv]; case_decide; subst; cbn in Hv;
      first [apply list_elem_of_singleton in Hv|by apply elem_of_nil in Hv]; subst v.
    + destruct Hin as [Hin|(_ & c' & Hin)]; [by apply Hpair in Hin|]. apply (Hrev e (e_to e, e_from e, c')); [by left|by right|done].
    + destruct Hin as [Hin|(_ & c' & Hin)]; [|by apply Hpair in Hin]. apply (Hrev e (e_to e, e_from e, c)); [by left|by right|done].
  - apply IH; [done|]. intros x y Hx Hy. apply Hrev; by right.
Qed.

(** Flow changes neither capacities nor how arcs are paired. *)
Lemma shape_node net net' u n : shape net' = shape net → net !! u = Some n →
  ∃ n', net' !! u = Some n' ∧ ID n' = ID n ∧ (λ a, with_Flow a 0) <$> Arcs n' = (λ a, with_Flow a 0) <$> Arcs n.
Proof.
  intros Hsh Hn. assert (shape net' !! u = shape net !! u) as Hs by congruence. unfold shape in Hs. rewrite !list_lookup_fmap, Hn in Hs.
  destruct (net' !! u) as [n'|]; [|done]. cbn in Hs. injection Hs as ? ?. eauto.
Qed.

Lemma shape_caps net net' u : shape net' = shape net → cap_of <$> arcs_of net' u = cap_of <$> arcs_of net u.
Proof.
  intros Hsh. unfold arcs_of. destruct (net !! u) as [n|] eqn:Hn.
  - destruct (shape_node _ _ _ _ Hsh Hn) as (n' & -> & _ & Ha). apply (f_equal (fmap cap_of)) in Ha. rewrite <- !list_fmap_compose in Ha. exact Ha.
  - pose proof (length_shape _ _ Hsh) as Hl. rewrite lookup_ge_None_2; [done|]. apply lookup_ge_None in Hn. lia.
Qed.

Lemma shape_paired net net' : shape net' = shape net → paired net → paired net'.
Proof.
  intros Hsh Hp u i a' Ha'. destruct (shape_arc net' net u i a' ltac:(done) Ha') as (a & Ha & Hc & Hr & Ht).
  destruct (Hp _ _ _ Ha) as (H1 & H2 & b & Hb & Hbt & Hbr & Hbc). destruct (shape_arc net net' _ _ b Hsh Hb) as (b' & Hb' & Hc' & Hr' & Ht').
  rewrite <- Ht, <- Hc, <- Hr. split_and!; [done..|]. exists b'. split_and!; [done|congruence|congruence|lia].
Qed.

Section flow_of.
Context (net : network) (B : list edge) (s t : nat).
Context (Hcaps : ∀ u, cap_of <$> arcs_of net u ≡ₚ ends u B) (Hnd : ∀ u, NoDup (fst <$> ends u B)).
Context (Hp : paired net) (Hfe : feasible net s t (arc_flow net)).

(** The flow from a node to another. *)
Definition fl (u v : nat) : Z := zsum Flow (filter (λ a, Target a = v) (arcs_of net u)).
Definition efl (e : edge) : Z := fl (e_from e) (e_to e).

Lemma NoDup_targets u : NoDup (Target <$> arcs_of net u).
Proof. specialize (Hnd u). rewrite <- (Hcaps u), <- list_fmap_compose in Hnd. exact Hnd. Qed.

Lemma fl_arc u a : a ∈ arcs_of net u → fl u (Target a) = Flow a.
Proof.
  intros Ha. pose proof (NoDup_targets u) as Hn. unfold fl. induction (arcs_of net u) as [|b l IH]; [by apply elem_of_nil in Ha|].
  rewrite fmap_cons in Hn. apply NoDup_cons in Hn as [Hb Hn]. apply elem_of_cons in Ha as [-> |Ha]; rewrite filter_cons.
  - rewrite decide_True by done. cbn [zsum]. rewrite list_filter_none; [cbn; lia|]. intros x Hx Ht. apply Hb. rewrite <- Ht. by apply list_elem_of_fmap_2.
  - rewrite decide_False; [by apply IH|]. intros Ht. apply Hb. rewrite Ht. by apply list_elem_of_fmap_2.
Qed.

Lemma fl_none u v : v ∉ Target <$> arcs_of net u → fl u v = 0.
Proof. intros Hv. unfold fl. rewrite list_filter_none; [done|]. intros x Hx <-. apply Hv. by apply list_elem_of_fmap_2. Qed.

Lemma fl_partner u a : a ∈ arcs_of net u → ∃ b, b ∈ arcs_of net (Target a) ∧ Target b = u ∧ Flow b = - Flow a.
Proof.
  intros (i & Hi)%list_elem_of_lookup_1. change (arc net u i = Some a) in Hi. destruct (Hp _ _ _ Hi) as (_ & _ & b & Hb & Hbu & _).
  exists b. split; [by eapply list_elem_of_lookup_2|]. split; [done|]. pose proof (fe_anti _ _ _ _ Hfe _ _ _ Hi) as Hf.
  unfold arc_flow in Hf. by rewrite Hb, Hi in Hf.
Qed.

Lemma fl_anti u v : fl v u = - fl u v.
Proof.
  assert (∀ u v, v ∈ Target <$> arcs_of net u → fl v u = - fl u v) as H.
  { clear u v. intros u v (a & -> & Ha)%list_elem_of_fmap. destruct (fl_partner u a Ha) as (b & Hb & <- & Hf). by rewrite !fl_arc. }
  destruct (decide (v ∈ Target <$> arcs_of net u)) as [Hv|Hv]; [by apply H|].
  destruct (decide (u ∈ Target <$> arcs_of net v)) as [Hu|Hu]; [rewrite (H v u) by done; lia|]. by rewrite !fl_none.
Qed.

Lemma ends_arc u v c : (v, c) ∈ ends u B → ∃ a, a ∈ arcs_of net u ∧ Target a = v ∧ Capacity a = c.
Proof. rewrite <- (Hcaps u). intros (a & [= -> ->] & Ha)%list_elem_of_fmap. eauto. Qed.

Lemma fl_le u a : a ∈ arcs_of net u → Flow a ≤ Capacity a.
Proof.
  intros (i & Hi)%list_elem_of_lookup_1. change (arc net u i = Some a) in Hi. pose proof (fe_cap _ _ _ _ Hfe _ _ _ Hi) as Hf.
  unfold arc_flow in Hf. by rewrite Hi in Hf.
Qed.

(** Flow along an edge is within its capacity. *)
Lemma efl_bounds e : e ∈ B → 0 ≤ efl e ≤ e_cap e.
Proof.
  destruct e as [[u v] c]. unfold efl, e_from, e_to, e_cap. cbn. intros He.
  destruct (ends_arc u v c) as (a & Ha & <- & <-); [apply elem_of_ends; by left|].
  destruct (ends_arc (Target a) u 0) as (b & Hb & Hbu & Hb0); [apply elem_of_ends; right; eauto|].
  pose proof (fl_anti u (Target a)) as Hanti. rewrite (fl_arc u a Ha) in *. pose proof (fl_le _ _ Ha). pose proof (fl_le _ _ Hb).
  rewrite <- Hbu, (fl_arc _ b Hb) in Hanti. lia.
Qed.

Lemma zsum_ends u : zsum (λ p, fl u p.1) (ends u B) =
  zsum efl (filter (λ e, e_from e = u) B) - zsum efl (filter (λ e, e_to e = u) B).
Proof.
  unfold ends. generalize B. intros l. induction l as [|e l IH]; [done|]. rewrite fmap_cons. cbn [concat]. rewrite zsum_app, IH, !filter_cons.
  unfold end_at. rewrite zsum_app. assert (efl e = fl (e_from e) (e_to e)) as He by done.
  pose proof (fl_anti (e_from e) (e_to e)). destruct (decide (e_from e = u)) as [<-|], (decide (e_to e = _)) as [Ht|]; cbn [zsum fst app]; rewrite ?Ht in *; lia.
Qed.

(** What flows into a node flows out of it. *)
Lemma efl_conserved u : (u < length net)%nat → u ≠ s → u ≠ t →
  zsum efl (filter (λ e, e_from e = u) B) = zsum efl (filter (λ e, e_to e = u) B).
Proof.
  intros Hu Hs Ht. pose proof (fe_conserved _ _ _ _ Hfe u Hu Hs Ht) as Hc. rewrite out_arcs in Hc. pose proof (zsum_ends u) as He.
  rewrite <- (zsum_perm _ _ _ (Hcaps u)), zsum_fmap, (zsum_ext _ Flow) in He by (intros a Ha; cbn; by apply fl_arc). lia.
Qed.

Lemma NoDup_from u : NoDup (e_to <$> filter (λ e, e_from e = u) B).
Proof.
  apply (sublist_NoDup _ _ (Hnd u)). unfold ends. generalize B. intros l. induction l as [|e l IH]; [done|].
  rewrite filter_cons. cbn [fmap list_fmap concat]. rewrite fmap_app. case_decide as He.
  - rewrite fmap_cons. unfold end_at. rewrite decide_True by done. rewrite fmap_app, <- app_assoc. cbn. apply sublist_skip.
    by apply sublist_inserts_l.
  - by apply sublist_inserts_l.
Qed.

(** The arcs of a node with positive flow are edges from it. *)
Lemma positive_arcs u : Target <$> filter (λ a, 0 < Flow a) (arcs_of net u) ≡ₚ e_to <$> filter (λ e, e_from e = u ∧ 0 < efl e) B.
Proof.
  apply NoDup_Permutation.
  - apply (sublist_NoDup _ _ (NoDup_targets u)). apply fmap_sublist, sublist_filter.
  - apply (sublist_NoDup _ _ (NoDup_from u)). apply fmap_sublist.
    rewrite (list_filter_iff _ (λ e, 0 < efl e ∧ e_from e = u)) by (intros; tauto). rewrite <- list_filter_filter. apply sublist_filter.
  - intros v. rewrite !list_elem_of_fmap. split.
    + intros (a & -> & [Hf Ha]%list_elem_of_filter). assert (cap_of a ∈ ends u B) as He by (rewrite <- (Hcaps u); by apply list_elem_of_fmap_2).
      apply elem_of_ends in He as [He|(_ & c' & He)].
      * eexists. split; [|apply list_elem_of_filter; split; [|exact He]]; [done|]. split; [done|]. unfold efl, e_from, e_to. cbn. by rewrite fl_arc.
      * pose proof (efl_bounds _ He) as [Hb _]. unfold efl, e_from, e_to in Hb. cbn in Hb. rewrite fl_anti, fl_arc in Hb by done. lia.
    + intros ([[u' v'] c] & -> & [[Hu Hf] He]%list_elem_of_filter). unfold e_from, e_to in *. cbn in *. subst u'.
      destruct (ends_arc u v' c) as (a & Ha & Hv & _); [apply elem_of_ends; by left|]. exists a. split; [done|]. apply list_elem_of_filter.
      split; [|done]. unfold efl, e_from, e_to in Hf. cbn in Hf. by rewrite <- Hv, fl_arc in Hf.
Qed.
End flow_of.

(** ** The network of a state *)

(** The edges of the network, by what they join. *)
Inductive sedge :=
| OverflowSink
| SourceItem (i : nat)
| ItemZone (i z : nat)
| ZoneMember (i z m : nat)
| MemberSink (m : nat)
| MemberOverflow (m : nat).

#[global] Instance sedge_eq_dec : EqDecision sedge.
Proof. solve_decision. Defined.

Inductive vertex := VSource | VSink | VOverflow | VItem (i : nat) | VZone (i z : nat) | VMember (m : nat).

#[global] Instance vertex_eq_dec : EqDecision vertex.
Proof. solve_decision. Defined.

Definition s_from (e : sedge) : vertex :=
  match e with
  | OverflowSink => VOverflow | SourceItem _ => VSource | ItemZone i _ => VItem i | ZoneMember i z _ => VZone i z
  | MemberSink m | MemberOverflow m => VMember m
  end.
Definition s_to (e : sedge) : vertex :=
  match e with
  | OverflowSink | MemberSink _ => VSink | MemberOverflow _ => VOverflow | SourceItem i => VItem i | ItemZone i z => VZone i z
  | ZoneMember _ _ m => VMember m
  end.

Lemma s_ends_inj e e' : s_from e = s_from e' → s_to e = s_to e' → e = e'.
Proof. destruct e, e'; cbn; congruence. Qed.

Lemma s_ends_rev e e' : s_from e = s_to e' → s_to e = s_from e' → False.
Proof. destruct e, e'; cbn; congruence. Qed.

(** The item, zone and member that an edge belongs to. *)
Definition s_item (e : sedge) : option nat := match e with SourceItem i | ItemZone i _ | ZoneMember i _ _ => Some i | _ => None end.
Definition s_zone (e : sedge) : option nat := match e with ItemZone _ z | ZoneMember _ z _ => Some z | _ => None end.
Definition s_member (e : sedge) : option nat := match e with MemberSink m | MemberOverflow m => Some m | _ => None end.

Lemma NoDup_parts {A B P K} (f : P → list A) (g : A → B) (k : P → K) (key : B → option K) (l : list P) :
  NoDup (k <$> l) → (∀ p, p ∈ l → NoDup (g <$> f p) ∧ ∀ b, b ∈ g <$> f p → key b = Some (k p)) → NoDup (g <$> concat (f <$> l)).
Proof.
  induction l as [|p l IH]; intros Hnd Hf; [constructor|]. cbn [fmap list_fmap concat]. rewrite fmap_cons in Hnd. apply NoDup_cons in Hnd as [Hp Hnd].
  rewrite fmap_app. apply NoDup_app. split_and!; [apply Hf; by left| |apply IH; [done|intros; apply Hf; by right]].
  intros b Hb (a & -> & (l' & (q & -> & Hq)%list_elem_of_fmap & Ha)%elem_of_concat)%list_elem_of_fmap. apply Hp.
  apply Hf in Hb; [|by left]. destruct (Hf q) as [_ Hk]; [by right|]. specialize (Hk (g a) ltac:(by apply list_elem_of_fmap_2)).
  apply list_elem_of_fmap. exists q. split; [congruence|done].
Qed.

Lemma list_filter_ext_in {A} (P Q : A → Prop) `{∀ x, Decision (P x)} `{∀ x, Decision (Q x)} (l : list A) :
  (∀ x, x ∈ l → P x ↔ Q x) → filter P l = filter Q l.
Proof.
  intros HPQ. induction l as [|x l IH]; [done|]. rewrite !filter_cons, IH by (intros; apply HPQ; by right).
  pose proof (HPQ x ltac:(by left)). repeat case_decide; done || tauto.
Qed.

Lemma list_filter_fmap {A B} (f : A → B) (P : B → Prop) `{∀ x, Decision (P x)} (l : list A) : filter P (f <$> l) = f <$> filter (λ x, P (f x)) l.
Proof. induction l as [|x l IH]; [done|]. rewrite fmap_cons, !filter_cons, IH. by case_decide. Qed.

(** A list is its elements, grouped by a key. *)
Lemma groups_perm {A K} `{EqDecision K} (P : A → Prop) `{∀ x, Decision (P x)} (key : A → K) (ks : list K) (l : list A) :
  NoDup l → NoDup ks → (∀ x, x ∈ l → P x → key x ∈ ks) → concat ((λ k, filter (λ x, P x ∧ key x = k) l) <$> ks) ≡ₚ filter P l.
Proof.
  intros Hl Hks Hin. apply NoDup_Permutation.
  - rewrite <- (list_fmap_id (concat _)). apply (NoDup_parts _ id id (λ x, Some (key x))); [by rewrite list_fmap_id|]. intros k _. rewrite list_fmap_id.
    split; [by apply NoDup_filter|]. by intros b [[_ <-] _]%list_elem_of_filter.
  - by apply NoDup_filter.
  - intros x. rewrite elem_of_concat, list_elem_of_filter. split.
    + intros (l' & (k & -> & _)%list_elem_of_fmap & [[? _] ?]%list_elem_of_filter). done.
    + intros [HP Hx]. eexists. split; [apply list_elem_of_fmap; exists (key x); split; [reflexivity|by apply Hin]|]. by apply list_elem_of_filter.
Qed.

Lemma zsum_groups {A K} `{EqDecision K} (f : A → Z) (P : A → Prop) `{∀ x, Decision (P x)} (key : A → K) (ks : list K) (l : list A) :
  NoDup l → NoDup ks → (∀ x, x ∈ l → P x → key x ∈ ks) → zsum (λ k, zsum f (filter (λ x, P x ∧ key x = k) l)) ks = zsum f (filter P l).
Proof. intros Hl Hks Hin. rewrite <- (zsum_perm _ _ _ (groups_perm P key ks l Hl Hks Hin)). by rewrite zsum_concat. Qed.

(** Counting what is zero or one. *)
Lemma zsum_count {A} (f : A → Z) (P : A → Prop) `{∀ x, Decision (P x)} (l : list A) :
  (∀ x, x ∈ l → P x → 0 ≤ f x ≤ 1) → Z.of_nat (length (filter (λ x, P x ∧ 0 < f x) l)) = zsum f (filter P l).
Proof.
  induction l as [|x l IH]; intros Hf; [done|]. rewrite !filter_cons. specialize (IH ltac:(intros; apply Hf; [by right|done])).
  pose proof (Hf x ltac:(by left)). repeat case_decide; cbn [length zsum]; intuition lia.
Qed.

(** At most one element, and its value is bounded. *)
Lemma zsum_one {A} (f : A → Z) (c : Z) (l : list A) : NoDup l → (∀ x y, x ∈ l → y ∈ l → x = y) → 0 ≤ c → (∀ x, x ∈ l → f x ≤ c) → zsum f l ≤ c.
Proof.
  intros Hnd Heq Hc Hf. destruct l as [|x [|y l]]; [done|pose proof (Hf x ltac:(by left)); cbn; lia|].
  exfalso. assert (x = y) as <- by (apply Heq; [by left|by right; left]). apply NoDup_cons in Hnd as [[] _]. by left.
Qed.

(** ** The order of assignments *)

Section order.
Context {AV : Type}.

Lemma assignment_lt_irrefl (x : Assignment AV) : ¬ assignment_lt x x.
Proof. intros H. by apply (assignment_lt_tag x x). Qed.

Lemma compareAssignment_neg (x y : Assignment AV) : (compareAssignment x y <? 0) = true ↔ assignment_lt x y.
Proof.
  destruct (compare_cases x y) as [[-> ?]|[[-> Ht]|[-> Hlt]]]; cbn; [done|..]; (split; [done|]); intros H; exfalso.
  - by apply (assignment_lt_tag x y).
  - by apply (assignment_lt_irrefl x), (assignment_lt_trans x y x).
Qed.

Lemma assignment_lt_ext (a a' b b' : Assignment AV) : tag a = tag a' → tag b = tag b' → assignment_lt a b → assignment_lt a' b'.
Proof. unfold assignment_lt. by intros [= -> -> ->] [= -> -> ->]. Qed.

Lemma assignment_nlt_trans (x y z : Assignment AV) : ¬ assignment_lt x y → ¬ assignment_lt y z → ¬ assignment_lt x z.
Proof.
  intros H1 H2 H3. destruct (compare_cases x y) as [[_ ?]|[[_ Hxy]|[_ Hxy]]]; [done|..].
  - apply H2. by apply (assignment_lt_ext x y z z).
  - apply H2. by apply (assignment_lt_trans y x z).
Qed.
End order.

Section network_of.
Context {MV IV AV : Type} `{!MemberValue MV} `{!ItemValue MV IV AV}.
Abbreviation KV := (KeyValue (Entity MV IV AV)).
Context (s : State MV IV AV).
Abbreviation nI := (length (Items s)).
Abbreviation nZ := (length (Zones s)).
Abbreviation nM := (length (Members s)).

Definition zoneNode (i z : nat) : nat := zoneItemNode s (i * nZ + z).
Definition pos (v : vertex) : nat :=
  match v with
  | VSource => sourceNode | VSink => sinkNode | VOverflow => overflowNode | VItem i => itemNode i
  | VZone i z => zoneNode i z | VMember m => memberNode s m
  end.
Definition valid_vertex (v : vertex) : Prop :=
  match v with VItem i => (i < nI)%nat | VZone i z => (i < nI)%nat ∧ (z < nZ)%nat | VMember m => (m < nM)%nat | _ => True end.

Lemma zone_range i z : (i < nI)%nat → (z < nZ)%nat → (i * nZ + z < nI * nZ)%nat.
Proof. nia. Qed.

Lemma zone_inj i z i' z' : (z < nZ)%nat → (z' < nZ)%nat → (i * nZ + z = i' * nZ + z')%nat → i = i' ∧ z = z'.
Proof.
  intros Hz Hz' H. assert (i = i') as -> by (apply (Nat.div_mod_unique nZ i i' z z'); [done|done|lia]). split; [done|lia].
Qed.

Lemma pos_inj v v' : valid_vertex v → valid_vertex v' → pos v = pos v' → v = v'.
Proof.
  unfold pos, zoneNode, zoneItemNode, memberNode, itemNode, sourceNode, sinkNode, overflowNode.
  destruct v as [| | |i|i z|m], v' as [| | |i'|i' z'|m']; cbn; intros H1 H2 H; try done; try (f_equal; lia); try lia;
    try (destruct H1 as [H1 H1']; pose proof (zone_range _ _ H1 H1')); try (destruct H2 as [H2 H2']; pose proof (zone_range _ _ H2 H2')); try lia.
  destruct (zone_inj i z i' z') as [-> ->]; [done|done|lia|done].
Qed.

Lemma pos_lt v : valid_vertex v → (pos v < 3 + nI + nI * nZ + nM)%nat.
Proof.
  unfold pos, zoneNode, zoneItemNode, memberNode, itemNode, sourceNode, sinkNode, overflowNode. destruct v; cbn; try lia. intros [H1 H2].
  pose proof (zone_range _ _ H1 H2). lia.
Qed.

Definition p_from (e : sedge) : nat := pos (s_from e).
Definition p_to (e : sedge) : nat := pos (s_to e).
Definition place (e : sedge * Z) : edge := (p_from e.1, p_to e.1, e.2).
Abbreviation places := (fmap place).

Definition in_zone (m : nat) (zone : string) : Prop := ∃ x mb, Members s !! m = Some x ∧ Decoded x = EntityMember mb ∧ mb_Zone mb = zone.

(** ** What the code builds *)

Lemma Next_left LenL LenR Compare fuel j cur j' : Next LenL LenR Compare fuel j = Ret (Some (cur, j')) →
  Left cur = Left j ∧ Left j' = (Left j + 1)%nat ∧ (Left j < LenL)%nat.
Proof.
  revert j. induction fuel as [|fuel IH]; intros j; cbn [Next]; (destruct (Nat.ltb_spec (Left j) LenL); [|done]); rewrite outcome_bind_Ret; intros (c & _ & Hc);
    (destruct (c =? -1); [by injection Hc as <- <-|]); [done|].
  repeat case_match; try done; apply IH in Hc; cbn in Hc; intuition lia.
Qed.

Lemma rows_left LenL LenR Compare fuel j rows : rows_from LenL LenR Compare fuel j = Ret rows →
  NoDup (Left <$> rows) ∧ Forall (λ r, Left j ≤ Left r < LenL)%nat rows.
Proof.
  revert j rows. induction fuel as [|fuel IH]; intros j rows; cbn [rows_from]; [intros [= <-]; repeat constructor|].
  rewrite outcome_bind_Ret. intros (r & Hr & H). destruct r as [[row j']|]; [|injection H as <-; repeat constructor].
  apply outcome_bind_Ret in H as (l & Hl & [= <-]). destruct (Next_left _ _ _ _ _ _ _ Hr) as (H1 & H2 & H3). destruct (IH _ _ Hl) as [H4 H5].
  split; [|constructor; [lia|]].
  - rewrite fmap_cons. constructor; [|done]. intros (x & Hx & Hin)%list_elem_of_fmap. rewrite Forall_forall in H5. specialize (H5 x Hin). cbn in H5. lia.
  - eapply Forall_impl; [exact H5|]. cbn. lia.
Qed.

Lemma built_addArc net from to c pv net' : addArc net from to c pv = Ret net' → from ≠ to → built net [(from, to, c)] net' ∧ 0 ≤ c.
Proof. apply built_AddArc. Qed.

Lemma member_arcs_built i z za moff fuel : (i < nI)%nat → (z < nZ)%nat → ∀ net j net' moff' zone,
  member_arcs fuel s net zone (i * nZ + z) moff za j = Ret (net', moff') →
  ∃ ms, built net (places ((λ m, (ZoneMember i z m, 1)) <$> ms)) net' ∧ NoDup ms ∧ Forall (λ m, (Left j + moff ≤ m)%nat ∧ in_zone m zone) ms.
Proof.
  intros Hi Hz. induction fuel as [|fuel IH]; intros net j net' moff' zone; cbn [member_arcs].
  { intros [= <- <-]. exists []. split; [apply built_nil|]. split; constructor. }
  rewrite outcome_bind_Ret. intros (r & Hr & H). destruct r as [[mcur j']|]; [|injection H as <- <-; exists []; split; [apply built_nil|]; split; constructor].
  destruct (Next_left _ _ _ _ _ _ _ Hr) as (H1 & H2 & H3). apply outcome_bind_Ret in H as (m & Hm & H).
  case_match; [injection H as <- <-; exists []; split; [apply built_nil|]; split; constructor|]. case_match; [done|].
  apply outcome_bind_Ret in H as (net1 & Ha & H). destruct (IH _ _ _ _ _ H) as (ms & Hb & Hnd & Hms).
  apply built_addArc in Ha as [Ha _]; [|unfold zoneItemNode, memberNode; nia].
  exists ((Left mcur + moff)%nat :: ms). split; [exact (built_trans _ _ _ _ _ Ha Hb)|]. split.
  - constructor; [|done]. intros Hin. rewrite Forall_forall in Hms. destruct (Hms _ Hin) as [? _]. lia.
  - constructor; [|eapply Forall_impl; [exact Hms|]; cbn; intros ? [? ?]; split; [lia|done]]. split; [lia|].
    unfold memberAt in Hm. destruct (Members s !! (Left mcur + moff)%nat) as [x|] eqn:Hx; [|done]. destruct (Decoded x) as [mb| |] eqn:Hd; try done.
    injection Hm as ->. exists x, m. split_and!; [done..|]. unfold strings_Compare in *.
    destruct (String.eqb_spec zone (mb_Zone m)) as [-> |]; [done|]. by destruct (String.ltb zone (mb_Zone m)).
Qed.

(** The arcs of a zone of an item: to the zone, and from there to members. *)
Definition zone_part (i : nat) (cz : Z) (p : nat * list nat) : list (sedge * Z) :=
  (ItemZone i p.1, cz) :: ((λ m, (ZoneMember i p.1 m, 1)) <$> p.2).
Definition zone_ok (p : nat * list nat) : Prop :=
  NoDup p.2 ∧ ∃ zone, Zones s !! p.1 = Some zone ∧ Forall (λ m, in_zone m zone) p.2.

Lemma zones_built i ia cz rows : (i < nI)%nat → ∀ net moff net' moff',
  outcome_fold (zone_arcs s i ia cz) (net, moff) rows = Ret (net', moff') →
  ∃ ps, ps.*1 = Left <$> rows ∧ built net (places (concat (zone_part i cz <$> ps))) net' ∧ Forall zone_ok ps.
Proof.
  intros Hi. induction rows as [|r rows IH]; intros net moff net' moff'; cbn [outcome_fold].
  { intros [= <- <-]. exists []. split; [done|]. split; [apply built_nil|constructor]. }
  rewrite outcome_bind_Ret. intros ([net2 moff2] & Hz & H). destruct (IH _ _ _ _ H) as (ps & Hps & Hb & Hall). unfold zone_arcs in Hz.
  destruct (Zones s !! Left r) as [zone|] eqn:Hzone; [|done]. apply outcome_bind_Ret in Hz as (net1 & Ha & Hz).
  pose proof (lookup_lt_Some _ _ _ Hzone) as Hlt. apply built_addArc in Ha as [Ha _]; [|unfold itemNode, zoneItemNode; nia].
  apply member_arcs_built in Hz as (ms & Hm & Hnd & Hms); [|done|done]. exists ((Left r, ms) :: ps). split; [by rewrite fmap_cons, Hps|]. split.
  - rewrite fmap_cons. cbn [concat]. rewrite fmap_app. eapply built_trans; [|exact Hb]. exact (built_trans _ _ _ _ _ Ha Hm).
  - constructor; [|done]. split; [done|]. exists zone. split; [done|]. eapply Forall_impl; [exact Hms|]. by intros ? [_ ?].
Qed.

(** The arcs of an item: its capacity, the one of its zones, and their members. *)
Record ipart := mkPart { ip_item : nat; ip_cap : Z; ip_zcap : Z; ip_zones : list (nat * list nat) }.
Definition item_part (q : ipart) : list (sedge * Z) :=
  (SourceItem (ip_item q), ip_cap q) :: concat (zone_part (ip_item q) (ip_zcap q) <$> ip_zones q).
Record item_ok (eff : Z) (q : ipart) : Prop := {
  io_item : ∃ x it, Items s !! ip_item q = Some x ∧ Decoded x = EntityItem it ∧ ip_cap q ≤ Z.max 0 (DesiredReplication (it_Value it));
  io_cap : 0 ≤ ip_cap q;
  io_zcap : ip_zcap q = if (1 <? ip_cap q) && (1 <? eff) then ip_cap q - 1 else ip_cap q;
  io_zones : NoDup (ip_zones q).*1 ∧ Forall zone_ok (ip_zones q);
}.

Lemma buildItemArcs_built net i ia c eff net' : (i < nI)%nat → buildItemArcs s net i ia c eff = Ret net' →
  ∃ ps, built net (places (item_part (mkPart i c (if (1 <? c) && (1 <? eff) then c - 1 else c) ps))) net' ∧ 0 ≤ c ∧ NoDup ps.*1 ∧ Forall zone_ok ps.
Proof.
  intros Hi. unfold buildItemArcs. rewrite outcome_bind_Ret. intros (net1 & Ha & H). apply outcome_bind_Ret in H as (rows & Hr & H).
  apply outcome_bind_Ret in H as ([net2 moff] & Hz & [= ->]). apply built_addArc in Ha as [Ha Hc]; [|done].
  destruct (zones_built _ _ _ _ Hi _ _ _ _ Hz) as (ps & Hps & Hb & Hall). destruct (rows_left _ _ _ _ _ _ Hr) as [Hnd _].
  exists ps. split; [exact (built_trans _ _ _ _ _ Ha Hb)|]. rewrite Hps. done.
Qed.

Lemma items_built eff rows : Forall (λ r, Left r < nI)%nat rows → ∀ net slots net' slots',
  0 ≤ slots ≤ 1048576 → outcome_fold (item_arcs s eff) (net, slots) rows = Ret (net', slots') →
  ∃ qs, ip_item <$> qs = Left <$> rows ∧ built net (places (concat (item_part <$> qs))) net' ∧ Forall (item_ok eff) qs ∧ zsum ip_cap qs ≤ slots.
Proof.
  intros Hrows. induction Hrows as [|r rows Hr Hrows IH]; intros net slots net' slots' Hs; cbn [outcome_fold].
  { intros [= <- <-]. exists []. split; [done|]. split; [apply built_nil|]. split; [constructor|cbn; lia]. }
  rewrite outcome_bind_Ret. intros ([net2 slots2] & Hz & H). unfold item_arcs in Hz. apply outcome_bind_Ret in Hz as (it & Hit & Hz).
  apply outcome_bind_Ret in Hz as (net1 & Hb1 & [= -> <-]). match type of Hb1 with buildItemArcs _ _ _ _ ?k _ = _ => set (c := k) in * end.
  assert (0 ≤ c ≤ slots ∧ c ≤ Z.max 0 (DesiredReplication (it_Value it))) as [Hc Hcr] by (unfold c; repeat case_match; lia).
  rewrite int64_id in H by (unfold is_int64, MinInt64, MaxInt64; lia). apply IH in H as (qs & Hqs & Hb & Hall & Hsum); [|lia].
  apply buildItemArcs_built in Hb1 as (ps & Hb1 & _ & Hnd & Hps); [|done]. exists (mkPart (Left r) c (if (1 <? c) && (1 <? eff) then c - 1 else c) ps :: qs).
  split; [by rewrite fmap_cons, Hqs|]. split; [|split].
  - rewrite fmap_cons. cbn [concat]. rewrite fmap_app. exact (built_trans _ _ _ _ _ Hb1 Hb).
  - constructor; [|done]. split; cbn; [|lia|done|done]. unfold itemAt in Hit. destruct (Items s !! Left r) as [x|] eqn:Hx; [|done].
    destruct (Decoded x) as [|it'|] eqn:Hd; try done. injection Hit as ->. eauto.
  - cbn [zsum ip_cap]. lia.
Qed.

(** The arcs of a member: to the sink, and to the overflow node. *)
Record mpart := mkMPart { mp_member : nat; mp_cap : Z; mp_over : option Z }.
Definition member_part (w : mpart) : list (sedge * Z) :=
  (MemberSink (mp_member w), mp_cap w) :: match mp_over w with Some c => [(MemberOverflow (mp_member w), c)] | None => [] end.
Definition member_ok (w : mpart) : Prop :=
  ∃ x mb, Members s !! mp_member w = Some x ∧ Decoded x = EntityMember mb ∧ mp_cap w + default 0 (mp_over w) ≤ ItemLimit (mb_Value mb).

(** The factors give capacities within the limits of members. *)
Definition scales (nums denoms : list Z) : Prop :=
  ∀ k num denom limit, nums !! k = Some num → denoms !! k = Some denom → 0 ≤ limit ≤ 1048576 → ∃ c, scale_limit limit num denom = Ret c ∧ 0 ≤ c ≤ limit.

Definition limits_ok : Prop := Forall (λ x, 0 ≤ limit_of x ≤ 1048576) (Members s).

Lemma sinks_built nums denoms rows : scales nums denoms → limits_ok → ∀ net net',
  outcome_fold (sink_arcs s nums denoms) net rows = Ret net' →
  ∃ ws, mp_member <$> ws = Left <$> rows ∧ built net (places (concat (member_part <$> ws))) net' ∧ Forall member_ok ws.
Proof.
  intros Hsc Hlim. induction rows as [|r rows IH]; intros net net'; cbn [outcome_fold].
  { intros [= <-]. exists []. split; [done|]. split; [apply built_nil|constructor]. }
  rewrite outcome_bind_Ret. intros (net1 & Hz & H). destruct (IH _ _ H) as (ws & Hws & Hb & Hall). unfold sink_arcs in Hz.
  apply outcome_bind_Ret in Hz as (mb & Hmb & Hz). destruct (nums !! _) as [num|] eqn:Hnum; [|done]. destruct (denoms !! _) as [denom|] eqn:Hden; [|done].
  destruct (MemberTotalCount s !! Left r) as [count|]; [|done]. unfold memberAt in Hmb. destruct (Members s !! Left r) as [x|] eqn:Hx; [|done].
  destruct (Decoded x) as [mb'| |] eqn:Hd; try done. injection Hmb as ->.
  assert (0 ≤ ItemLimit (mb_Value mb) ≤ 1048576) as Hl.
  { pose proof (proj1 (Forall_forall _ _) Hlim x (list_elem_of_lookup_2 _ _ _ Hx)) as Hl. unfold limit_of in Hl. by rewrite Hd in Hl. }
  destruct (Hsc _ _ _ _ Hnum Hden Hl) as (c & Hc & Hcl). rewrite Hc in Hz. cbn [outcome_bind] in Hz. apply outcome_bind_Ret in Hz as (net2 & Ha & Hz).
  apply built_addArc in Ha as [Ha _]; [|by unfold memberNode, sinkNode; lia]. destruct (Z.ltb_spec c (ItemLimit (mb_Value mb))) as [Hlt|Hge].
  - rewrite int64_id in Hz by (unfold is_int64, MinInt64, MaxInt64; lia). apply built_addArc in Hz as [Hz _]; [|by unfold memberNode, overflowNode; lia].
    exists (mkMPart (Left r) c (Some (ItemLimit (mb_Value mb) - c)) :: ws). split; [by rewrite fmap_cons, Hws|]. split.
    + rewrite fmap_cons. cbn [concat]. rewrite fmap_app. eapply built_trans; [|exact Hb]. exact (built_trans _ _ _ _ _ Ha Hz).
    + constructor; [|done]. exists x, mb. cbn. split_and!; [done..|lia].
  - injection Hz as ->. exists (mkMPart (Left r) c None :: ws). split; [by rewrite fmap_cons, Hws|]. split.
    + rewrite fmap_cons. cbn [concat]. rewrite fmap_app. exact (built_trans _ _ _ _ _ Ha Hb).
    + constructor; [|done]. exists x, mb. cbn. split_and!; [done..|lia].
Qed.

(** The whole of it. *)
Definition network_edges (qs : list ipart) (ws : list mpart) : list (sedge * Z) :=
  (OverflowSink, MaxInt32) :: concat (item_part <$> qs) ++ concat (member_part <$> ws).
Definition effective_zones : Z := Z.of_nat (length (filter (λ zs, Z.of_nat nI < zs) (ZoneSlots s))).

Record edges_ok (qs : list ipart) (ws : list mpart) : Prop := {
  eo_items : NoDup (ip_item <$> qs) ∧ Forall (item_ok effective_zones) qs;
  eo_members : NoDup (mp_member <$> ws) ∧ Forall member_ok ws;
  eo_source : zsum ip_cap qs ≤ 1048576;
}.

Record slots_ok : Prop := {
  so_zones : Forall (λ zs, 0 ≤ zs) (ZoneSlots s);
  so_sum : sum_Z (ZoneSlots s) ≤ 1048576;
  so_items : 0 ≤ ItemSlots s;
  so_limits : limits_ok;
}.

Lemma effective_bounds : slots_ok → 0 ≤ foldl (λ n zs, int64 (n + zs)) 0 (ZoneSlots s) ≤ 1048576.
Proof.
  intros [Hz Hs _ _]. assert (∀ l n, Forall (λ zs, 0 ≤ zs) l → 0 ≤ n → n + sum_Z l ≤ 1048576 →
    0 ≤ foldl (λ n zs, int64 (n + zs)) n l ≤ 1048576) as H; [|apply H; [done|lia|lia]].
  clear. induction l as [|zs l IH]; intros n Hz Hn Hs; cbn [foldl]; [cbn in Hs; lia|]. apply Forall_cons in Hz as [Hz Hl].
  rewrite sum_Z_cons in Hs. pose proof (sum_Z_nonneg l Hl). rewrite int64_id by (unfold is_int64, MinInt64, MaxInt64; lia). apply IH; [done|lia|lia].
Qed.

Lemma sorted_caps l l' : bare <$> l' ≡ₚ bare <$> l → cap_of <$> l' ≡ₚ cap_of <$> l.
Proof.
  intros H%(fmap_Permutation cap_of). rewrite <- !list_fmap_compose in H. exact H.
Qed.

Lemma scales_ok : slots_ok → scales (zoneScalingFactors (Z.of_nat nI) (ItemSlots s) (ZoneSlots s)).1 (zoneScalingFactors (Z.of_nat nI) (ItemSlots s) (ZoneSlots s)).2.
Proof.
  intros [Hz Hs Hi _]. set (zones := (λ zs, [zs]) <$> ZoneSlots s).
  assert (sum_Z <$> zones = ZoneSlots s) as Hzs.
  { unfold zones. rewrite <- list_fmap_compose. rewrite <- (list_fmap_id (ZoneSlots s)) at 2. apply list_fmap_ext. intros _ x _. cbn. lia. }
  assert (Forall (Forall (λ l, 0 ≤ l)) zones) as H1 by (unfold zones; apply Forall_fmap; eapply Forall_impl; [exact Hz|]; by repeat constructor).
  assert (sum_Z (concat zones) ≤ 1048576) as H2.
  { assert (concat zones = ZoneSlots s) as ->; [|done]. unfold zones. clear. induction (ZoneSlots s) as [|x l IH]; [done|]. cbn. by rewrite IH. }
  pose proof (zoneScalingFactors_spec (Z.of_nat nI) (ItemSlots s) zones ltac:(lia) Hi H1 H2) as Hf. unfold zone_slots in Hf. rewrite Hzs in Hf. rewrite Hf.
  intros k num denom limit Hn Hd Hl. cbn in Hn, Hd. rewrite list_lookup_fmap in Hn, Hd. destruct (ZoneSlots s !! k) as [zs|] eqn:Hk; [|done].
  injection Hn as <-. injection Hd as <-.
  destruct (scale_limit_spec (Z.of_nat nI) (ItemSlots s) zones ltac:(lia) H1 H2 zs limit) as (c & Hc & Hcl & _); [|done|by exists c].
  unfold zone_slots. rewrite Hzs. by eapply list_elem_of_lookup_2.
Qed.

Lemma arcs_of_arcless net u : Forall (λ n, Arcs n = []) net → arcs_of net u = [].
Proof. intros H. unfold arcs_of. destruct (net !! u) as [n|] eqn:Hn; [|done]. by apply (Forall_lookup_1 _ _ _ _ H Hn). Qed.

Lemma init_nodes_arcless : Forall (λ n, Arcs n = [] ∧ excess n = 0 ∧ next n = 0%nat) (init_nodes s).
Proof. unfold init_nodes, InitNodes. rewrite !Forall_app. split_and!; [by repeat constructor|apply Forall_fmap, Forall_true; done..]. Qed.

Lemma length_init_nodes : length (init_nodes s) = (3 + nI + nI * nZ + nM)%nat.
Proof. unfold init_nodes, InitNodes. rewrite !length_app, !length_fmap, !length_seq. cbn. lia. Qed.

Lemma init_nodes_member m n : init_nodes s !! memberNode s m = Some n → ID n = uint32 (Z.of_nat m) ∧ (m < nM)%nat.
Proof.
  unfold init_nodes, memberNode, InitNodes. intros Hn. do 3 rewrite lookup_app_r in Hn by (rewrite ?length_fmap, ?length_seq; cbn [length]; lia).
  rewrite !length_fmap, !length_seq in Hn. cbn [length] in Hn. replace (_ - _ - _ - _)%nat with m in Hn by lia. rewrite list_lookup_fmap in Hn.
  destruct (seq 0 nM !! m) as [k|] eqn:Hk; [|done]. apply lookup_seq in Hk as [-> Hlt]. injection Hn as <-. done.
Qed.

(** The network that is built. *)
Record network_of (net : network) (qs : list ipart) (ws : list mpart) : Prop := {
  nf_edges : edges_ok qs ws;
  nf_arcs : ∀ u, cap_of <$> arcs_of net u ≡ₚ ends u (places (network_edges qs ws));
  nf_paired : paired net;
  nf_fresh : fresh net;
  nf_length : length net = (3 + nI + nI * nZ + nM)%nat;
  nf_member : ∀ m n, net !! memberNode s m = Some n → ID n = uint32 (Z.of_nat m) ∧ (m < nM)%nat;
  nf_height : ∀ u, ht net u = ht (init_nodes s) u;
}.

Lemma same_heights net net' : length net' = length net → (∀ u n', net' !! u = Some n' → ∃ n, net !! u = Some n ∧ Height n' = Height n) →
  ∀ u, ht net' u = ht net u.
Proof.
  intros Hl Hn u. unfold ht. destruct (net' !! u) as [n'|] eqn:Hu.
  - by destruct (Hn _ _ Hu) as (n & -> & ->).
  - apply lookup_ge_None in Hu. by rewrite lookup_ge_None_2 by lia.
Qed.

Lemma built_start B net : built (init_nodes s) B net → (∀ u, cap_of <$> arcs_of net u = ends u B) ∧ paired net ∧ fresh net ∧
  length net = (3 + nI + nI * nZ + nM)%nat ∧ (∀ m n, net !! memberNode s m = Some n → ID n = uint32 (Z.of_nat m) ∧ (m < nM)%nat) ∧
  ∀ u, ht net u = ht (init_nodes s) u.
Proof.
  intros [L A N P F]. pose proof init_nodes_arcless as H0. assert (∀ u, arcs_of (init_nodes s) u = []) as Hnil.
  { intros u. apply arcs_of_arcless. eapply Forall_impl; [exact H0|]. by intros ? [? _]. }
  split_and!.
  - intros u. by rewrite A, Hnil.
  - apply P. intros u i a. unfold arc. by rewrite Hnil.
  - apply F. intros u n Hn. destruct (Forall_lookup_1 _ _ _ _ H0 Hn) as (-> & ? & ?). done.
  - by rewrite L, length_init_nodes.
  - intros m n Hn. destruct (N _ _ Hn) as (n0 & Hn0 & -> & _). by apply init_nodes_member.
  - apply same_heights; [by rewrite L|]. intros u n' Hn. destruct (N _ _ Hn) as (n0 & ? & _ & ?). eauto.
Qed.

Lemma fn_init_built net : slots_ok → fn_init s = Ret net → ∃ qs ws, network_of net qs ws.
Proof.
  intros Hok. unfold fn_init. rewrite outcome_bind_Ret. intros (net0 & H0 & H). apply outcome_bind_Ret in H as (rows & Hr & H).
  apply outcome_bind_Ret in H as ([net1 slots] & H1 & H). destruct (zoneScalingFactors _ _ _) as [nums denoms] eqn:Hf.
  apply outcome_bind_Ret in H as (mrows & Hmr & H). apply outcome_bind_Ret in H as (net2 & H2 & H). apply Ret_inj in H.
  apply built_addArc in H0 as [H0 _]; [|done]. destruct (rows_left _ _ _ _ _ _ Hr) as [Hnd Hrows]. destruct (rows_left _ _ _ _ _ _ Hmr) as [Hmnd _].
  apply items_built in H1 as (qs & Hqs & H1 & Hall & Hsum).
  2:{ eapply Forall_impl; [exact Hrows|]. cbn. lia. }
  2:{ apply effective_bounds. exact Hok. }
  pose proof (scales_ok Hok) as Hsc. rewrite Hf in Hsc. cbn in Hsc.
  destruct (sinks_built _ _ _ Hsc (so_limits Hok) _ _ H2) as (ws & Hws & H2' & Hwall).
  exists qs, ws. assert (built (init_nodes s) (places (network_edges qs ws)) net2) as Hb.
  { unfold network_edges. rewrite fmap_cons, fmap_app. eapply (built_trans _ _ _ [_]); [exact H0|]. exact (built_trans _ _ _ _ _ H1 H2'). }
  destruct (built_start _ _ Hb) as (A & P & F & L & N & HH). destruct (SortNodeArcs_correct net2 (sourceNode :: (itemNode <$> seq 0 nI) ++ (zoneItemNode s <$> seq 0 (nI * nZ)) ++
         (memberNode s <$> seq 0 nM) ++ [overflowNode; sinkNode]) P) as (P' & RS & _). rewrite H in P', RS.
  split; [| |done|by eapply resorted_fresh|by rewrite (rs_length _ _ RS)| |].
  - split; [by rewrite Hqs|by rewrite Hws|]. pose proof (effective_bounds Hok). lia.
  - intros u. rewrite <- A. apply sorted_caps, (rs_arcs _ _ RS).
  - intros m n Hn. destruct (rs_node _ _ RS _ _ Hn) as (n0 & Hn0 & _ & _ & _ & ->). by apply N.
  - intros u. rewrite <- HH. apply same_heights; [exact (rs_length _ _ RS)|]. intros w n' Hn. destruct (rs_node _ _ RS _ _ Hn) as (n0 & ? & ? & _). eauto.
Qed.

(** ** Edges are different, and none is the reverse of another *)

Section edges.
Context (qs : list ipart) (ws : list mpart) (Hok : edges_ok qs ws).
Abbreviation NE := (network_edges qs ws).

Lemma elem_of_edges e c : (e, c) ∈ NE →
  match e with
  | OverflowSink => True
  | SourceItem i => ∃ q, q ∈ qs ∧ ip_item q = i ∧ c = ip_cap q
  | ItemZone i z => ∃ q ms, q ∈ qs ∧ (z, ms) ∈ ip_zones q ∧ ip_item q = i ∧ c = ip_zcap q
  | ZoneMember i z m => ∃ q ms, q ∈ qs ∧ (z, ms) ∈ ip_zones q ∧ ip_item q = i ∧ m ∈ ms ∧ c = 1
  | MemberSink m | MemberOverflow m => ∃ w, w ∈ ws ∧ mp_member w = m
  end.
Proof.
  unfold network_edges. rewrite elem_of_cons, elem_of_app, !elem_of_concat.
  intros [[= -> ->]|[(l & (q & -> & Hq)%list_elem_of_fmap & He)|(l & (w & -> & Hw)%list_elem_of_fmap & He)]]; [done|..].
  - unfold item_part in He. rewrite elem_of_cons, elem_of_concat in He. destruct He as [[= -> ->]|(l & ([z ms] & -> & Hp)%list_elem_of_fmap & He)]; [eauto|].
    unfold zone_part in He. rewrite elem_of_cons, list_elem_of_fmap in He. destruct He as [[= -> ->]|(m & [= -> ->] & Hm)].
    + by exists q, ms.
    + by exists q, ms.
  - unfold member_part in He. rewrite elem_of_cons in He. destruct He as [[= -> ->]|He]; [by exists w|].
    destruct (mp_over w); [|by apply elem_of_nil in He]. apply list_elem_of_singleton in He as [= -> ->]. by exists w.
Qed.

Lemma edge_valid e : e ∈ NE → valid_vertex (s_from e.1) ∧ valid_vertex (s_to e.1).
Proof.
  destruct e as [e c]. intros He%elem_of_edges. destruct Hok as [[_ Hi] [_ Hm] _]. rewrite Forall_forall in Hi. rewrite Forall_forall in Hm.
  assert (∀ q, q ∈ qs → (ip_item q < nI)%nat) as Hq.
  { intros q Hq. destruct (io_item _ _ (Hi q Hq)) as (x & _ & Hx & _). by apply lookup_lt_Some in Hx. }
  assert (∀ q z ms, q ∈ qs → (z, ms) ∈ ip_zones q → (z < nZ)%nat ∧ ∀ m, m ∈ ms → (m < nM)%nat) as Hz.
  { intros q z ms Hq' Hp. destruct (io_zones _ _ (Hi q Hq')) as [_ Ha]. rewrite Forall_forall in Ha. destruct (Ha _ Hp) as (_ & zone & Hzone & Hms).
    cbn in *. split; [by apply lookup_lt_Some in Hzone|]. rewrite Forall_forall in Hms. intros m Hm'. destruct (Hms m Hm') as (x & _ & Hx & _). by apply lookup_lt_Some in Hx. }
  destruct e as [|i|i z|i z m|m|m]; cbn; [done|..].
  - destruct He as (q & Hq' & <- & _). eauto.
  - destruct He as (q & ms & Hq' & Hp & <- & _). destruct (Hz _ _ _ Hq' Hp). eauto.
  - destruct He as (q & ms & Hq' & Hp & <- & Hm' & _). destruct (Hz _ _ _ Hq' Hp). eauto.
  - destruct He as (w & Hw & <-). destruct (Hm w Hw) as (x & _ & Hx & _). by apply lookup_lt_Some in Hx.
  - destruct He as (w & Hw & <-). destruct (Hm w Hw) as (x & _ & Hx & _). by apply lookup_lt_Some in Hx.
Qed.

Lemma NoDup_zone_part i c p : NoDup p.2 → NoDup (zone_part i c p).*1.
Proof.
  intros Hnd. unfold zone_part. rewrite fmap_cons, <- list_fmap_compose. constructor.
  - by intros (m & [=] & _)%list_elem_of_fmap.
  - apply NoDup_fmap_2; [|done]. intros x y. by intros [= ->].
Qed.

Lemma NoDup_item_part q : item_ok effective_zones q → NoDup (item_part q).*1 ∧ ∀ b, b ∈ (item_part q).*1 → s_item b = Some (ip_item q).
Proof.
  intros [_ _ _ [Hnd Hall]]. assert (∀ b, b ∈ (concat (zone_part (ip_item q) (ip_zcap q) <$> ip_zones q)).*1 → s_item b = Some (ip_item q) ∧ s_zone b ≠ None) as Hb.
  { intros b (a & -> & (l & (p & -> & _)%list_elem_of_fmap & Ha)%elem_of_concat)%list_elem_of_fmap. unfold zone_part in Ha.
    rewrite elem_of_cons, list_elem_of_fmap in Ha. by destruct Ha as [-> |(m & -> & _)]. }
  unfold item_part. rewrite fmap_cons. split.
  - constructor; [intros [_ Hz]%Hb; by cbn in Hz|]. apply (NoDup_parts _ fst fst s_zone); [done|]. intros p Hp. rewrite Forall_forall in Hall. split.
    + by apply NoDup_zone_part, Hall.
    + unfold zone_part. rewrite fmap_cons. intros b [-> |(x & -> & (m & -> & _)%list_elem_of_fmap)%list_elem_of_fmap]%elem_of_cons; done.
  - intros b [-> |Hin]%elem_of_cons; [done|]. by apply Hb.
Qed.

Lemma NoDup_member_part w : NoDup (member_part w).*1 ∧ ∀ b, b ∈ (member_part w).*1 → s_member b = Some (mp_member w).
Proof.
  unfold member_part. destruct (mp_over w); cbn; split.
  - constructor; [by intros ?%list_elem_of_singleton|]. apply NoDup_singleton.
  - intros b. rewrite !elem_of_cons, elem_of_nil. naive_solver.
  - apply NoDup_singleton.
  - intros b. rewrite elem_of_cons, elem_of_nil. naive_solver.
Qed.

Lemma NoDup_edges : NoDup NE.*1.
Proof.
  destruct Hok as [[Hi1 Hi2] [Hm1 Hm2] _]. unfold network_edges. rewrite fmap_cons, fmap_app. rewrite Forall_forall in Hi2.
  assert (∀ b, b ∈ (concat (item_part <$> qs)).*1 → is_Some (s_item b)) as H1.
  { intros b (a & -> & (l & (q & -> & Hq)%list_elem_of_fmap & Ha)%elem_of_concat)%list_elem_of_fmap. eexists. apply (NoDup_item_part q); [by apply Hi2|].
    by apply list_elem_of_fmap_2. }
  assert (∀ b, b ∈ (concat (member_part <$> ws)).*1 → is_Some (s_member b)) as H2.
  { intros b (a & -> & (l & (w & -> & Hw)%list_elem_of_fmap & Ha)%elem_of_concat)%list_elem_of_fmap. eexists. apply (NoDup_member_part w). by apply list_elem_of_fmap_2. }
  constructor; [|apply NoDup_app; split_and!].
  - rewrite elem_of_app. intros [[x Hx]%H1|[x Hx]%H2]; done.
  - apply (NoDup_parts _ fst ip_item s_item); [done|]. intros q Hq. by apply NoDup_item_part, Hi2.
  - intros b [x Hx]%H1 [y Hy]%H2. by destruct b.
  - apply (NoDup_parts _ fst mp_member s_member); [done|]. intros w _. apply NoDup_member_part.
Qed.

Lemma edges_ends u : NoDup (ends u (places NE)).*1.
Proof.
  apply NoDup_ends.
  - rewrite <- list_fmap_compose. assert (NoDup NE) as Hnd by (by eapply NoDup_fmap_1, NoDup_edges).
    apply NoDup_fmap_2_strong; [|done]. intros [e c] [e' c'] He He' [= H1 H2]. cbn in *.
    destruct (edge_valid _ He), (edge_valid _ He'). assert (e = e') as <- by (apply s_ends_inj; by apply pos_inj).
    destruct (list_elem_of_lookup_1 _ _ He) as [i Hi], (list_elem_of_lookup_1 _ _ He') as [j Hj]. pose proof NoDup_edges as Hnd1.
    assert (i = j) as <-; [|congruence]. eapply (NoDup_lookup _ _ _ _ Hnd1); rewrite list_lookup_fmap, ?Hi, ?Hj; done.
  - intros e e' (x & -> & Hx)%list_elem_of_fmap (y & -> & Hy)%list_elem_of_fmap [H1 H2]. unfold e_from, e_to, place in *. cbn in *.
    destruct (edge_valid _ Hx), (edge_valid _ Hy). apply (s_ends_rev x.1 y.1); by apply pos_inj.
Qed.
End edges.

Lemma zsum_end_caps u B : zsum snd (ends u B) = zsum e_cap (filter (λ e, e_from e = u) B).
Proof.
  unfold ends. induction B as [|e B IH]; [done|]. rewrite fmap_cons. cbn [concat]. rewrite zsum_app, IH, filter_cons. unfold end_at. rewrite zsum_app.
  repeat case_decide; cbn [zsum snd]; lia.
Qed.

Lemma source_caps net qs ws : network_of net qs ws → zsum Capacity (arcs_of net sourceNode) < MaxUint32.
Proof.
  intros HN. pose proof (nf_edges _ _ _ HN) as Hok. assert (zsum Capacity (arcs_of net sourceNode) = zsum snd (cap_of <$> arcs_of net sourceNode)) as ->
    by (rewrite zsum_fmap; by apply zsum_ext). rewrite (zsum_perm _ _ _ (nf_arcs _ _ _ HN sourceNode)), zsum_end_caps, list_filter_fmap, zsum_fmap.
  rewrite (list_filter_ext_in (λ e, e_from (place e) = sourceNode) (λ e, s_from e.1 = VSource)).
  2:{ intros e He. destruct (edge_valid qs ws Hok e He). split; [by apply (pos_inj _ VSource)|]. unfold e_from, place, p_from. cbn. by intros ->. }
  change (λ x, e_cap (place x)) with (@snd sedge Z). unfold network_edges. rewrite filter_cons, decide_False, filter_app, zsum_app by done.
  rewrite (list_filter_none _ (concat (member_part <$> ws))).
  2:{ intros [e c] (l & (w & -> & _)%list_elem_of_fmap & He)%elem_of_concat Hf.
      pose proof (proj2 (NoDup_member_part w) e ltac:(apply list_elem_of_fmap; by exists (e, c))) as Hm. by destruct e. }
  pose proof (eo_source _ _ Hok) as Hsum. cbn [zsum]. assert (zsum snd (filter (λ e : sedge * Z, s_from e.1 = VSource) (concat (item_part <$> qs))) = zsum ip_cap qs) as ->;
    [|unfold MaxUint32; lia]. clear. induction qs as [|q l IH]; [done|]. cbn [fmap list_fmap concat]. rewrite filter_app, zsum_app, IH. cbn [zsum]. f_equal.
  unfold item_part. rewrite filter_cons, decide_True by done. rewrite list_filter_none; [cbn; lia|].
  intros [e c] (l' & (p & -> & _)%list_elem_of_fmap & He)%elem_of_concat Hf. unfold zone_part in He. rewrite elem_of_cons, list_elem_of_fmap in He.
  by destruct He as [[= -> ->]|(m & [= -> ->] & _)].
Qed.

(** ** Flows of the network *)

Definition is_zm (e : sedge * Z) : Prop := match e.1 with ZoneMember _ _ _ => True | _ => False end.
#[global] Instance is_zm_dec e : Decision (is_zm e).
Proof. unfold is_zm. destruct e.1; apply _. Defined.
Definition z_item (e : sedge * Z) : nat := match e.1 with ZoneMember i _ _ | ItemZone i _ | SourceItem i => i | _ => 0 end.
Definition z_zone (e : sedge * Z) : nat := match e.1 with ZoneMember _ z _ | ItemZone _ z => z | _ => 0 end.
Definition z_member (e : sedge * Z) : nat := match e.1 with ZoneMember _ _ m | MemberSink m | MemberOverflow m => m | _ => 0 end.

Section solved.
Context (net net' : network) (qs : list ipart) (ws : list mpart) (HN : network_of net qs ws).
Context (Hsh : shape net' = shape net) (Hfe : feasible net' sourceNode sinkNode (arc_flow net')).
Abbreviation NE := (network_edges qs ws).

Definition sfl (e : sedge * Z) : Z := fl net' (p_from e.1) (p_to e.1).

Lemma solved_caps u : cap_of <$> arcs_of net' u ≡ₚ ends u (places NE).
Proof. rewrite (shape_caps net net' u Hsh). apply HN. Qed.

Lemma solved_paired : paired net'.
Proof. by eapply shape_paired, HN. Qed.

Lemma NoDup_NE : NoDup NE.
Proof. eapply NoDup_fmap_1, NoDup_edges, HN. Qed.

Lemma edge_unique e e' : e ∈ NE → e' ∈ NE → e.1 = e'.1 → e = e'.
Proof.
  intros [i Hi]%list_elem_of_lookup_1 [j Hj]%list_elem_of_lookup_1 Heq. assert (i = j) as <-; [|congruence].
  eapply (NoDup_lookup _ _ _ e.1 (NoDup_edges qs ws (nf_edges _ _ _ HN))); rewrite list_lookup_fmap, ?Hi, ?Hj; cbn; congruence.
Qed.

Lemma sfl_bounds e : e ∈ NE → 0 ≤ sfl e ≤ e.2.
Proof.
  intros He. apply (efl_bounds net' (places NE) sourceNode sinkNode solved_caps (edges_ends qs ws (nf_edges _ _ _ HN)) solved_paired Hfe (place e)).
  by apply list_elem_of_fmap_2.
Qed.

Lemma sfl_conserved v : valid_vertex v → v ≠ VSource → v ≠ VSink →
  zsum sfl (filter (λ e, s_from e.1 = v) NE) = zsum sfl (filter (λ e, s_to e.1 = v) NE).
Proof.
  intros Hv Hs Ht.
  pose proof (efl_conserved net' (places NE) sourceNode sinkNode solved_caps (edges_ends qs ws (nf_edges _ _ _ HN)) solved_paired Hfe (pos v)) as Hc.
  rewrite !list_filter_fmap, !zsum_fmap in Hc.
  rewrite (list_filter_ext_in (λ e, e_from (place e) = pos v) (λ e, s_from e.1 = v) NE),
    (list_filter_ext_in (λ e, e_to (place e) = pos v) (λ e, s_to e.1 = v) NE) in Hc.
  - apply Hc; [rewrite (length_shape _ _ Hsh), (nf_length _ _ _ HN); by apply pos_lt|..]; intros Heq; [apply Hs|apply Ht]; by apply pos_inj.
  - intros e He. destruct (edge_valid qs ws (nf_edges _ _ _ HN) e He). split; [by apply pos_inj|]. cbn. by intros <-.
  - intros e He. destruct (edge_valid qs ws (nf_edges _ _ _ HN) e He). split; [by apply pos_inj|]. cbn. by intros <-.
Qed.

Lemma part_unique q q' : q ∈ qs → q' ∈ qs → ip_item q = ip_item q' → q = q'.
Proof.
  intros [i Hi]%list_elem_of_lookup_1 [j Hj]%list_elem_of_lookup_1 Heq. assert (i = j) as <-; [|congruence].
  destruct (eo_items _ _ (nf_edges _ _ _ HN)) as [Hnd _]. eapply (NoDup_lookup _ _ _ (ip_item q) Hnd); rewrite list_lookup_fmap, ?Hi, ?Hj; cbn; congruence.
Qed.

Lemma part_ok q : q ∈ qs → item_ok effective_zones q ∧ (ip_item q < nI)%nat.
Proof.
  intros Hq. destruct (eo_items _ _ (nf_edges _ _ _ HN)) as [_ Hall]. pose proof (proj1 (Forall_forall _ _) Hall q Hq) as Hok. split; [done|].
  destruct (io_item _ _ Hok) as (x & _ & Hx & _). by apply lookup_lt_Some in Hx.
Qed.

Lemma zm_flow e : e ∈ NE → is_zm e → 0 ≤ sfl e ≤ 1.
Proof.
  intros He Hz. pose proof (sfl_bounds e He) as Hb. destruct e as [[] c]; cbn in Hz; try done. apply elem_of_edges in He as (q & ms & _ & _ & _ & _ & ->). done.
Qed.

(** What flows through a zone of an item. *)
Lemma zone_flow i z : (i < nI)%nat → (z < nZ)%nat →
  zsum sfl (filter (λ e, (is_zm e ∧ z_item e = i) ∧ z_zone e = z) NE) = zsum sfl (filter (λ e, s_from e.1 = VItem i ∧ z_zone e = z) NE).
Proof.
  intros Hi Hz. rewrite (list_filter_ext_in _ (λ e, s_from e.1 = VZone i z)), sfl_conserved by (done || intros [[] c] _; cbn; naive_solver).
  f_equal. apply list_filter_ext_in. intros [[] c] _; cbn; naive_solver.
Qed.

Lemma zone_range_of e : e ∈ NE → is_zm e ∨ (∃ i, s_from e.1 = VItem i) → z_zone e ∈ seq 0 nZ.
Proof.
  intros He Hz. destruct (edge_valid qs ws (nf_edges _ _ _ HN) e He) as [H1 H2]. apply elem_of_seq. destruct e as [[] c]; cbn in *; try lia; naive_solver.
Qed.

(** An item is assigned within its capacity. *)
Lemma item_count q : q ∈ qs → Z.of_nat (length (filter (λ e, (is_zm e ∧ z_item e = ip_item q) ∧ 0 < sfl e) NE)) ≤ ip_cap q.
Proof.
  intros Hq. destruct (part_ok q Hq) as [Hok Hi]. rewrite zsum_count by (intros e He [Hz _]; by apply zm_flow).
  rewrite <- (zsum_groups sfl _ z_zone (seq 0 nZ)); [|apply NoDup_NE|apply NoDup_seq|intros e He [Hz _]; apply zone_range_of; [done|by left]].
  rewrite (zsum_ext _ (λ z, zsum sfl (filter (λ e, s_from e.1 = VItem (ip_item q) ∧ z_zone e = z) NE))).
  2:{ intros z Hz%elem_of_seq. apply zone_flow; [done|lia]. }
  rewrite (zsum_groups sfl (λ e, s_from e.1 = VItem (ip_item q)) z_zone (seq 0 nZ));
    [|apply NoDup_NE|apply NoDup_seq|intros e He Hf; apply zone_range_of; [done|right; eauto]].
  rewrite sfl_conserved by done. apply zsum_one.
  - apply NoDup_filter, NoDup_NE.
  - intros [e c] [e' c'] [H1 He]%list_elem_of_filter [H2 He']%list_elem_of_filter. cbn in *. apply edge_unique; [done|done|].
    destruct e, e'; cbn in *; congruence.
  - apply Hok.
  - intros [e c] [H1 He]%list_elem_of_filter. pose proof (sfl_bounds _ He) as Hb. cbn in *. destruct e; cbn in H1; try done. injection H1 as ->.
    apply elem_of_edges in He as (q' & Hq' & Heq & ->). assert (q' = q) as -> by (by apply part_unique). lia.
Qed.

(** And within the capacity of each of its zones. *)
Lemma zone_count q z : q ∈ qs → (z < nZ)%nat →
  Z.of_nat (length (filter (λ e, ((is_zm e ∧ z_item e = ip_item q) ∧ z_zone e = z) ∧ 0 < sfl e) NE)) ≤ ip_zcap q.
Proof.
  intros Hq Hz. destruct (part_ok q Hq) as [Hok Hi]. rewrite zsum_count by (intros e He [[Hzm _] _]; by apply zm_flow). rewrite zone_flow by done. apply zsum_one.
  - apply NoDup_filter, NoDup_NE.
  - intros [e c] [e' c'] [[H1 H1'] He]%list_elem_of_filter [[H2 H2'] He']%list_elem_of_filter. cbn in *. apply edge_unique; [done|done|].
    destruct e, e'; cbn in *; congruence.
  - rewrite (io_zcap _ _ Hok). pose proof (io_cap _ _ Hok). destruct (_ && _) eqn:Hc; [|lia]. apply andb_true_iff in Hc as [Hc _]. lia.
  - intros [e c] [[H1 H1'] He]%list_elem_of_filter. pose proof (sfl_bounds _ He) as Hb. cbn in *. destruct e; cbn in H1; try done. injection H1 as ->.
    apply elem_of_edges in He as (q' & ms & Hq' & _ & Heq & ->). assert (q' = q) as -> by (by apply part_unique). lia.
Qed.

Lemma member_caps m limit : 0 ≤ limit → (∀ w, w ∈ ws → mp_member w = m → mp_cap w + default 0 (mp_over w) ≤ limit) →
  zsum snd (filter (λ e, s_from e.1 = VMember m) NE) ≤ limit.
Proof.
  intros Hl Hw. unfold network_edges. rewrite filter_cons, decide_False by done. rewrite filter_app, zsum_app.
  rewrite (list_filter_none _ (concat (item_part <$> qs))).
  2:{ intros [e c] He Hf. assert ((e, c) ∈ NE) as He' by (unfold network_edges; right; apply elem_of_app; by left).
      apply elem_of_concat in He as (l & (q & -> & Hq)%list_elem_of_fmap & He). destruct (part_ok q Hq) as [Hok _].
      pose proof (proj2 (NoDup_item_part q Hok) e ltac:(apply list_elem_of_fmap; by exists (e, c))) as Hi. by destruct e. }
  cbn [zsum]. destruct (eo_members _ _ (nf_edges _ _ _ HN)) as [Hnd _]. clear HN. induction ws as [|w l IH]; [cbn; lia|].
  cbn [fmap list_fmap concat]. rewrite filter_app, zsum_app. rewrite fmap_cons in Hnd. apply NoDup_cons in Hnd as [Hw' Hnd].
  assert (∀ b, b ∈ member_part w → s_from b.1 = VMember (mp_member w)) as Hb.
  { intros b Hb. pose proof (proj2 (NoDup_member_part w) b.1 ltac:(by apply list_elem_of_fmap_2)) as Hm. destruct b as [[] c]; cbn in *; congruence. }
  destruct (decide (mp_member w = m)) as [Heq|Hne].
  - rewrite (list_filter_all _ (member_part w)) by (intros b Hin; rewrite <- Heq; by apply Hb).
    rewrite (list_filter_none _ (concat (member_part <$> l))).
    2:{ intros [e c] (l' & (w' & -> & Hw2)%list_elem_of_fmap & He)%elem_of_concat Hf. apply Hw'.
        pose proof (proj2 (NoDup_member_part w') e ltac:(apply list_elem_of_fmap; by exists (e, c))) as Hm. apply list_elem_of_fmap. exists w'.
        split; [|done]. cbn in Hf. destruct e; cbn in *; congruence. }
    specialize (Hw w ltac:(by left) Heq). unfold member_part. destruct (mp_over w); cbn in *; lia.
  - rewrite (list_filter_none _ (member_part w)) by (intros b Hin Hf; apply Hb in Hin; congruence). cbn [zsum].
    apply IH; [|done]. intros w2 Hw2. apply Hw. by right.
Qed.

(** A member is assigned within its limit. *)
Lemma member_count m x : Members s !! m = Some x → 0 ≤ limit_of x →
  Z.of_nat (length (filter (λ e, (is_zm e ∧ z_member e = m) ∧ 0 < sfl e) NE)) ≤ limit_of x.
Proof.
  intros Hx Hl. rewrite zsum_count by (intros e He [Hz _]; by apply zm_flow).
  rewrite (list_filter_ext_in _ (λ e, s_to e.1 = VMember m)) by (intros [[] c] _; cbn; naive_solver).
  rewrite <- sfl_conserved; [|by eapply lookup_lt_Some|done|done].
  etrans; [apply (zsum_le _ snd); intros e [_ He]%list_elem_of_filter; by apply sfl_bounds|]. apply member_caps; [done|].
  intros w Hw <-. destruct (eo_members _ _ (nf_edges _ _ _ HN)) as [_ Hall]. destruct (proj1 (Forall_forall _ _) Hall w Hw) as (x' & mb & Hx' & Hd & Hc).
  assert (x' = x) as -> by congruence. unfold limit_of. by rewrite Hd.
Qed.

(** ** The assignments that are read off *)

Context (Hn : Z.of_nat nM ≤ 1048576).

(** The assignment of an item to the member at a position. *)
Definition asg (id : string) (m : nat) : Assignment AV :=
  match Members s !! m with
  | Some x => match Decoded x with EntityMember mb => mkAssignment id (mb_Zone mb) (mb_Suffix mb) 0 None | _ => mkAssignment id "" "" 0 None end
  | None => mkAssignment id "" "" 0 None
  end.
Definition positives (i z : nat) : list (sedge * Z) := filter (λ e, ((is_zm e ∧ 0 < sfl e) ∧ z_item e = i) ∧ z_zone e = z) NE.
Definition base_member : nat := memberNode s 0.

Lemma member_base m : (memberNode s m - base_member)%nat = m.
Proof. unfold base_member, memberNode. lia. Qed.

Lemma extract_fold id arcs : ∀ out out', (∀ a, a ∈ arcs → 0 < Flow a → ∃ m, Target a = memberNode s m) →
  outcome_fold (extract_arc s net' id) out arcs = Ret out' →
  out' = out ++ (asg id <$> ((λ a, (Target a - base_member)%nat) <$> filter (λ a, 0 < Flow a) arcs)).
Proof.
  induction arcs as [|a arcs IH]; intros out out' Hm; cbn [outcome_fold]; [intros [= <-]; by rewrite app_nil_r|].
  rewrite outcome_bind_Ret. intros (out1 & H1 & H). apply IH in H as ->; [|intros; apply Hm; [by right|done]]. unfold extract_arc in H1.
  rewrite filter_cons. destruct (Z.leb_spec (Flow a) 0); [rewrite decide_False by lia; by injection H1 as ->|rewrite decide_True by done].
  destruct (Hm a ltac:(by left) ltac:(done)) as [m Hta]. destruct (net' !! Target a) as [t|] eqn:Ht; [|done].
  destruct (shape_node net' net _ _ (eq_sym Hsh) Ht) as (t0 & Ht0 & Hid & _). rewrite Hta in Ht0. destruct (nf_member _ _ _ HN _ _ Ht0) as [Hid0 Hlt].
  rewrite <- Hid, Hid0, uint32_id, Nat2Z.id in H1 by (unfold is_uint32, MaxUint32; lia). apply outcome_bind_Ret in H1 as (mb & Hmb & [= <-]).
  rewrite !fmap_cons, Hta, member_base, <- app_assoc. cbn [app]. do 2 f_equal. unfold asg. unfold memberAt in Hmb.
  destruct (Members s !! m) as [x|]; [|done]. destruct (Decoded x); try done. by injection Hmb as ->.
Qed.

Lemma zone_targets i z : (i < nI)%nat → (z < nZ)%nat →
  Target <$> filter (λ a, 0 < Flow a) (arcs_of net' (zoneNode i z)) ≡ₚ memberNode s <$> (z_member <$> positives i z).
Proof.
  intros Hi Hz. rewrite (positive_arcs net' (places NE) sourceNode sinkNode solved_caps (edges_ends qs ws (nf_edges _ _ _ HN)) solved_paired Hfe).
  rewrite list_filter_fmap, <- !list_fmap_compose. unfold positives.
  rewrite (list_filter_ext_in _ (λ e, ((is_zm e ∧ 0 < sfl e) ∧ z_item e = i) ∧ z_zone e = z) NE).
  - match goal with |- ?a ≡ₚ ?b => enough (a = b) as -> by done end. apply list_fmap_ext. intros k e He%list_elem_of_lookup_2. apply list_elem_of_filter in He as [(((Hzm & _) & _) & _) _].
    destruct e as [[] c]; cbn in Hzm; done.
  - intros e He. destruct (edge_valid qs ws (nf_edges _ _ _ HN) e He) as [H1 _]. unfold efl, e_from, e_to, place. cbn. fold (sfl e). split.
    + intros [H2%(pos_inj _ (VZone i z)) ?]; [|done|done]. destruct e as [[] c]; cbn in *; try done. by injection H2 as -> ->.
    + intros (((Hzm & ?) & <-) & <-). split; [|done]. by destruct e as [[] c].
Qed.

Lemma extract_zone id i z n out out' : (i < nI)%nat → (z < nZ)%nat → net' !! zoneNode i z = Some n →
  outcome_fold (extract_arc s net' id) out (Arcs n) = Ret out' → ∃ l, out' = out ++ l ∧ l ≡ₚ asg id <$> (z_member <$> positives i z).
Proof.
  intros Hi Hz Hnode H. rewrite <- (arcs_lookup _ _ _ Hnode) in H. pose proof (zone_targets i z Hi Hz) as Ht. apply extract_fold in H as ->.
  - eexists. split; [reflexivity|]. apply fmap_Permutation.
    apply (fmap_Permutation (λ t, (t - base_member)%nat)) in Ht. rewrite <- !list_fmap_compose in Ht. rewrite Ht. match goal with |- ?a ≡ₚ ?b => enough (a = b) as -> by done end.
    apply list_fmap_ext. intros _ e _. apply member_base.
  - intros a Ha Hf. assert (Target a ∈ memberNode s <$> (z_member <$> positives i z)) as (m & Hm & _)%list_elem_of_fmap; [|by exists m].
    rewrite <- Ht. apply list_elem_of_fmap_2. by apply list_elem_of_filter.
Qed.

Lemma extract_zones id i zs : (i < nI)%nat → Forall (λ z, z < nZ)%nat zs → ∀ out out',
  outcome_fold (λ out z, match net' !! zoneItemNode s (i * nZ + z) with
                         | None => Panic "index out of range"
                         | Some n => outcome_fold (extract_arc s net' id) out (Arcs n)
                         end) out zs = Ret out' →
  ∃ l, out' = out ++ l ∧ l ≡ₚ asg id <$> (z_member <$> concat (positives i <$> zs)).
Proof.
  intros Hi Hzs. induction Hzs as [|z zs Hz Hzs IH]; intros out out'; cbn [outcome_fold].
  { intros [= <-]. exists []. by rewrite app_nil_r. }
  rewrite outcome_bind_Ret. intros (out1 & H1 & H). destruct (net' !! _) as [n|] eqn:Hnode; [|done].
  destruct (extract_zone id i z n out out1 Hi Hz Hnode H1) as (l1 & -> & Hl1). destruct (IH _ _ H) as (l2 & -> & Hl2).
  exists (l1 ++ l2). split; [by rewrite app_assoc|]. rewrite fmap_cons. cbn [concat]. by rewrite !fmap_app, Hl1, Hl2.
Qed.

Definition in_order (x y : Assignment AV) : Prop := (compareAssignment y x <? 0) = false.
Definition id_at (i : nat) : string := match Items s !! i with Some x => id_of x | None => "" end.
Definition assigned (i : nat) : list (sedge * Z) := filter (λ e, (is_zm e ∧ 0 < sfl e) ∧ z_item e = i) NE.

Lemma positives_concat i : concat (positives i <$> seq 0 nZ) ≡ₚ assigned i.
Proof.
  apply (groups_perm (λ e, (is_zm e ∧ 0 < sfl e) ∧ z_item e = i) z_zone); [apply NoDup_NE|apply NoDup_seq|].
  intros e He [[Hz _] _]. apply zone_range_of; [done|by left].
Qed.

Lemma extractItemFlow_spec {Sort : SliceSort} i out : (i < nI)%nat → extractItemFlow s net' i = Ret out →
  out ≡ₚ asg (id_at i) <$> (z_member <$> assigned i) ∧ StronglySorted in_order out.
Proof.
  intros Hi. unfold extractItemFlow. rewrite outcome_bind_Ret. intros (it & Hit & H). apply outcome_bind_Ret in H as (out0 & H0 & H).
  apply extract_zones in H0 as (l & -> & Hl); [|done|apply Forall_forall; intros z Hz%elem_of_seq; lia]. cbn [app] in H. split.
  - destruct (sort_perm (λ x y : Assignment AV, Ret (compareAssignment x y <? 0)) l) as (l' & Hs & Hp); [by eauto|]. assert (l' = out) as -> by congruence.
    rewrite Hp, Hl, positives_concat. unfold id_at, itemAt in *. destruct (Items s !! i) as [x|]; [|done]. unfold id_of. destruct (Decoded x); try done.
    by injection Hit as ->.
  - refine (sort_sorted _ (λ x y, compareAssignment x y <? 0) _ _ _ l out _ H); [| | |done].
    + intros x. apply not_true_iff_false. rewrite compareAssignment_neg. apply assignment_lt_irrefl.
    + intros x y z. rewrite !compareAssignment_neg. apply assignment_lt_trans.
    + intros x y z. rewrite <- !not_true_iff_false, !compareAssignment_neg. apply assignment_nlt_trans.
Qed.

Definition item_outs (i : nat) (out : list (Assignment AV)) : Prop := out ≡ₚ asg (id_at i) <$> (z_member <$> assigned i) ∧ StronglySorted in_order out.

Lemma extract_items {Sort : SliceSort} ixs : Forall (λ i, i < nI)%nat ixs → ∀ acc l,
  outcome_fold (λ desired item, let! out := extractItemFlow s net' item in Ret (desired ++ out)) acc ixs = Ret l →
  ∃ outs, l = acc ++ concat outs ∧ Forall2 item_outs ixs outs.
Proof.
  intros Hixs. induction Hixs as [|i ixs Hi Hixs IH]; intros acc l; cbn [outcome_fold]; [intros [= <-]; exists []; by rewrite app_nil_r|].
  rewrite outcome_bind_Ret. intros (acc1 & H1 & H). apply outcome_bind_Ret in H1 as (out & Hout & [= <-]). destruct (IH _ _ H) as (outs & -> & Hall).
  exists (out :: outs). split; [cbn; by rewrite app_assoc|]. constructor; [|done]. by apply extractItemFlow_spec.
Qed.

(** All of them are the edges between zones and members that flow takes. *)
Definition desired_edges : list (sedge * Z) := filter (λ e, is_zm e ∧ 0 < sfl e) NE.
Definition asg_of (e : sedge * Z) : Assignment AV := asg (id_at (z_item e)) (z_member e).

Lemma item_range_of e : e ∈ NE → is_zm e → z_item e ∈ seq 0 nI.
Proof.
  intros He Hz. destruct (edge_valid qs ws (nf_edges _ _ _ HN) e He) as [H1 _]. apply elem_of_seq. destruct e as [[] c]; cbn in *; try done. lia.
Qed.

Lemma outs_perm outs : Forall2 item_outs (seq 0 nI) outs → concat outs ≡ₚ asg_of <$> desired_edges.
Proof.
  intros Hall. unfold desired_edges.
  assert (concat outs ≡ₚ asg_of <$> concat (assigned <$> seq 0 nI)) as ->.
  - induction Hall as [|i out ixs outs [Hp _] Hall IH]; [done|]. cbn [concat fmap list_fmap]. rewrite fmap_app, IH. apply Permutation_app_tail.
    rewrite Hp, <- list_fmap_compose. match goal with |- ?a ≡ₚ ?b => enough (a = b) as -> by done end. apply list_fmap_ext.
    intros k e He%list_elem_of_lookup_2. apply list_elem_of_filter in He as [[_ <-] _]. done.
  - apply fmap_Permutation. apply (groups_perm (λ e, is_zm e ∧ 0 < sfl e) z_item (seq 0 nI)); [apply NoDup_NE|apply NoDup_seq|].
    intros e He [Hz _]. by apply item_range_of.
Qed.
End solved.
End network_of.

(** ** Desired assignments are valid *)

Section valid.
Context {MV IV AV : Type} `{!MemberValue MV} `{!ItemValue MV IV AV} {Sort : SliceSort}.
Abbreviation KV := (KeyValue (Entity MV IV AV)).
Abbreviation kv_Key x := (k_Key (Raw x)).
Abbreviation Root s := (ks_Root (KS s)).

(** A state as it is observed, of a size at which capacities do not overflow. *)
Record state_ok (s : State MV IV AV) : Prop := {
  st_slots : slots_ok s;
  st_size : Z.of_nat (length (Members s)) ≤ 1048576;
  st_items : items_ok (Root s) (Items s);
  st_members : members_ok (Root s) (Members s);
  st_zones : NoDup (Zones s);
  st_replication : Forall (λ x, 0 ≤ replication_of x) (Items s);
}.

Section of_state.
Context (s : State MV IV AV) (Hs : state_ok s).

Lemma id_at_inj i j x y : Items s !! i = Some x → Items s !! j = Some y → id_of x = id_of y → i = j.
Proof.
  intros Hi Hj Heq. pose proof (items_sorted _ _ (st_items _ Hs)) as Hsort. apply ssorted_NoDup in Hsort; [|apply _].
  eapply (NoDup_lookup _ _ _ (id_of x) Hsort); rewrite list_lookup_fmap, ?Hi, ?Hj; cbn; congruence.
Qed.

Lemma member_at_inj i j x y : Members s !! i = Some x → Members s !! j = Some y → kv_Key x = kv_Key y → i = j.
Proof.
  intros Hi Hj Heq. destruct (st_members _ Hs) as [[Hsort _] _]. unfold kv_sorted in Hsort. apply (ssorted_map str_lt (λ x, kv_Key x)) in Hsort.
  apply ssorted_NoDup in Hsort; [|apply _].
  eapply (NoDup_lookup _ _ _ (kv_Key x) Hsort); rewrite list_lookup_fmap, ?Hi, ?Hj; cbn; congruence.
Qed.

Section of_flow.
Context (net net' : network) (qs : list ipart) (ws : list mpart) (HN : network_of s net qs ws).
Context (Hsh : shape net' = shape net) (Hfe : feasible net' sourceNode sinkNode (arc_flow net')).
Abbreviation NE := (network_edges qs ws).
Abbreviation DE := (desired_edges s net' qs ws).
Abbreviation asgE := (asg_of s).
Abbreviation sfl := (sfl s net').

(** The member, zone and item of an assignment. *)
Lemma asg_member e : e ∈ NE → is_zm e → ∃ y z, Members s !! z_member e = Some y ∧ Zones s !! z_zone e = Some z ∧
  mkey (Root s) (asgE e) = kv_Key y ∧ as_MemberZone (asgE e) = z ∧ above_sep (as_MemberZone (asgE e)) = true ∧ above_sep (as_MemberSuffix (asgE e)) = true.
Proof.
  destruct e as [[] c]; cbn; try done. intros (q & ms & Hq & Hp & _ & Hm & _)%elem_of_edges _. destruct (part_ok s net qs ws HN q Hq) as [Hok _].
  destruct (io_zones _ _ _ Hok) as [_ Hall]. destruct (proj1 (Forall_forall _ _) Hall _ Hp) as (_ & zone & Hz & Hms).
  destruct (proj1 (Forall_forall _ _) Hms m Hm) as (y & mb & Hy & Hd & Hzone). cbn in Hz. exists y, zone. unfold asg_of, asg, z_member, z_item. cbn.
  rewrite Hy, Hd. cbn. destruct (st_members _ Hs) as [[_ Hk] _]. pose proof (proj1 (Forall_forall _ _) Hk y (list_elem_of_lookup_2 _ _ _ Hy)) as Hky.
  cbn in Hky. rewrite Hd in Hky. cbn in Hky. apply MemberKey_Ret in Hky as (? & ? & ->). split_and!; done.
Qed.

Lemma asg_item e : e ∈ NE → is_zm e → ∃ x, Items s !! z_item e = Some x ∧ as_ItemID (asgE e) = id_of x.
Proof.
  intros He Hz. pose proof (item_range_of s net qs ws HN e He Hz) as Hi%elem_of_seq. destruct (lookup_lt_is_Some_2 (Items s) (z_item e)) as [x Hx]; [lia|].
  exists x. split; [done|]. unfold asg_of, asg, id_at. rewrite Hx. by repeat case_match.
Qed.

Lemma elem_of_DE e : e ∈ DE → e ∈ NE ∧ is_zm e.
Proof. by intros [[? _] ?]%list_elem_of_filter. Qed.

Lemma tag_inj e e' : e ∈ DE → e' ∈ DE → tag (asgE e) = tag (asgE e') → e = e'.
Proof.
  intros [He Hz]%elem_of_DE [He' Hz']%elem_of_DE [= H1 H2 H3]. destruct (asg_member e He Hz) as (y & z & Hy & Hzo & Hk & Hzn & _).
  destruct (asg_member e' He' Hz') as (y' & z' & Hy' & Hzo' & Hk' & Hzn' & _). destruct (asg_item e He Hz) as (x & Hx & Hid), (asg_item e' He' Hz') as (x' & Hx' & Hid').
  apply (edge_unique s net qs ws HN); [done|done|].
  assert (z_item e = z_item e') by (eapply id_at_inj; [done|done|congruence]).
  assert (z_member e = z_member e') by (eapply member_at_inj; [done|done|]; rewrite <- Hk, <- Hk'; unfold mkey; congruence).
  assert (z_zone e = z_zone e') by (eapply (NoDup_lookup _ _ _ _ (st_zones _ Hs)); [done|congruence]).
  destruct e as [[] c]; try done. destruct e' as [[] c']; try done. unfold z_item, z_member, z_zone in *. cbn in *. congruence.
Qed.

(** Counting assignments is counting edges. *)
Lemma count_asg l (P : Assignment AV → Prop) (Q : sedge * Z → Prop) `{∀ a, Decision (P a)} `{∀ e, Decision (Q e)} :
  l ≡ₚ asgE <$> DE → (∀ e, e ∈ NE → is_zm e → P (asgE e) ↔ Q e) →
  length (filter P l) = length (filter (λ e, (is_zm e ∧ Q e) ∧ 0 < sfl e) NE).
Proof.
  intros Hl HPQ. rewrite Hl, list_filter_fmap, length_fmap. unfold desired_edges. rewrite list_filter_filter. f_equal. apply list_filter_ext_in.
  intros e He. specialize (HPQ e He). tauto.
Qed.

Lemma item_within l x : l ≡ₚ asgE <$> DE → x ∈ Items s → Z.of_nat (length (filter (λ a, as_ItemID a = id_of x) l)) ≤ replication_of x.
Proof.
  intros Hl [i Hi]%list_elem_of_lookup. pose proof (proj1 (Forall_forall _ _) (st_replication _ Hs) x (list_elem_of_lookup_2 _ _ _ Hi)) as Hr. cbn in Hr.
  rewrite (count_asg l _ (λ e, z_item e = i) Hl).
  2:{ intros e He Hz. destruct (asg_item e He Hz) as (x' & Hx' & ->). split; [by apply id_at_inj|intros <-; congruence]. }
  destruct (decide (i ∈ ip_item <$> qs)) as [(q & -> & Hq)%list_elem_of_fmap|Hno].
  - etrans; [by apply (item_count s net net' qs ws HN Hsh Hfe)|]. destruct (part_ok s net qs ws HN q Hq) as [Hok _].
    destruct (io_item _ _ _ Hok) as (x' & it & Hx' & Hd & Hc). assert (x' = x) as -> by congruence. unfold replication_of in *. rewrite Hd in *. lia.
  - rewrite list_filter_none; [done|]. intros e He [[Hz Hei] _]. apply Hno. destruct e as [[] c]; cbn in Hz; try done.
    apply elem_of_edges in He as (q & ms & Hq & _ & Hqi & _). cbn in Hei. apply list_elem_of_fmap. exists q. split; [congruence|done].
Qed.

(** Not all replicas in one zone, where there are others. *)
Definition zone_bound (x : KV) : Z :=
  if (1 <? replication_of x) && (1 <? effective_zones s) then replication_of x - 1 else replication_of x.

Lemma zone_within l x zone : l ≡ₚ asgE <$> DE → x ∈ Items s →
  Z.of_nat (length (filter (λ a, as_ItemID a = id_of x ∧ as_MemberZone a = zone) l)) ≤ zone_bound x.
Proof.
  intros Hl [i Hi]%list_elem_of_lookup. pose proof (proj1 (Forall_forall _ _) (st_replication _ Hs) x (list_elem_of_lookup_2 _ _ _ Hi)) as Hr. cbn in Hr.
  assert (0 ≤ zone_bound x) as Hb0 by (unfold zone_bound; destruct (_ && _) eqn:E; [apply andb_true_iff in E as [? _]|]; lia).
  destruct (decide (zone ∈ Zones s)) as [[z Hz]%list_elem_of_lookup|Hzn].
  2:{ rewrite list_filter_none; [cbn; lia|]. intros a Ha [_ Haz]. rewrite Hl in Ha. apply list_elem_of_fmap in Ha as (e & -> & [He Hzm]%elem_of_DE).
      destruct (asg_member e He Hzm) as (y & z & _ & Hz & _ & Hzz & _). apply Hzn. rewrite <- Haz, Hzz. by eapply list_elem_of_lookup_2. }
  rewrite (count_asg l _ (λ e, z_item e = i ∧ z_zone e = z) Hl).
  2:{ intros e He Hzm. destruct (asg_item e He Hzm) as (x' & Hx' & ->). destruct (asg_member e He Hzm) as (y & z' & _ & Hz' & _ & -> & _). split.
      - intros [? ->]. split; [by eapply id_at_inj|]. by eapply (NoDup_lookup _ _ _ _ (st_zones _ Hs)).
      - intros [<- <-]. split; congruence. }
  rewrite (list_filter_iff _ (λ e, ((is_zm e ∧ z_item e = i) ∧ z_zone e = z) ∧ 0 < sfl e)) by (intros; tauto).
  destruct (decide (i ∈ ip_item <$> qs)) as [(q & -> & Hq)%list_elem_of_fmap|Hno].
  - etrans; [apply (zone_count s net net' qs ws HN Hsh Hfe); [done|by eapply lookup_lt_Some]|]. destruct (part_ok s net qs ws HN q Hq) as [Hok _].
    destruct (io_item _ _ _ Hok) as (x' & it & Hx' & Hd & Hc). assert (x' = x) as -> by congruence. rewrite (io_zcap _ _ _ Hok). unfold zone_bound, replication_of in *.
    rewrite Hd in *. pose proof (io_cap _ _ _ Hok). destruct (Z.ltb_spec 1 (effective_zones s)); rewrite ?andb_false_r, ?andb_true_r; repeat case_match; lia.
  - rewrite list_filter_none; [cbn; lia|]. intros e He [[[Hzm Hei] _] _]. apply Hno. destruct e as [[] c]; cbn in Hzm; try done.
    apply elem_of_edges in He as (q & ms & Hq & _ & Hqi & _). cbn in Hei. apply list_elem_of_fmap. exists q. split; [congruence|done].
Qed.

Lemma member_within l x : l ≡ₚ asgE <$> DE → x ∈ Members s → Z.of_nat (length (filter (λ a, mkey (Root s) a = kv_Key x) l)) ≤ limit_of x.
Proof.
  intros Hl [m Hm]%list_elem_of_lookup. rewrite (count_asg l _ (λ e, z_member e = m) Hl).
  - apply (member_count s net net' qs ws HN Hsh Hfe); [done|]. destruct (st_slots _ Hs) as [_ _ _ Hlim].
    by apply (proj1 (Forall_forall _ _) Hlim x), (list_elem_of_lookup_2 _ m).
  - intros e He Hz. destruct (asg_member e He Hz) as (y & z & Hy & _ & -> & _). split; [by apply member_at_inj|intros <-; congruence].
Qed.

Lemma outs_sorted k n outs : (k + n ≤ length (Items s))%nat → Forall2 (item_outs s net' qs ws) (seq k n) outs → StronglySorted in_order (concat outs).
Proof.
  revert k outs. induction n as [|n IH]; intros k outs Hk Hall; cbn [seq] in Hall; [apply Forall2_nil_inv_l in Hall as ->; constructor|].
  apply Forall2_cons_inv_l in Hall as (out & outs' & [Hp Hsort] & Hall & ->). cbn [concat]. apply ssorted_app. split_and!; [done|by apply (IH (S k)); [lia|]|].
  intros a b Ha (out' & [j Hj]%list_elem_of_lookup & Hb)%elem_of_concat. destruct (Forall2_lookup_r _ _ _ _ _ Hall Hj) as (i & Hi & [Hp' _]).
  apply lookup_seq in Hi as [-> Hj']. rewrite Hp in Ha. rewrite Hp' in Hb. apply list_elem_of_fmap in Ha as (m & -> & _), Hb as (m' & -> & _).
  unfold in_order. apply not_true_iff_false. rewrite compareAssignment_neg. intros Hlt.
  destruct (lookup_lt_is_Some_2 (Items s) k) as [x Hx]; [lia|]. destruct (lookup_lt_is_Some_2 (Items s) (S k + j)) as [y Hy]; [lia|].
  assert (str_lt (id_of x) (id_of y)) as Hxy.
  { pose proof (items_sorted _ _ (st_items _ Hs)) as Hsi. apply (ssorted_lookup _ _ k (S k + j) _ _ Hsi); [lia|by rewrite list_lookup_fmap, Hx|by rewrite list_lookup_fmap, Hy]. }
  assert (∀ i x m, Items s !! i = Some x → as_ItemID (asg s (id_at s i) m) = id_of x) as Hid.
  { intros i x0 m0 Hx0. unfold asg, id_at. rewrite Hx0. by repeat case_match. }
  unfold assignment_lt in Hlt. rewrite (Hid _ _ m Hx), (Hid _ _ m' Hy) in Hlt. destruct Hlt as [Hlt|[Heq _]].
  - by apply (str_lt_asym (id_of x) (id_of y)).
  - rewrite Heq in Hxy. by apply (irreflexivity str_lt) in Hxy.
Qed.

Lemma order_strict (l : list (Assignment AV)) : NoDup (tag <$> l) → StronglySorted in_order l → StronglySorted assignment_lt l.
Proof.
  induction l as [|a l IH]; [constructor|]. rewrite fmap_cons. intros [Ha Hnd]%NoDup_cons [Hsort Hall]%StronglySorted_inv. constructor; [by apply IH|].
  rewrite Forall_forall in *. intros b Hb. specialize (Hall b Hb). unfold in_order in Hall. rewrite <- not_true_iff_false, compareAssignment_neg in Hall.
  destruct (compare_cases a b) as [[_ ?]|[[_ Ht]|[_ ?]]]; [done| |done]. exfalso. apply Ha. rewrite Ht. by apply list_elem_of_fmap_2.
Qed.

Lemma valid_of l : l ≡ₚ asgE <$> DE → NoDup (tag <$> l) ∧ Forall (add_ok s) l ∧ (∀ a, a ∈ l → as_ItemID a ∈ id_of <$> Items s).
Proof.
  intros Hl. split_and!.
  - rewrite Hl, <- list_fmap_compose. apply NoDup_fmap_2_strong; [apply tag_inj|]. apply NoDup_filter. by eapply NoDup_NE.
  - rewrite Hl. apply Forall_fmap, Forall_forall. intros e [He Hz]%elem_of_DE. cbn. destruct (asg_member e He Hz) as (y & z & Hy & _ & Hk & _ & H1 & H2).
    destruct (asg_item e He Hz) as (x & Hx & Hid). split; [split_and!; [|done|done]|exists y; split; [by eapply list_elem_of_lookup_2|done]].
    rewrite Hid. destruct (st_items _ Hs) as [[_ Hkx] Hix]. apply list_elem_of_lookup_2 in Hx.
    pose proof (proj1 (Forall_forall _ _) Hkx x Hx) as Hkx'. pose proof (proj1 (Forall_forall _ _) Hix x Hx) as Hix'. cbn in Hkx', Hix'.
    unfold is_item, id_of in *. destruct (Decoded x) as [|it|]; try done. cbn in Hkx'. unfold ItemKey, assertAboveSep in Hkx'. by destruct (above_sep (it_ID it)).
  - intros a Ha. rewrite Hl in Ha. apply list_elem_of_fmap in Ha as (e & -> & [He Hz]%elem_of_DE). destruct (asg_item e He Hz) as (x & Hx & ->).
    apply list_elem_of_fmap_2. by eapply list_elem_of_lookup_2.
Qed.

Lemma desired_bound : Z.of_nat (length DE) ≤ 1048576.
Proof.
  unfold desired_edges. rewrite zsum_count by (intros; by eapply zm_flow).
  destruct (eo_items _ _ _ (nf_edges _ _ _ _ HN)) as [Hnd _].
  rewrite <- (zsum_groups sfl is_zm z_item (ip_item <$> qs)); [|by eapply NoDup_NE|done|].
  - rewrite zsum_fmap. etrans; [|exact (eo_source _ _ _ (nf_edges _ _ _ _ HN))]. apply zsum_le. intros q Hq.
    rewrite <- zsum_count; [by apply (item_count s net net' qs ws HN Hsh Hfe)|]. intros e He [Hz _]. by eapply zm_flow.
  - intros [[] c] He Hz; try done. apply elem_of_edges in He as (q & ms & Hq & _ & <- & _). unfold z_item. cbn. by apply list_elem_of_fmap_2.
Qed.
End of_flow.

Lemma solve_spec fuel l : solve fuel s = Some (Ret l) →
  valid_allocation s l ∧ (∀ x zone, x ∈ Items s → Z.of_nat (length (filter (λ a, as_ItemID a = id_of x ∧ as_MemberZone a = zone) l)) ≤ zone_bound x) ∧
  StronglySorted assignment_lt l ∧ Forall (add_ok s) l ∧ Z.of_nat (length l) ≤ 1048576.
Proof.
  unfold solve. destruct (fn_init s) as [net|] eqn:Hinit; [|done]. destruct (FindMaxFlow _ _ _ _) as [[net'|]|] eqn:Hflow; [|done..]. intros [= Hl].
  destruct (fn_init_built s net (st_slots _ Hs) Hinit) as (qs & ws & HN).
  apply FindMaxFlow_feasible in Hflow as [Hsh Hfe]; [|rewrite (nf_length _ _ _ _ HN); unfold sourceNode; lia|done|apply HN|apply HN|by eapply source_caps].
  assert (Forall (λ i, i < length (Items s))%nat (seq 0 (length (Items s)))) as Hr by (apply Forall_forall; intros i Hi%elem_of_seq; lia).
  destruct (extract_items s net net' qs ws HN Hsh Hfe (st_size _ Hs) _ Hr _ _ Hl) as (outs & -> & Hall).
  cbn [app]. pose proof (outs_perm s net net' qs ws HN outs Hall) as Hp. destruct (valid_of net net' qs ws HN _ Hp) as (Hnd & Hadd & Hid).
  assert (Z.of_nat (length (concat outs)) ≤ 1048576) as Hlen by (rewrite Hp, length_fmap; by apply (desired_bound net net' qs ws HN)).
  split_and!; [|..|done|done].
  - split_and!; [done|..].
    + intros a Ha. split; [by apply Hid|]. destruct (proj1 (Forall_forall _ _) Hadd a Ha) as (_ & m & Hm & <-). by apply (list_elem_of_fmap_2 (λ m : KV, kv_Key m)).
    + intros x Hx. by apply (item_within net net' qs ws HN Hsh Hfe).
    + intros m Hm. by apply (member_within net net' qs ws HN Hsh Hfe).
  - intros x zone Hx. by apply (zone_within net net' qs ws HN Hsh Hfe).
  - apply order_strict; [done|]. by apply (outs_sorted net' qs ws 0 (length (Items s))).
Qed.
End of_state.

End valid.

Lemma demo_state_ok : state_ok Demo.state.
Proof.
  split.
  - split; [repeat constructor; vm_compute; discriminate|vm_compute; discriminate|vm_compute; discriminate|].
    unfold limits_ok. repeat constructor; vm_compute; discriminate.
  - vm_compute. discriminate.
  - split; [split; [unfold kv_sorted; repeat constructor|repeat constructor]|repeat constructor].
  - split; [split; [unfold kv_sorted; repeat constructor|repeat constructor]|repeat constructor].
  - apply (bool_decide_unpack _). vm_compute. reflexivity.
  - repeat constructor; vm_compute; discriminate.
Qed.

(** What is solved for the state of the demonstration. *)
Definition demo_solved : list (Assignment unit) :=
  [mkAssignment "x" "A" "one" 0 None; mkAssignment "x" "B" "two" 0 None; mkAssignment "y" "A" "three" 0 None].
