(* ===== verification/AllocSolve.v ===== *)
(** * The allocator solves (src/v2/pkg/allocator/flow_network.go)

    AllocFlow.v shows what assignments are that are read off a flow. Here the network of a state
    that was observed is built without a panic, its arcs lead from the source over items, zones,
    members and the overflow node to the sink, so that the search for a flow ends (PushEnds.v),
    and the assignments are read off without a panic. *)
From S2P Require Import Prelude Protocol KeySpace AllocKeys AllocState AllocTxn ItemState PushRelabel PushEnds FlowNetwork AllocFlow.
Local Open Scope Z_scope.

(** A fold that keeps an invariant does not panic. *)
Lemma outcome_fold_total {A B} (f : B → A → outcome B) (I : list A → B → Prop) (l : list A) : ∀ acc,
  (∀ acc x l', I (x :: l') acc → ∃ acc', f acc x = Ret acc' ∧ I l' acc') → I l acc →
  ∃ acc', outcome_fold f acc l = Ret acc' ∧ I [] acc'.
Proof.
  induction l as [|x l IH]; intros acc Hf Hi; cbn [outcome_fold]; [eauto|]. destruct (Hf _ _ _ Hi) as (acc' & -> & Hi'). cbn [outcome_bind]. by apply IH.
Qed.

(** ** Joins whose right side is sorted *)

Section join.
Context (LenL LenR : nat) (Compare : nat → nat → outcome Z) (x : nat → string) (key : list string).
Context (Hlen : length key = LenR) (Hsort : StronglySorted str_le key).
Context (Hcmp : ∀ l r k, (l < LenL)%nat → key !! r = Some k → Compare l r = Ret (strings_Compare (x l) k)).

Lemma Next_total fuel : ∀ j, (Left j < LenL)%nat → (RightBegin j ≤ RightEnd j ≤ LenR)%nat → (LenR - RightEnd j ≤ fuel)%nat →
  (∀ r k, (RightBegin j ≤ r < RightEnd j)%nat → key !! r = Some k → k = x (Left j)) →
  ∃ cur j', Next LenL LenR Compare fuel j = Ret (Some (cur, j')) ∧ Left cur = Left j ∧ Left j' = S (Left j) ∧
    (RightBegin cur ≤ RightEnd cur ≤ LenR)%nat ∧ RightBegin j' = RightEnd j' ∧ (RightEnd j' ≤ LenR)%nat.
Proof.
  induction fuel as [|fuel IH]; intros j Hl Hr Hf Hk; cbn [Next]; rewrite (proj2 (Nat.ltb_lt _ _) Hl);
    destruct (Nat.eqb_spec (RightEnd j) LenR) as [He|He]; cbn [outcome_bind Z.eqb Z.opp]; try lia.
  1,2: eexists _, _; split; [reflexivity|]; cbn; split_and!; (done || lia).
  destruct (lookup_lt_is_Some_2 key (RightEnd j)) as [k Hke]; [lia|]. rewrite (Hcmp _ _ k) by done. cbn [outcome_bind].
  destruct (compare_spec (x (Left j)) k) as [[-> _]|[[-> Heq]|[-> Hlt]]]; cbn [Z.eqb Z.opp Pos.eqb].
  - eexists _, _; split; [reflexivity|]; cbn; split_and!; (done || lia).
  - refine (IH (mkCursor (Left j) (RightBegin j) (RightEnd j + 1)) _ _ _ _); cbn; [done|lia|lia|]. intros r k' Hr' Hk'. destruct (decide (r = RightEnd j)) as [-> |]; [congruence|apply (Hk r); [lia|done]].
  - destruct (Nat.eqb_spec (RightBegin j) (RightEnd j)) as [Hb|Hb]; cbn [negb].
    + refine (IH (mkCursor (Left j) (RightEnd j + 1) (RightEnd j + 1)) _ _ _ _); cbn; [done|lia|lia|lia].
    + exfalso. assert (RightBegin j < RightEnd j)%nat as Hlt2 by lia. destruct (lookup_lt_is_Some_2 key (RightBegin j)) as [k0 Hk0]; [lia|]. specialize (Hk (RightBegin j) k0 ltac:(lia) Hk0) as ->.
      destruct (ssorted_lookup _ _ _ _ _ _ Hsort Hlt2 Hk0 Hke) as [Hlt'|Heq].
      * by apply (str_lt_asym _ _ Hlt).
      * rewrite Heq in Hlt. by apply (irreflexivity str_lt) in Hlt.
Qed.
End join.

(** Assignments are in order of items, zones and suffixes of members. *)
Section keys.
Context {MV IV AV : Type} `{!MemberValue MV} `{!ItemValue MV IV AV}.
Abbreviation KV := (KeyValue (Entity MV IV AV)).
Definition asn_zone (x : KV) : string := match Decoded x with EntityAssignment a => as_MemberZone a | _ => "" end.
Definition asn_suffix (x : KV) : string := match Decoded x with EntityAssignment a => as_MemberSuffix a | _ => "" end.

Lemma assignments_order root (asn : list KV) : assignments_ok root asn →
  StronglySorted (λ x y, asn_item x = asn_item y → str_le (asn_zone x) (asn_zone y) ∧ (asn_zone x = asn_zone y → str_le (asn_suffix x) (asn_suffix y))) asn.
Proof.
  intros [[Hs Hk] Hi]. rewrite Forall_forall in Hk, Hi. eapply ssorted_impl_in; [|exact Hs].
  intros x y Hx Hy Hlt. pose proof (Hk x Hx) as Ex. pose proof (Hk y Hy) as Ey. specialize (Hi x Hx) as Ix. specialize (Hi y Hy) as Iy.
  unfold is_assignment, asn_item, asn_zone, asn_suffix in *. destruct (Decoded x) as [| |a], (Decoded y) as [| |b]; try done. cbn [entity_key] in *.
  destruct (proj2 (keys_ordered_spec root) a b _ _ Ex Ey) as (_ & _ & Hgt). intros Heq.
  assert (compareAssignment a b ≠ 1) as Hn by (intros H%Hgt; by apply (str_lt_asym _ _ Hlt)).
  unfold compareAssignment in Hn. rewrite Heq in Hn.
  destruct (ltb_cases (as_ItemID b) (as_ItemID b)) as [[? _]|[(_ & E & _)|(? & _)]]; [by exfalso; eapply (irreflexivity str_lt)| |by exfalso; eapply (irreflexivity str_lt)].
  rewrite E in Hn.
  destruct (ltb_cases (as_MemberZone a) (as_MemberZone b)) as [[? _]|[(Hz & E1 & E2)|(? & E1 & E2)]]; [|rewrite E1, E2 in Hn|rewrite E1, E2 in Hn; done].
  - split; [by left|]. intros Hz. rewrite Hz in *. by exfalso; eapply (irreflexivity str_lt).
  - split; [by right|]. intros _.
    destruct (ltb_cases (as_MemberSuffix a) (as_MemberSuffix b)) as [[? _]|[(? & _)|(? & E3 & E4)]]; [by left|by right|rewrite E3, E4 in Hn; done].
Qed.
End keys.

Section solve.
Context {MV IV AV : Type} `{!MemberValue MV} `{!ItemValue MV IV AV}.
Abbreviation KV := (KeyValue (Entity MV IV AV)).
Abbreviation Root s := (ks_Root (KS s)).

(** A state as it is observed, of sizes at which neither capacities nor heights overflow. *)
Record solvable (s : State MV IV AV) : Prop := {
  sv_state : state_ok s;
  sv_assignments : assignments_ok (Root s) (Assignments s);
  sv_sorted : StronglySorted str_lt (Zones s);
  sv_in : ∀ z, z ∈ Zones s ↔ ∃ x, x ∈ Members s ∧ zone_of x = z;
  sv_slots : length (ZoneSlots s) = length (Zones s);
  sv_counts : length (MemberTotalCount s) = length (Members s);
  sv_nodes : Z.of_nat (3 + length (Items s) + length (Items s) * length (Zones s) + length (Members s)) ≤ 2147483640;
}.

Section build.
Context (s : State MV IV AV) (Hs : solvable s).
Abbreviation nI := (length (Items s)).
Abbreviation nZ := (length (Zones s)).
Abbreviation nM := (length (Members s)).
Abbreviation size := (3 + nI + nI * nZ + nM)%nat.

Lemma addArc_total (net : network) from to c pv : length net = size → (from < size)%nat → (to < size)%nat → 0 ≤ c ≤ MaxInt32 →
  ∃ net', addArc net from to c pv = Ret net' ∧ length net' = size.
Proof.
  intros Hl Hf Ht Hc. destruct (lookup_lt_is_Some_2 net from) as [f Hf']; [lia|]. destruct (lookup_lt_is_Some_2 net to) as [g Hg']; [lia|].
  unfold addArc, AddArc. rewrite Hf', Hg'. rewrite (proj2 (orb_false_iff _ _)) by (split; lia).
  rewrite (proj2 (orb_false_iff _ _)) by (unfold MaxInt8; split; repeat case_match; lia). eexists. split; [reflexivity|]. by rewrite !length_alter.
Qed.

Lemma member_known m x : Members s !! m = Some x → ∃ mb, memberAt (Members s) m = Ret mb ∧ Decoded x = EntityMember mb ∧ mb_Zone mb = zone_of x.
Proof.
  intros Hx. destruct (st_members _ (sv_state _ Hs)) as [_ Hm]. rewrite Forall_lookup in Hm. specialize (Hm _ _ Hx). unfold memberAt, zone_of, is_member in *.
  rewrite Hx. destruct (Decoded x); try done. eauto.
Qed.

Lemma zones_order i j z z' : Zones s !! i = Some z → Zones s !! j = Some z' → (i < j)%nat ↔ str_lt z z'.
Proof.
  intros Hi Hj. split.
  - intros Hij. exact (ssorted_lookup _ _ _ _ _ _ (sv_sorted _ Hs) Hij Hi Hj).
  - intros Hlt. destruct (decide (i < j)%nat) as [|Hn]; [done|exfalso]. destruct (decide (i = j)) as [-> |].
    + assert (z = z') as -> by congruence. by apply (irreflexivity str_lt) in Hlt.
    + apply (str_lt_asym _ _ Hlt). assert (j < i)%nat as Hji by lia. exact (ssorted_lookup _ _ _ _ _ _ (sv_sorted _ Hs) Hji Hj Hi).
Qed.

Lemma members_order m m' x y : Members s !! m = Some x → Members s !! m' = Some y → (m ≤ m')%nat → str_le (zone_of x) (zone_of y).
Proof.
  intros Hx Hy Hle. destruct (decide (m = m')) as [-> |]; [right; congruence|].
  apply (zone_order (Root s) (Members s) m m'); [apply (st_members _ (sv_state _ Hs))|done|done|lia].
Qed.

Lemma zone_exists m x : Members s !! m = Some x → ∃ k, Zones s !! k = Some (zone_of x).
Proof. intros Hx. apply list_elem_of_lookup, (sv_in _ Hs). exists x. split; [by eapply list_elem_of_lookup_2|done]. Qed.

(** Members from [moff] on are in the zone at [k] or in later ones. *)
Definition from_zone (k moff : nat) : Prop :=
  ∀ m x z, (moff ≤ m)%nat → Members s !! m = Some x → Zones s !! k = Some z → str_le z (zone_of x).

Lemma from_zone_0 : from_zone 0 0.
Proof.
  intros m x z _ Hx Hz. destruct (zone_exists m x Hx) as [k Hk]. destruct (decide (k = 0%nat)) as [-> |]; [right; congruence|].
  left. apply (zones_order 0 k); [done|done|lia].
Qed.

(** The next zone starts with its first member, or there is none after the last member. *)
Lemma from_zone_next k moff zone m x : Zones s !! k = Some zone → Members s !! m = Some x → (moff ≤ m)%nat → str_lt zone (zone_of x) → from_zone (S k) m.
Proof.
  intros Hk Hx Hm Hlt m' x' z' Hm' Hx' Hz'. destruct (zone_exists m' x' Hx') as [k' Hk'].
  assert (k < k')%nat.
  { apply (zones_order k k' zone (zone_of x')); [done|done|]. destruct (members_order m m' x x' Hx Hx' Hm') as [?|<-]; [by trans (zone_of x)|done]. }
  destruct (decide (k' = S k)) as [-> |]; [right; congruence|]. left. apply (zones_order (S k) k'); [done|done|lia].
Qed.

Lemma from_zone_last k moff zone : Zones s !! k = Some zone → (∀ m x, (moff ≤ m)%nat → Members s !! m = Some x → zone_of x = zone) → from_zone (S k) moff.
Proof.
  intros Hk Hall m x z Hm Hx Hz. exfalso. assert (str_lt zone z) as Hlt by (apply (zones_order k (S k)); [done|done|lia]).
  destruct (proj1 (sv_in _ Hs z)) as (y & [my Hy]%list_elem_of_lookup_1 & <-); [by eapply list_elem_of_lookup_2|].
  pose proof (Hall m x Hm Hx) as Hzx. destruct (decide (moff ≤ my)%nat) as [Hle|Hgt].
  - rewrite (Hall my y Hle Hy) in Hlt. by apply (irreflexivity str_lt) in Hlt.
  - destruct (members_order my m y x Hy Hx) as [Hlt'|Heq]; [lia| |]; rewrite Hzx in *; [by apply (str_lt_asym _ _ Hlt)|].
    rewrite Heq in Hlt. by apply (irreflexivity str_lt) in Hlt.
Qed.

Definition sorted_row (za : list KV) : Prop := Forall (λ x, is_assignment x = true) za ∧ StronglySorted str_le (asn_suffix <$> za).

Lemma member_arcs_total i k zone za moff : (i < nI)%nat → Zones s !! k = Some zone → from_zone k moff → sorted_row za →
  ∀ fuel net j, length net = size → RightBegin j = RightEnd j → (RightEnd j ≤ length za)%nat → (nM < Left j + moff + fuel)%nat →
  (∀ m x, (moff ≤ m < Left j + moff)%nat → Members s !! m = Some x → zone_of x = zone) →
  ∃ net' moff', member_arcs fuel s net zone (i * nZ + k) moff za j = Ret (net', moff') ∧ length net' = size ∧ from_zone (S k) moff'.
Proof.
  intros Hi Hk Hfrom [Hza Hsort] fuel. induction fuel as [|fuel IH]; intros net j Hl Hb He Hfu Hdone; cbn [member_arcs].
  { exists net, moff. split; [done|]. split; [done|]. apply (from_zone_last k moff zone Hk). intros m x Hm Hx. apply (Hdone m); [|done].
    apply lookup_lt_Some in Hx. lia. }
  destruct (decide (Left j < nM - moff)%nat) as [Hlt|Hge].
  2:{ assert (∀ C, Next (nM - moff) (length za) C (length za) j = Ret None) as HN by
        (intros C; destruct (length za); cbn [Next]; by rewrite (proj2 (Nat.ltb_ge _ _)) by lia).
      rewrite HN. cbn [outcome_bind]. exists net, moff. split; [done|]. split; [done|]. apply (from_zone_last k moff zone Hk).
      intros m x Hm Hx. apply (Hdone m); [|done]. apply lookup_lt_Some in Hx. lia. }
  match goal with |- context [Next _ _ ?C _ _] => destruct (Next_total (nM - moff) (length za) C
    (λ l, match Members s !! (l + moff)%nat with Some x => match Decoded x with EntityMember mb => mb_Suffix mb | _ => "" end | None => "" end)
    (asn_suffix <$> za) ltac:(by rewrite length_fmap) Hsort) with (fuel := length za) (j := j) as (cur & j' & -> & Hcl & Hjl & Hcr & Hjb & Hje) end.
  { intros l r key Hll Hr. destruct (lookup_lt_is_Some_2 (Members s) (l + moff)) as [x Hx]; [lia|]. destruct (member_known _ _ Hx) as (mb & -> & Hd & _).
    rewrite Hx, Hd. cbn [outcome_bind]. rewrite list_lookup_fmap in Hr. destruct (za !! r) as [y|] eqn:Hy; [|done]. injection Hr as <-.
    rewrite Forall_lookup in Hza. specialize (Hza _ _ Hy). unfold assignmentAt, asn_suffix, is_assignment in *. rewrite Hy. by destruct (Decoded y). }
  { done. } { lia. } { lia. } { lia. }
  cbn [outcome_bind]. rewrite Hcl. destruct (lookup_lt_is_Some_2 (Members s) (Left j + moff)) as [x Hx]; [lia|].
  destruct (member_known _ _ Hx) as (mb & -> & Hd & Hz). cbn [outcome_bind]. rewrite Hz.
  destruct (compare_spec zone (zone_of x)) as [[-> Hlt']|[[-> Heq]|[-> Hgt]]]; cbn [Z.eqb Z.opp Pos.eqb].
  - exists net, (Left j + moff)%nat. split; [done|]. split; [done|]. by apply (from_zone_next k moff zone _ x); [..|lia|].
  - destruct (addArc_total net (zoneItemNode s (i * nZ + k)) (memberNode s (Left j + moff)) 1 (Z.of_nat (RightEnd cur - RightBegin cur))) as (net' & -> & Hl'); [done|..].
    { apply lookup_lt_Some in Hk. pose proof (zone_range s i k Hi Hk). unfold zoneItemNode. lia. } { unfold memberNode. lia. } { done. }
    cbn [outcome_bind]. apply IH; [done|done|lia|lia|]. intros m y Hm Hy. destruct (decide (m = Left j + moff)%nat) as [-> |]; [congruence|]. apply (Hdone m); [lia|done].
  - exfalso. assert (moff ≤ Left j + moff)%nat as Hmo by lia. destruct (Hfrom _ x zone Hmo Hx Hk) as [Hlt'|Heq]; [by apply (str_lt_asym _ _ Hgt)|].
    rewrite Heq in Hgt. by apply (irreflexivity str_lt) in Hgt.
Qed.

(** The assignments of an item, and of one of its zones. *)
Lemma item_row_sorted x : Forall (λ y, is_assignment y = true) (item_row (Assignments s) x) ∧
  StronglySorted (λ y y', str_le (asn_zone y) (asn_zone y') ∧ (asn_zone y = asn_zone y' → str_le (asn_suffix y) (asn_suffix y'))) (item_row (Assignments s) x).
Proof.
  destruct (sv_assignments _ Hs) as [Hok Hall]. unfold item_row. split.
  - apply Forall_forall. intros y [_ Hy]%list_elem_of_filter. by apply (proj1 (Forall_forall _ _) Hall).
  - eapply ssorted_impl_in; [|exact (ssorted_filter _ _ _ (assignments_order _ _ (sv_assignments _ Hs)))].
    intros y y' [Hy _]%list_elem_of_filter [Hy' _]%list_elem_of_filter H. apply H. congruence.
Qed.

Lemma zone_rows x : let ia := item_row (Assignments s) x in
  ∃ rows, LeftJoin_rows nZ (length ia) (λ l r, match Zones s !! l with
            | None => Panic "index out of range"
            | Some z => let! a := assignmentAt ia r in Ret (strings_Compare z (as_MemberZone a)) end) = Ret rows ∧
    Left <$> rows = seq 0 nZ ∧ Forall (λ r, sorted_row (slice ia (RightBegin r) (RightEnd r))) rows.
Proof.
  intros ia. destruct (item_row_sorted x) as [Hall Hsort]. fold ia in Hall, Hsort.
  assert (StronglySorted str_le (Zones s)) as HL by (eapply ssorted_impl_in; [|exact (sv_sorted _ Hs)]; intros; by left).
  assert (StronglySorted str_le (asn_zone <$> ia)) as HR by (apply ssorted_map; eapply ssorted_impl_in; [|exact Hsort]; by intros ? ? _ _ [? _]).
  destruct (LeftJoin_spec (Zones s) (asn_zone <$> ia) HL HR) as [Hrows Hspan]. rewrite length_fmap in Hrows.
  eexists. split; [erewrite (LeftJoin_rows_ext _ _ _ (compare_keys (Zones s) (asn_zone <$> ia))); [exact Hrows|]|split].
  - intros l r. unfold compare_keys. rewrite list_lookup_fmap. destruct (Zones s !! l) as [z|]; [|done]. unfold assignmentAt.
    destruct (ia !! r) as [y|] eqn:Hy; [|done]. rewrite Forall_lookup in Hall. specialize (Hall _ _ Hy). cbn. unfold is_assignment, asn_zone in *. by destruct (Decoded y).
  - apply list_eq. intros k. rewrite list_lookup_fmap, lookup_zip_with. destruct (seq 0 nZ !! k) as [j|] eqn:Hj; [|done].
    apply lookup_seq in Hj as [-> Hk]. by destruct (lookup_lt_is_Some_2 (Zones s) k Hk) as [z ->].
  - apply Forall_lookup. intros k r Hr. rewrite lookup_zip_with in Hr. apply bind_Some in Hr as (j & Hj & Hr). apply bind_Some in Hr as (z & Hz & [= <-]).
    apply lookup_seq in Hj as [-> Hk]. cbn [RightBegin RightEnd Nat.add].
    rewrite <- (filter_span (λ y, asn_zone y = z) ia); [|apply below_le_upto|].
    + split; [by apply Forall_filter|]. apply ssorted_map. eapply ssorted_impl_in; [|exact (ssorted_filter _ _ _ Hsort)].
      intros y y' [Hy _]%list_elem_of_filter [Hy' _]%list_elem_of_filter [_ H]. apply H. congruence.
    + intros i y Hy. rewrite (Hspan k z Hz), list_lookup_fmap, Hy. cbn. split; congruence.
Qed.

Lemma zones_total i ia cz rows : (i < nI)%nat → 0 ≤ cz ≤ MaxInt32 → Left <$> rows = seq 0 nZ →
  Forall (λ r, sorted_row (slice ia (RightBegin r) (RightEnd r))) rows → ∀ net, length net = size →
  ∃ net' moff', outcome_fold (zone_arcs s i ia cz) (net, O) rows = Ret (net', moff') ∧ length net' = size.
Proof.
  intros Hi Hc Hleft Hrows net Hl.
  destruct (outcome_fold_total (zone_arcs s i ia cz) (λ todo acc, length acc.1 = size ∧ ∃ k, Left <$> todo = seq k (nZ - k) ∧ from_zone k acc.2 ∧
    Forall (λ r, sorted_row (slice ia (RightBegin r) (RightEnd r))) todo) rows (net, O)) as ([net' moff'] & H & Hl' & _); [|split; [done|]|by exists net', moff'].
  - intros [net1 moff] r todo (Hl1 & k & Hk & Hfrom & Hall). cbn in Hl1, Hfrom. apply Forall_cons in Hall as [Hr Hall].
    destruct (nZ - k)%nat as [|n] eqn:Hn; [done|]. rewrite fmap_cons in Hk. cbn [seq] in Hk. injection Hk as Hkr Hk. unfold zone_arcs. rewrite Hkr.
    destruct (lookup_lt_is_Some_2 (Zones s) k) as [zone Hzone]; [lia|]. rewrite Hzone.
    destruct (addArc_total net1 (itemNode i) (zoneItemNode s (i * nZ + k)) cz (Z.of_nat (length (slice ia (RightBegin r) (RightEnd r))))) as (net2 & -> & Hl2);
      [done|unfold itemNode; lia|apply lookup_lt_Some in Hzone; pose proof (zone_range s i k Hi Hzone); unfold zoneItemNode; lia|done|]. cbn [outcome_bind].
    destruct (member_arcs_total i k zone _ moff Hi Hzone Hfrom Hr (S nM) net2 (mkCursor 0 0 0)) as (net3 & moff3 & -> & Hl3 & Hf3); [done|done|cbn; lia|cbn; lia|cbn; lia|].
    exists (net3, moff3). split; [done|]. split; [done|]. exists (S k). replace (nZ - S k)%nat with n by lia. done.
  - exists 0%nat. rewrite Nat.sub_0_r. split_and!; [done|apply from_zone_0|done].
Qed.

Lemma buildItemArcs_total net i x c eff : Items s !! i = Some x → length net = size → 0 ≤ c ≤ MaxInt32 →
  ∃ net', buildItemArcs s net i (item_row (Assignments s) x) c eff = Ret net' ∧ length net' = size.
Proof.
  intros Hx Hl Hc. apply lookup_lt_Some in Hx as Hi. unfold buildItemArcs.
  destruct (addArc_total net sourceNode (itemNode i) c (Z.of_nat (length (item_row (Assignments s) x)))) as (net1 & -> & Hl1); [done|unfold sourceNode; lia|unfold itemNode; lia|done|].
  cbn [outcome_bind]. destruct (zone_rows x) as (rows & -> & Hleft & Hrows). cbn [outcome_bind].
  destruct (zones_total i (item_row (Assignments s) x) (if (1 <? c) && (1 <? eff) then c - 1 else c) rows Hi) with (net := net1) as (net2 & moff & -> & Hl2);
    [destruct (_ && _) eqn:E; [apply andb_true_iff in E as [E _]|]; lia|done|done|done|]. cbn [outcome_bind]. eauto.
Qed.

Lemma items_total eff net slots : length net = size → 0 ≤ slots ≤ 1048576 →
  ∃ rows net' slots', join_items (Items s) (Assignments s) = Ret rows ∧ outcome_fold (item_arcs s eff) (net, slots) rows = Ret (net', slots') ∧ length net' = size.
Proof.
  intros Hl Hsl. destruct (join_items_spec (Root s) (Items s) (Assignments s)) as [Hrows Hslice]; [apply (st_items _ (sv_state _ Hs))|apply (sv_assignments _ Hs)|].
  eexists. match type of Hrows with _ = Ret ?rows => set (rws := rows) in * end.
  destruct (outcome_fold_total (item_arcs s eff) (λ todo acc, length acc.1 = size ∧ 0 ≤ acc.2 ≤ 1048576 ∧
    Forall (λ r, ∃ x, Items s !! Left r = Some x ∧ slice (Assignments s) (RightBegin r) (RightEnd r) = item_row (Assignments s) x) todo) rws (net, slots))
    as ([net' slots'] & Hf & Hl' & _); [| |by exists net', slots'].
  - intros [net1 n] r todo (Hl1 & Hn & Hall). cbn in Hl1, Hn. apply Forall_cons in Hall as [(x & Hx & Hsx) Hall]. unfold item_arcs, itemAt. rewrite Hx, Hsx.
    destruct (st_items _ (sv_state _ Hs)) as [_ Hi]. rewrite Forall_lookup in Hi. specialize (Hi _ _ Hx). unfold is_item in Hi. destruct (Decoded x) as [|it|]; try done.
    cbn [outcome_bind]. match goal with |- context [buildItemArcs _ _ _ _ ?k _] => set (c := k) end.
    assert (0 ≤ c ≤ n) as Hc by (unfold c; repeat case_match; lia).
    destruct (buildItemArcs_total net1 (Left r) x c eff Hx Hl1) as (net2 & -> & Hl2); [unfold MaxInt32; lia|]. cbn [outcome_bind].
    eexists. split; [reflexivity|]. cbn. rewrite int64_id by (unfold is_int64, MinInt64, MaxInt64; lia). split_and!; [done|lia|lia|done].
  - split_and!; [done|cbn; lia|cbn; lia|]. apply Forall_lookup. intros k r Hr. unfold rws in Hr. rewrite lookup_zip_with in Hr.
    apply bind_Some in Hr as (j & Hj & Hr). apply bind_Some in Hr as (x & Hx & [= <-]). apply lookup_seq in Hj as [-> Hk]. cbn [Left RightBegin RightEnd Nat.add].
    exists x. split; [done|]. apply Hslice. by eapply list_elem_of_lookup_2.
Qed.

Lemma sinks_total nums denoms net : scales nums denoms → length nums = nZ → length denoms = nZ → length net = size →
  ∃ rows net', LeftJoin_rows nM nZ (λ l r, match Zones s !! r with
      | None => Panic "index out of range"
      | Some z => let! m := memberAt (Members s) l in Ret (strings_Compare (mb_Zone m) z) end) = Ret rows ∧
    outcome_fold (sink_arcs s nums denoms) net rows = Ret net' ∧ length net' = size.
Proof.
  intros Hsc Hnl Hdl Hl. assert (StronglySorted str_le (Zones s)) as HR by (eapply ssorted_impl_in; [|exact (sv_sorted _ Hs)]; intros; by left).
  assert (StronglySorted str_le (zone_of <$> Members s)) as HL.
  { apply ssorted_map, ssorted_of_lookup. intros i j x y Hij Hx Hy. by apply (members_order i j); [..|lia]. }
  destruct (LeftJoin_spec (zone_of <$> Members s) (Zones s) HL HR) as [Hrows Hspan]. rewrite length_fmap in Hrows.
  eexists. match type of Hrows with _ = Ret ?rows => set (rws := rows) in * end.
  destruct (outcome_fold_total (sink_arcs s nums denoms) (λ todo net, length net = size ∧
    Forall (λ r, is_Some (Members s !! Left r) ∧ (RightBegin r < nZ)%nat) todo) rws net) as (net' & Hf & Hl' & _); [| |exists net'; split_and!; [|exact Hf|done]].
  - intros net1 r todo (Hl1 & Hall). apply Forall_cons in Hall as [[[x Hx] Hr] Hall]. unfold sink_arcs. apply lookup_lt_Some in Hx as Hlt.
    destruct (member_known _ _ Hx) as (mb & -> & Hd & Hz). cbn [outcome_bind].
    destruct (lookup_lt_is_Some_2 nums (RightBegin r)) as [num Hnum]; [lia|]. destruct (lookup_lt_is_Some_2 denoms (RightBegin r)) as [denom Hden]; [lia|].
    destruct (lookup_lt_is_Some_2 (MemberTotalCount s) (Left r)) as [count Hcount]; [rewrite (sv_counts _ Hs); lia|]. rewrite Hnum, Hden, Hcount.
    assert (0 ≤ ItemLimit (mb_Value mb) ≤ 1048576) as Hlim.
    { pose proof (proj1 (Forall_forall _ _) (so_limits _ (st_slots _ (sv_state _ Hs))) x (list_elem_of_lookup_2 _ _ _ Hx)) as Hlim. unfold limit_of in Hlim. by rewrite Hd in Hlim. }
    destruct (Hsc _ _ _ _ Hnum Hden Hlim) as (c & -> & Hc). cbn [outcome_bind].
    destruct (addArc_total net1 (memberNode s (Left r)) sinkNode c count) as (net2 & -> & Hl2); [done|unfold memberNode; lia|unfold sinkNode; lia|unfold MaxInt32; lia|]. cbn [outcome_bind].
    destruct (Z.ltb_spec c (ItemLimit (mb_Value mb))); [|by exists net2].
    destruct (addArc_total net2 (memberNode s (Left r)) overflowNode (int64 (ItemLimit (mb_Value mb) - c)) 0) as (net3 & -> & Hl3);
      [done|unfold memberNode; lia|unfold overflowNode; lia|rewrite int64_id by (unfold is_int64, MinInt64, MaxInt64; lia); unfold MaxInt32; lia|]. by exists net3.
  - split; [done|]. apply Forall_lookup. intros k r Hr. unfold rws in Hr. rewrite lookup_zip_with in Hr.
    apply bind_Some in Hr as (j & Hj & Hr). apply bind_Some in Hr as (z & Hz & [= <-]). apply lookup_seq in Hj as [-> Hk]. cbn [Left RightBegin Nat.add].
    apply list_lookup_fmap_Some in Hz as (x & -> & Hx). split; [by eexists|]. destruct (zone_exists _ _ Hx) as [i Hi].
    assert (below (zone_of x) (Zones s) ≤ i)%nat; [|apply lookup_lt_Some in Hi; lia].
    apply (Hspan k (zone_of x)); [by rewrite list_lookup_fmap, Hx|done].
  - erewrite (LeftJoin_rows_ext _ _ _ (compare_keys (zone_of <$> Members s) (Zones s))); [exact Hrows|].
    intros l r. unfold compare_keys. rewrite list_lookup_fmap. destruct (Members s !! l) as [x|] eqn:Hx.
    + destruct (member_known _ _ Hx) as (mb & -> & _ & Hz). cbn. rewrite Hz. by destruct (Zones s !! r).
    + unfold memberAt. rewrite Hx. by destruct (Zones s !! r).
Qed.

(** The network is built without a panic. *)
Lemma fn_init_total : ∃ net, fn_init s = Ret net.
Proof.
  unfold fn_init. destruct (addArc_total (init_nodes s) overflowNode sinkNode MaxInt32 0) as (net0 & -> & Hl0);
    [apply length_init_nodes|unfold overflowNode; lia|unfold sinkNode; lia|done|]. cbn [outcome_bind].
  pose proof (st_slots _ (sv_state _ Hs)) as Hslots.
  destruct (items_total (effective_zones s) net0 _ Hl0 (effective_bounds s Hslots)) as (rows & net1 & slots & -> & H1 & Hl1). cbn [outcome_bind].
  unfold effective_zones in H1. rewrite H1. cbn [outcome_bind]. pose proof (scales_ok s Hslots) as Hsc.
  destruct (zoneScalingFactors _ _ _) as [nums denoms] eqn:Hf. cbn in Hsc.
  assert (length nums = nZ ∧ length denoms = nZ) as [Hn Hd].
  { unfold zoneScalingFactors in Hf. destruct (zone_sums _ _). injection Hf as <- <-. by rewrite !length_fmap, (sv_slots _ Hs). }
  destruct (sinks_total nums denoms net1 Hsc Hn Hd Hl1) as (mrows & net2 & -> & H2 & _). cbn [outcome_bind]. rewrite H2. cbn [outcome_bind]. eauto.
Qed.

(** ** Its arcs ascend *)

Definition vertex_rank (v : vertex) : Z :=
  match v with
  | VSource => 0 | VItem _ => 1 | VZone _ _ => 2 | VMember _ => 3
  | VOverflow => if (nM =? 0)%nat then 0 else 4
  | VSink => 5
  end.
Definition node_rank (u : nat) : Z :=
  if (u =? sourceNode)%nat then 0 else if (u =? sinkNode)%nat then 5 else if (u =? overflowNode)%nat then vertex_rank VOverflow
  else if (u <? 3 + nI)%nat then 1 else if (u <? 3 + nI + nI * nZ)%nat then 2 else 3.

Lemma node_rank_pos v : valid_vertex s v → node_rank (pos s v) = vertex_rank v.
Proof.
  unfold node_rank, pos, zoneNode, zoneItemNode, memberNode, itemNode, sourceNode, sinkNode, overflowNode.
  destruct v as [| | |i|i z|m]; cbn [valid_vertex vertex_rank]; intros Hv; try done; [..|destruct Hv as [Hi Hz]; pose proof (zone_range s i z Hi Hz)|];
    repeat match goal with
    | |- context [(?a =? ?b)%nat] => destruct (Nat.eqb_spec a b); try lia
    | |- context [(?a <? ?b)%nat] => destruct (Nat.ltb_spec a b); try lia
    end.
Qed.

Section network.
Context (net : network) (qs : list ipart) (ws : list mpart) (HN : network_of s net qs ws).

(** An arc with capacity is an edge. *)
Lemma arc_edge u i a : arc net u i = Some a → 0 < Capacity a →
  ∃ e, valid_vertex s (s_from e) ∧ valid_vertex s (s_to e) ∧ u = pos s (s_from e) ∧ Target a = pos s (s_to e).
Proof.
  intros Ha Hc. assert (cap_of a ∈ ends u (place s <$> network_edges qs ws)) as Hin.
  { rewrite <- (nf_arcs _ _ _ _ HN u). apply list_elem_of_fmap_2. by eapply list_elem_of_lookup_2. }
  apply elem_of_ends in Hin as [(e & He & Hin)%list_elem_of_fmap|[? _]]; [|lia]. injection He as Hu Ht Hc'.
  destruct (edge_valid s qs ws (nf_edges _ _ _ _ HN) e Hin) as [H1 H2]. by exists e.1.
Qed.

Lemma network_ascending : ascending node_rank net.
Proof.
  intros u i a Ha Hc. destruct (arc_edge u i a Ha Hc) as (e & H1 & H2 & -> & ->). rewrite !node_rank_pos by done.
  destruct e; cbn in *; try done; destruct (Nat.eqb_spec nM 0); lia.
Qed.

(** ** Heights *)

Lemma heights : ht net sourceNode = Z.of_nat size ∧ ht net sinkNode = 0 ∧ (∀ u, 0 ≤ ht net u ≤ Z.of_nat size) ∧ ∀ i, (i < nI)%nat → ht net (itemNode i) = 3.
Proof.
  pose proof (sv_nodes _ Hs) as Hb. assert (length (InitNodes nI 3) = nI ∧ length (InitNodes (nI * nZ) 2) = (nI * nZ)%nat ∧ length (InitNodes nM 1) = nM) as (L1 & L2 & L3)
    by (unfold InitNodes; by rewrite !length_fmap, !length_seq).
  assert (uint32 (Z.of_nat (length (InitNodes nI 3) + length (InitNodes (nI * nZ) 2) + length (InitNodes nM 1) + 3)) = Z.of_nat size) as Hv.
  { rewrite L1, L2, L3, uint32_id by (unfold is_uint32, MaxUint32; lia). lia. }
  assert (Forall (λ n, 0 ≤ Height n ≤ Z.of_nat size) (init_nodes s)) as Hall.
  { unfold init_nodes. rewrite Hv. rewrite !Forall_app. split_and!.
    - repeat constructor; cbn; try lia; rewrite uint32_id by (unfold is_uint32, MaxUint32; lia); lia.
    - apply Forall_fmap, Forall_forall. intros k Hk%elem_of_seq. cbn. rewrite uint32_id by (by split). nia.
    - apply Forall_fmap, Forall_forall. intros k Hk%elem_of_seq. cbn. rewrite uint32_id by (by split). nia.
    - apply Forall_fmap, Forall_forall. intros k Hk%elem_of_seq. cbn. rewrite uint32_id by (by split). nia. }
  rewrite !(nf_height _ _ _ _ HN). split_and!.
  - unfold ht, init_nodes. cbn [lookup list_lookup app sourceNode Height]. exact Hv.
  - done.
  - intros u. rewrite (nf_height _ _ _ _ HN). unfold ht. destruct (init_nodes s !! u) as [n|] eqn:Hn; [|lia]. by apply (Forall_lookup_1 _ _ _ _ Hall Hn).
  - intros i Hi. rewrite (nf_height _ _ _ _ HN). unfold ht, init_nodes, itemNode. rewrite lookup_app_r by (cbn; lia). cbn [length].
    rewrite lookup_app_l by (rewrite L1; lia). unfold InitNodes. rewrite list_lookup_fmap. rewrite lookup_seq_lt by lia. done.
Qed.

Lemma network_acyclic : acyclic_ok sourceNode sinkNode node_rank net.
Proof.
  destruct heights as (H1 & H2 & H3 & H4). pose proof (nf_length _ _ _ _ HN) as Hl. pose proof (sv_nodes _ Hs) as Hb.
  split; rewrite ?H1, ?Hl; try done; try apply HN; try (unfold sourceNode, sinkNode, MaxUint32; lia).
  - by eapply source_caps.
  - apply network_ascending.
  - intros w. unfold node_rank, vertex_rank. repeat match goal with
    | |- context [(?a =? ?b)%nat] => destruct (Nat.eqb_spec a b); try lia
    | |- context [(?a <? ?b)%nat] => destruct (Nat.ltb_spec a b); try lia
    end.
  - intros i a Ha. assert (cap_of a ∈ ends sourceNode (place s <$> network_edges qs ws)) as Hin.
    { rewrite <- (nf_arcs _ _ _ _ HN). apply list_elem_of_fmap_2. by eapply list_elem_of_lookup_2. }
    apply elem_of_ends in Hin as [(e & He & Hin)%list_elem_of_fmap|[_ (c & (e & He & Hin)%list_elem_of_fmap)]];
      injection He as Hu Ht Hc'; destruct (edge_valid s qs ws (nf_edges _ _ _ _ HN) e Hin) as [V1 V2].
    + unfold p_from, p_to in *. apply (pos_inj s VSource) in Hu; [|done|done]. rewrite Ht. destruct (e.1) as [|k| | | |]; try done. cbn in V2. cbn [s_to pos]. rewrite (H4 k V2). lia.
    + exfalso. unfold p_from, p_to in *. apply (pos_inj s VSource) in Ht; [|done|done]. by destruct (e.1).
Qed.
End network.

(** ** Assignments are read off *)

Section extract.
Context {Sort : SliceSort} (net net' : network) (qs : list ipart) (ws : list mpart) (HN : network_of s net qs ws).
Context (Hsh : shape net' = shape net) (Hfe : feasible net' sourceNode sinkNode (arc_flow net')).

Lemma extract_arc_total id out i z k a : (i < nI)%nat → (z < nZ)%nat → arc net' (zoneNode s i z) k = Some a → ∃ out', extract_arc s net' id out a = Ret out'.
Proof.
  intros Hi Hz Ha. unfold extract_arc. destruct (Z.leb_spec (Flow a) 0) as [|Hpos]; [eauto|].
  pose proof (fe_cap _ _ _ _ Hfe _ _ _ Ha) as Hcap. unfold arc_flow in Hcap. rewrite Ha in Hcap.
  destruct (shape_arc net' net _ _ a ltac:(done) Ha) as (a0 & Ha0 & Hc & _ & Ht).
  destruct (arc_edge net qs ws HN _ _ _ Ha0) as (e & V1 & V2 & Hu & Hta); [lia|]. apply (pos_inj s (VZone i z)) in Hu; [|done|done].
  assert (∃ m, s_to e = VMember m) as [m Hm] by (destruct e; cbn in *; eauto; done). rewrite Hm in Hta, V2. cbn [pos valid_vertex] in Hta, V2. rewrite <- Ht, Hta.
  destruct (lookup_lt_is_Some_2 net' (memberNode s m)) as [t Hnode]; [rewrite (length_shape _ _ Hsh), (nf_length _ _ _ _ HN); unfold memberNode; lia|]. rewrite Hnode.
  destruct (shape_node net' net _ _ (eq_sym Hsh) Hnode) as (t0 & Ht0 & Hid & _). destruct (nf_member _ _ _ _ HN _ _ Ht0) as [Hid0 _].
  pose proof (st_size _ (sv_state _ Hs)). rewrite <- Hid, Hid0, uint32_id, Nat2Z.id by (unfold is_uint32, MaxUint32; lia).
  destruct (lookup_lt_is_Some_2 (Members s) m V2) as [x Hx]. destruct (member_known _ _ Hx) as (mb & -> & _). cbn [outcome_bind]. eauto.
Qed.

Lemma extractItemFlow_total i : (i < nI)%nat → ∃ out, extractItemFlow s net' i = Ret out.
Proof.
  intros Hi. unfold extractItemFlow. destruct (lookup_lt_is_Some_2 (Items s) i Hi) as [x Hx].
  destruct (st_items _ (sv_state _ Hs)) as [_ Hit]. rewrite Forall_lookup in Hit. specialize (Hit _ _ Hx). unfold itemAt, is_item in *. rewrite Hx.
  destruct (Decoded x) as [|it|]; try done. cbn [outcome_bind].
  match goal with |- context [outcome_fold ?f [] ?l] => destruct (outcome_fold_total f (λ todo _, Forall (λ z, z < nZ)%nat todo) l []) as (out & -> & _) end.
  - intros acc z todo [Hz Hall]%Forall_cons. pose proof (zone_range s i z Hi Hz).
    destruct (lookup_lt_is_Some_2 net' (zoneItemNode s (i * nZ + z))) as [n Hn]; [rewrite (length_shape _ _ Hsh), (nf_length _ _ _ _ HN); unfold zoneItemNode; lia|]. rewrite Hn.
    destruct (outcome_fold_total (extract_arc s net' (it_ID it)) (λ todo _, ∀ a, a ∈ todo → a ∈ Arcs n) (Arcs n) acc) as (acc' & Hf & _); [|done|by exists acc'].
    intros acc1 a todo1 Hin. destruct (list_elem_of_lookup_1 (Arcs n) a) as [k Hk]; [apply Hin; by left|].
    destruct (extract_arc_total (it_ID it) acc1 i z k a Hi Hz) as [acc2 Hacc]; [unfold arc, zoneNode; by rewrite (arcs_lookup _ _ _ Hn)|].
    exists acc2. split; [done|]. intros a' Ha'. apply Hin. by right.
  - apply Forall_forall. intros z Hz%elem_of_seq. lia.
  - cbn [outcome_bind]. destruct (sort_perm (λ x y : Assignment AV, Ret (compareAssignment x y <? 0)) out) as (l & Hl & _); [by eauto|]. by exists l.
Qed.
End extract.

(** With enough fuel the allocator has assignments, and does not panic. *)
Lemma solve_returns {Sort : SliceSort} : ∃ fuel0 l, ∀ fuel, (fuel0 ≤ fuel)%nat → solve fuel s = Some (Ret l).
Proof.
  destruct fn_init_total as [net Hinit]. destruct (fn_init_built s net (st_slots _ (sv_state _ Hs)) Hinit) as (qs & ws & HN).
  pose proof (network_acyclic net qs ws HN) as Hac. destruct (FindMaxFlow_ends _ _ _ net Hac) as (fuel0 & net' & Hrun).
  pose proof (FindMaxFlow_feasible _ _ fuel0 net net' (ac_s _ _ _ _ Hac) (ac_st _ _ _ _ Hac) (ac_paired _ _ _ _ Hac) (ac_fresh _ _ _ _ Hac) (ac_source _ _ _ _ Hac)
    (Hrun fuel0 (le_n _))) as [Hsh Hfe].
  exists fuel0. unfold solve. rewrite Hinit.
  assert (∃ l', outcome_fold (λ desired item, let! out := extractItemFlow s net' item in Ret (desired ++ out)) [] (seq 0 nI) = Ret l') as [l' Hl'].
  - destruct (outcome_fold_total (λ desired item, let! out := extractItemFlow s net' item in Ret (desired ++ out)) (λ todo _, Forall (λ i, i < nI)%nat todo) (seq 0 nI) [])
      as (l' & Hl' & _); [| |eauto].
    + intros acc i todo [Hi Hall]%Forall_cons. destruct (extractItemFlow_total net net' qs ws HN Hsh Hfe i Hi) as [out ->]. cbn [outcome_bind]. eauto.
    + apply Forall_forall. intros i Hi%elem_of_seq. lia.
  - exists l'. intros fuel Hf. rewrite (Hrun fuel Hf). by rewrite Hl'.
Qed.
End build.

(** ** States that are observed *)

(** Sizes of a key space at which neither capacities nor heights overflow: item limits that add up
    to 1048576 at most, as many members, and heights of all nodes within 32 bits. *)
Record sizes_ok (kvs : list KV) : Prop := {
  sz_limits : Forall (λ x, 0 ≤ limit_of x) (filter is_member kvs);
  sz_limit_sum : sum_Z (limit_of <$> filter is_member kvs) ≤ 1048576;
  sz_replication : Forall (λ x, 0 ≤ replication_of x) (filter is_item kvs);
  sz_replication_sum : sum_Z (replication_of <$> filter is_item kvs) ≤ MaxInt64;
  sz_members : Z.of_nat (length (filter is_member kvs)) ≤ 1048576;
  sz_nodes : (Z.of_nat (length (filter is_item kvs)) + 1) * (Z.of_nat (length (filter is_member kvs)) + 1) ≤ 2147483000;
}.

Lemma sum_Z_zsum {A} (f : A → Z) l : sum_Z (f <$> l) = zsum f l.
Proof. induction l as [|x l IH]; [done|]. rewrite fmap_cons, sum_Z_cons, IH. done. Qed.

Lemma zsum_filter_le {A} (f : A → Z) (P : A → Prop) `{∀ x, Decision (P x)} l : Forall (λ x, 0 ≤ f x) l → 0 ≤ zsum f (filter P l) ≤ zsum f l.
Proof. induction 1 as [|x l Hx Hl IH]; [done|]. rewrite filter_cons. case_decide; cbn [zsum]; lia. Qed.

Lemma zone_total_eq (ms : list KV) z : Forall (λ x, 0 ≤ limit_of x) ms → sum_Z (limit_of <$> ms) ≤ 1048576 →
  zone_total ms z = zsum limit_of (filter (λ x : KV, zone_of x = z) ms) ∧ 0 ≤ zone_total ms z.
Proof.
  intros Hl Hsum. rewrite sum_Z_zsum in Hsum. pose proof (zsum_filter_le limit_of (λ x : KV, zone_of x = z) ms Hl). unfold zone_total.
  rewrite sum_Z_zsum, int64_id by (unfold is_int64, MinInt64, MaxInt64; lia). lia.
Qed.

Lemma zone_totals (ms : list KV) zones : NoDup ms → NoDup zones → (∀ z, z ∈ zones ↔ ∃ x, x ∈ ms ∧ zone_of x = z) →
  Forall (λ x, 0 ≤ limit_of x) ms → sum_Z (limit_of <$> ms) ≤ 1048576 →
  Forall (λ zs, 0 ≤ zs) (zone_total ms <$> zones) ∧ sum_Z (zone_total ms <$> zones) ≤ 1048576 ∧ (length zones ≤ length ms)%nat.
Proof.
  intros Hms Hzs Hin Hl Hsum. split_and!.
  - apply Forall_fmap, Forall_forall. intros z _. by apply zone_total_eq.
  - rewrite sum_Z_zsum, (zsum_ext _ (λ z, zsum limit_of (filter (λ x : KV, True ∧ zone_of x = z) ms))).
    + rewrite (zsum_groups limit_of (λ _, True) zone_of zones ms Hms Hzs); [|intros x Hx _; apply Hin; eauto].
      rewrite list_filter_all by done. by rewrite <- sum_Z_zsum.
    + intros z _. rewrite (proj1 (zone_total_eq ms z Hl Hsum)). f_equal. apply list_filter_iff. tauto.
  - rewrite <- (length_fmap zone_of ms). apply submseteq_length, NoDup_submseteq; [done|]. intros z (x & Hx & <-)%Hin. by apply list_elem_of_fmap_2.
Qed.

Lemma observed_solvable GetPrefixRangeEnd s0 :
  let root := ks_Root (KS s0) in let kvs := ks_KeyValues (KS s0) in
  entities_ok root kvs → ends_prefix GetPrefixRangeEnd (root ++ MembersPrefix) → ends_prefix GetPrefixRangeEnd (root ++ ItemsPrefix) →
  ends_prefix GetPrefixRangeEnd (root ++ AssignmentsPrefix) → sizes_ok kvs →
  ∃ s, observe GetPrefixRangeEnd s0 = Ret s ∧ solvable s.
Proof.
  intros root kvs Hok H1 H2 H3 [L1 L2 R1 R2 Hm Hn].
  destruct (observe_spec GetPrefixRangeEnd s0 Hok H1 H2 H3) as (s & Hobs & EK & _ & EM & EI & EA & _ & Hzs & Hzi & Ezs & Eis & Ec & _ & _).
  exists s. split; [done|]. destruct (kind_ok root kvs Hok) as (Okm & Oki & Oka). unfold root, kvs in *. clear root kvs.
  rewrite <- EM in L1, L2, Hm, Hn, Okm. rewrite <- EI in R1, R2, Hn, Oki. rewrite <- EA in Oka.
  assert (NoDup (Zones s)) as Hznd by (eapply ssorted_NoDup; [|exact Hzs]; apply _).
  assert (NoDup (Members s)) as Hmnd.
  { destruct Okm as [[Hs _] _]. unfold kv_sorted in Hs. eapply ssorted_NoDup; [|exact Hs]. intros x. apply (irreflexivity str_lt). }
  destruct (zone_totals _ _ Hmnd Hznd Hzi L1 L2) as (Z1 & Z2 & Zl).
  assert (0 ≤ sum_Z (replication_of <$> Items s)) as Hr0 by (apply sum_Z_nonneg, Forall_fmap; exact R1).
  assert (limits_ok s) as Hlim.
  { unfold limits_ok. apply Forall_forall. intros x Hx. pose proof (proj1 (Forall_forall _ _) L1 x Hx) as Hx0. cbn in Hx0. split; [done|].
    etrans; [|exact L2]. rewrite sum_Z_zsum. apply (zsum_elem limit_of); [|done]. apply (Forall_forall (λ x, 0 ≤ limit_of x)), L1. }
  split; rewrite ?EK; try done.
  - split; rewrite ?EK; try done. split; [by rewrite Ezs|by rewrite Ezs| |done]. rewrite Eis, int64_id; [done|unfold is_int64, MinInt64; lia].
  - by rewrite Ezs, length_fmap.
  - rewrite Ec. unfold counts. by rewrite length_fmap.
  - nia.
Qed.

(** C14: The assignments that the allocator solves for are valid. Of a key space of entities the allocator observes a state, and with
    enough fuel, which stands for the time that its loops take, it solves for a list of assignments, without a panic. Items and members of
    them exist, no item is assigned to a member twice, an item has no more assignments than it is to be
    replicated, not all of them in one zone where there are more zones that can hold every item,
    and a member has no more than its limit. They come in the order that convergence walks. Sizes are within bounds at which integers do not
    overflow ([sizes_ok]): limits and replications are not negative, limits add up to 1048576 at most and replications to MaxInt64, there are 1048576 members at most,
    and the product of the numbers of items and members, each plus one, is 2147483000 at most. *)
Theorem solve_valid {Sort : SliceSort} GetPrefixRangeEnd (s0 : State MV IV AV) :
  let root := ks_Root (KS s0) in let kvs := ks_KeyValues (KS s0) in
  entities_ok root kvs → ends_prefix GetPrefixRangeEnd (root ++ MembersPrefix) → ends_prefix GetPrefixRangeEnd (root ++ ItemsPrefix) →
  ends_prefix GetPrefixRangeEnd (root ++ AssignmentsPrefix) → sizes_ok kvs →
  ∃ s fuel0 l, observe GetPrefixRangeEnd s0 = Ret s ∧ (∀ fuel, (fuel0 ≤ fuel)%nat → solve fuel s = Some (Ret l)) ∧
    valid_allocation s l ∧ (∀ x zone, x ∈ Items s → Z.of_nat (length (filter (λ a, as_ItemID a = id_of x ∧ as_MemberZone a = zone) l)) ≤ zone_bound s x) ∧
    StronglySorted assignment_lt l.
Proof.
  intros root kvs Hok H1 H2 H3 Hsz. destruct (observed_solvable GetPrefixRangeEnd s0 Hok H1 H2 H3 Hsz) as (s & Hobs & Hs).
  destruct (solve_returns s Hs) as (fuel0 & l & Hl). exists s, fuel0, l. split; [done|]. split; [done|].
  destruct (solve_spec s (sv_state _ Hs) fuel0 l (Hl fuel0 (le_n _))) as (V1 & V2 & V3 & _). by split_and!.
Qed.
End solve.

Lemma demo_sizes_ok : sizes_ok Demo.kvs.
Proof. split; try (vm_compute; discriminate); repeat constructor; vm_compute; discriminate. Qed.

Lemma solve_valid_witness : solve 1000 Demo.state = Some (Ret demo_solved) ∧
  ∃ s fuel0 l, observe prefix_end (NewObservedState Demo.ks "/members/A#three") = Ret s ∧ (∀ fuel, (fuel0 ≤ fuel)%nat → solve fuel s = Some (Ret l)) ∧ valid_allocation s l.
Proof.
  split; [vm_compute; reflexivity|].
  destruct (solve_valid prefix_end (NewObservedState Demo.ks "/members/A#three")) as (s & fuel0 & l & H1 & H2 & H3 & _);
    [exact Demo.kvs_ok|apply prefix_end_ends; reflexivity..|exact demo_sizes_ok|].
  exists s, fuel0, l. split; [exact H1|]. split; [exact H2|exact H3].
Defined.
