(* ===== verification/Allocate.v ===== *)
(** * The loop of the allocator (src/v2/pkg/allocator/allocator.go, [Allocate])

    An iteration of the loop composes the parts: the state that was observed, the maximum flow,
    convergence, and batched transactions. The theorem: what a leader issues to Etcd in an
    iteration, and the revision that it waits for. *)
From S2P Require Import Prelude Protocol KeySpace AllocKeys AllocState AllocTxn ItemState Rounds Converge PushRelabel FlowNetwork AllocFlow.
Local Open Scope Z_scope.

Section allocate.
Context {MV IV AV : Type} `{!MemberValue MV} `{!ItemValue MV IV AV} {Sort : SliceSort}.
Context {W : Type} (txnDo : W → list Cmp → list Op → W * (TxnResponse + string)).

(** What the loop keeps from one iteration to the next. *)
Record allocator := mkAllocator { al_desired : list (Assignment AV); al_lastNetworkHash : Z }.

(** An iteration returns, or awaits the revision [next] of the key space. *)
Inductive iteration :=
| Exit (err : option string)
| Await (next : Z) (al : allocator) (w : W) (err : option string).

(** The desired assignments are solved for only when the network has changed. *)
Definition resolve (fuel : nat) (s : State MV IV AV) (al : allocator) : option (outcome allocator) :=
  if NetworkHash s =? al_lastNetworkHash al then Some (Ret al)
  else
    match solve fuel s with
    | None => None
    | Some r => Some (let! desired := r in Ret (mkAllocator desired (NetworkHash s)))
    end.

(** Convergence within a batch, and its commit. *)
Definition converge_and_commit (b : batchedTxn W) (s : State MV IV AV) (desired : list (Assignment AV))
    : outcome (batchedTxn W * option TxnResponse * option string) :=
  let! (_, b, err) := @converge _ _ _ _ _ _ _ (batchedTxn_checkpointTxn txnDo) b s desired in
  match err with
  | Some err => Ret (b, None, Some err)
  | None => batched_Commit txnDo b
  end.

Definition allocate_iteration (fuel : nat) (w : W) (s : State MV IV AV) (al : allocator) : option (outcome iteration) :=
  match LocalMemberInd s with
  | None => Some (Ret (Exit (Some "member key not found in Etcd")))
  | Some ind =>
      let next := int64 (rh_Revision (ks_Header (KS s)) + 1) in
      match shouldExit s with
      | Panic m => Some (Panic m)
      | Ret true => Some (Ret (Exit None))
      | Ret false =>
          if isLeader s then
            match resolve fuel s al, Members s !! ind with
            | None, _ => None
            | Some (Panic m), _ => Some (Panic m)
            | Some (Ret _), None => Some (Panic "index out of range")
            | Some (Ret al), Some m =>
                Some (let! b := newBatchedTxn w [modRevisionUnchanged m] in
                      let! (b, r, err) := converge_and_commit b s (al_desired al) in
                      let next := match r with Some r => if next <? tr_Revision r then tr_Revision r else next | None => next end in
                      Ret (Await next al (b_world b) err))
            end
          else Some (Ret (Await next al w None))
      end
  end.
End allocate.
Arguments allocator AV : clear implicits.

(** ** What the leader issues *)

Section leader.
Context {MV IV AV : Type} `{!MemberValue MV} `{!ItemValue MV IV AV} {Sort : SliceSort}.
Context {W : Type} (txnDo : W → list Cmp → list Op → W * (TxnResponse + string)).
Abbreviation KV := (KeyValue (Entity MV IV AV)).

(** Convergence and commit are a batch of the checkpoints of the rounds. *)
Lemma converge_batch (s : State MV IV AV) desired b l :
  (let! (_, t', err) := @converge _ _ _ _ _ _ _ (batchedTxn_checkpointTxn (logged txnDo)) b s desired in Ret (t', err)) =
    @run_checkpoints _ (batchedTxn_checkpointTxn (logged txnDo)) b l →
  (let! (b, _, err) := converge_and_commit (logged txnDo) b s desired in Ret (b, err)) =
    @run_batch _ (batchedTxn_checkpointTxn (logged txnDo)) b l.
Proof.
  intros H. unfold converge_and_commit, run_batch. rewrite <- H. destruct (converge b s desired) as [[[g t] [err|]]|]; cbn [outcome_bind]; done.
Qed.

(** A state as it is observed, with counts and slots that do not overflow. *)
Record observed_ok (s : State MV IV AV) : Prop := {
  ob_state : state_ok s;
  ob_assignments : assignments_ok (ks_Root (KS s)) (Assignments s);
  ob_sorted : StronglySorted assignment_lt (asn <$> Assignments s);
  ob_slots : Forall (λ x, 0 ≤ asn_slot x < MaxInt64) (Assignments s);
  ob_bound : ∀ x, x ∈ Items s → next_slot (item_row (Assignments s) x) + 1048576 ≤ MaxInt64;
  ob_counts : counting s (mkeys (ks_Root (KS s)) (attached (Assignments s) (Items s)));
  ob_len : Z.of_nat (length (attached (Assignments s) (Items s))) + 1048576 ≤ MaxInt64;
}.

(** What is solved for can be converged to. *)
Lemma solved_converge_ok fuel (s : State MV IV AV) l : observed_ok s → solve fuel s = Some (Ret l) → converge_ok s l.
Proof.
  intros Hs Hl. destruct (solve_spec s (ob_state _ Hs) fuel l Hl) as ((_ & Hex & _) & _ & Hsort & Hadd & Hlen). destruct Hs as [Hst ? ? ? Hb ? ?].
  split; [apply Hst|done|done|done|done|done| | |done|lia].
  - intros d Hd. by destruct (Hex d Hd).
  - intros x Hx. specialize (Hb x Hx). lia.
Qed.

Lemma resolve_ok fuel (s : State MV IV AV) al al' : observed_ok s → (NetworkHash s = al_lastNetworkHash al → converge_ok s (al_desired al)) →
  resolve fuel s al = Some (Ret al') → al_lastNetworkHash al' = NetworkHash s ∧ converge_ok s (al_desired al').
Proof.
  intros Hs Hal. unfold resolve. destruct (Z.eqb_spec (NetworkHash s) (al_lastNetworkHash al)) as [Heq|_]; [intros [= <-]; by auto|].
  destruct (solve fuel s) as [[l|]|] eqn:Hl; [|done..]. intros [= <-]. split; [done|]. by eapply solved_converge_ok.
Qed.

(** An iteration of the leader brings an observed state closer to assignments that it has
    solved for, anew or before at the same members and items. It issues to Etcd the checkpoints
    of a round for every item and of the assignments without item, in order, up to the first
    transaction that is not accepted. Each of the transactions compares that the leader's own
    key is unchanged. It keeps what it desires, for the network that it desires it for, and
    awaits a revision that is past the one it observed. *)
Theorem leader_iteration fuel w (s : State MV IV AV) al al' ind m :
  LocalMemberInd s = Some ind → Members s !! ind = Some m → shouldExit s = Ret false → isLeader s = true →
  observed_ok s → (NetworkHash s = al_lastNetworkHash al → converge_ok s (al_desired al)) → Items s ≠ [] →
  is_int64 (rh_Revision (ks_Header (KS s)) + 1) → resolve fuel s al = Some (Ret al') →
  ∃ next b err rounds (tail : list KV),
    allocate_iteration (logged txnDo) fuel (w, []) s al = Some (Ret (Await next al' (b_world b) err)) ∧
    issues [modRevisionUnchanged m] (concat (round_checkpoints s <$> rounds) ++ dead_checkpoints (ks_Root (KS s)) tail) b err ∧
    r_item <$> rounds = Items s ∧ Forall (round_edits s (al_desired al')) rounds ∧
    al_lastNetworkHash al' = NetworkHash s ∧ converge_ok s (al_desired al') ∧ rh_Revision (ks_Header (KS s)) < next.
Proof.
  intros Hi Hm Hx Hl Hobs Hal Hne Hrev Hres. destruct (resolve_ok _ _ _ _ Hobs Hal Hres) as [Hh Hok].
  unfold allocate_iteration. rewrite Hi, Hx, Hl, Hres, Hm.
  destruct (converge_spec (HT := batchedTxn_checkpointTxn (logged txnDo)) (HL := batchedTxn_laws (logged txnDo)) s (al_desired al') Hok)
    as (rounds & tail & Hrun & Hit & _ & _ & _ & Hed & _).
  set (cps := concat (round_checkpoints s <$> rounds) ++ dead_checkpoints (ks_Root (KS s)) tail) in *.
  set (b0 := mkBatched (w, @nil entry) [] [] [] [] [modRevisionUnchanged m] true).
  assert (newBatchedTxn (w, @nil entry) [modRevisionUnchanged m] = Ret b0) as Hnew by done.
  assert (cps ≠ []) as Hcps.
  { destruct rounds as [|r rounds]; [by destruct Hne|]. unfold cps, round_checkpoints. cbn [fmap list_fmap concat]. rewrite <- !app_assoc.
    intros [_ [=]]%app_nil. }
  destruct (run_batch_issues txnDo [modRevisionUnchanged m] cps [] [] [] b0) as (b & err & Hb & Hiss); [|by left|].
  { split; cbn; try done; [by right|]. intros. split; [lia|done]. }
  pose proof (converge_batch s (al_desired al') b0 cps (Hrun b0)) as Hcb.
  assert (∃ r, converge_and_commit (logged txnDo) b0 s (al_desired al') = Ret (b, r, err)) as [r Hcc].
  { destruct (converge_and_commit (logged txnDo) b0 s (al_desired al')) as [[[b' r] err']|] eqn:E; cbn [outcome_bind] in Hcb.
    - exists r. assert (Ret (b', err') = Ret (b, err)) as [= -> ->]; [|done]. rewrite Hcb. exact Hb.
    - exfalso. assert (@Panic (batchedTxn (W * list entry) * option string) msg = Ret (b, err)); [|done]. rewrite Hcb. exact Hb. }
  rewrite Hnew. cbn [outcome_bind]. rewrite Hcc. cbn [outcome_bind].
  eexists _, b, err, rounds, tail. split; [reflexivity|]. split; [exact Hiss|]. split_and!; [done..|].
  rewrite int64_id by done. destruct r as [r|]; [|lia]. case_match; lia.
Qed.
End leader.

Lemma demo_observed_ok : observed_ok Demo.state.
Proof.
  pose proof demo_converge_ok as [? ? ? ? ? ? ? Hb ? ?]. split; [exact demo_state_ok|done|done|done| |done|vm_compute; discriminate].
  intros x Hx. change (Items Demo.state) with [Demo.item "x" 4 2; Demo.item "y" 5 1] in Hx. rewrite !elem_of_cons, elem_of_nil in Hx.
  destruct Hx as [-> |[-> |[]]]; vm_compute; discriminate.
Qed.

(** An allocator that starts, and what it has then solved for. *)
Definition demo_allocator : allocator unit := mkAllocator [] 0.
Definition demo_resolved : allocator unit := mkAllocator demo_solved (NetworkHash Demo.state).

Lemma leader_iteration_witness :
  ∃ next b err, allocate_iteration (logged refuse_second) 1000 (0%nat, []) Demo.state demo_allocator = Some (Ret (Await next demo_resolved (b_world b) err)) ∧
    0 < next.
Proof.
  destruct (leader_iteration refuse_second 1000 0%nat Demo.state demo_allocator demo_resolved 1%nat (Demo.member "A" "three" 2 5)) as (next & b & err & rounds & tail & Hal & _ & _ & _ & _ & _ & Hn);
    [reflexivity|reflexivity|reflexivity|vm_compute; reflexivity|exact demo_observed_ok|vm_compute; discriminate|discriminate|vm_compute; split; discriminate|vm_compute; reflexivity|].
  exists next, b, err. split; [exact Hal|exact Hn].
Defined.
