(* ===== verification/Resolver.v ===== *)
(** * Brokers' key space and resolution of journals (src/v2/pkg/broker/key_space.go, resolver.go,
      src/v2/pkg/protocol/route_extensions.go, broker_spec_extensions.go)

    The allocator's items are here journals, its members brokers and its assignments routes. A [resolver] maps a
    journal to the broker that serves a request, by the key space at a revision it waits for, and holds the
    replicas of the journals that are assigned to this broker. The theorems: what a resolution tells its
    caller, that the replicas are those of the assigned journals, and that a request which resolves to this broker
    finds its replica. Replicas, unmarshalling and Etcd's client are parameters. *)
From S2P Require Import Prelude Protocol Labels JournalSpec KeySpace AllocKeys AllocState.
From Stdlib Require Import Ascii.
Local Open Scope Z_scope.

(** ** Brokers *)

Record ProcessSpec := mkProcessSpec { ps_Id : ProcessSpec_ID; ps_Endpoint : string }.
Record BrokerSpec := mkBrokerSpec { bs_ProcessSpec : ProcessSpec; JournalLimit : Z }.

Definition maxBrokerJournalLimit : Z := Z.shiftl 1 17.

Definition ProcessSpec_Validate `{UrlParser} (m : ProcessSpec) : option ValidationError :=
  ExtendContext (ProcessSpec_ID_Validate (ps_Id m)) "Id"
  elif ExtendContext (Endpoint_Validate (ps_Endpoint m)) "Endpoint".

Definition BrokerSpec_Validate `{UrlParser} (m : BrokerSpec) : option ValidationError :=
  ProcessSpec_Validate (bs_ProcessSpec m)
  elif failIf (maxBrokerJournalLimit <? JournalLimit m) "invalid JournalLimit (%d; expected 0 <= JournalLimit <= %d)".

Definition ZeroLimit (m : BrokerSpec) : BrokerSpec := mkBrokerSpec (bs_ProcessSpec m) 0.

#[global] Instance BrokerSpec_MemberValue : MemberValue BrokerSpec := {| ItemLimit := JournalLimit |}.

Abbreviation BEntity := (Entity BrokerSpec JournalSpec Route).
Abbreviation BKV := (KeyValue BEntity).

(** ** Routes *)

Definition route_step (m : Route) (kv : BKV) : outcome Route :=
  match Decoded kv with
  | EntityAssignment a =>
      Ret (mkRoute (Protocol.Members m ++ [mkProcessID (as_MemberZone a) (as_MemberSuffix a)])
             (if as_Slot a =? 0 then int32 (Z.of_nat (length (Protocol.Members m))) else Primary m) (Endpoints m))
  | _ => Panic "interface conversion"
  end.

Definition Route_Init (assignments : list BKV) : outcome Route := outcome_fold route_step (mkRoute [] (-1) []) assignments.

Definition endpoint_of (root : string) (kvs : list BKV) (b : ProcessSpec_ID) : outcome string :=
  let! m := LookupMember root kvs (Zone b) (Suffix b) in
  Ret (match m with Some m => ps_Endpoint (bs_ProcessSpec (mb_Value m)) | None => "" end).

Definition AttachEndpoints (m : Route) (root : string) (kvs : list BKV) : outcome Route :=
  let! eps := outcome_fold (λ eps b, let! ep := endpoint_of root kvs b in Ret (eps ++ [ep])) [] (Protocol.Members m) in
  Ret (mkRoute (Protocol.Members m) (Primary m) eps).

(** Of assignments, which have a decoded route. *)
Definition JournalSpec_IsConsistent (assignments : list BKV) : bool :=
  match Route_Init assignments with
  | Panic _ => false
  | Ret rt => forallb (λ kv, match Decoded kv with EntityAssignment a => Route_Equivalent rt (as_Value a) | _ => false end) assignments
  end.

#[global] Instance JournalSpec_ItemValue : ItemValue BrokerSpec JournalSpec Route :=
  {| DesiredReplication := Replication; IsConsistent := λ _ _, JournalSpec_IsConsistent |}.

(** ** Decoding *)

Section decoder.
Context `{UrlParser, MimeParser}.
Context (Unmarshal_JournalSpec : string → JournalSpec + string) (Unmarshal_BrokerSpec : string → BrokerSpec + string)
  (Unmarshal_Route : string → Route + string).

Definition broker_DecodeItem (id : string) (raw : RawKV) : JournalSpec + string :=
  match Unmarshal_JournalSpec (k_Value raw) with
  | inr err => inr err
  | inl s =>
      match JournalSpec_Validate s with
      | Ret (Some err) => inr (Err err)
      | Panic msg => inr msg
      | Ret None => if negb (String.eqb (js_Name s) id) then inr "JournalSpec Name doesn't match Item ID (%+v vs %+v)" else inl s
      end
  end.

Definition broker_DecodeMember (zone suffix : string) (raw : RawKV) : BrokerSpec + string :=
  match Unmarshal_BrokerSpec (k_Value raw) with
  | inr err => inr err
  | inl s =>
      match BrokerSpec_Validate s with
      | Some err => inr (Err err)
      | None =>
          let id := ps_Id (bs_ProcessSpec s) in
          if negb (String.eqb (Zone id) zone) then inr "BrokerSpec Zone doesn't match Member Zone (%+v vs %+v)"
          else if negb (String.eqb (Suffix id) suffix) then inr "BrokerSpec Suffix doesn't match Member Suffix (%+v vs %+v)"
          else inl s
      end
  end.

Definition broker_DecodeAssignment (itemID memberZone memberSuffix : string) (slot : Z) (raw : RawKV) : Route + string :=
  if String.eqb (k_Value raw) "" then inl (mkRoute [] (-1) [])
  else
    match Unmarshal_Route (k_Value raw) with
    | inr err => inr err
    | inl s => match Route_Validate s with Some err => inr (Err err) | None => inl s end
    end.

Definition broker_decoder : Decoder BrokerSpec JournalSpec Route :=
  {| DecodeItem := broker_DecodeItem; DecodeMember := broker_DecodeMember; DecodeAssignment := broker_DecodeAssignment |}.
End decoder.

(** ** The resolver *)

Record resolveArgs := mkResolveArgs {
  ra_journal : Journal;
  ra_mayProxy : bool;
  ra_requirePrimary : bool;
  ra_requireFullAssignment : bool;
  ra_minEtcdRevision : Z;
  ra_proxyHeader : option Header;
}.

Section resolver.
Context {replica : Type}.
Context (GetPrefixRangeEnd : string → string).
(** A replica that is made, of a journal; [n] tells replicas apart. *)
Context (newReplica : Journal → nat → replica).

(** [rv_made] counts replicas, [rv_wg] those that are not yet done; [rv_pulsed] and [rv_cancelled] are those that were signalled and stopped. *)
Record resolver := mkResolver {
  rv_state : State BrokerSpec JournalSpec Route;
  rv_replicas : gmap Journal replica;
  rv_made : nat;
  rv_wg : nat;
  rv_pulsed : list replica;
  rv_cancelled : list replica;
}.

Record resolution := mkResolution {
  res_status : Status;
  res_Header : Header;
  res_journalSpec : option JournalSpec;
  res_assignments : list BKV;
  res_replica : option replica;
}.

Definition newResolver (s : State BrokerSpec JournalSpec Route) : resolver := mkResolver s ∅ 0 0 [] [].

Definition missingID : ProcessSpec_ID := mkProcessID "local-BrokerSpec" "missing-from-Etcd".
Definition zeroID : ProcessSpec_ID := mkProcessID "" "".

Definition localID (r : resolver) : outcome ProcessSpec_ID :=
  match LocalMemberInd (rv_state r) with
  | None => Ret missingID
  | Some ind => let! m := memberAt (Members (rv_state r)) ind in Ret (ps_Id (bs_ProcessSpec (mb_Value m)))
  end.

Abbreviation ks_of r := (KS (rv_state r)).
Definition revision_of (r : resolver) : Z := rh_Revision (ks_Header (ks_of r)).

(** [WaitForRevision]: the states it wakes up in, each with the error of the context; [None] while it waits. *)
Fixpoint WaitForRevision (r : resolver) (ctx : option string) (revision : Z) (wakes : list (resolver * option string))
    : option (resolver * option string) :=
  if revision <=? revision_of r then Some (r, None)
  else match ctx with
       | Some err => Some (r, Some err)
       | None => match wakes with [] => None | (r, ctx) :: wakes => WaitForRevision r ctx revision wakes end
       end.

Definition FromEtcdResponseHeader (h : ResponseHeader) : Header_Etcd :=
  mkEtcd (rh_ClusterId h) (rh_MemberId h) (rh_Revision h) (rh_RaftTerm h).

(** The checks of the header of a proxying peer, and the revision to wait for. *)
Definition check_proxy (r : resolver) (local : ProcessSpec_ID) (args : resolveArgs) : Z + string :=
  match ra_proxyHeader args with
  | None => inl (ra_minEtcdRevision args)
  | Some hdr =>
      if negb (ClusterId (Etcd hdr) =? rh_ClusterId (ks_Header (ks_of r))) then
        inr "proxied request Etcd ClusterId doesn't match our own (%d vs %d)"
      else if negb (bool_decide (ProcessId hdr = zeroID)) && negb (bool_decide (ProcessId hdr = local)) then
        inr "proxied request ProcessId doesn't match our own (%s vs %s)"
      else inl (if ra_minEtcdRevision args <? Revision (Etcd hdr) then Revision (Etcd hdr) else ra_minEtcdRevision args)
  end.

Definition select_process (args : resolveArgs) (rt : Route) (local : ProcessSpec_ID) : outcome ProcessSpec_ID :=
  if ra_requirePrimary args then
    if negb (Primary rt =? -1) then
      match Protocol.Members rt !! Z.to_nat (Primary rt) with Some id => Ret id | None => Panic "index out of range" end
    else Ret zeroID
  else Ret (if existsb (λ m, bool_decide (m = local)) (Protocol.Members rt) then local else zeroID).

Definition select_status (args : resolveArgs) (spec : option JournalSpec) (rt : Route) (local process : ProcessSpec_ID) : Status :=
  match spec with
  | None => JOURNAL_NOT_FOUND
  | Some spec =>
      if ra_requirePrimary args && (Primary rt =? -1) then NO_JOURNAL_PRIMARY_BROKER
      else if (length (Protocol.Members rt) =? 0)%nat then INSUFFICIENT_JOURNAL_BROKERS
      else if ra_requireFullAssignment args && (Z.of_nat (length (Protocol.Members rt)) <? Replication spec) then INSUFFICIENT_JOURNAL_BROKERS
      else if negb (ra_mayProxy args) && negb (bool_decide (process = local)) then
        if ra_requirePrimary args then NOT_JOURNAL_PRIMARY_BROKER else NOT_JOURNAL_BROKER
      else Status_OK
  end.

(** At the revision that was waited for. *)
Definition resolve_at (r : resolver) (local : ProcessSpec_ID) (args : resolveArgs) : outcome resolution :=
  let root := ks_Root (ks_of r) in
  let kvs := ks_KeyValues (ks_of r) in
  let! item := LookupItem root kvs (ra_journal args) in
  let spec := it_Value <$> item in
  let! prefix := ItemAssignmentsPrefix root (ra_journal args) in
  let assignments := Prefixed GetPrefixRangeEnd kvs prefix in
  let! rt := Route_Init assignments in
  let! rt := AttachEndpoints rt root kvs in
  let! process := select_process args rt local in
  let rep := if bool_decide (process = local) then rv_replicas r !! ra_journal args else None in
  let status := select_status args spec rt local process in
  let process := if bool_decide (status = Status_OK) then process else local in
  Ret (mkResolution status (mkHeader process rt (FromEtcdResponseHeader (ks_Header (ks_of r)))) spec assignments rep).

Definition resolve (r : resolver) (ctx : option string) (args : resolveArgs) (wakes : list (resolver * option string))
    : outcome (option (resolution + string)) :=
  let! local := localID r in
  match check_proxy r local args with
  | inr err => Ret (Some (inr err))
  | inl rev =>
      match (if revision_of r <? rev then WaitForRevision r ctx rev wakes else Some (r, None)) with
      | None => Ret None
      | Some (_, Some err) => Ret (Some (inr err))
      | Some (r, None) => let! res := resolve_at r local args in Ret (Some (inl res))
      end
  end.

(** One local item of [updateResolutions]: the remaining replicas and the next ones. The signal
    to a replica does not block. *)
Definition update_item (acc : resolver * gmap Journal replica) (li : LocalItem BrokerSpec JournalSpec Route)
    : outcome (resolver * gmap Journal replica) :=
  let '(r, next) := acc in
  match Decoded (li_Item li) with
  | EntityItem item =>
      let! asn := assignmentAt (li_Assignments li) (li_Index li) in
      let name := it_ID item in
      let '(r, rep) :=
        match rv_replicas r !! name with
        | None => let rep := newReplica name (rv_made r) in
                  (mkResolver (rv_state r) (rv_replicas r) (S (rv_made r)) (S (rv_wg r)) (rv_pulsed r) (rv_cancelled r), rep)
        | Some rep => (mkResolver (rv_state r) (delete name (rv_replicas r)) (rv_made r) (rv_wg r) (rv_pulsed r) (rv_cancelled r), rep)
        end in
      let pulse := (as_Slot asn =? 0) && negb (JournalSpec_IsConsistent (li_Assignments li)) in
      Ret (mkResolver (rv_state r) (rv_replicas r) (rv_made r) (rv_wg r)
             (if pulse then rv_pulsed r ++ [rep] else rv_pulsed r) (rv_cancelled r), <[name := rep]> next)
  | _ => Panic "interface conversion"
  end.

Definition cancelReplicas (r : resolver) (m : gmap Journal replica) : resolver :=
  mkResolver (rv_state r) (rv_replicas r) (rv_made r) (rv_wg r) (rv_pulsed r) (rv_cancelled r ++ (map_to_list m).*2).

Definition updateResolutions (r : resolver) : outcome resolver :=
  let! (r, next) := outcome_fold update_item (r, ∅) (LocalItems (rv_state r)) in
  let prev := rv_replicas r in
  Ret (cancelReplicas (mkResolver (rv_state r) next (rv_made r) (rv_wg r) (rv_pulsed r) (rv_cancelled r)) prev).
End resolver.
Arguments resolver replica : clear implicits.
Arguments resolution replica : clear implicits.

(** ** Routes of assignments *)

Definition id_of_asn (x : BKV) : ProcessSpec_ID :=
  match Decoded x with EntityAssignment a => mkProcessID (as_MemberZone a) (as_MemberSuffix a) | _ => zeroID end.

(** The index of the last of the assignments of slot zero. *)
Fixpoint primary_index (i : Z) (l : list BKV) : Z :=
  match l with
  | [] => -1
  | x :: l => let p := primary_index (i + 1) l in if p =? -1 then if asn_slot x =? 0 then i else -1 else p
  end.

Lemma primary_index_spec l : ∀ i, 0 ≤ i →
  (primary_index i l = -1 ∧ Forall (λ x, asn_slot x ≠ 0) l) ∨
  (i ≤ primary_index i l ∧ ∃ x, l !! Z.to_nat (primary_index i l - i) = Some x ∧ asn_slot x = 0).
Proof.
  induction l as [|x l IH]; intros i Hi; cbn [primary_index]; [left; by split|].
  destruct (IH (i + 1) ltac:(lia)) as [[-> Hl]|[Hle (y & Hy & Hs)]].
  - rewrite Z.eqb_refl. destruct (Z.eqb_spec (asn_slot x) 0); [right|left; by split; [|constructor]].
    split; [done|]. exists x. by rewrite Z.sub_diag.
  - right. destruct (Z.eqb_spec (primary_index (i + 1) l) (-1)); [lia|]. split; [lia|]. exists y. split; [|done].
    by replace (Z.to_nat (primary_index (i + 1) l - i)) with (S (Z.to_nat (primary_index (i + 1) l - (i + 1)))) by lia.
Qed.

Lemma primary_index_snoc l x i : 0 ≤ i →
  primary_index i (l ++ [x]) = if asn_slot x =? 0 then i + Z.of_nat (length l) else primary_index i l.
Proof.
  revert i. induction l as [|y l IH]; intros i Hi; cbn [app primary_index length].
  { destruct (asn_slot x =? 0); simpl; [by rewrite Z.add_0_r|done]. }
  rewrite IH by lia. destruct (asn_slot x =? 0); [|done]. rewrite (proj2 (Z.eqb_neq _ _)) by lia. lia.
Qed.

(** Routes are of at most a few members. *)
Lemma Route_Init_spec (l : list BKV) : Forall (λ x, is_assignment x = true) l → Z.of_nat (length l) < 2 ^ 31 →
  Route_Init l = Ret (mkRoute (id_of_asn <$> l) (primary_index 0 l) []).
Proof.
  unfold Route_Init. induction l as [|x l IH] using rev_ind; intros Hf Hl; [done|].
  apply Forall_app in Hf as [Hf Hx]. apply Forall_cons in Hx as [Hx _]. rewrite length_app in Hl. cbn [length] in Hl.
  rewrite outcome_fold_app, IH by (done || lia). cbn [outcome_bind outcome_fold]. unfold route_step at 1. unfold is_assignment in Hx. destruct (Decoded x) as [| |a] eqn:Hd; try done.
  cbn [outcome_bind Protocol.Members Primary Endpoints]. rewrite fmap_app, primary_index_snoc by lia. unfold asn_slot. rewrite Hd.
  assert (id_of_asn x = mkProcessID (as_MemberZone a) (as_MemberSuffix a)) as <- by (unfold id_of_asn; by rewrite Hd). rewrite length_fmap.
  destruct (as_Slot a =? 0); [|done]. do 2 f_equal. unfold int32, wrapS. rewrite Z.add_0_l. rewrite Z.mod_small by (cbn; lia). cbn. lia.
Qed.

(** ** Keys of an item's assignments *)

Lemma prefix_cons c s d t : String.prefix (String c s) (String d t) = Ascii.eqb c d && String.prefix s t.
Proof. cbn [String.prefix]. destruct (ascii_dec c d) as [-> |Hne]; [by rewrite Ascii.eqb_refl|]. destruct (Ascii.eqb_spec c d); done. Qed.

Lemma above_not_sep d : (N_of_ascii SepByte < N_of_ascii d)%N → Ascii.eqb SepByte d = false.
Proof. intros H. destruct (Ascii.eqb_spec SepByte d) as [<- |]; [by apply N.lt_irrefl in H|done]. Qed.

Lemma prefix_sep j id rest : above_sep j = true → above_sep id = true →
  String.prefix (j ++ Sep) (id ++ Sep ++ rest) = String.eqb id j.
Proof.
  revert id. induction j as [|c j IH]; intros [|d id] Hj Hi.
  - change (String.prefix (String SepByte "") (String SepByte rest) = true). rewrite prefix_cons. by destruct rest.
  - apply above_sep_cons in Hi as [Hi _]. change (String.prefix (String SepByte "") (String d (id ++ Sep ++ rest)) = false).
    by rewrite prefix_cons, above_not_sep.
  - apply above_sep_cons in Hj as [Hj _]. change (String.prefix (String c (j ++ Sep)) (String SepByte rest) = false).
    by rewrite prefix_cons, Ascii.eqb_sym, above_not_sep.
  - apply above_sep_cons in Hj as [_ Hj], Hi as [_ Hi]. change (String.prefix (String c (j ++ Sep)) (String d (id ++ Sep ++ rest)) = String.eqb (String d id) (String c j)).
    rewrite prefix_cons, IH by done. cbn [String.eqb]. rewrite Ascii.eqb_sym. by destruct (Ascii.eqb d c).
Qed.

Lemma prefix_strip root p q : String.prefix (root ++ p) (root ++ q) = String.prefix p q.
Proof.
  induction root as [|c root IH]; [done|]. change (String.prefix (String c (root ++ p)) (String c (root ++ q)) = String.prefix p q).
  by rewrite prefix_cons, Ascii.eqb_refl.
Qed.

Definition asn_of (journal : Journal) (x : BKV) : bool := is_assignment x && String.eqb (asn_item x) journal.

Lemma asn_prefix root journal (x : BKV) : above_sep journal = true → entity_key root (Decoded x) = Ret (k_Key (Raw x)) →
  String.prefix (root ++ AssignmentsPrefix ++ journal ++ Sep) (k_Key (Raw x)) = asn_of journal x.
Proof.
  intros Hj Hk. unfold asn_of, is_assignment, asn_item. destruct (Decoded x) as [m|i|a]; cbn [entity_key andb] in *.
  - apply MemberKey_Ret in Hk as (_ & _ & ->). by rewrite prefix_strip.
  - unfold ItemKey, assertAboveSep in Hk. destruct (above_sep (it_ID i)); [|done]. injection Hk as <-. by rewrite prefix_strip.
  - apply AssignmentKey_Ret in Hk as (Hi & _ & _ & ->). rewrite !prefix_strip. by apply prefix_sep.
Qed.

Lemma item_assignments GetPrefixRangeEnd root journal (kvs : list BKV) : entities_ok root kvs → above_sep journal = true →
  ends_prefix GetPrefixRangeEnd (root ++ AssignmentsPrefix ++ journal ++ Sep) →
  Prefixed GetPrefixRangeEnd kvs (root ++ AssignmentsPrefix ++ journal ++ Sep) = filter (asn_of journal) kvs.
Proof.
  intros [Hs Hk] Hj He. apply Prefixed_filter; [done| |done]. intros x Hx. rewrite Forall_forall in Hk. apply asn_prefix; auto.
Qed.

(** ** Lookups *)

Section lookups.
Context (root : string) (kvs : list BKV) (Hok : entities_ok root kvs).

Lemma key_entity x : x ∈ kvs → entity_key root (Decoded x) = Ret (k_Key (Raw x)).
Proof. destruct Hok as [_ Hk]. rewrite Forall_forall in Hk. auto. Qed.

Lemma LookupItem_spec id : above_sep id = true →
  ∃ item, LookupItem root kvs id = Ret item ∧
    match item with
    | Some it => it_ID it = id ∧ ∃ x, x ∈ kvs ∧ Decoded x = EntityItem it
    | None => ∀ x it, x ∈ kvs → Decoded x = EntityItem it → it_ID it ≠ id
    end.
Proof.
  intros Hid. unfold LookupItem, ItemKey, assertAboveSep. rewrite Hid. cbn [outcome_bind].
  pose proof (Search_member kvs (root ++ ItemsPrefix ++ id)%string (proj1 Hok)) as Hs. destruct (Search kvs _) as [ind [|]].
  - destruct Hs as (x & Hx & Hkey). unfold itemAt. rewrite Hx. assert (x ∈ kvs) as Hin by (by apply (list_elem_of_lookup_2 _ ind)).
    pose proof (key_entity x Hin) as Hk. destruct (entity_prefixes root x Hk) as (_ & Hi & _). rewrite Hkey, <- str_app_assoc, prefix_app in Hi.
    unfold is_item in Hi. destruct (Decoded x) as [|it|] eqn:Hd; try done. cbn [outcome_bind]. eexists. split; [done|]. cbn [entity_key] in Hk.
    unfold ItemKey, assertAboveSep in Hk. destruct (above_sep (it_ID it)); [|done]. injection Hk as Hk. rewrite Hkey in Hk.
    split; [|by exists x]. by apply (inj (String.append root)), (inj (String.append ItemsPrefix)) in Hk.
  - eexists. split; [done|]. intros x it Hin Hd <-. apply (Hs x Hin). pose proof (key_entity x Hin) as Hk. rewrite Hd in Hk. cbn [entity_key] in Hk.
    unfold ItemKey, assertAboveSep in Hk. rewrite Hid in Hk. by injection Hk.
Qed.

(** The endpoint of a member of a route: that of the broker of its key, if there is one. *)
Definition endpoint_ok (b : ProcessSpec_ID) (ep : string) : Prop :=
  match MemberKey root (Zone b) (Suffix b) with
  | Panic _ => False
  | Ret key =>
      (∃ x m, x ∈ kvs ∧ k_Key (Raw x) = key ∧ Decoded x = EntityMember m ∧ ep = ps_Endpoint (bs_ProcessSpec (mb_Value m))) ∨
      ep = "" ∧ ∀ x, x ∈ kvs → k_Key (Raw x) ≠ key
  end.

Lemma endpoint_of_spec b : above_sep (Zone b) = true → above_sep (Suffix b) = true →
  ∃ ep, endpoint_of root kvs b = Ret ep ∧ endpoint_ok b ep.
Proof.
  intros Hz Hs. unfold endpoint_of, endpoint_ok, LookupMember, MemberKey, assertAboveSep. rewrite Hz, Hs. cbn [outcome_bind].
  set (key := (root ++ MembersPrefix ++ Zone b ++ Sep ++ Suffix b)%string).
  pose proof (Search_member kvs key (proj1 Hok)) as Hf. destruct (Search kvs key) as [ind [|]].
  - destruct Hf as (x & Hx & Hkey). unfold memberAt. rewrite Hx. assert (x ∈ kvs) as Hin by (by apply (list_elem_of_lookup_2 _ ind)).
    destruct (entity_prefixes root x (key_entity x Hin)) as (Hi & _ & _). rewrite Hkey in Hi. unfold key in Hi. rewrite <- str_app_assoc, prefix_app in Hi.
    unfold is_member in Hi. destruct (Decoded x) as [m| |] eqn:Hd; try done. cbn [outcome_bind]. eexists. split; [done|]. left. by exists x, m.
  - cbn [outcome_bind]. eexists. split; [done|]. right. by split.
Qed.

Lemma AttachEndpoints_spec rt :
  Forall (λ b, above_sep (Zone b) = true ∧ above_sep (Suffix b) = true) (Protocol.Members rt) →
  ∃ eps, AttachEndpoints rt root kvs = Ret (mkRoute (Protocol.Members rt) (Primary rt) eps) ∧ Forall2 endpoint_ok (Protocol.Members rt) eps.
Proof.
  unfold AttachEndpoints. destruct rt as [ms p eps0]. cbn [Protocol.Members Primary]. intros Hms.
  assert (∀ acc, ∃ eps, outcome_fold (λ eps b, let! ep := endpoint_of root kvs b in Ret (eps ++ [ep])) acc ms = Ret (acc ++ eps) ∧ Forall2 endpoint_ok ms eps) as H.
  { induction Hms as [|b ms [Hz Hs] _ IH]; intros acc; [exists []; by rewrite app_nil_r|]. cbn [outcome_fold].
    destruct (endpoint_of_spec b Hz Hs) as (ep & -> & Hep). cbn [outcome_bind]. destruct (IH (acc ++ [ep])) as (eps & -> & Heps).
    exists (ep :: eps). rewrite <- app_assoc. split; [done|by constructor]. }
  destruct (H []) as (eps & -> & Heps). by exists eps.
Qed.

(** ** The route of a journal *)

Lemma asn_above journal x : x ∈ filter (asn_of journal) kvs → is_assignment x = true ∧ asn_item x = journal ∧
  above_sep (Zone (id_of_asn x)) = true ∧ above_sep (Suffix (id_of_asn x)) = true.
Proof.
  intros [Ha Hin]%list_elem_of_filter. unfold asn_of in Ha. pose proof (key_entity x Hin) as Hk.
  unfold is_assignment, asn_item, id_of_asn in *. destruct (Decoded x) as [| |a]; try done. cbn [entity_key] in Hk.
  apply AssignmentKey_Ret in Hk as (_ & Hz & Hs & _). cbn [andb] in Ha. destruct (String.eqb_spec (as_ItemID a) journal); done.
Qed.

Lemma journal_route journal : Z.of_nat (length kvs) < 2 ^ 31 →
  ∃ eps, let asn := filter (asn_of journal) kvs in let rt := mkRoute (id_of_asn <$> asn) (primary_index 0 asn) eps in
    (let! rt := Route_Init asn in AttachEndpoints rt root kvs) = Ret rt ∧ Forall2 endpoint_ok (Protocol.Members rt) eps.
Proof.
  intros Hl. pose proof (length_filter (asn_of journal) kvs) as Hlf. set (asn := filter (asn_of journal) kvs) in *.
  assert (Route_Init asn = Ret (mkRoute (id_of_asn <$> asn) (primary_index 0 asn) [])) as Hinit.
  { apply Route_Init_spec; [|lia]. apply Forall_forall. intros x Hx. by destruct (asn_above journal x Hx). }
  destruct (AttachEndpoints_spec (mkRoute (id_of_asn <$> asn) (primary_index 0 asn) [])) as (eps & Heq & Heps).
  - apply Forall_fmap, Forall_forall. intros x Hx. cbn. by destruct (asn_above journal x Hx) as (_ & _ & ? & ?).
  - exists eps. cbn zeta. by rewrite Hinit.
Qed.
End lookups.

(** Names of journals have no bytes of the separators of keys. *)
Lemma in_alphabet_above c : in_alphabet c = true → (N_of_ascii SepByte < N_of_ascii c)%N.
Proof.
  unfold in_alphabet. intros (x & Hx & Heq%Ascii.eqb_eq)%existsb_exists. subst x.
  assert (forallb (λ c, N_of_ascii SepByte <? N_of_ascii c)%N (String.list_ascii_of_string tokenAlphabet) = true) as Hall by reflexivity.
  rewrite forallb_forall in Hall. by apply N.ltb_lt, Hall.
Qed.

Lemma Journal_above j : Journal_Validate j = None → above_sep j = true.
Proof.
  unfold Journal_Validate. rewrite orElse_None. intros [Hv _]. unfold ValidateToken in Hv.
  destruct (_ || _); [done|]. destruct (Nat.eqb_spec (length (strings_Trim j in_alphabet)) 0) as [Hl|]; [|done]. apply nil_length_inv, strings_Trim_nil in Hl.
  unfold above_sep. apply forallb_forall. intros c Hc%list_elem_of_In. rewrite Forall_forall in Hl. apply N.ltb_lt, in_alphabet_above, Hl, Hc.
Qed.

(** ** Resolutions *)

(** A key space of the allocator's entities; ranges of Etcd's client end as documented. *)
Record kspace_ok (GetPrefixRangeEnd : string → string) (ks : KeySpace BEntity) : Prop := {
  kp_entities : entities_ok (ks_Root ks) (ks_KeyValues ks);
  kp_length : Z.of_nat (length (ks_KeyValues ks)) < 2 ^ 31;
  kp_journal journal : above_sep journal = true → ends_prefix GetPrefixRangeEnd (ks_Root ks ++ AssignmentsPrefix ++ journal ++ Sep);
  kp_kinds p : p ∈ [MembersPrefix; ItemsPrefix; AssignmentsPrefix] → ends_prefix GetPrefixRangeEnd (ks_Root ks ++ p);
}.

Section resolutions.
Context {replica : Type} (GetPrefixRangeEnd : string → string).

Abbreviation ks_of r := (KS (rv_state r)).

(** The assignments of a journal in the key space. *)
Definition assigned (r : resolver replica) (journal : Journal) : list BKV := filter (asn_of journal) (ks_KeyValues (ks_of r)).

(** What a resolution tells of the key space [r] that it was made of. *)
Record resolved (r : resolver replica) (local : ProcessSpec_ID) (args : resolveArgs) (res : resolution replica) : Prop := {
  rd_assignments : res_assignments res = assigned r (ra_journal args);
  rd_members : Protocol.Members (h_Route (res_Header res)) = id_of_asn <$> assigned r (ra_journal args);
  rd_primary : Primary (h_Route (res_Header res)) = primary_index 0 (assigned r (ra_journal args));
  rd_endpoints : Forall2 (endpoint_ok (ks_Root (ks_of r)) (ks_KeyValues (ks_of r)))
    (Protocol.Members (h_Route (res_Header res))) (Endpoints (h_Route (res_Header res)));
  rd_revision : Etcd (res_Header res) = FromEtcdResponseHeader (ks_Header (ks_of r));
  rd_spec : match res_journalSpec res with
    | Some spec => res_status res ≠ JOURNAL_NOT_FOUND ∧
        ∃ x, x ∈ ks_KeyValues (ks_of r) ∧ Decoded x = EntityItem (mkItem (ra_journal args) spec)
    | None => res_status res = JOURNAL_NOT_FOUND ∧
        ∀ x it, x ∈ ks_KeyValues (ks_of r) → Decoded x = EntityItem it → it_ID it ≠ ra_journal args
    end;
  rd_failed : res_status res ≠ Status_OK → ProcessId (res_Header res) = local;
  rd_nonempty : res_status res = Status_OK → assigned r (ra_journal args) ≠ [];
  rd_full : res_status res = Status_OK → ra_requireFullAssignment args = true →
    ∃ spec, res_journalSpec res = Some spec ∧ Replication spec ≤ Z.of_nat (length (assigned r (ra_journal args)));
  rd_toprimary : res_status res = Status_OK → ra_requirePrimary args = true →
    ∃ x, x ∈ assigned r (ra_journal args) ∧ asn_slot x = 0 ∧ ProcessId (res_Header res) = id_of_asn x;
  rd_toreplica : res_status res = Status_OK → ra_requirePrimary args = false →
    let member := ∃ x, x ∈ assigned r (ra_journal args) ∧ id_of_asn x = local in
    ProcessId (res_Header res) = local ∧ member ∨ ProcessId (res_Header res) = zeroID ∧ ¬ member;
  rd_direct : res_status res = Status_OK → ra_mayProxy args = false → ProcessId (res_Header res) = local;
  rd_replica : res_status res = Status_OK →
    res_replica res = if bool_decide (ProcessId (res_Header res) = local) then rv_replicas r !! ra_journal args else None;
}.

Lemma select_process_spec args (asn : list BKV) eps local :
  let rt := mkRoute (id_of_asn <$> asn) (primary_index 0 asn) eps in
  ∃ p, select_process args rt local = Ret p ∧
    (ra_requirePrimary args = true → Primary rt ≠ -1 → ∃ x, x ∈ asn ∧ asn_slot x = 0 ∧ p = id_of_asn x) ∧
    (ra_requirePrimary args = false → let member := ∃ x, x ∈ asn ∧ id_of_asn x = local in p = local ∧ member ∨ p = zeroID ∧ ¬ member).
Proof.
  intros rt. unfold select_process. destruct (ra_requirePrimary args); cbn [Protocol.Members Primary rt].
  - destruct (primary_index_spec asn 0 ltac:(done)) as [[-> _]|[Hle (x & Hx & Hs)]]; [by exists zeroID|].
    rewrite (proj2 (Z.eqb_neq _ _)) by lia. cbn [negb]. rewrite Z.sub_0_r in Hx. rewrite list_lookup_fmap, Hx. eexists. split; [done|].
    split; [|done]. intros _ _. exists x. split_and!; [by eapply list_elem_of_lookup_2|done|done].
  - eexists. split; [done|]. split; [done|]. intros _. destruct (existsb _ _) eqn:He; [left|right]; (split; [done|]).
    + apply existsb_exists in He as (b & Hb%list_elem_of_In & Heq%bool_decide_eq_true). subst b. apply list_elem_of_fmap in Hb as (x & -> & Hx). by exists x.
    + intros (x & Hx & <-). apply not_true_iff_false in He. apply He, existsb_exists. exists (id_of_asn x). split; [|by apply bool_decide_eq_true].
      apply list_elem_of_In, list_elem_of_fmap. by exists x.
Qed.

Lemma resolve_at_spec r local args : kspace_ok GetPrefixRangeEnd (ks_of r) → above_sep (ra_journal args) = true →
  ∃ res, resolve_at GetPrefixRangeEnd r local args = Ret res ∧ resolved r local args res.
Proof.
  intros [Hok Hlen Hend _] Hj. unfold resolve_at. set (root := ks_Root (ks_of r)) in *. set (kvs := ks_KeyValues (ks_of r)) in *.
  destruct (LookupItem_spec root kvs Hok (ra_journal args) Hj) as (item & -> & Hitem). cbn [outcome_bind].
  unfold ItemAssignmentsPrefix, assertAboveSep. rewrite Hj. cbn [outcome_bind].
  rewrite (item_assignments GetPrefixRangeEnd root (ra_journal args) kvs Hok Hj) by (by apply Hend).
  destruct (journal_route root kvs Hok (ra_journal args) Hlen) as (eps & Hrt & Heps). cbn zeta in Hrt.
  set (asn := filter (asn_of (ra_journal args)) kvs) in *. assert (assigned r (ra_journal args) = asn) as Hasn by done.
  destruct (Route_Init asn) as [rt0|]; [|done]. cbn [outcome_bind] in *. rewrite Hrt. cbn [outcome_bind].
  destruct (select_process_spec args asn eps local) as (p & -> & Hp1 & Hp2). cbn [outcome_bind].
  set (rt := mkRoute _ _ eps) in *. set (status := select_status args (it_Value <$> item) rt local p).
  eexists. split; [reflexivity|]. assert (status = Status_OK → ∃ it, item = Some it ∧ asn ≠ [] ∧ (ra_requirePrimary args = true → Primary rt ≠ -1) ∧
    (ra_requireFullAssignment args = true → Replication (it_Value it) ≤ Z.of_nat (length asn)) ∧ (ra_mayProxy args = false → p = local)) as HS.
  { unfold status, select_status. destruct item as [it|]; [|done]. cbn [fmap option_fmap option_map].
    destruct (ra_requirePrimary args && (Primary rt =? -1)) eqn:E1; [done|]. cbn [Protocol.Members rt]. rewrite length_fmap.
    destruct (Nat.eqb_spec (length asn) 0) as [|E2]; [done|]. destruct (ra_requireFullAssignment args && (_ <? _)) eqn:E3; [done|].
    destruct (negb _ && negb _) eqn:E4; [by destruct (ra_requirePrimary args)|]. intros _. exists it. split_and!; [done|by destruct asn|..]; intros E; rewrite E in *; cbn [andb negb] in *.
    - by apply Z.eqb_neq.
    - by apply Z.ltb_ge.
    - apply negb_false_iff, bool_decide_eq_true in E4. done. }
  split; cbn [res_assignments res_Header res_status res_journalSpec res_replica h_Route ProcessId Etcd Protocol.Members Primary Endpoints rt]; rewrite ?Hasn; try done.
  - destruct item as [it|]; cbn [fmap option_fmap option_map].
    + destruct Hitem as (Hid & x & Hx & Hd). split.
      * unfold status, select_status. cbn [fmap option_fmap option_map]. repeat case_match; done.
      * exists x. split; [done|]. rewrite Hd, <- Hid. by destruct it.
    + split; [done|]. exact Hitem.
  - intros Hne. by rewrite bool_decide_eq_false_2.
  - intros H. by destruct (HS H) as (it & _ & Hne & _).
  - intros H Hf. destruct (HS H) as (it & -> & _ & _ & Hfull & _). exists (it_Value it). split; [done|by apply Hfull].
  - intros H Hf. destruct (HS H) as (it & _ & _ & Hprim & _). rewrite bool_decide_eq_true_2 by done. auto.
  - intros H Hf. rewrite bool_decide_eq_true_2 by done. auto.
  - intros H Hf. rewrite bool_decide_eq_true_2 by done. destruct (HS H) as (it & _ & _ & _ & _ & Hd). auto.
  - intros H. by rewrite (bool_decide_eq_true_2 (status = Status_OK)).
Qed.

Lemma WaitForRevision_spec (r : resolver replica) ctx revision wakes :
  match WaitForRevision r ctx revision wakes with
  | None => Forall (λ r', revision_of r' < revision) (r :: wakes.*1)
  | Some (r', None) => r' ∈ r :: wakes.*1 ∧ revision ≤ revision_of r'
  | Some (r', Some err) => r' ∈ r :: wakes.*1 ∧ revision_of r' < revision ∧ Some err ∈ ctx :: wakes.*2
  end.
Proof.
  revert r ctx. induction wakes as [|[r1 c1] wakes IH]; intros r ctx; cbn [WaitForRevision].
  all: destruct (Z.leb_spec revision (revision_of r)); [split; [left|done]|]; destruct ctx as [e|]; [split_and!; [left|done|left]|].
  - constructor; [done|constructor].
  - specialize (IH r1 c1). cbn [fmap list_fmap fst snd]. destruct (WaitForRevision r1 c1 revision wakes) as [[r' [e|]]|].
    + destruct IH as (H1 & H2 & H3). split_and!; [by right|done|by right].
    + destruct IH as (H1 & H2). split; [by right|done].
    + by constructor.
Qed.

(** A request that no peer proxied, or a peer of the same cluster that meant this process. *)
Definition accepted (r : resolver replica) (local : ProcessSpec_ID) (args : resolveArgs) : Prop := ∀ hdr, ra_proxyHeader args = Some hdr →
  ClusterId (Etcd hdr) = rh_ClusterId (ks_Header (ks_of r)) ∧ (ProcessId hdr = zeroID ∨ ProcessId hdr = local).

(** A key space at the revisions that the caller and the peer read. *)
Definition reached (args : resolveArgs) (r : resolver replica) : Prop :=
  ra_minEtcdRevision args ≤ revision_of r ∧ ∀ hdr, ra_proxyHeader args = Some hdr → Revision (Etcd hdr) ≤ revision_of r.

Lemma resolve_spec r ctx args wakes local :
  Forall (λ r, kspace_ok GetPrefixRangeEnd (ks_of r)) (r :: wakes.*1) → above_sep (ra_journal args) = true → localID r = Ret local →
  ∃ out, resolve GetPrefixRangeEnd r ctx args wakes = Ret out ∧
    match out with
    | None => accepted r local args ∧ ∀ r', r' ∈ r :: wakes.*1 → ¬ reached args r'
    | Some (inr err) => ¬ accepted r local args ∨ Some err ∈ ctx :: wakes.*2
    | Some (inl res) => accepted r local args ∧ ∃ r', r' ∈ r :: wakes.*1 ∧ reached args r' ∧ resolved r' local args res
    end.
Proof.
  intros Hok Hj Hl. unfold resolve. rewrite Hl. cbn [outcome_bind].
  assert (match check_proxy r local args with
    | inr _ => ¬ accepted r local args | inl rev => accepted r local args ∧ ∀ r', reached args r' ↔ rev ≤ revision_of r' end) as Hc.
  { unfold check_proxy, accepted, reached. destruct (ra_proxyHeader args) as [hdr|] eqn:Hp.
    2:{ split; [done|]. intros r'. split; [by intros [? _]|]. intros ?. split; [done|by intros]. }
    destruct (Z.eqb_spec (ClusterId (Etcd hdr)) (rh_ClusterId (ks_Header (ks_of r)))) as [Hcl|Hcl]; cbn [negb].
    2:{ intros H. by destruct (H hdr eq_refl). }
    destruct (negb (bool_decide (ProcessId hdr = zeroID)) && negb (bool_decide (ProcessId hdr = local))) eqn:Hpr.
    { rewrite andb_true_iff, !negb_true_iff, !bool_decide_eq_false in Hpr. intros H. destruct (H hdr eq_refl) as [_ [?|?]]; tauto. }
    split.
    - intros ? [= <-]. split; [done|]. rewrite andb_false_iff, !negb_false_iff, !bool_decide_eq_true in Hpr. done.
    - intros r'. destruct (Z.ltb_spec (ra_minEtcdRevision args) (Revision (Etcd hdr))); (split; [intros [H1 H2]; specialize (H2 hdr eq_refl); lia|]); intros ?; (split; [lia|by intros ? [= <-]; lia]). }
  destruct (check_proxy r local args) as [rev|err]; [|eexists; split; [done|]; by left]. destruct Hc as [Hacc Hre].
  pose proof (WaitForRevision_spec r ctx rev wakes) as Hw.
  assert ((if revision_of r <? rev then WaitForRevision r ctx rev wakes else Some (r, None)) = WaitForRevision r ctx rev wakes) as ->.
  { destruct (Z.ltb_spec (revision_of r) rev); [done|]. destruct wakes as [|[]]; cbn [WaitForRevision]; by rewrite (proj2 (Z.leb_le _ _)). }
  destruct (WaitForRevision r ctx rev wakes) as [[r' [err|]]|].
  - eexists. split; [done|]. right. apply Hw.
  - destruct Hw as [Hin Hrev]. rewrite Forall_forall in Hok. destruct (resolve_at_spec r' local args (Hok r' Hin) Hj) as (res & -> & Hres).
    eexists. split; [done|]. split; [done|]. exists r'. split_and!; [done|by apply Hre|done].
  - eexists. split; [done|]. split; [done|]. intros r' Hin Hr'. rewrite Forall_forall in Hw. specialize (Hw r' Hin). apply Hre in Hr'. lia.
Qed.

(** C25: A resolution of a journal never panics. It fails if a proxying peer is of another cluster or meant another process,
    or with the error of its context; it waits while the key space is behind the revision that the
    caller or the peer has read. Otherwise it is of a key space at that revision or later, and tells: the route,
    of the journal's assignments in key order, with its primary and the endpoints of its members; a process that has
    the primary assignment, if the caller requires the primary; this process, if it is a member of the route, or
    if the caller cannot proxy; at least the replication of the journal, if the caller requires it. A
    resolution that is not OK is this broker's. *)
Theorem resolve_correct r ctx args wakes local :
  Forall (λ r, kspace_ok GetPrefixRangeEnd (ks_of r)) (r :: wakes.*1) → above_sep (ra_journal args) = true → localID r = Ret local →
  ∃ out, resolve GetPrefixRangeEnd r ctx args wakes = Ret out ∧
    match out with
    | None => accepted r local args ∧ ∀ r', r' ∈ r :: wakes.*1 → ¬ reached args r'
    | Some (inr err) => ¬ accepted r local args ∨ Some err ∈ ctx :: wakes.*2
    | Some (inl res) => accepted r local args ∧ ∃ r', r' ∈ r :: wakes.*1 ∧ reached args r' ∧ resolved r' local args res
    end.
Proof. apply resolve_spec. Qed.
End resolutions.

(** ** Replicas of local items *)

Section updates.
Context {replica : Type} (newReplica : Journal → nat → replica).
Abbreviation LItem := (LocalItem BrokerSpec JournalSpec Route).

Definition li_name (li : LItem) : Journal := id_of (li_Item li).
Definition li_ok (li : LItem) : Prop := is_item (li_Item li) = true ∧ ∃ a, assignmentAt (li_Assignments li) (li_Index li) = Ret a.

(** A primary whose route is not yet that of the journal. *)
Definition needs_pulse (li : LItem) : bool :=
  match assignmentAt (li_Assignments li) (li_Index li) with
  | Ret a => (as_Slot a =? 0) && negb (JournalSpec_IsConsistent (li_Assignments li))
  | Panic _ => false
  end.

(** The replica of an assigned journal: the one that there was, or a new one. *)
Definition kept_or_made (old : gmap Journal replica) (lo hi : nat) (j : Journal) (rep : option replica) : Prop :=
  match old !! j with
  | Some x => rep = Some x
  | None => ∃ n, (lo ≤ n < hi)%nat ∧ rep = Some (newReplica j n)
  end.

Record updated (r : resolver replica) (next : gmap Journal replica) (l : list LItem) (r' : resolver replica) (next' : gmap Journal replica) : Prop := {
  up_state : rv_state r' = rv_state r;
  up_cancelled : rv_cancelled r' = rv_cancelled r;
  up_left j : rv_replicas r' !! j = if decide (j ∈ li_name <$> l) then None else rv_replicas r !! j;
  up_next j : j ∉ li_name <$> l → next' !! j = next !! j;
  up_assigned j : j ∈ li_name <$> l → kept_or_made (rv_replicas r) (rv_made r) (rv_made r') j (next' !! j);
  up_made : rv_made r' = (rv_made r + length (filter (λ j, rv_replicas r !! j = None) (li_name <$> l)))%nat;
  up_wg : (rv_wg r' + rv_made r = rv_wg r + rv_made r')%nat;
  up_pulsed : rv_pulsed r' = rv_pulsed r ++ omap (λ li, if needs_pulse li then next' !! li_name li else None) l;
}.

Lemma filter_ext_in {A} (P Q : A → Prop) `{∀ x, Decision (P x)} `{∀ x, Decision (Q x)} (l : list A) :
  (∀ x, x ∈ l → P x ↔ Q x) → filter P l = filter Q l.
Proof.
  induction l as [|x l IH]; intros Hpq; [done|]. rewrite !filter_cons, IH by (intros; apply Hpq; by right).
  specialize (Hpq x ltac:(by left)). repeat case_decide; tauto.
Qed.

Lemma update_items_spec l : ∀ r next, Forall li_ok l → NoDup (li_name <$> l) →
  ∃ r' next', outcome_fold (update_item newReplica) (r, next) l = Ret (r', next') ∧ updated r next l r' next'.
Proof.
  induction l as [|li l IH]; intros r next Hok Hnd.
  { exists r, next. split; [done|]. split; try done; cbn; try (by rewrite app_nil_r); try lia; intros j; first [by rewrite decide_False by set_solver|set_solver]. }
  apply Forall_cons in Hok as [[Hi [a Ha]] Hok]. cbn [fmap list_fmap] in Hnd. apply NoDup_cons in Hnd as [Hni Hnd].
  cbn [outcome_fold]. unfold update_item at 1. unfold is_item in Hi. destruct (Decoded (li_Item li)) as [|it|] eqn:Hd; try done. rewrite Ha. cbn [outcome_bind].
  assert (it_ID it = li_name li) as Hname by (unfold li_name, id_of; by rewrite Hd). rewrite Hname. set (j0 := li_name li) in *.
  assert (needs_pulse li = (as_Slot a =? 0) && negb (JournalSpec_IsConsistent (li_Assignments li))) as Hpulse by (unfold needs_pulse; by rewrite Ha).
  rewrite <- Hpulse.
  assert (∀ r1 rep, rv_state r1 = rv_state r → rv_cancelled r1 = rv_cancelled r → rv_pulsed r1 = rv_pulsed r →
    (∀ j, rv_replicas r1 !! j = if decide (j = j0) then None else rv_replicas r !! j) → kept_or_made (rv_replicas r) (rv_made r) (rv_made r1) j0 (Some rep) →
    rv_made r1 = (rv_made r + length (filter (λ j, rv_replicas r !! j = None) [j0]))%nat → (rv_wg r1 + rv_made r = rv_wg r + rv_made r1)%nat →
    ∃ r' next', outcome_fold (update_item newReplica) (mkResolver (rv_state r1) (rv_replicas r1) (rv_made r1) (rv_wg r1)
      (if needs_pulse li then rv_pulsed r1 ++ [rep] else rv_pulsed r1) (rv_cancelled r1), <[j0 := rep]> next) l = Ret (r', next') ∧ updated r next (li :: l) r' next') as H.
  2:{ destruct (rv_replicas r !! j0) as [rep|] eqn:Hrep; cbn [outcome_bind]; apply H; try done; cbn [rv_replicas rv_made rv_wg].
    - intros j. destruct (decide (j = j0)) as [-> |]; [by rewrite lookup_delete_eq|by rewrite lookup_delete_ne].
    - unfold kept_or_made. by rewrite Hrep.
    - rewrite filter_cons_False by congruence. cbn. lia.
    - intros j. by destruct (decide (j = j0)) as [-> |].
    - unfold kept_or_made. rewrite Hrep. exists (rv_made r). split; [lia|done].
    - rewrite filter_cons_True by done. cbn. lia.
    - lia. }
  intros r1 rep E1 E2 E3 Hleft Hkm Hmade Hwg.
  edestruct (IH (mkResolver (rv_state r1) (rv_replicas r1) (rv_made r1) (rv_wg r1) (if needs_pulse li then rv_pulsed r1 ++ [rep] else rv_pulsed r1) (rv_cancelled r1))
    (<[j0 := rep]> next) Hok Hnd) as (r' & next' & -> & [U1 U2 U3 U4 U5 U6 U7 U8]). cbn [rv_state rv_replicas rv_made rv_wg rv_pulsed rv_cancelled] in *.
  assert (next' !! j0 = Some rep) as Hj0 by (rewrite U4 by done; by rewrite lookup_insert_eq).
  assert (filter (λ j, rv_replicas r1 !! j = None) (li_name <$> l) = filter (λ j, rv_replicas r !! j = None) (li_name <$> l)) as Hfil.
  { apply filter_ext_in. intros j Hj. rewrite Hleft, decide_False by (intros ->; done). done. }
  exists r', next'. split; [done|]. split.
  - congruence.
  - congruence.
  - intros j. rewrite U3, Hleft. cbn [fmap list_fmap]. repeat case_decide; try done; exfalso; set_solver.
  - intros j Hj. cbn [fmap list_fmap] in Hj. rewrite U4 by set_solver. rewrite lookup_insert_ne; [done|set_solver].
  - intros j Hj. cbn [fmap list_fmap] in Hj. apply elem_of_cons in Hj as [-> |Hj].
    + fold j0. rewrite Hj0. unfold kept_or_made in *. destruct (rv_replicas r !! j0); [done|]. destruct Hkm as (n & Hn & Hr). exists n. split; [lia|done].
    + specialize (U5 j Hj). unfold kept_or_made in *. rewrite Hleft, decide_False in U5 by (intros ->; done).
      destruct (rv_replicas r !! j); [done|]. destruct U5 as (n & Hn & Hr). exists n. split; [lia|done].
  - rewrite U6, Hfil, Hmade. cbn [fmap list_fmap]. rewrite !filter_cons. fold j0. case_decide; cbn; lia.
  - lia.
  - rewrite U8, E3. cbn [omap list_omap]. fold j0. rewrite Hj0. destruct (needs_pulse li); [by rewrite <- app_assoc|done].
Qed.

Lemma updateResolutions_spec (r : resolver replica) :
  let items := LocalItems (rv_state r) in let names := li_name <$> items in
  Forall li_ok items → NoDup names →
  ∃ r' stopped, updateResolutions newReplica r = Ret r' ∧ rv_state r' = rv_state r ∧
    (∀ j, j ∈ names → kept_or_made (rv_replicas r) (rv_made r) (rv_made r') j (rv_replicas r' !! j)) ∧
    (∀ j, j ∉ names → rv_replicas r' !! j = None) ∧
    rv_cancelled r' = rv_cancelled r ++ (stopped.*2) ∧ NoDup (stopped.*1) ∧
    (∀ j rep, (j, rep) ∈ stopped ↔ (j ∉ names) ∧ rv_replicas r !! j = Some rep) ∧
    rv_pulsed r' = rv_pulsed r ++ omap (λ li, if needs_pulse li then rv_replicas r' !! li_name li else None) items ∧
    rv_wg r' = (rv_wg r + length (filter (λ j, rv_replicas r !! j = None) names))%nat.
Proof.
  intros items names Hok Hnd. unfold updateResolutions. fold items.
  destruct (update_items_spec items r ∅ Hok Hnd) as (r1 & next & -> & [U1 U2 U3 U4 U5 U6 U7 U8]). cbn [outcome_bind].
  eexists _, (map_to_list (rv_replicas r1)). split; [done|]. unfold cancelReplicas. cbn [rv_state rv_replicas rv_made rv_wg rv_pulsed rv_cancelled].
  fold names in U3, U4, U5, U6. split_and!; [done|done| |by rewrite U2|apply NoDup_fst_map_to_list| |done|lia].
  - intros j Hj. by rewrite U4.
  - intros j rep. rewrite elem_of_map_to_list, U3. case_decide; naive_solver.
Qed.

(** After an update of the key space the replicas of a broker are those of the journals that are assigned to it:
    those it had are kept, the others are made, each once; replicas of journals that are no longer assigned are
    stopped, and those are the only ones; a replica is signalled if it is its journal's primary and the journal's routes are
    not consistent. The count of replicas that are to be waited for grows by those made. *)
Theorem updateResolutions_correct (r : resolver replica) :
  let items := LocalItems (rv_state r) in let names := li_name <$> items in
  Forall li_ok items → NoDup names →
  ∃ r' stopped, updateResolutions newReplica r = Ret r' ∧ rv_state r' = rv_state r ∧
    (∀ j, j ∈ names → kept_or_made (rv_replicas r) (rv_made r) (rv_made r') j (rv_replicas r' !! j)) ∧
    (∀ j, j ∉ names → rv_replicas r' !! j = None) ∧
    rv_cancelled r' = rv_cancelled r ++ (stopped.*2) ∧ NoDup (stopped.*1) ∧
    (∀ j rep, (j, rep) ∈ stopped ↔ (j ∉ names) ∧ rv_replicas r !! j = Some rep) ∧
    rv_pulsed r' = rv_pulsed r ++ omap (λ li, if needs_pulse li then rv_replicas r' !! li_name li else None) items ∧
    rv_wg r' = (rv_wg r + length (filter (λ j, rv_replicas r !! j = None) names))%nat.
Proof. apply updateResolutions_spec. Qed.
End updates.

(** ** The replica of a resolution *)

Section own.
Context {replica : Type} (GetPrefixRangeEnd : string → string) (newReplica : Journal → nat → replica).

(** What [broker_decoder] asserts of members. *)
Definition ids_match (kvs : list BKV) : Prop := ∀ x m, x ∈ kvs → Decoded x = EntityMember m →
  ps_Id (bs_ProcessSpec (mb_Value m)) = mkProcessID (mb_Zone m) (mb_Suffix m).

Lemma DecodeMember_id `{UrlParser} unmarshal zone suffix raw s :
  broker_DecodeMember unmarshal zone suffix raw = inl s → ps_Id (bs_ProcessSpec s) = mkProcessID zone suffix.
Proof.
  unfold broker_DecodeMember. destruct (unmarshal _) as [s'|]; [|done]. destruct (BrokerSpec_Validate s'); [done|].
  destruct (String.eqb_spec (Zone (ps_Id (bs_ProcessSpec s'))) zone); [|done]. destruct (String.eqb_spec (Suffix (ps_Id (bs_ProcessSpec s'))) suffix); [|done].
  cbn. intros [= <-]. by destruct (ps_Id (bs_ProcessSpec s')); simplify_eq/=.
Qed.

Lemma local_items_in root lk (asn items : list BKV) li : li ∈ local_items root lk asn items ↔
  ∃ x i y, x ∈ items ∧ li = mkLocalItem x (item_row asn x) i ∧ item_row asn x !! i = Some y ∧ asn_member root y = lk.
Proof.
  unfold local_items, local_row. rewrite elem_of_concat. setoid_rewrite list_elem_of_fmap. split.
  - intros (row & (x & -> & Hx) & Hli). apply list_elem_of_fmap in Hli as (i & -> & [Hi _]%list_elem_of_filter).
    destruct (item_row asn x !! i) as [y|] eqn:Hy; [|done]. injection Hi as Hi. by exists x, i, y.
  - intros (x & i & y & Hx & -> & Hy & Hm). eexists. split; [by exists x|]. apply list_elem_of_fmap. exists i. split; [done|].
    apply list_elem_of_filter. rewrite Hy. split; [by cbn; rewrite Hm|]. apply elem_of_seq. apply lookup_lt_Some in Hy. lia.
Qed.

Lemma local_items_ok root lk (kvs : list BKV) : Forall li_ok (local_items root lk (filter is_assignment kvs) (filter is_item kvs)).
Proof.
  apply Forall_forall. intros li (x & i & y & [Hx _]%list_elem_of_filter & -> & Hy & _)%local_items_in. split; cbn [li_Item li_Assignments li_Index]; [by destruct (is_item x)|].
  unfold assignmentAt. rewrite Hy. apply (list_elem_of_lookup_2 _ i) in Hy. apply list_elem_of_filter in Hy as [_ [Hy _]%list_elem_of_filter].
  unfold is_assignment in Hy. destruct (Decoded y) as [| |a]; try done. by exists a.
Qed.

Lemma updateResolutions_state (r0 r : resolver replica) : updateResolutions newReplica r0 = Ret r → rv_state r = rv_state r0.
Proof.
  unfold updateResolutions. destruct (outcome_fold _ _ _) as [[r1 next]|] eqn:Hf; [|done]. cbn [outcome_bind]. intros [= <-]. cbn.
  assert (∀ l a n b n', outcome_fold (update_item newReplica) (a, n) l = Ret (b, n') → rv_state b = rv_state a) as H by
    (induction l as [|li l IH]; intros a n b n'; cbn [outcome_fold]; [by intros [= <- <-]|];
     destruct (update_item newReplica (a, n) li) as [[a1 n1]|] eqn:Hu; [|done]; cbn [outcome_bind]; intros Hr%IH; rewrite Hr; clear Hr IH;
     unfold update_item in Hu; destruct (Decoded (li_Item li)); try done; destruct (assignmentAt _ _); [|done]; cbn [outcome_bind] in Hu;
     destruct (rv_replicas a !! _); injection Hu as <- <-; done).
  by eapply H.
Qed.

(** The id of a member is the one of its key. *)
Lemma broker_key root (kvs : list BKV) x m : entities_ok root kvs → ids_match kvs → x ∈ kvs → Decoded x = EntityMember m →
  MemberKey root (Zone (ps_Id (bs_ProcessSpec (mb_Value m)))) (Suffix (ps_Id (bs_ProcessSpec (mb_Value m)))) = Ret (k_Key (Raw x)).
Proof. intros [_ Hk] Hids Hin Hd. rewrite Forall_forall in Hk. specialize (Hk x Hin). rewrite Hd in Hk. by rewrite (Hids x m Hin Hd). Qed.

(** When the observers of the key space have run, each broker has the replica of every request that resolves to itself: it
    is not without one, and does not proxy to itself. *)
Theorem resolve_own_replica s (r0 r : resolver replica) local args :
  kspace_ok GetPrefixRangeEnd (KS s) → ids_match (ks_KeyValues (KS s)) →
  observe GetPrefixRangeEnd s = Ret (rv_state r0) → updateResolutions newReplica r0 = Ret r →
  NoDup (li_name <$> LocalItems (rv_state r)) → LocalMemberInd (rv_state r) ≠ None → localID r = Ret local → local ≠ zeroID → above_sep (ra_journal args) = true →
  ∃ res, resolve_at GetPrefixRangeEnd r local args = Ret res ∧
    (res_status res = Status_OK → ProcessId (res_Header res) = local → is_Some (res_replica res)).
Proof.
  intros Hks Hids Hobs Hupd Hnd Hind Hlocal Hnz Hj. pose proof (updateResolutions_state r0 r Hupd) as Hst. pose proof Hks as [Hent _ _ Hpre].
  destruct (observe_spec GetPrefixRangeEnd s Hent) as (s' & Hobs' & HKS & HLK & Hmem & Hit & Hasn & HLM & _ & _ & _ & _ & _ & _ & Hli); [apply Hpre; set_solver..|].
  rewrite Hobs in Hobs'. injection Hobs' as Hs'. rewrite <- Hs', <- Hst in *. clear Hs' s'.
  destruct (resolve_at_spec GetPrefixRangeEnd r local args) as (res & Hres & Hrd); [by rewrite HKS|done|]. exists res. split; [done|]. intros Hok Hp.
  rewrite (rd_replica _ _ _ _ Hrd Hok), Hp, bool_decide_eq_true_2 by done.
  assert (∃ x, x ∈ assigned r (ra_journal args) ∧ id_of_asn x = local) as (x & Hx & Hxl).
  { destruct (ra_requirePrimary args) eqn:Hrp.
    - destruct (rd_toprimary _ _ _ _ Hrd Hok Hrp) as (x & Hx & _ & Hpx). exists x. split; [done|congruence].
    - destruct (rd_toreplica _ _ _ _ Hrd Hok Hrp) as [[_ ?]|[Hz _]]; [done|congruence]. }
  assert (MemberKey (ks_Root (KS s)) (Zone local) (Suffix local) = Ret (LocalKey s)) as Hlk.
  { unfold localID in Hlocal. destruct (LocalMemberInd (rv_state r)) as [ind|] eqn:Hi; [|done]. pose proof (proj1 (HLM ind) eq_refl) as Hkey.
    destruct (Members (rv_state r) !! ind) as [y|] eqn:Hy; [|done]. unfold memberAt in Hlocal. rewrite Hy in Hlocal. destruct (Decoded y) as [m| |] eqn:Hd; [|done..].
    cbn [outcome_bind] in Hlocal. injection Hlocal as <-. rewrite Hmem in Hy. apply (list_elem_of_lookup_2 _ ind), list_elem_of_filter in Hy as [_ Hy].
    injection Hkey as <-. by apply (broker_key _ (ks_KeyValues (KS s))). }
  pose proof (rd_spec _ _ _ _ Hrd) as Hspec. rewrite Hok in Hspec. destruct (res_journalSpec res) as [spec|]; [|by destruct Hspec].
  destruct Hspec as (_ & y & Hy & Hyd). rewrite HKS in Hy. unfold assigned in Hx. rewrite HKS in Hx.
  destruct (asn_above _ _ Hent _ _ Hx) as (Hxa & Hxi & _). apply list_elem_of_filter in Hx as [_ Hx].
  assert (ra_journal args ∈ li_name <$> LocalItems (rv_state r)) as Hin.
  { assert (x ∈ item_row (filter is_assignment (ks_KeyValues (KS s))) y) as [i Hi]%list_elem_of_lookup.
    { apply list_elem_of_filter. split; [unfold id_of; by rewrite Hyd|]. apply list_elem_of_filter. by rewrite Hxa. }
    apply list_elem_of_fmap. exists (mkLocalItem y (item_row (filter is_assignment (ks_KeyValues (KS s))) y) i). split; [unfold li_name, id_of; cbn; by rewrite Hyd|].
    rewrite Hli, Hit, Hasn. apply local_items_in. exists y, i, x. split_and!; [|done|done|].
    - apply list_elem_of_filter. split; [|done]. unfold is_item. by rewrite Hyd.
    - unfold asn_member. unfold is_assignment, id_of_asn in *. destruct (Decoded x) as [| |a]; [done..|]. rewrite <- Hxl in Hlk. cbn [Zone Suffix] in Hlk.
      by apply MemberKey_Ret in Hlk as (_ & _ & ->). }
  rewrite Hst in Hin, Hnd. destruct (updateResolutions_spec newReplica r0) as (r' & stopped & Hr' & _ & Hkm & _); [|done|].
  - rewrite <- Hst, Hli, Hit, Hasn. apply local_items_ok.
  - rewrite Hupd in Hr'. injection Hr' as <-. specialize (Hkm _ Hin). unfold kept_or_made in Hkm.
    destruct (rv_replicas r0 !! ra_journal args); [by rewrite Hkm; eexists|]. destruct Hkm as (n & _ & ->). by eexists.
Qed.
End own.

(** ** A concrete key space *)

Module Routes.
Definition broker (zone suffix : string) (rev : Z) : BKV :=
  mkKV (mkRaw ("/members/" ++ zone ++ "#" ++ suffix) rev rev 1 "" rev)
    (EntityMember (mkMember zone suffix (mkBrokerSpec (mkProcessSpec (mkProcessID zone suffix) ("http://" ++ suffix)) 10))).
Definition journal (name : string) (rev replication : Z) : BKV :=
  mkKV (mkRaw ("/items/" ++ name) rev rev 1 "" 0)
    (EntityItem (mkItem name (mkJournalSpec name replication [] (mkSpecFragment 0 Codec_NONE None 0 0 0) NOT_SPECIFIED))).
Definition assignment (name zone suffix : string) (slot rev : Z) (rt : Route) : BKV :=
  mkKV (mkRaw ("/assign/" ++ name ++ "#" ++ zone ++ "#" ++ suffix ++ "#" ++ Itoa slot) rev rev 1 "" rev)
    (EntityAssignment (mkAssignment name zone suffix slot (Some rt))).

Definition route_of_a : Route := mkRoute [mkProcessID "z" "broker-one"; mkProcessID "z" "broker-two"] 0 [].

(** The journal [a/aa] is consistent, of [a/bb] the route is not yet known; [broker-two] is the local broker. *)
Definition kvs : list BKV :=
  [assignment "a/aa" "z" "broker-one" 0 5 route_of_a; assignment "a/aa" "z" "broker-two" 1 6 route_of_a; assignment "a/bb" "z" "broker-two" 0 7 (mkRoute [] (-1) []);
   journal "a/aa" 3 2; journal "a/bb" 4 1; journal "a/cc" 4 1; broker "z" "broker-one" 1; broker "z" "broker-two" 2].

Definition ks : KeySpace BEntity := mkKeySpace "" (mkRespHeader 8 9 100 1) kvs 0.

Lemma last_below_sep p : last_below (p ++ Sep) = true.
Proof.
  induction p as [|c p IH]; [done|]. change (last_below (String c (p ++ Sep)) = true). cbn [last_below]. rewrite IH. by destruct (p ++ Sep)%string eqn:E; [destruct p|].
Qed.

Lemma ks_ok : kspace_ok prefix_end ks.
Proof.
  split; [|done| |].
  - split; [unfold kv_sorted; repeat constructor|repeat constructor].
  - intros j _. apply prefix_end_ends. change (last_below (AssignmentsPrefix ++ j ++ Sep) = true). rewrite <- str_app_assoc. apply last_below_sep.
  - intros p Hp. repeat (apply elem_of_cons in Hp as [-> |Hp]; [by apply prefix_end_ends|]). by apply not_elem_of_nil in Hp.
Qed.

Definition start : State BrokerSpec JournalSpec Route := NewObservedState ks "/members/z#broker-two".
Definition state : State BrokerSpec JournalSpec Route := match observe prefix_end start with Ret s => s | Panic _ => start end.

(** A broker that has replicas of [a/bb], and of a journal that is gone. *)
Definition before : resolver (Journal * nat) :=
  mkResolver state (<["a/bb" := ("a/bb", 0%nat)]> (<["gone" := ("gone", 1%nat)]> ∅)) 2 2 [] [].
Definition after : resolver (Journal * nat) := match updateResolutions pair before with Ret r => r | Panic _ => before end.
Definition local : ProcessSpec_ID := mkProcessID "z" "broker-two".

Lemma state_items : Forall li_ok (LocalItems state) ∧ li_name <$> LocalItems state = ["a/aa"; "a/bb"].
Proof. split; [|vm_compute; reflexivity]. vm_compute. repeat constructor; eexists; reflexivity. Qed.

(** [broker-one] as it starts. *)
Definition state_one : State BrokerSpec JournalSpec Route :=
  match observe prefix_end (NewObservedState ks "/members/z#broker-one") with Ret s => s | Panic _ => start end.
Definition resolver_one : resolver (Journal * nat) :=
  match updateResolutions pair (newResolver state_one) with Ret r => r | Panic _ => newResolver state_one end.
End Routes.

Lemma resolve_correct_witness :
  ∃ res, resolve prefix_end Routes.after None (mkResolveArgs "a/aa" false false true 50 None) [] = Ret (Some (inl res)) ∧
    res_status res = Status_OK ∧ ProcessId (res_Header res) = Routes.local ∧ res_replica res = Some ("a/aa", 2%nat) ∧
    Endpoints (h_Route (res_Header res)) = ["http://broker-one"; "http://broker-two"].
Proof.
  destruct (resolve_correct prefix_end Routes.after None (mkResolveArgs "a/aa" false false true 50 None) [] Routes.local) as (out & Hout & _).
  - constructor; [|constructor]. replace (KS (rv_state Routes.after)) with Routes.ks by (vm_compute; reflexivity). exact Routes.ks_ok.
  - reflexivity.
  - vm_compute. reflexivity.
  - vm_compute in Hout. injection Hout as <-. eexists. split; [vm_compute; reflexivity|]. by vm_compute.
Defined.

Lemma updateResolutions_correct_witness :
  ∃ r', updateResolutions pair Routes.before = Ret r' ∧ rv_replicas r' !! "a/aa" = Some ("a/aa", 2%nat) ∧ rv_replicas r' !! "a/bb" = Some ("a/bb", 0%nat) ∧
    rv_replicas r' !! "gone" = None ∧ rv_cancelled r' = [("gone", 1%nat)] ∧ rv_pulsed r' = [("a/bb", 0%nat)] ∧ rv_wg r' = 3%nat.
Proof.
  destruct Routes.state_items as [Hok Hn].
  destruct (updateResolutions_correct pair Routes.before) as (r' & stopped & Hr & _).
  - change (Forall li_ok (LocalItems Routes.state)). exact Hok.
  - change (NoDup (li_name <$> LocalItems Routes.state)). rewrite Hn. exact (bool_decide_unpack (NoDup ["a/aa"; "a/bb"]) I).
  - exists r'. split; [exact Hr|]. vm_compute in Hr. injection Hr as <-. split_and!; vm_compute; reflexivity.
Defined.

Lemma resolve_own_replica_witness :
  ∃ res, resolve_at prefix_end Routes.after Routes.local (mkResolveArgs "a/bb" true true false 0 None) = Ret res ∧
    (res_status res = Status_OK → ProcessId (res_Header res) = Routes.local → is_Some (res_replica res)).
Proof.
  apply (resolve_own_replica prefix_end pair Routes.start Routes.before Routes.after).
  - exact Routes.ks_ok.
  - intros x m Hx. repeat (apply elem_of_cons in Hx as [-> |Hx]; [by intros [= <-]|]). by apply not_elem_of_nil in Hx.
  - vm_compute. reflexivity.
  - vm_compute. reflexivity.
  - change (NoDup (li_name <$> LocalItems (rv_state Routes.after))). replace (li_name <$> LocalItems (rv_state Routes.after)) with ["a/aa"; "a/bb"] by (vm_compute; reflexivity).
    repeat constructor; set_solver.
  - vm_compute. discriminate.
  - vm_compute. reflexivity.
  - discriminate.
  - reflexivity.
Defined.
