(* ===== verification/ReadApi.v ===== *)
(** * The Read API of brokers (src/v2/pkg/broker/read_api.go)

    [serveRead] answers a Read RPC from the index of the replica: a response with the metadata of the
    fragment at the offset, then its content in chunks, from the local file or the store, then those of the next fragment.
    [proxyRead] forwards the responses of a peer. What the index holds at each query, the files and the stores are
    arguments. The theorems: responses [deliver] the journal, and a client that reads from such brokers
    reads the journal. *)
From Stdlib Require Import Ascii.
From S2P Require Import Prelude Encoding Protocol JournalSpec Framing CoverSet FragmentIndex ClientReader KeySpace AllocKeys AllocState Resolver.
Local Open Scope Z_scope.

(** ** Server streams *)

(** What was sent, and the results of the next calls of [SendMsg]: once there are none, they succeed. *)
Record server_stream := mkServerStream { ss_sent : list ReadResponse; ss_errs : list (option read_error) }.

Definition SendMsg (s : server_stream) (resp : ReadResponse) : server_stream * option read_error :=
  match ss_errs s with
  | Some e :: errs => (mkServerStream (ss_sent s) errs, Some e)
  | _ => (mkServerStream (ss_sent s ++ [resp]) (tail (ss_errs s)), None)
  end.

Definition chunkSize : Z := Z.shiftl 1 17.

(** [io.NewSectionReader] of a file: [n] bytes from [off] on. *)
Definition NewSectionReader (file : input) (off n : Z) : input :=
  mkInput (take (Z.to_nat n) (drop (Z.to_nat off) (in_rest file)))
    (if off + n <=? Z.of_nat (length (in_rest file)) then EOF else in_err file) (in_reads file).

(** The reader of a fragment: a section of a local file, or of a stored fragment. *)
Inductive fragment_source := SectionReader (r : input) | StoredReader (fr : FragmentReader).

Definition source_Read (r : fragment_source) (n : nat) : fragment_source * bytes * Z * option read_error :=
  match r with
  | SectionReader i => let '(i, b, err) := input_Read i n in (SectionReader i, b, Z.of_nat (length b), err)
  | StoredReader fr => let '(fr, b, cnt, err) := FragmentReader_Read fr n in (StoredReader fr, b, cnt, err)
  end.

Definition source_fuel (r : fragment_source) : nat :=
  match r with SectionReader i => discard_fuel i | StoredReader fr => discard_fuel (fr_decomp fr) end.

Definition with_header (resp : ReadResponse) (hdr : Header) : ReadResponse :=
  mkReadResponse (rs_Status resp) (Some hdr) (rs_Offset resp) (rs_WriteHead resp) (rs_Fragment resp) (rs_FragmentUrl resp) (rs_Content resp).

Definition content_response (offset : Z) (b : bytes) : ReadResponse :=
  mkReadResponse Status_OK None offset 0 None "" (Some b).

(** The loop over chunks. It ends with the error of the reader, or of the stream. *)
Fixpoint send_chunks (fuel : nat) (s : server_stream) (r : fragment_source) (offset : Z)
    : outcome (server_stream * Z * (read_error + read_error)) :=
  match fuel with
  | O => Panic "no progress"
  | S fuel =>
      let '(r, b, n, readErr) := source_Read r (Z.to_nat chunkSize) in
      let next s offset :=
        match readErr with None => send_chunks fuel s r offset | Some e => Ret (s, offset, inl e) end in
      if n =? 0 then next s offset
      else if n <? 0 then Panic "slice bounds out of range"
      else
        match SendMsg s (content_response offset b) with
        | (s, Some err) => Ret (s, offset, inr err)
        | (s, None) => next s (int64 (offset + n))
        end
  end.

(** What an iteration meets: the index when it is queried, the time, what happens while the query blocks, and
    the result of the reader's [Close]. *)
Record iteration := mkIteration {
  it_index : Index;
  it_now : Z;
  it_wakes : list wake;
  it_close : option read_error;
}.

Section serve.
Context (gzip_NewReader zstdNewReader : input → input + read_error) (snappy_NewReader : input → input).
(** [fragment.SignGetURL] and [fragment.Open] of the fragment's store; the content of local files. *)
Context (SignGetURL : Fragment → string * option string) (Open : Fragment → input + read_error) (files : handle → input).

Definition open_source (file : option handle) (f : Fragment) (offset : Z) : fragment_source + read_error :=
  match file with
  | Some h => inl (SectionReader (NewSectionReader (files h) (int64 (offset - f_Begin f)) (int64 (f_End f - offset))))
  | None =>
      match Open f with
      | inr err => inr err
      | inl rc =>
          match NewFragmentReader gzip_NewReader zstdNewReader snappy_NewReader rc f offset with
          | inl fr => inl (StoredReader fr)
          | inr err => inr err
          end
      end
  end.

(** An iteration either returns, with an error or without, or goes on with the next one; [None] while its query is blocked. *)
Inductive served_result := Returned (err : option read_error) | Continue (offset : Z) | Stalled.

Definition serve_once (s : server_stream) (req : ReadRequest) (hdr : option Header) (it : iteration)
    : outcome (server_stream * served_result) :=
  match Query SignGetURL (it_index it) (it_now it) req (it_wakes it) with
  | Blocked _ => Ret (s, Stalled)
  | Failed err => Ret (s, Returned (Some (ReadError err)))
  | Answered resp file (Some err) => Ret (s, Returned (Some (ReadError err)))
  | Answered resp file None =>
      let resp := match hdr with Some h => with_header resp h | None => resp end in
      match SendMsg s resp with
      | (s, Some err) => Ret (s, Returned (Some err))
      | (s, None) =>
          if negb (bool_decide (rs_Status resp = Status_OK)) || rr_MetadataOnly req || negb (isSome file) && rr_DoNotProxy req
          then Ret (s, Returned None)
          else
            let offset := rs_Offset resp in
            match rs_Fragment resp with
            | None => Panic "invalid memory address or nil pointer dereference"
            | Some f =>
                match open_source file f offset with
                | inr err => Ret (s, Returned (Some err))
                | inl reader =>
                    let! (s, offset, err) := send_chunks (source_fuel reader) s reader offset in
                    match err with
                    | inr err => Ret (s, Returned (Some err))
                    | inl readErr =>
                        if negb (bool_decide (readErr = EOF)) then Ret (s, Returned (Some readErr))
                        else match it_close it with
                             | Some err => Ret (s, Returned (Some err))
                             | None => Ret (s, Continue offset)
                             end
                    end
                end
            end
      end
  end.

(** The result is [None] while it is being served. *)
Fixpoint serve (s : server_stream) (req : ReadRequest) (hdr : option Header) (its : list iteration)
    : outcome (server_stream * option (option read_error)) :=
  match its with
  | [] => Ret (s, None)
  | it :: its =>
      let! (s, res) := serve_once s req hdr it in
      match res with
      | Returned err => Ret (s, Some err)
      | Stalled => Ret (s, None)
      | Continue offset => serve s (req_with_offset req offset) None its
      end
  end.

Definition serveRead (s : server_stream) (req : ReadRequest) (hdr : Header) (its : list iteration)
    : outcome (server_stream * option (option read_error)) := serve s req (Some hdr) its.
End serve.

(** [proxyRead]: the peer's stream, its responses and the error that ends it. *)
Fixpoint proxy_loop (s : server_stream) (frames : list ReadResponse) (end_ : read_error) : server_stream * option read_error :=
  match frames with
  | [] => (s, if bool_decide (end_ = EOF) then None else Some end_)
  | f :: frames =>
      match SendMsg s f with
      | (s, Some err) => (s, Some err)
      | (s, None) => proxy_loop s frames end_
      end
  end.

Definition proxyRead (s : server_stream) (req : ReadRequest) (peer : ReadRequest → rpc_stream + grpc_code * read_error) : server_stream * option read_error :=
  match peer req with
  | inr err => (s, Some (snd err))
  | inl st => proxy_loop s (st_frames st) (snd (st_end st))
  end.

(** ** The handler *)

Definition status_response (st : Status) (hdr : Header) : ReadResponse := mkReadResponse st (Some hdr) 0 0 None "" None.

Definition req_with_header (req : ReadRequest) (hdr : Header) : ReadRequest :=
  mkReadRequest (Some hdr) (rr_Journal req) (rr_Offset req) (rr_Block req) (rr_DoNotProxy req) (rr_MetadataOnly req).

Definition context_Canceled : read_error := ReadError "context canceled".

(** A broker: its stores and files, what its queries of the index of a replica meet, and its peers. *)
Record broker_env (replica : Type) := mkBrokerEnv {
  be_sign : Fragment → string * option string;
  be_open : Fragment → input + read_error;
  be_files : handle → input;
  be_queries : replica → list iteration;
  be_peer : ReadRequest → rpc_stream + grpc_code * read_error;
}.
Arguments be_sign {_}. Arguments be_open {_}. Arguments be_files {_}. Arguments be_queries {_}. Arguments be_peer {_}.

Section handler.
Context `{UrlParser} {replica : Type} (GetPrefixRangeEnd : string → string).
Context (gzip_NewReader zstdNewReader : input → input + read_error) (snappy_NewReader : input → input).

(** The result is [None] while the call is served. *)
Definition Service_Read (env : broker_env replica) (r : resolver replica) (ctx : option string)
    (wakes : list (resolver replica * option string)) (s : server_stream) (req : ReadRequest)
    : outcome (server_stream * option (option read_error)) :=
  match ReadRequest_Validate req with
  | Some err => Ret (s, Some (Some (ReadError (Err err))))
  | None =>
      let! res := resolve GetPrefixRangeEnd r ctx
        (mkResolveArgs (rr_Journal req) (negb (rr_DoNotProxy req)) false false 0 (rr_Header req)) wakes in
      match res with
      | None => Ret (s, None)
      | Some (inr err) => Ret (s, Some (Some (ReadError err)))
      | Some (inl res) =>
          if negb (bool_decide (res_status res = Status_OK)) then
            let '(s, err) := SendMsg s (status_response (res_status res) (res_Header res)) in Ret (s, Some err)
          else
            match res_journalSpec res with
            | None => Panic "invalid memory address or nil pointer dereference"
            | Some spec =>
                if negb (MayRead (Flags spec)) then
                  let '(s, err) := SendMsg s (status_response NOT_ALLOWED (res_Header res)) in Ret (s, Some err)
                else
                  match res_replica res with
                  | None => let '(s, err) := proxyRead s (req_with_header req (res_Header res)) (be_peer env) in Ret (s, Some err)
                  | Some rep =>
                      let! (s, err) := serveRead gzip_NewReader zstdNewReader snappy_NewReader (be_sign env) (be_open env) (be_files env)
                        s req (res_Header res) (be_queries env rep) in
                      Ret (s, (λ e, if bool_decide (e = Some context_Canceled) then None else e) <$> err)
                  end
            end
      end
  end.
End handler.

(** ** Sources *)

(** An iteration of a read loop makes progress. *)
Definition source_measure (r : fragment_source) : nat :=
  match r with
  | SectionReader i => length (in_reads i) + length (in_rest i)
  | StoredReader fr => length (in_reads (fr_decomp fr)) + length (in_rest (fr_decomp fr))
  end.

Section responses.
Context (gzip_NewReader zstdNewReader : input → input + read_error) (snappy_NewReader : input → input).
Context (J : Z → Byte.byte) (urls : Fragment → string → Prop) (journal : Journal).

Definition source_ok (r : fragment_source) (o : Z) : Prop :=
  match r with
  | SectionReader i => of_journal J o (in_rest i) ∧ 0 ≤ o ∧ o + Z.of_nat (length (in_rest i)) ≤ MaxInt64
  | StoredReader fr => fr_ok J fr ∧ fr_Offset fr = o
  end.

(** What a source at [o] returns ends by [e]. *)
Definition source_until (e : Z) (r : fragment_source) (o : Z) : Prop :=
  match r with
  | SectionReader i => o + Z.of_nat (length (in_rest i)) ≤ e
  | StoredReader fr => f_End (fr_Fragment fr) = e
  end.

Lemma source_step_until e r o n r' b cnt err :
  source_ok r o → source_until e r o → source_Read r n = (r', b, cnt, err) → o + cnt ≤ e ∧ source_until e r' (o + cnt).
Proof.
  intros Hok Hu. destruct r as [i|fr]; cbn [source_Read].
  - destruct (input_Read i n) as [[i' b'] e'] eqn:Hi. intros [= <- <- <- <-]. destruct (input_Read_spec _ _ _ _ _ Hi) as (Hrest & _).
    cbn in *. rewrite Hrest, length_app in Hu. lia.
  - destruct (FragmentReader_Read fr n) as [[[fr' b'] c] e'] eqn:Hr. intros [= <- <- <- <-]. destruct Hok as [Hok <-].
    destruct (FragmentReader_Read_spec J fr n fr' b' c e' Hok Hr) as (-> & _ & _ & Hend & Hf & _). cbn in *. rewrite Hf. lia.
Qed.

Lemma source_step r o n r' b cnt err :
  source_ok r o → (0 < n)%nat → source_Read r n = (r', b, cnt, err) →
  cnt = Z.of_nat (length b) ∧ of_journal J o b ∧ 0 ≤ o ∧ o + cnt ≤ MaxInt64 ∧
  (err = None → source_ok r' (o + cnt) ∧ (source_measure r' < source_measure r)%nat).
Proof.
  intros Hok Hn. destruct r as [i|fr]; cbn [source_Read].
  - destruct (input_Read i n) as [[i' b'] e] eqn:Hi. intros [= <- <- <- <-]. destruct Hok as (Hj & Ho & Hm).
    pose proof (input_progress i n i' b' e Hi Hn). destruct (input_Read_spec _ _ _ _ _ Hi) as (Hrest & _). rewrite Hrest in Hj, Hm. rewrite length_app in Hm.
    apply of_journal_app in Hj as [Hj1 Hj2]. split_and!; [done|done|lia|lia|]. intros He. split; [|auto]. split_and!; [done|lia|lia].
  - destruct (FragmentReader_Read fr n) as [[[fr' b'] c] e] eqn:Hr. intros [= <- <- <- <-]. destruct Hok as [Hok <-].
    destruct (FragmentReader_Read_spec J fr n fr' b' c e Hok Hr) as (-> & _ & Hj & Hend & Hf & Hk & _). pose proof Hok as [_ Hrg [Hm _]].
    split_and!; [done|done|lia|lia|]. intros He. split; [apply Hk; by left|]. revert Hr. unfold FragmentReader_Read.
    destruct (input_Read (fr_decomp fr) n) as [[d b0] e0] eqn:Hi. repeat case_match; intros [= <- <- _ Hee]; simplify_eq.
    cbn. by apply (input_progress _ n _ _ None Hi).
Qed.

Lemma chunkSize_pos : (0 < Z.to_nat chunkSize)%nat.
Proof. assert (0 < chunkSize) by done. lia. Qed.

(** What was sent after [s]. *)
Definition sent_after (s s' : server_stream) (frames : list ReadResponse) : Prop := ss_sent s' = ss_sent s ++ frames.

Lemma SendMsg_spec s resp s' err : SendMsg s resp = (s', err) → sent_after s s' (match err with None => [resp] | Some _ => [] end).
Proof. unfold SendMsg, sent_after. destruct (ss_errs s) as [|[e|] ?]; intros [= <- <-]; cbn; by rewrite ?app_nil_r. Qed.

Lemma sent_after_trans s1 s2 s3 a b : sent_after s1 s2 a → sent_after s2 s3 b → sent_after s1 s3 (a ++ b).
Proof. unfold sent_after. intros H1 ->. by rewrite H1, (assoc_L (++)). Qed.

(** The responses to a Read of the journal from [o] on, which may be -1, while [cur] is the last fragment of which metadata was sent. Metadata tells of a
    fragment of the journal that covers its offset, which is not before [o], and to which the URL belongs if there is one. Content is bytes of the
    journal at its offset, which is where the metadata or the content before it left off, and lies within the fragment. Another status is the last response. *)
Fixpoint read_answer (cur : option Fragment) (o : Z) (frames : list ReadResponse) : Prop :=
  match frames with
  | [] => True
  | f :: frames =>
      match rs_Content f with
      | Some c =>
          rs_Offset f = o ∧ of_journal J o c ∧ (∃ fr, cur = Some fr ∧ f_Begin fr ≤ o ∧ o + Z.of_nat (length c) ≤ f_End fr) ∧
          read_answer cur (o + Z.of_nat (length c)) frames
      | None =>
          if decide (rs_Status f = Status_OK) then
            ∃ fr, rs_Fragment f = Some fr ∧ f_Journal fr = journal ∧ 0 ≤ f_Begin fr ∧ f_End fr ≤ MaxInt64 ∧ f_Begin fr ≤ rs_Offset f < f_End fr ∧
              o ≤ rs_Offset f ∧ (rs_FragmentUrl f ≠ "" → urls fr (rs_FragmentUrl f)) ∧ read_answer (Some fr) (rs_Offset f) frames
          else rs_Offset f ≤ MaxInt64 ∧ (o = -1 ∨ rs_Offset f ≤ o) ∧ frames = []
      end
  end.

Definition frag_ok (cur : option Fragment) : Prop := ∀ fr, cur = Some fr → 0 ≤ f_Begin fr ∧ f_End fr ≤ MaxInt64.

(** This is what the readers of clients rely on. *)
Lemma answer_delivers frames : ∀ cur o, frag_ok cur → read_answer cur o frames → delivers J urls o frames.
Proof.
  induction frames as [|f frames IH]; intros cur o Hcur; [done|]. cbn [read_answer delivers]. destruct (rs_Content f) as [c|].
  - intros (Ho & Hj & (fr & -> & Hb & He) & Hrest). destruct (Hcur fr eq_refl). split_and!; [done|lia|done|lia|by eapply IH].
  - case_decide as Hst.
    + intros (fr & -> & _ & Hb & He & Hin & Hle & Hu & Hrest). rewrite Z.max_r by lia. split_and!; [lia| |done|].
      * intros _ fr' [= <-]. by split_and!.
      * eapply IH; [|done]. by intros fr' [= <-].
    + intros (Hm & Hle & ->). by split_and!.
Qed.

(** A prefix of an answer is one. *)
Lemma read_answer_app a : ∀ cur o b, read_answer cur o (a ++ b) → read_answer cur o a.
Proof.
  induction a as [|f a IH]; intros cur o b; [done|]. cbn [app read_answer]. destruct (rs_Content f).
  - intros (? & ? & ? & ?). split_and!; eauto.
  - case_decide.
    + intros (fr & ? & ? & ? & ? & ? & ? & ? & ?). exists fr. split_and!; eauto; lia.
    + intros (? & ? & [-> _]%app_nil). done.
Qed.

(** The chunks are content up to where the loop ends. *)
Lemma send_chunks_spec fr fuel : ∀ s r o, source_ok r o → source_until (f_End fr) r o → f_Begin fr ≤ o → (source_measure r < fuel)%nat →
  ∃ s' o' e frames, send_chunks fuel s r o = Ret (s', o', e) ∧ sent_after s s' frames ∧ o ≤ o' ≤ MaxInt64 ∧
    ∀ rest, read_answer (Some fr) o' rest → read_answer (Some fr) o (frames ++ rest).
Proof.
  induction fuel as [|fuel IH]; intros s r o Hok Hu Hb Hf; [lia|]. cbn [send_chunks].
  destruct (source_Read r (Z.to_nat chunkSize)) as [[[r' b] n] readErr] eqn:Hr.
  destruct (source_step_until _ r o _ r' b n readErr Hok Hu Hr) as [He Hu'].
  destruct (source_step r o _ r' b n readErr Hok chunkSize_pos Hr) as (-> & Hj & Ho & Hm & Hnext).
  assert (∀ s2, ∃ s' o' e frames, match readErr with None => send_chunks fuel s2 r' (o + Z.of_nat (length b)) | Some e => Ret (s2, o + Z.of_nat (length b), inl e) end = Ret (s', o', e) ∧
    sent_after s2 s' frames ∧ o + Z.of_nat (length b) ≤ o' ≤ MaxInt64 ∧ ∀ rest, read_answer (Some fr) o' rest → read_answer (Some fr) (o + Z.of_nat (length b)) (frames ++ rest)) as Hgo.
  { intros s2. destruct readErr as [e|].
    - eexists _, _, _, []. split; [done|]. split_and!; [by unfold sent_after; rewrite app_nil_r|lia|lia|done].
    - destruct (Hnext eq_refl) as [Hok' Hlt]. apply IH; [done|done|lia|lia]. }
  destruct (Z.eqb_spec (Z.of_nat (length b)) 0) as [H0|H0].
  { rewrite H0, Z.add_0_r in Hgo. apply Hgo. }
  rewrite (proj2 (Z.ltb_ge _ _)) by lia. destruct (SendMsg s (content_response o b)) as [s1 [e|]] eqn:Hs; apply SendMsg_spec in Hs.
  { eexists _, _, _, []. split; [done|]. split_and!; [done|lia|lia|done]. }
  rewrite int64_id by (unfold is_int64, MinInt64, MaxInt64 in *; lia).
  destruct (Hgo s1) as (s' & o' & e & frames & -> & Hsent & Hle & Hd). eexists _, _, _, _. split; [done|]. split_and!; [by eapply sent_after_trans|lia|lia|].
  intros rest Hrest. cbn. split_and!; [done|done|by exists fr|by apply Hd].
Qed.

(** ** Queries *)

Context (SignGetURL : Fragment → string * option string) (Open : Fragment → input + read_error) (files : handle → input).

(** What the entries of indexes tell: the file of a local fragment, and the store of a remote one, hold bytes of the journal. *)
Record entry_ok (e : LFragment) : Prop := {
  eo_range : 0 ≤ Begin e ∧ End e ≤ MaxInt64;
  eo_file h : File e = Some h → of_journal J (Begin e) (take (Z.to_nat (End e - Begin e)) (in_rest (files h)));
  eo_store rc : Open (frag e) = inl rc → stored gzip_NewReader zstdNewReader snappy_NewReader J rc (frag e);
  eo_url url : SignGetURL (frag e) = (url, None) → urls (frag e) url;
}.

Definition index_ok (fi : Index) : Prop := CoverSet_inv journal (set fi) ∧ ∀ e, e ∈ set fi → entry_ok e.

Definition iteration_ok (it : iteration) : Prop :=
  index_ok (it_index it) ∧ ∀ fi now, Woken fi now ∈ it_wakes it → index_ok fi.

Lemma Query_ok req it resp file :
  iteration_ok it → -1 ≤ rr_Offset req ≤ MaxInt64 → Query SignGetURL (it_index it) (it_now it) req (it_wakes it) = Answered resp file None →
  rs_Content resp = None ∧ -1 ≤ rs_Offset resp ≤ MaxInt64 ∧
  match rs_Status resp with
  | Status_OK => ∃ e, entry_ok e ∧ frag_wf journal e ∧ rs_Fragment resp = Some (frag e) ∧ file = File e ∧ in_frag (rs_Offset resp) e ∧ rr_Offset req ≤ rs_Offset resp ∧
      (rs_FragmentUrl resp ≠ "" → urls (frag e) (rs_FragmentUrl resp))
  | _ => rr_Offset req = -1 ∨ rs_Offset resp ≤ rr_Offset req
  end.
Proof.
  intros [[Hinv Hent] Hw] Hr HQ. assert (Forall (wake_inv journal) (it_wakes it)) as Hwi.
  { apply Forall_forall. intros [fi now|e] Hin; [|done]. by apply (Hw fi now). }
  assert (0 ≤ EndOffset (set (it_index it)) ≤ MaxInt64) as Hend.
  { destruct (decide (set (it_index it) = [])) as [-> |Hne]; [by split|]. destruct (EndOffset_in _ Hne) as (g & Hg & ->).
    destruct (Hent g Hg) as [[H1 H2] _ _ _]. destruct Hinv as [_ Hwf]. rewrite Forall_forall in Hwf. destruct (Hwf g Hg) as (_ & _ & _ & ?). lia. }
  pose proof (query_loop_spec SignGetURL journal req (it_wakes it) (it_index it) (it_now it) (if rr_Offset req =? -1 then EndOffset (set (it_index it)) else rr_Offset req) Hinv Hwi) as Hspec.
  unfold Query in HQ. pose proof (query_loop_url _ _ _ _ _ _ _ _ HQ) as Hurl. rewrite HQ in Hspec.
  destruct Hspec as (fi & now & Hin & _ & Hc & _ & Hans). assert (index_ok fi) as [[_ Hwf'] Hent'] by (destruct Hin as [[-> _]|Hin]; [done|by apply (Hw fi now)]).
  set (o := if rr_Offset req =? -1 then _ else _) in *. assert (rr_Offset req ≤ o ≤ MaxInt64 ∧ (rr_Offset req = -1 ∨ o = rr_Offset req)) as [Ho1 Ho2].
  { unfold o. destruct (Z.eqb_spec (rr_Offset req) (-1)); lia. }
  split; [done|]. destruct (rs_Fragment resp) as [f|].
  - destruct Hans as (-> & e & He & -> & -> & Hfr & Hpos). pose proof (Hent' e He) as Hek. pose proof Hek as [[H1 H2] _ _ Hsu].
    unfold in_frag in Hfr. split; [lia|]. rewrite Forall_forall in Hwf'. exists e. split_and!; [done|by apply Hwf'|done..|destruct Hpos as [[-> _]|[? _]]; lia|]. intros Hu.
    destruct (Hurl Hu) as (f & [= <-] & Hs). by apply Hsu.
  - destruct Hans as (-> & -> & _). split; [lia|]. lia.
Qed.

Abbreviation open_source' := (open_source gzip_NewReader zstdNewReader snappy_NewReader Open files).
Abbreviation serve_once' := (serve_once gzip_NewReader zstdNewReader snappy_NewReader SignGetURL Open files).

Lemma section_ok e o file :
  of_journal J (Begin e) (take (Z.to_nat (End e - Begin e)) (in_rest file)) → 0 ≤ Begin e → End e ≤ MaxInt64 → in_frag o e →
  let i := NewSectionReader file (int64 (o - Begin e)) (int64 (End e - o)) in
  source_ok (SectionReader i) o ∧ (End e - Begin e ≤ Z.of_nat (length (in_rest file)) → in_err i = EOF ∧ o + Z.of_nat (length (in_rest i)) = End e).
Proof.
  intros Hfile H1 H2 [Ho1 Ho2]. unfold NewSectionReader, source_ok. cbn [in_rest in_err].
  rewrite !int64_id by (unfold is_int64, MinInt64, MaxInt64 in *; lia). split; [split_and!; [|lia|]|].
  - apply (of_journal_split J _ (Z.to_nat (o - Begin e))) in Hfile as [_ Hfile]. rewrite length_take, skipn_firstn_comm in Hfile.
    replace (Z.to_nat (End e - Begin e) - Z.to_nat (o - Begin e))%nat with (Z.to_nat (End e - o)) in Hfile by lia.
    destruct (decide (Z.to_nat (o - Begin e) ≤ length (in_rest file))%nat).
    + by replace (Begin e + _) with o in Hfile by lia.
    + rewrite drop_ge by lia. rewrite take_nil. apply of_journal_nil.
  - rewrite length_take. lia.
  - intros Hl. rewrite (proj2 (Z.leb_le _ _)) by lia. split; [done|]. rewrite length_take, length_drop. lia.
Qed.

(** The source of an answer is at its offset. *)
Lemma open_source_ok e o r :
  entry_ok e → frag_wf journal e → in_frag o e → open_source' (File e) (frag e) o = inl r → source_ok r o ∧ source_until (End e) r o.
Proof.
  intros [[H1 H2] Hfile Hst _] (_ & Hb & He & Hlt) [Ho1 Ho2]. unfold open_source. destruct (File e) as [h|].
  - intros [= <-]. split; [by apply section_ok; [apply Hfile| | |split]|]. unfold NewSectionReader. cbn [source_until in_rest]. rewrite length_take.
    change (f_Begin (frag e)) with (Begin e). change (f_End (frag e)) with (End e).
    rewrite !int64_id by (unfold is_int64, MinInt64, MaxInt64 in *; lia). lia.
  - destruct (Open (frag e)) as [rc|] eqn:Hop; [|done]. destruct (NewFragmentReader _ _ _ rc (frag e) o) as [fr|] eqn:Hn; [|done].
    intros [= <-]. destruct (NewFragmentReader_spec gzip_NewReader zstdNewReader snappy_NewReader J rc (frag e) o fr) as (? & ? & Hend);
      [by apply Hst|unfold frag_range; fold (Begin e) (End e); lia|done|]. split; [done|exact Hend].
Qed.

(** A response of metadata, as [serveRead] sends it, is followed by an answer from its offset on. *)
Lemma metadata_answer req it resp file hdr rest cur :
  iteration_ok it → -1 ≤ rr_Offset req ≤ MaxInt64 → Query SignGetURL (it_index it) (it_now it) req (it_wakes it) = Answered resp file None →
  let resp' := match hdr with Some h => with_header resp h | None => resp end in
  (∀ fr, rs_Status resp = Status_OK → rs_Fragment resp = Some fr → read_answer (Some fr) (rs_Offset resp) rest) → (rs_Status resp ≠ Status_OK → rest = []) →
  read_answer cur (rr_Offset req) (resp' :: rest).
Proof.
  intros Hit Hr HQ resp' Hrest Hnone. destruct (Query_ok req it resp file Hit Hr HQ) as (Hc & Hrg & Hst).
  assert (rs_Content resp' = None ∧ rs_Offset resp' = rs_Offset resp ∧ rs_Status resp' = rs_Status resp ∧ rs_Fragment resp' = rs_Fragment resp ∧ rs_FragmentUrl resp' = rs_FragmentUrl resp)
    as (E1 & E2 & E3 & E4 & E5) by (unfold resp'; by destruct hdr). cbn [read_answer]. rewrite E1, E2, E3, E4, E5. case_decide as Hok.
  - rewrite Hok in *. destruct Hst as (e & [[? ?] _ _ _] & [Hj _] & He & _ & Hin & Hle & Hurl). exists (frag e). split; [done|].
    unfold in_frag, Begin, End, JournalOf in *. split_and!; try done; try lia. by apply Hrest.
  - rewrite (Hnone Hok). split_and!; [lia| |done]. by destruct (rs_Status resp).
Qed.

Lemma serve_once_spec cur s req hdr it :
  iteration_ok it → -1 ≤ rr_Offset req ≤ MaxInt64 →
  ∃ s' res frames, serve_once' s req hdr it = Ret (s', res) ∧ sent_after s s' frames ∧
    match res with
    | Continue o => 0 ≤ o ≤ MaxInt64 ∧ ∃ cur', ∀ rest, read_answer cur' o rest → read_answer cur (rr_Offset req) (frames ++ rest)
    | _ => read_answer cur (rr_Offset req) frames
    end.
Proof.
  intros Hit Hr. unfold serve_once. assert (sent_after s s []) as Hs0 by (unfold sent_after; by rewrite app_nil_r).
  destruct (Query _ _ _ _ _) as [resp file [e|]|e|o] eqn:HQ; [by eexists _, _, []..| |by eexists _, _, []|by eexists _, _, []].
  pose proof (λ rest, metadata_answer req it resp file hdr rest cur) as Hmd. cbn zeta in Hmd.
  set (resp' := match hdr with Some h => with_header resp h | None => resp end) in *.
  assert (rs_Offset resp' = rs_Offset resp ∧ rs_Status resp' = rs_Status resp ∧ rs_Fragment resp' = rs_Fragment resp) as (E2 & E3 & E4) by (unfold resp'; by destruct hdr).
  destruct (SendMsg s resp') as [s1 [e|]] eqn:Hsend; apply SendMsg_spec in Hsend; [by eexists _, _, []|].
  assert (read_answer cur (rr_Offset req) [resp']) as Hone by (by apply Hmd). rewrite E2, E3, E4.
  destruct (decide (rs_Status resp = Status_OK)) as [Hok|Hne]; [|rewrite bool_decide_eq_false_2 by done; by eexists _, _, [_]].
  destruct (_ || _ || _); [by eexists _, _, [_]|]. destruct (Query_ok req it resp file Hit Hr HQ) as (_ & _ & Hst). rewrite Hok in Hst.
  destruct Hst as (e & He & Hwf & Hef & -> & Hfr & Hle & _). rewrite Hef.
  destruct (open_source' _ _ _) as [r|err] eqn:Hop; [|by eexists _, _, [_]].
  destruct (open_source_ok e (rs_Offset resp) r He Hwf Hfr Hop) as [Hrk Hru].
  destruct (send_chunks_spec (frag e) (source_fuel r) s1 r (rs_Offset resp) Hrk Hru) as (s2 & o2 & e2 & frames & -> & Hsent & Ho2 & Hd); [apply Hfr| |].
  { unfold source_fuel, discard_fuel, source_measure. destruct r; lia. }
  cbn [outcome_bind]. pose proof (sent_after_trans _ _ _ _ _ Hsend Hsent) as Hall.
  assert (∀ rest, read_answer (Some (frag e)) o2 rest → read_answer cur (rr_Offset req) ((resp' :: frames) ++ rest)) as Hdel.
  { intros rest Hrest. apply Hmd; [done..| |done]. intros fr _ Hfr'. rewrite Hef in Hfr'. injection Hfr' as <-. by apply Hd. }
  specialize (Hdel []) as Hnil. rewrite app_nil_r in Hnil.
  assert (0 ≤ o2) by (destruct He as [[? ?] _ _ _]; unfold in_frag in Hfr; lia).
  destruct e2 as [e2|e2]; [destruct (negb _); [|destruct (it_close it)]|]; eexists _, _, _; (split; [done|]); (split; [exact Hall|]); try by apply Hnil.
  split; [lia|by exists (Some (frag e))].
Qed.

Lemma serve_spec its : Forall iteration_ok its → ∀ cur s req hdr, -1 ≤ rr_Offset req ≤ MaxInt64 →
  ∃ s' res frames, serve gzip_NewReader zstdNewReader snappy_NewReader SignGetURL Open files s req hdr its = Ret (s', res) ∧
    sent_after s s' frames ∧ read_answer cur (rr_Offset req) frames.
Proof.
  induction 1 as [|it its Hit _ IH]; intros cur s req hdr Hr.
  { eexists _, _, []. split; [done|]. split; [by unfold sent_after; rewrite app_nil_r|done]. }
  cbn [serve]. destruct (serve_once_spec cur s req hdr it Hit Hr) as (s1 & res & frames & -> & Hs & Hd). cbn [outcome_bind].
  destruct res as [err|o|]; [by eexists _, _, _| |by eexists _, _, _]. destruct Hd as (Ho & cur' & Hd).
  destruct (IH cur' s1 (req_with_offset req o) None) as (s2 & res & frames2 & -> & Hs2 & Hd2); [simpl; lia|].
  eexists _, _, _. split; [done|]. split; [by eapply sent_after_trans|]. by apply Hd.
Qed.
End responses.

(** ** Reads to the write head *)

Definition contents (frames : list ReadResponse) : bytes := concat (omap rs_Content frames).

Lemma contents_app a b : contents (a ++ b) = contents a ++ contents b.
Proof. unfold contents. by rewrite omap_app, concat_app. Qed.

Section complete.
Context (gzip_NewReader zstdNewReader : input → input + read_error) (snappy_NewReader : input → input).
Context (J : Z → Byte.byte) (SignGetURL : Fragment → string * option string) (Open : Fragment → input + read_error) (files : handle → input).
Context (journal : Journal) (fi : Index) (now : Z).

(** The whole of a section is sent, if no send fails. *)
Lemma send_chunks_section fuel : ∀ s i o, in_err i = EOF → source_ok J (SectionReader i) o → (source_measure (SectionReader i) < fuel)%nat → ss_errs s = [] →
  ∃ s' frames, send_chunks fuel s (SectionReader i) o = Ret (s', o + Z.of_nat (length (in_rest i)), inl EOF) ∧
    sent_after s s' frames ∧ ss_errs s' = [] ∧ contents frames = in_rest i.
Proof.
  induction fuel as [|fuel IH]; intros s i o He Hok Hf Hs; [lia|]. cbn [send_chunks source_Read].
  destruct (input_Read i (Z.to_nat chunkSize)) as [[i' b] err] eqn:Hi. pose proof (input_progress i _ i' b err Hi chunkSize_pos) as Hprog.
  destruct (input_Read_spec _ _ _ _ _ Hi) as (Hrest & _ & He' & _ & Herr & _). destruct Hok as (Hj & Ho & Hm). rewrite Hrest in Hj, Hm. rewrite length_app in Hm.
  apply of_journal_app in Hj as [Hj1 Hj2]. set (n := Z.of_nat (length b)) in *.
  assert (∀ s2, ss_errs s2 = [] → ∃ s' frames, match err with None => send_chunks fuel s2 (SectionReader i') (o + n) | Some e => Ret (s2, o + n, inl e) end =
    Ret (s', o + Z.of_nat (length (in_rest i)), inl EOF) ∧ sent_after s2 s' frames ∧ ss_errs s' = [] ∧ contents frames = in_rest i') as Hgo.
  { intros s2 Hs2. rewrite Hrest, length_app, Nat2Z.inj_add. fold n. destruct err as [e|].
    - destruct (Herr ltac:(done)) as [[= ->] Hnil]. rewrite Hnil, He. cbn [length]. rewrite Z.add_0_r. exists s2, []. split_and!; [done| |done|done].
      unfold sent_after. by rewrite app_nil_r.
    - rewrite Z.add_assoc. apply IH; [congruence| |specialize (Hprog eq_refl); cbn [source_measure] in *; lia|done]. split_and!; [done|lia|lia]. }
  destruct (Z.eqb_spec n 0) as [H0|H0].
  { rewrite H0, Z.add_0_r in Hgo. destruct (Hgo s Hs) as (s' & frames & Hr & Hsent & He2 & Hc). exists s', frames. split_and!; [done..|].
    rewrite Hc, Hrest. assert (length b = 0%nat) as Hb0 by lia. by destruct b. }
  rewrite (proj2 (Z.ltb_ge _ _)) by lia. unfold SendMsg. rewrite Hs. cbn [tail]. rewrite int64_id by (unfold is_int64, MinInt64, MaxInt64 in *; lia).
  destruct (Hgo (mkServerStream (ss_sent s ++ [content_response o b]) []) eq_refl) as (s' & frames & -> & Hsent & He2 & Hc).
  exists s', (content_response o b :: frames). split_and!; [done| |done|].
  - unfold sent_after in *. rewrite Hsent. cbn [ss_sent]. by rewrite <- app_assoc.
  - change (b ++ contents frames = in_rest i). by rewrite Hc.
Qed.

(** The index holds local fragments only, whose files are complete, and covers the journal from [o] on. *)
Record local_index (o : Z) : Prop := {
  lx_inv : CoverSet_inv journal (set fi);
  lx_range : 0 ≤ o ≤ EndOffset (set fi) ∧ EndOffset (set fi) ≤ MaxInt64;
  lx_cover x : o ≤ x < EndOffset (set fi) → covered (set fi) x;
  lx_sign e : e ∈ set fi → snd (SignGetURL (frag e)) = None;
  lx_begin e : e ∈ set fi → 0 ≤ Begin e;
  lx_file e : e ∈ set fi → ∃ h, File e = Some h ∧ of_journal J (Begin e) (take (Z.to_nat (End e - Begin e)) (in_rest (files h))) ∧
    End e - Begin e ≤ Z.of_nat (length (in_rest (files h)));
}.

Lemma query_unblocked req o : local_index o → rr_Block req = false → rr_Offset req = o →
  ∃ resp, (o = EndOffset (set fi) ∧ Query SignGetURL fi now req [] = Answered resp None None ∧ rs_Content resp = None ∧
      rs_Status resp = OFFSET_NOT_YET_AVAILABLE ∧ rs_Offset resp = o) ∨
    (∃ e, e ∈ set fi ∧ in_frag o e ∧ Query SignGetURL fi now req [] = Answered resp (File e) None ∧ rs_Content resp = None ∧
      rs_Status resp = Status_OK ∧ rs_Offset resp = o ∧ rs_Fragment resp = Some (frag e)).
Proof.
  intros [Hinv Hr Hcov Hsign _ _] Hb Ho. unfold Query. rewrite Ho. rewrite (proj2 (Z.eqb_neq o (-1))) by lia. cbn [query_loop].
  pose proof (query_once_spec SignGetURL journal fi now req o Hinv) as Hq. destruct (query_once SignGetURL fi now req o) as [resp file err|err|o'] eqn:E; [|done|by destruct Hq as (_ & Hq & _); rewrite Hb in Hq].
  assert (err = None) as ->.
  { revert E. unfold query_once. destruct (LongestOverlappingFragment (set fi) o) as [ind found] eqn:El. cbn zeta.
    destruct (found || _) eqn:Ef; [|rewrite Hb; cbn [negb]; intros Hq'; injection Hq'; congruence].
    destruct (negb (String.eqb _ "") && negb _) eqn:Eu; [|intros Hq'; injection Hq'; congruence]. destruct (SignGetURL (frag (set fi !!! ind))) as [url e] eqn:Es. intros Hq'. simplify_eq.
    unfold answers in Hq. cbn in Hq. destruct Hq as (_ & _ & _ & _ & e' & He' & Hfe & _). specialize (Hsign e' He'). rewrite <- Hfe in Hsign. by rewrite Es in Hsign. }
  exists resp. destruct Hq as (_ & Hc & _ & Hans). destruct (rs_Fragment resp) as [f|] eqn:Hf.
  - right. destruct Hans as (Hst & e & He & -> & -> & Hfr & Hpos). exists e. pose proof (EndOffset_max journal (set fi) e Hinv He). unfold in_frag in *.
    assert (rs_Offset resp = o) as Hro. { destruct Hpos as [[? _]|(Hlt & Hnc & _)]; [done|]. exfalso. apply (Hnc o); [lia|]. apply Hcov. lia. }
    rewrite Hro in Hfr. split_and!; try done; lia.
  - left. destruct Hans as (Hst & Hro & -> & _ & _ & Hnc). split_and!; try done. destruct (decide (o < EndOffset (set fi))); [|lia]. exfalso. by apply Hnc, Hcov.
Qed.

Abbreviation serve' := (serve gzip_NewReader zstdNewReader snappy_NewReader SignGetURL Open files).
Abbreviation it := (mkIteration fi now [] None).

Lemma serve_complete n : ∀ s req hdr o, local_index o → rr_Offset req = o → rr_Block req = false → rr_MetadataOnly req = false → ss_errs s = [] →
  EndOffset (set fi) - o < Z.of_nat n →
  ∃ s' frames, serve' s req hdr (replicate n it) = Ret (s', Some None) ∧ sent_after s s' frames ∧
    of_journal J o (contents frames) ∧ o + Z.of_nat (length (contents frames)) = EndOffset (set fi) ∧
    ∃ resp, last frames = Some resp ∧ rs_Status resp = OFFSET_NOT_YET_AVAILABLE ∧ rs_Offset resp = EndOffset (set fi).
Proof.
  induction n as [|n IH]; intros s req hdr o Hx Ho Hb Hmd Hs Hn; [destruct Hx as [_ Hr _ _ _ _]; lia|]. cbn [replicate serve]. unfold serve_once. cbn [it_index it_now it_wakes].
  destruct (query_unblocked req o Hx Hb Ho) as (resp & [(He & -> & Hc & Hst & Hro)|(e & He & Hfr & -> & Hc & Hst & Hro & Hf)]).
  all: set (resp' := match hdr with Some h => with_header resp h | None => resp end); assert (rs_Content resp' = None ∧ rs_Offset resp' = o ∧ rs_Status resp' = rs_Status resp ∧ rs_Fragment resp' = rs_Fragment resp)
    as (E1 & E2 & E3 & E4) by (unfold resp'; by destruct hdr).
  all: unfold SendMsg at 1; rewrite Hs, E3, Hst; cbn [tail bool_decide].
  - eexists _, [resp']. split; [reflexivity|]. split_and!; [done| | |exists resp'; by rewrite E2, E3, Hst].
    + unfold contents. cbn. rewrite E1. apply of_journal_nil.
    + unfold contents. cbn. rewrite E1. cbn. lia.
  - destruct Hx as [Hinv Hr Hcov Hsign Hbeg Hfile]. destruct (Hfile e He) as (h & Hh & Hj & Hl). pose proof (EndOffset_max journal (set fi) e Hinv He) as Hmax.
    rewrite Hmd, Hh. cbn [negb isSome orb andb]. rewrite E4, Hf, E2. cbn [open_source].
    destruct (section_ok J e o (files h) Hj (Hbeg e He)) as [Hok Hlen]; [lia|done|]. destruct (Hlen Hl) as [Heof Hend]. change (f_Begin (frag e)) with (Begin e). change (f_End (frag e)) with (End e).
    set (i := NewSectionReader _ _ _) in *.
    destruct (send_chunks_section (source_fuel (SectionReader i)) (mkServerStream (ss_sent s ++ [resp']) []) i o Heof Hok) as (s1 & frames1 & -> & Hs1 & He1 & Hc1);
      [unfold source_fuel, discard_fuel, source_measure; lia|done|]. rewrite Hend. cbn [outcome_bind bool_decide negb it_close]. unfold in_frag in Hfr.
    destruct (IH s1 (req_with_offset req (End e)) None (End e)) as (s2 & frames2 & Hs2 & Hsent2 & Hj2 & Hl2 & Hlast); [|done..|lia|].
    { split; [done|lia| |done..]. intros x Hx. apply Hcov. lia. }
    exists s2, (resp' :: frames1 ++ frames2). rewrite bool_decide_eq_true_2 by done. cbn [negb outcome_bind]. split; [exact Hs2|]. rewrite app_comm_cons, contents_app.
    assert (contents (resp' :: frames1) = in_rest i) as -> by (unfold contents in *; cbn; by rewrite E1). destruct Hok as [Hji _]. split_and!.
    + unfold sent_after in *. rewrite Hsent2, Hs1. cbn [ss_sent]. by rewrite <- !app_assoc.
    + apply of_journal_app. split; [done|]. by rewrite Hend.
    + rewrite length_app. lia.
    + destruct Hlast as (resp2 & Hlast & ?). exists resp2. by rewrite last_app, Hlast.
Qed.

(** A read that does not block, of a replica whose fragments are local and cover the journal from the offset on, sends all of it: with no
    failing send and as many queries as there are bytes left, the handler returns without an error, the content it sent
    is the journal's up to the write head, and the last response tells that the offset after it is not yet available. *)
Theorem serveRead_complete s req hdr n :
  local_index (rr_Offset req) → rr_Block req = false → rr_MetadataOnly req = false → ss_errs s = [] → EndOffset (set fi) - rr_Offset req < Z.of_nat n →
  ∃ s' frames, serveRead gzip_NewReader zstdNewReader snappy_NewReader SignGetURL Open files s req hdr (replicate n it) = Ret (s', Some None) ∧
    ss_sent s' = ss_sent s ++ frames ∧
    of_journal J (rr_Offset req) (contents frames) ∧ rr_Offset req + Z.of_nat (length (contents frames)) = EndOffset (set fi) ∧
    ∃ resp, last frames = Some resp ∧ rs_Status resp = OFFSET_NOT_YET_AVAILABLE ∧ rs_Offset resp = EndOffset (set fi).
Proof. intros. by apply serve_complete. Qed.
End complete.

Lemma proxy_loop_spec s frames end_ s' err : proxy_loop s frames end_ = (s', err) → ∃ k, sent_after s s' (take k frames).
Proof.
  revert s. induction frames as [|f frames IH]; intros s; cbn [proxy_loop].
  { intros [= <- _]. exists 0%nat. unfold sent_after. by rewrite app_nil_r. }
  destruct (SendMsg s f) as [s1 [e|]] eqn:Hs; apply SendMsg_spec in Hs.
  - intros [= <- _]. by exists 0%nat.
  - intros [k Hk]%IH. exists (S k). by apply (sent_after_trans s s1 s' [f]).
Qed.

(** ** Brokers that serve a journal *)

Section cluster.
Context `{UrlParser} {replica : Type} (GetPrefixRangeEnd : string → string).
Context (gzip_NewReader zstdNewReader : input → input + read_error) (snappy_NewReader : input → input).
Context (J : Z → Byte.byte) (urls : Fragment → string → Prop) (journal : Journal).

Abbreviation answer := (read_answer J urls journal None).

(** The replicas of a broker that is asked for the journal query indexes of its content. *)
Definition queries_ok (env : broker_env replica) : Prop :=
  ∀ rep, Forall (iteration_ok gzip_NewReader zstdNewReader snappy_NewReader J urls journal (be_sign env) (be_open env) (be_files env)) (be_queries env rep).

Definition resolver_states_ok (r : resolver replica) (wakes : list (resolver replica * option string)) : Prop :=
  Forall (λ r, kspace_ok GetPrefixRangeEnd (KS (rv_state r))) (r :: wakes.*1) ∧ ∃ local, localID r = Ret local.

Lemma status_answer o st hdr : -1 ≤ o → st ≠ Status_OK → answer o [status_response st hdr].
Proof. intros Ho Hst. cbn. rewrite decide_False by done. split_and!; [done|lia|done]. Qed.

Lemma Service_Read_spec env r ctx wakes s req :
  queries_ok env → resolver_states_ok r wakes → rr_Offset req ≤ MaxInt64 →
  (∀ req' st, rr_Offset req' = rr_Offset req → be_peer env req' = inl st → answer (rr_Offset req) (st_frames st)) →
  ∃ s' res frames, Service_Read GetPrefixRangeEnd gzip_NewReader zstdNewReader snappy_NewReader env r ctx wakes s req = Ret (s', res) ∧
    sent_after s s' frames ∧ answer (rr_Offset req) frames.
Proof.
  intros Hq [Hks [local Hlocal]] Hmax Hpeer. unfold Service_Read. assert (sent_after s s []) as Hs0 by (unfold sent_after; by rewrite app_nil_r).
  destruct (ReadRequest_Validate req) as [err|] eqn:Hval; [by eexists _, _, []|].
  unfold ReadRequest_Validate in Hval. rewrite !orElse_None, ExtendContext_None, failIf_None, Z.ltb_ge in Hval. destruct Hval as (_ & Hj & Hmin).
  destruct (resolve_spec GetPrefixRangeEnd r ctx (mkResolveArgs (rr_Journal req) (negb (rr_DoNotProxy req)) false false 0 (rr_Header req)) wakes local Hks (Journal_above _ Hj) Hlocal)
    as (out & -> & Hout). cbn [outcome_bind]. destruct out as [[res|err]|]; [|by eexists _, _, []..].
  assert (∀ st, st ≠ Status_OK → ∃ s' r' frames, (let '(s, err) := SendMsg s (status_response st (res_Header res)) in Ret (s, Some err)) = Ret (s', r') ∧
    sent_after s s' frames ∧ answer (rr_Offset req) frames) as Hsend.
  { intros st Hst. destruct (SendMsg s _) as [s' err] eqn:Hs. apply SendMsg_spec in Hs. eexists _, _, _. split; [done|]. split; [done|].
    destruct err; [done|]. by apply status_answer. }
  destruct (decide (res_status res = Status_OK)) as [Hok|Hne]; [|rewrite bool_decide_eq_false_2 by done; by apply Hsend].
  rewrite bool_decide_eq_true_2 by done. cbn [negb]. destruct Hout as (_ & r' & _ & _ & Hrd). pose proof (rd_spec _ _ _ _ Hrd) as Hspec.
  destruct (res_journalSpec res) as [spec|]; [|by destruct Hspec as [Hst _]; rewrite Hok in Hst].
  destruct (negb (MayRead (Flags spec))); [by apply Hsend|]. destruct (res_replica res) as [rep|].
  - destruct (serve_spec gzip_NewReader zstdNewReader snappy_NewReader J urls journal (be_sign env) (be_open env) (be_files env) (be_queries env rep) (Hq rep) None s req (Some (res_Header res)))
      as (s' & res' & frames & Hserve & Hsent & Hd); [lia|]. unfold serveRead. rewrite Hserve. cbn [outcome_bind]. by eexists _, _, _.
  - unfold proxyRead. destruct (be_peer env _) as [st|err] eqn:Hp; [|by eexists _, _, []].
    destruct (proxy_loop s (st_frames st) (snd (st_end st))) as [s' err] eqn:Hl. destruct (proxy_loop_spec _ _ _ _ _ Hl) as [k Hk].
    eexists _, _, _. split; [done|]. split; [exact Hk|]. apply Hpeer in Hp; [|done]. rewrite <- (take_drop k (st_frames st)) in Hp. by apply read_answer_app in Hp.
Qed.

(** What a client receives of brokers that proxy to each other, whatever their key spaces and whichever stream breaks: a prefix of the
    responses that one of them sends. *)
Inductive cluster_serves : ReadRequest → list ReadResponse → Prop :=
| broker_serves env r ctx wakes errs req s' res frames :
    queries_ok env → resolver_states_ok r wakes →
    (∀ req' st, be_peer env req' = inl st → cluster_serves req' (st_frames st)) →
    Service_Read GetPrefixRangeEnd gzip_NewReader zstdNewReader snappy_NewReader env r ctx wakes (mkServerStream [] errs) req = Ret (s', res) →
    frames `prefix_of` ss_sent s' → cluster_serves req frames.

Lemma cluster_answers req frames : cluster_serves req frames → rr_Offset req ≤ MaxInt64 → answer (rr_Offset req) frames.
Proof.
  induction 1 as [env r ctx wakes errs req s' res frames Hq Hr Hpeer IH Hread [rest Hpre]]; intros Hmax.
  destruct (Service_Read_spec env r ctx wakes (mkServerStream [] errs) req Hq Hr Hmax) as (s2 & res2 & sent & Hread2 & Hsent & Hd).
  - intros req' st Ho Hp. rewrite <- Ho. apply (IH req' st Hp). lia.
  - rewrite Hread in Hread2. injection Hread2 as <- <-. unfold sent_after in Hsent. cbn [ss_sent app] in Hsent. rewrite Hsent in Hpre. subst sent.
    by apply read_answer_app in Hd.
Qed.

(** C20: A broker's answer to a Read delivers the journal, whether it serves the request from the index and the files of its replica and from
    stores, or proxies it to a peer whose answer does, or refuses it. Metadata tells of a fragment of the journal that covers its offset, which is never
    before the offset reached so far, and of a URL that is one of that fragment. Chunks are bytes of the journal at their offsets; the first has the offset of the metadata before it, each next one follows the last,
    and all lie within the fragment of that metadata. A response with another status is the last. This
    holds whichever sends fail, and in whatever states the index is found, if local files and stores hold the journal's bytes at the offsets of their fragments, and the key spaces that the journal is resolved in are well formed. The handler does not panic. *)
Theorem Service_Read_delivers env r ctx wakes s req :
  queries_ok env → resolver_states_ok r wakes → rr_Offset req ≤ MaxInt64 →
  (∀ req' st, rr_Offset req' = rr_Offset req → be_peer env req' = inl st → answer (rr_Offset req) (st_frames st)) →
  ∃ s' res frames, Service_Read GetPrefixRangeEnd gzip_NewReader zstdNewReader snappy_NewReader env r ctx wakes s req = Ret (s', res) ∧
    sent_after s s' frames ∧ answer (rr_Offset req) frames.
Proof. apply Service_Read_spec. Qed.

(** C2: Clients read the journal. A [RetryReader] whose RPCs are served by brokers of the journal, directly or proxied, and whose fragment
    URLs are served by stores, returns from any number of reads the bytes of the journal from the offset on, in order
    and each once, but for jumps that it tells of; whatever RPCs, streams or downloads fail, and however assignments,
    indexes and routes change from one attempt to the next. *)
Theorem cluster_read_contiguous req calls :
  0 ≤ rr_Offset req ≤ MaxInt64 →
  Forall (λ c, Forall (λ a, served gzip_NewReader zstdNewReader snappy_NewReader J urls (at_env a) ∧
    ∀ req st, re_open (at_env a) req = inl st → cluster_serves req (st_frames st)) c.2) calls →
  ∃ log, session gzip_NewReader zstdNewReader snappy_NewReader (NewReader req) calls = Ret log ∧ contiguous J (rr_Block req) (rr_Offset req) log.
Proof.
  intros Hr Hcalls. apply (session_contiguous gzip_NewReader zstdNewReader snappy_NewReader J urls); [done|].
  eapply Forall_impl; [exact Hcalls|]. intros [n attempts] Ha. eapply Forall_impl; [exact Ha|]. intros a [Hs Ho]. split; [done|].
  intros req' st Hrg Hst. eapply answer_delivers; [|apply cluster_answers; [by apply Ho|lia]]. done.
Qed.
End cluster.

(** ** A concrete cluster *)

Module Cluster.
Definition entry (b e : Z) (h : nat) : LFragment := mkLFragment (mkFragment "a/bb" b e SHA1Sum_zero Codec_NONE "" 0) (Some (Fd h)).
Definition index : Index := mkIndex [entry 0 4 0; entry 4 6 1] [entry 0 4 0; entry 4 6 1] 0 true.
Definition file (h : handle) : input :=
  match h with Fd 0 => mkInput (Count.text 0 4) EOF [(3%nat, false)] | _ => mkInput (Count.text 4 2) EOF [] end.
Definition no_sign (f : Fragment) : string * option string := ("", Some "no store").
Definition no_open (f : Fragment) : input + read_error := inr (ReadError "no store").
Definition unavailable (req : ReadRequest) : rpc_stream + (grpc_code * read_error) := inr (CodeUnavailable, ReadError "unavailable").

Lemma index_inv : CoverSet_inv "a/bb" (set index).
Proof. solve_cover_inv. Qed.

Lemma index_entry e : e ∈ set index → e = entry 0 4 0 ∨ e = entry 4 6 1.
Proof. intros He. repeat (apply elem_of_cons in He as [-> |He]; [auto|]). by apply not_elem_of_nil in He. Qed.

Lemma index_local : local_index Count.J (λ _, ("", None)) file "a/bb" index 0.
Proof.
  split; [exact index_inv|done| |done| |].
  - intros x Hx. destruct (decide (x < 4)); [exists (entry 0 4 0)|exists (entry 4 6 1)]; (split; [set_solver|]); unfold in_frag; cbn in *; lia.
  - by intros e [-> | ->]%index_entry.
  - intros e [-> | ->]%index_entry; eexists; (split; [reflexivity|]); (split; [first [exact (Count.text_of 0 4)|exact (Count.text_of 4 2)]|done]).
Qed.

Lemma index_good : index_ok Count.plain Count.plain id Count.J Count.urls "a/bb" no_sign no_open file index.
Proof.
  split; [exact index_inv|]. intros e [-> | ->]%index_entry; (split; [done| |done|done]); intros h [= <-]; first [exact (Count.text_of 0 4)|exact (Count.text_of 4 2)].
Qed.

(** Broker [two] has the journal's primary, and [one] proxies to it. *)
Definition two : broker_env (Journal * nat) :=
  mkBrokerEnv _ no_sign no_open file (λ _, replicate 4 (mkIteration index 0 [] None)) unavailable.

Definition Read := Service_Read (replica := Journal * nat) prefix_end Count.plain Count.plain id.

Definition ask (env : broker_env (Journal * nat)) (r : resolver (Journal * nat)) (req : ReadRequest) : rpc_stream + (grpc_code * read_error) :=
  match Read env r None [] (mkServerStream [] []) req with
  | Ret (s, Some None) => inl (mkStream (ss_sent s) (CodeOther, EOF))
  | _ => unavailable req
  end.

Definition one : broker_env (Journal * nat) := mkBrokerEnv _ no_sign no_open file (λ _, []) (ask two Routes.after).
Definition request : ReadRequest := mkReadRequest None "a/bb" 0 false false false.
Definition env : read_env := mkReadEnv None (ask one Routes.resolver_one) (λ _, None) Count.no_http.
Definition calls : list (nat * list attempt) := replicate 9 (4%nat, [mkAttempt env false]).

Lemma two_ok : queries_ok Count.plain Count.plain id Count.J Count.urls "a/bb" two.
Proof. intros rep. apply Forall_replicate. split; [exact index_good|]. intros fi now Hin. by apply not_elem_of_nil in Hin. Qed.

Lemma one_ok : queries_ok Count.plain Count.plain id Count.J Count.urls "a/bb" one.
Proof. by intros rep. Qed.

Lemma after_ok : resolver_states_ok prefix_end Routes.after [].
Proof.
  split; [|exists Routes.local; vm_compute; reflexivity]. apply Forall_cons. split; [|by apply Forall_nil].
  replace (KS (rv_state Routes.after)) with Routes.ks by (vm_compute; reflexivity). exact Routes.ks_ok.
Qed.

Lemma resolver_one_ok : resolver_states_ok prefix_end Routes.resolver_one [].
Proof.
  split; [|exists (mkProcessID "z" "broker-one"); vm_compute; reflexivity]. apply Forall_cons. split; [|by apply Forall_nil].
  replace (KS (rv_state Routes.resolver_one)) with Routes.ks by (vm_compute; reflexivity). exact Routes.ks_ok.
Qed.

Abbreviation serves := (cluster_serves (replica := Journal * nat) prefix_end Count.plain Count.plain id Count.J Count.urls "a/bb").

Lemma ask_serves env r req st : queries_ok Count.plain Count.plain id Count.J Count.urls "a/bb" env → resolver_states_ok prefix_end r [] →
  (∀ req' st, be_peer env req' = inl st → serves req' (st_frames st)) → ask env r req = inl st → serves req (st_frames st).
Proof.
  intros Hq Hr Hp. unfold ask. destruct (Read env r None [] (mkServerStream [] []) req) as [[s [[|]|]]|] eqn:Hread; try done.
  intros [= <-]. eapply broker_serves; [exact Hq|exact Hr|exact Hp|exact Hread|done].
Qed.

Lemma two_serves req st : ask two Routes.after req = inl st → serves req (st_frames st).
Proof. apply ask_serves; [exact two_ok|exact after_ok|done]. Qed.

Lemma one_serves req st : ask one Routes.resolver_one req = inl st → serves req (st_frames st).
Proof. apply ask_serves; [exact one_ok|exact resolver_one_ok|exact two_serves]. Qed.
End Cluster.

Lemma serveRead_complete_witness :
  ∃ s' frames, serveRead Count.plain Count.plain id (λ _, ("", None)) Cluster.no_open Cluster.file (mkServerStream [] [])
    (req_with_offset Cluster.request 0) (mkHeader zeroID (mkRoute [] (-1) []) (mkEtcd 1 2 3 4)) (replicate 7 (mkIteration Cluster.index 0 [] None)) = Ret (s', Some None) ∧
    ss_sent s' = frames ∧ of_journal Count.J 0 (contents frames) ∧ Z.of_nat (length (contents frames)) = 6 ∧
    rs_Content <$> frames = [None; Some (Count.text 0 3); Some (Count.text 3 1); None; Some (Count.text 4 2); None].
Proof.
  destruct (serveRead_complete Count.plain Count.plain id Count.J (λ _, ("", None)) Cluster.no_open Cluster.file "a/bb" Cluster.index 0
    (mkServerStream [] []) (req_with_offset Cluster.request 0) (mkHeader zeroID (mkRoute [] (-1) []) (mkEtcd 1 2 3 4)) 7) as (s' & frames & Hs & Hsent & Hj & Hl & _);
    [exact Cluster.index_local|reflexivity..|done|].
  exists s', frames. split; [exact Hs|]. split; [exact Hsent|]. split; [exact Hj|]. split; [exact Hl|].
  vm_compute in Hs. injection Hs as <-. cbn in Hsent. subst frames. by vm_compute.
Defined.

Lemma Service_Read_delivers_witness :
  ∃ s' res frames, Cluster.Read Cluster.one Routes.resolver_one None [] (mkServerStream [] []) Cluster.request = Ret (s', res) ∧
    sent_after (mkServerStream [] []) s' frames ∧ read_answer Count.J Count.urls "a/bb" None 0 frames ∧ contents (ss_sent s') = Count.text 0 6.
Proof.
  destruct (Service_Read_delivers prefix_end Count.plain Count.plain id Count.J Count.urls "a/bb" Cluster.one Routes.resolver_one None [] (mkServerStream [] []) Cluster.request)
    as (s' & res & frames & Hr & Hs & Hd); [exact Cluster.one_ok|exact Cluster.resolver_one_ok|done| |].
  - intros req' st Ho Hp. rewrite <- Ho. apply (cluster_answers (replica := Journal * nat) prefix_end Count.plain Count.plain id Count.J Count.urls "a/bb" req'); [by apply Cluster.two_serves|rewrite Ho; done].
  - exists s', res, frames. split; [exact Hr|]. split; [exact Hs|]. split; [exact Hd|]. vm_compute in Hr. injection Hr as <- _. by vm_compute.
Defined.

Lemma cluster_read_contiguous_witness :
  ∃ log, session Count.plain Count.plain id (NewReader Cluster.request) Cluster.calls = Ret log ∧ contiguous Count.J false 0 log ∧
    concat ((λ x, x.1.1.2) <$> log) = Count.text 0 6.
Proof.
  destruct (cluster_read_contiguous (replica := Journal * nat) prefix_end Count.plain Count.plain id Count.J Count.urls "a/bb" Cluster.request Cluster.calls) as (log & Hlog & Hc).
  - done.
  - apply Forall_replicate. apply Forall_cons. split; [|by apply Forall_nil]. split; [by intros ????|exact Cluster.one_serves].
  - exists log. split; [exact Hlog|]. split; [exact Hc|]. vm_compute in Hlog. injection Hlog as <-. by vm_compute.
Defined.
