(* ===== verification/ListApi.v ===== *)
(** * The List, Apply and ListFragments APIs of brokers (src/v2/pkg/broker/list_apply_api.go, fragments_api.go, and
      their messages of src/v2/pkg/protocol/rpc_extensions.go)

    [List] joins the journals of the key space with their assignments, [Apply] is one transaction of Etcd, [ListFragments]
    enumerates the fragments of a journal in pages. Etcd's client, the stores that sign URLs, and marshaling are
    parameters. *)
From Stdlib Require Import Ascii.
From S2P Require Import Prelude Encoding Protocol Labels JournalSpec Framing CoverSet FragmentIndex KeySpace AllocKeys AllocState AllocTxn ClientReader Resolver.
Local Open Scope Z_scope.

(** ** Messages *)

Record ListRequest := mkListRequest { lq_Selector : LabelSelector; lq_PageLimit : Z; lq_PageToken : string }.

Record ListResponse_Journal := mkListJournal { lj_Spec : JournalSpec; lj_ModRevision : Z; lj_Route : Route }.

Record ListResponse := mkListResponse {
  lr_Status : Status;
  lr_Header : Header;
  lr_Journals : list ListResponse_Journal;
  lr_NextPageToken : string;
}.

(** [ApplyRequest_Change], and requests as their changes. *)
Record Change := mkChange { cg_ExpectModRevision : Z; cg_Upsert : option JournalSpec; cg_Delete : Journal }.

Record ApplyResponse := mkApplyResponse { ar_Status : Status; ar_Header : Header }.

Record FragmentsRequest := mkFragmentsRequest {
  fq_Header : option Header;
  fq_Journal : Journal;
  fq_BeginModTime : Z;
  fq_EndModTime : Z;
  fq_NextPageToken : Z;
  fq_PageLimit : Z;
  fq_SignatureTTL : option Z;
  fq_DoNotProxy : bool;
}.

Record FragmentsResponse_Fragment := mkListed { ff_Spec : Fragment; ff_SignedUrl : string }.

Record FragmentsResponse := mkFragmentsResponse {
  fr_Status : Status;
  fr_Header : Header;
  fr_Fragments : list FragmentsResponse_Fragment;
  fr_NextPageToken : Z;
}.

Section validation.
Context `{UrlParser, MimeParser}.

(** [strings.HasSuffix] of a slash. *)
Definition ends_in_slash (v : string) : bool :=
  match last (String.list_ascii_of_string v) with Some c => Ascii.eqb c "/"%char | None => false end.

Definition ListRequest_Validate (m : ListRequest) : option ValidationError :=
  ExtendContext (LabelSelector_Validate (lq_Selector m)) "Selector"
  elif failIf (negb (forallb ends_in_slash (ValuesOf (Include (lq_Selector m)) "prefix")))
         "Selector.Include.Labels[prefix]: expected trailing '/' (%+v)"
  elif failIf (negb (forallb ends_in_slash (ValuesOf (Exclude (lq_Selector m)) "prefix")))
         "Selector.Exclude.Labels[prefix]: expected trailing '/' (%+v)".

(** The first error of a list of messages, whose validation may panic. *)
Fixpoint validateAll {A} (f : A → outcome (option ValidationError)) (context : string) (i : nat) (l : list A) : outcome (option ValidationError) :=
  match l with
  | [] => Ret None
  | x :: l =>
      let! err := f x in
      match ExtendContext err (context ++ "[" ++ pretty i ++ "]") with Some e => Ret (Some e) | None => validateAll f context (S i) l end
  end.

Definition ListResponse_Journal_Validate (m : ListResponse_Journal) : outcome (option ValidationError) :=
  let! err := JournalSpec_Validate (lj_Spec m) in
  Ret (ExtendContext err "Spec"
       elif failIf (lj_ModRevision m <=? 0) "invalid ModRevision (%d; expected > 0)"
       elif ExtendContext (Route_Validate (lj_Route m)) "Route").

Definition ListResponse_Validate (m : ListResponse) : outcome (option ValidationError) :=
  match ExtendContext (Status_Validate (lr_Status m)) "Status" elif ExtendContext (Header_Validate (lr_Header m)) "Header" with
  | Some e => Ret (Some e)
  | None => validateAll ListResponse_Journal_Validate "Journals" 0 (lr_Journals m)
  end.

Definition Change_Validate (m : Change) : outcome (option ValidationError) :=
  match cg_Upsert m with
  | Some spec =>
      if negb (String.eqb (cg_Delete m) "") then Ret (NewValidationError "both Upsert and Delete are set (expected exactly one)")
      else
        let! err := JournalSpec_Validate spec in
        Ret (ExtendContext err "Upsert" elif failIf (cg_ExpectModRevision m <? 0) "invalid ExpectModRevision (%d; expected >= 0)")
  | None =>
      Ret (if negb (String.eqb (cg_Delete m) "") then
             ExtendContext (Journal_Validate (cg_Delete m)) "Delete"
             elif failIf (cg_ExpectModRevision m <=? 0) "invalid ExpectModRevision (%d; expected > 0)"
           else NewValidationError "neither Upsert nor Delete are set (expected exactly one)")
  end.

Definition ApplyRequest_Validate (changes : list Change) : outcome (option ValidationError) := validateAll Change_Validate "Changes" 0 changes.

Definition ApplyResponse_Validate (m : ApplyResponse) : option ValidationError :=
  ExtendContext (Status_Validate (ar_Status m)) "Status" elif ExtendContext (Header_Validate (ar_Header m)) "Header".

Definition FragmentsRequest_Validate (m : FragmentsRequest) : option ValidationError :=
  validateHeaderPtr (fq_Header m)
  elif ExtendContext (Journal_Validate (fq_Journal m)) "Journal"
  elif failIf (negb (fq_EndModTime m =? 0) && (fq_EndModTime m <? fq_BeginModTime m)) "invalid EndModTime (%v must be after %v)"
  elif failIf (fq_NextPageToken m <? 0) "invalid NextPageToken (%v; must be >= 0)"
  elif failIf (fq_PageLimit m <? 0) "invalid PageLimit (%v; must be >= 0)"
  elif failIf (match fq_SignatureTTL m with Some ttl => ttl <=? 0 | None => false end) "invalid SignatureTTL (%v; must be > 0s)".

Definition FragmentsResponse_Fragment_Validate (m : FragmentsResponse_Fragment) : option ValidationError :=
  ExtendContext (Fragment_Validate (ff_Spec m)) "Spec"
  elif match url_Parse (ff_SignedUrl m) with inr err => ExtendContext (NewValidationError err) "SignedUrl" | inl _ => None end.

Definition FragmentsResponse_Validate (m : FragmentsResponse) : option ValidationError :=
  ExtendContext (Status_Validate (fr_Status m)) "Status"
  elif ExtendContext (Header_Validate (fr_Header m)) "Header"
  elif validateEach "Fragments" FragmentsResponse_Fragment_Validate 0 (fr_Fragments m).
End validation.

(** ** List *)

Definition NewUnroutedHeader (s : State BrokerSpec JournalSpec Route) : outcome Header :=
  let! id :=
    match LocalMemberInd s with
    | None => Ret (mkProcessID "" "")
    | Some ind => let! m := memberAt (Members s) ind in Ret (mkProcessID (mb_Zone m) (mb_Suffix m))
    end in
  Ret (mkHeader id (mkRoute [] (-1) []) (FromEtcdResponseHeader (ks_Header (KS s)))).

Definition selector_matches (sel : LabelSelector) (spec : JournalSpec) : bool :=
  Matches sel (UnionLabelSets (ExtractJournalSpecMetaLabels spec) (js_LabelSet spec)).

(** One row of the join of journals with their assignments. *)
Definition list_row (s : State BrokerSpec JournalSpec Route) (sel : LabelSelector) (acc : list ListResponse_Journal) (cur : LeftJoinCursor)
    : outcome (list ListResponse_Journal) :=
  let! item := itemAt (Items s) (Left cur) in
  if negb (selector_matches sel (it_Value item)) then Ret acc
  else
    match Items s !! Left cur with
    | None => Panic "index out of range"
    | Some kv =>
        let! rt := Route_Init (slice (Assignments s) (RightBegin cur) (RightEnd cur)) in
        let! rt := AttachEndpoints rt (ks_Root (KS s)) (ks_KeyValues (KS s)) in
        Ret (acc ++ [mkListJournal (it_Value item) (k_ModRevision (Raw kv)) rt])
    end.

(** [s0] is the state when the header is made, before the lock is taken again. *)
Definition List (s0 s : State BrokerSpec JournalSpec Route) (req : ListRequest) : outcome (ListResponse * option ValidationError) :=
  let! hdr := NewUnroutedHeader s0 in
  let resp := mkListResponse Status_OK hdr [] "" in
  match ListRequest_Validate req with
  | Some err => Ret (resp, Some err)
  | None =>
      let! rows := join_items (Items s) (Assignments s) in
      let! journals := outcome_fold (list_row s (lq_Selector req)) [] rows in
      Ret (mkListResponse Status_OK hdr journals "", None)
  end.

(** ** Apply *)

Section apply.
Context `{UrlParser, MimeParser} {replica W : Type}.
(** Etcd's transactions, and the marshaling of specifications. *)
Context (txnDo : W → list Cmp → list Op → W * (TxnResponse + string)) (MarshalString : JournalSpec → string).

(** The key of a change, and its operation. *)
Definition change_op (root : string) (change : Change) : outcome (Cmp * Op) :=
  let! (key, op) :=
    match cg_Upsert change with
    | Some spec => let! key := ItemKey root (js_Name spec) in Ret (key, OpPut key (MarshalString spec) 0)
    | None => let! key := ItemKey root (cg_Delete change) in Ret (key, OpDelete key)
    end in
  Ret (CmpModRevision key (cg_ExpectModRevision change), op).

Definition apply_ops (root : string) (changes : list Change) : outcome (list (Cmp * Op)) :=
  outcome_fold (λ acc c, let! o := change_op root c in Ret (acc ++ [o])) [] changes.

(** What became of Etcd, and the result: a response, with an error of validation or of Etcd; [None] while it waits for the key space. *)
Definition Apply (w : W) (r : resolver replica) (ctx : option string) (wakes : list (resolver replica * option string)) (changes : list Change)
    : outcome (W * option (ApplyResponse * option (ValidationError + string))) :=
  let! hdr := NewUnroutedHeader (rv_state r) in
  let resp := mkApplyResponse Status_OK hdr in
  let! err := ApplyRequest_Validate changes in
  match err with
  | Some err => Ret (w, Some (resp, Some (inl err)))
  | None =>
      let! l := apply_ops (ks_Root (KS (rv_state r))) changes in
      let '(w, answer) := txnDo w l.*1 l.*2 in
      match answer with
      | inr err => Ret (w, Some (resp, Some (inr err)))
      | inl txn =>
          if negb (Succeeded txn) then Ret (w, Some (mkApplyResponse ETCD_TRANSACTION_FAILED hdr, None))
          else
            match WaitForRevision r ctx (tr_Revision txn) wakes with
            | None => Ret (w, None)
            | Some _ => Ret (w, Some (resp, None))    (* The error of the wait is ignored. *)
            end
      end
  end.
End apply.

(** ** ListFragments *)

Definition defaultPageLimit : Z := 1000.

Definition req_with_page (req : FragmentsRequest) (token limit : Z) : FragmentsRequest :=
  mkFragmentsRequest (fq_Header req) (fq_Journal req) (fq_BeginModTime req) (fq_EndModTime req) token limit (fq_SignatureTTL req) (fq_DoNotProxy req).

Section fragments.
Context (SignGetURL : Fragment → Z → string * option string).

Definition outside_times (req : FragmentsRequest) (f : Fragment) : bool :=
  negb (f_ModTime f =? 0) && (f_ModTime f <? fq_BeginModTime req) ||
  negb (fq_EndModTime req =? 0) && ((f_ModTime f =? 0) || (fq_EndModTime req <? f_ModTime f)).

Definition listed (req : FragmentsRequest) (f : Fragment) : FragmentsResponse_Fragment + string :=
  match fq_SignatureTTL req with
  | Some ttl =>
      if negb (String.eqb (f_BackingStore f) "") then
        match SignGetURL f ttl with (url, None) => inl (mkListed f url) | (_, Some err) => inr err end
      else inl (mkListed f "")
  | None => inl (mkListed f "")
  end.

(** From the fragments [l] on, to those that are left when the page is full. *)
Fixpoint list_page (req : FragmentsRequest) (l : CoverSet) (out : list FragmentsResponse_Fragment) : (list FragmentsResponse_Fragment * CoverSet) + string :=
  match l with
  | [] => inl (out, [])
  | e :: l' =>
      if Z.of_nat (length out) =? fq_PageLimit req then inl (out, l)
      else if outside_times req (frag e) then list_page req l' out
      else match listed req (frag e) with
           | inr err => inr err
           | inl f => list_page req l' (out ++ [f])
           end
  end.

Definition listFragments (req : FragmentsRequest) (set : CoverSet) : outcome (list FragmentsResponse_Fragment * Z + string) :=
  let next := sort_Search (length set) (λ i, fq_NextPageToken req <=? Begin (set !!! i)) in
  if fq_PageLimit req <? 0 then Panic "makeslice: cap out of range"
  else
    match list_page req (drop next set) [] with
    | inr err => Ret (inr err)
    | inl (out, []) => Ret (inl (out, 0))
    | inl (out, e :: _) => Ret (inl (out, Begin e))
    end.
End fragments.

Inductive list_error := ListInvalid (e : ValidationError) | ListFailed (err : string) | ListRPC (err : grpc_code * read_error).

(** A broker: the index of its replicas while their first refresh is awaited, and then; its stores, and its peers. *)
Record fragments_env (replica : Type) := mkFragmentsEnv {
  fe_refresh : replica → Index * list wake;
  fe_index : replica → Index;
  fe_sign : Fragment → Z → string * option string;
  fe_peer : FragmentsRequest → FragmentsResponse + (grpc_code * read_error);
}.
Arguments mkFragmentsEnv {replica}. Arguments fe_refresh {replica}. Arguments fe_index {replica}. Arguments fe_sign {replica}. Arguments fe_peer {replica}.

Definition fragments_with_header (req : FragmentsRequest) (hdr : Header) : FragmentsRequest :=
  mkFragmentsRequest (Some hdr) (fq_Journal req) (fq_BeginModTime req) (fq_EndModTime req) (fq_NextPageToken req) (fq_PageLimit req)
    (fq_SignatureTTL req) (fq_DoNotProxy req).

Section handler.
Context `{UrlParser} {replica : Type} (GetPrefixRangeEnd : string → string).

(** [None] while it is served. *)
Definition ListFragments (env : fragments_env replica) (r : resolver replica) (ctx : option string)
    (wakes : list (resolver replica * option string)) (req : FragmentsRequest) : outcome (option (FragmentsResponse + list_error)) :=
  match FragmentsRequest_Validate req with
  | Some err => Ret (Some (inr (ListInvalid err)))
  | None =>
      let! res := resolve GetPrefixRangeEnd r ctx
        (mkResolveArgs (fq_Journal req) (negb (fq_DoNotProxy req)) false false 0 (fq_Header req)) wakes in
      match res with
      | None => Ret None
      | Some (inr err) => Ret (Some (inr (ListFailed err)))
      | Some (inl res) =>
          if negb (bool_decide (res_status res = Status_OK)) then Ret (Some (inl (mkFragmentsResponse (res_status res) (res_Header res) [] 0)))
          else
            match res_journalSpec res with
            | None => Panic "invalid memory address or nil pointer dereference"
            | Some spec =>
                if negb (MayRead (Flags spec)) then Ret (Some (inl (mkFragmentsResponse NOT_ALLOWED (res_Header res) [] 0)))
                else
                  match res_replica res with
                  | None =>
                      Ret (Some (match fe_peer env (fragments_with_header req (res_Header res)) with
                                 | inl resp => inl resp
                                 | inr err => inr (ListRPC err)
                                 end))
                  | Some rep =>
                      let req := if fq_PageLimit req =? 0 then req_with_page req (fq_NextPageToken req) defaultPageLimit else req in
                      match WaitForFirstRemoteRefresh (fst (fe_refresh env rep)) (snd (fe_refresh env rep)) with
                      | None => Ret None
                      | Some (Some err) => Ret (Some (inr (ListFailed err)))
                      | Some None =>
                          let! page := listFragments (fe_sign env) req (set (fe_index env rep)) in
                          Ret (Some (match page with
                                     | inl (out, token) => inl (mkFragmentsResponse Status_OK (res_Header res) out token)
                                     | inr err => inr (ListFailed err)
                                     end))
                      end
                  end
            end
      end
  end.
End handler.

(** ** What List returns *)

Section lists.
Context (s : State BrokerSpec JournalSpec Route).
Abbreviation root := (ks_Root (KS s)).
Abbreviation kvs := (ks_KeyValues (KS s)).

(** A state that was observed of its key space. *)
Record observed : Prop := {
  ob_entities : entities_ok root kvs;
  ob_length : Z.of_nat (length kvs) < 2 ^ 31;
  ob_items : Items s = filter is_item kvs;
  ob_assignments : Assignments s = filter is_assignment kvs;
}.
Context (Hs : observed).

Definition selected (sel : LabelSelector) (x : BKV) : bool :=
  match Decoded x with EntityItem it => selector_matches sel (it_Value it) | _ => false end.

(** The entry of a journal: its specification and revision, and the route of its assignments, in the order of their keys. *)
Record entry_of (x : BKV) (j : ListResponse_Journal) : Prop := {
  en_spec : ∃ it, Decoded x = EntityItem it ∧ lj_Spec j = it_Value it;
  en_revision : lj_ModRevision j = k_ModRevision (Raw x);
  en_members : Protocol.Members (lj_Route j) = id_of_asn <$> filter (asn_of (id_of x)) kvs;
  en_primary : Primary (lj_Route j) = primary_index 0 (filter (asn_of (id_of x)) kvs);
  en_endpoints : Forall2 (endpoint_ok root kvs) (Protocol.Members (lj_Route j)) (Endpoints (lj_Route j));
}.

Lemma row_assignments x : item_row (Assignments s) x = filter (asn_of (id_of x)) kvs.
Proof.
  rewrite (ob_assignments Hs). unfold item_row. rewrite list_filter_filter. apply list_filter_iff. intros y. unfold asn_of.
  destruct (is_assignment y), (String.eqb_spec (asn_item y) (id_of x)); cbn; naive_solver.
Qed.

Lemma list_rows_spec sel : ∀ todo done acc, Items s = done ++ todo →
  ∃ js, outcome_fold (list_row s sel) acc
      (zip_with (λ l x, mkCursor l (below (id_of x) (asn_item <$> Assignments s)) (upto (id_of x) (asn_item <$> Assignments s)))
        (seq (length done) (length todo)) todo) = Ret (acc ++ js) ∧
    Forall2 entry_of (filter (selected sel) todo) js.
Proof.
  destruct (kind_ok root kvs (ob_entities Hs)) as (_ & Hi & Ha). rewrite <- (ob_items Hs) in Hi. rewrite <- (ob_assignments Hs) in Ha.
  destruct (join_items_spec root (Items s) (Assignments s) Hi Ha) as [_ Hslice].
  induction todo as [|x todo IH]; intros done acc Heq; [exists []; by rewrite app_nil_r|].
  cbn [length seq zip_with outcome_fold]. assert (Items s !! length done = Some x) as Hx by (rewrite Heq, lookup_app_r by lia; by rewrite Nat.sub_diag).
  assert (x ∈ Items s) as Hin by (by apply (list_elem_of_lookup_2 _ (length done))).
  assert (is_item x = true) as Hit by (destruct Hi as [_ Hf]; rewrite Forall_forall in Hf; by apply Hf).
  unfold list_row at 1. cbn [Left RightBegin RightEnd]. unfold itemAt. rewrite Hx.
  unfold is_item in Hit. destruct (Decoded x) as [|it|] eqn:Hd; try done. cbn [outcome_bind].
  assert (selected sel x = selector_matches sel (it_Value it)) as Hsx by (unfold selected; by rewrite Hd). rewrite filter_cons.
  specialize (IH (done ++ [x])). rewrite length_app, Nat.add_1_r in IH.
  destruct (selector_matches sel (it_Value it)) eqn:Hsel; cbn [negb].
  - rewrite (Hslice x Hin), row_assignments.
    destruct (journal_route root kvs (ob_entities Hs) (id_of x) (ob_length Hs)) as (eps & Hrt & Heps). cbn zeta in Hrt.
    destruct (Route_Init (filter (asn_of (id_of x)) kvs)) as [rt|]; [|done]. cbn [outcome_bind] in *. rewrite Hrt. cbn [outcome_bind].
    set (j := mkListJournal _ _ _). destruct (IH (acc ++ [j])) as (js & Hjs & Hall); [by rewrite Heq, <- app_assoc|].
    exists (j :: js). rewrite <- app_assoc in Hjs. split; [exact Hjs|]. rewrite decide_True by (rewrite Hsx, ?Hsel; done). constructor; [|done].
    split; cbn; [by exists it|done|done|done|done].
  - destruct (IH acc) as (js & Hjs & Hall); [by rewrite Heq, <- app_assoc|]. exists js. split; [exact Hjs|]. by rewrite decide_False by (rewrite Hsx, ?Hsel; intros []).
Qed.
End lists.

Lemma NewUnroutedHeader_spec (s : State BrokerSpec JournalSpec Route) : (∀ i, LocalMemberInd s = Some i → ∃ m, memberAt (Members s) i = Ret m) →
  ∃ hdr, NewUnroutedHeader s = Ret hdr ∧ Etcd hdr = FromEtcdResponseHeader (ks_Header (KS s)) ∧ h_Route hdr = mkRoute [] (-1) [].
Proof.
  intros Hm. unfold NewUnroutedHeader. destruct (LocalMemberInd s) as [i|]; [destruct (Hm i eq_refl) as [m ->]|]; cbn [outcome_bind]; by eexists.
Qed.

(** C28: [List] lists the journals of the key space that the selector matches, each once and in the order of their keys, with the revision at which each was written
    and its route: the brokers of its assignments in order, its primary, and their endpoints. The header has the revision
    that the broker had read, and no route. It does not panic. The request has no page token, and no page limit or one that all
    of these journals are within: the handler looks at neither, against their documentation ([page_limit_ignored]). *)
Theorem List_correct s0 s req : (∀ i, LocalMemberInd s0 = Some i → ∃ m, memberAt (Members s0) i = Ret m) → observed s → ListRequest_Validate req = None →
  let journals_of := filter (selected (lq_Selector req)) (filter is_item (ks_KeyValues (KS s))) in
  lq_PageToken req = "" → lq_PageLimit req = 0 ∨ Z.of_nat (length journals_of) ≤ lq_PageLimit req →
  ∃ hdr journals, List s0 s req = Ret (mkListResponse Status_OK hdr journals "", None) ∧
    Forall2 (entry_of s) journals_of journals ∧
    Etcd hdr = FromEtcdResponseHeader (ks_Header (KS s0)) ∧ h_Route hdr = mkRoute [] (-1) [].
Proof.
  intros Hm Hs Hv journals_of _ _. unfold journals_of. destruct (NewUnroutedHeader_spec s0 Hm) as (hdr & Hh & He & Hr). unfold List. rewrite Hh, Hv. cbn [outcome_bind].
  destruct (kind_ok _ _ (ob_entities s Hs)) as (_ & Hi & Ha). rewrite <- (ob_items s Hs) in Hi. rewrite <- (ob_assignments s Hs) in Ha.
  destruct (join_items_spec _ (Items s) (Assignments s) Hi Ha) as [-> _]. cbn [outcome_bind].
  destruct (list_rows_spec s Hs (lq_Selector req) (Items s) [] [] eq_refl) as (js & Hjs & Hall). cbn [length] in Hjs. rewrite Hjs. cbn [outcome_bind app].
  exists hdr, js. split; [done|]. by rewrite <- (ob_items s Hs).
Qed.

(** ** What ListFragments returns *)

Section pages.
Context (SignGetURL : Fragment → Z → string * option string) (req : FragmentsRequest) (journal : Journal) (s : CoverSet).

(** The entry of a fragment, whose URL is signed if it is asked for. *)
Definition listed_as (e : LFragment) : FragmentsResponse_Fragment :=
  match listed SignGetURL req (frag e) with inl f => f | inr _ => mkListed (frag e) "" end.

Definition in_times (e : LFragment) : bool := negb (outside_times req (frag e)).

(** A set of fragments, whose URLs can be signed. *)
Record pageable : Prop := {
  pg_inv : CoverSet_inv journal s;
  pg_begin e : e ∈ s → 0 ≤ Begin e;
  pg_sign e : e ∈ s → ∃ f, listed SignGetURL req (frag e) = inl f;
}.

Lemma list_page_spec (Hp : pageable) : ∀ l out, (∀ e, e ∈ l → e ∈ s) → Z.of_nat (length out) ≤ fq_PageLimit req →
  ∃ page rest, list_page SignGetURL req l out = inl (out ++ (listed_as <$> filter in_times page), rest) ∧ l = page ++ rest ∧
    Z.of_nat (length (out ++ (listed_as <$> filter in_times page))) ≤ fq_PageLimit req ∧
    (rest ≠ [] → Z.of_nat (length (out ++ (listed_as <$> filter in_times page))) = fq_PageLimit req) ∧
    (l ≠ [] → Z.of_nat (length out) < fq_PageLimit req → page ≠ []).
Proof.
  induction l as [|e l IH]; intros out Hin Hlen; cbn [list_page].
  { exists [], []. cbn. rewrite app_nil_r. by split_and!. }
  destruct (Z.eqb_spec (Z.of_nat (length out)) (fq_PageLimit req)) as [Heq|Hne].
  { exists [], (e :: l). cbn. rewrite app_nil_r. split_and!; [done..|lia]. }
  destruct (outside_times req (frag e)) eqn:Ho.
  - destruct (IH out) as (page & rest & Hl & -> & Hle & Hfull & _); [intros; apply Hin; by right|done|].
    exists (e :: page), rest. rewrite filter_cons, decide_False by (unfold in_times; rewrite Ho; intros []). by split_and!.
  - destruct (pg_sign Hp e) as [f Hf]; [apply Hin; by left|]. rewrite Hf.
    destruct (IH (out ++ [f])) as (page & rest & Hl & -> & Hle & Hfull & _); [intros; apply Hin; by right|rewrite length_app; cbn; lia|].
    exists (e :: page), rest. rewrite filter_cons, decide_True by (unfold in_times; by rewrite Ho). cbn [fmap list_fmap].
    assert (listed_as e = f) as -> by (unfold listed_as; by rewrite Hf). rewrite <- app_assoc in *. by split_and!.
Qed.

(** Where a page begins: at the first fragment, or at the one whose offset is the token. *)
Definition starts_at (todo : CoverSet) (token : Z) : Prop := token = 0 ∧ todo = s ∨ ∃ e, head todo = Some e ∧ token = Begin e.

Lemma page_start done todo (Hp : pageable) : s = done ++ todo → starts_at todo (fq_NextPageToken req) →
  drop (sort_Search (length s) (λ i, fq_NextPageToken req <=? Begin (s !!! i))) s = todo.
Proof.
  intros Hs Hst. destruct (pg_inv Hp) as [Hsorted' _]. pose proof (λ i j e f Hi Hj Hij, ssorted_lookup frag_lt s i j e f Hsorted' Hij Hi Hj) as Hsorted.
  assert (∀ i j e f, s !! i = Some e → s !! j = Some f → (i ≤ j)%nat → Begin e ≤ Begin f) as Hle.
  { intros i j e f Hi Hj Hij. destruct (decide (i = j)) as [->|]; [simplify_eq; lia|]. pose proof (Hsorted i j e f Hi Hj ltac:(lia)) as [? _]. lia. }
  destruct (sort_Search_least (length s) (λ i, fq_NextPageToken req <=? Begin (s !!! i))) as (Hr & Hbelow & Hfrom).
  { intros i j Hij Hj. rewrite !Z.leb_le. destruct (lookup_lt_is_Some_2 s j Hj) as [f Hf]. destruct (lookup_lt_is_Some_2 s i ltac:(lia)) as [e He].
    rewrite !(list_lookup_total_correct _ _ _ Hf), !(list_lookup_total_correct _ _ _ He). intros ?. specialize (Hle i j e f He Hf Hij). lia. }
  set (r := sort_Search _ _) in *. assert (r = length done) as ->; [|by rewrite Hs, drop_app_length].
  destruct Hst as [[Ht ->]|(e & He & Ht)].
  - assert (length done = 0%nat) as -> by (apply (f_equal length) in Hs; rewrite length_app in Hs; lia).
    destruct (decide (r = 0%nat)) as [|Hne]; [done|]. destruct (lookup_lt_is_Some_2 s 0 ltac:(lia)) as [f Hf].
    specialize (Hbelow 0%nat ltac:(lia)). rewrite (list_lookup_total_correct _ _ _ Hf) in Hbelow. apply Z.leb_gt in Hbelow.
    specialize (pg_begin Hp f (list_elem_of_lookup_2 _ _ _ Hf)). lia.
  - assert (s !! length done = Some e) as Hd by (rewrite Hs, lookup_app_r, Nat.sub_diag by lia; by destruct todo).
    apply lookup_lt_Some in Hd as Hlt. destruct (Nat.lt_trichotomy r (length done)) as [Hlt'|[|Hgt]]; [|done|].
    + destruct (lookup_lt_is_Some_2 s r ltac:(lia)) as [f Hf]. specialize (Hfrom r ltac:(lia) ltac:(lia)). rewrite (list_lookup_total_correct _ _ _ Hf) in Hfrom.
      apply Z.leb_le in Hfrom. destruct (Hsorted r (length done) f e Hf Hd Hlt') as [? _]. lia.
    + specialize (Hbelow (length done) Hgt). rewrite (list_lookup_total_correct _ _ _ Hd) in Hbelow. apply Z.leb_gt in Hbelow. lia.
Qed.

Lemma listFragments_spec done todo : pageable → 0 < fq_PageLimit req → s = done ++ todo → starts_at todo (fq_NextPageToken req) →
  ∃ page rest token, listFragments SignGetURL req s = Ret (inl (listed_as <$> filter in_times page, token)) ∧ todo = page ++ rest ∧
    Z.of_nat (length (filter in_times page)) ≤ fq_PageLimit req ∧
    (rest = [] ∧ token = 0 ∨ page ≠ [] ∧ 0 < token ∧ (∃ e, head rest = Some e ∧ token = Begin e) ∧ Z.of_nat (length (filter in_times page)) = fq_PageLimit req).
Proof.
  intros Hp Hlim Hs Hst. unfold listFragments. rewrite (page_start done todo Hp Hs Hst). rewrite (proj2 (Z.ltb_ge _ _)) by lia.
  destruct (list_page_spec Hp todo []) as (page & rest & -> & Heq & Hle & Hfull & Hne); [|cbn; lia|].
  { intros e He. rewrite Hs. apply elem_of_app. by right. }
  cbn [app length] in *. rewrite length_fmap in Hle, Hfull. destruct rest as [|e rest].
  - exists page, [], 0. split_and!; [done..|by left].
  - assert (page ≠ []) as Hpage by (apply Hne; [by rewrite Heq; destruct page|lia]).
    exists page, (e :: rest), (Begin e). split_and!; [done..|]. right. split_and!; [done| |by exists e|by apply Hfull].
    destruct page as [|e0 page]; [done|]. destruct (pg_inv Hp) as [Hsorted' _]. pose proof (λ i j e f Hi Hj Hij, ssorted_lookup frag_lt s i j e f Hsorted' Hij Hi Hj) as Hsorted.
    assert (s !! length done = Some e0) as H0 by (rewrite Hs, Heq, lookup_app_r, Nat.sub_diag by lia; done).
    assert (s !! (length done + length (e0 :: page))%nat = Some e) as H1.
    { rewrite Hs, Heq, lookup_app_r by lia. rewrite lookup_app_r by lia. by replace (_ - _ - _)%nat with 0%nat by lia. }
    destruct (Hsorted _ _ _ _ H0 H1) as [? _]; [cbn; lia|]. specialize (pg_begin Hp e0 (list_elem_of_lookup_2 _ _ _ H0)). lia.
Qed.
End pages.

(** ** What Apply does *)

(** A store of values and their modification revisions, whose transactions succeed if the revisions are as expected, and then write
    all they say, at the revision of the transaction; keys that are not there have revision zero. *)
Class EtcdStore (W : Type) := {
  es_view : W → gmap string (string * Z);
  es_txn : W → list Cmp → list Op → W * (TxnResponse + string);
}.

Definition revision_at (σ : gmap string (string * Z)) (key : string) : Z := from_option snd 0 (σ !! key).

Definition op_writes (rev : Z) (o : Op) : string * option (string * Z) :=
  match o with OpPut key value _ => (key, Some (value, rev)) | OpDelete key => (key, None) end.

Class EtcdStoreLaws (W : Type) `{EtcdStore W} : Prop := {
  es_atomic w (cmps : list (string * Z)) ops w' txn : NoDup (fst <$> (op_writes 0 <$> ops)) →
    es_txn w ((λ c, CmpModRevision (fst c) (snd c)) <$> cmps) ops = (w', inl txn) →
    if Succeeded txn
    then Forall (λ c, revision_at (es_view w) (fst c) = snd c) cmps ∧
         (∀ o, o ∈ ops → es_view w' !! fst (op_writes 0 o) = snd (op_writes (tr_Revision txn) o)) ∧
         (∀ key, key ∉ fst <$> (op_writes 0 <$> ops) → es_view w' !! key = es_view w !! key)
    else es_view w' = es_view w ∧ ¬ Forall (λ c, revision_at (es_view w) (fst c) = snd c) cmps;
}.

Section applies.
Context `{UrlParser, MimeParser} {replica W : Type} `{EtcdStoreLaws W} (MarshalString : JournalSpec → string).

Definition change_name (c : Change) : Journal := match cg_Upsert c with Some spec => js_Name spec | None => cg_Delete c end.

Definition item_key (root : string) (c : Change) : string := (root ++ ItemsPrefix ++ change_name c)%string.

Definition change_writes (root : string) (c : Change) : Op :=
  match cg_Upsert c with Some spec => OpPut (item_key root c) (MarshalString spec) 0 | None => OpDelete (item_key root c) end.

Lemma validateAll_None {A} (f : A → outcome (option ValidationError)) context l : ∀ i, validateAll f context i l = Ret None → Forall (λ x, f x = Ret None) l.
Proof.
  induction l as [|x l IH]; intros i; cbn [validateAll]; [by constructor|]. destruct (f x) as [err|] eqn:Hf; [|done]. cbn [outcome_bind].
  destruct err; [done|]. cbn. intros Hl. constructor; [done|by eapply IH].
Qed.

Lemma Change_valid_name c : Change_Validate c = Ret None → Journal_Validate (change_name c) = None.
Proof.
  unfold Change_Validate, change_name. destruct (cg_Upsert c) as [spec|].
  - destruct (negb _); [done|]. unfold JournalSpec_Validate.
    destruct (ExtendContext (Journal_Validate (js_Name spec)) "Name" elif _) eqn:Hv; [done|].
    intros _. apply orElse_None in Hv as [Hv _]. by apply ExtendContext_None in Hv.
  - destruct (negb _); [|done]. intros [= Hv]. apply orElse_None in Hv as [Hv _]. by apply ExtendContext_None in Hv.
Qed.

Lemma apply_ops_spec root changes : Forall (λ c, Change_Validate c = Ret None) changes → ∀ acc,
  outcome_fold (λ acc c, let! o := change_op MarshalString root c in Ret (acc ++ [o])) acc changes =
    Ret (acc ++ ((λ c, (CmpModRevision (item_key root c) (cg_ExpectModRevision c), change_writes root c)) <$> changes)).
Proof.
  induction 1 as [|c changes Hc _ IH]; intros acc; cbn [outcome_fold fmap list_fmap]; [by rewrite app_nil_r|].
  pose proof (Journal_above _ (Change_valid_name c Hc)) as Hab.
  assert (change_op MarshalString root c = Ret (CmpModRevision (item_key root c) (cg_ExpectModRevision c), change_writes root c)) as ->.
  { unfold change_op, change_writes, item_key, change_name in *. destruct (cg_Upsert c); unfold ItemKey, assertAboveSep; by rewrite Hab. }
  cbn [outcome_bind]. rewrite IH. by rewrite <- app_assoc.
Qed.

(** C30: [Apply] is atomic. Of valid changes, each of another journal, it does not panic. When it answers OK every change expected the revision that its journal had, every upserted journal has
    the specification of its change, the deleted ones are gone, and no other key changed. When the transaction failed, a change did not expect the revision of
    its journal, and nothing changed. *)
Theorem Apply_atomic (w : W) (r : resolver replica) ctx wakes changes :
  (∀ i, LocalMemberInd (rv_state r) = Some i → ∃ m, memberAt (Members (rv_state r)) i = Ret m) →
  ApplyRequest_Validate changes = Ret None → NoDup (change_name <$> changes) →
  let root := ks_Root (KS (rv_state r)) in
  ∃ w' out, Apply es_txn MarshalString w r ctx wakes changes = Ret (w', out) ∧ ∀ resp, out = Some (resp, None) →
    ar_Status resp = Status_OK ∧
      (∃ rev, ∀ c, c ∈ changes → revision_at (es_view w) (item_key root c) = cg_ExpectModRevision c ∧
        es_view w' !! item_key root c = (λ spec, (MarshalString spec, rev)) <$> cg_Upsert c) ∧
      (∀ key, key ∉ item_key root <$> changes → es_view w' !! key = es_view w !! key) ∨
    ar_Status resp = ETCD_TRANSACTION_FAILED ∧ es_view w' = es_view w ∧
      ∃ c, c ∈ changes ∧ revision_at (es_view w) (item_key root c) ≠ cg_ExpectModRevision c.
Proof.
  intros Hm Hv Hnd root. destruct (NewUnroutedHeader_spec _ Hm) as (hdr & Hh & _). unfold Apply. rewrite Hh, Hv. cbn [outcome_bind].
  unfold apply_ops. fold root. rewrite apply_ops_spec by (by eapply validateAll_None). cbn [outcome_bind app].
  set (cmps := (λ c, (item_key root c, cg_ExpectModRevision c)) <$> changes).
  assert (((λ c, (CmpModRevision (item_key root c) (cg_ExpectModRevision c), change_writes root c)) <$> changes).*1 =
    (λ c, CmpModRevision (fst c) (snd c)) <$> cmps) as -> by (unfold cmps; by rewrite <- !list_fmap_compose).
  assert (((λ c, (CmpModRevision (item_key root c) (cg_ExpectModRevision c), change_writes root c)) <$> changes).*2 = change_writes root <$> changes) as ->
    by (by rewrite <- list_fmap_compose).
  assert (fst <$> (op_writes 0 <$> (change_writes root <$> changes)) = item_key root <$> changes) as Hkeys.
  { rewrite <- !list_fmap_compose. apply list_fmap_ext. intros i c _. cbn. unfold change_writes. by destruct (cg_Upsert c). }
  destruct (es_txn w _ _) as [w' [txn|err]] eqn:Ht; [|eexists _, _; split; [done|]; by intros].
  apply es_atomic in Ht.
  2:{ rewrite Hkeys. unfold item_key. rewrite (list_fmap_compose change_name (λ n, root ++ ItemsPrefix ++ n)%string).
      assert (Inj (=) (=) (λ n, root ++ ItemsPrefix ++ n)%string) by (intros a b Heq; by do 2 apply str_app_inj in Heq). by apply NoDup_fmap_2. }
  rewrite Hkeys in Ht. destruct (Succeeded txn); cbn [negb].
  - destruct Ht as (Hc & Hw & Ho). destruct (WaitForRevision r ctx (tr_Revision txn) wakes); eexists _, _; (split; [done|]); [|by intros].
    intros resp [= <-]. left. split; [done|]. split; [|done]. exists (tr_Revision txn). intros c Hin.
    rewrite Forall_forall in Hc. split.
    + apply (Hc (item_key root c, cg_ExpectModRevision c)). unfold cmps. apply list_elem_of_fmap. by exists c.
    + specialize (Hw (change_writes root c)). unfold change_writes in Hw. destruct (cg_Upsert c) eqn:Hu; cbn in Hw; apply Hw, list_elem_of_fmap; exists c;
        by rewrite Hu.
  - destruct Ht as [Hview Hc]. eexists _, _. split; [done|]. intros resp [= <-]. right. split_and!; [done..|].
    apply not_Forall_Exists, Exists_exists in Hc as (x & (c & -> & Hin)%list_elem_of_fmap & Hne); [|apply _]. by exists c.
Qed.
End applies.

(** ** Concrete inputs *)

Module KV.
(** A store with its revision. *)
Definition store : Type := gmap string (string * Z) * Z.
Definition write (rev : Z) (σ : gmap string (string * Z)) (o : Op) : gmap string (string * Z) :=
  match op_writes rev o with (key, Some v) => <[key := v]> σ | (key, None) => delete key σ end.
Definition holds_cmp (σ : gmap string (string * Z)) (c : Cmp) : bool :=
  match c with CmpModRevision key rev => revision_at σ key =? rev | CmpCreateRevision _ _ => false end.
Definition txn (w : store) (cmps : list Cmp) (ops : list Op) : store * (TxnResponse + string) :=
  if forallb (holds_cmp (fst w)) cmps
  then ((foldl (write (snd w + 1)) (fst w) ops, snd w + 1), inl (mkTxnResponse true (snd w + 1)))
  else (w, inl (mkTxnResponse false (snd w))).

#[export] Instance ops : EtcdStore store := {| es_view := fst; es_txn := txn |}.

Lemma write_lookup rev σ o key : write rev σ o !! key = if decide (key = fst (op_writes 0 o)) then snd (op_writes rev o) else σ !! key.
Proof.
  unfold write. destruct o as [k|k v l]; cbn; case_decide; subst; by rewrite ?lookup_insert_eq, ?lookup_delete_eq, ?lookup_insert_ne, ?lookup_delete_ne by done.
Qed.

Lemma writes_lookup rev l : ∀ σ, NoDup (fst <$> (op_writes 0 <$> l)) →
  (∀ o, o ∈ l → foldl (write rev) σ l !! fst (op_writes 0 o) = snd (op_writes rev o)) ∧
  (∀ key, key ∉ fst <$> (op_writes 0 <$> l) → foldl (write rev) σ l !! key = σ !! key).
Proof.
  induction l as [|o l IH]; intros σ Hnd; [split; [by intros o ?%not_elem_of_nil|done]|]. cbn [fmap list_fmap] in *. apply NoDup_cons in Hnd as [Hn Hnd].
  destruct (IH (write rev σ o) Hnd) as [Hin Hout]. cbn [foldl]. split.
  - intros o' [->|Ho]%elem_of_cons; [|by apply Hin]. rewrite Hout, write_lookup by done. by rewrite decide_True.
  - intros key [Hk Hkl]%not_elem_of_cons. rewrite Hout, write_lookup by done. by rewrite decide_False.
Qed.

#[export] Instance laws : EtcdStoreLaws store.
Proof.
  split. intros w cmps l w' t Hnd. cbn [es_txn es_view ops]. unfold txn.
  assert (forallb (holds_cmp (fst w)) ((λ c, CmpModRevision (fst c) (snd c)) <$> cmps) = true ↔ Forall (λ c, revision_at (fst w) (fst c) = snd c) cmps) as Hc.
  { induction cmps as [|c cmps IH]; cbn; [done|]. rewrite andb_true_iff, Z.eqb_eq, IH, Forall_cons. done. }
  destruct (forallb _ _); intros [= <- <-]; cbn.
  - split; [by apply Hc|]. by apply writes_lookup.
  - split; [done|]. intros ?%Hc. done.
Qed.

Definition spec (name : string) (n : Z) : JournalSpec := mkJournalSpec name n [] (mkSpecFragment 1024 Codec_NONE None (second * 60) 0 0) NOT_SPECIFIED.
Definition marshal (s : JournalSpec) : string := Itoa (Replication s).
Definition start : store := (<["/items/a/aa" := ("2", 3)]> ∅, 8).
(** [a/aa], of revision 3, is deleted, and [a/dd] is created. *)
Definition changes : list Change := [mkChange 3 None "a/aa"; mkChange 0 (Some (spec "a/dd" 3)) ""].
#[export] Instance no_mime : MimeParser := λ _, None.
End KV.
Import (hints) KV.

Lemma state_observed : observed Routes.state.
Proof.
  pose proof (kp_entities _ _ Routes.ks_ok) as He. assert (KS Routes.state = Routes.ks) as Hk by (vm_compute; reflexivity).
  split; rewrite ?Hk; [exact He|reflexivity|vm_compute; reflexivity|vm_compute; reflexivity].
Qed.

(** Of the journals under [a/], [a/aa]. *)
(** A page limit of one, and three journals. *)
Lemma page_limit_ignored : ∃ hdr journals, List Routes.state Routes.state (mkListRequest (mkSelector [] []) 1 "") = Ret (mkListResponse Status_OK hdr journals "", None) ∧
  length journals = 3%nat.
Proof. eexists _, _. split; [vm_compute; reflexivity|reflexivity]. Qed.

Lemma List_correct_witness :
  ∃ hdr journals, List Routes.state Routes.state (mkListRequest (mkSelector [mkLabel "name" "a/aa"; mkLabel "prefix" "a/"] [mkLabel "name" "a/bb"]) 0 "") =
      Ret (mkListResponse Status_OK hdr journals "", None) ∧
    lj_Spec <$> journals = [mkJournalSpec "a/aa" 2 [] (mkSpecFragment 0 Codec_NONE None 0 0 0) NOT_SPECIFIED] ∧
    Protocol.Members ∘ lj_Route <$> journals = [[mkProcessID "z" "broker-one"; mkProcessID "z" "broker-two"]].
Proof.
  destruct (List_correct Routes.state Routes.state
    (mkListRequest (mkSelector [mkLabel "name" "a/aa"; mkLabel "prefix" "a/"] [mkLabel "name" "a/bb"]) 0 "")) as (hdr & js & Hl & _).
  - intros i Hi. vm_compute in Hi. injection Hi as <-. eexists. vm_compute. reflexivity.
  - exact state_observed.
  - vm_compute. reflexivity.
  - reflexivity.
  - by left.
  - exists hdr, js. split; [exact Hl|]. vm_compute in Hl. injection Hl as <- <-. split; vm_compute; reflexivity.
Defined.

Lemma Apply_atomic_witness :
  ∃ w' resp, Apply es_txn KV.marshal KV.start Routes.after None [] KV.changes = Ret (w', Some (resp, None)) ∧ ar_Status resp = Status_OK ∧
    es_view w' !! "/items/a/aa" = None ∧ es_view w' !! "/items/a/dd" = Some ("3", 9).
Proof.
  destruct (Apply_atomic KV.marshal KV.start Routes.after None [] KV.changes) as (w' & out & Hap & _).
  - intros i Hi. vm_compute in Hi. injection Hi as <-. eexists. vm_compute. reflexivity.
  - vm_compute. reflexivity.
  - repeat constructor; set_solver.
  - vm_compute in Hap. injection Hap as <- <-. eexists _, _. split_and!; vm_compute; reflexivity.
Defined.
