(* ===== verification/ListClient.v ===== *)
(** * Clients that list and apply (src/v2/pkg/client/list.go)

    [ListAllJournals] and [ListAllFragments] join the pages of their RPCs, [ApplyJournalsInBatches] splits changes into
    transactions, and a [PolledList] repeats the first. The client of the RPCs is the class [JournalClient]; the theorem on
    fragments is of clients of the brokers of ListApi.v. *)
From S2P Require Import Prelude Encoding Protocol Labels JournalSpec Framing CoverSet FragmentIndex KeySpace AllocKeys AllocState AllocTxn ClientReader Resolver ListApi.
Local Open Scope Z_scope.

(** ** Calls *)

Abbreviation rpc_error := (grpc_code * read_error)%type.

Inductive call_error :=
| CallFailed (e : client_error)
| CallInvalid (e : ValidationError)
| CallStatus (s : Status).

(** A [JournalClient], with the error of the context of its calls; [jl_UpdateRoute] does nothing where it is no [DispatchRouter]. *)
Class JournalClient (W : Type) := {
  jl_List : W → ListRequest → W * (ListResponse + rpc_error);
  jl_Apply : W → list Change → W * (ApplyResponse + rpc_error);
  jl_ListFragments : W → FragmentsRequest → W * (FragmentsResponse + rpc_error);
  jl_UpdateRoute : W → Journal → Route → W;
  jl_ctx : W → option ctx_error;
}.

Definition list_with_token (req : ListRequest) (token : string) : ListRequest := mkListRequest (lq_Selector req) (lq_PageLimit req) token.

(** The first response, and the journals of those that follow. *)
Definition join_lists (resp : option ListResponse) (r : ListResponse) : ListResponse :=
  match resp with
  | None => mkListResponse (lr_Status r) (lr_Header r) (lr_Journals r) ""
  | Some resp => mkListResponse (lr_Status resp) (lr_Header resp) (lr_Journals resp ++ lr_Journals r) (lr_NextPageToken resp)
  end.

Definition join_pages (resp : option FragmentsResponse) (r : FragmentsResponse) : FragmentsResponse :=
  match resp with
  | None => mkFragmentsResponse (fr_Status r) (fr_Header r) (fr_Fragments r) 0
  | Some resp => mkFragmentsResponse (fr_Status resp) (fr_Header resp) (fr_Fragments resp ++ fr_Fragments r) (fr_NextPageToken resp)
  end.

Definition ApplyResponse_zero : ApplyResponse := mkApplyResponse Status_OK (mkHeader (mkProcessID "" "") (mkRoute [] 0 []) (mkEtcd 0 0 0 0)).

Section client.
Context {W : Type} `{JournalClient W, UrlParser, MimeParser}.

(** Loops take fuel for their calls, and are [None] without. *)
Fixpoint list_loop (fuel : nat) (w : W) (req : ListRequest) (resp : option ListResponse) : outcome (option (W * option ListResponse * option call_error)) :=
  match fuel with
  | O => Ret None
  | S fuel =>
      let '(w, r) := jl_List w req in
      match r with
      | inr err => Ret (Some (w, resp, Some (CallFailed (mapGRPCCtxErr (jl_ctx w) err))))
      | inl r =>
          let! invalid := ListResponse_Validate r in
          match invalid with
          | Some err => Ret (Some (w, resp, Some (CallInvalid err)))
          | None =>
              if negb (bool_decide (lr_Status r = Status_OK)) then Ret (Some (w, resp, Some (CallStatus (lr_Status r))))
              else if String.eqb (lr_NextPageToken r) "" then Ret (Some (w, Some (join_lists resp r), None))
              else list_loop fuel w (list_with_token req (lr_NextPageToken r)) (Some (join_lists resp r))
          end
      end
  end.

Definition update_routes (w : W) (resp : ListResponse) : W :=
  foldl (λ w j, jl_UpdateRoute w (js_Name (lj_Spec j)) (lj_Route j)) w (lr_Journals resp).

Definition ListAllJournals (fuel : nat) (w : W) (req : ListRequest) : outcome (option (W * option ListResponse * option call_error)) :=
  let! res := list_loop fuel w req None in
  match res with
  | Some (w, resp, None) =>
      match resp with
      | None => Panic "invalid memory address or nil pointer dereference"
      | Some r => Ret (Some (update_routes w r, resp, None))
      end
  | res => Ret res
  end.

(** A [PolledList], with its most recent response. *)
Record PolledList := mkPolledList { pl_req : ListRequest; pl_resp : ListResponse }.

Definition NewPolledList (fuel : nat) (w : W) (req : ListRequest) : outcome (option (W * (PolledList + call_error))) :=
  let! res := ListAllJournals fuel w req in
  match res with
  | None => Ret None
  | Some (w, _, Some err) => Ret (Some (w, inr err))
  | Some (w, None, None) => Panic "invalid memory address or nil pointer dereference"
  | Some (w, Some resp, None) => Ret (Some (w, inl (mkPolledList req resp)))
  end.

(** A tick of [periodicRefresh]: errors are logged. *)
Definition periodicRefresh (fuel : nat) (w : W) (pl : PolledList) : outcome (option (W * PolledList)) :=
  let! res := ListAllJournals fuel w (pl_req pl) in
  match res with
  | None => Ret None
  | Some (w, Some resp, None) => Ret (Some (w, mkPolledList (pl_req pl) resp))
  | Some (w, _, _) => Ret (Some (w, pl))
  end.

(** From the changes [rest] on. *)
Fixpoint apply_batches (fuel : nat) (w : W) (rest : list Change) (size : Z) : outcome (option (W * option ApplyResponse * option call_error)) :=
  match fuel with
  | O => Ret None
  | S fuel =>
      let! cur :=
        if size <? Z.of_nat (length rest)
        then if size <? 0 then Panic "slice bounds out of range" else Ret (take (Z.to_nat size) rest)
        else Ret rest in
      let '(w, r) := jl_Apply w cur in
      match r with
      | inr err => Ret (Some (w, None, Some (CallFailed (ErrSource (snd err)))))
      | inl resp =>
          match ApplyResponse_Validate resp with
          | Some err => Ret (Some (w, Some resp, Some (CallInvalid err)))
          | None =>
              if negb (bool_decide (ar_Status resp = Status_OK)) then Ret (Some (w, Some resp, Some (CallStatus (ar_Status resp))))
              else
                let rest := drop (length cur) rest in
                if Nat.eqb (length rest) 0 then Ret (Some (w, Some resp, None)) else apply_batches fuel w rest size
          end
      end
  end.

Definition ApplyJournalsInBatches (fuel : nat) (w : W) (changes : list Change) (size : Z) : outcome (option (W * option ApplyResponse * option call_error)) :=
  if Nat.eqb (length changes) 0 then Ret (Some (w, Some ApplyResponse_zero, None))
  else apply_batches fuel w changes (if size =? 0 then Z.of_nat (length changes) else size).

Definition ApplyJournals (fuel : nat) (w : W) (changes : list Change) : outcome (option (W * option ApplyResponse * option call_error)) :=
  ApplyJournalsInBatches fuel w changes 0.

Fixpoint fragments_loop (fuel : nat) (w : W) (req : FragmentsRequest) (resp : option FragmentsResponse) : option (W * option FragmentsResponse * option call_error) :=
  match fuel with
  | O => None
  | S fuel =>
      let '(w, r) := jl_ListFragments w req in
      match r with
      | inr err => Some (w, resp, Some (CallFailed (mapGRPCCtxErr (jl_ctx w) err)))
      | inl r =>
          match FragmentsResponse_Validate r with
          | Some err => Some (w, resp, Some (CallInvalid err))
          | None =>
              if negb (bool_decide (fr_Status r = Status_OK)) then Some (w, resp, Some (CallStatus (fr_Status r)))
              else if fr_NextPageToken r =? 0 then Some (w, Some (join_pages resp r), None)
              else fragments_loop fuel w (req_with_page req (fr_NextPageToken r) (fq_PageLimit req)) (Some (join_pages resp r))
          end
      end
  end.

Definition ListAllFragments (fuel : nat) (w : W) (req : FragmentsRequest) : option (W * option FragmentsResponse * option call_error) :=
  fragments_loop fuel w req None.
End client.

(** ** Batches *)

Section batches.
Context {W : Type} `{JournalClient W, UrlParser, MimeParser}.

(** The client after it sent batches, and that each was applied. *)
Definition sent_all (w : W) (bs : list (list Change)) : W := foldl (λ w b, fst (jl_Apply w b)) w bs.

Fixpoint accepted (w : W) (bs : list (list Change)) : Prop :=
  match bs with
  | [] => True
  | b :: bs => (∃ resp, snd (jl_Apply w b) = inl resp ∧ ApplyResponse_Validate resp = None ∧ ar_Status resp = Status_OK) ∧ accepted (fst (jl_Apply w b)) bs
  end.

Lemma apply_batches_spec size : 0 < size → ∀ fuel w rest, (length rest ≤ fuel)%nat → rest ≠ [] →
  ∃ w' resp err bs left, apply_batches fuel w rest size = Ret (Some (w', resp, err)) ∧ rest = concat bs ++ left ∧ w' = sent_all w bs ∧
    Forall (λ b, b ≠ [] ∧ Z.of_nat (length b) ≤ size) bs ∧
    (∀ i b, bs !! i = Some b → concat (drop (S i) bs) ++ left ≠ [] → Z.of_nat (length b) = size) ∧
    match err with None => left = [] ∧ accepted w bs | Some _ => ∃ bs' b, bs = bs' ++ [b] ∧ accepted w bs' end.
Proof.
  intros Hsize. induction fuel as [|fuel IH]; intros w rest Hf Hne; [destruct rest; [done|cbn in Hf; lia]|]. cbn [apply_batches].
  set (cur := if size <? Z.of_nat (length rest) then take (Z.to_nat size) rest else rest).
  assert ((if size <? Z.of_nat (length rest) then if size <? 0 then Panic "slice bounds out of range" else Ret (take (Z.to_nat size) rest) else Ret rest) = Ret cur) as ->.
  { unfold cur. rewrite (proj2 (Z.ltb_ge size 0)) by lia. by destruct (size <? Z.of_nat (length rest)). }
  assert (rest = cur ++ drop (length cur) rest ∧ cur ≠ [] ∧ Z.of_nat (length cur) ≤ size ∧ (drop (length cur) rest ≠ [] → Z.of_nat (length cur) = size))
    as (Hrest & Hcur & Hle & Hfull).
  { unfold cur. destruct (Z.ltb_spec size (Z.of_nat (length rest))) as [Hlt|Hge].
    - rewrite length_take. replace (Z.to_nat size `min` length rest)%nat with (Z.to_nat size) by lia. rewrite take_drop. split_and!; [done| |lia|intros; lia].
      intros Hnil%(f_equal length). rewrite length_take in Hnil. cbn in Hnil. lia.
    - rewrite drop_all, app_nil_r. split_and!; [done|done|lia|done]. }
  cbn [outcome_bind]. set (left := drop (length cur) rest) in *.
  destruct (jl_Apply w cur) as [w1 r] eqn:Hap.
  assert (∀ (resp : option ApplyResponse) (err : option call_error), err ≠ None → ∃ w' resp' err' bs left', Ret (Some (w1, resp, err)) = Ret (Some (w', resp', err')) ∧ rest = concat bs ++ left' ∧ w' = sent_all w bs ∧
    Forall (λ b, b ≠ [] ∧ Z.of_nat (length b) ≤ size) bs ∧ (∀ i b, bs !! i = Some b → concat (drop (S i) bs) ++ left' ≠ [] → Z.of_nat (length b) = size) ∧
    match err' with None => left' = [] ∧ accepted w bs | Some _ => ∃ bs' b, bs = bs' ++ [b] ∧ accepted w bs' end) as Hfail.
  { intros resp err He. exists w1, resp, err, [cur], left. split_and!; [done|cbn; by rewrite app_nil_r|cbn; by rewrite Hap|by repeat constructor| |].
    - intros [|i] b; [|done]. intros [= <-]. cbn. apply Hfull.
    - destruct err; [|done]. by exists [], cur. }
  destruct r as [resp|err]; [|by apply Hfail]. destruct (ApplyResponse_Validate resp) eqn:Hv; [by apply Hfail|].
  case_bool_decide as Hst; cbn [negb]; [|by apply Hfail].
  assert (∀ bs, accepted w1 bs → accepted w (cur :: bs)) as Hacc by (intros bs Hbs; cbn [accepted]; rewrite Hap; split; [by exists resp|done]).
  destruct (Nat.eqb_spec (length left) 0) as [Hz%nil_length_inv|Hnz].
  - exists w1, (Some resp), None, [cur], []. rewrite Hz, app_nil_r in Hrest. split_and!; [done|cbn; by rewrite !app_nil_r|cbn; by rewrite Hap|by repeat constructor| |done|].
    + intros [|i] b; [|done]. intros [= <-]. cbn. done.
    + by apply Hacc.
  - assert (length rest = length cur + length left)%nat as Hl by (by rewrite Hrest at 1; rewrite length_app).
    assert (0 < length cur)%nat by (destruct cur; [done|cbn; lia]).
    destruct (IH w1 left) as (w' & resp' & err & bs & left' & -> & Hb & Hw & Hall & Hsz & He); [lia|by intros Hn; rewrite Hn in Hnz|].
    exists w', resp', err, (cur :: bs), left'. split_and!; [done|by rewrite Hrest, Hb; cbn; rewrite app_assoc|cbn; by rewrite Hap|by constructor| |].
    + intros [|i] b; [|apply Hsz]. intros [= <-] _. apply Hfull. intros Hn. by rewrite Hn in Hnz.
    + destruct err as [e|]; [|by destruct He as [-> ?]; split; [done|by apply Hacc]]. destruct He as (bs' & b & -> & Hbs'). exists (cur :: bs'), b. split; [done|by apply Hacc].
Qed.

(** Changes are sent in their order, in batches of [size] of which the last may be shorter (in one, if [size] is zero), until they are all applied or
    a batch fails. *)
Theorem ApplyJournalsInBatches_correct w changes size : 0 ≤ size →
  ∃ w' resp err bs left, ApplyJournalsInBatches (length changes) w changes size = Ret (Some (w', resp, err)) ∧ changes = concat bs ++ left ∧ w' = sent_all w bs ∧
    (size = 0 → changes ≠ [] → bs = [changes]) ∧
    (0 < size → Forall (λ b, b ≠ [] ∧ Z.of_nat (length b) ≤ size) bs ∧
      ∀ i b, bs !! i = Some b → concat (drop (S i) bs) ++ left ≠ [] → Z.of_nat (length b) = size) ∧
    match err with None => left = [] ∧ accepted w bs | Some _ => ∃ bs' b, bs = bs' ++ [b] ∧ accepted w bs' end.
Proof.
  intros Hs. unfold ApplyJournalsInBatches. destruct (Nat.eqb_spec (length changes) 0) as [->%nil_length_inv|Hne].
  { eexists _, _, _, [], []. split; [done|]. split_and!; try done. }
  assert (changes ≠ []) as Hc by (by intros ->). set (n := if size =? 0 then Z.of_nat (length changes) else size).
  destruct (apply_batches_spec n) with (fuel := length changes) (w := w) (rest := changes) as (w' & resp & err & bs & left & -> & Hb & Hw & Hall & Hsz & He);
    [unfold n; destruct (Z.eqb_spec size 0); lia|done|done|].
  exists w', resp, err, bs, left. split_and!; [done..| | |done]; unfold n in *; destruct (Z.eqb_spec size 0) as [->|]; try done.
  intros _ _. destruct bs as [|b bs]; [destruct err as [e|]; [by destruct He as ([] & ? & ? & _)|destruct He as [-> _]; by subst]|].
  specialize (Hsz 0%nat b eq_refl). cbn in Hb, Hsz. rewrite drop_0 in Hsz.
  destruct (decide (concat bs ++ left = [])) as [Hn|Hn].
  - apply app_eq_nil in Hn as [Hbs ->]. apply Forall_cons in Hall as [_ Hall]. rewrite Hbs, !app_nil_r in Hb. subst b.
    destruct bs as [|b' bs]; [done|]. apply Forall_cons in Hall as [[Hb' _] _]. cbn in Hbs. by apply app_eq_nil in Hbs as [-> _].
  - specialize (Hsz Hn). apply (f_equal length) in Hb. rewrite <- app_assoc, length_app in Hb. destruct (concat bs ++ left); [done|cbn in Hb; lia].
Qed.
End batches.

(** ** All fragments *)

Definition paged (req : FragmentsRequest) : FragmentsRequest :=
  if fq_PageLimit req =? 0 then req_with_page req (fq_NextPageToken req) defaultPageLimit else req.

Definition with_token (req : FragmentsRequest) (token : Z) : FragmentsRequest := req_with_page req token (fq_PageLimit req).

(** What a call of ListFragments meets. *)
Record fragments_call (replica : Type) := mkFragmentsCall {
  fc_env : fragments_env replica;
  fc_resolver : resolver replica;
  fc_ctx : option string;
  fc_wakes : list (resolver replica * option string);
}.
Arguments mkFragmentsCall {replica}. Arguments fc_env {replica}. Arguments fc_resolver {replica}. Arguments fc_ctx {replica}. Arguments fc_wakes {replica}.

Section pages.
Context `{UrlParser} {replica : Type} (GetPrefixRangeEnd : string → string).
Context (SignGetURL : Fragment → Z → string * option string) (s : CoverSet).

(** A response that is a page of the fragments [s]. *)
Record page_of (req : FragmentsRequest) (resp : FragmentsResponse) : Prop := {
  po_status : fr_Status resp = Status_OK;
  po_header : Header_Validate (fr_Header resp) = None;
  po_page : listFragments SignGetURL (paged req) s = Ret (inl (fr_Fragments resp, fr_NextPageToken resp));
}.

Definition handled (c : fragments_call replica) (req : FragmentsRequest) : outcome (option (FragmentsResponse + list_error)) :=
  ListFragments GetPrefixRangeEnd (fc_env c) (fc_resolver c) (fc_ctx c) (fc_wakes c) req.

Definition answer_of (o : outcome (option (FragmentsResponse + list_error))) : FragmentsResponse + rpc_error :=
  match o with Ret (Some (inl resp)) => inl resp | _ => inr (CodeOther, ReadError "handler failed") end.

(** The journal of [req] resolves, and may be read. *)
Record resolved (c : fragments_call replica) (req : FragmentsRequest) (res : resolution replica) : Prop := {
  rs_resolve : resolve GetPrefixRangeEnd (fc_resolver c) (fc_ctx c)
    (mkResolveArgs (fq_Journal req) (negb (fq_DoNotProxy req)) false false 0 (fq_Header req)) (fc_wakes c) = Ret (Some (inl res));
  rs_status : res_status res = Status_OK;
  rs_header : Header_Validate (res_Header res) = None;
  rs_spec : ∃ spec, res_journalSpec res = Some spec ∧ MayRead (Flags spec) = true;
}.

(** A broker that lists [s]: from the index of its replica, or by a peer that does. *)
Inductive lists_fragments : FragmentsRequest → fragments_call replica → Prop :=
| lists_local req c res rep : resolved c req res → res_replica res = Some rep →
    WaitForFirstRemoteRefresh (fst (fe_refresh (fc_env c) rep)) (snd (fe_refresh (fc_env c) rep)) = Some None →
    set (fe_index (fc_env c) rep) = s → fe_sign (fc_env c) = SignGetURL → lists_fragments req c
| lists_proxied req c res peer : resolved c req res → res_replica res = None →
    (∀ req, fe_peer (fc_env c) req = answer_of (handled peer req)) →
    lists_fragments (fragments_with_header req (res_Header res)) peer → lists_fragments req c.

Lemma list_page_ext req req' : fq_BeginModTime req = fq_BeginModTime req' → fq_EndModTime req = fq_EndModTime req' →
  fq_PageLimit req = fq_PageLimit req' → fq_SignatureTTL req = fq_SignatureTTL req' →
  ∀ l out, list_page SignGetURL req l out = list_page SignGetURL req' l out.
Proof.
  intros Hb He Hl Ht. induction l as [|e l IH]; intros out; [done|]. cbn [list_page]. unfold outside_times, listed. rewrite Hb, He, Hl, Ht.
  destruct (_ =? _); [done|]. destruct (_ || _); [apply IH|]. destruct (fq_SignatureTTL req') as [ttl|]; [|apply IH].
  destruct (negb _); [|apply IH]. destruct (SignGetURL (frag e) ttl) as [url [err|]]; [done|apply IH].
Qed.

Lemma listFragments_header req hdr : listFragments SignGetURL (paged (fragments_with_header req hdr)) s = listFragments SignGetURL (paged req) s.
Proof.
  assert (∀ l out, list_page SignGetURL (paged (fragments_with_header req hdr)) l out = list_page SignGetURL (paged req) l out) as Hl.
  { apply list_page_ext; unfold paged; cbn [fragments_with_header fq_PageLimit]; by destruct (fq_PageLimit req =? 0). }
  unfold listFragments. rewrite Hl. unfold paged. cbn [fragments_with_header fq_PageLimit]. by destruct (fq_PageLimit req =? 0).
Qed.

Lemma with_token_valid req token : FragmentsRequest_Validate req = None → 0 ≤ token → FragmentsRequest_Validate (with_token req token) = None.
Proof.
  unfold FragmentsRequest_Validate. cbn [with_token req_with_page fq_Header fq_Journal fq_BeginModTime fq_EndModTime fq_NextPageToken fq_PageLimit fq_SignatureTTL].
  intros Hv Ht. rewrite (proj2 (Z.ltb_ge token 0)) by lia. rewrite !orElse_None in Hv |- *. intuition.
Qed.

Lemma with_header_valid req hdr : FragmentsRequest_Validate req = None → Header_Validate hdr = None → FragmentsRequest_Validate (fragments_with_header req hdr) = None.
Proof.
  unfold FragmentsRequest_Validate. cbn [fragments_with_header fq_Header fq_Journal fq_BeginModTime fq_EndModTime fq_NextPageToken fq_PageLimit fq_SignatureTTL].
  intros Hv Hh. rewrite !orElse_None in Hv |- *. cbn [validateHeaderPtr]. rewrite Hh. intuition.
Qed.

Lemma lists_token req c token : lists_fragments req c → lists_fragments (with_token req token) c.
Proof.
  intros Hc. induction Hc as [req c res rep [Hr ? ? ?] ? ? ? ?|req c res peer [Hr ? ? ?] ? ? ? IH].
  - by eapply lists_local.
  - by eapply lists_proxied.
Qed.

Lemma handled_page req c page : lists_fragments req c → FragmentsRequest_Validate req = None → listFragments SignGetURL (paged req) s = Ret (inl page) →
  ∃ resp, handled c req = Ret (Some (inl resp)) ∧ page_of req resp ∧ (fr_Fragments resp, fr_NextPageToken resp) = page.
Proof.
  intros Hc. induction Hc as [req c res rep [Hr Hst Hh (spec & Hspec & Hread)] Hrep Hw Hset Hsign|req c res peer [Hr Hst Hh (spec & Hspec & Hread)] Hrep Hpeer Hc IH];
    intros Hv Hp; unfold handled, ListFragments; rewrite Hv, Hr; cbn [outcome_bind]; rewrite Hst, bool_decide_true, Hspec, Hread, Hrep by done; cbn [negb].
  - rewrite Hw, Hset, Hsign. unfold paged in Hp. rewrite Hp. cbn [outcome_bind]. destruct page as [out token]. eexists. split; [done|]. by split.
  - rewrite Hpeer. destruct (IH (with_header_valid _ _ Hv Hh)) as (resp & -> & [Hs' Hh' Hp'] & Hpage); [by rewrite listFragments_header|].
    exists resp. split; [done|]. split; [|done]. split; [done..|]. by rewrite listFragments_header in Hp'.
Qed.
End pages.

Section all_fragments.
Context {W : Type} `{JournalClient W, UrlParser} {replica : Type} (GetPrefixRangeEnd : string → string).
Context (SignGetURL : Fragment → Z → string * option string) (journal : Journal) (s : CoverSet) (req : FragmentsRequest).
Context (Hvalid : FragmentsRequest_Validate req = None) (Hpg : pageable SignGetURL req journal s)
  (Hlisted : ∀ e, e ∈ s → FragmentsResponse_Fragment_Validate (listed_as SignGetURL req e) = None).

(** The next calls of a client are handled by brokers. *)
Fixpoint calls_handled (calls : list (fragments_call replica)) (w : W) : Prop :=
  match calls with
  | [] => True
  | c :: calls => ∀ req, snd (jl_ListFragments w req) = answer_of (handled GetPrefixRangeEnd c req) ∧ calls_handled calls (fst (jl_ListFragments w req))
  end.

Definition page_limit : Z := fq_PageLimit (paged req).

Lemma page_limit_pos : 0 < page_limit.
Proof.
  unfold page_limit, paged, defaultPageLimit. unfold FragmentsRequest_Validate in Hvalid. rewrite !orElse_None, !failIf_None, !Z.ltb_ge in Hvalid.
  destruct (Z.eqb_spec (fq_PageLimit req) 0); cbn; [lia|]. intuition lia.
Qed.
Lemma with_token_page token : fq_PageLimit (paged (with_token req token)) = page_limit ∧ fq_NextPageToken (paged (with_token req token)) = token ∧
  listed_as SignGetURL (paged (with_token req token)) = listed_as SignGetURL req ∧ in_times (paged (with_token req token)) = in_times req.
Proof. unfold page_limit, paged. cbn [with_token req_with_page fq_PageLimit]. by destruct (fq_PageLimit req =? 0). Qed.

Lemma page_valid resp page : fr_Status resp = Status_OK → Header_Validate (fr_Header resp) = None → (∀ e, e ∈ page → e ∈ s) →
  fr_Fragments resp = listed_as SignGetURL req <$> filter (in_times req) page → FragmentsResponse_Validate resp = None.
Proof.
  intros Hs Hh Hin Hf. unfold FragmentsResponse_Validate. rewrite Hs, Hh. rewrite !orElse_None. split_and!; [done|done|].
  rewrite Hf. apply validateEach_None, Forall_fmap, Forall_forall. intros e [_ He]%list_elem_of_filter. cbn. by apply Hlisted, Hin.
Qed.

Lemma fragments_loop_spec calls : ∀ w done todo token resp, calls_handled calls w → Forall (lists_fragments GetPrefixRangeEnd SignGetURL s req) calls →
  s = done ++ todo → starts_at s todo token → 0 ≤ token →
  Z.of_nat (length (filter (in_times req) todo)) < page_limit * Z.of_nat (length calls) →
  (∀ r, resp = Some r → fr_Status r = Status_OK) → from_option fr_Fragments [] resp = listed_as SignGetURL req <$> filter (in_times req) done →
  ∃ w' r, fragments_loop (length calls) w (with_token req token) resp = Some (w', Some r, None) ∧ fr_Status r = Status_OK ∧
    fr_Fragments r = listed_as SignGetURL req <$> filter (in_times req) s.
Proof.
  induction calls as [|c calls IH]; intros w done todo token resp Hcalls Hc Hs Hst Ht Hn Hok Hacc; [cbn in Hn; lia|]. cbn [length fragments_loop].
  apply Forall_cons in Hc as [Hc Hcs]. destruct (Hcalls (with_token req token)) as [Hans Hcalls']. destruct (with_token_page token) as (Hl & Htk & Hla & Hit).
  pose proof page_limit_pos as Hpos.
  destruct (listFragments_spec SignGetURL (paged (with_token req token)) journal s done todo) as (page & rest & token' & Hp & Htodo & Hle & Hend);
    [|by rewrite Hl|done|by rewrite Htk|].
  { destruct Hpg as [? ? Hsg]. split; [done..|]. intros e He. destruct (Hsg e He) as [f Hf]. exists f. revert Hf. unfold paged. by destruct (_ =? _). }
  rewrite Hla, Hit, Hl in *.
  destruct (handled_page _ _ _ _ c _ (lists_token _ _ _ _ _ token Hc) (with_token_valid _ _ Hvalid Ht) Hp) as (r & Hh & [Hstr Hhd _] & [= Hfr Htok]).
  destruct (jl_ListFragments w (with_token req token)) as [w1 r1]. cbn [fst snd] in *. rewrite Hh in Hans. cbn [answer_of] in Hans. subst r1.
  rewrite (page_valid r page Hstr Hhd) by (try done; intros e He; rewrite Hs, Htodo; set_solver). rewrite Hstr, bool_decide_true by done. cbn [negb].
  assert (∀ r', r' = join_pages resp r → fr_Status r' = Status_OK ∧ fr_Fragments r' = listed_as SignGetURL req <$> filter (in_times req) (done ++ page)) as Hjoin.
  { intros r' ->. rewrite filter_app, fmap_app, <- Hacc, <- Hfr. destruct resp as [r0|]; cbn; [|done]. split; [by apply Hok|done]. }
  destruct (Hjoin _ eq_refl) as [Hjs Hjf]. rewrite Htok. destruct Hend as [[-> ->]|(Hpage & Htpos & (e & He & ->) & Hfull)].
  - cbn. rewrite app_nil_r in Htodo. subst todo. eexists _, _. split; [done|]. by rewrite Hs.
  - destruct (Z.eqb_spec (Begin e) 0); [lia|].
    apply (IH w1 (done ++ page) rest (Begin e) (Some (join_pages resp r))); [done|done|by rewrite <- app_assoc, <- Htodo|right; by exists e|lia| |by intros ? [= <-]|done].
    rewrite Htodo, filter_app, length_app in Hn. cbn [length] in Hn. lia.
Qed.

(** The fragment was modified in the time range of the request, as protocol.proto documents it: no earlier than [BeginModTime], and before [EndModTime] if there is
    one. A local fragment was not modified yet; the code documents that it is in the range iff there is no end. *)
Definition in_range (e : LFragment) : bool :=
  if f_ModTime (frag e) =? 0 then fq_EndModTime req =? 0
  else (fq_BeginModTime req <=? f_ModTime (frag e)) && ((fq_EndModTime req =? 0) || (f_ModTime (frag e) <? fq_EndModTime req)).

(** No fragment was modified just at the end. *)
Definition none_at_end : Prop := fq_EndModTime req ≠ 0 → ∀ e, e ∈ s → f_ModTime (frag e) ≠ fq_EndModTime req.

Lemma times_range : none_at_end → filter (in_times req) s = filter in_range s.
Proof.
  unfold none_at_end. clear Hpg Hlisted. intros Hend. induction s as [|e l IH]; [done|]. rewrite !filter_cons.
  assert (in_times req e = in_range e) as ->.
  { specialize (λ H, Hend H e ltac:(by left)). unfold in_times, outside_times, in_range.
    destruct (Z.eqb_spec (f_ModTime (frag e)) 0), (Z.eqb_spec (fq_EndModTime req) 0); cbn; try done.
    - by rewrite orb_false_r, andb_true_r, Z.leb_antisym.
    - rewrite Z.leb_antisym. specialize (Hend n0). destruct (Z.ltb_spec (f_ModTime (frag e)) (fq_BeginModTime req)); [done|]. cbn.
      destruct (Z.ltb_spec (fq_EndModTime req) (f_ModTime (frag e))), (Z.ltb_spec (f_ModTime (frag e)) (fq_EndModTime req)); done || lia. }
  rewrite IH; [done|]. intros Hne e' He'. apply Hend; [done|by right].
Qed.

(** C27: Clients list all fragments. [ListAllFragments] of a client whose calls are handled by brokers that index the fragments [s] of the journal, or that proxy to one, returns each
    fragment of [s] in the time range of the request once and in order, with a signed URL if it asked for one, whatever
    the page limit is; and it returns after one call more at most than there are full pages. The range is the documented one, with an exclusive
    end, provided that no fragment was modified just at the end, of which brokers do list those ([end_is_listed]). The request is valid and
    starts at the first page; the brokers have refreshed their index from stores, resolve the journal, which may be read, and sign URLs that parse. *)
Theorem ListAllFragments_complete calls w : fq_NextPageToken req = 0 → calls_handled calls w → Forall (lists_fragments GetPrefixRangeEnd SignGetURL s req) calls →
  none_at_end → Z.of_nat (length (filter in_range s)) < page_limit * Z.of_nat (length calls) →
  ∃ w' r, ListAllFragments (length calls) w req = Some (w', Some r, None) ∧ fr_Status r = Status_OK ∧
    fr_Fragments r = listed_as SignGetURL req <$> filter in_range s.
Proof.
  intros Ht Hcalls Hc Hend Hn. rewrite <- times_range in Hn |- * by done. assert (req = with_token req 0) as Heq by (unfold with_token, req_with_page; destruct req; cbn in *; by subst).
  pose proof (fragments_loop_spec calls w [] s 0 None Hcalls Hc eq_refl) as Hloop. rewrite <- Heq in Hloop. apply Hloop; try done. by left.
Qed.
End all_fragments.

(** ** A concrete client *)

Module Paging.
Definition entry (b e modified : Z) : LFragment := mkLFragment (mkFragment "a/bb" b e SHA1Sum_zero Codec_NONE "" modified) None.
Definition index : Index := mkIndex [entry 0 4 5; entry 4 6 9; entry 6 9 8] [] 0 true.
Definition no_sign (f : Fragment) (ttl : Z) : string * option string := ("", Some "no store").

(** [two] has a replica, and [one] proxies to it. *)
Definition two : fragments_call (Journal * nat) :=
  mkFragmentsCall (mkFragmentsEnv (λ _, (index, [])) (λ _, index) no_sign (λ _, inr (CodeOther, EOF))) Routes.after None [].
Definition one : fragments_call (Journal * nat) :=
  mkFragmentsCall (mkFragmentsEnv (λ _, (index, [])) (λ _, index) no_sign (λ req, answer_of (handled prefix_end two req))) Routes.resolver_one None [].

(** A client of [ListFragments] alone, with the brokers of its next calls. *)
Definition unavailable : rpc_error := (CodeUnavailable, ReadError "unavailable").
#[export] Instance client : JournalClient (list (fragments_call (Journal * nat))) := {|
  jl_List w req := (w, inr unavailable);
  jl_Apply w changes := (w, inr unavailable);
  jl_ListFragments w req := match w with [] => (w, inr unavailable) | c :: w => (w, answer_of (handled prefix_end c req)) end;
  jl_UpdateRoute w journal rt := w;
  jl_ctx w := None;
|}.

(** Modified at 6 or later and before 10, one fragment for each page. *)
Definition request : FragmentsRequest := mkFragmentsRequest None "a/bb" 6 10 0 1 None false.

(** A fragment that was modified at the end of the range is listed. *)
Lemma end_is_listed : listFragments no_sign (mkFragmentsRequest None "a/bb" 6 9 0 10 None false) (set index) =
  Ret (inl ([mkListed (frag (entry 4 6 9)) ""; mkListed (frag (entry 6 9 8)) ""], 0)).
Proof. vm_compute. reflexivity. Qed.

Lemma index_pageable : pageable no_sign request "a/bb" (set index).
Proof.
  split; [solve_cover_inv| |].
  - intros e He. repeat (apply elem_of_cons in He as [-> |He]; [done|]). by apply not_elem_of_nil in He.
  - intros e He. repeat (apply elem_of_cons in He as [-> |He]; [by eexists|]). by apply not_elem_of_nil in He.
Qed.

Lemma two_lists req : fq_Journal req = "a/bb" → (∃ res, resolved prefix_end two req res ∧ res_replica res = Some ("a/bb", 0%nat)) →
  lists_fragments prefix_end no_sign (set index) req two.
Proof. intros _ (res & Hres & Hrep). by eapply lists_local. Qed.
End Paging.
Import (hints) Paging.

Lemma ListAllFragments_complete_witness :
  ∃ w' r, ListAllFragments 3 [Paging.one; Paging.two; Paging.two] Paging.request = Some (w', Some r, None) ∧
    ff_Spec <$> fr_Fragments r = [frag (Paging.entry 4 6 9); frag (Paging.entry 6 9 8)].
Proof.
  assert (∃ res, resolved prefix_end Paging.two Paging.request res ∧ res_replica res = Some ("a/bb", 0%nat)) as Htwo.
  { eexists. split; [split; [vm_compute; reflexivity|vm_compute; reflexivity|vm_compute; reflexivity|eexists; split; vm_compute; reflexivity]|vm_compute; reflexivity]. }
  assert (∃ res, resolved prefix_end Paging.one Paging.request res ∧ res_replica res = None ∧
    ∃ res', resolved prefix_end Paging.two (fragments_with_header Paging.request (res_Header res)) res' ∧ res_replica res' = Some ("a/bb", 0%nat)) as (res & Hone & Hnone & Hpeer).
  { eexists. split; [split; [vm_compute; reflexivity|vm_compute; reflexivity|vm_compute; reflexivity|eexists; split; vm_compute; reflexivity]|].
    split; [vm_compute; reflexivity|].
    eexists. split; [split; [vm_compute; reflexivity|vm_compute; reflexivity|vm_compute; reflexivity|eexists; split; vm_compute; reflexivity]|vm_compute; reflexivity]. }
  destruct (ListAllFragments_complete (replica := Journal * nat) prefix_end Paging.no_sign "a/bb" (set Paging.index) Paging.request) with
    (calls := [Paging.one; Paging.two; Paging.two]) (w := [Paging.one; Paging.two; Paging.two]) as (w' & r & Hrun & _ & Hr).
  - vm_compute. reflexivity.
  - exact Paging.index_pageable.
  - intros e He. repeat (apply elem_of_cons in He as [-> |He]; [vm_compute; reflexivity|]). by apply not_elem_of_nil in He.
  - reflexivity.
  - cbn [calls_handled]. intros req1. split; [reflexivity|]. intros req2. split; [reflexivity|]. intros req3. split; reflexivity.
  - repeat apply Forall_cons_2; [|by apply Paging.two_lists..|by apply Forall_nil_2].
    eapply lists_proxied; [exact Hone|exact Hnone|reflexivity|by apply Paging.two_lists].
  - intros _ e He. repeat (apply elem_of_cons in He as [-> |He]; [vm_compute; discriminate|]). by apply not_elem_of_nil in He.
  - vm_compute. reflexivity.
  - exists w', r. split; [exact Hrun|]. rewrite Hr. vm_compute. reflexivity.
Defined.
