(* ===== verification/Dispatcher.v ===== *)
(** * Dispatch of RPCs to brokers (src/v2/pkg/protocol/dispatcher.go, client/route_cache.go)

    The dispatcher is a balancer of gRPC: it holds a connection for each process that RPCs were dispatched to, chooses the process of an
    RPC by its route, and closes connections that were not used for a sweep interval. Connections are what gRPC answers
    to [NewSubConn]; their states are what it notifies. The cache of routes that clients dispatch by is over an LRU cache
    of a library, which is a class. *)
From stdpp Require Import fin_maps.
From S2P Require Import Prelude Encoding Protocol Framing ClientReader.
Local Open Scope Z_scope.

#[global] Instance ProcessSpec_ID_countable : Countable ProcessSpec_ID.
Proof. refine (inj_countable' (λ id, (Zone id, Suffix id)) (λ p, mkProcessID p.1 p.2) _). by intros []. Defined.

(** ** Data *)

(** [connectivity.State], in the order of its values. *)
Inductive ConnState := Idle | Connecting | Ready | TransientFailure | Shutdown.
#[global] Instance ConnState_eq_dec : EqDecision ConnState.
Proof. solve_decision. Defined.

Definition state_order (s : ConnState) : Z :=
  match s with Idle => 0 | Connecting => 1 | Ready => 2 | TransientFailure => 3 | Shutdown => 4 end.

(** A [balancer.SubConn] is its identity. *)
Abbreviation SubConn := nat.

Definition ProcessID_zero : ProcessSpec_ID := mkProcessID "" "".

(** [dr_router]: a [DispatchRouter] is attached. *)
Record dispatchRoute := mkDispatchRoute { dr_route : Route; dr_id : ProcessSpec_ID; dr_item : string; dr_router : bool }.

(** A [markedSubConn] is its connection and mark. [d_target] is the address of the service. *)
Record dispatcher := mkDispatcher {
  d_target : string;
  d_zone : string;
  d_idConn : gmap ProcessSpec_ID (SubConn * Z);
  d_connID : gmap SubConn ProcessSpec_ID;
  d_connState : gmap SubConn ConnState;
  d_sweepMark : Z;
}.

Definition with_idConn (d : dispatcher) (m : gmap ProcessSpec_ID (SubConn * Z)) : dispatcher :=
  mkDispatcher (d_target d) (d_zone d) m (d_connID d) (d_connState d) (d_sweepMark d).

Definition Build (target zone : string) : dispatcher := mkDispatcher target zone ∅ ∅ ∅ 1.

(** ** Contexts *)

Definition WithDispatchRoute (rt : Route) (id : ProcessSpec_ID) : dispatchRoute := mkDispatchRoute rt id "" false.

Definition WithDispatchDefault : dispatchRoute := WithDispatchRoute (mkRoute [] (-1) []) ProcessID_zero.

(** [rt] is the route that the router gives [item]. *)
Definition WithDispatchItemRoute (rt : Route) (item : string) (requirePrimary : bool) : outcome dispatchRoute :=
  if requirePrimary && negb (Primary rt =? -1) then
    if Primary rt <? 0 then Panic "index out of range"
    else
      match Members rt !! Z.to_nat (Primary rt) with
      | None => Panic "index out of range"
      | Some id => Ret (mkDispatchRoute rt id item true)
      end
  else Ret (mkDispatchRoute rt ProcessID_zero item true).

(** ** Picking a connection *)

Definition conn_state (d : dispatcher) (sc : SubConn) : ConnState := default Idle (d_connState d !! sc).

(** Of an ID without a connection: that of the zero connection. *)
Definition id_state (d : dispatcher) (id : ProcessSpec_ID) : ConnState :=
  match d_idConn d !! id with Some (sc, _) => conn_state d sc | None => Idle end.

Definition less (d : dispatcher) (lhs rhs : ProcessSpec_ID) : bool :=
  if negb (bool_decide (lhs = rhs)) && bool_decide (rhs = ProcessID_zero) then true
  else
    let lState := state_order (id_state d lhs) in
    let rState := state_order (id_state d rhs) in
    let lOK := lState <? state_order TransientFailure in
    let rOK := rState <? state_order TransientFailure in
    if negb (Bool.eqb lOK rOK) then lOK
    else
      let lOK := String.eqb (Zone lhs) (d_zone d) in
      let rOK := String.eqb (Zone rhs) (d_zone d) in
      if negb (Bool.eqb lOK rOK) then lOK
      else rState <? lState.

(** The process that an RPC is dispatched to. *)
Definition dispatch_id (d : dispatcher) (dr : dispatchRoute) : ProcessSpec_ID :=
  if bool_decide (dr_id dr = ProcessID_zero)
  then foldl (λ best id, if less d id best then id else best) (dr_id dr) (Members (dr_route dr))
  else dr_id dr.

Inductive pick :=
| Picked (sc : SubConn)
| ErrNoSubConnAvailable
| ErrTransientFailure
| PickFailed (err : string).

(** The dispatcher and the process it chose; the address that was dialed; and the items whose routes were invalidated. *)
Record picked := mkPicked { po_dispatcher : dispatcher; po_id : ProcessSpec_ID; po_pick : pick; po_dialed : option string; po_invalidated : list string }.

Section pick.
Context `{UrlParser}.

(** [Endpoint.URL] panics if the endpoint is not valid. *)
Definition Endpoint_Host (ep : string) : outcome string :=
  match Endpoint_Validate ep, url_Parse ep with
  | None, inl url => Ret (url_Host url)
  | _, _ => Panic "endpoint is not valid"
  end.

Definition idToAddr (d : dispatcher) (rt : Route) (id : ProcessSpec_ID) : outcome string :=
  if bool_decide (id = ProcessID_zero) then Ret (d_target d)
  else
    match list_find (λ m, m = id) (Members rt) with
    | None => Panic "ProcessSpec_ID must be in Route.Members"
    | Some (i, _) => match Endpoints rt !! i with Some ep => Endpoint_Host ep | None => Panic "index out of range" end
    end.

(** [new] is what [NewSubConn] answers if it is called; [None] a context without a route. *)
Definition Pick (d : dispatcher) (dr : option dispatchRoute) (new : SubConn + string) : outcome picked :=
  match dr with
  | None => Panic "expected dispatchRoute on Context; check for missing WithDispatchRoute ?"
  | Some dr =>
      let id := dispatch_id d dr in
      let! res :=
        match d_idConn d !! id with
        | Some msc => Ret (inl (d, msc, None))
        | None =>
            let! addr := idToAddr d (dr_route dr) id in
            match new with
            | inr err => Ret (inr (addr, err))
            | inl sc =>
                let d := mkDispatcher (d_target d) (d_zone d) (<[id := (sc, d_sweepMark d)]> (d_idConn d)) (<[sc := id]> (d_connID d))
                  (<[sc := Idle]> (d_connState d)) (d_sweepMark d) in
                Ret (inl (d, (sc, d_sweepMark d), Some addr))
            end
        end in
      match res with
      | inr (addr, err) => Ret (mkPicked d id (PickFailed err) (Some addr) [])
      | inl (d, (sc, mark), addr) =>
          let d := if negb (mark =? d_sweepMark d) then with_idConn d (<[id := (sc, d_sweepMark d)]> (d_idConn d)) else d in
          match conn_state d sc with
          | Idle | Connecting => Ret (mkPicked d id ErrNoSubConnAvailable addr [])
          | TransientFailure => Ret (mkPicked d id ErrTransientFailure addr (if dr_router dr then [dr_item dr] else []))
          | Ready => Ret (mkPicked d id (Picked sc) addr [])
          | Shutdown => Panic "SHUTDOWN"
          end
      end
  end.
End pick.

(** The closure of a picked connection, when the RPC is done: what it invalidates. *)
Definition makeDoneClosure (dr : dispatchRoute) (err : option (grpc_code * read_error)) : list string :=
  match err with
  | Some (CodeUnavailable, _) => if dr_router dr then [dr_item dr] else []
  | _ => []
  end.

(** ** Notifications and sweeps *)

Definition HandleSubConnStateChange (d : dispatcher) (sc : SubConn) (state : ConnState) : outcome dispatcher :=
  match d_connID d !! sc with
  | None => Panic "unexpected SubConn"
  | Some id =>
      let states := <[sc := state]> (d_connState d) in
      Ret (if bool_decide (state = Shutdown)
           then mkDispatcher (d_target d) (d_zone d) (delete id (d_idConn d)) (delete sc (d_connID d)) (delete sc states) (d_sweepMark d)
           else mkDispatcher (d_target d) (d_zone d) (d_idConn d) (d_connID d) states (d_sweepMark d))
  end.

(** The connections that are removed, and the mark of the next interval, an uint8. *)
Definition sweep (d : dispatcher) : dispatcher * list SubConn :=
  (mkDispatcher (d_target d) (d_zone d) (d_idConn d) (d_connID d) (d_connState d) ((d_sweepMark d + 1) mod 256),
   fst <$> filter (λ msc, snd msc ≠ d_sweepMark d) (snd <$> map_to_list (d_idConn d))).

(** ** The choice of a process *)

(** Preference is lexicographic: of processes whose connection has not failed, then of those in the local zone, then of states that
    are nearer to ready. *)
Definition rank (d : dispatcher) (id : ProcessSpec_ID) : Z :=
  let o := state_order (id_state d id) in
  (if o <? state_order TransientFailure then 100 else 0) + (if String.eqb (Zone id) (d_zone d) then 10 else 0) + o.

Lemma state_order_range s : 0 ≤ state_order s ≤ 4.
Proof. destruct s; cbn; lia. Qed.

Lemma less_rank d a b : b ≠ ProcessID_zero → less d a b = (rank d b <? rank d a).
Proof.
  intros Hb. unfold less, rank. rewrite (bool_decide_false (b = _)) by done. rewrite andb_false_r.
  pose proof (state_order_range (id_state d a)). pose proof (state_order_range (id_state d b)). cbn [state_order].
  destruct (Z.ltb_spec (state_order (id_state d a)) 3), (Z.ltb_spec (state_order (id_state d b)) 3), (String.eqb (Zone a) (d_zone d)), (String.eqb (Zone b) (d_zone d));
    cbn [Bool.eqb negb]; symmetry; first [apply Z.ltb_lt; lia|apply Z.ltb_ge; lia|destruct (Z.ltb_spec (state_order (id_state d b)) (state_order (id_state d a))); [apply Z.ltb_lt|apply Z.ltb_ge]; lia].
Qed.

(** The first of the members that no other is preferred over. *)
Definition preferred (d : dispatcher) (members : list ProcessSpec_ID) (id : ProcessSpec_ID) : Prop :=
  ∃ before after, members = before ++ id :: after ∧ Forall (λ m, rank d m < rank d id) before ∧ Forall (λ m, rank d m ≤ rank d id) after.

Lemma prefer_loop d l : ∀ before id after, id ≠ ProcessID_zero → Forall (λ m, m ≠ ProcessID_zero) l →
  Forall (λ m, rank d m < rank d id) before → Forall (λ m, rank d m ≤ rank d id) after →
  preferred d (before ++ id :: after ++ l) (foldl (λ best id, if less d id best then id else best) id l).
Proof.
  induction l as [|m l IH]; intros before id after Hid Hl Hb Ha; cbn [foldl].
  { rewrite app_nil_r. by exists before, after. }
  apply Forall_cons in Hl as [Hm Hl]. rewrite less_rank by done. destruct (Z.ltb_spec (rank d id) (rank d m)) as [Hlt|Hge].
  - specialize (IH (before ++ id :: after) m [] Hm Hl). rewrite <- app_assoc in IH. cbn in IH. apply IH; [|done].
    apply Forall_app. split; [eapply Forall_impl; [exact Hb|cbn; intros; lia]|]. apply Forall_cons. split; [done|]. eapply Forall_impl; [exact Ha|]. cbn. intros. lia.
  - specialize (IH before id (after ++ [m]) Hid Hl Hb). rewrite <- app_assoc in IH. apply IH. apply Forall_app. split; [done|]. by repeat constructor.
Qed.

(** What a context dispatches to: the process it names, else the preferred member of its route, else the default address. *)
Definition dispatched (d : dispatcher) (dr : dispatchRoute) (id : ProcessSpec_ID) : Prop :=
  if bool_decide (dr_id dr = ProcessID_zero) then
    match Members (dr_route dr) with [] => id = ProcessID_zero | members => preferred d members id end
  else id = dr_id dr.

Lemma dispatch_id_spec d dr : Forall (λ m, m ≠ ProcessID_zero) (Members (dr_route dr)) → dispatched d dr (dispatch_id d dr).
Proof.
  intros Hm. unfold dispatched, dispatch_id. case_bool_decide as Hz; [|done]. rewrite Hz. destruct (Members (dr_route dr)) as [|m l]; [done|].
  apply Forall_cons in Hm as [Hm Hl]. cbn [foldl]. assert (less d m ProcessID_zero = true) as -> by (unfold less; by rewrite !bool_decide_false, bool_decide_true by done).
  by apply (prefer_loop d l [] m []).
Qed.

(** ** The invariant *)

Record dispatcher_inv (d : dispatcher) : Prop := {
  di_id : ∀ id sc m, d_idConn d !! id = Some (sc, m) → d_connID d !! sc = Some id;
  di_conn : ∀ sc id, d_connID d !! sc = Some id → ∃ m, d_idConn d !! id = Some (sc, m);
  di_state : ∀ sc, is_Some (d_connState d !! sc) ↔ is_Some (d_connID d !! sc);
  di_up : ∀ sc, d_connState d !! sc ≠ Some Shutdown;
  di_mark : 0 ≤ d_sweepMark d < 256;
}.

Lemma Build_inv target zone : dispatcher_inv (Build target zone).
Proof. split; cbn; try by intros; simplify_map_eq. Qed.

Lemma mark_inv d id sc m m' : dispatcher_inv d → d_idConn d !! id = Some (sc, m) → dispatcher_inv (with_idConn d (<[id := (sc, m')]> (d_idConn d))).
Proof.
  intros [Hi Hc Hs Hu Hm] Hid. split; cbn [with_idConn d_idConn d_connID d_connState d_sweepMark]; [| |done..].
  - intros id' sc' m''. rewrite lookup_insert. case_decide; [|apply Hi]. intros [= <- <-]. subst. by eapply Hi.
  - intros sc' id' H'. destruct (Hc sc' id' H') as [m'' Hid']. destruct (decide (id = id')) as [<-|].
    + rewrite lookup_insert_eq. exists m'. congruence.
    + rewrite lookup_insert_ne by done. by exists m''.
Qed.

Lemma new_conn_inv d id sc : dispatcher_inv d → d_idConn d !! id = None → d_connID d !! sc = None →
  dispatcher_inv (mkDispatcher (d_target d) (d_zone d) (<[id := (sc, d_sweepMark d)]> (d_idConn d)) (<[sc := id]> (d_connID d)) (<[sc := Idle]> (d_connState d)) (d_sweepMark d)).
Proof.
  intros [Hi Hc Hs Hu Hm] Hid Hsc. split; cbn [d_idConn d_connID d_connState d_sweepMark]; [| | | |done].
  - intros id' sc' m'. rewrite !lookup_insert. case_decide.
    + intros [= <- <-]. rewrite decide_True by done. congruence.
    + intros H'%Hi. rewrite decide_False by (intros <-; congruence). done.
  - intros sc' id'. rewrite !lookup_insert. case_decide.
    + intros [= <-]. rewrite decide_True by done. subst. by eexists.
    + intros H'%Hc. destruct H' as [m' H']. rewrite decide_False by (intros <-; congruence). by exists m'.
  - intros sc'. rewrite !lookup_insert. case_decide; [done|apply Hs].
  - intros sc'. rewrite lookup_insert. case_decide; [done|apply Hu].
Qed.

(** ** What Pick answers *)

Section picks.
Context `{UrlParser}.

(** A route that is valid, and has the endpoints of its members. *)
Record routable (dr : dispatchRoute) : Prop := {
  rb_route : Route_Validate (dr_route dr) = None;
  rb_length : length (Endpoints (dr_route dr)) = length (Members (dr_route dr));
  rb_endpoints : "" ∉ Endpoints (dr_route dr);
  rb_id : dr_id dr = ProcessID_zero ∨ dr_id dr ∈ Members (dr_route dr);
}.

Lemma members_nonzero l : ∀ i prev, validateMembers i prev l = None → Forall (λ m, m ≠ ProcessID_zero) l.
Proof.
  induction l as [|m l IH]; intros i prev Hv; [constructor|]. cbn [validateMembers] in Hv. rewrite !orElse_None in Hv. destruct Hv as (Hm & _ & Hl).
  constructor; [|by eapply IH]. intros ->. rewrite ExtendContext_None in Hm. unfold ProcessSpec_ID_Validate in Hm. rewrite orElse_None in Hm. by destruct Hm.
Qed.

Lemma routable_members dr : routable dr → Forall (λ m, m ≠ ProcessID_zero) (Members (dr_route dr)).
Proof. intros [Hv _ _ _]. unfold Route_Validate in Hv. rewrite !orElse_None in Hv. destruct Hv as [Hv _]. by eapply members_nonzero. Qed.

Lemma dispatched_routed d dr id : dispatched d dr id → dr_id dr = ProcessID_zero ∨ dr_id dr ∈ Members (dr_route dr) → id = ProcessID_zero ∨ id ∈ Members (dr_route dr).
Proof.
  unfold dispatched. case_bool_decide as Hz; [|by intros -> [?|?]; auto]. intros Hd _. destruct (Members (dr_route dr)) as [|m l]; [by left|].
  destruct Hd as (before & after & -> & _). right. set_solver.
Qed.

(** The address of a process: the host of its endpoint. *)
Definition address_of (d : dispatcher) (rt : Route) (id : ProcessSpec_ID) (addr : string) : Prop :=
  if bool_decide (id = ProcessID_zero) then addr = d_target d
  else ∃ i ep url, Members rt !! i = Some id ∧ Endpoints rt !! i = Some ep ∧ url_Parse ep = inl url ∧ addr = url_Host url.

Lemma idToAddr_spec d dr id : routable dr → id = ProcessID_zero ∨ id ∈ Members (dr_route dr) →
  ∃ addr, idToAddr d (dr_route dr) id = Ret addr ∧ address_of d (dr_route dr) id addr.
Proof.
  intros Hr Hid. pose proof Hr as [Hv Hl He _]. unfold idToAddr, address_of. case_bool_decide as Hz; [by eexists|]. destruct Hid as [?|Hid]; [done|].
  destruct (list_find_elem_of (λ m, m = id) _ id Hid eq_refl) as [[i x] Hf]. rewrite Hf. apply list_find_Some in Hf as (Hi & -> & _).
  destruct (lookup_lt_is_Some_2 (Endpoints (dr_route dr)) i) as [ep Hep]; [rewrite Hl; by eapply lookup_lt_Some|]. rewrite Hep.
  unfold Route_Validate in Hv. rewrite !orElse_None in Hv. destruct Hv as (_ & _ & _ & Hv). rewrite validateEach_None, Forall_forall in Hv.
  specialize (Hv ep (list_elem_of_lookup_2 _ _ _ Hep)). destruct (String.eqb_spec ep "") as [Heq|_]; [rewrite Heq in Hep; by apply list_elem_of_lookup_2 in Hep|].
  unfold Endpoint_Host. rewrite Hv. unfold Endpoint_Validate in Hv. destruct (url_Parse ep) as [url|err] eqn:Hp; [|done]. eexists. split; [done|]. by exists i, ep, url.
Qed.

(** What a connection in a state answers. *)
Definition pick_of (sc : SubConn) (state : ConnState) : pick :=
  match state with Ready => Picked sc | TransientFailure => ErrTransientFailure | _ => ErrNoSubConnAvailable end.

Lemma Pick_spec d dr new : dispatcher_inv d → routable dr → (∀ sc, new = inl sc → d_connID d !! sc = None) →
  ∃ out, Pick d (Some dr) new = Ret out ∧ dispatched d dr (po_id out) ∧ dispatcher_inv (po_dispatcher out) ∧
    (∀ sc, po_pick out = Picked sc → d_connState d !! sc = Some Ready ∧ d_connID d !! sc = Some (po_id out)) ∧
    match d_idConn d !! po_id out, new with
    | Some (sc, _), _ => po_pick out = pick_of sc (conn_state d sc) ∧ po_dialed out = None ∧
        po_invalidated out = (if bool_decide (conn_state d sc = TransientFailure) && dr_router dr then [dr_item dr] else []) ∧
        po_dispatcher out = with_idConn d (<[po_id out := (sc, d_sweepMark d)]> (d_idConn d))
    | None, inl sc => po_pick out = ErrNoSubConnAvailable ∧ po_invalidated out = [] ∧
        (∃ addr, po_dialed out = Some addr ∧ address_of d (dr_route dr) (po_id out) addr) ∧
        d_idConn (po_dispatcher out) = <[po_id out := (sc, d_sweepMark d)]> (d_idConn d) ∧ d_sweepMark (po_dispatcher out) = d_sweepMark d
    | None, inr err => po_pick out = PickFailed err ∧ po_dispatcher out = d
    end.
Proof.
  intros Hi Hr Hnew. pose proof (dispatch_id_spec d dr (routable_members dr Hr)) as Hd. cbn [Pick]. set (id := dispatch_id d dr) in *.
  destruct (d_idConn d !! id) as [[sc mark]|] eqn:Hid.
  - cbn [outcome_bind]. set (d' := if negb (mark =? d_sweepMark d) then _ else _).
    assert (d' = with_idConn d (<[id := (sc, d_sweepMark d)]> (d_idConn d))) as ->.
    { unfold d'. destruct (Z.eqb_spec mark (d_sweepMark d)) as [->|]; cbn [negb]; [|done]. rewrite insert_id by done. by destruct d. }
    pose proof (mark_inv d id sc mark (d_sweepMark d) Hi Hid) as Hi'. pose proof (di_id d Hi id sc mark Hid) as Hsc.
    change (conn_state (with_idConn d _) sc) with (conn_state d sc).
    destruct (proj2 (di_state d Hi sc) (mk_is_Some _ _ Hsc)) as [st Hst]. assert (conn_state d sc = st) as Hcs by (unfold conn_state; by rewrite Hst). rewrite Hcs.
    destruct st; [..|by destruct (di_up d Hi sc)]; eexists; (split; [done|]); cbn [po_id po_dispatcher po_pick po_dialed po_invalidated]; rewrite Hid, Hcs;
      split_and!; try done; by intros sc' [= <-].
  - destruct (idToAddr_spec d dr id Hr (dispatched_routed d dr id Hd (rb_id dr Hr))) as (addr & -> & Haddr). cbn [outcome_bind].
    destruct new as [sc|err]; cbn [outcome_bind].
    2:{ eexists. split; [done|]. cbn [po_id po_dispatcher po_pick]. rewrite Hid. split_and!; done. }
    rewrite Z.eqb_refl. cbn [negb]. assert (∀ d', d_connState d' = <[sc := Idle]> (d_connState d) → conn_state d' sc = Idle) as Hidle.
    { intros d' Hd'. unfold conn_state. by rewrite Hd', lookup_insert_eq. }
    rewrite Hidle by done. eexists. split; [done|]. cbn [po_id po_dispatcher po_pick po_dialed po_invalidated]. rewrite Hid.
    split_and!; try done; [by apply new_conn_inv; [| |apply Hnew]|by exists addr].
Qed.
(** C23: The dispatcher picks as its documentation says. Of a valid route with endpoints it does not panic; an RPC goes to the process that is asked for, or else to a preferred member of the
    route; connections are picked only while they are ready, and connect to that process; what blocks or fails is told
    from the state of the connection, and a failed one invalidates the route of the item; a process without a
    connection is dialed at its endpoint; and each process has one connection, marked as used. *)
Theorem Pick_correct d dr new : dispatcher_inv d → routable dr → (∀ sc, new = inl sc → d_connID d !! sc = None) →
  ∃ out, Pick d (Some dr) new = Ret out ∧ dispatched d dr (po_id out) ∧ dispatcher_inv (po_dispatcher out) ∧
    (∀ sc, po_pick out = Picked sc → d_connState d !! sc = Some Ready ∧ d_connID d !! sc = Some (po_id out)) ∧
    match d_idConn d !! po_id out, new with
    | Some (sc, _), _ => po_pick out = pick_of sc (conn_state d sc) ∧ po_dialed out = None ∧
        po_invalidated out = (if bool_decide (conn_state d sc = TransientFailure) && dr_router dr then [dr_item dr] else []) ∧
        po_dispatcher out = with_idConn d (<[po_id out := (sc, d_sweepMark d)]> (d_idConn d))
    | None, inl sc => po_pick out = ErrNoSubConnAvailable ∧ po_invalidated out = [] ∧
        (∃ addr, po_dialed out = Some addr ∧ address_of d (dr_route dr) (po_id out) addr) ∧
        d_idConn (po_dispatcher out) = <[po_id out := (sc, d_sweepMark d)]> (d_idConn d) ∧ d_sweepMark (po_dispatcher out) = d_sweepMark d
    | None, inr err => po_pick out = PickFailed err ∧ po_dispatcher out = d
    end.
Proof. apply Pick_spec. Qed.
End picks.

Lemma HandleSubConnStateChange_inv d sc id state : dispatcher_inv d → d_connID d !! sc = Some id →
  ∃ d', HandleSubConnStateChange d sc state = Ret d' ∧ dispatcher_inv d' ∧ d_sweepMark d' = d_sweepMark d ∧
    d_idConn d' = if bool_decide (state = Shutdown) then delete id (d_idConn d) else d_idConn d.
Proof.
  intros [Hi Hc Hs Hu Hm] Hsc. unfold HandleSubConnStateChange. rewrite Hsc. eexists. split; [done|]. destruct (Hc sc id Hsc) as [mark Hid].
  case_bool_decide as Hst; (split; [|done]); split; cbn [d_idConn d_connID d_connState d_sweepMark]; try done.
  - intros id' sc' m' [Hne H']%lookup_delete_Some. rewrite lookup_delete_ne; [by eapply Hi|]. intros <-. apply Hi in H'. congruence.
  - intros sc' id' [Hne H']%lookup_delete_Some. destruct (Hc sc' id' H') as [m' Hm']. exists m'. rewrite lookup_delete_ne; [done|]. intros <-. congruence.
  - intros sc'. rewrite delete_insert_eq, !lookup_delete. case_decide; [by split; intros []|apply Hs].
  - intros sc'. rewrite delete_insert_eq, lookup_delete. case_decide; [done|apply Hu].
  - intros sc'. rewrite lookup_insert. case_decide; [subst; by rewrite Hsc|apply Hs].
  - intros sc'. rewrite lookup_insert. case_decide; [by intros [= ->]|apply Hu].
Qed.

Lemma sweep_inv d : dispatcher_inv d → dispatcher_inv (fst (sweep d)).
Proof. intros [Hi Hc Hs Hu Hm]. split; cbn; try done. pose proof (Z.mod_pos_bound (d_sweepMark d + 1) 256). lia. Qed.

(** ** Sweeps *)

Inductive dispatch_op :=
| DispatchPick (dr : dispatchRoute) (new : SubConn + string)
| DispatchState (sc : SubConn) (state : ConnState)
| DispatchSweep.

Section sweeps.
Context `{UrlParser}.

(** A step of the dispatcher, with the process that it picked. *)
Definition dispatch_step (d : dispatcher) (op : dispatch_op) : outcome (dispatcher * list ProcessSpec_ID) :=
  match op with
  | DispatchPick dr new => let! out := Pick d (Some dr) new in Ret (po_dispatcher out, [po_id out])
  | DispatchState sc state => let! d := HandleSubConnStateChange d sc state in Ret (d, [])
  | DispatchSweep => Ret (fst (sweep d), [])
  end.

Fixpoint dispatch_run (d : dispatcher) (ops : list dispatch_op) : outcome (dispatcher * list ProcessSpec_ID) :=
  match ops with
  | [] => Ret (d, [])
  | op :: ops =>
      let! (d, ids) := dispatch_step d op in
      let! (d, ids') := dispatch_run d ops in Ret (d, ids ++ ids')
  end.

(** What gRPC is relied on for: new connections are new, and states are those of connections that are held; routes are routable. *)
Fixpoint dispatch_ok (d : dispatcher) (ops : list dispatch_op) : Prop :=
  match ops with
  | [] => True
  | op :: ops =>
      match op with
      | DispatchPick dr new => routable dr ∧ ∀ sc, new = inl sc → d_connID d !! sc = None
      | DispatchState sc _ => is_Some (d_connID d !! sc)
      | DispatchSweep => True
      end ∧ ∀ d' ids, dispatch_step d op = Ret (d', ids) → dispatch_ok d' ops
  end.

Definition is_sweep (op : dispatch_op) : bool := match op with DispatchSweep => true | _ => false end.
Definition sweeps (ops : list dispatch_op) : Z := Z.of_nat (length (filter is_sweep ops)).

(** One step: the invariant, the mark, and the connections of other processes. *)
Lemma dispatch_step_spec d op : dispatcher_inv d → dispatch_ok d [op] → ∃ d' ids, dispatch_step d op = Ret (d', ids) ∧ dispatcher_inv d' ∧
  d_sweepMark d' = (d_sweepMark d + sweeps [op]) mod 256 ∧
  ∀ id sc m, id ∉ ids → op ≠ DispatchState sc Shutdown → d_idConn d !! id = Some (sc, m) → d_idConn d' !! id = Some (sc, m).
Proof.
  intros Hi [Hop _]. pose proof (di_mark d Hi) as Hmark. destruct op as [dr new|sc state|].
  - destruct Hop as [Hr Hnew]. destruct (Pick_spec d dr new Hi Hr Hnew) as (out & Hp & _ & Hi' & _ & Hout). cbn [dispatch_step]. rewrite Hp. cbn [outcome_bind].
    exists (po_dispatcher out), [po_id out]. split; [done|]. split; [done|]. unfold sweeps. cbn. rewrite Z.add_0_r, Z.mod_small by lia.
    split.
    + destruct (d_idConn d !! po_id out) as [[sc m]|]; [by destruct Hout as (_ & _ & _ & ->)|]. destruct new; [by destruct Hout as (_ & _ & _ & _ & ->)|by destruct Hout as [_ ->]].
    + intros id sc m Hid%not_elem_of_cons _ Hsc. destruct Hid as [Hid _].
      destruct (d_idConn d !! po_id out) as [[sc' m']|] eqn:Ho.
      * destruct Hout as (_ & _ & _ & ->). cbn. by rewrite lookup_insert_ne.
      * destruct new; [destruct Hout as (_ & _ & _ & -> & _); by rewrite lookup_insert_ne|by destruct Hout as [_ ->]].
  - destruct Hop as [id Hid]. destruct (HandleSubConnStateChange_inv d sc id state Hi Hid) as (d' & Hs & Hi' & Hm & Hc). cbn [dispatch_step]. rewrite Hs. cbn [outcome_bind].
    exists d', []. split; [done|]. split; [done|]. unfold sweeps. cbn. rewrite Z.add_0_r, Z.mod_small, Hm by lia. split; [done|].
    intros id' sc' m _ Hne Hsc. rewrite Hc. case_bool_decide as Hsd; [|done]. rewrite lookup_delete_ne; [done|]. intros <-.
    apply (di_id d Hi) in Hsc as Hsc'. destruct (di_conn d Hi sc id Hid) as [m' Hm']. congruence.
  - exists (fst (sweep d)), []. split; [done|]. split; [by apply sweep_inv|]. split; [done|]. by intros.
Qed.

Lemma sweeps_cons op ops : sweeps (op :: ops) = sweeps [op] + sweeps ops.
Proof. unfold sweeps. rewrite !filter_cons. rewrite filter_nil. destruct (decide (is_sweep op)); cbn [length]; lia. Qed.

(** Connections that are idle are closed, and no others. However picks, notifications and sweeps follow each other: nothing panics, and each process has one connection. Of a connection that was just used, and since then
    was neither picked nor shut down, the next sweep removes it if and only if a sweep was before it (up to the 256 values of the
    mark), so that it was idle for an interval. *)
Theorem idle_connections_swept ops : ∀ d, dispatcher_inv d → dispatch_ok d ops →
  ∃ d' ids, dispatch_run d ops = Ret (d', ids) ∧ dispatcher_inv d' ∧
    ∀ id sc, d_idConn d !! id = Some (sc, d_sweepMark d) → id ∉ ids → DispatchState sc Shutdown ∉ ops →
      d_connID d' !! sc = Some id ∧ (sc ∈ snd (sweep d') ↔ sweeps ops mod 256 ≠ 0).
Proof.
  intros d Hi Hok.
  assert (∃ d' ids, dispatch_run d ops = Ret (d', ids) ∧ dispatcher_inv d' ∧ d_sweepMark d' = (d_sweepMark d + sweeps ops) mod 256 ∧
    ∀ id sc m, id ∉ ids → DispatchState sc Shutdown ∉ ops → d_idConn d !! id = Some (sc, m) → d_idConn d' !! id = Some (sc, m)) as (d' & ids & Hrun & Hi' & Hm & Hc).
  { revert d Hi Hok. induction ops as [|op ops IH]; intros d Hi Hok; cbn [dispatch_run].
    - exists d, []. pose proof (di_mark d Hi). unfold sweeps. cbn. rewrite Z.add_0_r, Z.mod_small by lia. by split_and!.
    - destruct Hok as [Hop Hok]. destruct (dispatch_step_spec d op Hi) as (d1 & ids1 & Hs & Hi1 & Hm1 & Hc1); [by split|].
      rewrite Hs. cbn [outcome_bind]. destruct (IH d1 Hi1 (Hok _ _ Hs)) as (d2 & ids2 & -> & Hi2 & Hm2 & Hc2). cbn [outcome_bind].
      exists d2, (ids1 ++ ids2). split; [done|]. split; [done|]. split.
      + rewrite Hm2, Hm1, (sweeps_cons op ops), Zplus_mod_idemp_l. by rewrite Z.add_assoc.
      + intros id sc m Hid [Hne Hops]%not_elem_of_cons Hsc. rewrite not_elem_of_app in Hid. apply Hc2; [naive_solver..|]. apply Hc1; [naive_solver|congruence|done]. }
  exists d', ids. split; [done|]. split; [done|]. intros id sc Hsc Hid Hsd. specialize (Hc id sc _ Hid Hsd Hsc). split; [by eapply di_id|].
  unfold sweep. cbn [snd]. rewrite list_elem_of_fmap. pose proof (di_mark d Hi) as Hmark.
  assert (d_sweepMark d ≠ d_sweepMark d' ↔ sweeps ops mod 256 ≠ 0) as <-.
  { rewrite Hm. split; intros Hne Heq; apply Hne.
    - rewrite Zplus_mod, Heq, Z.add_0_r, Zmod_mod, Z.mod_small by lia. done.
    - assert (0 ≤ sweeps ops) by (unfold sweeps; lia). apply (f_equal (λ x, (x - d_sweepMark d) mod 256)) in Heq.
      rewrite Zminus_mod_idemp_l in Heq. replace (d_sweepMark d + sweeps ops - d_sweepMark d) with (sweeps ops) in Heq by lia.
      by rewrite <- Heq, Z.sub_diag. }
  split.
  - intros ((sc' & m) & -> & [Hne Hin]%list_elem_of_filter). cbn in *. apply list_elem_of_fmap in Hin as ([id' msc] & Heq & Hin%elem_of_map_to_list). cbn in Heq. subst msc.
    cbn in *. pose proof (di_id d' Hi' id' _ _ Hin) as H1. pose proof (di_id d' Hi' id _ _ Hc) as H2. assert (id' = id) as -> by congruence. congruence.
  - intros Hne. exists (sc, d_sweepMark d). split; [done|]. apply list_elem_of_filter. split; [done|]. apply list_elem_of_fmap. exists (id, (sc, d_sweepMark d)).
    split; [done|]. by apply elem_of_map_to_list.
Qed.
End sweeps.

(** ** Members without an endpoint *)

(** [Route.Validate] admits endpoints that are empty, which [AttachEndpoints] leaves of members that are not in the key space. To dial one is a
    panic: an empty string is no absolute URL. *)
Theorem missing_endpoint_panics `{UrlParser} d rt id i new : id ≠ ProcessID_zero → list_find (λ m, m = id) (Members rt) = Some (i, id) → Endpoints rt !! i = Some "" →
  d_idConn d !! id = None → (∀ url, url_Parse "" = inl url → url_IsAbs url = false) →
  Pick d (Some (WithDispatchRoute rt id)) new = Panic "endpoint is not valid".
Proof.
  intros Hz Hf He Hd Hurl. unfold Pick, dispatch_id. cbn [WithDispatchRoute dr_id dr_route]. rewrite bool_decide_false by done. rewrite Hd. unfold idToAddr.
  rewrite bool_decide_false, Hf, He by done. unfold Endpoint_Host, Endpoint_Validate. destruct (url_Parse "") as [url|err]; [|done].
  by rewrite (Hurl url eq_refl).
Qed.

(** ** The cache of routes *)

(** An LRU cache, as github.com/hashicorp/golang-lru documents it: what was added is there until it is removed, or evicted by another key. *)
Class LRU (C V : Type) := {
  lru_New : Z → C + string;
  lru_Add : C → string → V → C;
  lru_Get : C → string → C * option V;
  lru_Remove : C → string → C;
}.

Class LRULaws (C V : Type) `{LRU C V} := {
  lru_view : C → gmap string V;
  lru_new size c : lru_New size = inl c → lru_view c = ∅;
  lru_size size : 0 < size → ∃ c, lru_New size = inl c;
  lru_get c k : snd (lru_Get c k) = lru_view c !! k ∧ lru_view (fst (lru_Get c k)) = lru_view c;
  lru_add c k v : lru_view (lru_Add c k v) !! k = Some v ∧ ∀ k', k' ≠ k → lru_view (lru_Add c k v) !! k' = lru_view c !! k' ∨ lru_view (lru_Add c k v) !! k' = None;
  lru_remove c k : lru_view (lru_Remove c k) = delete k (lru_view c);
}.

Record cachedRoute := mkCachedRoute { cr_route : Route; cr_at : Z }.

Section cache.
Context {C : Type} `{LRU C cachedRoute}.

Record RouteCache := mkRouteCache { rc_cache : C; rc_ttl : Z }.

Definition NewRouteCache (size ttl : Z) : outcome RouteCache :=
  match lru_New size with inl c => Ret (mkRouteCache c ttl) | inr err => Panic err end.

(** [now] is the time in nanoseconds. *)
Definition UpdateRoute (rc : RouteCache) (now : Z) (item : string) (rt : option Route) : RouteCache :=
  match rt with
  | None => mkRouteCache (lru_Remove (rc_cache rc) item) (rc_ttl rc)
  | Some rt => mkRouteCache (lru_Add (rc_cache rc) item (mkCachedRoute rt now)) (rc_ttl rc)
  end.

Definition Route_empty : Route := mkRoute [] (-1) [].

Definition RouteCache_Route (rc : RouteCache) (now : Z) (item : string) : RouteCache * Route :=
  let '(c, v) := lru_Get (rc_cache rc) item in
  match v with
  | None => (mkRouteCache c (rc_ttl rc), Route_empty)
  | Some cr =>
      if cr_at cr + rc_ttl rc <? now then (mkRouteCache (lru_Remove c item) (rc_ttl rc), Route_empty)
      else (mkRouteCache c (rc_ttl rc), cr_route cr)
  end.

Inductive cache_op := CacheUpdate (now : Z) (item : string) (rt : option Route) | CacheRoute (now : Z) (item : string).

Definition cache_step (rc : RouteCache) (op : cache_op) : RouteCache :=
  match op with CacheUpdate now item rt => UpdateRoute rc now item rt | CacheRoute now item => fst (RouteCache_Route rc now item) end.

(** The last update of an item. *)
Fixpoint last_update (ops : list cache_op) (item : string) : option cachedRoute :=
  match ops with
  | [] => None
  | CacheUpdate now i rt :: ops => if bool_decide (i = item) then (λ rt, mkCachedRoute rt now) <$> rt else last_update ops item
  | CacheRoute _ _ :: ops => last_update ops item
  end.
End cache.

Section cache_laws.
Context {C : Type} `{LRULaws C cachedRoute}.

Lemma cache_view ops : ∀ rc, lru_view (rc_cache rc) = ∅ → ∀ item cr,
  lru_view (rc_cache (foldl cache_step rc (reverse ops))) !! item = Some cr → last_update ops item = Some cr.
Proof.
  intros rc Hrc. induction ops as [|op ops IH]; intros item cr; [cbn; by rewrite Hrc, lookup_empty|]. rewrite reverse_cons, foldl_snoc.
  specialize (IH item cr). set (rc' := foldl cache_step rc (reverse ops)) in *. destruct op as [now i [rt|]|now i]; cbn [cache_step UpdateRoute last_update rc_cache].
  - destruct (lru_add (rc_cache rc') i (mkCachedRoute rt now)) as [Hadd Hother]. case_bool_decide as Hi; [subst i; by rewrite Hadd|].
    destruct (Hother item (not_eq_sym Hi)) as [-> | ->]; [done|done].
  - rewrite lru_remove. case_bool_decide as Hi; [subst i; by rewrite lookup_delete_eq|by rewrite lookup_delete_ne].
  - unfold RouteCache_Route. destruct (lru_get (rc_cache rc') i) as [Hv Hg]. destruct (lru_Get (rc_cache rc') i) as [c v]. cbn [fst snd] in *.
    destruct v as [cr'|]; [|cbn [fst rc_cache]; by rewrite Hg]. destruct (_ <? now); cbn [fst rc_cache]; [|by rewrite Hg].
    rewrite lru_remove, Hg. intros [_ ?]%lookup_delete_Some. by apply IH.
Qed.

(** Cached routes are current: after any updates and queries, in any order and of any items, a query for the route of an item answers with the route of its last update,
    if it was no invalidation and is not older than the time to live, or with the empty route. Caches of a size that is
    not positive panic. *)
Theorem cached_routes_current size ttl ops : 0 < size → ∃ rc, NewRouteCache size ttl = Ret rc ∧ ∀ now item,
  let rt := snd (RouteCache_Route (foldl cache_step rc ops) now item) in
  rt = Route_empty ∨ ∃ at_, last_update (reverse ops) item = Some (mkCachedRoute rt at_) ∧ now ≤ at_ + ttl.
Proof.
  intros Hs. unfold NewRouteCache. destruct (lru_size size Hs) as [c Hc]. rewrite Hc. eexists. split; [done|]. intros now item. cbn zeta.
  assert (∀ ops rc, rc_ttl (foldl cache_step rc ops) = rc_ttl rc) as Httl.
  { clear. intros ops. induction ops as [|op ops IH]; intros rc; [done|]. cbn [foldl]. rewrite IH. destruct op as [now i [rt|]|now i]; try done. cbn. unfold RouteCache_Route.
    destruct (lru_Get _ _) as [c [cr|]]; [by destruct (_ <? _)|done]. }
  pose proof (cache_view (reverse ops) (mkRouteCache c ttl) (lru_new _ _ Hc) item) as Hview. rewrite reverse_involutive in Hview.
  specialize (Httl ops (mkRouteCache c ttl)). cbn in Httl. set (rc := foldl cache_step _ ops) in *. unfold RouteCache_Route.
  destruct (lru_get (rc_cache rc) item) as [Hv _]. destruct (lru_Get (rc_cache rc) item) as [c' v]. cbn [snd] in *. subst v.
  destruct (lru_view (rc_cache rc) !! item) as [[rt at_]|] eqn:Hl; [|by left]. cbn [cr_at cr_route]. destruct (Z.ltb_spec (at_ + rc_ttl rc) now); [by left|].
  right. exists at_. split; [by apply Hview|]. cbn [snd]. lia.
Qed.
End cache_laws.

(** ** Concrete inputs *)

Module Dispatch.
#[export] Instance urls : UrlParser := λ s, inl {| url_IsAbs := negb (String.eqb s ""); url_Scheme := "http"; url_Host := s; url_Path := "" |}.

Definition one : ProcessSpec_ID := mkProcessID "y" "broker-one".
Definition two : ProcessSpec_ID := mkProcessID "z" "broker-two".
Definition rt : Route := mkRoute [one; two] 0 ["http://one"; "http://two"].

(** Connection 7 is that of [two], and is ready; [one] has none. *)
Definition d : dispatcher := mkDispatcher "http://service" "z" {[two := (7%nat, 1)]} {[7%nat := two]} {[7%nat := Ready]} 1.

Lemma d_inv : dispatcher_inv d.
Proof.
  split; cbn [d d_idConn d_connID d_connState d_sweepMark].
  - intros id sc m [<- [= <- <-]]%lookup_singleton_Some. reflexivity.
  - intros sc id [<- <-]%lookup_singleton_Some. exists 1. reflexivity.
  - intros sc. destruct (decide (sc = 7%nat)) as [-> |]; [by rewrite !lookup_singleton_eq|by rewrite !lookup_singleton_ne by done].
  - intros sc [_ ?]%lookup_singleton_Some. done.
  - done.
Qed.

Lemma rt_routable : routable (WithDispatchRoute rt ProcessID_zero).
Proof. split; [vm_compute; reflexivity|done|set_solver|by left]. Qed.

(** A cache as a list, of which the first was used last. *)
Definition lru (V : Type) : Type := nat * list (string * V).
Definition others {V} (k : string) (l : list (string * V)) : list (string * V) := filter (λ e, fst e ≠ k) l.
#[export] Instance list_lru {V} : LRU (lru V) V := {|
  lru_New size := if size <=? 0 then inr "Must provide a positive size" else inl (Z.to_nat size, []);
  lru_Add c k v := (fst c, (k, v) :: take (pred (fst c)) (others k (snd c)));
  lru_Get c k := match (list_to_map (snd c) : gmap string V) !! k with Some v => ((fst c, (k, v) :: others k (snd c)), Some v) | None => (c, None) end;
  lru_Remove c k := (fst c, others k (snd c));
|}.

Lemma others_lookup {V} k k' (l : list (string * V)) : (list_to_map (others k l) : gmap string V) !! k' = if decide (k' = k) then None else (list_to_map l : gmap string V) !! k'.
Proof.
  unfold others. induction l as [|[i v] l IH]; [by case_decide|]. rewrite filter_cons. cbn [fst]. destruct (decide (i ≠ k)) as [Hi|Hi].
  - rewrite !list_to_map_cons, !lookup_insert, IH. repeat case_decide; congruence.
  - apply dec_stable in Hi. subst i. rewrite IH, list_to_map_cons, lookup_insert. repeat case_decide; congruence.
Qed.

Lemma take_lookup {V} n (l : list (string * V)) k : (list_to_map (take n l) : gmap string V) !! k = (list_to_map l : gmap string V) !! k ∨ (list_to_map (take n l) : gmap string V) !! k = None.
Proof.
  revert n. induction l as [|[i v] l IH]; intros [|n]; [by left|by left|by right|]. cbn [take]. rewrite !list_to_map_cons, !lookup_insert. case_decide; [by left|apply IH].
Qed.

#[export] Program Instance list_lru_laws {V} : LRULaws (lru V) V := {| lru_view c := list_to_map (snd c) |}.
Next Obligation. intros V size c. cbn. by destruct (size <=? 0); intros [= <-]. Qed.
Next Obligation. intros V size Hs. cbn. rewrite (proj2 (Z.leb_gt _ _)) by done. by eexists. Qed.
Next Obligation.
  intros V c k. cbn [lru_Get list_lru]. destruct (list_to_map (snd c) !! k) as [v|] eqn:Hk; cbn [fst snd]; [|done]. split; [done|]. apply map_eq. intros i.
  rewrite list_to_map_cons, lookup_insert, others_lookup. case_decide; [by subst|]. by rewrite decide_False by congruence.
Qed.
Next Obligation.
  intros V c k v. cbn [lru_Add list_lru fst snd]. rewrite !list_to_map_cons. split; [by rewrite lookup_insert_eq|]. intros k' Hk. rewrite lookup_insert_ne by done.
  destruct (take_lookup (pred (fst c)) (others k (snd c)) k') as [-> | ->]; [|by right]. left. by rewrite others_lookup, decide_False.
Qed.
Next Obligation.
  intros V c k. cbn [lru_Remove list_lru fst snd]. apply map_eq. intros i. rewrite others_lookup, lookup_delete. repeat case_decide; congruence.
Qed.
End Dispatch.
Import (hints) Dispatch.

Lemma Pick_correct_witness : ∃ out, Pick Dispatch.d (Some (WithDispatchRoute Dispatch.rt ProcessID_zero)) (inl 8%nat) = Ret out ∧ po_id out = Dispatch.two ∧ po_pick out = Picked 7%nat.
Proof.
  destruct (Pick_correct Dispatch.d (WithDispatchRoute Dispatch.rt ProcessID_zero) (inl 8%nat)) as (out & Hp & _).
  - exact Dispatch.d_inv.
  - exact Dispatch.rt_routable.
  - by intros sc [= <-].
  - exists out. split; [exact Hp|]. vm_compute in Hp. injection Hp as <-. split; reflexivity.
Defined.

(** While [one] is dialed, [two] is idle for an interval. *)
Definition demo_ops : list dispatch_op := [DispatchSweep; DispatchPick (WithDispatchRoute Dispatch.rt Dispatch.one) (inl 8%nat); DispatchState 7 TransientFailure].

Lemma idle_connections_swept_witness : ∃ d' ids, dispatch_run Dispatch.d demo_ops = Ret (d', ids) ∧ 7%nat ∈ snd (sweep d') ∧ snd (sweep d') = [7%nat].
Proof.
  destruct (idle_connections_swept demo_ops Dispatch.d) as (d' & ids & Hrun & _ & Hs).
  - exact Dispatch.d_inv.
  - split; [done|]. intros d1 i1 [= <- <-]. split.
    + split; [|by intros sc [= <-]]. split; [vm_compute; reflexivity|done|set_solver|right; set_solver].
    + intros d2 i2 Hs. vm_compute in Hs. injection Hs as <- <-. split; [by eexists|]. done.
  - exists d', ids. split; [exact Hrun|]. split.
    + apply (Hs Dispatch.two 7%nat).
      * reflexivity.
      * vm_compute in Hrun. injection Hrun as _ <-. set_solver.
      * unfold demo_ops. rewrite !not_elem_of_cons. split_and!; [done..|]. apply not_elem_of_nil.
      * vm_compute. discriminate.
    + vm_compute in Hrun. injection Hrun as <- _. vm_compute. reflexivity.
Defined.

Lemma missing_endpoint_panics_witness :
  Pick Dispatch.d (Some (WithDispatchRoute (mkRoute [Dispatch.one; Dispatch.two] 0 [""; "http://two"]) Dispatch.one)) (inl 8%nat) = Panic "endpoint is not valid".
Proof. by apply (missing_endpoint_panics _ _ _ 0); [..|intros url [= <-]]. Defined.

(** A cache of one route. *)
Definition demo_cache : list cache_op := [CacheUpdate 0 "a" (Some Dispatch.rt); CacheUpdate 5 "b" (Some Dispatch.rt); CacheRoute 6 "a"].

Lemma cached_routes_current_witness : ∃ rc, NewRouteCache (C := Dispatch.lru cachedRoute) 1 60 = Ret rc ∧
  snd (RouteCache_Route (foldl cache_step rc demo_cache) 65 "b") = Dispatch.rt ∧ snd (RouteCache_Route (foldl cache_step rc demo_cache) 65 "a") = Route_empty.
Proof.
  destruct (cached_routes_current (C := Dispatch.lru cachedRoute) 1 60 demo_cache) as (rc & Hrc & _); [reflexivity|].
  exists rc. split; [exact Hrc|]. vm_compute in Hrc. injection Hrc as <-. split; vm_compute; reflexivity.
Defined.
