(* ===== verification/Routing.v ===== *)
(** * Publishing and JSON framing of messages (src/v2/pkg/message/routines.go, json_framing.go)

    Mappings choose the journal of a message among the partitions that a list response holds: at random, by the modulus of a hash,
    or by rendezvous hashing. [Publish] appends the framed message to it. Lines are unpacked from a [bufio.Reader] of any
    buffer size. The JSON encoder and the journal client are parameters. *)
From S2P Require Import Prelude Encoding Protocol Labels JournalSpec Framing ListApi.
Local Open Scope Z_scope.

(** ** Lines *)

Definition newline : byte := Byte.x0a.

Definition IndexByte (b : bytes) (c : byte) : option nat := fst <$> list_find (λ x, x = c) b.

(** [bufio.Reader.ReadSlice] of lines. *)
Fixpoint slice_loop (fuel : nat) (r : Reader) : Reader * bytes * option read_error :=
  match fuel with
  | O => (r, [], Some (ReadError "no progress"))
  | S fuel =>
      match IndexByte (rd_buf r) newline with
      | Some i => (Discard r (S i), take (S i) (rd_buf r), None)
      | None =>
          if (rd_size r <=? length (rd_buf r))%nat then (Discard r (length (rd_buf r)), rd_buf r, Some ErrBufferFull)
          else
            match fill r with
            | (r, None) => slice_loop fuel r
            | (r, Some e) => (Discard r (length (rd_buf r)), rd_buf r, Some e)
            end
      end
  end.

(** A byte of the source for each round of the loop. *)
Definition ReadSlice (r : Reader) : Reader * bytes * option read_error := slice_loop (S (length (rd_rest r))) r.

(** [bufio.Reader.ReadBytes] of lines. *)
Fixpoint bytes_loop (fuel : nat) (r : Reader) (full : bytes) : Reader * bytes * option read_error :=
  match fuel with
  | O => (r, full, Some (ReadError "no progress"))
  | S fuel =>
      match ReadSlice r with
      | (r, frag, Some ErrBufferFull) => bytes_loop fuel r (full ++ frag)
      | (r, frag, err) => (r, full ++ frag, err)
      end
  end.

Definition ReadBytes (r : Reader) : Reader * bytes * option read_error := bytes_loop (S (length (contents r))) r [].

Definition UnpackLine (r : Reader) : Reader * bytes * option read_error :=
  let '(r, line, err) := ReadSlice r in
  let '(r, line, err) :=
    if bool_decide (err = Some ErrBufferFull) then
      let '(r, rest, err) := ReadBytes r in
      (r, match err with None => line ++ rest | Some _ => line end, err)
    else (r, line, err) in
  (r, line, if bool_decide (err = Some EOF) && negb (Nat.eqb (length line) 0) then Some ErrUnexpectedEOF else err).

(** ** Framings *)

Inductive framing := FixedFraming | JSONFraming.

Definition framing_ContentType (f : framing) : string :=
  match f with FixedFraming => ContentType_ProtoFixed | JSONFraming => ContentType_JSONLines end.

Definition FramingByContentType (contentType : string) : framing + string :=
  if String.eqb contentType ContentType_ProtoFixed then inl FixedFraming
  else if String.eqb contentType ContentType_JSONLines then inl JSONFraming
  else inr "unrecognized %s (%s)".

Section json.
(** [Encode] of the JSON encoder, which ends values with a newline; and [json.Unmarshal]. *)
Context {M : Type} (json_Encode : M → bytes + string) (json_Unmarshal : bytes → M + string) (Fixup : M → option string).

Definition json_Marshal (msg : M) : bytes * option string := match json_Encode msg with inl b => (b, None) | inr err => ([], Some err) end.

Definition json_unmarshal (line : bytes) : M + string :=
  match json_Unmarshal line with
  | inr err => inr err
  | inl msg => match Fixup msg with Some err => inr err | None => inl msg end
  end.
End json.

(** ** Mappings *)

(** FNV-1a of 32 bits (hash/fnv). *)
Definition fnv32a_step (h : Z) (c : byte) : Z := uint32 (Z.lxor h (byte_Z c) * 16777619).
Definition fnv32a (b : bytes) : Z := foldl fnv32a_step 2166136261 b.

Inductive map_error := ErrEmptyListResponse | ErrFraming (err : string).

(** The journal that a mapping chose, and its framing. *)
Definition map_to (journals : list ListResponse_Journal) (ind : Z) : outcome (Journal * (framing + map_error)) :=
  if ind <? 0 then Panic "index out of range"
  else
    match journals !! Z.to_nat ind with
    | None => Panic "index out of range"
    | Some j =>
        Ret (js_Name (lj_Spec j),
             match FramingByContentType (ValueOf (js_LabelSet (lj_Spec j)) lbl_ContentType) with
             | inl f => inl f
             | inr err => inr (ErrFraming err)
             end)
    end.

(** [rand] is what [rand.Intn] answers, which panics if it is not given a positive number. *)
Definition RandomMapping (rand : Z → Z) (journals : list ListResponse_Journal) : outcome (Journal * (framing + map_error)) :=
  if Nat.eqb (length journals) 0 then Ret ("", inr ErrEmptyListResponse)
  else map_to journals (rand (Z.of_nat (length journals))).

(** [key] is the mapping key of the message. *)
Definition ModuloMapping (key : bytes) (journals : list ListResponse_Journal) : outcome (Journal * (framing + map_error)) :=
  if Nat.eqb (length journals) 0 then Ret ("", inr ErrEmptyListResponse)
  else map_to journals (Z.rem (fnv32a key) (Z.of_nat (length journals))).

Definition name_hash (j : ListResponse_Journal) : Z := fnv32a (str_bytes (js_Name (lj_Spec j))).

(** The hashes of the last list response, which is known by its address. *)
Record hash_cache := mkHashCache { lastLR : option nat; lastHashes : list Z }.

Definition hash_cache_new : hash_cache := mkHashCache None [].

Definition partitionsAndHashes (c : hash_cache) (ptr : nat) (journals : list ListResponse_Journal) : hash_cache :=
  if bool_decide (lastLR c = Some ptr) then c else mkHashCache (Some ptr) (name_hash <$> journals).

(** The loop over the journals from [i] on. *)
Fixpoint hrw_loop (sum : Z) (hashes : list Z) (i : Z) (journals : list ListResponse_Journal) (hrw ind : Z) : outcome Z :=
  match journals with
  | [] => Ret ind
  | _ :: journals =>
      match hashes with
      | [] => Panic "index out of range"
      | h :: hashes =>
          let w := Z.lxor sum h in
          if hrw <? w then hrw_loop sum hashes (i + 1) journals w i else hrw_loop sum hashes (i + 1) journals hrw ind
      end
  end.

Definition RendezvousMapping (c : hash_cache) (key : bytes) (ptr : nat) (journals : list ListResponse_Journal)
    : outcome (hash_cache * (Journal * (framing + map_error))) :=
  let c := partitionsAndHashes c ptr journals in
  if Nat.eqb (length journals) 0 then Ret (c, ("", inr ErrEmptyListResponse))
  else
    let! ind := hrw_loop (fnv32a key) (lastHashes c) 0 journals 0 0 in
    let! res := map_to journals ind in Ret (c, res).

(** ** Publish *)

(** An [AsyncJournalClient]: its appends, what is written to them, and the error that they are released with. *)
Class AsyncJournalClient (W A : Type) := {
  aj_StartAppend : W → Journal → W * A;
  aj_Write : W → A → bytes → W;
  aj_Require : W → A → option string → W;
  aj_Release : W → A → W * option string;
}.

Inductive publish_error := PublishInvalid (err : string) | PublishMapping (err : map_error) | PublishAppend (err : string).

Definition Publish {W A M} `{AsyncJournalClient W A} (Validate : M → option string) (marshal : framing → M → bytes * option string)
    (mapping : M → outcome (Journal * (framing + map_error))) (w : W) (msg : M) : outcome (W * (A + publish_error)) :=
  match Validate msg with
  | Some err => Ret (w, inr (PublishInvalid err))
  | None =>
      let! (journal, f) := mapping msg in
      match f with
      | inr err => Ret (w, inr (PublishMapping err))
      | inl f =>
          let '(w, aa) := aj_StartAppend w journal in
          let '(b, err) := marshal f msg in
          let w := aj_Write w aa b in
          let w := aj_Require w aa err in
          let '(w, err) := aj_Release w aa in
          Ret (w, match err with None => inl aa | Some err => inr (PublishAppend err) end)
      end
  end.

(** ** Lines of any length *)

Lemma IndexByte_Some b c i : IndexByte b c = Some i → take (S i) b = take i b ++ [c] ∧ c ∉ take i b.
Proof.
  unfold IndexByte. intros Hf. apply fmap_Some in Hf as ([i' x] & Hf & ->). cbn. apply list_find_Some in Hf as (Hi & -> & Hbefore).
  split; [by apply take_S_r|]. intros (k & Hk)%list_elem_of_lookup. apply lookup_take_Some in Hk as [Hk Hlt]. by apply (Hbefore k c).
Qed.

Lemma IndexByte_None b c : IndexByte b c = None → c ∉ b.
Proof.
  unfold IndexByte. intros Hf%fmap_None Hin. apply list_find_None in Hf. rewrite Forall_forall in Hf. by apply (Hf c Hin).
Qed.

(** Lists are split at the first of an element in one way. *)
Lemma app_split_first {A} (c : A) l : ∀ l' rest rest', l ++ c :: rest = l' ++ c :: rest' → c ∉ l → c ∉ l' → l = l' ∧ rest = rest'.
Proof.
  induction l as [|x l IH]; intros [|y l'] rest rest'; cbn; [by intros [= <-]|..].
  - intros [= <- _] _ Hn. destruct Hn. by left.
  - intros [= -> _] Hn _. destruct Hn. by left.
  - intros [= <- Heq] Hn Hn'. rewrite not_elem_of_cons in Hn, Hn'. destruct (IH l' rest rest' Heq) as [-> ->]; naive_solver.
Qed.

(** How [ReadSlice] ends. *)
Definition slice_ends (r r' : Reader) (line : bytes) (err : option read_error) : Prop :=
  match err with
  | None => ∃ l, line = l ++ [newline] ∧ newline ∉ l
  | Some ErrBufferFull => newline ∉ line ∧ length line = rd_size r
  | Some e => e = rd_err r ∧ newline ∉ line ∧ contents r' = []
  end.

Lemma line_Discard_spec r n : reader_ok r → reader_ok (Discard r n) ∧ contents r = take n (rd_buf r) ++ contents (Discard r n) ∧
  rd_size (Discard r n) = rd_size r ∧ rd_err (Discard r n) = rd_err r.
Proof.
  intros [Hs Hb]. split; [split; [done|]; cbn; rewrite length_drop; lia|]. split; [|done]. unfold contents. cbn. by rewrite app_assoc, take_drop.
Qed.

Lemma slice_loop_spec fuel : ∀ r, reader_ok r → rd_err r ≠ ErrBufferFull → (length (rd_rest r) < fuel)%nat →
  ∃ r' line err, slice_loop fuel r = (r', line, err) ∧ reader_ok r' ∧ contents r = line ++ contents r' ∧ rd_size r' = rd_size r ∧ rd_err r' = rd_err r ∧
    slice_ends r r' line err.
Proof.
  induction fuel as [|fuel IH]; intros r Hr He Hf; [lia|]. cbn [slice_loop]. destruct (IndexByte (rd_buf r) newline) as [i|] eqn:Hi.
  - destruct (line_Discard_spec r (S i) Hr) as (Hr' & Hc & Hs & He'). apply IndexByte_Some in Hi as [Ht Hn]. eexists _, _, _. split; [done|]. split_and!; try done.
    exists (take i (rd_buf r)). by rewrite Ht.
  - apply IndexByte_None in Hi. destruct (Nat.leb_spec (rd_size r) (length (rd_buf r))) as [Hfull|Hroom].
    + destruct (line_Discard_spec r (length (rd_buf r)) Hr) as (Hr' & Hc & Hs & He'). rewrite take_ge in Hc by lia. eexists _, _, _. split; [done|]. split_and!; try done.
      split; [done|]. destruct Hr. lia.
    + destruct (decide (rd_rest r = [])) as [Hnil|Hne].
      * unfold fill. rewrite Hnil. destruct (line_Discard_spec r (length (rd_buf r)) Hr) as (Hr' & Hc & Hs & He'). rewrite take_ge in Hc by lia. eexists _, _, _. split; [done|].
        split_and!; try done. unfold slice_ends. assert (contents (Discard r (length (rd_buf r))) = []) as Hc0 by (unfold contents; cbn; by rewrite drop_all, Hnil).
        by destruct (rd_err r).
      * destruct (fill_spec r Hr Hroom Hne) as (r1 & -> & [Hr1 [Hs1 He1] Hc1] & Hlt).
        destruct (IH r1 Hr1) as (r' & line & err & -> & Hr' & Hc & Hs & He' & Hend); [congruence| |].
        { apply (f_equal length) in Hc1. unfold contents in Hc1. rewrite !length_app in Hc1. lia. }
        exists r', line, err. split; [done|]. rewrite <- Hc1. split_and!; try congruence. unfold slice_ends in *. by rewrite <- Hs1, <- He1.
Qed.

Lemma ReadSlice_spec r : reader_ok r → rd_err r ≠ ErrBufferFull →
  ∃ r' line err, ReadSlice r = (r', line, err) ∧ reader_ok r' ∧ contents r = line ++ contents r' ∧ rd_size r' = rd_size r ∧ rd_err r' = rd_err r ∧ slice_ends r r' line err.
Proof. intros Hr He. apply slice_loop_spec; [done..|lia]. Qed.

Lemma bytes_loop_spec fuel : ∀ r full, reader_ok r → rd_err r ≠ ErrBufferFull → (length (contents r) < fuel)%nat → newline ∉ full →
  ∃ r' b err, bytes_loop fuel r full = (r', full ++ b, err) ∧ reader_ok r' ∧ contents r = b ++ contents r' ∧ rd_size r' = rd_size r ∧ rd_err r' = rd_err r ∧
    match err with None => ∃ l, b = l ++ [newline] ∧ newline ∉ l | Some e => e = rd_err r ∧ newline ∉ b ∧ contents r' = [] end.
Proof.
  induction fuel as [|fuel IH]; intros r full Hr He Hf Hn; [lia|]. cbn [bytes_loop]. destruct (ReadSlice_spec r Hr He) as (r1 & line & err & -> & Hr1 & Hc1 & Hs1 & He1 & Hend).
  destruct err as [e|]; cbn in Hend; [|by exists r1, line, None].
  destruct (decide (e = ErrBufferFull)) as [-> |Hne].
  - destruct Hend as [Hl Hlen]. destruct (IH r1 (full ++ line)) as (r' & b & err & Hb & Hr' & Hc' & Hs' & He' & Hend'); [done|congruence| |rewrite elem_of_app; naive_solver|].
    { apply (f_equal length) in Hc1. rewrite length_app in Hc1. destruct Hr. lia. }
    rewrite Hb. exists r', (line ++ b), err. rewrite <- app_assoc. split; [done|]. rewrite Hc1, Hc', <- app_assoc. split_and!; try congruence.
    destruct err as [e|].
    + destruct Hend' as (-> & Hb' & Hnil). split_and!; [done| |done]. rewrite elem_of_app. naive_solver.
    + destruct Hend' as (l & -> & Hl'). exists (line ++ l). split; [by rewrite app_assoc|]. rewrite elem_of_app. naive_solver.
  - assert (slice_ends r r1 line (Some e) = (e = rd_err r ∧ newline ∉ line ∧ contents r1 = [])) as Heq by (by destruct e). unfold slice_ends in Heq. rewrite Heq in Hend.
    exists r1, line, (Some e). split; [by destruct e|]. destruct Hend as (? & ? & ?). by split_and!.
Qed.

Lemma ReadBytes_spec r : reader_ok r → rd_err r ≠ ErrBufferFull →
  ∃ r' b err, ReadBytes r = (r', b, err) ∧ reader_ok r' ∧ contents r = b ++ contents r' ∧ rd_size r' = rd_size r ∧ rd_err r' = rd_err r ∧
    match err with None => ∃ l, b = l ++ [newline] ∧ newline ∉ l | Some e => e = rd_err r ∧ newline ∉ b ∧ contents r' = [] end.
Proof. intros Hr He. apply (bytes_loop_spec _ r []); [done..|lia|apply not_elem_of_nil]. Qed.

(** [UnpackLine] takes a line, or all there is and fails. *)
Lemma UnpackLine_spec r : reader_ok r → rd_err r ≠ ErrBufferFull →
  ∃ r' line err, UnpackLine r = (r', line, err) ∧ reader_ok r' ∧ rd_size r' = rd_size r ∧ rd_err r' = rd_err r ∧
    match err with
    | None => contents r = line ++ contents r' ∧ ∃ l, line = l ++ [newline] ∧ newline ∉ l
    | Some e => newline ∉ contents r ∧ contents r' = [] ∧ e = if bool_decide (rd_err r = EOF) && negb (Nat.eqb (length (contents r)) 0) then ErrUnexpectedEOF else rd_err r
    end.
Proof.
  intros Hr He. unfold UnpackLine. destruct (ReadSlice_spec r Hr He) as (r1 & line & err & -> & Hr1 & Hc1 & Hs1 & He1 & Hend).
  destruct (decide (err = Some ErrBufferFull)) as [-> |Hne].
  - destruct Hend as [Hl Hlen]. cbn [bool_decide]. rewrite bool_decide_true by done.
    destruct (ReadBytes_spec r1 Hr1) as (r2 & b & err & -> & Hr2 & Hc2 & Hs2 & He2 & Hend2); [congruence|].
    assert (0 < length line)%nat as Hpos by (destruct Hr; lia).
    eexists r2, _, _. split; [done|]. split; [done|]. split; [congruence|]. split; [congruence|]. destruct err as [e|].
    + destruct Hend2 as (-> & Hb & Hnil). rewrite Hnil, app_nil_r in Hc2. destruct (Nat.eqb_spec (length line) 0); [lia|]. cbn [negb]. rewrite andb_true_r, He1.
      assert (length (contents r) ≠ 0%nat) as Hlc by (rewrite Hc1, length_app; lia). rewrite (proj2 (Nat.eqb_neq _ _) Hlc). cbn [negb]. rewrite andb_true_r.
      assert (newline ∉ contents r) by (rewrite Hc1, Hc2, elem_of_app; naive_solver).
      destruct (decide (rd_err r = EOF)) as [Heof|Heof]; [rewrite Heof, !bool_decide_true by done; done|]. rewrite !bool_decide_false by congruence. done.
    + destruct Hend2 as (l & -> & Hl'). rewrite bool_decide_false by done. split; [by rewrite Hc1, Hc2, app_assoc|].
      exists (line ++ l). split; [by rewrite app_assoc|]. rewrite elem_of_app. naive_solver.
  - rewrite bool_decide_false by done. eexists r1, line, _. split; [done|]. split_and!; [done..|]. destruct err as [e|].
    + assert (slice_ends r r1 line (Some e) = (e = rd_err r ∧ newline ∉ line ∧ contents r1 = [])) as Heq by (by destruct e). rewrite Heq in Hend.
      destruct Hend as (-> & Hl & Hnil). rewrite Hnil, app_nil_r in Hc1. subst line.
      destruct (decide (rd_err r = EOF)) as [Heof|Heof]; [rewrite Heof, !bool_decide_true by done; by destruct (negb _)|].
      rewrite !bool_decide_false by congruence. done.
    + rewrite bool_decide_false by done. done.
Qed.

(** [UnpackLine] takes the next line. Whatever the size of the buffer is and however reads of the source come in, it returns the bytes through the first newline and leaves those that
    follow; and where there is no newline, the error of the source, which is unexpected if the source ended within a line. *)
Theorem UnpackLine_correct r : reader_ok r → rd_err r ≠ ErrBufferFull →
  (∀ l rest, contents r = l ++ newline :: rest → newline ∉ l → ∃ r', UnpackLine r = (r', l ++ [newline], None) ∧ reader_ok r' ∧ contents r' = rest ∧ rd_err r' = rd_err r) ∧
  (newline ∉ contents r → ∃ r' line e, UnpackLine r = (r', line, Some e) ∧ contents r' = [] ∧
    e = if bool_decide (rd_err r = EOF) && negb (Nat.eqb (length (contents r)) 0) then ErrUnexpectedEOF else rd_err r).
Proof.
  intros Hr He. destruct (UnpackLine_spec r Hr He) as (r' & line & err & Hu & Hr' & Hs & He' & Hend). rewrite Hu. split.
  - intros l rest Hc Hl. destruct err as [e|]; [destruct Hend as [Hn _]; rewrite Hc in Hn; destruct Hn; set_solver|].
    destruct Hend as (Hc' & l' & -> & Hl'). rewrite Hc, <- app_assoc in Hc'. cbn in Hc'.
    assert (l = l' ∧ rest = contents r') as [<- ->] by (by eapply app_split_first). by exists r'.
  - intros Hn. destruct err as [e|]; [by destruct Hend as (_ & ? & ?); exists r', line, e|].
    destruct Hend as (Hc' & l' & -> & _). rewrite Hc' in Hn. destruct Hn. set_solver.
Qed.

(** ** Messages of JSON *)

Section json_roundtrip.
Context {M : Type} (json_Encode : M → bytes + string) (json_Unmarshal : bytes → M + string) (Fixup : M → option string).

(** Of [encoding/json]: a value is encoded in a line, and decoded from it. *)
Record json_law (m : M) : Prop := {
  jl_line : ∃ l, json_Encode m = inl (l ++ [newline]) ∧ newline ∉ l;
  jl_decode b : json_Encode m = inl b → json_Unmarshal b = inl m;
  jl_fixup : Fixup m = None;
}.

(** Messages that are unpacked and unmarshaled, until an error. *)
Fixpoint unpack_json (fuel : nat) (r : Reader) : list M * option (read_error + string) :=
  match fuel with
  | O => ([], None)
  | S fuel =>
      match UnpackLine r with
      | (r, line, Some err) => ([], Some (inl err))
      | (r, line, None) =>
          match json_unmarshal json_Unmarshal Fixup line with
          | inr err => ([], Some (inr err))
          | inl m => let '(ms, err) := unpack_json fuel r in (m :: ms, err)
          end
      end
  end.

(** JSON framing round-trips. The messages that were marshaled to a journal are unpacked from it and unmarshaled, each as it was and in their order, by a
    reader of any buffer size whose reads return any number of bytes; then the reader is at the end of the journal. *)
Theorem json_framing_roundtrip ms r : Forall json_law ms → reader_ok r → rd_err r = EOF →
  contents r = concat ((λ m, fst (json_Marshal json_Encode m)) <$> ms) → unpack_json (S (length ms)) r = (ms, Some (inl EOF)).
Proof.
  intros Hms. revert r. induction Hms as [|m ms [(l & He & Hl) Hd Hf] _ IH]; intros r Hr Heof Hc.
  - cbn [unpack_json length]. destruct (UnpackLine_spec r Hr) as (r' & line & err & -> & _ & _ & _ & Hend); [by rewrite Heof|]. rewrite Hc, Heof in Hend.
    destruct err as [e|]; [by destruct Hend as (_ & _ & ->)|]. destruct Hend as (Hn & l & -> & _). cbn in Hn. by destruct l.
  - cbn [fmap list_fmap concat] in Hc. unfold json_Marshal at 1 in Hc. rewrite He in Hc. cbn [fst] in Hc. rewrite <- app_assoc in Hc. cbn in Hc.
    change (length (m :: ms)) with (S (length ms)). set (n := S (length ms)) in *. cbn [unpack_json].
    destruct (UnpackLine_spec r Hr) as (r' & line & err & -> & Hr' & _ & He' & Hend); [by rewrite Heof|].
    destruct err as [e|]; [destruct Hend as [Hn _]; rewrite Hc in Hn; destruct Hn; set_solver|].
    destruct Hend as (Hc' & l' & -> & Hl'). rewrite Hc, <- app_assoc in Hc'. cbn in Hc'. destruct (app_split_first newline l l' _ _ Hc' Hl Hl') as [<- Hrest].
    unfold json_unmarshal. rewrite (Hd _ He), Hf. rewrite (IH r'); [done|done|congruence|done].
Qed.
End json_roundtrip.

(** ** Mappings are stable *)

Lemma fnv32a_range b : 0 ≤ fnv32a b < 2 ^ 32.
Proof.
  unfold fnv32a. cut (∀ h, 0 ≤ h < 2 ^ 32 → 0 ≤ foldl fnv32a_step h b < 2 ^ 32); [intros Hc; apply Hc; lia|].
  induction b as [|c b IH]; intros h Hh; [done|]. cbn [foldl]. apply IH. unfold fnv32a_step, uint32, wrapU. apply Z.mod_pos_bound. lia.
Qed.

(** The journal that a mapping gives a message, with the framing of its content type. *)
Definition mapped_to (j : ListResponse_Journal) : Journal * (framing + map_error) :=
  (js_Name (lj_Spec j),
   match FramingByContentType (ValueOf (js_LabelSet (lj_Spec j)) lbl_ContentType) with inl f => inl f | inr err => inr (ErrFraming err) end).

Lemma map_to_lookup journals i j : journals !! i = Some j → map_to journals (Z.of_nat i) = Ret (mapped_to j).
Proof. intros Hj. unfold map_to. rewrite (proj2 (Z.ltb_ge _ _)), Nat2Z.id, Hj by lia. done. Qed.

(** The weight of a journal for a key. *)
Definition weight (sum : Z) (j : ListResponse_Journal) : Z := Z.lxor sum (name_hash j).

Lemma hrw_weight_nonneg sum j : 0 ≤ sum → 0 ≤ weight sum j.
Proof. intros Hs. unfold weight. apply Z.lxor_nonneg. pose proof (fnv32a_range (str_bytes (js_Name (lj_Spec j)))). unfold name_hash. lia. Qed.

(** The first of the journals of the greatest weight. *)
Definition heaviest (sum : Z) (journals : list ListResponse_Journal) (i : nat) : Prop :=
  ∃ j, journals !! i = Some j ∧ (∀ k x, journals !! k = Some x → weight sum x ≤ weight sum j) ∧
    ∀ k x, (k < i)%nat → journals !! k = Some x → weight sum x < weight sum j.

Lemma hrw_loop_spec sum : 0 ≤ sum → ∀ todo done hrw ind, 0 ≤ ind →
  (∀ x, x ∈ done → weight sum x ≤ hrw) → (hrw = 0 ∧ ind = 0 ∨ ∃ j, done !! Z.to_nat ind = Some j ∧ weight sum j = hrw) →
  (∀ k x, (k < Z.to_nat ind)%nat → done !! k = Some x → weight sum x < hrw) → 0 ≤ hrw → done ++ todo ≠ [] →
  ∃ i, hrw_loop sum (name_hash <$> todo) (Z.of_nat (length done)) todo hrw ind = Ret (Z.of_nat i) ∧ heaviest sum (done ++ todo) i.
Proof.
  intros Hsum. induction todo as [|j todo IH]; intros done hrw ind Hind Hle Hcur Hlt Hhrw Hne; cbn [hrw_loop fmap list_fmap].
  - rewrite app_nil_r in *. exists (Z.to_nat ind). split; [f_equal; lia|].
    assert (∃ j, done !! Z.to_nat ind = Some j ∧ weight sum j = hrw) as (j & Hj & Hw).
    { destruct Hcur as [[-> ->]|?]; [|done]. destruct done as [|j done]; [done|]. exists j. split; [done|]. pose proof (hrw_weight_nonneg sum j Hsum).
      pose proof (Hle j ltac:(by left)). lia. }
    exists j. rewrite Hw. split_and!; [done| |done]. intros k x Hk. by apply Hle, (list_elem_of_lookup_2 _ k).
  - fold (weight sum j). pose proof (hrw_weight_nonneg sum j Hsum) as Hwj.
    assert (∀ hrw' ind', (∃ i, hrw_loop sum (name_hash <$> todo) (Z.of_nat (length (done ++ [j]))) todo hrw' ind' = Ret (Z.of_nat i) ∧ heaviest sum ((done ++ [j]) ++ todo) i) →
      ∃ i, hrw_loop sum (name_hash <$> todo) (Z.of_nat (length done) + 1) todo hrw' ind' = Ret (Z.of_nat i) ∧ heaviest sum (done ++ j :: todo) i) as Hstep.
    { intros hrw' ind' (i & Hi & Hh). exists i. rewrite length_app in Hi. cbn in Hi. replace (Z.of_nat (length done) + 1) with (Z.of_nat (length done + 1)) by lia.
      split; [done|]. by rewrite <- app_assoc in Hh. }
    destruct (Z.ltb_spec hrw (weight sum j)) as [Hgt|Hge]; apply Hstep, IH; try lia; try by destruct done.
    + intros x [Hx| ->%list_elem_of_singleton]%elem_of_app; [specialize (Hle x Hx); lia|lia].
    + right. exists j. split; [|done]. rewrite Nat2Z.id, lookup_app_r, Nat.sub_diag by lia. done.
    + intros k x Hk Hx. rewrite Nat2Z.id in Hk. rewrite lookup_app_l in Hx by lia. specialize (Hle x (list_elem_of_lookup_2 _ _ _ Hx)). lia.
    + intros x [Hx| ->%list_elem_of_singleton]%elem_of_app; [by apply Hle|lia].
    + destruct Hcur as [?|(j' & Hj' & ?)]; [by left|right]. exists j'. split; [by apply lookup_app_l_Some|done].
    + intros k x Hk Hx. destruct (decide (k < length done)%nat) as [Hkd|Hkd]; [rewrite lookup_app_l in Hx by lia; by eapply Hlt|].
      destruct Hcur as [[_ ->]|(j' & Hj'%lookup_lt_Some & _)]; [cbn in Hk; lia|lia].
Qed.

(** The hashes are those of the journals, if they are of the same response. *)
Definition coherent (c : hash_cache) (ptr : nat) (journals : list ListResponse_Journal) : Prop :=
  lastLR c = Some ptr → lastHashes c = name_hash <$> journals.

Lemma RendezvousMapping_spec c key ptr journals : coherent c ptr journals → journals ≠ [] →
  ∃ i j, RendezvousMapping c key ptr journals = Ret (mkHashCache (Some ptr) (name_hash <$> journals), mapped_to j) ∧
    journals !! i = Some j ∧ heaviest (fnv32a key) journals i.
Proof.
  intros Hc Hne. unfold RendezvousMapping.
  assert (partitionsAndHashes c ptr journals = mkHashCache (Some ptr) (name_hash <$> journals)) as ->.
  { unfold partitionsAndHashes. case_bool_decide as Hp; [|done]. destruct c as [lr hs]. cbn in *. unfold coherent in Hc. cbn in Hc. subst lr. by rewrite (Hc eq_refl). }
  destruct (Nat.eqb_spec (length journals) 0) as [Hz|_]; [by apply nil_length_inv in Hz|]. cbn [lastHashes].
  pose proof (fnv32a_range key) as Hk. destruct (hrw_loop_spec (fnv32a key) ltac:(lia) journals [] 0 0) as (i & Hi & Hh); try done; try by left.
  { by intros x ?%not_elem_of_nil. }
  cbn [length app] in *. change (Z.of_nat 0) with 0 in Hi. rewrite Hi. cbn [outcome_bind]. pose proof Hh as (j & Hj & _). rewrite (map_to_lookup _ _ _ Hj). cbn [outcome_bind].
  by exists i, j.
Qed.

Lemma heaviest_unique sum journals i i' : heaviest sum journals i → heaviest sum journals i' → i = i'.
Proof.
  intros (j & Hj & Hle & Hlt) (j' & Hj' & Hle' & Hlt'). destruct (Nat.lt_trichotomy i i') as [Hi|[|Hi]]; [|done|].
  - specialize (Hlt' i j Hi Hj). specialize (Hle i' j' Hj'). lia.
  - specialize (Hlt i' j' Hi Hj'). specialize (Hle' i j Hj). lia.
Qed.

(** Without a journal that was not the heaviest, the heaviest is the same. *)
Lemma heaviest_remove sum l1 j l2 i x : heaviest sum (l1 ++ j :: l2) i → (l1 ++ j :: l2) !! i = Some x → i ≠ length l1 →
  ∃ i', heaviest sum (l1 ++ l2) i' ∧ (l1 ++ l2) !! i' = Some x.
Proof.
  intros (x' & Hx' & Hle & Hlt) Hx Hne. assert (x' = x) as -> by congruence. set (up := λ k, if (k <? length l1)%nat then k else S k).
  assert (∀ k, (l1 ++ j :: l2) !! up k = (l1 ++ l2) !! k) as Hup.
  { intros k. unfold up. destruct (Nat.ltb_spec k (length l1)); [by rewrite !lookup_app_l by lia|]. rewrite !lookup_app_r by lia.
    by replace (S k - length l1)%nat with (S (k - length l1)) by lia. }
  assert (∃ i', up i' = i) as [i' Hi'].
  { destruct (Nat.lt_ge_cases i (length l1)); [exists i|exists (pred i)]; unfold up; [by rewrite (proj2 (Nat.ltb_lt _ _))|]. rewrite (proj2 (Nat.ltb_ge _ _)) by lia. lia. }
  exists i'. rewrite <- Hup, Hi'. split; [|done]. exists x. rewrite <- Hup, Hi'. split_and!; [done| |].
  - intros k y Hy. apply (Hle (up k)). by rewrite Hup.
  - intros k y Hk Hy. apply (Hlt (up k)); [|by rewrite Hup]. rewrite <- Hi'. unfold up.
    destruct (Nat.ltb_spec k (length l1)), (Nat.ltb_spec i' (length l1)); lia.
Qed.

(** The cache after the mappings of earlier messages; [content] is what is at the address of a response. *)
Fixpoint rendezvous_session (content : nat → list ListResponse_Journal) (c : hash_cache) (calls : list (bytes * nat)) : outcome hash_cache :=
  match calls with
  | [] => Ret c
  | (key, ptr) :: calls => let! (c, _) := RendezvousMapping c key ptr (content ptr) in rendezvous_session content c calls
  end.

Lemma rendezvous_session_coherent content calls : ∀ c, (∀ ptr, coherent c ptr (content ptr)) →
  ∃ c', rendezvous_session content c calls = Ret c' ∧ ∀ ptr, coherent c' ptr (content ptr).
Proof.
  induction calls as [|[key ptr] calls IH]; intros c Hc; cbn [rendezvous_session]; [by exists c|].
  assert (∃ c' out, RendezvousMapping c key ptr (content ptr) = Ret (c', out) ∧ ∀ ptr, coherent c' ptr (content ptr)) as (c' & out & -> & Hc').
  { destruct (decide (content ptr = [])) as [Hnil|Hne].
    - unfold RendezvousMapping. rewrite Hnil. cbn [length Nat.eqb]. eexists _, _. split; [done|]. intros ptr'. unfold partitionsAndHashes.
      case_bool_decide; [apply Hc|]. intros [= <-]. by rewrite Hnil.
    - destruct (RendezvousMapping_spec c key ptr (content ptr) (Hc ptr) Hne) as (i & j & -> & _). eexists _, _. split; [done|]. by intros ptr' [= <-]. }
  cbn [outcome_bind]. by apply IH.
Qed.

(** C31: Rendezvous mappings are stable, and reassign as little as possible. Whatever was mapped before and is cached: with a journal more, each message is mapped to that journal, or to where it
    was mapped without it; mappings do not panic, and the framing is that of the content type of the journal. *)
Theorem rendezvous_minimal content calls calls' key ptr ptr' l1 j l2 :
  content ptr = l1 ++ j :: l2 → content ptr' = l1 ++ l2 → l1 ++ l2 ≠ [] →
  ∃ c c' c1 c2 x y, rendezvous_session content hash_cache_new calls = Ret c ∧ rendezvous_session content hash_cache_new calls' = Ret c' ∧
    RendezvousMapping c key ptr (content ptr) = Ret (c1, mapped_to x) ∧ RendezvousMapping c' key ptr' (content ptr') = Ret (c2, mapped_to y) ∧
    x ∈ content ptr ∧ y ∈ content ptr' ∧ (x = j ∨ x = y).
Proof.
  intros Hp Hp' Hne. assert (∀ p, coherent hash_cache_new p (content p)) as H0 by done.
  destruct (rendezvous_session_coherent content calls _ H0) as (c & -> & Hc). destruct (rendezvous_session_coherent content calls' _ H0) as (c' & -> & Hc').
  destruct (RendezvousMapping_spec c key ptr (content ptr) (Hc ptr)) as (i & x & Hr & Hx & Hh); [rewrite Hp; by destruct l1|].
  destruct (RendezvousMapping_spec c' key ptr' (content ptr') (Hc' ptr')) as (i' & y & Hr' & Hy & Hh'); [by rewrite Hp'|].
  eexists c, c', _, _, x, y. split_and!; [done|done|exact Hr|exact Hr'|by eapply list_elem_of_lookup_2|by eapply list_elem_of_lookup_2|].
  rewrite Hp in Hx, Hh. rewrite Hp' in Hy, Hh'. destruct (decide (i = length l1)) as [->|Hi].
  - left. rewrite lookup_app_r, Nat.sub_diag in Hx by lia. by injection Hx.
  - right. destruct (heaviest_remove _ _ _ _ _ _ Hh Hx Hi) as (i'' & Hh'' & Hx''). rewrite (heaviest_unique _ _ _ _ Hh' Hh'') in Hy. congruence.
Qed.

(** Modulo mappings depend on the key and the partitions alone. *)
Theorem ModuloMapping_correct key journals : journals ≠ [] →
  ∃ i j, ModuloMapping key journals = Ret (mapped_to j) ∧ journals !! i = Some j ∧ Z.of_nat i = fnv32a key mod Z.of_nat (length journals).
Proof.
  intros Hne. unfold ModuloMapping. destruct (Nat.eqb_spec (length journals) 0) as [Hz|Hz]; [by apply nil_length_inv in Hz|].
  pose proof (fnv32a_range key) as Hk. rewrite Z.rem_mod_nonneg by lia.
  pose proof (Z.mod_pos_bound (fnv32a key) (Z.of_nat (length journals))) as Hm. destruct (lookup_lt_is_Some_2 journals (Z.to_nat (fnv32a key mod Z.of_nat (length journals)))) as [j Hj]; [lia|].
  exists (Z.to_nat (fnv32a key mod Z.of_nat (length journals))), j. split; [|split; [done|lia]]. rewrite <- (map_to_lookup _ _ _ Hj). f_equal. lia.
Qed.

(** ** Published messages *)

(** An append of the client takes effect whole when it is released without an error, or not at all. *)
Class AsyncJournalLaws (W A : Type) `{AsyncJournalClient W A} := {
  aj_log : W → Journal → bytes;
  aj_appends w journal b err w1 aa w2 res : aj_StartAppend w journal = (w1, aa) → aj_Release (aj_Require (aj_Write w1 aa b) aa err) aa = (w2, res) →
    (∀ j, j ≠ journal → aj_log w2 j = aj_log w j) ∧
    match res with None => err = None ∧ aj_log w2 journal = aj_log w journal ++ b | Some _ => aj_log w2 journal = aj_log w journal end;
}.

Theorem Publish_whole {W A M} `{AsyncJournalLaws W A} Validate (marshal : framing → M → bytes * option string) mapping (w : W) msg w' res :
  Publish Validate marshal mapping w msg = Ret (w', res) →
  match res with
  | inl _ => ∃ journal f b, Validate msg = None ∧ mapping msg = Ret (journal, inl f) ∧ marshal f msg = (b, None) ∧
      aj_log w' journal = aj_log w journal ++ b ∧ ∀ j, j ≠ journal → aj_log w' j = aj_log w j
  | inr _ => ∀ j, aj_log w' j = aj_log w j
  end.
Proof.
  unfold Publish. destruct (Validate msg) eqn:Hv; [by intros [= <- <-]|]. destruct (mapping msg) as [[journal [f|err]]|] eqn:Hm; cbn [outcome_bind]; [|by intros [= <- <-]|done].
  destruct (aj_StartAppend w journal) as [w1 aa] eqn:Hs. destruct (marshal f msg) as [b err] eqn:Hb. destruct (aj_Release _ aa) as [w2 err2] eqn:Hr. intros [= <- <-].
  destruct (aj_appends w journal b err w1 aa w2 err2 Hs Hr) as [Ho Hj]. destruct err2 as [e|].
  - intros j. destruct (decide (j = journal)) as [->|]; [done|by apply Ho].
  - destruct Hj as [-> Hj]. by exists journal, f, b.
Qed.

(** ** Concrete messages *)

Module Messages.
Definition partition (name : string) : ListResponse_Journal :=
  mkListJournal (mkJournalSpec name 1 [mkLabel lbl_ContentType ContentType_JSONLines] (mkSpecFragment 1024 Codec_NONE None 0 0 0) NOT_SPECIFIED) 1 (mkRoute [] (-1) []).
(** Two responses, of which the second has a partition more. *)
Definition content (ptr : nat) : list ListResponse_Journal :=
  match ptr with O => [partition "a/0"; partition "a/2"] | _ => [partition "a/0"; partition "a/1"; partition "a/2"] end.
(** Messages are strings without newlines. *)
Definition encode (m : bytes) : bytes + string := inl (m ++ [newline]).
Definition decode (b : bytes) : bytes + string := inl (take (pred (length b)) b).
Definition messages : list bytes := [str_bytes "{}"; str_bytes "[1,2,3,4,5,6,7,8,9,10,11,12,13]"].
Definition reader : Reader := mkReader 16 [] (concat ((λ m, fst (json_Marshal encode m)) <$> messages)) EOF [1%nat; 3%nat; 20%nat].

Lemma messages_law : Forall (json_law encode decode (λ _, None)) messages.
Proof.
  repeat apply Forall_cons_2; [..|by apply Forall_nil_2]; (split; [eexists; split; [reflexivity|]|by intros b [= <-]|done]);
    intros Hn; repeat (apply elem_of_cons in Hn as [Hn|Hn]; [discriminate|]); by apply not_elem_of_nil in Hn.
Qed.
End Messages.

Lemma UnpackLine_correct_witness : ∃ r', UnpackLine Messages.reader = (r', str_bytes "{}" ++ [newline], None) ∧ reader_ok r'.
Proof.
  destruct (UnpackLine_correct Messages.reader) as [Hl _]; [split; vm_compute; lia|discriminate|].
  destruct (Hl (str_bytes "{}") (fst (json_Marshal Messages.encode (str_bytes "[1,2,3,4,5,6,7,8,9,10,11,12,13]")))) as (r' & Hu & Hr & _).
  - reflexivity.
  - intros Hn. repeat (apply elem_of_cons in Hn as [Hn|Hn]; [discriminate|]). by apply not_elem_of_nil in Hn.
  - by exists r'.
Defined.

Lemma json_framing_roundtrip_witness : unpack_json Messages.decode (λ _, None) 3 Messages.reader = (Messages.messages, Some (inl EOF)).
Proof.
  apply (json_framing_roundtrip Messages.encode Messages.decode (λ _, None) Messages.messages Messages.reader);
    [exact Messages.messages_law|split; vm_compute; lia|reflexivity|reflexivity].
Defined.

Lemma rendezvous_minimal_witness : ∃ c c' c1 c2 x y, rendezvous_session Messages.content hash_cache_new [(str_bytes "k", 0%nat)] = Ret c ∧
  rendezvous_session Messages.content hash_cache_new [] = Ret c' ∧
  RendezvousMapping c (str_bytes "key") 1 (Messages.content 1) = Ret (c1, mapped_to x) ∧ RendezvousMapping c' (str_bytes "key") 0 (Messages.content 0) = Ret (c2, mapped_to y) ∧
  x ∈ Messages.content 1 ∧ y ∈ Messages.content 0 ∧ (x = Messages.partition "a/1" ∨ x = y).
Proof. by apply (rendezvous_minimal Messages.content _ _ _ _ _ [Messages.partition "a/0"] (Messages.partition "a/1") [Messages.partition "a/2"]). Defined.
