(* ===== verification/Persister.v ===== *)
(** * Persisting of spools (src/v2/pkg/fragment/persister.go)

    A broker persists the spools that it completed as primary at once, and those that it replicated after two intervals, if
    that is still needed then; what failed is queued again. [Serve], the goroutines of primary spools, and brokers that
    complete spools are interleaved as steps. The key space is an argument of each step, and so is what persists a spool. *)
From S2P Require Import Prelude Encoding Protocol JournalSpec CoverSet Spool KeySpace AllocKeys Resolver.
Local Open Scope Z_scope.

(** ** The persister *)

Record Persister := mkPersister { qA : list Spool; qB : list Spool; qC : list Spool }.

Definition NewPersister : Persister := mkPersister [] [] [].

Definition queue (p : Persister) (spool : Spool) : Persister := mkPersister (qA p) (qB p) (qC p ++ [spool]).

Definition with_BackingStore (s : Spool) (store : string) : Spool :=
  let f := sfrag s in
  mkSpool (mkLFragment (mkFragment (f_Journal f) (f_Begin f) (f_End f) (f_Sum f) (f_CompressionCodec f) store (f_ModTime f)) (File (sp_Fragment s)))
    (sp_FirstAppendTime s) (sp_compressedFile s) (sp_compressedLength s) (sp_compressor s) (sp_delta s) (sp_summer s) (sp_sumState s).

(** What became of a spool. *)
Inductive fate := Persisted | Requeued | NoContent | NoStores | SpecRemoved.
#[global] Instance fate_eq_dec : EqDecision fate.
Proof. solve_decision. Defined.

Section persister.
Context {W : Type} (persistFn : W → Spool → W * option string).

Definition attemptPersist (ks : KeySpace BEntity) (w : W) (p : Persister) (spool : Spool) : outcome (W * Persister * Spool * fate) :=
  if ContentLength (sfrag spool) =? 0 then Ret (w, p, spool, NoContent)
  else
    let! item := LookupItem (ks_Root ks) (ks_KeyValues ks) (f_Journal (sfrag spool)) in
    match item with
    | None => Ret (w, p, spool, SpecRemoved)
    | Some it =>
        match default [] (Stores (js_Fragment (it_Value it))) with
        | [] => Ret (w, p, spool, NoStores)
        | store :: _ =>
            let spool := with_BackingStore spool store in
            let '(w, err) := persistFn w spool in
            match err with
            | None => Ret (w, p, spool, Persisted)
            | Some _ => Ret (w, queue p spool, spool, Requeued)
            end
        end
    end.

(** The persister with its goroutines: [ps_go] are those that [SpoolComplete] started; [ps_range] is what the loop of [Serve] over [qA] has left,
    or [None] where it waits for the next interval. *)
Record pstate := mkPState {
  ps_world : W;
  ps_p : Persister;
  ps_range : option (list Spool);
  ps_go : list Spool;
  ps_exiting : bool;
  ps_done : bool;
}.

Definition pstate_new (w : W) : pstate := mkPState w NewPersister None [] false false.

Definition with_persister (st : pstate) (w : W) (p : Persister) : pstate :=
  mkPState w p (ps_range st) (ps_go st) (ps_exiting st) (ps_done st).

Definition SpoolComplete (st : pstate) (spool : Spool) (primary : bool) : pstate :=
  if primary then mkPState (ps_world st) (ps_p st) (ps_range st) (ps_go st ++ [spool]) (ps_exiting st) (ps_done st)
  else if negb (ContentLength (sfrag spool) =? 0) then with_persister st (ps_world st) (queue (ps_p st) spool)
  else st.

(** Queues are rotated under the lock. *)
Definition rotate (st : pstate) : pstate :=
  let p := mkPersister (qB (ps_p st)) (qC (ps_p st)) [] in
  mkPState (ps_world st) p None (ps_go st) (ps_exiting st)
    (ps_exiting st && (Nat.eqb (length (qA p)) 0 && Nat.eqb (length (qB p)) 0)).

Inductive persist_op :=
| PComplete (spool : Spool) (primary : bool)
| PGo (i : nat) (ks : KeySpace BEntity)
| PTick
| PFinish
| PAttempt (ks : KeySpace BEntity)
| PRotate.

(** A step, with the attempt it made; [None] where it cannot be taken. *)
Definition persist_step (st : pstate) (op : persist_op) : outcome (option (pstate * list (Spool * fate))) :=
  match op with
  | PComplete spool primary => Ret (Some (SpoolComplete st spool primary, []))
  | PGo i ks =>
      match ps_go st !! i with
      | None => Ret None
      | Some spool =>
          let! (w, p, spool, f) := attemptPersist ks (ps_world st) (ps_p st) spool in
          Ret (Some (mkPState w p (ps_range st) (delete i (ps_go st)) (ps_exiting st) (ps_done st), [(spool, f)]))
      end
  | PTick =>
      match ps_range st, ps_done st with
      | None, false => Ret (Some (mkPState (ps_world st) (ps_p st) (Some (qA (ps_p st))) (ps_go st) (ps_exiting st) false, []))
      | _, _ => Ret None
      end
  | PFinish =>
      match ps_range st, ps_done st, ps_exiting st with
      | None, false, false => Ret (Some (mkPState (ps_world st) (ps_p st) (Some (qA (ps_p st))) (ps_go st) true false, []))
      | _, _, _ => Ret None
      end
  | PAttempt ks =>
      match ps_range st with
      | Some (spool :: rest) =>
          let! (w, p, spool, f) := attemptPersist ks (ps_world st) (ps_p st) spool in
          Ret (Some (mkPState w p (Some rest) (ps_go st) (ps_exiting st) (ps_done st), [(spool, f)]))
      | _ => Ret None
      end
  | PRotate => match ps_range st with Some [] => Ret (Some (rotate st, [])) | _ => Ret None end
  end.

Fixpoint persist_run (st : pstate) (ops : list persist_op) : outcome (option (pstate * list (Spool * fate))) :=
  match ops with
  | [] => Ret (Some (st, []))
  | op :: ops =>
      let! step := persist_step st op in
      match step with
      | None => Ret None
      | Some (st, l) =>
          let! res := persist_run st ops in
          Ret ((λ r, (fst r, l ++ snd r)) <$> res)
      end
  end.

(** ** No spool is lost *)

(** A spool, whatever the store that is attached to it. *)
Definition bare (s : Spool) : Spool := with_BackingStore s "".

(** The spools whose persisting is to come. *)
Definition waiting (st : pstate) : list Spool :=
  match ps_range st with Some l => l | None => qA (ps_p st) end ++ qB (ps_p st) ++ qC (ps_p st) ++ ps_go st.

Definition accepted (op : persist_op) : list Spool :=
  match op with
  | PComplete s primary => if primary || negb (ContentLength (sfrag s) =? 0) then [s] else []
  | _ => []
  end.

(** The spools that were persisted, or need not be. *)
Definition settled (l : list (Spool * fate)) : list Spool := fst <$> filter (λ x, snd x ≠ Requeued) l.

Lemma attemptPersist_spec ks w p s w' p' s' f : attemptPersist ks w p s = Ret (w', p', s', f) →
  bare s' = bare s ∧ (f = Requeued ∧ p' = queue p s' ∨ f ≠ Requeued ∧ p' = p) ∧
  (f = Persisted → snd (persistFn w s') = None).
Proof.
  unfold attemptPersist. destruct (_ =? 0); [intros [= <- <- <- <-]; split_and!; [done|by right|done]|].
  destruct (LookupItem _ _ _) as [[it|]|]; cbn [outcome_bind]; [|intros [= <- <- <- <-]; split_and!; [done|by right|done]|done].
  destruct (default [] _) as [|store stores]; [intros [= <- <- <- <-]; split_and!; [done|by right|done]|].
  destruct (persistFn w _) as [w1 [err|]] eqn:Hp; intros [= <- <- <- <-]; split_and!; try done; [by left|by right|by rewrite Hp].
Qed.

Lemma settled_app l l' : settled (l ++ l') = settled l ++ settled l'.
Proof. unfold settled. by rewrite filter_app, fmap_app. Qed.

Lemma attempt_moves f p p' (s s' : Spool) a c : bare s' = bare s → f = Requeued ∧ p' = queue p s' ∨ f ≠ Requeued ∧ p' = p →
  bare <$> (a ++ s :: qB p ++ qC p ++ c) ≡ₚ bare <$> (settled [(s', f)] ++ a ++ qB p' ++ qC p' ++ c).
Proof.
  intros Hb Hf. destruct Hf as [[-> ->]|[Hf ->]].
  - change (settled [(s', Requeued)]) with (@nil Spool). cbn [app queue qB qC]. rewrite !fmap_app, !fmap_cons, !fmap_app, <- Hb. cbn. solve_Permutation.
  - assert (settled [(s', f)] = [s']) as -> by (by destruct f). cbn [app]. rewrite !fmap_cons, !fmap_app, !fmap_cons, !fmap_app, <- Hb. solve_Permutation.
Qed.

Lemma persist_step_conserves st op st' l : persist_step st op = Ret (Some (st', l)) →
  bare <$> (accepted op ++ waiting st) ≡ₚ bare <$> (settled l ++ waiting st').
Proof.
  destruct op as [s primary|i ks| | |ks|]; cbn [persist_step accepted].
  - intros [= <- <-]. unfold SpoolComplete. destruct primary; cbn [orb].
    + unfold waiting. cbn [ps_range ps_p ps_go]. change (settled []) with (@nil Spool). rewrite !fmap_app. cbn. solve_Permutation.
    + destruct (negb _); [|done]. unfold waiting, with_persister. cbn [ps_range ps_p ps_go queue qA qB qC]. change (settled []) with (@nil Spool).
      destruct (ps_range st); rewrite !fmap_app; cbn; solve_Permutation.
  - destruct (ps_go st !! i) as [s|] eqn:Hi; [|done]. destruct (attemptPersist ks _ _ s) as [[[[w p] s'] f]|] eqn:Ha; [|done]. cbn [outcome_bind]. intros [= <- <-].
    destruct (attemptPersist_spec _ _ _ _ _ _ _ _ Ha) as (Hb & Hf & _). unfold waiting. cbn [ps_range ps_p ps_go app].
    apply delete_Permutation in Hi as Hgo. set (base := match ps_range st with Some l => l | None => qA (ps_p st) end).
    assert (match ps_range st with Some l => l | None => qA p end = base) as -> by (unfold base; destruct (ps_range st); [done|]; by destruct Hf as [[_ ->]|[_ ->]]).
    rewrite <- (attempt_moves f (ps_p st) p s s' base (delete i (ps_go st)) Hb Hf). apply fmap_Permutation. rewrite Hgo at 1. solve_Permutation.
  - destruct (ps_range st) eqn:Hr, (ps_done st); try done. intros [= <- <-]. unfold waiting. rewrite Hr. done.
  - destruct (ps_range st) eqn:Hr, (ps_done st), (ps_exiting st); try done. intros [= <- <-]. unfold waiting. rewrite Hr. done.
  - destruct (ps_range st) as [[|s rest]|] eqn:Hr; try done. destruct (attemptPersist ks _ _ s) as [[[[w p] s'] f]|] eqn:Ha; [|done]. cbn [outcome_bind]. intros [= <- <-].
    destruct (attemptPersist_spec _ _ _ _ _ _ _ _ Ha) as (Hb & Hf & _). unfold waiting. rewrite Hr. cbn [ps_range ps_p ps_go app].
    rewrite <- (attempt_moves f (ps_p st) p s s' rest (ps_go st) Hb Hf). apply fmap_Permutation. cbn. solve_Permutation.
  - destruct (ps_range st) as [[|s rest]|] eqn:Hr; try done. intros [= <- <-]. unfold waiting, rotate. rewrite Hr. done.
Qed.

Lemma persist_run_conserves ops : ∀ st st' l, persist_run st ops = Ret (Some (st', l)) →
  bare <$> ((ops ≫= accepted) ++ waiting st) ≡ₚ bare <$> (settled l ++ waiting st').
Proof.
  induction ops as [|op ops IH]; intros st st' l; cbn [persist_run]; [by intros [= <- <-]|].
  destruct (persist_step st op) as [[[st1 l1]|]|] eqn:Hs; cbn [outcome_bind]; try done.
  destruct (persist_run st1 ops) as [[[st2 l2]|]|] eqn:Hr; cbn [outcome_bind]; try done. intros [= <- <-]. cbn [fst snd].
  specialize (IH st1 st2 l2 Hr). apply persist_step_conserves in Hs. rewrite settled_app. cbn [mbind list_bind]. fold (mbind (M := list) accepted ops).
  rewrite !fmap_app in *. rewrite <- !app_assoc, (Permutation_app_comm (bare <$> (ops ≫= accepted))), app_assoc, Hs.
  rewrite <- IH. solve_Permutation.
Qed.

(** Once [Serve] has returned it queues no more for itself. *)
Lemma persist_step_done st op st' l : persist_step st op = Ret (Some (st', l)) → (ps_done st = true → ps_range st = None ∧ qA (ps_p st) = [] ∧ qB (ps_p st) = []) →
  ps_done st' = true → ps_range st' = None ∧ qA (ps_p st') = [] ∧ qB (ps_p st') = [].
Proof.
  intros Hs Hd Hd'. destruct op as [s primary|i ks| | |ks|]; cbn [persist_step] in Hs.
  - injection Hs as <- <-. revert Hd'. unfold SpoolComplete. destruct primary; [apply Hd|]. destruct (negb _); apply Hd.
  - destruct (ps_go st !! i) as [s|]; [|done]. destruct (attemptPersist ks _ _ s) as [[[[w p] s'] f]|] eqn:Ha; [|done]. injection Hs as <- <-.
    destruct (attemptPersist_spec _ _ _ _ _ _ _ _ Ha) as (_ & Hf & _). cbn in *. destruct (Hd Hd') as (? & ? & ?). by destruct Hf as [[_ ->]|[_ ->]].
  - destruct (ps_range st), (ps_done st); try done. by injection Hs as <- <-.
  - destruct (ps_range st), (ps_done st), (ps_exiting st); try done. by injection Hs as <- <-.
  - destruct (ps_range st) as [[|s rest]|] eqn:Hr; try done. destruct (attemptPersist ks _ _ s) as [[[[w p] s'] f]|]; [|done]. injection Hs as <- <-.
    cbn in *. by destruct (Hd Hd').
  - destruct (ps_range st) as [[|s rest]|]; try done. injection Hs as <- <-. cbn in *. apply andb_true_iff in Hd' as [_ Hd']. apply andb_true_iff in Hd' as [H1 H2].
    apply Nat.eqb_eq, nil_length_inv in H1, H2. done.
Qed.

Lemma persist_run_done ops : ∀ st st' l, persist_run st ops = Ret (Some (st', l)) → (ps_done st = true → ps_range st = None ∧ qA (ps_p st) = [] ∧ qB (ps_p st) = []) →
  ps_done st' = true → ps_range st' = None ∧ qA (ps_p st') = [] ∧ qB (ps_p st') = [].
Proof.
  induction ops as [|op ops IH]; intros st st' l; cbn [persist_run]; [by intros [= <- <-]|].
  destruct (persist_step st op) as [[[st1 l1]|]|] eqn:Hs; cbn [outcome_bind]; try done.
  destruct (persist_run st1 ops) as [[[st2 l2]|]|] eqn:Hr; cbn [outcome_bind]; try done. intros [= <- <-] Hd. eapply IH; [exact Hr|].
  by eapply persist_step_done.
Qed.

(** C24: No spool is lost. However brokers complete spools, goroutines attempt them, and intervals pass, each completed spool with content has been settled once (it was persisted, or its specification is gone or
    has no stores), or waits in a queue or a goroutine; once [Serve] has returned, the queues that it serves are empty. *)
Theorem spools_not_lost w ops st log : persist_run (pstate_new w) ops = Ret (Some (st, log)) →
  bare <$> (ops ≫= accepted) ≡ₚ bare <$> (settled log ++ waiting st) ∧
  (ps_done st = true → waiting st = qC (ps_p st) ++ ps_go st).
Proof.
  intros Hrun. split.
  - pose proof (persist_run_conserves ops _ _ _ Hrun) as Hc. by rewrite app_nil_r in Hc.
  - intros Hd. destruct (persist_run_done ops _ _ _ Hrun) as (Hr & Ha & Hb); [done..|]. unfold waiting. by rewrite Hr, Ha, Hb.
Qed.

(** ** [Serve] drains its queues *)

(** An interval: the spools of [qA] are attempted, and the queues rotate. *)
Definition interval (ks : KeySpace BEntity) (n : nat) : list persist_op := PTick :: replicate n (PAttempt ks) ++ [PRotate].

Lemma persist_run_app ops ops' : ∀ st st1 l, persist_run st ops = Ret (Some (st1, l)) →
  persist_run st (ops ++ ops') = let! res := persist_run st1 ops' in Ret ((λ r, (fst r, l ++ snd r)) <$> res).
Proof.
  induction ops as [|op ops IH]; intros st st1 l; cbn [persist_run app].
  - intros [= <- <-]. by destruct (persist_run st ops') as [[[? ?]|]|].
  - destruct (persist_step st op) as [[[st2 l2]|]|]; cbn [outcome_bind]; try done. destruct (persist_run st2 ops) as [[[st3 l3]|]|] eqn:Hr; cbn [outcome_bind]; try done.
    intros [= <- <-]. rewrite (IH _ _ _ Hr). cbn [snd]. destruct (persist_run st3 ops') as [[[? ?]|]|]; cbn; [|done..]. by rewrite app_assoc.
Qed.

Context (Hok : ∀ w s, snd (persistFn w s) = None).

(** The key space can be asked for the journals of spools. *)
Definition lookups (ks : KeySpace BEntity) (l : list Spool) : Prop :=
  Forall (λ s, ∃ item, LookupItem (ks_Root ks) (ks_KeyValues ks) (f_Journal (sfrag s)) = Ret item) l.

Lemma attempt_ok ks w p s : lookups ks [s] → ∃ w' s' f, attemptPersist ks w p s = Ret (w', p, s', f) ∧ bare s' = bare s ∧ f ≠ Requeued.
Proof.
  intros [(item & Hl) _]%Forall_cons. destruct (attemptPersist ks w p s) as [[[[w' p'] s'] f]|] eqn:Ha.
  - destruct (attemptPersist_spec _ _ _ _ _ _ _ _ Ha) as (Hb & Hf & _). destruct Hf as [[-> ->]|[Hf ->]]; [|by exists w', s', f]. exfalso. revert Ha.
    unfold attemptPersist. destruct (_ =? 0); [done|]. rewrite Hl. cbn [outcome_bind]. destruct item as [it|]; [|done]. destruct (default [] _) as [|store stores]; [done|].
    destruct (persistFn w (with_BackingStore s store)) as [w1 [err|]] eqn:Hp; [|done]. specialize (Hok w (with_BackingStore s store)). by rewrite Hp in Hok.
  - exfalso. revert Ha. unfold attemptPersist. destruct (_ =? 0); [done|]. rewrite Hl. cbn [outcome_bind]. destruct item as [it|]; [|done]. destruct (default [] _); [done|].
    by destruct (persistFn w _) as [w1 [err|]].
Qed.

Lemma attempts_run ks l : ∀ st, ps_range st = Some l → lookups ks l → ∃ st' log, persist_run st (replicate (length l) (PAttempt ks)) = Ret (Some (st', log)) ∧
  ps_range st' = Some [] ∧ ps_p st' = ps_p st ∧ ps_go st' = ps_go st ∧ ps_exiting st' = ps_exiting st ∧ ps_done st' = ps_done st ∧
  bare ∘ fst <$> log = bare <$> l ∧ Forall (λ x, snd x ≠ Requeued) log.
Proof.
  induction l as [|s l IH]; intros st Hr Hl; cbn [length replicate persist_run].
  { exists st, []. split; [done|]. by split_and!. }
  apply Forall_cons in Hl as [Hs Hl]. cbn [persist_step]. rewrite Hr. destruct (attempt_ok ks (ps_world st) (ps_p st) s) as (w' & s' & f & -> & Hb & Hf); [by repeat constructor|].
  cbn [outcome_bind]. set (st1 := mkPState w' _ _ _ _ _). destruct (IH st1 eq_refl Hl) as (st' & log & -> & Hr' & Hp & Hg & He & Hd & Hlog & Hfs). cbn [outcome_bind fmap option_fmap option_map fst snd app].
  exists st', ((s', f) :: log). split; [done|]. split_and!; [done..| |by constructor]. rewrite !fmap_cons, Hlog. unfold compose. cbn [fst]. by rewrite Hb.
Qed.

Lemma interval_run ks st : ps_range st = None → ps_done st = false → lookups ks (qA (ps_p st)) →
  ∃ st' log, persist_run st (interval ks (length (qA (ps_p st)))) = Ret (Some (st', log)) ∧ ps_range st' = None ∧
    ps_p st' = mkPersister (qB (ps_p st)) (qC (ps_p st)) [] ∧ ps_go st' = ps_go st ∧ ps_exiting st' = ps_exiting st ∧
    ps_done st' = ps_exiting st && (Nat.eqb (length (qB (ps_p st))) 0 && Nat.eqb (length (qC (ps_p st))) 0) ∧
    bare ∘ fst <$> log = bare <$> qA (ps_p st) ∧ Forall (λ x, snd x ≠ Requeued) log.
Proof.
  intros Hr Hd Hl. unfold interval. cbn [persist_run persist_step]. rewrite Hr, Hd. cbn [outcome_bind].
  set (st0 := mkPState _ _ (Some _) _ _ _). destruct (attempts_run ks (qA (ps_p st)) st0 eq_refl Hl) as (st1 & log & Hrun & Hr1 & Hp1 & Hg1 & He1 & Hd1 & Hlog & Hf).
  rewrite (persist_run_app _ [PRotate] _ _ _ Hrun). cbn [persist_run persist_step]. rewrite Hr1. cbn [outcome_bind fmap option_fmap option_map fst snd app].
  rewrite app_nil_r. eexists _, _. split; [done|]. unfold rotate. rewrite Hp1, Hg1, He1. by split_and!.
Qed.

Definition is_tick (op : persist_op) : bool := match op with PTick => true | _ => false end.

(** [Serve] returns. Told to finish while nothing else completes spools, and if persisting does not fail, it attempts all queued spools once and in their order, ends after three passes at
    most, and leaves nothing queued. *)
Theorem Serve_drains ks st : ps_range st = None → ps_done st = false → ps_exiting st = true →
  lookups ks (qA (ps_p st) ++ qB (ps_p st) ++ qC (ps_p st)) →
  ∃ ops st' log, persist_run st ops = Ret (Some (st', log)) ∧ (length (filter is_tick ops) ≤ 3)%nat ∧
    Forall (λ op, op = PTick ∨ op = PAttempt ks ∨ op = PRotate) ops ∧
    ps_done st' = true ∧ ps_p st' = NewPersister ∧ bare ∘ fst <$> log = bare <$> (qA (ps_p st) ++ qB (ps_p st) ++ qC (ps_p st)) ∧ Forall (λ x, snd x ≠ Requeued) log.
Proof.
  intros Hr Hd He Hl. unfold lookups in Hl. rewrite !Forall_app in Hl. destruct Hl as (HlA & HlB & HlC).
  assert (∀ n, Forall (λ op, op = PTick ∨ op = PAttempt ks ∨ op = PRotate) (interval ks n)) as Hops.
  { intros n. unfold interval. apply Forall_cons. split; [by left|]. apply Forall_app. split; [apply Forall_replicate; auto|]. by repeat constructor; right; right. }
  assert (∀ n ops, length (filter is_tick (interval ks n ++ ops)) = S (length (filter is_tick ops))) as Htick.
  { intros n ops. unfold interval. cbn [app]. rewrite filter_cons, decide_True, <- app_assoc, filter_app by done. cbn [length]. f_equal. cbn [app]. rewrite filter_cons, decide_False by (by intros []).
    rewrite length_app. cut (length (filter is_tick (replicate n (PAttempt ks))) = 0%nat); [lia|]. induction n as [|n IHn]; [done|]. cbn [replicate]. by rewrite filter_cons, decide_False by (by intros []). }
  destruct (interval_run ks st Hr Hd HlA) as (st1 & log1 & Hrun1 & Hr1 & Hp1 & _ & He1 & Hd1 & Hlog1 & Hf1). rewrite He in He1, Hd1. cbn [andb] in Hd1.
  destruct (ps_done st1) eqn:Hd1'.
  { symmetry in Hd1. apply andb_true_iff in Hd1 as [HB HC]. apply Nat.eqb_eq, nil_length_inv in HB, HC. exists (interval ks (length (qA (ps_p st))) ++ []), st1, log1.
    rewrite Htick, !app_nil_r, HB, HC, app_nil_r. rewrite HB, HC in Hp1. split_and!; try done. rewrite filter_nil. cbn. lia. }
  destruct (interval_run ks st1 Hr1 Hd1') as (st2 & log2 & Hrun2 & Hr2 & Hp2 & _ & He2 & Hd2 & Hlog2 & Hf2); [by rewrite Hp1|].
  rewrite Hp1 in *. cbn [qA qB qC] in *. rewrite He1 in He2, Hd2. cbn [andb length Nat.eqb] in Hd2. rewrite andb_true_r in Hd2.
  pose proof (persist_run_app _ (interval ks (length (qB (ps_p st)))) _ _ _ Hrun1) as Hrun12. rewrite Hrun2 in Hrun12. cbn [outcome_bind fmap option_fmap option_map fst snd] in Hrun12.
  destruct (ps_done st2) eqn:Hd2'.
  { symmetry in Hd2. apply Nat.eqb_eq, nil_length_inv in Hd2. exists (interval ks (length (qA (ps_p st))) ++ interval ks (length (qB (ps_p st))) ++ []), st2, (log1 ++ log2).
    rewrite !Htick, Hd2, !app_nil_r, !fmap_app, Hlog1, Hlog2. rewrite Hd2 in Hp2. split_and!; try done; [rewrite filter_nil; cbn; lia|by apply Forall_app|by apply Forall_app]. }
  destruct (interval_run ks st2 Hr2 Hd2') as (st3 & log3 & Hrun3 & Hr3 & Hp3 & _ & He3 & Hd3 & Hlog3 & Hf3); [by rewrite Hp2|].
  rewrite Hp2 in *. cbn [qA qB qC] in *. rewrite He2 in Hd3. cbn in Hd3.
  pose proof (persist_run_app _ (interval ks (length (qC (ps_p st)))) _ _ _ Hrun12) as Hrun123. rewrite Hrun3 in Hrun123. cbn [outcome_bind fmap option_fmap option_map fst snd] in Hrun123.
  rewrite <- !app_assoc in Hrun123.
  exists (interval ks (length (qA (ps_p st))) ++ interval ks (length (qB (ps_p st))) ++ interval ks (length (qC (ps_p st))) ++ []), st3, (log1 ++ log2 ++ log3).
  rewrite !Htick, !app_nil_r, !fmap_app, Hlog1, Hlog2, Hlog3. split_and!; try done; [rewrite !Forall_app; by split_and!|rewrite !Forall_app; by split_and!].
Qed.
End persister.

(** ** Concrete spools *)

Module Persists.
Definition journal : BKV :=
  mkKV (mkRaw "/items/a/aa" 2 2 1 "" 0)
    (EntityItem (mkItem "a/aa" (mkJournalSpec "a/aa" 1 [] (mkSpecFragment 1024 Codec_NONE (Some ["file:///store/"]) 0 0 0) NOT_SPECIFIED))).
Definition ks : KeySpace BEntity := mkKeySpace "" (mkRespHeader 8 9 100 1) [journal] 0.
Definition spool : Spool :=
  mkSpool (mkLFragment (mkFragment "a/aa" 0 8 SHA1Sum_zero Codec_NONE "" 0) None) None None 0 None 0 [] [].
(** Persisting that fails at first; and that does not. *)
Definition flaky (w : nat) (s : Spool) : nat * option string := (S w, if Nat.eqb w 0 then Some "unavailable" else None).
Definition reliable (w : nat) (s : Spool) : nat * option string := (S w, None).
Definition replicated : pstate (W := nat) := mkPState 0%nat (mkPersister [] [spool] []) None [] true false.
End Persists.

(** The attempt of a goroutine fails, and that of [Serve], after two intervals, does not. *)
Lemma spools_not_lost_witness : ∃ st log,
  persist_run Persists.flaky (pstate_new 0%nat)
    [PComplete Persists.spool true; PGo 0 Persists.ks; PTick; PRotate; PTick; PRotate; PFinish; PAttempt Persists.ks; PRotate] = Ret (Some (st, log)) ∧
  ps_done st = true ∧ snd <$> log = [Requeued; Persisted] ∧ waiting st = qC (ps_p st) ++ ps_go st.
Proof.
  assert (∃ st log, persist_run Persists.flaky (pstate_new 0%nat)
    [PComplete Persists.spool true; PGo 0 Persists.ks; PTick; PRotate; PTick; PRotate; PFinish; PAttempt Persists.ks; PRotate] = Ret (Some (st, log)) ∧
    ps_done st = true ∧ snd <$> log = [Requeued; Persisted]) as (st & log & Hrun & Hd & Hlog).
  { eexists _, _. split; [vm_compute; reflexivity|]. split; reflexivity. }
  exists st, log. split; [exact Hrun|]. split; [exact Hd|]. split; [exact Hlog|].
  destruct (spools_not_lost Persists.flaky 0%nat _ st log Hrun) as [_ Hw]. exact (Hw Hd).
Defined.

Lemma Serve_drains_witness : ∃ ops st' log, persist_run Persists.reliable Persists.replicated ops = Ret (Some (st', log)) ∧ ps_done st' = true ∧
  bare ∘ fst <$> log = [bare Persists.spool].
Proof.
  destruct (Serve_drains Persists.reliable (λ _ _, eq_refl) Persists.ks Persists.replicated) as (ops & st' & log & Hrun & _ & _ & Hd & _ & Hlog & _).
  - reflexivity.
  - reflexivity.
  - reflexivity.
  - repeat constructor. eexists. vm_compute. reflexivity.
  - exists ops, st', log. split; [exact Hrun|]. split; [exact Hd|exact Hlog].
Defined.

(** [Finish] does not wait for the goroutines of primary spools: an attempt that fails after [Serve] has returned queues the spool, which is then never
    attempted again. *)
Theorem primary_attempt_outlives_Serve : ∃ st log,
  persist_run Persists.flaky (pstate_new 0%nat) [PComplete Persists.spool true; PFinish; PRotate; PGo 0 Persists.ks] = Ret (Some (st, log)) ∧
  ps_done st = true ∧ snd <$> log = [Requeued] ∧ bare <$> qC (ps_p st) = [bare Persists.spool] ∧
  ∀ op, op = PTick ∨ op = PFinish ∨ op = PAttempt Persists.ks ∨ op = PRotate → persist_step Persists.flaky st op = Ret None.
Proof.
  eexists _, _. split; [vm_compute; reflexivity|]. split_and!; [reflexivity..|]. by intros op [-> |[-> |[-> | ->]]].
Qed.
