(* ===== verification/ConsumerTxn.v ===== *)
(** * Transactions of consumers (src/v2/pkg/consumer/lifecycle.go)

    A consumer batches messages into transactions. [txnStep] takes one case of a select, whose outcome is an input of the model, as are the time
    and what the application, the store and Etcd answer; [consume_step] is the loop of [consumeMessages] around it. What they call
    is recorded as events: the theorems say in which order an application and its store are called, and which offsets are flushed. *)
From S2P Require Import Prelude Encoding Protocol.
Local Open Scope Z_scope.

(** ** Data *)

Record Envelope (M : Type) := mkEnvelope { en_Journal : Journal; en_NextOffset : Z; en_Message : M }.
Arguments mkEnvelope {M}. Arguments en_Journal {M}. Arguments en_NextOffset {M}. Arguments en_Message {M}.

(** A [time.Timer]: when it fires, and the tick that its channel holds. *)
Record timer := mkTimer { tm_armed : option Z; tm_C : option Z }.

Definition timer_stopped : timer := mkTimer None None.

Definition timer_Reset (now d : Z) (t : timer) : timer := mkTimer (Some (now + d)) (tm_C t).

(** [Stop], and whether it stopped the timer. *)
Definition timer_Stop (t : timer) : timer * bool := (mkTimer None (tm_C t), match tm_armed t with Some _ => true | None => false end).

(** The timer fires, if it is due; a channel that holds a tick drops the next. *)
Definition timer_fire (now : Z) (t : timer) : timer :=
  match tm_armed t with
  | Some d => if d <=? now then mkTimer None (match tm_C t with Some c => Some c | None => Some now end) else t
  | None => t
  end.

(** A [transaction]. Barriers are known by numbers; [tx_msgCh] is whether the channel is not nil; the zero time is 0. *)
Record transaction := mkTransaction {
  tx_barrier : option nat;
  tx_minDur : Z;
  tx_maxDur : Z;
  tx_msgCh : bool;
  tx_msgCount : Z;
  tx_offsets : gmap Journal Z;
  tx_doneCh : option nat;
  tx_beganAt : Z;
  tx_stalledAt : Z;
  tx_flushedAt : Z;
  tx_committedAt : Z;
  tx_syncedAt : Z;
}.

Definition transaction_new (doneCh : option nat) : transaction := mkTransaction None 0 0 false 0 ∅ doneCh 0 0 0 0 0.

(** At the top of the loop of [consumeMessages]. *)
Definition txn_begin (txn : transaction) (minDur maxDur : Z) : transaction :=
  mkTransaction (tx_barrier txn) minDur maxDur true (tx_msgCount txn) ∅ (tx_doneCh txn) (tx_beganAt txn) (tx_stalledAt txn) (tx_flushedAt txn)
    (tx_committedAt txn) (tx_syncedAt txn).

Definition txn_began (txn : transaction) (now : Z) : transaction :=
  mkTransaction (tx_barrier txn) (tx_minDur txn) (tx_maxDur txn) (tx_msgCh txn) (tx_msgCount txn) (tx_offsets txn) (tx_doneCh txn) now (tx_stalledAt txn)
    (tx_flushedAt txn) (tx_committedAt txn) (tx_syncedAt txn).

Definition txn_message {M} (txn : transaction) (m : Envelope M) : transaction :=
  mkTransaction (tx_barrier txn) (tx_minDur txn) (tx_maxDur txn) (tx_msgCh txn) (tx_msgCount txn + 1) (<[en_Journal m := en_NextOffset m]> (tx_offsets txn))
    (tx_doneCh txn) (tx_beganAt txn) (tx_stalledAt txn) (tx_flushedAt txn) (tx_committedAt txn) (tx_syncedAt txn).

(** The minimum duration has elapsed; and the maximum. *)
Definition txn_min (txn : transaction) : transaction :=
  mkTransaction (tx_barrier txn) (-1) (tx_maxDur txn) (tx_msgCh txn) (tx_msgCount txn) (tx_offsets txn) (tx_doneCh txn) (tx_beganAt txn) (tx_stalledAt txn)
    (tx_flushedAt txn) (tx_committedAt txn) (tx_syncedAt txn).

Definition txn_max (txn : transaction) (stalledAt : Z) : transaction :=
  mkTransaction (tx_barrier txn) (tx_minDur txn) (-1) false (tx_msgCount txn) (tx_offsets txn) (tx_doneCh txn) (tx_beganAt txn) stalledAt
    (tx_flushedAt txn) (tx_committedAt txn) (tx_syncedAt txn).

Definition txn_synced (txn : transaction) : transaction :=
  mkTransaction (tx_barrier txn) (tx_minDur txn) (tx_maxDur txn) (tx_msgCh txn) (tx_msgCount txn) (tx_offsets txn) None (tx_beganAt txn) (tx_stalledAt txn)
    (tx_flushedAt txn) (tx_committedAt txn) (tx_syncedAt txn).

Definition txn_syncedAt (txn : transaction) (now : Z) : transaction :=
  mkTransaction (tx_barrier txn) (tx_minDur txn) (tx_maxDur txn) (tx_msgCh txn) (tx_msgCount txn) (tx_offsets txn) (tx_doneCh txn) (tx_beganAt txn)
    (tx_stalledAt txn) (tx_flushedAt txn) (tx_committedAt txn) now.

Definition txn_flushed (txn : transaction) (now : Z) : transaction :=
  mkTransaction (tx_barrier txn) (tx_minDur txn) (tx_maxDur txn) (tx_msgCh txn) (tx_msgCount txn) (tx_offsets txn) (tx_doneCh txn) (tx_beganAt txn)
    (if tx_stalledAt txn =? 0 then now else tx_stalledAt txn) now (tx_committedAt txn) (tx_syncedAt txn).

Definition txn_committed (txn : transaction) (barrier : nat) (now : Z) : transaction :=
  mkTransaction (Some barrier) (tx_minDur txn) (tx_maxDur txn) (tx_msgCh txn) (tx_msgCount txn) (tx_offsets txn) (tx_doneCh txn) (tx_beganAt txn)
    (tx_stalledAt txn) (tx_flushedAt txn) now (tx_syncedAt txn).

(** ** Steps *)

(** What is called, and which barriers were found done. *)
Inductive txn_event (M : Type) :=
| EvBeginTxn
| EvConsume (m : Envelope M)
| EvSynced (barrier : nat)
| EvFinalize
| EvStrongBarrier
| EvFlush (offsets : gmap Journal Z)
| EvWeakBarrier (barrier : nat)
| EvFinishTxn (err : option string)
| EvHints.
Arguments EvBeginTxn {M}. Arguments EvConsume {M}. Arguments EvSynced {M}. Arguments EvFinalize {M}. Arguments EvStrongBarrier {M}. Arguments EvFlush {M}.
Arguments EvWeakBarrier {M}. Arguments EvFinishTxn {M}. Arguments EvHints {M}.

(** The case that a select takes, with the errors of what it calls. *)
Inductive txn_select (M : Type) :=
| SelMsg (m : Envelope M) (begin_err consume_err : option string)
| SelTick
| SelDone
| SelCancelled (err : string)
| SelDefault (finalize_err flush_err : option string) (barrier : nat).
Arguments SelMsg {M}. Arguments SelTick {M}. Arguments SelDone {M}. Arguments SelCancelled {M}. Arguments SelDefault {M}.

Record txn_result (M : Type) := mkTxnResult {
  sr_txn : transaction;
  sr_prior : transaction;
  sr_timer : timer;
  sr_done : bool;
  sr_err : option string;
  sr_events : list (txn_event M);
}.
Arguments mkTxnResult {M}. Arguments sr_txn {M}. Arguments sr_prior {M}. Arguments sr_timer {M}. Arguments sr_done {M}. Arguments sr_err {M}. Arguments sr_events {M}.

Section steps.
Context {M : Type}.
(** Whether the application is a [BeginFinisher]. *)
Context (bf : bool).

Definition txn_blocks (txn : transaction) : bool :=
  (tx_msgCount txn =? 0) || negb (tx_minDur txn =? -1) || (match tx_doneCh txn with Some _ => true | None => false end).

(** [None] if the case is not ready. *)
Definition txnStep (now : Z) (sel : txn_select M) (txn prior : transaction) (tm : timer) : outcome (option (txn_result M)) :=
  let drained := mkTimer (tm_armed tm) None in
  if txn_blocks txn then
    match sel with
    | SelMsg m begin_err consume_err =>
        if negb (tx_msgCh txn) then Ret None
        else if tx_msgCount txn =? 0 then
          match (if bf then begin_err else None) with
          | Some err => Ret (Some (mkTxnResult txn prior tm false (Some err) [EvBeginTxn]))
          | None =>
              Ret (Some (mkTxnResult (txn_message (txn_began txn now) m) prior (timer_Reset now (tx_minDur txn) tm) false consume_err
                ((if bf then [EvBeginTxn] else []) ++ [EvConsume m])))
          end
        else Ret (Some (mkTxnResult (txn_message txn m) prior tm false consume_err [EvConsume m]))
    | SelTick =>
        match tm_C tm with
        | None => Ret None
        | Some tick =>
            if tick <? tx_beganAt txn + tx_minDur txn then Panic "unexpected tick"
            else
              let txn := txn_min txn in
              if tick <? tx_beganAt txn + tx_maxDur txn
              then Ret (Some (mkTxnResult txn prior (timer_Reset now (tx_beganAt txn + tx_maxDur txn - tick) drained) false None []))
              else Ret (Some (mkTxnResult (txn_max txn now) prior drained false None []))
        end
    | SelDone =>
        match tx_doneCh txn with
        | None => Ret None
        | Some b => Ret (Some (mkTxnResult (txn_synced txn) (txn_syncedAt prior now) tm false None [EvSynced b]))
        end
    | SelCancelled err => Ret (Some (mkTxnResult txn prior tm false (Some err) []))
    | SelDefault _ _ _ => Ret None
    end
  else
    match sel with
    | SelMsg m _ consume_err =>
        if negb (tx_msgCh txn) then Ret None
        else Ret (Some (mkTxnResult (txn_message txn m) prior tm false consume_err [EvConsume m]))
    | SelTick =>
        match tm_C tm with
        | None => Ret None
        | Some tick =>
            if tick <? tx_beganAt txn + tx_maxDur txn then Panic "unexpected tick"
            else Ret (Some (mkTxnResult (txn_max txn (tx_stalledAt txn)) prior drained false None []))
        end
    | SelDone => Ret None
    | SelCancelled err => Ret (Some (mkTxnResult txn prior tm false (Some err) []))
    | SelDefault finalize_err flush_err barrier =>
        let txn := txn_flushed txn now in
        match finalize_err, flush_err with
        | Some err, _ => Ret (Some (mkTxnResult txn prior tm false (Some err) [EvFinalize]))
        | None, Some err => Ret (Some (mkTxnResult txn prior tm false (Some err) [EvFinalize; EvStrongBarrier; EvFlush (tx_offsets txn)]))
        | None, None =>
            let txn := txn_committed txn barrier now in
            let calls := [EvFinalize; EvStrongBarrier; EvFlush (tx_offsets txn); EvWeakBarrier barrier] in
            if tx_maxDur txn =? -1 then Ret (Some (mkTxnResult txn prior tm true None calls))
            else
              let '(tm, stopped) := timer_Stop tm in
              if stopped then Ret (Some (mkTxnResult txn prior tm true None calls))
              else
                match tm_C tm with
                | None => Ret None    (* The tick is awaited. *)
                | Some _ => Ret (Some (mkTxnResult txn prior (mkTimer None None) true None calls))
                end
        end
    end.

(** The loop of [consumeMessages]: [c_inTxn] is whether it runs a transaction, and [c_returned] the error it returned with. *)
Record consumer := mkConsumer {
  c_txn : transaction;
  c_prior : transaction;
  c_timer : timer;
  c_inTxn : bool;
  c_returned : option string;
}.

Definition consumer_new : consumer := mkConsumer (transaction_new None) (transaction_new None) timer_stopped false None.

(** The top of the loop, with the error of storing hints if they are due, and the durations of the specification; the timer; and a step, with the
    error of [FinishTxn] if it is called. *)
Inductive consume_op :=
| CTop (hints : option (option string)) (minDur maxDur : Z)
| CFire (now : Z)
| CStep (now : Z) (sel : txn_select M) (finish_err : option string).

Definition consume_step (c : consumer) (op : consume_op) : outcome (option (consumer * list (txn_event M))) :=
  match op with
  | CTop hints minDur maxDur =>
      if c_inTxn c || (match c_returned c with Some _ => true | None => false end) then Ret None
      else
        match hints with
        | Some (Some err) => Ret (Some (mkConsumer (c_txn c) (c_prior c) (c_timer c) false (Some err), [EvHints]))
        | _ =>
            Ret (Some (mkConsumer (txn_begin (c_txn c) minDur maxDur) (c_prior c) (c_timer c) true None,
                       match hints with Some _ => [EvHints] | None => [] end))
        end
  | CFire now => Ret (Some (mkConsumer (c_txn c) (c_prior c) (timer_fire now (c_timer c)) (c_inTxn c) (c_returned c), []))
  | CStep now sel finish_err =>
      if negb (c_inTxn c) then Ret None
      else
        let! res := txnStep now sel (c_txn c) (c_prior c) (c_timer c) in
        match res with
        | None => Ret None
        | Some r =>
            if negb (sr_done r) && (match sr_err r with Some _ => false | None => true end)
            then Ret (Some (mkConsumer (sr_txn r) (sr_prior r) (sr_timer r) true None, sr_events r))
            else
              let finishes := bf && negb (tx_msgCount (sr_txn r) =? 0) in
              let err := match sr_err r with Some err => Some err | None => if finishes then finish_err else None end in
              let events := sr_events r ++ (if finishes then [EvFinishTxn (sr_err r)] else []) in
              match err with
              | Some err => Ret (Some (mkConsumer (sr_txn r) (sr_prior r) (sr_timer r) false (Some err), events))
              | None => Ret (Some (mkConsumer (transaction_new (tx_barrier (sr_txn r))) (sr_txn r) (sr_timer r) false None, events))
              end
        end
  end.

Fixpoint consume_run (c : consumer) (ops : list consume_op) : outcome (option (consumer * list (txn_event M))) :=
  match ops with
  | [] => Ret (Some (c, []))
  | op :: ops =>
      let! step := consume_step c op in
      match step with
      | None => Ret None
      | Some (c, l) => let! res := consume_run c ops in Ret ((λ r, (fst r, l ++ snd r)) <$> res)
      end
  end.
End steps.
Arguments consume_op : clear implicits.

(** ** What a consumer promises *)

Section history.
Context {M : Type} (bf : bool).
Implicit Types (ms : list (Envelope M)) (l pre : list (txn_event M)).

(** The offsets after messages: of each journal, the offset that follows the last message read of it. *)
Definition offsets_of ms : gmap Journal Z := foldl (λ o m, <[en_Journal m := en_NextOffset m]> o) ∅ ms.

Definition synced_of (e : txn_event M) : option nat := match e with EvSynced b => Some b | _ => None end.

(** The calls up to the messages [ms]: hints may be stored first, and a transaction begins with its first message. *)
Definition calls_of (hints : bool) ms : list (txn_event M) :=
  (if hints then [EvHints] else []) ++ (if bf && negb (bool_decide (ms = [])) then [EvBeginTxn] else []) ++ (EvConsume <$> ms).

(** [pre] reads the messages [ms]. The barrier [w] is awaited at first, and [w'] still is. *)
Record reading (w w' : option nat) ms pre : Prop := {
  rd_calls : ∃ hints, filter (λ e, synced_of e = None) pre = calls_of hints ms;
  rd_synced : omap synced_of pre ++ option_list w' = option_list w;
}.

(** How a transaction of the messages [ms] commits: the writes of the messages are ordered before the flush of the offsets past them. *)
Definition commit_calls ms (barrier : nat) : list (txn_event M) :=
  [EvFinalize; EvStrongBarrier; EvFlush (offsets_of ms); EvWeakBarrier barrier].

Definition finish_calls (err : option string) : list (txn_event M) := if bf then [EvFinishTxn err] else [].

Definition last_barrier (txns : list (list (Envelope M) * nat)) : option nat := snd <$> last txns.

(** The log of committed transactions, each with its messages and its barrier: it reads at least a message, and commits once the barrier of the
    transaction before it is done. *)
Inductive history : list (list (Envelope M) * nat) → list (txn_event M) → Prop :=
| history_nil : history [] []
| history_txn txns l ms pre b :
    history txns l → ms ≠ [] → reading (last_barrier txns) None ms pre →
    history (txns ++ [(ms, b)]) (l ++ pre ++ commit_calls ms b ++ finish_calls None).

(** What follows the committed transactions when the consumer returned an error: it failed while it read (also if hints
    could not be stored), or it got no further than [n] of the calls of its commit, all of them if [FinishTxn] failed. *)
Inductive failing (w : option nat) : list (txn_event M) → Prop :=
| failing_read w' ms pre err : reading w w' ms pre → failing w (pre ++ (if bool_decide (ms = []) then [] else finish_calls err))
| failing_commit ms pre b n err : ms ≠ [] → reading w None ms pre → failing w (pre ++ take n (commit_calls ms b) ++ finish_calls err).

(** The offsets that a store holds, which were flushed to it. *)
Definition flushed l : gmap Journal Z :=
  foldl (λ o e, match e with EvFlush offsets => offsets ∪ o | _ => o end) ∅ l.

(** What a consumer that has not failed did since the last commit. *)
Definition running (c : consumer) (w : option nat) l : Prop :=
  if c_inTxn c then ∃ ms, reading w (tx_doneCh (c_txn c)) ms l ∧ tx_msgCount (c_txn c) = Z.of_nat (length ms) ∧ tx_offsets (c_txn c) = offsets_of ms
  else l = [] ∧ c_txn c = transaction_new w.

(** Calls of [BeginTxn] do not fail. *)
Definition begins (op : consume_op M) : Prop :=
  match op with CStep _ (SelMsg _ begin_err _) _ => bf = true → begin_err = None | _ => True end.

Definition is_begin (e : txn_event M) : Prop := match e with EvBeginTxn => True | _ => False end.
Definition is_finish (e : txn_event M) : Prop := match e with EvFinishTxn _ => True | _ => False end.
#[global] Instance is_begin_dec e : Decision (is_begin e).
Proof. destruct e; apply _. Defined.
#[global] Instance is_finish_dec e : Decision (is_finish e).
Proof. destruct e; apply _. Defined.

(** Calls of [BeginTxn] are paired with calls of [FinishTxn]. *)
Definition paired l : Prop := length (filter is_begin l) = length (filter is_finish l).

(** The log is of committed transactions, and then of one that runs or failed. *)
Definition consumer_log (c : consumer) l : Prop :=
  ∃ txns hist tail, l = hist ++ tail ∧ history txns hist ∧
    match c_returned c with
    | None => running c (last_barrier txns) tail
    | Some _ => c_inTxn c = false ∧ failing (last_barrier txns) tail
    end.

(** *** Lemmas *)

Lemma offsets_of_snoc ms m : offsets_of (ms ++ [m]) = <[en_Journal m := en_NextOffset m]> (offsets_of ms).
Proof. unfold offsets_of. by rewrite foldl_app. Qed.

Lemma offsets_of_app ms ms' : offsets_of (ms ++ ms') = offsets_of ms' ∪ offsets_of ms.
Proof.
  induction ms' as [|m ms' IH] using rev_ind; [rewrite app_nil_r; symmetry; apply (left_id_L ∅ (∪))|].
  by rewrite app_assoc, !offsets_of_snoc, IH, insert_union_l.
Qed.

Lemma reading_message w w' ms m pre :
  reading w w' ms pre →
  reading w w' (ms ++ [m]) (pre ++ (if bf && bool_decide (ms = []) then [EvBeginTxn] else []) ++ [EvConsume m]).
Proof.
  intros [[hints Hc] Hs]. split.
  - exists hints. rewrite !filter_app, Hc. unfold calls_of. rewrite fmap_app, <- !app_assoc. f_equal.
    rewrite (bool_decide_eq_false_2 (ms ++ [m] = [])) by (by intros [? [=]]%app_nil).
    destruct bf, ms; cbn; by rewrite ?filter_nil.
  - rewrite !omap_app, <- Hs. by destruct bf, (bool_decide (ms = [])); cbn; rewrite !app_nil_r.
Qed.

Lemma reading_synced w ms b pre : reading w (Some b) ms pre → reading w None ms (pre ++ [EvSynced b]).
Proof.
  intros [[hints Hc] Hs]. split.
  - exists hints. by rewrite filter_app, Hc; cbn; rewrite app_nil_r.
  - by rewrite omap_app, <- Hs, app_nil_r.
Qed.

Lemma reading_start w (hints : bool) : reading w w [] (if hints then [EvHints] else []).
Proof. split; [exists hints; unfold calls_of; cbn; rewrite andb_false_r|]; by destruct hints. Qed.

(** What a step of a transaction does: it goes on reading, with or without an error; or it commits, or fails to. *)
Definition step_spec (w : option nat) ms pre (r : txn_result M) : Prop :=
  (sr_done r = false ∧ ∃ ms', reading w (tx_doneCh (sr_txn r)) ms' (pre ++ sr_events r) ∧ tx_msgCount (sr_txn r) = Z.of_nat (length ms') ∧
     tx_offsets (sr_txn r) = offsets_of ms') ∨
  (ms ≠ [] ∧ reading w None ms pre ∧ tx_msgCount (sr_txn r) = Z.of_nat (length ms) ∧
     ∃ b n, sr_events r = take n (commit_calls ms b) ∧
       (if sr_done r then n = 4%nat ∧ sr_err r = None ∧ tx_barrier (sr_txn r) = Some b else is_Some (sr_err r))).

Lemma reading_more w w' ms m pre txn :
  reading w w' ms pre → tx_msgCount txn = Z.of_nat (length ms) → tx_offsets txn = offsets_of ms → tx_doneCh txn = w' →
  reading w (tx_doneCh (txn_message txn m)) (ms ++ [m]) (pre ++ (if bf && bool_decide (ms = []) then [EvBeginTxn] else []) ++ [EvConsume m]) ∧
  tx_msgCount (txn_message txn m) = Z.of_nat (length (ms ++ [m])) ∧ tx_offsets (txn_message txn m) = offsets_of (ms ++ [m]).
Proof.
  intros Hr Hn Ho <-. split; [by apply reading_message|]. cbn. rewrite length_app, offsets_of_snoc, Ho. cbn. split; [lia|done].
Qed.

Lemma txnStep_spec now sel fe txn prior tm w ms pre r :
  begins (CStep now sel fe) → reading w (tx_doneCh txn) ms pre → tx_msgCount txn = Z.of_nat (length ms) → tx_offsets txn = offsets_of ms →
  txnStep bf now sel txn prior tm = Ret (Some r) → step_spec w ms pre r.
Proof.
  intros Hbg Hr Hn Ho. unfold txnStep, txn_blocks. rewrite Hn.
  destruct (_ || _ || _) eqn:Hb.
  - destruct sel as [m be ce| | |err|]; [..|done].
    + destruct (tx_msgCh txn); [cbn|done]. destruct ms as [|m' ms]; cbn.
      * destruct (if bf then be else None) as [err|] eqn:Hbe; intros [= <-].
        { destruct bf eqn:Hbf; [|done]. cbn in Hbg. rewrite (Hbg Hbf) in Hbe. done. }
        left. split; [done|]. exists [m]. pose proof (reading_more _ _ _ m _ (txn_began txn now) Hr Hn Ho eq_refl) as H.
        by destruct bf.
      * intros [= <-]. left. split; [done|]. exists ((m' :: ms) ++ [m]). pose proof (reading_more _ _ _ m _ txn Hr Hn Ho eq_refl) as H.
        by destruct bf.
    + destruct (tm_C tm) as [tick|]; [|done]. destruct (_ <? _); [done|].
      destruct (_ <? _); intros [= <-]; left; (split; [done|]); exists ms; cbn; by rewrite app_nil_r.
    + destruct (tx_doneCh txn) as [b|] eqn:Hd; [|done]. intros [= <-]. left. split; [done|]. exists ms. split; [by apply reading_synced|done].
    + intros [= <-]. left. split; [done|]. exists ms. cbn. by rewrite app_nil_r.
  - assert (ms ≠ [] ∧ tx_doneCh txn = None) as [Hms Hd] by (destruct ms, (tx_doneCh txn); cbn in Hb; rewrite ?orb_true_r in Hb; done).
    destruct sel as [m be ce| | |err|fe' fl b]; [..|].
    + destruct (tx_msgCh txn); [|done]. intros [= <-]. left. split; [done|]. exists (ms ++ [m]).
      pose proof (reading_more _ _ _ m _ txn Hr Hn Ho eq_refl) as H. rewrite (bool_decide_eq_false_2 _ Hms), andb_false_r in H. done.
    + destruct (tm_C tm) as [tick|]; [|done]. destruct (_ <? _); [done|]. intros [= <-]. left. split; [done|]. exists ms. cbn. by rewrite app_nil_r.
    + done.
    + intros [= <-]. left. split; [done|]. exists ms. cbn. by rewrite app_nil_r.
    + intros H. right. rewrite Hd in Hr. split; [done|]. split; [done|]. revert H.
      destruct fe' as [err|]; [intros [= <-]; split; [done|]; exists b, 1%nat; split; [done|by eexists]|].
      destruct fl as [err|]; [intros [= <-]; split; [done|]; exists b, 3%nat; cbn; rewrite Ho; split; [done|by eexists]|].
      intros H. assert (∃ tm', r = mkTxnResult (txn_committed (txn_flushed txn now) b now) prior tm' true None (commit_calls ms b)) as [tm' ->].
      { revert H. unfold commit_calls. rewrite <- Ho. cbn. destruct (tx_maxDur txn =? -1); [intros [= <-]; by eexists|].
        destruct (tm_armed tm); [|destruct (tm_C tm); [|done]]; intros [= <-]; by eexists. }
      split; [done|]. by exists b, 4%nat.
Qed.

Lemma finishes_calls (n : Z) ms (err : option string) :
  n = Z.of_nat (length ms) →
  (if bf && negb (n =? 0) then [EvFinishTxn err] else []) = (if bool_decide (ms = []) then [] else finish_calls err : list (txn_event M)).
Proof. intros ->. unfold finish_calls. destruct bf, ms; done. Qed.

(** A step of the loop extends the log. *)
Lemma consume_step_log c op c' evs l : begins op → consumer_log c l → consume_step bf c op = Ret (Some (c', evs)) → consumer_log c' (l ++ evs).
Proof.
  intros Hbg (txns & hist & tail & -> & Hh & Hc).
  destruct op as [hints minDur maxDur|now|now sel fe]; cbn.
  - destruct (c_inTxn c) eqn:Hi; [done|]. destruct (c_returned c) eqn:Hret; [done|].
    unfold running in Hc. rewrite Hi in Hc. destruct Hc as [-> Htx]. rewrite app_nil_r. cbn.
    intros Hs. exists txns, hist, evs. split; [done|]. split; [done|].
    assert (∀ h, reading (last_barrier txns) (last_barrier txns) [] (if h : bool then [EvHints] else [])) as Hst by (intros; apply reading_start).
    destruct hints as [[err|]|]; injection Hs as <- <-; cbn.
    + split; [done|]. exact (failing_read _ _ [] _ None (Hst true)).
    + exists []. rewrite Htx. split; [apply (Hst true)|done].
    + exists []. rewrite Htx. split; [apply (Hst false)|done].
  - intros [= <- <-]. rewrite app_nil_r. exists txns, hist, tail. done.
  - destruct (c_inTxn c) eqn:Hi; [cbn|done].
    destruct (txnStep _ _ _ _ _ _) as [[r|]|] eqn:Hs; cbn; [|done..].
    destruct (c_returned c) eqn:Hret; [destruct Hc; congruence|]. unfold running in Hc. rewrite Hi in Hc.
    destruct Hc as (ms & Hr & Hn & Ho). pose proof (txnStep_spec _ _ _ _ _ _ _ _ _ _ Hbg Hr Hn Ho Hs) as Hspec.
    set (finishes := bf && _). intros Hstep. unfold consumer_log.
    assert (Hfin : ∀ ms' : list (Envelope M), tx_msgCount (sr_txn r) = Z.of_nat (length ms') →
      (if finishes then [EvFinishTxn (sr_err r)] else []) = (if bool_decide (ms' = []) then [] else finish_calls (sr_err r) : list (txn_event M)))
      by (intros ms'; apply finishes_calls).
    destruct Hspec as [(Hd & ms' & Hr' & Hn' & Ho')|(Hms & Hr' & Hn' & b & n & Hev & Hd)].
    + rewrite Hd in Hstep. cbn in Hstep. rewrite (Hfin _ Hn') in Hstep.
      destruct (sr_err r) as [err|]; injection Hstep as <- <-; exists txns, hist; rewrite <- app_assoc; eexists; (split; [done|]);
        (split; [done|]); cbn.
      * split; [done|]. rewrite app_assoc. by eapply failing_read.
      * by exists ms'.
    + rewrite (Hfin ms Hn'), (bool_decide_eq_false_2 _ Hms), Hev in Hstep. destruct (sr_done r).
      * destruct Hd as (-> & He & Hb). rewrite He in Hstep. cbn in Hstep.
        destruct (if finishes then fe else None) as [err|]; injection Hstep as <- <-.
        -- exists txns, hist; rewrite <- app_assoc; eexists; (split; [done|]); (split; [done|]). split; [done|].
           apply (failing_commit _ _ _ b 4 None); done.
        -- exists (txns ++ [(ms, b)]), (hist ++ tail ++ commit_calls ms b ++ finish_calls None), [].
           rewrite app_nil_r, <- app_assoc. split; [done|]. split; [by constructor|].
           unfold last_barrier. rewrite last_snoc. cbn. by rewrite Hb.
      * destruct Hd as [err He]. rewrite He in Hstep. cbn in Hstep. injection Hstep as <- <-.
        exists txns, hist; rewrite <- app_assoc; eexists; (split; [done|]); (split; [done|]). split; [done|]. by apply failing_commit.
Qed.

Lemma consume_run_log ops : Forall begins ops → ∀ c l c' l', consumer_log c l → consume_run bf c ops = Ret (Some (c', l')) → consumer_log c' (l ++ l').
Proof.
  induction 1 as [|op ops Hop _ IH]; intros c l c' l' Hl; cbn; [intros [= <- <-]; by rewrite app_nil_r|].
  destruct (consume_step bf c op) as [[[c1 l1]|]|] eqn:Hs; cbn; [|done..].
  destruct (consume_run bf c1 ops) as [[[c2 l2]|]|] eqn:Hr; cbn; [|done..]. intros [= <- <-].
  rewrite app_assoc. eapply IH; [|done]. by eapply consume_step_log.
Qed.

Lemma paired_app l l' : paired l → paired l' → paired (l ++ l').
Proof. unfold paired. rewrite !filter_app, !length_app. lia. Qed.

Lemma paired_none l : Forall (λ e, ¬ is_begin e ∧ ¬ is_finish e) l → paired l.
Proof. unfold paired. induction 1 as [|e l [Hb Hf] _ IH]; [done|]. by rewrite !filter_cons_False. Qed.

Lemma commit_paired ms b n : paired (take n (commit_calls ms b)).
Proof. apply paired_none, Forall_take. unfold commit_calls. rewrite !Forall_cons, Forall_nil. cbn. tauto. Qed.

(** What reads messages begins, if it read one, and awaits to be finished. *)
Lemma reading_paired w w' ms pre err : reading w w' ms pre → paired (pre ++ (if bool_decide (ms = []) then [] else finish_calls err)).
Proof.
  intros [[hints Hc] _]. assert (length (filter is_begin pre) = length (filter is_begin (calls_of hints ms)) ∧
    length (filter is_finish pre) = length (filter is_finish (calls_of hints ms))) as [Hb Hf].
  { rewrite <- Hc, !list_filter_filter. split; apply (f_equal length), list_filter_iff; intros []; cbn; naive_solver. }
  assert (length (filter is_begin (EvConsume <$> ms)) = 0%nat ∧ length (filter is_finish (EvConsume <$> ms)) = 0%nat) as [H1 H2]
    by (split; clear; (induction ms as [|m ms IH]; [done|exact IH])).
  unfold paired. rewrite !filter_app, !length_app, Hb, Hf. unfold calls_of, finish_calls. rewrite !filter_app, !length_app, H1, H2.
  destruct hints, bf; case_bool_decide; done.
Qed.

Lemma history_paired txns l : history txns l → paired l.
Proof.
  induction 1 as [|txns l ms pre b _ IH Hms Hr]; [done|]. apply paired_app; [done|].
  pose proof (reading_paired _ _ _ _ None Hr) as Hp. rewrite (bool_decide_eq_false_2 _ Hms) in Hp. pose proof (commit_paired ms b 4) as Hc.
  unfold paired in *. rewrite !filter_app, !length_app in *. cbn in *. lia.
Qed.

Lemma failing_paired w l : failing w l → paired l.
Proof.
  intros [w' ms pre err Hr|ms pre b n err Hms Hr]; [by eapply reading_paired|].
  pose proof (reading_paired _ _ _ _ err Hr) as Hp. rewrite (bool_decide_eq_false_2 _ Hms) in Hp. pose proof (commit_paired ms b n) as Hc.
  unfold paired in *. rewrite !filter_app, !length_app in *. lia.
Qed.

Definition is_flush (e : txn_event M) : bool := match e with EvFlush _ => true | _ => false end.

Lemma reading_flushes w w' ms pre : reading w w' ms pre → Forall (λ e, is_flush e = false) pre.
Proof.
  intros [[hints Hc] _]. apply Forall_forall. intros e He. destruct (synced_of e) eqn:Hs; [by destruct e|].
  assert (e ∈ calls_of hints ms) as Hin by (rewrite <- Hc; by apply list_elem_of_filter).
  unfold calls_of in Hin. rewrite !elem_of_app, list_elem_of_fmap in Hin.
  destruct hints, (bf && _); rewrite ?list_elem_of_singleton, ?elem_of_nil in Hin; naive_solver.
Qed.

Lemma flushed_app l l' : Forall (λ e, is_flush e = false) l' → flushed (l ++ l') = flushed l.
Proof.
  unfold flushed. rewrite foldl_app. generalize (foldl (λ o e, match e with EvFlush offsets => offsets ∪ o | _ => o end) ∅ l).
  induction l' as [|e l' IH]; intros o Hl; [done|]. apply Forall_cons in Hl as [He Hl]. cbn. rewrite IH by done. by destruct e.
Qed.

Lemma history_flushed txns l : history txns l → flushed l = offsets_of (concat (fst <$> txns)).
Proof.
  induction 1 as [|txns l ms pre b Hh IH Hms Hr]; [done|].
  replace (l ++ pre ++ commit_calls ms b ++ finish_calls None) with (((l ++ pre) ++ commit_calls ms b) ++ finish_calls None)
    by (by rewrite <- !app_assoc).
  rewrite (flushed_app _ (finish_calls None)) by (unfold finish_calls; destruct bf; repeat constructor).
  unfold flushed at 1. rewrite foldl_app. fold (flushed (l ++ pre)). rewrite flushed_app by by eapply reading_flushes.
  rewrite fmap_app, concat_app, offsets_of_app, <- IH. cbn. by rewrite app_nil_r.
Qed.
End history.

Section timers.
Context {M : Type} (bf : bool).

Definition op_time (t : Z) (op : consume_op M) : Z := match op with CTop _ _ _ => t | CFire now => now | CStep now _ _ => now end.

(** The clock does not go back, and durations are not negative (of which [ShardSpec.Validate] makes sure). *)
Definition op_clocked (t : Z) (op : consume_op M) : Prop := t <= op_time t op ∧ match op with CTop _ minDur maxDur => 0 <= minDur ∧ 0 <= maxDur | _ => True end.

Fixpoint clocked (t : Z) (ops : list (consume_op M)) : Prop :=
  match ops with [] => True | op :: ops => op_clocked t op ∧ clocked (op_time t op) ops end.

(** At the time [t] the timer is to fire no earlier than [d], or did. *)
Definition waits (t d : Z) (tm : timer) : Prop :=
  (∃ d', tm = mkTimer (Some d') None ∧ d <= d') ∨ (∃ k, tm = mkTimer None (Some k) ∧ d <= k <= t).

(** The phases of a transaction: it has no message yet, or waits for its minimum duration, or its maximum, or waits no more. *)
Inductive timer_phase (t : Z) (txn : transaction) (tm : timer) : Prop :=
| tp_idle : tx_msgCount txn = 0 → 0 <= tx_minDur txn → 0 <= tx_maxDur txn → tx_msgCh txn = true → tm = timer_stopped → timer_phase t txn tm
| tp_min : 0 < tx_msgCount txn → 0 <= tx_minDur txn → 0 <= tx_maxDur txn → tx_msgCh txn = true → waits t (tx_beganAt txn + tx_minDur txn) tm →
    timer_phase t txn tm
| tp_max : 0 < tx_msgCount txn → tx_minDur txn = -1 → 0 <= tx_maxDur txn → tx_msgCh txn = true → waits t (tx_beganAt txn + tx_maxDur txn) tm →
    timer_phase t txn tm
| tp_over : 0 < tx_msgCount txn → tx_minDur txn = -1 → tx_maxDur txn = -1 → tx_msgCh txn = false → tm = timer_stopped → timer_phase t txn tm.

Definition timer_inv (t : Z) (c : consumer) : Prop :=
  match c_returned c with
  | None => if c_inTxn c then timer_phase t (c_txn c) (c_timer c) else tx_msgCount (c_txn c) = 0 ∧ c_timer c = timer_stopped
  | Some _ => c_inTxn c = false
  end.

Lemma waits_later t t' d tm : t <= t' → waits t d tm → waits t' d tm.
Proof. intros Ht [(d' & -> & Hd)|(k & -> & Hk)]; [left|right]; eexists; (split; [done|]); lia. Qed.

Lemma waits_fire t now d tm : t <= now → waits t d tm → waits now d (timer_fire now tm).
Proof.
  intros Ht [(d' & -> & Hd)|(k & -> & Hk)]; cbn.
  - destruct (Z.leb_spec d' now); [right|left]; eexists; (split; [done|]); lia.
  - right. eexists. split; [done|]. lia.
Qed.

Lemma phase_fire t now txn tm : t <= now → timer_phase t txn tm → timer_phase now txn (timer_fire now tm).
Proof.
  intros Ht [? ? ? ? ->|? ? ? ? Hw|? ? ? ? Hw|? ? ? ? ->]; [by apply tp_idle| | |by apply tp_over].
  - by apply tp_min, (waits_fire t).
  - by apply tp_max, (waits_fire t).
Qed.

Lemma phase_later t now txn tm : t <= now → timer_phase t txn tm → timer_phase now txn tm.
Proof.
  intros Ht [? ? ? ? ->|? ? ? ? Hw|? ? ? ? Hw|? ? ? ? ->]; [by apply tp_idle| | |by apply tp_over].
  - by apply tp_min, (waits_later t).
  - by apply tp_max, (waits_later t).
Qed.

Lemma phase_message t txn tm (m : Envelope M) : 0 < tx_msgCount txn → timer_phase t txn tm → timer_phase t (txn_message txn m) tm.
Proof.
  intros Hn [? ? ? ? ->|? ? ? ? Hw|? ? ? ? Hw|? ? ? ? ->]; [lia|apply tp_min|apply tp_max|apply tp_over]; cbn; (done || lia).
Qed.

(** A message is read, a barrier is done, or the select is left, without effect on the timer. *)
Ltac keeps := eexists; (split; [done|]); intros ? [= <-] ?; cbn; try done.

Lemma txnStep_timer t now (sel : txn_select M) txn prior tm :
  t <= now → timer_phase t txn tm →
  ∃ res, txnStep bf now sel txn prior tm = Ret res ∧
    ∀ r, res = Some r → sr_err r = None →
      if sr_done r then sr_timer r = timer_stopped else timer_phase now (sr_txn r) (sr_timer r).
Proof.
  intros Ht Hp. assert (Hl : timer_phase now txn tm) by by eapply phase_later. unfold txnStep, txn_blocks.
  destruct Hp as [Hn Hmin Hmax Hch ->|Hn Hmin Hmax Hch Hw|Hn Hmin Hmax Hch Hw|Hn Hmin Hmax Hch ->].
  - rewrite Hn, Hch, Z.eqb_refl. cbn. destruct sel as [m be ce| | |err|]; [| | |keeps|keeps]; cbn.
    + destruct (if bf then be else None) as [err|]; keeps.
      apply tp_min; cbn; [lia..|done|]. left. eexists. split; [done|]. lia.
    + keeps.
    + destruct (tx_doneCh txn); keeps. by apply tp_idle.
  - rewrite (proj2 (Z.eqb_neq (tx_msgCount txn) 0)), (proj2 (Z.eqb_neq (tx_minDur txn) (-1))), Hch by lia. cbn.
    destruct sel as [m be ce| | |err|]; [| | |keeps|keeps]; cbn.
    + keeps. by apply phase_message.
    + destruct Hw as [(d & -> & Hd)|(k & -> & Hk)]; cbn; [keeps|].
      destruct (Z.ltb_spec k (tx_beganAt txn + tx_minDur txn)); [lia|].
      destruct (Z.ltb_spec k (tx_beganAt txn + tx_maxDur txn)); keeps; [apply tp_max|apply tp_over]; cbn; try done.
      left. eexists. split; [done|]. lia.
    + destruct (tx_doneCh txn); keeps. by apply tp_min, (waits_later t).
  - rewrite (proj2 (Z.eqb_neq (tx_msgCount txn) 0)), Hmin, Z.eqb_refl, Hch by lia. cbn.
    destruct (tx_doneCh txn) as [b|] eqn:Hd; cbn; destruct sel as [m be ce| | |err|fe fl b']; cbn; try (by keeps); try (by keeps; apply phase_message).
    + destruct Hw as [(d & -> & Hd')|(k & -> & Hk)]; cbn; [keeps|].
      rewrite (proj2 (Z.ltb_ge k (tx_beganAt txn + -1))), (proj2 (Z.ltb_ge k (tx_beganAt txn + tx_maxDur txn))) by lia. keeps. by apply tp_over.
    + keeps. by apply tp_max, (waits_later t).
    + destruct Hw as [(d & -> & Hd')|(k & -> & Hk)]; cbn; [keeps|].
      rewrite (proj2 (Z.ltb_ge k (tx_beganAt txn + tx_maxDur txn))) by lia. keeps. by apply tp_over.
    + destruct fe as [err|]; [keeps|]. destruct fl as [err|]; [keeps|].
      rewrite (proj2 (Z.eqb_neq (tx_maxDur txn) (-1))) by lia. destruct Hw as [(d & -> & Hd')|(k & -> & Hk)]; cbn; keeps.
  - rewrite (proj2 (Z.eqb_neq (tx_msgCount txn) 0)), Hmin, Z.eqb_refl, Hch by lia. cbn.
    destruct (tx_doneCh txn) as [b|] eqn:Hd; cbn; destruct sel as [m be ce| | |err|fe fl b']; cbn; try (by keeps).
    + keeps. by apply tp_over.
    + rewrite Hmax. cbn. destruct fe as [err|]; [keeps|]. destruct fl as [err|]; [keeps|]. keeps.
Qed.

Lemma consume_step_timer t c op :
  timer_inv t c → op_clocked t op →
  ∃ res, consume_step bf c op = Ret res ∧ ∀ c' evs, res = Some (c', evs) → timer_inv (op_time t op) c'.
Proof.
  intros Hc [Ht Hop]. unfold timer_inv in *. destruct op as [hints minDur maxDur|now|now sel fe]; cbn in *.
  - destruct (c_inTxn c), (c_returned c); cbn; try (by exists None). destruct Hc as [Hn Htm], Hop.
    destruct hints as [[err|]|]; eexists; (split; [done|]); intros c' evs [= <- <-]; cbn; [done|by apply tp_idle..].
  - eexists. split; [done|]. intros c' evs [= <- <-]. cbn in *. destruct (c_returned c); [done|]. destruct (c_inTxn c); [by eapply phase_fire|].
    destruct Hc as [? ->]. done.
  - destruct (c_inTxn c); cbn; [|by eexists]. destruct (c_returned c) eqn:Hr; [done|].
    destruct (txnStep_timer t now sel _ (c_prior c) _ Ht Hc) as ([r|] & -> & Hr'); cbn; [|by eexists].
    specialize (Hr' r eq_refl). destruct (sr_done r), (sr_err r) as [err|]; cbn.
    + eexists. split; [done|]. by intros c' evs [= <- <-].
    + destruct (bf && negb (tx_msgCount (sr_txn r) =? 0)), fe as [err|]; eexists; (split; [done|]); intros c' evs [= <- <-]; cbn; auto.
    + eexists. split; [done|]. by intros c' evs [= <- <-].
    + eexists. split; [done|]. intros c' evs [= <- <-]. cbn. auto.
Qed.

Lemma consume_run_timer ops : ∀ t c,
  timer_inv t c → clocked t ops →
  ∃ res, consume_run bf c ops = Ret res ∧ ∀ c' l, res = Some (c', l) → timer_inv (foldl op_time t ops) c'.
Proof.
  induction ops as [|op ops IH]; intros t c Hc Hops; cbn; [eexists; split; [done|]; by intros c' l [= <- <-]|].
  destruct Hops as [Hop Hops]. destruct (consume_step_timer t c op Hc Hop) as ([[c1 l1]|] & -> & H1); cbn; [|by eexists].
  destruct (IH _ c1 (H1 _ _ eq_refl) Hops) as ([[c2 l2]|] & -> & H2); cbn; [|by eexists].
  eexists. split; [done|]. intros c' l [= <- <-]. by eapply H2.
Qed.

(** *** Transactions can commit *)

Definition no_message (op : consume_op M) : Prop := match op with CStep _ (SelMsg _ _ _) _ => False | _ => True end.

(** Without another message, and if nothing fails. *)
Definition can_commit (t : Z) (c : consumer) : Prop :=
  ∃ ops c' l, Forall no_message ops ∧ clocked t ops ∧ consume_run bf c ops = Ret (Some (c', l)) ∧ c_inTxn c' = false ∧ c_returned c' = None.

Lemma can_commit_step t c op c1 l1 :
  no_message op → op_clocked t op → consume_step bf c op = Ret (Some (c1, l1)) → can_commit (op_time t op) c1 → can_commit t c.
Proof.
  intros Hm Hop Hs (ops & c' & l & Hms & Hops & Hrun & Hc'). exists (op :: ops), c', (l1 ++ l). split_and!; [by constructor|by split| |by destruct Hc'..].
  cbn. by rewrite Hs; cbn; rewrite Hrun.
Qed.

Lemma can_commit_now t c :
  c_inTxn c = true → timer_phase t (c_txn c) (c_timer c) → txn_blocks (c_txn c) = false → can_commit t c.
Proof.
  intros Hi Hp Hb. assert (Hret : ∃ tm', txnStep bf t (SelDefault None None 0%nat) (c_txn c) (c_prior c) (c_timer c) =
    Ret (Some (mkTxnResult (txn_committed (txn_flushed (c_txn c) t) 0 t) (c_prior c) tm' true None
      [EvFinalize; EvStrongBarrier; EvFlush (tx_offsets (c_txn c)); EvWeakBarrier 0] : txn_result M))).
  { unfold txnStep. rewrite Hb. cbn. unfold txn_blocks in Hb.
    destruct Hp as [Hn Hmin Hmax Hch ->|Hn Hmin Hmax Hch Hw|Hn Hmin Hmax Hch Hw|Hn Hmin Hmax Hch ->].
    - by rewrite Hn in Hb.
    - rewrite (proj2 (Z.eqb_neq (tx_minDur (c_txn c)) (-1))), orb_true_r in Hb by lia. done.
    - rewrite (proj2 (Z.eqb_neq (tx_maxDur (c_txn c)) (-1))) by lia. destruct Hw as [(d & -> & _)|(k & -> & _)]; by eexists.
    - rewrite Hmax. by eexists. }
  destruct Hret as [tm' Hs].
  assert (∃ c' (l : list (txn_event M)), consume_run bf c [CStep t (SelDefault None None 0%nat) None] = Ret (Some (c', l)) ∧ c_inTxn c' = false ∧ c_returned c' = None)
    as (c' & l & Hrun & Hc').
  { cbn. rewrite Hi. cbn. rewrite Hs. cbn. destruct (bf && _); by eexists _, _. }
  exists [CStep t (SelDefault None None 0%nat) None], c', l. split_and!; [by repeat constructor|split; [split; [cbn; lia|done]|done]|done|by destruct Hc'..].
Qed.

Lemma can_commit_tick t c :
  c_inTxn c = true → timer_phase t (c_txn c) (c_timer c) → tx_msgCount (c_txn c) ≠ 0 → tx_doneCh (c_txn c) = None → can_commit t c.
Proof.
  intros Hi Hp Hm Hd. destruct (decide (tx_minDur (c_txn c) = -1)) as [Hmin|Hmin].
  { apply can_commit_now; [done..|]. unfold txn_blocks. by rewrite (proj2 (Z.eqb_neq _ _) Hm), Hmin, Hd. }
  destruct Hp as [Hn Hmin' Hmax Hch Htm|Hn Hmin' Hmax Hch Hw|Hn Hmin' Hmax Hch Hw|Hn Hmin' Hmax Hch Htm]; [done| |done..].
  assert (∃ T k, t <= T ∧ timer_fire T (c_timer c) = mkTimer None (Some k) ∧ tx_beganAt (c_txn c) + tx_minDur (c_txn c) <= k <= T)
    as (T & k & HT & Hfire & Hk).
  { destruct Hw as [(d & -> & Hd')|(k & -> & Hk)]; [|exists t, k; split_and!; [lia|done|lia..]].
    exists (Z.max t d), (Z.max t d). cbn. rewrite (proj2 (Z.leb_le d (Z.max t d))) by lia. split_and!; [lia|done|lia..]. }
  apply (can_commit_step _ _ (CFire T) (mkConsumer (c_txn c) (c_prior c) (mkTimer None (Some k)) true (c_returned c)) []);
    [done|by split| |]; [cbn; by rewrite Hfire, Hi|].
  assert (∃ r, txnStep bf T (SelTick : txn_select M) (c_txn c) (c_prior c) (mkTimer None (Some k)) = Ret (Some r) ∧ sr_err r = None ∧ sr_done r = false ∧
    tx_minDur (sr_txn r) = -1 ∧ tx_msgCount (sr_txn r) ≠ 0 ∧ tx_doneCh (sr_txn r) = None ∧ timer_phase T (sr_txn r) (sr_timer r))
    as (r & Hs & He & Hdone & Hmin1 & Hm1 & Hd1 & Hp1).
  { pose proof (txnStep_timer T T SelTick (c_txn c) (c_prior c) (mkTimer None (Some k))) as (res & Hs & Hr); [lia| |].
    { apply tp_min; try done. right. eexists. split; [done|]. lia. }
    rewrite Hs. unfold txnStep, txn_blocks in Hs.
    rewrite (proj2 (Z.eqb_neq (tx_msgCount (c_txn c)) 0)), (proj2 (Z.eqb_neq (tx_minDur (c_txn c)) (-1))) in Hs by lia. cbn in Hs.
    rewrite (proj2 (Z.ltb_ge k _)) in Hs by lia.
    destruct (_ <? _); injection Hs as <-; eexists; (split; [done|]); specialize (Hr _ eq_refl eq_refl); cbn in *; done. }
  eapply (can_commit_step _ _ (CStep T SelTick None) (mkConsumer (sr_txn r) (sr_prior r) (sr_timer r) true None)); [done|by split; [cbn; lia|]| |].
  { cbn. rewrite Hs. cbn. by rewrite Hdone, He. }
  apply can_commit_now; [done..|]. cbn. unfold txn_blocks. by rewrite (proj2 (Z.eqb_neq _ _) Hm1), Hmin1, Hd1.
Qed.

Lemma can_commit_done t c :
  c_inTxn c = true → timer_phase t (c_txn c) (c_timer c) → tx_msgCount (c_txn c) ≠ 0 → can_commit t c.
Proof.
  intros Hi Hp Hm. destruct (tx_doneCh (c_txn c)) as [b|] eqn:Hd; [|by apply can_commit_tick].
  assert (txnStep bf t (SelDone : txn_select M) (c_txn c) (c_prior c) (c_timer c) =
    Ret (Some (mkTxnResult (txn_synced (c_txn c)) (txn_syncedAt (c_prior c) t) (c_timer c) false None [EvSynced b]))) as Hs.
  { unfold txnStep, txn_blocks. by rewrite Hd, orb_true_r. }
  eapply (can_commit_step _ _ (CStep t SelDone None)); [done|by split; [cbn; lia|]|cbn; by rewrite Hi; cbn; rewrite Hs|].
  destruct (txnStep_timer t t SelDone _ (c_prior c) _ ltac:(lia) Hp) as (res & Hs' & Hr). rewrite Hs in Hs'. injection Hs' as <-.
  apply can_commit_tick; [done|by apply (Hr _ eq_refl eq_refl)|done..].
Qed.
End timers.

(** ** Properties *)

(** C10: A consumer runs its messages in transactions, one after the other. Whatever else the application, the store and Etcd answer while calls of
    [BeginTxn] succeed, and however messages, ticks and barriers interleave, the calls that a consumer made are those of committed transactions, followed by one that still reads or that
    failed. Each read at least a message, begins if the application wants that, awaits the barrier of the transaction before it, and then finalizes,
    orders the writes of its messages by a strong barrier before it flushes the offsets past exactly its messages, and finishes; also one that failed
    finishes if it began, so that between transactions calls of [BeginTxn] and [FinishTxn] are paired. What the store
    holds after committed transactions is, of each journal, the offset past the last of all of their messages, and of no message after them.
    A [BeginTxn] that fails is not paired with a [FinishTxn], against its documentation: [failed_begin_is_unpaired]. *)
Theorem consumer_transactions {M} (bf : bool) (ops : list (consume_op M)) c l :
  Forall (begins bf) ops → consume_run bf consumer_new ops = Ret (Some (c, l)) →
  ∃ txns hist tail, l = hist ++ tail ∧ history bf txns hist ∧ flushed hist = offsets_of (concat (fst <$> txns)) ∧
    match c_returned c with
    | None => running bf c (last_barrier txns) tail
    | Some _ => c_inTxn c = false ∧ failing bf (last_barrier txns) tail
    end ∧
    (c_inTxn c = false → paired l).
Proof.
  intros Hops Hrun. assert (consumer_log bf consumer_new ([] : list (txn_event M))) as H0 by (exists [], [], []; split_and!; [done|constructor|done]).
  destruct (consume_run_log bf ops Hops _ _ _ _ H0 Hrun) as (txns & hist & tail & Hl & Hh & Hc).
  exists txns, hist, tail. split_and!; [done|done|by eapply history_flushed|done|]. intros Hi. cbn in Hl. subst l.
  apply paired_app; [by eapply history_paired|]. unfold running in Hc. rewrite Hi in Hc.
  destruct (c_returned c); [destruct Hc as [_ Hf]; by eapply failing_paired|by destruct Hc as [-> _]].
Qed.

(** C17: Timers and barriers do not wedge a consumer. While the clock does not go back and durations are not negative, it never panics of an
    unexpected tick, and no matter what it went through, a transaction that read a message can commit without another one: once the barrier of
    the transaction before it is done and the clock reaches its minimum duration, and then without waiting for a tick that does not come. *)
Theorem consumer_commits {M} (bf : bool) (ops : list (consume_op M)) :
  clocked 0 ops →
  ∃ res, consume_run bf consumer_new ops = Ret res ∧
    ∀ c l, res = Some (c, l) → c_inTxn c = true → tx_msgCount (c_txn c) ≠ 0 → can_commit (M:=M) bf (foldl op_time 0 ops) c.
Proof.
  intros Hops. destruct (consume_run_timer bf ops 0 consumer_new) as (res & Hrun & Hinv); [done..|].
  exists res. split; [done|]. intros c l -> Hi Hm. specialize (Hinv _ _ eq_refl). unfold timer_inv in Hinv.
  destruct (c_returned c); [congruence|]. rewrite Hi in Hinv. by apply can_commit_done.
Qed.

(** If [BeginTxn] fails, [FinishTxn] is not called, although [interfaces.go] says that a call of the one is always paired with a call of the other:
    [consumeMessages] calls it if messages were counted, and the message of a failed [BeginTxn] is not. *)
Theorem failed_begin_is_unpaired :
  consume_run true consumer_new [CTop None 1 2; CStep 1 (SelMsg (mkEnvelope "j" 5 tt) (Some "begin") None) None] =
  Ret (Some (mkConsumer (txn_begin (transaction_new None) 1 2) (transaction_new None) timer_stopped false (Some "begin"), [EvBeginTxn])).
Proof. reflexivity. Qed.

(** Two transactions: the second awaits the barrier of the first, and is cut by its maximum duration. *)
Definition two_transactions : list (consume_op unit) :=
  [ CTop (Some None) 2 5; CStep 10 (SelMsg (mkEnvelope "j" 5 tt) None None) None; CStep 11 (SelMsg (mkEnvelope "k" 7 tt) None None) None;
    CFire 12; CStep 12 SelTick None; CStep 13 (SelDefault None None 1%nat) None;
    CTop None 2 5; CStep 14 (SelMsg (mkEnvelope "j" 9 tt) None None) None; CFire 16; CStep 16 SelTick None; CFire 19; CStep 20 SelTick None;
    CStep 21 SelDone None; CStep 22 (SelDefault None None 2%nat) None; CTop None 2 5; CStep 23 (SelMsg (mkEnvelope "j" 12 tt) None None) None ].

Lemma consumer_transactions_witness : ∃ c l txns hist tail,
  consume_run true consumer_new two_transactions = Ret (Some (c, l)) ∧ c_returned c = None ∧ l = hist ++ tail ∧ history true txns hist ∧
  flushed hist = offsets_of (concat (fst <$> txns)) ∧ running true c (last_barrier txns) tail.
Proof.
  assert (∃ c l, consume_run true consumer_new two_transactions = Ret (Some (c, l)) ∧ c_returned c = None) as (c & l & Hrun & Hc)
    by (eexists _, _; split; [vm_compute; reflexivity|reflexivity]).
  assert (Forall (begins true) two_transactions) as Hops by (repeat constructor).
  destruct (consumer_transactions _ _ _ _ Hops Hrun) as (txns & hist & tail & Hl & Hh & Hf & H & _). rewrite Hc in H.
  exists c, l, txns, hist, tail. split_and!; [exact Hrun|exact Hc|exact Hl|exact Hh|exact Hf|exact H].
Defined.

Lemma consumer_commits_witness : ∃ c l,
  consume_run true consumer_new two_transactions = Ret (Some (c, l)) ∧ c_inTxn c = true ∧ can_commit (M:=unit) true 23 c.
Proof.
  assert (clocked 0 two_transactions) as Hops by (repeat split; cbn; lia).
  destruct (consumer_commits true _ Hops) as (res & Hrun & H).
  assert (∃ c l, consume_run true consumer_new two_transactions = Ret (Some (c, l)) ∧ c_inTxn c = true ∧ tx_msgCount (c_txn c) = 1) as (c & l & Hr & Hi & Hn)
    by (eexists _, _; split; [vm_compute; reflexivity|split; reflexivity]).
  rewrite Hrun in Hr. injection Hr as ->. exists c, l. split; [exact Hrun|]. split; [exact Hi|]. apply (H _ _ eq_refl Hi). by rewrite Hn.
Defined.
