(* ===== verification/Shards.v ===== *)
(** * Shards of consumers (src/v2/pkg/consumer/shard_spec_extensions.go, replica.go, lifecycle.go)

    A [ShardSpec] is validated and combined with others field by field, and names the keys in Etcd of its hints. A primary records hints under the
    primary key, and a replica that completes a recovery rotates them through the backup keys; the status of a replica is reduced into the one
    it advertised before. All are checked transactions of Etcd, which is a class with its law, as are JSON and marshalling parameters. *)
From S2P Require Import Prelude Protocol Labels JournalSpec FragmentName AllocKeys AllocTxn Segment Fsm.
From Stdlib Require Import Ascii.
Local Open Scope Z_scope.

(** ** Specifications *)

Record ShardSpec_Source := mkSource { so_Journal : Journal; so_MinOffset : Z }.

#[global] Instance ShardSpec_Source_eq_dec : EqDecision ShardSpec_Source.
Proof. solve_decision. Defined.

Record ShardSpec := mkShardSpec {
  ss_Id : string;
  ss_Sources : list ShardSpec_Source;
  ss_RecoveryLogPrefix : string;
  ss_HintPrefix : string;
  ss_HintBackups : Z;
  ss_MaxTxnDuration : Z;
  ss_MinTxnDuration : Z;
  ss_Disable : bool;
  ss_HotStandbys : Z;
  ss_LabelSet : LabelSet;
}.

Definition minShardNameLen : Z := 4.
Definition maxShardNameLen : Z := 512.

Definition ShardID_Validate (id : string) : option ValidationError := ValidateToken id minShardNameLen maxShardNameLen.

Definition ShardSpec_Source_Validate (m : ShardSpec_Source) : option ValidationError :=
  ExtendContext (Journal_Validate (so_Journal m)) "Journal"
  elif failIf (so_MinOffset m <? 0) "invalid MinOffset (%d; expected > 0)".

Definition RecoveryLog (m : ShardSpec) : Journal := (ss_RecoveryLogPrefix m ++ "/" ++ ss_Id m)%string.

Definition HintPrimaryKey (m : ShardSpec) : string := (ss_HintPrefix m ++ "/" ++ ss_Id m ++ ".primary")%string.

Definition HintBackupKey (m : ShardSpec) (i : Z) : string := (ss_HintPrefix m ++ "/" ++ ss_Id m ++ ".backup." ++ Itoa i)%string.

(** [make] of a negative number panics. *)
Definition HintBackupKeys (m : ShardSpec) : outcome (list string) :=
  if ss_HintBackups m <? 0 then Panic "makeslice: len out of range"
  else Ret ((λ i, HintBackupKey m (Z.of_nat i)) <$> seq 0 (Z.to_nat (ss_HintBackups m))).

Fixpoint sources_Validate (i : nat) (prev : option Journal) (l : list ShardSpec_Source) : option ValidationError :=
  match l with
  | [] => None
  | s :: l =>
      ExtendContext (ShardSpec_Source_Validate s) ("Sources[" +:+ pretty i +:+ "]")
      elif failIf (match prev with None => false | Some p => str_leb (so_Journal s) p end)
             "Sources.Journal not in unique, sorted order (index %d; %+v <= %+v)"
      elif sources_Validate (S i) (Some (so_Journal s)) l
  end.

Definition ShardSpec_Validate (m : ShardSpec) : option ValidationError :=
  ExtendContext (ShardID_Validate (ss_Id m)) "Id"
  elif failIf (match ss_Sources m with [] => true | _ => false end) "Sources cannot be empty"
  elif failIf (String.eqb (ss_RecoveryLogPrefix m) "") "expected RecoveryLogPrefix"
  elif ExtendContext (Journal_Validate (RecoveryLog m)) "RecoveryLog"
  elif failIf (negb (has_leading_slash (ss_HintPrefix m)) || negb (String.eqb (path_Clean (ss_HintPrefix m)) (ss_HintPrefix m)) ||
               String.eqb (path_Base (ss_HintPrefix m)) "") "HintPrefix is not an absolute, clean, non-directory path (%v)"
  elif failIf (ss_HintBackups m <? 0) "invalid HintBackups (%d; expected >= 0)"
  elif failIf (ss_MinTxnDuration m <? 0) "invalid MinTxnDuration (%d; expected >= 0)"
  elif failIf (ss_MaxTxnDuration m <=? 0) "invalid MaxTxnDuration (%d; expected > 0)"
  elif ExtendContext (LabelSet_Validate (ss_LabelSet m)) "LabelSet"
  elif ExtendContext (ValidateSingleValueLabels (ss_LabelSet m)) "LabelSet"
  elif failIf (negb (bool_decide (ValuesOf (ss_LabelSet m) "id" = []))) "Labels cannot include label id"
  elif sources_Validate 0 None (ss_Sources m).

Definition ShardSpec_DesiredReplication (m : ShardSpec) : Z := if ss_Disable m then 0 else 1 + ss_HotStandbys m.

Definition ExtractShardSpecMetaLabels (m : ShardSpec) : LabelSet := [mkLabel "id" (ss_Id m)].

(** *** Combining specifications *)

Definition sourcesEq (a b : list ShardSpec_Source) : bool := bool_decide (a = b).

Definition UnionShardSpecs (a b : ShardSpec) : ShardSpec :=
  mkShardSpec (ss_Id a)
    (match ss_Sources a with [] => ss_Sources b | l => l end)
    (if String.eqb (ss_RecoveryLogPrefix a) "" then ss_RecoveryLogPrefix b else ss_RecoveryLogPrefix a)
    (if String.eqb (ss_HintPrefix a) "" then ss_HintPrefix b else ss_HintPrefix a)
    (if ss_HintBackups a =? 0 then ss_HintBackups b else ss_HintBackups a)
    (if ss_MaxTxnDuration a =? 0 then ss_MaxTxnDuration b else ss_MaxTxnDuration a)
    (if ss_MinTxnDuration a =? 0 then ss_MinTxnDuration b else ss_MinTxnDuration a)
    (if ss_Disable a then true else ss_Disable b)
    (if ss_HotStandbys a =? 0 then ss_HotStandbys b else ss_HotStandbys a)
    (UnionLabelSets (ss_LabelSet a) (ss_LabelSet b)).

Definition IntersectShardSpecs (a b : ShardSpec) : ShardSpec :=
  mkShardSpec (ss_Id a)
    (if negb (sourcesEq (ss_Sources a) (ss_Sources b)) then [] else ss_Sources a)
    (if negb (String.eqb (ss_RecoveryLogPrefix a) (ss_RecoveryLogPrefix b)) then "" else ss_RecoveryLogPrefix a)
    (if negb (String.eqb (ss_HintPrefix a) (ss_HintPrefix b)) then "" else ss_HintPrefix a)
    (if negb (ss_HintBackups a =? ss_HintBackups b) then 0 else ss_HintBackups a)
    (if negb (ss_MaxTxnDuration a =? ss_MaxTxnDuration b) then 0 else ss_MaxTxnDuration a)
    (if negb (ss_MinTxnDuration a =? ss_MinTxnDuration b) then 0 else ss_MinTxnDuration a)
    (if negb (Bool.eqb (ss_Disable a) (ss_Disable b)) then false else ss_Disable a)
    (if negb (ss_HotStandbys a =? ss_HotStandbys b) then 0 else ss_HotStandbys a)
    (IntersectLabelSets (ss_LabelSet a) (ss_LabelSet b)).

Definition SubtractShardSpecs (a b : ShardSpec) : ShardSpec :=
  mkShardSpec (ss_Id a)
    (if sourcesEq (ss_Sources a) (ss_Sources b) then [] else ss_Sources a)
    (if String.eqb (ss_RecoveryLogPrefix a) (ss_RecoveryLogPrefix b) then "" else ss_RecoveryLogPrefix a)
    (if String.eqb (ss_HintPrefix a) (ss_HintPrefix b) then "" else ss_HintPrefix a)
    (if ss_HintBackups a =? ss_HintBackups b then 0 else ss_HintBackups a)
    (if ss_MaxTxnDuration a =? ss_MaxTxnDuration b then 0 else ss_MaxTxnDuration a)
    (if ss_MinTxnDuration a =? ss_MinTxnDuration b then 0 else ss_MinTxnDuration a)
    (if Bool.eqb (ss_Disable a) (ss_Disable b) then false else ss_Disable a)
    (if ss_HotStandbys a =? ss_HotStandbys b then 0 else ss_HotStandbys a)
    (SubtractLabelSet (ss_LabelSet a) (ss_LabelSet b)).

(** ** Statuses of replicas *)

Inductive ReplicaStatus_Code := IDLE | BACKFILL | TAILING | PRIMARY | FAILED | Replica_unnamed (n : Z).

#[global] Instance ReplicaStatus_Code_eq_dec : EqDecision ReplicaStatus_Code.
Proof. solve_decision. Defined.

Definition code_number (c : ReplicaStatus_Code) : Z :=
  match c with IDLE => 0 | BACKFILL => 100 | TAILING => 200 | PRIMARY => 300 | FAILED => 400 | Replica_unnamed n => n end.

Record ReplicaStatus := mkReplicaStatus { rs_Code : ReplicaStatus_Code; rs_Errors : list string }.

Definition ReplicaStatus_Code_Validate (x : ReplicaStatus_Code) : option ValidationError :=
  match x with Replica_unnamed _ => NewValidationError "invalid code (%s)" | _ => None end.

Definition Reduce (m other : ReplicaStatus) : ReplicaStatus :=
  mkReplicaStatus (if code_number (rs_Code m) <? code_number (rs_Code other) then rs_Code other else rs_Code m) (rs_Errors m ++ rs_Errors other).

Definition ReplicaStatus_Validate (m : ReplicaStatus) : option ValidationError :=
  ExtendContext (ReplicaStatus_Code_Validate (rs_Code m)) "Code"
  elif match rs_Errors m with
       | [] => failIf (bool_decide (rs_Code m = FAILED)) "expected non-empty Errors with Code FAILED"
       | _ => failIf (negb (bool_decide (rs_Code m = FAILED))) "expected Code FAILED with non-empty Errors"
       end.

(** Of the status of an assignment. *)
Definition ShardSpec_IsConsistent (s : ReplicaStatus) : bool := match rs_Code s with TAILING | PRIMARY => true | _ => false end.

Definition newErrorStatus (err : string) : ReplicaStatus := mkReplicaStatus FAILED [err].

Definition backoff (attempt : Z) : Z :=
  if (attempt =? 0) || (attempt =? 1) then 0
  else if attempt =? 2 then 5000000
  else if (attempt =? 3) || (attempt =? 4) || (attempt =? 5) then second * (attempt - 1)
  else 5 * second.

(** ** Etcd *)

Record etcd_kv := mkEtcdKV { ek_Value : string; ek_CreateRevision : Z; ek_ModRevision : Z }.

Definition cmp_holds (σ : gmap string etcd_kv) (c : Cmp) : bool :=
  match c with
  | CmpModRevision key rev => from_option ek_ModRevision 0 (σ !! key) =? rev
  | CmpCreateRevision key rev => from_option ek_CreateRevision 0 (σ !! key) =? rev
  end.

Definition etcd_write (rev : Z) (σ : gmap string etcd_kv) (o : Op) : gmap string etcd_kv :=
  match o with
  | OpPut key value _ => <[key := mkEtcdKV value (from_option ek_CreateRevision rev (σ !! key)) rev]> σ
  | OpDelete key => delete key σ
  end.

(** A store whose transactions write all that they say, at a revision of their own, or nothing if a comparison fails. *)
Class Etcd (W : Type) := {
  etcd_view : W → gmap string etcd_kv;
  etcd_Txn : W → list Cmp → list Op → W * (TxnResponse + string);
}.

Class EtcdLaws (W : Type) `{Etcd W} : Prop := {
  etcd_atomic w cmps ops w' txn : etcd_Txn w cmps ops = (w', inl txn) →
    Succeeded txn = forallb (cmp_holds (etcd_view w)) cmps ∧
    etcd_view w' = if Succeeded txn then foldl (etcd_write (tr_Revision txn)) (etcd_view w) ops else etcd_view w;
}.

(** ** Hints (lifecycle.go) *)

Section hints.
Context `{Etcd W}.
Context (json_Marshal : FSMHints → string + string) (json_Unmarshal : string → FSMHints + string).

Record fetchedHints := mkFetched { fh_spec : ShardSpec; fh_Responses : list (option etcd_kv); fh_hints : list (option FSMHints) }.

Definition pickFirstHints (f : fetchedHints) : FSMHints :=
  match omap id (fh_hints f) with
  | h :: _ => h
  | [] => mkHints (RecoveryLog (fh_spec f)) [] []
  end.

Definition decode_hints (spec : ShardSpec) (kv : etcd_kv) : outcome (FSMHints + string) :=
  match json_Unmarshal (ek_Value kv) with
  | inr err => Ret (inr err)
  | inl h =>
      let! fsm := NewFSM h in
      match fsm with
      | inr err => Ret (inr err)
      | inl _ => if negb (String.eqb (hi_Log h) (RecoveryLog spec)) then Ret (inr "recovered hints recovery log doesn't match ShardSpec.RecoveryLog (%s vs %s)")
                 else Ret (inl h)
      end
  end.

Fixpoint decode_responses (spec : ShardSpec) (l : list (option etcd_kv)) : outcome (list (option FSMHints) + string) :=
  match l with
  | [] => Ret (inl [])
  | None :: l => let! res := decode_responses spec l in Ret (match res with inl hs => inl (None :: hs) | inr err => inr err end)
  | Some kv :: l =>
      let! res := decode_hints spec kv in
      match res with
      | inr err => Ret (inr err)
      | inl h => let! res := decode_responses spec l in Ret (match res with inl hs => inl (Some h :: hs) | inr err => inr err end)
      end
  end.

(** The hints at [w], or the error [get_err] of the transaction that reads them. *)
Definition fetchHints (w : W) (get_err : option string) (spec : ShardSpec) : outcome (fetchedHints + string) :=
  let! backups := HintBackupKeys spec in
  match get_err with
  | Some err => Ret (inr err)
  | None =>
      let responses := (λ key, etcd_view w !! key) <$> (HintPrimaryKey spec :: backups) in
      let! res := decode_responses spec responses in
      Ret (match res with inl hs => inl (mkFetched spec responses hs) | inr err => inr err end)
  end.

(** An assignment's key and create revision, at which a primary stores its hints. *)
Definition storeRecordedHints (w : W) (asn_Key : string) (asn_CreateRevision : Z) (spec : ShardSpec) (hints : FSMHints) : W * option string :=
  match json_Marshal hints with
  | inr err => (w, Some err)
  | inl val =>
      let '(w, res) := etcd_Txn w [CmpCreateRevision asn_Key asn_CreateRevision] [OpPut (HintPrimaryKey spec) val 0] in
      (w, match res with inl _ => None | inr err => Some err end)
  end.

(** The loop over the backup keys and what they held: [val] moves to the key, and what was there moves on; it is nil after a key that held nothing.
    An empty value would be nil as well, and end the loop of the code; hints do not marshal to an empty value. *)
Fixpoint rotate_hints (val : option string) (backups : list string) (responses : list (option etcd_kv)) : outcome (list Cmp * list Op) :=
  match val, backups with
  | None, _ | _, [] => Ret ([], [])
  | Some v, key :: backups =>
      match responses with
      | [] => Panic "index out of range"
      | None :: responses =>
          let! (cmps, ops) := rotate_hints None backups responses in
          Ret (CmpModRevision key 0 :: cmps, OpPut key v 0 :: ops)
      | Some kv :: responses =>
          let! (cmps, ops) := rotate_hints (Some (ek_Value kv)) backups responses in
          Ret (CmpModRevision key (ek_ModRevision kv) :: cmps, OpPut key v 0 :: ops)
      end
  end.

(** The hints are fetched at [w0], and stored at [w]. *)
Definition storeRecoveredHints (w0 w : W) (get_err : option string) (asn_Key : string) (asn_CreateRevision : Z) (spec : ShardSpec) (hints : FSMHints)
    : outcome (W * option string) :=
  let! backups := HintBackupKeys spec in
  let! fetched := fetchHints w0 get_err spec in
  match fetched with
  | inr err => Ret (w, Some err)
  | inl h =>
      match json_Marshal hints with
      | inr err => Ret (w, Some err)
      | inl val =>
          let! (cmps, ops) := rotate_hints (Some val) backups (drop 1 (fh_Responses h)) in
          let '(w, res) := etcd_Txn w (CmpCreateRevision asn_Key asn_CreateRevision :: cmps) ops in
          Ret (w, match res with inl _ => None | inr err => Some err end)
      end
  end.
End hints.

(** ** Updates of statuses (replica.go) *)

Section statuses.
Context `{Etcd W}.
Context (MarshalString : ReplicaStatus → string).

(** An assignment: its key, the revision at which it was last modified, and its decoded status. *)
Record assigned := mkAssigned { an_Key : string; an_ModRevision : Z; an_Status : ReplicaStatus }.

(** [WithIgnoreLease]: the key keeps its lease. *)
Definition IgnoreLease : Z := -1.

(** After a transaction that succeeds, it is awaited in the key space, without effect on the result. *)
Definition updateStatus (w : W) (asn : assigned) (status : ReplicaStatus) : W * option string :=
  let status := Reduce status (an_Status asn) in
  let '(w, res) := etcd_Txn w [CmpModRevision (an_Key asn) (an_ModRevision asn)] [OpPut (an_Key asn) (MarshalString status) IgnoreLease] in
  (w, match res with
      | inr err => Some err
      | inl txn => if negb (Succeeded txn) then Some "transaction failed" else None
      end).

(** Attempts, each after a delay [backoff], unless the replica is cancelled; before each, others change the store, and the key space
    observes the assignment anew. The result is whether the status was updated. *)
Inductive attempt :=
| TryCancelled
| TryUpdate (others : W → W) (asn : assigned).

Fixpoint tryUpdateStatus (w : W) (attempts : list attempt) (status : ReplicaStatus) : W * bool :=
  match attempts with
  | [] | TryCancelled :: _ => (w, false)
  | TryUpdate others asn :: attempts =>
      let '(w, err) := updateStatus (others w) asn status in
      match err with
      | None => (w, true)
      | Some _ => tryUpdateStatus w attempts status
      end
  end.
End statuses.
Arguments TryCancelled {W}. Arguments TryUpdate {W}.

(** ** Lemmas *)

Lemma sourcesEq_spec a b : sourcesEq a b = true ↔ a = b.
Proof. apply bool_decide_eq_true. Qed.

Lemma HintBackupKeys_spec m backups :
  HintBackupKeys m = Ret backups → 0 <= ss_HintBackups m ∧ backups = (λ i, HintBackupKey m (Z.of_nat i)) <$> seq 0 (Z.to_nat (ss_HintBackups m)).
Proof. unfold HintBackupKeys. destruct (Z.ltb_spec (ss_HintBackups m) 0); [done|]. by intros [= <-]. Qed.

Lemma HintBackupKey_inj m i j : is_int64 i → is_int64 j → HintBackupKey m i = HintBackupKey m j → i = j.
Proof.
  intros Hi Hj Heq. unfold HintBackupKey in Heq. do 4 apply str_app_inj in Heq. apply (f_equal Atoi) in Heq. rewrite !Atoi_Itoa in Heq by done. congruence.
Qed.

Lemma HintPrimaryKey_ne m i : HintPrimaryKey m ≠ HintBackupKey m i.
Proof. intros Heq. unfold HintPrimaryKey, HintBackupKey in Heq. do 3 apply str_app_inj in Heq. done. Qed.

(** Hints are stored under keys of their own. *)
Lemma hint_keys_NoDup m backups : is_int64 (ss_HintBackups m) → HintBackupKeys m = Ret backups → NoDup (HintPrimaryKey m :: backups).
Proof.
  intros Hn [Hp ->]%HintBackupKeys_spec. apply NoDup_cons. split.
  - intros (i & Heq & _)%list_elem_of_fmap. by apply HintPrimaryKey_ne in Heq.
  - apply NoDup_fmap_2_strong; [|apply NoDup_seq]. intros x y Hx%elem_of_seq Hy%elem_of_seq Heq.
    unfold is_int64 in Hn. change MaxInt64 with 9223372036854775807 in *. change MinInt64 with (-9223372036854775808) in *.
    apply HintBackupKey_inj in Heq; unfold is_int64; [|change MaxInt64 with 9223372036854775807; change MinInt64 with (-9223372036854775808)..]; lia.
Qed.

Section etcd_lemmas.
Context `{EtcdLaws W}.

Definition op_key (o : Op) : string := match o with OpPut k _ _ => k | OpDelete k => k end.

Lemma put_keys (vs : list string) : ∀ keys, op_key <$> zip_with (λ key v, OpPut key v 0) keys vs = take (length vs) keys.
Proof. induction vs as [|v vs IH]; intros [|key keys]; cbn; [done..|]. by rewrite IH. Qed.

Lemma etcd_writes_other rev ops : ∀ σ key,
  key ∉ op_key <$> ops → foldl (etcd_write rev) σ ops !! key = σ !! key.
Proof.
  induction ops as [|o ops IH]; intros σ key Hk; [done|]. cbn in *. apply not_elem_of_cons in Hk as [Hk Hks]. rewrite IH by done.
  destruct o; cbn; [by rewrite lookup_delete_ne|by rewrite lookup_insert_ne].
Qed.

Lemma etcd_puts rev ops : ∀ σ i key v lease,
  NoDup (op_key <$> ops) → ops !! i = Some (OpPut key v lease) →
  ek_Value <$> foldl (etcd_write rev) σ ops !! key = Some v.
Proof.
  induction ops as [|o ops IH]; intros σ i key v lease Hnd Hi; [done|]. cbn in *. apply NoDup_cons in Hnd as [Hn Hnd].
  destruct i as [|i]; [|by eapply IH]. injection Hi as ->. cbn. rewrite etcd_writes_other by done. by rewrite lookup_insert_eq.
Qed.

Definition slot_value (o : option etcd_kv) : option string := ek_Value <$> o.

(** The occupied slots [vs] from the first on; the rest begins with an empty one. *)
Lemma rotate_hints_spec (vs : list string) : ∀ (rest : list (option string)) val backups (responses : list (option etcd_kv)),
  slot_value <$> responses = (Some <$> vs) ++ rest → rest = [] ∨ head rest = Some None → length backups = length responses →
  rotate_hints (Some val) backups responses =
    Ret (zip_with (λ key r, CmpModRevision key (from_option ek_ModRevision 0 r)) (take (S (length vs)) backups) responses,
         zip_with (λ key v, OpPut key v 0) backups (val :: vs)).
Proof.
  induction vs as [|v vs IH]; intros rest val backups responses Hr Hrest Hl.
  - destruct backups as [|key backups], responses as [|r responses]; try done.
    cbn in Hr. subst rest. destruct Hrest as [|[= Hr]]; [done|]. destruct r; [done|]. cbn.
    assert (rotate_hints None backups responses = Ret ([], [])) as -> by by destruct backups. by destruct backups.
  - destruct responses as [|[kv|] responses]; [done| |done]. injection Hr as Hv Hr. destruct backups as [|key backups]; [done|].
    injection Hl as Hl. cbn. by rewrite Hv, (IH rest v backups responses Hr Hrest Hl).
Qed.
End etcd_lemmas.

Section hints_properties.
Context `{EtcdLaws W} (json_Marshal : FSMHints → string + string) (json_Unmarshal : string → FSMHints + string).

Lemma fetchHints_spec (w : W) err spec h :
  fetchHints json_Unmarshal w err spec = Ret (inl h) →
  ∃ backups, HintBackupKeys spec = Ret backups ∧ fh_spec h = spec ∧ fh_Responses h = (λ key, etcd_view w !! key) <$> (HintPrimaryKey spec :: backups) ∧
    decode_responses json_Unmarshal spec (fh_Responses h) = Ret (inl (fh_hints h)).
Proof.
  unfold fetchHints. destruct (HintBackupKeys spec) as [backups|]; [cbn [outcome_bind]|done]. destruct err; [done|].
  destruct (decode_responses _ _ _) as [[hs|]|] eqn:Hd; cbn [outcome_bind]; [|done..]. intros [= <-]. by exists backups.
Qed.

(** C21: Recovered hints are rotated, and in one transaction. When [storeRecoveredHints] reports no error, then either the recovered hints are under
    the first backup key and the hints of the occupied keys that follow each moved on to the next key, as they were when fetched, so that none is lost but the
    last, of which there is no room if all keys were occupied; the assignment of the replica was in effect, the keys that moved were unchanged since they
    were fetched, and no other key changed. Or one of these was not so, and nothing changed. *)
Theorem recovered_hints_rotate (w0 w w' : W) err asn_Key rev spec hints val backups (vs : list string) (rest : list (option string)) :
  HintBackupKeys spec = Ret backups → is_int64 (ss_HintBackups spec) → json_Marshal hints = inl val →
  slot_value <$> ((λ key, etcd_view w0 !! key) <$> backups) = (Some <$> vs) ++ rest → rest = [] ∨ head rest = Some None →
  storeRecoveredHints json_Marshal json_Unmarshal w0 w err asn_Key rev spec hints = Ret (w', None) →
  let moved := take (S (length vs)) backups in
  let in_effect := from_option ek_CreateRevision 0 (etcd_view w !! asn_Key) = rev ∧
    ∀ key, key ∈ moved → from_option ek_ModRevision 0 (etcd_view w !! key) = from_option ek_ModRevision 0 (etcd_view w0 !! key) in
  in_effect ∧ (∀ i key v, backups !! i = Some key → (val :: vs) !! i = Some v → slot_value (etcd_view w' !! key) = Some v) ∧
    (∀ key, key ∉ moved → etcd_view w' !! key = etcd_view w !! key) ∨
  ¬ in_effect ∧ etcd_view w' = etcd_view w.
Proof.
  intros Hb Hn Hval Hvs Hrest Hst moved in_effect. unfold storeRecoveredHints in Hst. rewrite Hb in Hst. cbn [outcome_bind] in Hst.
  destruct (fetchHints _ _ _ _) as [[h|]|] eqn:Hf; cbn [outcome_bind] in Hst; [|done..]. rewrite Hval in Hst.
  apply fetchHints_spec in Hf as (backups' & Hb' & _ & Hresp & _). rewrite Hb in Hb'. injection Hb' as <-.
  rewrite Hresp in Hst. change (drop 1 ((λ key, etcd_view w0 !! key) <$> HintPrimaryKey spec :: backups))
    with ((λ key, etcd_view w0 !! key) <$> backups) in Hst.
  rewrite (rotate_hints_spec vs rest val backups _ Hvs Hrest) in Hst by (by rewrite length_fmap). cbn [outcome_bind] in Hst.
  destruct (etcd_Txn w _ _) as [w1 [txn|e]] eqn:Ht; [|done]. injection Hst as ->. apply etcd_atomic in Ht as [Hs Hv].
  assert (Succeeded txn = true ↔ in_effect) as Hiff.
  { rewrite Hs. cbn [forallb cmp_holds]. rewrite andb_true_iff, Z.eqb_eq, forallb_forall. apply and_iff_compat_l. split.
    - intros Hall key Hk. apply Z.eqb_eq. apply list_elem_of_lookup in Hk as [i Hi].
      apply (Hall (CmpModRevision key (from_option ek_ModRevision 0 (etcd_view w0 !! key)))), list_elem_of_In, list_elem_of_lookup. exists i.
      unfold moved in Hi. rewrite lookup_zip_with, Hi. cbn. rewrite list_lookup_fmap. apply lookup_take_Some in Hi as [Hi _]. by rewrite Hi.
    - intros Hall c Hc%list_elem_of_In%list_elem_of_lookup. destruct Hc as [i Hi]. rewrite lookup_zip_with in Hi.
      destruct (take _ backups !! i) as [key|] eqn:Hk; [|done]. cbn in Hi. rewrite list_lookup_fmap in Hi.
      pose proof Hk as [Hk' _]%lookup_take_Some. rewrite Hk' in Hi. injection Hi as <-. cbn. apply Z.eqb_eq, Hall. by eapply list_elem_of_lookup_2. }
  assert (NoDup moved) as Hnd.
  { pose proof (hint_keys_NoDup _ _ Hn Hb) as [_ Hnd]%NoDup_cons. rewrite <- (take_drop (S (length vs)) backups) in Hnd. by apply NoDup_app in Hnd as [? _]. }
  change (S (length vs)) with (length (val :: vs)) in moved. unfold moved in Hnd |- *. rewrite <- put_keys in Hnd |- *.
  destruct (Succeeded txn).
  - left. split; [by apply Hiff|]. rewrite Hv. split.
    + intros i key v Hk Hi. eapply (etcd_puts _ _ _ i _ _ 0); [done|]. by rewrite lookup_zip_with, Hk; cbn; rewrite Hi.
    + intros key Hk. by apply etcd_writes_other.
  - right. split; [|done]. intros Hin. by apply Hiff in Hin.
Qed.

(** Hints that a primary records are those that the next recovery plays. If [storeRecordedHints] reports no error while the assignment of the primary is
    in effect, a fetch of the hints which does not fail of the backups picks exactly what was recorded, given that JSON restores hints and that they are
    hints of the shard's recovery log which an FSM can follow. *)
Theorem recorded_hints_fetched (w w' : W) asn_Key rev spec hints val fsm :
  storeRecordedHints json_Marshal w asn_Key rev spec hints = (w', None) →
  from_option ek_CreateRevision 0 (etcd_view w !! asn_Key) = rev →
  json_Marshal hints = inl val → json_Unmarshal val = inl hints → NewFSM hints = Ret (inl fsm) → hi_Log hints = RecoveryLog spec →
  ∀ res, fetchHints json_Unmarshal w' None spec = Ret res →
  match res with
  | inl h => pickFirstHints h = hints
  | inr err => ∃ backups, HintBackupKeys spec = Ret backups ∧
      decode_responses json_Unmarshal spec ((λ key, etcd_view w' !! key) <$> backups) = Ret (inr err)
  end.
Proof.
  intros Hst Hrev Hm Hu Hfsm Hlog res. unfold storeRecordedHints in Hst. rewrite Hm in Hst.
  destruct (etcd_Txn w _ _) as [w1 [txn|e]] eqn:Ht; [|done]. injection Hst as ->. apply etcd_atomic in Ht as [Hs Hv].
  cbn in Hs. rewrite Hrev, Z.eqb_refl in Hs. cbn in Hs. rewrite Hs in Hv. cbn in Hv.
  assert (∃ kv, etcd_view w' !! HintPrimaryKey spec = Some kv ∧ ek_Value kv = val) as (kv & Hk & Hval)
    by (rewrite Hv, lookup_insert_eq; by eexists).
  unfold fetchHints. destruct (HintBackupKeys spec) as [backups|]; [cbn [outcome_bind]|done]. rewrite fmap_cons, Hk.
  cbn [decode_responses]. unfold decode_hints at 1. rewrite Hval, Hu, Hfsm. cbn [outcome_bind]. rewrite Hlog, String.eqb_refl. cbn [negb outcome_bind].
  destruct (decode_responses _ _ _) as [[hs|err]|] eqn:Hd; cbn [outcome_bind]; intros [= <-]; [done|]. by exists backups.
Qed.
End hints_properties.

(** ** Combining specifications *)

(** What is taken from a specification because others share it is given back: [b] is what [a] and [c] share. *)
Theorem shard_specs_restored (a c : ShardSpec) :
  LabelSet_ok (ss_LabelSet a) → LabelSet_ok (ss_LabelSet c) →
  let b := IntersectShardSpecs a c in UnionShardSpecs (SubtractShardSpecs a b) b = a.
Proof.
  intros Ha Hc b. destruct (IntersectLabelSets_spec _ _ Ha Hc) as [Hb Hvb].
  destruct (SubtractLabelSet_spec _ _ Ha Hb) as [Hs Hvs]. destruct (UnionLabelSets_spec _ _ Hs Hb) as [Hu Hvu].
  assert (ss_LabelSet (UnionShardSpecs (SubtractShardSpecs a b) b) = ss_LabelSet a) as Hl.
  { apply LabelSet_ext; [done..|]. intros n. unfold b. cbn [ss_LabelSet UnionShardSpecs SubtractShardSpecs IntersectShardSpecs]. rewrite Hvu, Hvs, Hvb. repeat case_bool_decide; naive_solver congruence. }
  destruct a as [id src log pre bk mx mn dis hs ls], c as [id' src' log' pre' bk' mx' mn' dis' hs' ls'].
  unfold UnionShardSpecs, SubtractShardSpecs in *. subst b. cbn in *. rewrite Hl. clear.
  assert (∀ x y : Z, let z := if negb (x =? y) then 0 else x in (if (if x =? z then 0 else x) =? 0 then z else if x =? z then 0 else x) = x) as Hz.
  { intros x y z. subst z. destruct (Z.eqb_spec x y); cbn; [by rewrite Z.eqb_refl|]. destruct (Z.eqb_spec x 0); [by subst|].
    by rewrite (proj2 (Z.eqb_neq x 0)). }
  assert (∀ x y : string, let z := if negb (String.eqb x y) then "" else x in
    (if String.eqb (if String.eqb x z then "" else x) "" then z else if String.eqb x z then "" else x)%string = x) as Hstr.
  { intros x y z. subst z. destruct (String.eqb_spec x y); cbn; [by rewrite String.eqb_refl|]. destruct (String.eqb_spec x ""); [by subst|].
    by rewrite (proj2 (String.eqb_neq x "")). }
  rewrite !Hz, !Hstr. f_equal.
  - unfold sourcesEq. destruct (bool_decide_reflect (src = src')); cbn; case_bool_decide; try done. by destruct src.
  - by destruct dis, dis'.
Qed.

(** ** Statuses *)

Lemma Reduce_code m o : code_number (rs_Code (Reduce m o)) = Z.max (code_number (rs_Code m)) (code_number (rs_Code o)).
Proof. unfold Reduce. cbn. destruct (Z.ltb_spec (code_number (rs_Code m)) (code_number (rs_Code o))); cbn; lia. Qed.

Lemma Reduce_valid m o : ReplicaStatus_Validate m = None → ReplicaStatus_Validate o = None → ReplicaStatus_Validate (Reduce m o) = None.
Proof. destruct m as [[] [|]], o as [[] [|]]; done. Qed.

(** At each attempt, what the key space decoded of the assignment is what Etcd held under its key at its revision. *)
Fixpoint coherent {W} `{Etcd W} (MarshalString : ReplicaStatus → string) (key : string) (w : W) (attempts : list attempt) (status : ReplicaStatus) : Prop :=
  match attempts with
  | [] | TryCancelled :: _ => True
  | TryUpdate others asn :: attempts =>
      an_Key asn = key ∧ 0 < an_ModRevision asn ∧
      (∀ kv, etcd_view (others w) !! key = Some kv → ek_ModRevision kv = an_ModRevision asn → ek_Value kv = MarshalString (an_Status asn)) ∧
      coherent MarshalString key (fst (updateStatus MarshalString (others w) asn status)) attempts status
  end.

(** An attempt that puts the status. *)
Lemma updateStatus_succeeds `{EtcdLaws W} (MarshalString : ReplicaStatus → string) (w w' : W) asn status :
  0 < an_ModRevision asn → updateStatus MarshalString w asn status = (w', None) →
  (∃ kv, etcd_view w !! an_Key asn = Some kv ∧ ek_ModRevision kv = an_ModRevision asn) ∧
  slot_value (etcd_view w' !! an_Key asn) = Some (MarshalString (Reduce status (an_Status asn))) ∧
  ∀ k, k ≠ an_Key asn → etcd_view w' !! k = etcd_view w !! k.
Proof.
  intros Hpos. unfold updateStatus. destruct (etcd_Txn w _ _) as [w1 [txn|e]] eqn:Ht; [|done].
  destruct (Succeeded txn) eqn:Hsucc; cbn [negb]; [|done]. intros [= <-]. apply etcd_atomic in Ht as [Hs Hv].
  rewrite Hsucc in Hs, Hv. cbn in Hs, Hv. symmetry in Hs. rewrite andb_true_r in Hs. apply Z.eqb_eq in Hs.
  destruct (etcd_view w !! an_Key asn) as [kv|] eqn:Hk; cbn in Hs; [|lia]. split; [by exists kv|]. rewrite Hv. split.
  - by rewrite lookup_insert_eq.
  - intros k Hne. by rewrite lookup_insert_ne.
Qed.

(** C29: The status of a replica only advances. Let others write in between, over however many attempts, each of which has decoded of the assignment what Etcd held
    at its revision. If an update of a status succeeds it does so in one transaction, after attempts that failed: just before it, the key held the status that was decoded, and
    just after it that status reduced into the new one, whose code is the greater of the two, which has the errors of both, and which is valid if
    they are; and no other key changed with it. If it does not succeed then it was cancelled, after attempts that failed, or all of its attempts failed so far. *)
Theorem status_advances `{EtcdLaws W} (MarshalString : ReplicaStatus → string) (key : string) (status : ReplicaStatus) (attempts : list attempt) (w w' : W) ok :
  coherent MarshalString key w attempts status → tryUpdateStatus MarshalString w attempts status = (w', ok) →
  if ok : bool then
    ∃ failed others asn rest w0, attempts = failed ++ TryUpdate others asn :: rest ∧ TryCancelled ∉ failed ∧ tryUpdateStatus MarshalString w failed status = (w0, false) ∧
      let w1 := others w0 in let old := an_Status asn in let new := Reduce status old in
      updateStatus MarshalString w1 asn status = (w', None) ∧
      slot_value (etcd_view w1 !! key) = Some (MarshalString old) ∧ slot_value (etcd_view w' !! key) = Some (MarshalString new) ∧
      (∀ k, k ≠ key → etcd_view w' !! k = etcd_view w1 !! k) ∧
      code_number (rs_Code new) = Z.max (code_number (rs_Code status)) (code_number (rs_Code old)) ∧ rs_Errors new = rs_Errors status ++ rs_Errors old ∧
      (ReplicaStatus_Validate status = None → ReplicaStatus_Validate old = None → ReplicaStatus_Validate new = None)
  else
    ∃ failed rest, attempts = failed ++ rest ∧ TryCancelled ∉ failed ∧ tryUpdateStatus MarshalString w failed status = (w', false) ∧
      (rest = [] ∨ ∃ rest', rest = TryCancelled :: rest').
Proof.
  revert w. induction attempts as [|[|others asn] attempts IH]; intros w Hc; cbn [tryUpdateStatus].
  - intros [= <- <-]. exists [], []. split_and!; [done|by intros ?%elem_of_nil|done|by left].
  - intros [= <- <-]. exists [], (TryCancelled :: attempts). split_and!; [done|by intros ?%elem_of_nil|done|right; by eexists].
  - cbn [coherent] in Hc. destruct Hc as (Hkey & Hpos & Hco & Hc). destruct (updateStatus MarshalString (others w) asn status) as [w1 [e|]] eqn:Hu.
    + intros Hrun. specialize (IH w1 Hc Hrun). destruct ok.
      * destruct IH as (failed & o & a & rest & w0 & -> & Hnc & Hf & Hrest). exists (TryUpdate others asn :: failed), o, a, rest, w0.
        split; [done|]. split; [by intros [[=]|?]%elem_of_cons|]. split; [by cbn [tryUpdateStatus]; rewrite Hu|done].
      * destruct IH as (failed & rest & -> & Hnc & Hf & Hrest). exists (TryUpdate others asn :: failed), rest.
        split; [done|]. split; [by intros [[=]|?]%elem_of_cons|]. split; [by cbn [tryUpdateStatus]; rewrite Hu|done].
    + intros [= <- <-]. exists [], others, asn, attempts, w. split; [done|]. split; [by intros ?%elem_of_nil|]. split; [done|]. cbn zeta.
      destruct (updateStatus_succeeds _ _ _ _ _ Hpos Hu) as ((kv & Hk & Hrev) & Hnew & Hframe). rewrite Hkey in *.
      split_and!; [done|rewrite Hk; cbn; f_equal; by apply Hco|done..|apply Reduce_code|done|apply Reduce_valid].
Qed.

(** ** Concrete inputs *)

Module ShardKV.
Definition store : Type := gmap string etcd_kv * Z.

#[export] Instance etcd : Etcd store := {|
  etcd_view := fst;
  etcd_Txn w cmps ops :=
    if forallb (cmp_holds (fst w)) cmps then ((foldl (etcd_write (snd w + 1)) (fst w) ops, snd w + 1), inl (mkTxnResponse true (snd w + 1)))
    else (w, inl (mkTxnResponse false (snd w)));
|}.

#[export] Instance laws : EtcdLaws store.
Proof. split. intros w cmps ops w' txn. cbn. destruct (forallb _ _); by intros [= <- <-]. Qed.

Definition spec : ShardSpec := mkShardSpec "shard" [mkSource "a/journal" 0] "logs" "/hints" 3 10 1 false 1 [].
(** Hints are told apart by their log, which is all that they have. *)
Definition marshal (h : FSMHints) : string + string := inl (hi_Log h).
Definition unmarshal (s : string) : FSMHints + string := inl (mkHints s [] []).
Definition hints : FSMHints := mkHints "logs/shard" [] [].
Definition start : store :=
  (<["/assign" := mkEtcdKV "status" 5 6]> (<["/hints/shard.backup.0" := mkEtcdKV "logs/shard" 3 3]> ∅), 9).
Definition status_of (s : ReplicaStatus) : string := Itoa (code_number (rs_Code s)).
End ShardKV.
Import (hints) ShardKV.

Example spec_valid : ShardSpec_Validate ShardKV.spec = None.
Proof. vm_compute. reflexivity. Qed.

(** A hint prefix that is a directory is valid, if it is the root, although the prefix is to be a non-directory path: [path.Base] is never empty. *)
Theorem root_HintPrefix_valid :
  ShardSpec_Validate (mkShardSpec "shard" [mkSource "a/journal" 0] "logs" "/" 3 10 1 false 1 []) = None.
Proof. vm_compute. reflexivity. Qed.

(** If the assignment is not in effect, as its create revision is 5 and not 4, then recovered hints are not stored, and no error tells. *)
Theorem lost_assignment_is_silent :
  storeRecoveredHints ShardKV.marshal ShardKV.unmarshal ShardKV.start ShardKV.start None "/assign" 4 ShardKV.spec ShardKV.hints =
  Ret (ShardKV.start, None).
Proof. vm_compute. reflexivity. Qed.

Lemma recovered_hints_rotate_witness : ∃ w',
  storeRecoveredHints ShardKV.marshal ShardKV.unmarshal ShardKV.start ShardKV.start None "/assign" 5 ShardKV.spec ShardKV.hints = Ret (w', None) ∧
  etcd_view w' !! "/assign" = etcd_view ShardKV.start !! "/assign" ∧ slot_value (etcd_view w' !! "/hints/shard.backup.1") = Some "logs/shard".
Proof.
  assert (∃ w', storeRecoveredHints ShardKV.marshal ShardKV.unmarshal ShardKV.start ShardKV.start None "/assign" 5 ShardKV.spec ShardKV.hints =
    Ret (w', None)) as [w' Hw] by (eexists; vm_compute; reflexivity).
  exists w'. split; [exact Hw|].
  destruct (recovered_hints_rotate ShardKV.marshal ShardKV.unmarshal ShardKV.start ShardKV.start w' None "/assign" 5 ShardKV.spec ShardKV.hints
    "logs/shard" ["/hints/shard.backup.0"; "/hints/shard.backup.1"; "/hints/shard.backup.2"] ["logs/shard"] [None; None])
    as [(_ & Hmoved & Hkept)|[Hne _]].
  - reflexivity.
  - split; vm_compute; discriminate.
  - reflexivity.
  - vm_compute. reflexivity.
  - right. reflexivity.
  - exact Hw.
  - split; [apply Hkept; vm_compute; set_solver|]. apply (Hmoved 1%nat); reflexivity.
  - destruct Hne. split; [vm_compute; reflexivity|done].
Defined.

Lemma recorded_hints_fetched_witness : ∃ w' h,
  storeRecordedHints ShardKV.marshal ShardKV.start "/assign" 5 ShardKV.spec ShardKV.hints = (w', None) ∧
  fetchHints ShardKV.unmarshal w' None ShardKV.spec = Ret (inl h) ∧ pickFirstHints h = ShardKV.hints.
Proof.
  assert (∃ w', storeRecordedHints ShardKV.marshal ShardKV.start "/assign" 5 ShardKV.spec ShardKV.hints = (w', None) ∧
    ∃ h, fetchHints ShardKV.unmarshal w' None ShardKV.spec = Ret (inl h)) as (w' & Hw & h & Hf) by (eexists; split; [|eexists]; vm_compute; reflexivity).
  exists w', h. split; [exact Hw|]. split; [exact Hf|].
  exact (recorded_hints_fetched ShardKV.marshal ShardKV.unmarshal ShardKV.start w' "/assign" 5 ShardKV.spec ShardKV.hints "logs/shard"
    (FSM_empty "logs/shard") Hw eq_refl eq_refl eq_refl ltac:(vm_compute; reflexivity) eq_refl _ Hf).
Defined.

(** A stale attempt, and then one that observed the status. *)
Definition some_attempts : list attempt :=
  [TryUpdate (λ w : ShardKV.store, w) (mkAssigned "/assign" 4 (mkReplicaStatus IDLE [])); TryUpdate (λ w, w) (mkAssigned "/assign" 6 (mkReplicaStatus BACKFILL []))].

Lemma status_advances_witness : ∃ w' new,
  tryUpdateStatus ShardKV.status_of (<["/assign" := mkEtcdKV "100" 5 6]> ∅, 9) some_attempts (mkReplicaStatus TAILING []) = (w', true) ∧
  slot_value (etcd_view w' !! "/assign") = Some (ShardKV.status_of new) ∧ 200 <= code_number (rs_Code new).
Proof.
  assert (∃ w', tryUpdateStatus ShardKV.status_of (<["/assign" := mkEtcdKV "100" 5 6]> ∅, 9) some_attempts (mkReplicaStatus TAILING []) = (w', true))
    as [w' Hw] by (eexists; vm_compute; reflexivity).
  assert (coherent ShardKV.status_of "/assign" (<["/assign" := mkEtcdKV "100" 5 6]> ∅, 9) some_attempts (mkReplicaStatus TAILING [])) as Hc.
  { unfold some_attempts. cbn [coherent]. split_and!; [reflexivity|reflexivity| |reflexivity|reflexivity| |exact I]; intros kv Hkv Hrev; vm_compute in Hkv; injection Hkv as <-; [discriminate Hrev|].
    vm_compute. reflexivity. }
  destruct (status_advances _ _ _ _ _ _ _ Hc Hw) as (failed & others & asn & rest & w0 & _ & _ & _ & _ & _ & Hn & _ & Hcode & _).
  exists w', (Reduce (mkReplicaStatus TAILING []) (an_Status asn)). split; [exact Hw|]. split; [exact Hn|]. rewrite Hcode. cbn. lia.
Defined.
