(* ===== verification/ShardReplica.v ===== *)
(** * Replicas of shards (src/v2/pkg/consumer/replica.go, resolver.go)

    The resolver of a consumer holds a [Replica] of every shard that is assigned to this process. At each update of the key space it makes the replicas
    of newly assigned shards, passes to each its specification and assignment, and cancels those of shards that are no longer assigned. A transition starts the
    services of a replica: to recover and tail its log, and to serve as primary. The theorems: the replicas are those of the assigned shards, each recovers once,
    and serves as primary once if it is not demoted in place; and what happens if it is. *)
From S2P Require Import Prelude Protocol KeySpace AllocKeys AllocState Shards.
Local Open Scope Z_scope.

(** ** Replicas *)

(** What [transition] starts, in goroutines. *)
Inductive service := ServeStandby | ServePrimary.

#[global] Instance service_eq_dec : EqDecision service.
Proof. solve_decision. Defined.

Section replicas.
Context {MV : Type}.

Abbreviation SKV := (KeyValue (Entity MV ShardSpec ReplicaStatus)).
Abbreviation SItem := (LocalItem MV ShardSpec ReplicaStatus).

(** Its specification and assignment are unset at first. *)
Record Replica := mkReplica { rp_spec : option ShardSpec; rp_assignment : option SKV; rp_started : list service }.

Definition NewReplica : Replica := mkReplica None None [].

Definition asn_Slot (assignment : SKV) : outcome Z :=
  match Decoded assignment with EntityAssignment a => Ret (as_Slot a) | _ => Panic "interface conversion" end.

Definition transition (r : Replica) (spec : ShardSpec) (assignment : SKV) : outcome Replica :=
  let! slot := asn_Slot assignment in
  let isSlot0 := slot =? 0 in
  let! wasSlot0 :=
    match rp_spec r with
    | None => Ret false
    | Some _ =>
        match rp_assignment r with
        | None => Panic "interface conversion"
        | Some assignment => let! slot := asn_Slot assignment in Ret (slot =? 0)
        end
    end in
  let started :=
    match rp_spec r with
    | None => if negb isSlot0 then [ServeStandby] else [ServeStandby; ServePrimary]
    | Some _ => if isSlot0 && negb wasSlot0 then [ServePrimary] else []
    end in
  Ret (mkReplica (Some spec) (Some assignment) (rp_started r ++ started)).

(** ** The resolver *)

(** [sr_wg] counts the replicas that were made and are not torn down; [sr_cancelled] are those that were cancelled, whose tear down is awaited. *)
Record ShardResolver := mkShardResolver { sr_replicas : gmap string Replica; sr_wg : nat; sr_cancelled : list Replica }.

Definition NewResolver : ShardResolver := mkShardResolver ∅ 0 [].

(** One local item: the replicas that are left, the next ones, and the count. *)
Definition update_item (acc : gmap string Replica * gmap string Replica * nat) (li : SItem) : outcome (gmap string Replica * gmap string Replica * nat) :=
  let '(prev, next, wg) := acc in
  match Decoded (li_Item li), li_Assignments li !! li_Index li with
  | EntityItem item, Some assignment =>
      let id := it_ID item in
      let '(prev, wg, replica) :=
        match prev !! id with
        | None => (prev, S wg, NewReplica)
        | Some replica => (delete id prev, wg, replica)
        end in
      let! replica := transition replica (it_Value item) assignment in
      Ret (prev, <[id := replica]> next, wg)
  | EntityItem _, None => Panic "index out of range"
  | _, _ => Panic "interface conversion"
  end.

Definition cancelReplicas (r : ShardResolver) (m : gmap string Replica) : ShardResolver :=
  mkShardResolver (sr_replicas r) (sr_wg r) (sr_cancelled r ++ (map_to_list m).*2).

Definition updateResolutions (r : ShardResolver) (items : list SItem) : outcome ShardResolver :=
  let! (prev, next, wg) := outcome_fold update_item (sr_replicas r, ∅, sr_wg r) items in
  Ret (cancelReplicas (mkShardResolver next wg (sr_cancelled r)) prev).

(** The updates of the key space, each with the local items of its state. *)
Definition run (r : ShardResolver) (updates : list (list SItem)) : outcome ShardResolver := outcome_fold updateResolutions r updates.

(** When [watch] ends. *)
Definition watch_done (r : ShardResolver) : ShardResolver := cancelReplicas r (sr_replicas r).

(** ** Local items *)

(** A shard's specification and assignment to this process, as an update observes it. *)
Record assigned_shard := mkAssignedShard { ah_spec : ShardSpec; ah_assignment : SKV; ah_slot : Z }.

Definition shard_of (li : SItem) : option (string * assigned_shard) :=
  match Decoded (li_Item li), li_Assignments li !! li_Index li with
  | EntityItem item, Some assignment =>
      match Decoded assignment with
      | EntityAssignment a => Some (it_ID item, mkAssignedShard (it_Value item) assignment (as_Slot a))
      | _ => None
      end
  | _, _ => None
  end.

(** The items are of shards, each with an assignment, and each of another shard. *)
Definition items_ok (items : list SItem) : Prop := Forall (λ li, is_Some (shard_of li)) items ∧ NoDup (fst <$> omap shard_of items).

Definition shards (items : list SItem) : gmap string assigned_shard := list_to_map (omap shard_of items).

(** The slot of a replica's assignment. *)
Definition rp_slot (r : Replica) : option Z :=
  match rp_assignment r with Some kv => match asn_Slot kv with Ret slot => Some slot | Panic _ => None end | None => None end.

(** A replica that was given a shard. *)
Definition given (old : option Replica) (s : assigned_shard) : Replica :=
  mkReplica (Some (ah_spec s)) (Some (ah_assignment s))
    match old with
    | None => if ah_slot s =? 0 then [ServeStandby; ServePrimary] else [ServeStandby]
    | Some r => rp_started r ++
        (if (ah_slot s =? 0) && negb (bool_decide (rp_slot r = Some 0)) then [ServePrimary] else [])
    end.

(** A replica that was given its assignment, which can be decoded. *)
Definition replica_ok (r : Replica) : Prop := is_Some (rp_spec r) ∧ ∃ kv slot, rp_assignment r = Some kv ∧ asn_Slot kv = Ret slot.

Lemma transition_new id s li : shard_of li = Some (id, s) → transition NewReplica (ah_spec s) (ah_assignment s) = Ret (given None s).
Proof.
  unfold shard_of. destruct (Decoded (li_Item li)), (li_Assignments li !! li_Index li) as [kv|]; try done.
  destruct (Decoded kv) eqn:Hd; try done. intros [= <- <-]. unfold transition, given, asn_Slot. cbn. rewrite Hd. cbn. by destruct (_ =? 0).
Qed.

Lemma transition_given id s li r : shard_of li = Some (id, s) → replica_ok r → transition r (ah_spec s) (ah_assignment s) = Ret (given (Some r) s).
Proof.
  unfold shard_of. destruct (Decoded (li_Item li)), (li_Assignments li !! li_Index li) as [kv|]; try done.
  destruct (Decoded kv) eqn:Hd; try done. intros [= <- <-] ([sp Hsp] & kv' & slot & Ha & Hs). unfold transition, given. cbn.
  unfold rp_slot. rewrite Hsp, Ha, Hs. unfold asn_Slot. rewrite Hd. cbn. do 3 f_equal. by destruct (Z.eqb_spec slot 0); case_bool_decide; simplify_eq.
Qed.

Lemma given_ok id s li old : shard_of li = Some (id, s) → replica_ok (given old s).
Proof.
  unfold shard_of. destruct (Decoded (li_Item li)), (li_Assignments li !! li_Index li) as [kv|]; try done.
  destruct (Decoded kv) eqn:Hd; try done. intros [= <- <-]. split; [by eexists|]. unfold asn_Slot. cbn. eexists _, _. split; [done|]. by rewrite Hd.
Qed.

Definition replicas_ok (m : gmap string Replica) : Prop := map_Forall (λ _ r, replica_ok r) m.

Lemma update_shard_spec prev next wg li id s :
  shard_of li = Some (id, s) → replicas_ok prev →
  update_item (prev, next, wg) li =
    Ret (delete id prev, <[id := given (prev !! id) s]> next, match prev !! id with None => S wg | Some _ => wg end).
Proof.
  intros Hs Hok. pose proof Hs as Hs'. unfold shard_of in Hs'. unfold update_item.
  destruct (Decoded (li_Item li)) as [|item|]; try done. destruct (li_Assignments li !! li_Index li) as [kv|]; [|done].
  destruct (Decoded kv) as [| |a] eqn:Hd; try done. injection Hs' as Hid Heq.
  assert (it_Value item = ah_spec s ∧ kv = ah_assignment s) as [-> ->] by by subst s. rewrite Hid.
  destruct (prev !! id) as [r|] eqn:Hp.
  - rewrite (transition_given _ _ _ _ Hs (Hok _ _ Hp)). done.
  - rewrite (transition_new _ _ _ Hs). cbn [outcome_bind]. by rewrite delete_id.
Qed.

Record updated (prev next : gmap string Replica) (wg : nat) (l : list (string * assigned_shard)) (prev' next' : gmap string Replica) (wg' : nat) : Prop := {
  up_left id : prev' !! id = if decide (id ∈ fst <$> l) then None else prev !! id;
  up_given id s : (id, s) ∈ l → next' !! id = Some (given (prev !! id) s);
  up_other id : id ∉ fst <$> l → next' !! id = next !! id;
  up_count : (wg' + size prev + size next = wg + size prev' + size next')%nat;
}.

Lemma update_shards_spec items : ∀ prev next wg,
  items_ok items → replicas_ok prev → (∀ id, id ∈ fst <$> omap shard_of items → next !! id = None) →
  ∃ prev' next' wg', outcome_fold update_item (prev, next, wg) items = Ret (prev', next', wg') ∧
    updated prev next wg (omap shard_of items) prev' next' wg'.
Proof.
  induction items as [|li items IH]; intros prev next wg [Hli Hnd] Hok Hnone.
  { exists prev, next, wg. split; [done|]. split; [intros id; by rewrite decide_False by apply not_elem_of_nil|by intros id s ?%elem_of_nil|done..]. }
  apply Forall_cons in Hli as [[[id s] Hs] Hli]. cbn [omap list_omap] in *. rewrite Hs in *. cbn [fmap list_fmap fst] in *.
  apply NoDup_cons in Hnd as [Hni Hnd]. cbn [outcome_fold]. rewrite (update_shard_spec _ _ _ _ _ _ Hs Hok). cbn [outcome_bind].
  destruct (IH (delete id prev) (<[id := given (prev !! id) s]> next) (match prev !! id with None => S wg | Some _ => wg end))
    as (prev' & next' & wg' & Hf & [U1 U2 U3 U4]); [done|by apply map_Forall_delete| |].
  { intros j Hj. rewrite lookup_insert_ne by congruence. apply Hnone. by right. }
  exists prev', next', wg'. split; [done|]. split.
  - intros j. rewrite U1. cbn. destruct (decide (j = id)) as [-> |Hne].
    + rewrite decide_False by done. rewrite decide_True by by left. by rewrite lookup_delete_eq.
    + rewrite lookup_delete_ne by done. repeat case_decide; rewrite ?elem_of_cons in *; tauto.
  - intros j s'. rewrite elem_of_cons. intros [[= -> ->]|Hin]; [by rewrite U3, lookup_insert_eq by done|].
    assert (j ≠ id) by (intros ->; by apply Hni, (list_elem_of_fmap_2 fst _ (id, s'))).
    rewrite (U2 _ _ Hin). by rewrite lookup_delete_ne.
  - intros j Hj. cbn in Hj. apply not_elem_of_cons in Hj as [Hne Hj]. rewrite U3 by done. by rewrite lookup_insert_ne.
  - rewrite (map_size_insert_None (M:=gmap string)) in U4 by (apply Hnone; by left).
    destruct (prev !! id) eqn:Hp; [rewrite (map_size_delete_Some (M:=gmap string)) in U4 by done|rewrite (delete_id prev id Hp) in U4; lia].
    assert (size prev ≠ 0%nat) by (intros ->%map_size_empty_iff; done). lia.
Qed.

(** What an update of the key space does to a resolver. *)
Lemma updateResolutions_step r items :
  items_ok items → replicas_ok (sr_replicas r) →
  ∃ r' (prev : gmap string Replica), updateResolutions r items = Ret r' ∧
    (∀ id, sr_replicas r' !! id = given (sr_replicas r !! id) <$> shards items !! id) ∧
    (∀ id, prev !! id = match shards items !! id with Some _ => None | None => sr_replicas r !! id end) ∧
    sr_cancelled r' = sr_cancelled r ++ (map_to_list prev).*2 ∧
    (sr_wg r' + size (sr_replicas r) = sr_wg r + size prev + size (sr_replicas r'))%nat.
Proof.
  intros Hi Hok. unfold updateResolutions.
  destruct (update_shards_spec items (sr_replicas r) ∅ (sr_wg r) Hi Hok) as (prev & next & wg & Hf & [U1 U2 U3 U4]); [done|].
  rewrite Hf. cbn [outcome_bind]. eexists _, prev. split; [done|]. unfold cancelReplicas. cbn [sr_replicas sr_wg sr_cancelled].
  destruct Hi as [_ Hnd]. unfold shards.
  assert (∀ id, match (list_to_map (omap shard_of items) : gmap string assigned_shard) !! id with Some s => (id, s) ∈ omap shard_of items
    | None => id ∉ fst <$> omap shard_of items end) as Hsh.
  { intros id. destruct (_ !! id) as [s|] eqn:Hs; [by apply elem_of_list_to_map_2|by apply not_elem_of_list_to_map_2]. }
  split_and!.
  - intros id. specialize (Hsh id). destruct (_ !! id) as [s|]; cbn; [by apply U2|by rewrite U3].
  - intros id. specialize (Hsh id). rewrite U1. destruct (_ !! id) as [s|]; [|by rewrite decide_False].
    by rewrite decide_True by by apply (list_elem_of_fmap_2 fst _ (id, s)).
  - done.
  - rewrite map_size_empty in U4. lia.
Qed.

Lemma shards_slot items id s : items_ok items → shards items !! id = Some s → asn_Slot (ah_assignment s) = Ret (ah_slot s).
Proof.
  intros _ (li & _ & Hli)%elem_of_list_to_map_2%list_elem_of_omap. unfold shard_of in Hli.
  destruct (Decoded (li_Item li)), (li_Assignments li !! li_Index li) as [kv|]; try done.
  destruct (Decoded kv) eqn:Hd; try done. injection Hli as <- <-. unfold asn_Slot. cbn. by rewrite Hd.
Qed.

Lemma given_slot items id s old : items_ok items → shards items !! id = Some s → rp_slot (given old s) = Some (ah_slot s).
Proof. intros Hi Hs. unfold rp_slot. cbn. by rewrite (shards_slot items id). Qed.

Lemma given_is_ok items id s old : items_ok items → shards items !! id = Some s → replica_ok (given old s).
Proof. intros Hi Hs. split; [by eexists|]. cbn. eexists _, _. split; [done|]. by apply (shards_slot items id). Qed.

(** A replica has its shard. *)
Definition follows (s : assigned_shard) (rep : Replica) : Prop := rp_spec rep = Some (ah_spec s) ∧ rp_assignment rep = Some (ah_assignment s).

(** The replicas of a resolver are those of the shards, and all that were made are among them or cancelled, which is what is counted. *)
Record resolver_ok (P : Replica → Prop) (items : list SItem) (r : ShardResolver) : Prop := {
  ro_items : items_ok items;
  ro_replicas id : match shards items !! id with
                   | Some s => ∃ rep, sr_replicas r !! id = Some rep ∧ follows s rep ∧ P rep
                   | None => sr_replicas r !! id = None
                   end;
  ro_cancelled : Forall P (sr_cancelled r);
  ro_count : sr_wg r = (size (sr_replicas r) + length (sr_cancelled r))%nat;
}.

(** Consecutive updates are related. *)
Fixpoint linked (R : list SItem → list SItem → Prop) (items : list SItem) (updates : list (list SItem)) : Prop :=
  match updates with [] => True | items' :: updates => R items items' ∧ linked R items' updates end.

Section induction.
Context (P : Replica → Prop) (R : list SItem → list SItem → Prop).
Context (P_new : ∀ items id s, items_ok items → shards items !! id = Some s → P (given None s)).
Context (P_given : ∀ items items' id s s' rep, R items items' → items_ok items → items_ok items' →
  shards items !! id = Some s → shards items' !! id = Some s' → follows s rep → P rep → P (given (Some rep) s')).

Lemma update_ok items items' r : R items items' → items_ok items' → resolver_ok P items r → ∃ r', updateResolutions r items' = Ret r' ∧ resolver_ok P items' r'.
Proof.
  intros HR Hi' [Hi Hr Hc Hn].
  destruct (updateResolutions_step r items' Hi') as (r' & prev & Hu & U1 & U2 & U3 & U4).
  { intros id rep Hrep. specialize (Hr id). destruct (shards items !! id) as [s|] eqn:Hs; [|congruence].
    destruct Hr as (rep' & Hrep' & [Hsp Ha] & _). assert (rep' = rep) as -> by congruence. split; [by eexists|]. eexists _, _. split; [done|].
    by apply (shards_slot items id). }
  exists r'. split; [done|]. split; [done| | |].
  - intros id. rewrite U1. specialize (Hr id). destruct (shards items' !! id) as [s'|] eqn:Hs'; cbn; [|done].
    eexists. split; [done|]. split; [done|]. destruct (shards items !! id) as [s|] eqn:Hs; [|rewrite Hr; by eapply (P_new items')].
    destruct Hr as (rep & -> & Hf & HP). by eapply (P_given items items' id s).
  - rewrite U3. apply Forall_app. split; [done|]. apply Forall_forall. intros rep ([id rep'] & -> & Hin)%list_elem_of_fmap. apply elem_of_map_to_list in Hin.
    rewrite U2 in Hin. specialize (Hr id). destruct (shards items' !! id); [done|]. cbn.
    destruct (shards items !! id); [|congruence]. destruct Hr as (rep & Hrep & _ & HP). congruence.
  - rewrite U3, length_app, length_fmap. rewrite <- map_size_list_to_map, list_to_map_to_list by apply NoDup_fst_map_to_list. lia.
Qed.

Lemma run_ok updates : ∀ items r, Forall items_ok updates → linked R items updates → resolver_ok P items r →
  ∃ r', run r updates = Ret r' ∧ resolver_ok P (default items (last updates)) r'.
Proof.
  induction updates as [|items' updates IH]; intros items r Hok Hl Hr; [by exists r|].
  apply Forall_cons in Hok as [Hi Hok]. destruct Hl as [HR Hl]. destruct (update_ok _ _ _ HR Hi Hr) as (r1 & Hu & Hr1).
  destruct (IH items' r1 Hok Hl Hr1) as (r' & Hrun & Hr'). exists r'. unfold run in *. cbn [outcome_fold]. rewrite Hu. cbn [outcome_bind]. split; [done|].
  revert Hr'. rewrite last_cons. by destruct (last updates).
Qed.
End induction.

(** *** What replicas start *)

(** A replica recovers once, and was started as primary if it is one. *)
Definition recovers_once (rep : Replica) : Prop :=
  ∃ n, rp_started rep = ServeStandby :: replicate n ServePrimary ∧ (rp_slot rep = Some 0 → n ≠ 0%nat).

(** And once. *)
Definition serves_once (rep : Replica) : Prop := rp_started rep = ServeStandby :: (if bool_decide (rp_slot rep = Some 0) then [ServePrimary] else []).

(** A shard whose primary this process is, and which it is still assigned at the next update, is not demoted. *)
Definition not_demoted (items items' : list SItem) : Prop :=
  ∀ id s s', shards items !! id = Some s → shards items' !! id = Some s' → ah_slot s = 0 → ah_slot s' = 0.

Lemma recovers_new items id s : items_ok items → shards items !! id = Some s → recovers_once (given None s).
Proof.
  intros Hi Hs. unfold recovers_once. rewrite (given_slot items id) by done. cbn.
  destruct (Z.eqb_spec (ah_slot s) 0); [exists 1%nat|exists 0%nat]; (split; [done|congruence]).
Qed.

Lemma recovers_given items id s rep : items_ok items → shards items !! id = Some s → recovers_once rep → recovers_once (given (Some rep) s).
Proof.
  intros Hi Hs (n & Hst & Hn). unfold recovers_once. rewrite (given_slot items id) by done. cbn. rewrite Hst.
  destruct (Z.eqb_spec (ah_slot s) 0) as [H0|H0]; cbn; [|exists n; split; [by rewrite app_nil_r|congruence]].
  case_bool_decide; cbn; [exists n; split; [by rewrite app_nil_r|auto]|]. exists (S n). split; [|done].
  by rewrite replicate_S_end.
Qed.

Lemma serves_new items id s : items_ok items → shards items !! id = Some s → serves_once (given None s).
Proof.
  intros Hi Hs. unfold serves_once. rewrite (given_slot items id) by done. cbn.
  destruct (Z.eqb_spec (ah_slot s) 0); case_bool_decide; congruence.
Qed.

Lemma serves_given items items' id s s' rep : not_demoted items items' → items_ok items → items_ok items' →
  shards items !! id = Some s → shards items' !! id = Some s' → follows s rep → serves_once rep → serves_once (given (Some rep) s').
Proof.
  intros Hnd Hi Hi' Hs Hs' [_ Ha] Hst. unfold serves_once in *. rewrite (given_slot items' id) by done. cbn. rewrite Hst.
  assert (rp_slot rep = Some (ah_slot s)) as -> by (unfold rp_slot; by rewrite Ha, (shards_slot items id)).
  specialize (Hnd id s s' Hs Hs').
  assert (∀ z, bool_decide (Some z = Some 0) = (z =? 0)) as Hb by (intros z; apply eq_true_iff_eq; rewrite bool_decide_eq_true, Z.eqb_eq; naive_solver).
  rewrite !Hb. destruct (Z.eqb_spec (ah_slot s') 0), (Z.eqb_spec (ah_slot s) 0); [done|done|tauto|done].
Qed.

Lemma linked_True updates : ∀ items, linked (λ _ _, True) items updates.
Proof. induction updates; cbn; auto. Qed.

Lemma new_ok P : resolver_ok P [] NewResolver.
Proof. split; [split; [done|constructor]|done|constructor|done]. Qed.

(** C22: The replicas of a consumer follow the assignments of shards to it. Over any updates of the key space the resolver does not panic, and its replicas are
    those of the shards that the last update assigned to this process, each with that specification and assignment. Each replica, also those it cancelled,
    recovers its log once, and before it serves as primary; it is started as primary if it is one; and once, provided that no update finds a shard demoted whose
    primary this process was at the update before. Every replica that was made is among those held or was cancelled, which are those the resolver waits for. *)
Theorem replicas_follow_assignments (updates : list (list SItem)) (items : list SItem) :
  Forall items_ok (updates ++ [items]) →
  ∃ r, run NewResolver (updates ++ [items]) = Ret r ∧ resolver_ok recovers_once items r ∧
    (linked not_demoted [] (updates ++ [items]) → resolver_ok serves_once items r).
Proof.
  intros Hok.
  destruct (run_ok recovers_once (λ _ _, True)) with (updates := updates ++ [items]) (items := [] : list SItem) (r := NewResolver) as (r & Hr & H1);
    [by eapply recovers_new|intros; by eapply recovers_given|done|apply linked_True|apply new_ok|].
  rewrite last_snoc in H1. exists r. split; [done|]. split; [done|]. intros Hnd.
  destruct (run_ok serves_once not_demoted) with (updates := updates ++ [items]) (items := [] : list SItem) (r := NewResolver) as (r' & Hr' & H2);
    [by eapply serves_new|intros; by eapply serves_given|done|done|apply new_ok|].
  rewrite last_snoc in H2. rewrite Hr in Hr'. by injection Hr' as <-.
Qed.
End replicas.

(** ** Concrete inputs *)

Module OneShard.
Definition kv (key : string) (e : Entity unit ShardSpec ReplicaStatus) : KeyValue (Entity unit ShardSpec ReplicaStatus) := mkKV (mkRaw key 1 1 1 "" 0) e.
(** The shard is assigned to this process at a slot. *)
Definition at_slot (slot : Z) : list (LocalItem unit ShardSpec ReplicaStatus) :=
  [mkLocalItem (kv "/items/shard" (EntityItem (mkItem "shard" ShardKV.spec)))
     [kv "/assign/shard#z#member" (EntityAssignment (mkAssignment "shard" "z" "member" slot (Some (mkReplicaStatus IDLE []))))] 0].
Definition started (r : outcome (ShardResolver (MV := unit))) : option (list service) :=
  match r with Ret r => rp_started <$> sr_replicas r !! "shard" | Panic _ => None end.
End OneShard.

(** A replica that is primary, is then observed as a standby, and is promoted, is started as primary twice: the second closes [storeReadyCh] anew,
    which panics. [transition] has no case of a demotion, after which the replica goes on as primary. *)
Theorem demoted_replica_serves_twice :
  OneShard.started (run NewResolver [OneShard.at_slot 0; OneShard.at_slot 1; OneShard.at_slot 0]) = Some [ServeStandby; ServePrimary; ServePrimary].
Proof. vm_compute. reflexivity. Qed.

Lemma replicas_follow_assignments_witness : ∃ r,
  run NewResolver ([OneShard.at_slot 1; OneShard.at_slot 0] ++ [[]]) = Ret r ∧ sr_wg r = 1%nat ∧ length (sr_cancelled r) = 1%nat ∧ Forall recovers_once (sr_cancelled r).
Proof.
  destruct (replicas_follow_assignments (MV := unit) [OneShard.at_slot 1; OneShard.at_slot 0] []) as (r & Hr & H1 & _).
  - repeat constructor; cbn; try (by eexists); by apply not_elem_of_nil.
  - exists r. split; [exact Hr|]. destruct H1 as [_ _ Hc Hn].
    assert (length (sr_cancelled r) = 1%nat ∧ sr_wg r = 1%nat) as [Hl Hw] by (vm_compute in Hr; injection Hr as <-; split; reflexivity).
    split; [exact Hw|]. split; [exact Hl|exact Hc].
Defined.
