(* ===== verification/AppendApi.v ===== *)
(** * The Append API of brokers (src/v2/pkg/broker/append_api.go)

    [Service_Append] resolves the journal of an Append RPC, and then either forwards the messages of the client to
    the primary broker, or acquires the pipeline of its replica and serves the append. A broker is a server of Append
    RPCs: a function of the messages that it receives, which waits while they are not complete. What a client relies on is the class
    [AppendServerLaws]; brokers that are primary for a journal have these laws, and so do those that proxy to one. *)
From stdpp Require Import functions.
From S2P Require Import Prelude Encoding Protocol Labels JournalSpec Framing CoverSet FragmentIndex Spool Pipeline ClientReader KeySpace AllocKeys AllocState Resolver.
Local Open Scope Z_scope.

(** ** Streams *)

(** What a handler receives, and how it ends: with the response of [SendAndClose], or an error. *)
Abbreviation rpc_error := (grpc_code * read_error)%type.
Abbreviation append_msg := (AppendRequest + recv_err)%type.
Abbreviation append_end := (AppendResponse + rpc_error)%type.

(** A [Journal_AppendClient]. [IoRetry] is a call that blocks; [ac_Cancel] is not a call: it is what becomes of the RPC when
    the context it was made with is done, given the errors that its ends then get. *)
Class AppendStream (C : Type) := {
  ac_SendMsg : C → AppendRequest → ioresult (C * option read_error);
  ac_RecvMsg : C → ioresult (C * append_end);
  ac_CloseSend : C → ioresult C;
  ac_Cancel : C → rpc_error * string → C;
}.

Definition CloseAndRecv {C} `{AppendStream C} (c : C) : ioresult (C * append_end) :=
  io! c := ac_CloseSend c in ac_RecvMsg c.

Definition io_resolved {A} (o : outcome (option A)) : ioresult A :=
  match o with Ret (Some a) => IoRet a | Ret None => IoRetry | Panic msg => IoPanic msg end.

(** ** The handler *)

Definition append_with_header (req : AppendRequest) (hdr : Header) : AppendRequest :=
  mkAppendRequest (Some hdr) (ar_Journal req) (ar_DoNotProxy req) (ar_Offset req) (ar_Content req).

(** What the channels of a replica hold between RPCs. *)
Record channels (S P : Type) := mkChannels { ch_pipeline : option (pipeline S P); ch_spool : option S }.
Arguments mkChannels {S P}. Arguments ch_pipeline {S P}. Arguments ch_spool {S P}.

(** What an iteration of the handler meets: the resolver, and its context; the index while its first refresh is awaited; whether the
    context of the call or of the replica is done; the streams to replicas; the index and the time when it serves; the
    RPC to a peer. Its context derives from that of the client's stream, so that it too is canceled when that stream breaks: [rd_cancel]
    are the errors it ends with if that comes before it is closed. [rd_fuel] is that of the synchronization of a pipeline. *)
Record round (replica P C : Type) := mkRound {
  rd_resolver : resolver replica;
  rd_ctx : option string;
  rd_wakes : list (resolver replica * option string);
  rd_refresh : Index * list wake;
  rd_done : option string;
  rd_fuel : nat;
  rd_dial : ProcessSpec_ID → P + string;
  rd_index : Index;
  rd_now : Z;
  rd_peer : C + rpc_error;
  rd_cancel : option (rpc_error * string);
}.
Arguments mkRound {replica P C}.
Arguments rd_resolver {_ _ _}. Arguments rd_ctx {_ _ _}. Arguments rd_wakes {_ _ _}. Arguments rd_refresh {_ _ _}. Arguments rd_done {_ _ _}.
Arguments rd_fuel {_ _ _}. Arguments rd_dial {_ _ _}. Arguments rd_index {_ _ _}. Arguments rd_now {_ _ _}. Arguments rd_peer {_ _ _}. Arguments rd_cancel {_ _ _}.

Section handler.
Context {S P C replica : Type} `{ReplicaSpool S, ReplicateStream P, AppendStream C, UrlParser, EqDecision replica}.
Context (GetPrefixRangeEnd : string → string).
(** The status that gRPC makes of the error of a handler. *)
Context (status_of : recv_err → rpc_error).

Definition context_done (cancel : option (rpc_error * string)) (c : C) : C :=
  match cancel with Some errs => ac_Cancel c errs | None => c end.

(** The loop of [proxyAppend], which ends with the error it returns, or none when it goes on to receive the response. *)
Fixpoint proxy_loop (cancel : option (rpc_error * string)) (c : C) (req : AppendRequest) (msgs : list append_msg) : ioresult (C * option recv_err) :=
  io! (c, err) := ac_SendMsg c req in
  match err with
  | Some _ => IoRet (c, None)
  | None =>
      match msgs with
      | [] => IoRetry
      | inr RecvEOF :: _ => IoRet (c, None)
      | inr err :: _ => io! (c, _) := CloseAndRecv (context_done cancel c) in IoRet (c, Some err)
      | inl req :: msgs => proxy_loop cancel c req msgs
      end
  end.

Definition proxyAppend (cancel : option (rpc_error * string)) (peer : C + rpc_error) (req : AppendRequest) (msgs : list append_msg)
    : ioresult (option C * append_end) :=
  match peer with
  | inr err => IoRet (None, inr err)
  | inl c =>
      io! (c, err) := proxy_loop cancel c req msgs in
      match err with
      | Some err => IoRet (Some c, inr (status_of err))
      | None => io! (c, e) := CloseAndRecv c in IoRet (Some c, e)
      end
  end.

Definition end_of (r : append_result) : append_end :=
  match r with AppendResp resp => inl resp | AppendErr err => inr (status_of err) end.

Abbreviation state := (replica → channels S P).

(** The state of the replicas after the RPC, the stream to the peer it was proxied to, and its end. *)
Abbreviation served := (state * option C * append_end)%type.

Fixpoint append_rounds (rounds : list (round replica P C)) (rev : Z) (req : AppendRequest) (st : state) (msgs : list append_msg)
    : ioresult served :=
  match rounds with
  | [] => IoRetry
  | rd :: rounds =>
      let fail err := IoRet (st, None, inr (status_of (RecvError err))) in
      let answer s hdr := IoRet (st, None, inl (mkAppendResponse s hdr None)) in
      io! res := io_resolved (resolve GetPrefixRangeEnd (rd_resolver rd) (rd_ctx rd)
        (mkResolveArgs (ar_Journal req) (negb (ar_DoNotProxy req)) true true rev (ar_Header req)) (rd_wakes rd)) in
      match res with
      | inr err => fail err
      | inl res =>
          if negb (bool_decide (res_status res = Status_OK)) then answer (res_status res) (res_Header res)
          else
            match res_journalSpec res with
            | None => IoPanic "invalid memory address or nil pointer dereference"
            | Some spec =>
                if negb (MayWrite (Flags spec)) then answer NOT_ALLOWED (res_Header res)
                else
                  match res_replica res with
                  | None =>
                      io! (c, e) := proxyAppend (rd_cancel rd) (rd_peer rd) (append_with_header req (res_Header res)) msgs in IoRet (st, c, e)
                  | Some rep =>
                      match WaitForFirstRemoteRefresh (fst (rd_refresh rd)) (snd (rd_refresh rd)), rd_done rd with
                      | None, _ => IoRetry
                      | Some (Some err), _ | Some None, Some err => fail err
                      | Some None, None =>
                          io! (released, spool, acquired) :=
                            acquirePipeline (rd_fuel rd) (res_Header res) (rd_dial rd) (ch_pipeline (st rep)) (ch_spool (st rep)) in
                          match acquired with
                          | inr (rev, err) =>
                              let st := <[rep := mkChannels (default None released) spool]> st in
                              match err with
                              | Some err => IoRet (st, None, inr (status_of (RecvError err)))
                              | None => append_rounds rounds rev req st msgs
                              end
                          | inl pln =>
                              io! (released, s, r) :=
                                serveAppend (rd_now rd) (rd_index rd) (res_Header res) (js_Fragment spec) req pln msgs in
                              IoRet (<[rep := mkChannels released (match s with Some s => Some s | None => spool end)]> st, None, end_of r)
                          end
                      end
                  end
            end
      end
  end.

Definition Service_Append (rounds : list (round replica P C)) (st : state) (msgs : list append_msg) : ioresult served :=
  match msgs with
  | [] => IoRetry
  | inr err :: _ => IoRet (st, None, inr (status_of err))
  | inl req :: msgs =>
      match AppendRequest_Validate req with
      | Some err => IoRet (st, None, inr (status_of (RecvError (Err err))))
      | None => append_rounds rounds 0 req st msgs
      end
  end.
End handler.

(** ** Connections *)

(** What happens to a connection at a call of the client: nothing; a [SendMsg] that does not yet know that the handler
    returned; or it breaks, with the errors that client and server get. *)
Inductive net_event := Prompt | Lag | Break (err : rpc_error) (msg : string).

Section conn.
Context {X : Type}.

(** The stream of a client to a server, whose handler is a function of what was sent, and leaves [X]. *)
Record conn := mkConn {
  cn_serve : list append_msg → ioresult (X * append_end);
  cn_sent : list append_msg;
  cn_received : bool;
  cn_broken : option rpc_error;
  cn_events : list net_event;
}.

Definition cn_push (c : conn) (m : append_msg) (evs : list net_event) : conn :=
  mkConn (cn_serve c) (cn_sent c ++ [m]) (cn_received c) (cn_broken c) evs.
Definition cn_break (c : conn) (err : rpc_error) (msg : string) (evs : list net_event) : conn :=
  mkConn (cn_serve c) (cn_sent c ++ [inr (RecvError msg)]) (cn_received c) (Some err) evs.
Definition cn_receive (c : conn) (received : bool) (evs : list net_event) : conn :=
  mkConn (cn_serve c) (cn_sent c) received (cn_broken c) evs.

(** As grpc.ClientStream documents: [SendMsg] fails with EOF once the RPC is over, however it ended; [RecvMsg] then tells how,
    and after the response returns EOF. *)
Definition conn_SendMsg (c : conn) (req : AppendRequest) : ioresult (conn * option read_error) :=
  match cn_broken c, cn_events c with
  | Some _, _ => IoRet (c, Some EOF)
  | None, Break err msg :: evs => IoRet (cn_break c err msg evs, Some EOF)
  | None, Lag :: evs => IoRet (cn_push c (inl req) evs, None)
  | None, evs =>
      match cn_serve c (cn_sent c) with
      | IoRet _ => IoRet (cn_receive c (cn_received c) (tail evs), Some EOF)
      | IoPanic msg => IoPanic msg
      | IoRetry => IoRet (cn_push c (inl req) (tail evs), None)
      end
  end.

Definition conn_RecvMsg (c : conn) : ioresult (conn * append_end) :=
  match cn_broken c, cn_received c, cn_events c with
  | Some err, _, _ => IoRet (c, inr err)
  | None, true, _ => IoRet (c, inr (CodeOther, EOF))
  | None, false, Break err msg :: evs => IoRet (cn_break c err msg evs, inr err)
  | None, false, evs =>
      io! (_, e) := cn_serve c (cn_sent c) in
      IoRet (cn_receive c (match e with inl _ => true | inr _ => false end) (tail evs), e)
  end.

Definition conn_CloseSend (c : conn) : ioresult conn :=
  IoRet (match cn_broken c with Some _ => c | None => cn_push c (inr RecvEOF) (cn_events c) end).

Definition conn_Cancel (c : conn) (errs : rpc_error * string) : conn :=
  match cn_broken c with Some _ => c | None => cn_break c (fst errs) (snd errs) (cn_events c) end.

#[global] Instance conn_stream : AppendStream conn :=
  {| ac_SendMsg := conn_SendMsg; ac_RecvMsg := conn_RecvMsg; ac_CloseSend := conn_CloseSend; ac_Cancel := conn_Cancel |}.

(** What the server is left with. *)
Definition conn_left (c : conn) : ioresult X := io! (x, _) := cn_serve c (cn_sent c) in IoRet x.
End conn.
Arguments conn : clear implicits.

(** ** Servers *)

Class AppendServer (X : Type) := sv_serve : X → list append_msg → ioresult (X * append_end).

Definition connect {X} `{AppendServer X} (x : X) (evs : list net_event) : conn X := mkConn (sv_serve x) [] false None evs.

(** The offset that a request asks for, if any, is the end of the journal. *)
Definition continues (req : AppendRequest) (J : bytes) : Prop := ar_Offset req = 0 ∨ ar_Offset req = blen J.

Definition room (J : bytes) (chunks : list bytes) : Prop :=
  Forall (λ c, c ≠ []) chunks ∧ blen J + blen (concat chunks) ≤ MaxInt64.

(** What a response tells of an append of [b] to [J]. *)
Record committed `{UrlParser} (req : AppendRequest) (J b : bytes) (hdr : Header) (f : Fragment) : Prop := {
  cm_journal : f_Journal f = ar_Journal req;
  cm_range : f_Begin f = blen J ∧ f_End f = blen (J ++ b);
  cm_sum : f_Sum f = SHA1SumOf b;
  cm_fragment : Fragment_Validate f = None;
  cm_header : Header_Validate hdr = None;
}.

(** What a server of Append RPCs promises while it holds [J] for the requests [req]: it does not look at what follows the
    messages that it served; it waits while they are not complete; it commits what is complete, and nothing of what is not; of
    a stream that breaks after the empty chunk the client gets an error and does not learn which it was; offsets that are not at
    the end it refuses. *)
Class AppendServerLaws (X : Type) `{AppendServer X, UrlParser} := {
  sv_holds : AppendRequest → bytes → X → Prop;
  law_monotone x l l' : sv_serve x l ≠ IoRetry → sv_serve x (l ++ l') = sv_serve x l;
  law_start x : sv_serve x [] = IoRetry;
  law_preamble req J x : sv_holds req J x → AppendRequest_Validate req = None ∧ ar_Journal req ≠ "";
  law_waits req J x chunks rest : sv_holds req J x → continues req J → room J chunks → rest = [] ∨ rest = [chunk []] →
    sv_serve x (inl req :: (chunk <$> chunks) ++ rest) = IoRetry;
  law_commits req J x chunks : sv_holds req J x → continues req J → room J chunks →
    ∃ x' hdr f, sv_serve x (inl req :: (chunk <$> chunks) ++ [chunk []; inr RecvEOF]) =
        IoRet (x', inl (mkAppendResponse Status_OK hdr (Some f))) ∧
      sv_holds req (J ++ concat chunks) x' ∧ committed req J (concat chunks) hdr f;
  law_aborts req J x chunks err : sv_holds req J x → continues req J → room J chunks →
    ∃ x' e, sv_serve x (inl req :: (chunk <$> chunks) ++ [inr err]) = IoRet (x', inr e) ∧ sv_holds req J x';
  law_breaks req J x chunks msg : sv_holds req J x → continues req J → room J chunks →
    ∃ x' e, sv_serve x (inl req :: (chunk <$> chunks) ++ [chunk []; inr (RecvError msg)]) = IoRet (x', inr e) ∧
      (sv_holds req J x' ∨ sv_holds req (J ++ concat chunks) x');
  law_refuses req J x chunks err : sv_holds req J x → ¬ continues req J →
    ∃ x' e, sv_serve x (inl req :: (chunk <$> chunks) ++ [inr err]) = IoRet (x', e) ∧ sv_holds req J x' ∧
      (err = RecvEOF → ∃ hdr, e = inl (mkAppendResponse WRONG_APPEND_OFFSET hdr None) ∧ Header_Validate hdr = None);
  law_broken req J x err : sv_holds req J x → ∃ x' e, sv_serve x [inr err] = IoRet (x', inr e) ∧ sv_holds req J x';
}.

(** ** Handlers do not look ahead *)

Lemma io_bind_ahead {A B} (m m' : ioresult A) (k k' : A → ioresult B) :
  (m ≠ IoRetry → m' = m) → (∀ a, k a ≠ IoRetry → k' a = k a) → io_bind m k ≠ IoRetry → io_bind m' k' = io_bind m k.
Proof. intros Hm Hk. destruct m; cbn; intros Hne; [rewrite Hm by done; cbn; auto|by rewrite Hm|done]. Qed.

Section ahead.
Context {S P C replica : Type} `{ReplicaSpool S, ReplicateStream P, AppendStream C, UrlParser, EqDecision replica}.
Context (GetPrefixRangeEnd : string → string) (status_of : recv_err → rpc_error).

Lemma append_loop_ahead (a : appender S P) l l' : append_loop a l ≠ IoRetry → append_loop a (l ++ l') = append_loop a l.
Proof.
  revert a. induction l as [|m l IH]; intros a; [done|]. cbn [app append_loop]. apply io_bind_ahead; [done|].
  intros [b more]. destruct more; [apply IH|done].
Qed.

Lemma serveAppend_ahead now index hdr spec req (pln : pipeline S P) l l' :
  serveAppend now index hdr spec req pln l ≠ IoRetry →
  serveAppend now index hdr spec req pln (l ++ l') = serveAppend now index hdr spec req pln l.
Proof.
  unfold serveAppend. destruct (_ && _); [done|].
  pose (run := λ l pln, io! a := beginAppending now pln spec in io! a := append_loop a l in
    io! (released, s, err) := releasePipelineAndGatherResponse (ap_pln a) in
    IoRet (released, s, match ap_reqErr a, err with
      | Some e, _ => AppendErr e | None, Some e => AppendErr (RecvError e)
      | None, None => AppendResp (mkAppendResponse Status_OK (pl_Header (ap_pln a)) (ap_reqFragment a)) end)).
  assert (∀ pln, run l pln ≠ IoRetry → run (l ++ l') pln = run l pln) as Hrun.
  { intros p. apply io_bind_ahead; [done|]. intros a. apply io_bind_ahead; [apply append_loop_ahead|done]. }
  destruct (_ =? 0); [apply Hrun|]. destruct (negb _); [done|]. destruct (negb _); [|apply Hrun].
  apply io_bind_ahead; [done|]. intros p. apply Hrun.
Qed.

Lemma proxy_loop_ahead cancel l : ∀ (c : C) req l',
  proxy_loop cancel c req l ≠ IoRetry → proxy_loop cancel c req (l ++ l') = proxy_loop cancel c req l.
Proof.
  induction l as [|[req'|err] l IH]; intros c req l'; [destruct l'; [done|]|..]; cbn [app proxy_loop];
    apply io_bind_ahead; try done; intros [c' [e|]]; try done.
  apply IH.
Qed.

Lemma proxyAppend_ahead cancel (peer : C + rpc_error) req l l' :
  proxyAppend status_of cancel peer req l ≠ IoRetry → proxyAppend status_of cancel peer req (l ++ l') = proxyAppend status_of cancel peer req l.
Proof. unfold proxyAppend. destruct peer; [|done]. by apply io_bind_ahead; [apply proxy_loop_ahead|]. Qed.

Lemma append_rounds_ahead (rounds : list (round replica P C)) : ∀ rev req (st : replica → channels S P) l l',
  append_rounds GetPrefixRangeEnd status_of rounds rev req st l ≠ IoRetry →
  append_rounds GetPrefixRangeEnd status_of rounds rev req st (l ++ l') = append_rounds GetPrefixRangeEnd status_of rounds rev req st l.
Proof.
  induction rounds as [|rd rounds IH]; intros rev req st l l'; [done|]. cbn [append_rounds]. apply io_bind_ahead; [done|].
  intros [res|err]; [|done]. destruct (negb _); [done|]. destruct (res_journalSpec res) as [spec|]; [|done]. destruct (negb _); [done|].
  destruct (res_replica res) as [rep|]; [|by apply io_bind_ahead; [apply proxyAppend_ahead|]].
  destruct (WaitForFirstRemoteRefresh _ _) as [[e|]|]; [done| |done]. destruct (rd_done rd); [done|].
  apply io_bind_ahead; [done|]. intros [[released spool] [pln|[rev' [err|]]]]; [|done|apply IH].
  by apply io_bind_ahead; [apply serveAppend_ahead|].
Qed.

Lemma Service_Append_ahead rounds (st : replica → channels S P) l l' :
  Service_Append GetPrefixRangeEnd status_of (C := C) rounds st l ≠ IoRetry →
  Service_Append GetPrefixRangeEnd status_of (C := C) rounds st (l ++ l') = Service_Append GetPrefixRangeEnd status_of rounds st l.
Proof.
  unfold Service_Append. destruct l as [|[req|err] l]; [done| |done]. cbn [app]. destruct (AppendRequest_Validate req); [done|].
  apply append_rounds_ahead.
Qed.
End ahead.

(** ** Primary brokers *)

(** A spool at the end of a journal, of which it has the last bytes. *)
Record at_end (J : bytes) (a : aSpool) : Prop := {
  ae_begin : 0 ≤ a_Begin a;
  ae_end : f_End (a_fragment a) = blen J;
  ae_committed : a_committed a = drop (Z.to_nat (a_Begin a)) J;
  ae_pending : a_pending a = [];
}.

Lemma blen_app (b c : bytes) : blen (b ++ c) = blen b + blen c.
Proof. unfold blen. rewrite length_app. lia. Qed.

Lemma at_end_begun J spec a a0 : at_end J a → begun spec a a0 → at_end J a0.
Proof.
  intros [Hb He Hc Hp] Hbeg. pose proof (begun_end spec a a0 Hbeg) as He0. destruct Hbeg as [-> | ->]; [done|].
  split; [|congruence| |done]; cbn [a_Begin a_committed]; rewrite He; [unfold blen; lia|].
  rewrite drop_ge; [done|]. unfold blen. lia.
Qed.

Lemma at_end_commit J a b : at_end J a → at_end (J ++ b) (a_commit (a_append a b)).
Proof.
  intros [Hb He Hc Hp]. split; cbn [a_commit a_append a_Begin a_committed a_pending]; [done| | |done].
  - cbn. cbn in He. rewrite Hp, !blen_app. change (blen []) with 0. lia.
  - cbn in He. rewrite Hp, Hc, drop_app_le; [done|]. unfold blen in *. lia.
Qed.

Section primary.
Context {S C replica : Type} `{ReplicaSpoolLaws S, AppendStream C, UrlParser, EqDecision replica}.
Context (GetPrefixRangeEnd : string → string) (status_of : recv_err → rpc_error).
Abbreviation node := (server S).
Abbreviation state := (replica → channels S node).

(** What each call meets: it may depend on the replicas when the call is made. *)
Context (env : state → nat → list (round replica node C)).

Record broker := mkBroker { br_replicas : state; br_call : nat }.

#[global] Instance broker_server : AppendServer broker := λ b msgs,
  io! (st, _, e) := Service_Append GetPrefixRangeEnd status_of (env (br_replicas b) (br_call b)) (br_replicas b) msgs in
  IoRet (mkBroker st (Datatypes.S (br_call b)), e).

Definition append_args (req : AppendRequest) : resolveArgs :=
  mkResolveArgs (ar_Journal req) (negb (ar_DoNotProxy req)) true true 0 (ar_Header req).

(** The broker is primary for the requests: they resolve to its replica [rep], whose pipeline, if its route [h0]
    is not superseded, is in use; and the index has nothing past the pipeline. *)
Context (rep : replica) (h0 : Header).

Record primary_round (req : AppendRequest) (st : state) (pln : pipeline S node) (rd : round replica node C) : Prop := {
  pd_resolve : ∃ res spec, resolve GetPrefixRangeEnd (rd_resolver rd) (rd_ctx rd) (append_args req) (rd_wakes rd) = Ret (Some (inl res)) ∧
    res_status res = Status_OK ∧ res_journalSpec res = Some spec ∧ MayWrite (Flags spec) = true ∧
    codec_supported (sf_CompressionCodec (js_Fragment spec)) = true ∧ res_replica res = Some rep ∧ Header_Validate (res_Header res) = None ∧
    (Route_Equivalent (h_Route h0) (Some (h_Route (res_Header res))) = true ∨ Revision (Etcd (res_Header res)) ≤ Revision (Etcd h0));
  pd_refresh : WaitForFirstRemoteRefresh (fst (rd_refresh rd)) (snd (rd_refresh rd)) = Some None;
  pd_done : rd_done rd = None;
  pd_index : Index_EndOffset (rd_index rd) ≤ f_End (sp_Frag (pl_spool pln));
}.

Definition primary_for (req : AppendRequest) : Prop :=
  ∀ st n pln, ch_pipeline (st rep) = Some pln → sp_inv (pl_spool pln) → ∃ rd rounds, env st n = rd :: rounds ∧ primary_round req st pln rd.

Record broker_holds (req : AppendRequest) (J : bytes) (b : broker) : Prop := {
  bh_request : AppendRequest_Validate req = None ∧ ar_Journal req ≠ "";
  bh_primary : primary_for req;
  bh_header : Header_Validate h0 = None;
  bh_pipeline : ∃ pln a, ch_pipeline (br_replicas b rep) = Some pln ∧ aligned a 0 pln ∧ a_Journal a = ar_Journal req ∧ at_end J a ∧
    pl_Header pln = h0 ∧ pl_readThroughRev pln = 0;
}.

Lemma acquire_current fuel hdr dial (pln : pipeline S node) spool :
  pl_readThroughRev pln = 0 →
  Route_Equivalent (h_Route (pl_Header pln)) (Some (h_Route hdr)) = true ∨ Revision (Etcd hdr) ≤ Revision (Etcd (pl_Header pln)) →
  acquirePipeline fuel hdr dial (Some pln) spool = IoRet (None, spool, inl pln).
Proof.
  intros Hr Hcur. unfold acquirePipeline. rewrite Hr, Z.eqb_refl. cbn [negb andb].
  assert ((pl_readThroughRev pln =? 0) && negb (Route_Equivalent (h_Route (pl_Header pln)) (Some (h_Route hdr))) &&
    (Revision (Etcd (pl_Header pln)) <? Revision (Etcd hdr)) = false) as ->.
  { destruct Hcur as [-> |Hle]; [by rewrite andb_false_r|]. rewrite (proj2 (Z.ltb_ge _ _)) by done. apply andb_false_r. }
  cbn [io_bind]. by rewrite Hr, Z.eqb_refl.
Qed.

(** A call is served by the pipeline. *)
Lemma broker_serves req J b msgs : broker_holds req J b →
  ∃ pln a hdr now index spec spool, aligned a 0 pln ∧ a_Journal a = ar_Journal req ∧ at_end J a ∧ pl_Header pln = h0 ∧ pl_readThroughRev pln = 0 ∧
    Header_Validate hdr = None ∧ codec_supported (sf_CompressionCodec spec) = true ∧ Index_EndOffset index ≤ f_End (a_fragment a) ∧
    sv_serve b (inl req :: msgs) =
      io! (released, s, r) := serveAppend now index hdr spec req pln msgs in
      IoRet (mkBroker (<[rep := mkChannels released (match s with Some s => Some s | None => spool end)]> (br_replicas b)) (Datatypes.S (br_call b)), end_of status_of r).
Proof.
  intros [[Hval Hj] Hprim Hh0 (pln & a & Hch & Hal & Hja & Hend & Hhd & Hrev)].
  destruct (Hprim (br_replicas b) (br_call b) pln Hch (proj1 (al_spool _ _ _ Hal))) as (rd & rounds & He & [(res & spec & Hres & Hst & Hspec & Hw & Hcod & Hrep & Hhv & Hcur) Hrf Hd Hi]).
  exists pln, a, (res_Header res), (rd_now rd), (rd_index rd), (js_Fragment spec), (ch_spool (br_replicas b rep)). pose proof (al_spool _ _ _ Hal) as [Hinv Habs].
  rewrite (law_Frag _ Hinv), Habs in Hi. split_and!; try done.
  unfold sv_serve, broker_server, Service_Append. rewrite Hval, He. cbn [append_rounds].
  change (mkResolveArgs (ar_Journal req) (negb (ar_DoNotProxy req)) true true 0 (ar_Header req)) with (append_args req).
  rewrite Hres. cbn [io_resolved io_bind]. rewrite Hst, Hspec, Hw, Hrep, Hrf, Hd, Hch. cbn [bool_decide negb]. rewrite bool_decide_eq_true_2 by done. cbn [negb].
  rewrite acquire_current by (rewrite ?Hhd; done). cbn [io_bind]. by destruct (serveAppend _ _ _ _ _ _ _) as [[[? ?] ?]|?|].
Qed.

Lemma broker_released req J b pln spool : broker_holds req J b →
  (∃ a, aligned a 0 pln ∧ a_Journal a = ar_Journal req ∧ at_end J a) → pl_Header pln = h0 → pl_readThroughRev pln = 0 →
  broker_holds req J (mkBroker (<[rep := mkChannels (Some pln) spool]> (br_replicas b)) (Datatypes.S (br_call b))).
Proof.
  intros [? ? ? _] (a & ? & ? & ?) ? ?. split; [done..|]. exists pln, a. cbn [br_replicas]. rewrite fn_lookup_insert. by split_and!.
Qed.

Lemma at_end_ready (req : AppendRequest) J (a : aSpool) index : AppendRequest_Validate req = None → ar_Journal req ≠ "" → a_Journal a = ar_Journal req → at_end J a →
  Index_EndOffset index ≤ f_End (a_fragment a) → continues req J → Journal_Validate (a_Journal a) = None ∧ a_pending a = [] ∧ at_head index req a.
Proof.
  intros Hval Hj Hja [_ He _ Hp] Hi Hc. split_and!; [|done|].
  - rewrite Hja. revert Hval. unfold AppendRequest_Validate. rewrite (proj2 (String.eqb_neq _ _) Hj). cbn [negb].
    rewrite !orElse_None, ExtendContext_None. tauto.
  - split; [done|]. destruct Hc; [by left|right; congruence].
Qed.

Lemma broker_commits req J b chunks : broker_holds req J b → continues req J → room J chunks →
  ∃ b' hdr f, sv_serve b (inl req :: (chunk <$> chunks) ++ [chunk []; inr RecvEOF]) = IoRet (b', inl (mkAppendResponse Status_OK hdr (Some f))) ∧
    broker_holds req (J ++ concat chunks) b' ∧ committed req J (concat chunks) hdr f.
Proof.
  intros Hb Hc [Hne Hroom]. destruct (bh_request _ _ _ Hb) as [Hval Hj].
  destruct (broker_serves req J b ((chunk <$> chunks) ++ [chunk []; inr RecvEOF]) Hb)
    as (pln & a & hdr & now & index & spec & spool & Hal & Hja & Hend & Hhd & Hrev & Hhv & Hcod & Hi & ->).
  destruct (at_end_ready req J a index Hval Hj Hja Hend Hi Hc) as (Hjv & Hp & Hhead).
  destruct (serveAppend_commits now index hdr spec req pln a chunks [] Hal Hjv Hp Hhead Hcod Hne) as (a0 & pln' & Hbeg & Hserve & Hal' & Hk1 & Hk2);
    [by rewrite (ae_end _ _ Hend)|]. rewrite app_nil_r in Hserve. rewrite Hserve. cbn [io_bind end_of].
  eexists _, _, _. split; [reflexivity|]. pose proof (at_end_begun _ _ _ _ Hend Hbeg) as Hend0.
  assert (a_Journal a0 = a_Journal a) as Hj0 by (by destruct Hbeg as [-> | ->]).
  split.
  - destruct Hb as [? ? ? _]. split; [done..|]. exists pln', (a_commit (a_append a0 (concat chunks))). cbn [br_replicas]. rewrite fn_lookup_insert.
    split_and!; [done|done|cbn; congruence|by apply at_end_commit|congruence|congruence].
  - assert (codec_supported (a_Codec a0) = true) as Hc0.
    { destruct Hbeg as [-> | ->]; [|done]. destruct (al_spool _ _ _ Hal) as [Hinv <-]. by apply law_codec. }
    pose proof (ae_end _ _ Hend0) as He0. cbn in He0. split; cbn [append_fragment f_Journal f_Begin f_End f_Sum]; [congruence| |done| |rewrite Hhd; apply (bh_header _ _ _ Hb)].
    + cbn. rewrite He0, blen_app. done.
    + unfold Fragment_Validate. autorewrite with validate. rewrite codec_valid. cbn. split_and!; [congruence| |done]. unfold blen. lia.
Qed.

Lemma broker_aborts req J b chunks msgs err : broker_holds req J b → continues req J → room J chunks → aborts msgs err →
  ∃ b' e, sv_serve b (inl req :: (chunk <$> chunks) ++ msgs) = IoRet (b', inr e) ∧ broker_holds req J b'.
Proof.
  intros Hb Hc [Hne Hroom] Hab. destruct (bh_request _ _ _ Hb) as [Hval Hj].
  destruct (broker_serves req J b ((chunk <$> chunks) ++ msgs) Hb)
    as (pln & a & hdr & now & index & spec & spool & Hal & Hja & Hend & Hhd & Hrev & Hhv & Hcod & Hi & ->).
  destruct (at_end_ready req J a index Hval Hj Hja Hend Hi Hc) as (Hjv & Hp & Hhead).
  destruct (serveAppend_aborts now index hdr spec req pln a chunks msgs err [] Hal Hjv Hp Hhead Hcod Hne) as (a0 & pln' & Hbeg & Hserve & Hal' & Hk1 & Hk2);
    [by rewrite (ae_end _ _ Hend)|done|]. rewrite app_nil_r in Hserve. rewrite Hserve. cbn [io_bind end_of].
  eexists _, _. split; [reflexivity|]. apply broker_released; [done| |congruence|congruence].
  exists a0. split_and!; [done| |by eapply at_end_begun]. rewrite <- Hja. by destruct Hbeg as [-> | ->].
Qed.

Lemma broker_waits req J b chunks rest : broker_holds req J b → continues req J → room J chunks → rest = [] ∨ rest = [chunk []] →
  sv_serve b (inl req :: (chunk <$> chunks) ++ rest) = IoRetry.
Proof.
  intros Hb Hc [Hne Hroom] Hrest. destruct (bh_request _ _ _ Hb) as [Hval Hj].
  destruct (broker_serves req J b ((chunk <$> chunks) ++ rest) Hb)
    as (pln & a & hdr & now & index & spec & spool & Hal & Hja & Hend & Hhd & Hrev & Hhv & Hcod & Hi & ->).
  destruct (at_end_ready req J a index Hval Hj Hja Hend Hi Hc) as (Hjv & Hp & Hhead).
  rewrite (serveAppend_waits now index hdr spec req pln a); [done..|by rewrite (ae_end _ _ Hend)|done].
Qed.

Lemma broker_refuses req J b msgs : broker_holds req J b → ¬ continues req J →
  ∃ b' hdr, sv_serve b (inl req :: msgs) = IoRet (b', inl (mkAppendResponse WRONG_APPEND_OFFSET hdr None)) ∧ broker_holds req J b' ∧ Header_Validate hdr = None.
Proof.
  intros Hb Hc. destruct (broker_serves req J b msgs Hb)
    as (pln & a & hdr & now & index & spec & spool & Hal & Hja & Hend & Hhd & Hrev & Hhv & Hcod & Hi & ->).
  rewrite (serveAppend_wrong_offset now index hdr spec req pln msgs a Hal Hi).
  2, 3: intros Ho; apply Hc; unfold continues; rewrite <- (ae_end _ _ Hend); tauto. cbn [io_bind end_of].
  eexists _, _. split; [reflexivity|]. split; [|done]. apply broker_released; [done|by exists a|done..].
Qed.

#[global] Instance broker_laws : AppendServerLaws broker.
Proof.
  refine {| sv_holds := broker_holds |}.
  - intros b l l' Hne. unfold sv_serve, broker_server in *. apply io_bind_ahead; [|done|done]. apply Service_Append_ahead.
  - done.
  - intros req J b Hb. apply (bh_request _ _ _ Hb).
  - apply broker_waits.
  - apply broker_commits.
  - intros req J b chunks [|msg] Hb Hc Hr; (eapply broker_aborts; [done..|]); [apply abort_eof|apply abort_error].
  - intros req J b chunks msg Hb Hc Hr. destruct (broker_aborts req J b chunks _ _ Hb Hc Hr (abort_uncommitted msg)) as (b' & e & Hs & Hb').
    exists b', e. split; [done|by left].
  - intros req J b chunks err Hb Hc. destruct (broker_refuses req J b ((chunk <$> chunks) ++ [inr err]) Hb Hc) as (b' & hdr & Hs & Hb' & Hh).
    eexists _, _. split; [exact Hs|]. split; [done|]. intros _. by exists hdr.
  - intros req J b err [? ? ? ?]. eexists _, _. split; [reflexivity|]. by split.
Defined.
End primary.
Arguments broker : clear implicits.

(** ** Proxying brokers *)

Section forward.
Context {X : Type} `{AppendServerLaws X} (status_of : recv_err → rpc_error).

Definition open_conn (x : X) (sent : list append_msg) : conn X := mkConn (sv_serve x) sent false None [].

Lemma law_prefix x l l' r : sv_serve x (l ++ l') = IoRet r → sv_serve x l = IoRetry ∨ sv_serve x l = IoRet r.
Proof.
  intros Hs. destruct (sv_serve x l) as [r'|msg|] eqn:Hl; [right|exfalso|by left]; rewrite law_monotone in Hs by (by rewrite Hl); congruence.
Qed.

Lemma close_conn x sent x' e : sv_serve x (sent ++ [inr RecvEOF]) = IoRet (x', e) →
  ∃ c, CloseAndRecv (open_conn x sent) = IoRet (c, e) ∧ conn_left c = IoRet x'.
Proof.
  intros Hs. unfold CloseAndRecv, open_conn. cbn [ac_CloseSend ac_RecvMsg conn_stream]. unfold conn_CloseSend, conn_RecvMsg.
  cbn [cn_broken cn_push cn_serve cn_sent cn_received cn_events io_bind]. rewrite Hs. cbn [io_bind]. eexists. split; [done|].
  unfold conn_left. cbn [cn_push cn_receive cn_serve cn_sent]. by rewrite Hs.
Qed.

Lemma send_conn x sent req : conn_SendMsg (open_conn x sent) req =
  match sv_serve x sent with
  | IoRet _ => IoRet (open_conn x sent, Some EOF)
  | IoPanic msg => IoPanic msg
  | IoRetry => IoRet (open_conn x (sent ++ [inl req]), None)
  end.
Proof. done. Qed.

(** The proxy waits with the peer. *)
Lemma proxy_waits cancel x reqs : ∀ sent req, sv_serve x (sent ++ inl req :: (inl <$> reqs)) = IoRetry →
  proxyAppend status_of cancel (inl (open_conn x sent)) req (inl <$> reqs) = IoRetry.
Proof.
  unfold proxyAppend. induction reqs as [|r reqs IH]; intros sent req Hs.
  all: assert (sv_serve x sent = IoRetry) as Hs0 by (destruct (sv_serve x sent) eqn:E; [..|done]; rewrite law_monotone in Hs by (by rewrite E); congruence).
  all: cbn [fmap list_fmap proxy_loop ac_SendMsg conn_stream]; rewrite send_conn, Hs0; cbn [io_bind].
  - done.
  - apply IH. by rewrite <- app_assoc.
Qed.

(** How the stream to the peer ends, when that of the client ends with [err]. *)
Definition peer_end (cancel : option (rpc_error * string)) (err : recv_err) : recv_err :=
  match err, cancel with RecvError _, Some (_, msg) => RecvError msg | _, _ => RecvEOF end.

Lemma cancel_conn x sent errs x' e : sv_serve x (sent ++ [inr (RecvError (snd errs))]) = IoRet (x', e) →
  ∃ c, CloseAndRecv (conn_Cancel (open_conn x sent) errs) = IoRet (c, inr (fst errs)) ∧ conn_left c = IoRet x'.
Proof. intros Hs. eexists. split; [reflexivity|]. unfold conn_left. cbn. by rewrite Hs. Qed.

(** The stream that was left by a client which ended with [err]. *)
Lemma end_conn cancel x sent err x' e : sv_serve x (sent ++ [inr (peer_end cancel err)]) = IoRet (x', e) →
  ∃ c e', CloseAndRecv (match err with RecvEOF => open_conn x sent | _ => context_done cancel (open_conn x sent) end) = IoRet (c, e') ∧
    conn_left c = IoRet x' ∧ (err = RecvEOF → e' = e).
Proof.
  destruct err as [|msg], cancel as [[err msg']|]; cbn [peer_end context_done ac_Cancel conn_stream]; intros Hs.
  3: destruct (cancel_conn x sent (err, msg') x' e Hs) as (c & -> & Hl); by eexists _, _.
  all: destruct (close_conn x sent x' e Hs) as (c & -> & Hl); by eexists _, _.
Qed.

(** What the peer handled, when the client's stream ended. *)
Lemma proxy_run cancel x reqs err x' e : ∀ sent req,
  sv_serve x (sent ++ inl req :: (inl <$> reqs) ++ [inr (peer_end cancel err)]) = IoRet (x', e) →
  ∃ c e', proxyAppend status_of cancel (inl (open_conn x sent)) req ((inl <$> reqs) ++ [inr err]) = IoRet (Some c, e') ∧ conn_left c = IoRet x' ∧
    (e' = e ∧ (err = RecvEOF ∨ sv_serve x (sent ++ inl req :: (inl <$> reqs)) ≠ IoRetry) ∨ err ≠ RecvEOF ∧ e' = inr (status_of err)).
Proof.
  assert (∀ sent l r, sv_serve x sent = IoRet r → sv_serve x (sent ++ l) = IoRet r) as Hover by (intros sent l r Hr; by rewrite law_monotone; rewrite Hr).
  unfold proxyAppend. induction reqs as [|r reqs IH]; intros sent req Hs.
  all: cbn [fmap list_fmap app proxy_loop ac_SendMsg conn_stream]; rewrite send_conn.
  all: destruct (law_prefix x sent _ _ Hs) as [Hs0|Hs0]; rewrite Hs0; cbn [io_bind].
  2, 4: destruct (close_conn x sent x' e) as (c & Hc & Hl); [by apply Hover|]; rewrite Hc; eexists _, _; (split; [done|]); (split; [done|]);
    left; split; [done|]; right; by rewrite (Hover _ _ _ Hs0).
  - destruct (end_conn cancel x (sent ++ [inl req]) err x' e) as (c & e' & Hc & Hl & He); [by rewrite <- app_assoc|].
    destruct err; cbn [io_bind]; rewrite Hc; cbn [io_bind]; eexists _, _; (split; [done|]); (split; [done|]); [left|right]; split; auto.
  - destruct (IH (sent ++ [inl req]) r) as (c & e' & Hp & Hl & He); [by rewrite <- app_assoc|]. exists c, e'. split_and!; [exact Hp|done|].
    by rewrite <- app_assoc in He.
Qed.
End forward.

Section proxying.
Context {S P X replica : Type} `{ReplicaSpool S, ReplicateStream P, AppendServerLaws X, EqDecision replica}.
Context (GetPrefixRangeEnd : string → string) (status_of : recv_err → rpc_error).
(** What each call meets; its stream to the peer is to the peer as it is then. It breaks when the client's does, if [rd_cancel] says so. *)
Context (env : X → nat → list (round replica P (conn X))).
(** The header of its resolutions. *)
Context (h1 : Header).

Record proxy := mkProxy { px_peer : X; px_replicas : replica → channels S P; px_call : nat }.

#[global] Instance proxy_server : AppendServer proxy := λ p msgs,
  io! (st, c, e) := Service_Append GetPrefixRangeEnd status_of (env (px_peer p) (px_call p)) (px_replicas p) msgs in
  io! x := match c with Some c => conn_left c | None => IoRet (px_peer p) end in
  IoRet (mkProxy x st (Datatypes.S (px_call p)), e).

(** The requests resolve to the peer, and a stream to it is opened. *)
Definition proxy_for (req : AppendRequest) : Prop :=
  ∀ x n, ∃ rd rounds res spec, env x n = rd :: rounds ∧ rd_peer rd = inl (connect x []) ∧
    resolve GetPrefixRangeEnd (rd_resolver rd) (rd_ctx rd) (append_args req) (rd_wakes rd) = Ret (Some (inl res)) ∧
    res_status res = Status_OK ∧ res_journalSpec res = Some spec ∧ MayWrite (Flags spec) = true ∧ res_replica res = None ∧ res_Header res = h1.

(** What the next call meets, should its client's stream break. *)
Definition px_cancel (p : proxy) : option (rpc_error * string) :=
  match env (px_peer p) (px_call p) with rd :: _ => rd_cancel rd | [] => None end.

Record proxy_holds (req : AppendRequest) (J : bytes) (p : proxy) : Prop := {
  ph_request : AppendRequest_Validate req = None ∧ ar_Journal req ≠ "";
  ph_proxy : proxy_for req;
  ph_peer : sv_holds (append_with_header req h1) J (px_peer p);
}.

Lemma proxy_serves req J p msgs : proxy_holds req J p →
  sv_serve p (inl req :: msgs) =
    io! (c, e) := proxyAppend status_of (px_cancel p) (inl (open_conn (px_peer p) [])) (append_with_header req h1) msgs in
    io! x := match c with Some c => conn_left c | None => IoRet (px_peer p) end in
    IoRet (mkProxy x (px_replicas p) (Datatypes.S (px_call p)), e).
Proof.
  intros [[Hval Hj] Hpx _]. destruct (Hpx (px_peer p) (px_call p)) as (rd & rounds & res & spec & He & Hpeer & Hres & Hst & Hspec & Hw & Hrep & <-).
  unfold sv_serve, proxy_server, Service_Append, px_cancel. rewrite Hval, He. cbn [append_rounds].
  change (mkResolveArgs (ar_Journal req) (negb (ar_DoNotProxy req)) true true 0 (ar_Header req)) with (append_args req).
  rewrite Hres. cbn [io_resolved io_bind]. rewrite Hst, Hspec, Hw, Hrep, Hpeer. rewrite bool_decide_eq_true_2 by done. cbn [negb].
  change (connect (px_peer p) []) with (open_conn (px_peer p) []). by destruct (proxyAppend _ _ _ _ _) as [[? ?]|?|].
Qed.

Lemma proxy_ends req J p reqs err x e : proxy_holds req J p →
  sv_serve (px_peer p) (inl (append_with_header req h1) :: (inl <$> reqs) ++ [inr (peer_end (px_cancel p) err)]) = IoRet (x, e) →
  ∃ e', sv_serve p (inl req :: (inl <$> reqs) ++ [inr err]) = IoRet (mkProxy x (px_replicas p) (Datatypes.S (px_call p)), e') ∧
    (e' = e ∧ (err = RecvEOF ∨ sv_serve (px_peer p) (inl (append_with_header req h1) :: (inl <$> reqs)) ≠ IoRetry) ∨ err ≠ RecvEOF ∧ e' = inr (status_of err)).
Proof.
  intros Hp Hs. destruct (proxy_run status_of (px_cancel p) (px_peer p) reqs err x e [] _ Hs) as (c & e' & Hr & Hl & He).
  exists e'. split; [|done]. rewrite (proxy_serves req J) by done. rewrite Hr. cbn [io_bind]. by rewrite Hl.
Qed.

(** The messages of chunks. *)
Definition chunk_request (c : bytes) : AppendRequest := mkAppendRequest None "" false 0 c.

Lemma chunks_inl (chunks : list bytes) : chunk <$> chunks = (inl <$> (chunk_request <$> chunks) : list append_msg).
Proof. by rewrite <- list_fmap_compose. Qed.

Lemma proxy_peer_holds req J J' p x n : proxy_holds req J p → sv_holds (append_with_header req h1) J' x → proxy_holds req J' (mkProxy x (px_replicas p) n).
Proof. intros [? ? ?] ?. by split. Qed.

(** A stream that breaks after the empty chunk: the peer is closed, or canceled. *)
Lemma proxy_breaks req J p chunks msg : proxy_holds req J p → continues req J → room J chunks →
  ∃ p' e, sv_serve p (inl req :: (chunk <$> chunks) ++ [chunk []; inr (RecvError msg)]) = IoRet (p', inr (status_of (RecvError msg))) ∧
    sv_serve (px_peer p) (inl (append_with_header req h1) :: (chunk <$> chunks) ++ [chunk []; inr (peer_end (px_cancel p) (RecvError msg))]) =
      IoRet (px_peer p', e) ∧
    (px_cancel p = None → proxy_holds req (J ++ concat chunks) p') ∧ (proxy_holds req J p' ∨ proxy_holds req (J ++ concat chunks) p').
Proof.
  intros Hp Hc Hr. set (req' := append_with_header req h1).
  assert (∃ x e, sv_serve (px_peer p) (inl req' :: (chunk <$> chunks) ++ [chunk []; inr (peer_end (px_cancel p) (RecvError msg))]) = IoRet (x, e) ∧
    (px_cancel p = None → sv_holds req' (J ++ concat chunks) x) ∧ (sv_holds req' J x ∨ sv_holds req' (J ++ concat chunks) x)) as (x & e & Hs & Hx & Hx').
  { destruct (px_cancel p) as [[err m]|]; cbn [peer_end].
    - destruct (law_breaks req' J (px_peer p) chunks m (ph_peer _ _ _ Hp) Hc Hr) as (x & e & Hs & Hx). by exists x, (inr e).
    - destruct (law_commits req' J (px_peer p) chunks (ph_peer _ _ _ Hp) Hc Hr) as (x & hdr & f & Hs & Hx & _). eexists x, _. split; [exact Hs|]. by auto. }
  pose proof (law_waits req' J (px_peer p) chunks [chunk []] (ph_peer _ _ _ Hp) Hc Hr (or_intror eq_refl)) as Hwait.
  destruct (proxy_ends req J p ((chunk_request <$> chunks) ++ [chunk_request []]) (RecvError msg) x e Hp) as (e' & Hs' & He);
      [rewrite fmap_app, <- chunks_inl, <- app_assoc; exact Hs|]. rewrite fmap_app, <- chunks_inl, <- app_assoc in Hs'.
  rewrite fmap_app, <- chunks_inl in He. exists (mkProxy x (px_replicas p) (Datatypes.S (px_call p))), e.
  destruct He as [[-> [?|Hne]]|[_ ->]]; [done|by destruct (Hne Hwait)|]. split; [exact Hs'|]. split; [exact Hs|]. split.
  - intros Hn. eapply proxy_peer_holds; [done|by apply Hx].
  - destruct Hx'; [left|right]; by eapply proxy_peer_holds.
Qed.

#[global] Instance proxy_laws : AppendServerLaws proxy.
Proof.
  refine {| sv_holds := proxy_holds |}.
  - intros p l l' Hne. unfold sv_serve, proxy_server in *. apply io_bind_ahead; [|done|done]. apply Service_Append_ahead.
  - done.
  - intros req J p Hp. apply (ph_request _ _ _ Hp).
  - intros req J p chunks rest Hp Hc Hr Hrest. rewrite (proxy_serves req J) by done.
    assert (∃ reqs, (chunk <$> chunks) ++ rest = inl <$> reqs) as [reqs Heq].
    { destruct Hrest as [-> | ->]; [exists (chunk_request <$> chunks); by rewrite app_nil_r, chunks_inl|].
      exists ((chunk_request <$> chunks) ++ [chunk_request []]). by rewrite fmap_app, chunks_inl. }
    rewrite Heq, proxy_waits; [done|]. cbn [app]. rewrite <- Heq. by eapply law_waits; [apply Hp| |..].
  - intros req J p chunks Hp Hc Hr.
    destruct (law_commits (append_with_header req h1) J (px_peer p) chunks (ph_peer _ _ _ Hp) Hc Hr) as (x & hdr & f & Hs & Hx & Hcm).
    destruct (proxy_ends req J p ((chunk_request <$> chunks) ++ [chunk_request []]) RecvEOF x (inl (mkAppendResponse Status_OK hdr (Some f))) Hp) as (e' & Hs' & He);
      [rewrite fmap_app, <- chunks_inl, <- app_assoc; exact Hs|]. rewrite fmap_app, <- chunks_inl, <- app_assoc in Hs'.
    exists (mkProxy x (px_replicas p) (Datatypes.S (px_call p))), hdr, f. destruct He as [[-> _]|[? _]]; [|done].
    split; [exact Hs'|]. split; [by eapply proxy_peer_holds|]. by destruct Hcm; split.
  - intros req J p chunks err Hp Hc Hr.
    destruct (law_aborts (append_with_header req h1) J (px_peer p) chunks (peer_end (px_cancel p) err) (ph_peer _ _ _ Hp) Hc Hr) as (x & e & Hs & Hx).
    destruct (proxy_ends req J p (chunk_request <$> chunks) err x (inr e) Hp) as (e' & Hs' & He); [by rewrite <- chunks_inl|].
    rewrite <- chunks_inl in Hs'. exists (mkProxy x (px_replicas p) (Datatypes.S (px_call p))).
    destruct He as [[-> _]|[_ ->]]; eexists; (split; [exact Hs'|by eapply proxy_peer_holds]).
  - intros req J p chunks msg Hp Hc Hr. destruct (proxy_breaks req J p chunks msg Hp Hc Hr) as (p' & e & Hs & _ & _ & Hp'). by eexists p', _.
  - intros req J p chunks err Hp Hc.
    destruct (law_refuses (append_with_header req h1) J (px_peer p) chunks (peer_end (px_cancel p) err) (ph_peer _ _ _ Hp) Hc) as (x & e & Hs & Hx & Hw).
    destruct (proxy_ends req J p (chunk_request <$> chunks) err x e Hp) as (e' & Hs' & He); [by rewrite <- chunks_inl|].
    rewrite <- chunks_inl in Hs'. exists (mkProxy x (px_replicas p) (Datatypes.S (px_call p))), e'. split; [exact Hs'|].
    split; [by eapply proxy_peer_holds|]. intros ->. destruct He as [[-> _]|[? _]]; [by apply Hw|done].
  - intros req J p err [? ? ?]. eexists _, _. split; [reflexivity|]. by split.
Defined.
End proxying.
Arguments proxy : clear implicits.

(** ** Theorems *)

Section claims.
Context {S C replica : Type} `{ReplicaSpoolLaws S, AppendStream C, UrlParser, EqDecision replica}.
Context (GetPrefixRangeEnd : string → string) (status_of : recv_err → rpc_error).
Context (env : (replica → channels S (server S)) → nat → list (round replica (server S) C)) (rep : replica) (h0 : Header).

Abbreviation serve := (@sv_serve _ (broker_server GetPrefixRangeEnd status_of env)).
Abbreviation holds := (broker_holds GetPrefixRangeEnd env rep h0).

(** C8: A primary broker serves appends: an Append RPC whose chunks and empty chunk are followed by EOF appends exactly their content to
    the journal, and answers with the fragment of the content, its offsets and its SHA-1; one whose stream ends in any other way,
    also after the empty chunk, appends nothing, and ends with an error; and one that asks for another offset than the end
    of the journal is refused. In each case the broker is left ready for the next, its replicas aligned. The broker is one that
    holds a pipeline already, which is synchronized and current to the journal's route, and whose index of fragments is not
    ahead of its spools. *)
Theorem primary_serves_appends req J b chunks : holds req J b → room J chunks →
  (continues req J →
    (∃ b' hdr f, serve b (inl req :: (chunk <$> chunks) ++ [chunk []; inr RecvEOF]) = IoRet (b', inl (mkAppendResponse Status_OK hdr (Some f))) ∧
      holds req (J ++ concat chunks) b' ∧ committed req J (concat chunks) hdr f) ∧
    (∀ msgs err, aborts msgs err → ∃ b' e, serve b (inl req :: (chunk <$> chunks) ++ msgs) = IoRet (b', inr e) ∧ holds req J b')) ∧
  (¬ continues req J → ∀ msgs,
    ∃ b' hdr, serve b (inl req :: msgs) = IoRet (b', inl (mkAppendResponse WRONG_APPEND_OFFSET hdr None)) ∧ holds req J b').
Proof.
  intros Hb Hr. split; [intros Hc; split|intros Hc msgs].
  - by apply broker_commits.
  - intros msgs err Hab. by eapply broker_aborts.
  - destruct (broker_refuses GetPrefixRangeEnd status_of env rep h0 req J b msgs Hb Hc) as (b' & hdr & Hs & Hb' & _). by exists b', hdr.
Qed.
End claims.

Section proxied.
Context {S P X replica : Type} `{ReplicaSpool S, ReplicateStream P, AppendServerLaws X, EqDecision replica}.
Context (GetPrefixRangeEnd : string → string) (status_of : recv_err → rpc_error).
Context (env : X → nat → list (round replica P (conn X))) (h1 : Header).

Abbreviation serve := (@sv_serve _ (proxy_server (S := S) GetPrefixRangeEnd status_of env)).
Abbreviation holds := (proxy_holds (S := S) GetPrefixRangeEnd env h1).

(** C16: A broker that proxies to a server of appends, which may proxy in turn, is one itself: while the messages are not
    complete it waits; complete ones end as they do at the peer, which commits; those that end with EOF or an error before
    the empty chunk commit nothing. Where the client's stream breaks after the empty chunk the client gets an error, and the
    peer has had the same messages. They end with an error too if the cancellation of the client's context, from which that of
    the RPC to the peer derives, comes before the proxy, to drain the RPC, closes it; the peer then commits or not, as it does for a
    client of its own. Otherwise they end with EOF, and the peer commits. The request names no offset, or the end of the journal, and offsets stay within MaxInt64. The RPC to the peer is one that
    was begun, and that does not break for other reasons. *)
Theorem proxy_forwards_appends req J p chunks : holds req J p → continues req J → room J chunks →
  serve p (inl req :: (chunk <$> chunks) ++ [chunk []]) = IoRetry ∧
  (∃ p' hdr f, serve p (inl req :: (chunk <$> chunks) ++ [chunk []; inr RecvEOF]) = IoRet (p', inl (mkAppendResponse Status_OK hdr (Some f))) ∧
    holds req (J ++ concat chunks) p' ∧ committed req J (concat chunks) hdr f) ∧
  (∀ err, ∃ p' e, serve p (inl req :: (chunk <$> chunks) ++ [inr err]) = IoRet (p', inr e) ∧ holds req J p') ∧
  (∀ msg, ∃ p' e, serve p (inl req :: (chunk <$> chunks) ++ [chunk []; inr (RecvError msg)]) = IoRet (p', inr (status_of (RecvError msg))) ∧
    sv_serve (px_peer p) (inl (append_with_header req h1) :: (chunk <$> chunks) ++ [chunk []; inr (peer_end (px_cancel env p) (RecvError msg))]) =
      IoRet (px_peer p', e) ∧
    (px_cancel env p = None → holds req (J ++ concat chunks) p') ∧ (holds req J p' ∨ holds req (J ++ concat chunks) p')).
Proof.
  intros Hp Hc Hr. pose (L := proxy_laws (S := S) (P := P) GetPrefixRangeEnd status_of env h1). split_and!.
  - exact (@law_waits _ _ _ L req J p chunks [chunk []] Hp Hc Hr (or_intror eq_refl)).
  - exact (@law_commits _ _ _ L req J p chunks Hp Hc Hr).
  - intros err. exact (@law_aborts _ _ _ L req J p chunks err Hp Hc Hr).
  - intros msg. by apply proxy_breaks.
Qed.
End proxied.

(** ** A concrete cluster *)

Module AppendCluster.
(** Of the URLs of its endpoints. *)
#[export] Instance url : UrlParser := λ s,
  inl {| url_IsAbs := String.prefix "http://" s; url_Scheme := "http"; url_Host := String.substring 7 (String.length s - 7) s; url_Path := "" |}.
#[export] Instance ops : ReplicaSpool spool_node := spool_node_ops demo_encode.
#[export] Instance laws : ReplicaSpoolLaws spool_node := spool_node_laws demo_encode.

Definition request : AppendRequest := mkAppendRequest None "a/bb" false 0 [].
(** The errors of handlers have the code Unknown. *)
Definition unknown (e : recv_err) : rpc_error := (CodeOther, match e with RecvEOF => EOF | RecvError msg => ReadError msg end).

Definition resolution_of (r : resolver (Journal * nat)) (req : AppendRequest) : Header :=
  match resolve prefix_end r None (append_args req) [] with Ret (Some (inl res)) => res_Header res | _ => Pipeline.demo_header end.

(** Broker [two] is the primary, and only replica, of [a/bb], and has resolved that before. *)
Definition h0 : Header := resolution_of Routes.after request.
Definition spool : FS * Spool := (demo_fs, NewSpool "a/bb").
Definition pln : pipeline spool_node (server spool_node) :=
  mkPipeline h0 (demo_spool_node spool) [mkPeer Routes.local None None ReplicateResponse_zero None] 0.
Definition index : Index := mkIndex [] [] 0 true.
Definition round_two : round (Journal * nat) (server spool_node) (conn unit) :=
  mkRound Routes.after None [] (index, []) None 0 (λ _, inr "no peer") index 0 (inr (CodeOther, ReadError "no peer")) None.
Definition env_two (st : Journal * nat → channels spool_node (server spool_node)) (n : nat) : list (round (Journal * nat) (server spool_node) (conn unit)) := [round_two].
Definition rep : Journal * nat := ("a/bb", 0%nat).
Definition two : broker spool_node (Journal * nat) := mkBroker (λ _, mkChannels (Some pln) None) 0.

#[export] Instance server_two : AppendServer (broker spool_node (Journal * nat)) := broker_server prefix_end unknown env_two.
#[export] Instance laws_two : AppendServerLaws (broker spool_node (Journal * nat)) := broker_laws prefix_end unknown env_two rep h0.

Lemma request_ok hdr : AppendRequest_Validate (append_with_header request hdr) = None ↔ Header_Validate hdr = None.
Proof. unfold AppendRequest_Validate. cbn. by destruct (Header_Validate hdr). Qed.

Lemma primary_two req : append_args req = append_args request ∨ append_args req = append_args (append_with_header request h0) → primary_for prefix_end env_two rep h0 req.
Proof.
  intros Hreq st n p _ Hinv. exists round_two, []. split; [done|]. split; [|done|done|].
  - assert (∃ res, resolve prefix_end Routes.after None (append_args req) [] = Ret (Some (inl res)) ∧ res_Header res = h0 ∧ res_status res = Status_OK ∧
      res_replica res = Some rep ∧ ∃ spec, res_journalSpec res = Some spec ∧ MayWrite (Flags spec) = true ∧ codec_supported (sf_CompressionCodec (js_Fragment spec)) = true)
      as (res & Hres & Hh & Hst & Hrep & spec & Hs & Hw & Hc).
    { destruct Hreq as [Heq|Heq]; rewrite Heq; (eexists; split; [vm_compute; reflexivity|]); do 3 (split; [vm_compute; reflexivity|]); eexists; split_and!; vm_compute; reflexivity. }
    exists res, spec. rewrite Hh. split_and!; [exact Hres|exact Hst|exact Hs|exact Hw|exact Hc|exact Hrep|vm_compute; reflexivity|left; vm_compute; reflexivity].
  - pose proof (law_Frag _ Hinv) as ->. destruct (law_bounds _ Hinv) as [Hb _]. pose proof (a_fragment_len (sp_abs (pl_spool p))). cbn in *. unfold blen in *. lia.
Qed.

Lemma two_holds req : append_args req = append_args request ∨ append_args req = append_args (append_with_header request h0) →
  AppendRequest_Validate req = None → ar_Journal req = "a/bb" → broker_holds prefix_end env_two rep h0 req [] two.
Proof.
  intros Hreq Hval Hj. split; [by rewrite Hj|by apply primary_two|vm_compute; reflexivity|].
  exists pln, (abs demo_fs (NewSpool "a/bb")). split_and!; [done| |by rewrite Hj|by split|done|done]. split.
  - split; [vm_compute; discriminate|]. eexists. split; [vm_compute; reflexivity|done].
  - split; [|reflexivity]. apply demo_node_inv; [split; [apply demo_fs_inv|apply NewSpool_inv]|vm_compute; by split_and!].
  - apply Forall_singleton. by split.
Qed.

(** Broker [one] proxies to [two]. Should the client's stream break, its first call closes the RPC to [two], and later ones are canceled. *)
Abbreviation broker_two := (broker spool_node (Journal * nat)).
Definition h1 : Header := resolution_of Routes.resolver_one request.
Definition env_one (x : broker_two) (n : nat) : list (round (Journal * nat) (server spool_node) (conn broker_two)) :=
  [mkRound Routes.resolver_one None [] (index, []) None 0 (λ _, inr "no peer") index 0 (inl (connect x []))
     (match n with O => None | _ => Some ((CodeCanceled, ReadError "context canceled"), "context canceled") end)].
Definition one_at (n : nat) : proxy spool_node (server spool_node) broker_two (Journal * nat) := mkProxy two (λ _, mkChannels None None) n.
Definition one := one_at 0.

#[export] Instance server_one : AppendServer (proxy spool_node (server spool_node) broker_two (Journal * nat)) :=
  proxy_server prefix_end unknown env_one.
#[export] Instance laws_one : AppendServerLaws (proxy spool_node (server spool_node) broker_two (Journal * nat)) :=
  proxy_laws prefix_end unknown env_one h1.

Lemma same_header : h1 = h0.
Proof. vm_compute. reflexivity. Qed.

Lemma one_holds n : proxy_holds prefix_end env_one h1 request [] (one_at n).
Proof.
  split; [done| |].
  - intros x m. eexists _, []. assert (∃ res, resolve prefix_end Routes.resolver_one None (append_args request) [] = Ret (Some (inl res)) ∧ res_Header res = h1 ∧
      res_status res = Status_OK ∧ res_replica res = None ∧ ∃ spec, res_journalSpec res = Some spec ∧ MayWrite (Flags spec) = true)
      as (res & Hres & Hh & Hst & Hrep & spec & Hs & Hw).
    { eexists. split; [vm_compute; reflexivity|]. do 3 (split; [vm_compute; reflexivity|]). eexists. split; vm_compute; reflexivity. }
    exists res, spec. split; [reflexivity|]. split; [reflexivity|]. split_and!; [exact Hres|exact Hst|exact Hs|exact Hw|exact Hrep|exact Hh].
  - rewrite same_header. apply two_holds; [by right| |reflexivity]. apply request_ok. vm_compute. reflexivity.
Qed.
End AppendCluster.
Import (hints) AppendCluster.

Lemma primary_serves_appends_witness :
  ∃ b' hdr f, sv_serve AppendCluster.two [inl AppendCluster.request; chunk (str_bytes "ab"); chunk (str_bytes "c"); chunk []; inr RecvEOF] =
      IoRet (b', inl (mkAppendResponse Status_OK hdr (Some f))) ∧
    sv_holds AppendCluster.request (str_bytes "abc") b' ∧ f_Begin f = 0 ∧ f_End f = 3.
Proof.
  destruct (primary_serves_appends prefix_end AppendCluster.unknown AppendCluster.env_two AppendCluster.rep AppendCluster.h0
    AppendCluster.request [] AppendCluster.two [str_bytes "ab"; str_bytes "c"]) as [Hc _].
  - apply AppendCluster.two_holds; [by left|reflexivity|reflexivity].
  - split; [by repeat constructor|]. vm_compute. discriminate.
  - destruct Hc as [(b' & hdr & f & Hs & Hb & Hcm) _]; [by left|]. exists b', hdr, f. split; [exact Hs|]. split; [exact Hb|].
    exact (cm_range _ _ _ _ _ Hcm).
Defined.

(** The client's stream breaks after the empty chunk: at the first call [two] commits; at the second it has an error too. *)
Lemma proxy_forwards_appends_witness :
  (∃ p', sv_serve AppendCluster.one
      [inl AppendCluster.request; chunk (str_bytes "ab"); chunk []; inr (RecvError "canceled")] = IoRet (p', inr (CodeOther, ReadError "canceled")) ∧
    proxy_holds prefix_end AppendCluster.env_one AppendCluster.h1 AppendCluster.request (str_bytes "ab") p') ∧
  (∃ p' e, sv_serve (AppendCluster.one_at 1)
      [inl AppendCluster.request; chunk (str_bytes "ab"); chunk []; inr (RecvError "canceled")] = IoRet (p', inr (CodeOther, ReadError "canceled")) ∧
    sv_serve AppendCluster.two [inl (append_with_header AppendCluster.request AppendCluster.h1); chunk (str_bytes "ab"); chunk []; inr (RecvError "context canceled")] =
      IoRet (px_peer p', e)).
Proof.
  assert (room [] [str_bytes "ab"]) as Hr by (split; [by repeat constructor|]; vm_compute; discriminate). split.
  - destruct (proxy_forwards_appends prefix_end AppendCluster.unknown AppendCluster.env_one AppendCluster.h1 AppendCluster.request [] AppendCluster.one [str_bytes "ab"])
      as (_ & _ & _ & Hbr); [exact (AppendCluster.one_holds 0)|by left|exact Hr|].
    destruct (Hbr "canceled") as (p' & e & Hs & _ & Hp & _). exists p'. split; [exact Hs|by apply Hp].
  - destruct (proxy_forwards_appends prefix_end AppendCluster.unknown AppendCluster.env_one AppendCluster.h1 AppendCluster.request [] (AppendCluster.one_at 1) [str_bytes "ab"])
      as (_ & _ & _ & Hbr); [exact (AppendCluster.one_holds 1)|by left|exact Hr|].
    destruct (Hbr "canceled") as (p' & e & Hs & Hpeer & _). exists p', e. split; [exact Hs|exact Hpeer].
Defined.
