(* ===== verification/Appender.v ===== *)
(** * Appends of clients (src/v2/pkg/client/appender.go)

    An [Appender] adapts an Append RPC to an io.WriteCloser, and [Append] retries it on transport and routing errors. The
    client that begins RPCs is an argument; the theorems are of clients of the servers of AppendApi.v, over connections that
    may break at any call. *)
From S2P Require Import Prelude Encoding Protocol Labels JournalSpec Framing Spool Pipeline ClientReader AppendApi.
Local Open Scope Z_scope.

(** ** The appender *)

(** Errors: the named ones, of a context, of validation, of another status, of an RPC, and of a reader of content. *)
Inductive append_error :=
| ErrNotJournalPrimaryBroker
| ErrWrongAppendOffset
| AppendCtxErr (e : ctx_error)
| AppendValidationErr (e : ValidationError)
| AppendStatusErr (s : Status)
| AppendRPCErr (e : rpc_error)
| AppendReadErr (e : read_error).

(** Of other errors the code is unknown, and they are returned as they are. *)
Definition map_append_err (ctx : option ctx_error) (e : append_error) : append_error :=
  match e with
  | AppendRPCErr err => match mapGRPCCtxErr ctx err with ErrCtx c => AppendCtxErr c | _ => AppendRPCErr err end
  | e => e
  end.

Definition AppendResponse_zero : AppendResponse := mkAppendResponse Status_OK (mkHeader (mkProcessID "" "") (mkRoute [] 0 []) (mkEtcd 0 0 0 0)) None.

Section appender.
Context {C : Type} `{AppendStream C, UrlParser}.

(** [ca_routes]: the routes it advised its client of. *)
Record Appender := mkClientAppender {
  ca_Request : AppendRequest;
  ca_Response : AppendResponse;
  ca_stream : option C;
  ca_routes : list (Journal * Route);
}.

Definition NewAppender (req : AppendRequest) : Appender := mkClientAppender req AppendResponse_zero None [].

Definition Appender_Reset (a : Appender) : Appender := mkClientAppender (ca_Request a) AppendResponse_zero None (ca_routes a).

Definition ca_with_stream (a : Appender) (c : C) : Appender := mkClientAppender (ca_Request a) (ca_Response a) (Some c) (ca_routes a).
Definition ca_with_response (a : Appender) (resp : AppendResponse) : Appender := mkClientAppender (ca_Request a) resp (ca_stream a) (ca_routes a).
Definition ca_with_route (a : Appender) (rt : Route) : Appender :=
  mkClientAppender (ca_Request a) (ca_Response a) (ca_stream a) (ca_routes a ++ [(ar_Journal (ca_Request a), rt)]).

(** [RecvMsg] into the response of the appender. *)
Definition recvResponse (a : Appender) (c : C) : ioresult (Appender * option append_error) :=
  io! (c, e) := ac_RecvMsg c in
  match e with
  | inl resp => IoRet (ca_with_response (ca_with_stream a c) resp, None)
  | inr err => IoRet (ca_with_stream a c, Some (AppendRPCErr err))
  end.

Definition sendMsg (a : Appender) (r : AppendRequest) : ioresult (Appender * option append_error) :=
  match ca_stream a with
  | None => IoPanic "invalid memory address or nil pointer dereference"
  | Some c =>
      io! (c, err) := ac_SendMsg c r in
      match err with
      | None => IoRet (ca_with_stream a c, None)
      | Some EOF => recvResponse a c
      | Some e => IoRet (ca_with_stream a c, Some (AppendRPCErr (CodeOther, e)))
      end
  end.

(** [dial] is what beginning the RPC gives, if it is begun. *)
Definition lazyInit (dial : C + rpc_error) (a : Appender) : ioresult (Appender * option append_error) :=
  match ca_stream a with
  | Some _ => IoRet (a, None)
  | None =>
      if String.eqb (ar_Journal (ca_Request a)) "" then IoRet (a, Some (AppendValidationErr (Build_ValidationError [] "expected Request.Journal")))
      else
        match ExtendContext (AppendRequest_Validate (ca_Request a)) "Request" with
        | Some err => IoRet (a, Some (AppendValidationErr err))
        | None =>
            match dial with
            | inr err => IoRet (a, Some (AppendRPCErr err))
            | inl c => sendMsg (ca_with_stream a c) (ca_Request a)
            end
        end
  end.

Definition Appender_Write (ctx : option ctx_error) (dial : C + rpc_error) (a : Appender) (p : bytes) : ioresult (Appender * Z * option append_error) :=
  if Nat.eqb (length p) 0 then IoRet (a, 0, None)
  else
    io! (a, err) := lazyInit dial a in
    io! (a, err) := match err with None => sendMsg a (chunk_request p) | Some e => IoRet (a, Some e) end in
    IoRet (a, match err with None => Z.of_nat (length p) | Some _ => 0 end, map_append_err ctx <$> err).

Definition status_append_error (s : Status) : option append_error :=
  match s with
  | Status_OK => None
  | NOT_JOURNAL_PRIMARY_BROKER => Some ErrNotJournalPrimaryBroker
  | WRONG_APPEND_OFFSET => Some ErrWrongAppendOffset
  | s => Some (AppendStatusErr s)
  end.

Definition Appender_Close (ctx : option ctx_error) (dial : C + rpc_error) (a : Appender) : ioresult (Appender * option append_error) :=
  io! (a, err) :=
    io! (a, err) := lazyInit dial a in
    match err with
    | Some e => IoRet (a, Some e)
    | None =>
        io! (a, err) := sendMsg a (chunk_request []) in
        match err, ca_stream a with
        | Some e, _ => IoRet (a, Some e)
        | None, None => IoPanic "invalid memory address or nil pointer dereference"
        | None, Some c =>
            io! c := ac_CloseSend c in
            io! (a, err) := recvResponse a c in
            match err with
            | Some e => IoRet (a, Some e)
            | None =>
                match AppendResponse_Validate (ca_Response a) with
                | Some e => IoRet (a, Some (AppendValidationErr e))
                | None => IoRet (ca_with_route a (h_Route (as_Header (ca_Response a))), status_append_error (as_Status (ca_Response a)))
                end
            end
        end
    end in
  IoRet (a, map_append_err ctx <$> err).

Definition Appender_Abort (a : Appender) : ioresult Appender :=
  match ca_stream a with
  | None => IoRet a
  | Some c => io! (c, _) := CloseAndRecv c in IoRet (ca_with_stream a c)
  end.

(** The buffer of [io.Copy]. *)
Definition copySize : nat := Z.to_nat 32768.

(** [io.Copy] of a section reader, into the appender. *)
Fixpoint copy_loop (fuel : nat) (ctx : option ctx_error) (dial : C + rpc_error) (a : Appender) (src : input) : ioresult (Appender * option append_error) :=
  match fuel with
  | O => IoPanic "no progress"
  | S fuel =>
      let '(src, b, er) := input_Read src copySize in
      io! (a, nw, ew) := if Nat.eqb (length b) 0 then IoRet (a, 0, None) else Appender_Write ctx dial a b in
      match ew, er with
      | Some e, _ => IoRet (a, Some e)
      | None, Some e => IoRet (a, if bool_decide (e = EOF) then None else Some (AppendReadErr e))
      | None, None => copy_loop fuel ctx dial a src
      end
  end.

Fixpoint copies (ctx : option ctx_error) (dial : C + rpc_error) (a : Appender) (content : list input) : ioresult (Appender * option append_error) :=
  match content with
  | [] => IoRet (a, None)
  | src :: content =>
      io! (a, err) := copy_loop (discard_fuel src) ctx dial a src in
      match err with Some e => IoRet (a, Some e) | None => copies ctx dial a content end
  end.

(** An attempt of [Append]: what is written is committed, or aborted. *)
Definition append_attempt (ctx : option ctx_error) (dial : C + rpc_error) (req : AppendRequest) (content : list input) : ioresult (Appender * option append_error) :=
  io! (a, err) := copies ctx dial (NewAppender req) content in
  match err with
  | None => Appender_Close ctx dial a
  | Some e => io! a := Appender_Abort a in IoRet (a, Some e)
  end.
End appender.
Arguments Appender : clear implicits.

Definition retries (e : append_error) : bool :=
  match e with
  | AppendRPCErr (CodeUnavailable, _) | ErrNotJournalPrimaryBroker => true
  | _ => false
  end.

(** ** Append *)

(** The client of RPCs: a call of [Append], which gives a stream or fails; and what it is once the stream was left. *)
Class AppendClient (W C : Type) := {
  jc_Append : W → W * (C + rpc_error);
  jc_left : W → C → ioresult W;
}.

(** What an attempt meets: the error of the context, and the one it has if it is done when the attempt backs off. *)
Record append_try := mkAppendTry { at_ctx : option ctx_error; at_done : option ctx_error }.

Section append.
Context {W C : Type} `{AppendStream C, AppendClient W C, UrlParser}.

(** [None] while it backs off. *)
Fixpoint Append (w : W) (req : AppendRequest) (content : list input) (tries : list append_try)
    : ioresult (W * option (AppendResponse * option append_error)) :=
  match tries with
  | [] => IoRet (w, None)
  | t :: tries =>
      let '(w, dial) := jc_Append w in
      io! (a, err) := append_attempt (at_ctx t) dial req content in
      io! w := match ca_stream a with Some c => jc_left w c | None => IoRet w end in
      match err with
      | None => IoRet (w, Some (ca_Response a, None))
      | Some e =>
          if negb (retries e) then IoRet (w, Some (ca_Response a, Some e))
          else
            match at_done t with
            | Some e => IoRet (w, Some (ca_Response a, Some (AppendCtxErr e)))
            | None => Append w req content tries
            end
      end
  end.
End append.

(** ** Networks *)

(** A server behind a network: for each call what happens to its connection, or the error with which it is not made. *)
Record net (X : Type) := mkNet { nt_server : X; nt_calls : list (list net_event + rpc_error) }.
Arguments mkNet {X}. Arguments nt_server {X}. Arguments nt_calls {X}.

#[global] Instance net_client {X} `{AppendServer X} : AppendClient (net X) (conn X) := {|
  jc_Append w :=
    match nt_calls w with
    | [] => (w, inl (connect (nt_server w) []))
    | inl evs :: calls => (mkNet (nt_server w) calls, inl (connect (nt_server w) evs))
    | inr err :: calls => (mkNet (nt_server w) calls, inr err)
    end;
  jc_left w c := io! x := conn_left c in IoRet (mkNet x (nt_calls w));
|}.

(** Connections that break with the errors [Q] only. *)
Definition steady (Q : rpc_error → Prop) (evs : list net_event) : Prop := Forall (λ e, match e with Break err _ => Q err | _ => True end) evs.

(** ** One attempt *)

Section attempt.
Context {X : Type} `{AppendServerLaws X}.
Context (req : AppendRequest) (J B : bytes) (x : X).
Context (Hholds : sv_holds req J x) (Hroom : blen J + blen B ≤ MaxInt64).

Abbreviation client := (Appender (conn X)).

(** The chunks that may have been sent: of a prefix of the content, or all of it and the empty chunk. A server that does not
    take the offset does not look at them. *)
Definition shape (cs : list bytes) : Prop := continues req J →
  Forall (λ c, c ≠ []) cs ∧ (∃ rest, concat cs ++ rest = B) ∨
  ∃ cs', cs = cs' ++ [[]] ∧ Forall (λ c, c ≠ []) cs' ∧ concat cs' = B.

Definition sent_msgs (cs : list bytes) : list append_msg := inl req :: (chunk <$> cs).

Lemma room_prefix cs rest : Forall (λ c, c ≠ []) cs → concat cs ++ rest = B → room J cs.
Proof. intros Hne Hb. split; [done|]. rewrite <- Hb, blen_app in Hroom. unfold blen in *. lia. Qed.

(** What the server is left with. *)
Definition outcome_ok (J' : bytes) : Prop := J' = J ∨ continues req J ∧ J' = J ++ B.

(** Messages that the client left the server with: they end with what ended the stream. *)
Lemma server_ends cs err : shape cs → ∃ x' e J', sv_serve x (sent_msgs cs ++ [inr err]) = IoRet (x', e) ∧ sv_holds req J' x' ∧ outcome_ok J' ∧
  ((∀ cs', cs ≠ cs' ++ [[]]) ∨ ¬ continues req J → J' = J) ∧
  (∀ resp, err = RecvEOF → e = inl resp → as_Status resp = Status_OK →
    J' = J ++ B ∧ ∃ hdr f, resp = mkAppendResponse Status_OK hdr (Some f) ∧ committed req J B hdr f) ∧
  (continues req J → err = RecvEOF → (∃ cs', cs = cs' ++ [[]]) → ∃ resp, e = inl resp ∧ as_Status resp = Status_OK).
Proof.
  intros Hs. destruct (decide (ar_Offset req = 0 ∨ ar_Offset req = blen J)) as [Hc|Hc].
  2:{ destruct (law_refuses req J x cs err Hholds Hc) as (x' & e & Hv & Hx & Hw). exists x', e, J. split_and!; [done|done|by left|done| |done].
      intros resp He -> Hst. destruct (Hw He) as (hdr & [= ->] & _). done. }
  destruct (Hs Hc) as [[Hne [rest Hb]]|(cs' & -> & Hne & Hb)].
  - destruct (law_aborts req J x cs err Hholds Hc (room_prefix _ _ Hne Hb)) as (x' & e & Hv & Hx). exists x', (inr e), J. split_and!; [done|done|by left|done|done|].
    intros _ _ [cs' ->]. apply Forall_app in Hne as [_ [? _]%Forall_cons]. done.
  - unfold sent_msgs. rewrite fmap_app. cbn [app fmap list_fmap]. rewrite <- app_assoc. cbn [app].
    assert (room J cs') as Hr by (apply (room_prefix cs' []); [done|by rewrite app_nil_r]).
    destruct err as [|msg].
    + destruct (law_commits req J x cs' Hholds Hc Hr) as (x' & hdr & f & Hv & Hx & Hcm). rewrite Hb in *.
      exists x', (inl (mkAppendResponse Status_OK hdr (Some f))), (J ++ B). split_and!; [done|done|by right| | |by intros; eexists].
      * intros [Hn|?]; [by destruct (Hn cs')|done].
      * intros resp _ [= <-] _. split; [done|]. by exists hdr, f.
    + destruct (law_breaks req J x cs' msg Hholds Hc Hr) as (x' & e & Hv & Hx). rewrite Hb in *.
      destruct Hx as [Hx|Hx]; eexists x', (inr e), _; (split; [exact Hv|]); (split; [exact Hx|]); split_and!; try done; [by left|by right|].
      intros [Hn|?]; [by destruct (Hn cs')|done].
Qed.

(** The chunks that were sent hold what was written so far, which is [done]. *)
Definition progress (cs : list bytes) (done : bytes) : Prop := continues req J → Forall (λ c, c ≠ []) cs ∧ concat cs = done.

Lemma progress_shape cs done rest : progress cs done → done ++ rest = B → shape cs.
Proof. intros Hp Hb Hc. destruct (Hp Hc) as [Hne <-]. left. split; [done|by exists rest]. Qed.

Lemma progress_open cs done : progress cs done → (∀ cs', cs ≠ cs' ++ [[]]) ∨ ¬ continues req J.
Proof.
  intros Hp. destruct (decide (ar_Offset req = 0 ∨ ar_Offset req = blen J)) as [Hc|Hc]; [left|by right].
  intros cs' ->. destruct (Hp Hc) as [[_ Hn]%Forall_app _]. by apply Forall_cons in Hn as [? _].
Qed.

Lemma progress_stops cs done rest err : progress cs done → done ++ rest = B →
  ∃ x' e, sv_serve x (sent_msgs cs ++ [inr err]) = IoRet (x', e) ∧ sv_holds req J x'.
Proof.
  intros Hp Hb. destruct (server_ends cs err (progress_shape _ _ _ Hp Hb)) as (x' & e & J' & Hs & Hx & _ & HJ & _ & _).
  rewrite HJ in Hx by by eapply progress_open. by exists x', e.
Qed.

(** While chunks are sent, the server waits, unless it refuses the request. *)
Lemma progress_waits cs done rest : progress cs done → done ++ rest = B →
  sv_serve x (sent_msgs cs) = IoRetry ∨
  ¬ continues req J ∧ ∃ x' e, sv_serve x (sent_msgs cs) = IoRet (x', e) ∧ sv_holds req J x'.
Proof.
  intros Hp Hb. destruct (progress_stops cs done rest RecvEOF Hp Hb) as (x' & e & Hs & Hx).
  destruct (law_prefix x _ _ _ Hs) as [Hw|Hw]; [by left|]. right. split; [|by exists x', e].
  intros Hc. destruct (Hp Hc) as [Hne Hcs]. rewrite <- Hcs in Hb.
  pose proof (law_waits req J x cs [] Hholds Hc (room_prefix _ _ Hne Hb) (or_introl eq_refl)) as Hw'. rewrite app_nil_r in Hw'.
  unfold sent_msgs in Hw. congruence.
Qed.

(** ** States of the appender *)

Context (dial : conn X + rpc_error) (Hdial : match dial with inl c => ∃ evs, c = connect x evs | inr _ => True end).

Record sending (a : client) (cs : list bytes) : Prop := {
  sd_request : ca_Request a = req;
  sd_conn : ∃ c, ca_stream a = Some c ∧ cn_serve c = sv_serve x ∧ cn_broken c = None ∧ cn_sent c = sent_msgs cs;
}.

Definition ready (a : client) (done : bytes) : Prop := ca_Request a = req ∧
  (ca_stream a = None ∧ done = [] ∨ ∃ cs, sending a cs ∧ progress cs done).

(** The server has answered what it was sent; or nothing was. *)
Definition over (a : client) (J' : bytes) : Prop := ca_Request a = req ∧
  match ca_stream a with
  | None => J' = J
  | Some c => cn_serve c = sv_serve x ∧ ∃ x' e, sv_serve x (cn_sent c) = IoRet (x', e) ∧ sv_holds req J' x'
  end.

(** Errors that a connection may break with, or that it is not made for. *)
Context (Q : rpc_error → Prop) (HQ : ∀ err, Q err → fst err = CodeUnavailable).

Definition steady_dial : Prop := match dial with inl c => steady Q (cn_events c) | inr err => Q err end.

(** What breaks does so with these errors, and the server takes the offset. *)
Definition peaceful (a : client) : Prop := continues req J ∧
  match ca_stream a with Some c => cn_received c = false ∧ steady Q (cn_events c) | None => steady_dial end.

(** The call fails with one of these errors, or [P]. *)
Definition fine (err : option append_error) (P : Prop) : Prop :=
  match err with None => P | Some e => ∃ err, e = AppendRPCErr err ∧ Q err end.

Lemma fine_mono err (P P' : Prop) : (P → P') → fine err P → fine err P'.
Proof. destruct err; cbn; auto. Qed.

Lemma fine_map ctx err P : fine err P → fine (map_append_err ctx <$> err) P.
Proof.
  destruct err as [e|]; [|done]. intros ([code e'] & -> & Hq). exists (code, e'). split; [|done]. specialize (HQ _ Hq). cbn in HQ. subst code.
  cbn. by destruct ctx as [[]|].
Qed.

Lemma over_break (a : client) l done rest c err msg evs : ca_Request a = req → progress l done → done ++ rest = B →
  cn_serve c = sv_serve x → cn_sent c = sent_msgs l → over (ca_with_stream a (cn_break c err msg evs)) J.
Proof.
  intros Hr Hp Hb Hv Hs. split; [done|]. cbn. split; [done|]. rewrite Hs.
  destruct (progress_stops l done rest (RecvError msg) Hp Hb) as (x' & e & Hx & ?). by exists x', e.
Qed.

(** A chunk is sent, or nothing will be. *)
Definition sends (a' : client) (cs : list bytes) (b : bytes) : Prop :=
  ∃ cs', sending a' cs' ∧ (cs' = cs ++ [b] ∨ cs' = cs ∧ ¬ continues req J).

Lemma sendMsg_spec a cs done b rest : sending a cs → progress cs done → done ++ rest = B →
  ∃ a' err, sendMsg a (chunk_request b) = IoRet (a', err) ∧
    match err with None => sends a' cs b | Some _ => over a' J end ∧ (peaceful a → fine err (peaceful a')).
Proof.
  intros [Hr (c & Hc & Hv & Hbr & Hs)] Hp HB.
  assert (∀ evs, sends (ca_with_stream a (cn_push c (inl (chunk_request b)) evs)) cs b) as Hpush.
  { intros evs. exists (cs ++ [b]). split; [|by left].
    split; [done|]. eexists. split; [done|]. cbn [cn_push cn_serve cn_broken cn_sent]. split_and!; [done..|].
    rewrite Hs. unfold sent_msgs. by rewrite fmap_app. }
  unfold sendMsg. rewrite Hc. cbn [ac_SendMsg conn_stream]. unfold conn_SendMsg. rewrite Hbr, Hv, Hs.
  unfold peaceful at 1. rewrite Hc.
  assert (∀ evs, ∃ a' err,
    (io! (c, err) := match sv_serve x (sent_msgs cs) with
       | IoRet _ => IoRet (cn_receive c (cn_received c) evs, Some EOF) | IoPanic msg => IoPanic msg
       | IoRetry => IoRet (cn_push c (inl (chunk_request b)) evs, None) end in
     match err with None => IoRet (ca_with_stream a c, None) | Some EOF => recvResponse a c
       | Some e => IoRet (ca_with_stream a c, Some (AppendRPCErr (CodeOther, e))) end) = IoRet (a', err) ∧
    match err with None => sends a' cs b | Some _ => over a' J end ∧ (continues req J ∧ cn_received c = false ∧ steady Q evs → fine err (peaceful a'))) as Hprompt.
  { intros evs. destruct (progress_waits cs done rest Hp HB) as [-> |(Hn & x' & e & Hx & Hh)]; cbn [io_bind].
    { eexists _, _. split; [done|]. split; [apply Hpush|]. intros (? & ? & ?). by split. }
    rewrite Hx. cbn [io_bind]. unfold recvResponse. cbn [ac_RecvMsg conn_stream]. unfold conn_RecvMsg. cbn [cn_receive cn_broken cn_received cn_events cn_serve cn_sent].
    rewrite Hbr, Hv, Hs. assert (∀ c', cn_serve c' = sv_serve x → cn_sent c' = sent_msgs cs → over (ca_with_stream a c') J) as Hover.
    { intros c' Hv' Hs'. split; [done|]. cbn. split; [done|]. rewrite Hs'. by exists x', e. }
    destruct (cn_received c); cbn [io_bind]; [eexists _, _; split; [done|]; split; [by apply Hover|by intros [? _]]|].
    assert (∃ a' err, (io! (c0, e0) := io! (_, e) := sv_serve x (sent_msgs cs) in
        IoRet (cn_receive (cn_receive c false evs) (match e with inl _ => true | inr _ => false end) (tail evs), e) in
        match e0 with inl resp => IoRet (ca_with_response (ca_with_stream a c0) resp, None)
        | inr err => IoRet (ca_with_stream a c0, Some (AppendRPCErr err)) end) = IoRet (a', err) ∧
      match err with None => sends a' cs b | Some _ => over a' J end ∧ (continues req J ∧ false = false ∧ steady Q evs → fine err (peaceful a'))) as Hrecv.
    { rewrite Hx. cbn [io_bind]. destruct e as [resp|err]; eexists _, _; (split; [done|]); (split; [|by intros [? _]]).
      - exists cs. split; [|by right]. split; [done|]. eexists. split; [done|]. done.
      - by apply Hover. }
    destruct evs as [|[| |err msg] evs]; try exact Hrecv. cbn [io_bind]. eexists _, _. split; [done|]. split; [|by intros [? _]].
    by eapply over_break. }
  destruct (cn_events c) as [|[| |err msg] evs]; [apply (Hprompt [])| | |].
  - cbn [tail]. destruct (Hprompt evs) as (a' & err & Hsnd & Hres & Hpf). exists a', err. split_and!; [done..|].
    intros (? & ? & Hst%Forall_cons). apply Hpf. split_and!; [done..|apply Hst].
  - cbn [io_bind]. eexists _, _. split; [done|]. split; [apply Hpush|]. intros (? & ? & Hst%Forall_cons). split; [done|]. split; [done|apply Hst].
  - cbn [io_bind]. unfold recvResponse. cbn. eexists _, _. split; [done|]. split; [by eapply over_break|].
    intros (_ & _ & [Hq _]%Forall_cons). by exists err.
Qed.

Lemma lazyInit_spec a done : ready a done →
  ∃ a' err, lazyInit dial a = IoRet (a', err) ∧
    match err with None => ∃ cs, sending a' cs ∧ progress cs done | Some _ => over a' J end ∧ (peaceful a → fine err (peaceful a')).
Proof.
  intros [Hr [[Hnone ->]|(cs & Hs & Hp)]]; unfold lazyInit.
  2:{ destruct (sd_conn a cs Hs) as (c & Hc & _). rewrite Hc. eexists _, _. split; [done|]. split; [by exists cs|done]. }
  rewrite Hnone, Hr. destruct (law_preamble req J x Hholds) as [Hval Hj]. rewrite (proj2 (String.eqb_neq _ _) Hj), Hval. cbn [ExtendContext].
  unfold peaceful at 1. rewrite Hnone. unfold steady_dial. destruct dial as [c|err]; [destruct Hdial as [evs ->]|].
  2:{ eexists _, _. split; [done|]. split; [split; [done|by rewrite Hnone]|]. intros [_ Hq]. by exists err. }
  unfold sendMsg. cbn [ca_with_stream ca_stream ac_SendMsg conn_stream]. unfold conn_SendMsg, connect. cbn [cn_broken cn_events cn_serve cn_sent]. rewrite (law_start x).
  assert (∀ evs', ∃ a' (err : option append_error), IoRet (ca_with_stream (ca_with_stream a (mkConn (sv_serve x) [] false None evs)) (cn_push (mkConn (sv_serve x) [] false None evs) (inl req) evs'), None) = IoRet (a', err) ∧
    match err with None => ∃ cs, sending a' cs ∧ progress cs [] | Some _ => over a' J end ∧ (continues req J ∧ steady Q evs' → fine err (peaceful a'))) as Hpush.
  { intros evs'. eexists _, _. split; [done|]. split; [|by intros [? ?]; split_and!].
    exists []. split; [|done]. split; [done|]. by eexists. }
  destruct evs as [|[| |err msg] evs]; cbn [io_bind tail]; [|edestruct Hpush as (a' & err & Hx & Hres & Hpf); exists a', err; (split; [exact Hx|]); (split; [done|])..|].
  - destruct (Hpush []) as (a' & err & Hx & Hres & Hpf). exists a', err. split; [exact Hx|]. split; [done|]. intros [? ?]. by apply Hpf.
  - intros (? & [_ ?]%Forall_cons). by apply Hpf.
  - intros (? & [_ ?]%Forall_cons). by apply Hpf.
  - unfold recvResponse. cbn. destruct (law_broken req J x (RecvError msg) Hholds) as (x' & e & Hx & Hh). eexists _, _. split; [done|].
    split; [|intros (? & [Hq _]%Forall_cons); by exists err]. split; [done|]. cbn. split; [done|]. by exists x', (inr e).
Qed.

Lemma Appender_Write_spec ctx a done b rest : ready a done → b ≠ [] → (done ++ b) ++ rest = B →
  ∃ a' n err, Appender_Write ctx dial a b = IoRet (a', n, err) ∧
    match err with None => ready a' (done ++ b) ∧ n = blen b | Some _ => over a' J ∧ n = 0 end ∧ (peaceful a → fine err (peaceful a')).
Proof.
  intros Ha Hb HB. unfold Appender_Write. destruct (Nat.eqb_spec (length b) 0) as [Hz|_]; [by apply nil_length_inv in Hz|].
  destruct (lazyInit_spec a done Ha) as (a1 & e1 & -> & HW1 & Hp1). cbn [io_bind]. destruct e1 as [e|].
  { cbn [io_bind]. eexists _, _, _. split; [done|]. split; [done|]. intros Hpf. by apply fine_map, (Hp1 Hpf). }
  destruct HW1 as (cs & Hs & Hp). rewrite <- app_assoc in HB.
  destruct (sendMsg_spec a1 cs done b (b ++ rest) Hs Hp HB) as (a2 & e2 & -> & HW2 & Hp2). cbn [io_bind].
  eexists _, _, _. split; [done|]. split; [|intros Hpf; exact (fine_map ctx _ _ (Hp2 (Hp1 Hpf)))].
  destruct e2 as [e|]; split; try done. destruct HW2 as (cs' & Hs' & Hcs). split; [apply Hs'|]. right. exists cs'. split; [done|].
  intros Hcont. destruct Hcs as [-> |[_ ?]]; [|done]. destruct (Hp Hcont) as [Hne <-].
  split; [apply Forall_app; split; [done|by repeat constructor]|]. rewrite concat_app. cbn. by rewrite app_nil_r.
Qed.

(** Both of a stream that has been answered, and of one that the server waits on. *)
Lemma Abort_spec a done rest : over a J ∨ ready a done ∧ done ++ rest = B → ∃ a', Appender_Abort a = IoRet a' ∧ over a' J.
Proof.
  intros Ha. unfold Appender_Abort. destruct (ca_stream a) as [c|] eqn:Hc.
  2:{ exists a. split; [done|]. destruct Ha as [?|[[Hr _] _]]; [done|]. split; [done|by rewrite Hc]. }
  assert (ca_Request a = req ∧ cn_serve c = sv_serve x ∧ (cn_broken c = None → ∃ x' e, sv_serve x (cn_sent c ++ [inr RecvEOF]) = IoRet (x', e) ∧ sv_holds req J x') ∧
    (cn_broken c ≠ None → ∃ x' e, sv_serve x (cn_sent c) = IoRet (x', e) ∧ sv_holds req J x')) as (Hr & Hv & Hop & Hbr).
  { destruct Ha as [[Hr Ho]|[[Hr [[? _]|(cs & [_ (c' & Hc' & Hv & Hbr & Hs)] & Hp)]] Hb]]; [rewrite Hc in Ho|congruence|].
    - destruct Ho as (Hv & x' & e & Hx & Hh). split_and!; try done; intros _; exists x', e; [|done].
      by rewrite law_monotone by (by rewrite Hx).
    - rewrite Hc in Hc'. injection Hc' as <-. split_and!; [done..| |by rewrite Hbr]. intros _. rewrite Hs. by eapply progress_stops. }
  unfold CloseAndRecv. cbn [ac_CloseSend ac_RecvMsg conn_stream]. unfold conn_CloseSend, conn_RecvMsg.
  destruct (cn_broken c) as [err|] eqn:Eb; cbn [io_bind].
  { rewrite Eb. cbn [io_bind]. eexists. split; [done|]. split; [done|]. cbn. split; [done|]. by apply Hbr. }
  destruct (Hop eq_refl) as (x' & e & Hx & Hh). cbn [cn_push cn_broken cn_received cn_events]. rewrite Eb.
  assert (∀ c', cn_serve c' = sv_serve x → (∃ post, cn_sent c' = (cn_sent c ++ [inr RecvEOF]) ++ post) → over (ca_with_stream a c') J) as Hover.
  { intros c' Hv' [post Hs']. split; [done|]. cbn. split; [done|]. exists x', e. rewrite Hs'. by rewrite law_monotone by (by rewrite Hx). }
  cbn [cn_serve cn_sent]. cbn [io_bind cn_push cn_serve cn_sent]. rewrite Hv, Hx.
  destruct (cn_received c); [|destruct (cn_events c) as [|[| |err msg] evs]]; cbn [io_bind]; eexists; (split; [done|]); apply Hover; try done; cbn.
  all: try (by exists []; rewrite app_nil_r). by exists [inr (RecvError msg)].
Qed.

Lemma committed_valid resp hdr f b : resp = mkAppendResponse Status_OK hdr (Some f) → committed req J b hdr f → AppendResponse_Validate resp = None.
Proof.
  intros -> [_ _ _ Hf Hh]. unfold AppendResponse_Validate. cbn [as_Status as_Header as_Commit validateFragmentPtr].
  rewrite Hf, Hh. reflexivity.
Qed.

(** What [Close] returned without an error tells that the content was committed. *)
Definition closed_ok (a : client) (err : option append_error) (J' : bytes) : Prop := err = None →
  J' = J ++ B ∧ ∃ hdr f, ca_Response a = mkAppendResponse Status_OK hdr (Some f) ∧ committed req J B hdr f.

(** The response to a stream that is closed. *)
Lemma close_spec a cs : sending a cs → shape cs → (continues req J → ∃ cs', cs = cs' ++ [[]]) →
  ∃ c a' err J', ca_stream a = Some c ∧
    (io! (a, err) := recvResponse a (cn_push c (inr RecvEOF) (cn_events c)) in
     match err with
     | Some e => IoRet (a, Some e)
     | None =>
         match AppendResponse_Validate (ca_Response a) with
         | Some e => IoRet (a, Some (AppendValidationErr e))
         | None => IoRet (ca_with_route a (h_Route (as_Header (ca_Response a))), status_append_error (as_Status (ca_Response a)))
         end
     end) = IoRet (a', err) ∧
    over a' J' ∧ outcome_ok J' ∧ closed_ok a' err J' ∧ (peaceful a → fine err True).
Proof.
  intros [Hr (c & Hc & Hv & Hbr & Hs)] Hsh Hfull. exists c.
  destruct (server_ends cs RecvEOF Hsh) as (x' & e & J' & Hx & Hh & Hout & _ & Hok & Hfin).
  assert (∀ c', cn_serve c' = sv_serve x → (∃ post, cn_sent c' = (cn_sent c ++ [inr RecvEOF]) ++ post) → over (ca_with_stream a c') J') as Hover.
  { intros c' Hv' [post Hs']. split; [done|]. cbn. split; [done|]. exists x', e. rewrite Hs', Hs. by rewrite law_monotone by (by rewrite Hx). }
  unfold recvResponse. cbn [ac_RecvMsg conn_stream]. unfold conn_RecvMsg. cbn [cn_push cn_broken cn_received cn_events cn_serve cn_sent]. rewrite Hbr, Hv, Hs, Hx.
  unfold peaceful. rewrite Hc. destruct (cn_received c) eqn:Erc.
  { cbn [io_bind]. eexists _, _, J'. split_and!; [done|done|apply Hover; [done|]|done|done|by intros (_ & ? & _)]. exists []. by rewrite app_nil_r. }
  assert (∀ evs, ∃ a' err, (io! (a, err) := io! (c0, e0) := io! (_, e) := IoRet (x', e) in
      IoRet (cn_receive (cn_push c (inr RecvEOF) (cn_events c)) (match e with inl _ => true | inr _ => false end) evs, e) in
      match e0 with inl resp => IoRet (ca_with_response (ca_with_stream a c0) resp, None)
      | inr err => IoRet (ca_with_stream a c0, Some (AppendRPCErr err)) end in
    match err with
    | Some e => IoRet (a, Some e)
    | None => match AppendResponse_Validate (ca_Response a) with
       | Some e => IoRet (a, Some (AppendValidationErr e))
       | None => IoRet (ca_with_route a (h_Route (as_Header (ca_Response a))), status_append_error (as_Status (ca_Response a))) end
    end) = IoRet (a', err) ∧ over a' J' ∧ closed_ok a' err J' ∧ (continues req J → err = None)) as Hrecv.
  { intros evs. cbn [io_bind].
    assert (over (ca_with_stream a (cn_receive (cn_push c (inr RecvEOF) (cn_events c)) (match e with inl _ => true | inr _ => false end) evs)) J') as Ho
      by (apply Hover; [done|exists []; by rewrite app_nil_r]).
    destruct e as [resp|err]; cbn [io_bind]; [|eexists _, _; split_and!; [done|exact Ho|done|by intros Hcont; destruct (Hfin Hcont eq_refl (Hfull Hcont)) as (? & ? & _)]].
    cbn [ca_with_response ca_Response]. destruct (decide (as_Status resp = Status_OK)) as [Hst|Hst].
    - destruct (Hok resp eq_refl eq_refl Hst) as (HJ & hdr & f & Hresp & Hcm). rewrite (committed_valid _ _ _ _ Hresp Hcm), Hst.
      eexists _, _. split_and!; [done|exact Ho| |done]. intros _. split; [done|]. by exists hdr, f.
    - destruct (AppendResponse_Validate resp).
      { eexists _, _. split_and!; [done|exact Ho|done|]. intros Hcont. destruct (Hfin Hcont eq_refl (Hfull Hcont)) as (? & [= <-] & ?). done. }
      eexists _, _. split_and!; [done|exact Ho|intros Hn; by destruct (as_Status resp)|].
      intros Hcont. destruct (Hfin Hcont eq_refl (Hfull Hcont)) as (? & [= <-] & ?). done. }
  destruct (cn_events c) as [|[| |err msg] evs].
  1-3: edestruct Hrecv as (a' & err & Hx' & Ho & Hcl & Hpf); exists a', err, J'; (split; [done|]); (split; [exact Hx'|]); split_and!; try done; intros [Hc' _]; by rewrite (Hpf Hc').
  cbn [io_bind]. eexists _, _, J'. split_and!; [done|done|apply Hover; [done|by exists [inr (RecvError msg)]]|done|done|].
  intros (_ & _ & [Hq _]%Forall_cons). by exists err.
Qed.

Lemma Close_spec ctx a : ready a B →
  ∃ a' err J', Appender_Close ctx dial a = IoRet (a', err) ∧ over a' J' ∧ outcome_ok J' ∧ closed_ok a' err J' ∧ (peaceful a → fine err True).
Proof.
  intros Ha. unfold Appender_Close. destruct (lazyInit_spec a B Ha) as (a1 & e1 & -> & HW1 & Hp1). cbn [io_bind].
  assert (B ++ [] = B) as HB by apply app_nil_r. destruct e1 as [e|].
  { cbn [io_bind]. eexists _, _, J. split_and!; [done|done|by left|done|]. intros Hpf. by apply fine_map, (Hp1 Hpf). }
  destruct HW1 as (cs & Hs & Hp). destruct (sendMsg_spec a1 cs B [] [] Hs Hp HB) as (a2 & e2 & -> & HW2 & Hp2). cbn [io_bind]. destruct e2 as [e|].
  { cbn [io_bind]. eexists _, _, J. split_and!; [done|done|by left|done|]. intros Hpf. by apply fine_map, (Hp2 (Hp1 Hpf)). }
  destruct HW2 as (cs' & Hs' & Hcs). destruct (close_spec a2 cs' Hs') as (c & a' & err & J' & Hc & Hcl & Ho & Hout & Hok & Hpf).
  - intros Hc. destruct Hcs as [-> |[_ ?]]; [|done]. right. exists cs. split; [done|]. by apply Hp.
  - intros Hc. destruct Hcs as [-> |[_ ?]]; [|done]. by exists cs.
  - rewrite Hc. destruct (sd_conn _ _ Hs') as (c' & Hc' & _ & Hbr & _). assert (c' = c) as -> by congruence.
    cbn [ac_CloseSend conn_stream]. unfold conn_CloseSend. rewrite Hbr. cbn [io_bind]. rewrite Hcl. cbn [io_bind].
    exists a', (map_append_err ctx <$> err), J'. split_and!; [done..| |].
    + intros Hn. apply Hok. by destruct err.
    + intros Hpf0. by apply fine_map, Hpf, Hp2, Hp1.
Qed.

(** Where copying stops with an error. *)
Definition stopped (a : client) : Prop := over a J ∨ ∃ done rest, ready a done ∧ done ++ rest = B.

Lemma copySize_pos : (0 < copySize)%nat.
Proof. unfold copySize. lia. Qed.

Lemma copy_loop_spec ctx fuel : ∀ a src done rest, ready a done → (done ++ in_rest src) ++ rest = B →
  (length (in_reads src) + length (in_rest src) < fuel)%nat →
  ∃ a' err, copy_loop fuel ctx dial a src = IoRet (a', err) ∧
    match err with None => ready a' (done ++ in_rest src) | Some _ => stopped a' end ∧
    (peaceful a → in_err src = EOF → fine err (peaceful a')).
Proof.
  induction fuel as [|fuel IH]; intros a src done rest Ha HB Hf; [lia|]. cbn [copy_loop].
  destruct (input_Read src copySize) as [[src' b] er] eqn:Hrd.
  pose proof (λ He, input_progress src copySize src' b er Hrd copySize_pos He) as Hprog.
  destruct (input_Read_spec _ _ _ _ _ Hrd) as (Hrest & _ & He' & _ & Hend & _). rewrite Hrest in HB. rewrite (app_assoc done b) in HB.
  assert (∃ a1 n e1, (if Nat.eqb (length b) 0 then IoRet (a, 0, None) else Appender_Write ctx dial a b) = IoRet (a1, n, e1) ∧
    match e1 with None => ready a1 (done ++ b) | Some _ => over a1 J end ∧ (peaceful a → fine e1 (peaceful a1))) as (a1 & n & e1 & -> & HW & Hpf).
  { destruct (Nat.eqb_spec (length b) 0) as [->%nil_length_inv|Hne].
    - eexists a, 0, None. split; [done|]. by rewrite app_nil_r.
    - rewrite <- app_assoc in HB. destruct (Appender_Write_spec ctx a done b (in_rest src' ++ rest) Ha) as (a1 & n & e1 & Hw & HW & Hpf); [by intros ->|done|].
      exists a1, n, e1. split; [done|]. split; [|done]. by destruct e1, HW. }
  cbn [io_bind]. destruct e1 as [e|].
  { eexists _, _. split; [done|]. split; [by left|]. intros Hp _. by apply Hpf. }
  destruct er as [e|].
  - destruct (Hend ltac:(done)) as [[= ->] Hnil]. rewrite Hrest, Hnil, app_nil_r in *. case_bool_decide.
    + eexists _, _. split; [done|]. split; [done|]. intros Hp _. by apply Hpf.
    + eexists _, _. split; [done|]. split; [|done]. right. by exists (done ++ b), rest.
  - destruct (IH a1 src' (done ++ b) rest HW HB) as (a2 & e2 & Hc & HC & Hpf2); [specialize (Hprog eq_refl); lia|].
    exists a2, e2. split; [done|]. rewrite Hrest, app_assoc. split; [done|]. intros Hp He. apply Hpf2; [by apply Hpf|congruence].
Qed.

Lemma copies_spec ctx content : ∀ a done rest, ready a done → (done ++ concat (in_rest <$> content)) ++ rest = B →
  ∃ a' err, copies ctx dial a content = IoRet (a', err) ∧
    match err with None => ready a' (done ++ concat (in_rest <$> content)) | Some _ => stopped a' end ∧
    (peaceful a → Forall (λ src, in_err src = EOF) content → fine err (peaceful a')).
Proof.
  induction content as [|src content IH]; intros a done rest Ha HB; cbn [copies].
  { eexists _, _. split; [done|]. cbn. by rewrite app_nil_r. }
  rewrite fmap_cons in *. cbn [concat] in *. rewrite app_assoc in HB.
  destruct (copy_loop_spec ctx (discard_fuel src) a src done (concat (in_rest <$> content) ++ rest) Ha) as (a1 & e1 & -> & HC & Hpf1);
    [by rewrite <- HB, <- !app_assoc|unfold discard_fuel; lia|]. cbn [io_bind]. destruct e1 as [e|].
  { eexists _, _. split; [done|]. split; [done|]. intros Hp [He _]%Forall_cons. by apply Hpf1. }
  destruct (IH a1 _ rest HC HB) as (a2 & e2 & Hc & HC2 & Hpf2). exists a2, e2. split; [done|]. rewrite app_assoc. split; [done|].
  intros Hp [He Hes]%Forall_cons. apply Hpf2; [by apply Hpf1|done].
Qed.

(** An attempt leaves the journal as it was, or appends the content to it, as it tells when it does not fail. *)
Lemma attempt_spec ctx content : concat (in_rest <$> content) = B →
  ∃ a err J', append_attempt ctx dial req content = IoRet (a, err) ∧ over a J' ∧ outcome_ok J' ∧ closed_ok a err J' ∧
    (continues req J → steady_dial → Forall (λ src, in_err src = EOF) content → fine err True).
Proof.
  intros HB. unfold append_attempt. assert (ready (NewAppender req) []) as Ha by (split; [done|by left]).
  destruct (copies_spec ctx content (NewAppender req) [] [] Ha) as (a1 & e1 & -> & HC & Hpf); [by rewrite app_nil_r|]. cbn [io_bind].
  destruct e1 as [e|].
  - assert (∃ a', Appender_Abort a1 = IoRet a' ∧ over a' J) as (a' & -> & Ho).
    { destruct HC as [Ho|(done & rest & Hr & Hb)]; [by eapply (Abort_spec a1 [] []); left|by eapply Abort_spec; right]. }
    cbn [io_bind]. eexists _, _, J. split_and!; [done|done|by left|done|]. intros Hc Hd He. exact (Hpf (conj Hc Hd) He).
  - cbn [app] in HC. rewrite HB in HC. destruct (Close_spec ctx a1 HC) as (a' & err & J' & Hcl & Ho & Hout & Hok & Hpf2).
    exists a', err, J'. split_and!; [done..|]. intros Hc Hd He. apply Hpf2, (Hpf (conj Hc Hd) He).
Qed.
End attempt.

(** ** Appends of clients *)

Section client.
Context {X : Type} `{AppendServerLaws X}.
Context (req : AppendRequest) (content : list input).

(** The content of an append, and the journal after [k] of them. *)
Definition body : bytes := concat (in_rest <$> content).
Definition appended (J : bytes) (k : nat) : bytes := J ++ concat (replicate k body).

Lemma appended_S J k : appended (J ++ body) k = appended J (S k).
Proof. unfold appended. cbn [replicate concat]. by rewrite <- app_assoc. Qed.

(** [k] appends of the content, the last of which is the one that was answered; and one at most if an offset was asked for. *)
Record append_ends (J : bytes) (k : nat) (res : option (AppendResponse * option append_error)) : Prop := {
  ad_answer : ∀ resp, res = Some (resp, None) → ∃ k' hdr f, k = S k' ∧ resp = mkAppendResponse Status_OK hdr (Some f) ∧
    committed req (appended J k') body hdr f;
  ad_offset : ar_Offset req ≠ 0 → body ≠ [] → (k ≤ 1)%nat ∧ (ar_Offset req < blen J → k = 0%nat);
}.

Lemma dialed (w : net X) : ∃ evs_dial calls, jc_Append w = (mkNet (nt_server w) calls, evs_dial) ∧ calls = tail (nt_calls w) ∧
  match evs_dial with inl c => ∃ evs, c = connect (nt_server w) evs | inr _ => True end ∧
  (∀ Q, match nt_calls w with [] => True | inl evs :: _ => steady Q evs | inr err :: _ => Q err end → steady_dial evs_dial Q).
Proof.
  destruct w as [x [|[evs|err] calls]]; eexists _, _; (split; [done|]); (split; [done|]); (split; [by try eexists|]); intros Q HQ; [|done..].
  by apply Forall_nil.
Qed.

Lemma left_over (w : net X) calls J J' (a : Appender (conn X)) : over req J (nt_server w) a J' → sv_holds req J (nt_server w) →
  ∃ x', match ca_stream a with Some c => jc_left (mkNet (nt_server w) calls) c | None => IoRet (mkNet (nt_server w) calls) end = IoRet (mkNet x' calls) ∧ sv_holds req J' x'.
Proof.
  intros [_ Ho] Hh. destruct (ca_stream a) as [c|]; [|subst J'; by eexists].
  destruct Ho as (Hv & x' & e & Hx & Hh'). exists x'. split; [|done]. cbn. unfold conn_left. rewrite Hv, Hx. done.
Qed.

Lemma Append_ends tries : ∀ (w : net X) J, sv_holds req J (nt_server w) → blen J + Z.of_nat (length tries) * blen body ≤ MaxInt64 →
  ∃ w' res k, Append w req content tries = IoRet (w', res) ∧ (k ≤ length tries)%nat ∧ sv_holds req (appended J k) (nt_server w') ∧ append_ends J k res.
Proof.
  induction tries as [|t tries IH]; intros w J Hh Hroom; cbn [Append].
  { exists w, None, 0%nat. split_and!; [done|done|by unfold appended; rewrite app_nil_r|]. split; [done|]. split; [lia|done]. }
  destruct (dialed w) as (dial & calls & -> & _ & Hdial & _). cbn [length] in Hroom.
  assert (blen J + blen body ≤ MaxInt64) as Hroom1 by (unfold blen in *; lia).
  destruct (attempt_spec req J body (nt_server w) Hh Hroom1 dial Hdial (λ _, False) (λ _, False_ind _) (at_ctx t) content eq_refl) as (a & err & J' & -> & Hov & Hout & Hok & _).
  cbn [io_bind]. destruct (left_over w calls J J' a Hov Hh) as (x' & -> & Hh'). cbn [io_bind].
  assert (∀ res, (∀ resp, res = Some (resp, None) → err = None ∧ resp = ca_Response a) →
    ∃ w' res' k, IoRet (mkNet x' calls, res) = IoRet (w', res') ∧ (k ≤ S (length tries))%nat ∧ sv_holds req (appended J k) (nt_server w') ∧ append_ends J k res') as Hend.
  { intros res Hres. destruct (decide (J' = J ++ body)) as [-> |Hne].
    - eexists _, _, 1%nat. split; [done|]. split_and!; [lia|by unfold appended; cbn; rewrite app_nil_r|]. split.
      + intros resp Hr. destruct (Hres resp Hr) as [He ->]. destruct (Hok He) as (_ & hdr & f & Hresp & Hcm). exists 0%nat, hdr, f.
        unfold appended. cbn. by rewrite app_nil_r.
      + intros Ho Hb. split; [lia|]. destruct Hout as [HJ|[[?|Hc] _]]; [|done|lia]. apply (f_equal length) in HJ. rewrite length_app in HJ.
        destruct body; [done|cbn in HJ; lia].
    - destruct Hout as [-> |[_ ?]]; [|done].
      eexists _, _, 0%nat. split; [done|]. split_and!; [lia|by unfold appended; rewrite app_nil_r|]. split; [|split; [lia|done]].
      intros resp Hr. destruct (Hres resp Hr) as [He _]. by destruct (Hok He). }
  destruct err as [e|]; [|apply Hend; by intros resp [= <-]].
  destruct (negb (retries e)); [apply Hend; by intros|]. destruct (at_done t); [apply Hend; by intros|].
  assert (blen J' + Z.of_nat (length tries) * blen body ≤ MaxInt64) as Hroom'.
  { destruct Hout as [-> |[_ ->]]; rewrite ?blen_app; unfold blen in *; lia. }
  destruct (IH (mkNet x' calls) J' Hh' Hroom') as (w' & res & k & Hrun & Hk & Hhk & [Hans Hoff]).
  destruct Hout as [-> |[Hcont ->]].
  - exists w', res, k. split_and!; [done|cbn [length]; lia|done|by split].
  - exists w', res, (S k). rewrite <- appended_S. split_and!; [done|cbn [length]; lia|done|]. split.
    + intros resp Hr. destruct (Hans resp Hr) as (k' & hdr & f & -> & Hresp & Hcm). exists (S k'), hdr, f. by rewrite <- appended_S.
    + intros Ho Hb. destruct (Hoff Ho Hb) as [_ Hk0]. assert (k = 0%nat) as ->; [apply Hk0|by destruct Hcont; [done|split; lia]].
      rewrite blen_app. destruct Hcont as [?|Hc]; [done|]. assert (0 < blen body); [|lia]. unfold blen. destruct body; [done|cbn; lia].
Qed.

(** C3: [Append] appends at least once, in whole copies. Over connections that break at any call, and notice late that an RPC is over: it neither panics nor blocks, and it leaves the journal with some
    number of copies of the content, one per attempt at most, and nothing in part. If it returns without an error there is one at least, and
    the response is that of the last: its offsets, its length and its SHA-1. If the request names the offset to append at there is one copy at most. *)
Theorem append_whole_copies tries (w : net X) J :
  sv_holds req J (nt_server w) → blen J + Z.of_nat (length tries) * blen body ≤ MaxInt64 →
  ∃ w' res k, Append w req content tries = IoRet (w', res) ∧ (k ≤ length tries)%nat ∧ sv_holds req (appended J k) (nt_server w') ∧
    (∀ resp, res = Some (resp, None) → ∃ k' hdr f, k = S k' ∧ resp = mkAppendResponse Status_OK hdr (Some f) ∧ committed req (appended J k') body hdr f) ∧
    (ar_Offset req ≠ 0 → body ≠ [] → (k ≤ 1)%nat).
Proof.
  intros Hh Hroom. destruct (Append_ends tries w J Hh Hroom) as (w' & res & k & Hrun & Hk & Hhk & [Hans Hoff]).
  exists w', res, k. split_and!; [done..|]. intros Ho Hb. by apply Hoff.
Qed.

(** Transport errors. *)
Definition unavailable (err : rpc_error) : Prop := fst err = CodeUnavailable.
Definition transient (call : list net_event + rpc_error) : Prop := match call with inl evs => steady unavailable evs | inr err => unavailable err end.

(** The connection of the next call does not break. *)
Definition calm (calls : list (list net_event + rpc_error)) : Prop :=
  match calls with [] => True | inl evs :: _ => steady (λ _, False) evs | inr _ :: _ => False end.

Lemma attempt_ends Q t (w : net X) J : (∀ err, Q err → unavailable err) →
  sv_holds req J (nt_server w) → blen J + blen body ≤ MaxInt64 → continues req J → Forall (λ src, in_err src = EOF) content →
  match nt_calls w with [] => True | inl evs :: _ => steady Q evs | inr err :: _ => Q err end → at_done t = None → ∀ tries,
  ∃ w' J', nt_calls w' = tail (nt_calls w) ∧ sv_holds req J' (nt_server w') ∧
    ((∃ hdr f, J' = J ++ body ∧ committed req J body hdr f ∧ Append w req content (t :: tries) = IoRet (w', Some (mkAppendResponse Status_OK hdr (Some f), None))) ∨
     (∃ err, Q err) ∧ (J' = J ∨ J' = J ++ body) ∧ Append w req content (t :: tries) = Append w' req content tries).
Proof.
  intros HQ Hh Hroom Hc Heof Hst Hd tries. cbn [Append]. destruct (dialed w) as (dial & calls & -> & Hcalls & Hdial & Hsd).
  destruct (attempt_spec req J body (nt_server w) Hh Hroom dial Hdial Q HQ (at_ctx t) content eq_refl) as (a & err & J' & -> & Hov & Hout & Hok & Hpf).
  cbn [io_bind]. destruct (left_over w calls J J' a Hov Hh) as (x' & -> & Hh'). cbn [io_bind]. exists (mkNet x' calls), J'. split; [done|]. split; [done|].
  specialize (Hpf Hc (Hsd Q Hst) Heof). destruct err as [e|].
  - right. destruct Hpf as ([code e'] & -> & Hq). split; [by eexists|]. split; [destruct Hout as [?|[_ ?]]; auto|].
    pose proof (HQ _ Hq) as Hu. unfold unavailable in Hu. cbn in Hu. subst code. cbn [retries negb]. by rewrite Hd.
  - left. destruct (Hok eq_refl) as (-> & hdr & f & -> & Hcm). by exists hdr, f.
Qed.

Lemma Append_retries t tries' early : ∀ tries late (w : net X) J, length tries = length early → nt_calls w = early ++ late →
  sv_holds req J (nt_server w) → blen J + (1 + Z.of_nat (length early)) * blen body ≤ MaxInt64 →
  continues req J → early = [] ∨ ar_Offset req = 0 → Forall (λ src, in_err src = EOF) content →
  Forall transient early → calm late → Forall (λ t, at_done t = None) (tries ++ [t]) →
  ∃ w' k hdr f, (k ≤ length early)%nat ∧ Append w req content (tries ++ t :: tries') = IoRet (w', Some (mkAppendResponse Status_OK hdr (Some f), None)) ∧
    sv_holds req (appended J (S k)) (nt_server w') ∧ committed req (appended J k) body hdr f.
Proof.
  induction early as [|call early IH]; intros [|t' tries] late w J Hlen Hcalls Hh Hroom Hc Hoff Heof Htr Hcalm Hdone; try done; cbn [app length] in *.
  - apply Forall_cons in Hdone as [Hd _]. destruct (attempt_ends (λ _, False) t w J (λ _, False_ind _) Hh) with (tries := tries')
      as (w' & J' & _ & Hh' & [(hdr & f & -> & Hcm & ->)|[[_ []] _]]); [unfold blen in *; lia|done..|by rewrite Hcalls|done|].
    exists w', 0%nat, hdr, f. unfold appended. cbn. rewrite !app_nil_r. done.
  - apply Forall_cons in Hdone as [Hd Hdone]. apply Forall_cons in Htr as [Htr Hearly].
    destruct (attempt_ends unavailable t' w J (λ _ h, h) Hh) with (tries := tries ++ t :: tries')
      as (w' & J' & Hcalls' & Hh' & [(hdr & f & -> & Hcm & ->)|(_ & HJ & ->)]); [unfold blen in *; lia|done..|by rewrite Hcalls; destruct call|done| |].
    { exists w', 0%nat, hdr, f. split; [lia|]. unfold appended. cbn. rewrite !app_nil_r. done. }
    assert (ar_Offset req = 0) as Ho by (by destruct Hoff). rewrite Hcalls in Hcalls'. cbn [app tail] in Hcalls'.
    destruct (IH tries late w' J' ltac:(lia) Hcalls' Hh') as (w2 & k & hdr & f & Hk & -> & Hh2 & Hcm); try done; [|by left|by right|].
    { destruct HJ as [-> | ->]; rewrite ?blen_app; unfold blen in *; lia. }
    destruct HJ as [-> | ->]; [by exists w2, k, hdr, f; split; [lia|]|].
    exists w2, (S k), hdr, f. rewrite !appended_S in *. split; [lia|]. done.
Qed.

(** C15: [Append] succeeds. Of content whose readers do not fail, to a server that holds the journal, and while the context is not done at any
    back-off: where connections break, or are not made, with transport errors, [Append] retries, and over the first connection that holds it returns without an
    error and with the response of the broker; there is then one copy of the content for each attempt at most. The request names no offset to append at; or it names the
    end of the journal, and then the connection of its first attempt holds (the retry of an attempt which did commit would be refused).
    Offsets stay within MaxInt64 for that many copies. *)
Theorem append_succeeds t tries tries' early late (w : net X) J : length tries = length early → nt_calls w = early ++ late →
  Forall transient early → calm late → Forall (λ t, at_done t = None) (tries ++ [t]) →
  sv_holds req J (nt_server w) → blen J + (1 + Z.of_nat (length early)) * blen body ≤ MaxInt64 →
  continues req J → early = [] ∨ ar_Offset req = 0 → Forall (λ src, in_err src = EOF) content →
  ∃ w' k hdr f, (k ≤ length early)%nat ∧ Append w req content (tries ++ t :: tries') = IoRet (w', Some (mkAppendResponse Status_OK hdr (Some f), None)) ∧
    sv_holds req (appended J (S k)) (nt_server w') ∧ committed req (appended J k) body hdr f.
Proof. intros Hlen Hcalls Htr Hcalm Hdone Hh Hroom Hc Hoff Heof. by eapply Append_retries. Qed.
End client.

(** ** Responses that come early *)

Section early.
Context {X : Type} `{AppendServer X, UrlParser}.
Context (x x' : X) (req : AppendRequest) (resp : AppendResponse).
Context (Hreq : AppendRequest_Validate req = None) (Hj : ar_Journal req ≠ "").
(** A server that answers the first message. *)
Context (Hearly : ∀ rest, sv_serve x (inl req :: rest) = IoRet (x', inl resp)).

Lemma early_lazyInit evs : lazyInit (inl (connect x (Lag :: evs))) (NewAppender req) =
  IoRet (ca_with_stream (NewAppender req) (mkConn (sv_serve x) [inl req] false None evs), None).
Proof. unfold lazyInit. cbn. by rewrite (proj2 (String.eqb_neq _ _) Hj), Hreq. Qed.

(** A response that is there when the client sends its next message is lost: [sendMsg] takes it for the success of the send, and the
    error of [Close] is then the EOF of a stream that was read. Append fails with it, also where it would have retried. *)
Theorem early_response_lost t tries calls : at_ctx t = None →
  Append (mkNet x (inl [Lag; Prompt] :: calls)) req [] (t :: tries) = IoRet (mkNet x' calls, Some (resp, Some (AppendRPCErr (CodeOther, EOF)))).
Proof.
  intros Ht. cbn [Append jc_Append net_client nt_calls nt_server]. unfold append_attempt. cbn [copies io_bind]. unfold Appender_Close.
  rewrite early_lazyInit. cbn [io_bind]. unfold sendMsg. cbn [ca_with_stream ca_stream ac_SendMsg conn_stream]. unfold conn_SendMsg.
  cbn [cn_broken cn_events cn_serve cn_sent]. rewrite Hearly. cbn [io_bind]. unfold recvResponse. cbn [ac_RecvMsg conn_stream]. unfold conn_RecvMsg.
  cbn [cn_receive cn_broken cn_events cn_serve cn_sent cn_received tail]. rewrite Hearly. cbn. rewrite Ht. cbn. unfold conn_left. cbn. rewrite Hearly. done.
Qed.

(** The same response is acted on if it comes later. *)
Theorem late_response_retried t tries calls : at_done t = None →
  as_Status resp = NOT_JOURNAL_PRIMARY_BROKER → AppendResponse_Validate resp = None →
  Append (mkNet x (inl [Lag; Lag] :: calls)) req [] (t :: tries) = Append (mkNet x' calls) req [] tries.
Proof.
  intros Hd Hst Hv. cbn [Append jc_Append net_client nt_calls nt_server]. unfold append_attempt. cbn [copies io_bind]. unfold Appender_Close.
  rewrite early_lazyInit. cbn [io_bind]. unfold sendMsg. cbn [ca_with_stream ca_stream ac_SendMsg conn_stream]. unfold conn_SendMsg.
  cbn [cn_broken cn_events cn_push cn_serve cn_sent io_bind ca_with_stream ca_stream ac_CloseSend conn_stream]. unfold conn_CloseSend, recvResponse.
  cbn [cn_broken cn_events cn_push cn_serve cn_sent cn_received io_bind ac_RecvMsg conn_stream app]. unfold conn_RecvMsg.
  cbn [cn_broken cn_events cn_push cn_serve cn_sent cn_received io_bind app]. rewrite Hearly.
  cbn [io_bind ca_with_response ca_with_stream ca_Response]. rewrite Hv, Hst. cbn [io_bind status_append_error fmap option_fmap option_map map_append_err retries negb].
  cbn. unfold conn_left. cbn. rewrite Hearly, Hd. done.
Qed.
End early.

(** ** Concrete appends *)

Import (hints) AppendCluster.

Definition demo_body : list input := [mkInput (str_bytes "ab") EOF [(1%nat, true)]; mkInput (str_bytes "c") EOF []].
Definition demo_try : append_try := mkAppendTry None None.

(** A connection that breaks when the response is awaited, and one that does not. *)
Definition demo_net := mkNet AppendCluster.one
  [inl [Prompt; Prompt; Lag; Prompt; Prompt; Break (CodeUnavailable, ReadError "transport is closing") "canceled"]; inl []].

(** The first attempt has committed, and the second does again. *)
Lemma append_whole_copies_witness :
  ∃ w' res k, Append demo_net AppendCluster.request demo_body [demo_try; demo_try] = IoRet (w', res) ∧ (k ≤ 2)%nat ∧
    sv_holds AppendCluster.request (concat (replicate k (str_bytes "abc"))) (nt_server w') ∧ k = 2%nat.
Proof.
  destruct (append_whole_copies AppendCluster.request demo_body [demo_try; demo_try] demo_net []) as (w' & res & k & Hrun & Hk & Hh & Hans & _).
  - exact (AppendCluster.one_holds 0).
  - vm_compute. discriminate.
  - exists w', res, k. split; [exact Hrun|]. split; [exact Hk|]. split; [exact Hh|].
    assert (∃ resp, res = Some (resp, None) ∧ f_Begin <$> as_Commit resp = Some 3) as (resp & -> & Hf).
    { vm_compute in Hrun. injection Hrun as _ <-. eexists. split; [reflexivity|]. vm_compute. reflexivity. }
    destruct (Hans resp eq_refl) as (k' & hdr & f & -> & -> & [_ [Hb _] _ _ _]). cbn in Hf. injection Hf as Hf.
    destruct k' as [|[|k']]; [|reflexivity|cbn in Hk; lia]. rewrite Hf in Hb. discriminate.
Defined.

(** The first call is not made, and the second finds the broker. *)
Lemma append_succeeds_witness :
  ∃ w' k hdr f, Append (mkNet AppendCluster.two [inr (CodeUnavailable, ReadError "connection refused"); inl [Lag; Lag]]) AppendCluster.request demo_body [demo_try; demo_try] =
      IoRet (w', Some (mkAppendResponse Status_OK hdr (Some f), None)) ∧ f_Begin f = blen (appended demo_body [] k).
Proof.
  destruct (append_succeeds AppendCluster.request demo_body demo_try [demo_try] [] [inr (CodeUnavailable, ReadError "connection refused")] [inl [Lag; Lag]]
    (mkNet AppendCluster.two [inr (CodeUnavailable, ReadError "connection refused"); inl [Lag; Lag]]) []) as (w' & k & hdr & f & _ & Hrun & _ & Hcm).
  - reflexivity.
  - reflexivity.
  - by repeat constructor.
  - by repeat constructor.
  - by repeat constructor.
  - apply AppendCluster.two_holds; [by left|reflexivity|reflexivity].
  - vm_compute. discriminate.
  - by left.
  - by right.
  - by repeat constructor.
  - exists w', k, hdr, f. split; [exact Hrun|]. apply (cm_range _ _ _ _ _ Hcm).
Defined.

(** An append at an offset that is not the end of the journal. *)
Definition demo_request : AppendRequest := mkAppendRequest None "a/bb" false 7 [].

Lemma early_response_lost_witness :
  ∃ x' resp, Append (mkNet AppendCluster.two [inl [Lag; Prompt]]) demo_request [] [demo_try] =
      IoRet (mkNet x' [], Some (resp, Some (AppendRPCErr (CodeOther, EOF)))) ∧ as_Status resp = WRONG_APPEND_OFFSET.
Proof.
  assert (∃ x' resp, (∀ rest, sv_serve AppendCluster.two (inl demo_request :: rest) = IoRet (x', inl resp)) ∧ as_Status resp = WRONG_APPEND_OFFSET)
    as (x' & resp & Hs & Hst).
  { eexists _, _. split; [|shelve]. intros rest. vm_compute. reflexivity. Unshelve. reflexivity. }
  exists x', resp. split; [|exact Hst]. apply (early_response_lost AppendCluster.two x' demo_request resp); [reflexivity|discriminate|exact Hs|reflexivity].
Defined.
